(* ===== verification/_CoqProject ===== *)
-Q . S2P
Prelude.v
Segment.v
Egress.v
Ingress.v
Cborwalk.v
Preflight.v
Scanner.v
Protocol.v
MiniProtocols.v
Handshake.v
TxSubmission.v
Kes.v
Vrf.v
E34.v
E34Real.v
Eligibility.v
Praos.v
Leader.v
Header.v
Selection.v
Genesis.v
Pbft.v
Pipeline.v
Scripts.v
ShelleyRules.v
ShelleyLedger.v
Address.v
Params.v
BlockState.v
MultiAsset.v
Conway.v
ConwayLedger.v
Witness.v
WitnessLedger.v
Fees.v
VerifyBlock.v
Gov.v
GovLedger.v
Rewards.v
