(* ===== verification/Prelude.v ===== *)
(** * gouroboros: a verification development

    gouroboros is a Go implementation of the Ouroboros network protocols and of
    the Cardano ledger rules. A node reads segments from a connection; the muxer
    hands them to mini-protocols; each mini-protocol reassembles CBOR messages,
    runs its state machine and calls its handlers; blocks received go through a
    pipeline that validates and applies them in order; headers are checked by
    the consensus rules, transactions by the rules of their era; stake earns
    rewards at the epoch boundary. This library models those parts from the
    source under src/ and proves what makes them correct.

    ** Conventions

    A Go integer is a [Z], and every operation that can leave the range of its
    type is written with the wrap-around of that type ([u8], [u16], [u32],
    [u64] below). Bytes are [Z] values in range, byte strings lists of them; a
    [big.Int] is a [Z], a [big.Rat] a [Q] or a pair in lowest terms; a map is a
    [gmap]. A function that returns an error returns [result E T], with one
    constructor of [E] for each error the source distinguishes. State is passed
    explicitly; where goroutines share it, each critical section is one function
    and their interleavings are a step relation or a list of events. Code that
    is not under src/ (hash functions, curve and field arithmetic, decoders of
    other packages, a consumer's callbacks) is a parameter: a [Class] of
    operations, with the documented facts the code relies on in a second
    [Class] of laws, and an instance that satisfies them for the witnesses. A
    loop that is not structural takes fuel; a lemma shows that the fuel given is
    enough, so that no theorem holds because a function gave up.

    ** Files

    - Prelude: integers, errors, big-endian codes, sums over lists and maps,
      byte order, the tactics [zbool], [peel] and [dmatch], the hint database.
    - Segment (muxer/segment.go, Send and readLoop of muxer/muxer.go, the
      splitting in protocol.sendLoop): reading back what was written gives the
      segments, and a message cut into segments is recovered exactly.
    - Egress (muxer/egress.go): the turn to write, shared by the senders; mutual
      exclusion, service in arrival order, and a bound on every wait.
    - Ingress (muxer/muxer.go): the connection budget, the queue and forwarder of
      each protocol role, routing, registration, suspension and shutdown, as
      events that interleave freely; the accounting is exact, queues lose
      nothing, admission is exact, backpressure never wedges the read loop, and a
      restarted protocol gets all its bytes back.
    - Cborwalk (protocol/internal/cborwalk): the length of one CBOR item, against
      a grammar of items. The loop's fuel is the number of bytes left plus the
      open frames, each turn consuming one of them.
    - Scanner (protocol/message_scanner.go): the incremental scanner of messages;
      it terminates, reports only messages, and gives the same answer however a
      message is cut into segments.
    - Protocol (protocol/state.go, protocol.go): state maps, agency, transitions,
      admission of messages and pipelining; two endpoints, put together with a
      queue in each direction, stay in step.
    - MiniProtocols (protocol/<name>/<name>.go): the state maps of the sixteen
      mini-protocols as data with their match functions, checked to be closed,
      and every state reachable and able to end by messages that the side with
      agency sends.
    - Preflight (protocol/internal/cborpreflight, protocol/handshake/
      collection_decode.go): the checks of a message before it is decoded;
      they accept exactly the messages whose collections are well formed and
      within their limits.
    - Handshake (protocol/handshake, protocol/versions.go, versiondata.go, the
      set-up of connection.go): negotiation of the version and what a connection
      starts from it. Messages travel as bytes and pass the checks of Preflight;
      the encoder and decoder are an interface whose laws speak of these bytes.
      Both ends agree, and what one starts the other serves.
    - TxSubmission (protocol/txsubmission): both sides of transaction submission;
      replies are accepted exactly when legal, and the two windows agree.
    - Kes (kes/kes.go, sign.go): key-evolving signatures over Blake2b and
      Ed25519; signing and verifying, forward security, the signature codec.
    - Vrf (vrf/vrf.go): the verifiable random function over SHA-512 and the
      Edwards curve; proofs verify, the batch encoding equals the single one, the
      Legendre symbol's addition chain has the exponent of Euler's criterion.
    - E34, E34Real, Eligibility, Praos (consensus/e34.go, eligibility.go,
      eligibility_cache.go): 34-digit fixed-point arithmetic, the leader
      predicate and its cache; the comparison agrees with the real exponential,
      the predicate elects the naturals below a threshold that is, for twelve
      percentages as the coefficient, the probability of Praos up to [10 ^ -24];
      the cache is an invisible least-recently-used list. The logarithm's two loops take
      [bracketFuel] and [bisectFuel] turns, shown sufficient for every input.
    - Leader (consensus/leader.go, tachys.go): the slot lottery over a VRF signer
      and the search for the next slot led, which returns the first one; the
      public Tachys schedule, which follows the stake distribution exactly. The
      search's fuel is the number of slots, the binary search's that of pools.
    - Header (consensus/validate.go, block.go, ledger/common/opcert.go): the
      validation of a header, which accepts exactly what its specification
      [header_ok] says, and the construction of one; what a producer with keys
      from the VRF and KES files builds, the validator accepts. Signers are
      interfaces with a soundness class that those files discharge; the CBOR
      encoder is a parameter.
    - Selection (consensus/selection.go): chain selection by length and by
      density, with the [float64] arithmetic of the tips.
    - Genesis (consensus/genesis): the window of Ouroboros Genesis and the choice
      of the fragment that is densest in it.
    - Pbft (consensus/byron): the signature window and threshold of Byron, the
      delegation state and its delays, fees and slots.
    - Pipeline (pipeline/apply_stage.go): the ordered application of blocks that
      arrive in any order, with cancellation and failing callbacks.
    - ShelleyRules, ShelleyLedger (ledger/shelley/rules.go, ledger/common): the
      transaction rules of the Shelley era, and an accounting ledger on which an
      accepted transaction conserves ada, but for the deposit of a credential
      registered twice; the delegation rule against a specification; distinct
      VRF keys.
    - Address (ledger/common/address.go): Shelley addresses to and from bytes and
      parts, pointers as variable-length integers, the strict and the lenient
      decoder, the checks that depend on the era, and the credentials the rules
      read. Decoding gives back every address that was built; a value that is
      decoded into twice keeps its old staking part when the new bytes have
      none. The CBOR of Byron addresses is a parameter.
    - BlockState (ledger/common/block_state.go): the view of a ledger state with
      the effects of a block's earlier transactions laid over it. The
      specification is a ledger of plain maps updated by each effect; the view
      over a state that reports a ledger reports the ledger after the block.
    - MultiAsset (ledger/common/common.go, ledger_cbor.go): values of several
      assets; their sum and comparison are those of quantities, the size of the
      encoding computed without it is its length, and the limit of the compact
      form is exact. The balance of assets is the one of the value rules.
    - Conway, ConwayLedger (ledger/conway/rules.go, ledger/verify_block.go, and
      the value rules of ledger/mary, alonzo and babbage): deposits, withdrawals,
      delegation, collateral and conservation of value over the states of
      BlockState, the order of the era's rules and the loop over a block's
      transactions. A block that the rules accept conserves ada and every asset
      in the ledger its view reports, with what is minted under the policy of
      zeros counted as ada; the rule on deposits is exact; a
      transaction whose scripts failed costs its collateral and nothing else.
      The view of a transaction's scripts is a parameter, which Witness gives,
      and so are the rules that are not modelled.
    - Scripts (ledger/common/script.go, witness.go, verify.go): native scripts
      and their evaluation against the meaning [Holds], script hashes, witness
      sets; hashes and signatures are a class of operations.
    - Witness, WitnessLedger (ledger/common/rules.go, verify.go, witness.go,
      duplicates.go, ledger/common/script): which keys must sign and which
      scripts must agree, the two walks over script purposes, the view of a
      transaction's scripts, signatures verified ahead. An accepted transaction
      has the authority of all it does; the walks agree on a set of certificates
      and differ on a list with duplicates; a cached result of verification is
      the one of verifying in place, or SHA-256 collides.
    - Fees (ledger/common/fees.go, ref_scripts.go, ledger/conway/ref_scripts.go,
      rules.go): the least fee of a transaction with its execution units and the
      tiers of its reference scripts, the least value of outputs and the limits
      on sizes, units and reference scripts. The fee rule is exact against sums
      of rationals; the size rule of a block against the ledger at each
      transaction's turn; the loop over tiers has one step of fuel per tier.
    - VerifyBlock (ledger/verify_block.go, verify_kes.go, verify_opcert.go): the
      verification of a whole block, which puts Vrf, Kes, ConwayLedger and Fees
      together. What it accepts of Conway is given exactly; its checks of a
      header are those of Header up to the largest [int64] slot; a header fixes
      the components that its era hashes, or Blake2b collides.
    - Params (ledger/conway/pparams.go, gov.go, rules.go): the era's protocol
      parameters with every field, the update record, the checks on an update
      and its application. Parameters that are in their domain stay in it under
      an update that is accepted; the fields of the security group are exactly
      those the code lists.
    - Gov, GovLedger (ledger/conway/rules.go, certs_overlay.go): the governance
      rules (proposals and their ancestors, voters, votes on each kind of
      action, the committee, treasury withdrawals, constitution guard), the
      certificates of the transaction laid over the state, and the order in which
      the era runs them. In a block that the rules accept every recorded action
      descends from the last enacted one of its purpose; votes and committee
      certificates are accepted exactly when a specification of who may vote
      and who may hold a seat allows them; the overlay of the transaction's
      certificates refines a sequence of updates of a plain map.
    - Rewards (ledger/common/rewards.go, rewards_service.go): pots, shares,
      apportionment and the split inside a pool; nothing is created or lost, and
      the deregistrations and retirements of a snapshot are not read.

    ** Simplifications

    Some code under src/ is a parameter too: the strict check of Ed25519 in front
    of the library's ([edVerify] in Header), the CBOR of Byron addresses, the
    identity of a pool registration in a set of certificates ([reencoded] in
    Witness), the sizes of a transaction and its outputs (fields that Fees
    reads), the state checks of other eras than Conway and the proof of a Byron
    body in VerifyBlock, the vote found in an encoded Peras vote. Closing a queue
    of Ingress is one event, where the source closes a channel and sets a flag
    one after the other. [CalculateAdaPots] takes amounts modulo 2^64 where
    [big.Int.Uint64] leaves the result undefined; no theorem depends on it.

    ** Not modelled

    The CBOR codec (cbor/) wraps a third-party library by reflection; what
    decodes with it (the block and transaction types of every era, the query
    results of localstatequery, ledger/error.go) is a parameter where it is
    needed. Script evaluation (ledger/common/script, Plutus) calls an external
    machine. The dialling and lifecycle of a connection
    (connection.go, ouroboros.go and the Start/Stop methods of the clients and
    servers) are goroutine plumbing around the parts modelled here. Metrics,
    logging, deadlines and the wiping of secrets have no effect on the results
    proved. Of the eras after Shelley only the rules named above are modelled, not
    those on Plutus scripts, datums, and cost models; the rules of the
    Dijkstra era repeat those of Conway on sub-transactions. The Leios and Peras
    protocols' clients and servers, address text encodings and the decode and
    validate stages of the pipeline are not modelled. *)

From stdpp Require Export base tactics list gmap sets strings numbers fin_maps.
From Stdlib Require Export ZArith Lia.

#[global] Set Default Proof Using "Type".
#[global] Open Scope Z_scope.
#[global] Set Warnings "-notation-overridden".

(** ** Machine integers

    Go's integer types are modelled as [Z]; every operation that can leave the
    type's range is written with the wrap-around of that type. *)

Definition MaxUint16 : Z := 65535.
Definition MaxUint64 : Z := 18446744073709551615.
Definition MaxInt : Z := 9223372036854775807.

Definition u8 (z : Z) : Z := z mod 256.
Definition u16 (z : Z) : Z := z mod 65536.
Definition u32 (z : Z) : Z := z mod 4294967296.
Definition u64 (z : Z) : Z := z mod 18446744073709551616.

(** The length of a Go slice, as the [int] that [len] returns. *)
Definition blen {A} (l : list A) : Z := Z.of_nat (length l).

(** Bytes are [Z] values in range; a byte string is a list of them. *)
Abbreviation bytes := (list Z).
Definition is_byte (z : Z) : Prop := 0 <= z < 256.
Definition wf_bytes (bs : bytes) : Prop := Forall is_byte bs.

#[export] Instance is_byte_dec z : Decision (is_byte z).
Proof. unfold is_byte. apply _. Defined.

(** [l[lo:hi]] on a Go slice, for [lo <= hi <= len l]. *)
Definition slice {A} (lo hi : nat) (l : list A) : list A := take (hi - lo) (drop lo l).

(** ** Errors

    A Go function that returns [(T, error)] returns [result E T], where [E] is
    the component's type of errors. *)

Inductive result (E A : Type) : Type :=
| Ok (a : A)
| Err (e : E).
Arguments Ok {E A} a.
Arguments Err {E A} e.

#[export] Instance result_ret E : MRet (result E) := fun A a => Ok a.
#[export] Instance result_bind E : MBind (result E) :=
  fun A B f m => match m with Ok a => f a | Err e => Err e end.

Definition is_ok {E A} (r : result E A) : bool :=
  match r with Ok _ => true | Err _ => false end.

(** [guard_err c e] is the early return [if c { return e }]. *)
Definition guard_err {E} (c : bool) (e : E) : result E unit :=
  if c then Err e else Ok ().

Lemma bind_Ok {E A B} (f : A -> result E B) m b :
  m ≫= f = Ok b -> exists a, m = Ok a /\ f a = Ok b.
Proof. destruct m as [a|e]; [|done]. intros H. by exists a. Qed.

Lemma guard_err_Ok {E} (c : bool) (e : E) u : guard_err c e = Ok u -> c = false.
Proof. by destruct c. Qed.

(** ** Automation *)

Create HintDb gouroboros.
Create Rewrite HintDb gouroboros.

(** Decide the boolean comparisons that the code's conditions become. *)
Ltac zbool :=
  repeat match goal with
  | H : context [Z.ltb ?a ?b] |- _ => destruct (Z.ltb_spec a b)
  | H : context [Z.leb ?a ?b] |- _ => destruct (Z.leb_spec a b)
  | H : context [Z.eqb ?a ?b] |- _ => destruct (Z.eqb_spec a b)
  | |- context [Z.ltb ?a ?b] => destruct (Z.ltb_spec a b)
  | |- context [Z.leb ?a ?b] => destruct (Z.leb_spec a b)
  | |- context [Z.eqb ?a ?b] => destruct (Z.eqb_spec a b)
  end.

(** Peel one [x ← m; k] whose whole result is [Ok]. *)
Ltac peel H :=
  let a := fresh "v" in let E := fresh "E" in
  apply bind_Ok in H as (a & E & H).

(** Case on the head match or [if] of a hypothesis, keeping the equation. *)
Ltac dmatch H :=
  match type of H with
  | context [match ?x with _ => _ end] => let E := fresh "E" in destruct x eqn:E
  end.

(** ** Generic lemmas *)

Lemma blen_nonneg {A} (l : list A) : 0 <= blen l.
Proof. unfold blen. lia. Qed.

Lemma blen_nil {A} : blen (@nil A) = 0.
Proof. done. Qed.

Lemma blen_cons {A} (x : A) l : blen (x :: l) = 1 + blen l.
Proof. unfold blen. rewrite length_cons. lia. Qed.

Lemma blen_app {A} (l k : list A) : blen (l ++ k) = blen l + blen k.
Proof. unfold blen. rewrite length_app. lia. Qed.

Lemma blen_take {A} n (l : list A) : blen (take n l) = Z.min (Z.of_nat n) (blen l).
Proof. unfold blen. rewrite length_take. lia. Qed.

Lemma blen_drop {A} n (l : list A) : blen (drop n l) = Z.max 0 (blen l - Z.of_nat n).
Proof. unfold blen. rewrite length_drop. lia. Qed.

Lemma blen_0 {A} (l : list A) : blen l = 0 -> l = [].
Proof. destruct l; [done|]. rewrite blen_cons. pose proof (blen_nonneg l). lia. Qed.

#[export] Hint Rewrite @blen_nil @blen_cons @blen_app @blen_take @blen_drop : gouroboros.
#[export] Hint Resolve blen_nonneg : gouroboros.

Lemma length_slice {A} lo hi (l : list A) :
  (lo <= hi)%nat -> (hi <= length l)%nat -> length (slice lo hi l) = (hi - lo)%nat.
Proof. intros. unfold slice. rewrite length_take, length_drop. lia. Qed.

(** Joining two parts of an integer. *)
Lemma lor_shiftl q r n : 0 <= n -> 0 <= r < 2 ^ n -> Z.lor (Z.shiftl q n) r = q * 2 ^ n + r.
Proof.
  intros Hn Hr. rewrite Z.shiftl_mul_pow2 by done.
  assert (E : Z.land (q * 2 ^ n) r = 0).
  { destruct (Z.eq_dec r 0) as [->|N]; [apply Z.land_0_r|]. apply Z.bits_inj'. intros m Hm. rewrite Z.land_spec, Z.bits_0. destruct (Z.lt_ge_cases m n) as [L|L].
    - by rewrite Z.mul_pow2_bits_low by lia.
    - rewrite (Z.bits_above_log2 r m); [by rewrite andb_false_r|lia|].
      apply Z.log2_lt_pow2; [lia|].
      apply Z.lt_le_trans with (2 ^ n); [lia|]. apply Z.pow_le_mono_r; lia. }
  rewrite <- Z.lxor_lor by done. symmetry. by apply Z.add_nocarry_lxor.
Qed.

Lemma u16_small z : 0 <= z < 65536 -> u16 z = z.
Proof. apply Z.mod_small. Qed.

Lemma u64_small z : 0 <= z <= MaxUint64 -> u64 z = z.
Proof. intros. apply Z.mod_small. unfold MaxUint64 in *. lia. Qed.

Lemma u16_range z : 0 <= u16 z < 65536.
Proof. unfold u16. apply Z.mod_pos_bound. lia. Qed.

Lemma u64_range z : 0 <= u64 z <= MaxUint64.
Proof. unfold u64, MaxUint64. pose proof (Z.mod_pos_bound z 18446744073709551616). lia. Qed.

(** Sums of a measure over a list. *)
Fixpoint sum_by {A} (f : A -> Z) (l : list A) : Z :=
  match l with [] => 0 | x :: k => f x + sum_by f k end.

Lemma sum_by_app {A} (f : A -> Z) l k : sum_by f (l ++ k) = sum_by f l + sum_by f k.
Proof. induction l; simpl; lia. Qed.

Lemma sum_by_nonneg {A} (f : A -> Z) l : (forall x, 0 <= f x) -> 0 <= sum_by f l.
Proof. intros Hf. induction l as [|x l]; simpl; [lia|]. specialize (Hf x). lia. Qed.

Lemma sum_by_perm {A} (f : A -> Z) l k : l ≡ₚ k -> sum_by f l = sum_by f k.
Proof. induction 1; simpl; lia. Qed.

Lemma sum_by_ext {A} (f g : A -> Z) l :
  (forall x, x ∈ l -> f x = g x) -> sum_by f l = sum_by g l.
Proof.
  induction l as [|x l IH]; intros H; [done|]. simpl.
  rewrite (H x), IH; [done| |by left]. intros y ?. apply H. by right.
Qed.

(** ** Big-endian integers ([encoding/binary.BigEndian]) *)

Fixpoint be_encode (n : nat) (z : Z) : bytes :=
  match n with
  | O => []
  | S n => (z / 256 ^ Z.of_nat n) mod 256 :: be_encode n z
  end.

Fixpoint be_decode_acc (acc : Z) (bs : bytes) : Z :=
  match bs with [] => acc | b :: bs => be_decode_acc (acc * 256 + b) bs end.

Definition be_decode (bs : bytes) : Z := be_decode_acc 0 bs.

Lemma length_be_encode n z : length (be_encode n z) = n.
Proof. induction n; simpl; congruence. Qed.

Lemma be_encode_wf n z : wf_bytes (be_encode n z).
Proof.
  induction n; simpl; constructor; [|done].
  unfold is_byte. apply Z.mod_pos_bound. lia.
Qed.

Lemma be_decode_encode_acc n : forall z acc,
  be_decode_acc acc (be_encode n z) = acc * 256 ^ Z.of_nat n + z mod 256 ^ Z.of_nat n.
Proof.
  induction n as [|n IH]; intros z acc; cbn [be_encode be_decode_acc].
  - rewrite Z.pow_0_r, Z.mod_1_r. lia.
  - rewrite IH, Nat2Z.inj_succ, Z.pow_succ_r by lia.
    assert (0 < 256 ^ Z.of_nat n) by (apply Z.pow_pos_nonneg; lia).
    rewrite (Z.mul_comm 256 (256 ^ Z.of_nat n)).
    rewrite (Z.rem_mul_r z (256 ^ Z.of_nat n) 256) by lia. nia.
Qed.

Lemma be_decode_encode n z : 0 <= z < 256 ^ Z.of_nat n -> be_decode (be_encode n z) = z.
Proof.
  intros. unfold be_decode. rewrite be_decode_encode_acc, Z.mod_small by lia. lia.
Qed.

Lemma be_decode_acc_shift bs : forall acc,
  be_decode_acc acc bs = acc * 256 ^ blen bs + be_decode_acc 0 bs.
Proof.
  induction bs as [|b bs IH]; intros acc; cbn [be_decode_acc].
  - rewrite blen_nil, Z.pow_0_r. lia.
  - rewrite (IH (acc * 256 + b)), (IH (0 * 256 + b)), blen_cons, Z.add_1_l, Z.pow_succ_r
      by apply blen_nonneg. ring.
Qed.

Lemma be_decode_bounds bs : wf_bytes bs -> 0 <= be_decode bs < 256 ^ blen bs.
Proof.
  unfold be_decode.
  induction bs as [|b bs IH]; intros Hwf; cbn [be_decode_acc].
  - change (blen (@nil Z)) with 0. lia.
  - apply Forall_cons in Hwf as [Hb Hwf]. specialize (IH Hwf).
    rewrite be_decode_acc_shift, blen_cons, Z.add_1_l, Z.pow_succ_r by apply blen_nonneg.
    unfold is_byte in Hb. nia.
Qed.

Lemma be_encode_mod n : forall z k, 0 <= z < 256 ^ Z.of_nat n ->
  be_encode n (k * 256 ^ Z.of_nat n + z) = be_encode n z.
Proof.
  intros z k Hz. revert k z Hz.
  assert (Hgen : forall m z k, (m <= n)%nat ->
    be_encode m (k * 256 ^ Z.of_nat n + z) = be_encode m z).
  { induction m as [|m IH]; intros z k Hm; [done|]. simpl.
    rewrite IH by lia. f_equal.
    replace (Z.of_nat n) with (Z.of_nat m + Z.succ (Z.of_nat (n - S m))) by lia.
    rewrite Z.pow_add_r, Z.pow_succ_r by lia.
    assert (0 < 256 ^ Z.of_nat m) by (apply Z.pow_pos_nonneg; lia).
    replace (k * (256 ^ Z.of_nat m * (256 * 256 ^ Z.of_nat (n - S m))) + z)
      with (z + (k * 256 ^ Z.of_nat (n - S m) * 256) * 256 ^ Z.of_nat m) by ring.
    rewrite Z.div_add, Z.mod_add by lia. done. }
  intros k z _. by apply Hgen.
Qed.

Lemma be_encode_decode bs : wf_bytes bs -> be_encode (length bs) (be_decode bs) = bs.
Proof.
  induction bs as [|b bs IH]; intros Hwf; [done|].
  apply Forall_cons in Hwf as [Hb Hwf]. unfold be_decode. cbn [be_decode_acc length].
  rewrite be_decode_acc_shift. fold (be_decode bs). cbn [be_encode].
  pose proof (be_decode_bounds bs Hwf) as Hbd. unfold blen in *.
  change (0 * 256 + b) with b.
  rewrite be_encode_mod, IH by done. f_equal.
  rewrite Z.div_add_l, Z.div_small by lia. unfold is_byte in Hb.
  rewrite Z.add_0_r. apply Z.mod_small. lia.
Qed.

Lemma wf_bytes_app bs cs : wf_bytes (bs ++ cs) <-> wf_bytes bs /\ wf_bytes cs.
Proof. apply Forall_app. Qed.

(** ** Filters *)

Lemma filter_all {A} (P : A -> Prop) `{!forall x, Decision (P x)} (l : list A) :
  Forall P l -> filter P l = l.
Proof. induction 1; [done|]. rewrite filter_cons_True by done. congruence. Qed.

Lemma filter_none {A} (P : A -> Prop) `{!forall x, Decision (P x)} (l : list A) :
  Forall (fun x => ~ P x) l -> filter P l = [].
Proof. induction 1; [done|]. by rewrite filter_cons_False by done. Qed.

(** ** 128-bit intermediate results ([math/bits]) *)

Definition mul64 (x y : Z) : Z * Z := (x * y / 18446744073709551616, u64 (x * y)).
Definition add64 (x y carry : Z) : Z * Z :=
  (u64 (x + y + carry), (x + y + carry) / 18446744073709551616).
(** [bits.Div64], which panics unless [hi < y]. *)
Definition div64 (hi lo y : Z) : Z * Z :=
  ((hi * 18446744073709551616 + lo) / y, (hi * 18446744073709551616 + lo) mod y).

Lemma hi_lo z : z / 18446744073709551616 * 18446744073709551616 + u64 z = z.
Proof. unfold u64. pose proof (Z.div_mod z 18446744073709551616). lia. Qed.

(** A 128-bit quotient by [y] saturated when its high word reaches [y]: the exact
    quotient, or the largest [uint64]. *)
Lemma sat_div64 z y :
  0 <= z -> 0 < y ->
  (if y <=? z / 18446744073709551616 then MaxUint64
   else fst (div64 (z / 18446744073709551616) (u64 z) y)) = Z.min MaxUint64 (z / y).
Proof.
  intros Hz Hy. unfold div64. rewrite hi_lo. cbn [fst].
  destruct (Z.leb_spec y (z / 18446744073709551616)) as [H|H].
  - assert (y * 18446744073709551616 <= z).
    { pose proof (Z.mul_div_le z 18446744073709551616). nia. }
    assert (18446744073709551616 <= z / y) by (apply Z.div_le_lower_bound; lia).
    unfold MaxUint64. lia.
  - assert (z < y * 18446744073709551616).
    { pose proof (Z.mod_pos_bound z 18446744073709551616). pose proof (Z.div_mod z 18446744073709551616). nia. }
    assert (z / y < 18446744073709551616) by (apply Z.div_lt_upper_bound; lia).
    unfold MaxUint64. lia.
Qed.

(** ** Sums over maps *)

Definition msum `{Countable K} (m : gmap K Z) : Z := map_fold (fun _ v a => v + a) 0 m.

Section Msum.
Context `{Countable K}.
Implicit Types m : gmap K Z.

Lemma msum_insert_fresh m i v : m !! i = None -> msum (<[i := v]> m) = v + msum m.
Proof. intros E. unfold msum. rewrite map_fold_insert_L; [done| |done]. intros. lia. Qed.

Lemma msum_delete m i v : m !! i = Some v -> msum (delete i m) = msum m - v.
Proof.
  intros E. rewrite <- (insert_delete_id m i v E) at 2. rewrite msum_insert_fresh; [lia|apply lookup_delete_eq].
Qed.

Lemma msum_insert m i v : msum (<[i := v]> m) = msum m - default 0 (m !! i) + v.
Proof.
  destruct (m !! i) as [w|] eqn:E; simpl; [|rewrite msum_insert_fresh by done; lia].
  rewrite <- insert_delete_eq, msum_insert_fresh by apply lookup_delete_eq. rewrite (msum_delete m i w E). lia.
Qed.

Lemma msum_nonneg m : map_Forall (fun _ v => 0 <= v) m -> 0 <= msum m.
Proof.
  intros Hm. induction m as [|i v m Hi IH] using map_ind; [done|].
  apply map_Forall_insert in Hm as [Hv Hm]; [|done]. rewrite msum_insert_fresh by done. specialize (IH Hm). lia.
Qed.

Lemma msum_lookup_le m i v : map_Forall (fun _ v => 0 <= v) m -> m !! i = Some v -> v <= msum m.
Proof.
  intros Hm Hi. pose proof (msum_delete m i v Hi). assert (0 <= msum (delete i m)); [|lia].
  apply msum_nonneg. intros j w Hj. apply lookup_delete_Some in Hj as [_ Hj]. by apply (Hm j).
Qed.
End Msum.

(** ** Partial maps over lists *)

Lemma omap_ext_in {A B} (f g : A -> option B) (l : list A) :
  (forall x, x ∈ l -> f x = g x) -> omap f l = omap g l.
Proof.
  intros H. induction l as [|x l IH]; [done|]. cbn. rewrite (H x) by by left.
  destruct (g x); [f_equal|]; apply IH; intros y Hy; apply H; by right.
Qed.

(** ** Byte order *)

(** [bytes.Compare(a, b) <= 0]. *)
Fixpoint bytes_leb (a b : bytes) : bool :=
  match a, b with
  | [], _ => true
  | _ :: _, [] => false
  | x :: a, y :: b => if x =? y then bytes_leb a b else x <? y
  end.

Lemma bytes_leb_total a : forall b, bytes_leb a b = true \/ bytes_leb b a = true.
Proof.
  induction a as [|x a IH]; intros [|y b]; simpl; auto.
  destruct (Z.eqb_spec x y) as [->|]; [rewrite Z.eqb_refl; apply IH|].
  destruct (Z.eqb_spec y x); [lia|]. destruct (Z.ltb_spec x y), (Z.ltb_spec y x); auto; lia.
Qed.

Lemma bytes_leb_trans a : forall b c, bytes_leb a b = true -> bytes_leb b c = true -> bytes_leb a c = true.
Proof.
  induction a as [|x a IH]; intros [|y b] [|z c]; simpl; try done.
  destruct (Z.eqb_spec x y) as [->|]; destruct (Z.eqb_spec y z) as [->|]; intros H1 H2.
  - by eapply IH.
  - done.
  - by destruct (Z.eqb_spec x z).
  - apply Z.ltb_lt in H1, H2. destruct (Z.eqb_spec x z); [lia|]. apply Z.ltb_lt. lia.
Qed.

Lemma bytes_leb_antisym a : forall b, bytes_leb a b = true -> bytes_leb b a = true -> a = b.
Proof.
  induction a as [|x a IH]; intros [|y b]; simpl; try done.
  destruct (Z.eqb_spec x y) as [->|]; [rewrite Z.eqb_refl; intros; f_equal; auto|].
  destruct (Z.eqb_spec y x); [lia|]. intros ?%Z.ltb_lt ?%Z.ltb_lt. lia.
Qed.
