(* ===== verification/Segment.v ===== *)
(** * Muxer segments (src/muxer/segment.go)

    The 8-byte segment header and its payload, the constructor [NewSegment],
    the request/response flag in the protocol identifier, the big-endian wire
    form that [Muxer.Send] writes and [Muxer.readLoop] reads, and the splitting
    of an outbound message buffer into segments done by [Protocol.sendLoop]. *)

From S2P Require Import Prelude.

Definition SegmentMaxPayloadLength : Z := 65535.
Definition segmentProtocolIdResponseFlag : Z := 0x8000.

(** [ProtocolUnknown] of muxer.go. *)
Definition ProtocolUnknown : Z := 0xabcd.

Record SegmentHeader := mkHeader {
  Timestamp : Z;      (* uint32 *)
  ProtocolId : Z;     (* uint16 *)
  PayloadLength : Z   (* uint16 *)
}.

(** [deliveryChan] is the identity of the channel registered with
    [SetDeliveryChan], if any. *)
Record Segment := mkSegment {
  sHeader : SegmentHeader;
  Payload : bytes;
  deliveryChan : option nat
}.

Definition SetDeliveryChan (s : Segment) (ch : nat) : Segment :=
  mkSegment (sHeader s) (Payload s) (Some ch).

Definition NewSegment (unixNano protocolId : Z) (payload : bytes) (isResponse : bool)
    : option Segment :=
  let timestamp := u32 (Z.land unixNano 0xffffffff) in
  let pid := if isResponse then u16 (protocolId + segmentProtocolIdResponseFlag)
             else protocolId in
  let size := blen payload in
  if (SegmentMaxPayloadLength <? size) || (MaxUint16 <? size) then None
  else Some (mkSegment (mkHeader timestamp pid (u16 size)) payload None).

Definition IsRequest (h : SegmentHeader) : bool :=
  Z.land (ProtocolId h) segmentProtocolIdResponseFlag =? 0.

Definition IsResponse (h : SegmentHeader) : bool :=
  0 <? Z.land (ProtocolId h) segmentProtocolIdResponseFlag.

Definition GetProtocolId (h : SegmentHeader) : Z :=
  if segmentProtocolIdResponseFlag <=? ProtocolId h
  then u16 (ProtocolId h - segmentProtocolIdResponseFlag)
  else ProtocolId h.

(** ** The wire form *)

(** [binary.Write(buf, BigEndian, header)] followed by the payload, as one
    buffer handed to the connection. *)
Definition encodeHeader (h : SegmentHeader) : bytes :=
  be_encode 4 (Timestamp h) ++ be_encode 2 (ProtocolId h) ++ be_encode 2 (PayloadLength h).

Definition encodeSegment (s : Segment) : bytes := encodeHeader (sHeader s) ++ Payload s.

(** Errors of reading the connection. *)
Inductive ioError := EOF | ErrUnexpectedEOF | ErrClosedPipe | OtherIOError.
Inductive readError :=
| ConnectionClosedError (context : string)
| ReadFailed (e : ioError)
| ZeroBytePayload.

(** [io.ReadFull]: no bytes at all is [EOF], a short read [ErrUnexpectedEOF]. *)
Definition ReadFull (n : nat) (stream : bytes) : result ioError (bytes * bytes) :=
  if decide (n = 0%nat) then Ok ([], stream)
  else if decide (stream = []) then Err EOF
  else if decide (length stream < n)%nat then Err ErrUnexpectedEOF
  else Ok (take n stream, drop n stream).

Definition readLoopError (context : string) (e : ioError) : readError :=
  match e with
  | ErrClosedPipe | EOF => ConnectionClosedError context
  | e => ReadFailed e
  end.

Definition decodeHeader (bs : bytes) : SegmentHeader :=
  mkHeader (be_decode (take 4 bs)) (be_decode (slice 4 6 bs)) (be_decode (slice 6 8 bs)).

(** One iteration of [readLoop] up to the complete segment. *)
Definition readSegment (stream : bytes) : result readError (Segment * bytes) :=
  match ReadFull 8 stream with
  | Err e => Err (readLoopError "reading header" e)
  | Ok (hb, stream) =>
    let header := decodeHeader hb in
    if PayloadLength header =? 0 then Err ZeroBytePayload
    else match ReadFull (Z.to_nat (PayloadLength header)) stream with
         | Err e => Err (readLoopError "reading payload" e)
         | Ok (payload, stream) => Ok (mkSegment header payload None, stream)
         end
  end.

(** The segments a byte stream holds, and the error that ends reading it. *)
Fixpoint readAll (fuel : nat) (stream : bytes) : list Segment * option readError :=
  match fuel with
  | O => ([], None)
  | S fuel =>
    match readSegment stream with
    | Err e => ([], Some e)
    | Ok (s, stream) => let '(ss, e) := readAll fuel stream in (s :: ss, e)
    end
  end.

(** ** Splitting an outbound buffer (sendLoop) *)

Inductive sendError := ErrCreateSegment | ErrFuel.

(** [clock i] is [time.Now().UnixNano()] at the [i]-th segment created. *)
Fixpoint sendSegments (fuel : nat) (clock : nat -> Z) (i : nat) (protocolId : Z)
    (isResponse : bool) (delivery : option nat) (payloadBuf : bytes)
    : result sendError (list Segment) :=
  match fuel with
  | O => Err ErrFuel
  | S fuel =>
    let segmentPayloadLength := Z.min (blen payloadBuf) SegmentMaxPayloadLength in
    let segmentPayload := take (Z.to_nat segmentPayloadLength) payloadBuf in
    match NewSegment (clock i) protocolId segmentPayload isResponse with
    | None => Err ErrCreateSegment
    | Some segment =>
      let segment :=
        match delivery with
        | Some ch => if segmentPayloadLength =? blen payloadBuf
                     then SetDeliveryChan segment ch else segment
        | None => segment
        end in
      if segmentPayloadLength <? blen payloadBuf then
        rest ← sendSegments fuel clock (S i) protocolId isResponse delivery
                 (drop (Z.to_nat segmentPayloadLength) payloadBuf);
        Ok (segment :: rest)
      else Ok [segment]
    end
  end.

(** ** Well-formedness *)

Definition wf_header (h : SegmentHeader) : Prop :=
  0 <= Timestamp h < 2 ^ 32 /\ 0 <= ProtocolId h < 2 ^ 16 /\ 0 <= PayloadLength h < 2 ^ 16.

(** A segment as it travels: the header announces its payload, which is not
    empty. *)
Definition wf_segment (s : Segment) : Prop :=
  wf_header (sHeader s) /\ PayloadLength (sHeader s) = blen (Payload s) /\ Payload s <> [].

Definition strip (s : Segment) : Segment := mkSegment (sHeader s) (Payload s) None.

(** ** Lemmas *)

Lemma length_encodeHeader h : length (encodeHeader h) = 8%nat.
Proof. unfold encodeHeader. by rewrite !length_app, !length_be_encode. Qed.

Lemma decode_encodeHeader h : wf_header h -> decodeHeader (encodeHeader h) = h.
Proof.
  intros (Ht & Hp & Hl). unfold decodeHeader, encodeHeader, slice.
  destruct h as [t p l]; cbn [Timestamp ProtocolId PayloadLength] in *.
  rewrite take_app_length' by (by rewrite length_be_encode).
  rewrite (drop_app_length' (be_encode 4 t)) by (by rewrite length_be_encode).
  rewrite take_app_length' by (by rewrite length_be_encode).
  rewrite app_assoc, (drop_app_length' (be_encode 4 t ++ be_encode 2 p))
    by (by rewrite length_app, !length_be_encode).
  rewrite take_ge by (by rewrite length_be_encode).
  rewrite !be_decode_encode; [done| simpl; lia..].
Qed.

Lemma encode_decodeHeader bs :
  length bs = 8%nat -> wf_bytes bs ->
  encodeHeader (decodeHeader bs) = bs /\ wf_header (decodeHeader bs).
Proof.
  intros Hlen Hwf.
  do 8 (destruct bs as [|? bs]; [done|]). destruct bs; [|done]. clear Hlen.
  unfold decodeHeader, encodeHeader, wf_header, slice. cbn [take drop Nat.sub].
  cbn [Timestamp ProtocolId PayloadLength].
  unfold wf_bytes in Hwf.
  repeat match goal with H : Forall is_byte (_ :: _) |- _ =>
    apply Forall_cons in H as [? H] end.
  assert (W4 : wf_bytes [z; z0; z1; z2]) by (unfold wf_bytes; rewrite !Forall_cons; by split_and!).
  assert (W2 : wf_bytes [z3; z4]) by (unfold wf_bytes; rewrite !Forall_cons; by split_and!).
  assert (W2' : wf_bytes [z5; z6]) by (unfold wf_bytes; rewrite !Forall_cons; by split_and!).
  pose proof (be_encode_decode _ W4) as E4. pose proof (be_encode_decode _ W2) as E2.
  pose proof (be_encode_decode _ W2') as E2'. cbn [length] in E4, E2, E2'.
  rewrite E4, E2, E2'. split; [done|].
  exact (conj (be_decode_bounds _ W4) (conj (be_decode_bounds _ W2) (be_decode_bounds _ W2'))).
Qed.

Lemma ReadFull_app n bs rest :
  length bs = n -> (0 < n)%nat -> ReadFull n (bs ++ rest) = Ok (bs, rest).
Proof.
  intros <- Hn. unfold ReadFull.
  rewrite decide_False by lia.
  rewrite decide_False by (destruct bs; [simpl in Hn; lia|done]).
  rewrite decide_False by (rewrite length_app; lia).
  by rewrite take_app_length, drop_app_length.
Qed.

Lemma ReadFull_Ok n stream bs rest :
  ReadFull n stream = Ok (bs, rest) -> stream = bs ++ rest /\ length bs = n.
Proof.
  unfold ReadFull. intros H. repeat case_decide; simplify_eq; [done|].
  rewrite take_drop, length_take. split; [done|lia].
Qed.

(** Writing a well-formed segment and reading it back. *)
Lemma readSegment_encode s rest :
  wf_segment s -> readSegment (encodeSegment s ++ rest) = Ok (strip s, rest).
Proof.
  intros (Hh & Hl & Hne). unfold readSegment, encodeSegment. rewrite <-app_assoc.
  rewrite ReadFull_app by (rewrite ?length_encodeHeader; lia).
  rewrite decode_encodeHeader by done. rewrite Hl.
  assert (0 < blen (Payload s)).
  { destruct (Payload s); [done|]. rewrite blen_cons. pose proof (blen_nonneg l). lia. }
  destruct (Z.eqb_spec (blen (Payload s)) 0); [lia|].
  rewrite ReadFull_app; [done|unfold blen; lia|lia].
Qed.

Lemma readAll_encode ss : forall fuel,
  Forall wf_segment ss -> (length ss < fuel)%nat ->
  readAll fuel (concat (encodeSegment <$> ss)) =
    (strip <$> ss, Some (ConnectionClosedError "reading header")).
Proof.
  induction ss as [|s ss IH]; intros fuel Hwf Hf; (destruct fuel as [|fuel]; [simpl in Hf; lia|]).
  - done.
  - apply Forall_cons in Hwf as [Hs Hwf]. cbn [readAll fmap list_fmap concat].
    rewrite readSegment_encode by done. simpl in Hf.
    by rewrite IH by (done || lia).
Qed.

Lemma land_flag x :
  0 <= x < 65536 -> Z.land x 32768 = if 32768 <=? x then 32768 else 0.
Proof.
  intros Hx. change 32768 with (2 ^ 15).
  apply Z.bits_inj'. intros k Hk.
  rewrite Z.land_spec, Z.pow2_bits_eqb by lia.
  destruct (Z.eqb_spec 15 k) as [<-|Hne].
  - rewrite andb_true_r.
    destruct (Z.leb_spec (2 ^ 15) x); rewrite ?Z.pow2_bits_true, ?Z.bits_0 by lia.
    + apply Z.b2z_inj. rewrite Z.testbit_spec' by lia. cbn [Z.b2z].
      replace (x / 2 ^ 15) with 1; [done|]. apply Z.div_unique with (x - 2 ^ 15); lia.
    + apply Z.b2z_inj. rewrite Z.testbit_spec' by lia. cbn [Z.b2z].
      rewrite Z.div_small by lia. done.
  - rewrite andb_false_r. destruct (2 ^ 15 <=? x).
    + symmetry. by apply Z.pow2_bits_false.
    + by rewrite Z.bits_0.
Qed.

Lemma IsResponse_flag h :
  0 <= ProtocolId h < 65536 ->
  IsResponse h = (segmentProtocolIdResponseFlag <=? ProtocolId h) /\
  IsRequest h = negb (IsResponse h).
Proof.
  intros Hh. unfold IsResponse, IsRequest, segmentProtocolIdResponseFlag.
  rewrite land_flag by done. by destruct (32768 <=? ProtocolId h).
Qed.

Lemma GetProtocolId_range h :
  0 <= ProtocolId h < 65536 -> 0 <= GetProtocolId h < segmentProtocolIdResponseFlag.
Proof.
  unfold GetProtocolId, segmentProtocolIdResponseFlag. intros.
  destruct (Z.leb_spec 32768 (ProtocolId h)); [rewrite u16_small|]; lia.
Qed.

Lemma NewSegment_Some now pid payload r s :
  0 <= pid < segmentProtocolIdResponseFlag ->
  NewSegment now pid payload r = Some s ->
  Payload s = payload /\ deliveryChan s = None /\ wf_header (sHeader s) /\
  PayloadLength (sHeader s) = blen payload /\
  GetProtocolId (sHeader s) = pid /\ IsResponse (sHeader s) = r.
Proof.
  unfold NewSegment, SegmentMaxPayloadLength, MaxUint16, segmentProtocolIdResponseFlag.
  intros Hpid H. destruct (Z.ltb_spec 65535 (blen payload)); [done|].
  cbn [orb] in H. simplify_eq. pose proof (blen_nonneg payload).
  assert (Hu : 0 <= u32 (Z.land now 4294967295) < 2 ^ 32).
  { unfold u32. apply Z.mod_pos_bound. lia. }
  assert (Hp : 0 <= (if r then u16 (pid + 32768) else pid) < 65536).
  { destruct r; [apply u16_range|lia]. }
  unfold wf_header. cbn [sHeader Payload deliveryChan Timestamp ProtocolId PayloadLength].
  rewrite (u16_small (blen payload)) by lia.
  destruct (IsResponse_flag (mkHeader 0 (if r then u16 (pid + 32768) else pid) 0) Hp) as [Hr _].
  split_and!; try done; try lia.
  - unfold GetProtocolId, segmentProtocolIdResponseFlag. cbn [ProtocolId].
    destruct r; rewrite ?u16_small in * by lia; zbool; rewrite ?u16_small; lia.
  - unfold IsResponse in *. cbn [ProtocolId] in *. rewrite Hr.
    unfold segmentProtocolIdResponseFlag. destruct r; rewrite ?u16_small by lia; zbool; lia || done.
Qed.

Lemma NewSegment_total now pid payload r :
  blen payload <= SegmentMaxPayloadLength -> is_Some (NewSegment now pid payload r).
Proof.
  unfold NewSegment, SegmentMaxPayloadLength, MaxUint16. intros.
  destruct (Z.ltb_spec 65535 (blen payload)); [lia|]. eauto.
Qed.

(** Everything [sendSegments] establishes of one buffer. *)
Record segmentation (pid : Z) (r : bool) (delivery : option nat) (buf : bytes)
    (segs : list Segment) : Prop := {
  seg_concat : concat (Payload <$> segs) = buf;
  seg_wf : buf <> [] -> Forall wf_segment segs;
  seg_header : Forall (fun s => GetProtocolId (sHeader s) = pid /\
                                IsResponse (sHeader s) = r) segs;
  seg_full : Forall (fun s => blen (Payload s) = SegmentMaxPayloadLength) (removelast segs);
  seg_delivery : deliveryChan <$> segs =
    replicate (length segs - 1) None ++ [delivery]
}.

Lemma sendSegments_spec fuel : forall clock i pid r delivery buf,
  0 <= pid < segmentProtocolIdResponseFlag -> (length buf < fuel)%nat ->
  exists segs, sendSegments fuel clock i pid r delivery buf = Ok segs /\
    segs <> [] /\ segmentation pid r delivery buf segs.
Proof.
  induction fuel as [|fuel IH]; intros clock i pid r delivery buf Hpid Hf; [lia|].
  cbn [sendSegments]. set (n := Z.min (blen buf) SegmentMaxPayloadLength).
  pose proof (blen_nonneg buf) as Hnn.
  assert (Hn : 0 <= n <= blen buf /\ n <= 65535) by (unfold n, SegmentMaxPayloadLength; lia).
  assert (Hlen : blen (take (Z.to_nat n) buf) = n) by (rewrite blen_take; lia).
  destruct (NewSegment_total (clock i) pid (take (Z.to_nat n) buf) r) as [s Hs].
  { unfold SegmentMaxPayloadLength. lia. }
  rewrite Hs. apply NewSegment_Some in Hs as (Hp & Hd & Hh & Hl & Hg & Hr); [|done].
  set (s' := match delivery with Some _ => _ | None => s end).
  assert (Hs' : sHeader s' = sHeader s /\ Payload s' = Payload s /\
    deliveryChan s' = if n =? blen buf then delivery else None).
  { unfold s'. destruct delivery; [destruct (n =? blen buf)|]; rewrite ?Hd; try done.
    by destruct (n =? blen buf). }
  destruct Hs' as (Hs1 & Hs2 & Hs3).
  assert (Hwf : buf <> [] -> wf_segment s').
  { intros Hne. unfold wf_segment. rewrite Hs1, Hs2, Hl, Hp. split_and!; [done|done|].
    intros E. rewrite E, blen_nil in Hlen. apply Hne, blen_0.
    unfold n, SegmentMaxPayloadLength in Hlen. lia. }
  destruct (Z.ltb_spec n (blen buf)) as [Hlt|Hge].
  - destruct (IH clock (S i) pid r delivery (drop (Z.to_nat n) buf) Hpid) as (segs & E & Hne & IHs).
    { rewrite length_drop. unfold n, SegmentMaxPayloadLength, blen in *. lia. }
    rewrite E. exists (s' :: segs). split; [done|]. split; [done|].
    assert (Hd0 : drop (Z.to_nat n) buf <> []).
    { intros E0. pose proof (blen_drop (Z.to_nat n) buf) as Hbd. rewrite E0, blen_nil in Hbd. lia. }
    destruct IHs as [I1 I2 I3 I4 I5]. constructor.
    + cbn [fmap list_fmap concat]. rewrite Hs2, Hp, I1. apply take_drop.
    + intros ?. constructor; auto.
    + constructor; [|done]. by rewrite Hs1.
    + destruct segs as [|s2 segs]; [done|]. cbn [removelast]. constructor; [|done].
      rewrite Hs2, Hp, Hlen. unfold n, SegmentMaxPayloadLength in *. lia.
    + cbn [fmap list_fmap]. rewrite I5, Hs3. destruct (Z.eqb_spec n (blen buf)); [lia|].
      destruct segs as [|s2 segs]; [done|]. cbn [length Nat.sub replicate app].
      by rewrite Nat.sub_0_r.
  - exists [s']. split; [done|]. split; [done|].
    assert (n = blen buf) by lia. assert (Ht : take (Z.to_nat n) buf = buf).
    { apply take_ge. unfold blen in *. lia. }
    constructor.
    + cbn. by rewrite app_nil_r, Hs2, Hp.
    + intros ?. constructor; auto.
    + constructor; [|done]. by rewrite Hs1.
    + constructor.
    + cbn. rewrite Hs3. by destruct (Z.eqb_spec n (blen buf)).
Qed.

Lemma concat_strip segs : concat (Payload <$> (strip <$> segs)) = concat (Payload <$> segs).
Proof. induction segs as [|s segs IH]; [done|]. cbn. by f_equal. Qed.

(** ** Properties *)

(** C33. Segment codec. Reading back what [Send] wrote for a well-formed segment
    gives that segment and leaves the rest of the stream, and every segment that
    the read loop takes off a stream of bytes is well formed and is exactly what
    [Send] would have written at that place: the wire form is a bijection. *)
Theorem segment_codec (s : Segment) (stream rest : bytes) :
  (wf_segment s -> readSegment (encodeSegment s ++ rest) = Ok (strip s, rest)) /\
  (wf_bytes stream -> readSegment stream = Ok (s, rest) ->
     stream = encodeSegment s ++ rest /\ wf_segment s /\ deliveryChan s = None).
Proof.
  split; [apply readSegment_encode|]. intros Hwf H. unfold readSegment in H.
  destruct (ReadFull 8 stream) as [[hb st]|] eqn:E1; [|done].
  apply ReadFull_Ok in E1 as [-> Hl]. apply wf_bytes_app in Hwf as [Hw1 Hw2].
  destruct (encode_decodeHeader hb Hl Hw1) as [Henc Hh].
  destruct (Z.eqb_spec (PayloadLength (decodeHeader hb)) 0) as [|Hnz]; [done|].
  destruct (ReadFull _ st) as [[pl st']|] eqn:E2; [|done].
  apply ReadFull_Ok in E2 as [-> Hl2]. simplify_eq.
  destruct Hh as (? & ? & Hpl). unfold encodeSegment, wf_segment. cbn [sHeader Payload deliveryChan].
  rewrite Henc, app_assoc. split_and!; try done; unfold blen.
  - rewrite Hl2. lia.
  - intros ->. cbn [length] in Hl2. lia.
Qed.

(** Witness of C33, both directions, on a two-byte payload. *)
Lemma segment_codec_witness :
  let s := mkSegment (mkHeader 7 0x8002 2) [1; 2] None in
  readSegment (encodeSegment s ++ [9]) = Ok (strip s, [9]) /\
  wf_bytes (encodeSegment s ++ [9]) /\
  encodeSegment s ++ [9] = encodeSegment s ++ [9] /\ wf_segment s.
Proof.
  intros s. assert (Hs : wf_segment s).
  { unfold wf_segment, wf_header, s. simpl. unfold blen. simpl. split_and!; (lia || done). }
  assert (Hb : wf_bytes (encodeSegment s ++ [9])).
  { unfold wf_bytes, s. vm_compute encodeSegment. simpl.
    repeat (apply Forall_cons; split; [unfold is_byte; lia|]). by apply Forall_nil. }
  split; [by apply (segment_codec s [] [9])|]. split; [done|].
  destruct (segment_codec s (encodeSegment s ++ [9]) [9]) as [H1 H2].
  destruct (H2 Hb (H1 Hs)) as (E & Hw & _). split; [exact E|exact Hw].
Defined.

(** Sending a message buffer loses and reorders nothing: the segments the
    send loop cuts from a non-empty buffer, written to the connection and read
    back by the peer's read loop, carry exactly the buffer; each is within the
    64 KiB payload limit and none is empty (so the peer's zero-byte check never
    trips), every segment but the last is full, each carries the protocol number
    and direction it was sent with, and only the last one reports delivery. *)
Theorem send_segments_roundtrip clock pid r delivery buf :
  0 <= pid < segmentProtocolIdResponseFlag -> buf <> [] ->
  exists segs, sendSegments (S (length buf)) clock 0 pid r delivery buf = Ok segs /\
    segmentation pid r delivery buf segs /\ Forall wf_segment segs /\
    forall fuel, (length segs < fuel)%nat ->
      let '(received, e) := readAll fuel (concat (encodeSegment <$> segs)) in
      concat (Payload <$> received) = buf /\
      e = Some (ConnectionClosedError "reading header").
Proof.
  intros Hpid Hne.
  destruct (sendSegments_spec (S (length buf)) clock 0 pid r delivery buf Hpid)
    as (segs & E & _ & Hs); [lia|].
  exists segs. pose proof (seg_wf _ _ _ _ _ Hs Hne) as Hwf. split_and!; [done..|].
  intros fuel Hf. rewrite readAll_encode by done. split; [|done].
  rewrite concat_strip. apply Hs.
Qed.

(** An instance: a three-byte response buffer with a delivery channel. *)
Lemma send_segments_roundtrip_witness :
  exists segs, sendSegments 4 (fun _ => 5) 0 3 true (Some 1%nat) [7; 8; 9] = Ok segs /\
    segmentation 3 true (Some 1%nat) [7; 8; 9] segs.
Proof.
  assert (H1 : 0 <= 3 < segmentProtocolIdResponseFlag) by (unfold segmentProtocolIdResponseFlag; lia).
  assert (H2 : [7; 8; 9] <> []) by discriminate.
  destruct (send_segments_roundtrip (fun _ => 5) 3 true (Some 1%nat) [7; 8; 9] H1 H2)
    as (segs & E & Hs & _). exists segs. split; [exact E|exact Hs].
Defined.

(** The response flag. A segment built for a mini-protocol number below the
    flag bit answers with that number and that direction, exactly one of
    [IsRequest] and [IsResponse] holds of any header, and no segment read from
    the wire can name [ProtocolUnknown], the key under which the catch-all
    receiver is registered. *)
Theorem protocol_id_flag (h : SegmentHeader) now pid payload r s :
  0 <= ProtocolId h < 65536 ->
  0 <= pid < segmentProtocolIdResponseFlag ->
  NewSegment now pid payload r = Some s ->
  GetProtocolId (sHeader s) = pid /\ IsResponse (sHeader s) = r /\
  IsRequest (sHeader s) = negb r /\
  IsRequest h = negb (IsResponse h) /\ GetProtocolId h <> ProtocolUnknown.
Proof.
  intros Hh Hpid Hs. apply NewSegment_Some in Hs as (_ & _ & (_ & Hw & _) & _ & Hg & Hr); [|done].
  destruct (IsResponse_flag _ Hw) as [_ Hq]. rewrite Hr in Hq.
  destruct (IsResponse_flag _ Hh) as [_ Hq'].
  pose proof (GetProtocolId_range h Hh).
  unfold ProtocolUnknown, segmentProtocolIdResponseFlag in *. split_and!; try done. lia.
Qed.

(** The catch-all number is out of reach. *)
Lemma protocol_id_flag_witness :
  exists s, NewSegment 5 8 [1] true = Some s /\ GetProtocolId (sHeader s) = 8 /\
    GetProtocolId (mkHeader 0 0xffff 1) <> ProtocolUnknown.
Proof.
  eexists. split; [reflexivity|].
  edestruct (protocol_id_flag (mkHeader 0 0xffff 1) 5 8 [1] true) as (H & _ & _ & _ & H');
    [simpl; lia|unfold segmentProtocolIdResponseFlag; lia|reflexivity|].
  split; [exact H|exact H'].
Defined.
