(* ===== verification/Egress.v ===== *)
(** * Outbound scheduling (src/muxer/egress.go)

    The turn to write on the connection, shared by the sender goroutines of
    every mini-protocol. The lock-protected sections of [acquire], [remove] and
    [release] are functions on the scheduler state; the goroutines around them
    are a step relation in which arrivals, releases and abandoned waits
    interleave freely. *)

From S2P Require Import Prelude.

Inductive EgressClass := EgressClassPraos | EgressClassLeios.

#[export] Instance EgressClass_eq_dec : EqDecision EgressClass.
Proof. solve_decision. Defined.

Definition protocolIdLeiosNotify : Z := 18.
Definition protocolIdLeiosFetch : Z := 19.
Definition protocolIdLeiosVotes : Z := 20.

Definition EgressClassOf (protocolId : Z) : EgressClass :=
  if (protocolId =? protocolIdLeiosNotify) || (protocolId =? protocolIdLeiosFetch)
     || (protocolId =? protocolIdLeiosVotes)
  then EgressClassLeios else EgressClassPraos.

Definition praosBurst : nat := 8.

(** A waiter is its [granted] channel, identified by a number. *)
Abbreviation waiter := nat.

Record egress := mkEgress {
  busy : bool;
  praos : list waiter;
  leios : list waiter;
  praosRun : nat
}.

Definition newEgress : egress := mkEgress false [] [] 0.

(** The first critical section of [acquire]: [true] when the turn was free and
    is now the caller's, [false] when the caller was queued. *)
Definition acquireEnter (e : egress) (granted : waiter) (protocolId : Z) : egress * bool :=
  if busy e then
    match EgressClassOf protocolId with
    | EgressClassLeios => (mkEgress (busy e) (praos e) (leios e ++ [granted]) (praosRun e), false)
    | EgressClassPraos => (mkEgress (busy e) (praos e ++ [granted]) (leios e) (praosRun e), false)
    end
  else (mkEgress true (praos e) (leios e) (praosRun e), true).

(** The loop of [remove] over one queue. *)
Fixpoint removeFrom (w : waiter) (q : list waiter) : option (list waiter) :=
  match q with
  | [] => None
  | c :: q => if decide (c = w) then Some q else (c ::.) <$> removeFrom w q
  end.

Definition remove (e : egress) (w : waiter) : egress * bool :=
  match removeFrom w (praos e) with
  | Some q => (mkEgress (busy e) q (leios e) (praosRun e), true)
  | None =>
    match removeFrom w (leios e) with
    | Some q => (mkEgress (busy e) (praos e) q (praosRun e), true)
    | None => (e, false)
    end
  end.

(** [release], with the waiter whose channel it closes, if any. *)
Definition release (e : egress) : egress * option waiter :=
  match praos e, leios e with
  | [], [] => (mkEgress false [] [] 0, None)
  | p, l :: ls =>
    if bool_decide (p = []) || (praosBurst <=? praosRun e)%nat
    then (mkEgress (busy e) p ls 0, Some l)
    else match p with
         | w :: ps => (mkEgress (busy e) ps (l :: ls) (S (praosRun e)), Some w)
         | [] => (e, None) (* not reached: [p] is not empty here *)
         end
  | w :: ps, [] => (mkEgress (busy e) ps [] (praosRun e), Some w)
  end.

(** ** The goroutines *)

(** [holders] are the goroutines that believe they have the turn: those told so
    by [acquire], and those whose channel [release] closed. The other fields
    record what happened to each waiter, in order, per class. *)
Record sys := mkSys {
  eg : egress;
  holders : list waiter;
  next : waiter;                       (* the next fresh channel *)
  arrived : EgressClass -> list waiter;
  granted : EgressClass -> list waiter;
  abandoned : list waiter
}.

Definition on_class (c : EgressClass) (w : waiter) (f : EgressClass -> list waiter)
    : EgressClass -> list waiter :=
  fun c' => if decide (c' = c) then f c' ++ [w] else f c'.

Definition queue_of (e : egress) (c : EgressClass) : list waiter :=
  match c with EgressClassPraos => praos e | EgressClassLeios => leios e end.

Inductive label :=
| Enter (protocolId : Z)      (* a goroutine calls acquire *)
| Release (w : waiter)        (* a holder calls release *)
| Abandon (w : waiter).       (* a queued goroutine leaves on shutdown *)

(** Which class the waiter granted by a release came from. *)
Definition class_in (e : egress) (w : waiter) : EgressClass :=
  if decide (w ∈ praos e) then EgressClassPraos else EgressClassLeios.

Inductive step : sys -> label -> sys -> Prop :=
| step_enter_free s pid e' :
    acquireEnter (eg s) (next s) pid = (e', true) ->
    step s (Enter pid)
      (mkSys e' (next s :: holders s) (S (next s)) (arrived s) (granted s) (abandoned s))
| step_enter_queued s pid e' :
    acquireEnter (eg s) (next s) pid = (e', false) ->
    step s (Enter pid)
      (mkSys e' (holders s) (S (next s))
         (on_class (EgressClassOf pid) (next s) (arrived s)) (granted s) (abandoned s))
| step_release_grant s w e' w' :
    w ∈ holders s -> release (eg s) = (e', Some w') ->
    step s (Release w)
      (mkSys e' (w' :: filter (.≠ w) (holders s)) (next s) (arrived s)
         (on_class (class_in (eg s) w') w' (granted s)) (abandoned s))
| step_release_free s w e' :
    w ∈ holders s -> release (eg s) = (e', None) ->
    step s (Release w)
      (mkSys e' (filter (.≠ w) (holders s)) (next s) (arrived s) (granted s) (abandoned s))
| step_abandon s w e' :
    remove (eg s) w = (e', true) ->
    step s (Abandon w)
      (mkSys e' (holders s) (next s) (arrived s) (granted s) (w :: abandoned s)).

Definition init : sys := mkSys newEgress [] 0 (fun _ => []) (fun _ => []) [].

Inductive reachable : sys -> Prop :=
| reach_init : reachable init
| reach_step s l s' : reachable s -> step s l s' -> reachable s'.

Inductive steps : sys -> list label -> sys -> Prop :=
| steps_nil s : steps s [] s
| steps_cons s l s1 ls s2 : step s l s1 -> steps s1 ls s2 -> steps s (l :: ls) s2.

Definition is_release (l : label) : bool := match l with Release _ => true | _ => false end.
Definition releases (ls : list label) : nat := length (List.filter is_release ls).

(** ** Invariant *)

Record inv (s : sys) : Prop := {
  inv_busy : busy (eg s) = true <-> holders s <> [];
  inv_one : (length (holders s) <= 1)%nat;
  inv_idle : busy (eg s) = false ->
    praos (eg s) = [] /\ leios (eg s) = [] /\ praosRun (eg s) = 0%nat;
  inv_run : (praosRun (eg s) <= praosBurst)%nat;
  inv_nodup : NoDup (arrived s EgressClassPraos ++ arrived s EgressClassLeios);
  inv_fresh : forall c, Forall (fun w => (w < next s)%nat) (arrived s c);
  inv_ab : Forall (fun w => (w < next s)%nat) (abandoned s);
  inv_fifo : forall c,
    filter (.∉ abandoned s) (arrived s c) = granted s c ++ queue_of (eg s) c
}.

(** ** Lemmas *)

Lemma removeFrom_Some w q q' :
  removeFrom w q = Some q' -> exists pre post, q = pre ++ w :: post /\ q' = pre ++ post.
Proof.
  revert q'. induction q as [|c q IH]; intros q' H; [done|]. simpl in H. case_decide.
  - simplify_eq. by exists [], q'.
  - destruct (removeFrom w q) as [q1|]; [|done]. simplify_eq/=.
    destruct (IH _ eq_refl) as (pre & post & -> & ->). by exists (c :: pre), post.
Qed.

Lemma removeFrom_None w q : removeFrom w q = None -> w ∉ q.
Proof.
  induction q as [|c q IH]; intros H; [set_solver|]. simpl in H. case_decide; [done|].
  destruct (removeFrom w q); [done|]. set_solver.
Qed.

Lemma remove_true e w e' :
  remove e w = (e', true) ->
  exists c pre post, queue_of e c = pre ++ w :: post /\
    queue_of e' c = pre ++ post /\ (forall c', c' <> c -> queue_of e' c' = queue_of e c') /\
    busy e' = busy e /\ praosRun e' = praosRun e.
Proof.
  unfold remove. intros H. destruct (removeFrom w (praos e)) as [q|] eqn:E1.
  - simplify_eq. apply removeFrom_Some in E1 as (pre & post & E & ->).
    exists EgressClassPraos, pre, post. simpl. split_and!; try done. by intros [].
  - destruct (removeFrom w (leios e)) as [q|] eqn:E2; simplify_eq.
    apply removeFrom_Some in E2 as (pre & post & E & ->).
    exists EgressClassLeios, pre, post. simpl. split_and!; try done. by intros [].
Qed.

(** The three outcomes of [release]. *)
Lemma release_cases e e' o :
  release e = (e', o) ->
  (praos e = [] /\ leios e = [] /\ e' = newEgress /\ o = None) \/
  (exists w ls, leios e = w :: ls /\ (praos e = [] \/ (praosBurst <= praosRun e)%nat) /\
     e' = mkEgress (busy e) (praos e) ls 0 /\ o = Some w) \/
  (exists w ps run', praos e = w :: ps /\ o = Some w /\
     e' = mkEgress (busy e) ps (leios e) run' /\
     (leios e = [] /\ run' = praosRun e \/
      leios e <> [] /\ (praosRun e < praosBurst)%nat /\ run' = S (praosRun e))).
Proof.
  unfold release, newEgress. destruct e as [b p l r]. cbn [praos leios busy praosRun].
  destruct p as [|w ps]; destruct l as [|w' ls]; intros H.
  - simplify_eq. by left.
  - rewrite bool_decide_eq_true_2 in H by done. cbn [orb] in H. simplify_eq.
    right. left. exists w', ls. split_and!; auto.
  - simplify_eq. right. right. exists w, ps, r. split_and!; auto.
  - rewrite bool_decide_eq_false_2 in H by done. cbn [orb] in H.
    destruct (Nat.leb_spec praosBurst r); simplify_eq.
    + right. left. exists w', ls. split_and!; auto.
    + right. right. exists w, ps, (S r). split_and!; auto.
Qed.

Lemma in_queue_arrived s c w :
  inv s -> w ∈ queue_of (eg s) c -> w ∈ arrived s c /\ w ∉ abandoned s.
Proof.
  intros Hi Hw. assert (H : w ∈ filter (.∉ abandoned s) (arrived s c)).
  { rewrite (inv_fifo _ Hi). set_solver. }
  apply list_elem_of_filter in H as [H1 H2]. done.
Qed.

Lemma arrived_disjoint s c c' w :
  inv s -> w ∈ arrived s c -> w ∈ arrived s c' -> c = c'.
Proof.
  intros Hi H1 H2. apply inv_nodup, NoDup_app in Hi as (_ & Hd & _).
  destruct c, c'; try done; exfalso; by eapply Hd.
Qed.

Lemma nodup_class s c : inv s -> NoDup (granted s c ++ queue_of (eg s) c).
Proof.
  intros Hi. rewrite <-(inv_fifo _ Hi). apply NoDup_filter.
  destruct (proj1 (NoDup_app _ _) (inv_nodup _ Hi)) as (H1 & _ & H2). by destruct c.
Qed.

Lemma class_in_queue s c w :
  inv s -> w ∈ queue_of (eg s) c -> class_in (eg s) w = c.
Proof.
  intros Hi Hw. unfold class_in. case_decide as H.
  - apply (arrived_disjoint s _ _ w Hi); [|apply (in_queue_arrived s c w Hi Hw)].
    by apply (in_queue_arrived s EgressClassPraos).
  - destruct c; [done|done].
Qed.

Lemma filter_single (w : waiter) (l : list waiter) :
  w ∈ l -> (length l <= 1)%nat -> filter (.≠ w) l = [].
Proof.
  intros Hw Hl. destruct l as [|x [|y l]]; [set_solver| |simpl in Hl; lia].
  apply list_elem_of_singleton in Hw as ->. rewrite filter_cons_False; [done|]. naive_solver.
Qed.

(** Removing a waiter from the pending arrivals of each class. *)
Lemma filter_abandon (w : waiter) (ab l : list waiter) :
  filter (.∉ w :: ab) l = filter (.≠ w) (filter (.∉ ab) l).
Proof.
  rewrite list_filter_filter. apply list_filter_iff. intros x. set_solver.
Qed.

Lemma filter_ne_notin (w : waiter) (l : list waiter) : w ∉ l -> filter (.≠ w) l = l.
Proof.
  intros H. apply filter_all, Forall_forall. intros x Hx ->. done.
Qed.

Lemma filter_ne_mid (w : waiter) pre post :
  NoDup (pre ++ w :: post) -> filter (.≠ w) (pre ++ w :: post) = pre ++ post.
Proof.
  intros H. apply NoDup_app in H as (_ & H1 & H2). apply NoDup_cons in H2 as [H2 _].
  rewrite filter_app, filter_cons_False by naive_solver.
  rewrite !filter_ne_notin; [done|done|]. intros Hw. apply (H1 w Hw). set_solver.
Qed.

Lemma inv_init : inv init.
Proof.
  split; simpl; [naive_solver|lia|done|lia|constructor|by constructor|constructor|].
  by intros [].
Qed.

Lemma on_class_eq c w f : on_class c w f c = f c ++ [w].
Proof. unfold on_class. by rewrite decide_True. Qed.

Lemma on_class_ne c c' w f : c' <> c -> on_class c w f c' = f c'.
Proof. intros. unfold on_class. by rewrite decide_False. Qed.

(** What a granting [release] does to the queues. *)
Lemma release_queue s e' w :
  inv s -> release (eg s) = (e', Some w) ->
  queue_of (eg s) (class_in (eg s) w) = w :: queue_of e' (class_in (eg s) w) /\
  (forall c, c <> class_in (eg s) w -> queue_of e' c = queue_of (eg s) c) /\
  busy e' = busy (eg s) /\ (praosRun e' <= praosBurst)%nat.
Proof.
  intros Hi H. pose proof (inv_run _ Hi) as Hr.
  apply release_cases in H as [(_ & _ & _ & ?)|[(w0 & ls & Hl & _ & -> & E)|
    (w0 & ps & run & Hp & E & -> & Hrun)]]; simplify_eq.
  - rewrite (class_in_queue s EgressClassLeios) by (done || simpl; rewrite Hl; set_solver).
    simpl. split_and!; [done|by intros []|done|lia].
  - rewrite (class_in_queue s EgressClassPraos) by (done || simpl; rewrite Hp; set_solver).
    simpl. split_and!; [done|by intros []|done|]. destruct Hrun as [[_ ->]|(_ & ? & ->)]; lia.
Qed.

Lemma fresh_next s : inv s -> (forall c, next s ∉ arrived s c) /\ next s ∉ abandoned s.
Proof.
  intros Hi. pose proof (inv_ab _ Hi) as Ha. rewrite Forall_forall in Ha. split.
  - intros c Hin. pose proof (inv_fresh _ Hi c) as Hf. rewrite Forall_forall in Hf.
    apply Hf in Hin. lia.
  - intros Hin. apply Ha in Hin. lia.
Qed.

Lemma Forall_lt_S n (l : list nat) :
  Forall (fun w => (w < n)%nat) l -> Forall (fun w => (w < S n)%nat) l.
Proof. intros H. eapply Forall_impl; [exact H|]. simpl. lia. Qed.

Lemma enter_queued_cases s pid e' :
  acquireEnter (eg s) (next s) pid = (e', false) ->
  queue_of e' (EgressClassOf pid) = queue_of (eg s) (EgressClassOf pid) ++ [next s] /\
  (forall c', c' <> EgressClassOf pid -> queue_of e' c' = queue_of (eg s) c') /\
  busy (eg s) = true /\ busy e' = true /\ praosRun e' = praosRun (eg s).
Proof.
  unfold acquireEnter. intros H. destruct (busy (eg s)) eqn:Hb; [|done].
  destruct (EgressClassOf pid); simplify_eq; simpl; split_and!; try done; by intros [].
Qed.

Lemma enter_free_cases s pid e' :
  acquireEnter (eg s) (next s) pid = (e', true) ->
  busy (eg s) = false /\ busy e' = true /\ praosRun e' = praosRun (eg s) /\
  forall c, queue_of e' c = queue_of (eg s) c.
Proof.
  unfold acquireEnter. intros H. destruct (busy (eg s));
    [destruct (EgressClassOf pid); simplify_eq|]. by simplify_eq.
Qed.

Lemma inv_enter_queued s pid e' :
  inv s -> acquireEnter (eg s) (next s) pid = (e', false) ->
  inv (mkSys e' (holders s) (S (next s))
         (on_class (EgressClassOf pid) (next s) (arrived s)) (granted s) (abandoned s)).
Proof.
  intros Hi H. apply enter_queued_cases in H as (Hq1 & Hq2 & Hb & Hq3 & Hq4).
  destruct (fresh_next s Hi) as [Hfr Hfa]. generalize dependent (EgressClassOf pid). intros c Hq1 Hq2.
  split; cbn [eg holders next arrived granted abandoned].
  - rewrite Hq3, <-(inv_busy _ Hi), Hb. done.
  - apply Hi.
  - rewrite Hq3. done.
  - rewrite Hq4. apply Hi.
  - pose proof (inv_nodup _ Hi) as Hn.
    assert (Hnot : next s ∉ arrived s EgressClassPraos ++ arrived s EgressClassLeios).
    { rewrite elem_of_app. intros [?|?]; by eapply Hfr. }
    destruct c; rewrite on_class_eq, on_class_ne by done.
    + rewrite <-app_assoc. simpl. rewrite <-Permutation_middle. by apply NoDup_cons.
    + rewrite app_assoc, Permutation_app_comm. by apply NoDup_cons.
  - intros c0. pose proof (Forall_lt_S _ _ (inv_fresh _ Hi c0)). unfold on_class.
    case_decide; [|done]. apply Forall_app. split; [done|]. constructor; [lia|constructor].
  - apply Forall_lt_S, Hi.
  - intros c0. pose proof (inv_fifo _ Hi c0) as Hf. destruct (decide (c0 = c)) as [->|Hne].
    + rewrite on_class_eq, filter_app, Hf, Hq1, filter_cons_True by done.
      by rewrite <-app_assoc.
    + rewrite on_class_ne, Hq2 by done. exact Hf.
Qed.

Lemma inv_enter_free s pid e' :
  inv s -> acquireEnter (eg s) (next s) pid = (e', true) ->
  inv (mkSys e' (next s :: holders s) (S (next s)) (arrived s) (granted s) (abandoned s)).
Proof.
  intros Hi H. apply enter_free_cases in H as (Hb & Hb' & Hr & Hq).
  assert (Hh : holders s = []).
  { destruct (holders s) eqn:E; [done|]. exfalso.
    assert (busy (eg s) = true) by (apply Hi; by rewrite E). congruence. }
  split; cbn [eg holders next arrived granted abandoned].
  - by rewrite Hb'.
  - rewrite Hh. simpl. lia.
  - by rewrite Hb'.
  - rewrite Hr. apply Hi.
  - apply Hi.
  - intros c. apply Forall_lt_S, Hi.
  - apply Forall_lt_S, Hi.
  - intros c. rewrite Hq. apply Hi.
Qed.

Lemma inv_release_grant s w e' w' :
  inv s -> w ∈ holders s -> release (eg s) = (e', Some w') ->
  inv (mkSys e' (w' :: filter (.≠ w) (holders s)) (next s) (arrived s)
         (on_class (class_in (eg s) w') w' (granted s)) (abandoned s)).
Proof.
  intros Hi Hw H. destruct (release_queue s e' w' Hi H) as (Hq1 & Hq2 & Hb & Hr).
  rewrite filter_single by (done || apply Hi).
  assert (Hbusy : busy (eg s) = true) by (apply Hi; intros E; rewrite E in Hw; set_solver).
  split; cbn [eg holders next arrived granted abandoned]; try apply Hi.
  - by rewrite Hb, Hbusy.
  - simpl. lia.
  - rewrite Hb, Hbusy. done.
  - done.
  - intros c. pose proof (inv_fifo _ Hi c) as Hf.
    destruct (decide (c = class_in (eg s) w')) as [->|Hne].
    + rewrite on_class_eq, Hf, Hq1, <-app_assoc. done.
    + rewrite on_class_ne, Hq2 by done. exact Hf.
Qed.

Lemma inv_release_free s w e' :
  inv s -> w ∈ holders s -> release (eg s) = (e', None) ->
  inv (mkSys e' (filter (.≠ w) (holders s)) (next s) (arrived s) (granted s) (abandoned s)).
Proof.
  intros Hi Hw H. rewrite filter_single by (done || apply Hi).
  apply release_cases in H as [(Hp & Hl & -> & _)|[(? & ? & _ & _ & _ & ?)|(? & ? & ? & _ & ? & _)]];
    [|done|done].
  split; cbn [eg holders next arrived granted abandoned newEgress busy praos leios praosRun];
    try apply Hi; try done; try lia.
  - naive_solver.
  - intros c. rewrite (inv_fifo _ Hi c). destruct c; simpl; by rewrite ?Hp, ?Hl.
Qed.

Lemma inv_abandon s w e' :
  inv s -> remove (eg s) w = (e', true) ->
  inv (mkSys e' (holders s) (next s) (arrived s) (granted s) (w :: abandoned s)).
Proof.
  intros Hi H. apply remove_true in H as (c & pre & post & Hq & Hq' & Ho & Hb & Hr).
  assert (Hin : w ∈ queue_of (eg s) c) by (rewrite Hq; set_solver).
  destruct (in_queue_arrived s c w Hi Hin) as [Harr _].
  split; cbn [eg holders next arrived granted abandoned]; try apply Hi.
  - rewrite Hb. apply Hi.
  - rewrite Hb. intros E. exfalso. destruct (inv_idle _ Hi E) as (E1 & E2 & _).
    destruct c; simpl in Hin; rewrite ?E1, ?E2 in Hin; set_solver.
  - rewrite Hr. apply Hi.
  - constructor; [|apply Hi]. pose proof (inv_fresh _ Hi c) as Hf.
    rewrite Forall_forall in Hf. auto.
  - intros c0. rewrite filter_abandon, (inv_fifo _ Hi c0).
    destruct (decide (c0 = c)) as [->|Hne].
    + pose proof (nodup_class s c Hi) as Hn. rewrite Hq, app_assoc in Hn.
      rewrite Hq, Hq', app_assoc, filter_ne_mid by done. by rewrite app_assoc.
    + rewrite Ho by done. apply filter_ne_notin. intros Hw0. apply Hne.
      apply (arrived_disjoint s c0 c w Hi); [|done].
      rewrite <-(inv_fifo _ Hi c0) in Hw0. by apply list_elem_of_filter in Hw0 as [_ ?].
Qed.

Lemma inv_step s l s' : inv s -> step s l s' -> inv s'.
Proof.
  intros Hi Hs. destruct Hs; eauto using inv_enter_free, inv_enter_queued,
    inv_release_grant, inv_release_free, inv_abandon.
Qed.

Lemma reachable_inv s : reachable s -> inv s.
Proof. induction 1; eauto using inv_init, inv_step. Qed.

(** ** Waiting *)

Lemma remove_other (w w0 : waiter) pre post pre0 post0 :
  pre ++ w :: post = pre0 ++ w0 :: post0 -> w <> w0 ->
  exists pre' post', pre0 ++ post0 = pre' ++ w :: post' /\ (length pre' <= length pre)%nat.
Proof.
  intros E Hne. apply app_eq_inv in E as [(k & -> & Hk)|(k & -> & Hk)].
  - destruct k as [|x k]; simplify_eq/=. exists (pre0 ++ k), post. rewrite <-app_assoc.
    split; [done|]. rewrite !length_app. simpl. lia.
  - destruct k as [|x k]; simplify_eq/=. exists pre, (k ++ post0). rewrite <-app_assoc.
    split; [done|lia].
Qed.

(** What one step does to a Leios waiter with [pre] ahead of it: it leaves with
    the turn, or the bound [9 * |pre| + (8 - praosRun)] on the grants it still
    waits for does not grow, and shrinks with every grant. *)
Lemma leios_wait_step s l s' pre w post :
  inv s -> step s l s' -> leios (eg s) = pre ++ w :: post -> l <> Abandon w ->
  w ∈ granted s' EgressClassLeios \/
  exists pre' post', leios (eg s') = pre' ++ w :: post' /\
    (9 * length pre' + (8 - praosRun (eg s')) + (if is_release l then 1 else 0)
     <= 9 * length pre + (8 - praosRun (eg s)))%nat.
Proof.
  intros Hi Hs Hq Hl. destruct Hs as [s pid e' H|s pid e' H|s w0 e' w' Hw H|s w0 e' Hw H|s w0 e' H];
    cbn [eg granted is_release] in *.
  - apply enter_free_cases in H as (_ & _ & Hr & Hq'). specialize (Hq' EgressClassLeios).
    simpl in Hq'. right. exists pre, post. rewrite Hq', Hr. split; [done|lia].
  - apply enter_queued_cases in H as (Hq1 & Hq2 & _ & _ & Hr). right.
    destruct (EgressClassOf pid).
    + specialize (Hq2 EgressClassLeios ltac:(done)). simpl in Hq2.
      exists pre, post. rewrite Hq2, Hr. split; [done|lia].
    + simpl in Hq1. exists pre, (post ++ [next s]). rewrite Hq1, Hq, Hr, <-app_assoc.
      split; [done|lia].
  - pose proof H as H'.
    apply release_cases in H as [(_ & _ & _ & ?)|[(w1 & ls & El & _ & -> & ?)|
      (w1 & ps & run & Ep & ? & -> & [[El _]|(_ & Hlt & ->)])]]; simplify_eq/=.
    + destruct pre as [|x pre]; rewrite Hq in El; simplify_eq/=.
      * left. rewrite (class_in_queue s EgressClassLeios), on_class_eq
          by (done || simpl; rewrite Hq; set_solver). set_solver.
      * right. exists pre, post. split; [done|]. lia.
    + rewrite Hq in El. by destruct pre.
    + right. exists pre, post. split; [done|]. unfold praosBurst in Hlt. lia.
  - apply release_cases in H as [(_ & E & _)|[(? & ? & _ & _ & _ & ?)|(? & ? & ? & _ & ? & _)]];
      [|done|done]. rewrite Hq in E. by destruct pre.
  - right. apply remove_true in H as (c & pre0 & post0 & E & E' & Ho & _ & Hr).
    assert (Hne : w0 <> w) by congruence. destruct c.
    + specialize (Ho EgressClassLeios ltac:(done)). simpl in Ho.
      exists pre, post. rewrite Ho, Hr. split; [done|lia].
    + simpl in E, E'. rewrite Hq in E. rewrite E'.
      destruct (remove_other w w0 pre post pre0 post0 E) as (pre' & post' & -> & Hlen); [done|].
      exists pre', post'. rewrite Hr. split; [done|lia].
Qed.

(** The same for a Praos waiter: [|pre|] shrinks with every Praos grant, and
    every Leios grant it sees uses up a whole burst of Praos grants. *)
Lemma praos_wait_step s l s' pre w post :
  inv s -> step s l s' -> praos (eg s) = pre ++ w :: post -> l <> Abandon w ->
  w ∈ granted s' EgressClassPraos \/
  exists pre' post' dP dL, praos (eg s') = pre' ++ w :: post' /\
    length (granted s' EgressClassPraos) = (length (granted s EgressClassPraos) + dP)%nat /\
    length (granted s' EgressClassLeios) = (length (granted s EgressClassLeios) + dL)%nat /\
    (dP + dL = if is_release l then 1 else 0)%nat /\
    (length pre' + dP <= length pre)%nat /\
    (8 * dL + praosRun (eg s') <= praosRun (eg s) + dP)%nat.
Proof.
  intros Hi Hs Hq Hl. destruct Hs as [s pid e' H|s pid e' H|s w0 e' w' Hw H|s w0 e' Hw H|s w0 e' H];
    cbn [eg granted is_release] in *.
  - apply enter_free_cases in H as (_ & _ & Hr & Hq'). specialize (Hq' EgressClassPraos).
    simpl in Hq'. right. exists pre, post, 0%nat, 0%nat. rewrite Hq', Hr. split_and!; (done || lia).
  - apply enter_queued_cases in H as (Hq1 & Hq2 & _ & _ & Hr). right.
    destruct (EgressClassOf pid).
    + simpl in Hq1. exists pre, (post ++ [next s]), 0%nat, 0%nat.
      rewrite Hq1, Hq, Hr, <-app_assoc. split_and!; (done || lia).
    + specialize (Hq2 EgressClassPraos ltac:(done)). simpl in Hq2.
      exists pre, post, 0%nat, 0%nat. rewrite Hq2, Hr. split_and!; (done || lia).
  - pose proof H as H'.
    apply release_cases in H as [(_ & _ & _ & ?)|[(w1 & ls & El & Hp & -> & ?)|
      (w1 & ps & run & Ep & ? & -> & Hrun)]]; simplify_eq/=.
    + right. rewrite (class_in_queue s EgressClassLeios), on_class_eq, on_class_ne
        by (done || simpl; rewrite El; set_solver).
      destruct Hp as [Hp|Hp]; [rewrite Hq in Hp; by destruct pre|]. unfold praosBurst in Hp.
      exists pre, post, 0%nat, 1%nat. rewrite length_app. simpl. split_and!; (done || lia).
    + rewrite (class_in_queue s EgressClassPraos), on_class_eq, on_class_ne
        by (done || simpl; rewrite Ep; set_solver).
      rewrite Hq in Ep. destruct pre as [|x pre]; simplify_eq/=; [left; set_solver|].
      right. exists pre, post, 1%nat, 0%nat. rewrite length_app. simpl.
      destruct Hrun as [[_ ->]|(_ & _ & ->)]; split_and!; (done || lia).
  - apply release_cases in H as [(E & _ & _)|[(? & ? & _ & _ & _ & ?)|(? & ? & ? & _ & ? & _)]];
      [|done|done]. rewrite Hq in E. by destruct pre.
  - right. apply remove_true in H as (c & pre0 & post0 & E & E' & Ho & _ & Hr).
    assert (Hne : w0 <> w) by congruence. destruct c.
    + simpl in E, E'. rewrite Hq in E. rewrite E'.
      destruct (remove_other w w0 pre post pre0 post0 E) as (pre' & post' & -> & Hlen); [done|].
      exists pre', post', 0%nat, 0%nat. rewrite Hr. split_and!; (done || lia).
    + specialize (Ho EgressClassPraos ltac:(done)). simpl in Ho.
      exists pre, post, 0%nat, 0%nat. rewrite Ho, Hr. split_and!; (done || lia).
Qed.

Lemma granted_mono s l s' c w : step s l s' -> w ∈ granted s c -> w ∈ granted s' c.
Proof.
  intros Hs Hw. destruct Hs; cbn [granted]; try done.
  unfold on_class. case_decide; [|done]. apply elem_of_app. by left.
Qed.

Lemma granted_mono_steps s ls s' c w : steps s ls s' -> w ∈ granted s c -> w ∈ granted s' c.
Proof. induction 1; eauto using granted_mono. Qed.

Lemma releases_cons l ls : releases (l :: ls) = ((if is_release l then 1 else 0) + releases ls)%nat.
Proof. unfold releases. simpl. by destruct (is_release l). Qed.

Lemma leios_wait_steps s ls s' : steps s ls s' -> inv s -> forall pre w post,
  leios (eg s) = pre ++ w :: post -> Abandon w ∉ ls ->
  w ∈ granted s' EgressClassLeios \/
  (releases ls <= 9 * length pre + (8 - praosRun (eg s)))%nat.
Proof.
  induction 1 as [s|s l s1 ls s2 Hs Hss IH]; intros Hi pre w post Hq Hab; [right; unfold releases; simpl; lia|].
  destruct (leios_wait_step s l s1 pre w post Hi Hs Hq) as [Hg|(pre' & post' & Hq' & Hm)].
  - intros ->. apply Hab. by left.
  - left. by eapply granted_mono_steps.
  - destruct (IH (inv_step _ _ _ Hi Hs) pre' w post' Hq') as [Hg|Hb]; [|by left|].
    + intros Hin. apply Hab. by right.
    + right. rewrite releases_cons. lia.
Qed.

Lemma praos_wait_steps s ls s' : steps s ls s' -> inv s -> forall pre w post,
  praos (eg s) = pre ++ w :: post -> Abandon w ∉ ls ->
  w ∈ granted s' EgressClassPraos \/
  exists dP dL, (dP + dL = releases ls)%nat /\ (dP <= length pre)%nat /\
    (8 * dL <= praosRun (eg s) + dP)%nat.
Proof.
  induction 1 as [s|s l s1 ls s2 Hs Hss IH]; intros Hi pre w post Hq Hab.
  { right. exists 0%nat, 0%nat. unfold releases. simpl. lia. }
  destruct (praos_wait_step s l s1 pre w post Hi Hs Hq)
    as [Hg|(pre' & post' & dP & dL & Hq' & _ & _ & Hd & Hp & Hr)].
  - intros ->. apply Hab. by left.
  - left. by eapply granted_mono_steps.
  - destruct (IH (inv_step _ _ _ Hi Hs) pre' w post' Hq') as [Hg|(dP' & dL' & ? & ? & ?)]; [|by left|].
    + intros Hin. apply Hab. by right.
    + right. exists (dP + dP')%nat, (dL + dL')%nat. rewrite releases_cons. lia.
Qed.

(** ** Properties *)

(** Mutual exclusion and order. In every reachable state of the egress
    scheduler at most one goroutine holds the turn to write, the turn is marked
    busy exactly when some goroutine holds it, an idle scheduler has no waiter,
    and within each class the waiters were granted the turn in the order they
    arrived, leaving out those that gave up: the remaining arrivals are the
    granted ones followed by the queue. *)
Theorem egress_mutual_exclusion (s : sys) :
  reachable s ->
  (length (holders s) <= 1)%nat /\
  (busy (eg s) = true <-> holders s <> []) /\
  (busy (eg s) = false -> praos (eg s) = [] /\ leios (eg s) = []) /\
  forall c, filter (.∉ abandoned s) (arrived s c) = granted s c ++ queue_of (eg s) c.
Proof.
  intros Hi%reachable_inv. split_and!; try apply Hi.
  intros Hb. by destruct (inv_idle _ Hi Hb) as (? & ? & _).
Qed.

(** Three goroutines: the first holds the turn, a Leios and a Praos one wait. *)
Definition demo : sys :=
  mkSys (mkEgress true [2%nat] [1%nat] 0) [0%nat] 3
    (on_class EgressClassPraos 2 (on_class EgressClassLeios 1 (fun _ => []))) (fun _ => []) [].

Lemma demo_reachable : reachable demo.
Proof.
  apply (reach_step (mkSys (mkEgress true [] [1%nat] 0) [0%nat] 2
    (on_class EgressClassLeios 1 (fun _ => [])) (fun _ => []) []) (Enter 2)).
  - apply (reach_step (mkSys (mkEgress true [] [] 0) [0%nat] 1 (fun _ => []) (fun _ => []) [])
      (Enter 19)).
    + apply (reach_step init (Enter 3)); [constructor|]. by apply (step_enter_free init).
    + by apply (step_enter_queued (mkSys (mkEgress true [] [] 0) [0%nat] 1 _ _ _)).
  - by apply (step_enter_queued (mkSys (mkEgress true [] [1%nat] 0) [0%nat] 2 _ _ _)).
Qed.

(** An instance. *)
Lemma egress_mutual_exclusion_witness : (length (holders demo) <= 1)%nat /\ busy (eg demo) = true.
Proof.
  destruct (egress_mutual_exclusion demo demo_reachable) as (H & H2 & _).
  split; [exact H|]. apply H2. discriminate.
Defined.

(** C34. No starvation. However arrivals, releases and abandoned waits
    interleave, a Leios segment with [i] Leios segments ahead of it has the turn
    after at most [9 * i + 9] further releases, and a Praos segment with [j]
    Praos segments ahead of it after at most [j + j / 8 + 2]: it waits for the
    [j] segments and for at most one Leios segment per burst of eight, plus
    one. *)
Theorem egress_bounded_wait (s s' : sys) (ls : list label) (w : waiter) :
  reachable s -> steps s ls s' -> Abandon w ∉ ls ->
  (forall i, leios (eg s) !! i = Some w -> (9 * i + 9 <= releases ls)%nat ->
     w ∈ granted s' EgressClassLeios) /\
  (forall j, praos (eg s) !! j = Some w -> (j + j / 8 + 2 <= releases ls)%nat ->
     w ∈ granted s' EgressClassPraos).
Proof.
  intros Hi%reachable_inv Hs Hab. split.
  - intros i Hw Hrel. apply list_elem_of_split_length in Hw as (pre & post & Hq & ->).
    destruct (leios_wait_steps _ _ _ Hs Hi pre w post Hq Hab); [done|lia].
  - intros j Hw Hrel. apply list_elem_of_split_length in Hw as (pre & post & Hq & ->).
    destruct (praos_wait_steps _ _ _ Hs Hi pre w post Hq Hab)
      as [?|(dP & dL & H1 & H2 & H3)]; [done|]. exfalso.
    pose proof (inv_run _ Hi) as Hr. unfold praosBurst in Hr.
    pose proof (Nat.div_mod_eq (length pre) 8). pose proof (Nat.mod_upper_bound (length pre) 8).
    lia.
Qed.

(** Witness of C34: one release later the waiting Praos goroutine has the turn. *)
Lemma egress_bounded_wait_witness :
  exists s' ls, steps demo ls s' /\ (0 + 0 / 8 + 2 <= releases ls)%nat /\
    2%nat ∈ granted s' EgressClassPraos.
Proof.
  pose (s1 := mkSys (mkEgress true [] [1%nat] 1) [2%nat] 3 (arrived demo)
    (on_class EgressClassPraos 2 (fun _ => [])) []).
  pose (s2 := mkSys (mkEgress true [] [] 0) [1%nat] 3 (arrived demo)
    (on_class EgressClassLeios 1 (granted s1)) []).
  assert (Hs : steps demo [Release 0; Release 2] s2).
  { apply (steps_cons _ _ s1).
    - apply (step_release_grant demo 0 (eg s1) 2); [simpl; set_solver|reflexivity].
    - apply (steps_cons _ _ s2); [|constructor].
      apply (step_release_grant s1 2 (eg s2) 1); [simpl; set_solver|reflexivity]. }
  exists s2, [Release 0; Release 2]. split; [exact Hs|]. split; [cbv; lia|].
  apply (egress_bounded_wait demo s2 _ 2 demo_reachable Hs) with 0%nat;
    [set_solver|reflexivity|cbv; lia].
Defined.
