(* ===== verification/Ingress.v ===== *)
(** * Muxer ingress (src/muxer/muxer.go)

    How inbound segments reach the mini-protocols: the connection-wide budget,
    one queue per protocol role with its forwarder goroutine, the routing of the
    read loop, and registration with suspension and carried bytes. Every event
    of the model is one critical section of the code or one channel operation of
    a goroutine; metrics, deadlines and the start gate are left out. *)

From S2P Require Import Prelude Segment.

(** ** The connection-wide account *)

Definition DefaultIngressLimit : Z := 16777216.
Definition DefaultIngressBudget : Z := 67108864.
Definition maxBudgetExtension : Z := MaxInt / 64.

(** [extended] is a [big.Int]; [used] and [inUse] (the code's [payload]) are sums
    of the sizes of live objects, which fit an [int]. *)
Record ingressAccount := mkAccount {
  budget : Z;
  extended : Z;
  accountLimit : Z;
  used : Z;
  inUse : Z
}.

Definition newIngressAccount : ingressAccount :=
  mkAccount DefaultIngressBudget 0 DefaultIngressBudget 0 0.

Definition updateLimitLocked (a : ingressAccount) : ingressAccount :=
  mkAccount (budget a) (extended a)
    (if MaxInt - budget a <? extended a then MaxInt else budget a + extended a) (used a) (inUse a).

Definition extend (delta : Z) (a : ingressAccount) : ingressAccount :=
  let e := extended a + delta in
  updateLimitLocked (mkAccount (budget a) (if e <? 0 then 0 else e) (accountLimit a) (used a) (inUse a)).

Definition setBudget (b : Z) (a : ingressAccount) : ingressAccount :=
  let b := if b <=? 0 then DefaultIngressBudget else b in
  updateLimitLocked (mkAccount b (extended a) (accountLimit a) (used a) (inUse a)).

Definition reserve (cost payloadBytes : Z) (force : bool) (a : ingressAccount) : bool * ingressAccount :=
  if negb force && (accountLimit a - used a <? cost) then (false, a)
  else (true, mkAccount (budget a) (extended a) (accountLimit a) (used a + cost) (inUse a + payloadBytes)).

Definition release (cost payloadBytes : Z) (a : ingressAccount) : ingressAccount :=
  mkAccount (budget a) (extended a) (accountLimit a)
    (Z.max (used a - cost) 0) (Z.max (inUse a - payloadBytes) 0).

(** ** One protocol role's queue *)

Definition ProtocolRoleInitiator : Z := 1.
Definition ProtocolRoleResponder : Z := 2.

(** [hand] is the segment the forwarder has taken and not yet delivered, [ch] the
    buffered channel to the consumer, [ended] whether the forwarder has returned;
    [accepted] and [received] record what entered the queue and what the consumer
    took. *)
Record segmentChannel := mkChannel {
  protocolId : Z;
  protocolRole : Z;
  limit : Z;
  extension : Z;
  backpressure : bool;
  queue : list Segment;
  pendingBytes : Z;
  pendingCost : Z;
  closed : bool;
  suspended : bool;
  carry : option bytes;
  hand : option Segment;
  ch : list Segment;
  ended : bool;
  accepted : list Segment;
  received : list Segment
}.

Definition newSegmentChannel (pid role : Z) : segmentChannel :=
  mkChannel pid role DefaultIngressLimit 0 false [] 0 0 false false None None [] false [] [].

(** The capacity of [ch]. *)
Definition chanCapacity : nat := 10.

Definition setLimit (l : Z) (c : segmentChannel) : segmentChannel :=
  mkChannel (protocolId c) (protocolRole c) l (extension c) (backpressure c) (queue c) (pendingBytes c)
    (pendingCost c) (closed c) (suspended c) (carry c) (hand c) (ch c) (ended c) (accepted c) (received c).

Definition setBackpressure (b : bool) (c : segmentChannel) : segmentChannel :=
  mkChannel (protocolId c) (protocolRole c) (limit c) (extension c) b (queue c) (pendingBytes c)
    (pendingCost c) (closed c) (suspended c) (carry c) (hand c) (ch c) (ended c) (accepted c) (received c).

Definition setBudgetExtension (extra : Z) (c : segmentChannel) (a : ingressAccount)
    : segmentChannel * ingressAccount :=
  let extra := Z.min (Z.max extra 0) maxBudgetExtension in
  if extra =? extension c then (c, a)
  else (mkChannel (protocolId c) (protocolRole c) (limit c) extra (backpressure c) (queue c) (pendingBytes c)
          (pendingCost c) (closed c) (suspended c) (carry c) (hand c) (ch c) (ended c) (accepted c) (received c),
        extend (extra - extension c) a).

Definition suspend (bs : option bytes) (c : segmentChannel) : segmentChannel :=
  mkChannel (protocolId c) (protocolRole c) (limit c) (extension c) (backpressure c) (queue c) (pendingBytes c)
    (pendingCost c) (closed c) true bs (hand c) (ch c) (ended c) (accepted c) (received c).

Definition resume (c : segmentChannel) : bool * segmentChannel :=
  if negb (suspended c) || closed c then (false, c)
  else (true, mkChannel (protocolId c) (protocolRole c) (limit c) (extension c) (backpressure c) (queue c)
                (pendingBytes c) (pendingCost c) (closed c) false (carry c) (hand c) (ch c) (ended c)
                (accepted c) (received c)).

Definition takeCarry (c : segmentChannel) : option bytes * segmentChannel :=
  (carry c, mkChannel (protocolId c) (protocolRole c) (limit c) (extension c) (backpressure c) (queue c)
              (pendingBytes c) (pendingCost c) (closed c) (suspended c) None (hand c) (ch c) (ended c)
              (accepted c) (received c)).

(** [stop], up to waiting for the forwarder. *)
Definition stop (c : segmentChannel) : segmentChannel :=
  mkChannel (protocolId c) (protocolRole c) (limit c) (extension c) (backpressure c) (queue c) (pendingBytes c)
    (pendingCost c) true (suspended c) (carry c) (hand c) (ch c) (ended c) (accepted c) (received c).

Section Ingress.

(** The size of a queued [Segment] and its pointer, which depends on the target. *)
Variable segmentRetainedOverhead : Z.

(** Inbound payloads are allocated at their exact size. *)
Definition segmentRetainedCost (s : Segment) : Z := blen (Payload s) + segmentRetainedOverhead.

(** One turn of [enqueue]: [MustWait] is the wait for room under backpressure. *)
Inductive enqueueResult := Enqueued | ErrChannelClosed | ErrQueueOverflow | ErrBudgetOverflow | MustWait.

Definition enqueue (msg : Segment) (c : segmentChannel) (a : ingressAccount)
    : enqueueResult * segmentChannel * ingressAccount :=
  let retainedCost := segmentRetainedCost msg in
  if closed c then (ErrChannelClosed, c, a) else
  let newPending := pendingBytes c + blen (Payload msg) in
  let admits := backpressure c && (blen (queue c) =? 0) in
  let fitsQueue := (newPending <=? limit c) || admits in
  let '(reserved, a) := if fitsQueue then reserve retainedCost (blen (Payload msg)) admits a else (false, a) in
  if reserved : bool then
    (Enqueued,
     mkChannel (protocolId c) (protocolRole c) (limit c) (extension c) (backpressure c) (queue c ++ [msg])
       newPending (pendingCost c + retainedCost) (closed c) (suspended c) (carry c) (hand c) (ch c) (ended c)
       (accepted c ++ [msg]) (received c), a)
  else if negb (backpressure c) then
    (if limit c <? newPending then ErrQueueOverflow else ErrBudgetOverflow, c, a)
  else (MustWait, c, a).

(** The forwarder takes the first segment off the queue. *)
Definition forwardTake (c : segmentChannel) (a : ingressAccount) : option (segmentChannel * ingressAccount) :=
  match ended c, hand c, queue c with
  | false, None, seg :: q =>
    Some (mkChannel (protocolId c) (protocolRole c) (limit c) (extension c) (backpressure c) q
            (pendingBytes c - blen (Payload seg)) (pendingCost c - segmentRetainedCost seg) (closed c)
            (suspended c) (carry c) (Some seg) (ch c) (ended c) (accepted c) (received c),
          release (segmentRetainedCost seg) (blen (Payload seg)) a)
  | _, _, _ => None
  end.

(** It delivers the segment when the channel has room. *)
Definition forwardSend (c : segmentChannel) : option segmentChannel :=
  match ended c, hand c with
  | false, Some seg =>
    if decide (length (ch c) < chanCapacity)%nat then
      Some (mkChannel (protocolId c) (protocolRole c) (limit c) (extension c) (backpressure c) (queue c)
              (pendingBytes c) (pendingCost c) (closed c) (suspended c) (carry c) None (ch c ++ [seg]) (ended c)
              (accepted c) (received c))
    else None
  | _, _ => None
  end.

(** A closed channel ends the forwarder while it waits to deliver or has nothing
    to take; what is left of the queue is returned to the account. *)
Definition forwardExit (c : segmentChannel) (a : ingressAccount) : option (segmentChannel * ingressAccount) :=
  if closed c && negb (ended c) && (bool_decide (hand c <> None) || bool_decide (queue c = [])) then
    Some (mkChannel (protocolId c) (protocolRole c) (limit c) 0 (backpressure c) [] 0 0 (closed c)
            (suspended c) (carry c) None (ch c) true (accepted c) (received c),
          extend (- extension c) (release (pendingCost c) (pendingBytes c) a))
  else None.

(** The protocol takes a segment from its channel. *)
Definition consume (c : segmentChannel) : option segmentChannel :=
  match ch c with
  | [] => None
  | seg :: rest =>
    Some (mkChannel (protocolId c) (protocolRole c) (limit c) (extension c) (backpressure c) (queue c)
            (pendingBytes c) (pendingCost c) (closed c) (suspended c) (carry c) (hand c) rest (ended c)
            (accepted c) (received c ++ [seg]))
  end.

(** ** The muxer *)

Inductive DiffusionMode := DiffusionModeNone | DiffusionModeInitiator | DiffusionModeResponder
  | DiffusionModeInitiatorAndResponder.

Inductive muxError :=
| ErrNotResponder | ErrNotInitiator | ErrUnknownProtocol (pid : Z) | ErrIngressOverflow (pid : Z).

(** [chans] are the receivers by identity; [protocolReceivers] and
    [protocolSenders] the maps by protocol and role; [reading] the segment the
    read loop is enqueueing, with whether it has waited for room. *)
Record Muxer := mkMuxer {
  chans : gmap nat segmentChannel;
  nextChan : nat;
  protocolReceivers : gmap Z (gmap Z nat);
  protocolSenders : gmap Z (gset Z);
  protocolTombstones : gmap Z (gset Z);
  ingress : ingressAccount;
  diffusionMode : DiffusionMode;
  done_ : bool;
  errors : list muxError;
  reading : option (nat * Segment * bool);
  readerDone : bool
}.

Definition NewMuxer : Muxer := mkMuxer ∅ 0 ∅ ∅ ∅ newIngressAccount DiffusionModeNone false [] None false.

Definition receiver (m : Muxer) (pid role : Z) : option nat :=
  protocolReceivers m !! pid ≫= fun roles => roles !! role.

Definition tombstoned (m : Muxer) (pid role : Z) : bool :=
  bool_decide (role ∈ default ∅ (protocolTombstones m !! pid)).

Definition set_chan (id : nat) (c : segmentChannel) (a : ingressAccount) (m : Muxer) : Muxer :=
  mkMuxer (<[id := c]> (chans m)) (nextChan m) (protocolReceivers m) (protocolSenders m) (protocolTombstones m)
    a (diffusionMode m) (done_ m) (errors m) (reading m) (readerDone m).

Definition set_reading (r : option (nat * Segment * bool)) (m : Muxer) : Muxer :=
  mkMuxer (chans m) (nextChan m) (protocolReceivers m) (protocolSenders m) (protocolTombstones m)
    (ingress m) (diffusionMode m) (done_ m) (errors m) r (readerDone m).

Definition set_account (a : ingressAccount) (m : Muxer) : Muxer :=
  mkMuxer (chans m) (nextChan m) (protocolReceivers m) (protocolSenders m) (protocolTombstones m)
    a (diffusionMode m) (done_ m) (errors m) (reading m) (readerDone m).

Definition SetDiffusionMode (d : DiffusionMode) (m : Muxer) : Muxer :=
  mkMuxer (chans m) (nextChan m) (protocolReceivers m) (protocolSenders m) (protocolTombstones m)
    (ingress m) d (done_ m) (errors m) (reading m) (readerDone m).

(** [Stop] closes [doneChan]. *)
Definition Stop (m : Muxer) : Muxer :=
  mkMuxer (chans m) (nextChan m) (protocolReceivers m) (protocolSenders m) (protocolTombstones m)
    (ingress m) (diffusionMode m) true (errors m) (reading m) (readerDone m).

(** [sendError]; the error channel holds ten. *)
Definition sendError (e : muxError) (m : Muxer) : Muxer :=
  if done_ m then m else
  Stop (mkMuxer (chans m) (nextChan m) (protocolReceivers m) (protocolSenders m) (protocolTombstones m)
          (ingress m) (diffusionMode m) (done_ m)
          (if decide (length (errors m) < 10)%nat then errors m ++ [e] else errors m) (reading m) (readerDone m)).

(** The read loop returns. *)
Definition endReader (m : Muxer) : Muxer :=
  mkMuxer (chans m) (nextChan m) (protocolReceivers m) (protocolSenders m) (protocolTombstones m)
    (ingress m) (diffusionMode m) (done_ m) (errors m) None true.

Definition updateAt (pid role : Z) (f : segmentChannel -> ingressAccount -> segmentChannel * ingressAccount)
    (m : Muxer) : bool * Muxer :=
  match receiver m pid role with
  | Some id =>
    match chans m !! id with
    | Some c => let '(c, a) := f c (ingress m) in (true, set_chan id c a m)
    | None => (false, m)
    end
  | None => (false, m)
  end.

Definition SetIngressBudget (b : Z) (m : Muxer) : Muxer := set_account (setBudget b (ingress m)) m.

Definition SetIngressBudgetExtension (pid role extra : Z) (m : Muxer) : bool * Muxer :=
  updateAt pid role (fun c a => setBudgetExtension extra c a) m.

Definition SetIngressLimit (pid role l : Z) (m : Muxer) : bool * Muxer :=
  updateAt pid role (fun c a => (setLimit (if l <=? 0 then DefaultIngressLimit else l) c, a)) m.

Definition SetIngressBackpressure (pid role : Z) (enabled : bool) (m : Muxer) : bool * Muxer :=
  updateAt pid role (fun c a => (setBackpressure enabled c, a)) m.

(** The role's receiver: the suspended one, resumed, or a new one. *)
Definition receiverFor (pid role : Z) (m : Muxer) : nat * segmentChannel * nat :=
  match receiver m pid role ≫= fun id => c ← chans m !! id; Some (id, c) with
  | Some (id, c) =>
    let '(ok, c) := resume c in
    if ok : bool then (id, c, nextChan m) else (nextChan m, newSegmentChannel pid role, S (nextChan m))
  | None => (nextChan m, newSegmentChannel pid role, S (nextChan m))
  end.

Definition RegisterProtocol (pid role : Z) (m : Muxer) : option nat * Muxer :=
  if done_ m then (None, m) else
  let '(id, c, next) := receiverFor pid role m in
  (Some id,
   mkMuxer (<[id := c]> (chans m)) next
     (<[pid := <[role := id]> (default ∅ (protocolReceivers m !! pid))]> (protocolReceivers m))
     (<[pid := {[role]} ∪ default ∅ (protocolSenders m !! pid)]> (protocolSenders m))
     (<[pid := default ∅ (protocolTombstones m !! pid) ∖ {[role]}]> (protocolTombstones m))
     (ingress m) (diffusionMode m) (done_ m) (errors m) (reading m) (readerDone m)).

(** Deleting a role, and the protocol's entry when it was its last role. *)
Definition deleteRole (pid role : Z) (rs : gmap Z (gmap Z nat)) : gmap Z (gmap Z nat) :=
  match rs !! pid with
  | None => rs
  | Some roles =>
    let roles := delete role roles in
    if bool_decide (roles = ∅) then delete pid rs else <[pid := roles]> rs
  end.

Definition deleteSender (pid role : Z) (ss : gmap Z (gset Z)) : gmap Z (gset Z) :=
  match ss !! pid with
  | None => ss
  | Some roles =>
    let roles := roles ∖ {[role]} in
    if bool_decide (roles = ∅) then delete pid ss else <[pid := roles]> ss
  end.

Definition hasSender (m : Muxer) (pid role : Z) : bool :=
  bool_decide (role ∈ default ∅ (protocolSenders m !! pid)).

Definition UnregisterProtocol (pid role : Z) (m : Muxer) : Muxer :=
  let recv := receiver m pid role in
  let removed := bool_decide (recv <> None) || hasSender m pid role in
  mkMuxer (match recv with Some id => alter stop id (chans m) | None => chans m end) (nextChan m)
    (deleteRole pid role (protocolReceivers m)) (deleteSender pid role (protocolSenders m))
    (if removed then <[pid := {[role]} ∪ default ∅ (protocolTombstones m !! pid)]> (protocolTombstones m)
     else protocolTombstones m)
    (ingress m) (diffusionMode m) (done_ m) (errors m) (reading m) (readerDone m).

Definition SuspendProtocol (pid role : Z) (bs : option bytes) (m : Muxer) : bool * Muxer :=
  match receiver m pid role with
  | None => (false, m)
  | Some id =>
    (true, mkMuxer (alter (suspend bs) id (chans m)) (nextChan m) (protocolReceivers m)
             (deleteSender pid role (protocolSenders m)) (protocolTombstones m)
             (ingress m) (diffusionMode m) (done_ m) (errors m) (reading m) (readerDone m))
  end.

Definition TakeCarriedIngress (pid role : Z) (m : Muxer) : option bytes * Muxer :=
  match receiver m pid role with
  | None => (None, m)
  | Some id =>
    match chans m !! id with
    | Some c => let '(bs, c) := takeCarry c in (bs, set_chan id c (ingress m) m)
    | None => (None, m)
    end
  end.

(** ** The read loop *)

Inductive routeResult := RouteTo (id : nat) | RouteDrop | RouteError (e : muxError).

Definition roleOf (msg : Segment) : Z :=
  if IsResponse (sHeader msg) then ProtocolRoleInitiator else ProtocolRoleResponder.

(** Where a complete segment goes. *)
Definition route (m : Muxer) (msg : Segment) : routeResult :=
  let pid := GetProtocolId (sHeader msg) in
  let role := roleOf msg in
  match diffusionMode m, IsResponse (sHeader msg) with
  | DiffusionModeInitiator, false => RouteError ErrNotResponder
  | DiffusionModeResponder, true => RouteError ErrNotInitiator
  | _, _ =>
    let lookup (roles : gmap Z nat) :=
      match roles !! role with
      | Some id => RouteTo id
      | None => if tombstoned m pid role then RouteDrop else RouteError (ErrUnknownProtocol pid)
      end in
    match protocolReceivers m !! pid with
    | Some roles => lookup roles
    | None =>
      if tombstoned m pid role then RouteDrop
      else match protocolReceivers m !! ProtocolUnknown with
           | Some roles => lookup roles
           | None => RouteError (ErrUnknownProtocol pid)
           end
    end
  end.

(** The read loop has a complete segment. *)
Definition readSegmentFor (msg : Segment) (m : Muxer) : Muxer :=
  match route m msg with
  | RouteTo id => set_reading (Some (id, msg, false)) m
  | RouteDrop => m
  | RouteError e => endReader (sendError e m)
  end.

(** One turn of [enqueue] for the segment in hand. *)
Definition tryEnqueue (m : Muxer) : option Muxer :=
  match reading m with
  | None => None
  | Some (id, msg, _) =>
    match chans m !! id with
    | None => None
    | Some c =>
      let '(r, c', a) := enqueue msg c (ingress m) in
      let m' := set_chan id c' a m in
      match r with
      | Enqueued | ErrChannelClosed => Some (set_reading None m')
      | ErrQueueOverflow | ErrBudgetOverflow =>
        Some (endReader (sendError (ErrIngressOverflow (GetProtocolId (sHeader msg))) m'))
      | MustWait => Some (set_reading (Some (id, msg, true)) m')
      end
    end
  end.

(** The sweep when the read loop has returned. *)
Definition sweep (m : Muxer) : Muxer :=
  mkMuxer
    (map_imap (fun id c => Some (if existsb (fun kv => existsb (fun rv => bool_decide (snd rv = id))
                                                        (map_to_list (snd kv)))
                                     (map_to_list (protocolReceivers m)) then stop c else c)) (chans m))
    (nextChan m) ((fun _ => ∅) <$> protocolReceivers m) (protocolSenders m) (protocolTombstones m)
    (ingress m) (diffusionMode m) (done_ m) (errors m) (reading m) (readerDone m).

(** ** Events *)

Inductive event :=
| EvRegister (pid role : Z)
| EvUnregister (pid role : Z)
| EvSuspend (pid role : Z) (bs : option bytes)
| EvTakeCarry (pid role : Z)
| EvSetBudget (b : Z)
| EvSetExtension (pid role extra : Z)
| EvSetLimit (pid role l : Z)
| EvSetBackpressure (pid role : Z) (enabled : bool)
| EvSetMode (d : DiffusionMode)
| EvRead (msg : Segment)
| EvEnqueue
| EvAbandon
| EvForwardTake (id : nat)
| EvForwardSend (id : nat)
| EvForwardExit (id : nat)
| EvConsume (id : nat)
| EvStop
| EvReaderStop
| EvSweep.

(** [None]: the event is not enabled. *)
Definition exec (ev : event) (m : Muxer) : option Muxer :=
  match ev with
  | EvRegister pid role => Some (snd (RegisterProtocol pid role m))
  | EvUnregister pid role => Some (UnregisterProtocol pid role m)
  | EvSuspend pid role bs => Some (snd (SuspendProtocol pid role bs m))
  | EvTakeCarry pid role => Some (snd (TakeCarriedIngress pid role m))
  | EvSetBudget b => if b <=? MaxInt then Some (SetIngressBudget b m) else None (* an int *)
  | EvSetExtension pid role extra => Some (snd (SetIngressBudgetExtension pid role extra m))
  | EvSetLimit pid role l => Some (snd (SetIngressLimit pid role l m))
  | EvSetBackpressure pid role enabled => Some (snd (SetIngressBackpressure pid role enabled m))
  | EvSetMode d => Some (SetDiffusionMode d m)
  | EvRead msg => if readerDone m || bool_decide (reading m <> None) then None else Some (readSegmentFor msg m)
  | EvEnqueue => if readerDone m then None else tryEnqueue m
  | EvAbandon =>
    match reading m with
    | Some (_, _, true) => if done_ m then Some (endReader m) else None
    | _ => None
    end
  | EvForwardTake id =>
    c ← chans m !! id; '(c, a) ← forwardTake c (ingress m); Some (set_chan id c a m)
  | EvForwardSend id => c ← chans m !! id; c ← forwardSend c; Some (set_chan id c (ingress m) m)
  | EvForwardExit id =>
    c ← chans m !! id; '(c, a) ← forwardExit c (ingress m); Some (set_chan id c a m)
  | EvConsume id => c ← chans m !! id; c ← consume c; Some (set_chan id c (ingress m) m)
  | EvStop => Some (Stop m)
  | EvReaderStop => if done_ m && bool_decide (reading m = None) then Some (endReader m) else None
  | EvSweep => if readerDone m then Some (sweep m) else None
  end.

Inductive reach : Muxer -> Prop :=
| reach_new : reach NewMuxer
| reach_step m ev m' : reach m -> exec ev m = Some m' -> reach m'.

End Ingress.

(** ** Invariants *)

Section Proofs.
Variable overhead : Z.
Hypothesis overhead_nonneg : 0 <= overhead.
#[local] Set Default Proof Using "All".

Abbreviation cost := (segmentRetainedCost overhead).

Definition payload_bytes (l : list Segment) : Z := sum_by (fun s => blen (Payload s)) l.
Definition retained (l : list Segment) : Z := sum_by cost l.

(** Segments on the way from the queue to the consumer. *)
Definition in_transit (c : segmentChannel) : list Segment :=
  ch c ++ option_list (hand c) ++ queue c.

(** A segment belongs to a receiver: its direction, and its protocol unless the
    receiver is the catch-all. *)
Definition addressed (c : segmentChannel) (s : Segment) : Prop :=
  protocolRole c = roleOf s /\
  (protocolId c = GetProtocolId (sHeader s) \/ protocolId c = ProtocolUnknown).

Record chan_ok (c : segmentChannel) : Prop := {
  ok_bytes : pendingBytes c = payload_bytes (queue c);
  ok_cost : pendingCost c = retained (queue c);
  ok_extension : 0 <= extension c <= maxBudgetExtension;
  ok_fifo : if ended c then (received c ++ ch c) `prefix_of` accepted c /\ queue c = [] /\ hand c = None
            else accepted c = received c ++ in_transit c;
  ok_ended : ended c = true -> closed c = true;
  ok_addressed : Forall (addressed c) (accepted c)
}.

(** The account adds up. *)
Definition account_ok (cs : gmap nat segmentChannel) (a : ingressAccount) : Prop :=
  used a = msum (pendingCost <$> cs) /\ inUse a = msum (pendingBytes <$> cs) /\
  extended a = msum (extension <$> cs) /\ 0 < budget a <= MaxInt /\
  accountLimit a = Z.min MaxInt (budget a + extended a).

Record mux_ok (m : Muxer) : Prop := {
  ok_chans : map_Forall (fun _ c => chan_ok c) (chans m);
  ok_account : account_ok (chans m) (ingress m);
  ok_fresh id : is_Some (chans m !! id) -> (id < nextChan m)%nat;
  ok_registered pid role id : receiver m pid role = Some id ->
    exists c, chans m !! id = Some c /\ closed c = false /\ ended c = false /\
      protocolId c = pid /\ protocolRole c = role;
  ok_reading id s w : reading m = Some (id, s, w) -> exists c, chans m !! id = Some c /\ addressed c s
}.

Lemma cost_nonneg s : 0 <= cost s.
Proof. unfold segmentRetainedCost. pose proof (blen_nonneg (Payload s)). lia. Qed.

Lemma pendings_nonneg (cs : gmap nat segmentChannel) :
  map_Forall (fun _ c => chan_ok c) cs ->
  map_Forall (fun _ v => 0 <= v) (pendingCost <$> cs) /\ map_Forall (fun _ v => 0 <= v) (pendingBytes <$> cs) /\
  map_Forall (fun _ v => 0 <= v) (extension <$> cs).
Proof.
  intros Hcs. split_and!; intros i v (c & <- & Hc)%lookup_fmap_Some; destruct (Hcs i c Hc) as [H1 H2 H3 _ _ _].
  - rewrite H2. apply sum_by_nonneg, cost_nonneg.
  - rewrite H1. apply sum_by_nonneg. intros. apply blen_nonneg.
  - lia.
Qed.

(** What a channel holds is at most what the account records. *)
Lemma account_covers (cs : gmap nat segmentChannel) a id c :
  map_Forall (fun _ c => chan_ok c) cs -> account_ok cs a -> cs !! id = Some c ->
  0 <= pendingCost c <= used a /\ 0 <= pendingBytes c <= inUse a /\ 0 <= extension c <= extended a.
Proof.
  intros Hcs (-> & -> & -> & _) Hc. destruct (pendings_nonneg cs Hcs) as (N1 & N2 & N3).
  assert (E : forall f : segmentChannel -> Z, (f <$> cs) !! id = Some (f c)) by (intros f; by rewrite lookup_fmap, Hc).
  split_and!; [apply (N1 id)|apply (msum_lookup_le _ id)|apply (N2 id)|apply (msum_lookup_le _ id)|
    apply (N3 id)|apply (msum_lookup_le _ id)]; done.
Qed.

(** Replacing a channel moves the totals by the difference. *)
Lemma account_replace cs a id c c' a' :
  cs !! id = Some c -> account_ok cs a ->
  used a' = used a - pendingCost c + pendingCost c' -> inUse a' = inUse a - pendingBytes c + pendingBytes c' ->
  extended a' = extended a - extension c + extension c' -> budget a' = budget a ->
  accountLimit a' = Z.min MaxInt (budget a' + extended a') ->
  account_ok (<[id := c']> cs) a'.
Proof.
  intros Hc (H1 & H2 & H3 & H4 & H5) E1 E2 E3 E4 E5. unfold account_ok.
  rewrite !fmap_insert, !msum_insert, !lookup_fmap, Hc. simpl. rewrite E4. split_and!; try done; lia.
Qed.

Lemma account_new cs a id c :
  cs !! id = None -> pendingCost c = 0 -> pendingBytes c = 0 -> extension c = 0 ->
  account_ok cs a -> account_ok (<[id := c]> cs) a.
Proof.
  intros Hn E1 E2 E3 (H1 & H2 & H3 & H4). unfold account_ok.
  rewrite !fmap_insert, !msum_insert, !lookup_fmap, Hn, E1, E2, E3. simpl. split_and!; try done; lia.
Qed.

(** Changes that leave the pending totals of every channel alone. *)
Lemma account_same (cs cs' : gmap nat segmentChannel) a :
  (forall id, (fun c => (pendingCost c, pendingBytes c, extension c)) <$> cs' !! id =
              (fun c => (pendingCost c, pendingBytes c, extension c)) <$> cs !! id) ->
  account_ok cs a -> account_ok cs' a.
Proof.
  intros E (H1 & H2 & H3 & H4). unfold account_ok.
  assert (E' : forall (f : Z * Z * Z -> Z), (fun c => f (pendingCost c, pendingBytes c, extension c)) <$> cs' =
                (fun c => f (pendingCost c, pendingBytes c, extension c)) <$> cs).
  { intros f. apply map_eq. intros id. rewrite !lookup_fmap. specialize (E id).
    destruct (cs' !! id), (cs !! id); simplify_eq/=; try done. congruence. }
  rewrite (E' (fun x => fst (fst x)) : pendingCost <$> cs' = pendingCost <$> cs),
    (E' (fun x => snd (fst x)) : pendingBytes <$> cs' = pendingBytes <$> cs),
    (E' snd : extension <$> cs' = extension <$> cs). done.
Qed.

Lemma extend_ok delta a :
  0 < budget a <= MaxInt -> 0 <= extended a + delta ->
  let a' := extend delta a in
  used a' = used a /\ inUse a' = inUse a /\ extended a' = extended a + delta /\ budget a' = budget a /\
  accountLimit a' = Z.min MaxInt (budget a' + extended a').
Proof.
  intros Hb He. unfold extend, updateLimitLocked. cbn. destruct (Z.ltb_spec (extended a + delta) 0); [lia|].
  split_and!; try done. destruct (Z.ltb_spec (MaxInt - budget a) (extended a + delta)); lia.
Qed.

Lemma setBudget_ok cs b a : b <= MaxInt -> account_ok cs a -> account_ok cs (setBudget b a).
Proof.
  intros Hb (H1 & H2 & H3 & H4 & H5). unfold setBudget, updateLimitLocked, account_ok. cbn.
  unfold DefaultIngressBudget, MaxInt in *. split_and!; try done; destruct (Z.leb_spec b 0); try lia;
    match goal with |- context [?x <? ?y] => destruct (Z.ltb_spec x y) end; lia.
Qed.

(** ** Each operation keeps the invariant *)

(** Operations that touch neither the queue nor the path to the consumer. *)
Definition same_path (c c' : segmentChannel) : Prop :=
  (protocolId c', protocolRole c', queue c', pendingBytes c', pendingCost c', hand c', ch c', ended c',
   accepted c', received c') =
  (protocolId c, protocolRole c, queue c, pendingBytes c, pendingCost c, hand c, ch c, ended c,
   accepted c, received c) /\
  (closed c = true -> closed c' = true) /\ 0 <= extension c' <= maxBudgetExtension.

Lemma same_path_ok c c' : same_path c c' -> chan_ok c -> chan_ok c'.
Proof.
  intros (E & Hcl & He) [H1 H2 H3 H4 H5 H6]. injection E as E1 E2 E3 E4 E5 E6 E7 E8 E9 E10.
  split; unfold in_transit, addressed in *; rewrite ?E1, ?E2, ?E3, ?E4, ?E5, ?E6, ?E7, ?E8, ?E9, ?E10 in *; auto.
Qed.

Lemma set_chan_ok m id c c' a' :
  mux_ok m -> chans m !! id = Some c -> chan_ok c' -> account_ok (<[id := c']> (chans m)) a' ->
  protocolId c' = protocolId c -> protocolRole c' = protocolRole c ->
  (closed c = false -> ended c = false -> closed c' = false /\ ended c' = false) ->
  mux_ok (set_chan id c' a' m).
Proof.
  intros [H1 H2 H3 H4 H5] Hc Hok Ha Ep Er Hopen. split; cbn [chans ingress nextChan reading set_chan].
  - by apply map_Forall_insert_2.
  - done.
  - intros j Hj. destruct (decide (j = id)) as [->|]; [by apply H3|].
    rewrite lookup_insert_ne in Hj by done. by apply H3.
  - intros p r j Hj. change (receiver (set_chan id c' a' m) p r) with (receiver m p r) in Hj.
    destruct (H4 p r j Hj) as (d & Hd & Hcl & He & Hp & Hr). destruct (decide (j = id)) as [->|].
    + simplify_eq. exists c'. rewrite lookup_insert_eq. destruct (Hopen Hcl He). split_and!; try done; congruence.
    + exists d. by rewrite lookup_insert_ne.
  - intros j s w Hj. destruct (H5 j s w Hj) as (d & Hd & Had). destruct (decide (j = id)) as [->|].
    + simplify_eq. exists c'. rewrite lookup_insert_eq. split; [done|]. unfold addressed in *. by rewrite Ep, Er.
    + exists d. by rewrite lookup_insert_ne.
Qed.

Lemma enqueue_ok msg c a cs id r c' a' :
  map_Forall (fun _ c => chan_ok c) cs -> account_ok cs a -> cs !! id = Some c -> addressed c msg ->
  enqueue overhead msg c a = (r, c', a') ->
  chan_ok c' /\ account_ok (<[id := c']> cs) a' /\
  protocolId c' = protocolId c /\ protocolRole c' = protocolRole c /\ closed c' = closed c /\ ended c' = ended c.
Proof.
  intros Hcs Ha Hc Had E. pose proof (Hcs id c Hc) as Hok. pose proof Hok as [H1 H2 H3 H4 H5 H6]. unfold enqueue in E.
  assert (Hid : account_ok (<[id := c]> cs) a) by (by rewrite insert_id).
  destruct (closed c) eqn:Ecl; [injection E as <- <- <-; by split_and!|].
  assert (Een : ended c = false) by (destruct (ended c); [|done]; by specialize (H5 eq_refl)).
  set (admits := backpressure c && (blen (queue c) =? 0)) in E.
  set (fits := (pendingBytes c + blen (Payload msg) <=? limit c) || admits) in E.
  destruct (if fits then _ else _) as [[] a1] eqn:Er.
  - injection E as <- <- <-. destruct fits; [|done]. unfold reserve in Er.
    destruct (negb admits && _); [done|]. injection Er as <-. rewrite Een in H4. split_and!; try done.
    + split; cbn [pendingBytes pendingCost queue extension ended accepted received closed]; try done.
      * unfold payload_bytes in *. rewrite sum_by_app. simpl. lia.
      * unfold retained in *. rewrite sum_by_app. simpl. lia.
      * rewrite Een, H4. unfold in_transit. cbn [ch hand queue]. by rewrite <- !(assoc_L (++)).
      * apply Forall_app. split; [done|]. by constructor.
    + apply (account_replace cs a id c); try done; cbn [used inUse extended budget accountLimit pendingCost
        pendingBytes extension]; try lia. by destruct Ha as (_ & _ & _ & _ & ?).
  - assert (a1 = a) as ->.
    { destruct fits; [unfold reserve in Er; destruct (negb admits && _)|]; by simplify_eq. }
    destruct (negb (backpressure c)); injection E as <- <- <-; by split_and!.
Qed.

Lemma forwardTake_ok c a cs id c' a' :
  map_Forall (fun _ c => chan_ok c) cs -> account_ok cs a -> cs !! id = Some c ->
  forwardTake overhead c a = Some (c', a') ->
  chan_ok c' /\ account_ok (<[id := c']> cs) a' /\
  protocolId c' = protocolId c /\ protocolRole c' = protocolRole c /\ closed c' = closed c /\ ended c' = ended c.
Proof.
  intros Hcs Ha Hc E. pose proof (Hcs id c Hc) as [H1 H2 H3 H4 H5 H6]. unfold forwardTake in E.
  destruct (ended c) eqn:Een; [done|]. destruct (hand c) eqn:Eh; [done|]. destruct (queue c) as [|seg q] eqn:Eq; [done|].
  injection E as <- <-. cbn [protocolId protocolRole closed ended].
  destruct (account_covers cs a id c Hcs Ha Hc) as (C1 & C2 & _).
  unfold payload_bytes, retained in *. cbn [sum_by] in H1, H2.
  assert (0 <= sum_by cost q) by apply sum_by_nonneg, cost_nonneg.
  assert (0 <= sum_by (fun s => blen (Payload s)) q) by (apply sum_by_nonneg; intros; apply blen_nonneg).
  pose proof (cost_nonneg seg). pose proof (blen_nonneg (Payload seg)). split_and!; try done.
  - split; cbn [pendingBytes pendingCost queue extension ended accepted received closed]; try done.
    + unfold payload_bytes. lia.
    + unfold retained. lia.
    + rewrite H4. unfold in_transit. rewrite Eh, Eq. done.
  - unfold release. apply (account_replace cs a id c); try done;
      cbn [used inUse extended budget accountLimit pendingCost pendingBytes extension]; try lia.
    by destruct Ha as (_ & _ & _ & _ & ?).
Qed.

Lemma forwardExit_ok c a cs id c' a' :
  map_Forall (fun _ c => chan_ok c) cs -> account_ok cs a -> cs !! id = Some c ->
  forwardExit c a = Some (c', a') ->
  chan_ok c' /\ account_ok (<[id := c']> cs) a' /\
  protocolId c' = protocolId c /\ protocolRole c' = protocolRole c /\ closed c = true.
Proof.
  intros Hcs Ha Hc E. pose proof (Hcs id c Hc) as [H1 H2 H3 H4 H5 H6]. unfold forwardExit in E.
  destruct (closed c) eqn:Ecl; [|done]. destruct (ended c) eqn:Een; [done|]. cbn [negb andb] in E.
  destruct (bool_decide (hand c <> None) || bool_decide (queue c = [])); [|done]. injection E as <- <-.
  destruct (account_covers cs a id c Hcs Ha Hc) as (C1 & C2 & C3).
  split_and!; try done.
  - split; cbn [pendingBytes pendingCost queue extension ended accepted received closed hand ch]; try done.
    + split_and!; try done. rewrite H4. unfold in_transit. rewrite assoc_L by apply _. apply prefix_app_r. done.
  - destruct (extend_ok (- extension c) (release (pendingCost c) (pendingBytes c) a)) as (E1 & E2 & E3 & E4 & E5).
    + by destruct Ha as (_ & _ & _ & ? & _).
    + cbn. lia.
    + apply (account_replace cs a id c); try done; rewrite ?E1, ?E2, ?E3, ?E4; cbn; lia.
Qed.

(** Changes outside the channels, the account and the receivers. *)
Lemma mux_ok_frame m m' :
  mux_ok m -> chans m' = chans m -> nextChan m' = nextChan m -> ingress m' = ingress m ->
  protocolReceivers m' = protocolReceivers m -> (reading m' = reading m \/ reading m' = None) -> mux_ok m'.
Proof.
  intros [H1 H2 H3 H4 H5] E1 E2 E3 E4 E5. split; unfold receiver in *; rewrite ?E1, ?E2, ?E3, ?E4; try done.
  destruct E5 as [->| ->]; [done|]. intros; done.
Qed.

Lemma sendError_frame e m :
  chans (sendError e m) = chans m /\ nextChan (sendError e m) = nextChan m /\
  ingress (sendError e m) = ingress m /\ protocolReceivers (sendError e m) = protocolReceivers m.
Proof. unfold sendError. by destruct (done_ m). Qed.

Lemma endReader_sendError_ok e m : mux_ok m -> mux_ok (endReader (sendError e m)).
Proof.
  intros H. destruct (sendError_frame e m) as (E1 & E2 & E3 & E4).
  apply (mux_ok_frame m); try done. by right.
Qed.

(** One channel changed in place, the account with it. *)
Lemma updateAt_ok pid role f m :
  mux_ok m ->
  (forall cs id c, map_Forall (fun _ c => chan_ok c) cs -> account_ok cs (ingress m) -> cs !! id = Some c ->
     same_path c (fst (f c (ingress m))) /\ closed (fst (f c (ingress m))) = closed c /\
     account_ok (<[id := fst (f c (ingress m))]> cs) (snd (f c (ingress m)))) ->
  mux_ok (snd (updateAt pid role f m)).
Proof.
  intros Hm Hf. unfold updateAt. destruct (receiver m pid role) as [id|]; [|done].
  destruct (chans m !! id) as [c|] eqn:Hc; [|done].
  destruct (Hf (chans m) id c (ok_chans m Hm) (ok_account m Hm) Hc) as (Hs & Hcl & Ha).
  destruct (f c (ingress m)) as [c' a'] eqn:E. cbn [fst snd] in *.
  pose proof (same_path_ok c c' Hs (ok_chans m Hm id c Hc)) as Hok. destruct Hs as (Es & _). injection Es as Es1 Es2 _ _ _ _ _ Es8 _ _.
  apply (set_chan_ok m id c); try done. intros ? ?. by rewrite Hcl, Es8.
Qed.

Lemma account_id_replace cs a id c c' :
  cs !! id = Some c -> account_ok cs a -> pendingCost c' = pendingCost c -> pendingBytes c' = pendingBytes c ->
  extension c' = extension c -> account_ok (<[id := c']> cs) a.
Proof.
  intros Hc Ha E1 E2 E3. apply (account_replace cs a id c); try done; try lia. by destruct Ha as (_ & _ & _ & _ & ?).
Qed.

Lemma route_to m msg id :
  route m msg = RouteTo id ->
  exists pid, receiver m pid (roleOf msg) = Some id /\
    (pid = GetProtocolId (sHeader msg) \/ pid = ProtocolUnknown).
Proof.
  unfold route, receiver.
  destruct (diffusionMode m); destruct (IsResponse (sHeader msg)); try done;
  (destruct (protocolReceivers m !! GetProtocolId (sHeader msg)) as [roles|] eqn:E;
   [exists (GetProtocolId (sHeader msg)); rewrite E; simpl; split; [|by left];
    destruct (roles !! roleOf msg); [congruence|by destruct (tombstoned m _ _)]
   |destruct (tombstoned m _ _); [done|];
    destruct (protocolReceivers m !! ProtocolUnknown) as [roles|] eqn:E'; [|done];
    exists ProtocolUnknown; rewrite E'; simpl; split; [|by right];
    destruct (roles !! roleOf msg); [congruence|done]]).
Qed.

Lemma nextChan_fresh m : mux_ok m -> chans m !! nextChan m = None.
Proof.
  intros Hm. destruct (chans m !! nextChan m) eqn:En; [|done].
  pose proof (ok_fresh m Hm (nextChan m) ltac:(by rewrite En)). lia.
Qed.

(** A registration gets a new channel, or the suspended one of its role. *)
Lemma receiverFor_cases pid role m id c' next :
  mux_ok m -> receiverFor pid role m = (id, c', next) ->
  (id = nextChan m /\ c' = newSegmentChannel pid role /\ next = S (nextChan m)) \/
  exists c, chans m !! id = Some c /\ receiver m pid role = Some id /\ same_path c c' /\ closed c' = closed c /\
    closed c = false /\ ended c = false /\ extension c' = extension c /\ next = nextChan m.
Proof.
  intros Hm E. unfold receiverFor in E.
  destruct (receiver m pid role) as [id0|] eqn:Er; simpl in E; [|by left; simplify_eq].
  destruct (chans m !! id0) as [c|] eqn:Ec; simpl in E; [|by left; simplify_eq].
  unfold resume in E. destruct (negb (suspended c) || closed c) eqn:Eb; [by left; simplify_eq|right].
  simplify_eq. apply orb_false_iff in Eb as [_ Ecl]. exists c.
  destruct (ok_registered m Hm pid role id Er) as (d & Hd & _ & He & _). simplify_eq.
  split_and!; try done. split; [done|]. split; [done|]. apply (ok_chans m Hm id c Ec).
Qed.

(** The receivers after a registration. *)
Lemma register_receivers pid role id (rs : gmap Z (gmap Z nat)) p r j :
  (<[pid := <[role := id]> (default ∅ (rs !! pid))]> rs !! p ≫= fun roles => roles !! r) = Some j ->
  (p = pid /\ r = role /\ j = id) \/ (rs !! p ≫= fun roles => roles !! r) = Some j.
Proof using Type.
  intros Hj. destruct (decide (p = pid)) as [->|]; [|right; by rewrite lookup_insert_ne in Hj].
  rewrite lookup_insert_eq in Hj. simpl in Hj.
  destruct (decide (r = role)) as [->|]; [left; rewrite lookup_insert_eq in Hj; by simplify_eq|right].
  rewrite lookup_insert_ne in Hj by done. destruct (rs !! pid); [done|]. simpl in Hj. by rewrite lookup_empty in Hj.
Qed.

Lemma register_ok pid role m : mux_ok m -> mux_ok (snd (RegisterProtocol pid role m)).
Proof.
  intros Hm. unfold RegisterProtocol. destruct (done_ m); [done|].
  destruct (receiverFor pid role m) as [[id c'] next] eqn:E. cbn [snd].
  pose proof (nextChan_fresh m Hm) as Hnew. pose proof (receiverFor_cases pid role m id c' next Hm E) as Hcase.
  pose proof Hm as [H1 H2 H3 H4 H5]. split; cbn [chans ingress nextChan reading].
  - apply map_Forall_insert_2; [|done]. destruct Hcase as [(-> & -> & ->)|(c & Hc & _ & Hs & _)].
    + by split.
    + by apply (same_path_ok c), (H1 id).
  - destruct Hcase as [(-> & -> & ->)|(c & Hc & _ & Hs & _ & _ & _ & Hx & _)]; [by apply account_new|].
    destruct Hs as (Es & _). injection Es as _ _ _ E4 E5 _ _ _ _ _. by apply (account_id_replace _ _ _ c).
  - intros j Hj. destruct (decide (j = id)) as [->|].
    + destruct Hcase as [(-> & -> & ->)|(c & Hc & _ & _ & _ & _ & _ & _ & ->)]; [lia|apply H3; by rewrite Hc].
    + rewrite lookup_insert_ne in Hj by done. specialize (H3 j Hj).
      destruct Hcase as [(-> & -> & ->)|(c & Hc & _ & _ & _ & _ & _ & _ & ->)]; lia.
  - intros p r j Hj. unfold receiver in Hj. cbn [protocolReceivers] in Hj.
    destruct (register_receivers pid role id _ p r j Hj) as [(-> & -> & ->)|Hj'].
    + exists c'. rewrite lookup_insert_eq.
      destruct Hcase as [(-> & -> & ->)|(c & Hc & Hr & Hs & Hcl & Hcl' & He & _)]; [done|].
      destruct (H4 pid role id Hr) as (d & Hd & _ & _ & Hp & Hro). simplify_eq.
      destruct Hs as (Es & _). injection Es as E1 E2 _ _ _ _ _ E8 _ _. split_and!; try done; congruence.
    + destruct (H4 p r j Hj') as (d & Hd & Hd'). destruct (decide (j = id)) as [->|]; [|exists d; by rewrite lookup_insert_ne].
      exists c'. rewrite lookup_insert_eq. destruct Hcase as [(-> & -> & ->)|(c & Hc & Hr & Hs & Hcl & Hcl' & He & _)]; [congruence|].
      simplify_eq. destruct Hs as (Es & _). injection Es as E1 E2 _ _ _ _ _ E8 _ _.
      destruct Hd' as (? & ? & ? & ?). split_and!; try done; congruence.
  - intros j s w Hj. destruct (H5 j s w Hj) as (d & Hd & Had). destruct (decide (j = id)) as [->|]; [|exists d; by rewrite lookup_insert_ne].
    exists c'. rewrite lookup_insert_eq. split; [done|].
    destruct Hcase as [(-> & -> & ->)|(c & Hc & Hr & Hs & _)]; [congruence|]. simplify_eq.
    destruct Hs as (Es & _). injection Es as E1 E2 _ _ _ _ _ _ _ _. unfold addressed in *. by rewrite E1, E2.
Qed.

Lemma receiver_deleteRole pid role m p r id :
  (deleteRole pid role (protocolReceivers m) !! p ≫= fun roles => roles !! r) = Some id ->
  receiver m p r = Some id /\ (p = pid -> r <> role).
Proof using Type.
  unfold deleteRole, receiver. destruct (protocolReceivers m !! pid) as [roles|] eqn:E.
  2:{ intros H. split; [done|]. intros ->. by rewrite E in H. }
  case_bool_decide as Hb; intros H; destruct (decide (p = pid)) as [->|];
    rewrite ?lookup_delete_eq, ?lookup_insert_eq, ?lookup_delete_ne, ?lookup_insert_ne in H by done; try done.
  simpl in H. apply lookup_delete_Some in H as [Hne H]. rewrite E. split; [done|]. intros _ ->. done.
Qed.

(** Channels changed in place without touching what the account records; a
    receiver that stays registered stays open. *)
Lemma mux_ok_rewire m m' (f : nat -> segmentChannel -> segmentChannel) :
  mux_ok m -> (forall id, chans m' !! id = f id <$> chans m !! id) -> nextChan m' = nextChan m ->
  ingress m' = ingress m -> reading m' = reading m ->
  (forall id c, chan_ok c -> same_path c (f id c) /\ extension (f id c) = extension c) ->
  (forall p r id, receiver m' p r = Some id -> receiver m p r = Some id /\ forall c, closed (f id c) = closed c) ->
  mux_ok m'.
Proof.
  intros [H1 H2 H3 H4 H5] Ec En Ei Er Hf Hreg. split.
  - intros id c Hc. rewrite Ec in Hc. apply fmap_Some in Hc as (d & Hd & ->).
    destruct (Hf id d (H1 id d Hd)) as [Hs _]. by apply (same_path_ok d), (H1 id).
  - rewrite Ei. apply (account_same (chans m)); [|done]. intros id. rewrite Ec.
    destruct (chans m !! id) as [d|] eqn:Hd; [|done]. simpl.
    destruct (Hf id d (H1 id d Hd)) as [(Es & _) Ex]. injection Es as _ _ _ E4 E5 _ _ _ _ _. by rewrite E4, E5, Ex.
  - intros id Hid. rewrite Ec in Hid. rewrite En. apply H3. by apply fmap_is_Some in Hid.
  - intros p r id Hid. destruct (Hreg p r id Hid) as [Hid' Hcl]. destruct (H4 p r id Hid') as (d & Hd & Hcd & He & Hp & Hr).
    exists (f id d). rewrite Ec, Hd. destruct (Hf id d (H1 id d Hd)) as [(Es & _) _].
    injection Es as E1 E2 _ _ _ _ _ E8 _ _. rewrite Hcl, E1, E2, E8. done.
  - rewrite Er. intros id s w Hid. destruct (H5 id s w Hid) as (d & Hd & Had). exists (f id d). rewrite Ec, Hd.
    destruct (Hf id d (H1 id d Hd)) as [(Es & _) _]. injection Es as E1 E2 _ _ _ _ _ _ _ _.
    split; [done|]. unfold addressed in *. by rewrite E1, E2.
Qed.

Lemma stop_same c : chan_ok c -> same_path c (stop c) /\ extension (stop c) = extension c.
Proof. intros [_ _ H _ _ _]. by split; [split; [|split]|]. Qed.

Lemma suspend_same bs c : chan_ok c -> same_path c (suspend bs c) /\ extension (suspend bs c) = extension c.
Proof. intros [_ _ H _ _ _]. by split; [split; [|split]|]. Qed.

Lemma self_same c : chan_ok c -> same_path c c /\ extension c = extension c.
Proof. intros [_ _ H _ _ _]. by split; [split; [|split]|]. Qed.

Lemma lookup_alter_fmap (f : segmentChannel -> segmentChannel) id (cs : gmap nat segmentChannel) j :
  alter f id cs !! j = (if decide (j = id) then f else fun c => c) <$> cs !! j.
Proof using Type.
  destruct (decide (j = id)) as [->|]; [by rewrite lookup_alter_eq|].
  rewrite lookup_alter_ne by done. by destruct (cs !! j).
Qed.

Lemma unregister_ok pid role m : mux_ok m -> mux_ok (UnregisterProtocol pid role m).
Proof.
  intros Hm. unfold UnregisterProtocol. destruct (receiver m pid role) as [id|] eqn:Er.
  - apply (mux_ok_rewire m _ (fun j => if decide (j = id) then stop else fun c => c)); try done.
    + intros j. apply lookup_alter_fmap.
    + intros j c Hc. destruct (decide (j = id)); [by apply stop_same|by apply self_same].
    + intros p r j Hj. apply receiver_deleteRole in Hj as [Hj Hne]. split; [done|].
      destruct (decide (j = id)) as [->|]; [|done].
      destruct (ok_registered m Hm _ _ _ Hj) as (c & Hc & _ & _ & <- & <-).
      destruct (ok_registered m Hm _ _ _ Er) as (d & Hd & _ & _ & <- & <-). simplify_eq. by destruct (Hne eq_refl).
  - apply (mux_ok_rewire m _ (fun _ c => c)); try done.
    + intros j. cbn [chans]. by destruct (chans m !! j).
    + intros j c. apply self_same.
    + intros p r j Hj. by apply receiver_deleteRole in Hj as [Hj _].
Qed.

Lemma suspend_ok pid role bs m : mux_ok m -> mux_ok (snd (SuspendProtocol pid role bs m)).
Proof.
  intros Hm. unfold SuspendProtocol. destruct (receiver m pid role) as [id|] eqn:Er; [|done].
  apply (mux_ok_rewire m _ (fun j => if decide (j = id) then suspend bs else fun c => c)); try done.
  - intros j. apply lookup_alter_fmap.
  - intros j c Hc. destruct (decide (j = id)); [by apply suspend_same|by apply self_same].
  - intros p r j Hj. split; [done|]. intros c. by destruct (decide (j = id)).
Qed.

Lemma sweep_ok m : mux_ok m -> mux_ok (sweep m).
Proof.
  intros Hm. set (reg id := existsb (fun kv : Z * gmap Z nat => existsb (fun rv => bool_decide (snd rv = id))
    (map_to_list (snd kv))) (map_to_list (protocolReceivers m))).
  apply (mux_ok_rewire m _ (fun id c => if reg id then stop c else c)); try done.
  - intros id. cbn [chans sweep]. rewrite map_lookup_imap. fold (reg id). by destruct (chans m !! id).
  - intros id c Hc. destruct (reg id); [by apply stop_same|by apply self_same].
  - intros p r id Hid. exfalso. unfold receiver in Hid. cbn [protocolReceivers sweep] in Hid.
    rewrite lookup_fmap in Hid. destruct (protocolReceivers m !! p); simpl in Hid; [|done].
    by rewrite lookup_empty in Hid.
Qed.

(** Forwarding and consuming leave the account alone. *)
Lemma forwardSend_ok c c' :
  chan_ok c -> forwardSend c = Some c' ->
  chan_ok c' /\ protocolId c' = protocolId c /\ protocolRole c' = protocolRole c /\ closed c' = closed c /\
  ended c' = ended c /\ pendingCost c' = pendingCost c /\ pendingBytes c' = pendingBytes c /\ extension c' = extension c.
Proof.
  intros [H1 H2 H3 H4 H5 H6] E. unfold forwardSend in E. destruct (ended c) eqn:Ee; [done|].
  destruct (hand c) as [seg|] eqn:Eh; [|done]. destruct (decide _); [|done]. injection E as <-.
  cbn [protocolId protocolRole closed ended pendingCost pendingBytes extension]. split_and!; try done.
  split; try done. cbn [ended accepted received]. rewrite H4. unfold in_transit. cbn [ch hand queue].
  rewrite Eh. simpl. by rewrite <- (assoc_L (++)).
Qed.

Lemma consume_ok c c' :
  chan_ok c -> consume c = Some c' ->
  chan_ok c' /\ protocolId c' = protocolId c /\ protocolRole c' = protocolRole c /\ closed c' = closed c /\
  ended c' = ended c /\ pendingCost c' = pendingCost c /\ pendingBytes c' = pendingBytes c /\ extension c' = extension c.
Proof.
  intros [H1 H2 H3 H4 H5 H6] E. unfold consume in E. destruct (ch c) as [|seg rest] eqn:Ec; [done|].
  injection E as <-. cbn [protocolId protocolRole closed ended pendingCost pendingBytes extension]. split_and!; try done.
  split; try done. cbn [ended accepted received ch queue hand]. unfold in_transit in *. cbn [ch hand queue].
  rewrite Ec in H4. destruct (ended c); [destruct H4 as (? & ? & ?); split_and!; try done; by rewrite <- (assoc_L (++))|].
  by rewrite H4, <- (assoc_L (++)).
Qed.

Lemma setBudgetExtension_ok extra cs id c a :
  map_Forall (fun _ c => chan_ok c) cs -> account_ok cs a -> cs !! id = Some c ->
  let '(c', a') := setBudgetExtension extra c a in
  same_path c c' /\ closed c' = closed c /\ account_ok (<[id := c']> cs) a'.
Proof.
  intros Hcs Ha Hc. unfold setBudgetExtension. set (x := Z.min (Z.max extra 0) maxBudgetExtension).
  assert (Hx : 0 <= x <= maxBudgetExtension) by (assert (0 <= maxBudgetExtension) by (by vm_compute); lia).
  pose proof (ok_extension _ (Hcs id c Hc)) as He. destruct (Z.eqb_spec x (extension c)) as [|Hne].
  { split_and!; [by split; [|split]|done|by rewrite insert_id]. }
  split; [by split; [|split]|]. split; [done|].
  destruct (account_covers cs a id c Hcs Ha Hc) as (_ & _ & C3).
  destruct (extend_ok (x - extension c) a) as (E1 & E2 & E3 & E4 & E5); [by destruct Ha as (_ & _ & _ & ? & _)|lia|].
  apply (account_replace cs a id c); try done; rewrite ?E1, ?E2, ?E3, ?E4; cbn; lia.
Qed.

Lemma tryEnqueue_ok m m' : mux_ok m -> tryEnqueue overhead m = Some m' -> mux_ok m'.
Proof.
  intros Hm E. unfold tryEnqueue in E. destruct (reading m) as [[[id msg] w]|] eqn:Er; [|done].
  destruct (chans m !! id) as [c|] eqn:Ec; [|done].
  destruct (enqueue overhead msg c (ingress m)) as [[r c'] a'] eqn:Ee.
  destruct (ok_reading m Hm id msg w Er) as (d & Hd & Had). simplify_eq.
  destruct (enqueue_ok msg c (ingress m) (chans m) id r c' a' (ok_chans m Hm) (ok_account m Hm) Ec Had Ee)
    as (Hok & Ha & Ep & Ero & Ecl & Een).
  assert (Hset : mux_ok (set_chan id c' a' m)).
  { apply (set_chan_ok m id c); try done. intros. by rewrite Ecl, Een. }
  destruct r; simplify_eq; try (by apply endReader_sendError_ok); try (apply (mux_ok_frame _ _ Hset); auto; fail).
  destruct Hset as [S1 S2 S3 S4 S5]. split; try done. intros j s w' [= <- <- <-]. by apply (S5 id msg w).
Qed.

(** The events of a receiver's forwarder and consumer. *)
Definition flows (id : nat) (ev : event) : Prop :=
  ev = EvForwardTake id \/ ev = EvForwardSend id \/ ev = EvForwardExit id \/ ev = EvConsume id.

Lemma flow_ok id ev m m' : flows id ev -> mux_ok m -> exec overhead ev m = Some m' -> mux_ok m'.
Proof.
  intros [->|[->|[->| ->]]] Hm E; cbn [exec] in E.
  - destruct (chans m !! id) as [c|] eqn:Ec; [|done]. simpl in E.
    destruct (forwardTake overhead c (ingress m)) as [[c' a']|] eqn:Ef; [|done]. simpl in E. simplify_eq.
    destruct (forwardTake_ok c (ingress m) (chans m) id c' a' (ok_chans m Hm) (ok_account m Hm) Ec Ef)
      as (Hok & Ha & Ep & Er & Ecl & Een).
    apply (set_chan_ok m id c); try done. intros. by rewrite Ecl, Een.
  - destruct (chans m !! id) as [c|] eqn:Ec; [|done]. simpl in E.
    destruct (forwardSend c) as [c'|] eqn:Ef; [|done]. simpl in E. simplify_eq.
    destruct (forwardSend_ok c c' (ok_chans m Hm id c Ec) Ef) as (Hok & Ep & Er & Ecl & Een & E1 & E2 & E3).
    apply (set_chan_ok m id c); try done; [|by intros; rewrite Ecl, Een].
    apply (account_id_replace _ _ _ c); try done. apply Hm.
  - destruct (chans m !! id) as [c|] eqn:Ec; [|done]. simpl in E.
    destruct (forwardExit c (ingress m)) as [[c' a']|] eqn:Ef; [|done]. simpl in E. simplify_eq.
    destruct (forwardExit_ok c (ingress m) (chans m) id c' a' (ok_chans m Hm) (ok_account m Hm) Ec Ef)
      as (Hok & Ha & Ep & Er & Ecl).
    apply (set_chan_ok m id c); try done. congruence.
  - destruct (chans m !! id) as [c|] eqn:Ec; [|done]. simpl in E.
    destruct (consume c) as [c'|] eqn:Ef; [|done]. simpl in E. simplify_eq.
    destruct (consume_ok c c' (ok_chans m Hm id c Ec) Ef) as (Hok & Ep & Er & Ecl & Een & E1 & E2 & E3).
    apply (set_chan_ok m id c); try done; [|by intros; rewrite Ecl, Een].
    apply (account_id_replace _ _ _ c); try done. apply Hm.
Qed.

Lemma step_ok ev m m' : mux_ok m -> exec overhead ev m = Some m' -> mux_ok m'.
Proof.
  intros Hm E. destruct ev; cbn [exec] in E; simplify_eq; try (by apply register_ok); try (by apply unregister_ok);
    try (by apply suspend_ok).
  - unfold TakeCarriedIngress. destruct (receiver m pid role) as [id|]; [|done].
    destruct (chans m !! id) as [c|] eqn:Ec; [|done]. cbn [takeCarry fst snd].
    pose proof (ok_chans m Hm id c Ec) as Hok. apply (set_chan_ok m id c); try done.
    + apply (same_path_ok c); [|done]. split; [done|]. split; [done|]. apply Hok.
    + apply (account_id_replace _ _ _ c); try done. apply Hm.
  - destruct (Z.leb_spec b MaxInt); [|done]. simplify_eq. destruct Hm as [H1 H2 H3 H4 H5]. split; try done.
    by apply setBudget_ok.
  - apply updateAt_ok; [done|]. intros cs id c Hcs Ha Hc.
    pose proof (setBudgetExtension_ok extra cs id c _ Hcs Ha Hc) as H.
    by destruct (setBudgetExtension extra c (ingress m)).
  - apply updateAt_ok; [done|]. intros cs id c Hcs Ha Hc. cbn [fst snd]. split_and!; try done.
    + split; [done|]. split; [done|]. apply (Hcs id c Hc).
    + by apply (account_id_replace _ _ _ c).
  - apply updateAt_ok; [done|]. intros cs id c Hcs Ha Hc. cbn [fst snd]. split_and!; try done.
    + split; [done|]. split; [done|]. apply (Hcs id c Hc).
    + by apply (account_id_replace _ _ _ c).
  - by apply (mux_ok_frame m); auto.
  - destruct (readerDone m || _); [done|]. simplify_eq. unfold readSegmentFor.
    destruct (route m msg) as [id| |e] eqn:Ert; [|done|by apply endReader_sendError_ok].
    apply route_to in Ert as (pid & Hr & Hp). destruct (ok_registered m Hm _ _ _ Hr) as (c & Hc & _ & _ & Ep & Er).
    destruct Hm as [H1 H2 H3 H4 H5]. split; try done. intros j s w [= <- <- <-]. exists c. split; [done|].
    split; [done|]. rewrite Ep. by destruct Hp; [left|right].
  - destruct (readerDone m); [done|]. by apply (tryEnqueue_ok m).
  - destruct (reading m) as [[[id msg] []]|] eqn:Er; try done. destruct (done_ m); [|done]. simplify_eq.
    by apply (mux_ok_frame m); auto.
  - by apply (flow_ok id (EvForwardTake id) m); [left|..].
  - by apply (flow_ok id (EvForwardSend id) m); [right; left|..].
  - by apply (flow_ok id (EvForwardExit id) m); [right; right; left|..].
  - by apply (flow_ok id (EvConsume id) m); [right; right; right|..].
  - by apply (mux_ok_frame m); auto.
  - destruct (done_ m && _); [|done]. simplify_eq. by apply (mux_ok_frame m); auto.
  - destruct (readerDone m); [|done]. simplify_eq. by apply sweep_ok.
Qed.

Lemma reach_ok m : reach overhead m -> mux_ok m.
Proof.
  induction 1 as [|m ev m' _ IH E]; [|by eapply step_ok].
  split; [by intros ? ?| |by intros ? []|done..]. unfold account_ok. by split_and!; vm_compute.
Qed.

(** ** Properties *)

(** C31. The connection's books balance. In every reachable state, whatever the
    events, the account's retained cost and payload are exactly those of the
    segments in all queues, closed receivers included until their forwarder
    ends; each queue's own counters are exact; and the limit is the budget plus
    the extensions of all roles, saturated at the largest [int]. *)
Theorem ingress_accounting m :
  reach overhead m ->
  used (ingress m) = msum ((fun c => retained (queue c)) <$> chans m) /\
  inUse (ingress m) = msum ((fun c => payload_bytes (queue c)) <$> chans m) /\
  accountLimit (ingress m) = Z.min MaxInt (budget (ingress m) + msum (extension <$> chans m)) /\
  (forall id c, chans m !! id = Some c ->
     pendingBytes c = payload_bytes (queue c) /\ pendingCost c = retained (queue c)).
Proof.
  intros Hr. destruct (reach_ok m Hr) as [H1 (A1 & A2 & A3 & A4 & A5) _ _ _].
  rewrite A1, A2, A5, A3. split_and!; try done.
  - f_equal. apply map_fmap_ext. intros id c Hc. apply (H1 id c Hc).
  - f_equal. apply map_fmap_ext. intros id c Hc. apply (H1 id c Hc).
  - intros id c Hc. split; apply (H1 id c Hc).
Qed.

(** Receivers are lossless queues. In every reachable state, what the
    protocol has received from its channel, what the channel buffers, what the
    forwarder holds and what is queued are together, in order, exactly the
    segments the read loop accepted for that receiver; after the receiver is
    closed the protocol still sees a prefix of them. Only segments of the
    receiver's direction and protocol, or of an unregistered protocol for the
    catch-all receiver, are ever accepted. *)
Theorem ingress_fifo m id c :
  reach overhead m -> chans m !! id = Some c ->
  (ended c = false -> accepted c = received c ++ ch c ++ option_list (hand c) ++ queue c) /\
  (received c ++ ch c) `prefix_of` accepted c /\ Forall (addressed c) (accepted c).
Proof.
  intros Hr Hc. destruct (ok_chans m (reach_ok m Hr) id c Hc) as [_ _ _ H4 _ H6].
  destruct (ended c); [destruct H4 as (H4 & _); by split_and!|]. split_and!; try done.
  rewrite H4. unfold in_transit. rewrite assoc_L by apply _. by apply prefix_app_r.
Qed.

(** Admission is exact. An open queue admits a segment exactly when its payload
    fits the queue's limit and its retained cost the connection's remaining
    budget, or when the role has backpressure and its queue is empty; without
    backpressure a refusal names the limit that was exceeded, with it the read
    loop waits, and only behind segments of its own queue. An admitted segment
    leaves both limits respected unless that exception applied. *)
Theorem admission_exact msg c a :
  closed c = false ->
  let fits := pendingBytes c + blen (Payload msg) <= limit c in
  let affords := cost msg <= accountLimit a - used a in
  let alone := backpressure c = true /\ queue c = [] in
  let '(r, c', a') := enqueue overhead msg c a in
  (r = Enqueued <-> (fits /\ affords) \/ alone) /\
  (r = ErrQueueOverflow <-> backpressure c = false /\ ~ fits) /\
  (r = ErrBudgetOverflow <-> backpressure c = false /\ fits /\ ~ affords) /\
  (r = MustWait <-> backpressure c = true /\ queue c <> [] /\ ~ (fits /\ affords)) /\
  (r = Enqueued -> queue c' = queue c ++ [msg] /\ used a' = used a + cost msg /\
     (~ alone -> pendingBytes c' <= limit c' /\ used a' <= accountLimit a')) /\
  (r <> Enqueued -> c' = c /\ a' = a).
Proof.
  intros Hcl fits affords alone. unfold enqueue. rewrite Hcl.
  assert (Hq : (blen (queue c) =? 0) = bool_decide (queue c = [])).
  { destruct (Z.eqb_spec (blen (queue c)) 0) as [E|E].
    - apply blen_0 in E. by rewrite bool_decide_true.
    - rewrite bool_decide_false; [done|]. intros Eq. apply E. by rewrite Eq. }
  rewrite Hq. unfold reserve, fits, affords, alone. clear fits affords alone.
  destruct (backpressure c); destruct (bool_decide_reflect (queue c = [])) as [Eq|Eq]; cbn [andb negb orb];
    destruct (Z.leb_spec (pendingBytes c + blen (Payload msg)) (limit c)) as [Hf|Hf]; cbn [orb andb negb];
    try (destruct (Z.ltb_spec (accountLimit a - used a) (cost msg)) as [Ha|Ha]);
    try (destruct (Z.ltb_spec (limit c) (pendingBytes c + blen (Payload msg))) as [Hg|Hg]); try lia;
    cbn [queue used pendingBytes limit accountLimit];
    split_and!; try done; try (split; intros; (done || naive_solver (done || lia)));
    try (intros; split_and!; (done || intros; split; lia || naive_solver lia)).
Qed.

(** ** Progress under backpressure *)

Fixpoint execs (evs : list event) (m : Muxer) : option Muxer :=
  match evs with [] => Some m | ev :: evs => m' ← exec overhead ev m; execs evs m' end.

(** The forwarder delivers and the protocol reads. *)
Definition drains (id : nat) (ev : event) : Prop :=
  ev = EvForwardTake id \/ ev = EvForwardSend id \/ ev = EvConsume id.

(** What draining a receiver leaves alone. *)
Definition undisturbed (c c' : segmentChannel) : Prop :=
  closed c' = closed c /\ backpressure c' = backpressure c /\ accepted c' = accepted c /\ ended c' = ended c.

Definition backlog (c : segmentChannel) : nat :=
  3 * length (queue c) + 2 * length (option_list (hand c)) + length (ch c).

(** A receiver that holds something can take a step that shortens its backlog. *)
Lemma drain_step m id c :
  chans m !! id = Some c -> ended c = false -> queue c <> [] ->
  exists ev c' a', drains id ev /\ exec overhead ev m = Some (set_chan id c' a' m) /\ undisturbed c c' /\
    (backlog c' < backlog c)%nat.
Proof using Type.
  intros Hc He Hq. unfold backlog. destruct (hand c) as [seg|] eqn:Eh.
  - destruct (decide (length (ch c) < chanCapacity)%nat) as [Hroom|Hfull].
    + exists (EvForwardSend id). unfold exec. rewrite Hc. simpl. unfold forwardSend.
      rewrite He, Eh, decide_True by done. simpl. do 2 eexists. split; [right; by left|]. split; [done|].
      split; [by split_and!|]. simpl. rewrite length_app. simpl. lia.
    + exists (EvConsume id). unfold exec. rewrite Hc. simpl. unfold consume.
      destruct (ch c) as [|x rest]; [unfold chanCapacity in Hfull; simpl in Hfull; lia|]. simpl.
      do 2 eexists. split; [right; by right|]. split; [done|]. split; [by split_and!|]. simpl. rewrite Eh. simpl. lia.
  - exists (EvForwardTake id). unfold exec. rewrite Hc. simpl. unfold forwardTake. rewrite He, Eh.
    destruct (queue c) as [|seg q] eqn:Eq; [done|]. simpl. do 2 eexists. split; [by left|]. split; [done|].
    split; [by split_and!|]. simpl. lia.
Qed.

(** Backpressure cannot wedge the read loop. In every state where the read loop
    holds a segment for an open receiver with backpressure, there is a finite
    schedule of that receiver's forwarder and its protocol's reads, and nothing
    else, after which the segment is admitted behind the ones accepted before,
    whatever the limits are set to and whatever other protocols hold of the
    budget. *)
Theorem backpressure_progress m id msg w c :
  reading m = Some (id, msg, w) -> readerDone m = false -> chans m !! id = Some c ->
  closed c = false -> ended c = false -> backpressure c = true ->
  exists evs m' c', Forall (drains id) evs /\ execs (evs ++ [EvEnqueue]) m = Some m' /\
    chans m' !! id = Some c' /\ accepted c' = accepted c ++ [msg] /\ reading m' = None.
Proof using Type.
  intros Hr Hd Hc Hcl He Hb. remember (backlog c) as n eqn:En. revert m c Hr Hd Hc Hcl He Hb En.
  induction (lt_wf n) as [n _ IH]. intros m c Hr Hd Hc Hcl He Hb ->.
  destruct (decide (queue c = [])) as [Hq|Hq].
  - exists []. cbn [app execs exec]. rewrite Hd. unfold tryEnqueue. rewrite Hr, Hc. unfold enqueue.
    rewrite Hcl, Hb, Hq. cbn [andb]. rewrite blen_nil, orb_true_r. cbn [Z.eqb]. unfold reserve. cbn [negb andb].
    simpl. do 2 eexists. split; [constructor|]. split; [done|]. split; [apply lookup_insert_eq|done].
  - destruct (drain_step m id c Hc He Hq) as (ev & c' & a' & Hev & Ex & (E1 & E2 & E3 & E4) & Hlt).
    destruct (IH _ Hlt (set_chan id c' a' m) c') as (evs & m' & c'' & Hf & Hx & Hc'' & Ha & Hn);
      try done; try (cbn [chans set_chan]; apply lookup_insert_eq); try congruence.
    exists (ev :: evs), m', c''. split; [by constructor|]. cbn [app execs]. rewrite Ex. simpl.
    split_and!; try done. by rewrite Ha, E3.
Qed.

(** ** Restarting a protocol *)

(** Events that neither end the role's registration nor touch its carried bytes. *)
Definition leaves_role (pid role : Z) (ev : event) : Prop :=
  match ev with
  | EvRegister p r | EvUnregister p r | EvSuspend p r _ | EvTakeCarry p r => (p, r) <> (pid, role)
  | EvSweep => False
  | _ => True
  end.

(** The role waits for its next instance. *)
Definition awaiting (pid role : Z) (id : nat) (bs : option bytes) (old : list Segment) (m : Muxer) : Prop :=
  receiver m pid role = Some id /\
  exists c, chans m !! id = Some c /\ suspended c = true /\ carry c = bs /\ old `prefix_of` accepted c.

(** The parts of a channel that a restart relies on. *)
Definition keeps (c c' : segmentChannel) : Prop :=
  suspended c' = suspended c /\ carry c' = carry c /\ accepted c `prefix_of` accepted c'.

Lemma awaiting_set_chan pid role id bs old m j c c' a :
  awaiting pid role id bs old m -> chans m !! j = Some c -> keeps c c' ->
  awaiting pid role id bs old (set_chan j c' a m).
Proof using Type.
  intros (Hr & d & Hd & Hs & Hb & Ho) Hj (K1 & K2 & K3). split; [done|]. cbn [chans set_chan].
  destruct (decide (id = j)) as [->|]; [|exists d; by rewrite lookup_insert_ne].
  simplify_eq. exists c'. rewrite lookup_insert_eq, K1, K2. split_and!; try done. by etrans.
Qed.

Lemma awaiting_frame pid role id bs old m m' :
  awaiting pid role id bs old m -> chans m' = chans m -> protocolReceivers m' = protocolReceivers m ->
  awaiting pid role id bs old m'.
Proof using Type. unfold awaiting, receiver. intros H -> ->. done. Qed.

Lemma enqueue_keeps msg c a r c' a' : enqueue overhead msg c a = (r, c', a') -> keeps c c'.
Proof using Type.
  unfold enqueue, keeps. destruct (closed c); [by intros [= <- <- <-]|].
  destruct (if _ || _ then _ else _) as [[] a1].
  - intros [= <- <- <-]. cbn. split_and!; try done. by apply prefix_app_r.
  - destruct (negb (backpressure c)); by intros [= <- <- <-].
Qed.

Lemma awaiting_updateAt pid role id bs old m p r f :
  awaiting pid role id bs old m -> (forall c a, keeps c (fst (f c a))) ->
  awaiting pid role id bs old (snd (updateAt p r f m)).
Proof using Type.
  intros HA Hf. unfold updateAt. destruct (receiver m p r) as [j|]; [|done].
  destruct (chans m !! j) as [c|] eqn:Hc; [|done]. specialize (Hf c (ingress m)).
  destruct (f c (ingress m)) as [c' a']. by apply (awaiting_set_chan _ _ _ _ _ _ _ c).
Qed.

(** Roles registered under different keys have different receivers. *)
Lemma receivers_distinct m p r p' r' id id' :
  mux_ok m -> receiver m p r = Some id -> receiver m p' r' = Some id' -> (p, r) <> (p', r') -> id <> id'.
Proof.
  intros Hm H1 H2 Hne <-. apply Hne. destruct (ok_registered m Hm _ _ _ H1) as (c & Hc & _ & _ & <- & <-).
  destruct (ok_registered m Hm _ _ _ H2) as (d & Hd & _ & _ & <- & <-). by simplify_eq.
Qed.

(** A change confined to other receivers, which keeps this role registered. *)
Lemma awaiting_elsewhere pid role id bs old m m' :
  awaiting pid role id bs old m -> receiver m' pid role = receiver m pid role -> chans m' !! id = chans m !! id ->
  awaiting pid role id bs old m'.
Proof using Type. unfold awaiting. intros H -> ->. done. Qed.

Lemma receiver_deleteRole_ne pid role p r (rs : gmap Z (gmap Z nat)) :
  (p, r) <> (pid, role) ->
  (deleteRole p r rs !! pid ≫= fun roles => roles !! role) = (rs !! pid ≫= fun roles => roles !! role).
Proof using Type.
  intros Hne. unfold deleteRole. destruct (rs !! p) as [roles|] eqn:E; [|done].
  destruct (decide (p = pid)) as [->|].
  - assert (Hr : r <> role) by congruence. rewrite E. simpl. case_bool_decide as Hd.
    + rewrite lookup_delete_eq. simpl. assert (Hl : delete r roles !! role = None) by (by rewrite Hd).
      by rewrite lookup_delete_ne in Hl.
    + rewrite lookup_insert_eq. simpl. by rewrite lookup_delete_ne.
  - case_bool_decide; [by rewrite lookup_delete_ne|by rewrite lookup_insert_ne].
Qed.

Lemma awaiting_control pid role id bs old m ev m' :
  mux_ok m -> awaiting pid role id bs old m -> leaves_role pid role ev ->
  (exists p r, ev = EvRegister p r \/ ev = EvUnregister p r \/ (exists x, ev = EvSuspend p r x) \/ ev = EvTakeCarry p r) ->
  exec overhead ev m = Some m' -> awaiting pid role id bs old m'.
Proof.
  intros Hm HA Hl (p & r & Hev) E. pose proof HA as (Hr & c & Hc & _).
  assert (Hother : (p, r) <> (pid, role)) by (by destruct Hev as [->|[->|[[x ->]| ->]]]).
  assert (Hne : forall j, receiver m p r = Some j -> j <> id)
    by (intros j Hj; by apply (receivers_distinct m p r pid role)).
  destruct Hev as [->|[->|[[x ->]| ->]]]; cbn [exec] in E; injection E as <-.
  - unfold RegisterProtocol. destruct (done_ m); [done|].
    destruct (receiverFor p r m) as [[j c'] next] eqn:E. cbn [snd].
    apply (awaiting_elsewhere _ _ _ _ _ m); [done| |].
    + unfold receiver. cbn [protocolReceivers]. destruct (decide (p = pid)) as [->|]; [|by rewrite lookup_insert_ne].
      rewrite lookup_insert_eq. simpl. rewrite lookup_insert_ne by congruence.
      unfold receiver in Hr. by destruct (protocolReceivers m !! pid).
    + cbn [chans]. rewrite lookup_insert_ne; [done|].
      destruct (receiverFor_cases p r m j c' next Hm E) as [(-> & _)|(d & _ & Hj & _)]; [|by apply Hne].
      intros <-. by rewrite nextChan_fresh in Hc.
  - apply (awaiting_elsewhere _ _ _ _ _ m); [done|by apply receiver_deleteRole_ne|]. cbn [chans UnregisterProtocol].
    destruct (receiver m p r) as [j|]; [|done]. by rewrite lookup_alter_ne by (by apply Hne).
  - unfold SuspendProtocol. destruct (receiver m p r) as [j|] eqn:Ej; [|done].
    apply (awaiting_elsewhere _ _ _ _ _ m); [done|done|]. cbn [chans snd]. by rewrite lookup_alter_ne by (by apply Hne).
  - unfold TakeCarriedIngress. destruct (receiver m p r) as [j|] eqn:Ej; [|done].
    destruct (chans m !! j) as [d|]; [|done]. apply (awaiting_elsewhere _ _ _ _ _ m); [done|done|].
    cbn [chans snd set_chan takeCarry]. by rewrite lookup_insert_ne by (by apply Hne).
Qed.

Lemma awaiting_step pid role id bs old m ev m' :
  mux_ok m -> awaiting pid role id bs old m -> leaves_role pid role ev -> exec overhead ev m = Some m' ->
  awaiting pid role id bs old m'.
Proof.
  intros Hm HA Hl E. destruct ev;
    try (by apply (awaiting_control pid role id bs old m _ m' Hm HA Hl ltac:(naive_solver) E)); cbn [exec] in E.
  - destruct (_ <=? _); [|done]. injection E as <-. by apply (awaiting_frame _ _ _ _ _ m).
  - injection E as <-. apply awaiting_updateAt; [done|]. intros c a. unfold setBudgetExtension.
    by destruct (_ =? extension c).
  - injection E as <-. by apply awaiting_updateAt.
  - injection E as <-. by apply awaiting_updateAt.
  - injection E as <-. by apply (awaiting_frame _ _ _ _ _ m).
  - destruct (readerDone m || _); [done|]. injection E as <-. unfold readSegmentFor.
    destruct (route m msg) as [j| |e]; [by apply (awaiting_frame _ _ _ _ _ m)|done|].
    destruct (sendError_frame e m) as (E1 & _ & _ & E4). by apply (awaiting_frame _ _ _ _ _ m).
  - destruct (readerDone m); [done|]. unfold tryEnqueue in E. destruct (reading m) as [[[j msg] w]|]; [|done].
    destruct (chans m !! j) as [c|] eqn:Ec; [|done].
    destruct (enqueue overhead msg c (ingress m)) as [[x c'] a'] eqn:Ee.
    pose proof (awaiting_set_chan _ _ _ _ _ _ _ _ _ a' HA Ec (enqueue_keeps _ _ _ _ _ _ Ee)) as HS.
    destruct x; injection E as <-; try (by apply (awaiting_frame _ _ _ _ _ _ _ HS));
    match goal with |- context [sendError ?e ?s] => destruct (sendError_frame e s) as (E1 & _ & _ & E4) end;
    by apply (awaiting_frame _ _ _ _ _ _ _ HS).
  - destruct (reading m) as [[[j msg] []]|]; try done. destruct (done_ m); [|done]. injection E as <-.
    by apply (awaiting_frame _ _ _ _ _ m).
  - destruct (chans m !! id0) as [c|] eqn:Ec; [|done]. simpl in E. unfold forwardTake in E.
    destruct (ended c); [done|]. destruct (hand c); [done|]. destruct (queue c); [done|]. simpl in E.
    injection E as <-. by apply (awaiting_set_chan _ _ _ _ _ _ _ c).
  - destruct (chans m !! id0) as [c|] eqn:Ec; [|done]. simpl in E. unfold forwardSend in E.
    destruct (ended c); [done|]. destruct (hand c); [|done]. destruct (decide _); [|done]. simpl in E.
    injection E as <-. by apply (awaiting_set_chan _ _ _ _ _ _ _ c).
  - destruct (chans m !! id0) as [c|] eqn:Ec; [|done]. simpl in E. unfold forwardExit in E.
    destruct (_ && _); [|done]. simpl in E. injection E as <-. by apply (awaiting_set_chan _ _ _ _ _ _ _ c).
  - destruct (chans m !! id0) as [c|] eqn:Ec; [|done]. simpl in E. unfold consume in E.
    destruct (ch c); [done|]. simpl in E. injection E as <-. by apply (awaiting_set_chan _ _ _ _ _ _ _ c).
  - injection E as <-. by apply (awaiting_frame _ _ _ _ _ m).
  - destruct (done_ m && _); [|done]. injection E as <-. by apply (awaiting_frame _ _ _ _ _ m).
Qed.

Lemma execs_reach evs : forall m m', reach overhead m -> execs evs m = Some m' -> reach overhead m'.
Proof using Type.
  induction evs as [|ev evs IH]; intros m m' Hr E; [by simplify_eq/=|].
  simpl in E. destruct (exec overhead ev m) as [m1|] eqn:E1; [|done]. simpl in E.
  apply (IH m1 m'); [|done]. by eapply reach_step.
Qed.

Lemma awaiting_execs pid role id bs old evs : forall m m',
  reach overhead m -> awaiting pid role id bs old m -> Forall (leaves_role pid role) evs ->
  execs evs m = Some m' -> awaiting pid role id bs old m'.
Proof.
  induction evs as [|ev evs IH]; intros m m' Hr HA Hf E; [by simplify_eq/=|].
  apply Forall_cons in Hf as [Hev Hf]. simpl in E. destruct (exec overhead ev m) as [m1|] eqn:E1; [|done].
  simpl in E. apply (IH m1 m'); try done; [by eapply reach_step|].
  eapply awaiting_step; [|done..]. by apply reach_ok.
Qed.

(** A protocol restarts without losing ingress. After a registered role is
    suspended with bytes carried over, and whatever happens meanwhile short of
    another call for that role or the end of the muxer, registering the role
    again gives back the same receiver with everything the read loop accepted
    for it, before and since, in order; the new instance can take exactly the
    carried bytes, once; and the role answers to no tombstone. *)
Theorem restart_lossless pid role id bs m c m1 evs m2 :
  reach overhead m -> receiver m pid role = Some id -> chans m !! id = Some c ->
  exec overhead (EvSuspend pid role bs) m = Some m1 ->
  Forall (leaves_role pid role) evs -> execs evs m1 = Some m2 -> done_ m2 = false ->
  let '(rid, m3) := RegisterProtocol pid role m2 in
  rid = Some id /\ tombstoned m3 pid role = false /\
  fst (TakeCarriedIngress pid role m3) = bs /\
  fst (TakeCarriedIngress pid role (snd (TakeCarriedIngress pid role m3))) = None /\
  exists c3, chans m3 !! id = Some c3 /\ suspended c3 = false /\ accepted c `prefix_of` accepted c3 /\
    accepted c3 = received c3 ++ ch c3 ++ option_list (hand c3) ++ queue c3.
Proof.
  intros Hr Hid Hc Es Hf Ex Hd. pose proof Es as Es'. cbn [exec] in Es'. injection Es' as Em1.
  assert (HA : awaiting pid role id bs (accepted c) m1).
  { rewrite <- Em1. unfold SuspendProtocol. rewrite Hid. split; [done|]. cbn [chans snd].
    rewrite lookup_alter_eq, Hc. simpl. by eexists. }
  assert (Hr1 : reach overhead m1) by (by eapply reach_step).
  pose proof (awaiting_execs _ _ _ _ _ _ _ _ Hr1 HA Hf Ex) as (Hid2 & c2 & Hc2 & Hs2 & Hb2 & Ho2).
  pose proof (reach_ok _ (execs_reach _ _ _ Hr1 Ex)) as Hm2.
  destruct (ok_registered m2 Hm2 _ _ _ Hid2) as (d & Hd2 & Hcl & He & Hp & Hro). simplify_eq.
  unfold RegisterProtocol. rewrite Hd. unfold receiverFor. rewrite Hid2. simpl. rewrite Hc2. simpl.
  unfold resume. rewrite Hs2, Hcl. cbn [negb orb].
  match goal with |- context [tombstoned ?x _ _] => set (m3 := x) end.
  assert (Hrec : receiver m3 (protocolId c2) (protocolRole c2) = Some id).
  { unfold receiver, m3. cbn [protocolReceivers]. rewrite lookup_insert_eq. simpl. apply lookup_insert_eq. }
  split; [done|]. split.
  { unfold tombstoned, m3. cbn [protocolTombstones]. rewrite lookup_insert_eq. simpl.
    apply bool_decide_eq_false. set_solver. }
  unfold TakeCarriedIngress at 1 3. rewrite Hrec. cbn [chans m3]. rewrite !lookup_insert_eq. cbn [takeCarry fst snd carry].
  split; [done|]. split.
  { unfold TakeCarriedIngress. change (receiver (set_chan _ _ _ m3) (protocolId c2) (protocolRole c2))
      with (receiver m3 (protocolId c2) (protocolRole c2)). rewrite Hrec. cbn [chans set_chan].
    by rewrite lookup_insert_eq. }
  eexists. split; [done|]. cbn [suspended accepted received ch hand queue]. split_and!; try done.
  pose proof (ok_fifo _ (ok_chans m2 Hm2 id c2 Hc2)) as Hfifo. by rewrite He in Hfifo.
Qed.
End Proofs.

(** ** Witnesses *)

Definition demoSeg (b : Z) : Segment := mkSegment (mkHeader 0 3 1) [b] None.

(** Protocol 3 registers as responder and gets three segments, of which it reads one. *)
Definition demoEvents : list event :=
  [EvRegister 3 2; EvRead (demoSeg 1); EvEnqueue; EvRead (demoSeg 2); EvEnqueue; EvRead (demoSeg 3); EvEnqueue;
   EvForwardTake 0; EvForwardSend 0; EvForwardTake 0; EvConsume 0].
Definition demoMux : Muxer := default NewMuxer (execs 48 demoEvents NewMuxer).

Lemma demo_run : execs 48 demoEvents NewMuxer = Some demoMux.
Proof. vm_compute. reflexivity. Qed.

Lemma demo_reach : reach 48 demoMux.
Proof. apply (execs_reach 48 demoEvents NewMuxer); [constructor|apply demo_run]. Qed.

(** Witness of C31: one segment of one byte is still queued. *)
Lemma ingress_accounting_witness : used (ingress demoMux) = 49.
Proof.
  destruct (ingress_accounting 48 ltac:(lia) demoMux demo_reach) as (H & _). rewrite H. vm_compute. reflexivity.
Defined.

Definition demoChan : segmentChannel := default (newSegmentChannel 3 2) (chans demoMux !! 0%nat).

(** An instance. *)
Lemma ingress_fifo_witness : accepted demoChan = [demoSeg 1] ++ [] ++ [demoSeg 2] ++ [demoSeg 3].
Proof.
  destruct (ingress_fifo 48 ltac:(lia) demoMux 0 demoChan demo_reach) as (H & _); [vm_compute; reflexivity|].
  rewrite H; vm_compute; reflexivity.
Defined.

(** An instance: a queue with a limit of one byte refuses a second one. *)
Lemma admission_exact_witness :
  fst (fst (enqueue 48 (demoSeg 2) (mkChannel 3 2 1 0 false [demoSeg 1] 1 49 false false None None [] false [] [])
    newIngressAccount)) = ErrQueueOverflow.
Proof.
  pose proof (admission_exact 48 ltac:(lia) (demoSeg 2)
    (mkChannel 3 2 1 0 false [demoSeg 1] 1 49 false false None None [] false [] []) newIngressAccount eq_refl) as H.
  destruct (enqueue _ _ _ _) as [[r c'] a']. simpl. apply H. split; [reflexivity|vm_compute; intros Hle; by apply Hle].
Defined.

(** The same with backpressure, the read loop waiting behind a queued segment. *)
Definition demoBlocked : list event :=
  [EvRegister 3 2; EvSetBackpressure 3 2 true; EvSetLimit 3 2 1; EvRead (demoSeg 1); EvEnqueue;
   EvRead (demoSeg 2); EvEnqueue].
Definition demoWaiting : Muxer := default NewMuxer (execs 48 demoBlocked NewMuxer).

(** An instance. *)
Lemma backpressure_progress_witness :
  reading demoWaiting = Some (0%nat, demoSeg 2, true) /\
  exists evs m' c', execs 48 (evs ++ [EvEnqueue]) demoWaiting = Some m' /\ chans m' !! 0%nat = Some c' /\
    accepted c' = [demoSeg 1; demoSeg 2].
Proof.
  split; [vm_compute; reflexivity|].
  edestruct (backpressure_progress 48 demoWaiting 0 (demoSeg 2) true) as (evs & m' & c' & _ & H1 & H2 & H3 & _);
    [vm_compute; reflexivity..|].
  exists evs, m', c'. split; [exact H1|]. split; [exact H2|]. rewrite H3. reflexivity.
Defined.

(** An instance: a segment arrives while the protocol restarts. *)
Lemma restart_lossless_witness :
  let m1 := snd (SuspendProtocol 3 2 (Some [9]) demoMux) in
  exists m2, execs 48 [EvRead (demoSeg 4); EvEnqueue] m1 = Some m2 /\
    fst (RegisterProtocol 3 2 m2) = Some 0%nat.
Proof.
  intros m1. eexists. split; [vm_compute; reflexivity|].
  match goal with |- fst (RegisterProtocol 3 2 ?m) = _ => set (m2 := m) end.
  pose proof (restart_lossless 48 ltac:(lia) 3 2 0 (Some [9]) demoMux
    demoChan m1 [EvRead (demoSeg 4); EvEnqueue] m2 demo_reach) as H.
  destruct (RegisterProtocol 3 2 m2) as [rid m3]. apply H; try (vm_compute; reflexivity). repeat constructor.
Defined.
