(* ===== verification/Cborwalk.v ===== *)
(** * Walking CBOR without recursion (src/protocol/internal/cborwalk/walk.go)

    [ReadHead] decodes the head of one CBOR item; [ItemLengthWithin] validates
    one complete item with an explicit stack of frames and returns its encoded
    length. The grammar [Item] is the specification: an item, the sequences of
    items inside arrays and maps, and the chunks of an indefinite-length string,
    each with its nesting depth. *)

From S2P Require Import Prelude.

(** [cbor.MaxNestedLevels]. *)
Definition MaxNestedLevels : Z := 16384.

Record Head := mkHead {
  Major : Z;
  Additional : Z;
  Argument : Z;       (* uint64 *)
  Indefinite : bool;
  IsBreak : bool;
  EncodedSize : nat
}.

Inductive walkError :=
| ErrInvalidIndefinite | ErrAdditionalInformation
| ErrNestingLimit | ErrTruncatedItem | ErrTruncatedHeader | ErrUnexpectedBreak
| ErrStringChunk | ErrNestingDepth | ErrTruncatedString | ErrMapLength | ErrTag
| ErrMajorType | ErrOutOfFuel.

(** [data[i]]; every use is guarded by a length check. *)
Definition byte_at (data : bytes) (i : nat) : Z := nth i data 0.

(** The loop of the 8-byte argument: [arg = arg<<8 | b] for each byte. *)
Definition shift_in (arg b : Z) : Z := Z.lor (u64 (Z.shiftl arg 8)) b.

(** [Ok None] is "more input needed". *)
Definition ReadHead (data : bytes) (offset : nat) : result walkError (option Head) :=
  if decide (length data <= offset)%nat then Ok None else
  let first := byte_at data offset in
  let major := Z.shiftr first 5 in
  let additional := Z.land first 0x1f in
  let at_ i := byte_at data (offset + i) in
  let avail := (length data - offset)%nat in
  if additional <? 24 then Ok (Some (mkHead major additional additional false false 1))
  else if additional =? 24 then
    if decide (avail < 2)%nat then Ok None
    else Ok (Some (mkHead major additional (at_ 1%nat) false false 2))
  else if additional =? 25 then
    if decide (avail < 3)%nat then Ok None
    else Ok (Some (mkHead major additional
           (Z.lor (Z.shiftl (at_ 1%nat) 8) (at_ 2%nat)) false false 3))
  else if additional =? 26 then
    if decide (avail < 5)%nat then Ok None
    else Ok (Some (mkHead major additional
           (Z.lor (Z.lor (Z.lor (Z.shiftl (at_ 1%nat) 24) (Z.shiftl (at_ 2%nat) 16))
              (Z.shiftl (at_ 3%nat) 8)) (at_ 4%nat)) false false 5))
  else if additional =? 27 then
    if decide (avail < 9)%nat then Ok None
    else Ok (Some (mkHead major additional
           (fold_left shift_in (at_ <$> seq 1 8) 0) false false 9))
  else if additional =? 31 then
    if major =? 7 then Ok (Some (mkHead major additional 0 false true 1))
    else if (major <? 2) || (5 <? major) then Err ErrInvalidIndefinite
    else Ok (Some (mkHead major additional 0 true false 1))
  else Err ErrAdditionalInformation.

Record frame := mkFrame {
  remaining : Z;        (* uint64 *)
  indefinite : bool;
  stringMajor : Z
}.

(** The loop of [ItemLengthWithin]; the head of [frames] is the top of the Go
    slice. *)
Fixpoint itemLoop (fuel : nat) (data : bytes) (maxDepth : Z) (frames : list frame) (pos : nat)
    : result walkError nat :=
  match fuel with
  | O => Err ErrOutOfFuel
  | S fuel =>
    match frames with
    | [] => Ok pos
    | top :: below =>
      if negb (indefinite top) && (remaining top =? 0) then
        itemLoop fuel data maxDepth below pos
      else if decide (length data <= pos)%nat then Err ErrTruncatedItem
      else if indefinite top && (byte_at data pos =? 0xff) then
        itemLoop fuel data maxDepth below (S pos)
      else
      match ReadHead data pos with
      | Err e => Err e
      | Ok None => Err ErrTruncatedHeader
      | Ok (Some head) =>
        if IsBreak head then Err ErrUnexpectedBreak
        else if negb (stringMajor top =? 0) &&
                (negb (Major head =? stringMajor top) || Indefinite head)
        then Err ErrStringChunk
        else
        let top := if indefinite top then top
                   else mkFrame (u64 (remaining top - 1)) (indefinite top) (stringMajor top) in
        let pos := (pos + EncodedSize head)%nat in
        let frames := top :: below in
        let push f :=
          if maxDepth <? blen frames then Err ErrNestingDepth
          else itemLoop fuel data maxDepth (f :: frames) pos in
        if (Major head =? 0) || (Major head =? 1) || (Major head =? 7) then
          itemLoop fuel data maxDepth frames pos
        else if (Major head =? 2) || (Major head =? 3) then
          if Indefinite head then push (mkFrame 0 true (Major head))
          else if blen data - Z.of_nat pos <? Argument head then Err ErrTruncatedString
          else itemLoop fuel data maxDepth frames (pos + Z.to_nat (Argument head))
        else if Major head =? 4 then push (mkFrame (Argument head) (Indefinite head) 0)
        else if Major head =? 5 then
          if negb (Indefinite head) && (MaxUint64 / 2 <? Argument head) then Err ErrMapLength
          else push (mkFrame (u64 (Argument head * 2)) (Indefinite head) 0)
        else if Major head =? 6 then
          if Indefinite head then Err ErrTag else push (mkFrame 1 false 0)
        else Err ErrMajorType
      end
    end
  end.

(** Every iteration consumes input or pops a frame, and one iteration pushes at
    most one frame. *)
Definition walkFuel (data : bytes) : nat := 2 * length data + 3.

Definition ItemLengthWithin (data : bytes) (maxDepth : Z) : result walkError nat :=
  if maxDepth <? 0 then Err ErrNestingLimit
  else itemLoop (walkFuel data) data maxDepth [mkFrame 1 false 0] 0.

Definition ItemLength (data : bytes) : result walkError nat :=
  ItemLengthWithin data MaxNestedLevels.

(** ** The grammar *)

(** [hb] is exactly the encoding of the head [h]. *)
Definition HeadOf (hb : bytes) (h : Head) : Prop :=
  ReadHead hb 0 = Ok (Some h) /\ EncodedSize h = length hb.

(** A chunk of an indefinite-length string of major type [sm]; no restriction
    for [sm = 0]. *)
Definition chunk_ok (sm : Z) (h : Head) : Prop :=
  sm = 0 \/ (Major h = sm /\ Indefinite h = false).

(** [Item strict d bs h]: [bs] is one item whose head is [h] and whose nesting
    depth is at most [d]. [strict] asks the chunks of an indefinite string to be
    definite strings of its own type. [Items strict sm d n bs]: [n] such items in
    a row, each allowed as a chunk for [sm]. *)
Inductive Item (strict : bool) : nat -> bytes -> Head -> Prop :=
| I_atom d hb h :
    HeadOf hb h -> IsBreak h = false ->
    (Major h = 0 \/ Major h = 1 \/ Major h = 7) -> Item strict d hb h
| I_string d hb h s :
    HeadOf hb h -> IsBreak h = false -> (Major h = 2 \/ Major h = 3) ->
    Indefinite h = false -> blen s = Argument h -> Item strict d (hb ++ s) h
| I_string_indef d hb h n body :
    HeadOf hb h -> IsBreak h = false -> (Major h = 2 \/ Major h = 3) -> Indefinite h = true ->
    Items strict (if strict then Major h else 0) d n body ->
    Item strict (S d) (hb ++ body ++ [0xff]) h
| I_array d hb h n body :
    HeadOf hb h -> IsBreak h = false -> Major h = 4 -> Indefinite h = false ->
    Z.of_nat n = Argument h -> Items strict 0 d n body -> Item strict (S d) (hb ++ body) h
| I_array_indef d hb h n body :
    HeadOf hb h -> IsBreak h = false -> Major h = 4 -> Indefinite h = true ->
    Items strict 0 d n body -> Item strict (S d) (hb ++ body ++ [0xff]) h
| I_map d hb h n body :
    HeadOf hb h -> IsBreak h = false -> Major h = 5 -> Indefinite h = false ->
    Argument h <= MaxUint64 / 2 -> Z.of_nat n = 2 * Argument h ->
    Items strict 0 d n body -> Item strict (S d) (hb ++ body) h
| I_map_indef d hb h n body :
    HeadOf hb h -> IsBreak h = false -> Major h = 5 -> Indefinite h = true ->
    Items strict 0 d n body -> Item strict (S d) (hb ++ body ++ [0xff]) h
| I_tag d hb h body h' :
    HeadOf hb h -> IsBreak h = false -> Major h = 6 -> Indefinite h = false ->
    Item strict d body h' -> Item strict (S d) (hb ++ body) h
with Items (strict : bool) : Z -> nat -> nat -> bytes -> Prop :=
| Is_nil sm d : Items strict sm d 0 []
| Is_cons sm d n b h bs :
    Item strict d b h -> chunk_ok sm h -> Items strict sm d n bs ->
    Items strict sm d (S n) (b ++ bs).

Scheme Item_min := Minimality for Item Sort Prop
with Items_min := Minimality for Items Sort Prop.

(** The input that completes a stack of frames. *)
Inductive Completes (strict : bool) (maxDepth : nat) : list frame -> bytes -> Prop :=
| C_nil : Completes strict maxDepth [] []
| C_definite f fs n body tl :
    indefinite f = false -> remaining f = Z.of_nat n -> (length fs <= maxDepth)%nat ->
    Items strict (stringMajor f) (maxDepth - length fs) n body ->
    Completes strict maxDepth fs tl -> Completes strict maxDepth (f :: fs) (body ++ tl)
| C_indefinite f fs n body tl :
    indefinite f = true -> (length fs <= maxDepth)%nat ->
    Items strict (stringMajor f) (maxDepth - length fs) n body ->
    Completes strict maxDepth fs tl ->
    Completes strict maxDepth (f :: fs) (body ++ 0xff :: tl).

Lemma Item_mono strict d i h D : Item strict d i h -> (d <= D)%nat -> Item strict D i h.
Proof.
  intros Hi. revert d i h Hi D.
  apply (Item_min strict (fun d i h => forall D, (d <= D)%nat -> Item strict D i h)
    (fun sm d n bs => forall D, (d <= D)%nat -> Items strict sm D n bs)); intros;
    try (destruct D as [|D]; [lia|]); eauto using Item, Items with lia.
Qed.

(** ** Heads *)

Lemma byte_at_drop data off i : byte_at (drop off data) i = byte_at data (off + i).
Proof.
  unfold byte_at. revert off. induction data as [|b data IH]; intros off.
  - rewrite drop_nil. by destruct i, off.
  - destruct off; [done|]. apply IH.
Qed.

Lemma ReadHead_drop data off : ReadHead data off = ReadHead (drop off data) 0.
Proof.
  unfold ReadHead. rewrite !byte_at_drop, Nat.add_0_r, length_drop, Nat.sub_0_r.
  destruct (decide (length data <= off)%nat) as [Hle|Hgt].
  { by destruct (decide (length data - off <= 0)%nat); [|lia]. }
  destruct (decide (length data - off <= 0)%nat); [lia|].
  cbn [seq fmap list_fmap Nat.add]. by rewrite !byte_at_drop.
Qed.

(** A decoded head lies within the input, and depends on nothing after it. *)
Lemma ReadHead_app hb rest h :
  HeadOf hb h -> ReadHead (hb ++ rest) 0 = Ok (Some h).
Proof.
  intros [H Hsz]. revert H. unfold ReadHead.
  assert (Hat : forall i, (i < length hb)%nat -> byte_at (hb ++ rest) i = byte_at hb i).
  { intros i Hi. unfold byte_at. by apply app_nth1. }
  destruct (decide (length hb <= 0)%nat) as [|Hpos]; [done|].
  destruct (decide (length (hb ++ rest) <= 0)%nat); [rewrite length_app in *; lia|].
  rewrite Hat by lia.
  rewrite length_app. cbn [seq fmap list_fmap Nat.add].
  repeat match goal with
  | |- context [if ?c then _ else _] => destruct c eqn:?; try done
  end; try lia; intros [= <-]; cbn [EncodedSize] in Hsz; rewrite ?Hat by lia; done.
Qed.

Lemma ReadHead_HeadOf data h :
  ReadHead data 0 = Ok (Some h) ->
  (1 <= EncodedSize h <= length data)%nat /\ HeadOf (take (EncodedSize h) data) h.
Proof.
  unfold HeadOf. intros H. pose proof H as H0. unfold ReadHead in H.
  assert (Hsz : (1 <= EncodedSize h <= length data)%nat).
  { repeat case_match; simplify_eq; cbn [EncodedSize]; lia. }
  split; [done|]. split; [|rewrite length_take; lia].
  rewrite <-H0. unfold ReadHead.
  assert (Hat : forall i, (i < EncodedSize h)%nat ->
    byte_at (take (EncodedSize h) data) i = byte_at data i).
  { intros i Hi. unfold byte_at. rewrite <-(take_drop (EncodedSize h) data) at 2.
    rewrite app_nth1; [done|]. rewrite length_take. lia. }
  rewrite (Hat 0%nat) by lia. rewrite length_take.
  destruct (decide (length data <= 0)%nat); [lia|].
  destruct (decide (_ `min` length data <= 0)%nat); [lia|]. cbn [seq fmap list_fmap Nat.add] in *.
  repeat match goal with
  | |- context [if ?c then _ else _] => destruct c eqn:?; try done
  end; try lia; simplify_eq; cbn [EncodedSize] in *; try lia; rewrite ?Hat by lia; done.
Qed.

(** ** Bounds of the argument *)

Lemma lor_bound a b n : 0 <= n -> 0 <= a < 2 ^ n -> 0 <= b < 2 ^ n -> 0 <= Z.lor a b < 2 ^ n.
Proof.
  intros Hn Ha Hb. split; [apply Z.lor_nonneg; lia|].
  destruct (Z.eq_dec (Z.lor a b) 0) as [->|Hne]; [apply Z.pow_pos_nonneg; lia|].
  apply Z.log2_lt_pow2; [pose proof (proj2 (Z.lor_nonneg a b)); lia|].
  rewrite Z.log2_lor by lia. destruct (Z.eq_dec n 0) as [->|].
  - rewrite Z.pow_0_r in *. assert (a = 0) by lia. assert (b = 0) by lia. subst. done.
  - assert (Hlog : forall x, 0 <= x < 2 ^ n -> Z.log2 x < n).
    { intros x Hx. destruct (Z.eq_dec x 0) as [->|]; [simpl; lia|]. apply Z.log2_lt_pow2; lia. }
    pose proof (Hlog a Ha). pose proof (Hlog b Hb). lia.
Qed.

Lemma byte_at_range data i : wf_bytes data -> 0 <= byte_at data i < 256.
Proof.
  intros H. unfold byte_at. destruct (decide (i < length data)%nat).
  - assert (Hin : In (nth i data 0) data) by (apply nth_In; lia).
    unfold wf_bytes in H. rewrite List.Forall_forall in H. by apply H.
  - rewrite nth_overflow by lia. lia.
Qed.

Lemma shift_in_range l : forall arg, Forall is_byte l -> 0 <= arg < 2 ^ 64 ->
  0 <= fold_left shift_in l arg < 2 ^ 64.
Proof.
  induction l as [|b l IH]; intros arg Hl Ha; [done|].
  apply Forall_cons in Hl as [Hb Hl]. simpl. apply IH; [done|].
  unfold shift_in. apply lor_bound; [lia| |unfold is_byte in Hb; lia].
  unfold u64. apply Z.mod_pos_bound. lia.
Qed.

Lemma ReadHead_ranges data h :
  wf_bytes data -> ReadHead data 0 = Ok (Some h) ->
  0 <= Argument h <= MaxUint64 /\ 0 <= Major h <= 7 /\
  (Indefinite h = true -> IsBreak h = false /\ 2 <= Major h <= 5).
Proof.
  intros Hwf H. unfold MaxUint64. unfold ReadHead in H.
  pose proof (fun i => byte_at_range data i Hwf) as Hb.
  assert (Hmaj : 0 <= Z.shiftr (byte_at data 0) 5 <= 7).
  { rewrite Z.shiftr_div_pow2 by lia. change (2 ^ 5) with 32. pose proof (Hb 0%nat).
    split; [apply Z.div_pos; lia|]. apply Z.lt_succ_r. apply Z.div_lt_upper_bound; lia. }
  assert (Hadd : 0 <= Z.land (byte_at data 0) 31 < 32).
  { change 31 with (Z.ones 5). rewrite Z.land_ones by lia. apply Z.mod_pos_bound. lia. }
  assert (Hsh : forall i k, 0 <= k -> 0 <= Z.shiftl (byte_at data i) k < 2 ^ (8 + k)).
  { intros i k Hk. rewrite Z.shiftl_mul_pow2, Z.pow_add_r by lia. change (2 ^ 8) with 256.
    pose proof (Hb i). assert (0 < 2 ^ k) by (apply Z.pow_pos_nonneg; lia). nia. }
  cbn [Nat.add] in H.
  repeat case_match; simplify_eq; cbn [Argument Major Indefinite IsBreak]; (split; [|split; [lia|]]);
    try done; try (pose proof (Hb 1%nat); lia).
  - assert (0 <= Z.lor (Z.shiftl (byte_at data 1) 8) (byte_at data 2) < 2 ^ 16); [|lia].
    apply lor_bound; [lia|apply (Hsh 1%nat 8); lia|pose proof (Hb 2%nat); lia].
  - match goal with |- 0 <= ?x <= _ => assert (0 <= x < 2 ^ 32); [|lia] end.
    pose proof (Hsh 1%nat 24 ltac:(lia)). pose proof (Hsh 2%nat 16 ltac:(lia)).
    pose proof (Hsh 3%nat 8 ltac:(lia)). pose proof (Hb 4%nat).
    repeat (apply lor_bound; [lia| |]); lia.
  - match goal with |- 0 <= ?x <= _ => assert (0 <= x < 2 ^ 64); [|lia] end.
    assert (Forall is_byte (byte_at data <$> seq 1 8)) as HF
      by (apply Forall_fmap, Forall_forall; intros i _; apply Hb).
    exact (shift_in_range _ 0 HF ltac:(lia)).
Qed.

Lemma HeadOf_ranges hb h :
  wf_bytes hb -> HeadOf hb h -> 0 <= Argument h <= MaxUint64 /\ 0 <= Major h <= 7 /\
  (Indefinite h = true -> IsBreak h = false /\ 2 <= Major h <= 5).
Proof. intros Hwf [H _]. by apply (ReadHead_ranges hb). Qed.

(** The break byte is not the start of an item. *)
Lemma HeadOf_break hb h : HeadOf hb h -> IsBreak h = false -> byte_at hb 0 <> 0xff.
Proof.
  intros [H _] Hb E. unfold ReadHead in H. rewrite E in H.
  change (Z.land 255 31) with 31 in H. change (Z.shiftr 255 5) with 7 in H.
  case_decide; simpl in H; simplify_eq.
Qed.

Lemma HeadOf_length hb h : HeadOf hb h -> (1 <= length hb)%nat.
Proof.
  intros [H <-]. apply ReadHead_HeadOf in H as [? _]. lia.
Qed.

(** ** Frames *)

Definition frame_ok (f : frame) : Prop := 0 <= remaining f <= MaxUint64.

(** The frame after one item of it has been read. *)
Definition dec_frame (f : frame) : frame :=
  if indefinite f then f
  else mkFrame (u64 (remaining f - 1)) (indefinite f) (stringMajor f).

(** The frame a head opens, if it opens one. *)
Definition opens (strict : bool) (h : Head) : option frame :=
  if ((Major h =? 2) || (Major h =? 3)) && Indefinite h
  then Some (mkFrame 0 true (if strict then Major h else 0))
  else if Major h =? 4 then Some (mkFrame (Argument h) (Indefinite h) 0)
  else if Major h =? 5 then Some (mkFrame (u64 (Argument h * 2)) (Indefinite h) 0)
  else if Major h =? 6 then Some (mkFrame 1 false 0)
  else None.

(** The payload a head announces directly. *)
Definition inline (h : Head) : Z :=
  if ((Major h =? 2) || (Major h =? 3)) && negb (Indefinite h) then Argument h else 0.

(** The conditions under which the walk accepts a head. *)
Definition head_ok (h : Head) : Prop :=
  IsBreak h = false /\
  (Major h = 5 -> Indefinite h = false -> Argument h <= MaxUint64 / 2) /\
  (Major h = 6 -> Indefinite h = false).

Lemma dec_frame_ok f : frame_ok f -> frame_ok (dec_frame f).
Proof. unfold dec_frame, frame_ok. destruct (indefinite f); [done|]. intros _. apply u64_range. Qed.

Lemma opens_ok strict h f : 0 <= Argument h <= MaxUint64 -> opens strict h = Some f -> frame_ok f.
Proof.
  intros Ha H. unfold opens, frame_ok, MaxUint64 in *.
  repeat case_match; simplify_eq; cbn [remaining]; try lia. apply u64_range.
Qed.

(** Completing a frame by one more item. *)
Lemma Completes_item strict D f fs b h c :
  frame_ok f -> (indefinite f = false -> remaining f <> 0) ->
  Item strict (D - length fs) b h -> chunk_ok (stringMajor f) h ->
  Completes strict D (dec_frame f :: fs) c -> Completes strict D (f :: fs) (b ++ c).
Proof.
  intros Hok Hne Hi Hc HC. unfold dec_frame in HC. destruct (indefinite f) eqn:Ei.
  - inversion HC; simplify_eq; [congruence|]. rewrite app_assoc.
    eapply C_indefinite; eauto. by econstructor.
  - inversion HC as [|? ? n body tl ? Hr ? Hs|]; simplify_eq/=. rewrite app_assoc.
    unfold frame_ok in Hok. specialize (Hne eq_refl).
    rewrite u64_small in Hr by lia.
    apply (C_definite _ _ _ _ (S n)); eauto; [lia|]. by econstructor.
Qed.

(** The input that completes a non-empty stack starts in one of three ways. *)
Lemma Completes_inv strict D f fs c :
  frame_ok f -> Completes strict D (f :: fs) c ->
  (indefinite f = false /\ remaining f = 0 /\ Completes strict D fs c) \/
  (indefinite f = true /\ exists tl, c = 0xff :: tl /\ Completes strict D fs tl) \/
  ((indefinite f = false -> remaining f <> 0) /\
   exists b h c', c = b ++ c' /\ Item strict (D - length fs) b h /\
     chunk_ok (stringMajor f) h /\ Completes strict D (dec_frame f :: fs) c').
Proof.
  intros Hok H. inversion H as [|? ? n body tl Hi Hr Hl Hs HC|? ? n body tl Hi Hl Hs HC];
    simplify_eq.
  - destruct n as [|n]; [left; inversion Hs; by simplify_eq/=|]. right. right.
    split; [lia|]. inversion Hs as [|? ? ? b h bs Hb Hc Hs']; simplify_eq.
    exists b, h, (bs ++ tl). rewrite app_assoc. split_and!; try done.
    unfold dec_frame, frame_ok in *. rewrite Hi.
    apply (C_definite _ _ _ _ n); try done. cbn [remaining].
    rewrite u64_small by lia. lia.
  - right. destruct n as [|n].
    + left. inversion Hs; simplify_eq/=. split; [done|]. by exists tl.
    + right. split; [congruence|]. inversion Hs as [|? ? ? b h bs Hb Hc Hs']; simplify_eq.
      exists b, h, (bs ++ 0xff :: tl). rewrite app_assoc. split_and!; try done.
      unfold dec_frame. rewrite Hi. by eapply C_indefinite.
Qed.

(** An item is its head, the payload the head announces, and what completes the
    frame the head opens. *)
Lemma Item_head strict d b h :
  wf_bytes b -> Item strict d b h ->
  exists hb s body, b = hb ++ s ++ body /\ HeadOf hb h /\ head_ok h /\ blen s = inline h /\
    match opens strict h with
    | None => body = []
    | Some f => (1 <= d)%nat /\ forall D fs c, (length fs <= D)%nat ->
        (D - length fs = d - 1)%nat -> Completes strict D fs c ->
        Completes strict D (f :: fs) (body ++ c)
    end.
Proof.
  intros Hwf H. unfold head_ok, inline, opens.
  inversion H as [d0 hb h0 Hh Hb Hm|d0 hb h0 s Hh Hb Hm Hi Hs|d0 hb h0 n body Hh Hb Hm Hi Hs|
    d0 hb h0 n body Hh Hb Hm Hi Hn Hs|d0 hb h0 n body Hh Hb Hm Hi Hs|
    d0 hb h0 n body Hh Hb Hm Hi Ha Hn Hs|d0 hb h0 n body Hh Hb Hm Hi Hs|
    d0 hb h0 body h' Hh Hb Hm Hi Hs]; simplify_eq.
  - exists b, [], []. rewrite !app_nil_r.
    assert (E2 : (Major h =? 2) = false) by (zbool; lia).
    assert (E3 : (Major h =? 3) = false) by (zbool; lia).
    assert (E4 : (Major h =? 4) = false) by (zbool; lia).
    assert (E5 : (Major h =? 5) = false) by (zbool; lia).
    assert (E6 : (Major h =? 6) = false) by (zbool; lia).
    rewrite E2, E3, E4, E5, E6. simpl. split_and!; (done || lia).
  - exists hb, s, []. rewrite app_nil_r, Hi, Hs.
    destruct Hm as [Hm|Hm]; rewrite Hm; simpl; split_and!; (done || lia).
  - exists hb, [], (body ++ [0xff]). rewrite Hi.
    assert (E : (Major h =? 2) || (Major h =? 3) = true) by (zbool; simpl; lia || done).
    rewrite E. simpl. split_and!; try (done || lia). intros D fs c HD Hd HC. rewrite <-app_assoc.
    eapply C_indefinite; [done|done| |done]. cbn [stringMajor]. replace (D - length fs)%nat with d0 by lia.
    exact Hs.
  - exists hb, [], body. rewrite Hm, Hi. simpl. split_and!; try (done || lia).
    intros D fs c HD Hd HC. eapply C_definite; [done|symmetry; exact Hn|done| |done].
    cbn [stringMajor]. replace (D - length fs)%nat with d0 by lia. exact Hs.
  - exists hb, [], (body ++ [0xff]). rewrite Hm, Hi. simpl. split_and!; try (done || lia).
    intros D fs c HD Hd HC. rewrite <-app_assoc. eapply C_indefinite; [done|done| |done].
    cbn [stringMajor]. replace (D - length fs)%nat with d0 by lia. exact Hs.
  - exists hb, [], body. rewrite Hm, Hi. simpl. split_and!; try (done || lia).
    intros D fs c HD Hd HC.
    apply wf_bytes_app in Hwf as [Hwf _]. destruct (HeadOf_ranges _ _ Hwf Hh) as [Hr _].
    apply (C_definite _ _ _ _ n); [done| |done| |done]; cbn [remaining stringMajor].
    + rewrite u64_small; [lia|]. unfold MaxUint64 in *. change (18446744073709551615 / 2) with 9223372036854775807 in Ha. lia.
    + replace (D - length fs)%nat with d0 by lia. exact Hs.
  - exists hb, [], (body ++ [0xff]). rewrite Hm, Hi. simpl. split_and!; try (done || lia).
    intros D fs c HD Hd HC. rewrite <-app_assoc. eapply C_indefinite; [done|done| |done].
    cbn [stringMajor]. replace (D - length fs)%nat with d0 by lia. exact Hs.
  - exists hb, [], body. rewrite Hm, Hi. simpl. split_and!; try (done || lia).
    intros D fs c HD Hd HC. eapply (C_definite _ _ _ _ 1); [done|done|done| |done].
    cbn [stringMajor]. replace (D - length fs)%nat with d0 by lia.
    rewrite <-(app_nil_r body). econstructor; [exact Hs|by left|constructor].
Qed.

(** The converse: a head, its payload and the completion of its frame make an
    item. *)
Lemma Item_intro strict hb h s :
  wf_bytes hb -> HeadOf hb h -> head_ok h -> blen s = inline h ->
  match opens strict h with
  | None => forall d, Item strict d (hb ++ s) h
  | Some f => forall D fs c, (length fs <= D)%nat -> Completes strict D (f :: fs) c ->
      exists body c', c = body ++ c' /\ Item strict (S (D - length fs)) (hb ++ s ++ body) h /\
        Completes strict D fs c'
  end.
Proof.
  intros Hwf Hh (Hb & Hmap & Htag) Hs. destruct (HeadOf_ranges _ _ Hwf Hh) as (Hr & Hm & Hind).
  unfold inline, opens in *.
  destruct ((Major h =? 2) || (Major h =? 3)) eqn:E23.
  { assert (Major h = 2 \/ Major h = 3) by (zbool; auto; discriminate).
    destruct (Indefinite h) eqn:Ei; cbn [andb negb] in *.
    - apply blen_0 in Hs as ->. intros D fs c Hl HC.
      inversion HC as [| |? ? n body tl ? ? Hi HC']; simplify_eq/=.
      exists (body ++ [0xff]), tl. rewrite <-app_assoc. split_and!; try done. by eapply I_string_indef.
    - repeat (rewrite (proj2 (Z.eqb_neq _ _)) by lia). intros d. by apply I_string. }
  cbn [andb] in *. apply blen_0 in Hs as ->. simpl.
  destruct (Z.eqb_spec (Major h) 4) as [E4|N4].
  { intros D fs c Hl HC.
    inversion HC as [|? ? n body tl ? ? ? Hi HC'|? ? n body tl ? ? Hi HC']; simplify_eq/=.
    - exists body, tl. split_and!; try done. by eapply I_array.
    - exists (body ++ [0xff]), tl. rewrite <-app_assoc. split_and!; try done. by eapply I_array_indef. }
  destruct (Z.eqb_spec (Major h) 5) as [E5|N5].
  { intros D fs c Hl HC.
    inversion HC as [|? ? n body tl ? Hn ? Hi HC'|? ? n body tl ? ? Hi HC']; simplify_eq/=.
    - specialize (Hmap E5 ltac:(done)). rewrite u64_small in Hn.
      2:{ unfold MaxUint64 in *. change (18446744073709551615 / 2) with 9223372036854775807 in Hmap. lia. }
      exists body, tl. split_and!; try done. eapply I_map; try done. lia.
    - exists (body ++ [0xff]), tl. rewrite <-app_assoc. split_and!; try done. by eapply I_map_indef. }
  destruct (Z.eqb_spec (Major h) 6) as [E6|N6].
  { intros D fs c Hl HC. inversion HC as [|? ? n body tl ? Hn ? Hi HC'|]; simplify_eq/=.
    destruct n as [|[|n]]; [lia| |lia]. inversion Hi as [|? ? ? b h' bs Hb' ? Hn']; simplify_eq.
    inversion Hn'; simplify_eq. rewrite app_nil_r. exists b, tl. split_and!; try done.
    eapply I_tag; eauto. }
  intros d. rewrite app_nil_r. apply I_atom; try done. zbool; try done; lia.
Qed.

(** ** One iteration of the loop *)

Definition head_frames (strict : bool) (h : Head) (frames : list frame) : list frame :=
  match opens strict h with None => frames | Some f => f :: frames end.

Definition head_fits (strict : bool) (h : Head) (frames : list frame) (maxDepth : Z) : Prop :=
  match opens strict h with None => True | Some _ => blen frames <= maxDepth end.

Lemma itemLoop_head fuel data D top below pos h :
  ReadHead data pos = Ok (Some h) -> head_ok h -> chunk_ok (stringMajor top) h ->
  0 <= Major h <= 7 ->
  (indefinite top = false -> remaining top <> 0) -> byte_at data pos <> 0xff ->
  (pos < length data)%nat ->
  inline h <= blen data - Z.of_nat (pos + EncodedSize h) ->
  head_fits true h (top :: below) D ->
  itemLoop (S fuel) data D (top :: below) pos =
  itemLoop fuel data D (head_frames true h (dec_frame top :: below))
    (pos + EncodedSize h + Z.to_nat (inline h)).
Proof.
  intros HR (Hb & Hmap & Htag) Hc Hm Hne Hff Hlt Hin Hfit. cbn [itemLoop].
  assert (E1 : negb (indefinite top) && (remaining top =? 0) = false).
  { destruct (indefinite top); [done|]. simpl. apply Z.eqb_neq. auto. }
  rewrite E1. destruct (decide (length data <= pos)%nat); [lia|].
  assert (E2 : (byte_at data pos =? 0xff) = false) by (by apply Z.eqb_neq).
  rewrite E2, andb_false_r, HR, Hb.
  assert (E3 : negb (stringMajor top =? 0) &&
    (negb (Major h =? stringMajor top) || Indefinite h) = false).
  { destruct Hc as [->|[<- ->]]; [done|]. by rewrite Z.eqb_refl, andb_false_r. }
  rewrite E3. fold (dec_frame top). unfold head_fits, head_frames, opens, inline in *.
  rewrite (blen_cons (dec_frame top)). rewrite blen_cons in Hfit.
  assert (Hcase : Major h = 0 \/ Major h = 1 \/ Major h = 2 \/ Major h = 3 \/ Major h = 4 \/
    Major h = 5 \/ Major h = 6 \/ Major h = 7) by lia.
  destruct (Indefinite h) eqn:Ei;
  destruct Hcase as [E|[E|[E|[E|[E|[E|[E|E]]]]]]]; rewrite E in *; cbn [Z.eqb Pos.eqb orb andb negb] in *;
    rewrite ?Nat.add_0_r; try done;
    try (specialize (Htag eq_refl); done);
    repeat match goal with |- context [?a <? ?b] => destruct (Z.ltb_spec a b); [lia|] end;
    try done.
Qed.

Lemma itemLoop_inv fuel data D top below pos p :
  wf_bytes data -> itemLoop (S fuel) data D (top :: below) pos = Ok p ->
  (indefinite top = false /\ remaining top = 0 /\ itemLoop fuel data D below pos = Ok p) \/
  (indefinite top = true /\ (pos < length data)%nat /\ byte_at data pos = 0xff /\
   itemLoop fuel data D below (S pos) = Ok p) \/
  exists h, ReadHead data pos = Ok (Some h) /\ head_ok h /\ chunk_ok (stringMajor top) h /\
    (indefinite top = false -> remaining top <> 0) /\
    inline h <= blen data - Z.of_nat (pos + EncodedSize h) /\
    head_fits true h (top :: below) D /\
    itemLoop fuel data D (head_frames true h (dec_frame top :: below))
      (pos + EncodedSize h + Z.to_nat (inline h)) = Ok p.
Proof.
  intros Hwf H. cbn [itemLoop] in H.
  destruct (negb (indefinite top) && (remaining top =? 0)) eqn:E1.
  { left. apply andb_true_iff in E1 as [Ei Er]. apply negb_true_iff in Ei. by apply Z.eqb_eq in Er. }
  right. destruct (decide (length data <= pos)%nat) as [|Hlt]; [done|].
  destruct (indefinite top && (byte_at data pos =? 0xff)) eqn:E2.
  { left. apply andb_true_iff in E2 as [Ei Er]. apply Z.eqb_eq in Er. split_and!; (done || lia). }
  right. destruct (ReadHead data pos) as [[h|]|] eqn:ER; [|done|done]. exists h. split; [done|].
  destruct (IsBreak h) eqn:Eb; [done|].
  match type of H with (if ?c then _ else _) = _ => destruct c eqn:E3; [done|] end.
  assert (Hc : chunk_ok (stringMajor top) h).
  { unfold chunk_ok. destruct (Z.eqb_spec (stringMajor top) 0); [by left|right].
    destruct (Z.eqb_spec (Major h) (stringMajor top)), (Indefinite h); done. }
  assert (Hne : indefinite top = false -> remaining top <> 0).
  { intros Ei. rewrite Ei in E1. by apply Z.eqb_neq. }
  fold (dec_frame top) in H. rewrite (blen_cons (dec_frame top)) in H.
  assert (Hpos : (EncodedSize h <= length data - pos)%nat).
  { rewrite ReadHead_drop in ER. apply ReadHead_HeadOf in ER as [? _]. rewrite length_drop in *. lia. }
  unfold head_ok, head_fits, head_frames, opens, inline. rewrite blen_cons.
  destruct (Indefinite h) eqn:Ei;
  repeat match type of H with context [Major h =? ?k] =>
    destruct (Z.eqb_spec (Major h) k) as [E|?]; [rewrite E in *|]; cbn [Z.eqb Pos.eqb orb andb negb] in *
  end; try done;
  repeat match type of H with context [?a <? ?b] => destruct (Z.ltb_spec a b); [done|] end;
  rewrite ?Nat.add_0_r; split_and!; try (done || lia); unfold blen in *; try lia.
Qed.

(** ** The loop against the grammar *)

Lemma head_frames_ok h top below :
  0 <= Argument h <= MaxUint64 -> Forall frame_ok (top :: below) ->
  Forall frame_ok (head_frames true h (dec_frame top :: below)).
Proof.
  intros Ha Hf. apply Forall_cons in Hf as [Ht Hf]. unfold head_frames.
  assert (Forall frame_ok (dec_frame top :: below)) by (constructor; [by apply dec_frame_ok|done]).
  destruct (opens true h) eqn:E; [|done]. constructor; [|done]. by eapply opens_ok.
Qed.

Lemma head_frames_length h frames : (length (head_frames true h frames) <= S (length frames))%nat.
Proof. unfold head_frames. destruct (opens true h); simpl; lia. Qed.

Lemma wf_bytes_drop n bs : wf_bytes bs -> wf_bytes (drop n bs).
Proof. apply Forall_drop. Qed.

Lemma wf_bytes_take n bs : wf_bytes bs -> wf_bytes (take n bs).
Proof. apply Forall_take. Qed.

(** A head read at [pos] splits the rest of the input. *)
Lemma ReadHead_split data pos h :
  wf_bytes data -> ReadHead data pos = Ok (Some h) ->
  exists hb, drop pos data = hb ++ drop (pos + EncodedSize h) data /\ HeadOf hb h /\ wf_bytes hb /\
    (pos + EncodedSize h <= length data)%nat /\ (1 <= EncodedSize h)%nat /\
    0 <= Argument h <= MaxUint64 /\ 0 <= Major h <= 7.
Proof.
  intros Hwf HR. rewrite ReadHead_drop in HR.
  destruct (ReadHead_HeadOf _ _ HR) as [Hsz Hh]. rewrite length_drop in Hsz.
  destruct (ReadHead_ranges _ _ (wf_bytes_drop _ _ Hwf) HR) as (? & ? & _).
  exists (take (EncodedSize h) (drop pos data)).
  rewrite <-drop_drop, take_drop. split_and!; try (done || lia).
  by apply wf_bytes_take, wf_bytes_drop.
Qed.

Lemma inline_nonneg h : 0 <= Argument h -> 0 <= inline h.
Proof. unfold inline. by destruct (_ && _). Qed.

Lemma itemLoop_sound data D : wf_bytes data -> 0 <= D -> forall fuel frames pos p,
  Forall frame_ok frames -> (pos <= length data)%nat -> blen frames <= D + 1 ->
  itemLoop fuel data D frames pos = Ok p ->
  exists c, drop pos data = c ++ drop p data /\ p = (pos + length c)%nat /\
    (p <= length data)%nat /\ Completes true (Z.to_nat D) frames c.
Proof.
  intros Hwf HD. induction fuel as [|fuel IH]; intros frames pos p Hok Hpos Hlen H; [done|].
  destruct frames as [|top below].
  { simplify_eq/=. exists []. rewrite Nat.add_0_r. split_and!; try done. constructor. }
  rewrite blen_cons in Hlen. pose proof Hok as Hok'. apply Forall_cons in Hok' as [Htop Hbelow].
  destruct (itemLoop_inv _ _ _ _ _ _ _ Hwf H)
    as [(Hi & Hr & H')|[(Hi & Hlt & Hff & H')|(h & HR & Hh & Hc & Hne & Hin & Hfit & H')]]; clear H.
  - apply IH in H' as (c & Hd & Hp & Hle & HC); [|done|done|lia].
    exists c. split_and!; try done. apply (C_definite _ _ _ _ 0 []); try done; [unfold blen in *; lia|constructor].
  - apply IH in H' as (c & Hd & Hp & Hle & HC); [|done|lia|lia].
    exists (0xff :: c). split_and!; try (done || (simpl; lia)).
    + rewrite <-Hff. unfold byte_at. erewrite drop_S; [by rewrite Hd|].
      rewrite nth_lookup. destruct (lookup_lt_is_Some_2 data pos) as [x Hx]; [lia|]. by rewrite Hx.
    + apply (C_indefinite _ _ _ _ 0 []); try done; [unfold blen in *; lia|constructor].
  - destruct (ReadHead_split _ _ _ Hwf HR) as (hb & Hd & Hhb & Hwfh & Hsz & Hs1 & Ha & Hm).
    pose proof (inline_nonneg h ltac:(lia)) as Hnn.
    pose proof (head_frames_length h (dec_frame top :: below)) as Hfl.
    assert (Hle : (pos + EncodedSize h + Z.to_nat (inline h) <= length data)%nat) by (unfold blen in Hin; lia).
    apply IH in H' as (c & Hd' & Hp & Hle' & HC);
      [|by apply head_frames_ok|done|].
    2:{ unfold head_fits, head_frames in *. destruct (opens true h); rewrite ?blen_cons in *; lia. }
    set (s := take (Z.to_nat (inline h)) (drop (pos + EncodedSize h) data)).
    assert (Hs : blen s = inline h).
    { unfold s. rewrite blen_take, blen_drop. unfold blen. lia. }
    assert (Hsplit : drop pos data = hb ++ s ++ c ++ drop p data).
    { rewrite Hd. f_equal. rewrite <-Hd', <-(drop_drop data (Z.to_nat (inline h)) (pos + EncodedSize h)).
      unfold s. by rewrite take_drop. }
    assert (Hlenc : p = (pos + length (hb ++ s ++ c))%nat).
    { rewrite !length_app. destruct Hhb as [_ <-]. unfold blen in Hs. lia. }
    exists (hb ++ s ++ c). split_and!; try done; [by rewrite Hsplit, !app_assoc|].
    pose proof (Item_intro true hb h s Hwfh Hhb Hh Hs) as HI.
    unfold head_frames, head_fits in *. destruct (opens true h) as [f|] eqn:Eo.
    + rewrite blen_cons in Hfit. destruct (HI (Z.to_nat D) (dec_frame top :: below) c ltac:(simpl; unfold blen in *; lia) HC)
        as (body & c' & -> & Hit & HC').
      rewrite !app_assoc, <-(app_assoc hb). eapply Completes_item; try done.
      replace (Z.to_nat D - length below)%nat with (S (Z.to_nat D - length (dec_frame top :: below)))
        by (simpl; unfold blen in *; lia). done.
    + rewrite app_assoc. eapply Completes_item; try done.
Qed.

Lemma itemLoop_complete data D : wf_bytes data -> 0 <= D -> forall fuel frames pos c rest,
  Forall frame_ok frames -> drop pos data = c ++ rest -> (pos <= length data)%nat ->
  (2 * length c + length frames < fuel)%nat -> Completes true (Z.to_nat D) frames c ->
  itemLoop fuel data D frames pos = Ok (pos + length c)%nat.
Proof.
  intros Hwf HD. induction fuel as [|fuel IH]; intros frames pos c rest Hok Hd Hpos Hfuel HC; [lia|].
  destruct frames as [|top below].
  { inversion HC; simplify_eq/=. by rewrite Nat.add_0_r. }
  pose proof Hok as Hok'. apply Forall_cons in Hok' as [Htop Hbelow].
  assert (Hlc : (pos + length c <= length data)%nat).
  { apply (f_equal length) in Hd. rewrite length_drop, length_app in Hd. lia. }
  destruct (Completes_inv _ _ _ _ _ Htop HC)
    as [(Hi & Hr & HC')|[(Hi & tl & -> & HC')|(Hne & b & h & c' & -> & Hit & Hch & HC')]].
  - cbn [itemLoop]. rewrite Hi, Hr. cbn [negb andb Z.eqb]. eapply IH; eauto. simpl in Hfuel. lia.
  - cbn [itemLoop]. rewrite Hi. cbn [negb andb]. simpl in *.
    destruct (decide (length data <= pos)%nat); [lia|].
    assert (E : byte_at data pos = 0xff).
    { rewrite <-(Nat.add_0_r pos), <-byte_at_drop, Hd. done. }
    rewrite E, Z.eqb_refl. rewrite (IH below (S pos) tl rest); try (done || lia); [f_equal; lia|].
    replace (S pos) with (pos + 1)%nat by lia. rewrite <-drop_drop, Hd. done.
  - rewrite !length_app in *.
    assert (Hwfb : wf_bytes b).
    { pose proof (wf_bytes_drop pos data Hwf) as Hw. rewrite Hd, <-app_assoc in Hw.
      by apply wf_bytes_app in Hw as [? _]. }
    destruct (Item_head _ _ _ _ Hwfb Hit) as (hb & s & body & -> & Hh & Hok' & Hs & Hbody).
    apply wf_bytes_app in Hwfb as [Hwfh _]. rewrite <-!app_assoc in Hd. rewrite !length_app in *.
    assert (HR : ReadHead data pos = Ok (Some h)).
    { rewrite ReadHead_drop, Hd. by apply ReadHead_app. }
    destruct (HeadOf_ranges _ _ Hwfh Hh) as (Ha & Hm & _). pose proof (HeadOf_length _ _ Hh) as Hhl.
    destruct Hh as [Hh Hsz]. pose proof (inline_nonneg h ltac:(lia)) as Hnn.
    rewrite (itemLoop_head fuel data D top below pos h); try done.
    + rewrite <-Hs, Hsz. unfold blen at 1. rewrite Nat2Z.id.
      rewrite (IH _ _ (body ++ c') rest).
      * f_equal. rewrite !length_app. lia.
      * by apply head_frames_ok.
      * rewrite <-app_assoc. rewrite (app_assoc hb) in Hd.
        replace (pos + length hb + length s)%nat with (pos + length (hb ++ s))%nat by (rewrite length_app; lia).
        rewrite <-drop_drop, Hd. by rewrite drop_app_length.
      * lia.
      * pose proof (head_frames_length h (dec_frame top :: below)). simpl in *. rewrite length_app. lia.
      * unfold head_frames. destruct (opens true h) as [f|]; [|by subst body].
        destruct Hbody as [Hd1 Hbody]. apply Hbody; [simpl; lia|simpl; lia|done].
    + rewrite <-(Nat.add_0_r pos), <-byte_at_drop, Hd. destruct hb as [|x hb]; [simpl in *; lia|].
      by apply (HeadOf_break (x :: hb) h); [split|apply Hok'].
    + lia.
    + rewrite <-Hs, Hsz. unfold blen. lia.
    + unfold head_fits. destruct (opens true h); [|done]. destruct Hbody as [Hd1 _].
      rewrite blen_cons. unfold blen. lia.
Qed.

Lemma ReadHead_no_fuel data pos : ReadHead data pos <> Err ErrOutOfFuel.
Proof. unfold ReadHead. repeat case_match; done. Qed.

Lemma itemLoop_fuel data D : wf_bytes data -> forall fuel frames pos,
  (pos <= length data)%nat -> (2 * (length data - pos) + length frames < fuel)%nat ->
  itemLoop fuel data D frames pos <> Err ErrOutOfFuel.
Proof.
  intros Hwf. induction fuel as [|fuel IH]; intros frames pos Hpos Hfuel; [lia|].
  destruct frames as [|top below]; [done|]. simpl in Hfuel. cbn [itemLoop].
  case_match; [apply IH; lia|]. case_decide; [done|]. case_match; [apply IH; simpl; lia|].
  pose proof (ReadHead_no_fuel data pos) as Hnf.
  destruct (ReadHead data pos) as [[h|]|] eqn:ER; [|done|congruence].
  destruct (ReadHead_split _ _ _ Hwf ER) as (_ & _ & _ & _ & Hsz & Hs1 & Ha & _).
  assert (Hrec : forall fs p, (S pos <= p <= length data)%nat ->
    (length fs <= S (S (length below)))%nat -> itemLoop fuel data D fs p <> Err ErrOutOfFuel).
  { intros fs p ? ?. apply IH; lia. }
  fold (dec_frame top). generalize (dec_frame top) as top'. intros top'.
  destruct (Z.ltb_spec (blen data - Z.of_nat (pos + EncodedSize h)) (Argument h));
    clear - Hrec Hsz Hs1 Ha H2; unfold blen in H2;
    repeat match goal with |- context [if ?c then _ else _] => destruct c; try done end;
    (apply Hrec; [lia|cbn [length]; lia]).
Qed.

Lemma Completes_single strict D c :
  Completes strict D [mkFrame 1 false 0] c <-> exists h, Item strict D c h.
Proof.
  split.
  - intros H. inversion H as [|? ? n body tl ? Hn ? Hi HC|]; simplify_eq/=.
    destruct n as [|[|n]]; [lia| |lia]. inversion Hi as [|? ? ? b h bs Hb ? Hn']; simplify_eq.
    inversion Hn'; inversion HC; simplify_eq. rewrite !app_nil_r. exists h.
    by rewrite Nat.sub_0_r in Hb.
  - intros [h Hi]. rewrite <-(app_nil_r c). apply (C_definite _ _ _ _ 1); try done; [simpl; lia| |constructor].
    rewrite <-(app_nil_r c). econstructor; [|by left|constructor]. by rewrite Nat.sub_0_r.
Qed.

Lemma single_frame_ok : Forall frame_ok [mkFrame 1 false 0].
Proof. constructor; [unfold frame_ok, MaxUint64; simpl; lia|done]. Qed.

Lemma item_length_sound data D n :
  wf_bytes data -> 0 <= D -> ItemLengthWithin data D = Ok n ->
  exists item rest h, data = item ++ rest /\ length item = n /\ Item true (Z.to_nat D) item h.
Proof.
  intros Hwf HD H. unfold ItemLengthWithin in H. destruct (Z.ltb_spec D 0); [lia|].
  apply itemLoop_sound in H as (c & Hd & Hp & Hle & HC); try done;
    [|apply single_frame_ok|lia|unfold blen; simpl; lia].
  apply Completes_single in HC as [h Hi]. exists c, (drop n data), h. by split_and!.
Qed.

Lemma item_length_complete item rest h D :
  wf_bytes (item ++ rest) -> 0 <= D -> Item true (Z.to_nat D) item h ->
  ItemLengthWithin (item ++ rest) D = Ok (length item).
Proof.
  intros Hwf HD Hi. unfold ItemLengthWithin. destruct (Z.ltb_spec D 0); [lia|].
  apply (itemLoop_complete _ _ Hwf HD _ _ 0 item rest);
    [apply single_frame_ok|done|lia| |apply Completes_single; eauto].
  unfold walkFuel. rewrite length_app. simpl. lia.
Qed.

(** C1. [ItemLengthWithin] decides the grammar: with a limit of [D] levels it
    returns [n] exactly when the first [n] bytes of the input are one item of
    nesting depth at most [D], and otherwise it returns one of the code's errors:
    the loop always ends within its measure. *)
Theorem item_length_exact data D :
  wf_bytes data -> 0 <= D ->
  (forall n, ItemLengthWithin data D = Ok n <->
     exists item rest h, data = item ++ rest /\ length item = n /\ Item true (Z.to_nat D) item h) /\
  ItemLengthWithin data D <> Err ErrOutOfFuel.
Proof.
  intros Hwf HD. split.
  - intros n. split; [by apply item_length_sound|].
    intros (item & rest & h & -> & <- & Hi). by apply (item_length_complete item rest h).
  - unfold ItemLengthWithin. destruct (Z.ltb_spec D 0); [lia|].
    apply itemLoop_fuel; [done|lia|unfold walkFuel; simpl; lia].
Qed.

(** Witness of C1: the item [[_ 1, (2, "a")]], followed by other bytes. *)
Lemma item_length_exact_witness :
  ItemLengthWithin [0x9f; 0x01; 0x82; 0x02; 0x61; 0x61; 0xff; 0x00] 2 = Ok 7%nat /\
  ItemLengthWithin [0x9f; 0x01; 0x82; 0x02; 0x61; 0x61; 0xff; 0x00] 1 = Err ErrNestingDepth /\
  exists item rest h, [0x9f; 0x01; 0x82; 0x02; 0x61; 0x61; 0xff; 0x00] = item ++ rest /\
    length item = 7%nat /\ Item true 2 item h.
Proof.
  split; [vm_compute; reflexivity|]. split; [vm_compute; reflexivity|].
  refine (proj1 (proj1 (item_length_exact _ 2 _ _) 7%nat) _); [|lia|vm_compute; reflexivity].
  repeat constructor; unfold is_byte; lia.
Defined.

(** Items are prefix-free and their length does not depend on the limit: two
    items at the start of the same input are the same bytes, and raising the
    limit never changes an answer. *)
Theorem item_prefix_free data i1 r1 h1 i2 r2 h2 d1 d2 :
  wf_bytes data -> data = i1 ++ r1 -> data = i2 ++ r2 ->
  Item true d1 i1 h1 -> Item true d2 i2 h2 ->
  i1 = i2 /\ r1 = r2 /\
  forall D, Z.of_nat d1 <= D -> ItemLengthWithin data D = Ok (length i1).
Proof.
  intros Hwf H1 H2 Hi1 Hi2.
  assert (HL : forall d i r h D, data = i ++ r -> Item true d i h -> Z.of_nat d <= D ->
    ItemLengthWithin data D = Ok (length i)).
  { intros d i r h D Hd Hi HD. subst data. rewrite Hd in *. apply (item_length_complete i r h); [done|lia|].
    eapply Item_mono; [done|lia]. }
  assert (Hlen : length i1 = length i2).
  { pose proof (HL d1 i1 r1 h1 (Z.of_nat (max d1 d2)) H1 Hi1 ltac:(lia)) as E1.
    pose proof (HL d2 i2 r2 h2 (Z.of_nat (max d1 d2)) H2 Hi2 ltac:(lia)) as E2. congruence. }
  rewrite H1 in H2. destruct (app_inj_1 _ _ _ _ Hlen H2) as [-> ->]. split_and!; try done.
  intros D HD. exact (HL d1 i2 r2 h1 D H1 Hi1 HD).
Qed.

(** An instance. *)
Lemma item_prefix_free_witness :
  exists i h, [0x81; 0x05; 0x05] = i ++ [0x05] /\ Item true 1 i h /\
  forall D, 1 <= D -> ItemLengthWithin [0x81; 0x05; 0x05] D = Ok (length i).
Proof.
  assert (Hwf : wf_bytes [0x81; 0x05; 0x05]) by (repeat constructor; unfold is_byte; lia).
  assert (Hi : Item true 1 [0x81; 0x05] (mkHead 4 1 1 false false 1)).
  { apply (I_array true 0 [0x81] _ 1 [0x05]); try done.
    apply (Is_cons true 0 0 0 [0x05] (mkHead 0 5 5 false false 1) []); [|by left|constructor].
    apply I_atom; [done|done|by left]. }
  exists [0x81; 0x05], (mkHead 4 1 1 false false 1). split; [done|]. split; [done|].
  apply (item_prefix_free [0x81; 0x05; 0x05] [0x81; 0x05] [0x05] _ [0x81; 0x05] [0x05] _ 1 1
    Hwf eq_refl eq_refl Hi Hi).
Defined.

(** The walk does not count the items of an indefinite-length map: a map with a
    key and no value is accepted. *)
Example odd_indefinite_map : ItemLength [0xbf; 0x00; 0xff] = Ok 3%nat.
Proof. vm_compute. reflexivity. Qed.
