(* ===== verification/Preflight.v ===== *)
(** * Checking collections before they are decoded
      (src/protocol/internal/cborpreflight/second_field_array.go,
       src/cbor/decode.go, src/protocol/handshake/collection_decode.go)

    A peer chooses the counts in the headers of arrays and maps. Before the
    typed decoder allocates for them, the messages of several protocols are
    walked: tags are skipped, the count is bounded, every element must be one
    complete item and nothing may follow. The handshake has its own walk over
    the map of proposed versions and over the reason of a refusal. The
    specifications are the grammar of [Cborwalk]. *)

From S2P Require Import Prelude Cborwalk.

(** ** Headers of collections (cbor.ArrayInfo, cbor.MapInfo) *)

Definition CborTypeMask : Z := 0xe0.
Definition CborTypeArray : Z := 0x80.
Definition CborTypeMap : Z := 0xa0.
Definition CborTypeTag : Z := 0xc0.
Definition MaxInt32 : Z := 2147483647.

(** The two functions differ in the type they ask for. A count of -1 is an
    invalid header. *)
Definition collectionInfo (cborType : Z) (data : bytes) : Z * nat * bool :=
  let invalid := (-1, 0%nat, false) in
  if decide (length data = 0)%nat then invalid else
  let firstByte := byte_at data 0 in
  if negb (Z.land firstByte 0xe0 =? cborType) then invalid else
  let additional := Z.land firstByte 0x1f in
  let at_ := byte_at data in
  if additional <=? 23 then (additional, 1%nat, false)
  else if (additional =? 24) && bool_decide (2 <= length data)%nat then (at_ 1%nat, 2%nat, false)
  else if (additional =? 25) && bool_decide (3 <= length data)%nat then
    (Z.lor (Z.shiftl (at_ 1%nat) 8) (at_ 2%nat), 3%nat, false)
  else if (additional =? 26) && bool_decide (5 <= length data)%nat then
    let len32 := Z.lor (Z.lor (Z.lor (Z.shiftl (at_ 1%nat) 24) (Z.shiftl (at_ 2%nat) 16))
                   (Z.shiftl (at_ 3%nat) 8)) (at_ 4%nat) in
    if MaxInt32 <? len32 then invalid else (len32, 5%nat, false)
  else if (additional =? 27) && bool_decide (9 <= length data)%nat then
    let len64 := Z.lor (Z.lor (Z.lor (Z.lor (Z.lor (Z.lor (Z.lor
                   (Z.shiftl (at_ 1%nat) 56) (Z.shiftl (at_ 2%nat) 48))
                   (Z.shiftl (at_ 3%nat) 40)) (Z.shiftl (at_ 4%nat) 32))
                   (Z.shiftl (at_ 5%nat) 24)) (Z.shiftl (at_ 6%nat) 16))
                   (Z.shiftl (at_ 7%nat) 8)) (at_ 8%nat) in
    if MaxInt32 <? len64 then invalid else (len64, 9%nat, false)
  else if additional =? 31 then (0, 1%nat, true)
  else invalid.

Definition ArrayInfo (data : bytes) : Z * nat * bool := collectionInfo CborTypeArray data.
Definition MapInfo (data : bytes) : Z * nat * bool := collectionInfo CborTypeMap data.

(** ** cborpreflight *)

(** The errors; [E] is what the caller's check of an element reports. *)
Inductive preflightError (E : Type) :=
| PfMissing | PfTagNesting | PfInvalidTag | PfTruncatedTag | PfTruncatedMessage
| PfNotCollection | PfTooMany (count : Z) | PfUnterminated | PfItem (idx : Z) (e : walkError)
| PfCheck (e : E) | PfTrailing | PfFieldCount (n : Z) | PfOutOfFuel.
Arguments PfMissing {E}.
Arguments PfTagNesting {E}.
Arguments PfInvalidTag {E}.
Arguments PfTruncatedTag {E}.
Arguments PfTruncatedMessage {E}.
Arguments PfNotCollection {E}.
Arguments PfTooMany {E}.
Arguments PfUnterminated {E}.
Arguments PfItem {E}.
Arguments PfCheck {E}.
Arguments PfTrailing {E}.
Arguments PfFieldCount {E}.
Arguments PfOutOfFuel {E}.

(** The bytes after the first one of a tag; [None] for reserved values. *)
Definition tagWidth (additional : Z) : option nat :=
  if additional =? 24 then Some 1%nat
  else if additional =? 25 then Some 2%nat
  else if additional =? 26 then Some 4%nat
  else if additional =? 27 then Some 8%nat
  else if (additional =? 28) || (additional =? 29) || (additional =? 30) || (additional =? 31)
  then None else Some 0%nat.

Fixpoint skipTagsLoop {E} (fuel : nat) (data : bytes) (pos : nat) (depth : Z)
    : result (preflightError E) nat :=
  match fuel with
  | O => Err PfOutOfFuel
  | S fuel =>
    if bool_decide (pos < length data)%nat && (Z.land (byte_at data pos) CborTypeMask =? CborTypeTag) then
      if MaxNestedLevels <=? depth then Err PfTagNesting else
      match tagWidth (Z.land (byte_at data pos) 0x1f) with
      | None => Err PfInvalidTag
      | Some width =>
        if bool_decide (length data - pos <= width)%nat then Err PfTruncatedTag
        else skipTagsLoop fuel data (pos + width + 1) (depth + 1)
      end
    else if bool_decide (length data <= pos)%nat then Err PfTruncatedMessage
    else Ok pos
  end.

Definition skipTags {E} (data : bytes) (pos : nat) : result (preflightError E) nat :=
  skipTagsLoop (S (length data)) data pos 0.

(** The error of a walk inside element [idx]. *)
Definition walked {E A} (idx : Z) (r : result walkError A) : result (preflightError E) A :=
  match r with Ok a => Ok a | Err e => Err (PfItem idx e) end.

Definition checked {E} (r : result E unit) : result (preflightError E) unit :=
  match r with Ok u => Ok u | Err e => Err (PfCheck e) end.

(** The loop that every walk here has: [for idx := 0; indefinite || idx < count;
    idx++], with the three checks of a collection of unknown length, around the
    code that reads one element at [pos]. It returns what was read and where it
    ends; [St] is what the loop carries from one element to the next. *)
Fixpoint collectionLoop {E A St} (fuel : nat) (data : bytes) (maxCount count : Z) (indef : bool)
    (element : St -> Z -> nat -> result (preflightError E) (A * St * nat)) (st : St) (pos : nat) (idx : Z)
    : result (preflightError E) (list A * nat) :=
  match fuel with
  | O => Err PfOutOfFuel
  | S fuel =>
    if negb indef && (count <=? idx) then Ok ([], pos) else
    let next :=
      '(a, st, pos) ← element st idx pos;
      '(items, last) ← collectionLoop fuel data maxCount count indef element st pos (idx + 1);
      Ok (a :: items, last) in
    if indef then
      if bool_decide (length data <= pos)%nat then Err PfUnterminated
      else if byte_at data pos =? 0xff then Ok ([], S pos)
      else if maxCount <=? idx then Err (PfTooMany (idx + 1))
      else next
    else next
  end.

Definition arrayElement {E} (data : bytes) (validateItem : option (Z -> bytes -> result E unit))
    (_ : unit) (idx : Z) (pos : nat) : result (preflightError E) (bytes * unit * nat) :=
  length ← walked idx (ItemLength (drop pos data));
  let raw := slice pos (pos + length) data in
  _ ← match validateItem with None => Ok () | Some f => checked (f idx raw) end;
  Ok (raw, (), (pos + length)%nat).

(** What [arrayItems] and [ValidateMap] share: the tags, the header, the loop
    over the elements and the check that nothing follows. *)
Definition walkCollection {E A St} (info : bytes -> Z * nat * bool) (data : bytes) (maxCount : Z)
    (element : St -> Z -> nat -> result (preflightError E) (A * St * nat)) (st : St)
    : result (preflightError E) (list A) :=
  if decide (length data = 0)%nat then Err PfMissing else
  pos ← skipTags data 0;
  let '(count, headerSize, indef) := info (drop pos data) in
  if count <? 0 then Err PfNotCollection
  else if negb indef && (maxCount <? count) then Err (PfTooMany count)
  else
    '(items, last) ← collectionLoop (S (length data)) data maxCount count indef element st (pos + headerSize) 0;
    if bool_decide (last = length data) then Ok items else Err PfTrailing.

Definition arrayItems {E} (data : bytes) (maxCount : Z)
    (validateItem : option (Z -> bytes -> result E unit)) (collect : bool)
    : result (preflightError E) (list bytes) :=
  items ← walkCollection ArrayInfo data maxCount (arrayElement data validateItem) ();
  Ok (if collect then items else []).

Definition validateArray {E} (data : bytes) (maxCount : Z)
    (validateItem : option (Z -> bytes -> result E unit)) : result (preflightError E) unit :=
  _ ← arrayItems data maxCount validateItem false; Ok ().

Definition ValidateArray {E} data maxCount validateItem := @validateArray E data maxCount validateItem.
Definition VisitArray {E} data maxCount visit := @validateArray E data maxCount visit.
Definition ArrayItems {E} data maxCount := @arrayItems E data maxCount None true.

Definition ValidateSecondFieldArray {E} (data : bytes) (maxCount : Z)
    (validateItem : option (Z -> bytes -> result E unit)) : result (preflightError E) unit :=
  fields ← arrayItems data 2 None true;
  match fields with
  | [_; second] => validateArray second maxCount validateItem
  | _ => Err (PfFieldCount (blen fields))
  end.

Definition ArrayCapacity {E} (data : bytes) (maxCount : Z) : result (preflightError E) Z :=
  if decide (length data = 0)%nat then Err PfMissing else
  pos ← skipTags data 0;
  let '(count, _, indef) := ArrayInfo (drop pos data) in
  if count <? 0 then Err PfNotCollection
  else if indef then Ok 0
  else if maxCount <? count then Err (PfTooMany count)
  else Ok count.

Definition mapElement {E} (data : bytes) (validateEntry : option (Z -> bytes -> bytes -> result E unit))
    (_ : unit) (idx : Z) (pos : nat) : result (preflightError E) (bytes * bytes * unit * nat) :=
  keyLength ← walked idx (ItemLength (drop pos data));
  let valueStart := (pos + keyLength)%nat in
  valueLength ← walked idx (ItemLength (drop valueStart data));
  let key := slice pos (pos + keyLength) data in
  let value := slice valueStart (valueStart + valueLength) data in
  _ ← match validateEntry with None => Ok () | Some f => checked (f idx key value) end;
  Ok (key, value, (), (valueStart + valueLength)%nat).

Definition ValidateMap {E} (data : bytes) (maxCount : Z)
    (validateEntry : option (Z -> bytes -> bytes -> result E unit)) : result (preflightError E) unit :=
  _ ← walkCollection MapInfo data maxCount (mapElement data validateEntry) (); Ok ().

Definition ValidateItemDepth {E} (data : bytes) (maxDepth : Z) : result (preflightError E) unit :=
  length ← walked 0 (ItemLengthWithin data maxDepth);
  if bool_decide (length = List.length data) then Ok () else Err PfTrailing.

(** ** The handshake's walk (handshake/collection_decode.go) *)

Definition MaxPendingMessageBytes : Z := 5760.
Definition maxHandshakeVersions : Z := (MaxPendingMessageBytes - 5) / 2.
Definition maxRefusalFields : Z := 3.
Definition maxRefusalSupportedVersions : Z := MaxPendingMessageBytes - 7.
Definition RefuseReasonVersionMismatch : Z := 0.

Inductive handshakeWalkError :=
| HwHead (e : walkError) | HwTruncatedHead | HwNotUnsigned | HwRange | HwDuplicateVersion (v : Z).

Definition decodeHandshakeUnsigned (data : bytes) (maxValue : Z)
    : result (preflightError handshakeWalkError) (Z * nat) :=
  match ReadHead data 0 with
  | Err e => Err (PfCheck (HwHead e))
  | Ok None => Err (PfCheck HwTruncatedHead)
  | Ok (Some head) =>
    if negb (Major head =? 0) || Indefinite head || IsBreak head then Err (PfCheck HwNotUnsigned)
    else if maxValue <? Argument head then Err (PfCheck HwRange)
    else Ok (Argument head, EncodedSize head)
  end.

Definition handshakeCollectionInfo (data : bytes) (major : Z)
    : result (preflightError handshakeWalkError) (Z * nat * bool) :=
  match ReadHead data 0 with
  | Err e => Err (PfCheck (HwHead e))
  | Ok None => Err (PfCheck HwTruncatedHead)
  | Ok (Some head) =>
    if negb (Major head =? major) || IsBreak head then Err PfNotCollection else
    let '(count, headerSize, indef) := if major =? 4 then ArrayInfo data else MapInfo data in
    if count <? 0 then Err PfNotCollection else Ok (count, headerSize, indef)
  end.

Definition skipHandshakeTags (data : bytes) (pos : nat) : result (preflightError handshakeWalkError) nat :=
  skipTags data pos.

Definition handshakeSecondField (data : bytes) : result (preflightError handshakeWalkError) bytes :=
  pos ← skipHandshakeTags data 0;
  '(fieldCount, headerSize, indef) ← handshakeCollectionInfo (drop pos data) 4;
  if negb indef && negb (fieldCount =? 2) then Err (PfFieldCount fieldCount) else
  let pos := (pos + headerSize)%nat in
  '(_, consumed) ← decodeHandshakeUnsigned (drop pos data) MaxUint64;
  pos ← skipHandshakeTags data (pos + consumed);
  Ok (drop pos data).

(** [seen [1 << 13]byte]: one bit for each version. *)
Definition seenBit (version : Z) : nat * Z :=
  (Z.to_nat (Z.shiftr version 3), u8 (Z.shiftl 1 (Z.land version 7))).

Definition emptySeen : list Z := replicate (Z.to_nat 8192) 0.

Definition versionElement (collection : bytes) (seen : list Z) (idx : Z) (pos : nat)
    : result (preflightError handshakeWalkError) (Z * list Z * nat) :=
  '(version, consumed) ← decodeHandshakeUnsigned (drop pos collection) MaxUint16;
  let pos := (pos + consumed)%nat in
  let '(byteIndex, bit) := seenBit version in
  let cell := nth byteIndex seen 0 in
  if negb (Z.land cell bit =? 0) then Err (PfCheck (HwDuplicateVersion version)) else
  length ← walked idx (ItemLength (drop pos collection));
  Ok (version, <[byteIndex := Z.lor cell bit]> seen, (pos + length)%nat).

Definition versionKeys (data : bytes) : result (preflightError handshakeWalkError) (list Z) :=
  collection ← handshakeSecondField data;
  '(count, headerSize, indef) ← handshakeCollectionInfo collection 5;
  if negb indef && (maxHandshakeVersions <? count) then Err (PfTooMany count) else
  '(versions, _) ← collectionLoop (S (length collection)) collection maxHandshakeVersions count indef
                     (versionElement collection) emptySeen headerSize 0;
  Ok versions.

Definition validateVersionMapMessage (data : bytes) : result (preflightError handshakeWalkError) unit :=
  _ ← versionKeys data; Ok ().

Definition supportedElement (data : bytes) (_ : unit) (idx : Z) (pos : nat)
    : result (preflightError handshakeWalkError) (unit * unit * nat) :=
  length ← walked idx (ItemLength (drop pos data));
  Ok ((), (), (pos + length)%nat).

Definition validateSupportedVersions (data : bytes) : result (preflightError handshakeWalkError) unit :=
  pos ← skipHandshakeTags data 0;
  '(count, headerSize, indef) ← handshakeCollectionInfo (drop pos data) 4;
  if negb indef && (maxRefusalSupportedVersions <? count) then Err (PfTooMany count) else
  _ ← collectionLoop (S (length data)) data maxRefusalSupportedVersions count indef
        (supportedElement data) () (pos + headerSize) 0;
  Ok ().

(** The loop carries the reason, which is field 0. *)
Definition refusalElement (collection : bytes) (reason : Z) (idx : Z) (pos : nat)
    : result (preflightError handshakeWalkError) (unit * Z * nat) :=
  if idx =? 0 then
    '(reason, consumed) ← decodeHandshakeUnsigned (drop pos collection) MaxUint64;
    Ok ((), reason, (pos + consumed)%nat)
  else
    _ ← (if (idx =? 1) && (reason =? RefuseReasonVersionMismatch)
         then validateSupportedVersions (drop pos collection) else Ok ());
    length ← walked idx (ItemLength (drop pos collection));
    Ok ((), reason, (pos + length)%nat).

Definition validateRefusalMessage (data : bytes) : result (preflightError handshakeWalkError) unit :=
  collection ← handshakeSecondField data;
  '(count, headerSize, indef) ← handshakeCollectionInfo collection 4;
  if negb indef && (maxRefusalFields <? count) then Err (PfTooMany count) else
  _ ← collectionLoop (S (length collection)) collection maxRefusalFields count indef
        (refusalElement collection) 0 headerSize 0;
  Ok ().

(** The checks of [NewMsgFromCbor] before it decodes a message of type [msgType];
    [None] for an unknown type. *)
Definition preflightMsg (msgType : Z) (data : bytes) : option (result (preflightError handshakeWalkError) unit) :=
  if (msgType <? 0) || (3 <? msgType) then None else Some (
  _ ← (if (msgType =? 0) || (msgType =? 3) then validateVersionMapMessage data
       else if msgType =? 2 then validateRefusalMessage data else Ok ());
  ValidateItemDepth data 4).

Example two_versions : versionKeys [0x82; 0; 0xa2; 7; 0x80; 0x19; 0x80; 0x10; 1] = Ok [7; 32784].
Proof. vm_compute. reflexivity. Qed.

(** ** Headers *)

Lemma byte_split b : 0 <= b < 256 -> Z.land b 0xe0 = 32 * Z.shiftr b 5.
Proof.
  intros Hb. assert (E : forallb (fun n => Z.land (Z.of_nat n) 0xe0 =? 32 * Z.shiftr (Z.of_nat n) 5) (seq 0 256) = true) by (vm_compute; reflexivity).
  rewrite forallb_forall in E. specialize (E (Z.to_nat b)). rewrite Z2Nat.id in E by lia.
  apply Z.eqb_eq, E, in_seq. lia.
Qed.

Lemma shift_in_small a b : 0 <= a -> a * 256 < 2 ^ 64 -> shift_in a b = Z.lor (Z.shiftl a 8) b.
Proof.
  intros Ha Hs. unfold shift_in. rewrite Z.shiftl_mul_pow2 by lia. f_equal. apply Z.mod_small. lia.
Qed.

(** The argument that [ReadHead] shifts in byte by byte is the one the header
    functions write out. *)
Lemma eight_bytes b1 b2 b3 b4 b5 b6 b7 b8 :
  Forall is_byte [b1; b2; b3; b4; b5; b6; b7; b8] ->
  fold_left shift_in [b1; b2; b3; b4; b5; b6; b7; b8] 0 =
  Z.lor (Z.lor (Z.lor (Z.lor (Z.lor (Z.lor (Z.lor (Z.shiftl b1 56) (Z.shiftl b2 48)) (Z.shiftl b3 40))
    (Z.shiftl b4 32)) (Z.shiftl b5 24)) (Z.shiftl b6 16)) (Z.shiftl b7 8)) b8.
Proof.
  intros H. rewrite !Forall_cons in H. destruct H as (H1 & H2 & H3 & H4 & H5 & H6 & H7 & H8 & _). unfold is_byte in *.
  assert (step : forall a b n, 0 <= n -> 0 <= a < 2 ^ n -> 0 <= b < 256 -> n + 8 <= 64 ->
    shift_in a b = Z.lor (Z.shiftl a 8) b /\ 0 <= Z.lor (Z.shiftl a 8) b < 2 ^ (n + 8)).
  { intros a b n Hn Ha Hb Hle. assert (2 ^ (n + 8) <= 2 ^ 64) by (apply Z.pow_le_mono_r; lia).
    assert (2 ^ (n + 8) = 2 ^ n * 256) by (rewrite Z.pow_add_r by lia; lia).
    assert (1 <= 2 ^ n) by (pose proof (Z.pow_pos_nonneg 2 n); lia).
    split; [apply shift_in_small; lia|]. apply lor_bound; [lia| |lia]. rewrite Z.shiftl_mul_pow2 by lia. lia. }
  cbn [fold_left]. destruct (step 0 b1 0 ltac:(lia) ltac:(lia) H1 ltac:(lia)) as [-> B1].
  destruct (step _ b2 8 ltac:(lia) B1 H2 ltac:(lia)) as [-> B2].
  destruct (step _ b3 16 ltac:(lia) B2 H3 ltac:(lia)) as [-> B3].
  destruct (step _ b4 24 ltac:(lia) B3 H4 ltac:(lia)) as [-> B4].
  destruct (step _ b5 32 ltac:(lia) B4 H5 ltac:(lia)) as [-> B5].
  destruct (step _ b6 40 ltac:(lia) B5 H6 ltac:(lia)) as [-> B6].
  destruct (step _ b7 48 ltac:(lia) B6 H7 ltac:(lia)) as [-> B7].
  destruct (step _ b8 56 ltac:(lia) B7 H8 ltac:(lia)) as [-> _].
  rewrite Z.shiftl_0_l, Z.lor_0_l. by rewrite !Z.shiftl_lor, !Z.shiftl_shiftl by lia.
Qed.

(** A header with a count of some bytes: too short, of another type, or read. *)
#[local] Ltac header_case major m :=
  cbn [andb]; case_decide; [rewrite bool_decide_false by lia; by case_match|]; rewrite bool_decide_true by lia;
  cbn [Major Argument EncodedSize Indefinite]; destruct (major =? m); cbn [negb andb]; [|done];
  first [by rewrite (proj2 (Z.leb_le _ _)) by lia | rewrite Z.leb_antisym; by destruct (_ <? _)].

(** A header of a collection is the head of the item, with a count that fits. *)
Lemma collectionInfo_head m data :
  wf_bytes data -> (m = 4 \/ m = 5) ->
  collectionInfo (32 * m) data =
  match ReadHead data 0 with
  | Ok (Some h) => if (Major h =? m) && (Argument h <=? MaxInt32) then (Argument h, EncodedSize h, Indefinite h) else (-1, 0%nat, false)
  | _ => (-1, 0%nat, false)
  end.
Proof.
  intros Hwf Hm. unfold collectionInfo, ReadHead. pose proof (fun i => byte_at_range data i Hwf) as Hb.
  destruct (decide (length data = 0)%nat); [by rewrite decide_True by lia|]. rewrite decide_False by lia.
  rewrite byte_split by apply Hb.
  assert (Eh : (32 * Z.shiftr (byte_at data 0) 5 =? 32 * m) = (Z.shiftr (byte_at data 0) 5 =? m)) by (zbool; lia || done).
  rewrite Eh. clear Eh. cbn [Nat.add]. rewrite Nat.sub_0_r.
  assert (Ha : 0 <= Z.land (byte_at data 0) 31 < 32)
    by (change 31 with (Z.ones 5); rewrite Z.land_ones by lia; apply Z.mod_pos_bound; lia).
  cbn [seq fmap list_fmap]. rewrite eight_bytes by (repeat constructor; apply Hb).
  set (additional := Z.land (byte_at data 0) 31) in *. set (major := Z.shiftr (byte_at data 0) 5).
  pose proof (Hb 1%nat). pose proof (Hb 2%nat). unfold MaxInt32.
  assert (B16 : 0 <= Z.lor (Z.shiftl (byte_at data 1) 8) (byte_at data 2) < 2 ^ 16).
  { apply lor_bound; [lia| |lia]. rewrite Z.shiftl_mul_pow2 by lia. lia. }
  destruct (Z.leb_spec additional 23) as [L|L].
  { rewrite (proj2 (Z.ltb_lt additional 24)) by lia. cbn [Major Argument EncodedSize Indefinite].
    destruct (major =? m) eqn:Em; cbn [negb andb]; [|done]. by rewrite (proj2 (Z.leb_le _ _)) by lia. }
  rewrite (proj2 (Z.ltb_ge additional 24)) by lia.
  destruct (Z.eqb_spec additional 24) as [->|N24]; [header_case major m|].
  destruct (Z.eqb_spec additional 25) as [->|N25]; [header_case major m|].
  destruct (Z.eqb_spec additional 26) as [->|N26]; [header_case major m|].
  destruct (Z.eqb_spec additional 27) as [->|N27]; [header_case major m|].
  cbn [andb]. destruct (Z.eqb_spec additional 31) as [->|N31]; [|by case_match].
  destruct (Z.eqb_spec major 7) as [E7|N7].
  { cbn [Major]. rewrite E7. destruct Hm as [->| ->]; done. }
  destruct ((major <? 2) || (5 <? major)) eqn:E; cbn [Major Argument EncodedSize Indefinite].
  { destruct (Z.eqb_spec major m); [|done]. zbool; lia. }
  by destruct (major =? m).
Qed.

(** ** Tags *)

(** [n] tags in a row. *)
Inductive Tags : nat -> bytes -> Prop :=
| Tags_nil : Tags 0 []
| Tags_cons n hb h tb : HeadOf hb h -> Major h = 6 -> Tags n tb -> Tags (S n) (hb ++ tb).

Definition untagged (rest : bytes) : Prop := rest <> [] /\ Z.shiftr (byte_at rest 0) 5 <> 6.

(** A tag at [pos] is read exactly when its head is. *)
Lemma tag_head data pos :
  wf_bytes data -> (pos < length data)%nat -> Z.shiftr (byte_at data pos) 5 = 6 ->
  match tagWidth (Z.land (byte_at data pos) 0x1f) with
  | Some width =>
    if bool_decide (length data - pos <= width)%nat then ReadHead data pos = Ok None
    else exists h, ReadHead data pos = Ok (Some h) /\ Major h = 6 /\ EncodedSize h = S width
  | None => exists e, ReadHead data pos = Err e
  end.
Proof.
  intros Hwf Hp Hm. unfold tagWidth, ReadHead. rewrite decide_False by lia. rewrite Hm.
  assert (Ha : 0 <= Z.land (byte_at data pos) 31 < 32)
    by (change 31 with (Z.ones 5); rewrite Z.land_ones by lia; apply Z.mod_pos_bound; lia).
  set (additional := Z.land (byte_at data pos) 31) in *.
  destruct (Z.ltb_spec additional 24).
  { do 8 (rewrite (proj2 (Z.eqb_neq additional _)) by lia). cbn [orb]. rewrite bool_decide_false by lia. eauto. }
  assert (Hc : additional = 24 \/ additional = 25 \/ additional = 26 \/ additional = 27 \/
    additional = 28 \/ additional = 29 \/ additional = 30 \/ additional = 31) by lia.
  repeat destruct Hc as [Hc|Hc]; rewrite Hc; cbn [Z.eqb Pos.eqb orb]; eauto;
    (case_bool_decide; [by rewrite decide_True by lia|rewrite decide_False by lia; eauto]).
Qed.

Lemma tag_byte b : 0 <= b < 256 -> (Z.land b CborTypeMask =? CborTypeTag) = (Z.shiftr b 5 =? 6).
Proof. intros Hb. unfold CborTypeMask, CborTypeTag. rewrite byte_split by done. zbool; lia || done. Qed.

Lemma head_first_byte hb h rest : HeadOf hb h -> Major h = Z.shiftr (byte_at (hb ++ rest) 0) 5.
Proof.
  intros H. pose proof (ReadHead_app hb rest h H) as E. unfold ReadHead in E.
  repeat case_match; simplify_eq; done.
Qed.

Lemma skipTagsLoop_sound {E} data : wf_bytes data -> forall fuel pos depth pos',
  skipTagsLoop (E := E) fuel data pos depth = Ok pos' ->
  exists n tb, drop pos data = tb ++ drop pos' data /\ Tags n tb /\ pos' = (pos + length tb)%nat /\
    (n = 0%nat \/ depth + Z.of_nat n <= MaxNestedLevels) /\ untagged (drop pos' data).
Proof.
  intros Hwf. induction fuel as [|fuel IH]; intros pos depth pos' H; cbn [skipTagsLoop] in H; [done|].
  pose proof (byte_at_range data pos Hwf) as Hb. rewrite tag_byte in H by done.
  case_bool_decide as Hp; cbn [andb] in H.
  2:{ case_bool_decide; [done|lia]. }
  destruct (Z.eqb_spec (Z.shiftr (byte_at data pos) 5) 6) as [Hm|Hm].
  - destruct (Z.leb_spec MaxNestedLevels depth); [done|]. pose proof (tag_head data pos Hwf Hp Hm) as T.
    destruct (tagWidth _) as [width|]; [|done]. destruct (bool_decide _); [done|].
    destruct T as (h & HR & H6 & Hsz). destruct (ReadHead_split _ _ _ Hwf HR) as (hb & Hd & Hh & _ & _ & _ & _).
    apply IH in H as (n & tb & Hd' & Ht & -> & Hn & Hu). exists (S n), (hb ++ tb).
    rewrite Hsz in Hd. replace (pos + S width)%nat with (pos + width + 1)%nat in Hd by lia.
    destruct Hh as [Hh1 Hh2]. split_and!; [by rewrite Hd, Hd', <- app_assoc|by econstructor| |right; lia|done].
    rewrite length_app. lia.
  - case_bool_decide; [done|]. injection H as <-. exists 0%nat, []. rewrite Nat.add_0_r.
    split_and!; try done; [constructor|by left|]. split.
    + intros E0. apply (f_equal length) in E0. rewrite length_drop in E0. simpl in E0. lia.
    + by rewrite byte_at_drop, Nat.add_0_r.
Qed.

Lemma skipTagsLoop_complete {E} data : wf_bytes data -> forall n tb, Tags n tb -> forall fuel pos depth rest,
  drop pos data = tb ++ rest -> untagged rest -> (n = 0%nat \/ depth + Z.of_nat n <= MaxNestedLevels) ->
  (length data - pos < fuel)%nat -> skipTagsLoop (E := E) fuel data pos depth = Ok (pos + length tb)%nat.
Proof.
  intros Hwf n tb Ht. induction Ht as [|n hb h tb Hh Hm Ht IH]; intros fuel pos depth rest Hd [Hr Hu] Hn Hf;
    (destruct fuel as [|fuel]; [lia|]); cbn [skipTagsLoop]; rewrite tag_byte by (by apply byte_at_range).
  - assert (Hp : (pos < length data)%nat).
    { apply (f_equal length) in Hd. rewrite length_drop in Hd. cbn [app] in Hd. destruct rest; [done|]. simpl in Hd. lia. }
    cbn [app] in Hd. rewrite <- Hd, byte_at_drop, Nat.add_0_r in Hu.
    rewrite (proj2 (Z.eqb_neq _ _) Hu), andb_false_r, bool_decide_false by lia. f_equal. simpl. lia.
  - rewrite <- app_assoc in Hd. pose proof (HeadOf_length _ _ Hh) as Hl.
    assert (Hp : (pos + length hb <= length data)%nat).
    { apply (f_equal length) in Hd. rewrite length_drop, !length_app in Hd. lia. }
    pose proof (ReadHead_app hb (tb ++ rest) h Hh) as HR. rewrite <- Hd, <- ReadHead_drop in HR.
    pose proof (head_first_byte hb h (tb ++ rest) Hh) as Hfb. rewrite <- Hd, byte_at_drop, Nat.add_0_r in Hfb.
    assert (H6 : Z.shiftr (byte_at data pos) 5 = 6) by congruence.
    rewrite bool_decide_true by lia. rewrite (proj2 (Z.eqb_eq _ _) H6). cbn [andb].
    destruct (Z.leb_spec MaxNestedLevels depth); [lia|]. pose proof (tag_head data pos Hwf ltac:(lia) H6) as T.
    destruct (tagWidth _) as [width|]; [|destruct T as [e T]; congruence].
    destruct (bool_decide _); [congruence|]. destruct T as (h' & HR' & _ & Hsz). assert (h' = h) by congruence. subst h'.
    destruct Hh as [_ Hsz']. rewrite (IH fuel _ _ rest); [rewrite length_app; f_equal; lia| |done|lia|lia].
    replace (pos + width + 1)%nat with (pos + length hb)%nat by lia. rewrite <- drop_drop, Hd. by rewrite drop_app_length.
Qed.

(** Skipping tags finds the item under them, or fails. *)
Lemma skipTags_exact {E} data pos pos' : wf_bytes data ->
  skipTags (E := E) data pos = Ok pos' <->
  exists n tb, drop pos data = tb ++ drop pos' data /\ Tags n tb /\ pos' = (pos + length tb)%nat /\
    Z.of_nat n <= MaxNestedLevels /\ untagged (drop pos' data).
Proof.
  intros Hwf. unfold skipTags. split.
  - intros H. apply skipTagsLoop_sound in H as (n & tb & ? & ? & ? & Hn & ?); [|done].
    exists n, tb. split_and!; try done. unfold MaxNestedLevels in *. lia.
  - intros (n & tb & Hd & Ht & -> & Hn & Hu). eapply skipTagsLoop_complete; eauto; lia.
Qed.

(** ** The loop *)

Definition closing (indef : bool) : bytes := if indef then [0xff] else [].

(** How many elements [l] may have after [idx] earlier ones. *)
Definition counts {A} (maxCount count : Z) (indef : bool) (idx : Z) (l : list A) : Prop :=
  if indef then idx + blen l <= maxCount else idx + blen l = count.

Section Loop.
Context {E A St : Type} (data : bytes) (maxCount count : Z) (indef : bool).
Context (element : St -> Z -> nat -> result (preflightError E) (A * St * nat)).

(** [R st idx raw a st']: [raw] is an element that reads as [a]. *)
Context (R : St -> Z -> bytes -> A -> St -> Prop).

Inductive Elements : St -> Z -> list A -> bytes -> Prop :=
| E_nil st i : Elements st i [] []
| E_cons st i raw a st' l bs :
    R st i raw a st' -> Elements st' (i + 1) l bs -> Elements st i (a :: l) (raw ++ bs).

Hypothesis R_start : forall st i raw a st', R st i raw a st' -> raw <> [] /\ byte_at raw 0 <> 0xff.
Hypothesis element_exact : forall st i pos a st' pos', (pos <= length data)%nat ->
  element st i pos = Ok (a, st', pos') <->
  exists raw, drop pos data = raw ++ drop pos' data /\ pos' = (pos + length raw)%nat /\ R st i raw a st'.

Lemma byte_at_app raw rest : raw <> [] -> byte_at (raw ++ rest) 0 = byte_at raw 0.
Proof using Type. by destruct raw. Qed.

Lemma length_drop_app raw rest pos : drop pos data = raw ++ rest -> (pos <= length data)%nat ->
  (pos + length raw + length rest = length data)%nat.
Proof using Type. intros H Hp. apply (f_equal length) in H. rewrite length_drop, length_app in H. lia. Qed.

Lemma collectionLoop_sound : forall fuel st pos idx l last,
  (pos <= length data)%nat -> (if indef then idx <= maxCount else idx <= count) ->
  collectionLoop fuel data maxCount count indef element st pos idx = Ok (l, last) ->
  exists body, drop pos data = body ++ closing indef ++ drop last data /\
    last = (pos + length body + length (closing indef))%nat /\ (last <= length data)%nat /\
    Elements st idx l body /\ counts maxCount count indef idx l.
Proof using R_start element_exact.
  induction fuel as [|fuel IH]; intros st pos idx l last Hp Hi H; cbn [collectionLoop] in H; [done|].
  assert (next : (if indef then idx < maxCount else idx < count) ->
    ('(a, st, pos) ← element st idx pos;
     '(items, last) ← collectionLoop fuel data maxCount count indef element st pos (idx + 1);
     Ok (a :: items, last)) = Ok (l, last) ->
    exists body, drop pos data = body ++ closing indef ++ drop last data /\
      last = (pos + length body + length (closing indef))%nat /\ (last <= length data)%nat /\
      Elements st idx l body /\ counts maxCount count indef idx l).
  { clear H. intros Hlt H. peel H. destruct v as [[a st'] pos']. apply element_exact in E0 as (raw & Hd & -> & HR); [|done].
    pose proof (length_drop_app _ _ _ Hd Hp) as Hl. peel H. destruct v as [items last']. simplify_eq.
    destruct (R_start _ _ _ _ _ HR) as [Hne _].
    assert ((pos + length raw <= length data)%nat) by lia.
    apply IH in E0 as (body & Hd' & -> & Hle & HE & Hc); [|done|destruct indef; lia].
    exists (raw ++ body). rewrite length_app. split_and!; try done; [by rewrite Hd, Hd', <- !app_assoc|lia|by econstructor|].
    unfold counts in *. destruct indef; rewrite blen_cons; lia. }
  destruct indef; cbn [negb andb] in *.
  - case_bool_decide; [done|]. destruct (Z.eqb_spec (byte_at data pos) 255) as [Hb|_].
    + simplify_eq. exists []. cbn [app closing length]. unfold counts. rewrite Nat.add_0_r, blen_nil.
      split_and!; try lia; [|constructor].
      destruct (drop pos data) as [|b rest] eqn:Ed; [apply (f_equal length) in Ed; rewrite length_drop in Ed; simpl in Ed; lia|].
      rewrite <- (Nat.add_1_r pos), <- drop_drop, Ed. pose proof (byte_at_drop data pos 0) as B. rewrite Ed, Nat.add_0_r, Hb in B. cbn in B. by subst b.
    + destruct (Z.leb_spec maxCount idx); [done|]. apply next; [lia|done].
  - destruct (Z.leb_spec count idx).
    + simplify_eq. exists []. cbn [app closing length]. unfold counts. rewrite !Nat.add_0_r, blen_nil. split_and!; try (done || lia). constructor.
    + apply next; [lia|done].
Qed.

Lemma collectionLoop_complete : forall st idx l body, Elements st idx l body -> forall fuel pos rest,
  (pos <= length data)%nat -> (length data - pos < fuel)%nat ->
  drop pos data = body ++ closing indef ++ rest -> counts maxCount count indef idx l ->
  collectionLoop fuel data maxCount count indef element st pos idx = Ok (l, (pos + length body + length (closing indef))%nat).
Proof using R_start element_exact.
  intros st idx l body HE. induction HE as [st i|st i raw a st' l bs HR HE IH]; intros fuel pos rest Hp Hf Hd Hc;
    (destruct fuel as [|fuel]; [lia|]); cbn [collectionLoop]; unfold counts in *.
  - rewrite blen_nil, Z.add_0_r in Hc. destruct indef; cbn [negb andb closing app length] in *.
    + pose proof (byte_at_drop data pos 0) as B. rewrite Hd, Nat.add_0_r in B. cbn in B. rewrite <- B.
      pose proof (f_equal length Hd) as Hl. rewrite length_drop in Hl. simpl in Hl.
      rewrite bool_decide_false by lia. cbn. do 2 f_equal. lia.
    + rewrite (proj2 (Z.leb_le _ _)) by lia. do 2 f_equal. lia.
  - destruct (R_start _ _ _ _ _ HR) as [Hne Hb]. rewrite <- app_assoc in Hd. pose proof (length_drop_app _ _ _ Hd Hp) as Hl.
    assert (Hlr : length raw <> 0%nat) by (destruct raw; done).
    assert (Hd' : drop (pos + length raw) data = bs ++ closing indef ++ rest)
      by (rewrite <- drop_drop, Hd; by rewrite drop_app_length).
    assert (HE' : element st i pos = Ok (a, st', (pos + length raw)%nat)).
    { apply element_exact; [done|]. exists raw. rewrite Hd'. done. }
    rewrite blen_cons in Hc. pose proof (blen_nonneg l).
    rewrite HE'. cbn [mbind result_bind].
    assert (HC : counts maxCount count indef (i + 1) l) by (unfold counts; destruct indef; lia).
    erewrite (IH fuel); [cbn [mbind result_bind]|lia|lia|exact Hd'|exact HC].
    rewrite length_app. replace (pos + length raw + length bs)%nat with (pos + (length raw + length bs))%nat by lia.
    destruct indef; cbn [negb andb].
    + rewrite bool_decide_false by lia. pose proof (byte_at_drop data pos 0) as B.
      rewrite Hd, Nat.add_0_r, byte_at_app in B by done. rewrite <- B, (proj2 (Z.eqb_neq _ _) Hb).
      by rewrite (proj2 (Z.leb_gt _ _)) by lia.
    + by rewrite (proj2 (Z.leb_gt _ _)) by lia.
Qed.
End Loop.
Arguments Elements {A St} R.
Arguments E_nil {A St R}.
Arguments E_cons {A St R}.

(** ** Collections *)

Lemma info_sound m data count size ind :
  wf_bytes data -> (m = 4 \/ m = 5) -> collectionInfo (32 * m) data = (count, size, ind) -> 0 <= count ->
  exists hb h, data = hb ++ drop size data /\ HeadOf hb h /\ Major h = m /\ size = length hb /\
    (size <= length data)%nat /\ ind = Indefinite h /\ count = Argument h.
Proof.
  intros Hwf Hm H Hc. rewrite collectionInfo_head in H by done. destruct (ReadHead data 0) as [[h|]|] eqn:ER; simplify_eq; try lia.
  destruct ((Major h =? m) && (Argument h <=? MaxInt32)) eqn:E; simplify_eq; [|lia].
  apply andb_true_iff in E as [E1 E2]. destruct (ReadHead_split _ _ _ Hwf ER) as (hb & Hd & Hh & _ & Hsz & _).
  rewrite drop_0 in Hd. exists hb, h. destruct Hh as [? Hl]. apply Z.eqb_eq in E1. split_and!; done.
Qed.

Lemma info_complete m hb h rest :
  wf_bytes (hb ++ rest) -> (m = 4 \/ m = 5) -> HeadOf hb h -> Major h = m -> Argument h <= MaxInt32 ->
  collectionInfo (32 * m) (hb ++ rest) = (Argument h, length hb, Indefinite h).
Proof.
  intros Hwf Hm Hh HM Ha. rewrite collectionInfo_head, (ReadHead_app _ _ _ Hh), HM, Z.eqb_refl by done.
  rewrite (proj2 (Z.leb_le _ _)) by lia. destruct Hh as [_ ->]. done.
Qed.

(** A collection of type [m] whose elements make up [body]. *)
Definition CollectionOf (m : Z) (data : bytes) (n : Z) (body : bytes) : Prop :=
  exists k tb hb h, data = tb ++ hb ++ body ++ closing (Indefinite h) /\ Tags k tb /\ Z.of_nat k <= MaxNestedLevels /\
    HeadOf hb h /\ Major h = m /\ (Indefinite h = false -> Argument h = n).

Lemma collection_untagged m hb h rest : HeadOf hb h -> Major h = m -> m <> 6 -> untagged (hb ++ rest).
Proof.
  intros Hh Hm N. split; [by pose proof (HeadOf_length _ _ Hh); destruct hb; simpl in *; [lia|]|].
  rewrite <- (head_first_byte hb h rest Hh). congruence.
Qed.

Lemma walkCollection_exact {E A St} m data maxCount (element : St -> Z -> nat -> result (preflightError E) (A * St * nat))
    (R : St -> Z -> bytes -> A -> St -> Prop) st l :
  (forall st i raw a st', R st i raw a st' -> raw <> [] /\ byte_at raw 0 <> 0xff) ->
  (forall st i pos a st' pos', (pos <= length data)%nat ->
    element st i pos = Ok (a, st', pos') <->
    exists raw, drop pos data = raw ++ drop pos' data /\ pos' = (pos + length raw)%nat /\ R st i raw a st') ->
  wf_bytes data -> (m = 4 \/ m = 5) -> 0 <= maxCount <= MaxInt32 ->
  walkCollection (collectionInfo (32 * m)) data maxCount element st = Ok l <->
  exists body, CollectionOf m data (blen l) body /\ Elements R st 0 l body /\ blen l <= maxCount.
Proof.
  intros Rs Re Hwf Hm Hmax. unfold walkCollection. split.
  - intros H. destruct (decide (length data = 0)%nat); [done|]. peel H. apply skipTags_exact in E0 as (k & tb & Hd & Ht & -> & Hk & Hu); [|done].
    cbn [Nat.add] in *. rewrite drop_0 in Hd. destruct (collectionInfo _ _) as [[count size] ind] eqn:Ei.
    destruct (Z.ltb_spec count 0); [done|]. apply info_sound in Ei as (hb & h & Hb & Hh & HM & -> & Hsz & -> & ->);
      [|by apply wf_bytes_drop|done|done].
    rewrite drop_drop in Hb. rewrite length_drop in Hsz. destruct (negb (Indefinite h) && _) eqn:Et; [done|].
    peel H. destruct v as [items last]. case_bool_decide as Hlast; simplify_eq.
    assert (length data = length tb + length (drop (length tb) data))%nat by (rewrite Hd at 1; by rewrite length_app).
    pose proof (HeadOf_length _ _ Hh) as Hl1. rewrite length_drop in *.
    eapply collectionLoop_sound in E0 as (body & Hbd & Hlen & _ & HE & Hc); [|exact Rs|exact Re|lia|destruct (Indefinite h); lia].
    exists body. rewrite drop_all, app_nil_r in Hbd. split_and!; [|done|].
    + exists k, tb, hb, h. split_and!; try done; [by rewrite <- Hbd, <- Hb, <- Hd|]. intros Hi. rewrite Hi in Hc. cbn in Hc. lia.
    + unfold counts in Hc. destruct (Indefinite h); cbn [negb andb] in Et; [lia|]. apply Z.ltb_ge in Et. lia.
  - intros (body & (k & tb & hb & h & Hd & Ht & Hk & Hh & HM & Hc) & HE & Hle).
    pose proof (HeadOf_length _ _ Hh) as Hl1.
    assert (Hd1 : drop (length tb) data = hb ++ body ++ closing (Indefinite h)) by (by rewrite Hd, drop_app_length).
    assert (Hd2 : drop (length tb + length hb) data = body ++ closing (Indefinite h) ++ [])
      by (by rewrite <- drop_drop, Hd1, drop_app_length, app_nil_r).
    assert (Hlen : (length data = length tb + length hb + length body + length (closing (Indefinite h)))%nat)
      by (rewrite Hd, !length_app; lia).
    destruct (decide (length data = 0)%nat); [lia|].
    assert (Hs : skipTags (E := E) data 0 = Ok (length tb)).
    { apply skipTags_exact; [done|]. exists k, tb. rewrite drop_0, Hd1. split_and!; try done. eapply collection_untagged; eauto. lia. }
    assert (Ha : Argument h = if Indefinite h then 0 else blen l).
    { destruct (Indefinite h) eqn:Ei; [|by apply Hc]. destruct Hh as [Hh _]. unfold ReadHead in Hh. repeat case_match; simplify_eq; done. }
    pose proof (blen_nonneg l). rewrite Hs. cbn [mbind result_bind]. rewrite Hd1, (info_complete m hb h);
      [|rewrite <- Hd1; by apply wf_bytes_drop|done|done|done|rewrite Ha; unfold MaxInt32 in *; destruct (Indefinite h); lia].
    rewrite (proj2 (Z.ltb_ge _ _)) by (rewrite Ha; destruct (Indefinite h); lia).
    rewrite (collectionLoop_complete _ _ _ _ _ R Rs Re st 0 l body HE _ _ []); [|lia|lia|done|].
    2:{ unfold counts. rewrite Ha. destruct (Indefinite h); lia. }
    cbn [mbind result_bind]. rewrite bool_decide_true by lia.
    destruct (Indefinite h); cbn [negb andb]; [done|]. by rewrite (proj2 (Z.ltb_ge _ _)) by lia.
Qed.

(** One complete item. *)
Definition is_item (raw : bytes) : Prop := exists h, Item true (Z.to_nat MaxNestedLevels) raw h.

Lemma is_item_start raw rest : is_item raw -> raw <> [] /\ byte_at (raw ++ rest) 0 <> 0xff.
Proof.
  intros [h Hi]. assert (Hs : exists hb s, raw = hb ++ s /\ HeadOf hb h /\ IsBreak h = false).
  { inversion Hi; subst; eauto. exists raw, []. by rewrite app_nil_r. }
  destruct Hs as (hb & s & -> & Hh & Hb). pose proof (HeadOf_length _ _ Hh).
  destruct hb as [|b hb]; [simpl in *; lia|]. split; [done|]. exact (HeadOf_break _ _ Hh Hb).
Qed.

Lemma item_at {E} idx data pos n : wf_bytes data -> (pos <= length data)%nat ->
  walked (E := E) idx (ItemLength (drop pos data)) = Ok n <->
  exists raw, drop pos data = raw ++ drop (pos + n) data /\ n = length raw /\ is_item raw.
Proof.
  intros Hwf Hp. assert (Hwd : wf_bytes (drop pos data)) by (by apply wf_bytes_drop). unfold is_item. split.
  - intros H. unfold walked in H. destruct (ItemLength _) as [n'|] eqn:Ei; simplify_eq.
    apply item_length_sound in Ei as (item & rest & h & Hd & <- & Hi); [|done|done].
    exists item. split_and!; [|done|by exists h]. by rewrite <- drop_drop, Hd, drop_app_length.
  - intros (raw & Hd & -> & h & Hi). unfold walked. unfold ItemLength.
    rewrite Hd in Hwd |- *. by rewrite (item_length_complete raw _ h).
Qed.

(** The caller's check of an element. *)
Definition passes {E} (validateItem : option (Z -> bytes -> result E unit)) (idx : Z) (raw : bytes) : Prop :=
  match validateItem with None => True | Some f => f idx raw = Ok () end.

Definition array_element {E} (v : option (Z -> bytes -> result E unit)) (_ : unit) (i : Z) (raw a : bytes) (_ : unit) : Prop :=
  a = raw /\ is_item raw /\ passes v i raw.

Lemma slice_of {A} (data raw rest : list A) pos : drop pos data = raw ++ rest -> slice pos (pos + length raw) data = raw.
Proof. intros H. unfold slice. rewrite H. replace (pos + length raw - pos)%nat with (length raw) by lia. by rewrite take_app_length. Qed.

Lemma passes_spec {E} (v : option (Z -> bytes -> result E unit)) i raw :
  match v with None => Ok () | Some f => checked (f i raw) end = Ok () <-> passes v i raw.
Proof. unfold passes, checked. destruct v as [f|]; [|done]. destruct (f i raw) as [[]|]; done. Qed.

Lemma arrayElement_exact {E} (v : option (Z -> bytes -> result E unit)) data : wf_bytes data ->
  forall st i pos a st' pos', (pos <= length data)%nat ->
  arrayElement data v st i pos = Ok (a, st', pos') <->
  exists raw, drop pos data = raw ++ drop pos' data /\ pos' = (pos + length raw)%nat /\ array_element v st i raw a st'.
Proof.
  intros Hwf st i pos a st' pos' Hp. unfold arrayElement, array_element. split.
  - intros H. peel H. apply item_at in E0 as (raw & Hd & -> & Hi); [|done|done]. rewrite (slice_of _ _ _ _ Hd) in H.
    peel H. destruct v0. apply passes_spec in E0. simplify_eq. exists a. done.
  - intros (raw & Hd & -> & -> & Hi & Hv).
    rewrite (proj2 (item_at (E := E) i data pos (length raw) Hwf Hp)) by (by exists raw).
    cbn [mbind result_bind]. rewrite (slice_of _ _ _ _ Hd), (proj2 (passes_spec v i raw) Hv). by destruct st'.
Qed.

Lemma array_elements {E} (v : option (Z -> bytes -> result E unit)) st l body i :
  Elements (array_element v) st i l body <->
  body = concat l /\ Forall is_item l /\ forall k raw, l !! k = Some raw -> passes v (i + Z.of_nat k) raw.
Proof.
  split.
  - induction 1 as [|st i raw a st' l bs (-> & Hi & Hv) HE IH]; [by split_and!|]. destruct IH as (-> & HF & HP).
    split_and!; [done|by constructor|]. intros [|k] r Hk; [simplify_eq/=; by rewrite Z.add_0_r|].
    cbn in Hk. apply HP in Hk. by replace (i + Z.of_nat (S k)) with (i + 1 + Z.of_nat k) by lia.
  - intros (-> & HF & HP). revert st i HP. induction HF as [|raw l Hi HF IH]; intros st i HP; [constructor|].
    apply (E_cons st i raw raw () l (concat l)).
    + split_and!; [done|done|]. rewrite <- (Z.add_0_r i). by apply (HP 0%nat).
    + apply IH. intros k r Hk. replace (i + 1 + Z.of_nat k) with (i + Z.of_nat (S k)) by lia. by apply HP.
Qed.

(** [data] is an array with exactly [items] in it, under at most as many tags as
    may be nested, with nothing after it. *)
Definition ArrayOf (data : bytes) (items : list bytes) : Prop :=
  CollectionOf 4 data (blen items) (concat items) /\ Forall is_item items.

Lemma arrayItems_exact {E} data maxCount (v : option (Z -> bytes -> result E unit)) items :
  wf_bytes data -> 0 <= maxCount <= MaxInt32 ->
  arrayItems data maxCount v true = Ok items <->
  ArrayOf data items /\ blen items <= maxCount /\
  forall k raw, items !! k = Some raw -> passes v (Z.of_nat k) raw.
Proof.
  intros Hwf Hmax.
  assert (HW : walkCollection ArrayInfo data maxCount (arrayElement data v) () = Ok items <->
    exists body, CollectionOf 4 data (blen items) body /\ Elements (array_element v) () 0 items body /\ blen items <= maxCount).
  { apply (walkCollection_exact 4); try done; [|by apply arrayElement_exact|lia].
    intros st i raw a st' (_ & Hi & _). rewrite <- (app_nil_r raw) at 2. by apply is_item_start. }
  unfold arrayItems, ArrayOf. split.
  - intros H. peel H. simplify_eq. apply HW in E0 as (body & HC & HE & Hl). apply array_elements in HE as (-> & HF & HP). done.
  - intros ((HC & HF) & Hl & HP). rewrite (proj2 HW); [done|]. exists (concat items). split_and!; [done| |done].
    by apply array_elements.
Qed.

(** ** The loops end *)

Lemma walked_fuel {E A} i (r : result walkError A) : walked (E := E) i r <> Err PfOutOfFuel.
Proof. by destruct r. Qed.

Lemma skipTagsLoop_fuel {E} data : forall fuel pos depth,
  (length data - pos < fuel)%nat -> skipTagsLoop (E := E) fuel data pos depth <> Err PfOutOfFuel.
Proof.
  induction fuel as [|fuel IH]; intros pos depth Hf; [lia|]. cbn [skipTagsLoop].
  case_bool_decide; cbn [andb]; [|by case_bool_decide].
  destruct (_ =? _); [|by case_bool_decide]. destruct (_ <=? _); [done|].
  destruct (tagWidth _); [|done]. case_bool_decide; [done|]. apply IH. lia.
Qed.

Lemma collectionLoop_fuel {E A St} data maxCount count indef (element : St -> Z -> nat -> result (preflightError E) (A * St * nat)) :
  (forall st i pos, (pos <= length data)%nat ->
    match element st i pos with Ok (_, _, p) => (pos < p <= length data)%nat | Err e => e <> PfOutOfFuel end) ->
  forall fuel st pos idx, (pos <= length data)%nat -> (length data - pos < fuel)%nat ->
  collectionLoop fuel data maxCount count indef element st pos idx <> Err PfOutOfFuel.
Proof.
  intros He. induction fuel as [|fuel IH]; intros st pos idx Hp Hf; [lia|]. cbn [collectionLoop].
  destruct (_ && _); [done|].
  assert (next : ('(a, st, pos) ← element st idx pos;
     '(items, last) ← collectionLoop fuel data maxCount count indef element st pos (idx + 1);
     Ok (a :: items, last)) <> Err PfOutOfFuel).
  { specialize (He st idx pos Hp). destruct (element st idx pos) as [[[a st'] p]|e]; cbn [mbind result_bind]; [|congruence].
    specialize (IH st' p (idx + 1) ltac:(lia) ltac:(lia)).
    destruct (collectionLoop _ _ _ _ _ _ _ _ _) as [[? ?]|]; cbn [mbind result_bind]; [done|congruence]. }
  destruct indef; [|done]. case_bool_decide; [done|]. destruct (_ =? _); [done|]. by destruct (_ <=? _).
Qed.

Lemma element_progress {E A St} data (element : St -> Z -> nat -> result (preflightError E) (A * St * nat)) R :
  (forall st i raw a st', R st i raw a st' -> raw <> [] /\ byte_at raw 0 <> 0xff) ->
  (forall st i pos a st' pos', (pos <= length data)%nat ->
    element st i pos = Ok (a, st', pos') <->
    exists raw, drop pos data = raw ++ drop pos' data /\ pos' = (pos + length raw)%nat /\ R st i raw a st') ->
  (forall st i pos, element st i pos <> Err PfOutOfFuel) ->
  forall st i pos, (pos <= length data)%nat ->
    match element st i pos with Ok (_, _, p) => (pos < p <= length data)%nat | Err e => e <> PfOutOfFuel end.
Proof.
  intros Rs Re Hn st i pos Hp. specialize (Hn st i pos). destruct (element st i pos) as [[[a st'] p]|e] eqn:Ee; [|congruence].
  apply Re in Ee as (raw & Hd & -> & HR); [|done]. destruct (Rs _ _ _ _ _ HR) as [Hne _].
  pose proof (f_equal length Hd) as Hl. rewrite length_app, !length_drop in Hl. destruct raw; [done|]. simpl in *. lia.
Qed.

Lemma arrayElement_fuel {E} data (v : option (Z -> bytes -> result E unit)) st i pos :
  arrayElement data v st i pos <> Err PfOutOfFuel.
Proof.
  unfold arrayElement. pose proof (@walked_fuel E nat i (ItemLength (drop pos data))) as W.
  destruct (walked _ _); cbn [mbind result_bind]; [|congruence].
  destruct v as [f|]; cbn [mbind result_bind]; [|done]. unfold checked. by destruct (f _ _).
Qed.

Lemma array_element_start {E} (v : option (Z -> bytes -> result E unit)) st i raw a st' :
  array_element v st i raw a st' -> raw <> [] /\ byte_at raw 0 <> 0xff.
Proof. intros (_ & Hi & _). rewrite <- (app_nil_r raw) at 2. by apply is_item_start. Qed.

Lemma arrayItems_fuel {E} data maxCount (v : option (Z -> bytes -> result E unit)) collect :
  wf_bytes data -> arrayItems data maxCount v collect <> Err PfOutOfFuel.
Proof.
  intros Hwf. unfold arrayItems, walkCollection. destruct (decide _); [done|].
  pose proof (@skipTagsLoop_fuel E data (S (length data)) 0 0 ltac:(lia)) as S1. unfold skipTags.
  destruct (skipTagsLoop _ _ _ _) as [pos|] eqn:Es; cbn [mbind result_bind]; [|congruence].
  apply skipTagsLoop_sound in Es as (_ & tb & Hd & _ & -> & _); [|done].
  destruct (ArrayInfo _) as [[count size] ind] eqn:Ei. destruct (Z.ltb_spec count 0); [done|].
  destruct (_ && _); [done|].
  apply (info_sound 4) in Ei as (_ & _ & _ & _ & _ & _ & Hsz & _); [|by apply wf_bytes_drop|lia|done]. rewrite length_drop in Hsz.
  rewrite drop_0 in Hd. pose proof (f_equal length Hd) as Hl. rewrite length_app, length_drop in Hl.
  pose proof (collectionLoop_fuel data maxCount count ind _
    (element_progress data _ _ (array_element_start v) (arrayElement_exact v data Hwf) (arrayElement_fuel data v))
    (S (length data)) () (0 + length tb + size) 0 ltac:(lia) ltac:(lia)) as F.
  destruct (collectionLoop _ _ _ _ _ _ _ _ _) as [[items last]|]; cbn [mbind result_bind]; [by case_bool_decide|congruence].
Qed.

Lemma validateArray_exact {E} data maxCount (v : option (Z -> bytes -> result E unit)) :
  wf_bytes data -> 0 <= maxCount <= MaxInt32 ->
  validateArray data maxCount v = Ok () <->
  exists items, ArrayOf data items /\ blen items <= maxCount /\ forall k raw, items !! k = Some raw -> passes v (Z.of_nat k) raw.
Proof.
  intros Hwf Hmax. setoid_rewrite <- arrayItems_exact; [|done|done]. unfold validateArray, arrayItems.
  destruct (walkCollection _ _ _ _ _) as [items|e]; cbn [mbind result_bind].
  - split; [|done]. intros _. by exists items.
  - split; [done|]. by intros [? ?].
Qed.

Lemma ArrayOf_wf data items : wf_bytes data -> ArrayOf data items -> Forall wf_bytes items.
Proof.
  intros Hwf [(k & tb & hb & h & -> & _) _]. apply wf_bytes_app in Hwf as [_ Hwf]. apply wf_bytes_app in Hwf as [_ Hwf].
  apply wf_bytes_app in Hwf as [Hwf _]. induction items as [|i items IH]; [constructor|].
  cbn [concat] in Hwf. apply wf_bytes_app in Hwf as [? ?]. constructor; [done|by apply IH].
Qed.

(** [ValidateSecondFieldArray] decides the shape of a message: it accepts the
    data exactly when it is an array of two items, with nothing before, between or
    after them, whose second one is an array of at most [maxCount] items that
    pass the caller's check; it always ends. *)
Theorem second_field_exact {E} data maxCount (v : option (Z -> bytes -> result E unit)) :
  wf_bytes data -> 0 <= maxCount <= MaxInt32 ->
  (ValidateSecondFieldArray data maxCount v = Ok () <->
   exists first second items, ArrayOf data [first; second] /\ ArrayOf second items /\ blen items <= maxCount /\
     forall k raw, items !! k = Some raw -> passes v (Z.of_nat k) raw) /\
  ValidateSecondFieldArray data maxCount v <> Err PfOutOfFuel.
Proof.
  intros Hwf Hmax. unfold ValidateSecondFieldArray. split; [split|].
  - intros H. peel H. apply arrayItems_exact in E0 as (HA & _ & _); [|done|unfold MaxInt32; lia].
    destruct v0 as [|first [|second [|]]]; try done.
    apply validateArray_exact in H as (items & ? & ? & ?); [by exists first, second, items| |done].
    apply ArrayOf_wf in HA; [|done]. by apply Forall_cons in HA as [_ [? _]%Forall_cons].
  - intros (first & second & items & HA & HS & Hl & HP).
    rewrite (proj2 (arrayItems_exact (E := E) data 2 None [first; second] Hwf ltac:(unfold MaxInt32; lia))) by (by split_and!).
    cbn [mbind result_bind]. apply validateArray_exact; [|done|by exists items].
    apply ArrayOf_wf in HA; [|done]. by apply Forall_cons in HA as [_ [? _]%Forall_cons].
  - pose proof (arrayItems_fuel (E := E) data 2 None true Hwf) as F.
    destruct (arrayItems data 2 None true) as [fields|] eqn:EA; cbn [mbind result_bind]; [|congruence].
    apply arrayItems_exact in EA as (HA & _ & _); [|done|unfold MaxInt32; lia]. apply ArrayOf_wf in HA; [|done].
    destruct fields as [|first [|second [|]]]; try done. apply Forall_cons in HA as [_ [Hs _]%Forall_cons].
    unfold validateArray. pose proof (arrayItems_fuel second maxCount v false Hs) as F2.
    destruct (arrayItems second maxCount v false); cbn [mbind result_bind]; [done|congruence].
Qed.

(** An instance: [[1, [_ 2, "a"]]], with at most two elements allowed. *)
Lemma second_field_exact_witness :
  ValidateSecondFieldArray (E := unit) [0x82; 1; 0x9f; 2; 0x61; 0x61; 0xff] 2 None = Ok () /\
  exists first second items, ArrayOf [0x82; 1; 0x9f; 2; 0x61; 0x61; 0xff] [first; second] /\ ArrayOf second items /\ blen items <= 2.
Proof.
  assert (H : ValidateSecondFieldArray (E := unit) [0x82; 1; 0x9f; 2; 0x61; 0x61; 0xff] 2 None = Ok ()) by (vm_compute; reflexivity).
  split; [exact H|].
  destruct (second_field_exact (E := unit) [0x82; 1; 0x9f; 2; 0x61; 0x61; 0xff] 2 None) as [[T _] _].
  - repeat constructor; lia.
  - unfold MaxInt32. lia.
  - destruct (T H) as (first & second & items & ? & ? & ? & _). by exists first, second, items.
Defined.

(** ** The map of versions *)

Definition seen_has (seen : list Z) (v : Z) : bool := Z.testbit (nth (Z.to_nat (Z.shiftr v 3)) seen 0) (Z.land v 7).

Lemma land7 v : 0 <= v -> Z.land v 7 = v mod 8.
Proof. intros. change 7 with (Z.ones 3). by rewrite Z.land_ones by lia. Qed.

Lemma bit_mask v : 0 <= v -> u8 (Z.shiftl 1 (Z.land v 7)) = 2 ^ (v mod 8).
Proof.
  intros Hv. rewrite land7, Z.shiftl_mul_pow2, Z.mul_1_l by (try apply Z.mod_pos_bound; lia).
  pose proof (Z.mod_pos_bound v 8 ltac:(lia)). unfold u8. apply Z.mod_small. split; [apply Z.pow_nonneg; lia|].
  change 256 with (2 ^ 8). apply Z.pow_lt_mono_r; lia.
Qed.

Lemma land_bit c k : 0 <= k -> (Z.land c (2 ^ k) =? 0) = negb (Z.testbit c k).
Proof.
  intros Hk. destruct (Z.testbit c k) eqn:E; cbn [negb].
  - apply Z.eqb_neq. intros E0. assert (B : Z.testbit (Z.land c (2 ^ k)) k = true) by (rewrite Z.land_spec, E, Z.pow2_bits_true by lia; done).
    rewrite E0, Z.bits_0 in B. done.
  - apply Z.eqb_eq. apply Z.bits_inj'. intros n Hn. rewrite Z.land_spec, Z.bits_0, Z.pow2_bits_eqb by lia.
    destruct (Z.eqb_spec k n) as [<-|]; [by rewrite E|by rewrite andb_false_r].
Qed.

(** Setting the bit of one version sets no other. *)
Lemma seen_set seen v w : length seen = Z.to_nat 8192 -> 0 <= v <= MaxUint16 -> 0 <= w <= MaxUint16 ->
  let '(byteIndex, bit) := seenBit v in
  seen_has (<[byteIndex := Z.lor (nth byteIndex seen 0) bit]> seen) w = (w =? v) || seen_has seen w.
Proof.
  intros Hl Hv Hw. unfold seenBit, seen_has, MaxUint16 in *. rewrite bit_mask by lia. rewrite !land7 by lia.
  rewrite !Z.shiftr_div_pow2 by lia. change (2 ^ 3) with 8.
  pose proof (Z.div_pos v 8). pose proof (Z.div_pos w 8). pose proof (Z.div_mod v 8 ltac:(lia)). pose proof (Z.div_mod w 8 ltac:(lia)).
  pose proof (Z.mod_pos_bound v 8 ltac:(lia)). pose proof (Z.mod_pos_bound w 8 ltac:(lia)).
  assert (Z.to_nat (v / 8) < length seen)%nat by (rewrite Hl; apply Z2Nat.inj_lt; [lia|lia|apply Z.div_lt_upper_bound; lia]).
  rewrite !nth_lookup. destruct (Z.eq_dec (v / 8) (w / 8)) as [E|N].
  - rewrite E in *. rewrite list_lookup_insert_eq by lia. cbn [default from_option id]. rewrite Z.lor_spec, Z.pow2_bits_eqb by lia.
    rewrite orb_comm. f_equal. zbool; lia || done.
  - rewrite list_lookup_insert_ne by lia. rewrite (proj2 (Z.eqb_neq w v)) by congruence. done.
Qed.

Lemma decodeHandshakeUnsigned_exact data maxValue v n : wf_bytes data ->
  decodeHandshakeUnsigned data maxValue = Ok (v, n) <->
  exists hb h, data = hb ++ drop n data /\ n = length hb /\ HeadOf hb h /\ Major h = 0 /\ v = Argument h /\ v <= maxValue.
Proof.
  intros Hwf. unfold decodeHandshakeUnsigned. split.
  - intros H. destruct (ReadHead data 0) as [[h|]|] eqn:ER; try done.
    destruct (negb (Major h =? 0) || Indefinite h || IsBreak h) eqn:E; [done|]. destruct (Z.ltb_spec maxValue (Argument h)); [done|].
    simplify_eq. destruct (ReadHead_split _ _ _ Hwf ER) as (hb & Hd & Hh & _). rewrite drop_0 in Hd.
    exists hb, h. destruct Hh as [? Hsz]. apply orb_false_iff in E as [[E _]%orb_false_iff _].
    apply negb_false_iff, Z.eqb_eq in E. split_and!; done.
  - intros (hb & h & Hd & -> & Hh & Hm & -> & Hle). rewrite Hd, (ReadHead_app _ _ _ Hh), Hm.
    assert (Hwh : wf_bytes hb) by (rewrite Hd in Hwf; by apply wf_bytes_app in Hwf as [? _]).
    destruct (HeadOf_ranges _ _ Hwh Hh) as (_ & _ & Hi). destruct (Indefinite h); [destruct (Hi eq_refl); lia|].
    destruct (IsBreak h) eqn:Eb; [destruct Hh as [Hh _]; unfold ReadHead in Hh; repeat case_match; simplify_eq; cbn in *; congruence || lia|].
    cbn. destruct (Z.ltb_spec maxValue (Argument h)); [lia|]. by destruct Hh as [_ ->].
Qed.

(** An entry of the map: the version, then its data. *)
Definition version_entry (v : Z) (raw : bytes) : Prop :=
  exists hb h val, raw = hb ++ val /\ HeadOf hb h /\ Major h = 0 /\ v = Argument h /\ v <= MaxUint16 /\ is_item val.

Definition version_element (seen : list Z) (_ : Z) (raw : bytes) (v : Z) (seen' : list Z) : Prop :=
  version_entry v raw /\ Z.land (nth (seenBit v).1 seen 0) (seenBit v).2 = 0 /\
  seen' = <[(seenBit v).1 := Z.lor (nth (seenBit v).1 seen 0) (seenBit v).2]> seen.

Lemma versionElement_exact data : wf_bytes data -> forall seen i pos v seen' pos', (pos <= length data)%nat ->
  versionElement data seen i pos = Ok (v, seen', pos') <->
  exists raw, drop pos data = raw ++ drop pos' data /\ pos' = (pos + length raw)%nat /\ version_element seen i raw v seen'.
Proof.
  intros Hwf seen i pos v seen' pos' Hp. unfold versionElement, version_element, version_entry.
  assert (Hwd : wf_bytes (drop pos data)) by (by apply wf_bytes_drop). split.
  - intros H. peel H. destruct v0 as [ver n]. apply decodeHandshakeUnsigned_exact in E as (hb & h & Hd & -> & Hh & Hm & -> & Hle); [|done].
    rewrite drop_drop in Hd. pose proof (f_equal length Hd) as Hl. rewrite length_app, !length_drop in Hl. pose proof (HeadOf_length _ _ Hh).
    destruct (seenBit (Argument h)) as [byteIndex bit] eqn:Eb. destruct (Z.eqb_spec (Z.land (nth byteIndex seen 0) bit) 0) as [E0|]; cbn [negb] in H; [|done].
    peel H. apply item_at in E as (val & Hd' & -> & Hi); [|done|lia]. simplify_eq. rewrite Eb. cbn [fst snd].
    exists (hb ++ val). rewrite length_app. split_and!; [|lia| |done|done].
    + by rewrite Hd, Hd', <- app_assoc.
    + exists hb, h, val. split_and!; done.
  - intros (raw & Hd & -> & (hb & h & val & -> & Hh & Hm & -> & Hle & Hi) & Hb & ->). rewrite length_app in *. rewrite <- app_assoc in Hd.
    assert (Hd' : drop (pos + length hb) data = val ++ drop (pos + (length hb + length val)) data)
      by (rewrite <- (drop_drop data (length hb) pos), Hd; by rewrite drop_app_length).
    rewrite (proj2 (decodeHandshakeUnsigned_exact (drop pos data) MaxUint16 (Argument h) (length hb) Hwd)).
    2:{ exists hb, h. rewrite drop_drop, Hd'. split_and!; done. }
    cbn [mbind result_bind]. pose proof (f_equal length Hd) as Hl. rewrite !length_app, !length_drop in Hl. pose proof (HeadOf_length _ _ Hh).
    destruct (seenBit (Argument h)) as [byteIndex bit] eqn:Eb. cbn [fst snd] in *. rewrite Hb. cbn [Z.eqb negb].
    rewrite (proj2 (item_at i data (pos + length hb) (length val) Hwf ltac:(lia))).
    2:{ exists val. replace (pos + length hb + length val)%nat with (pos + (length hb + length val))%nat by lia. done. }
    cbn [mbind result_bind]. do 2 f_equal. lia.
Qed.

Lemma version_entry_nonneg v raw : wf_bytes raw -> version_entry v raw -> 0 <= v <= MaxUint16.
Proof.
  intros Hwf (hb & h & val & -> & Hh & _ & -> & Hle & _). apply wf_bytes_app in Hwf as [Hwf _].
  destruct (HeadOf_ranges _ _ Hwf Hh) as ([? _] & _). lia.
Qed.

(** The bitmap holds exactly the versions of the set [S]. *)
Definition seen_is (seen : list Z) (S : list Z) : Prop :=
  length seen = Z.to_nat 8192 /\ forall w, 0 <= w <= MaxUint16 -> seen_has seen w = bool_decide (w ∈ S).

Lemma seen_free seen S v : seen_is seen S -> 0 <= v <= MaxUint16 ->
  (Z.land (nth (seenBit v).1 seen 0) (seenBit v).2 = 0 <-> v ∉ S) /\
  seen_is (<[(seenBit v).1 := Z.lor (nth (seenBit v).1 seen 0) (seenBit v).2]> seen) (v :: S).
Proof.
  intros [Hl HS] Hv. pose proof (fun w => seen_set seen v w Hl Hv) as Hset.
  split.
  - unfold seenBit. cbn [fst snd]. rewrite bit_mask by lia. rewrite <- Z.eqb_eq, land_bit by (apply Z.mod_pos_bound; lia).
    specialize (HS v Hv). unfold seen_has in HS. rewrite land7 in HS by lia. rewrite HS. case_bool_decide; cbn; naive_solver.
  - split; [by rewrite length_insert|]. intros w Hw. specialize (Hset w Hw). unfold seenBit in Hset |- *. cbn [fst snd] in *.
    rewrite Hset, (HS w Hw). clear Hset. destruct (Z.eqb_spec w v) as [Ew|N]; cbn [orb].
    + subst w. symmetry. apply bool_decide_eq_true. by left.
    + apply bool_decide_ext. rewrite elem_of_cons. naive_solver.
Qed.

Lemma version_elements : forall l seen i body S, wf_bytes body -> seen_is seen S ->
  Elements version_element seen i l body <->
  exists raws, body = concat raws /\ Forall2 version_entry l raws /\ NoDup l /\ forall v, v ∈ l -> v ∉ S.
Proof.
  induction l as [|v l IH]; intros seen i body S Hwf HS.
  - split.
    + inversion 1; subst. exists []. split_and!; [done|constructor|constructor|by intros v ?%elem_of_nil].
    + intros (raws & -> & HF & _). inversion HF; subst. constructor.
  - split.
    + inversion 1 as [|? ? raw a seen' ? bs (He & Hfree & ->) HE]; subst. apply wf_bytes_app in Hwf as [Hw1 Hw2].
      pose proof (version_entry_nonneg _ _ Hw1 He) as Hv. destruct (seen_free _ _ _ HS Hv) as [F1 F2].
      apply (IH _ _ _ _ Hw2 F2) in HE as (raws & -> & HF & HN & Hd). exists (raw :: raws).
      split_and!; [done|by constructor| |].
      * constructor; [|done]. intros Hin. apply (Hd _ Hin). by left.
      * intros w [->|Hw]%elem_of_cons; [by apply F1|]. intros ?. apply (Hd _ Hw). by right.
    + intros (raws & -> & HF & HN & Hd). inversion HF as [|? raw ? raws' He HF']; subst. cbn [concat] in *.
      apply wf_bytes_app in Hwf as [Hw1 Hw2]. pose proof (version_entry_nonneg _ _ Hw1 He) as Hv. destruct (seen_free _ _ _ HS Hv) as [F1 F2].
      apply NoDup_cons in HN as [Hn HN].
      apply (E_cons _ _ raw v (<[(seenBit v).1 := Z.lor (nth (seenBit v).1 seen 0) (seenBit v).2]> seen)).
      * split_and!; [done|apply F1, Hd; by left|done].
      * apply (IH _ _ _ _ Hw2 F2). exists raws'. split_and!; try done. intros w Hw [->|HwS]%elem_of_cons; [done|]. by apply (Hd w); [right|].
Qed.

(** ** Whole messages *)

Lemma handshakeInfo_exact m data count size ind : wf_bytes data -> (m = 4 \/ m = 5) ->
  handshakeCollectionInfo data m = Ok (count, size, ind) <->
  exists hb h, data = hb ++ drop size data /\ HeadOf hb h /\ Major h = m /\ size = length hb /\
    ind = Indefinite h /\ count = Argument h /\ count <= MaxInt32.
Proof.
  intros Hwf Hm. unfold handshakeCollectionInfo, ArrayInfo, MapInfo.
  assert (EI : (if m =? 4 then collectionInfo CborTypeArray data else collectionInfo CborTypeMap data) = collectionInfo (32 * m) data)
    by (by destruct Hm as [->| ->]).
  rewrite EI, collectionInfo_head by done. clear EI. split.
  - intros H. destruct (ReadHead data 0) as [[h|]|] eqn:ER; try done. destruct (_ || _); [done|].
    destruct (ReadHead_split _ _ _ Hwf ER) as (hb & Hd & Hh & _ & _ & _ & Ha & _). rewrite drop_0 in Hd.
    destruct ((Major h =? m) && (Argument h <=? MaxInt32)) eqn:E; cbn [Z.ltb] in H; [|done].
    apply andb_true_iff in E as [E1%Z.eqb_eq E2%Z.leb_le]. rewrite (proj2 (Z.ltb_ge _ _)) in H by lia. simplify_eq.
    exists hb, h. destruct Hh as [? Hsz]. split_and!; done.
  - intros (hb & h & Hd & Hh & HM & -> & -> & -> & Hle). rewrite Hd, (ReadHead_app _ _ _ Hh), HM, Z.eqb_refl.
    assert (Hwh : wf_bytes hb) by (rewrite Hd in Hwf; by apply wf_bytes_app in Hwf as [? _]).
    destruct (HeadOf_ranges _ _ Hwh Hh) as ([Ha _] & _ & _). rewrite (proj2 (Z.leb_le _ _)) by lia. cbn [negb andb orb].
    destruct (IsBreak h) eqn:Eb; [destruct Hh as [Hh _]; unfold ReadHead in Hh; repeat case_match; simplify_eq; cbn in *; lia|].
    rewrite (proj2 (Z.ltb_ge _ _)) by lia. by destruct Hh as [_ ->].
Qed.

(** A message: the head of an array of two, its type, and the second field, each
    under tags. *)
Definition SecondField (data field : bytes) : Prop :=
  exists k tb hb h thb th k2 tb2, data = tb ++ hb ++ thb ++ tb2 ++ field /\
    Tags k tb /\ Z.of_nat k <= MaxNestedLevels /\ HeadOf hb h /\ Major h = 4 /\ (Indefinite h = false -> Argument h = 2) /\
    HeadOf thb th /\ Major th = 0 /\ Tags k2 tb2 /\ Z.of_nat k2 <= MaxNestedLevels /\ untagged field.

Lemma secondField_exact data field : wf_bytes data -> handshakeSecondField data = Ok field <-> SecondField data field.
Proof.
  intros Hwf. unfold handshakeSecondField, skipHandshakeTags, SecondField. split.
  - intros H. peel H. apply skipTags_exact in E as (k & tb & Hd & Ht & -> & Hk & _); [|done]. rewrite drop_0 in Hd. cbn [Nat.add] in *.
    peel H. destruct v as [[count size] ind]. apply handshakeInfo_exact in E as (hb & h & Hb & Hh & HM & -> & -> & -> & _); [|by apply wf_bytes_drop|lia].
    rewrite drop_drop in Hb. destruct (negb (Indefinite h) && negb (Argument h =? 2)) eqn:E2; [done|].
    peel H. destruct v as [ty n]. apply decodeHandshakeUnsigned_exact in E as (thb & th & Hb2 & -> & Hth & HM2 & _); [|by apply wf_bytes_drop].
    rewrite drop_drop in Hb2. peel H. apply skipTags_exact in E as (k2 & tb2 & Hd2 & Ht2 & -> & Hk2 & Hu); [|done]. simplify_eq.
    exists k, tb, hb, h, thb, th, k2, tb2. split_and!; try done; [by rewrite <- Hd2, <- Hb2, <- Hb, <- Hd|].
    intros Hi. rewrite Hi in E2. cbn [negb andb] in E2. apply negb_false_iff in E2. lia.
  - intros (k & tb & hb & h & thb & th & k2 & tb2 & Hd & Ht & Hk & Hh & HM & Hc & Hth & HM2 & Ht2 & Hk2 & Hu).
    assert (D1 : drop (length tb) data = hb ++ thb ++ tb2 ++ field) by (by rewrite Hd, drop_app_length).
    assert (D2 : drop (length tb + length hb) data = thb ++ tb2 ++ field) by (by rewrite <- drop_drop, D1, drop_app_length).
    assert (D3 : drop (length tb + length hb + length thb) data = tb2 ++ field) by (by rewrite <- drop_drop, D2, drop_app_length).
    assert (D4 : drop (length tb + length hb + length thb + length tb2) data = field) by (by rewrite <- drop_drop, D3, drop_app_length).
    rewrite (proj2 (skipTags_exact data 0 (length tb) Hwf)).
    2:{ exists k, tb. rewrite drop_0, D1. split_and!; try done. eapply collection_untagged; [done|done|lia]. }
    cbn [mbind result_bind].
    assert (Ha : Argument h = if Indefinite h then 0 else 2).
    { destruct (Indefinite h) eqn:Ei; [|by apply Hc]. destruct Hh as [Hh _]. unfold ReadHead in Hh. repeat case_match; simplify_eq; done. }
    rewrite (proj2 (handshakeInfo_exact 4 _ (Argument h) (length hb) (Indefinite h) (wf_bytes_drop _ _ Hwf) ltac:(lia))).
    2:{ exists hb, h. rewrite drop_drop, D2, D1. split_and!; try done. rewrite Ha. unfold MaxInt32. destruct (Indefinite h); lia. }
    cbn [mbind result_bind]. rewrite Ha.
    assert (E0 : negb (Indefinite h) && negb ((if Indefinite h then 0 else 2) =? 2) = false) by (by destruct (Indefinite h)).
    rewrite E0. clear E0.
    assert (Hwt : wf_bytes thb) by (pose proof (wf_bytes_drop (length tb + length hb) _ Hwf) as W; rewrite D2 in W; by apply wf_bytes_app in W as [? _]).
    destruct (HeadOf_ranges _ _ Hwt Hth) as (Hr & _).
    rewrite (proj2 (decodeHandshakeUnsigned_exact _ MaxUint64 (Argument th) (length thb) (wf_bytes_drop _ _ Hwf))).
    2:{ exists thb, th. rewrite drop_drop, D3, D2. split_and!; try done. lia. }
    cbn [mbind result_bind].
    rewrite (proj2 (skipTags_exact data _ (length tb + length hb + length thb + length tb2) Hwf)).
    2:{ exists k2, tb2. rewrite D3, D4. done. }
    cbn [mbind result_bind]. by rewrite D4.
Qed.

Lemma emptySeen_is : seen_is emptySeen [].
Proof.
  split; [apply length_replicate|]. intros w Hw. rewrite bool_decide_false by apply not_elem_of_nil.
  unfold seen_has, emptySeen. rewrite nth_lookup. destruct (_ !! _) eqn:E; cbn [default from_option id]; [|apply Z.bits_0].
  apply lookup_replicate in E as [-> _]. apply Z.bits_0.
Qed.

(** A message whose second field is a map of [versions], in the order of the
    message. *)
Definition VersionMapMessage (data : bytes) (versions : list Z) : Prop :=
  exists field hb h raws rest, SecondField data field /\ field = hb ++ concat raws ++ closing (Indefinite h) ++ rest /\
    HeadOf hb h /\ Major h = 5 /\ (Indefinite h = false -> Argument h = blen versions) /\ Forall2 version_entry versions raws.

Lemma version_element_start seen i raw v seen' : version_element seen i raw v seen' -> raw <> [] /\ byte_at raw 0 <> 0xff.
Proof.
  intros ((hb & h & val & -> & Hh & Hm & _) & _). pose proof (HeadOf_length _ _ Hh).
  split; [destruct hb; simpl in *; [lia|done]|]. pose proof (head_first_byte hb h val Hh) as E. rewrite Hm in E. intros E2. rewrite E2 in E. done.
Qed.

Lemma versionKeys_exact data versions : wf_bytes data ->
  versionKeys data = Ok versions <->
  VersionMapMessage data versions /\ NoDup versions /\ blen versions <= maxHandshakeVersions.
Proof.
  intros Hwf. unfold versionKeys, VersionMapMessage. change maxHandshakeVersions with 2877. split.
  - intros H. peel H. pose proof E as HSF. apply secondField_exact in HSF; [|done].
    assert (Hwf2 : wf_bytes v) by (destruct HSF as (? & ? & ? & ? & ? & ? & ? & ? & -> & _); repeat (apply wf_bytes_app in Hwf as [_ Hwf]); done).
    peel H. destruct v0 as [[count size] ind].
    apply handshakeInfo_exact in E0 as (hb & h & Hb & Hh & HM & -> & -> & -> & Hle); [|done|lia].
    destruct (negb (Indefinite h) && (2877 <? Argument h)) eqn:Et; [done|]. peel H. destruct v0 as [l last]. simplify_eq.
    assert (Hsz : (length hb <= length v)%nat) by (rewrite Hb, length_app; lia).
    assert (Hwh : wf_bytes hb) by (rewrite Hb in Hwf2; by apply wf_bytes_app in Hwf2 as [? _]).
    destruct (HeadOf_ranges _ _ Hwh Hh) as ([Ha _] & _ & _).
    eapply collectionLoop_sound in E0 as (body & Hbd & Hlen & Hlast & HE & Hc);
      [|apply version_element_start|apply versionElement_exact, Hwf2|done|destruct (Indefinite h); lia].
    apply (version_elements _ _ _ _ []) in HE as (raws & -> & HF & HN & _); [| |apply emptySeen_is].
    2:{ pose proof (wf_bytes_drop (length hb) _ Hwf2) as W. rewrite Hbd in W. by apply wf_bytes_app in W as [? _]. }
    split_and!; [|done|].
    + exists v, hb, h, raws, (drop last v). split_and!; try done; [by rewrite <- Hbd|]. intros Hi. rewrite Hi in Hc. cbn in Hc. lia.
    + unfold counts in Hc. destruct (Indefinite h); cbn [negb andb] in Et; [lia|]. apply Z.ltb_ge in Et. lia.
  - intros ((field & hb & h & raws & rest & HSF & Hf & Hh & HM & Hc & HF) & HN & Hle).
    rewrite (proj2 (secondField_exact data field Hwf) HSF). cbn [mbind result_bind].
    assert (Hwf2 : wf_bytes field) by (destruct HSF as (? & ? & ? & ? & ? & ? & ? & ? & -> & _); repeat (apply wf_bytes_app in Hwf as [_ Hwf]); done).
    assert (Hd : drop (length hb) field = concat raws ++ closing (Indefinite h) ++ rest) by (by rewrite Hf, drop_app_length).
    assert (Ha : Argument h = if Indefinite h then 0 else blen versions).
    { destruct (Indefinite h) eqn:Ei; [|by apply Hc]. destruct Hh as [Hh _]. unfold ReadHead in Hh. repeat case_match; simplify_eq; done. }
    pose proof (blen_nonneg versions).
    rewrite (proj2 (handshakeInfo_exact 5 field (Argument h) (length hb) (Indefinite h) Hwf2 ltac:(lia))).
    2:{ exists hb, h. rewrite Hd. split_and!; try done. rewrite Ha. unfold MaxInt32. destruct (Indefinite h); lia. }
    cbn [mbind result_bind].
    assert (E0 : negb (Indefinite h) && (2877 <? Argument h) = false) by (rewrite Ha; destruct (Indefinite h); [done|]; apply Z.ltb_ge; lia).
    rewrite E0. assert (Hsz : (length hb <= length field)%nat) by (rewrite Hf, length_app; lia).
    erewrite (collectionLoop_complete field 2877 _ _ _ version_element version_element_start (versionElement_exact field Hwf2)
      emptySeen 0 versions (concat raws)); [done| |done|lia|exact Hd|].
    + apply (version_elements _ _ _ _ []); [|apply emptySeen_is|].
      * pose proof (wf_bytes_drop (length hb) _ Hwf2) as W. rewrite Hd in W. by apply wf_bytes_app in W as [? _].
      * exists raws. split_and!; try done. by intros v _ ?%elem_of_nil.
    + unfold counts. rewrite Ha. destruct (Indefinite h); lia.
Qed.

(** C16. Before a proposal of versions or a reply to a query is decoded, its map is
    known to be sound: the check passes exactly on one complete item of at most
    four levels whose second field is a map of at most 2877 versions, each a
    16-bit number that occurs once, each with one complete item as its data. *)
Theorem version_map_exact data msgType :
  wf_bytes data -> (msgType = 0 \/ msgType = 3) ->
  preflightMsg msgType data = Some (Ok ()) <->
  (exists versions, VersionMapMessage data versions /\ NoDup versions /\ blen versions <= maxHandshakeVersions) /\
  exists h, Item true 4 data h.
Proof.
  intros Hwf Ht. setoid_rewrite <- versionKeys_exact; [|done]. unfold preflightMsg.
  replace ((msgType <? 0) || (3 <? msgType)) with false by (destruct Ht as [->| ->]; done).
  replace ((msgType =? 0) || (msgType =? 3)) with true by (destruct Ht as [->| ->]; done).
  unfold validateVersionMapMessage, ValidateItemDepth.
  assert (HI : (length ← walked (E := handshakeWalkError) 0 (ItemLengthWithin data 4); if bool_decide (length = List.length data) then Ok () else Err PfTrailing) = Ok () <->
    exists h, Item true 4 data h).
  { split.
    - intros H. peel H. unfold walked in E. destruct (ItemLengthWithin data 4) as [n|] eqn:Ei; simplify_eq.
      case_bool_decide as Hl; [|done]. apply item_length_sound in Ei as (item & rest & h & Hd & Hn & Hi); [|done|lia].
      assert (rest = []) as -> by (destruct rest; [done|]; rewrite Hd in Hl; rewrite length_app in Hl; simpl in Hl; lia).
      rewrite app_nil_r in Hd. subst item. by exists h.
    - intros [h Hi]. pose proof (item_length_complete data [] h 4) as L. rewrite !app_nil_r in L. rewrite L by (done || lia).
      cbn. by rewrite bool_decide_true. }
  destruct (versionKeys data) as [versions|e]; cbn [mbind result_bind].
  - rewrite <- HI. split; [intros [= H]; split; [by exists versions|done]|]. intros [_ ->]. done.
  - split; [done|]. intros [[? ?] _]. done.
Qed.

(** Witness of C16: a proposal of the versions 7 and 32784. *)
Lemma version_map_exact_witness :
  preflightMsg 0 [0x82; 0; 0xa2; 7; 0x80; 0x19; 0x80; 0x10; 1] = Some (Ok ()) /\
  exists versions, VersionMapMessage [0x82; 0; 0xa2; 7; 0x80; 0x19; 0x80; 0x10; 1] versions /\ NoDup versions.
Proof.
  assert (H : preflightMsg 0 [0x82; 0; 0xa2; 7; 0x80; 0x19; 0x80; 0x10; 1] = Some (Ok ())) by (vm_compute; reflexivity).
  split; [exact H|]. destruct (version_map_exact [0x82; 0; 0xa2; 7; 0x80; 0x19; 0x80; 0x10; 1] 0) as [T _].
  - repeat constructor; lia.
  - by left.
  - destruct (T H) as [(versions & ? & ? & _) _]. by exists versions.
Defined.
