(* ===== verification/Scanner.v ===== *)
(** * The incremental message scanner (src/protocol/message_scanner.go)

    [scan] walks the bytes buffered so far and keeps its position, so that each
    byte of a message that arrives in many segments is looked at once. A message
    is a CBOR array whose first item, if there is one, is an unsigned integer:
    the grammar [Message] says which byte strings those are. *)

From S2P Require Import Prelude Cborwalk.

Record messageScanFrame := mkScanFrame {
  frameRemaining : Z;      (* uint64 *)
  frameIndefinite : bool
}.

(** The head of [frames] is the last element of the Go slice. *)
Record messageScanner := mkScanner {
  offset : nat;
  frames : list messageScanFrame;
  started : bool;
  complete : bool;
  pendingBytes : Z;        (* uint64 *)
  rootItems : Z;           (* uint64 *)
  messageType : Z;         (* uint *)
  hasMessageType : bool;
  processedBytes : nat
}.

Definition newScanner : messageScanner := mkScanner 0 [] false false 0 0 0 false 0.

Record messageScanResult := mkScanResult {
  resMessageType : Z;
  resHasMessageType : bool;
  resStarted : bool;
  messageLength : nat;
  resComplete : bool;
  oversized : bool
}.

Inductive scanError :=
| ErrShrank | ErrNotArray | ErrTypeNotUint | ErrTypeRange | ErrInteger | ErrBreak
| ErrScanMapLength | ErrScanTag | ErrScanMajor | ErrScanDepth
| ErrHead (e : walkError) | ErrScanFuel.

(** ** Field updates *)

Definition with_frames (fs : list messageScanFrame) (s : messageScanner) : messageScanner :=
  mkScanner (offset s) fs (started s) (complete s) (pendingBytes s) (rootItems s)
    (messageType s) (hasMessageType s) (processedBytes s).

Definition with_pending (p : Z) (s : messageScanner) : messageScanner :=
  mkScanner (offset s) (frames s) (started s) (complete s) p (rootItems s)
    (messageType s) (hasMessageType s) (processedBytes s).

Definition set_complete (s : messageScanner) : messageScanner :=
  mkScanner (offset s) (frames s) (started s) true (pendingBytes s) (rootItems s)
    (messageType s) (hasMessageType s) (processedBytes s).

Definition set_started (s : messageScanner) : messageScanner :=
  mkScanner (offset s) (frames s) true (complete s) (pendingBytes s) (rootItems s)
    (messageType s) (hasMessageType s) (processedBytes s).

Definition set_type (t : Z) (s : messageScanner) : messageScanner :=
  mkScanner (offset s) (frames s) (started s) (complete s) (pendingBytes s) (rootItems s)
    t true (processedBytes s).

Definition count_root (s : messageScanner) : messageScanner :=
  mkScanner (offset s) (frames s) (started s) (complete s) (pendingBytes s)
    (u64 (rootItems s + 1)) (messageType s) (hasMessageType s) (processedBytes s).

(** [s.offset += n; s.processedBytes += m]. *)
Definition advance (n m : nat) (s : messageScanner) : messageScanner :=
  mkScanner (offset s + n) (frames s) (started s) (complete s) (pendingBytes s) (rootItems s)
    (messageType s) (hasMessageType s) (processedBytes s + m).

(** ** Operations *)

Definition pushFrame (f : messageScanFrame) (s : messageScanner)
    : result scanError messageScanner :=
  if MaxNestedLevels <=? blen (frames s) then Err ErrScanDepth
  else Ok (with_frames (f :: frames s) s).

(** The loop of [finishItem] over the stack. *)
Fixpoint finishFrames (fs : list messageScanFrame) : list messageScanFrame :=
  match fs with
  | [] => []
  | f :: below => if frameIndefinite f || (0 <? frameRemaining f) then fs else finishFrames below
  end.

Definition finishItem (s : messageScanner) : messageScanner :=
  let s := with_frames (finishFrames (frames s)) s in
  match frames s with [] => set_complete s | _ => s end.

Definition exceedsLimit (maxBytes : Z) (s : messageScanner) : bool :=
  if maxBytes <=? 0 then false
  else if maxBytes <? Z.of_nat (offset s) then true
  else u64 (maxBytes - Z.of_nat (offset s)) <? pendingBytes s.

Definition scanResult (maxBytes : Z) (s : messageScanner) : messageScanResult :=
  mkScanResult (messageType s) (hasMessageType s) (started s) (offset s) (complete s)
    (exceedsLimit maxBytes s).

(** One turn of the loop of [scan]: go round again, or return with or without
    an error. The error leaves the scanner in the state it has reached. *)
Inductive turn :=
| Continue (s : messageScanner)
| Return (s : messageScanner) (e : option scanError).

Definition return_if_complete (s : messageScanner) : turn :=
  if complete s then Return s None else Continue s.

(** [if err := s.pushFrame(f); err != nil { return ... err }; k]. *)
Definition pushing (f : messageScanFrame) (s : messageScanner) (k : messageScanner -> turn) : turn :=
  match pushFrame f s with Err e => Return s (Some e) | Ok s => k s end.

Definition scanPending (data : bytes) (s : messageScanner) : turn :=
  let available := blen data - Z.of_nat (offset s) in
  let consumed := Z.min available (pendingBytes s) in
  let s := with_pending (pendingBytes s - consumed)
             (advance (Z.to_nat consumed) (Z.to_nat consumed) s) in
  if 0 <? pendingBytes s then Return s None
  else return_if_complete (finishItem s).

Definition scanRoot (data : bytes) (maxBytes : Z) (s : messageScanner) : turn :=
  match ReadHead data (offset s) with
  | Err e => Return s (Some (ErrHead e))
  | Ok None => Return s None
  | Ok (Some head) =>
    if negb (Major head =? 4) || IsBreak head then Return s (Some ErrNotArray) else
    let s := advance (EncodedSize head) (EncodedSize head) s in
    if exceedsLimit maxBytes s then Return s None else
    let s := set_started s in
    if Indefinite head then pushing (mkScanFrame 0 true) s Continue
    else pushing (mkScanFrame (Argument head) false) s (fun s => return_if_complete (finishItem s))
  end.

(** The switch on the head's major type, after the head has been counted. *)
Definition scanSwitch (head : Head) (s : messageScanner) (k : messageScanner -> turn) : turn :=
  let fail e := Return s (Some e) in
  if (Major head =? 0) || (Major head =? 1) then
    if Indefinite head || IsBreak head then fail ErrInteger else k (finishItem s)
  else if (Major head =? 2) || (Major head =? 3) then
    if IsBreak head then fail ErrBreak
    else if Indefinite head then pushing (mkScanFrame 0 true) s k
    else let s := with_pending (Argument head) s in
         k (if pendingBytes s =? 0 then finishItem s else s)
  else if Major head =? 4 then
    if IsBreak head then fail ErrBreak
    else pushing (mkScanFrame (Argument head) (Indefinite head)) s (fun s => k (finishItem s))
  else if Major head =? 5 then
    if IsBreak head then fail ErrBreak
    else if negb (Indefinite head) && (MaxUint64 / 2 <? Argument head) then fail ErrScanMapLength
    else pushing (mkScanFrame (u64 (Argument head * 2)) (Indefinite head)) s
           (fun s => k (finishItem s))
  else if Major head =? 6 then
    if Indefinite head || IsBreak head then fail ErrScanTag
    else pushing (mkScanFrame 1 false) s k
  else if Major head =? 7 then
    if IsBreak head then fail ErrBreak else k (finishItem s)
  else fail ErrScanMajor.

(** [parent.remaining--] on the top frame, unless it is indefinite. *)
Definition decParent (parent : messageScanFrame) : messageScanFrame :=
  if frameIndefinite parent then parent
  else mkScanFrame (u64 (frameRemaining parent - 1)) (frameIndefinite parent).

Definition scanItem (data : bytes) (maxBytes : Z) (parent : messageScanFrame)
    (below : list messageScanFrame) (s : messageScanner) : turn :=
  match ReadHead data (offset s) with
  | Err e => Return s (Some (ErrHead e))
  | Ok None => Return s None
  | Ok (Some head) =>
    let atRoot := blen (frames s) =? 1 in
    let firstRootItem := atRoot && (rootItems s =? 0) in
    if firstRootItem && (negb (Major head =? 0) || Indefinite head || IsBreak head)
    then Return s (Some ErrTypeNotUint)
    else if firstRootItem && (MaxUint64 <? Argument head) then Return s (Some ErrTypeRange)
    else
    let s := if firstRootItem then set_type (Argument head) s else s in
    let s := with_frames (decParent parent :: below) s in
    let s := if atRoot then count_root s else s in
    let s := advance (EncodedSize head) (EncodedSize head) s in
    if exceedsLimit maxBytes s then Return s None else
    scanSwitch head s (fun s =>
      if firstRootItem then Return s None else return_if_complete s)
  end.

Definition scanTurn (data : bytes) (maxBytes : Z) (s : messageScanner) : turn :=
  if exceedsLimit maxBytes s then Return s None
  else if 0 <? pendingBytes s then scanPending data s
  else if negb (started s) then scanRoot data maxBytes s
  else match frames s with
  | [] => Return (set_complete s) None
  | parent :: below =>
    if decide (length data <= offset s)%nat then Return s None
    else if frameIndefinite parent && (byte_at data (offset s) =? 0xff) then
      return_if_complete (finishItem (with_frames below (advance 1 0 s)))
    else if negb (frameIndefinite parent) && (frameRemaining parent =? 0) then
      return_if_complete (finishItem (with_frames below s))
    else scanItem data maxBytes parent below s
  end.

Fixpoint scanLoop (fuel : nat) (data : bytes) (maxBytes : Z) (s : messageScanner)
    : messageScanner * option scanError :=
  match fuel with
  | O => (s, Some ErrScanFuel)
  | S fuel =>
    match scanTurn data maxBytes s with
    | Return s e => (s, e)
    | Continue s => scanLoop fuel data maxBytes s
    end
  end.

(** Every turn that goes round again consumes input or pops a frame. *)
Definition scanFuel (data : bytes) (s : messageScanner) : nat :=
  2 * length data + length (frames s) + 1.

(** The result is [scanResult] of the state returned. *)
Definition scan (s : messageScanner) (data : bytes) (maxBytes : Z)
    : messageScanner * option scanError :=
  if complete s then (s, None)
  else if decide (length data < offset s)%nat then (s, Some ErrShrank)
  else scanLoop (scanFuel data s) data maxBytes s.

(** ** The grammar of messages *)

(** Nesting allowed below the root array. *)
Definition rootDepth : nat := Z.to_nat (MaxNestedLevels - 1).

Lemma rootDepth_Z : Z.of_nat rootDepth = MaxNestedLevels - 1.
Proof. unfold rootDepth, MaxNestedLevels. lia. Qed.
#[global] Opaque rootDepth.

Lemma rootDepth_le {A} (l : list A) : blen l < MaxNestedLevels <-> (length l <= rootDepth)%nat.
Proof. unfold blen. pose proof rootDepth_Z. lia. Qed.

Definition array_head (hb : bytes) (h : Head) : Prop :=
  HeadOf hb h /\ IsBreak h = false /\ Major h = 4.
Definition uint_head (hb : bytes) (h : Head) : Prop :=
  HeadOf hb h /\ IsBreak h = false /\ Major h = 0.

(** [Message m t]: [m] is a CBOR array, and [t] is the unsigned integer it
    starts with, if it is not empty. *)
Inductive Message : bytes -> option Z -> Prop :=
| M_empty hb h :
    array_head hb h -> Indefinite h = false -> Argument h = 0 -> Message hb None
| M_empty_indef hb h :
    array_head hb h -> Indefinite h = true -> Message (hb ++ [0xff]) None
| M_definite hb h tb th n body :
    array_head hb h -> Indefinite h = false -> Argument h = Z.of_nat (S n) ->
    uint_head tb th -> Items false 0 rootDepth n body ->
    Message (hb ++ tb ++ body) (Some (Argument th))
| M_indefinite hb h tb th n body :
    array_head hb h -> Indefinite h = true ->
    uint_head tb th -> Items false 0 rootDepth n body ->
    Message (hb ++ tb ++ body ++ [0xff]) (Some (Argument th)).

(** ** What is left to read *)

Definition toFrame (f : messageScanFrame) : frame :=
  mkFrame (frameRemaining f) (frameIndefinite f) 0.

Definition Rest (fs : list messageScanFrame) (c : bytes) : Prop :=
  Completes false rootDepth (toFrame <$> fs) c.

(** The rest of a root array none of whose items has been read. *)
Definition TypeTodo (f : messageScanFrame) (t : option Z) (c : bytes) : Prop :=
  (frameIndefinite f = true /\ c = [0xff] /\ t = None) \/
  ((frameIndefinite f = false -> frameRemaining f <> 0) /\
   exists tb th c', c = tb ++ c' /\ uint_head tb th /\ t = Some (Argument th) /\
     Rest [decParent f] c').

Definition RootTodo (f : messageScanFrame) (t : option Z) (c : bytes) : Prop :=
  (frameIndefinite f = false /\ frameRemaining f = 0 /\ c = [] /\ t = None) \/ TypeTodo f t c.

Definition stype (s : messageScanner) : option Z :=
  if hasMessageType s then Some (messageType s) else None.

(** [Todo s t c]: reading [c] next completes the message, and [t] is its type. *)
Definition Todo (s : messageScanner) (t : option Z) (c : bytes) : Prop :=
  if started s then
    if rootItems s =? 0 then
      if complete s then c = [] /\ t = None
      else exists f, frames s = [f] /\ TypeTodo f t c
    else t = stype s /\ exists p c', c = p ++ c' /\ blen p = pendingBytes s /\ Rest (frames s) c'
  else Message c t.

Lemma toFrame_dec f : toFrame (decParent f) = dec_frame (toFrame f).
Proof. by destruct f as [r []]. Qed.

Lemma Rest_nil c : Rest [] c <-> c = [].
Proof. split; [by inversion 1|]. intros ->. constructor. Qed.

(** Popping the frames that need nothing more changes nothing. *)
Lemma Rest_finish fs c :
  Forall (fun f => frame_ok (toFrame f)) fs -> blen fs <= MaxNestedLevels ->
  Rest (finishFrames fs) c <-> Rest fs c.
Proof.
  induction fs as [|f fs IH]; intros Hok Hlen; [done|]. simpl.
  apply Forall_cons in Hok as [Hf Hok]. rewrite blen_cons in Hlen.
  destruct (frameIndefinite f || (0 <? frameRemaining f)) eqn:E; [done|].
  apply orb_false_iff in E as [Ei Er]. apply Z.ltb_ge in Er. pose proof Hf as Hf'. unfold frame_ok in Hf'. simpl in Hf'.
  rewrite IH by (done || lia). unfold Rest. cbn [fmap list_fmap]. split.
  - intros H. apply (C_definite _ _ _ _ 0 []); simpl; try done; [lia| |constructor].
    rewrite length_fmap. apply rootDepth_le. lia.
  - intros H. destruct (Completes_inv _ _ _ _ _ Hf H) as [(_ & _ & H')|[(Hi & _)|(Hne & _)]]; [done| |].
    + simpl in Hi. congruence.
    + simpl in Hne. exfalso. apply Hne; [done|lia].
Qed.

Lemma Rest_root f n body :
  frameIndefinite f = false -> frameRemaining f = Z.of_nat n ->
  Rest [f] body <-> Items false 0 rootDepth n body.
Proof.
  intros Hi Hr. split.
  - intros H. inversion H as [|? ? n' b tl ? Hr' ? Hit HC|]; simplify_eq/=; [|congruence].
    inversion HC; simplify_eq. rewrite app_nil_r. rewrite Nat.sub_0_r in Hit.
    by replace n with n' by lia.
  - intros H. rewrite <-(app_nil_r body). apply (C_definite _ _ _ _ n); simpl; try (by rewrite ?Nat.sub_0_r); lia || constructor.
Qed.

Lemma Rest_root_indef f c :
  frameIndefinite f = true ->
  Rest [f] c <-> exists n body, c = body ++ [0xff] /\ Items false 0 rootDepth n body.
Proof.
  intros Hi. split.
  - intros H. inversion H as [|? ? n' b tl Hi'|? ? n' b tl ? ? Hit HC]; simplify_eq/=; [congruence|].
    inversion HC; simplify_eq. exists n', b. by rewrite Nat.sub_0_r in Hit.
  - intros (n & body & -> & H). apply (C_indefinite _ _ _ _ n); simpl; try (by rewrite ?Nat.sub_0_r); lia || constructor.
Qed.

Definition rootFrame (h : Head) : messageScanFrame :=
  if Indefinite h then mkScanFrame 0 true else mkScanFrame (Argument h) false.

(** A message is the head of an array followed by what its frame needs. *)
Lemma Message_root m t :
  Message m t -> wf_bytes m -> exists hb h c, m = hb ++ c /\ array_head hb h /\ RootTodo (rootFrame h) t c.
Proof.
  intros H Hwf. unfold RootTodo, TypeTodo, rootFrame.
  inversion H as [hb h Ha Hi Hz|hb h Ha Hi|hb h tb th n body Ha Hi Hz Hu Hs|hb h tb th n body Ha Hi Hu Hs];
    simplify_eq; [exists m, h, []|exists hb, h, [0xff]|exists hb, h, (tb ++ body)|
                  exists hb, h, (tb ++ body ++ [0xff])]; rewrite Hi; (split; [by rewrite ?app_nil_r|]);
    (split; [done|]).
  - by left.
  - right. by left.
  - right. right. simpl. split; [lia|]. exists tb, th, body. split_and!; try done.
    apply wf_bytes_app in Hwf as [Hwf _]. destruct (HeadOf_ranges _ _ Hwf (proj1 Ha)) as [Hr _].
    eapply Rest_root; [done| |done]. unfold decParent. cbn [frameIndefinite frameRemaining].
    rewrite u64_small by lia. lia.
  - right. right. simpl. split; [done|]. exists tb, th, (body ++ [0xff]). split_and!; try done.
    apply Rest_root_indef; [done|]. by exists n, body.
Qed.

Lemma root_Message hb h t c :
  array_head hb h -> 0 <= Argument h <= MaxUint64 -> RootTodo (rootFrame h) t c -> Message (hb ++ c) t.
Proof.
  intros Ha Hr. unfold RootTodo, TypeTodo, rootFrame.
  destruct (Indefinite h) eqn:Ei; simpl;
    intros [(Hi & Hz & -> & ->)|[(Hi & -> & ->)|(Hz & tb & th & c' & -> & Hu & -> & HR)]]; try done.
  - by eapply M_empty_indef.
  - apply Rest_root_indef in HR as (n & body & -> & Hs); [|done]. by eapply M_indefinite.
  - rewrite app_nil_r. by eapply M_empty.
  - specialize (Hz eq_refl). eapply (Rest_root _ (Z.to_nat (Argument h - 1))) in HR; [|done|].
    + eapply M_definite; try done. lia.
    + unfold decParent. cbn [frameIndefinite frameRemaining]. rewrite u64_small by lia. lia.
Qed.

(** ** Heads under truncation *)

Lemma ReadHead_take hb h k : HeadOf hb h -> (k < length hb)%nat -> ReadHead (take k hb) 0 = Ok None.
Proof.
  intros [H Hsz] Hk. unfold ReadHead in *. rewrite length_take.
  destruct (decide (length hb <= 0)%nat); [lia|].
  destruct (decide (k `min` length hb <= 0)%nat) as [|Hk0]; [done|].
  assert (E : byte_at (take k hb) 0 = byte_at hb 0).
  { unfold byte_at. destruct k; [lia|]. by destruct hb. }
  rewrite E. cbn [seq fmap list_fmap Nat.add] in *.
  repeat match goal with
  | |- context [if ?c then _ else _] => destruct c eqn:?; try done
  end;
  repeat match type of H with
  | context [if ?c then _ else _] => destruct c eqn:?; try done
  end; simplify_eq; cbn [EncodedSize] in *; lia.
Qed.

(** What the scanner sees of a head, with the input cut anywhere. *)
Lemma ReadHead_prefix d z hb w h :
  d ++ z = hb ++ w -> HeadOf hb h ->
  ((length hb <= length d)%nat /\ ReadHead d 0 = Ok (Some h)) \/
  ((length d < length hb)%nat /\ ReadHead d 0 = Ok None).
Proof.
  intros E Hh. destruct (decide (length hb <= length d)%nat) as [Hle|Hgt]; [left|right]; (split; [lia|]).
  - apply (f_equal (take (length d))) in E. rewrite take_app_length, take_app_ge in E by done.
    rewrite E. by apply ReadHead_app.
  - apply (f_equal (take (length d))) in E. rewrite take_app_length, take_app_le in E by lia.
    rewrite E. apply (ReadHead_take _ h); [done|]. lia.
Qed.

(** ** Frames and heads *)

Definition headFrames (h : Head) (fs : list messageScanFrame) : list messageScanFrame :=
  match opens false h with
  | None => fs
  | Some f => mkScanFrame (remaining f) (indefinite f) :: fs
  end.

Definition headFits (h : Head) (fs : list messageScanFrame) : Prop :=
  match opens false h with None => True | Some _ => blen fs < MaxNestedLevels end.

Definition live (f : messageScanFrame) : bool := frameIndefinite f || (0 <? frameRemaining f).

Definition frames_ok (fs : list messageScanFrame) : Prop := Forall (fun f => frame_ok (toFrame f)) fs.

Lemma toFrame_opens h f : opens false h = Some f -> toFrame (mkScanFrame (remaining f) (indefinite f)) = f.
Proof. unfold opens. intros H. repeat case_match; by simplify_eq. Qed.

Lemma Rest_item f fs hb h p c :
  frame_ok (toFrame f) -> live f = true -> wf_bytes hb -> HeadOf hb h -> head_ok h ->
  blen p = inline h -> headFits h (f :: fs) ->
  Rest (headFrames h (decParent f :: fs)) c -> Rest (f :: fs) (hb ++ p ++ c).
Proof.
  intros Hok Hl Hwf Hh Hhok Hp Hfit HR. pose proof (Item_intro false hb h p Hwf Hh Hhok Hp) as HI.
  unfold Rest, headFrames, headFits in *.
  assert (Hne : indefinite (toFrame f) = false -> remaining (toFrame f) <> 0).
  { unfold live in Hl. simpl. intros Hx. rewrite Hx in Hl. apply Z.ltb_lt in Hl. lia. }
  rewrite fmap_cons. destruct (opens false h) as [g|] eqn:Eo.
  - rewrite !fmap_cons in HR. rewrite (toFrame_opens _ _ Eo), toFrame_dec in HR.
    rewrite blen_cons in Hfit.
    assert (Hlen : (length (dec_frame (toFrame f) :: (toFrame <$> fs)) <= rootDepth)%nat).
    { simpl. rewrite length_fmap. apply (rootDepth_le (f :: fs)). rewrite blen_cons. lia. }
    destruct (HI _ _ _ Hlen HR) as (body & c' & -> & Hit & HC).
    rewrite !app_assoc, <-(app_assoc hb). eapply Completes_item; try done; [|by left].
    simpl in Hlen. by replace (rootDepth - length (toFrame <$> fs))%nat
      with (S (rootDepth - length (dec_frame (toFrame f) :: (toFrame <$> fs)))) by (simpl; lia).
  - rewrite fmap_cons in HR. rewrite toFrame_dec in HR. rewrite app_assoc.
    eapply Completes_item; try done. by left.
Qed.

Lemma Rest_inv f fs c :
  frame_ok (toFrame f) -> live f = true -> wf_bytes c -> Rest (f :: fs) c ->
  (frameIndefinite f = true /\ exists tl, c = 0xff :: tl /\ Rest fs tl) \/
  exists hb h p c', c = hb ++ p ++ c' /\ HeadOf hb h /\ head_ok h /\ blen p = inline h /\
    headFits h (f :: fs) /\ Rest (headFrames h (decParent f :: fs)) c'.
Proof.
  intros Hok Hl Hwf HR. unfold Rest in HR. rewrite fmap_cons in HR.
  destruct (Completes_inv _ _ _ _ _ Hok HR)
    as [(Hi & Hr & HC)|[(Hi & tl & -> & HC)|(Hne & b & h & c' & -> & Hit & Hch & HC)]].
  - unfold live in Hl. simpl in Hi, Hr. rewrite Hi, Hr in Hl. done.
  - left. split; [done|]. by exists tl.
  - right. apply wf_bytes_app in Hwf as [Hwf _].
    destruct (Item_head _ _ _ _ Hwf Hit) as (hb & p & body & -> & Hh & Hhok & Hp & Hbody).
    exists hb, h, p, (body ++ c'). rewrite <-!app_assoc. split_and!; try done.
    + unfold headFits. destruct (opens false h); [|done]. destruct Hbody as [Hd _].
      rewrite length_fmap in Hd. apply rootDepth_le. simpl. lia.
    + unfold Rest, headFrames. destruct (opens false h) as [g|] eqn:Eo.
      * rewrite !fmap_cons. rewrite (toFrame_opens _ _ Eo), toFrame_dec.
        destruct Hbody as [Hd Hbody]. rewrite length_fmap in *.
        apply Hbody; [simpl; rewrite length_fmap; lia|simpl; rewrite length_fmap; lia|done].
      * subst body. rewrite fmap_cons. by rewrite toFrame_dec.
Qed.

(** ** The switch *)

Definition afterHead (h : Head) (s : messageScanner) : messageScanner :=
  let s := with_frames (headFrames h (frames s)) (with_pending (inline h) s) in
  if inline h =? 0 then finishItem s else s.

Lemma with_pending_same s : with_pending (pendingBytes s) s = s.
Proof. by destruct s. Qed.

Lemma finishItem_live s f fs : frames s = f :: fs -> live f = true -> finishItem s = s.
Proof.
  intros E Hl. unfold finishItem. rewrite E. simpl. unfold live in Hl. rewrite Hl. simpl.
  by destruct s; simpl in *; subst.
Qed.

Lemma scanSwitch_spec h s k :
  0 <= Major h <= 7 -> (Indefinite h = true -> IsBreak h = false /\ 2 <= Major h <= 5) ->
  pendingBytes s = 0 ->
  (head_ok h /\ headFits h (frames s) /\ scanSwitch h s k = k (afterHead h s)) \/
  (~ (head_ok h /\ headFits h (frames s)) /\ exists e, scanSwitch h s k = Return s (Some e)).
Proof.
  intros Hm Hi Hp.
  assert (Hs : with_pending 0 s = s) by (rewrite <-Hp; apply with_pending_same).
  destruct (IsBreak h) eqn:Eb.
  { right. split; [intros [[? _] _]; congruence|]. unfold scanSwitch. rewrite Eb, orb_true_r.
    repeat match goal with |- context [if ?c then _ else _] => destruct c end; eauto. }
  assert (Hcase : Major h = 0 \/ Major h = 1 \/ Major h = 2 \/ Major h = 3 \/ Major h = 4 \/
    Major h = 5 \/ Major h = 6 \/ Major h = 7) by lia.
  unfold scanSwitch, afterHead, headFits, headFrames, head_ok, opens, inline, pushing, pushFrame.
  rewrite Eb.
  destruct (Indefinite h) eqn:Ei; [destruct (Hi eq_refl) as [_ Hi']|];
  destruct Hcase as [E|[E|[E|[E|[E|[E|[E|E]]]]]]]; rewrite E in *; try lia;
    cbn [Z.eqb Pos.eqb orb andb negb remaining indefinite]; rewrite ?Hs;
    repeat match goal with |- context [?a <? ?b] => destruct (Z.ltb_spec a b) end;
    repeat match goal with |- context [?a <=? ?b] => destruct (Z.leb_spec a b) end;
    first [ left; split_and!; [..|first [reflexivity|by erewrite finishItem_live|
              by rewrite (with_pending_same s)|by destruct s]]; (done || lia)
          | right; split; [intros ((? & Ha & ?) & ?); first [lia|specialize (Ha eq_refl eq_refl); lia]|eauto]
          | idtac ].
Qed.

(** ** The invariant *)

Record SInv (s : messageScanner) : Prop := {
  inv_frames : frames_ok (frames s);
  inv_depth : blen (frames s) <= MaxNestedLevels;
  inv_pending : 0 <= pendingBytes s <= MaxUint64;
  inv_root : 0 <= rootItems s <= Z.of_nat (offset s);
  inv_fresh : started s = false -> complete s = false /\ frames s = [] /\ pendingBytes s = 0 /\
    rootItems s = 0 /\ hasMessageType s = false;
  inv_complete : complete s = true -> frames s = [] /\ pendingBytes s = 0;
  inv_live : started s = true -> complete s = false -> pendingBytes s = 0 ->
    exists f fs, frames s = f :: fs /\ live f = true;
  inv_type : started s = true ->
    if rootItems s =? 0
    then hasMessageType s = false /\ pendingBytes s = 0 /\ (length (frames s) <= 1)%nat
    else hasMessageType s = true
}.

(** The state just before [finishItem], or before a payload is skipped. *)
Record PInv (s : messageScanner) : Prop := {
  pre_frames : frames_ok (frames s);
  pre_depth : blen (frames s) <= MaxNestedLevels;
  pre_root : 0 <= rootItems s <= Z.of_nat (offset s);
  pre_started : started s = true;
  pre_complete : complete s = false;
  pre_type : if rootItems s =? 0
    then hasMessageType s = false /\ (length (frames s) <= 1)%nat else hasMessageType s = true
}.

Lemma SInv_new : SInv newScanner.
Proof.
  split; simpl; try done; try (unfold MaxUint64, MaxNestedLevels, blen; simpl; lia).
  constructor.
Qed.

Lemma finishFrames_spec fs :
  exists dropped, fs = dropped ++ finishFrames fs /\
    match finishFrames fs with [] => True | f :: _ => live f = true end.
Proof.
  induction fs as [|f fs (d & Hd & Hl)]; [by exists []|]. simpl.
  destruct (frameIndefinite f || (0 <? frameRemaining f)) eqn:E; [by exists []|].
  exists (f :: d). split; [by rewrite Hd at 1|done].
Qed.

Lemma frames_ok_finish fs :
  frames_ok fs -> frames_ok (finishFrames fs) /\ (length (finishFrames fs) <= length fs)%nat.
Proof.
  intros H. destruct (finishFrames_spec fs) as (d & Hd & _). rewrite Hd in H at 1.
  apply Forall_app in H as [_ H]. split; [done|]. rewrite Hd at 2. rewrite length_app. lia.
Qed.

Lemma finishItem_inv s : PInv s -> pendingBytes s = 0 -> SInv (finishItem s).
Proof.
  intros [Hf Hd Hr Hs Hc Ht] Hp. destruct (frames_ok_finish _ Hf) as [Hf' Hl].
  destruct (finishFrames_spec (frames s)) as (d & _ & Hlive).
  unfold finishItem. cbn [frames with_frames]. destruct (finishFrames (frames s)) as [|f fs] eqn:E;
    (split; simpl; rewrite ?Hp, ?Hs, ?Hc; try done; try (unfold MaxUint64, MaxNestedLevels, blen; simpl in *; lia)).
  - intros _. destruct (_ =? _); [|done]. split_and!; [apply Ht|done|lia].
  - simpl in *. unfold blen in *. simpl. lia.
  - intros _ _ _. by exists f, fs.
  - intros _. destruct (_ =? _); [|done]. simpl in Hl. split_and!; [apply Ht|done|]. destruct Ht. simpl. lia.
Qed.

Lemma finishItem_fields s :
  offset (finishItem s) = offset s /\ pendingBytes (finishItem s) = pendingBytes s /\
  rootItems (finishItem s) = rootItems s /\ started (finishItem s) = started s /\
  stype (finishItem s) = stype s /\ frames (finishItem s) = finishFrames (frames s) /\
  hasMessageType (finishItem s) = hasMessageType s /\
  (complete s = false -> complete (finishItem s) = true <-> finishFrames (frames s) = []).
Proof.
  unfold finishItem, stype. simpl. destruct (finishFrames (frames s)) eqn:E; simpl; split_and!; try done.
  intros ->. by split.
Qed.

Lemma finishItem_Todo s t c :
  PInv s -> pendingBytes s = 0 -> rootItems s <> 0 ->
  Todo (finishItem s) t c <-> (t = stype s /\ Rest (frames s) c).
Proof.
  intros HP Hp Hr. destruct (finishItem_fields s) as (_ & E1 & E2 & E3 & E4 & E5 & _).
  unfold Todo. rewrite E1, E2, E3, E4, E5, (pre_started _ HP), Hp.
  rewrite (proj2 (Z.eqb_neq _ _) Hr).
  rewrite <-(Rest_finish (frames s)) by apply HP. split.
  - intros (-> & p & c' & -> & Hz & HR). apply blen_0 in Hz as ->. done.
  - intros (-> & HR). split; [done|]. by exists [], c.
Qed.

(** [afterHead], in both directions. *)
Lemma afterHead_pre h s :
  PInv s -> rootItems s <> 0 -> 0 <= Argument h <= MaxUint64 -> headFits h (frames s) ->
  PInv (with_frames (headFrames h (frames s)) (with_pending (inline h) s)).
Proof.
  intros [Hf Hd Hr Hs Hc Ht] Hne Ha Hfit. split; simpl; try done; unfold headFrames, headFits in *.
  - destruct (opens false h) eqn:Eo; [|done]. constructor; [|done].
    rewrite (toFrame_opens _ _ Eo). by eapply opens_ok.
  - destruct (opens false h); [|done]. rewrite blen_cons. lia.
  - by rewrite (proj2 (Z.eqb_neq _ _) Hne) in *.
Qed.

Lemma afterHead_offset h s : offset (afterHead h s) = offset s.
Proof.
  unfold afterHead. destruct (inline h =? 0); [|done].
  by rewrite (proj1 (finishItem_fields _)).
Qed.

Lemma afterHead_type h s : hasMessageType (afterHead h s) = hasMessageType s.
Proof.
  unfold afterHead. destruct (inline h =? 0); [|done]. unfold finishItem.
  by destruct (frames (with_frames _ _)).
Qed.

Lemma afterHead_inv h s :
  PInv s -> rootItems s <> 0 -> 0 <= Argument h <= MaxUint64 ->
  headFits h (frames s) -> SInv (afterHead h s).
Proof.
  intros HP0 Hne Ha Hfit. pose proof (afterHead_pre h s HP0 Hne Ha Hfit) as HP.
  unfold afterHead. destruct (Z.eqb_spec (inline h) 0) as [E|E]; [by apply finishItem_inv|].
  assert (0 <= inline h <= MaxUint64) by (unfold inline; destruct (_ && _); unfold MaxUint64 in *; lia).
  destruct HP as [Hf' Hd' Hr' Hs' Hc' Ht'].
  simpl in Ht'. rewrite (proj2 (Z.eqb_neq (rootItems _) _) Hne) in Ht'.
  split; simpl in *; rewrite ?Hs', ?Hc', ?(proj2 (Z.eqb_neq (rootItems s) _) Hne); done.
Qed.

Lemma afterHead_Todo h s t c :
  PInv s -> rootItems s <> 0 -> 0 <= Argument h <= MaxUint64 -> headFits h (frames s) ->
  Todo (afterHead h s) t c <->
  (t = stype s /\ exists p c', c = p ++ c' /\ blen p = inline h /\ Rest (headFrames h (frames s)) c').
Proof.
  intros HP Hne Ha Hfit. unfold afterHead.
  pose proof (afterHead_pre h s HP Hne Ha Hfit) as HP'.
  destruct (Z.eqb_spec (inline h) 0) as [E|E].
  - rewrite finishItem_Todo by done. simpl. rewrite E. split.
    + intros (-> & HR). split; [done|]. by exists [], c.
    + intros (-> & p & c' & -> & Hp & HR). by apply blen_0 in Hp as ->.
  - unfold Todo. simpl. by rewrite (pre_started _ HP), (proj2 (Z.eqb_neq _ _) Hne).
Qed.

(** ** One turn *)

(** The state in which the switch on an item's head runs. *)
Definition isFirst (s : messageScanner) : bool := (blen (frames s) =? 1) && (rootItems s =? 0).

Definition itemState (h : Head) (parent : messageScanFrame) (below : list messageScanFrame)
    (s : messageScanner) : messageScanner :=
  let s1 := with_frames (decParent parent :: below) (if isFirst s then set_type (Argument h) s else s) in
  advance (EncodedSize h) (EncodedSize h) (if blen (frames s) =? 1 then count_root s1 else s1).

Lemma decParent_ok f : frame_ok (toFrame f) -> frame_ok (toFrame (decParent f)).
Proof. rewrite toFrame_dec. apply dec_frame_ok. Qed.

Lemma isFirst_root s f fs :
  SInv s -> started s = true -> frames s = f :: fs -> isFirst s = true <-> rootItems s = 0.
Proof.
  intros HI Hs Ef. unfold isFirst. rewrite andb_true_iff, !Z.eqb_eq. split; [by intros [_ ?]|].
  intros Hz. split; [|done]. pose proof (inv_type _ HI Hs) as Ht. rewrite Hz in Ht. simpl in Ht.
  rewrite Ef in *. unfold blen. simpl in *. lia.
Qed.

Lemma itemState_pre h f fs s :
  SInv s -> started s = true -> complete s = false -> frames s = f :: fs -> (1 <= EncodedSize h)%nat ->
  Z.of_nat (offset s) <= MaxInt -> pendingBytes s = 0 ->
  PInv (itemState h f fs s) /\ rootItems (itemState h f fs s) <> 0 /\
  pendingBytes (itemState h f fs s) = 0 /\ frames (itemState h f fs s) = decParent f :: fs /\
  offset (itemState h f fs s) = (offset s + EncodedSize h)%nat /\
  stype (itemState h f fs s) = (if isFirst s then Some (Argument h) else stype s) /\
  hasMessageType (itemState h f fs s) = true.
Proof.
  intros HI Hs Hc Ef Hsz Ho Hp. pose proof (isFirst_root s f fs HI Hs Ef) as Hfirst.
  pose proof (inv_type _ HI Hs) as Ht. pose proof (inv_frames _ HI) as Hf. unfold frames_ok in Hf.
  pose proof (inv_depth _ HI) as Hd. pose proof (inv_root _ HI) as Hr. rewrite Ef in Hf, Hd.
  apply Forall_cons in Hf as [Hf Hfs].
  assert (Hu : u64 (rootItems s + 1) = rootItems s + 1)
    by (apply u64_small; unfold MaxUint64, MaxInt in *; lia).
  assert (Hroot : rootItems (itemState h f fs s) =
    if blen (frames s) =? 1 then rootItems s + 1 else rootItems s).
  { unfold itemState. destruct (blen (frames s) =? 1), (isFirst s); simpl; done. }
  assert (Hne : rootItems (itemState h f fs s) <> 0).
  { rewrite Hroot. unfold isFirst in Hfirst. destruct (blen (frames s) =? 1); [lia|].
    simpl in Hfirst. intros Hz. by apply Hfirst in Hz. }
  assert (Htype : hasMessageType (itemState h f fs s) = true).
  { unfold itemState. destruct (Z.eqb_spec (rootItems s) 0) as [Hz|Hz].
    - rewrite (proj2 Hfirst Hz). by destruct (_ =? _).
    - destruct (isFirst s); by destruct (_ =? _). }
  split_and!; try done.
  - split.
    + unfold itemState. destruct (blen (frames s) =? 1), (isFirst s); simpl; constructor; try done;
        by apply decParent_ok.
    + unfold itemState. destruct (blen (frames s) =? 1), (isFirst s); simpl; by rewrite blen_cons in *.
    + rewrite Hroot. unfold itemState. destruct (blen (frames s) =? 1), (isFirst s); simpl; lia.
    + unfold itemState. by destruct (blen (frames s) =? 1), (isFirst s).
    + unfold itemState. by destruct (blen (frames s) =? 1), (isFirst s).
    + by rewrite (proj2 (Z.eqb_neq _ _) Hne).
  - unfold itemState. by destruct (blen (frames s) =? 1), (isFirst s).
  - unfold itemState. by destruct (blen (frames s) =? 1), (isFirst s).
  - unfold itemState. by destruct (blen (frames s) =? 1), (isFirst s).
  - unfold itemState, stype. by destruct (blen (frames s) =? 1), (isFirst s).
Qed.

(** What [scanItem] does with a head. *)
Lemma scanItem_head data max f fs s h :
  SInv s -> started s = true -> complete s = false -> frames s = f :: fs -> pendingBytes s = 0 ->
  wf_bytes data -> ReadHead data (offset s) = Ok (Some h) -> blen data <= MaxInt ->
  scanItem data max f fs s =
    if isFirst s && (negb (Major h =? 0) || Indefinite h || IsBreak h) then Return s (Some ErrTypeNotUint)
    else if exceedsLimit max (itemState h f fs s) then Return (itemState h f fs s) None
    else scanSwitch h (itemState h f fs s)
           (fun s' => if isFirst s then Return s' None else return_if_complete s').
Proof.
  intros HI Hs Hc Ef Hp Hwf HR Hlen. unfold scanItem. rewrite HR.
  destruct (ReadHead_split _ _ _ Hwf HR) as (_ & _ & _ & _ & _ & _ & Ha & _).
  fold (isFirst s). destruct (isFirst s && (_ || _ || _)); [done|].
  rewrite (proj2 (Z.ltb_ge _ _)), andb_false_r by apply Ha. done.
Qed.

Lemma Rest_break f fs c :
  frameIndefinite f = true -> blen (f :: fs) <= MaxNestedLevels -> Rest fs c -> Rest (f :: fs) (0xff :: c).
Proof.
  intros Hi Hl HR.  unfold Rest. rewrite fmap_cons.
  apply (C_indefinite _ _ _ _ 0 []); try done; [|constructor].
  rewrite length_fmap. rewrite blen_cons in Hl. apply rootDepth_le. lia.
Qed.

(** From [s] to [s'] the scanner read [k], and what is left after it is left before
    it with [k] in front. *)
Definition Sound (data : bytes) (s s' : messageScanner) : Prop :=
  SInv s' /\ exists k, drop (offset s) data = k ++ drop (offset s') data /\
    offset s' = (offset s + length k)%nat /\ (offset s' <= length data)%nat /\
    forall t c, Todo s' t c -> Todo s t (k ++ c).

Lemma Sound_refl data s : SInv s -> (offset s <= length data)%nat -> Sound data s s.
Proof. intros HI Ho. split; [done|]. exists []. rewrite Nat.add_0_r. by split_and!. Qed.

Lemma Sound_trans data s1 s2 s3 : Sound data s1 s2 -> Sound data s2 s3 -> Sound data s1 s3.
Proof.
  intros (H1 & k1 & E1 & O1 & L1 & T1) (H2 & k2 & E2 & O2 & L2 & T2). split; [done|].
  exists (k1 ++ k2). rewrite E1, E2, !app_assoc, length_app. split_and!; try (done || lia).
  intros t c HT. rewrite <-app_assoc. auto.
Qed.

Lemma drop_split {A} (l : list A) n m : drop n l = take m (drop n l) ++ drop (n + m) l.
Proof. by rewrite <-drop_drop, take_drop. Qed.

(** The result of a turn that is not an error. *)
Definition turn_ok (r : turn) : option messageScanner :=
  match r with Continue s | Return s None => Some s | Return _ (Some _) => None end.

Lemma return_if_complete_ok s : turn_ok (return_if_complete s) = Some s.
Proof. unfold return_if_complete. by destruct (complete s). Qed.

Lemma pending_sound data s s' :
  SInv s -> started s = true -> complete s = false -> (offset s <= length data)%nat ->
  0 < pendingBytes s -> turn_ok (scanPending data s) = Some s' -> Sound data s s'.
Proof.
  intros HI Hs Hc Ho Hp H. unfold scanPending in H.
  set (k := Z.min (blen data - Z.of_nat (offset s)) (pendingBytes s)) in *.
  set (s1 := with_pending _ _) in H. destruct HI as [Hf Hd Hpd Hr _ _ _ Ht].
  assert (Hne : rootItems s <> 0).
  { intros Hz. specialize (Ht Hs). rewrite Hz in Ht. simpl in Ht. lia. }
  specialize (Ht Hs). rewrite (proj2 (Z.eqb_neq _ _) Hne) in Ht.
  assert (Hk : 0 <= k <= blen data - Z.of_nat (offset s)) by (unfold k, blen; lia).
  assert (HP : PInv s1).
  { split; simpl; try done; [lia|]. by rewrite (proj2 (Z.eqb_neq _ _) Hne). }
  assert (Hb : blen (take (Z.to_nat k) (drop (offset s) data)) = k).
  { rewrite blen_take, blen_drop. lia. }
  assert (Hcommon : forall x, SInv x -> offset x = offset s1 ->
    (forall t c, Todo x t c -> t = stype s /\ exists p c', c = p ++ c' /\ blen p = pendingBytes s1 /\ Rest (frames s) c') ->
    Sound data s x).
  { intros x Hx Eo HT. split; [done|]. exists (take (Z.to_nat k) (drop (offset s) data)).
    rewrite Eo. simpl. rewrite <-drop_split. unfold blen in Hb, Hk. split_and!; try (done || lia).
    intros t c HTx. apply HT in HTx as (-> & p & c' & -> & Hpl & HR).
    unfold Todo. rewrite Hs, (proj2 (Z.eqb_neq _ _) Hne). split; [done|].
    exists (take (Z.to_nat k) (drop (offset s) data) ++ p), c'. rewrite app_assoc. split_and!; try done.
    rewrite blen_app. unfold blen in *. simpl in Hpl. lia. }
  destruct (0 <? pendingBytes s1) eqn:E1.
  - simplify_eq/=. apply Hcommon; [|done|].
    + apply Z.ltb_lt in E1. simpl in E1.
      split; simpl; rewrite ?Hs, ?Hc; try done; try lia; intros _.
      by rewrite (proj2 (Z.eqb_neq _ _) Hne).
    + intros t c. unfold Todo. simpl. by rewrite Hs, (proj2 (Z.eqb_neq _ _) Hne).
  - rewrite return_if_complete_ok in H. simplify_eq.
    assert (Hz : pendingBytes s1 = 0) by (apply Z.ltb_ge in E1; simpl in *; lia).
    apply Hcommon; [by apply finishItem_inv|by apply finishItem_fields|].
    intros t c HT. apply finishItem_Todo in HT as (-> & HR); [|done..]. split; [done|].
    exists [], c. by rewrite Hz.
Qed.

Lemma scanRoot_head data max s h :
  ReadHead data (offset s) = Ok (Some h) -> frames s = [] -> Major h = 4 -> IsBreak h = false ->
  exceedsLimit max (advance (EncodedSize h) (EncodedSize h) s) = false ->
  scanRoot data max s =
    (if Indefinite h then Continue else fun s => return_if_complete (finishItem s))
      (with_frames [rootFrame h] (set_started (advance (EncodedSize h) (EncodedSize h) s))).
Proof.
  intros HR Hf Hm Hb He. unfold scanRoot, rootFrame. rewrite HR, Hm, Hb, He. cbn [Z.eqb Pos.eqb negb orb].
  unfold pushing, pushFrame. cbn [frames set_started advance]. rewrite Hf.
  destruct (Indefinite h); simpl; done.
Qed.

(** The state after the root head, and what it leaves to read. *)
Lemma rootState_spec h s :
  SInv s -> started s = false -> 0 <= Argument h <= MaxUint64 ->
  let s0 := with_frames [rootFrame h] (set_started (advance (EncodedSize h) (EncodedSize h) s)) in
  let s1 := if Indefinite h then s0 else finishItem s0 in
  SInv s1 /\ offset s1 = (offset s + EncodedSize h)%nat /\ hasMessageType s1 = false /\
  forall t c, Todo s1 t c <-> RootTodo (rootFrame h) t c.
Proof.
  intros HI Hs Ha s0 s1. destruct (inv_fresh _ HI Hs) as (Hc & Hf & Hp & Hr & Ht).
  assert (HP : PInv s0).
  { split; simpl; rewrite ?Hr; try done; try (unfold MaxNestedLevels, blen; simpl; lia).
    constructor; [|constructor]. unfold rootFrame, frame_ok, toFrame, MaxUint64 in *.
    destruct (Indefinite h); simpl; lia. }
  assert (HT0 : forall t c, live (rootFrame h) = true -> Todo s0 t c <-> RootTodo (rootFrame h) t c).
  { intros t c Hl. unfold Todo. simpl. rewrite Hr, Hc. simpl. split.
    - intros (f & [= <-] & HT). by right.
    - intros [(Hi & Hz & _)|HT]; [|by exists (rootFrame h)].
      unfold live in Hl. by rewrite Hi, Hz in Hl. }
  unfold s1. destruct (Indefinite h) eqn:Ei.
  - assert (Hl : live (rootFrame h) = true) by (unfold rootFrame; by rewrite Ei).
    split_and!; [|done|done|by intros; apply HT0].
    replace s0 with (finishItem s0) by (by eapply finishItem_live). by apply finishItem_inv.
  - split_and!; [by apply finishItem_inv|by apply finishItem_fields| |].
    { by rewrite (proj1 (proj2 (proj2 (proj2 (proj2 (proj2 (proj2 (finishItem_fields s0)))))))). }
    destruct (live (rootFrame h)) eqn:El.
    { rewrite (finishItem_live s0 _ [] eq_refl El). by intros; apply HT0. }
    intros t c. unfold Todo, finishItem. unfold live in El. simpl. rewrite El. simpl. rewrite Hr. simpl.
    apply orb_false_iff in El as [El1 El2]. apply Z.ltb_ge in El2.
    unfold RootTodo, TypeTodo. split.
    + intros [-> ->]. left. split_and!; try done. unfold rootFrame in *. rewrite Ei in *. simpl in *. lia.
    + intros [(_ & _ & ? & ?)|[(? & _)|(Hne & _)]]; [done|congruence|]. exfalso. apply Hne; [done|].
      unfold rootFrame in *. rewrite Ei in *. simpl in *. lia.
Qed.

Lemma root_sound data max s s' :
  SInv s -> started s = false -> (offset s <= length data)%nat -> wf_bytes data ->
  turn_ok (scanRoot data max s) = Some s' -> exceedsLimit max s' = false -> Sound data s s'.
Proof.
  intros HI Hs Ho Hwf H He. destruct (ReadHead data (offset s)) as [[h|]|e] eqn:HR.
  2:{ unfold scanRoot in H. rewrite HR in H. simplify_eq/=. by apply Sound_refl. }
  2:{ unfold scanRoot in H. by rewrite HR in H. }
  destruct (ReadHead_split _ _ _ Hwf HR) as (hb & Hd & Hh & Hwfh & Hsz & _ & Ha & _).
  destruct (inv_fresh _ HI Hs) as (_ & Hf & _).
  destruct (negb (Major h =? 4) || IsBreak h) eqn:Em.
  { unfold scanRoot in H. by rewrite HR, Em in H. }
  apply orb_false_iff in Em as [Em Eb]. apply negb_false_iff, Z.eqb_eq in Em.
  destruct (exceedsLimit max (advance (EncodedSize h) (EncodedSize h) s)) eqn:Ee.
  { unfold scanRoot in H. rewrite HR, Em, Eb, Ee in H. simplify_eq/=. congruence. }
  rewrite (scanRoot_head _ _ _ _ HR Hf Em Eb Ee) in H.
  destruct (rootState_spec h s HI Hs Ha) as (HI' & Ho' & _ & HT).
  match type of HI' with SInv ?x => assert (Es : s' = x) end.
  { destruct (Indefinite h); [by simplify_eq/=|]. rewrite return_if_complete_ok in H. by simplify_eq. }
  rewrite <-Es in HI', Ho', HT. split; [done|]. exists hb. rewrite Ho'. destruct Hh as [Hh Hl].
  rewrite <-Hl. split_and!; try done.
  intros t c HTc. unfold Todo. rewrite Hs. apply (root_Message _ h); [done|done|]. by apply HT.
Qed.

Lemma item_sound data max f fs s s' :
  SInv s -> started s = true -> complete s = false -> frames s = f :: fs -> live f = true ->
  pendingBytes s = 0 -> (offset s <= length data)%nat -> wf_bytes data -> blen data <= MaxInt ->
  turn_ok (scanItem data max f fs s) = Some s' -> exceedsLimit max s' = false -> Sound data s s'.
Proof.
  intros HI Hs Hc Ef Hl Hp Ho Hwf Hlen H He. destruct (ReadHead data (offset s)) as [[h|]|e] eqn:HR.
  2:{ unfold scanItem in H. rewrite HR in H. simplify_eq/=. by apply Sound_refl. }
  2:{ unfold scanItem in H. by rewrite HR in H. }
  rewrite (scanItem_head _ _ _ _ _ _ HI Hs Hc Ef Hp Hwf HR Hlen) in H.
  destruct (ReadHead_split _ _ _ Hwf HR) as (hb & Hd & Hh & Hwfh & Hsz & Hs1 & Ha & Hm).
  destruct (HeadOf_ranges _ _ Hwfh Hh) as (_ & _ & Hind).
  destruct (itemState_pre h f fs s HI Hs Hc Ef Hs1 ltac:(unfold blen in Hlen; lia) Hp)
    as (HP & Hne & Hp' & Ef' & Eo & Et & _).
  destruct (isFirst s && _) eqn:E1; [done|].
  destruct (exceedsLimit max (itemState h f fs s)) eqn:E2; [simplify_eq/=; congruence|].
  destruct (scanSwitch_spec h (itemState h f fs s)
    (fun s' => if isFirst s then Return s' None else return_if_complete s') Hm Hind Hp')
    as [(Hok & Hfit & E)|(_ & e & E)]; rewrite E in H; [|done]. clear E.
  assert (Es : s' = afterHead h (itemState h f fs s)).
  { destruct (isFirst s); [by simplify_eq/=|]. rewrite return_if_complete_ok in H. by simplify_eq. }
  subst s'. pose proof (afterHead_inv _ _ HP Hne Ha Hfit) as HI'.
  assert (Eo' : offset (afterHead h (itemState h f fs s)) = (offset s + EncodedSize h)%nat).
  { by rewrite afterHead_offset. }
  split; [done|]. exists hb. rewrite Eo'. pose proof (proj2 Hh) as Hhl. rewrite <-Hhl. split_and!; try done.
  intros t c HT. apply afterHead_Todo in HT as (-> & p & c' & -> & Hpl & HRest); [|done..].
  rewrite Ef' in HRest, Hfit. unfold Todo. rewrite Hs. rewrite Et.
  pose proof (isFirst_root s f fs HI Hs Ef) as Hfr. pose proof (inv_frames _ HI) as Hfo.
  rewrite Ef in Hfo. apply Forall_cons in Hfo as [Hfo _].
  destruct (Z.eqb_spec (rootItems s) 0) as [Hz|Hz].
  - rewrite (proj2 Hfr Hz) in E1 |- *. cbn [andb] in E1. rewrite Hc. exists f.
    pose proof (inv_type _ HI Hs) as Hty. rewrite Hz, Ef in Hty. simpl in Hty.
    destruct fs; [|simpl in Hty; lia]. split; [done|]. right.
    apply orb_false_iff in E1 as [E1 Eb]. apply orb_false_iff in E1 as [E1 Ei].
    apply negb_false_iff, Z.eqb_eq in E1.
    assert (Hin : inline h = 0) by (unfold inline; by rewrite E1).
    rewrite Hin in Hpl. apply blen_0 in Hpl as ->. unfold headFrames, opens in HRest.
    rewrite E1 in HRest. split; [|by exists hb, h, c'].
    intros Hi. unfold live in Hl. rewrite Hi in Hl. apply Z.ltb_lt in Hl. lia.
  - assert (Ef1 : isFirst s = false) by (destruct (isFirst s); [by destruct (Hz (proj1 Hfr eq_refl))|done]).
    rewrite Ef1. split; [done|]. exists [], (hb ++ p ++ c'). rewrite Hp. split_and!; try done.
    rewrite Ef. apply (Rest_item f fs hb h); try done.
Qed.

Lemma break_sound data s f fs :
  SInv s -> started s = true -> complete s = false -> frames s = f :: fs -> pendingBytes s = 0 ->
  frameIndefinite f = true -> (offset s < length data)%nat -> byte_at data (offset s) = 0xff ->
  Sound data s (finishItem (with_frames fs (advance 1 0 s))) /\
  forall t c, Todo s t (0xff :: c) -> Todo (finishItem (with_frames fs (advance 1 0 s))) t c.
Proof.
  intros HI Hs Hc Ef Hp Hi Ho Hff. set (s1 := with_frames fs (advance 1 0 s)).
  pose proof HI as [Hf Hd _ Hr _ _ _ Ht]. specialize (Ht Hs). rewrite Ef in *. unfold frames_ok in Hf.
  apply Forall_cons in Hf as [Hf Hfs].
  assert (HP : PInv s1).
  { split; simpl; try done; [rewrite blen_cons in Hd; lia|lia|].
    destruct (_ =? _); [|done]. destruct Ht as (? & _ & ?). simpl in *. split; [done|lia]. }
  assert (HTodo : forall t c, Todo (finishItem s1) t c <-> Todo s t (0xff :: c)).
  { intros t c. destruct (Z.eqb_spec (rootItems s) 0) as [Hz|Hz].
    - destruct Ht as (_ & _ & Hl). destruct fs; [|simpl in Hl; lia].
      unfold Todo. simpl. rewrite Hs, Hz, Hc, Ef. simpl. split.
      + intros [-> ->]. exists f. split; [done|]. by left.
      + intros (f' & [= <-] & [(_ & [= ->] & ->)|(_ & tb & th & c' & Hc' & [Hh [Hb _]] & _)]); [done|].
        exfalso. apply (HeadOf_break _ _ Hh Hb). destruct tb as [|x tb]; [by apply HeadOf_length in Hh; simpl in Hh; lia|].
        by simplify_eq/=.
    - rewrite finishItem_Todo by done. unfold Todo. simpl. rewrite Hs, (proj2 (Z.eqb_neq _ _) Hz), Ef, Hp. split.
      + intros (-> & HR). split; [done|]. exists [], (0xff :: c). split_and!; try done. by apply Rest_break.
      + intros (-> & p & c' & E & Hz' & HR). split; [done|]. apply blen_0 in Hz' as ->. simpl in E. subst c'.
        unfold Rest in HR. rewrite fmap_cons in HR.
        destruct (Completes_inv _ _ _ _ _ Hf HR) as [(Hi' & _)|[(_ & tl & [= ->] & HC)|(_ & b & h & c' & E & Hit & _)]].
        * simpl in Hi'. congruence.
        * done.
        * exfalso. assert (exists hb w, 0xff :: c = hb ++ w /\ HeadOf hb h /\ IsBreak h = false) as (hb & w & E' & Hh & Hb).
          { inversion Hit; simplify_eq; rewrite <-?app_assoc in E; eauto. }
          apply (HeadOf_break _ _ Hh Hb). destruct hb as [|x hb]; [by apply HeadOf_length in Hh; simpl in Hh; lia|].
          by simplify_eq/=. }
  split; [|intros t c; apply HTodo].
  split; [by apply finishItem_inv|]. exists [0xff].
  rewrite (proj1 (finishItem_fields s1)). simpl. split_and!; try lia; [|intros t c; apply HTodo].
  replace (offset s + 1)%nat with (S (offset s)) by lia. rewrite <-Hff. unfold byte_at. apply drop_S.
  rewrite nth_lookup. destruct (lookup_lt_is_Some_2 data (offset s)) as [x Hx]; [lia|]. by rewrite Hx.
Qed.

Lemma turn_sound data max s s' :
  SInv s -> complete s = false -> (offset s <= length data)%nat -> wf_bytes data ->
  blen data <= MaxInt -> turn_ok (scanTurn data max s) = Some s' -> exceedsLimit max s' = false ->
  Sound data s s'.
Proof.
  intros HI Hc Ho Hwf Hlen H He. unfold scanTurn in H.
  destruct (exceedsLimit max s) eqn:E1; [simplify_eq/=; congruence|].
  destruct (started s) eqn:Hs.
  2:{ destruct (inv_fresh _ HI Hs) as (_ & _ & Hp & _). rewrite Hp in H. simpl in H.
      by eapply root_sound. }
  destruct (Z.ltb_spec 0 (pendingBytes s)) as [Hp|Hp]; [by apply pending_sound|].
  assert (Hp0 : pendingBytes s = 0) by (pose proof (inv_pending _ HI); lia). cbn [negb] in H.
  destruct (inv_live _ HI Hs Hc Hp0) as (f & fs & Ef & Hl). rewrite Ef in H.
  destruct (decide (length data <= offset s)%nat); [simplify_eq/=; by apply Sound_refl|].
  destruct (frameIndefinite f && (byte_at data (offset s) =? 255)) eqn:E2.
  - apply andb_true_iff in E2 as [Hi Hb]. apply Z.eqb_eq in Hb.
    rewrite return_if_complete_ok in H. simplify_eq. apply (break_sound data s f fs); (done || lia).
  - destruct (negb (frameIndefinite f) && (frameRemaining f =? 0)) eqn:E3.
    + apply andb_true_iff in E3 as [Hi Hz]. unfold live in Hl. apply negb_true_iff in Hi.
      apply Z.eqb_eq in Hz. by rewrite Hi, Hz in Hl.
    + by eapply item_sound.
Qed.

(** ** Completeness of one turn *)

Lemma Todo_limit max s t c :
  SInv s -> Todo s t c -> max <= 0 \/ Z.of_nat (offset s) + blen c <= max -> max <= MaxInt ->
  exceedsLimit max s = false.
Proof.
  intros HI HT Hmax Hm. unfold exceedsLimit. destruct (Z.leb_spec max 0); [done|].
  pose proof (blen_nonneg c). destruct (Z.ltb_spec max (Z.of_nat (offset s))); [lia|].
  apply Z.ltb_ge. rewrite u64_small by (unfold MaxUint64, MaxInt in *; lia).
  unfold Todo in HT. destruct (started s) eqn:Hs.
  - pose proof (inv_type _ HI Hs) as Ht. destruct (rootItems s =? 0); [lia|].
    destruct HT as (_ & p & c' & -> & Hp & _). rewrite blen_app in *. pose proof (blen_nonneg c'). lia.
  - destruct (inv_fresh _ HI Hs) as (_ & _ & -> & _). lia.
Qed.

(** The next thing an open frame needs is a break or the head of an item. *)
Lemma Todo_inv s f fs t c :
  SInv s -> started s = true -> complete s = false -> frames s = f :: fs -> live f = true ->
  pendingBytes s = 0 -> Z.of_nat (offset s) <= MaxInt -> wf_bytes c -> Todo s t c ->
  (frameIndefinite f = true /\ exists tl, c = 0xff :: tl) \/
  exists hb h w, c = hb ++ w /\ HeadOf hb h /\ head_ok h /\ headFits h (f :: fs) /\
    isFirst s && (negb (Major h =? 0) || Indefinite h || IsBreak h) = false /\
    Todo (afterHead h (itemState h f fs s)) t w.
Proof.
  intros HI Hs Hc Ef Hl Hp Ho Hwf HT. unfold Todo in HT. rewrite Hs in HT.
  pose proof (isFirst_root s f fs HI Hs Ef) as Hfr.
  destruct (Z.eqb_spec (rootItems s) 0) as [Hz|Hz].
  - rewrite Hc in HT. destruct HT as (f' & Ef' & HT). rewrite Ef in Ef'. simplify_eq.
    destruct HT as [(Hi & -> & ->)|(Hne & tb & th & c' & -> & (Hh & Hb & Hm) & -> & HR)];
      [left; by eauto|right].
    exists tb, th, c'. apply wf_bytes_app in Hwf as [Hwf _].
    destruct (HeadOf_ranges _ _ Hwf Hh) as (Ha & _ & Hind).
    assert (Hi : Indefinite th = false) by (destruct (Indefinite th); [destruct (Hind eq_refl); lia|done]).
    pose proof (HeadOf_length _ _ Hh) as Hl1.
    destruct (itemState_pre th f' [] s HI Hs Hc Ef ltac:(rewrite (proj2 Hh); lia) Ho Hp) as (HP & Hne' & _ & Ef' & _ & Et & _).
    assert (Hfit : headFits th (frames (itemState th f' [] s))) by (unfold headFits, opens; by rewrite Hm).
    split_and!; try done.
    + unfold head_ok. split_and!; try done; intros; lia.
    + unfold headFits, opens. by rewrite Hm.
    + rewrite Hm, Hi, Hb. by rewrite andb_false_r.
    + apply afterHead_Todo; try done. rewrite Et, (proj2 Hfr Hz), Ef'. split; [done|].
      exists [], c'. unfold inline, headFrames, opens. by rewrite Hm.
  - destruct HT as (-> & p & c' & -> & Hpl & HR). rewrite Hp in Hpl. apply blen_0 in Hpl as ->.
    simpl in Hwf. rewrite Ef in HR. pose proof (inv_frames _ HI) as Hfo. rewrite Ef in Hfo. apply Forall_cons in Hfo as [Hfo _].
    destruct (Rest_inv f fs c' Hfo Hl Hwf HR) as [(Hi & tl & -> & _)|(hb & h & q & w & -> & Hh & Hok & Hq & Hfit & HR')];
      [left; by eauto|right].
    exists hb, h, (q ++ w). apply wf_bytes_app in Hwf as [Hwf _].
    destruct (HeadOf_ranges _ _ Hwf Hh) as (Ha & _ & Hind). pose proof (HeadOf_length _ _ Hh) as Hl1.
    assert (Ef1 : isFirst s = false) by (destruct (isFirst s); [by destruct (Hz (proj1 Hfr eq_refl))|done]).
    destruct (itemState_pre h f fs s HI Hs Hc Ef ltac:(rewrite (proj2 Hh); lia) Ho Hp) as (HP & Hne' & _ & Ef' & _ & Et & _).
    rewrite Ef1 in Et |- *. split_and!; try done.
    apply afterHead_Todo; try done; [by rewrite Ef'|]. rewrite Et, Ef'. split; [done|]. by exists q, w.
Qed.

(** A turn on input that starts with what is needed, [c], or with a part of it:
    no error, and the loop stops early only when the message is complete, the
    input ends before the message does, or the message type has just been read. *)
Definition Stops (data : bytes) (s s' : messageScanner) (c : bytes) : Prop :=
  complete s' = true \/ (length data < offset s + length c)%nat \/
  (hasMessageType s = false /\ hasMessageType s' = true).

Definition Progress (data : bytes) (s : messageScanner) (t : option Z) (c : bytes) (r : turn) : Prop :=
  exists s' k c', c = k ++ c' /\ offset s' = (offset s + length k)%nat /\ Todo s' t c' /\ SInv s' /\
    (r = Continue s' \/ (r = Return s' None /\ Stops data s s' c)).

Lemma return_if_complete_progress data s t c s' k c' :
  c = k ++ c' -> offset s' = (offset s + length k)%nat -> Todo s' t c' -> SInv s' ->
  Progress data s t c (return_if_complete s').
Proof.
  intros -> Ho HT HI. exists s', k, c'. split_and!; try done.
  unfold return_if_complete. destruct (complete s') eqn:E; [right|by left]. split; [done|]. by left.
Qed.

(** The input cut short, or the head whole. *)
Lemma head_available data off z c rest hb h w :
  drop off data ++ z = c ++ rest -> c = hb ++ w -> HeadOf hb h -> (off <= length data)%nat ->
  ReadHead data off = Ok (Some h) \/
  (ReadHead data off = Ok None /\ (length data < off + length c)%nat).
Proof.
  intros Hd -> Hh Ho. rewrite ReadHead_drop. rewrite <-app_assoc in Hd.
  destruct (ReadHead_prefix _ _ _ _ _ Hd Hh) as [[_ E]|[Hl E]]; [by left|right].
  split; [done|]. rewrite length_drop in Hl. rewrite length_app. lia.
Qed.

Lemma pending_complete data s t c z rest :
  SInv s -> started s = true -> complete s = false -> (offset s <= length data)%nat ->
  0 < pendingBytes s -> Todo s t c -> drop (offset s) data ++ z = c ++ rest ->
  Progress data s t c (scanPending data s).
Proof.
  intros HI Hs Hc Ho Hp HT Hd. pose proof HI as [Hf Hdp Hpd Hr _ _ _ Ht]. specialize (Ht Hs).
  unfold Todo in HT. rewrite Hs in HT. destruct (Z.eqb_spec (rootItems s) 0) as [Hz|Hz]; [lia|].
  destruct HT as (-> & p & c' & -> & Hpl & HR). unfold scanPending.
  set (k := Z.min (blen data - Z.of_nat (offset s)) (pendingBytes s)).
  set (s1 := with_pending _ _).
  assert (Hk : 0 <= k <= blen p) by (unfold k, blen in *; lia).
  assert (HS : forall x, turn_ok (if 0 <? pendingBytes s1 then Return s1 None
    else return_if_complete (finishItem s1)) = Some x -> SInv x).
  { intros x Hx. by destruct (pending_sound data s x). }
  destruct (0 <? pendingBytes s1) eqn:E1.
  - apply Z.ltb_lt in E1. simpl in E1. exists s1, (take (Z.to_nat k) p), (drop (Z.to_nat k) p ++ c').
    rewrite app_assoc, take_drop, length_take. unfold blen in *. split_and!; [done|simpl; lia| |by apply HS|].
    + unfold Todo. simpl. rewrite Hs, (proj2 (Z.eqb_neq _ _) Hz). split; [done|].
      exists (drop (Z.to_nat k) p), c'. split_and!; try done. rewrite blen_drop. unfold blen. lia.
    + right. split; [done|]. right. left. rewrite length_app. unfold k in E1. lia.
  - apply Z.ltb_ge in E1. simpl in E1. assert (Ek : k = blen p) by (unfold blen in *; lia).
    assert (HP : PInv s1) by (split; simpl; try done; [lia|by rewrite (proj2 (Z.eqb_neq _ _) Hz)]).
    apply (return_if_complete_progress _ _ _ _ _ p c'); [done| | |].
    + rewrite (proj1 (finishItem_fields _)). simpl. unfold blen in *. lia.
    + apply finishItem_Todo; [done|simpl; lia|done|]. by split.
    + apply HS. apply return_if_complete_ok.
Qed.

Lemma root_complete data max s t c z rest :
  SInv s -> started s = false -> (offset s <= length data)%nat -> wf_bytes data -> wf_bytes c ->
  Todo s t c -> drop (offset s) data ++ z = c ++ rest ->
  max <= 0 \/ Z.of_nat (offset s) + blen c <= max -> max <= MaxInt ->
  Progress data s t c (scanRoot data max s).
Proof.
  intros HI Hs Ho Hwf Hwfc HT Hd Hmax Hm. unfold Todo in HT. rewrite Hs in HT.
  destruct (Message_root _ _ HT Hwfc) as (hb & h & w & Ec & (Hh & Hb & Hmj) & HRT).
  destruct (inv_fresh _ HI Hs) as (_ & Hf & Hp & _).
  destruct (head_available _ _ _ _ _ _ _ _ Hd Ec Hh Ho) as [HR|[HR Hshort]].
  2:{ unfold scanRoot. rewrite HR. exists s, [], c. rewrite Nat.add_0_r. split_and!; try done.
      - unfold Todo. by rewrite Hs.
      - right. split; [done|]. right. by left. }
  assert (Hlim : exceedsLimit max (advance (EncodedSize h) (EncodedSize h) s) = false).
  { unfold exceedsLimit. simpl. rewrite Hp, (proj2 Hh). destruct (Z.leb_spec max 0); [done|].
    subst c. rewrite blen_app in Hmax. pose proof (blen_nonneg w). unfold blen in *.
    destruct (Z.ltb_spec max (Z.of_nat (offset s + length hb))); [lia|].
    apply Z.ltb_ge. rewrite u64_small; unfold MaxUint64, MaxInt in *; lia. }
  rewrite (scanRoot_head _ _ _ _ HR Hf Hmj Hb Hlim).
  destruct (ReadHead_split _ _ _ Hwf HR) as (_ & _ & _ & _ & _ & _ & Ha & _).
  destruct (rootState_spec h s HI Hs Ha) as (HI' & Ho' & _ & HT').
  pose proof (proj2 Hh) as Hsz.
  destruct (Indefinite h) eqn:Ei.
  - eexists _, hb, w. split_and!; [done|rewrite <-Hsz; exact Ho'|apply HT'; exact HRT|exact HI'|by left].
  - apply (return_if_complete_progress _ _ _ _ _ hb w); [done|by rewrite <-Hsz|by apply HT'|done].
Qed.

Lemma item_complete data max f fs s t c z rest hb h w :
  SInv s -> started s = true -> complete s = false -> frames s = f :: fs -> live f = true ->
  pendingBytes s = 0 -> (offset s <= length data)%nat -> wf_bytes data -> blen data <= MaxInt ->
  Todo s t c -> drop (offset s) data ++ z = c ++ rest ->
  max <= 0 \/ Z.of_nat (offset s) + blen c <= max -> max <= MaxInt ->
  c = hb ++ w -> HeadOf hb h -> head_ok h -> headFits h (f :: fs) ->
  isFirst s && (negb (Major h =? 0) || Indefinite h || IsBreak h) = false ->
  Todo (afterHead h (itemState h f fs s)) t w ->
  Progress data s t c (scanItem data max f fs s).
Proof.
  intros HI Hs Hc Ef Hl Hp Ho Hwf Hlen HT Hd Hmax Hm Ec Hh Hok Hfit Hfirst HT'.
  destruct (head_available _ _ _ _ _ _ _ _ Hd Ec Hh Ho) as [HR|[HR Hshort]].
  2:{ unfold scanItem. rewrite HR. exists s, [], c. rewrite Nat.add_0_r. split_and!; try done.
      right. split; [done|]. right. by left. }
  rewrite (scanItem_head _ _ _ _ _ _ HI Hs Hc Ef Hp Hwf HR Hlen), Hfirst.
  destruct (ReadHead_split _ _ _ Hwf HR) as (hb' & _ & Hh' & Hwfh & _ & Hs1 & Ha & Hmj).
  destruct (HeadOf_ranges _ _ Hwfh Hh') as (_ & _ & Hind).
  destruct (itemState_pre h f fs s HI Hs Hc Ef Hs1 ltac:(unfold blen in Hlen; lia) Hp)
    as (HP & Hne & Hp' & Ef' & Eo & Et & Eht).
  assert (Hlim : exceedsLimit max (itemState h f fs s) = false).
  { unfold exceedsLimit. rewrite Eo, Hp', (proj2 Hh). destruct (Z.leb_spec max 0); [done|].
    subst c. rewrite blen_app in Hmax. pose proof (blen_nonneg w). unfold blen in *.
    destruct (Z.ltb_spec max (Z.of_nat (offset s + length hb))); [lia|].
    apply Z.ltb_ge. rewrite u64_small; unfold MaxUint64, MaxInt in *; lia. }
  rewrite Hlim.
  destruct (scanSwitch_spec h (itemState h f fs s)
    (fun s' => if isFirst s then Return s' None else return_if_complete s') Hmj Hind Hp')
    as [(_ & _ & E)|(Hn & _)]; [|destruct Hn; rewrite Ef'; done]. rewrite E.
  assert (Eo' : offset (afterHead h (itemState h f fs s)) = (offset s + length hb)%nat).
  { rewrite afterHead_offset, Eo. by rewrite (proj2 Hh). }
  assert (HI' : SInv (afterHead h (itemState h f fs s))) by (apply afterHead_inv; try done; by rewrite Ef').
  destruct (isFirst s) eqn:Efst; [|by apply (return_if_complete_progress _ _ _ _ _ hb w)].
  exists (afterHead h (itemState h f fs s)), hb, w. split_and!; try done. right. split; [done|]. right. right.
  split.
  - apply (isFirst_root s f fs HI Hs Ef) in Efst. pose proof (inv_type _ HI Hs) as Ht.
    rewrite Efst in Ht. by destruct Ht.
  - by rewrite afterHead_type.
Qed.

Lemma Todo_nonempty s f fs t c :
  SInv s -> started s = true -> complete s = false -> frames s = f :: fs -> live f = true ->
  pendingBytes s = 0 -> Z.of_nat (offset s) <= MaxInt -> wf_bytes c -> Todo s t c -> (1 <= length c)%nat.
Proof.
  intros HI Hs Hc Ef Hl Hp Ho Hwf HT.
  destruct (Todo_inv s f fs t c HI Hs Hc Ef Hl Hp Ho Hwf HT)
    as [(_ & tl & ->)|(hb & h & w & -> & Hh & _)]; [simpl; lia|].
  apply HeadOf_length in Hh. rewrite length_app. lia.
Qed.

Lemma turn_complete data max s t c z rest :
  SInv s -> complete s = false -> (offset s <= length data)%nat -> wf_bytes data ->
  blen data <= MaxInt -> wf_bytes c -> Todo s t c -> drop (offset s) data ++ z = c ++ rest ->
  max <= 0 \/ Z.of_nat (offset s) + blen c <= max -> max <= MaxInt ->
  Progress data s t c (scanTurn data max s).
Proof.
  intros HI Hc Ho Hwf Hlen Hwfc HT Hd Hmax Hm. unfold scanTurn.
  rewrite (Todo_limit max s t c HI HT Hmax Hm).
  destruct (started s) eqn:Hs.
  2:{ destruct (inv_fresh _ HI Hs) as (_ & _ & -> & _). simpl. by eapply root_complete. }
  destruct (Z.ltb_spec 0 (pendingBytes s)) as [Hp|Hp]; [by eapply pending_complete|].
  assert (Hp0 : pendingBytes s = 0) by (pose proof (inv_pending _ HI); lia). cbn [negb].
  destruct (inv_live _ HI Hs Hc Hp0) as (f & fs & Ef & Hl). rewrite Ef.
  assert (Ho' : Z.of_nat (offset s) <= MaxInt) by (unfold blen in Hlen; lia).
  destruct (decide (length data <= offset s)%nat) as [Hend|Hend].
  { pose proof (Todo_nonempty s f fs t c HI Hs Hc Ef Hl Hp0 Ho' Hwfc HT).
    exists s, [], c. rewrite Nat.add_0_r. split_and!; try done. right. split; [done|]. right. left. lia. }
  assert (Hb : byte_at data (offset s) = byte_at (c ++ rest) 0).
  { rewrite <-(Nat.add_0_r (offset s)), <-byte_at_drop, <-Hd. unfold byte_at. symmetry.
    apply app_nth1. rewrite length_drop. lia. }
  rewrite Hb. destruct (Todo_inv s f fs t c HI Hs Hc Ef Hl Hp0 Ho' Hwfc HT)
    as [(Hi & tl & ->)|(hb & h & w & Ec & Hh & Hok & Hfit & Hfirst & HT')].
  - rewrite Hi. simpl in Hb |- *. destruct (break_sound data s f fs) as [HS HB]; try (done || lia).
    apply (return_if_complete_progress _ _ _ _ _ [0xff] tl); [done| |by apply HB|by apply HS].
    rewrite (proj1 (finishItem_fields _)). simpl. lia.
  - assert (Hff : byte_at (c ++ rest) 0 <> 0xff).
    { subst c. intros Hx. apply (HeadOf_break hb h Hh (proj1 Hok)).
      destruct hb; [by apply HeadOf_length in Hh; simpl in Hh; lia|done]. }
    rewrite (proj2 (Z.eqb_neq _ _) Hff), andb_false_r.
    assert (E3 : negb (frameIndefinite f) && (frameRemaining f =? 0) = false).
    { unfold live in Hl. destruct (frameIndefinite f); [done|]. simpl in *. apply Z.ltb_lt in Hl.
      apply Z.eqb_neq. lia. }
    rewrite E3. by eapply (item_complete data max f fs s t c z rest hb h w).
Qed.

(** ** The loop *)

Definition measure (data : bytes) (s : messageScanner) : nat :=
  2 * (length data - offset s) + length (frames s).

Lemma return_if_complete_Continue s s' :
  return_if_complete s = Continue s' -> s' = s /\ complete s = false.
Proof. unfold return_if_complete. destruct (complete s) eqn:E; [done|]. by intros [= <-]. Qed.

Lemma finishFrames_length fs : (length (finishFrames fs) <= length fs)%nat.
Proof.
  destruct (finishFrames_spec fs) as (d & Hd & _). rewrite Hd at 2. rewrite length_app. lia.
Qed.

Lemma finishItem_measure s :
  offset (finishItem s) = offset s /\ (length (frames (finishItem s)) <= length (frames s))%nat /\
  hasMessageType (finishItem s) = hasMessageType s.
Proof.
  pose proof (finishFrames_length (frames s)) as H. unfold finishItem. cbn [frames with_frames].
  destruct (finishFrames (frames s)) eqn:E; simpl in *; by rewrite ?E.
Qed.

(** A turn that goes round again has consumed input or popped a frame, and keeps
    the message type. *)
Definition Goes (data : bytes) (s s' : messageScanner) : Prop :=
  complete s' = false /\ (offset s' <= length data)%nat /\ (measure data s' < measure data s)%nat /\
  (hasMessageType s = true -> hasMessageType s' = true).

Lemma switch_goes data h s0 s s' (first : bool) :
  complete s = false -> (1 <= EncodedSize h)%nat -> (offset s <= length data)%nat ->
  offset s = (offset s0 + EncodedSize h)%nat -> length (frames s) = length (frames s0) ->
  (hasMessageType s0 = true -> hasMessageType s = true) ->
  scanSwitch h s (fun s' => if first then Return s' None else return_if_complete s') = Continue s' ->
  Goes data s0 s'.
Proof.
  intros Hc Hsz Ho Eo Ef Ht H.
  assert (Hk : exists x, (s' = finishItem x \/ s' = x) /\ complete s' = false /\ offset x = offset s /\
    (length (frames x) <= S (length (frames s)))%nat /\ hasMessageType x = hasMessageType s).
  { unfold scanSwitch, pushing, pushFrame in H. destruct first.
    - repeat match type of H with context [if ?c then _ else _] => destruct c; try done end.
    - assert (HK : forall x, return_if_complete x = Continue s' -> s' = x /\ complete s' = false).
      { intros x Hx. apply return_if_complete_Continue in Hx as [-> ?]. done. }
      repeat match type of H with context [if ?c then _ else _] => destruct c; try done end;
        apply HK in H as [-> Hcc];
        first [ eexists; split; [by left|]; split_and!; simpl; (done || lia)
              | eexists; split; [by right|]; split_and!; simpl; (done || lia) ]. }
  destruct Hk as (x & Hx & Hc' & Eo' & Ef' & Et').
  assert (offset s' = offset x /\ (length (frames s') <= length (frames x))%nat /\
    hasMessageType s' = hasMessageType x) as (E1 & E2 & E3).
  { destruct Hx as [->| ->]; [apply finishItem_measure|done]. }
  split_and!; [done|lia|unfold measure; lia|rewrite E3, Et'; done].
Qed.

Lemma turn_goes data max s s' :
  complete s = false -> (offset s <= length data)%nat ->
  scanTurn data max s = Continue s' -> Goes data s s'.
Proof.
  intros Hc Ho H. unfold scanTurn in H. destruct (exceedsLimit max s); [done|].
  assert (Hfin : forall x, complete (finishItem x) = false -> (offset x <= length data)%nat ->
    (measure data x < measure data s)%nat -> (hasMessageType s = true -> hasMessageType x = true) ->
    Goes data s (finishItem x)).
  { intros x Hx Hox Hmx Htx. destruct (finishItem_measure x) as (E1 & E2 & E3).
    split_and!; [done|lia|unfold measure in *; lia|rewrite E3; done]. }
  destruct (Z.ltb_spec 0 (pendingBytes s)) as [Hp|_].
  { unfold scanPending in H. destruct (0 <? _) eqn:E; [done|]. simpl in E. apply Z.ltb_ge in E.
    apply return_if_complete_Continue in H as [-> Hcc].
    apply Hfin; unfold measure; simpl; try done; unfold blen in *; lia. }
  assert (Hsz : forall h, ReadHead data (offset s) = Ok (Some h) ->
    (1 <= EncodedSize h /\ offset s + EncodedSize h <= length data)%nat).
  { intros h HR. rewrite ReadHead_drop in HR. apply ReadHead_HeadOf in HR as [HR _].
    rewrite length_drop in HR. lia. }
  destruct (started s); cbn [negb] in H.
  2:{ unfold scanRoot, pushing, pushFrame in H. destruct (ReadHead data (offset s)) as [[h|]|]; [|done|done].
      destruct (Hsz h eq_refl). destruct (_ || _); [done|]. destruct (exceedsLimit _ _); [done|].
      destruct (Indefinite h), (MaxNestedLevels <=? _); try done.
      - simplify_eq. split_and!; simpl; unfold measure; simpl; try done; lia.
      - apply return_if_complete_Continue in H as [-> Hcc]. apply Hfin; unfold measure; simpl; try done; lia. }
  destruct (frames s) as [|f fs] eqn:Ef; [done|]. destruct (decide _) as [|Hlt]; [done|].
  destruct (_ && _).
  { apply return_if_complete_Continue in H as [-> Hcc].
    apply Hfin; unfold measure; rewrite ?Ef; simpl; try done; lia. }
  destruct (negb _ && _).
  { apply return_if_complete_Continue in H as [-> Hcc].
    apply Hfin; unfold measure; rewrite ?Ef; simpl; try done; lia. }
  unfold scanItem in H. destruct (ReadHead data (offset s)) as [[h|]|]; [|done|done].
  destruct (Hsz h eq_refl). fold (isFirst s) in H.
  destruct (isFirst s && _); [done|]. destruct (isFirst s && _); [done|].
  fold (itemState h f fs s) in H. destruct (exceedsLimit _ _); [done|].
  apply (switch_goes data h s (itemState h f fs s) s' (isFirst s)); try done; unfold itemState;
    destruct (isFirst s), (blen (frames s) =? 1); simpl; rewrite ?Ef; simpl; try done; lia.
Qed.

(** No turn reports the model's own error. *)
Definition no_fuel_error (r : turn) : Prop :=
  match r with Return _ (Some ErrScanFuel) => False | _ => True end.

Lemma no_fuel_return s : no_fuel_error (return_if_complete s).
Proof. unfold return_if_complete. by destruct (complete s). Qed.

Lemma no_fuel_pushing f s k : (forall s, no_fuel_error (k s)) -> no_fuel_error (pushing f s k).
Proof. intros Hk. unfold pushing, pushFrame. by destruct (_ <=? _). Qed.

Lemma no_fuel_switch h s k : (forall s, no_fuel_error (k s)) -> no_fuel_error (scanSwitch h s k).
Proof.
  intros Hk. unfold scanSwitch.
  repeat match goal with |- no_fuel_error (if ?c then _ else _) => destruct c end;
    try done; try (by apply no_fuel_pushing); apply Hk.
Qed.

Lemma no_fuel_turn data max s : no_fuel_error (scanTurn data max s).
Proof.
  unfold scanTurn, scanPending, scanRoot, scanItem.
  repeat match goal with
  | |- no_fuel_error (if ?c then _ else _) => destruct c
  | |- no_fuel_error (match ?c with _ => _ end) => destruct c
  | |- no_fuel_error (let _ := _ in _) => cbv zeta
  end; try done; auto using no_fuel_return, no_fuel_pushing;
  first [apply no_fuel_pushing | apply no_fuel_switch]; intros;
  first [done | apply no_fuel_return | destruct (_ && _); [done|apply no_fuel_return]].
Qed.

Lemma scanLoop_fuel data max : forall fuel s,
  complete s = false -> (offset s <= length data)%nat -> (measure data s < fuel)%nat ->
  snd (scanLoop fuel data max s) <> Some ErrScanFuel.
Proof.
  induction fuel as [|fuel IH]; intros s Hc Ho Hf; [lia|]. cbn [scanLoop].
  pose proof (no_fuel_turn data max s) as Hn.
  destruct (scanTurn data max s) as [s'|s' e] eqn:E.
  - destruct (turn_goes _ _ _ _ Hc Ho E) as (Hc' & Ho' & Hm & _). apply IH; (done || lia).
  - intros Hx. simpl in Hx. by subst e.
Qed.

Lemma scanLoop_limit fuel data max s s' e :
  exceedsLimit max s = true -> scanLoop (S fuel) data max s = (s', e) -> s' = s.
Proof. intros H. cbn [scanLoop]. unfold scanTurn. rewrite H. by intros [= -> _]. Qed.

Lemma scanLoop_sound data max : wf_bytes data -> blen data <= MaxInt -> forall fuel s s',
  SInv s -> complete s = false -> (offset s <= length data)%nat ->
  scanLoop fuel data max s = (s', None) -> exceedsLimit max s' = false -> Sound data s s'.
Proof.
  intros Hwf Hlen. induction fuel as [|fuel IH]; intros s s' HI Hc Ho H He; [done|]. cbn [scanLoop] in H.
  destruct (scanTurn data max s) as [s1|s1 e] eqn:E; simplify_eq.
  - destruct (turn_goes _ _ _ _ Hc Ho E) as (Hc1 & Ho1 & _).
    assert (He1 : exceedsLimit max s1 = false).
    { destruct (exceedsLimit max s1) eqn:Ee; [|done]. destruct fuel; [done|].
      apply scanLoop_limit in H; [|done]. congruence. }
    assert (HS : Sound data s s1) by (eapply turn_sound; eauto; by rewrite E).
    eapply Sound_trans; [done|]. apply IH; try done. apply HS.
  - eapply turn_sound; eauto. by rewrite E.
Qed.

Lemma scanLoop_complete data max t z rest : wf_bytes data -> blen data <= MaxInt -> max <= MaxInt ->
  forall fuel s c,
  SInv s -> complete s = false -> (offset s <= length data)%nat -> (measure data s < fuel)%nat ->
  wf_bytes c -> Todo s t c -> drop (offset s) data ++ z = c ++ rest ->
  max <= 0 \/ Z.of_nat (offset s) + blen c <= max ->
  exists s' k c', scanLoop fuel data max s = (s', None) /\ SInv s' /\ c = k ++ c' /\
    offset s' = (offset s + length k)%nat /\ (offset s' <= length data)%nat /\ Todo s' t c' /\
    exceedsLimit max s' = false /\ Stops data s s' c.
Proof.
  intros Hwf Hlen Hm. induction fuel as [|fuel IH]; intros s c HI Hc Ho Hf Hwfc HT Hd Hmax; [lia|].
  cbn [scanLoop].
  destruct (turn_complete data max s t c z rest) as (s1 & k & c1 & -> & Eo & HT1 & HI1 & Hr); try done.
  rewrite blen_app in Hmax. apply wf_bytes_app in Hwfc as [_ Hwfc].
  assert (He1 : exceedsLimit max s1 = false).
  { apply (Todo_limit max s1 t c1); try done. rewrite Eo. unfold blen in *. lia. }
  assert (Ho1 : (offset s1 <= length data)%nat).
  { destruct Hr as [Hr|[Hr _]]; (destruct (turn_sound data max s s1) as (_ & _ & _ & _ & ? & _); try done; by rewrite Hr). }
  destruct Hr as [Hr|[Hr Hst]]; rewrite Hr.
  - destruct (turn_goes _ _ _ _ Hc Ho Hr) as (Hc1 & _ & Hm1 & Hk1).
    destruct (IH s1 c1) as (s2 & k2 & c2 & E & HI2 & -> & Eo2 & Ho2 & HT2 & He2 & Hst); try (done || lia).
    + rewrite Eo, <-drop_drop. apply (f_equal (drop (length k))) in Hd.
      rewrite <-app_assoc, drop_app_length in Hd. rewrite <-Hd. symmetry. apply drop_app_le.
      rewrite length_drop. lia.
    + rewrite Eo. unfold blen in *. lia.
    + exists s2, (k ++ k2), c2. rewrite app_assoc, length_app. split_and!; try (done || lia).
      unfold Stops in *. rewrite !length_app in *. destruct Hst as [?|[?|[Hf1 ?]]]; [by left|right; left; lia|].
      right. right. split; [|done]. destruct (hasMessageType s); [|done]. by rewrite Hk1 in Hf1.
  - exists s1, k, c1. split_and!; try done.
Qed.

(** ** Scanning a buffer that grows *)

(** [scan] after each arrival: the buffer holds the first [n] bytes of [data] for
    each [n] of [ns] in turn. *)
Fixpoint feeds (s : messageScanner) (data : bytes) (maxBytes : Z) (ns : list nat)
    : messageScanner * option scanError :=
  match ns with
  | [] => (s, None)
  | n :: ns =>
    match scan s (take n data) maxBytes with
    | (s, None) => feeds s data maxBytes ns
    | (s, Some e) => (s, Some e)
    end
  end.

Lemma feeds_app s data max ns ms :
  feeds s data max (ns ++ ms) =
  match feeds s data max ns with (s, None) => feeds s data max ms | r => r end.
Proof.
  revert s. induction ns as [|n ns IH]; intros s; [done|]. simpl.
  destruct (scan s (take n data) max) as [s1 [e|]]; [done|]. apply IH.
Qed.

(** The scanner has read the first bytes of the message [m] of type [t]. *)
Definition Reading (m : bytes) (t : option Z) (s : messageScanner) : Prop :=
  SInv s /\ exists k c, m = k ++ c /\ offset s = length k /\ Todo s t c.

Lemma scan_reading m t rest max n s :
  wf_bytes (m ++ rest) -> blen (m ++ rest) <= MaxInt -> max <= MaxInt ->
  max <= 0 \/ blen m <= max -> Reading m t s -> (offset s <= n)%nat ->
  exists s', scan s (take n (m ++ rest)) max = (s', None) /\ Reading m t s' /\ (offset s' <= n)%nat /\
    exceedsLimit max s' = false /\
    ((length m <= n)%nat -> complete s' = true \/ (hasMessageType s = false /\ hasMessageType s' = true)).
Proof.
  intros Hwf Hlen Hm Hmax (HI & k & c & -> & Eo & HT) Hn. unfold scan.
  rewrite <-app_assoc in *. rewrite !blen_app in *.
  assert (He : exceedsLimit max s = false).
  { apply (Todo_limit max s t c); try done. unfold blen in *. lia. }
  destruct (complete s) eqn:Hc.
  { exists s. split_and!; try done; [|by left]. split; [done|]. by exists k, c. }
  assert (Hlk : (length k <= length (take n (k ++ c ++ rest)))%nat).
  { rewrite length_take, length_app. lia. }
  destruct (decide _) as [Hx|_]; [lia|].
  apply wf_bytes_app in Hwf as Hwf'. destruct Hwf' as [_ Hwf'].
  destruct (scanLoop_complete (take n (k ++ c ++ rest)) max t (drop n (k ++ c ++ rest)) rest)
    with (fuel := scanFuel (take n (k ++ c ++ rest)) s) (s := s) (c := c)
    as (s' & k' & c' & E & HI' & -> & Eo' & Ho' & HT' & He' & Hst); try done; try lia.
  - by apply wf_bytes_take.
  - rewrite blen_take, !blen_app. lia.
  - unfold measure, scanFuel. lia.
  - by apply wf_bytes_app in Hwf' as [? _].
  - rewrite Eo. rewrite skipn_firstn_comm, drop_app_length. apply (inj (app (k))).
    transitivity (take n (k ++ c ++ rest) ++ drop n (k ++ c ++ rest)); [|by rewrite take_drop].
    rewrite (take_app_ge k (c ++ rest) n) by lia. by rewrite <-app_assoc.
  - unfold blen in *. lia.
  - exists s'. split; [done|]. split.
    { split; [done|]. exists (k ++ k'), c'. rewrite app_assoc, length_app. split_and!; (done || lia). }
    rewrite length_take in Ho'. split; [lia|]. split; [done|]. intros Hall.
    destruct Hst as [?|[Hshort|?]]; [by left| |by right].
    rewrite length_take, !length_app in *. lia.
Qed.

Lemma Reading_new m t : Message m t -> Reading m t newScanner.
Proof. intros HM. split; [apply SInv_new|]. by exists [], m. Qed.

Lemma complete_Todo s t c : SInv s -> complete s = true -> Todo s t c -> c = [] /\ t = stype s.
Proof.
  intros HI Hc HT. destruct (inv_complete _ HI Hc) as [Hf Hp]. unfold Todo in HT.
  destruct (started s) eqn:Hs; [|by destruct (inv_fresh _ HI Hs); congruence].
  pose proof (inv_type _ HI Hs) as Ht. destruct (rootItems s =? 0).
  - rewrite Hc in HT. destruct HT as [-> ->]. split; [done|]. unfold stype. by rewrite (proj1 Ht).
  - destruct HT as (-> & p & c' & -> & Hpl & HR). rewrite Hp in Hpl. apply blen_0 in Hpl as ->.
    rewrite Hf in HR. by apply Rest_nil in HR as ->.
Qed.

(** The buffer only grows. *)
Fixpoint growing (k : nat) (ns : list nat) : Prop :=
  match ns with [] => True | n :: ns => (k <= n)%nat /\ growing n ns end.

Lemma feeds_reading m t rest max n : wf_bytes (m ++ rest) -> blen (m ++ rest) <= MaxInt ->
  max <= MaxInt -> max <= 0 \/ blen m <= max -> forall ns s k,
  Reading m t s -> (offset s <= k)%nat -> growing k (ns ++ [n]) ->
  exists s', feeds s (m ++ rest) max ns = (s', None) /\ Reading m t s' /\ (offset s' <= n)%nat.
Proof.
  intros Hwf Hlen Hm Hmax. induction ns as [|n' ns IH]; intros s k HR Hk [Hkn Hg].
  { exists s. split_and!; (done || lia). }
  destruct (scan_reading m t rest max n' s) as (s1 & E & HR1 & Ho1 & _); try done; [lia|].
  cbn [feeds]. rewrite E. by apply (IH s1 n').
Qed.

(** C23. Whatever way a message arrives, the scanner finds it: for a message [m]
    of type [t] followed by any bytes, after any growing sequence of buffers that
    ends with the whole message, offered once more because [scan] returns early
    when it has read the type, the scanner reports no error, completion, the
    length of [m], the type [t], and that the limit is respected. *)
Theorem scan_chunked m t rest max ns n :
  Message m t -> wf_bytes (m ++ rest) -> blen (m ++ rest) <= MaxInt ->
  max <= 0 \/ blen m <= max <= MaxInt ->
  growing 0 (ns ++ [n]) -> (length m <= n)%nat ->
  exists s, feeds newScanner (m ++ rest) max (ns ++ [n; n]) = (s, None) /\ stype s = t /\
    scanResult max s = mkScanResult (messageType s) (hasMessageType s) true (length m) true false.
Proof.
  intros HM Hwf Hlen Hmax Hg Hn.
  assert (Hm : max <= MaxInt) by (unfold MaxInt in *; lia).
  assert (Hmax' : max <= 0 \/ blen m <= max) by lia.
  destruct (feeds_reading m t rest max n Hwf Hlen Hm Hmax' ns newScanner 0)
    as (s0 & E0 & HR0 & Ho0); [by apply Reading_new|simpl; lia|done|].
  destruct (scan_reading m t rest max n s0 Hwf Hlen Hm Hmax' HR0 Ho0) as (s1 & E1 & HR1 & Ho1 & He1 & Hc1).
  destruct (scan_reading m t rest max n s1 Hwf Hlen Hm Hmax' HR1 Ho1) as (s2 & E2 & HR2 & Ho2 & He2 & Hc2).
  assert (Hc : complete s2 = true).
  { destruct (Hc1 Hn) as [Hx|[_ Hx]]; [unfold scan in E2; rewrite Hx in E2; by simplify_eq|].
    destruct (Hc2 Hn) as [?|[? _]]; [done|congruence]. }
  exists s2. rewrite feeds_app, E0. simpl. rewrite E1, E2. split; [done|].
  destruct HR2 as (HI2 & k & c & -> & Eo & HT).
  destruct (complete_Todo _ _ _ HI2 Hc HT) as [-> ->]. split; [done|].
  unfold scanResult. rewrite He2, Hc, Eo, app_nil_r.
  destruct (started s2) eqn:Hs; [done|]. destruct (inv_fresh _ HI2 Hs). congruence.
Qed.

Lemma Sound_take data n s s' : Sound (take n data) s s' -> Sound data s s'.
Proof.
  intros (HI & k & Ek & Eo & Hl & HT). split; [done|]. exists k. rewrite length_take in Hl.
  split_and!; try (done || lia).
  rewrite <-(take_drop n data), !drop_app_le, Ek, app_assoc by (rewrite length_take; lia). done.
Qed.

Lemma scan_sound_step s data max s' :
  wf_bytes data -> blen data <= MaxInt -> SInv s -> scan s data max = (s', None) ->
  exceedsLimit max s' = false -> complete s = true /\ s' = s \/ Sound data s s'.
Proof.
  intros Hwf Hlen HI H He. unfold scan in H. destruct (complete s) eqn:Hc; [left; by simplify_eq|].
  destruct (decide _); [done|]. right. eapply scanLoop_sound; eauto. lia.
Qed.

Lemma scan_limit s data max s' e : exceedsLimit max s = true -> scan s data max = (s', e) -> s' = s.
Proof.
  intros He H. unfold scan in H. destruct (complete s); [by simplify_eq|].
  destruct (decide _); [by simplify_eq|]. replace (scanFuel data s) with (S (2 * length data + length (frames s))) in H by (unfold scanFuel; lia).
  by eapply scanLoop_limit.
Qed.

Lemma feeds_limit data max ns : forall s s' e,
  exceedsLimit max s = true -> feeds s data max ns = (s', e) -> s' = s.
Proof.
  induction ns as [|n ns IH]; intros s s' e He H; simpl in H; [by simplify_eq|].
  destruct (scan s (take n data) max) as [s1 e1] eqn:E. pose proof (scan_limit _ _ _ _ _ He E) as ->.
  destruct e1; [by simplify_eq|]. by eapply IH.
Qed.

Lemma feeds_sound data max : wf_bytes data -> blen data <= MaxInt -> forall ns s s',
  SInv s -> (offset s <= length data)%nat -> feeds s data max ns = (s', None) ->
  exceedsLimit max s' = false -> Sound data s s'.
Proof.
  intros Hwf Hlen. induction ns as [|n ns IH]; intros s s' HI Ho H He; simpl in H.
  { simplify_eq. by apply Sound_refl. }
  destruct (scan s (take n data) max) as [s1 [e|]] eqn:E; [done|].
  assert (He1 : exceedsLimit max s1 = false).
  { destruct (exceedsLimit max s1) eqn:Ee; [|done]. apply feeds_limit in H; [|done]. congruence. }
  destruct (scan_sound_step s (take n data) max s1) as [[_ ->]|HS]; try done.
  - by apply wf_bytes_take.
  - rewrite blen_take. lia.
  - by apply IH.
  - apply Sound_take in HS. eapply Sound_trans; [done|]. apply IH; try done; [apply HS|].
    destruct HS as (_ & _ & _ & _ & ? & _). done.
Qed.

(** The scanner never completes anything else: if scanning any sequence of
    buffers ends complete, without an error and within the limit, then the bytes
    it reports are a message, the first of the input, and the type it reports is
    that message's. *)
Theorem scan_only_messages data max ns s :
  wf_bytes data -> blen data <= MaxInt -> feeds newScanner data max ns = (s, None) ->
  complete s = true -> exceedsLimit max s = false ->
  Message (take (offset s) data) (stype s) /\ (offset s <= length data)%nat.
Proof.
  intros Hwf Hlen H Hc He.
  destruct (feeds_sound data max Hwf Hlen ns newScanner s SInv_new ltac:(simpl; lia) H He)
    as (HI & k & Ek & Eo & Hl & HT).
  split; [|done]. destruct (inv_complete _ HI Hc) as [Hf Hp].
  assert (Ht : Todo s (stype s) []).
  { unfold Todo. destruct (started s) eqn:Hs; [|by destruct (inv_fresh _ HI Hs); congruence].
    pose proof (inv_type _ HI Hs) as Ht. destruct (rootItems s =? 0).
    - rewrite Hc. split; [done|]. unfold stype. by rewrite (proj1 Ht).
    - split; [done|]. exists [], []. rewrite Hp, Hf. split_and!; try done. by apply Rest_nil. }
  apply HT in Ht. rewrite app_nil_r in Ht. simpl in Eo, Ek. rewrite drop_0 in Ek.
  rewrite Eo, Ek at 1. rewrite take_app_length. exact Ht.
Qed.

(** Witness of C23: the message [[5, h'00']] arriving in two parts. *)
Lemma scan_chunked_witness :
  exists s, feeds newScanner ([0x82; 0x05; 0x41; 0x00] ++ [0x80]) 4 ([2%nat] ++ [5%nat; 5%nat]) = (s, None) /\
    stype s = Some 5 /\
    scanResult 4 s = mkScanResult (messageType s) (hasMessageType s) true 4 true false.
Proof.
  apply (scan_chunked [0x82; 0x05; 0x41; 0x00] (Some 5) [0x80] 4 [2%nat] 5%nat).
  - apply (M_definite [0x82] (mkHead 4 2 2 false false 1) [0x05] (mkHead 0 5 5 false false 1) 1 [0x41; 0x00]);
      try done.
    apply (Is_cons false 0 rootDepth 0 [0x41; 0x00] (mkHead 2 1 1 false false 1) []); [|by left|constructor].
    apply (I_string false rootDepth [0x41] (mkHead 2 1 1 false false 1) [0x00]); try done. by left.
  - repeat constructor; unfold is_byte; lia.
  - vm_compute. discriminate.
  - right. vm_compute. split; discriminate.
  - simpl. lia.
  - simpl. lia.
Defined.

(** An instance. *)
Lemma scan_only_messages_witness :
  exists s, feeds newScanner [0x82; 0x05; 0x9f; 0xff; 0x00] 0 [3%nat; 5%nat] = (s, None) /\
    Message (take (offset s) [0x82; 0x05; 0x9f; 0xff; 0x00]) (stype s).
Proof.
  eexists. split; [vm_compute; reflexivity|].
  apply (scan_only_messages [0x82; 0x05; 0x9f; 0xff; 0x00] 0 [3%nat; 5%nat]).
  - repeat constructor; unfold is_byte; lia.
  - vm_compute. discriminate.
  - vm_compute. reflexivity.
  - reflexivity.
  - reflexivity.
Defined.

(** C35. The scan always returns: no state and no input, whatever a peer sends,
    makes its loop exceed the measure that bounds it. *)
Theorem scan_terminates s data max : snd (scan s data max) <> Some ErrScanFuel.
Proof.
  unfold scan. destruct (complete s) eqn:Hc; [done|]. destruct (decide _); [done|].
  apply scanLoop_fuel; [done|lia|unfold measure, scanFuel; lia].
Qed.

(** The bytes of a break are consumed but not counted as processed. *)
Example break_not_processed :
  let s := fst (feeds newScanner [0x82; 0x05; 0x9f; 0xff] 0 [4%nat; 4%nat]) in
  complete s = true /\ offset s = 4%nat /\ processedBytes s = 3%nat.
Proof. vm_compute. done. Qed.
