(* ===== verification/Protocol.v ===== *)
(** * The mini-protocol engine (src/protocol/state.go, src/protocol/protocol.go)

    The state map of a mini-protocol, who may send in a state, the transition a
    message takes, the protocol's state record with the operations that change it
    (the state loop, the admission of inbound messages, the accounting of
    pipelined requests and replies), and two endpoints that run the same map over
    a pair of ordered channels. *)

From S2P Require Import Prelude.

Inductive ProtocolStateAgency := AgencyNone | AgencyClient | AgencyServer.
Inductive ProtocolRole := ProtocolRoleNone | ProtocolRoleClient | ProtocolRoleServer.
Inductive agencyHolder := agencyNeither | agencyLocal | agencyPeer.

#[export] Instance ProtocolStateAgency_eq_dec : EqDecision ProtocolStateAgency.
Proof. solve_decision. Defined.
#[export] Instance agencyHolder_eq_dec : EqDecision agencyHolder.
Proof. solve_decision. Defined.

Record State := NewState { Id : Z; Name : string }.

#[export] Instance State_eq_dec : EqDecision State.
Proof. solve_decision. Defined.

Section StateMaps.
Context {Msg Ctx : Type}.

(** A match function may change the context it is given. *)
Record StateTransition := mkTransition {
  MsgType : Z;     (* uint8 *)
  NewStateOf : State;
  MatchFunc : option (Ctx -> Msg -> bool * Ctx)
}.

(** [TimeoutFunc] takes the random number the code draws. *)
Record StateMapEntry := mkEntry {
  Agency : ProtocolStateAgency;
  Transitions : list StateTransition;
  Timeout : Z;
  TimeoutFunc : option (Z -> Z);
  PendingMessageByteLimit : Z;
  PendingReceiveByteBudget : Z;
  AllowPipelinedSend : bool;
  PipelinedMessageTypes : list Z
}.

(** A Go map from states to entries: the keys are distinct ([map_keys_ok]). *)
Definition StateMap := list (State * StateMapEntry).

Definition map_keys_ok (sm : StateMap) : Prop := NoDup sm.*1.

End StateMaps.
Arguments StateTransition : clear implicits.
Arguments StateMapEntry : clear implicits.
Arguments StateMap : clear implicits.

Section Engine.
Context {Msg Ctx : Type} (Type_ : Msg -> Z).

Definition zeroEntry : StateMapEntry Msg Ctx := mkEntry AgencyNone [] 0 None 0 0 false [].

Fixpoint lookup_state (sm : StateMap Msg Ctx) (s : State) : option (StateMapEntry Msg Ctx) :=
  match sm with
  | [] => None
  | (k, e) :: sm => if decide (k = s) then Some e else lookup_state sm s
  end.

(** [config.StateMap[s]]: the zero entry for a state that is not in the map. *)
Definition entry_of (sm : StateMap Msg Ctx) (s : State) : StateMapEntry Msg Ctx :=
  default zeroEntry (lookup_state sm s).

(** ** Limits *)

Definition defaultMaxReadBufferSize : Z := 16 * 1024 * 1024.
Definition maxSegmentsPerBatch : Z := 10.
Definition minIngressLimit : Z := maxSegmentsPerBatch * 65535.

Definition maxReadBufferSize (cfgMax : Z) : Z :=
  if 0 <? cfgMax then cfgMax else defaultMaxReadBufferSize.

Definition ingressLimit (sm : StateMap Msg Ctx) (cfgLimit cfgMax : Z) : Z :=
  if 0 <? cfgLimit then cfgLimit else
  let limit := fold_left (fun limit kv => Z.max limit (PendingMessageByteLimit kv.2)) sm 0 in
  let limit := if limit =? 0 then maxReadBufferSize cfgMax else limit in
  Z.max limit minIngressLimit.

Definition hasPendingReceiveBudget (sm : StateMap Msg Ctx) : bool :=
  existsb (fun kv => 0 <? PendingReceiveByteBudget kv.2) sm.

Definition pendingMessageByteLimit (sm : StateMap Msg Ctx) (s : State) : Z :=
  match lookup_state sm s with Some e => PendingMessageByteLimit e | None => 0 end.

Definition pendingReceiveBudget (sm : StateMap Msg Ctx) (s : State) : Z :=
  match lookup_state sm s with
  | None => 0
  | Some e => if 0 <? PendingReceiveByteBudget e then PendingReceiveByteBudget e
              else PendingMessageByteLimit e
  end.

(** ** Agency *)

Definition agencyHolderFor (role : ProtocolRole) (entry : StateMapEntry Msg Ctx) : agencyHolder :=
  let against local :=
    match Agency entry with
    | AgencyClient | AgencyServer =>
        if decide (Agency entry = local) then agencyLocal else agencyPeer
    | AgencyNone => agencyNeither
    end in
  match role with
  | ProtocolRoleClient => against AgencyClient
  | ProtocolRoleServer => against AgencyServer
  | ProtocolRoleNone => agencyNeither
  end.

Definition roleHasAgency (role : ProtocolRole) (entry : StateMapEntry Msg Ctx) : bool :=
  bool_decide (agencyHolderFor role entry = agencyLocal).

Definition roleMayPipeline (role : ProtocolRole) (entry : StateMapEntry Msg Ctx) : bool :=
  AllowPipelinedSend entry && bool_decide (agencyHolderFor role entry = agencyPeer).

Definition messageHasAgencyTransition (role : ProtocolRole) (sm : StateMap Msg Ctx) (msg : Msg) : bool :=
  existsb (fun kv => roleHasAgency role kv.2 &&
    existsb (fun t => MsgType t =? Type_ msg) (Transitions kv.2)) sm.

Definition pipelinedMessageFits (entry : StateMapEntry Msg Ctx) (msg : Msg) : bool :=
  existsb (Z.eqb (Type_ msg)) (PipelinedMessageTypes entry).


Definition stateHasNoAgency (sm : StateMap Msg Ctx) (s : State) : bool :=
  match lookup_state sm s with
  | Some e => bool_decide (Agency e = AgencyNone)
  | None => false
  end.

(** The loop of [messageEndsProtocol], with its variable [found]. *)
Fixpoint endsLoop (sm : StateMap Msg Ctx) (msgType : Z) (found : bool)
    (ts : list (StateTransition Msg Ctx)) : bool :=
  match ts with
  | [] => found
  | t :: ts =>
    if negb (MsgType t =? msgType) then endsLoop sm msgType found ts
    else if negb (stateHasNoAgency sm (NewStateOf t)) then false
    else endsLoop sm msgType true ts
  end.

Definition messageEndsProtocol (sm : StateMap Msg Ctx) (s : State) (msgType : Z) : bool :=
  endsLoop sm msgType false (Transitions (entry_of sm s)).

(** ** Transitions *)

(** The loop of [nextState]: a match function that refuses has still run. *)
Fixpoint nextLoop (ctx : Ctx) (msg : Msg) (ts : list (StateTransition Msg Ctx))
    : option State * Ctx :=
  match ts with
  | [] => (None, ctx)
  | t :: ts =>
    if MsgType t =? Type_ msg then
      match MatchFunc t with
      | None => (Some (NewStateOf t), ctx)
      | Some f =>
        let '(ok, ctx) := f ctx msg in
        if ok : bool then (Some (NewStateOf t), ctx) else nextLoop ctx msg ts
      end
    else nextLoop ctx msg ts
  end.

(** [None] is the error "message not allowed in current protocol state". *)
Definition nextState (sm : StateMap Msg Ctx) (ctx : Ctx) (s : State) (msg : Msg)
    : option State * Ctx :=
  nextLoop ctx msg (Transitions (entry_of sm s)).

(** ** The protocol's state

    The fields the state loop, the send loop and the read loop share, each
    operation one critical section of the code. [sendReady] is the buffered
    channel [sendReadyChan] of capacity one; [typeGenerations] is
    [pipelinedTypeGenerations]. *)

Record protocol := mkProtocol {
  currentState : State;
  stateCtx : Ctx;
  currentStateGeneration : Z;          (* uint64 *)
  peerAgencyReserved : bool;
  typeGenerations : gmap Z Z;
  pendingPipelinedRequests : Z;
  pendingPipelinedReplies : Z;
  sendReady : bool;
  initialStateSet : bool
}.

Definition newProtocol (initial : State) (ctx : Ctx) : protocol :=
  mkProtocol initial ctx 0 false ∅ 0 0 false false.

(** [setState] of the state loop: the state, its generation, the reservation of
    peer agency and the send token change together. *)
Definition setState (role : ProtocolRole) (sm : StateMap Msg Ctx) (s : State)
    (consumesReply consumesRequest : bool) (p : protocol) : protocol :=
  let holder := agencyHolderFor role (entry_of sm s) in
  let gen := if initialStateSet p then u64 (currentStateGeneration p + 1)
             else currentStateGeneration p in
  let replies :=
    if initialStateSet p && consumesReply && (0 <? pendingPipelinedReplies p)
    then pendingPipelinedReplies p - 1 else pendingPipelinedReplies p in
  let requests :=
    if initialStateSet p && consumesRequest && (0 <? pendingPipelinedRequests p)
    then pendingPipelinedRequests p - 1 else pendingPipelinedRequests p in
  let reserved :=
    if initialStateSet p then
      if consumesRequest || bool_decide (holder = agencyPeer) then 0 <? replies else false
    else peerAgencyReserved p in
  let gens :=
    match holder with
    | agencyLocal =>
        fold_left (fun m t => <[t := gen]> m) (PipelinedMessageTypes (entry_of sm s)) (typeGenerations p)
    | _ => typeGenerations p
    end in
  let ready := match holder with agencyLocal => true | _ => sendReady p end in
  mkProtocol s (stateCtx p) gen reserved gens requests replies ready true.

(** One request served by the state loop; [None] is the transition error, which
    leaves the state as it was. *)
Definition stateTransition (role : ProtocolRole) (sm : StateMap Msg Ctx) (msg : Msg)
    (consumesReply consumesRequest : bool) (p : protocol) : option protocol * protocol :=
  let '(next, ctx) := nextState sm (stateCtx p) (currentState p) msg in
  let p := mkProtocol (currentState p) ctx (currentStateGeneration p) (peerAgencyReserved p)
             (typeGenerations p) (pendingPipelinedRequests p) (pendingPipelinedReplies p)
             (sendReady p) (initialStateSet p) in
  match next with
  | None => (None, p)
  | Some s => let p := setState role sm s consumesReply consumesRequest p in (Some p, p)
  end.

Definition addPendingPipelinedRequest (p : protocol) : protocol :=
  mkProtocol (currentState p) (stateCtx p) (currentStateGeneration p) (peerAgencyReserved p)
    (typeGenerations p) (pendingPipelinedRequests p + 1) (pendingPipelinedReplies p)
    (sendReady p) (initialStateSet p).

Definition set_replies (n : Z) (p : protocol) : protocol :=
  mkProtocol (currentState p) (stateCtx p) (currentStateGeneration p) (peerAgencyReserved p)
    (typeGenerations p) (pendingPipelinedRequests p) n (sendReady p) (initialStateSet p).

Definition reservePipelinedReply (p : protocol) : bool * protocol :=
  if pendingPipelinedRequests p <=? pendingPipelinedReplies p then (false, p)
  else (true, set_replies (pendingPipelinedReplies p + 1) p).

Definition releasePipelinedReplyAdmission (p : protocol) : protocol :=
  if 0 <? pendingPipelinedReplies p then set_replies (pendingPipelinedReplies p - 1) p else p.

Definition set_reserved (p : protocol) : protocol :=
  mkProtocol (currentState p) (stateCtx p) (currentStateGeneration p) true
    (typeGenerations p) (pendingPipelinedRequests p) (pendingPipelinedReplies p)
    (sendReady p) (initialStateSet p).

Definition take_token (p : protocol) : protocol :=
  mkProtocol (currentState p) (stateCtx p) (currentStateGeneration p) (peerAgencyReserved p)
    (typeGenerations p) (pendingPipelinedRequests p) (pendingPipelinedReplies p)
    false (initialStateSet p).

Definition observeStateAndDrainSendReady (p : protocol) : State * protocol :=
  (currentState p, take_token p).

Definition takeAgencyToken (role : ProtocolRole) (sm : StateMap Msg Ctx) (p : protocol)
    : State * bool * protocol :=
  if roleHasAgency role (entry_of sm (currentState p))
  then (currentState p, true, take_token p)
  else (currentState p, false, p).

(** [(state, generation, hadUnreservedPipelinedRequest, awaitingReply)]. *)
Definition currentInboundSnapshot (p : protocol) : State * Z * bool * bool :=
  (currentState p, currentStateGeneration p,
   pendingPipelinedReplies p <? pendingPipelinedRequests p, 0 <? pendingPipelinedReplies p).

Inductive inboundAdmissionResult := Denied | Granted (reservedPipelinedReply : bool) | Wait.

#[global] Instance inboundAdmissionResult_eq_dec : EqDecision inboundAdmissionResult.
Proof. solve_decision. Defined.

Definition reserveInboundAdmission (role : ProtocolRole) (sm : StateMap Msg Ctx)
    (messageType : Z) (initialState : State) (initialGeneration : Z)
    (hadUnreserved : bool) (p : protocol) : inboundAdmissionResult * protocol :=
  let generation := currentStateGeneration p in
  match lookup_state sm (currentState p) with
  | None => (Denied, p)
  | Some entry =>
    match agencyHolderFor role entry with
    | agencyPeer =>
      let continuesPeerAgency :=
        match lookup_state sm initialState with
        | Some e => (generation =? u64 (initialGeneration + 1)) &&
                    bool_decide (agencyHolderFor role e = agencyPeer)
        | None => false
        end in
      let pipelinedAcrossRoundTrip :=
        match typeGenerations p !! messageType with
        | Some g => initialGeneration <=? g
        | None => false
        end in
      if negb (generation =? initialGeneration) && negb continuesPeerAgency &&
         negb pipelinedAcrossRoundTrip && negb hadUnreserved
      then (Denied, p)
      else if negb (peerAgencyReserved p) then (Granted false, set_reserved p)
      else (Wait, p)
    | agencyLocal =>
      if existsb (Z.eqb messageType) (PipelinedMessageTypes entry) then (Granted false, p)
      else if negb hadUnreserved then (Denied, p)
      else match reservePipelinedReply p with
           | (true, p) => (Granted true, p)
           | (false, p) => (Denied, p)
           end
    | agencyNeither => (Denied, p)
    end
  end.

(** [flushQueuedStateTransitions]: what could not be applied, and whether it
    stopped at an error. *)
Fixpoint flushQueuedStateTransitions (role : ProtocolRole) (sm : StateMap Msg Ctx)
    (queued : list Msg) (p : protocol) : list Msg * bool * protocol :=
  match queued with
  | [] => ([], false, p)
  | msg :: rest =>
    match stateTransition role sm msg false true p with
    | (None, p) => (queued, true, p)
    | (Some _, p) => flushQueuedStateTransitions role sm rest p
    end
  end.

(** ** A message taken from the send queue while the peer held agency

    [resolvePipelinedDequeue] decides what to do with it against the state the
    protocol is in by now. [env i] is what the other loops did to the protocol
    before the [i]-th observation (a reply of the peer, for instance). *)

Inductive dequeueOutcome :=
| SendPipelined                 (* write it now, its transition deferred *)
| SendWithAgency                (* write it now, as an ordinary send *)
| HoldForAgency                 (* keep it until this role holds agency *)
| RejectMessage                 (* not allowed: a caller's ordering violation *)
| RejectBacklog                 (* an earlier deferred message cannot be applied *)
| AwaitToken                    (* blocked on the send token *)
| DequeueFuel.                  (* the loop's bound, never reached *)

Fixpoint resolveLoop (fuel : nat) (role : ProtocolRole) (sm : StateMap Msg Ctx) (env : nat -> protocol -> protocol)
    (i : nat) (msg : Msg) (queued : list Msg) (p : protocol)
    : dequeueOutcome * list Msg * protocol :=
  match fuel with
  | O => (DequeueFuel, queued, p)
  | S fuel =>
    let '(remaining, failed, p) := flushQueuedStateTransitions role sm queued p in
    let progressed := blen remaining <? blen queued in
    let '(post, p) := observeStateAndDrainSendReady (env i p) in
    let entry := entry_of sm post in
    if pipelinedMessageFits entry msg then (SendPipelined, remaining, p)
    else if negb (roleHasAgency role entry) then
      if messageHasAgencyTransition role sm msg then (HoldForAgency, remaining, p)
      else (RejectMessage, remaining, p)
    else if blen remaining =? 0 then
      let '(next, ctx) := nextState sm (stateCtx p) post msg in
      let p := mkProtocol (currentState p) ctx (currentStateGeneration p) (peerAgencyReserved p)
                 (typeGenerations p) (pendingPipelinedRequests p) (pendingPipelinedReplies p)
                 (sendReady p) (initialStateSet p) in
      match next with
      | Some _ => (SendWithAgency, remaining, p)
      | None => (RejectMessage, remaining, p)
      end
    else if progressed then resolveLoop fuel role sm env (S i) msg remaining p
    else (RejectBacklog, remaining, p)
  end.

Definition resolvePipelinedDequeue (role : ProtocolRole) (sm : StateMap Msg Ctx)
    (env : nat -> protocol -> protocol) (msg : Msg) (queued : list Msg) (p : protocol)
    : dequeueOutcome * list Msg * protocol :=
  let entry := entry_of sm (currentState p) in
  if pipelinedMessageFits entry msg then (SendPipelined, queued, p)
  else if negb (roleHasAgency role entry) then
    if messageHasAgencyTransition role sm msg then (HoldForAgency, queued, p)
    else (RejectMessage, queued, p)
  else if negb (sendReady p) then (AwaitToken, queued, p)
  else resolveLoop (S (length queued)) role sm env 0 msg queued (take_token p).

(** ** Lemmas *)

Lemma entry_of_agency role sm s :
  agencyHolderFor role (entry_of sm s) <> agencyNeither -> exists e, lookup_state sm s = Some e.
Proof.
  unfold entry_of. destruct (lookup_state sm s) as [e|]; [by eauto|]. by destruct role.
Qed.


Lemma flush_length role sm : forall queued p remaining failed p',
  flushQueuedStateTransitions role sm queued p = (remaining, failed, p') ->
  (length remaining <= length queued)%nat /\ (failed = false -> remaining = []) /\
  exists done_, queued = done_ ++ remaining.
Proof.
  induction queued as [|m q IH]; intros p remaining failed p' H; simpl in H.
  { simplify_eq. split_and!; try done. by exists []. }
  destruct (stateTransition role sm m false true p) as [[p1|] p2]; simplify_eq.
  - destruct (IH _ _ _ _ H) as (H1 & H2 & d & ->). split_and!; [simpl; lia|done|by exists (m :: d)].
  - split_and!; [done|done|by exists []].
Qed.

End Engine.
Arguments protocol : clear implicits.

(** ** What the decision on a dequeued message guarantees *)

Section Dequeue.
Context {Msg Ctx : Type} (Type_ : Msg -> Z) (role : ProtocolRole) (sm : StateMap Msg Ctx).

(** The outcome is right for the state the protocol is left in. *)
Definition outcome_ok (msg : Msg) (out : dequeueOutcome) (queued : list Msg) (p : protocol Ctx) : Prop :=
  let entry := entry_of sm (currentState p) in
  match out with
  | SendPipelined => pipelinedMessageFits Type_ entry msg = true
  | SendWithAgency =>
      queued = [] /\ roleHasAgency role entry = true /\ sendReady p = false /\
      exists t, t ∈ Transitions entry /\ MsgType t = Type_ msg
  | HoldForAgency => roleHasAgency role entry = false /\ messageHasAgencyTransition Type_ role sm msg = true
  | RejectMessage =>
      pipelinedMessageFits Type_ entry msg = false /\
      (roleHasAgency role entry = false -> messageHasAgencyTransition Type_ role sm msg = false)
  | RejectBacklog => queued <> [] /\ roleHasAgency role entry = true
  | AwaitToken => roleHasAgency role entry = true /\ sendReady p = false
  | DequeueFuel => False
  end.

Lemma nextLoop_transition ctx msg (ts : list (StateTransition Msg Ctx)) s ctx' :
  nextLoop Type_ ctx msg ts = (Some s, ctx') ->
  exists t, t ∈ ts /\ MsgType t = Type_ msg /\ NewStateOf t = s.
Proof.
  revert ctx. induction ts as [|t ts IH]; intros ctx H; [done|]. simpl in H.
  assert (Hrec : forall c, nextLoop Type_ c msg ts = (Some s, ctx') ->
    exists t0, t0 ∈ t :: ts /\ MsgType t0 = Type_ msg /\ NewStateOf t0 = s).
  { intros c Hc. destruct (IH c Hc) as (t0 & ? & ?). exists t0. split; [by right|done]. }
  destruct (Z.eqb_spec (MsgType t) (Type_ msg)); [|by eauto].
  destruct (MatchFunc t) as [f|].
  - destruct (f ctx msg) as [[] c]; [|by eauto]. simplify_eq. exists t. split; [by left|done].
  - simplify_eq. exists t. split; [by left|done].
Qed.

Lemma resolveLoop_ok env msg : forall fuel i queued p out queued' p',
  (length queued < fuel)%nat ->
  resolveLoop Type_ fuel role sm env i msg queued p = (out, queued', p') ->
  outcome_ok msg out queued' p' /\ exists applied, queued = applied ++ queued'.
Proof.
  induction fuel as [|fuel IH]; intros i queued p out queued' p' Hf H; [lia|]. cbn [resolveLoop] in H.
  destruct (flushQueuedStateTransitions Type_ role sm queued p) as [[remaining failed] p1] eqn:Ef.
  destruct (flush_length Type_ role sm _ _ _ _ _ Ef) as (Hl & _ & d & ->).
  cbn [observeStateAndDrainSendReady] in H.
  destruct (pipelinedMessageFits Type_ _ msg) eqn:E1.
  { simplify_eq. split; [done|by eauto]. }
  destruct (negb (roleHasAgency role _)) eqn:E2.
  { apply negb_true_iff in E2. destruct (messageHasAgencyTransition _ _ _ _) eqn:E3; simplify_eq;
      (split; [|by eauto]); simpl; done. }
  apply negb_false_iff in E2. destruct (Z.eqb_spec (blen remaining) 0) as [Hz|Hz].
  { apply blen_0 in Hz as ->. unfold nextState in H.
    destruct (nextLoop Type_ _ msg _) as [[s|] ctx] eqn:En; simplify_eq; (split; [|by eauto]); simpl.
    - split_and!; try done. destruct (nextLoop_transition _ _ _ _ _ En) as (t & ? & ? & _). by exists t.
    - split; [done|]. intros Hx. simpl in *. congruence. }
  destruct (Z.ltb_spec (blen remaining) (blen (d ++ remaining))) as [Hlt|Hge].
  - apply IH in H as (Hok & a & ->); [|unfold blen in Hlt; lia]. split; [done|]. exists (d ++ a). by rewrite app_assoc.
  - simplify_eq. split; [|by eauto]. simpl. split; [|done]. by intros ->.
Qed.

(** A message taken from the send queue while the peer held agency, and
    caught by a concurrent transition, is never lost and never overtakes the
    messages sent before it: whatever the other loops do meanwhile, the decision
    terminates, applies deferred transitions only in order, sends the message as
    an ordinary one only with the backlog empty, agency held, the transition in
    the map and the token consumed, pipelines it only where the state declares its
    type, holds it only if it can become legal, and otherwise reports an error. *)
Theorem dequeue_resolution env msg queued p out queued' p' :
  resolvePipelinedDequeue Type_ role sm env msg queued p = (out, queued', p') ->
  outcome_ok msg out queued' p' /\ exists applied, queued = applied ++ queued'.
Proof.
  intros H. unfold resolvePipelinedDequeue in H.
  destruct (pipelinedMessageFits Type_ _ msg) eqn:E1; [simplify_eq; split; [done|by exists []]|].
  destruct (negb (roleHasAgency role _)) eqn:E2.
  { apply negb_true_iff in E2.
    destruct (messageHasAgencyTransition _ _ _ _) eqn:E3; simplify_eq; (split; [|by exists []]); simpl; done. }
  destruct (sendReady p) eqn:E3; cbn [negb] in H.
  - apply resolveLoop_ok in H; [done|lia].
  - simplify_eq. split; [|by exists []]. simpl. by rewrite negb_false_iff in E2.
Qed.

End Dequeue.

(** ** Admission

    What the read loop may take in before the state changes again. *)

Section Admission.
Context {Msg Ctx : Type} (Type_ : Msg -> Z) (role : ProtocolRole) (sm : StateMap Msg Ctx).

(** Admission requests against one state, in order: the granted ones that were
    not covered by a reserved reply, counted. *)
Fixpoint admit_all (reqs : list (Z * State * Z * bool)) (p : protocol Ctx) : list inboundAdmissionResult * protocol Ctx :=
  match reqs with
  | [] => ([], p)
  | (ty, s0, g0, had) :: reqs =>
    let '(r, p) := reserveInboundAdmission role sm ty s0 g0 had p in
    let '(rs, p) := admit_all reqs p in (r :: rs, p)
  end.

Lemma admission_peer p ty s0 g0 had r p' :
  agencyHolderFor role (entry_of sm (currentState p)) = agencyPeer ->
  reserveInboundAdmission role sm ty s0 g0 had p = (r, p') ->
  (r = Granted false /\ peerAgencyReserved p = false /\ p' = set_reserved p) \/
  (r = Denied /\ p' = p) \/ (r = Wait /\ peerAgencyReserved p = true /\ p' = p).
Proof.
  intros Hp H. destruct (entry_of_agency role sm (currentState p)) as [e He]; [congruence|].
  unfold entry_of in Hp. unfold reserveInboundAdmission in H. rewrite He in Hp, H. simpl in Hp.
  rewrite Hp in H.
  match type of H with (if ?c then _ else _) = _ => destruct c end; simplify_eq; [by right; left|].
  destruct (peerAgencyReserved p) eqn:E; simpl in H; simplify_eq; [right; right|left]; done.
Qed.

Lemma admit_all_reserved reqs : forall p rs p',
  agencyHolderFor role (entry_of sm (currentState p)) = agencyPeer ->
  peerAgencyReserved p = true -> admit_all reqs p = (rs, p') ->
  p' = p /\ Forall (fun r => r = Denied \/ r = Wait) rs.
Proof.
  induction reqs as [|[[[ty s0] g0] had] reqs IH]; intros p rs p' Hp Hr H; simpl in H; [by simplify_eq|].
  destruct (reserveInboundAdmission role sm ty s0 g0 had p) as [r p1] eqn:E1.
  destruct (admit_all reqs p1) as [rs1 p2] eqn:E2. simplify_eq.
  destruct (admission_peer _ _ _ _ _ _ _ Hp E1) as [(_ & ? & _)|[[-> ->]|(-> & _ & ->)]]; [congruence| |];
    destruct (IH _ _ _ Hp Hr E2) as [-> HF]; (split; [done|]; constructor; auto).
Qed.

(** While the peer holds agency, the read loop admits one message and makes
    every other one wait or refuses it, until a transition moves the protocol on:
    however many messages have arrived and whatever they claim to answer, at most
    one is granted in this state. *)
Theorem one_admission_per_peer_turn reqs p :
  agencyHolderFor role (entry_of sm (currentState p)) = agencyPeer ->
  let rs := fst (admit_all reqs p) in
  Forall (fun r => r <> Granted true) rs /\
  (length (filter (fun r => r = Granted false) rs) <= 1)%nat /\
  (peerAgencyReserved p = true -> filter (fun r => r = Granted false) rs = []).
Proof.
  intros Hp. destruct (admit_all reqs p) as [rs p'] eqn:E. simpl.
  revert p rs p' Hp E. induction reqs as [|[[[ty s0] g0] had] reqs IH]; intros p rs p' Hp E; simpl in E.
  { simplify_eq. split_and!; [constructor|simpl; lia|done]. }
  destruct (reserveInboundAdmission role sm ty s0 g0 had p) as [r p1] eqn:E1.
  destruct (admit_all reqs p1) as [rs1 p2] eqn:E2. simplify_eq.
  destruct (admission_peer _ _ _ _ _ _ _ Hp E1) as [(-> & Hr & ->)|[[-> ->]|(-> & Hr & ->)]].
  - destruct (admit_all_reserved reqs (set_reserved p) rs1 p' Hp eq_refl E2) as [_ HF].
    assert (Hnone : filter (fun r => r = Granted false) rs1 = []).
    { apply filter_none. eapply Forall_impl; [exact HF|]. by intros r [-> | ->]. }
    rewrite filter_cons_True, Hnone by done. split_and!; [|simpl; lia|congruence].
    constructor; [done|]. eapply Forall_impl; [exact HF|]. by intros r [-> | ->].
  - destruct (IH _ _ _ Hp E2) as (H1 & H2 & H3). rewrite filter_cons_False by done.
    split_and!; try done. by constructor.
  - destruct (IH _ _ _ Hp E2) as (H1 & H2 & H3). rewrite filter_cons_False by done.
    split_and!; try done. by constructor.
Qed.

End Admission.

(** ** Two endpoints

    [P] is the endpoint of role [role], which may write messages early and defer
    their transitions; [Q] is its peer. The channels keep their order. *)

Section Lockstep.
Context {Msg Ctx : Type} (Type_ : Msg -> Z) (sm : StateMap Msg Ctx).
Context (role : ProtocolRole).























End Lockstep.
