(* ===== verification/MiniProtocols.v ===== *)
(** * The mini-protocols' state machines

    The state maps of src/protocol/<name>/<name>.go, one Module per package, as
    data for the engine of [Protocol], with the match functions that choose
    between transitions. *)

From S2P Require Import Prelude Protocol.

(** What the state machines look at in a message: its type, the blocking flag of
    a request for identifiers or messages, and the count of a request for votes. *)
Record message := mkMessage { msgType : Z; Blocking : bool; Count : Z }.

Definition Second : Z := 1000000000.
Definition Millisecond : Z := 1000000.

(** An entry without a timeout function. *)
Definition plain {Msg Ctx} (agency : ProtocolStateAgency) (limit budget timeout : Z)
    (pipelined : bool) (types : list Z) (ts : list (StateTransition Msg Ctx))
    : StateMapEntry Msg Ctx :=
  mkEntry agency ts timeout None limit budget pipelined types.

Definition on {Msg Ctx} (ty : Z) (s : State) : StateTransition Msg Ctx := mkTransition ty s None.
Definition on_if {Msg Ctx} (ty : Z) (s : State) (f : Ctx -> Msg -> bool * Ctx)
    : StateTransition Msg Ctx := mkTransition ty s (Some f).

(** [MatchFunc]s that only look at the blocking flag. *)
Definition matchBlocking (ctx : unit) (m : message) : bool * unit := (Blocking m, ctx).
Definition matchNonBlocking (ctx : unit) (m : message) : bool * unit := (negb (Blocking m), ctx).

(** ** Handshake (src/protocol/handshake) *)

Module Handshake.

Definition MessageTypeProposeVersions : Z := 0.
Definition MessageTypeAcceptVersion : Z := 1.
Definition MessageTypeRefuse : Z := 2.
Definition MessageTypeQueryReply : Z := 3.
Definition ProposeTimeout : Z := 10 * Second.
Definition ConfirmTimeout : Z := 10 * Second.
Definition MaxPendingMessageBytes : Z := 5760.

Definition statePropose : State := NewState 1 "Propose".
Definition stateConfirm : State := NewState 2 "Confirm".
Definition stateDone : State := NewState 3 "Done".

Definition confirmTransitions : list (StateTransition message unit) :=
  [on MessageTypeAcceptVersion stateDone; on MessageTypeRefuse stateDone;
   on MessageTypeQueryReply stateDone].

Definition proposeTransitions : list (StateTransition message unit) :=
  [on MessageTypeProposeVersions stateConfirm].

Definition StateMapNtN : Protocol.StateMap message unit := [
  (statePropose, plain AgencyClient (MaxPendingMessageBytes) (0) (ProposeTimeout) false []
    proposeTransitions);
  (stateConfirm, plain AgencyServer (MaxPendingMessageBytes) (0) (ConfirmTimeout) false []
    confirmTransitions);
  (stateDone, plain AgencyNone (0) (0) (0) false []
    [])].

Definition StateMapNtC : Protocol.StateMap message unit := [
  (statePropose, plain AgencyClient (MaxPendingMessageBytes) (0) (0) false []
    proposeTransitions);
  (stateConfirm, plain AgencyServer (MaxPendingMessageBytes) (0) (0) false []
    confirmTransitions);
  (stateDone, plain AgencyNone (0) (0) (0) false []
    [])].

End Handshake.

(** ** Keep-alive (src/protocol/keepalive) *)

Module KeepAlive.

Definition MessageTypeKeepAlive : Z := 0.
Definition MessageTypeKeepAliveResponse : Z := 1.
Definition MessageTypeDone : Z := 2.
Definition MaxPendingMessageBytes : Z := 0xffff.
Definition ClientTimeout : Z := 97 * Second.
Definition ServerTimeout : Z := 60 * Second.

Definition StateClient : State := NewState 1 "Client".
Definition StateServer : State := NewState 2 "Server".
Definition StateDone : State := NewState 3 "Done".

Definition StateMap : Protocol.StateMap message unit := [
  (StateClient, plain AgencyClient (MaxPendingMessageBytes) (0) (ClientTimeout) false []
    [on MessageTypeKeepAlive StateServer; on MessageTypeDone StateDone]);
  (StateServer, plain AgencyServer (MaxPendingMessageBytes) (0) (ServerTimeout) false []
    [on MessageTypeKeepAliveResponse StateClient]);
  (StateDone, plain AgencyNone (0) (0) (0) false []
    [])].

End KeepAlive.

(** ** Chain-sync (src/protocol/chainsync) *)

Module ChainSync.

Definition MessageTypeRequestNext : Z := 0.
Definition MessageTypeAwaitReply : Z := 1.
Definition MessageTypeRollForward : Z := 2.
Definition MessageTypeRollBackward : Z := 3.
Definition MessageTypeFindIntersect : Z := 4.
Definition MessageTypeIntersectFound : Z := 5.
Definition MessageTypeIntersectNotFound : Z := 6.
Definition MessageTypeDone : Z := 7.
Definition MaxPendingMessageBytes : Z := 462000.
Definition PendingReceiveBytesNtC : Z := 8 * 1024 * 1024.
Definition IdleTimeout : Z := 3673 * Second.
Definition CanAwaitTimeout : Z := 10 * Second.
Definition IntersectTimeout : Z := 10 * Second.
Definition MustReplyTimeoutMin : Z := 135 * Second.
Definition MustReplyTimeoutMax : Z := 269 * Second.

Definition stateIdle : State := NewState 1 "Idle".
Definition stateCanAwait : State := NewState 2 "CanAwait".
Definition stateMustReply : State := NewState 3 "MustReply".
Definition stateIntersect : State := NewState 4 "Intersect".
Definition stateDone : State := NewState 5 "Done".

Definition idleTransitions : list (StateTransition message unit) :=
  [on MessageTypeRequestNext stateCanAwait; on MessageTypeFindIntersect stateIntersect;
   on MessageTypeDone stateDone].

Definition canAwaitTransitions : list (StateTransition message unit) :=
  [on MessageTypeAwaitReply stateMustReply; on MessageTypeRollForward stateIdle;
   on MessageTypeRollBackward stateIdle].

Definition intersectTransitions : list (StateTransition message unit) :=
  [on MessageTypeIntersectFound stateIdle; on MessageTypeIntersectNotFound stateIdle].

Definition mustReplyTransitions : list (StateTransition message unit) :=
  [on MessageTypeRollForward stateIdle; on MessageTypeRollBackward stateIdle].

(** [n] is the number [rand.Int64N] draws, below the range in milliseconds. *)
Definition MustReplyTimeoutFunc (n : Z) : Z := MustReplyTimeoutMin + n * Millisecond.

Definition StateMapNtN : Protocol.StateMap message unit := [
  (stateIdle, plain AgencyClient (MaxPendingMessageBytes) (0) (IdleTimeout) false []
    idleTransitions);
  (stateCanAwait, plain AgencyServer (MaxPendingMessageBytes) (0) (CanAwaitTimeout) true [MessageTypeRequestNext]
    canAwaitTransitions);
  (stateIntersect, plain AgencyServer (MaxPendingMessageBytes) (0) (IntersectTimeout) false []
    intersectTransitions);
  (stateMustReply, mkEntry AgencyServer mustReplyTransitions 0 (Some MustReplyTimeoutFunc) (MaxPendingMessageBytes) (0) false [MessageTypeRequestNext]);
  (stateDone, plain AgencyNone (MaxPendingMessageBytes) (0) (0) false []
    [])].

Definition StateMapNtC : Protocol.StateMap message unit := [
  (stateIdle, plain AgencyClient (0) (PendingReceiveBytesNtC) (0) false []
    idleTransitions);
  (stateCanAwait, plain AgencyServer (0) (PendingReceiveBytesNtC) (0) true [MessageTypeRequestNext]
    canAwaitTransitions);
  (stateIntersect, plain AgencyServer (0) (PendingReceiveBytesNtC) (0) false []
    intersectTransitions);
  (stateMustReply, plain AgencyServer (0) (PendingReceiveBytesNtC) (0) false [MessageTypeRequestNext]
    mustReplyTransitions);
  (stateDone, plain AgencyNone (0) (PendingReceiveBytesNtC) (0) false []
    [])].

End ChainSync.

(** ** Block-fetch (src/protocol/blockfetch) *)

Module BlockFetch.

Definition MessageTypeRequestRange : Z := 0.
Definition MessageTypeClientDone : Z := 1.
Definition MessageTypeStartBatch : Z := 2.
Definition MessageTypeNoBlocks : Z := 3.
Definition MessageTypeBlock : Z := 4.
Definition MessageTypeBatchDone : Z := 5.
Definition StreamingMaxPendingMessageBytes : Z := 2500000.
Definition IdleMaxPendingMessageBytes : Z := 65535.
Definition PipelinedIdleMaxPendingMessageBytes : Z := StreamingMaxPendingMessageBytes.
Definition BusyMaxPendingMessageBytes : Z := StreamingMaxPendingMessageBytes.
Definition BusyTimeout : Z := 60 * Second.
Definition StreamingTimeout : Z := 60 * Second.

Definition StateIdle : State := NewState 1 "Idle".
Definition StateBusy : State := NewState 2 "Busy".
Definition StateStreaming : State := NewState 3 "Streaming".
Definition StateDone : State := NewState 4 "Done".

Definition StateMap : Protocol.StateMap message unit := [
  (StateIdle, plain AgencyClient (IdleMaxPendingMessageBytes) (0) (0) false []
    [on MessageTypeRequestRange StateBusy; on MessageTypeClientDone StateDone]);
  (StateBusy, plain AgencyServer (BusyMaxPendingMessageBytes) (0) (BusyTimeout) false [MessageTypeRequestRange]
    [on MessageTypeStartBatch StateStreaming; on MessageTypeNoBlocks StateIdle]);
  (StateStreaming, plain AgencyServer (StreamingMaxPendingMessageBytes) (0) (StreamingTimeout) false [MessageTypeRequestRange]
    [on MessageTypeBlock StateStreaming; on MessageTypeBatchDone StateIdle]);
  (StateDone, plain AgencyNone (0) (0) (0) false []
    [])].

(** [Client.protocolStateMap]: the timeouts of the configuration, and pipelined
    sends when request pipelining is on. *)
Definition clientEntry (batchStartTimeout blockTimeout : Z) (pipelining : bool)
    (kv : State * StateMapEntry message unit) : State * StateMapEntry message unit :=
  let '(s, en) := kv in
  let allow := AllowPipelinedSend en || pipelining in
  if decide (s = StateBusy) then
    (s, mkEntry (Agency en) (Transitions en) batchStartTimeout (TimeoutFunc en)
          (PendingMessageByteLimit en) (PendingReceiveByteBudget en) allow (PipelinedMessageTypes en))
  else if decide (s = StateStreaming) then
    (s, mkEntry (Agency en) (Transitions en) blockTimeout (TimeoutFunc en)
          (PendingMessageByteLimit en) (PendingReceiveByteBudget en) allow (PipelinedMessageTypes en))
  else if decide (s = StateIdle) then
    (s, mkEntry (Agency en) (Transitions en) (Timeout en) (TimeoutFunc en)
          (if pipelining then PipelinedIdleMaxPendingMessageBytes else PendingMessageByteLimit en)
          (PendingReceiveByteBudget en) (AllowPipelinedSend en) (PipelinedMessageTypes en))
  else (s, en).

Definition protocolStateMap (batchStartTimeout blockTimeout : Z) (pipelining : bool)
    : Protocol.StateMap message unit :=
  clientEntry batchStartTimeout blockTimeout pipelining <$> StateMap.

End BlockFetch.

(** ** Tx-submission (src/protocol/txsubmission) *)

Module TxSubmission.

Definition MessageTypeRequestTxIds : Z := 0.
Definition MessageTypeReplyTxIds : Z := 1.
Definition MessageTypeRequestTxs : Z := 2.
Definition MessageTypeReplyTxs : Z := 3.
Definition MessageTypeDone : Z := 4.
Definition MessageTypeInit : Z := 6.
Definition SmallMaxPendingMessageBytes : Z := 65535.
Definition LargeMaxPendingMessageBytes : Z := 2500000.
Definition InitTimeout : Z := 0.
Definition IdleTimeout : Z := 0.
Definition TxIdsBlockingTimeout : Z := 0.
Definition TxIdsNonblockingTimeout : Z := 10 * Second.
Definition TxsTimeout : Z := 10 * Second.

Definition stateInit : State := NewState 1 "Init".
Definition stateIdle : State := NewState 2 "Idle".
Definition stateTxIdsBlocking : State := NewState 3 "TxIdsBlocking".
Definition stateTxIdsNonblocking : State := NewState 4 "TxIdsNonBlocking".
Definition stateTxs : State := NewState 5 "Txs".
Definition stateDone : State := NewState 6 "Done".

Definition StateMap : Protocol.StateMap message unit := [
  (stateInit, plain AgencyClient (SmallMaxPendingMessageBytes) (0) (InitTimeout) false []
    [on MessageTypeInit stateIdle]);
  (stateIdle, plain AgencyServer (SmallMaxPendingMessageBytes) (0) (IdleTimeout) false []
    [on_if MessageTypeRequestTxIds stateTxIdsBlocking matchBlocking; on_if MessageTypeRequestTxIds stateTxIdsNonblocking matchNonBlocking; on MessageTypeRequestTxs stateTxs]);
  (stateTxIdsBlocking, plain AgencyClient (LargeMaxPendingMessageBytes) (0) (TxIdsBlockingTimeout) false []
    [on MessageTypeReplyTxIds stateIdle; on MessageTypeDone stateDone]);
  (stateTxIdsNonblocking, plain AgencyClient (LargeMaxPendingMessageBytes) (0) (TxIdsNonblockingTimeout) false [MessageTypeRequestTxIds; MessageTypeRequestTxs]
    [on MessageTypeReplyTxIds stateIdle]);
  (stateTxs, plain AgencyClient (LargeMaxPendingMessageBytes) (0) (TxsTimeout) false [MessageTypeRequestTxIds; MessageTypeRequestTxs]
    [on MessageTypeReplyTxs stateIdle]);
  (stateDone, plain AgencyNone (SmallMaxPendingMessageBytes) (0) (0) false []
    [])].

End TxSubmission.

(** ** Peer-sharing (src/protocol/peersharing) *)

Module PeerSharing.

Definition MessageTypeShareRequest : Z := 0.
Definition MessageTypeSharePeers : Z := 1.
Definition MessageTypeDone : Z := 2.
Definition BusyTimeout : Z := 60 * Second.
Definition MaxPendingMessageBytes : Z := 4 * 1440.

Definition stateIdle : State := NewState 1 "Idle".
Definition stateBusy : State := NewState 2 "Busy".
Definition stateDone : State := NewState 3 "Done".

Definition StateMap : Protocol.StateMap message unit := [
  (stateIdle, plain AgencyClient (MaxPendingMessageBytes) (0) (0) false []
    [on MessageTypeShareRequest stateBusy; on MessageTypeDone stateDone]);
  (stateBusy, plain AgencyServer (MaxPendingMessageBytes) (0) (BusyTimeout) false []
    [on MessageTypeSharePeers stateIdle]);
  (stateDone, plain AgencyNone (0) (0) (0) false []
    [])].

End PeerSharing.

(** ** Local tx-submission (src/protocol/localtxsubmission) *)

Module LocalTxSubmission.

Definition MessageTypeSubmitTx : Z := 0.
Definition MessageTypeAcceptTx : Z := 1.
Definition MessageTypeRejectTx : Z := 2.
Definition MessageTypeDone : Z := 3.

Definition stateIdle : State := NewState 1 "Idle".
Definition stateBusy : State := NewState 2 "Busy".
Definition stateDone : State := NewState 3 "Done".

Definition StateMap : Protocol.StateMap message unit := [
  (stateIdle, plain AgencyClient (0) (0) (0) false []
    [on MessageTypeSubmitTx stateBusy; on MessageTypeDone stateDone]);
  (stateBusy, plain AgencyServer (0) (0) (0) false []
    [on MessageTypeAcceptTx stateIdle; on MessageTypeRejectTx stateIdle]);
  (stateDone, plain AgencyNone (0) (0) (0) false []
    [])].

End LocalTxSubmission.

(** ** Local state query (src/protocol/localstatequery) *)

Module LocalStateQuery.

Definition MessageTypeAcquire : Z := 0.
Definition MessageTypeAcquired : Z := 1.
Definition MessageTypeFailure : Z := 2.
Definition MessageTypeQuery : Z := 3.
Definition MessageTypeResult : Z := 4.
Definition MessageTypeRelease : Z := 5.
Definition MessageTypeReacquire : Z := 6.
Definition MessageTypeDone : Z := 7.
Definition MessageTypeAcquireVolatileTip : Z := 8.
Definition MessageTypeReacquireVolatileTip : Z := 9.
Definition MessageTypeAcquireImmutableTip : Z := 10.
Definition MessageTypeReacquireImmutableTip : Z := 11.

Definition stateIdle : State := NewState 1 "Idle".
Definition stateAcquiring : State := NewState 2 "Acquiring".
Definition stateAcquired : State := NewState 3 "Acquired".
Definition stateQuerying : State := NewState 4 "Querying".
Definition stateDone : State := NewState 5 "Done".

Definition StateMap : Protocol.StateMap message unit := [
  (stateIdle, plain AgencyClient (0) (0) (0) false []
    [on MessageTypeAcquire stateAcquiring; on MessageTypeAcquireVolatileTip stateAcquiring; on MessageTypeAcquireImmutableTip stateAcquiring; on MessageTypeDone stateDone]);
  (stateAcquiring, plain AgencyServer (0) (0) (0) false []
    [on MessageTypeFailure stateIdle; on MessageTypeAcquired stateAcquired]);
  (stateAcquired, plain AgencyClient (0) (0) (0) false []
    [on MessageTypeQuery stateQuerying; on MessageTypeReacquire stateAcquiring; on MessageTypeReacquireVolatileTip stateAcquiring; on MessageTypeReacquireImmutableTip stateAcquiring; on MessageTypeRelease stateIdle]);
  (stateQuerying, plain AgencyServer (0) (0) (0) false []
    [on MessageTypeResult stateAcquired]);
  (stateDone, plain AgencyNone (0) (0) (0) false []
    [])].

End LocalStateQuery.

(** ** Local tx-monitor (src/protocol/localtxmonitor) *)

Module LocalTxMonitor.

Definition MessageTypeDone : Z := 0.
Definition MessageTypeAcquire : Z := 1.
Definition MessageTypeAcquired : Z := 2.
Definition MessageTypeRelease : Z := 3.
Definition MessageTypeNextTx : Z := 5.
Definition MessageTypeReplyNextTx : Z := 6.
Definition MessageTypeHasTx : Z := 7.
Definition MessageTypeReplyHasTx : Z := 8.
Definition MessageTypeGetSizes : Z := 9.
Definition MessageTypeReplyGetSizes : Z := 10.

Definition stateIdle : State := NewState 1 "Idle".
Definition stateAcquiring : State := NewState 2 "Acquiring".
Definition stateAcquired : State := NewState 3 "Acquired".
Definition stateBusy : State := NewState 4 "Busy".
Definition stateDone : State := NewState 5 "Done".

(** [queryReplyTypes]: the only reply to each query. *)
Definition queryReplyTypes (query : Z) : option Z :=
  if query =? MessageTypeHasTx then Some MessageTypeReplyHasTx
  else if query =? MessageTypeNextTx then Some MessageTypeReplyNextTx
  else if query =? MessageTypeGetSizes then Some MessageTypeReplyGetSizes
  else None.

(** [stateContext]: the type of the query in flight. *)
Definition stateContext := Z.

Definition matchQuery (query : stateContext) (m : message) : bool * stateContext := (true, msgType m).

Definition matchReply (query : stateContext) (m : message) : bool * stateContext :=
  (match queryReplyTypes (u8 query) with
   | Some replyType => replyType =? msgType m
   | None => false
   end, query).

Definition StateMap : Protocol.StateMap message stateContext := [
  (stateIdle, plain AgencyClient (0) (0) (0) false []
    [on MessageTypeAcquire stateAcquiring; on MessageTypeDone stateDone]);
  (stateAcquiring, plain AgencyServer (0) (0) (0) false []
    [on MessageTypeAcquired stateAcquired]);
  (stateAcquired, plain AgencyClient (0) (0) (0) false []
    [on MessageTypeAcquire stateAcquiring; on MessageTypeRelease stateIdle; on_if MessageTypeHasTx stateBusy matchQuery; on_if MessageTypeNextTx stateBusy matchQuery; on_if MessageTypeGetSizes stateBusy matchQuery]);
  (stateBusy, plain AgencyServer (0) (0) (0) false []
    [on_if MessageTypeReplyHasTx stateAcquired matchReply; on_if MessageTypeReplyNextTx stateAcquired matchReply; on_if MessageTypeReplyGetSizes stateAcquired matchReply]);
  (stateDone, plain AgencyNone (0) (0) (0) false []
    [])].

End LocalTxMonitor.

(** ** Message submission (src/protocol/messagesubmission) *)

Module MessageSubmission.

Definition MessageTypeInit : Z := 0.
Definition MessageTypeRequestMessageIds : Z := 1.
Definition MessageTypeReplyMessageIds : Z := 2.
Definition MessageTypeRequestMessages : Z := 3.
Definition MessageTypeReplyMessages : Z := 4.
Definition MessageTypeDone : Z := 5.
Definition InitTimeout : Z := 30 * Second.
Definition IdleTimeout : Z := 300 * Second.
Definition MessageIdsBlockingTimeout : Z := 30 * Second.
Definition MessageIdsNonblockingTimeout : Z := 0.
Definition MessagesTimeout : Z := 30 * Second.

Definition protocolStateInit : State := NewState 1 "init".
Definition protocolStateIdle : State := NewState 2 "idle".
Definition protocolStateMessageIdsBlock : State := NewState 3 "messageIdsBlocking".
Definition protocolStateMessageIdsNonBlk : State := NewState 4 "messageIdsNonBlocking".
Definition protocolStateMessages : State := NewState 5 "messages".
Definition protocolStateDone : State := NewState 6 "done".

Definition stateMapV1 : Protocol.StateMap message unit := [
  (protocolStateInit, plain AgencyClient (0) (0) (InitTimeout) false []
    [on MessageTypeInit protocolStateIdle]);
  (protocolStateIdle, plain AgencyServer (0) (0) (IdleTimeout) false []
    [on_if MessageTypeRequestMessageIds protocolStateMessageIdsBlock matchBlocking; on_if MessageTypeRequestMessageIds protocolStateMessageIdsNonBlk matchNonBlocking; on MessageTypeRequestMessages protocolStateMessages]);
  (protocolStateMessageIdsBlock, plain AgencyClient (0) (0) (MessageIdsBlockingTimeout) false []
    [on MessageTypeReplyMessageIds protocolStateIdle; on MessageTypeDone protocolStateDone]);
  (protocolStateMessageIdsNonBlk, plain AgencyClient (0) (0) (MessageIdsNonblockingTimeout) false []
    [on MessageTypeReplyMessageIds protocolStateIdle]);
  (protocolStateMessages, plain AgencyClient (0) (0) (MessagesTimeout) false []
    [on MessageTypeReplyMessages protocolStateIdle]);
  (protocolStateDone, plain AgencyNone (0) (0) (0) false []
    [])].

Definition stateMapV2 : Protocol.StateMap message unit := [
  (protocolStateIdle, plain AgencyServer (0) (0) (IdleTimeout) false []
    [on_if MessageTypeRequestMessageIds protocolStateMessageIdsBlock matchBlocking; on_if MessageTypeRequestMessageIds protocolStateMessageIdsNonBlk matchNonBlocking; on MessageTypeRequestMessages protocolStateMessages; on MessageTypeDone protocolStateDone]);
  (protocolStateMessageIdsBlock, plain AgencyClient (0) (0) (MessageIdsBlockingTimeout) false []
    [on MessageTypeReplyMessageIds protocolStateIdle]);
  (protocolStateMessageIdsNonBlk, plain AgencyClient (0) (0) (MessageIdsNonblockingTimeout) false []
    [on MessageTypeReplyMessageIds protocolStateIdle]);
  (protocolStateMessages, plain AgencyClient (0) (0) (MessagesTimeout) false []
    [on MessageTypeReplyMessages protocolStateIdle]);
  (protocolStateDone, plain AgencyNone (0) (0) (0) false []
    [])].

End MessageSubmission.

(** ** Local message submission (src/protocol/localmessagesubmission) *)

Module LocalMessageSubmission.

Definition MessageTypeSubmitMessage : Z := 0.
Definition MessageTypeAcceptMessage : Z := 1.
Definition MessageTypeRejectMessage : Z := 2.
Definition MessageTypeDone : Z := 3.
Definition IdleTimeout : Z := 300 * Second.
Definition BusyTimeout : Z := 30 * Second.

Definition protocolStateIdle : State := NewState 1 "idle".
Definition protocolStateBusy : State := NewState 2 "busy".
Definition protocolStateDone : State := NewState 3 "done".

Definition stateMap : Protocol.StateMap message unit := [
  (protocolStateIdle, plain AgencyClient (0) (0) (IdleTimeout) false []
    [on MessageTypeSubmitMessage protocolStateBusy; on MessageTypeDone protocolStateDone]);
  (protocolStateBusy, plain AgencyServer (0) (0) (BusyTimeout) false []
    [on MessageTypeAcceptMessage protocolStateIdle; on MessageTypeRejectMessage protocolStateIdle]);
  (protocolStateDone, plain AgencyNone (0) (0) (0) false []
    [])].

End LocalMessageSubmission.

(** ** Local message notification (src/protocol/localmessagenotification) *)

Module LocalMessageNotification.

Definition MessageTypeRequestMessages : Z := 0.
Definition MessageTypeReplyMessagesNonBlocking : Z := 1.
Definition MessageTypeReplyMessagesBlocking : Z := 2.
Definition MessageTypeClientDone : Z := 3.
Definition IdleTimeout : Z := 300 * Second.
Definition BusyNonblockingTimeout : Z := 0.
Definition BusyBlockingTimeout : Z := 0.

Definition protocolStateIdle : State := NewState 1 "idle".
Definition protocolStateBusyNonBlock : State := NewState 2 "busyNonBlocking".
Definition protocolStateBusyBlock : State := NewState 3 "busyBlocking".
Definition protocolStateDone : State := NewState 4 "done".

Definition stateMap : Protocol.StateMap message unit := [
  (protocolStateIdle, plain AgencyClient (0) (0) (IdleTimeout) false []
    [on_if MessageTypeRequestMessages protocolStateBusyNonBlock matchNonBlocking; on_if MessageTypeRequestMessages protocolStateBusyBlock matchBlocking; on MessageTypeClientDone protocolStateDone]);
  (protocolStateBusyNonBlock, plain AgencyServer (0) (0) (BusyNonblockingTimeout) false []
    [on MessageTypeReplyMessagesNonBlocking protocolStateIdle]);
  (protocolStateBusyBlock, plain AgencyServer (0) (0) (BusyBlockingTimeout) false []
    [on MessageTypeReplyMessagesBlocking protocolStateIdle]);
  (protocolStateDone, plain AgencyNone (0) (0) (0) false []
    [])].

End LocalMessageNotification.

(** ** Leios notify (src/protocol/leiosnotify) *)

Module LeiosNotify.

Definition MessageTypeDone : Z := 0.
Definition MessageTypeQuit : Z := 1.
Definition MessageTypeCanceled : Z := 2.
Definition MessageTypeNotificationRequestNext : Z := 3.
Definition MessageTypeBlockAnnouncement : Z := 4.
Definition MessageTypeBlockOffer : Z := 5.
Definition MessageTypeBlockTxsOffer : Z := 6.
Definition MessageTypeVotesOffer : Z := 7.
Definition MaxBlockAnnouncementBytes : Z := 65535.
Definition DefaultPipelineLimit : Z := 10.
Definition DefaultMaxPendingBytes : Z := DefaultPipelineLimit * MaxBlockAnnouncementBytes.

Definition StateIdle : State := NewState 1 "Idle".
Definition StateBusy : State := NewState 2 "Busy".
Definition StateDone : State := NewState 3 "Done".
Definition StateQuit : State := NewState 4 "Quit".

Definition StateMap : Protocol.StateMap message unit := [
  (StateIdle, plain AgencyClient (DefaultMaxPendingBytes) (0) (0) false []
    [on MessageTypeNotificationRequestNext StateBusy; on MessageTypeQuit StateQuit]);
  (StateBusy, plain AgencyServer (DefaultMaxPendingBytes) (0) (0) true [MessageTypeNotificationRequestNext; MessageTypeQuit]
    [on MessageTypeBlockAnnouncement StateIdle; on MessageTypeBlockOffer StateIdle; on MessageTypeBlockTxsOffer StateIdle; on MessageTypeVotesOffer StateIdle; on MessageTypeCanceled StateIdle]);
  (StateQuit, plain AgencyServer (DefaultMaxPendingBytes) (0) (0) false []
    [on MessageTypeDone StateDone]);
  (StateDone, plain AgencyNone (DefaultMaxPendingBytes) (0) (0) false []
    [])].

End LeiosNotify.

(** ** Leios votes (src/protocol/leiosvotes) *)

Module LeiosVotes.

Definition MessageTypeVotesRequestNext : Z := 0.
Definition MessageTypeVote : Z := 1.
Definition MessageTypeDone : Z := 2.
Definition MaxRequestNextCount : Z := 1000.

Definition StateIdle : State := NewState 1 "Idle".
Definition StateBusy : State := NewState 2 "Busy".
Definition StateDone : State := NewState 3 "Done".

(** [stateContext]: how many votes are still owed. *)
Definition stateContext := Z.

Definition matchRequestNext (tokens : stateContext) (m : message) : bool * stateContext :=
  if (Count m =? 0) || (MaxRequestNextCount <? Count m) then (false, tokens) else (true, Count m).

Definition matchVoteWithMorePending (tokens : stateContext) (m : message) : bool * stateContext :=
  if negb (msgType m =? MessageTypeVote) || (tokens <=? 1) then (false, tokens)
  else (true, u64 (tokens - 1)).

Definition matchFinalVote (tokens : stateContext) (m : message) : bool * stateContext :=
  if negb (msgType m =? MessageTypeVote) || negb (tokens =? 1) then (false, tokens) else (true, 0).

Definition StateMap : Protocol.StateMap message stateContext := [
  (StateIdle, plain AgencyClient (0) (0) (0) false []
    [on_if MessageTypeVotesRequestNext StateBusy matchRequestNext; on MessageTypeDone StateDone]);
  (StateBusy, plain AgencyServer (0) (0) (0) false []
    [on_if MessageTypeVote StateBusy matchVoteWithMorePending; on_if MessageTypeVote StateIdle matchFinalVote]);
  (StateDone, plain AgencyNone (0) (0) (0) false []
    [])].

End LeiosVotes.

(** ** Leios fetch (src/protocol/leiosfetch) *)

Module LeiosFetch.

Definition MessageTypeDone : Z := 0.
Definition MessageTypeBlockRequest : Z := 1.
Definition MessageTypeBlock : Z := 2.
Definition MessageTypeBlockTxsRequest : Z := 3.
Definition MessageTypeBlockTxs : Z := 4.
Definition MessageTypeVotesRequest : Z := 10.
Definition MessageTypeVotes : Z := 11.
Definition MessageTypeBlockRangeRequest : Z := 12.
Definition MessageTypeNextBlockAndTxsInRange : Z := 13.
Definition MessageTypeLastBlockAndTxsInRange : Z := 14.
Definition MaxLeiosEndorserBlockSize : Z := 600000.
Definition MaxIdleMessageBytes : Z := 0xffff.
Definition MaxBlockMessageBytes : Z := MaxLeiosEndorserBlockSize + MaxLeiosEndorserBlockSize / 10.
Definition MaxBlockTxsMessageBytes : Z := 500000 + 500000 / 10.

Definition StateIdle : State := NewState 1 "Idle".
Definition StateBlock : State := NewState 2 "Block".
Definition StateBlockTxs : State := NewState 3 "BlockTxs".
Definition StateVotes : State := NewState 4 "Votes".
Definition StateBlockRange : State := NewState 5 "BlockRange".
Definition StateDone : State := NewState 6 "Done".

Definition pipelinedFetchRequests : list Z := [MessageTypeBlockRequest; MessageTypeBlockTxsRequest].

Definition StateMap : Protocol.StateMap message unit := [
  (StateIdle, plain AgencyClient (MaxIdleMessageBytes) (0) (0) false []
    [on MessageTypeBlockRequest StateBlock; on MessageTypeBlockTxsRequest StateBlockTxs; on MessageTypeVotesRequest StateVotes; on MessageTypeBlockRangeRequest StateBlockRange; on MessageTypeDone StateDone]);
  (StateBlock, plain AgencyServer (MaxBlockMessageBytes) (0) (0) false pipelinedFetchRequests
    [on MessageTypeBlock StateIdle]);
  (StateBlockTxs, plain AgencyServer (MaxBlockTxsMessageBytes) (0) (0) false pipelinedFetchRequests
    [on MessageTypeBlockTxs StateIdle]);
  (StateVotes, plain AgencyServer (0) (0) (0) false []
    [on MessageTypeVotes StateIdle]);
  (StateBlockRange, plain AgencyServer (0) (0) (0) false []
    [on MessageTypeNextBlockAndTxsInRange StateBlockRange; on MessageTypeLastBlockAndTxsInRange StateIdle]);
  (StateDone, plain AgencyNone (0) (0) (0) false []
    [])].

End LeiosFetch.

(** ** Peras votes (src/protocol/perasvotes) *)

Module PerasVotes.

Definition MessageTypeInit : Z := 0.
Definition MessageTypeRequestObjectIDs : Z := 1.
Definition MessageTypeReplyObjectIDs : Z := 2.
Definition MessageTypeRequestObjects : Z := 3.
Definition MessageTypeReplyObjects : Z := 4.
Definition MessageTypeDone : Z := 5.
Definition DefaultMaxObjectsUnacknowledged : Z := 50.
Definition DefaultTimeout : Z := 5 * Second.

(** A vote's round and seat. *)
Definition VoteID : Type := Z * Z.
(** The encoding of a vote. *)
Definition VoteObject : Type := bytes.

Inductive voteMessage :=
| MsgInit
| MsgRequestObjectIDs (blocking : bool) (ackCount requestCount : Z)
| MsgReplyObjectIDs (ids : list VoteID)
| MsgRequestObjects (ids : list VoteID)
| MsgReplyObjects (objects : list VoteObject)
| MsgDone.

Definition voteMsgType (m : voteMessage) : Z :=
  match m with
  | MsgInit => MessageTypeInit | MsgRequestObjectIDs _ _ _ => MessageTypeRequestObjectIDs | MsgReplyObjectIDs _ => MessageTypeReplyObjectIDs
  | MsgRequestObjects _ => MessageTypeRequestObjects | MsgReplyObjects _ => MessageTypeReplyObjects | MsgDone => MessageTypeDone
  end.

Definition StateInit : State := NewState 1 "Init".
Definition StateIdle : State := NewState 2 "Idle".
Definition StateObjectIDsBlocking : State := NewState 3 "ObjectIDsBlocking".
Definition StateObjectIDsNonBlocking : State := NewState 4 "ObjectIDsNonBlocking".
Definition StateObjects : State := NewState 5 "Objects".
Definition StateDone : State := NewState 6 "Done".

Record stateContext := mkStateContext {
  maxObjectsUnacknowledged : Z;
  requestCount : Z;
  requestBlocking : bool;
  objectIDsRequestPending : bool;
  outstanding : list VoteID;
  requested : gset VoteID;
  requestObjects : list VoteID
}.

#[global] Instance stateContext_eq_dec : EqDecision stateContext.
Proof. unfold VoteID. solve_decision. Defined.

Definition newStateContext (max : Z) : stateContext := mkStateContext max 0 false false [] ∅ [].

Definition matchObjectIDsRequest (blocking : bool) (ctx : stateContext) (m : voteMessage) : bool * stateContext :=
  match m with
  | MsgRequestObjectIDs reqBlocking ack count =>
    if negb (eqb reqBlocking blocking) || (blocking && (count =? 0)) || (negb blocking && (ack =? 0) && (count =? 0))
       || (blen (outstanding ctx) <? ack) then (false, ctx) else
    let remaining := blen (outstanding ctx) - ack in
    if negb (eqb blocking (remaining =? 0)) || (maxObjectsUnacknowledged ctx <? remaining + count) then (false, ctx)
    else (true, mkStateContext (maxObjectsUnacknowledged ctx) count blocking true (drop (Z.to_nat ack) (outstanding ctx))
                  (requested ctx ∖ list_to_set (take (Z.to_nat ack) (outstanding ctx))) (requestObjects ctx))
  | _ => (false, ctx)
  end.

Definition matchBlockingObjectIDsRequest := matchObjectIDsRequest true.
Definition matchNonBlockingObjectIDsRequest := matchObjectIDsRequest false.

(** Announced identifiers are new: none is outstanding or repeated. *)
Fixpoint newIds (seen : gset VoteID) (ids : list VoteID) : bool :=
  match ids with
  | [] => true
  | id :: ids => if bool_decide (id ∈ seen) then false else newIds ({[id]} ∪ seen) ids
  end.

Definition matchReplyObjectIDs (ctx : stateContext) (m : voteMessage) : bool * stateContext :=
  match m with
  | MsgReplyObjectIDs ids =>
    if negb (objectIDsRequestPending ctx) || (requestCount ctx <? blen ids) || (requestBlocking ctx && (blen ids =? 0))
       || (maxObjectsUnacknowledged ctx - blen (outstanding ctx) <? blen ids) then (false, ctx) else
    if newIds (list_to_set (outstanding ctx)) ids then
      (true, mkStateContext (maxObjectsUnacknowledged ctx) 0 (requestBlocking ctx) false (outstanding ctx ++ ids) (requested ctx) (requestObjects ctx))
    else (false, ctx)
  | _ => (false, ctx)
  end.

(** Requested votes are outstanding, not asked for before and not repeated. *)
Fixpoint requestable (ctx : stateContext) (seen : gset VoteID) (ids : list VoteID) : option (gset VoteID) :=
  match ids with
  | [] => Some seen
  | id :: ids =>
    if bool_decide (id ∈ requested ctx) then None
    else if bool_decide (id ∈ seen) || negb (bool_decide (id ∈ outstanding ctx)) then None
    else requestable ctx ({[id]} ∪ seen) ids
  end.

Definition matchRequestObjects (ctx : stateContext) (m : voteMessage) : bool * stateContext :=
  match m with
  | MsgRequestObjects ids =>
    if blen ids =? 0 then (false, ctx) else
    match requestable ctx ∅ ids with
    | None => (false, ctx)
    | Some seen =>
      (true, mkStateContext (maxObjectsUnacknowledged ctx) (requestCount ctx) (requestBlocking ctx) (objectIDsRequestPending ctx)
               (outstanding ctx) (requested ctx ∪ seen) ids)
    end
  | _ => (false, ctx)
  end.

Section Objects.
(** [VoteObject.VoteID]: what the codec finds in the encoding of a vote. *)
Context (voteIDOf : VoteObject -> option VoteID).

(** The votes of a reply are requested ones, each once. *)
Fixpoint answers (ids seen : gset VoteID) (objects : list VoteObject) : bool :=
  match objects with
  | [] => true
  | object :: objects =>
    match voteIDOf object with
    | None => false
    | Some id =>
      if negb (bool_decide (id ∈ ids)) then false
      else if bool_decide (id ∈ seen) then false
      else answers ids ({[id]} ∪ seen) objects
    end
  end.

Definition matchReplyObjects (ctx : stateContext) (m : voteMessage) : bool * stateContext :=
  match m with
  | MsgReplyObjects objects =>
    if (blen (requestObjects ctx) =? 0) || (blen (requestObjects ctx) <? blen objects) then (false, ctx) else
    if answers (list_to_set (requestObjects ctx)) ∅ objects then
      (true, mkStateContext (maxObjectsUnacknowledged ctx) (requestCount ctx) (requestBlocking ctx) (objectIDsRequestPending ctx)
               (outstanding ctx) (requested ctx) [])
    else (false, ctx)
  | _ => (false, ctx)
  end.

(** [limit] and [timeout] are zero in [StateMap] and set by [clientStateMap]. *)
Definition stateMapWith (limit timeout : Z) : Protocol.StateMap voteMessage stateContext := [
  (StateInit, plain AgencyClient limit 0 0 false [] [on MessageTypeInit StateIdle]);
  (StateIdle, plain AgencyClient limit 0 0 false []
    [on_if MessageTypeRequestObjectIDs StateObjectIDsBlocking matchBlockingObjectIDsRequest;
     on_if MessageTypeRequestObjectIDs StateObjectIDsNonBlocking matchNonBlockingObjectIDsRequest;
     on_if MessageTypeRequestObjects StateObjects matchRequestObjects; on MessageTypeDone StateDone]);
  (StateObjectIDsBlocking, plain AgencyServer limit 0 0 false [] [on_if MessageTypeReplyObjectIDs StateIdle matchReplyObjectIDs]);
  (StateObjectIDsNonBlocking, plain AgencyServer limit 0 timeout false [] [on_if MessageTypeReplyObjectIDs StateIdle matchReplyObjectIDs]);
  (StateObjects, plain AgencyServer limit 0 timeout false [] [on_if MessageTypeReplyObjects StateIdle matchReplyObjects]);
  (StateDone, plain AgencyNone 0 0 0 false [] [])].

Definition StateMap : Protocol.StateMap voteMessage stateContext := stateMapWith 0 0.
Definition clientStateMap (max timeout : Z) : Protocol.StateMap voteMessage stateContext := stateMapWith (max * 1100 + 256) timeout.
End Objects.

End PerasVotes.

(** ** The maps as state machines *)

(** A mini-protocol: the types of its messages, its map, and the state and the
    context it starts with. *)
Record proto := mkProtocol {
  pMsg : Type;
  pType : pMsg -> Z;
  pCtx : Type;
  pMap : StateMap pMsg pCtx;
  pInit : State;
  pStart : pCtx
}.

Definition mkProto (Ctx : Type) (sm : StateMap message Ctx) (init : State) (start : Ctx) : proto := mkProtocol message msgType Ctx sm init start.

(** Every map of the library, as [New...] configures it; the votes of Peras with
    the default limits. *)
Definition protocols (voteIDOf : PerasVotes.VoteObject -> option PerasVotes.VoteID) : list proto := [
  mkProto unit Handshake.StateMapNtN Handshake.statePropose ();
  mkProto unit Handshake.StateMapNtC Handshake.statePropose ();
  mkProto unit KeepAlive.StateMap KeepAlive.StateClient ();
  mkProto unit ChainSync.StateMapNtN ChainSync.stateIdle ();
  mkProto unit ChainSync.StateMapNtC ChainSync.stateIdle ();
  mkProto unit BlockFetch.StateMap BlockFetch.StateIdle ();
  mkProto unit (BlockFetch.protocolStateMap BlockFetch.BusyTimeout BlockFetch.StreamingTimeout true) BlockFetch.StateIdle ();
  mkProto unit TxSubmission.StateMap TxSubmission.stateInit ();
  mkProto unit PeerSharing.StateMap PeerSharing.stateIdle ();
  mkProto unit LocalTxSubmission.StateMap LocalTxSubmission.stateIdle ();
  mkProto unit LocalStateQuery.StateMap LocalStateQuery.stateIdle ();
  mkProto LocalTxMonitor.stateContext LocalTxMonitor.StateMap LocalTxMonitor.stateIdle 0;
  mkProto unit MessageSubmission.stateMapV1 MessageSubmission.protocolStateInit ();
  mkProto unit MessageSubmission.stateMapV2 MessageSubmission.protocolStateIdle ();
  mkProto unit LocalMessageSubmission.stateMap LocalMessageSubmission.protocolStateIdle ();
  mkProto unit LocalMessageNotification.stateMap LocalMessageNotification.protocolStateIdle ();
  mkProto unit LeiosNotify.StateMap LeiosNotify.StateIdle ();
  mkProto LeiosVotes.stateContext LeiosVotes.StateMap LeiosVotes.StateIdle 0;
  mkProto unit LeiosFetch.StateMap LeiosFetch.StateIdle ();
  mkProtocol PerasVotes.voteMessage PerasVotes.voteMsgType PerasVotes.stateContext
    (PerasVotes.clientStateMap voteIDOf PerasVotes.DefaultMaxObjectsUnacknowledged PerasVotes.DefaultTimeout) PerasVotes.StateInit
    (PerasVotes.newStateContext PerasVotes.DefaultMaxObjectsUnacknowledged)].

Section WellFormed.
Context {Msg Ctx : Type} `{!EqDecision Ctx} (Type_ : Msg -> Z) (sm : StateMap Msg Ctx).

(** Messages exchanged in order, each sent by the side that has agency and taken
    by the match functions; [None] if one is not allowed. *)
Fixpoint exchange (trace : list (ProtocolRole * Msg)) (s : State) (ctx : Ctx) : option (State * Ctx) :=
  match trace with
  | [] => Some (s, ctx)
  | (role, m) :: trace =>
    if roleHasAgency role (entry_of sm s) then
      match nextState Type_ sm ctx s m with
      | (Some s, ctx) => exchange trace s ctx
      | (None, _) => None
      end
    else None
  end.

Definition targets (s : State) : list State := NewStateOf <$> Transitions (entry_of sm s).

Definition in_map (s : State) : bool := bool_decide (s ∈ sm.*1).

Definition terminal (s : State) : bool := bool_decide (Agency (entry_of sm s) = AgencyNone).

(** Who sends in a state. *)
Definition sender (s : State) : ProtocolRole :=
  match Agency (entry_of sm s) with AgencyServer => ProtocolRoleServer | _ => ProtocolRoleClient end.

(** The states and contexts that the messages of [alphabet] lead to. *)
Definition successors (alphabet : list Msg) (c : State * Ctx) : list (State * Ctx) :=
  if roleHasAgency (sender (fst c)) (entry_of sm (fst c)) then
    omap (fun m => match nextState Type_ sm (snd c) (fst c) m with (Some s, ctx) => Some (s, ctx) | (None, _) => None end) alphabet
  else [].

Fixpoint explore (alphabet : list Msg) (n : nat) (l : list (State * Ctx)) : list (State * Ctx) :=
  match n with
  | O => l
  | S n => explore alphabet n (remove_dups (l ++ (l ≫= successors alphabet)))
  end.

(** The check of one map: distinct keys, targets inside the map, no transitions
    exactly in the terminal states, and for every state an exchange that leads to
    it from the start and one that leads from there to a terminal state. *)
Definition map_wf (alphabet : list Msg) (init : State) (start : Ctx) : bool :=
  let n := length sm in
  bool_decide (NoDup sm.*1) && in_map init &&
  forallb (fun s =>
    forallb in_map (targets s) &&
    eqb (terminal s) (bool_decide (length (targets s) = 0%nat)) &&
    existsb (fun c => bool_decide (fst c = s) && existsb (terminal ∘ fst) (explore alphabet n [c])) (explore alphabet n [(init, start)])) sm.*1.

Lemma exchange_app t1 t2 : forall s ctx, exchange (t1 ++ t2) s ctx = exchange t1 s ctx ≫= fun c => exchange t2 (fst c) (snd c).
Proof.
  induction t1 as [|[role m] t1 IH]; intros s ctx; [done|]. cbn [app exchange].
  destruct (roleHasAgency role _); [|done]. destruct (nextState Type_ sm ctx s m) as [[s'|] ctx']; [apply IH|done].
Qed.

Lemma explore_sound alphabet n : forall l c0, (forall c, c ∈ l -> exists t, exchange t (fst c0) (snd c0) = Some c) ->
  forall c, c ∈ explore alphabet n l -> exists t, exchange t (fst c0) (snd c0) = Some c.
Proof.
  induction n as [|n IH]; intros l c0 Hl c Hc; [by apply Hl|].
  apply (IH _ c0) in Hc; [done|]. intros c1 Hc1. apply elem_of_remove_dups, elem_of_app in Hc1 as [Hc1|Hc1]; [by apply Hl|].
  apply list_elem_of_bind in Hc1 as (c2 & Hs & H2). destruct (Hl c2 H2) as [t Ht]. unfold successors in Hs.
  destruct (roleHasAgency (sender (fst c2)) _) eqn:Ea; [|by apply elem_of_nil in Hs].
  apply list_elem_of_omap in Hs as (m & _ & Em). exists (t ++ [(sender (fst c2), m)]). rewrite exchange_app, Ht. cbn [mbind option_bind exchange].
  rewrite Ea. by destruct (nextState Type_ sm (snd c2) (fst c2) m) as [[s'|] ctx'].
Qed.

(** What holds of a mini-protocol in a state. *)
Definition state_sound (init : State) (start : Ctx) (s : State) : Prop :=
  (forall ctx m s' ctx', nextState Type_ sm ctx s m = (Some s', ctx') -> s' ∈ sm.*1) /\
  (terminal s = true <-> Transitions (entry_of sm s) = []) /\
  (terminal s = true -> forall ctx m, nextState Type_ sm ctx s m = (None, ctx)) /\
  exists t ctx, exchange t init start = Some (s, ctx) /\
    exists t' d ctx', exchange t' s ctx = Some (d, ctx') /\ terminal d = true.

Lemma map_wf_sound alphabet init start :
  map_wf alphabet init start = true -> forall s, s ∈ sm.*1 -> state_sound init start s.
Proof.
  unfold map_wf. rewrite !andb_true_iff, forallb_forall. intros [[Hnd Hin] Hall] s Hs.
  specialize (Hall s (proj1 (list_elem_of_In _ _) Hs)).
  rewrite !andb_true_iff, forallb_forall in Hall. destruct Hall as [[Ht Hterm] Hr].
  assert (Hq : terminal s = true <-> Transitions (entry_of sm s) = []).
  { apply eqb_prop in Hterm. rewrite Hterm, bool_decide_eq_true. unfold targets. rewrite length_fmap. by destruct (Transitions (entry_of sm s)). }
  split_and!; [|done| |].
  - intros ctx m s' ctx' H. apply nextLoop_transition in H as (t & Hin' & _ & <-).
    assert (Hb : in_map (NewStateOf t) = true).
    { apply Ht. apply list_elem_of_In. unfold targets. apply list_elem_of_fmap. by exists t. }
    by apply bool_decide_eq_true in Hb.
  - intros Hz ctx m. unfold nextState. by rewrite (proj1 Hq Hz).
  - apply existsb_exists in Hr as ([s1 ctx] & Hc & He). apply andb_true_iff in He as [He Hd].
    apply bool_decide_eq_true in He. cbn [fst] in He. subst s1.
    destruct (explore_sound alphabet (length sm) [(init, start)] (init, start)) with (c := (s, ctx)) as [t Ht'].
    { intros c ->%list_elem_of_singleton. by exists []. } { by apply list_elem_of_In. }
    exists t, ctx. split; [done|]. apply existsb_exists in Hd as ([d ctx'] & Hd & Hdt).
    destruct (explore_sound alphabet (length sm) [(s, ctx)] (s, ctx)) with (c := (d, ctx')) as [t' Ht''].
    { intros c ->%list_elem_of_singleton. by exists []. } { by apply list_elem_of_In. }
    by exists t', d, ctx'.
Qed.

End WellFormed.

(** The messages that the searches use: every type that a map names, with both
    flags and a count of one. *)
Definition alphabetOf {Ctx} (sm : StateMap message Ctx) : list message :=
  sm ≫= fun kv => Transitions (snd kv) ≫= fun t => [mkMessage (MsgType t) true 1; mkMessage (MsgType t) false 1].

Lemma map_sound Ctx `{EqDecision Ctx} (sm : StateMap message Ctx) init start : map_wf msgType sm (alphabetOf sm) init start = true ->
  let pr := mkProto Ctx sm init start in
  forall s, s ∈ (pMap pr).*1 -> state_sound (pType pr) (pMap pr) (pInit pr) (pStart pr) s.
Proof. intros H pr. exact (map_wf_sound msgType sm (alphabetOf sm) init start H). Qed.

#[local] Instance monitorContext_eq_dec : EqDecision LocalTxMonitor.stateContext := Z.eq_dec.
#[local] Instance votesContext_eq_dec : EqDecision LeiosVotes.stateContext := Z.eq_dec.

Definition perasAlphabet : list PerasVotes.voteMessage :=
  [PerasVotes.MsgInit; PerasVotes.MsgRequestObjectIDs true 0 1; PerasVotes.MsgReplyObjectIDs [(1, 1)]; PerasVotes.MsgRequestObjectIDs false 0 1;
   PerasVotes.MsgReplyObjectIDs []; PerasVotes.MsgRequestObjects [(1, 1)]; PerasVotes.MsgReplyObjects []; PerasVotes.MsgDone].

(** C36. Every state machine of the library is closed and live, for every state of
    its map. A transition always leads to a state of the map; the states without
    agency are exactly those without transitions, and accept no message; and
    there is an exchange from the initial state and context, each message sent by
    the side with agency and taken by the match functions, that leads to the
    state, and one that goes on from there to a state without agency. *)
Theorem protocol_maps_sound voteIDOf pr s :
  pr ∈ protocols voteIDOf -> s ∈ (pMap pr).*1 -> state_sound (pType pr) (pMap pr) (pInit pr) (pStart pr) s.
Proof.
  revert pr s. enough (Forall (fun pr => forall s, s ∈ (pMap pr).*1 -> state_sound (pType pr) (pMap pr) (pInit pr) (pStart pr) s) (protocols voteIDOf))
    as H by (intros pr s Hp; by apply (proj1 (Forall_forall _ _) H)). unfold protocols.
  repeat (apply Forall_cons; split; [first [refine (map_sound _ _ _ _ _)|refine (map_wf_sound _ _ perasAlphabet _ _ _)]; vm_compute; reflexivity|]).
  by apply Forall_nil.
Qed.

(** Witness of C36. *)
Lemma protocol_maps_sound_witness :
  exists t ctx, exchange msgType ChainSync.StateMapNtN t ChainSync.stateIdle () = Some (ChainSync.stateMustReply, ctx) /\
    exists t' d ctx', exchange msgType ChainSync.StateMapNtN t' ChainSync.stateMustReply ctx = Some (d, ctx') /\
      terminal ChainSync.StateMapNtN d = true.
Proof.
  apply (protocol_maps_sound (fun _ => None) (mkProto unit ChainSync.StateMapNtN ChainSync.stateIdle ())).
  - unfold protocols. do 3 right. left.
  - simpl. do 3 right. left.
Defined.

(** ** Runs of the match functions *)

(** Messages applied one after another; [None] if one is refused. *)
Fixpoint run_msgs {Ctx} (sm : StateMap message Ctx) (ms : list message) (s : State) (ctx : Ctx)
    : option (State * Ctx) :=
  match ms with
  | [] => Some (s, ctx)
  | m :: ms =>
    match nextState msgType sm ctx s m with
    | (Some s, ctx) => run_msgs sm ms s ctx
    | (None, _) => None
    end
  end.

Definition vote : message := mkMessage LeiosVotes.MessageTypeVote false 0.
Definition votesRequest (n : Z) : message := mkMessage LeiosVotes.MessageTypeVotesRequestNext false n.

Lemma leios_vote_step n :
  1 <= n <= LeiosVotes.MaxRequestNextCount ->
  nextState msgType LeiosVotes.StateMap n LeiosVotes.StateBusy vote =
    if n =? 1 then (Some LeiosVotes.StateIdle, 0) else (Some LeiosVotes.StateBusy, n - 1).
Proof.
  intros Hn. unfold LeiosVotes.MaxRequestNextCount in Hn.
  unfold nextState.
  change (Transitions (entry_of LeiosVotes.StateMap LeiosVotes.StateBusy)) with
    [on_if LeiosVotes.MessageTypeVote LeiosVotes.StateBusy LeiosVotes.matchVoteWithMorePending;
     on_if LeiosVotes.MessageTypeVote LeiosVotes.StateIdle LeiosVotes.matchFinalVote].
  cbn [nextLoop MatchFunc on_if MsgType NewStateOf].
  change (LeiosVotes.MessageTypeVote =? msgType vote) with true. cbv iota.
  unfold LeiosVotes.matchVoteWithMorePending, LeiosVotes.matchFinalVote.
  change (msgType vote =? LeiosVotes.MessageTypeVote) with true. cbn [negb orb].
  destruct (Z.leb_spec n 1).
  - by replace n with 1 by lia.
  - destruct (Z.eqb_spec n 1); [lia|]. rewrite u64_small; [done|unfold MaxUint64; lia].
Qed.

Lemma leios_request_step n ctx :
  nextState msgType LeiosVotes.StateMap ctx LeiosVotes.StateIdle (votesRequest n) =
    if (n =? 0) || (LeiosVotes.MaxRequestNextCount <? n) then (None, ctx)
    else (Some LeiosVotes.StateBusy, n).
Proof.
  unfold nextState.
  change (Transitions (entry_of LeiosVotes.StateMap LeiosVotes.StateIdle)) with
    [on_if LeiosVotes.MessageTypeVotesRequestNext LeiosVotes.StateBusy LeiosVotes.matchRequestNext;
     on LeiosVotes.MessageTypeDone LeiosVotes.StateDone].
  cbn [nextLoop MatchFunc on_if on MsgType NewStateOf].
  change (LeiosVotes.MessageTypeVotesRequestNext =? msgType (votesRequest n)) with true.
  change (LeiosVotes.MessageTypeDone =? msgType (votesRequest n)) with false. cbv iota.
  unfold LeiosVotes.matchRequestNext. cbn [Count votesRequest]. by destruct (_ || _).
Qed.

(** A request for [n] votes is answered by exactly [n] votes: after the
    request, [k < n] votes leave the server with agency and [n - k] votes owed,
    the [n]-th hands agency back to the client, and another vote is refused; a
    request for no votes or for more than the maximum is refused. *)
Theorem leios_votes_tokens n ctx :
  (1 <= n <= LeiosVotes.MaxRequestNextCount ->
   (forall k, (Z.of_nat k < n) ->
     run_msgs LeiosVotes.StateMap (votesRequest n :: repeat vote k) LeiosVotes.StateIdle ctx =
       Some (LeiosVotes.StateBusy, n - Z.of_nat k)) /\
   run_msgs LeiosVotes.StateMap (votesRequest n :: repeat vote (Z.to_nat n)) LeiosVotes.StateIdle ctx =
     Some (LeiosVotes.StateIdle, 0) /\
   run_msgs LeiosVotes.StateMap (votesRequest n :: repeat vote (S (Z.to_nat n))) LeiosVotes.StateIdle ctx = None) /\
  (~ 1 <= n <= LeiosVotes.MaxRequestNextCount -> 0 <= n ->
   run_msgs LeiosVotes.StateMap [votesRequest n] LeiosVotes.StateIdle ctx = None).
Proof.
  assert (Hreq : run_msgs LeiosVotes.StateMap [votesRequest n] LeiosVotes.StateIdle ctx =
    if (n =? 0) || (LeiosVotes.MaxRequestNextCount <? n) then None else Some (LeiosVotes.StateBusy, n)).
  { cbn [run_msgs]. rewrite leios_request_step. by destruct (_ || _). }
  assert (Hcons : forall ms, 1 <= n <= LeiosVotes.MaxRequestNextCount ->
    run_msgs LeiosVotes.StateMap (votesRequest n :: ms) LeiosVotes.StateIdle ctx =
    run_msgs LeiosVotes.StateMap ms LeiosVotes.StateBusy n).
  { intros ms Hn. cbn [run_msgs]. rewrite leios_request_step.
    destruct (Z.eqb_spec n 0); [lia|]. destruct (Z.ltb_spec LeiosVotes.MaxRequestNextCount n); [lia|]. done. }
  assert (Hvotes : forall k tokens ms, Z.of_nat k < tokens <= LeiosVotes.MaxRequestNextCount ->
    run_msgs LeiosVotes.StateMap (repeat vote k ++ ms) LeiosVotes.StateBusy tokens =
    run_msgs LeiosVotes.StateMap ms LeiosVotes.StateBusy (tokens - Z.of_nat k)).
  { induction k as [|k IH]; intros tokens ms Hk; cbn [repeat app]; [by rewrite Z.sub_0_r|].
    cbn [run_msgs]. rewrite leios_vote_step by lia. destruct (Z.eqb_spec tokens 1); [lia|].
    rewrite IH by lia. f_equal. lia. }
  split.
  - intros Hn. rewrite !Hcons by done. split_and!.
    + intros k Hk. rewrite Hcons by done. rewrite <-(app_nil_r (repeat vote k)). by rewrite Hvotes by lia.
    + replace (Z.to_nat n) with (Z.to_nat (n - 1) + 1)%nat by lia. rewrite repeat_app, Hvotes by lia.
      cbn [repeat run_msgs]. rewrite leios_vote_step by lia. destruct (Z.eqb_spec (n - Z.of_nat (Z.to_nat (n - 1))) 1); [done|lia].
    + replace (S (Z.to_nat n)) with (Z.to_nat (n - 1) + 2)%nat by lia. rewrite repeat_app, Hvotes by lia.
      cbn [repeat run_msgs]. rewrite leios_vote_step by lia.
      destruct (Z.eqb_spec (n - Z.of_nat (Z.to_nat (n - 1))) 1); [done|lia].
  - intros Hn H0. rewrite Hreq. destruct (Z.eqb_spec n 0); [done|].
    destruct (Z.ltb_spec LeiosVotes.MaxRequestNextCount n); [done|lia].
Qed.

(** An instance. *)
Lemma leios_votes_tokens_witness :
  run_msgs LeiosVotes.StateMap (votesRequest 3 :: repeat vote 3) LeiosVotes.StateIdle 0 =
    Some (LeiosVotes.StateIdle, 0) /\
  run_msgs LeiosVotes.StateMap [votesRequest 1001] LeiosVotes.StateIdle 0 = None.
Proof.
  split.
  - apply (proj1 (leios_votes_tokens 3 0)). unfold LeiosVotes.MaxRequestNextCount. lia.
  - apply (proj2 (leios_votes_tokens 1001 0)); unfold LeiosVotes.MaxRequestNextCount; lia.
Defined.

Lemma tx_monitor_busy ctx r :
  nextState msgType LocalTxMonitor.StateMap ctx LocalTxMonitor.stateBusy r =
    if bool_decide (LocalTxMonitor.queryReplyTypes (ctx mod 256) = Some (msgType r))
    then (Some LocalTxMonitor.stateAcquired, ctx) else (None, ctx).
Proof.
  unfold nextState.
  change (Transitions (entry_of LocalTxMonitor.StateMap LocalTxMonitor.stateBusy)) with
    [on_if LocalTxMonitor.MessageTypeReplyHasTx LocalTxMonitor.stateAcquired LocalTxMonitor.matchReply;
     on_if LocalTxMonitor.MessageTypeReplyNextTx LocalTxMonitor.stateAcquired LocalTxMonitor.matchReply;
     on_if LocalTxMonitor.MessageTypeReplyGetSizes LocalTxMonitor.stateAcquired LocalTxMonitor.matchReply].
  assert (Hm : LocalTxMonitor.matchReply ctx r =
    (bool_decide (LocalTxMonitor.queryReplyTypes (ctx mod 256) = Some (msgType r)), ctx)).
  { unfold LocalTxMonitor.matchReply, u8. f_equal.
    destruct (LocalTxMonitor.queryReplyTypes (ctx mod 256)) as [t|]; [|by rewrite bool_decide_eq_false_2].
    destruct (Z.eqb_spec t (msgType r)) as [->|Hne]; [by rewrite bool_decide_eq_true_2|].
    rewrite bool_decide_eq_false_2; congruence. }
  cbn [nextLoop MatchFunc on_if MsgType NewStateOf]. rewrite !Hm.
  destruct (bool_decide _) eqn:E.
  - apply bool_decide_eq_true in E. unfold LocalTxMonitor.queryReplyTypes in E.
    assert (Ht : msgType r = LocalTxMonitor.MessageTypeReplyHasTx \/
      msgType r = LocalTxMonitor.MessageTypeReplyNextTx \/
      msgType r = LocalTxMonitor.MessageTypeReplyGetSizes).
    { repeat case_match; try done; injection E as <-; auto. }
    by destruct Ht as [->|[->| ->]].
  - by repeat case_match.
Qed.

(** The transaction monitor pairs replies with queries: from [Acquired], a
    query of each kind gives the server agency, and in [Busy] the reply to that
    query, and no other message, is accepted. *)
Theorem tx_monitor_reply_pairing q r ctx :
  msgType q ∈ [LocalTxMonitor.MessageTypeHasTx; LocalTxMonitor.MessageTypeNextTx;
               LocalTxMonitor.MessageTypeGetSizes] ->
  run_msgs LocalTxMonitor.StateMap [q] LocalTxMonitor.stateAcquired ctx =
    Some (LocalTxMonitor.stateBusy, msgType q) /\
  run_msgs LocalTxMonitor.StateMap [q; r] LocalTxMonitor.stateAcquired ctx =
    (if bool_decide (LocalTxMonitor.queryReplyTypes (msgType q) = Some (msgType r))
     then Some (LocalTxMonitor.stateAcquired, msgType q) else None).
Proof.
  intros Hq. assert (H1 : run_msgs LocalTxMonitor.StateMap [q] LocalTxMonitor.stateAcquired ctx =
    Some (LocalTxMonitor.stateBusy, msgType q)).
  { destruct q as [tq bq cq]. cbn [msgType] in *. rewrite !elem_of_cons, elem_of_nil in Hq.
    by destruct Hq as [->|[->|[->|[]]]]. }
  split; [done|]. cbn [run_msgs] in *.
  destruct (nextState msgType LocalTxMonitor.StateMap ctx LocalTxMonitor.stateAcquired q) as [[s|] c]; [|done].
  simplify_eq. rewrite tx_monitor_busy. rewrite (Z.mod_small (msgType q) 256); [by destruct (bool_decide _)|].
  rewrite !elem_of_cons, elem_of_nil in Hq. by destruct Hq as [->|[->|[->|[]]]].
Qed.

(** An instance. *)
Lemma tx_monitor_reply_pairing_witness :
  run_msgs LocalTxMonitor.StateMap
    [mkMessage LocalTxMonitor.MessageTypeHasTx false 0; mkMessage LocalTxMonitor.MessageTypeReplyNextTx false 0]
    LocalTxMonitor.stateAcquired 0 = None.
Proof.
  apply (tx_monitor_reply_pairing (mkMessage LocalTxMonitor.MessageTypeHasTx false 0)
    (mkMessage LocalTxMonitor.MessageTypeReplyNextTx false 0) 0). left.
Defined.

(** ** The engine on chain-sync *)

Definition requestNext : message := mkMessage ChainSync.MessageTypeRequestNext false 0.




(** An instance: the client in CanAwait admits one reply of two. *)
Lemma one_admission_per_peer_turn_witness :
  let p := setState ProtocolRoleClient ChainSync.StateMapNtN ChainSync.stateCanAwait false false
             (newProtocol ChainSync.stateIdle ()) in
  let reqs := [(2, ChainSync.stateCanAwait, 0, false); (2, ChainSync.stateCanAwait, 0, false)] in
  (length (filter (fun r => r = Granted false)
    (fst (admit_all ProtocolRoleClient ChainSync.StateMapNtN reqs p))) <= 1)%nat.
Proof.
  intros p reqs. apply (one_admission_per_peer_turn ProtocolRoleClient ChainSync.StateMapNtN reqs p).
  vm_compute. reflexivity.
Defined.

(** An instance: a second request taken from the queue after the reply to the
    first has returned agency is sent as an ordinary one. *)
Lemma dequeue_resolution_witness :
  let p := setState ProtocolRoleClient ChainSync.StateMapNtN ChainSync.stateIdle false false
             (newProtocol ChainSync.stateIdle ()) in
  let '(out, queued, p') := resolvePipelinedDequeue msgType ProtocolRoleClient ChainSync.StateMapNtN
    (fun _ p => p) requestNext [] p in
  out = SendWithAgency /\ outcome_ok msgType ProtocolRoleClient ChainSync.StateMapNtN requestNext out queued p'.
Proof.
  cbv zeta. destruct (resolvePipelinedDequeue _ _ _ _ _ _ _) as [[out queued] p'] eqn:E. split.
  - vm_compute in E. by simplify_eq.
  - apply (dequeue_resolution msgType ProtocolRoleClient ChainSync.StateMapNtN _ _ _ _ _ _ _ E).
Defined.
