(* ===== verification/Handshake.v ===== *)
(** * Negotiating a version (src/protocol/versions.go, versiondata.go,
      src/protocol/handshake, src/connection.go)

    The tables of protocol versions, the data that is exchanged for each, both
    ends of the handshake, and what a connection sets up from its result. A
    message goes from one end to the other as bytes, through the walk of
    [Preflight] that [NewMsgFromCbor] makes before it decodes. The codec of CBOR
    is a parameter: [Codec] holds its operations, [CodecLaws] what the code relies
    on, with the bytes described by the heads of [Cborwalk]. *)

From stdpp Require Import sorting.
From S2P Require Import Prelude Cborwalk Preflight.

(** ** Versions *)

Definition ProtocolVersionNtCOffset : Z := 0x8000.
Definition ProtocolVersionDMQNtCOffset : Z := 0x1000.
Definition ProtocolVersionDMQNtN1 : Z := 1.
Definition ProtocolVersionDMQNtN2 : Z := 2.

(** The functions [NewVersionData...FromCbor]. *)
Inductive Decoder :=
| DecNtC9to14 | DecNtC15andUp | DecNtN7to10 | DecNtN11to12 | DecNtN13andUp | DecNtN16andUp.

#[export] Instance Decoder_eq_dec : EqDecision Decoder.
Proof. solve_decision. Defined.

(** A version that is not in the tables is the zero value, without a decoder. *)
Record ProtocolVersion := mkProtocolVersion {
  NewVersionDataFromCborFunc : option Decoder;
  EnableShelleyEra : bool;
  EnableAllegraEra : bool;
  EnableMaryEra : bool;
  EnableAlonzoEra : bool;
  EnableBabbageEra : bool;
  EnableConwayEra : bool;
  EnableDijkstraEra : bool;
  EnableLocalQueryProtocol : bool;
  EnableLocalTxMonitorProtocol : bool;
  EnableKeepAliveProtocol : bool;
  EnableFullDuplex : bool;
  EnablePeerSharingProtocol : bool;
  PeerSharingUseV11 : bool
}.

Definition zeroProtocolVersion : ProtocolVersion :=
  mkProtocolVersion None false false false false false false false false false false false false false.

Definition protocolVersions : gmap Z ProtocolVersion := list_to_map [
    ((ProtocolVersionNtCOffset + 9), mkProtocolVersion (Some DecNtC9to14) true true true true false false false true false false false false false);
    ((ProtocolVersionNtCOffset + 10), mkProtocolVersion (Some DecNtC9to14) true true true true false false false true false false false false false);
    ((ProtocolVersionNtCOffset + 11), mkProtocolVersion (Some DecNtC9to14) true true true true false false false true false false false false false);
    ((ProtocolVersionNtCOffset + 12), mkProtocolVersion (Some DecNtC9to14) true true true true false false false true true false false false false);
    ((ProtocolVersionNtCOffset + 13), mkProtocolVersion (Some DecNtC9to14) true true true true true false false true true false false false false);
    ((ProtocolVersionNtCOffset + 14), mkProtocolVersion (Some DecNtC9to14) true true true true true false false true true false false false false);
    ((ProtocolVersionNtCOffset + 15), mkProtocolVersion (Some DecNtC15andUp) true true true true true false false true true false false false false);
    ((ProtocolVersionNtCOffset + 16), mkProtocolVersion (Some DecNtC15andUp) true true true true true true false true true false false false false);
    ((ProtocolVersionNtCOffset + 17), mkProtocolVersion (Some DecNtC15andUp) true true true true true true false true true false false false false);
    ((ProtocolVersionNtCOffset + 18), mkProtocolVersion (Some DecNtC15andUp) true true true true true true false true true false false false false);
    ((ProtocolVersionNtCOffset + 19), mkProtocolVersion (Some DecNtC15andUp) true true true true true true false true true false false false false);
    ((ProtocolVersionNtCOffset + 20), mkProtocolVersion (Some DecNtC15andUp) true true true true true true true true true false false false false);
    ((ProtocolVersionNtCOffset + 21), mkProtocolVersion (Some DecNtC15andUp) true true true true true true true true true false false false false);
    ((ProtocolVersionNtCOffset + 22), mkProtocolVersion (Some DecNtC15andUp) true true true true true true true true true false false false false);
    ((ProtocolVersionNtCOffset + 23), mkProtocolVersion (Some DecNtC15andUp) true true true true true true true true true false false false false);
    (7, mkProtocolVersion (Some DecNtN7to10) true true true true false false false false false true false false false);
    (8, mkProtocolVersion (Some DecNtN7to10) true true true true false false false false false true false false false);
    (9, mkProtocolVersion (Some DecNtN7to10) true true true true true false false false false true false false false);
    (10, mkProtocolVersion (Some DecNtN7to10) true true true true true false false false false true true false false);
    (11, mkProtocolVersion (Some DecNtN11to12) true true true true true false false false false true true true true);
    (12, mkProtocolVersion (Some DecNtN11to12) true true true true true true false false false true true true true);
    (13, mkProtocolVersion (Some DecNtN13andUp) true true true true true true false false false true true true false);
    (14, mkProtocolVersion (Some DecNtN13andUp) true true true true true true false false false true true true false);
    (15, mkProtocolVersion (Some DecNtN13andUp) true true true true true true true false false true true true false);
    (16, mkProtocolVersion (Some DecNtN16andUp) true true true true true true true false false true true true false)].

Definition withDecoder (d : Decoder) : ProtocolVersion :=
  mkProtocolVersion (Some d) false false false false false false false false false false false false false.

Definition dmqProtocolVersionsNtC : gmap Z ProtocolVersion :=
  {[ ProtocolVersionDMQNtCOffset + 1 := withDecoder DecNtC15andUp ]}.

Definition dmqProtocolVersionsNtN : gmap Z ProtocolVersion :=
  list_to_map [(ProtocolVersionDMQNtN1, withDecoder DecNtN13andUp); (ProtocolVersionDMQNtN2, withDecoder DecNtN13andUp)].

Definition GetProtocolVersion (version : Z) : ProtocolVersion :=
  match protocolVersions !! version with
  | Some v => v
  | None =>
    match dmqProtocolVersionsNtC !! version with
    | Some v => v
    | None => default zeroProtocolVersion (dmqProtocolVersionsNtN !! version)
    end
  end.

(** [slices.Sort] on the keys of a map. *)
Definition sortedKeys {A} (m : gmap Z A) : list Z := merge_sort Z.le (fst <$> map_to_list m).

Definition GetProtocolVersionsNtC : list Z :=
  sortedKeys (filter (fun e : Z * ProtocolVersion => ProtocolVersionNtCOffset <= e.1) protocolVersions).
Definition GetProtocolVersionsNtN : list Z :=
  sortedKeys (filter (fun e : Z * ProtocolVersion => e.1 < ProtocolVersionNtCOffset) protocolVersions).
Definition GetProtocolVersionsDMQNtC : list Z := sortedKeys dmqProtocolVersionsNtC.
Definition GetProtocolVersionsDMQNtN : list Z := sortedKeys dmqProtocolVersionsNtN.

(** ** Version data *)

Definition DiffusionModeInitiatorOnly : bool := true.
Definition DiffusionModeInitiatorAndResponder : bool := false.

Inductive VersionData :=
| VersionDataNtC9to14 (magic : Z)
| VersionDataNtC15andUp (magic : Z) (query : bool)
| VersionDataNtN7to10 (magic : Z) (diffusion : bool)
| VersionDataNtN11to12 (magic : Z) (diffusion : bool) (peerSharing : Z) (query : bool)
| VersionDataNtN13andUp (magic : Z) (diffusion : bool) (peerSharing : Z) (query : bool)
| VersionDataNtN16andUp (magic : Z) (diffusion : bool) (peerSharing : Z) (query peras : bool).

Definition NetworkMagic (v : VersionData) : Z :=
  match v with
  | VersionDataNtC9to14 m | VersionDataNtC15andUp m _ | VersionDataNtN7to10 m _
  | VersionDataNtN11to12 m _ _ _ | VersionDataNtN13andUp m _ _ _ | VersionDataNtN16andUp m _ _ _ _ => m
  end.

Definition Query (v : VersionData) : bool :=
  match v with
  | VersionDataNtC9to14 _ | VersionDataNtN7to10 _ _ => false
  | VersionDataNtC15andUp _ q | VersionDataNtN11to12 _ _ _ q | VersionDataNtN13andUp _ _ _ q
  | VersionDataNtN16andUp _ _ _ q _ => q
  end.

Definition DiffusionMode (v : VersionData) : bool :=
  match v with
  | VersionDataNtC9to14 _ | VersionDataNtC15andUp _ _ => DiffusionModeInitiatorOnly
  | VersionDataNtN7to10 _ d | VersionDataNtN11to12 _ d _ _ | VersionDataNtN13andUp _ d _ _
  | VersionDataNtN16andUp _ d _ _ _ => d
  end.


(** Only the last type has the method; [None] is the failed assertion. *)
Definition PerasSupported (v : VersionData) : option bool :=
  match v with VersionDataNtN16andUp _ _ _ _ peras => Some peras | _ => None end.

(** The type a decoder returns. *)
Definition decoderOf (v : VersionData) : Decoder :=
  match v with
  | VersionDataNtC9to14 _ => DecNtC9to14 | VersionDataNtC15andUp _ _ => DecNtC15andUp
  | VersionDataNtN7to10 _ _ => DecNtN7to10 | VersionDataNtN11to12 _ _ _ _ => DecNtN11to12
  | VersionDataNtN13andUp _ _ _ _ => DecNtN13andUp | VersionDataNtN16andUp _ _ _ _ _ => DecNtN16andUp
  end.

(** A value of the map may be a nil interface. *)
Abbreviation ProtocolVersionMap := (gmap Z (option VersionData)).

Inductive ProtocolMode := ProtocolModeNodeToNode | ProtocolModeNodeToClient.

(** The data of one version, in the map of the mode; [None]: not in it. *)
Definition versionDataFor (mode : ProtocolMode) (magic : Z) (diffusion peerSharing query peras : bool) (version : Z)
    : option VersionData :=
  match mode with
  | ProtocolModeNodeToClient =>
    if ProtocolVersionNtCOffset <=? version then
      if ProtocolVersionNtCOffset + 15 <=? version then Some (VersionDataNtC15andUp magic query)
      else Some (VersionDataNtC9to14 magic)
    else None
  | ProtocolModeNodeToNode =>
    if version <? ProtocolVersionNtCOffset then
      if 16 <=? version then Some (VersionDataNtN16andUp magic diffusion (if peerSharing then 1 else 0) query peras)
      else if 13 <=? version then Some (VersionDataNtN13andUp magic diffusion (if peerSharing then 1 else 0) query)
      else if 11 <=? version then Some (VersionDataNtN11to12 magic diffusion (if peerSharing then 2 else 0) query)
      else Some (VersionDataNtN7to10 magic diffusion)
    else None
  end.

Definition GetProtocolVersionMapWithPerasSupport (mode : ProtocolMode) (magic : Z) (diffusion peerSharing query peras : bool)
    : ProtocolVersionMap :=
  map_imap (fun version _ => Some <$> versionDataFor mode magic diffusion peerSharing query peras version) protocolVersions.

Definition GetProtocolVersionMap (mode : ProtocolMode) (magic : Z) (diffusion peerSharing query : bool) : ProtocolVersionMap :=
  GetProtocolVersionMapWithPerasSupport mode magic diffusion peerSharing query false.

Definition GetProtocolVersionMapDMQNtC (magic : Z) (query : bool) : ProtocolVersionMap :=
  (fun _ => Some (VersionDataNtC15andUp magic query)) <$> dmqProtocolVersionsNtC.

Definition GetProtocolVersionMapDMQNtN (magic : Z) (diffusion peerSharing query : bool) : ProtocolVersionMap :=
  (fun _ => Some (VersionDataNtN13andUp magic diffusion (if peerSharing then 1 else 0) query)) <$> dmqProtocolVersionsNtN.

(** ** Messages *)

#[local] Set Warnings "-register-all".

(** The values that a refusal's [[]any] can hold. *)
Inductive any :=
| AnyUint64 (z : Z) | AnyUint32 (z : Z) | AnyUint16 (z : Z) | AnyUint8 (z : Z)
| AnyString (s : string) | AnyUint16s (l : list Z) | AnyList (l : list any) | AnyOther.

Inductive HandshakeMsg :=
| MsgProposeVersions (VersionMap : gmap Z bytes)
| MsgAcceptVersion (Version : Z) (VersionData : bytes)
| MsgRefuse (Reason : list any)
| MsgQueryReply (VersionMap : gmap Z bytes).

(** The fields are within their types. *)
Definition data_ok (v : VersionData) : Prop :=
  0 <= NetworkMagic v < 4294967296 /\
  match v with
  | VersionDataNtN11to12 _ _ p _ | VersionDataNtN13andUp _ _ p _ | VersionDataNtN16andUp _ _ p _ _ => 0 <= p <= MaxUint64
  | _ => True
  end.

Definition msgTypeOf (m : HandshakeMsg) : Z :=
  match m with MsgProposeVersions _ => 0 | MsgAcceptVersion _ _ => 1 | MsgRefuse _ => 2 | MsgQueryReply _ => 3 end.

(** *** Encodings *)

(** [hb] is the head of an item of type [major] with the argument [n]. *)
Definition headed (major n : Z) (hb : bytes) : Prop :=
  exists h, HeadOf hb h /\ Major h = major /\ Argument h = n /\ Indefinite h = false /\ IsBreak h = false.

Definition text (s : string) : bytes := (fun a => Z.of_N (Ascii.N_of_ascii a)) <$> String.list_ascii_of_string s.

(** The bytes of a value of a refusal; a nil slice is written as null. *)
Inductive wireAny : any -> bytes -> Prop :=
| W_uint64 z hb : headed 0 z hb -> wireAny (AnyUint64 z) hb
| W_uint16 z hb : headed 0 z hb -> wireAny (AnyUint16 z) hb
| W_string s hb : headed 3 (blen (text s)) hb -> wireAny (AnyString s) (hb ++ text s)
| W_nil : wireAny (AnyUint16s []) [0xf6]
| W_uint16s l hb raws : l <> [] -> headed 4 (blen l) hb -> Forall2 (headed 0) l raws -> wireAny (AnyUint16s l) (hb ++ concat raws).

Definition wireMap (m : gmap Z bytes) (body : bytes) : Prop :=
  exists l hb raws, Permutation l (map_to_list m) /\ headed 5 (blen l) hb /\
    Forall2 (fun e raw => exists kb, headed 0 (fst e) kb /\ raw = kb ++ snd e) l raws /\ body = hb ++ concat raws.

(** A message is an array of its type and its fields. *)
Definition wireMsg (m : HandshakeMsg) (bs : bytes) : Prop :=
  wf_bytes bs /\ exists hb tb body, bs = hb ++ tb ++ body /\ headed 0 (msgTypeOf m) tb /\
  match m with
  | MsgProposeVersions vm | MsgQueryReply vm => headed 4 2 hb /\ wireMap vm body
  | MsgAcceptVersion v data => headed 4 3 hb /\ exists vb, headed 0 v vb /\ body = vb ++ data
  | MsgRefuse reason => headed 4 2 hb /\ exists rb raws, headed 4 (blen reason) rb /\ Forall2 wireAny reason raws /\ body = rb ++ concat raws
  end.

(** One item without nested collections inside a collection. *)
Definition raw_ok (bs : bytes) : Prop := wf_bytes bs /\ exists h, Item true 1 bs h.

Definition any_ok (a : any) : Prop :=
  match a with
  | AnyUint64 z | AnyUint16 z => 0 <= z <= MaxUint16
  | AnyString s => Forall (fun b => b < 128) (text s) /\ blen (text s) <= MaxUint16
  | AnyUint16s l => Forall (fun z => 0 <= z <= MaxUint16) l /\ blen l <= MaxUint16
  | _ => False
  end.

(** The messages of this code: versions of 16 bits with encoded data, and
    refusals of numbers, ASCII text and versions. *)
Definition sendable (m : HandshakeMsg) : Prop :=
  match m with
  | MsgProposeVersions vm | MsgQueryReply vm =>
    map_Forall (fun v bs => 0 <= v <= MaxUint16 /\ raw_ok bs) vm /\ Z.of_nat (size vm) <= MaxUint16
  | MsgAcceptVersion v data => 0 <= v <= MaxUint16 /\ raw_ok data
  | MsgRefuse reason => Forall any_ok reason /\ blen reason <= MaxUint16
  end.

(** What decoding into [[]any] makes of a value: integers are [uint64], lists are
    lists of [any], null is nil. *)
Definition receivedAny (a : any) : any :=
  match a with
  | AnyUint32 z | AnyUint16 z | AnyUint8 z => AnyUint64 z
  | AnyUint16s [] => AnyOther
  | AnyUint16s l => AnyList (AnyUint64 <$> l)
  | a => a
  end.

Definition received (m : HandshakeMsg) : HandshakeMsg :=
  match m with MsgRefuse reason => MsgRefuse (receivedAny <$> reason) | m => m end.

(** The CBOR library: encoding and decoding of version data ([encode None] is
    the encoding of a nil interface) and of messages. *)
Class Codec := {
  encode : option VersionData -> option bytes;
  decode : Decoder -> bytes -> result string VersionData;
  encodeMsg : HandshakeMsg -> option bytes;
  decodeMsg : Z -> bytes -> option HandshakeMsg
}.

(** Version data is written as one item without nesting and survives, so do the
    messages, whose bytes are those of CBOR. *)
Class CodecLaws (K : Codec) := {
  encode_total : forall v, data_ok v -> exists bs, encode (Some v) = Some bs /\ raw_ok bs;
  decode_encode : forall v bs, data_ok v -> encode (Some v) = Some bs -> decode (decoderOf v) bs = Ok v;
  encodeMsg_wire : forall m, sendable m -> exists bs, encodeMsg m = Some bs /\ wireMsg m bs;
  decodeMsg_encode : forall m bs, sendable m -> encodeMsg m = Some bs -> decodeMsg (msgTypeOf m) bs = Some (received m)
}.

Definition RefuseVersionMismatch : Z := 0.
Definition RefuseDecodeError : Z := 1.
Definition RefuseRefused : Z := 2.

Inductive hsError :=
| HsNoCallback | HsUnexpected | HsPanic
(* the messages *)
| HsEncode | HsUnknownType (msgType : Z) | HsPreflight (e : preflightError handshakeWalkError) | HsMalformed
(* the server *)
| HsQueryMode | HsNoVersions | HsEmptyData | HsDecodeFailed (e : string) | HsParameters
(* the client *)
| HsUnproposed (v : Z) | HsUnsupported (v : Z) | HsDecode (e : string) | HsMagic (v got want : Z)
| HsNoQueryProposed | HsNoQueryCallback | HsNoVersion (v : Z)
| VersionMismatchError (SupportedVersions : list Z) | DecodeError (Version : Z) (Message : string)
| RefusedError (Version : Z) (Message : string)
| RefuseEmpty | RefuseCodeType | RefuseUnknown (code : Z) | RefuseNoVersions | RefuseVersionsType
| RefuseNotNumeric (i : nat) | RefuseRange (i : nat) | RefuseShort (code n : Z) | RefuseVersionType (code : Z)
| RefuseVersionRange (code : Z) | RefuseMessageType (code : Z).

(** ** The ends of the handshake *)

(** The callbacks change the state [C] of the connection. *)
Record Config (C : Type) := mkConfig {
  versions : ProtocolVersionMap;   (* ProtocolVersionMap *)
  FinishedFunc : option (C -> Z -> option VersionData -> result hsError C);
  QueryReplyFunc : option (C -> ProtocolVersionMap -> result hsError C)
}.
Arguments versions {C}.
Arguments FinishedFunc {C}.
Arguments QueryReplyFunc {C}.

(** What a handler does: the connection's state, the messages it sent, and the
    error it returned. A panic in a handler is recovered as an error. *)
Definition handled (C : Type) : Type := C * list HandshakeMsg * option hsError.

Section Ends.
Context `{Codec} {C : Type}.

Definition NewMsgFromCbor (msgType : Z) (data : bytes) : result hsError HandshakeMsg :=
  match preflightMsg msgType data with
  | None => Err (HsUnknownType msgType)
  | Some (Err e) => Err (HsPreflight e)
  | Some (Ok _) => match decodeMsg msgType data with Some m => Ok m | None => Err HsMalformed end
  end.

(** A message on its way: encoded at one end, parsed at the other. *)
Definition deliver (m : HandshakeMsg) : result hsError HandshakeMsg :=
  match encodeMsg m with None => Err HsEncode | Some bs => NewMsgFromCbor (msgTypeOf m) bs end.

(** [SendMessageAndWait] and its error. *)
Context (SendMessageAndWait : HandshakeMsg -> option hsError).

(** The loop of [NewMsgProposeVersions] and [NewMsgQueryReply]: what does not
    encode is left out. *)
Definition rawVersionMap (m : ProtocolVersionMap) : gmap Z bytes := omap encode m.

Definition NewMsgProposeVersions (m : ProtocolVersionMap) : HandshakeMsg := MsgProposeVersions (rawVersionMap m).
Definition NewMsgQueryReply (m : ProtocolVersionMap) : HandshakeMsg := MsgQueryReply (rawVersionMap m).
Definition NewMsgAcceptVersion (version : Z) (data : option VersionData) : HandshakeMsg :=
  MsgAcceptVersion version (default [] (encode data)).

(** [return f(...)] for a callback. *)
Definition finish (c : C) (sent : list HandshakeMsg) (r : result hsError C) : handled C :=
  match r with Ok c' => (c', sent, None) | Err e => (c, sent, Some e) end.

(** The versions of a received map that decode. *)
Definition decoded (version : Z) (data : bytes) : option VersionData :=
  match NewVersionDataFromCborFunc (GetProtocolVersion version) with
  | None => None
  | Some d => match decode d data with Ok v => Some v | Err _ => None end
  end.

(** [if err := s.SendMessageAndWait(msg); err != nil { return err }], then [k]. *)
Definition sending (c : C) (msg : HandshakeMsg) (k : handled C) : handled C :=
  match SendMessageAndWait msg with Some e => (c, [], Some e) | None => k end.

(** Send one message, then return an error. *)
Definition replying (c : C) (msg : HandshakeMsg) (e : hsError) : handled C := sending c msg (c, [msg], Some e).

Definition handleProposeVersions (cfg : Config C) (c : C) (VersionMap : gmap Z bytes) : handled C :=
  match FinishedFunc cfg with
  | None => (c, [], Some HsNoCallback)
  | Some finished =>
    if bool_decide (map_Exists (fun _ v => Query v = true) (map_imap decoded VersionMap)) then
      replying c (NewMsgQueryReply (versions cfg)) HsQueryMode
    else
    let versionIntersect := filter (fun v => is_Some (versions cfg !! v)) (fst <$> map_to_list VersionMap) in
    match versionIntersect with
    | [] => replying c (MsgRefuse [AnyUint64 RefuseVersionMismatch; AnyUint16s (sortedKeys (versions cfg))]) HsNoVersions
    | _ =>
      let proposedVersion := foldl (fun best v => if best <? v then v else best) 0 versionIntersect in
      let refuse code s e := replying c (MsgRefuse [AnyUint64 code; AnyUint16 proposedVersion; AnyString s]) e in
      match mjoin (versions cfg !! proposedVersion) with
      | None => refuse RefuseDecodeError "handshake failed: refused due to empty version data"%string HsEmptyData
      | Some versionData =>
        match NewVersionDataFromCborFunc (GetProtocolVersion proposedVersion) with
        | None => (c, [], Some HsPanic)
        | Some d =>
          match decode d (default [] (VersionMap !! proposedVersion)) with
          | Err e => refuse RefuseDecodeError e (HsDecodeFailed e)
          | Ok proposedVersionData =>
            if negb (NetworkMagic proposedVersionData =? NetworkMagic versionData)
            then refuse RefuseRefused "network magic mismatch"%string HsParameters
            else let accept := NewMsgAcceptVersion proposedVersion (Some versionData) in
                 sending c accept (finish c [accept] (finished c proposedVersion (Some proposedVersionData)))
          end
        end
      end
    end
  end.

Definition serverHandleMessage (cfg : Config C) (c : C) (msg : HandshakeMsg) : handled C :=
  match msg with
  | MsgProposeVersions m => handleProposeVersions cfg c m
  | _ => (c, [], Some HsUnexpected)
  end.

Definition handleAcceptVersion (cfg : Config C) (c : C) (version : Z) (data : bytes) : handled C :=
  match FinishedFunc cfg with
  | None => (c, [], Some HsNoCallback)
  | Some finished =>
    match versions cfg !! version with
    | None => (c, [], Some (HsUnproposed version))
    | Some proposed =>
      match NewVersionDataFromCborFunc (GetProtocolVersion version) with
      | None => (c, [], Some (HsUnsupported version))
      | Some d =>
        match decode d data with
        | Err e => (c, [], Some (HsDecode e))
        | Ok versionData =>
          match proposed with
          | None => (c, [], Some HsPanic)
          | Some proposedData =>
            if negb (NetworkMagic versionData =? NetworkMagic proposedData)
            then (c, [], Some (HsMagic version (NetworkMagic versionData) (NetworkMagic proposedData)))
            else finish c [] (finished c version (Some versionData))
          end
        end
      end
    end
  end.

(** The numeric types that are allowed for a version. *)
Definition versionNum (v : any) : option Z :=
  match v with AnyUint64 z | AnyUint16 z | AnyUint32 z | AnyUint8 z => Some z | _ => None end.

Fixpoint supportedLoop (i : nat) (l : list any) : result hsError (list Z) :=
  match l with
  | [] => Ok []
  | v :: l =>
    match versionNum v with
    | None => Err (RefuseNotNumeric i)
    | Some z => if 65535 <? z then Err (RefuseRange i) else rest ← supportedLoop (S i) l; Ok (u16 z :: rest)
    end
  end.

Definition supportedVersions (v : any) : result hsError (list Z) :=
  match v with
  | AnyUint16s l => Ok l
  | AnyList l => supportedLoop 0 l
  | _ => Err RefuseVersionsType
  end.

(** The fields [anyVersionNumber, tstr] of the two other refusals. *)
Definition refusalFields (code : Z) (Reason : list any) : result hsError (Z * string) :=
  match Reason with
  | _ :: v :: s :: _ =>
    match versionNum v with
    | None => Err (RefuseVersionType code)
    | Some z =>
      if 65535 <? z then Err (RefuseVersionRange code)
      else match s with AnyString s => Ok (u16 z, s) | _ => Err (RefuseMessageType code) end
    end
  | _ => Err (RefuseShort code (blen Reason))
  end.

(** Every refusal is an error; the handler returns which one. *)
Definition handleRefuse (Reason : list any) : hsError :=
  match Reason with
  | [] => RefuseEmpty
  | AnyUint64 code :: _ =>
    if code =? RefuseVersionMismatch then
      match Reason with
      | _ :: v :: _ => match supportedVersions v with Ok l => VersionMismatchError l | Err e => e end
      | _ => RefuseNoVersions
      end
    else if code =? RefuseDecodeError then
      match refusalFields code Reason with Ok (v, s) => DecodeError v s | Err e => e end
    else if code =? RefuseRefused then
      match refusalFields code Reason with Ok (v, s) => RefusedError v s | Err e => e end
    else RefuseUnknown code
  | _ => RefuseCodeType
  end.

Definition proposedQuery (cfg : Config C) : bool :=
  bool_decide (map_Exists (fun _ v => default false (Query <$> v) = true) (versions cfg)).

Definition handleQueryReply (cfg : Config C) (c : C) (VersionMap : gmap Z bytes) : handled C :=
  if negb (proposedQuery cfg) then (c, [], Some HsNoQueryProposed) else
  match QueryReplyFunc cfg, FinishedFunc cfg with
  | None, None => (c, [], Some HsNoQueryCallback)
  | reply, finished =>
    let versionMap := Some <$> map_imap decoded VersionMap in
    match (match reply with None => Ok c | Some f => f c versionMap end) with
    | Err e => (c, [], Some e)
    | Ok c => match finished with None => (c, [], None) | Some f => finish c [] (f c 0 None) end
    end
  end.

Definition clientMessageHandler (cfg : Config C) (c : C) (msg : HandshakeMsg) : handled C :=
  match msg with
  | MsgAcceptVersion v data => handleAcceptVersion cfg c v data
  | MsgRefuse reason => (c, [], Some (handleRefuse reason))
  | MsgQueryReply m => handleQueryReply cfg c m
  | MsgProposeVersions _ => (c, [], Some HsUnexpected)
  end.
End Ends.

(** ** What a connection sets up (connection.go) *)

(** The options of a connection; an optional protocol has a flag that its
    configuration was given. *)
Record Options := mkOptions {
  networkMagic : Z;
  useDMQProtocol : bool;
  useNodeToNodeProto : bool;
  server : bool;
  fullDuplex : bool;
  peerSharingEnabled : bool;
  queryMode : bool;
  leiosNotifyConfig : bool;
  leiosFetchConfig : bool;
  leiosVotesConfig : bool;
  perasVotesConfig : bool;
  sendKeepAlives : bool;
  delayProtocolStart : bool
}.

(** The fields that the callbacks of the handshake set. *)
Record Connection := mkConnection {
  handshakeVersion : Z;
  handshakeVersionData : option VersionData;
  handshakeFullDuplex : bool;
  queryReplyVersionMap : option ProtocolVersionMap;
  handshakeFinished : bool     (* handshakeFinishedChan is closed *)
}.

Definition newConnection : Connection := mkConnection 0 None false None false.

Definition modeOf (o : Options) : ProtocolMode :=
  if useNodeToNodeProto o then ProtocolModeNodeToNode else ProtocolModeNodeToClient.

(** The checks at the start of [setupConnection]. *)
Definition optionsValid (o : Options) : bool :=
  negb (networkMagic o =? 0) && negb (useDMQProtocol o && useNodeToNodeProto o).

Definition protoVersions (o : Options) : ProtocolVersionMap :=
  if useDMQProtocol o then GetProtocolVersionMapDMQNtC (networkMagic o) (queryMode o)
  else GetProtocolVersionMapWithPerasSupport (modeOf o) (networkMagic o)
         (if fullDuplex o then DiffusionModeInitiatorAndResponder else DiffusionModeInitiatorOnly)
         (peerSharingEnabled o) (queryMode o) (perasVotesConfig o).

Definition finishedFunc (o : Options) (c : Connection) (version : Z) (data : option VersionData) : result hsError Connection :=
  let knownVersion := is_Some (NewVersionDataFromCborFunc (GetProtocolVersion version)) in
  if negb (queryMode o) && bool_decide (~ knownVersion \/ data = None) then Err (HsNoVersion version)
  else if handshakeFinished c then Err HsPanic   (* close of a closed channel *)
  else
    let duplex := match data with
      | Some d => useNodeToNodeProto o && eqb (DiffusionMode d) DiffusionModeInitiatorAndResponder
      | None => false end in
    Ok (mkConnection version data (duplex || handshakeFullDuplex c) (queryReplyVersionMap c) true).

Definition queryReplyFunc (c : Connection) (m : ProtocolVersionMap) : result hsError Connection :=
  Ok (mkConnection (handshakeVersion c) (handshakeVersionData c) (handshakeFullDuplex c) (Some m) (handshakeFinished c)).

Definition handshakeConfig (o : Options) : Config Connection :=
  mkConfig Connection (protoVersions o) (Some (finishedFunc o)) (Some queryReplyFunc).

Inductive MiniProtocol :=
| ChainSync | BlockFetch | TxSubmission | KeepAlive | PeerSharingP | LeiosNotify | LeiosFetch | LeiosVotes | PerasVotes
| LocalMessageSubmission | LocalMessageNotification | LocalTxSubmission | LocalStateQuery | LocalTxMonitor.

#[export] Instance MiniProtocol_eq_dec : EqDecision MiniProtocol.
Proof. solve_decision. Defined.

(** The protocols that are created after the handshake. *)
Definition protocolsNtN (o : Options) (c : Connection) : list MiniProtocol :=
  let v := GetProtocolVersion (handshakeVersion c) in
  [BlockFetch; ChainSync; TxSubmission] ++
  (if EnableKeepAliveProtocol v then [KeepAlive] else []) ++
  (if EnablePeerSharingProtocol v then [PeerSharingP] else []) ++
  (if leiosNotifyConfig o then [LeiosNotify] else []) ++
  (if leiosFetchConfig o then [LeiosFetch] else []) ++
  (if leiosVotesConfig o then [LeiosVotes] else []) ++
  (if perasVotesConfig o && default false (handshakeVersionData c ≫= PerasSupported) then [PerasVotes] else []).

Definition protocolsNtC (c : Connection) : list MiniProtocol :=
  let v := GetProtocolVersion (handshakeVersion c) in
  [ChainSync; LocalTxSubmission] ++
  (if EnableLocalQueryProtocol v then [LocalStateQuery] else []) ++
  (if EnableLocalTxMonitorProtocol v then [LocalTxMonitor] else []).

Definition protocolsOf (o : Options) (c : Connection) : list MiniProtocol :=
  if useNodeToNodeProto o then protocolsNtN o c
  else if useDMQProtocol o then [LocalMessageSubmission; LocalMessageNotification]
  else protocolsNtC c.

Definition duplexBoth (o : Options) (c : Connection) : bool := fullDuplex o && handshakeFullDuplex c.



Definition startedServers (o : Options) (c : Connection) : list MiniProtocol :=
  if negb (delayProtocolStart o) && (duplexBoth o c || server o) then protocolsOf o c else [].


Inductive MuxerMode := MuxInitiator | MuxResponder | MuxInitiatorAndResponder.

Definition muxerMode (o : Options) (c : Connection) : MuxerMode :=
  if handshakeFullDuplex c then MuxInitiatorAndResponder else if server o then MuxResponder else MuxInitiator.

(** ** The exchange *)

(** The client proposes, the server answers, the client handles the answer; the
    state of each end and the error that its handler, or the parser of messages
    before it, returned. *)
Definition exchange `{Codec} {C} (send : HandshakeMsg -> option hsError) (client serverCfg : Config C) (cc cs : C)
    : (C * option hsError) * (C * option hsError) :=
  match deliver (NewMsgProposeVersions (versions client)) with
  | Err e => ((cc, None), (cs, Some e))
  | Ok proposal =>
    let '(cs, sent, es) := serverHandleMessage send serverCfg cs proposal in
    let '(cc, _, ec) := match sent with
      | msg :: _ => match deliver msg with Ok m => clientMessageHandler client cc m | Err e => (cc, [], Some e) end
      | [] => (cc, [], None) end in
    ((cc, ec), (cs, es))
  end.

(** The specification: what two maps of versions agree on. *)
Inductive Agreement :=
| Queried
| NoCommon
| MagicDiffers (v : Z)
| Agreed (v : Z) (clientData serverData : VersionData).

Definition unqueried (m : ProtocolVersionMap) : Prop := forall v d, m !! v = Some (Some d) -> Query d = false.

(** [v] is the highest version of both. *)
Definition highest (cm sm : ProtocolVersionMap) (v : Z) : Prop :=
  forall w, is_Some (cm !! w) -> is_Some (sm !! w) -> w <= v.

Inductive Negotiated (cm sm : ProtocolVersionMap) : Agreement -> Prop :=
| N_queried v d : cm !! v = Some (Some d) -> Query d = true -> Negotiated cm sm Queried
| N_none : unqueried cm -> (forall v, is_Some (cm !! v) -> sm !! v = None) -> Negotiated cm sm NoCommon
| N_magic v dc ds : unqueried cm -> cm !! v = Some (Some dc) -> sm !! v = Some (Some ds) -> highest cm sm v ->
    NetworkMagic dc <> NetworkMagic ds -> Negotiated cm sm (MagicDiffers v)
| N_agreed v dc ds : unqueried cm -> cm !! v = Some (Some dc) -> sm !! v = Some (Some ds) -> highest cm sm v ->
    NetworkMagic dc = NetworkMagic ds -> Negotiated cm sm (Agreed v dc ds).

(** The result of a callback, and of the handler that ends with it. *)
Definition ended {C} (c : C) (r : result hsError C) : C * option hsError :=
  match r with Ok c' => (c', None) | Err e => (c, Some e) end.

(** What a client makes of the refusal of a server with the versions [l]: without
    any, the slice is nil, its encoding is no array, and the message does not
    pass the walk. *)
Definition mismatch (l : list Z) : hsError :=
  match l with [] => HsPreflight PfNotCollection | _ => VersionMismatchError l end.

(** What each end reports: the client and the server of an agreement get the
    data of the other. *)
Definition outcome {C} (sm : ProtocolVersionMap) (fc fs : C -> Z -> option VersionData -> result hsError C)
    (q : C -> ProtocolVersionMap -> result hsError C) (cc cs : C) (a : Agreement)
    : (C * option hsError) * (C * option hsError) :=
  match a with
  | Queried =>
    (match q cc sm with Err e => (cc, Some e) | Ok cc' => ended cc' (fc cc' 0 None) end, (cs, Some HsQueryMode))
  | NoCommon => ((cc, Some (mismatch (sortedKeys sm))), (cs, Some HsNoVersions))
  | MagicDiffers v => ((cc, Some (RefusedError v "network magic mismatch")), (cs, Some HsParameters))
  | Agreed v dc ds => (ended cc (fc cc v (Some ds)), ended cs (fs cs v (Some dc)))
  end.

(** A map whose versions the tables know, with data of the type they decode to. *)
Definition map_ok (m : ProtocolVersionMap) : Prop :=
  forall v d, m !! v = Some d -> 0 <= v <= MaxUint16 /\ exists x, d = Some x /\ data_ok x /\
    NewVersionDataFromCborFunc (GetProtocolVersion v) = Some (decoderOf x).

Lemma foldl_max l : forall b, let m := foldl (fun best v => if best <? v then v else best) b l in
  b <= m /\ (forall v, v ∈ l -> v <= m) /\ (m = b \/ m ∈ l).
Proof.
  induction l as [|v l IH]; intros b; cbn [foldl].
  - split_and!; [lia|by intros v ?%elem_of_nil|by left].
  - destruct (IH (if b <? v then v else b)) as (I1 & I2 & I3). cbn zeta in *.
    destruct (Z.ltb_spec b v).
    + split_and!; [lia| |destruct I3 as [->|]; right; [left|by right]].
      intros w [->|Hw]%elem_of_cons; [lia|]. by apply I2.
    + split_and!; [lia| |destruct I3 as [I3|]; [by left|right; by right]].
      intros w [->|Hw]%elem_of_cons; [lia|]. by apply I2.
Qed.

Lemma Negotiated_unique cm sm a a' : Negotiated cm sm a -> Negotiated cm sm a' -> a = a'.
Proof.
  assert (top : forall v w x1 y1 x2 y2, highest cm sm v -> highest cm sm w ->
    cm !! v = Some x1 -> sm !! v = Some y1 -> cm !! w = Some x2 -> sm !! w = Some y2 -> v = w).
  { intros v w x1 y1 x2 y2 Hv Hw E1 E2 E3 E4. assert (w <= v) by (apply Hv; eauto). assert (v <= w) by (apply Hw; eauto). lia. }
  intros [v d Hd HQ|Hq Hn|v dc ds Hq Hc Hs Hh Hm|v dc ds Hq Hc Hs Hh Hm]
         [v' d' Hd' HQ'|Hq' Hn'|v' dc' ds' Hq' Hc' Hs' Hh' Hm'|v' dc' ds' Hq' Hc' Hs' Hh' Hm']; try done;
    try (by rewrite (Hq _ _ Hd') in HQ'); try (by rewrite (Hq' _ _ Hd) in HQ);
    try (rewrite (Hn' v) in Hs by (rewrite Hc; eauto); done); try (rewrite (Hn v') in Hs' by (rewrite Hc'; eauto); done);
    (assert (v = v') by (eapply top; eauto); subst v'; simplify_eq; done).
Qed.

(** ** Messages pass the walk *)

Lemma headed_item d major n hb : headed major n hb -> (major = 0 \/ major = 1 \/ major = 7) -> exists h, Item true d hb h.
Proof. intros (h & Hh & Hm & _ & _ & Hb) HM. exists h. apply I_atom; [done|done|]. lia. Qed.

Lemma headed_length major n hb : headed major n hb -> (1 <= length hb)%nat.
Proof. intros (h & Hh & _). by apply (HeadOf_length _ h). Qed.

Lemma headed_untagged major n hb rest : headed major n hb -> major <> 6 -> untagged (hb ++ rest).
Proof. intros (h & Hh & Hm & _) N. by apply (collection_untagged major hb h). Qed.

(** A definite array of items is an item. *)
Lemma array_item d hb raws : headed 4 (blen raws) hb -> Forall (fun raw => exists h, Item true d raw h) raws ->
  exists h, Item true (S d) (hb ++ concat raws) h.
Proof.
  intros (h & Hh & Hm & Ha & Hi & Hb) HF. exists h. apply (I_array _ _ _ _ (length raws)); try done.
  clear Ha. induction HF as [|raw raws [h' Hr] _ IH]; [constructor|]. apply (Is_cons _ _ _ _ _ h'); [done|by left|done].
Qed.

Lemma map_item d hb (l : list (Z * bytes)) raws : headed 5 (blen l) hb -> blen l <= MaxUint16 ->
  Forall2 (fun e raw => exists kb, headed 0 (fst e) kb /\ raw = kb ++ snd e) l raws ->
  Forall (fun e => exists h, Item true d (snd e) h) l -> exists h, Item true (S d) (hb ++ concat raws) h.
Proof.
  intros (h & Hh & Hm & Ha & Hi & Hb) Hl HF HI. exists h. unfold blen, MaxUint16 in *.
  apply (I_map _ _ _ _ (2 * length l)); try done; [change (MaxUint64 / 2) with 9223372036854775807; lia|lia|]. clear Ha Hl.
  induction HF as [|e raw l raws (kb & Hk & ->) _ IH]; [constructor|]. apply Forall_cons in HI as [[h' He] HI].
  cbn [length concat]. replace (2 * S (length l))%nat with (S (S (2 * length l))) by lia. rewrite <- app_assoc.
  destruct (headed_item d _ _ _ Hk ltac:(by left)) as [hk Hki].
  apply (Is_cons _ _ _ _ _ hk); [done|by left|]. apply (Is_cons _ _ _ _ _ h'); [done|by left|]. by apply IH.
Qed.

Lemma depth_ok data h : wf_bytes data -> Item true 4 data h -> ValidateItemDepth (E := handshakeWalkError) data 4 = Ok ().
Proof.
  intros Hwf Hi. pose proof (item_length_complete data [] h 4) as L. rewrite !app_nil_r in L. unfold ValidateItemDepth.
  rewrite L by (done || lia). cbn. by rewrite bool_decide_true.
Qed.

(** The second field of a message. *)
Lemma message_second hb tb body t : headed 4 2 hb -> headed 0 t tb -> untagged body -> SecondField (hb ++ tb ++ body) body.
Proof.
  intros (h & Hh & Hm & Ha & Hi & _) (th & Ht & Htm & _) Hu. exists 0%nat, [], hb, h, tb, th, 0%nat, [].
  split_and!; try done; constructor.
Qed.

Lemma preflight_map (vm : gmap Z bytes) hb tb body t : (t = 0 \/ t = 3) ->
  wf_bytes (hb ++ tb ++ body) -> headed 4 2 hb -> headed 0 t tb -> wireMap vm body ->
  map_Forall (fun v bs => 0 <= v <= MaxUint16 /\ raw_ok bs) vm -> Z.of_nat (size vm) <= maxHandshakeVersions ->
  preflightMsg t (hb ++ tb ++ body) = Some (Ok ()).
Proof.
  intros Ht Hwf Hh Htb (l & mb & raws & Hp & Hmb & HF & ->) Hok Hsz. unfold preflightMsg.
  replace ((t <? 0) || (3 <? t)) with false by (destruct Ht as [->| ->]; done).
  replace ((t =? 0) || (t =? 3)) with true by (destruct Ht as [->| ->]; done).
  assert (Hn : blen l = Z.of_nat (size vm)) by (unfold blen; by rewrite Hp, length_map_to_list).
  assert (Hl : Forall (fun e => fst e <= MaxUint16 /\ exists h, Item true 1 (snd e) h) l).
  { apply Forall_forall. intros [v bs] Hin. rewrite Hp, elem_of_map_to_list in Hin. by destruct (Hok _ _ Hin) as ([_ ?] & _ & ?). }
  assert (HK : versionKeys (hb ++ tb ++ mb ++ concat raws) = Ok l.*1).
  { apply versionKeys_exact; [done|]. split_and!.
    - destruct Hmb as (h & Hh' & Hm & Ha & Hi & Hb). exists (mb ++ concat raws), mb, h, raws, []. split_and!; try done.
      + apply (message_second _ _ _ t); [done|done|]. apply (collection_untagged 5 mb h); done.
      + rewrite Hi. cbn [closing]. by rewrite !app_nil_r.
      + intros _. rewrite Ha. unfold blen. by rewrite length_fmap.
      + clear - HF Hl. induction HF as [|e raw l raws (kb & (kh & Hk & Hkm & Hka & _) & ->) _ IH]; [constructor|].
        apply Forall_cons in Hl as [[He [ih Hi]] Hl]. constructor; [|by apply IH].
        exists kb, kh, (snd e). split_and!; try done. exists ih. eapply Item_mono; [done|]. unfold MaxNestedLevels. lia.
    - rewrite Hp. apply NoDup_fst_map_to_list.
    - unfold blen in *. rewrite length_fmap. lia. }
  unfold validateVersionMapMessage. rewrite HK. cbn [mbind result_bind]. f_equal.
  destruct (map_item 1 mb l raws Hmb) as [hm Hm]; [change maxHandshakeVersions with 2877 in Hsz; unfold MaxUint16; lia|done|by eapply Forall_impl; [done|intros ? [_ ?]]|].
  destruct (headed_item 2 _ _ _ Htb ltac:(by left)) as [ht Hti].
  destruct (array_item 2 hb [tb; mb ++ concat raws]) as [h Hi]; [done|repeat constructor; eauto|].
  cbn [concat] in Hi. rewrite app_nil_r in Hi. apply (depth_ok _ h); [done|]. eapply Item_mono; [done|lia].
Qed.

Lemma preflight_accept hb tb vb data v : wf_bytes (hb ++ tb ++ vb ++ data) -> headed 4 3 hb -> headed 0 1 tb -> headed 0 v vb -> raw_ok data ->
  preflightMsg 1 (hb ++ tb ++ vb ++ data) = Some (Ok ()).
Proof.
  intros Hwf Hh Ht Hv [_ [h1 H1]]. cbn. f_equal. destruct (headed_item 1 _ _ _ Ht ltac:(by left)) as [ht Hti].
  destruct (headed_item 1 _ _ _ Hv ltac:(by left)) as [hv Hvi].
  destruct (array_item 1 hb [tb; vb; data]) as [h Hi]; [done|repeat constructor; eauto|].
  cbn [concat] in Hi. rewrite app_nil_r in Hi. apply (depth_ok _ h); [done|]. eapply Item_mono; [done|lia].
Qed.


(** Steps of the loop over a definite collection. *)
Lemma loop_next {E A St} fuel data maxCount count (element : St -> Z -> nat -> result (preflightError E) (A * St * nat)) st pos idx :
  idx < count -> collectionLoop (S fuel) data maxCount count false element st pos idx =
  ('(a, st, pos) ← element st idx pos;
   '(items, last) ← collectionLoop fuel data maxCount count false element st pos (idx + 1);
   Ok (a :: items, last)).
Proof. intros H. cbn [collectionLoop negb andb]. by rewrite (proj2 (Z.leb_gt _ _) H). Qed.

Lemma loop_end {E A St} fuel data maxCount count (element : St -> Z -> nat -> result (preflightError E) (A * St * nat)) st pos :
  collectionLoop (S fuel) data maxCount count false element st pos count = Ok ([], pos).
Proof. cbn [collectionLoop negb andb]. by rewrite Z.leb_refl. Qed.

Lemma supportedElement_exact data : wf_bytes data -> forall st i pos a st' pos', (pos <= length data)%nat ->
  supportedElement data st i pos = Ok (a, st', pos') <->
  exists raw, drop pos data = raw ++ drop pos' data /\ pos' = (pos + length raw)%nat /\ is_item raw.
Proof.
  intros Hwf [] i pos [] [] pos' Hp. unfold supportedElement. split.
  - intros (n & (raw & Hd & -> & Hi)%item_at & [= <-])%bind_Ok; [|done..]. by exists raw.
  - intros (raw & Hd & -> & Hi). by rewrite (proj2 (item_at i data pos (length raw) Hwf Hp)) by (by exists raw).
Qed.

Lemma supported_ok (l : list Z) raws hb rest : wf_bytes (hb ++ concat raws ++ rest) -> headed 4 (blen l) hb ->
  blen l <= maxRefusalSupportedVersions -> Forall2 (headed 0) l raws -> validateSupportedVersions (hb ++ concat raws ++ rest) = Ok ().
Proof.
  intros Hwf Hhb Hl HF. set (data := hb ++ concat raws ++ rest) in *. unfold validateSupportedVersions, skipHandshakeTags.
  rewrite (proj2 (skipTags_exact data 0 0 Hwf)); cycle 1.
  { exists 0%nat, []. split_and!; try done; [constructor|]. rewrite drop_0. by apply (headed_untagged 4 (blen l)). }
  cbn [mbind result_bind]. rewrite drop_0. destruct Hhb as (h & Hh & Hm & Ha & Hi & Hb).
  assert (Hd : drop (length hb) data = concat raws ++ rest) by (by apply drop_app_length).
  change maxRefusalSupportedVersions with 5753 in *.
  rewrite (proj2 (handshakeInfo_exact 4 data (blen l) (length hb) false Hwf ltac:(lia))); cycle 1.
  { exists hb, h. rewrite Hd. split_and!; try done. unfold MaxInt32. lia. }
  cbn [mbind result_bind negb andb]. rewrite (proj2 (Z.ltb_ge _ _)) by lia. cbn [Nat.add].
  assert (HE : Elements (fun _ _ raw _ _ => is_item raw) () 0 ((fun _ => ()) <$> raws) (concat raws)).
  { clear -HF. generalize 0. induction HF as [|z raw l raws Hz _ IH]; intros i; [constructor|]. cbn [fmap list_fmap concat].
    apply (E_cons () i raw () ()); [|apply IH]. destruct (headed_item (Z.to_nat MaxNestedLevels) _ _ _ Hz ltac:(by left)) as [h Hh]. by exists h. }
  rewrite (collectionLoop_complete data 5753 (blen l) false (supportedElement data) (fun _ _ raw _ _ => is_item raw)) with
    (l := (fun _ => ()) <$> raws) (body := concat raws) (rest := rest); try done.
  - intros ? ? raw ? ? Hr. rewrite <- (app_nil_r raw) at 2. by apply is_item_start.
  - by apply supportedElement_exact.
  - unfold data. rewrite length_app. lia.
  - lia.
  - unfold counts, blen. rewrite length_fmap, (Forall2_length _ _ _ HF). lia.
Qed.

Lemma refusalElement_code collection code f0 rest pos : wf_bytes collection -> drop pos collection = f0 ++ rest -> headed 0 code f0 ->
  code <= MaxUint64 -> refusalElement collection 0 0 pos = Ok ((), code, (pos + length f0)%nat).
Proof.
  intros Hwf Hd (h & Hh & Hm & Ha & _) Hc. unfold refusalElement. cbn [Z.eqb].
  rewrite (proj2 (decodeHandshakeUnsigned_exact _ MaxUint64 code (length f0) (wf_bytes_drop _ _ Hwf))); [done|].
  exists f0, h. rewrite Hd, drop_app_length. done.
Qed.

Lemma refusalElement_item collection reason idx pos raw rest : wf_bytes collection -> (pos <= length collection)%nat ->
  drop pos collection = raw ++ rest -> is_item raw -> 0 < idx ->
  (idx = 1 -> reason = 0 -> validateSupportedVersions (raw ++ rest) = Ok ()) ->
  refusalElement collection reason idx pos = Ok ((), reason, (pos + length raw)%nat).
Proof.
  intros Hwf Hp Hd Hi Hx Hv. unfold refusalElement, RefuseReasonVersionMismatch. rewrite (proj2 (Z.eqb_neq idx 0)) by lia.
  assert (E : (if (idx =? 1) && (reason =? 0) then validateSupportedVersions (drop pos collection) else Ok ()) = Ok ()).
  { rewrite Hd. destruct (Z.eqb_spec idx 1), (Z.eqb_spec reason 0); cbn [andb]; auto. }
  rewrite E. cbn [mbind result_bind]. rewrite (proj2 (item_at idx collection pos (length raw) Hwf Hp)); [done|].
  exists raw. rewrite <- drop_drop, Hd, drop_app_length. done.
Qed.

(** The reason of a refusal, inside its message. *)
Lemma refusal_reason hb tb rb raws : wf_bytes (hb ++ tb ++ rb ++ concat raws) -> headed 4 2 hb -> headed 0 2 tb -> headed 4 (blen raws) rb ->
  blen raws <= maxRefusalFields ->
  validateRefusalMessage (hb ++ tb ++ rb ++ concat raws) =
  (let collection := rb ++ concat raws in
   _ ← collectionLoop (S (length collection)) collection maxRefusalFields (blen raws) false (refusalElement collection) 0 (length rb) 0; Ok ()).
Proof.
  intros Hwf Hh Ht Hr Hl. unfold validateRefusalMessage. set (collection := rb ++ concat raws) in *.
  assert (Hwc : wf_bytes collection) by (apply wf_bytes_app in Hwf as [_ Hwf]; by apply wf_bytes_app in Hwf as [_ Hwf]).
  rewrite (proj2 (secondField_exact _ collection Hwf)); cycle 1.
  { apply (message_second _ _ _ 2); [done|done|]. by apply (headed_untagged 4 (blen raws)). }
  cbn [mbind result_bind]. destruct Hr as (h & Hrh & Hm & Ha & Hi & _).
  rewrite (proj2 (handshakeInfo_exact 4 collection (blen raws) (length rb) false Hwc ltac:(lia))); cycle 1.
  { exists rb, h. unfold collection. rewrite drop_app_length. split_and!; try done. unfold MaxInt32, maxRefusalFields in *. lia. }
  cbn [mbind result_bind negb andb]. by rewrite (proj2 (Z.ltb_ge _ _)) by lia.
Qed.

Lemma wireAny_item a raw : wireAny a raw -> exists h, Item true 1 raw h.
Proof.
  intros [z hb Hh|z hb Hh|s hb (h & Hh & Hm & Ha & Hi & Hb)| |l hb raws _ Hh HF].
  - apply (headed_item 1 _ _ _ Hh). by left.
  - apply (headed_item 1 _ _ _ Hh). by left.
  - exists h. apply I_string; auto.
  - exists (mkHead 7 22 22 false false 1). apply I_atom; [split; reflexivity|reflexivity|by right; right].
  - apply array_item; [unfold blen in *; by rewrite <- (Forall2_length _ _ _ HF)|].
    clear Hh. induction HF as [|z r1 l raws Hz _ IH]; constructor; [|done]. by apply (headed_item 0 _ _ _ Hz); left.
Qed.

Lemma wireAny_is_item a raw : wireAny a raw -> is_item raw.
Proof. intros [h Hh]%wireAny_item. exists h. eapply Item_mono; [done|]. unfold MaxNestedLevels. lia. Qed.

Lemma refusal_depth hb tb rb raws reason : wf_bytes (hb ++ tb ++ rb ++ concat raws) -> headed 4 2 hb -> headed 0 2 tb -> headed 4 (blen raws) rb ->
  Forall2 wireAny reason raws -> ValidateItemDepth (E := handshakeWalkError) (hb ++ tb ++ rb ++ concat raws) 4 = Ok ().
Proof.
  intros Hwf Hh Ht Hr HF. destruct (array_item 1 rb raws Hr) as [hr Hri].
  { clear -HF. induction HF as [|a raw reason raws Ha _ IH]; constructor; [by apply (wireAny_item a)|done]. }
  destruct (headed_item 2 _ _ _ Ht ltac:(by left)) as [ht Hti].
  destruct (array_item 2 hb [tb; rb ++ concat raws]) as [h Hi]; [done|repeat constructor; eauto|].
  cbn [concat] in Hi. rewrite app_nil_r in Hi. apply (depth_ok _ h); [done|]. eapply Item_mono; [done|lia].
Qed.

Lemma wireAny_versions l f : wireAny (AnyUint16s l) f ->
  l = [] /\ f = [0xf6] \/ exists hb raws, l <> [] /\ headed 4 (blen l) hb /\ Forall2 (headed 0) l raws /\ f = hb ++ concat raws.
Proof. inversion 1; subst; [by left|]. right. by eexists _, _. Qed.

(** The refusal of all versions, and one of a version with a text. *)
Lemma preflight_mismatch hb tb rb f0 f1 l : wf_bytes (hb ++ tb ++ rb ++ f0 ++ f1) -> headed 4 2 hb -> headed 0 2 tb -> headed 4 2 rb ->
  wireAny (AnyUint64 0) f0 -> wireAny (AnyUint16s l) f1 -> blen l <= maxRefusalSupportedVersions ->
  preflightMsg 2 (hb ++ tb ++ rb ++ f0 ++ f1) = Some (match l with [] => Err PfNotCollection | _ => Ok () end).
Proof.
  intros Hwf Hh Ht Hr H0 H1 Hl. assert (HF : Forall2 wireAny [AnyUint64 0; AnyUint16s l] [f0; f1]) by (constructor; [done|constructor; [done|constructor]]).
  pose proof (refusal_depth hb tb rb [f0; f1] [AnyUint64 0; AnyUint16s l]) as D. pose proof (refusal_reason hb tb rb [f0; f1]) as RR. cbn [concat] in D, RR. rewrite app_nil_r in D, RR.
  specialize (D Hwf Hh Ht Hr HF). specialize (RR Hwf Hh Ht Hr ltac:(done)).
  unfold preflightMsg. change ((2 <? 0) || (3 <? 2)) with false. change ((2 =? 0) || (2 =? 3)) with false. change (2 =? 2) with true. cbv iota.
  rewrite RR, D. clear RR D. cbv zeta. set (collection := rb ++ f0 ++ f1).
  assert (Hwc : wf_bytes collection) by (apply wf_bytes_app in Hwf as [_ Hwf]; by apply wf_bytes_app in Hwf as [_ Hwf]).
  inversion H0 as [z f0' Hf0| | | |]; subst z f0'. pose proof (headed_length _ _ _ Hr). pose proof (headed_length _ _ _ Hf0).
  assert (D0 : drop (length rb) collection = f0 ++ f1) by (unfold collection; by rewrite drop_app_length).
  assert (D1 : drop (length rb + length f0) collection = f1) by (by rewrite <- drop_drop, D0, drop_app_length).
  assert (Hlc : length collection = (length rb + length f0 + length f1)%nat) by (unfold collection; rewrite !length_app; lia).
  destruct (length collection) as [|[|n]] eqn:En; [lia|lia|]. change (blen [f0; f1]) with 2.
  rewrite loop_next, (refusalElement_code collection 0 f0 f1 _ Hwc D0 Hf0) by (done || lia). cbn [mbind result_bind].
  rewrite loop_next by lia. destruct (wireAny_versions l f1 H1) as [[-> Ef]|(lb & raws & Hne & Hlb & HR & Ef)].
  - assert (EV : refusalElement collection 0 (0 + 1) (length rb + length f0) = Err PfNotCollection)
      by (unfold refusalElement; rewrite D1, Ef; reflexivity). by rewrite EV.
  - rewrite (refusalElement_item collection 0 (0 + 1) _ f1 []); [|done|lia|by rewrite app_nil_r|by apply (wireAny_is_item (AnyUint16s l))|lia|].
    2:{ intros _ _. rewrite Ef, <- app_assoc. apply (supported_ok l); [|done..]. rewrite app_nil_r, <- Ef, <- D1. by apply wf_bytes_drop. }
    cbn [mbind result_bind]. rewrite loop_end. cbn [mbind result_bind]. by destruct l.
Qed.

Lemma preflight_refused hb tb rb f0 f1 f2 code v s : wf_bytes (hb ++ tb ++ rb ++ f0 ++ f1 ++ f2) -> headed 4 2 hb -> headed 0 2 tb -> headed 4 3 rb ->
  wireAny (AnyUint64 code) f0 -> wireAny (AnyUint16 v) f1 -> wireAny (AnyString s) f2 -> 0 < code <= MaxUint64 ->
  preflightMsg 2 (hb ++ tb ++ rb ++ f0 ++ f1 ++ f2) = Some (Ok ()).
Proof.
  intros Hwf Hh Ht Hr H0 H1 H2 Hc.
  assert (HF : Forall2 wireAny [AnyUint64 code; AnyUint16 v; AnyString s] [f0; f1; f2])
    by (constructor; [done|constructor; [done|constructor; [done|constructor]]]).
  pose proof (refusal_depth hb tb rb [f0; f1; f2] [AnyUint64 code; AnyUint16 v; AnyString s]) as D. pose proof (refusal_reason hb tb rb [f0; f1; f2]) as RR.
  cbn [concat] in D, RR. rewrite app_nil_r in D, RR. specialize (D Hwf Hh Ht Hr HF). specialize (RR Hwf Hh Ht Hr ltac:(done)).
  unfold preflightMsg. change ((2 <? 0) || (3 <? 2)) with false. change ((2 =? 0) || (2 =? 3)) with false. change (2 =? 2) with true. cbv iota.
  rewrite RR, D. clear RR D. cbv zeta. set (collection := rb ++ f0 ++ f1 ++ f2).
  assert (Hwc : wf_bytes collection) by (apply wf_bytes_app in Hwf as [_ Hwf]; by apply wf_bytes_app in Hwf as [_ Hwf]).
  inversion H0 as [z f0' Hf0| | | |]; subst z f0'. pose proof (headed_length _ _ _ Hr). pose proof (headed_length _ _ _ Hf0).
  assert (D0 : drop (length rb) collection = f0 ++ f1 ++ f2) by (unfold collection; by rewrite drop_app_length).
  assert (D1 : drop (length rb + length f0) collection = f1 ++ f2) by (by rewrite <- drop_drop, D0, drop_app_length).
  assert (D2 : drop (length rb + length f0 + length f1) collection = f2) by (by rewrite <- drop_drop, D1, drop_app_length).
  assert (L1 : (1 <= length f1)%nat) by (inversion H1; by eapply headed_length).
  assert (Hlc : length collection = (length rb + length f0 + length f1 + length f2)%nat) by (unfold collection; rewrite !length_app; lia).
  destruct (length collection) as [|[|[|n]]] eqn:En; [lia..|]. change (blen [f0; f1; f2]) with 3.
  rewrite loop_next, (refusalElement_code collection code f0 (f1 ++ f2) _ Hwc D0 Hf0) by (done || lia). cbn [mbind result_bind].
  rewrite loop_next, (refusalElement_item collection code (0 + 1) _ f1 f2) by (done || lia || by eapply wireAny_is_item). cbn [mbind result_bind].
  rewrite loop_next, (refusalElement_item collection code (0 + 1 + 1) _ f2 []) by (rewrite ?app_nil_r; done || lia || by eapply wireAny_is_item).
  cbn [mbind result_bind]. by rewrite loop_end.
Qed.

Section Negotiation.
Context `{L : CodecLaws} {C : Type}.

Lemma rawVersionMap_lookup m v : map_ok m ->
  rawVersionMap m !! v = (m !! v) ≫= encode /\ (is_Some (rawVersionMap m !! v) <-> is_Some (m !! v)).
Proof using L.
  intros Hm. unfold rawVersionMap. rewrite lookup_omap. split; [done|]. destruct (m !! v) as [d|] eqn:E; [|cbn; split; by intros [? ?]].
  destruct (Hm _ _ E) as (_ & x & -> & Hx & _). destruct (encode_total x Hx) as (bs & Hbs & _). cbn. rewrite Hbs. by split; eauto.
Qed.

Lemma decoded_raw m : map_ok m -> Some <$> map_imap decoded (rawVersionMap m) = m.
Proof using L.
  intros Hm. apply map_eq. intros v. rewrite lookup_fmap, map_lookup_imap.
  destruct (rawVersionMap_lookup m v Hm) as [-> _]. destruct (m !! v) as [d|] eqn:E; [|done].
  destruct (Hm _ _ E) as (_ & x & -> & Hx & Hd). destruct (encode_total x Hx) as (bs & Hbs & _). cbn. rewrite Hbs. cbn.
  unfold decoded. rewrite Hd, (decode_encode x bs Hx Hbs). done.
Qed.

Lemma decoded_lookup m v x : map_ok m -> map_imap decoded (rawVersionMap m) !! v = Some x <-> m !! v = Some (Some x).
Proof using L.
  intros Hm. rewrite <- (decoded_raw m Hm) at 2. rewrite lookup_fmap. destruct (_ !! v); cbn; naive_solver.
Qed.

Lemma supportedLoop_uint64 l : forall i, Forall (fun v => 0 <= v <= MaxUint16) l -> supportedLoop i (AnyUint64 <$> l) = Ok l.
Proof using Type.
  induction l as [|v l IH]; intros i HF; [done|]. apply Forall_cons in HF as [Hv HF]. unfold MaxUint16 in Hv.
  rewrite fmap_cons. cbn [supportedLoop versionNum]. rewrite (proj2 (Z.ltb_ge _ _)) by lia.
  rewrite IH by done. cbn. by rewrite u16_small by lia.
Qed.

Lemma sortedKeys_range m : map_ok m -> Forall (fun v => 0 <= v <= MaxUint16) (sortedKeys m).
Proof using Type.
  intros Hm. apply Forall_forall. intros v Hv. unfold sortedKeys in Hv. rewrite merge_sort_Permutation in Hv.
  apply list_elem_of_fmap in Hv as ([k d] & -> & Hin). apply elem_of_map_to_list in Hin. by destruct (Hm _ _ Hin).
Qed.

(** The versions that the tables know are few. *)
Definition knownVersions : gset Z := dom protocolVersions ∪ dom dmqProtocolVersionsNtC ∪ dom dmqProtocolVersionsNtN.

Lemma map_ok_size m : map_ok m -> Z.of_nat (size m) <= 28.
Proof using Type.
  intros Hm. assert (Hs : dom m ⊆ knownVersions).
  { intros v [d Hd]%elem_of_dom. destruct (Hm _ _ Hd) as (_ & x & _ & _ & Hk). unfold GetProtocolVersion in Hk. unfold knownVersions.
    rewrite !elem_of_union, !elem_of_dom. destruct (protocolVersions !! v); [by left; left|].
    destruct (dmqProtocolVersionsNtC !! v); [by left; right|]. right. destruct (dmqProtocolVersionsNtN !! v); [done|discriminate Hk]. }
  apply subseteq_size in Hs. rewrite size_dom in Hs. assert (size knownVersions = 28%nat) by (vm_compute; reflexivity). lia.
Qed.

Lemma rawVersionMap_ok m : map_ok m -> map_Forall (fun v bs => 0 <= v <= MaxUint16 /\ raw_ok bs) (rawVersionMap m) /\ Z.of_nat (size (rawVersionMap m)) <= 28.
Proof using L.
  intros Hm. split.
  - intros v bs Hv. destruct (rawVersionMap_lookup m v Hm) as [E _]. rewrite Hv in E. destruct (m !! v) as [d|] eqn:Ed; [|done].
    destruct (Hm _ _ Ed) as (Hr & x & -> & Hx & _). destruct (encode_total x Hx) as (bs' & Hbs & Hok). cbn in E. rewrite Hbs in E. by simplify_eq.
  - pose proof (map_ok_size m Hm). unfold rawVersionMap.
    assert (dom (omap encode m) ⊆ dom m) as Hs.
    { intros v [bs Hv]%elem_of_dom. rewrite lookup_omap in Hv. apply elem_of_dom. destruct (m !! v); [done|discriminate Hv]. }
    apply subseteq_size in Hs. rewrite !size_dom in Hs. lia.
Qed.

(** What arrives of each message. *)
Lemma deliver_parsed m bs : sendable m -> encodeMsg m = Some bs -> preflightMsg (msgTypeOf m) bs = Some (Ok ()) -> deliver m = Ok (received m).
Proof using L. intros Hs E P. unfold deliver, NewMsgFromCbor. by rewrite E, P, (decodeMsg_encode m bs Hs E). Qed.

Lemma deliver_map m vm : (m = MsgProposeVersions vm \/ m = MsgQueryReply vm) ->
  map_Forall (fun v bs => 0 <= v <= MaxUint16 /\ raw_ok bs) vm -> Z.of_nat (size vm) <= 28 -> deliver m = Ok m.
Proof using L.
  intros Hm Hok Hsz. assert (Hs : sendable m) by (destruct Hm as [->| ->]; split; [done|unfold MaxUint16; lia|done|unfold MaxUint16; lia]).
  destruct (encodeMsg_wire m Hs) as (bs & E & Hwf & hb & tb & body & -> & Ht & W).
  assert (Er : received m = m) by (by destruct Hm as [->| ->]). rewrite <- Er at 2. apply (deliver_parsed _ _ Hs E).
  destruct Hm as [->| ->]; destruct W as [Hh W]; (apply (preflight_map vm); [|done..|]; [auto|change maxHandshakeVersions with 2877; lia]).
Qed.

Lemma deliver_accept v bs : 0 <= v <= MaxUint16 -> raw_ok bs -> deliver (MsgAcceptVersion v bs) = Ok (MsgAcceptVersion v bs).
Proof using L.
  intros Hv Hb. assert (Hs : sendable (MsgAcceptVersion v bs)) by done.
  destruct (encodeMsg_wire _ Hs) as (data & E & Hwf & hb & tb & body & -> & Ht & Hh & vb & Hvb & ->).
  apply (deliver_parsed _ _ Hs E). by apply (preflight_accept hb tb vb bs v).
Qed.

Lemma deliver_mismatch l : Forall (fun v => 0 <= v <= MaxUint16) l -> blen l <= 28 ->
  deliver (MsgRefuse [AnyUint64 RefuseVersionMismatch; AnyUint16s l]) =
  match l with [] => Err (HsPreflight PfNotCollection) | _ => Ok (MsgRefuse [AnyUint64 RefuseVersionMismatch; AnyList (AnyUint64 <$> l)]) end.
Proof using L.
  intros Hl Hn. set (m := MsgRefuse _). assert (Hs : sendable m).
  { split; [|done]. repeat constructor; try done; unfold RefuseVersionMismatch, MaxUint16; lia. }
  destruct (encodeMsg_wire _ Hs) as (data & E & Hwf & hb & tb & body & -> & Ht & Hh & rb & raws & Hr & HF & ->).
  apply Forall2_cons_inv_l in HF as (f0 & raws1 & H0 & HF & ->). apply Forall2_cons_inv_l in HF as (f1 & raws2 & H1 & HF & ->).
  apply Forall2_nil_inv_l in HF as ->. cbn [concat] in *. rewrite app_nil_r in *.
  pose proof (preflight_mismatch hb tb rb f0 f1 l Hwf Hh Ht Hr H0 H1 ltac:(change maxRefusalSupportedVersions with 5753; lia)) as P.
  destruct l as [|v l]; [|by apply (deliver_parsed _ _ Hs E)].
  unfold deliver, NewMsgFromCbor. rewrite E. change (msgTypeOf m) with 2. by rewrite P.
Qed.

Lemma deliver_refused v : 0 <= v <= MaxUint16 ->
  deliver (MsgRefuse [AnyUint64 RefuseRefused; AnyUint16 v; AnyString "network magic mismatch"]) =
  Ok (MsgRefuse [AnyUint64 RefuseRefused; AnyUint64 v; AnyString "network magic mismatch"]).
Proof using L.
  intros Hv. set (m := MsgRefuse [_; AnyUint16 v; _]). assert (Hs : sendable m).
  { split; [|vm_compute; discriminate]. apply Forall_cons. split; [split; vm_compute; discriminate|]. apply Forall_cons. split; [exact Hv|].
    apply Forall_cons. split; [|by apply Forall_nil]. split; [apply (bool_decide_unpack _); vm_compute; exact I|vm_compute; discriminate]. }
  destruct (encodeMsg_wire _ Hs) as (data & E & Hwf & hb & tb & body & -> & Ht & Hh & rb & raws & Hr & HF & ->).
  apply Forall2_cons_inv_l in HF as (f0 & raws1 & H0 & HF & ->). apply Forall2_cons_inv_l in HF as (f1 & raws2 & H1 & HF & ->).
  apply Forall2_cons_inv_l in HF as (f2 & raws3 & H2 & HF & ->). apply Forall2_nil_inv_l in HF as ->. cbn [concat] in *. rewrite app_nil_r in *.
  apply (deliver_parsed _ _ Hs E). by apply (preflight_refused hb tb rb f0 f1 f2 RefuseRefused v "network magic mismatch").
Qed.

Context (client srv : Config C) (fc fs : C -> Z -> option VersionData -> result hsError C) (q : C -> ProtocolVersionMap -> result hsError C).
Hypothesis client_finished : FinishedFunc client = Some fc.
Hypothesis client_query : QueryReplyFunc client = Some q.
Hypothesis srv_finished : FinishedFunc srv = Some fs.
Hypothesis client_ok : map_ok (versions client).
Hypothesis srv_ok : map_ok (versions srv).

Let cm := versions client.
Let sm := versions srv.
Let proposed := rawVersionMap cm.

(** The message each agreement is answered with. *)
Definition answer (a : Agreement) : HandshakeMsg :=
  match a with
  | Queried => NewMsgQueryReply (versions srv)
  | NoCommon => MsgRefuse [AnyUint64 RefuseVersionMismatch; AnyUint16s (sortedKeys (versions srv))]
  | MagicDiffers v => MsgRefuse [AnyUint64 RefuseRefused; AnyUint16 v; AnyString "network magic mismatch"]
  | Agreed v _ ds => NewMsgAcceptVersion v (Some ds)
  end.

Lemma intersect_spec v :
  v ∈ filter (fun v => is_Some (sm !! v)) (fst <$> map_to_list proposed) <-> is_Some (cm !! v) /\ is_Some (sm !! v).
Proof using L client_ok.
  rewrite list_elem_of_filter, list_elem_of_fmap. destruct (rawVersionMap_lookup cm v client_ok) as [_ Hr]. split.
  - intros [Hs ([k bs] & -> & Hin)]. apply elem_of_map_to_list in Hin. split; [|done]. apply Hr. by exists bs.
  - intros [[bs Hc]%Hr Hs]. split; [done|]. exists (v, bs). split; [done|]. by apply elem_of_map_to_list.
Qed.

Lemma server_step cs : exists a, Negotiated cm sm a /\
  handleProposeVersions (fun _ => None) srv cs proposed =
  match a with
  | Queried => (cs, [answer a], Some HsQueryMode)
  | NoCommon => (cs, [answer a], Some HsNoVersions)
  | MagicDiffers v => (cs, [answer a], Some HsParameters)
  | Agreed v dc ds => finish cs [answer a] (fs cs v (Some dc))
  end.
Proof using L client_ok srv_finished srv_ok.
  unfold handleProposeVersions, replying, sending. rewrite srv_finished. case_bool_decide as Hq.
  { apply map_Exists_lookup_1 in Hq as (v & d & Hd & HQ). apply decoded_lookup in Hd; [|done].
    exists Queried. split; [by eapply N_queried|done]. }
  assert (Hnq : unqueried cm).
  { intros v d Hd. destruct (Query d) eqn:E; [|done]. destruct Hq. apply (map_Exists_lookup_2 _ _ v d); [|done]. by apply decoded_lookup. }
  fold sm. destruct (filter _ _) as [|v0 l] eqn:El.
  { exists NoCommon. split; [|done]. apply N_none; [done|]. intros v Hv. destruct (sm !! v) as [d|] eqn:Es; [|done].
    assert (Hin : v ∈ filter (fun v => is_Some (sm !! v)) (fst <$> map_to_list proposed)) by (apply intersect_spec; rewrite Es; eauto).
    rewrite El in Hin. by apply elem_of_nil in Hin. }
  rewrite <- El. set (inter := filter _ _) in *. destruct (foldl_max inter 0) as (_ & Hmax & Hin). cbn zeta in *.
  set (v := foldl _ 0 inter) in *.
  assert (Hv : v ∈ inter).
  { destruct Hin as [E0|]; [|done]. assert (Hv0 : v0 ∈ inter) by (rewrite El; left). pose proof (Hmax v0 Hv0).
    pose proof Hv0 as Hv0'. apply intersect_spec in Hv0' as [[d Hd] _]. destruct (client_ok _ _ Hd) as [? _]. assert (v0 = v) as -> by lia. done. }
  pose proof Hv as Hv'. apply intersect_spec in Hv' as [[d1 Hc] [d2 Hs]].
  destruct (client_ok _ _ Hc) as (_ & dc & -> & Hdc & Hk). destruct (srv_ok _ _ Hs) as (_ & ds & -> & Hds & _).
  assert (Hh : highest cm sm v) by (intros w ? ?; apply Hmax, intersect_spec; done).
  rewrite Hs. cbn [mjoin option_join]. rewrite Hk. destruct (encode_total dc Hdc) as (bs & Hbs & _).
  assert (Hp : proposed !! v = Some bs) by (unfold proposed; destruct (rawVersionMap_lookup cm v client_ok) as [-> _]; by rewrite Hc).
  rewrite Hp. cbn [default from_option id]. rewrite (decode_encode dc bs Hdc Hbs).
  destruct (Z.eqb_spec (NetworkMagic dc) (NetworkMagic ds)); cbn [negb].
  - exists (Agreed v dc ds). split; [by eapply N_agreed|done].
  - exists (MagicDiffers v). split; [by eapply N_magic|done].
Qed.

Lemma client_step cc a : Negotiated cm sm a ->
  let '(cc', _, ec) := match deliver (answer a) with Ok m => clientMessageHandler client cc m | Err e => (cc, [], Some e) end in
  (cc', ec) = (outcome sm fc fs q cc cc a).1.
Proof using L client_finished client_ok client_query srv_ok.
  intros HN. destruct HN as [v d Hd HQ|Hq Hn|v dc ds Hq Hc Hs Hh Hm|v dc ds Hq Hc Hs Hh Hm]; cbn [answer].
  - unfold NewMsgQueryReply. destruct (rawVersionMap_ok _ srv_ok) as [K1 K2]. rewrite (deliver_map _ (rawVersionMap (versions srv))) by auto. cbn [clientMessageHandler]. unfold handleQueryReply, proposedQuery.
    rewrite bool_decide_true; [|by apply (map_Exists_lookup_2 _ _ v (Some d))]. cbn [negb]. rewrite client_query, client_finished.
    rewrite (decoded_raw _ srv_ok). fold sm. cbn [outcome fst]. destruct (q cc sm) as [cc'|]; [|done]. by destruct (fc cc' 0 None).
  - pose proof (sortedKeys_range _ srv_ok) as HR. rewrite deliver_mismatch; [|done|].
    2:{ pose proof (map_ok_size _ srv_ok). unfold blen, sortedKeys. rewrite merge_sort_Permutation, length_fmap, length_map_to_list. done. }
    cbn [outcome fst]. fold sm. fold sm in HR. destruct (sortedKeys sm) as [|w l]; [done|]. cbn [clientMessageHandler handleRefuse].
    change (RefuseVersionMismatch =? RefuseVersionMismatch) with true. cbv iota. cbn [supportedVersions]. by rewrite supportedLoop_uint64.
  - destruct (client_ok _ _ Hc) as (Hr & _). rewrite (deliver_refused v Hr). unfold MaxUint16 in Hr. cbn.
    rewrite (proj2 (Z.ltb_ge _ _)) by lia. by rewrite u16_small by lia.
  - destruct (srv_ok _ _ Hs) as (Hr & x & [= <-] & Hx & Hk). unfold NewMsgAcceptVersion.
    destruct (encode_total ds Hx) as (bs & Hbs & Hraw). rewrite Hbs. cbn [default from_option id]. rewrite (deliver_accept v bs Hr Hraw).
    cbn [clientMessageHandler]. unfold handleAcceptVersion. rewrite client_finished. fold cm. rewrite Hc, Hk. rewrite (decode_encode ds bs Hx Hbs), Hm, Z.eqb_refl.
    cbn [negb outcome fst]. by destruct (fc cc v (Some ds)).
Qed.

Lemma exchange_exact cc cs : exists a, Negotiated cm sm a /\
  exchange (fun _ => None) client srv cc cs = outcome sm fc fs q cc cs a.
Proof using L client_finished client_ok client_query srv_finished srv_ok.
  destruct (server_step cs) as (a & HN & HS). exists a. split; [done|]. unfold exchange, NewMsgProposeVersions.
  destruct (rawVersionMap_ok _ client_ok) as [K1 K2]. rewrite (deliver_map _ (rawVersionMap (versions client))) by auto.
  cbn [serverHandleMessage]. fold cm. fold proposed. rewrite HS.
  pose proof (client_step cc a HN) as HC.
  destruct a as [| |v|v dc ds]; cbn [outcome fst] in HC |- *;
    try (destruct (match deliver _ with Ok _ => _ | Err _ => _ end) as [[cc' s'] ec]; by rewrite HC).
  destruct (fs cs v (Some dc)); cbn [finish ended]; destruct (match deliver _ with Ok _ => _ | Err _ => _ end) as [[cc' s'] ec]; by rewrite HC.
Qed.
End Negotiation.

(** C7. The handshake decides the specification: two ends with any maps of known
    versions, whose messages are encoded, walked and parsed on their way, end in
    exactly one of four ways. A query is answered with the server's whole map;
    without a common version the client learns all versions of the server, in
    order, or, when the server has none, refuses the message it gets, which is
    not the array that the walk asks for; otherwise the highest common version is
    taken, it is refused at both ends when the networks differ, and else both
    ends finish with that version and with the data of the other. *)
Theorem handshake_agreement `{L : CodecLaws} {C : Type} (client srv : Config C) fc fs q cc cs :
  FinishedFunc client = Some fc -> QueryReplyFunc client = Some q -> FinishedFunc srv = Some fs ->
  map_ok (versions client) -> map_ok (versions srv) ->
  exists a, Negotiated (versions client) (versions srv) a /\
    (forall a', Negotiated (versions client) (versions srv) a' -> a' = a) /\
    exchange (fun _ => None) client srv cc cs = outcome (versions srv) fc fs q cc cs a.
Proof.
  intros Hfc Hq Hfs Hc Hs. destruct (exchange_exact client srv fc fs q Hfc Hq Hfs Hc Hs cc cs) as (a & HN & HE).
  exists a. split_and!; [done| |done]. intros a' HN'. by apply (Negotiated_unique (versions client) (versions srv)).
Qed.

(** ** Connections *)

(** The type of a version's data does not depend on what is in it. *)
Lemma versionDataFor_shape mode magic diffusion ps query peras v d :
  versionDataFor mode magic diffusion ps query peras v = Some d ->
  NetworkMagic d = magic /\ Query d = (query && (match mode with ProtocolModeNodeToNode => 11 <=? v | ProtocolModeNodeToClient => ProtocolVersionNtCOffset + 15 <=? v end)) /\
  decoderOf <$> versionDataFor mode 0 false false false false v = Some (decoderOf d) /\ (0 <= magic < 4294967296 -> data_ok d).
Proof.
  unfold versionDataFor, data_ok. intros H. destruct mode; repeat case_match; simplify_eq; cbn;
    rewrite ?andb_true_r, ?andb_false_r; split_and!; try done;
    try (by intros ?; split_and!); zbool; try lia; cbn; rewrite ?andb_true_r, ?andb_false_r; done.
Qed.

(** One pass over the table: every version is 16 bits wide, is at most the
    highest one of its mode, and its data is of the type its decoder returns. *)
Definition tableSound (v : Z) (pv : ProtocolVersion) : Prop :=
  0 <= v <= MaxUint16 /\ (v < ProtocolVersionNtCOffset -> v <= 16) /\ v <= ProtocolVersionNtCOffset + 23 /\
  Forall (fun mode => match decoderOf <$> versionDataFor mode 0 false false false false v with
    | Some d => NewVersionDataFromCborFunc pv = Some d | None => True end) [ProtocolModeNodeToNode; ProtocolModeNodeToClient].

#[export] Instance tableSound_dec v pv : Decision (tableSound v pv).
Proof.
  unfold tableSound. apply and_dec; [apply _|]. apply and_dec; [apply _|]. apply and_dec; [apply _|].
  apply Forall_dec. intros mode. destruct (_ <$> _); apply _.
Defined.

Lemma table_sound : map_Forall tableSound protocolVersions.
Proof. apply (bool_decide_unpack _). vm_compute. done. Qed.

Lemma protocolMap_lookup mode magic diffusion ps query peras v d :
  GetProtocolVersionMapWithPerasSupport mode magic diffusion ps query peras !! v = Some d ->
  exists x pv, d = Some x /\ protocolVersions !! v = Some pv /\ versionDataFor mode magic diffusion ps query peras v = Some x.
Proof.
  unfold GetProtocolVersionMapWithPerasSupport. rewrite map_lookup_imap. intros H.
  destruct (protocolVersions !! v) as [pv|] eqn:E; cbn in H; [|done].
  destruct (versionDataFor _ _ _ _ _ _ _) as [x|] eqn:Ex; cbn in H; [|done]. simplify_eq. by exists x, pv.
Qed.

(** Every connection proposes a sound map. *)
Lemma protoVersions_ok o : 0 <= networkMagic o < 4294967296 -> map_ok (protoVersions o).
Proof.
  intros Hm v d. unfold protoVersions. destruct (useDMQProtocol o).
  - unfold GetProtocolVersionMapDMQNtC. rewrite lookup_fmap, fmap_Some. intros (pv & H & ->).
    unfold dmqProtocolVersionsNtC in H. apply lookup_singleton_Some in H as [<- <-]. split; [done|]. exists (VersionDataNtC15andUp (networkMagic o) (queryMode o)). done.
  - intros H. apply protocolMap_lookup in H as (x & pv & -> & Hv & Hx).
    destruct (versionDataFor_shape _ _ _ _ _ _ _ _ Hx) as (_ & _ & Hd & Hok). destruct (table_sound _ _ Hv) as (Hr & _ & _ & HT).
    split; [done|]. exists x. split_and!; [done|by apply Hok|]. unfold GetProtocolVersion. rewrite Hv.
    rewrite Forall_forall in HT. specialize (HT (modeOf o)). rewrite Hd in HT. apply HT. destruct (modeOf o); [left|right; left].
Qed.















(** ** Witnesses *)

(** A codec with heads of three bytes, and version data as a string of fields of
    eight bytes. *)
Definition demoHead (major n : Z) : bytes := [32 * major + 25; n / 256; n mod 256].

Lemma demoHead_headed major n : major ∈ [0; 2; 3; 4; 5] -> 0 <= n <= MaxUint16 -> headed major n (demoHead major n) /\ wf_bytes (demoHead major n).
Proof.
  unfold MaxUint16. intros Hm Hn. pose proof (Z.mod_pos_bound n 256 ltac:(lia)). pose proof (Z.div_pos n 256 ltac:(lia) ltac:(lia)).
  assert (n / 256 < 256) by (apply Z.div_lt_upper_bound; lia).
  assert (E : Z.lor (Z.shiftl (n / 256) 8) (n mod 256) = n).
  { rewrite lor_shiftl by lia. change (2 ^ 8) with 256. pose proof (Z.div_mod n 256 ltac:(lia)). lia. }
  split.
  - exists (mkHead major 25 n false false 3). split_and!; try done. split; [|done].
    repeat (apply elem_of_cons in Hm as [->|Hm]; [cbv -[Z.lor Z.shiftl Z.div Z.modulo]; by rewrite E|]). by apply elem_of_nil in Hm.
  - assert (0 <= major <= 5) by (repeat (apply elem_of_cons in Hm as [->|Hm]; [lia|]); by apply elem_of_nil in Hm).
    unfold demoHead. repeat constructor; lia.
Qed.

Definition demoArg (bs : bytes) : Z := byte_at bs 1 * 256 + byte_at bs 2.

Lemma demoArg_head major n rest : demoArg (demoHead major n ++ rest) = n.
Proof. unfold demoArg, demoHead. cbn. pose proof (Z.div_mod n 256 ltac:(lia)). lia. Qed.

Definition demoFields (v : VersionData) : list Z :=
  let b (x : bool) := if x then 1 else 0 in
  match v with
  | VersionDataNtC9to14 m => [m]
  | VersionDataNtC15andUp m q => [m; b q]
  | VersionDataNtN7to10 m d => [m; b d]
  | VersionDataNtN11to12 m d p q | VersionDataNtN13andUp m d p q => [m; b d; p; b q]
  | VersionDataNtN16andUp m d p q x => [m; b d; p; b q; b x]
  end.

Definition demoEncode (v : VersionData) : bytes := [0x58; 8 * blen (demoFields v)] ++ concat (be_encode 8 <$> demoFields v).

Definition demoField (i : nat) (bs : bytes) : Z := be_decode (take 8 (drop (2 + 8 * i) bs)).

Definition demoDecode (d : Decoder) (bs : bytes) : result string VersionData :=
  let f i := demoField i bs in
  Ok match d with
  | DecNtC9to14 => VersionDataNtC9to14 (f 0%nat)
  | DecNtC15andUp => VersionDataNtC15andUp (f 0%nat) (f 1%nat =? 1)
  | DecNtN7to10 => VersionDataNtN7to10 (f 0%nat) (f 1%nat =? 1)
  | DecNtN11to12 => VersionDataNtN11to12 (f 0%nat) (f 1%nat =? 1) (f 2%nat) (f 3%nat =? 1)
  | DecNtN13andUp => VersionDataNtN13andUp (f 0%nat) (f 1%nat =? 1) (f 2%nat) (f 3%nat =? 1)
  | DecNtN16andUp => VersionDataNtN16andUp (f 0%nat) (f 1%nat =? 1) (f 2%nat) (f 3%nat =? 1) (f 4%nat =? 1)
  end.

Lemma demoField_nth a b fs : Forall (fun z => 0 <= z <= MaxUint64) fs -> forall i, (i < length fs)%nat ->
  demoField i ([a; b] ++ concat (be_encode 8 <$> fs)) = nth i fs 0.
Proof.
  intros HF i Hi. unfold demoField. rewrite <- drop_drop. cbn [app]. rewrite !skipn_cons, drop_0. revert i Hi.
  induction HF as [|z fs Hz _ IH]; intros i Hi; cbn [length] in Hi; [lia|]. cbn [fmap list_fmap concat]. destruct i as [|i].
  - rewrite Nat.mul_0_r, drop_0, take_app_length' by (symmetry; apply length_be_encode). cbn [nth]. apply be_decode_encode.
    change (256 ^ Z.of_nat 8) with (MaxUint64 + 1). lia.
  - replace (8 * S i)%nat with (8 + 8 * i)%nat by lia. rewrite <- drop_drop, drop_app_length' by (symmetry; apply length_be_encode). apply IH. lia.
Qed.

Lemma demoFields_ok v : data_ok v -> Forall (fun z => 0 <= z <= MaxUint64) (demoFields v).
Proof.
  unfold data_ok, MaxUint64. intros [Hm Hp]. destruct v; cbn in *; repeat case_match; repeat apply List.Forall_cons; try apply List.Forall_nil; lia.
Qed.

Lemma demoEncode_ok v : data_ok v -> raw_ok (demoEncode v) /\ demoDecode (decoderOf v) (demoEncode v) = Ok v.
Proof.
  intros Hv. pose proof (demoFields_ok v Hv) as HF. pose proof (demoField_nth 0x58 (8 * blen (demoFields v)) _ HF) as Hn. split.
  - split.
    + unfold demoEncode. apply wf_bytes_app. split; [apply List.Forall_cons; [|apply List.Forall_cons; [|apply List.Forall_nil]]; unfold is_byte; destruct v; cbv [demoFields blen length]; lia|].
      clear. induction (demoFields v) as [|z fs IH]; [constructor|]. cbn [fmap list_fmap concat]. apply wf_bytes_app. split; [apply be_encode_wf|done].
    + exists (mkHead 2 24 (8 * blen (demoFields v)) false false 2). apply I_string; [by split; destruct v|done|by left|done|].
      cbn [Argument]. unfold blen. clear. induction (demoFields v) as [|z fs IH]; [done|]. cbn [fmap list_fmap concat length].
      rewrite length_app, length_be_encode. lia.
  - unfold demoDecode. f_equal. fold (demoEncode v) in Hn. destruct v; cbn [decoderOf]; rewrite !Hn by (cbn; lia); cbn [nth demoFields];
      repeat match goal with b : bool |- _ => destruct b end; done.
Qed.

Definition demoAnyBytes (a : any) : bytes :=
  match a with
  | AnyUint64 z | AnyUint16 z => demoHead 0 z
  | AnyString s => demoHead 3 (blen (text s)) ++ text s
  | AnyUint16s (v :: l) => demoHead 4 (blen (v :: l)) ++ concat (demoHead 0 <$> v :: l)
  | _ => [0xf6]
  end.

Definition demoMapBytes (m : gmap Z bytes) : bytes :=
  demoHead 5 (blen (map_to_list m)) ++ concat ((fun e => demoHead 0 (fst e) ++ snd e) <$> map_to_list m).

Definition demoMsgBytes (m : HandshakeMsg) : bytes :=
  match m with
  | MsgProposeVersions vm | MsgQueryReply vm => demoHead 4 2 ++ demoHead 0 (msgTypeOf m) ++ demoMapBytes vm
  | MsgAcceptVersion v data => demoHead 4 3 ++ demoHead 0 1 ++ demoHead 0 v ++ data
  | MsgRefuse reason => demoHead 4 2 ++ demoHead 0 2 ++ demoHead 4 (blen reason) ++ concat (demoAnyBytes <$> reason)
  end.

Fixpoint demoEntries (n : nat) (bs : bytes) : list (Z * bytes) :=
  match n with
  | O => []
  | S n =>
    match ItemLength (drop 3 bs) with
    | Ok len => (demoArg bs, take len (drop 3 bs)) :: demoEntries n (drop (3 + len) bs)
    | Err _ => []
    end
  end.

Definition demoMap (bs : bytes) : gmap Z bytes := list_to_map (demoEntries (Z.to_nat (demoArg bs)) (drop 3 bs)).

Definition untext (bs : bytes) : string := String.string_of_list_ascii ((fun b => Ascii.ascii_of_N (Z.to_N b)) <$> bs).

Fixpoint demoUints (n : nat) (bs : bytes) : list any :=
  match n with O => [] | S n => AnyUint64 (demoArg bs) :: demoUints n (drop 3 bs) end.

Fixpoint demoAnys (n : nat) (bs : bytes) : list any :=
  match n with
  | O => []
  | S n =>
    let arg := Z.to_nat (demoArg bs) in
    if byte_at bs 0 =? 25 then AnyUint64 (demoArg bs) :: demoAnys n (drop 3 bs)
    else if byte_at bs 0 =? 121 then AnyString (untext (take arg (drop 3 bs))) :: demoAnys n (drop (3 + arg) bs)
    else if byte_at bs 0 =? 153 then AnyList (demoUints arg (drop 3 bs)) :: demoAnys n (drop (3 + 3 * arg) bs)
    else AnyOther :: demoAnys n (drop 1 bs)
  end.

Definition demoDecodeMsg (msgType : Z) (bs : bytes) : option HandshakeMsg :=
  let body := drop 6 bs in
  if msgType =? 0 then Some (MsgProposeVersions (demoMap body))
  else if msgType =? 1 then Some (MsgAcceptVersion (demoArg body) (drop 3 body))
  else if msgType =? 2 then Some (MsgRefuse (demoAnys (Z.to_nat (demoArg body)) (drop 3 body)))
  else if msgType =? 3 then Some (MsgQueryReply (demoMap body)) else None.

#[export] Instance demoCodec : Codec := {
  encode v := Some (match v with Some d => demoEncode d | None => [0xf6] end);
  decode := demoDecode;
  encodeMsg m := Some (demoMsgBytes m);
  decodeMsg := demoDecodeMsg
}.

(** *** The laws of the codec *)

Lemma untext_text s : untext (text s) = s.
Proof.
  unfold untext, text. rewrite <- list_fmap_compose. rewrite <- (String.string_of_list_ascii_of_string s) at 2. f_equal.
  rewrite <- (list_fmap_id (String.list_ascii_of_string s)) at 2. apply list_fmap_ext. intros _ a _. cbn. rewrite N2Z.id. apply Ascii.ascii_N_embedding.
Qed.

Lemma text_wf s : wf_bytes (text s).
Proof.
  apply Forall_forall. intros b (a & -> & _)%list_elem_of_fmap. unfold is_byte. pose proof (Ascii.N_ascii_bounded a). lia.
Qed.

Lemma wf_concat (l : list bytes) : Forall wf_bytes l -> wf_bytes (concat l).
Proof. induction 1; [constructor|]. cbn [concat]. by apply wf_bytes_app. Qed.

Lemma demoAny_wire a : any_ok a -> wireAny a (demoAnyBytes a) /\ wf_bytes (demoAnyBytes a).
Proof.
  destruct a as [z|z|z|z|s|[|v l]|l|]; cbn [any_ok demoAnyBytes]; try done.
  - intros Hz. destruct (demoHead_headed 0 z ltac:(set_solver) Hz). split; [by constructor|done].
  - intros Hz. destruct (demoHead_headed 0 z ltac:(set_solver) Hz). split; [by constructor|done].
  - intros [_ Hs]. destruct (demoHead_headed 3 (blen (text s)) ltac:(set_solver)) as [H1 H2]; [split; [apply blen_nonneg|done]|].
    split; [by constructor|]. apply wf_bytes_app. split; [done|apply text_wf].
  - intros _. split; [constructor|]. repeat constructor; lia.
  - intros [HF Hl]. destruct (demoHead_headed 4 (blen (v :: l)) ltac:(set_solver)) as [H1 H2]; [split; [apply blen_nonneg|done]|]. split.
    + constructor; [done|done|]. clear -HF. revert HF. generalize (v :: l). induction 1 as [|z zs Hz _ IH]; [constructor|].
      rewrite fmap_cons. constructor; [|done]. apply demoHead_headed; [set_solver|done].
    + apply wf_bytes_app. split; [done|]. apply wf_concat, Forall_fmap. eapply Forall_impl; [exact HF|]. intros z Hz. apply demoHead_headed; [set_solver|done].
Qed.

Lemma demoEntry_wf (l : list (Z * bytes)) : Forall (fun e => 0 <= fst e <= MaxUint16 /\ raw_ok (snd e)) l ->
  wf_bytes (concat ((fun e => demoHead 0 (fst e) ++ snd e) <$> l)).
Proof.
  intros HF. apply wf_concat, Forall_fmap. eapply Forall_impl; [exact HF|]. intros e (He & Hw & _).
  apply wf_bytes_app. split; [apply demoHead_headed; [set_solver|done]|done].
Qed.

Lemma demoMap_wire (vm : gmap Z bytes) : map_Forall (fun v bs => 0 <= v <= MaxUint16 /\ raw_ok bs) vm -> Z.of_nat (size vm) <= MaxUint16 ->
  wireMap vm (demoMapBytes vm) /\ wf_bytes (demoMapBytes vm).
Proof.
  intros Hok Hsz. unfold demoMapBytes.
  assert (Hn : blen (map_to_list vm) = Z.of_nat (size vm)) by (unfold blen; by rewrite length_map_to_list).
  assert (HF : Forall (fun e => 0 <= fst e <= MaxUint16 /\ raw_ok (snd e)) (map_to_list vm)).
  { apply Forall_forall. intros [v bs] Hin%elem_of_map_to_list. exact (Hok _ _ Hin). }
  destruct (demoHead_headed 5 (blen (map_to_list vm)) ltac:(set_solver)) as [H1 H2]; [split; [apply blen_nonneg|lia]|]. split.
  - eexists _, _, _. split_and!; [done|done| |done]. clear -HF. induction HF as [|e l [He _] _ IH]; [constructor|]. rewrite fmap_cons.
    constructor; [|done]. exists (demoHead 0 (fst e)). split; [apply demoHead_headed; [set_solver|done]|done].
  - apply wf_bytes_app. split; [done|by apply demoEntry_wf].
Qed.

Lemma demoMsg_wire m : sendable m -> wireMsg m (demoMsgBytes m).
Proof.
  assert (U : forall z, 0 <= z <= MaxUint16 -> headed 0 z (demoHead 0 z) /\ wf_bytes (demoHead 0 z)) by (intros; apply demoHead_headed; [set_solver|done]).
  assert (A : forall z, 0 <= z <= MaxUint16 -> headed 4 z (demoHead 4 z) /\ wf_bytes (demoHead 4 z)) by (intros; apply demoHead_headed; [set_solver|done]).
  destruct (A 2) as [A2 W2]; [unfold MaxUint16; lia|]. destruct (A 3) as [A3 W3]; [unfold MaxUint16; lia|].
  intros Hs. destruct (U (msgTypeOf m)) as [Ht Wt]; [destruct m; unfold MaxUint16; cbn; lia|].
  destruct m as [vm|v data|reason|vm]; cbn [sendable demoMsgBytes msgTypeOf] in *.
  - destruct (demoMap_wire vm (proj1 Hs) (proj2 Hs)) as [M1 M2]. split; [rewrite !wf_bytes_app; done|]. by eexists _, _, _.
  - destruct Hs as (Hv & Hw & _). destruct (U v Hv) as [V1 V2]. split; [rewrite !wf_bytes_app; done|]. eexists _, _, _. split_and!; try done. by eexists.
  - destruct Hs as [HF Hl]. destruct (A (blen reason)) as [R1 R2]; [split; [apply blen_nonneg|done]|]. split.
    + rewrite !wf_bytes_app. split_and!; try done. apply wf_concat, Forall_fmap. eapply Forall_impl; [exact HF|]. intros a Ha. by apply demoAny_wire.
    + eexists _, _, _. split_and!; try done. eexists _, _. split_and!; try done. clear -HF. induction HF as [|a l Ha _ IH]; [constructor|].
      rewrite fmap_cons. constructor; [by apply demoAny_wire|done].
  - destruct (demoMap_wire vm (proj1 Hs) (proj2 Hs)) as [M1 M2]. split; [rewrite !wf_bytes_app; done|]. by eexists _, _, _.
Qed.

Lemma demoEntries_ok l : Forall (fun e => 0 <= fst e <= MaxUint16 /\ raw_ok (snd e)) l ->
  demoEntries (length l) (concat ((fun e => demoHead 0 (fst e) ++ snd e) <$> l)) = l.
Proof.
  intros HF. pose proof (demoEntry_wf l HF) as W.
  induction HF as [|[k raw] l (Hk & Hw & h & Hi) HF IH]; [done|]. rewrite fmap_cons in *. cbn [length concat fst snd demoEntries] in *.
  rewrite <- app_assoc in *. rewrite demoArg_head. set (rest := concat _) in *.
  change (drop 3 (demoHead 0 k ++ raw ++ rest)) with (raw ++ rest).
  apply wf_bytes_app in W as [_ W]. unfold ItemLength.
  rewrite (item_length_complete raw rest h) by (done || (unfold MaxNestedLevels; lia) || (eapply Item_mono; [exact Hi|unfold MaxNestedLevels; lia])).
  rewrite take_app_length. f_equal. rewrite <- drop_drop.
  change (drop 3 (demoHead 0 k ++ raw ++ rest)) with (raw ++ rest). rewrite drop_app_length.
  apply IH. by apply wf_bytes_app in W as [_ W].
Qed.

Lemma demoMap_ok (vm : gmap Z bytes) : map_Forall (fun v bs => 0 <= v <= MaxUint16 /\ raw_ok bs) vm -> demoMap (demoMapBytes vm) = vm.
Proof.
  intros Hok. unfold demoMap, demoMapBytes. rewrite demoArg_head.
  rewrite drop_app_length' by done.
  unfold blen. rewrite Nat2Z.id, demoEntries_ok; [apply list_to_map_to_list|].
  apply Forall_forall. intros [v bs] Hin%elem_of_map_to_list. exact (Hok _ _ Hin).
Qed.

Lemma demoUints_ok l rest : demoUints (length l) (concat (demoHead 0 <$> l) ++ rest) = AnyUint64 <$> l.
Proof.
  induction l as [|z l IH]; [done|]. rewrite !fmap_cons. cbn [length concat demoUints]. rewrite <- app_assoc, demoArg_head. f_equal.
  by rewrite drop_app_length' by done.
Qed.

Lemma demoUints_length l : length (concat (demoHead 0 <$> l)) = (3 * length l)%nat.
Proof. induction l as [|z l IH]; [done|]. rewrite fmap_cons. cbn [concat length]. rewrite length_app, IH. cbn [demoHead length]. lia. Qed.

Lemma demoAny_step n a rest : any_ok a -> demoAnys (S n) (demoAnyBytes a ++ rest) = receivedAny a :: demoAnys n rest.
Proof.
  destruct a as [z|z|z|z|s|[|v l]|l|]; cbn [any_ok demoAnyBytes receivedAny demoAnys]; try done; intros _.
  - change (byte_at (demoHead 0 z ++ rest) 0) with 25. cbn [Z.eqb Pos.eqb]. by rewrite demoArg_head, drop_app_length' by done.
  - change (byte_at (demoHead 0 z ++ rest) 0) with 25. cbn [Z.eqb Pos.eqb]. by rewrite demoArg_head, drop_app_length' by done.
  - rewrite <- app_assoc. change (byte_at (demoHead 3 (blen (text s)) ++ text s ++ rest) 0) with 121. cbn [Z.eqb Pos.eqb].
    rewrite demoArg_head. unfold blen. rewrite !Nat2Z.id, <- drop_drop, !drop_app_length' by done. by rewrite take_app_length, untext_text.
  - rewrite <- app_assoc. set (vs := v :: l). change (byte_at (demoHead 4 (blen vs) ++ concat (demoHead 0 <$> vs) ++ rest) 0) with 153.
    cbn [Z.eqb Pos.eqb]. rewrite demoArg_head. unfold blen.
    rewrite !Nat2Z.id, <- drop_drop, !drop_app_length' by done. rewrite demoUints_ok, drop_app_length' by (by rewrite demoUints_length). done.
Qed.

Lemma demoAnys_ok l : Forall any_ok l -> demoAnys (length l) (concat (demoAnyBytes <$> l)) = receivedAny <$> l.
Proof.
  induction 1 as [|a l Ha _ IH]; [done|]. rewrite !fmap_cons. cbn [length concat]. by rewrite demoAny_step, IH.
Qed.

#[export] Instance demoCodec_laws : CodecLaws demoCodec.
Proof.
  split.
  - intros v Hv. exists (demoEncode v). split; [done|by apply demoEncode_ok].
  - intros v bs Hv [= <-]. by apply demoEncode_ok.
  - intros m Hm. exists (demoMsgBytes m). split; [done|by apply demoMsg_wire].
  - intros m bs Hm [= <-]. cbn [decodeMsg demoCodec]. unfold demoDecodeMsg.
    destruct m as [vm|v data|reason|vm]; cbn [msgTypeOf demoMsgBytes received sendable] in *; rewrite app_assoc, drop_app_length' by done; cbn [Z.eqb Pos.eqb].
    + by rewrite demoMap_ok by apply Hm.
    + by rewrite demoArg_head, drop_app_length' by done.
    + rewrite demoArg_head, drop_app_length' by done. unfold blen. by rewrite Nat2Z.id, demoAnys_ok by apply Hm.
    + by rewrite demoMap_ok by apply Hm.
Qed.

Definition demoOptions (magic : Z) (isServer duplex sharing : bool) : Options :=
  mkOptions magic false true isServer duplex sharing false true false false true true false.

(** Witness of C7: a node of the main network and one of another network. *)
Lemma handshake_agreement_witness :
  exists a, Negotiated (protoVersions (demoOptions 764824073 false true true)) (protoVersions (demoOptions 2 true true false)) a /\
    exchange (fun _ => None) (handshakeConfig (demoOptions 764824073 false true true)) (handshakeConfig (demoOptions 2 true true false))
      newConnection newConnection = ((newConnection, Some (RefusedError 16 "network magic mismatch")), (newConnection, Some HsParameters)).
Proof.
  set (o1 := demoOptions 764824073 false true true). set (o2 := demoOptions 2 true true false).
  assert (H1 : map_ok (protoVersions o1)) by (apply protoVersions_ok; cbn; lia).
  assert (H2 : map_ok (protoVersions o2)) by (apply protoVersions_ok; cbn; lia).
  destruct (handshake_agreement (handshakeConfig o1) (handshakeConfig o2) (finishedFunc o1) (finishedFunc o2) queryReplyFunc
    newConnection newConnection eq_refl eq_refl eq_refl H1 H2) as (a & HN & _ & _).
  exists a. split; [exact HN|]. vm_compute. reflexivity.
Defined.

