(* ===== verification/TxSubmission.v ===== *)
(** * Transaction submission (src/protocol/txsubmission)

    The validation functions shared by both sides (validation.go), the server's
    record with its requests and handlers (server.go), and the client's handlers
    (client.go). The decoder of transactions is a parameter: it gives the era and
    the identifier of a transaction body, or fails. *)

From S2P Require Import Prelude.

Definition MaxRequestCount : Z := 65535.
Definition MaxAckCount : Z := 65535.
Definition MaxTxSizeBytes : Z := 65540.
Definition TxIdReplyEntryBytes : Z := 44.
Definition MaxUnackedTxIds : Z := 10.
Definition MaxDecodedTxBytes : Z := MaxUnackedTxIds * MaxTxSizeBytes.
Definition MaxPendingMessageBytes : Z :=
  MaxUnackedTxIds * (TxIdReplyEntryBytes + MaxTxSizeBytes) * 11 / 10.

Record TxId := mkTxId { EraId : Z; TxHash : bytes }.
Record TxIdAndSize := mkTxIdAndSize { IdOf : TxId; Size : Z }.
Record TxBody := mkTxBody { BodyEra : Z; BodyBytes : bytes }.

#[export] Instance TxId_eq_dec : EqDecision TxId.
Proof. solve_decision. Defined.
#[export] Instance TxIdAndSize_eq_dec : EqDecision TxIdAndSize.
Proof. solve_decision. Defined.
#[export] Instance TxBody_eq_dec : EqDecision TxBody.
Proof. solve_decision. Defined.

Inductive txError :=
| ErrRequestExceeded       (* ErrProtocolViolationRequestExceeded *)
| ErrInvalidMessage        (* ErrProtocolViolationInvalidMessage *)
| ErrShuttingDown          (* ErrProtocolShuttingDown *)
| ErrStopServerProcess
| ErrCallback.             (* an error of the application's callback *)

(** ** validation.go *)

(** The loop over [requested], with the set [seen]. *)
Fixpoint requestedLoop (available seen requested : list TxId) : result txError unit :=
  match requested with
  | [] => Ok ()
  | txId :: rest =>
    if decide (txId ∈ seen) then Err ErrInvalidMessage
    else if decide (txId ∈ available) then requestedLoop available (txId :: seen) rest
    else Err ErrInvalidMessage
  end.

Definition requestedTxIdsAreOutstanding (outstanding : list TxIdAndSize) (requested : list TxId)
    : result txError unit :=
  if MaxUnackedTxIds <? blen requested then Err ErrRequestExceeded
  else requestedLoop (IdOf <$> outstanding) [] requested.

(** The loop over [reply], with the set [seen]. *)
Fixpoint freshLoop (seen : list TxId) (reply : list TxIdAndSize) : bool :=
  match reply with
  | [] => true
  | t :: rest => if decide (IdOf t ∈ seen) then false else freshLoop (IdOf t :: seen) rest
  end.

Definition reconcileTxIds (outstanding : list TxIdAndSize) (ack requested : Z) (blocking : bool)
    (reply : list TxIdAndSize) : result txError (list TxIdAndSize) :=
  if (ack <? 0) || (blen outstanding <? ack) then Err ErrRequestExceeded
  else if requested <? blen reply then Err ErrRequestExceeded
  else if blocking && (0 <? requested) && (blen reply =? 0) then Err ErrInvalidMessage
  else
  let remaining := drop (Z.to_nat ack) outstanding in
  if MaxUnackedTxIds <? blen remaining + blen reply then Err ErrRequestExceeded
  else if negb (freshLoop (IdOf <$> remaining) reply) then Err ErrInvalidMessage
  else Ok (remaining ++ reply).

(** The check that [requested] has no duplicates. *)
Fixpoint noDuplicates (seen requested : list TxId) : bool :=
  match requested with
  | [] => true
  | txId :: rest => if decide (txId ∈ seen) then false else noDuplicates (txId :: seen) rest
  end.

(** [map[TxId]V] as an association list, the latest assignment first. *)
Fixpoint assoc {V} (m : list (TxId * V)) (k : TxId) : option V :=
  match m with
  | [] => None
  | (k', v) :: m => if decide (k' = k) then Some v else assoc m k
  end.

(** [advertisedSizes[txId] = size] for each outstanding identifier. *)
Definition advertise (outstanding : list TxIdAndSize) : list (TxId * Z) :=
  fold_left (fun m t => (IdOf t, Size t) :: m) outstanding [].

Section Bodies.
Context (decodeTx : Z -> bytes -> option (Z * bytes)).  (* era, body -> type, identifier *)

(** The loop over the bodies of a reply. *)
Fixpoint bodiesLoop (requested : list TxId) (advertised : list (TxId * Z))
    (retainedBytes decodedBytes : Z) (byId : list (TxId * TxBody)) (bodies : list TxBody)
    : result txError (list (TxId * TxBody)) :=
  match bodies with
  | [] => Ok byId
  | body :: rest =>
    let bodySize := blen (BodyBytes body) in
    if (bodySize =? 0) || (MaxTxSizeBytes <? bodySize) then Err ErrInvalidMessage
    else if MaxPendingMessageBytes - retainedBytes <? bodySize then Err ErrInvalidMessage
    else if MaxDecodedTxBytes - decodedBytes <? bodySize then Err ErrInvalidMessage
    else match decodeTx (BodyEra body) (BodyBytes body) with
    | None => Err ErrInvalidMessage
    | Some (ty, hash) =>
      if negb (ty =? BodyEra body) then Err ErrInvalidMessage else
      let actualId := mkTxId (BodyEra body) hash in
      if negb (bool_decide (actualId ∈ requested)) then Err ErrInvalidMessage
      else if bool_decide (is_Some (assoc byId actualId)) then Err ErrInvalidMessage
      else if match assoc advertised actualId with
              | Some size => 32 <? (if bodySize <? size then size - bodySize else bodySize - size)
              | None => false
              end then Err ErrInvalidMessage
      else bodiesLoop requested advertised (retainedBytes + bodySize) (decodedBytes + bodySize)
             ((actualId, body) :: byId) rest
    end
  end.

Definition validateAndOrderTxBodies (requested : list TxId) (bodies : list TxBody)
    (advertised : list (TxId * Z)) : result txError (list TxBody) :=
  if MaxUnackedTxIds <? blen requested then Err ErrRequestExceeded
  else if blen requested <? blen bodies then Err ErrRequestExceeded
  else if negb (noDuplicates [] requested) then Err ErrInvalidMessage
  else
  byId ← bodiesLoop requested advertised 0 0 [] bodies;
  Ok (omap (assoc byId) requested).

End Bodies.

(** ** server.go *)

Record pendingTxIdsRequest := mkPendingIds { pBlocking : bool; pRequested : Z; pAck : Z }.
Record pendingTxsRequest := mkPendingTxs {
  pTxs : list TxId;
  pSizes : list (TxId * Z)
}.

Record Server := mkServer {
  stopping : bool;
  ackCount : Z;
  outstandingTxIds : list TxIdAndSize;
  pendingTxIds : option pendingTxIdsRequest;
  pendingTxs : option pendingTxsRequest
}.

(** The fields [initProtocol] resets. *)
Definition newServer : Server := mkServer false 0 [] None None.

Inductive serverMsg :=
| MsgRequestTxIds (blocking : bool) (ack req : Z)      (* uint16 counts *)
| MsgRequestTxs (txIds : list TxId).

Inductive clientMsg :=
| MsgReplyTxIds (txIds : list TxIdAndSize)
| MsgReplyTxs (txs : list TxBody)
| MsgDone
| MsgInit.

(** [RequestTxIds] up to the message it sends. *)
Definition RequestTxIds (blocking : bool) (reqCount : Z) (s : Server)
    : result txError (serverMsg * Server) :=
  if reqCount <? 0 then Err ErrRequestExceeded
  else if MaxRequestCount <? reqCount then Err ErrRequestExceeded
  else if stopping s then Err ErrShuttingDown
  else match pendingTxIds s, pendingTxs s with
  | None, None =>
    let unackedCount := blen (outstandingTxIds s) in
    if ackCount s <? 0 then Err ErrRequestExceeded
    else if MaxAckCount <? ackCount s then Err ErrRequestExceeded
    else if unackedCount <? ackCount s then Err ErrRequestExceeded
    else if MaxUnackedTxIds <? unackedCount - ackCount s + reqCount then Err ErrRequestExceeded
    else Ok (MsgRequestTxIds blocking (u16 (ackCount s)) (u16 reqCount),
             mkServer (stopping s) (ackCount s) (outstandingTxIds s)
               (Some (mkPendingIds blocking reqCount (ackCount s))) (pendingTxs s))
  | _, _ => Err ErrInvalidMessage
  end.

(** [RequestTxs] up to the message it sends. *)
Definition RequestTxs (txIds : list TxId) (s : Server) : result txError (serverMsg * Server) :=
  if MaxUnackedTxIds <? blen txIds then Err ErrRequestExceeded
  else if stopping s then Err ErrShuttingDown
  else match pendingTxIds s, pendingTxs s with
  | None, None =>
    _ ← requestedTxIdsAreOutstanding (outstandingTxIds s) txIds;
    Ok (MsgRequestTxs txIds,
        mkServer (stopping s) (ackCount s) (outstandingTxIds s) (pendingTxIds s)
          (Some (mkPendingTxs txIds (advertise (outstandingTxIds s)))))
  | _, _ => Err ErrInvalidMessage
  end.

(** A request whose message could not be sent. *)
Definition requestFailed (s : Server) : Server :=
  mkServer (stopping s) (ackCount s) (outstandingTxIds s) None None.

(** A request that was waiting when the protocol ended. *)
Definition requestAbandoned (s : Server) : Server :=
  match pendingTxIds s, pendingTxs s with
  | None, None => s
  | _, _ => mkServer true (ackCount s) (outstandingTxIds s) None None
  end.

(** The handler reads the pending request, validates outside the lock, and takes
    the lock again; [withdrawn] says that the waiting caller gave the request up
    in between. *)
Definition handleReplyTxIds (withdrawn : bool) (reply : list TxIdAndSize) (s : Server)
    : result txError (list TxIdAndSize) * Server :=
  match pendingTxIds s with
  | None => (Err ErrInvalidMessage, s)
  | Some pending =>
    if withdrawn then (Err ErrShuttingDown, requestAbandoned s) else
    match reconcileTxIds (outstandingTxIds s) (pAck pending) (pRequested pending)
            (pBlocking pending) reply with
    | Ok next => (Ok reply, mkServer (stopping s) (blen reply) next None (pendingTxs s))
    | Err e => (Err e, mkServer (stopping s) (ackCount s) (outstandingTxIds s) None (pendingTxs s))
    end
  end.

Definition handleReplyTxs (decodeTx : Z -> bytes -> option (Z * bytes)) (withdrawn : bool)
    (txs : list TxBody) (s : Server) : result txError (list TxBody) * Server :=
  match pendingTxs s with
  | None => (Err ErrInvalidMessage, s)
  | Some pending =>
    if withdrawn then (Err ErrShuttingDown, requestAbandoned s) else
    (validateAndOrderTxBodies decodeTx (pTxs pending) txs (pSizes pending),
     mkServer (stopping s) (ackCount s) (outstandingTxIds s) (pendingTxIds s) None)
  end.

(** [handleDone]: the request waiting for identifiers ends, and the protocol
    starts afresh unless the application's [DoneFunc] fails ([doneResult] is what it
    returned, [Ok ()] where there is none). *)
Definition handleDone (doneResult : result txError unit) (s : Server) : result txError unit * Server :=
  match pendingTxIds s with
  | Some pending =>
    if pBlocking pending then
      match doneResult with
      | Err e => (Err e, mkServer true (ackCount s) (outstandingTxIds s) None (pendingTxs s))
      | Ok _ => (Ok (), newServer)
      end
    else (Err ErrInvalidMessage, s)
  | None => (Err ErrInvalidMessage, s)
  end.

(** ** client.go *)

(** The client's only state is what the peer has not acknowledged. [callback] is
    what the application's function returned. *)
Definition handleRequestTxIds (blocking : bool) (ack req : Z)
    (callback : result txError (list TxIdAndSize)) (unacked : list TxIdAndSize)
    : result txError (clientMsg * list TxIdAndSize) :=
  if blen unacked <? ack then Err ErrRequestExceeded
  else if MaxUnackedTxIds <? blen unacked - ack + req then Err ErrRequestExceeded
  else match callback with
  | Err ErrStopServerProcess => if blocking then Ok (MsgDone, unacked) else Err ErrCallback
  | Err e => Err e
  | Ok txIds =>
    if req <? blen txIds then Err ErrRequestExceeded
    else next ← reconcileTxIds unacked ack req blocking txIds; Ok (MsgReplyTxIds txIds, next)
  end.

Definition handleRequestTxs (decodeTx : Z -> bytes -> option (Z * bytes)) (txIds : list TxId)
    (callback : result txError (list TxBody)) (unacked : list TxIdAndSize)
    : result txError clientMsg :=
  if MaxUnackedTxIds <? blen txIds then Err ErrRequestExceeded
  else
  _ ← requestedTxIdsAreOutstanding unacked txIds;
  txs ← callback;
  if blen txIds <? blen txs then Err ErrRequestExceeded
  else
  ordered ← validateAndOrderTxBodies decodeTx txIds txs (advertise unacked);
  Ok (MsgReplyTxs ordered).

(** ** The checks *)

Lemma freshLoop_spec reply : forall seen,
  freshLoop seen reply = true <->
  NoDup (IdOf <$> reply) /\ (forall t, t ∈ reply -> IdOf t ∉ seen).
Proof.
  induction reply as [|t reply IH]; intros seen; simpl.
  { split; [|done]. intros _. split; [constructor|]. by intros t ?%elem_of_nil. }
  rewrite NoDup_cons. destruct (decide (IdOf t ∈ seen)) as [Hin|Hout].
  - split; [done|]. intros [_ H]. destruct (H t); [by left|done].
  - rewrite IH. split.
    + intros [Hnd Hf]. split_and!; [|done|].
      * intros (t' & E & Ht')%list_elem_of_fmap. apply (Hf t' Ht'). rewrite <-E. by left.
      * intros t' [->|Ht']%elem_of_cons; [done|]. intros Hx. apply (Hf t' Ht'). by right.
    + intros [[Hnin Hnd] Hf]. split; [done|]. intros t' Ht' [E|Hx]%elem_of_cons.
      * apply Hnin. rewrite <-E. by apply list_elem_of_fmap_2.
      * apply (Hf t'); [by right|done].
Qed.

Lemma noDuplicates_spec l : forall seen,
  noDuplicates seen l = true <-> NoDup l /\ (forall x, x ∈ l -> x ∉ seen).
Proof.
  induction l as [|t l IH]; intros seen; simpl.
  { split; [|done]. intros _. split; [constructor|]. by intros t ?%elem_of_nil. }
  rewrite NoDup_cons. destruct (decide (t ∈ seen)) as [Hin|Hout].
  - split; [done|]. intros [_ H]. destruct (H t); [by left|done].
  - rewrite IH. set_solver.
Qed.

Lemma requestedLoop_spec available l : forall seen,
  requestedLoop available seen l = Ok () <->
  NoDup l /\ (forall x, x ∈ l -> (x ∉ seen) /\ x ∈ available).
Proof.
  induction l as [|t l IH]; intros seen; simpl.
  { split; [|done]. intros _. split; [constructor|]. by intros t ?%elem_of_nil. }
  rewrite NoDup_cons. destruct (decide (t ∈ seen)) as [Hin|Hout].
  - split; [done|]. intros [_ H]. destruct (H t); [by left|done].
  - destruct (decide (t ∈ available)) as [Ha|Ha].
    + rewrite IH. set_solver.
    + split; [done|]. intros [_ H]. destruct (H t); [by left|done].
Qed.

Lemma requested_spec outstanding requested :
  requestedTxIdsAreOutstanding outstanding requested = Ok () <->
  blen requested <= MaxUnackedTxIds /\ NoDup requested /\
  (forall x, x ∈ requested -> x ∈ (IdOf <$> outstanding)).
Proof.
  unfold requestedTxIdsAreOutstanding. destruct (Z.ltb_spec MaxUnackedTxIds (blen requested)).
  - split; [done|lia].
  - rewrite requestedLoop_spec. split.
    + intros [? H']. split_and!; [done|done|]. apply H'.
    + intros (_ & ? & H'). split; [done|]. intros x Hx. split; [by intros ?%elem_of_nil|by apply H'].
Qed.

(** What a reply must satisfy. *)
Definition reply_ok (outstanding : list TxIdAndSize) (ack requested : Z) (blocking : bool)
    (reply : list TxIdAndSize) : Prop :=
  0 <= ack <= blen outstanding /\ blen reply <= requested /\
  (blocking = true -> 0 < requested -> reply <> []) /\
  blen outstanding - ack + blen reply <= MaxUnackedTxIds /\
  NoDup (IdOf <$> reply) /\
  (forall t, t ∈ reply -> IdOf t ∉ (IdOf <$> drop (Z.to_nat ack) outstanding)).

Lemma reconcile_spec outstanding ack requested blocking reply ret :
  reconcileTxIds outstanding ack requested blocking reply = Ok ret <->
  reply_ok outstanding ack requested blocking reply /\
  ret = drop (Z.to_nat ack) outstanding ++ reply.
Proof.
  unfold reconcileTxIds, reply_ok.
  destruct (Z.ltb_spec ack 0); [split; [done|intros [(? & _) _]; lia]|].
  destruct (Z.ltb_spec (blen outstanding) ack); [split; [done|intros [(? & _) _]; lia]|]. cbn [orb].
  destruct (Z.ltb_spec requested (blen reply)); [split; [done|intros [(_ & ? & _) _]; lia]|].
  destruct (blocking && (0 <? requested) && (blen reply =? 0)) eqn:Eb.
  { split; [done|]. intros [(_ & _ & Hb & _) _]. rewrite !andb_true_iff, Z.ltb_lt, Z.eqb_eq in Eb.
    destruct Eb as [[-> Hr] Hz]. apply blen_0 in Hz as ->. by destruct Hb. }
  assert (Hb : blocking = true -> 0 < requested -> reply <> []).
  { intros -> Hr ->. rewrite (proj2 (Z.ltb_lt _ _) Hr) in Eb. done. }
  rewrite blen_drop, Z2Nat.id, Z.max_r by lia.
  destruct (Z.ltb_spec MaxUnackedTxIds (blen outstanding - ack + blen reply)).
  { split; [done|]. intros [(_ & _ & _ & ? & _) _]. lia. }
  destruct (freshLoop _ reply) eqn:Ef; cbn [negb].
  - apply freshLoop_spec in Ef as [? ?]. split; [intros [= <-]; split_and!; (done || lia)|by intros [_ ->]].
  - split; [done|]. intros [(_ & _ & _ & _ & Hn & Hd) _].
    rewrite (proj2 (freshLoop_spec reply _)) in Ef; [done|]. by split.
Qed.

(** C32. A reply with transaction identifiers is accepted exactly when it answers
    the request: the acknowledgement is of identifiers that are outstanding, the
    reply has no more identifiers than were asked for, is not empty if the request
    blocks, keeps the window of at most [MaxUnackedTxIds], and repeats no identifier.
    What is outstanding then is what was left unacknowledged followed by the reply,
    again without duplicates and within the window. *)
Theorem reconcile_exact outstanding ack requested blocking reply ret :
  NoDup (IdOf <$> outstanding) ->
  (reconcileTxIds outstanding ack requested blocking reply = Ok ret <->
   reply_ok outstanding ack requested blocking reply /\
   ret = drop (Z.to_nat ack) outstanding ++ reply) /\
  (reconcileTxIds outstanding ack requested blocking reply = Ok ret ->
   NoDup (IdOf <$> ret) /\ blen ret <= MaxUnackedTxIds).
Proof.
  intros Hnd. split; [apply reconcile_spec|]. intros H. apply reconcile_spec in H as [Hok ->].
  destruct Hok as (Ha & _ & _ & Hw & Hr & Hf). rewrite fmap_app. split.
  - apply NoDup_app. split_and!; [|intros x Hx (t & -> & Ht)%list_elem_of_fmap; by apply (Hf t)|done].
    rewrite fmap_drop. rewrite <-(take_drop (Z.to_nat ack) (IdOf <$> outstanding)) in Hnd. by apply NoDup_app in Hnd as (_ & _ & ?).
  - rewrite blen_app, blen_drop. lia.
Qed.

(** Witness of C32. *)
Lemma reconcile_exact_witness :
  let t n := mkTxIdAndSize (mkTxId 6 [n]) 100 in
  NoDup (IdOf <$> [t 3; t 4]) /\ blen [t 3; t 4] <= MaxUnackedTxIds.
Proof.
  intros t. apply (reconcile_exact [t 1; t 2; t 3] 2 5 true [t 4] [t 3; t 4]).
  - vm_compute. apply (bool_decide_unpack _). vm_compute. exact I.
  - vm_compute. reflexivity.
Defined.

(** ** Bodies *)

Section BodiesSpec.
Context (decodeTx : Z -> bytes -> option (Z * bytes)).

(** A body that answers a request: its size is in range, it decodes in its era to
    a transaction that was asked for, and its size is the one announced, give or
    take 32 bytes. *)
Definition body_ok (requested : list TxId) (advertised : list (TxId * Z)) (body : TxBody) (id : TxId) : Prop :=
  let size := blen (BodyBytes body) in
  0 < size <= MaxTxSizeBytes /\
  decodeTx (BodyEra body) (BodyBytes body) = Some (BodyEra body, TxHash id) /\
  EraId id = BodyEra body /\ id ∈ requested /\
  (forall adv, assoc advertised id = Some adv -> Z.abs (adv - size) <= 32).

Lemma assoc_None {V} (m : list (TxId * V)) k : assoc m k = None <-> k ∉ m.*1.
Proof.
  induction m as [|[k' v] m IH]; simpl; [by split; [intros _ ?%elem_of_nil|]|].
  rewrite not_elem_of_cons. destruct (decide (k' = k)) as [->|Hne]; [naive_solver|].
  rewrite IH. naive_solver.
Qed.

Lemma size_far_spec adv size :
  (32 <? (if size <? adv then adv - size else size - adv)) = false <-> Z.abs (adv - size) <= 32.
Proof. rewrite Z.ltb_ge. destruct (Z.ltb_spec size adv); lia. Qed.

Lemma body_step requested advertised body id byId rest r d :
  r <= blen byId * MaxTxSizeBytes -> d <= blen byId * MaxTxSizeBytes -> blen byId < MaxUnackedTxIds ->
  body_ok requested advertised body id -> id ∉ byId.*1 ->
  bodiesLoop decodeTx requested advertised r d byId (body :: rest) =
  bodiesLoop decodeTx requested advertised (r + blen (BodyBytes body)) (d + blen (BodyBytes body))
    ((id, body) :: byId) rest.
Proof.
  intros Hr Hd Hn (Hs & Hdec & He & Hin & Hadv) Hnew. cbn [bodiesLoop].
  unfold MaxUnackedTxIds, MaxTxSizeBytes in *.
  destruct (Z.eqb_spec (blen (BodyBytes body)) 0); [lia|].
  destruct (Z.ltb_spec 65540 (blen (BodyBytes body))); [lia|]. cbn [orb].
  change MaxPendingMessageBytes with 721424. change MaxDecodedTxBytes with 655400.
  destruct (Z.ltb_spec (721424 - r) (blen (BodyBytes body))); [lia|].
  destruct (Z.ltb_spec (655400 - d) (blen (BodyBytes body))); [lia|].
  rewrite Hdec, Z.eqb_refl. cbn [negb].
  assert (Eid : mkTxId (BodyEra body) (TxHash id) = id) by (destruct id; simpl in *; by subst).
  rewrite Eid, (bool_decide_eq_true_2 _ Hin). cbn [negb].
  rewrite (proj2 (assoc_None byId id) Hnew). rewrite bool_decide_eq_false_2 by (by intros [? ?]).
  destruct (assoc advertised id) as [adv|] eqn:Ea; [|done].
  by rewrite (proj2 (size_far_spec adv _) (Hadv adv eq_refl)).
Qed.

Lemma body_step_inv requested advertised body byId rest r d res :
  bodiesLoop decodeTx requested advertised r d byId (body :: rest) = Ok res ->
  exists id, body_ok requested advertised body id /\ (id ∉ byId.*1) /\
    bodiesLoop decodeTx requested advertised (r + blen (BodyBytes body)) (d + blen (BodyBytes body))
      ((id, body) :: byId) rest = Ok res.
Proof.
  cbn [bodiesLoop]. intros H.
  destruct (Z.eqb_spec (blen (BodyBytes body)) 0); [done|].
  destruct (Z.ltb_spec MaxTxSizeBytes (blen (BodyBytes body))); [done|]. cbn [orb] in H.
  destruct (_ <? _); [done|]. destruct (_ <? _); [done|].
  destruct (decodeTx _ _) as [[ty hash]|] eqn:Hdec; [|done].
  destruct (Z.eqb_spec ty (BodyEra body)) as [->|]; [|done]. cbn [negb] in H.
  destruct (bool_decide (_ ∈ requested)) eqn:Hin; [|done]. cbn [negb] in H.
  destruct (bool_decide (is_Some _)) eqn:Ha; [done|].
  apply bool_decide_eq_true in Hin. apply bool_decide_eq_false in Ha.
  set (id := mkTxId (BodyEra body) hash) in *. exists id. split; [|split].
  - unfold body_ok. pose proof (blen_nonneg (BodyBytes body)). split_and!; try (done || lia).
    intros adv Hadv. rewrite Hadv in H. apply size_far_spec. by destruct (32 <? _).
  - apply assoc_None. by destruct (assoc byId id); [destruct Ha; eauto|].
  - destruct (assoc advertised id) as [adv|]; [|done]. by destruct (32 <? _).
Qed.

Lemma bodiesLoop_spec requested advertised bodies : forall r d byId res,
  r <= blen byId * MaxTxSizeBytes -> d <= blen byId * MaxTxSizeBytes ->
  blen byId + blen bodies <= MaxUnackedTxIds ->
  bodiesLoop decodeTx requested advertised r d byId bodies = Ok res <->
  exists ids, Forall2 (body_ok requested advertised) bodies ids /\ NoDup ids /\
    (forall id, id ∈ ids -> id ∉ byId.*1) /\ res = reverse (zip ids bodies) ++ byId.
Proof.
  induction bodies as [|body bodies IH]; intros r d byId res Hr Hd Hn.
  { simpl. split.
    - intros [= ->]. exists []. split_and!; [constructor|constructor|by intros ? ?%elem_of_nil|done].
    - intros (ids & Hf & _ & _ & ->). inversion Hf; subst. done. }
  rewrite blen_cons in Hn. pose proof (blen_nonneg bodies) as Hnn.
  assert (HIH : forall id, body_ok requested advertised body id ->
    bodiesLoop decodeTx requested advertised (r + blen (BodyBytes body)) (d + blen (BodyBytes body))
      ((id, body) :: byId) bodies = Ok res <->
    exists ids, Forall2 (body_ok requested advertised) bodies ids /\ NoDup ids /\
      (forall id', id' ∈ ids -> id' ∉ ((id, body) :: byId).*1) /\
      res = reverse (zip ids bodies) ++ (id, body) :: byId).
  { intros id (Hs & _). apply IH; rewrite ?blen_cons; unfold MaxTxSizeBytes in *; lia. }
  split.
  - intros H. apply body_step_inv in H as (id & Hok & Hnew & H).
    apply (HIH id Hok) in H as (ids & Hf & Hnd & Hd' & ->). exists (id :: ids). split_and!.
    + by constructor.
    + constructor; [|done]. intros Hx. apply (Hd' id Hx). by left.
    + intros id' [->|Hx]%elem_of_cons; [done|]. intros Hy. apply (Hd' id' Hx). by right.
    + simpl. by rewrite reverse_cons, <-app_assoc.
  - intros (ids & Hf & Hnd & Hd' & ->). destruct ids as [|id ids]; [by inversion Hf|].
    apply Forall2_cons in Hf as [Hok Hf]. apply NoDup_cons in Hnd as [Hnin Hnd].
    rewrite (body_step requested advertised body id); try (done || lia); [|apply Hd'; by left].
    apply (HIH id Hok). exists ids. split_and!; try done.
    + intros id' Hx [->|Hy]%elem_of_cons; [done|]. apply (Hd' id'); [by right|done].
    + simpl. by rewrite reverse_cons, <-app_assoc.
Qed.

Lemma assoc_Some {V} (m : list (TxId * V)) k v :
  NoDup m.*1 -> assoc m k = Some v <-> (k, v) ∈ m.
Proof.
  induction m as [|[k' v'] m IH]; simpl; intros Hnd; [by split; [|intros ?%elem_of_nil]|].
  apply NoDup_cons in Hnd as [Hnin Hnd]. rewrite elem_of_cons.
  destruct (decide (k' = k)) as [->|Hne].
  - split; [intros [= ->]; by left|]. intros [[= ->]|Hin]; [done|].
    destruct Hnin. by apply (list_elem_of_fmap_2 fst) in Hin.
  - rewrite IH by done. split; [by right|]. intros [[= ? ?]|?]; [congruence|done].
Qed.

Lemma assoc_perm {V} (m m' : list (TxId * V)) k :
  m ≡ₚ m' -> NoDup m.*1 -> assoc m k = assoc m' k.
Proof.
  intros Hp Hnd. assert (Hnd' : NoDup m'.*1) by (by rewrite <-Hp).
  apply option_eq. intros v. rewrite !assoc_Some by done. by rewrite Hp.
Qed.

Lemma omap_assoc_perm {V} (m : list (TxId * V)) : forall l,
  NoDup l -> NoDup m.*1 -> (forall k, k ∈ m.*1 -> k ∈ l) -> omap (assoc m) l ≡ₚ m.*2.
Proof.
  induction m as [|[k v] m IH]; intros l Hl Hm Hsub.
  { simpl. replace (omap (assoc []) l) with (@nil V); [done|]. clear. by induction l. }
  rewrite fmap_cons in Hm. apply NoDup_cons in Hm as [Hnin Hm].
  destruct (list_elem_of_split l k) as (l1 & l2 & ->); [apply Hsub; by left|].
  apply NoDup_app in Hl as (H1 & Hd & Hkl). apply NoDup_cons in Hkl as [Hk2 H2].
  assert (Hk1 : k ∉ l1) by (intros Hx; apply (Hd k Hx); by left).
  assert (Hsame : forall l' : list TxId, k ∉ l' -> omap (assoc ((k, v) :: m)) l' = omap (assoc m) l').
  { intros l' Hk. apply omap_ext_in. intros x Hx. simpl. by destruct (decide (k = x)) as [->|]. }
  assert (E : omap (assoc ((k, v) :: m)) (k :: l2) = v :: omap (assoc ((k, v) :: m)) l2).
  { cbn. by destruct (decide (k = k)). }
  rewrite omap_app, E, !Hsame by done. rewrite fmap_cons.
  rewrite <-Permutation_middle, <-omap_app. constructor. apply IH; [|done|].
  - apply NoDup_app. split_and!; [done| |done]. intros x Hx Hy. apply (Hd x Hx). by right.
  - intros k' Hk'. assert (Hin : k' ∈ l1 ++ k :: l2) by (apply Hsub; by right).
    rewrite elem_of_app, elem_of_cons in Hin. rewrite elem_of_app.
    destruct Hin as [?|[->|?]]; [by left|done|by right].
Qed.

(** A reply with transaction bodies is accepted exactly when each body
    answers a different requested identifier, and then it is returned in the order
    of the request, the same bodies and no others. (The code's two limits on the
    total size can never be reached: the number of bodies and the size of each
    already keep the total below both.) *)
Theorem bodies_exact requested bodies advertised ret :
  (validateAndOrderTxBodies decodeTx requested bodies advertised = Ok ret <->
   blen requested <= MaxUnackedTxIds /\ NoDup requested /\
   exists ids, Forall2 (body_ok requested advertised) bodies ids /\ NoDup ids /\
     ret = omap (assoc (zip ids bodies)) requested) /\
  (validateAndOrderTxBodies decodeTx requested bodies advertised = Ok ret -> ret ≡ₚ bodies).
Proof.
  assert (Hiff : validateAndOrderTxBodies decodeTx requested bodies advertised = Ok ret <->
    blen requested <= MaxUnackedTxIds /\ NoDup requested /\
    exists ids, Forall2 (body_ok requested advertised) bodies ids /\ NoDup ids /\
      ret = omap (assoc (zip ids bodies)) requested).
  { unfold validateAndOrderTxBodies.
    destruct (Z.ltb_spec MaxUnackedTxIds (blen requested)); [split; [done|lia]|].
    assert (Hlen : forall ids, Forall2 (body_ok requested advertised) bodies ids -> NoDup ids ->
      blen bodies <= blen requested).
    { intros ids Hf Hnd. unfold blen. apply Forall2_length in Hf as Hl. rewrite Hl.
      apply inj_le. apply submseteq_length, NoDup_submseteq; [done|]. intros id Hin.
      destruct (list_elem_of_lookup_1 _ _ Hin) as [i Hi].
      destruct (Forall2_lookup_r _ _ _ _ _ Hf Hi) as (b & _ & (_ & _ & _ & ? & _)). done. }
    destruct (Z.ltb_spec (blen requested) (blen bodies)).
    { split; [done|]. intros (_ & _ & ids & Hf & Hnd & _). specialize (Hlen ids Hf Hnd). lia. }
    destruct (noDuplicates [] requested) eqn:End; cbn [negb].
    2:{ split; [done|]. intros (_ & Hnd & _). rewrite (proj2 (noDuplicates_spec requested [])) in End; [done|].
        split; [done|]. by intros ? _ ?%elem_of_nil. }
    apply noDuplicates_spec in End as [End _].
    assert (Hb10 : blen (@nil (TxId * TxBody)) + blen bodies <= MaxUnackedTxIds).
    { change (blen (@nil (TxId * TxBody))) with 0. lia. }
    pose proof (fun res => bodiesLoop_spec requested advertised bodies 0 0 [] res
      ltac:(done) ltac:(done) Hb10) as Hspec.
    split.
    - intros Hb. apply bind_Ok in Hb as (byId & Hb & [= <-]). split_and!; [done|done|].
      apply Hspec in Hb as (ids & Hf & Hnd & _ & ->). exists ids. split_and!; try done.
      rewrite app_nil_r. apply omap_ext_in.
      intros x _. apply assoc_perm; [apply reverse_Permutation|].
      rewrite reverse_Permutation. rewrite fst_zip; [done|]. apply Forall2_length in Hf. lia.
    - intros (_ & _ & ids & Hf & Hnd & ->).
      rewrite (proj2 (Hspec (reverse (zip ids bodies) ++ [])));
        [|exists ids; split_and!; try done; by intros ? _ ?%elem_of_nil].
      simpl. f_equal. rewrite app_nil_r. apply omap_ext_in.
      intros x _. apply assoc_perm; [apply reverse_Permutation|].
      rewrite reverse_Permutation. rewrite fst_zip; [done|]. apply Forall2_length in Hf. lia. }
  split; [exact Hiff|]. intros (_ & Hnd & ids & Hf & Hni & ->)%Hiff.
  apply Forall2_length in Hf as Hl. rewrite omap_assoc_perm; [by rewrite snd_zip by lia|done|by rewrite fst_zip by lia|].
  rewrite fst_zip by lia. intros k Hin. destruct (list_elem_of_lookup_1 _ _ Hin) as [i Hi].
  destruct (Forall2_lookup_r _ _ _ _ _ Hf Hi) as (b & _ & (_ & _ & _ & ? & _)). done.
Qed.

End BodiesSpec.

(** An instance: two bodies returned in the order they were asked for. *)
Lemma bodies_exact_witness :
  let dec (era : Z) (b : bytes) := Some (era, b) in
  let b n := mkTxBody 6 [n] in
  [b 1; b 2] ≡ₚ [b 2; b 1].
Proof.
  intros dec b.
  apply (proj2 (bodies_exact dec [mkTxId 6 [1]; mkTxId 6 [3]; mkTxId 6 [2]] [b 2; b 1]
    [(mkTxId 6 [1], 20)] [b 1; b 2])).
  vm_compute. reflexivity.
Defined.

(** ** The server's window *)

Record srv_ok (s : Server) : Prop := {
  ok_nodup : NoDup (IdOf <$> outstandingTxIds s);
  ok_window : blen (outstandingTxIds s) <= MaxUnackedTxIds;
  ok_ack : 0 <= ackCount s <= blen (outstandingTxIds s);
  ok_pendingIds : forall p, pendingTxIds s = Some p ->
    pAck p = ackCount s /\ 0 <= pRequested p /\ pendingTxs s = None /\
    blen (outstandingTxIds s) - pAck p + pRequested p <= MaxUnackedTxIds;
  ok_pendingTxs : forall q, pendingTxs s = Some q ->
    NoDup (pTxs q) /\ blen (pTxs q) <= MaxUnackedTxIds /\
    (forall x, x ∈ pTxs q -> x ∈ (IdOf <$> outstandingTxIds s))
}.

(** The server driven by its caller and by a peer that may send anything the
    state machine lets through. *)
Inductive srv_step (decodeTx : Z -> bytes -> option (Z * bytes)) : Server -> Server -> Prop :=
| S_requestIds b n s m s' : RequestTxIds b n s = Ok (m, s') -> srv_step decodeTx s s'
| S_requestTxs ids s m s' : RequestTxs ids s = Ok (m, s') -> srv_step decodeTx s s'
| S_failed s : srv_step decodeTx s (requestFailed s)
| S_abandoned s : srv_step decodeTx s (requestAbandoned s)
| S_replyIds w r s : srv_step decodeTx s (snd (handleReplyTxIds w r s))
| S_replyTxs w r s : srv_step decodeTx s (snd (handleReplyTxs decodeTx w r s))
| S_done d s : srv_step decodeTx s (snd (handleDone d s)).

Lemma srv_ok_new : srv_ok newServer.
Proof. split; try done; simpl; try (unfold MaxUnackedTxIds; change (blen (@nil TxIdAndSize)) with 0; lia). constructor. Qed.

Lemma srv_ok_clear s b : srv_ok s -> srv_ok (mkServer b (ackCount s) (outstandingTxIds s) None None).
Proof. intros [H1 H2 H3 _ _]. by split. Qed.

Lemma RequestTxIds_ok b n s m s' :
  srv_ok s -> RequestTxIds b n s = Ok (m, s') ->
  srv_ok s' /\ 0 <= n /\ stopping s = false /\ pendingTxIds s = None /\ pendingTxs s = None /\
  m = MsgRequestTxIds b (ackCount s) n /\
  s' = mkServer (stopping s) (ackCount s) (outstandingTxIds s) (Some (mkPendingIds b n (ackCount s))) None /\
  blen (outstandingTxIds s) - ackCount s + n <= MaxUnackedTxIds.
Proof.
  intros Hok H. pose proof Hok as [H1 H2 H3 H4 H5]. unfold RequestTxIds in H.
  destruct (Z.ltb_spec n 0); [done|]. destruct (Z.ltb_spec MaxRequestCount n); [done|].
  destruct (stopping s); [done|]. destruct (pendingTxIds s) eqn:Ep; [done|].
  destruct (pendingTxs s) eqn:Eq; [done|].
  destruct (Z.ltb_spec (ackCount s) 0); [done|]. destruct (Z.ltb_spec MaxAckCount (ackCount s)); [done|].
  destruct (Z.ltb_spec (blen (outstandingTxIds s)) (ackCount s)); [done|].
  destruct (Z.ltb_spec MaxUnackedTxIds (blen (outstandingTxIds s) - ackCount s + n)); [done|].
  simplify_eq. unfold MaxRequestCount, MaxAckCount in *. rewrite !u16_small by lia.
  split_and!; try done. split; try done. intros p [= <-]. simpl. split_and!; (done || lia).
Qed.

Lemma requestAbandoned_ok s : srv_ok s -> srv_ok (requestAbandoned s).
Proof.
  intros. unfold requestAbandoned. destruct (pendingTxIds s), (pendingTxs s); try done; by apply srv_ok_clear.
Qed.

Lemma handleReplyTxIds_ok w r s : srv_ok s -> srv_ok (snd (handleReplyTxIds w r s)).
Proof.
  intros Hok. pose proof Hok as [H1 H2 H3 H4 H5]. unfold handleReplyTxIds.
  destruct (pendingTxIds s) as [p|] eqn:Ep; [|done].
  destruct w; [by apply requestAbandoned_ok|].
  destruct (H4 p eq_refl) as (Ea & Hr & Eq & Hw). rewrite Eq.
  destruct (reconcileTxIds _ _ _ _ r) as [next|] eqn:E; simpl; [|by apply srv_ok_clear].
  apply reconcile_spec in E as [Hrep ->]. destruct Hrep as (Ha & Hl & _ & Hwin & Hnd & Hf).
  split; simpl; try done.
  - rewrite fmap_app, fmap_drop. apply NoDup_app. split_and!; [| |done].
    + rewrite <-(take_drop (Z.to_nat (pAck p)) (IdOf <$> outstandingTxIds s)) in H1.
      by apply NoDup_app in H1 as (_ & _ & ?).
    + rewrite <-fmap_drop. intros x Hx (t & -> & Ht)%list_elem_of_fmap. by apply (Hf t).
  - rewrite blen_app, blen_drop. lia.
  - rewrite blen_app, blen_drop. pose proof (blen_nonneg r). lia.
Qed.

Lemma srv_step_ok decodeTx s s' : srv_ok s -> srv_step decodeTx s s' -> srv_ok s'.
Proof.
  intros Hok H. pose proof Hok as [H1 H2 H3 H4 H5].
  destruct H as [b n s m s' H|ids s m s' H|s|s|w r s|w r s|d s].
  - by apply RequestTxIds_ok in H as [? _].
  - unfold RequestTxs in H. destruct (Z.ltb_spec MaxUnackedTxIds (blen ids)); [done|].
    destruct (stopping s); [done|]. destruct (pendingTxIds s) eqn:Ep; [done|].
    destruct (pendingTxs s); [done|]. apply bind_Ok in H as (u & Hr & [= <- <-]). destruct u.
    apply requested_spec in Hr as (? & ? & ?). split; simpl; try done. by intros q [= <-].
  - by apply srv_ok_clear.
  - by apply requestAbandoned_ok.
  - by apply handleReplyTxIds_ok.
  - unfold handleReplyTxs. destruct (pendingTxs s) as [q|] eqn:Eq; [|done].
    destruct w; [by apply requestAbandoned_ok|]. simpl.
    destruct (pendingTxIds s) as [p|] eqn:Ep; [|by apply srv_ok_clear].
    destruct (H4 p eq_refl) as (_ & _ & ? & _). congruence.
  - unfold handleDone. destruct (pendingTxIds s) as [p|] eqn:Ep; [|done].
    destruct (H4 p eq_refl) as (_ & _ & -> & _).
    destruct (pBlocking p), d; try done; (apply srv_ok_new || by apply srv_ok_clear).
Qed.

(** Whatever the peer replies, however requests fail, are abandoned or
    withdrawn under a handler, and whatever the application returns, the server keeps its window: at most [MaxUnackedTxIds] distinct identifiers
    outstanding, an acknowledgement never larger than what is outstanding, a
    pending request for identifiers that cannot overflow the window, and a pending
    request for bodies only of outstanding identifiers. *)
Theorem server_window_invariant decodeTx s :
  rtc (srv_step decodeTx) newServer s -> srv_ok s.
Proof.
  intros H. remember newServer as s0 eqn:E0. assert (Hs : srv_ok s0) by (subst; apply srv_ok_new).
  clear E0. induction H as [|x y z Hxy _ IH]; [done|]. apply IH. by eapply srv_step_ok.
Qed.

(** An instance. *)
Lemma server_window_invariant_witness :
  let t n := mkTxIdAndSize (mkTxId 6 [n]) 100 in
  srv_ok (mkServer false 2 [t 1; t 2] None None).
Proof.
  intros t. apply (server_window_invariant (fun era b => Some (era, b))).
  eapply rtc_l; [eapply (S_requestIds _ true 3); vm_compute; reflexivity|].
  apply rtc_once. apply (S_replyIds (fun era b => Some (era, b)) false [t 1; t 2] (mkServer false 0 [] (Some (mkPendingIds true 3 0)) None)).
Defined.

(** An honest server and client agree: when the server's outstanding
    identifiers are the client's unacknowledged ones, every request the server
    makes passes the client's checks, so the client replies exactly when its own
    callback's answer is a legal reply, and then the server accepts that reply and
    both agree again. *)
Theorem session_agreement b n s u m s1 txIds :
  srv_ok s -> outstandingTxIds s = u -> RequestTxIds b n s = Ok (m, s1) ->
  let ack := ackCount s in
  m = MsgRequestTxIds b ack n /\
  (is_ok (handleRequestTxIds b ack n (Ok txIds) u) = true <-> reply_ok u ack n b txIds) /\
  (reply_ok u ack n b txIds ->
   exists u' s2, handleRequestTxIds b ack n (Ok txIds) u = Ok (MsgReplyTxIds txIds, u') /\
     handleReplyTxIds false txIds s1 = (Ok txIds, s2) /\ outstandingTxIds s2 = u' /\ srv_ok s2 /\
     pendingTxIds s2 = None /\ pendingTxs s2 = None).
Proof.
  intros Hok <- H ack. destruct (RequestTxIds_ok _ _ _ _ _ Hok H) as (Hok1 & Hn & _ & _ & _ & -> & Es1 & Hw).
  pose proof Hok as [H1 H2 H3 _ _]. split; [done|].
  assert (Hfull : forall next, handleRequestTxIds b ack n (Ok txIds) (outstandingTxIds s) = Ok (MsgReplyTxIds txIds, next) <->
    reply_ok (outstandingTxIds s) ack n b txIds /\ next = drop (Z.to_nat ack) (outstandingTxIds s) ++ txIds).
  { intros next. unfold handleRequestTxIds.
    destruct (Z.ltb_spec (blen (outstandingTxIds s)) ack); [unfold ack in *; lia|].
    destruct (Z.ltb_spec MaxUnackedTxIds (blen (outstandingTxIds s) - ack + n)); [unfold ack in *; lia|].
    rewrite <-reconcile_spec. destruct (Z.ltb_spec n (blen txIds)).
    - split; [done|]. intros (Hr & _)%reconcile_spec. destruct Hr as (_ & ? & _). lia.
    - split; [intros (x & Hx & [= <-])%bind_Ok; done|]. intros ->. done. }
  assert (Hrep : reply_ok (outstandingTxIds s) ack n b txIds ->
    exists u' s2, handleRequestTxIds b ack n (Ok txIds) (outstandingTxIds s) = Ok (MsgReplyTxIds txIds, u') /\
      handleReplyTxIds false txIds s1 = (Ok txIds, s2) /\ outstandingTxIds s2 = u' /\ srv_ok s2 /\
      pendingTxIds s2 = None /\ pendingTxs s2 = None).
  { intros Hr. set (u' := drop (Z.to_nat ack) (outstandingTxIds s) ++ txIds).
    assert (E : handleReplyTxIds false txIds s1 = (Ok txIds, mkServer (stopping s) (blen txIds) u' None None)).
    { rewrite Es1. unfold handleReplyTxIds. cbn [pendingTxIds outstandingTxIds pendingTxs stopping].
      rewrite (proj2 (reconcile_spec _ _ _ _ _ u')); [done|]. by split. }
    exists u', (mkServer (stopping s) (blen txIds) u' None None). split_and!; try done; [by apply Hfull|].
    pose proof (handleReplyTxIds_ok false txIds s1 Hok1) as Hx. by rewrite E in Hx. }
  split; [|done]. split; [|intros Hr; by destruct (Hrep Hr) as (? & ? & -> & _)].
  unfold is_ok. destruct (handleRequestTxIds b ack n (Ok txIds) (outstandingTxIds s)) as [[m' u']|] eqn:E; [|done].
  intros _. assert (m' = MsgReplyTxIds txIds) as ->.
  { unfold handleRequestTxIds in E. repeat (destruct (_ <? _); [done|]). by apply bind_Ok in E as (? & _ & [= <- <-]). }
  by destruct (proj1 (Hfull u') eq_refl).
Qed.

(** An instance. *)
Lemma session_agreement_witness :
  let t n := mkTxIdAndSize (mkTxId 6 [n]) 100 in
  exists u' s2, handleRequestTxIds true 1 2 (Ok [t 2; t 3]) [t 1] = Ok (MsgReplyTxIds [t 2; t 3], u') /\
    outstandingTxIds s2 = u' /\ srv_ok s2.
Proof.
  intros t.
  destruct (session_agreement true 2 (mkServer false 1 [t 1] None None) [t 1]
    (MsgRequestTxIds true 1 2) (mkServer false 1 [t 1] (Some (mkPendingIds true 2 1)) None) [t 2; t 3])
    as (_ & _ & H).
  - split; simpl; try done; try (unfold MaxUnackedTxIds; vm_compute; split; discriminate).
    + apply NoDup_singleton.
  - done.
  - vm_compute. reflexivity.
  - destruct H as (u' & s2 & E1 & _ & E3 & E4 & _).
    + unfold reply_ok. split_and!; try (vm_compute; discriminate).
      * apply (bool_decide_unpack _). vm_compute. exact I.
      * simpl. by intros t' _ ?%elem_of_nil.
    + by exists u', s2.
Defined.
