(* ===== verification/Kes.v ===== *)
(** * Key-evolving signatures (src/kes/kes.go, src/kes/sign.go)

    The sum composition over Ed25519. Blake2b-256 and Ed25519 are the interface
    [KesCrypto]; what the code relies on of them is [KesCryptoLaws]. *)

From S2P Require Import Prelude.

Create HintDb kes.
Create Rewrite HintDb kes.

Class KesCrypto := {
  blake2b : bytes -> bytes;                        (* blake2b.Sum256 *)
  edPublic : bytes -> bytes;                       (* public key of NewKeyFromSeed *)
  edSign : bytes -> bytes -> bytes;                (* Sign (NewKeyFromSeed seed) msg *)
  edVerify : bytes -> bytes -> bytes -> bool       (* ed25519strict.Verify pk msg sig *)
}.

Class KesCryptoLaws `{KesCrypto} : Prop := {
  blake2b_length x : length (blake2b x) = 32%nat;
  edPublic_length seed : length seed = 32%nat -> length (edPublic seed) = 32%nat;
  edSign_length seed m : length seed = 32%nat -> length (edSign seed m) = 64%nat;
  edVerify_sign seed m : length seed = 32%nat -> edVerify (edPublic seed) m (edSign seed m) = true
}.

Definition SigmaSize : nat := 64.
Definition PublicKeySize : nat := 32.
Definition Sum0KesSigSize : nat := 64.
Definition CardanoKesDepth : nat := 6.
Definition MaxDepth : nat := 63.
Definition MaxKeyGenDepth : nat := 12.
Definition kesSeedSize : nat := 32.
Definition kesEd25519KeySize : nat := 32.

Inductive kesError :=
| ErrDepthZero | ErrDepthTooLarge | ErrSize | ErrSeedSize | ErrKeyErased | ErrKeyStructure
| ErrPeriodTooLarge | ErrWrongPeriod | ErrKeyExhausted.

(** [copy(data[off:off+n], src)]. *)
Definition copy_into (off n : nat) (src data : bytes) : bytes :=
  take off data ++ take n src ++ drop (off + min n (length src)) data.

(** [cryptoutil.Wipe(data[off:off+n])]. *)
Definition wipe (off n : nat) (data : bytes) : bytes :=
  take off data ++ replicate n 0 ++ drop (off + n) data.

(** [uint64(1) << n]: the bit is shifted out from 64 on. *)
Definition lsh1 (n : Z) : Z := if n <? 64 then Z.shiftl 1 n else 0.

Definition MaxPeriod (depth : nat) : Z := lsh1 (Z.of_nat depth).

(** [SignatureSize], in [uint64] arithmetic with its overflow checks. *)
Definition SignatureSize (depth : Z) : Z :=
  let additionalBytes := u64 (depth * 64) in
  if (0 <? depth) && negb (additionalBytes / depth =? 64) then -1 else
  let totalBytes := u64 (64 + additionalBytes) in
  if (totalBytes <? 64) || (MaxInt <? totalBytes) then -1 else totalBytes.

(** The depth is at most [MaxDepth] wherever the code computes this size, far
    below the [MaxInt / 96] at which the code panics. *)
Definition secretKeySize (depth : nat) : nat := kesEd25519KeySize + depth * 96.

(** A 32-byte slot of a fixed array after [copy]. *)
Definition slot32 (x : bytes) : bytes := take 32 (x ++ replicate 32 0).

Section Kes.
Context `{KesCrypto}.

Definition HashPair (l r : bytes) : bytes := blake2b (slot32 l ++ slot32 r).

Definition expandSeed (seed : bytes) (separator : Z) : bytes :=
  blake2b (separator :: slot32 seed).

(** ** Keys *)

Fixpoint publicKeyFromSeed (depth : nat) (seed : bytes) : bytes :=
  match depth with
  | O => edPublic seed
  | S d => HashPair (publicKeyFromSeed d (expandSeed seed 1)) (publicKeyFromSeed d (expandSeed seed 2))
  end.

(** [keyGenInternal] writes into [data]; the result is the public key and the
    data written. *)
Fixpoint keyGenInternal (depth : nat) (seed data : bytes) : bytes * bytes :=
  match depth with
  | O => (edPublic seed, copy_into 0 kesEd25519KeySize seed data)
  | S d =>
    let leftSeed := expandSeed seed 1 in
    let rightSeed := expandSeed seed 2 in
    let childKeySize := secretKeySize d in
    let '(leftPubKey, child) := keyGenInternal d leftSeed (take childKeySize data) in
    let data := child ++ drop childKeySize data in
    let rightPubKey := publicKeyFromSeed d rightSeed in
    let data := copy_into childKeySize 32 rightSeed data in
    let data := copy_into (childKeySize + 32) 32 leftPubKey data in
    let data := copy_into (childKeySize + 64) 32 rightPubKey data in
    (HashPair leftPubKey rightPubKey, data)
  end.

(** [backing] is the array behind [Data]: erasing a key both clears the array
    and drops the slice, so that [Data] is [None] from then on. *)
Record SecretKey := mkSecretKey {
  Depth : nat;
  Period : Z;
  backing : bytes;
  dataNil : bool;
  publicKey : option bytes
}.

Definition Data (sk : SecretKey) : option bytes :=
  if dataNil sk then None else Some (backing sk).

Definition KeyGen (depth : nat) (seed : bytes) : result kesError (SecretKey * bytes) :=
  if negb (length seed =? kesSeedSize)%nat then Err ErrSeedSize
  else if (MaxKeyGenDepth <? depth)%nat then Err ErrDepthTooLarge
  else
  let '(pubKey, data) := keyGenInternal depth seed (replicate (secretKeySize depth) 0) in
  Ok (mkSecretKey depth 0 data false (Some pubKey), pubKey).

Definition validateSecretKeyStructure (depth : nat) (data : bytes) : bool :=
  negb (MaxDepth <? depth)%nat && (length data =? secretKeySize depth)%nat.

Definition Zeroize (sk : SecretKey) : SecretKey :=
  let cleared := match Data sk with
                 | Some data => wipe 0 (length data) data
                 | None => backing sk     (* Wipe of a nil slice *)
                 end in
  mkSecretKey (Depth sk) 0 cleared true (publicKey sk).

Definition publicKeyInternal (depth : nat) (data : bytes) : bytes :=
  match depth with
  | O => edPublic (slice 0 kesEd25519KeySize data)
  | S d =>
    let offset := (secretKeySize d + 32)%nat in
    HashPair (slice offset (offset + 32) data) (slice (offset + 32) (offset + 64) data)
  end.

Definition PublicKey (sk : SecretKey) : option bytes :=
  match Data sk with
  | None => publicKey sk
  | Some data =>
    if negb (validateSecretKeyStructure (Depth sk) data) then None else
    match publicKey sk with
    | Some pk => Some pk
    | None => Some (publicKeyInternal (Depth sk) data)
    end
  end.

(** ** Signing *)

Fixpoint signInternal (depth : nat) (period : Z) (data message sig : bytes) : bytes :=
  match depth with
  | O => copy_into 0 SigmaSize (edSign (slice 0 kesEd25519KeySize data) message) sig
  | S d =>
    let childKeySize := secretKeySize d in
    let halfPeriod := MaxPeriod d in
    let offset := (childKeySize + 32)%nat in
    let leftPubKey := slice offset (offset + 32) data in
    let rightPubKey := slice (offset + 32) (offset + 64) data in
    let childSigSize := (SigmaSize + d * PublicKeySize * 2)%nat in
    let sig := copy_into childSigSize 32 leftPubKey sig in
    let sig := copy_into (childSigSize + 32) 32 rightPubKey sig in
    let childPeriod := if period <? halfPeriod then period else u64 (period - halfPeriod) in
    signInternal d childPeriod (take childKeySize data) message (take childSigSize sig) ++
      drop childSigSize sig
  end.

Definition Sign (sk : SecretKey) (period : Z) (message : bytes) : result kesError bytes :=
  match Data sk with
  | None => Err ErrKeyErased
  | Some data =>
    if negb (validateSecretKeyStructure (Depth sk) data) then Err ErrKeyStructure
    else if MaxPeriod (Depth sk) <=? period then Err ErrPeriodTooLarge
    else if negb (period =? Period sk) then Err ErrWrongPeriod
    else Ok (signInternal (Depth sk) period data message
               (replicate (SigmaSize + Depth sk * PublicKeySize * 2) 0))
  end.

(** ** Evolving *)

Fixpoint updateInternal (depth : nat) (period : Z) (data : bytes) : bytes :=
  match depth with
  | O => wipe 0 kesEd25519KeySize data
  | S d =>
    let childKeySize := secretKeySize d in
    let halfPeriod := MaxPeriod d in
    let seed := slice childKeySize (childKeySize + 32) data in
    if period <? halfPeriod - 1 then
      updateInternal d period (take childKeySize data) ++ drop childKeySize data
    else if period =? halfPeriod - 1 then
      let '(_, child) := keyGenInternal d seed (take childKeySize data) in
      wipe childKeySize 32 (child ++ drop childKeySize data)
    else updateInternal d (u64 (period - halfPeriod)) (take childKeySize data) ++ drop childKeySize data
  end.

(** The evolved key, and the key that was given as [Update] leaves it; [sk] is
    not a nil pointer, here and in [Sign]. *)
Definition Update (sk : SecretKey) : result kesError SecretKey * SecretKey :=
  match Data sk with
  | None => (Err ErrKeyErased, sk)
  | Some data =>
    if negb (validateSecretKeyStructure (Depth sk) data) then (Err ErrKeyStructure, sk) else
    let newPeriod := u64 (Period sk + 1) in
    if MaxPeriod (Depth sk) <=? newPeriod then (Err ErrKeyExhausted, sk)
    else (Ok (mkSecretKey (Depth sk) newPeriod (updateInternal (Depth sk) (Period sk) data) false (publicKey sk)),
          Zeroize sk)
  end.

(** ** Signatures *)

(** [SumXKesSig], with [Sum0KesSig] at the leaves. *)
Inductive KesSig :=
| Sum0KesSig (sig : bytes)
| SumXKesSig (depth : nat) (sigma : KesSig) (lhs rhs : bytes).

Definition Sum0KesSigFromBytes (sigBytes : bytes) : bytes :=
  if (length sigBytes <? Sum0KesSigSize)%nat then [] else take Sum0KesSigSize sigBytes.

(** The recursion is on [depth - 1]. *)
Fixpoint newSumKes (d : nat) (fromByte : bytes) : result kesError KesSig :=
  let depth := S d in
  if (MaxDepth <? depth)%nat then Err ErrDepthTooLarge
  else if negb (blen fromByte =? SignatureSize (Z.of_nat depth)) then Err ErrSize
  else
  let nextKesSize := Z.to_nat (SignatureSize (Z.of_nat d)) in
  sigma ← match d with
          | O => Ok (Sum0KesSig (Sum0KesSigFromBytes fromByte))
          | S d' => newSumKes d' (slice 0 nextKesSize fromByte)
          end;
  Ok (SumXKesSig depth sigma (slice nextKesSize (nextKesSize + PublicKeySize) fromByte)
        (slice (nextKesSize + PublicKeySize) (nextKesSize + PublicKeySize * 2) fromByte)).

Definition NewSumKesFromBytes (depth : nat) (fromByte : bytes) : result kesError KesSig :=
  match depth with O => Err ErrDepthZero | S d => newSumKes d fromByte end.

Fixpoint Verify (s : KesSig) (period : Z) (pubKey msg : bytes) : bool :=
  match s with
  | Sum0KesSig sig => if negb (period =? 0) then false else edVerify pubKey msg sig
  | SumXKesSig depth sigma lhs rhs =>
    if MaxPeriod depth <=? period then false
    else if negb (bool_decide (HashPair lhs rhs = pubKey)) then false
    else
    let nextDepth := lsh1 (u64 (Z.of_nat depth - 1)) in
    if period <? nextDepth then Verify sigma period lhs msg
    else Verify sigma (u64 (period - nextDepth)) rhs msg
  end.

Definition VerifySignedKES (vkey : bytes) (period : Z) (msg sig : bytes) : bool :=
  match NewSumKesFromBytes CardanoKesDepth sig with
  | Err _ => false
  | Ok proof => Verify proof period vkey msg
  end.

(** ** The key at a period *)

(** The raw key of the tree of height [d] grown from [seed], at period [t]. *)
Fixpoint key_at (d : nat) (seed : bytes) (t : nat) : bytes :=
  match d with
  | O => seed
  | S d =>
    let l := expandSeed seed 1 in
    let r := expandSeed seed 2 in
    let pks := publicKeyFromSeed d l ++ publicKeyFromSeed d r in
    if (t <? 2 ^ d)%nat then key_at d l t ++ r ++ pks
    else key_at d r (t - 2 ^ d) ++ replicate 32 0 ++ pks
  end.

(** The signature of the leaf [t], with the public keys along its path. *)
Fixpoint sig_at (d : nat) (seed : bytes) (t : nat) (msg : bytes) : bytes :=
  match d with
  | O => edSign seed msg
  | S d =>
    let l := expandSeed seed 1 in
    let r := expandSeed seed 2 in
    (if (t <? 2 ^ d)%nat then sig_at d l t msg else sig_at d r (t - 2 ^ d) msg) ++
      publicKeyFromSeed d l ++ publicKeyFromSeed d r
  end.

(** The seed of the node of height [h] whose first leaf is [i]. *)
Fixpoint nodeSeed (d : nat) (seed : bytes) (h i : nat) : bytes :=
  match d with
  | O => seed
  | S d' =>
    if (h =? S d')%nat then seed
    else if (i <? 2 ^ d')%nat then nodeSeed d' (expandSeed seed 1) h i
    else nodeSeed d' (expandSeed seed 2) h (i - 2 ^ d')
  end.

(** [n] calls of [Update], as in [sk, err = kes.Update(sk)]. *)
Fixpoint evolve (n : nat) (sk : SecretKey) : result kesError SecretKey :=
  match n with
  | O => Ok sk
  | S n => sk' ← fst (Update sk); evolve n sk'
  end.

(** Two different pairs of public keys with one hash. *)
Definition collision : Prop :=
  exists l r l' r' : bytes,
    (length l = 32 /\ length r = 32 /\ length l' = 32 /\ length r' = 32)%nat /\
    (l, r) <> (l', r') /\ HashPair l r = HashPair l' r'.

End Kes.

(** ** Sizes and layouts *)

Lemma lsh1_pow n : (n < 64)%nat -> lsh1 (Z.of_nat n) = Z.of_nat (2 ^ n).
Proof.
  intros. unfold lsh1. destruct (Z.ltb_spec (Z.of_nat n) 64); [|lia].
  rewrite Z.shiftl_1_l, Nat2Z.inj_pow. done.
Qed.

Lemma pow2_u64 n : (n < 64)%nat -> 0 < Z.of_nat (2 ^ n) <= MaxUint64.
Proof.
  intros. rewrite Nat2Z.inj_pow. split; [lia|]. unfold MaxUint64.
  pose proof (Z.pow_lt_mono_r 2 (Z.of_nat n) 64). lia.
Qed.

Lemma copy_into_app off n (a b c src : bytes) :
  length a = off -> length b = n -> length src = n ->
  copy_into off n src (a ++ b ++ c) = a ++ src ++ c.
Proof.
  intros <- <- Hs. unfold copy_into.
  rewrite take_app_length, Hs, Nat.min_id, firstn_all2 by lia.
  rewrite <- drop_drop, drop_app_length, drop_app_length. done.
Qed.

Lemma wipe_app off n (a b c : bytes) :
  length a = off -> length b = n -> wipe off n (a ++ b ++ c) = a ++ replicate n 0 ++ c.
Proof.
  intros <- <-. unfold wipe.
  rewrite take_app_length, <- drop_drop, drop_app_length, drop_app_length. done.
Qed.

Lemma slice_app lo hi (a b c : bytes) :
  length a = lo -> length b = (hi - lo)%nat -> slice lo hi (a ++ b ++ c) = b.
Proof. intros <- Hb. unfold slice. rewrite drop_app_length, <- Hb, take_app_length. done. Qed.

Lemma slice_app_last lo hi (a b : bytes) :
  length a = lo -> length b = (hi - lo)%nat -> slice lo hi (a ++ b) = b.
Proof. intros. rewrite <- (app_nil_r b) at 1. by apply slice_app. Qed.

Lemma slice_app_first n (a b : bytes) : length a = n -> slice 0 n (a ++ b) = a.
Proof. intros <-. unfold slice. by rewrite drop_0, Nat.sub_0_r, take_app_length. Qed.

(** A buffer of a child and [96] bytes, cut at the slots of one level. *)
Lemma level_split n (data : bytes) :
  length data = (n + 96)%nat ->
  exists child s l r, data = child ++ s ++ l ++ r /\
    length child = n /\ length s = 32%nat /\ length l = 32%nat /\ length r = 32%nat.
Proof.
  intros Hd. exists (take n data), (take 32 (drop n data)),
    (take 32 (drop 32 (drop n data))), (drop 32 (drop 32 (drop n data))).
  rewrite !take_drop. rewrite !length_take, !length_drop. repeat split; lia.
Qed.

Lemma sig_split n (sig : bytes) :
  length sig = (n + 64)%nat ->
  exists child l r, sig = child ++ l ++ r /\
    length child = n /\ length l = 32%nat /\ length r = 32%nat.
Proof.
  intros Hd. exists (take n sig), (take 32 (drop n sig)), (drop 32 (drop n sig)).
  rewrite !take_drop. rewrite !length_take, !length_drop. repeat split; lia.
Qed.

Lemma secretKeySize_S d : secretKeySize (S d) = (secretKeySize d + 96)%nat.
Proof. unfold secretKeySize. lia. Qed.

Lemma slot32_id x : length x = 32%nat -> slot32 x = x.
Proof. intros H. unfold slot32. rewrite <- H at 1. apply take_app_length. Qed.

(** The places of a raw key that hold secrets: the leaf, then one seed per level. *)
Fixpoint secretSlots (d : nat) (data : bytes) : list bytes :=
  match d with
  | O => [data]
  | S d => secretSlots d (take (secretKeySize d) data) ++
           [slice (secretKeySize d) (secretKeySize d + 32) data]
  end.

Definition shift (n : nat) (x : option (nat * nat)) : option (nat * nat) :=
  match x with Some (h, i) => Some (h, i + n)%nat | None => None end.

(** The tree nodes, by height and first leaf, whose seeds the key of period [t]
    is to hold; [None] is an erased slot. *)
Fixpoint held (d t : nat) : list (option (nat * nat)) :=
  match d with
  | O => [Some (O, O)]
  | S d =>
    if (t <? 2 ^ d)%nat then held d t ++ [Some (d, 2 ^ d)%nat]
    else (shift (2 ^ d) <$> held d (t - 2 ^ d)) ++ [None]
  end.

(** The leaves below a node. *)
Definition leaves (n : option (nat * nat)) : list nat :=
  match n with Some (h, i) => seq i (2 ^ h) | None => [] end.

(** The signature as bytes. *)
Fixpoint serialize (s : KesSig) : bytes :=
  match s with
  | Sum0KesSig sig => sig
  | SumXKesSig _ sigma l r => serialize sigma ++ l ++ r
  end.

(** A signature whose levels count down to a leaf, with every part at its size. *)
Fixpoint sig_wf (d : nat) (s : KesSig) : Prop :=
  match d, s with
  | O, Sum0KesSig sig => length sig = 64%nat
  | S d', SumXKesSig depth sigma l r =>
    depth = d /\ sig_wf d' sigma /\ length l = 32%nat /\ length r = 32%nat
  | _, _ => False
  end.

(** The Ed25519 signature at the leaf. *)
Fixpoint leafSig (s : KesSig) : bytes :=
  match s with Sum0KesSig sig => sig | SumXKesSig _ sigma _ _ => leafSig sigma end.

Lemma serialize_length d : forall s, sig_wf d s -> length (serialize s) = (64 + d * 64)%nat.
Proof.
  induction d as [|d IH]; intros [sig|depth sigma l r] Hw; try done.
  destruct Hw as (_ & Hw & Hl & Hr). cbn [serialize].
  rewrite !length_app, Hl, Hr, (IH _ Hw). lia.
Qed.

Lemma SignatureSize_eq depth :
  0 <= depth <= MaxUint64 ->
  SignatureSize depth = if 64 + 64 * depth <=? MaxInt then 64 + 64 * depth else -1.
Proof.
  intros Hd. unfold SignatureSize. unfold MaxUint64, MaxInt, u64 in *.
  set (a := (depth * 64) mod 18446744073709551616).
  pose proof (Z.div_mod (depth * 64) 18446744073709551616 ltac:(lia)) as Hdm. fold a in Hdm.
  pose proof (Z.mod_pos_bound (depth * 64) 18446744073709551616 ltac:(lia)) as Hb. fold a in Hb.
  destruct (Z.ltb_spec 0 depth) as [H0|H0]; cbn [andb].
  - destruct (Z.eqb_spec (a / depth) 64) as [Ha|Ha]; cbn [negb].
    + assert (a = depth * 64) as Hc.
      { pose proof (Z.div_mod a depth ltac:(lia)) as E. rewrite Ha in E.
        pose proof (Z.mod_pos_bound a depth H0). nia. }
      rewrite Hc. rewrite Hc in Hb. clear - Hb.
      pose proof (Z.div_mod (64 + depth * 64) 18446744073709551616 ltac:(lia)).
      pose proof (Z.mod_pos_bound (64 + depth * 64) 18446744073709551616 ltac:(lia)).
      destruct (Z.ltb_spec ((64 + depth * 64) mod 18446744073709551616) 64); simpl; zbool; lia.
    + destruct (Z.leb_spec (64 + 64 * depth) 9223372036854775807); [|done].
      exfalso. apply Ha. subst a. rewrite Z.mod_small by lia.
      rewrite Z.mul_comm. apply Z.div_mul. lia.
  - subst a. assert (depth = 0) by lia. subst depth. reflexivity.
Qed.

Lemma SignatureSize_nat d : (d <= 64)%nat -> SignatureSize (Z.of_nat d) = 64 + 64 * Z.of_nat d.
Proof.
  intros. rewrite SignatureSize_eq by (unfold MaxUint64; lia).
  destruct (Z.leb_spec (64 + 64 * Z.of_nat d) MaxInt); [done|unfold MaxInt in *; lia].
Qed.

(** ** Correctness of the operations *)

Section Proofs.
Context {KC : KesCrypto} {KL : KesCryptoLaws}.
#[local] Set Default Proof Using "All".

Lemma expandSeed_length seed sep : length (expandSeed seed sep) = 32%nat.
Proof. apply blake2b_length. Qed.

Lemma publicKey_length d seed : length seed = 32%nat -> length (publicKeyFromSeed d seed) = 32%nat.
Proof. destruct d; simpl; intros; [by apply edPublic_length|apply blake2b_length]. Qed.

Hint Resolve expandSeed_length publicKey_length edSign_length : kes.
Hint Rewrite @length_app @length_replicate expandSeed_length : kes.

Lemma key_at_length d : forall seed t,
  length seed = 32%nat -> length (key_at d seed t) = secretKeySize d.
Proof.
  induction d as [|d IH]; intros seed t Hs; [done|].
  rewrite secretKeySize_S. cbn [key_at].
  destruct (Nat.ltb_spec t (2 ^ d)); autorewrite with kes;
    rewrite IH, !publicKey_length by eauto with kes; lia.
Qed.

Lemma sig_at_length d : forall seed t m,
  length seed = 32%nat -> length (sig_at d seed t m) = (64 + d * 64)%nat.
Proof.
  induction d as [|d IH]; intros seed t m Hs; [simpl; eauto with kes|].
  cbn [sig_at]. destruct (Nat.ltb_spec t (2 ^ d)); autorewrite with kes;
    rewrite IH, !publicKey_length by eauto with kes; lia.
Qed.

(** Key generation writes the key of period 0, whatever the buffer held. *)
Lemma keyGenInternal_key_at d : forall seed data,
  length seed = 32%nat -> length data = secretKeySize d ->
  keyGenInternal d seed data = (publicKeyFromSeed d seed, key_at d seed 0).
Proof.
  induction d as [|d IH]; intros seed data Hs Hd.
  - simpl. f_equal. unfold secretKeySize, kesEd25519KeySize in Hd. simpl in Hd.
    pose proof (copy_into_app 0 32 [] data [] seed eq_refl Hd Hs) as E.
    by rewrite !app_nil_r in E.
  - rewrite secretKeySize_S in Hd.
    destruct (level_split _ _ Hd) as (child & s & l & r & -> & Hc & Hs1 & Hl & Hr).
    cbn [keyGenInternal]. rewrite take_app_length', drop_app_length' by done.
    rewrite IH by eauto with kes. cbn [key_at publicKeyFromSeed].
    assert (Hlt : (0 <? 2 ^ d)%nat = true) by (apply Nat.ltb_lt; apply Nat.neq_0_lt_0, Nat.pow_nonzero; lia).
    rewrite Hlt. f_equal.
    set (k := key_at d (expandSeed seed 1) 0).
    assert (Hk : length k = secretKeySize d) by (apply key_at_length, expandSeed_length).
    rewrite (copy_into_app _ 32 k) by eauto with kes.
    rewrite (app_assoc k), (copy_into_app _ 32 (k ++ _)) by (autorewrite with kes; eauto with kes; lia).
    rewrite (app_assoc (k ++ _)).
    rewrite <- (app_nil_r r), (copy_into_app _ 32 ((k ++ _) ++ _))
      by (autorewrite with kes; rewrite ?publicKey_length by eauto with kes; eauto with kes; lia).
    by rewrite app_nil_r, <- !app_assoc.
Qed.

(** One evolution step moves the raw key to the next period. *)
Lemma updateInternal_key_at d : forall seed t,
  length seed = 32%nat -> (d <= 64)%nat -> (S t < 2 ^ d)%nat ->
  updateInternal d (Z.of_nat t) (key_at d seed t) = key_at d seed (S t).
Proof.
  induction d as [|d IH]; intros seed t Hs Hd Ht; [simpl in Ht; lia|].
  pose proof (pow2_u64 d ltac:(lia)) as Hp. rewrite Nat.pow_succ_r' in Ht.
  cbn [updateInternal]. unfold MaxPeriod. rewrite lsh1_pow by lia.
  cbn [key_at]. set (l := expandSeed seed 1). set (r := expandSeed seed 2).
  assert (Hl : length l = 32%nat) by apply expandSeed_length.
  assert (Hr : length r = 32%nat) by apply expandSeed_length.
  destruct (Nat.ltb_spec t (2 ^ d)) as [H1|H1].
  - rewrite take_app_length', drop_app_length' by by rewrite key_at_length.
    destruct (Z.ltb_spec (Z.of_nat t) (Z.of_nat (2 ^ d) - 1)) as [H2|H2].
    + destruct (Nat.ltb_spec (S t) (2 ^ d)); [|lia]. rewrite IH by (done || lia). done.
    + destruct (Z.eqb_spec (Z.of_nat t) (Z.of_nat (2 ^ d) - 1)); [|lia].
      destruct (Nat.ltb_spec (S t) (2 ^ d)); [lia|].
      rewrite slice_app by (rewrite ?key_at_length by done; lia).
      rewrite keyGenInternal_key_at by (rewrite ?key_at_length; done).
      replace (S t - 2 ^ d)%nat with O by lia.
      rewrite wipe_app by (rewrite ?key_at_length; done). done.
  - rewrite take_app_length', drop_app_length' by by rewrite key_at_length.
    destruct (Z.ltb_spec (Z.of_nat t) (Z.of_nat (2 ^ d) - 1)); [lia|].
    destruct (Z.eqb_spec (Z.of_nat t) (Z.of_nat (2 ^ d) - 1)); [lia|].
    destruct (Nat.ltb_spec (S t) (2 ^ d)); [lia|].
    rewrite u64_small by lia.
    replace (Z.of_nat t - Z.of_nat (2 ^ d)) with (Z.of_nat (t - 2 ^ d)) by lia.
    rewrite IH by (done || lia). do 2 f_equal. lia.
Qed.

(** Signing with the key of a period gives the signature of that leaf. *)
Lemma signInternal_sig_at d : forall seed t m sig,
  length seed = 32%nat -> (d <= 64)%nat -> (t < 2 ^ d)%nat -> length sig = (64 + d * 64)%nat ->
  signInternal d (Z.of_nat t) (key_at d seed t) m sig = sig_at d seed t m.
Proof.
  induction d as [|d IH]; intros seed t m sig Hs Hd Ht Hsig.
  - cbn [signInternal key_at sig_at].
    pose proof (copy_into_app 0 64 [] sig [] (edSign seed m) eq_refl ltac:(lia)
                  ltac:(eauto with kes)) as E.
    rewrite !app_nil_r in E. unfold slice.
    rewrite drop_0, firstn_all2 by (unfold kesEd25519KeySize; lia). done.
  - pose proof (pow2_u64 d ltac:(lia)) as Hp. rewrite Nat.pow_succ_r' in Ht.
    destruct (sig_split (64 + d * 64) sig ltac:(lia)) as (child & a & b & -> & Hc & Ha & Hb).
    cbn [signInternal]. unfold MaxPeriod. rewrite lsh1_pow by lia.
    cbn [key_at sig_at]. set (l := expandSeed seed 1). set (r := expandSeed seed 2).
    assert (Hl : length l = 32%nat) by apply expandSeed_length.
    assert (Hr : length r = 32%nat) by apply expandSeed_length.
    replace (SigmaSize + d * PublicKeySize * 2)%nat with (64 + d * 64)%nat
      by (unfold SigmaSize, PublicKeySize; lia).
    set (k := if (t <? 2 ^ d)%nat then key_at d l t else key_at d r (t - 2 ^ d)).
    set (z := if (t <? 2 ^ d)%nat then r else replicate 32 0).
    replace (if (t <? 2 ^ d)%nat
       then key_at d l t ++ r ++ publicKeyFromSeed d l ++ publicKeyFromSeed d r
       else key_at d r (t - 2 ^ d) ++ replicate 32 0 ++ publicKeyFromSeed d l ++ publicKeyFromSeed d r)
      with (k ++ z ++ publicKeyFromSeed d l ++ publicKeyFromSeed d r)
      by (subst k z; by destruct (Nat.ltb_spec t (2 ^ d))).
    assert (Hk : length k = secretKeySize d) by (subst k; destruct (Nat.ltb_spec t (2 ^ d)); by apply key_at_length).
    assert (Hz : length z = 32%nat) by (subst z; by destruct (Nat.ltb_spec t (2 ^ d))).
    pose proof (publicKey_length d l Hl) as Hpl. pose proof (publicKey_length d r Hr) as Hpr.
    rewrite take_app_length' by done. rewrite (app_assoc k).
    rewrite (slice_app (secretKeySize d + 32)) by (rewrite ?length_app; lia).
    rewrite (app_assoc (k ++ z)), slice_app_last by (rewrite ?length_app; lia).
    rewrite (copy_into_app _ 32 child) by done.
    rewrite (app_assoc child), <- (app_nil_r b), (copy_into_app _ 32 (child ++ _))
      by (rewrite ?length_app; lia).
    rewrite app_nil_r, <- app_assoc, take_app_length', drop_app_length' by done.
    f_equal. subst k. destruct (Nat.ltb_spec t (2 ^ d)) as [H1|H1].
    + destruct (Z.ltb_spec (Z.of_nat t) (Z.of_nat (2 ^ d))); [|lia]. rewrite IH by (done || lia). done.
    + destruct (Z.ltb_spec (Z.of_nat t) (Z.of_nat (2 ^ d))); [lia|].
      rewrite u64_small by lia.
      replace (Z.of_nat t - Z.of_nat (2 ^ d)) with (Z.of_nat (t - 2 ^ d)) by lia.
      rewrite IH by (done || lia). done.
Qed.

(** ** Parsing and verifying *)

(** Parsing a serialized signature. *)
Lemma newSumKes_serialize d : forall s,
  (S d <= MaxDepth)%nat -> sig_wf (S d) s -> newSumKes d (serialize s) = Ok s.
Proof using Type.
  unfold MaxDepth. induction d as [|d IH]; intros [sig|depth sigma l r] Hd Hw; try done;
    pose proof (serialize_length _ _ Hw) as Hlen;
    destruct Hw as (-> & Hw & Hl & Hr); cbn [newSumKes].
  - unfold blen. rewrite Hlen, SignatureSize_nat by lia. simpl negb. cbn iota.
    destruct sigma as [sig|]; [|done]. simpl in Hw.
    change (Z.to_nat (SignatureSize (Z.of_nat 0))) with 64%nat. cbn [serialize].
    unfold Sum0KesSigFromBytes. rewrite !length_app, Hw.
    rewrite (take_app_length' sig) by done. unfold PublicKeySize.
    rewrite (slice_app 64 (64 + 32)) by lia. rewrite (app_assoc sig), slice_app_last
      by (rewrite ?length_app; lia). done.
  - assert (HM : (MaxDepth <? S (S d))%nat = false) by (apply Nat.ltb_ge; unfold MaxDepth; lia).
    rewrite HM. unfold blen. rewrite Hlen, SignatureSize_nat by lia.
    destruct (Z.eqb_spec (Z.of_nat (64 + S (S d) * 64)) (64 + 64 * Z.of_nat (S (S d)))); [|lia].
    simpl negb. cbn iota. rewrite SignatureSize_nat by lia. cbn [serialize].
    pose proof (serialize_length _ _ Hw) as Hs.
    replace (Z.to_nat (64 + 64 * Z.of_nat (S d))) with (64 + S d * 64)%nat by lia.
    rewrite slice_app_first by done.
    rewrite IH by (done || lia). unfold PublicKeySize. simpl mbind.
    rewrite (slice_app (64 + S d * 64)) by lia.
    rewrite (app_assoc (serialize sigma)), slice_app_last by (rewrite ?length_app; lia). done.
Qed.

(** A buffer of the size of a signature is cut into a child and two keys. *)
Lemma sig_buffer_split d (b : bytes) :
  (S d <= 64)%nat -> blen b = SignatureSize (Z.of_nat (S d)) ->
  exists child l r, b = child ++ l ++ r /\
    length child = Z.to_nat (SignatureSize (Z.of_nat d)) /\ length l = 32%nat /\ length r = 32%nat.
Proof using Type.
  intros Hd Hb. rewrite !SignatureSize_nat in * by lia. apply sig_split. unfold blen in Hb. lia.
Qed.

(** A parse gives a well-formed signature that serializes to the input. *)
Lemma newSumKes_inv d : forall b s,
  newSumKes d b = Ok s -> (S d <= MaxDepth)%nat /\ sig_wf (S d) s /\ serialize s = b.
Proof using Type.
  induction d as [|d IH]; intros b s; cbn [newSumKes];
    match goal with |- context [Nat.ltb ?x ?y] => destruct (Nat.ltb_spec x y) as [|HM]; [done|] end;
    match goal with |- context [Z.eqb ?x ?y] => destruct (Z.eqb_spec x y) as [Hlen|]; [|done] end;
    cbn [negb]; unfold MaxDepth, PublicKeySize in *;
    (apply sig_buffer_split in Hlen as Hsplit; [|lia]);
    destruct Hsplit as (child & l & r & -> & Hc & Hl & Hr);
    rewrite !(slice_app _ (_ + 32) child l r) by lia;
    rewrite (app_assoc child), !(slice_app_last (_ + 32) _ (child ++ l) r) by (rewrite ?length_app; lia).
  - change (Z.to_nat (SignatureSize (Z.of_nat 0))) with 64%nat in Hc.
    unfold Sum0KesSigFromBytes. rewrite !length_app, Hc, Hl, Hr.
    cbn. rewrite <- app_assoc, take_app_length' by done.
    intros [= <-]. simpl. repeat split; try done; lia.
  - rewrite <- app_assoc, slice_app_first by done.
    destruct (newSumKes d child) as [sigma|e] eqn:E; [|done].
    simpl mbind. intros [= <-]. destruct (IH _ _ E) as (_ & Hw & <-). done.
Qed.

(** The signature of a leaf parses to a tree that verifies. *)
Fixpoint tree_at (d : nat) (seed : bytes) (t : nat) (m : bytes) : KesSig :=
  match d with
  | O => Sum0KesSig (edSign seed m)
  | S d' =>
    let l := expandSeed seed 1 in
    let r := expandSeed seed 2 in
    SumXKesSig d (if (t <? 2 ^ d')%nat then tree_at d' l t m else tree_at d' r (t - 2 ^ d') m)
      (publicKeyFromSeed d' l) (publicKeyFromSeed d' r)
  end.

Lemma tree_at_sig d : forall seed t m, serialize (tree_at d seed t m) = sig_at d seed t m.
Proof.
  induction d as [|d IH]; intros; [done|]. cbn [tree_at sig_at serialize]. destruct (Nat.ltb t (2 ^ d)); by rewrite IH.
Qed.

Lemma tree_at_wf d : forall seed t m, length seed = 32%nat -> sig_wf d (tree_at d seed t m).
Proof.
  induction d as [|d IH]; intros; [simpl; eauto with kes|].
  cbn [tree_at sig_wf]. destruct (Nat.ltb t (2 ^ d)); eauto 10 with kes.
Qed.

Lemma lsh1_pred d : (d < 64)%nat -> lsh1 (u64 (Z.of_nat (S d) - 1)) = Z.of_nat (2 ^ d).
Proof using Type.
  intros. rewrite u64_small by (unfold MaxUint64; lia).
  replace (Z.of_nat (S d) - 1) with (Z.of_nat d) by lia. by apply lsh1_pow.
Qed.

(** What [Verify] does at one level, with the shifts evaluated. *)
Lemma Verify_SumX d sigma l r p pk m :
  (S d < 64)%nat -> (p < 2 ^ S d)%nat ->
  Verify (SumXKesSig (S d) sigma l r) (Z.of_nat p) pk m =
  bool_decide (HashPair l r = pk) &&
  (if (p <? 2 ^ d)%nat then Verify sigma (Z.of_nat p) l m
   else Verify sigma (Z.of_nat (p - 2 ^ d)) r m).
Proof.
  intros Hd Hp. cbn [Verify]. rewrite lsh1_pred by lia. unfold MaxPeriod.
  rewrite lsh1_pow by lia. pose proof (pow2_u64 (S d) Hd).
  destruct (Z.leb_spec (Z.of_nat (2 ^ S d)) (Z.of_nat p)); [lia|].
  destruct (bool_decide (HashPair l r = pk)); [|done]. cbn [negb andb].
  destruct (Nat.ltb_spec p (2 ^ d)), (Z.ltb_spec (Z.of_nat p) (Z.of_nat (2 ^ d))); try lia; [done|].
  rewrite u64_small by lia. do 2 f_equal. lia.
Qed.

Lemma half_period d p : (p < 2 ^ S d)%nat -> (p <? 2 ^ d)%nat = false -> (p - 2 ^ d < 2 ^ d)%nat.
Proof using Type. rewrite Nat.pow_succ_r', Nat.ltb_ge. lia. Qed.

Lemma tree_at_verifies d : forall seed t m,
  length seed = 32%nat -> (d < 64)%nat -> (t < 2 ^ d)%nat ->
  Verify (tree_at d seed t m) (Z.of_nat t) (publicKeyFromSeed d seed) m = true.
Proof.
  induction d as [|d IH]; intros seed t m Hs Hd Ht.
  - simpl in Ht. replace t with O by lia. simpl. by apply edVerify_sign.
  - cbn [tree_at]. rewrite Verify_SumX by done.
    rewrite bool_decide_true by done. cbn [andb].
    destruct (t <? 2 ^ d)%nat eqn:E.
    + apply IH; eauto with kes; [lia|]. by apply Nat.ltb_lt.
    + apply IH; eauto with kes; [lia|]. by apply half_period.
Qed.

(** ** What a key holds *)

Lemma held_bounds d : forall t h i, Some (h, i) ∈ held d t -> (h <= d /\ i + 2 ^ h <= 2 ^ d)%nat.
Proof using Type.
  induction d as [|d IH]; intros t h i; cbn [held].
  - rewrite list_elem_of_singleton. intros [= -> ->]. simpl. lia.
  - rewrite Nat.pow_succ_r'. destruct (Nat.ltb t (2 ^ d)).
    + rewrite elem_of_app, list_elem_of_singleton. intros [Hin|[= -> ->]]; [|lia].
      apply IH in Hin. lia.
    + rewrite elem_of_app, list_elem_of_singleton. intros [Hin|]; [|done].
      apply list_elem_of_fmap in Hin as ([[h' i']|] & [= -> ->] & Hin). apply IH in Hin. lia.
Qed.

Lemma fmap_seq_add n k : forall i, (fun i => (i + n)%nat) <$> seq i k = seq (i + n) k.
Proof using Type.
  induction k as [|k IH]; intros i; [done|]. cbn [seq]. rewrite fmap_cons, IH. done.
Qed.

Lemma shift_leaves n l : (shift n <$> l) ≫= leaves = (fun i => (i + n)%nat) <$> (l ≫= leaves).
Proof using Type.
  induction l as [|x l IH]; [done|].
  rewrite fmap_cons, !bind_cons, IH, fmap_app. f_equal.
  destruct x as [[h i]|]; [|done]. cbn [shift leaves]. by rewrite fmap_seq_add.
Qed.

(** The nodes held at period [t] cover the leaves from [t] on, each once. *)
Lemma held_leaves d : forall t, (t < 2 ^ d)%nat -> held d t ≫= leaves = seq t (2 ^ d - t).
Proof using Type.
  induction d as [|d IH]; intros t Ht.
  - simpl in *. by replace t with O by lia.
  - cbn [held]. rewrite Nat.pow_succ_r' in *. destruct (Nat.ltb_spec t (2 ^ d)).
    + rewrite bind_app, IH by done. rewrite bind_singleton. cbn [leaves].
      replace (2 * 2 ^ d - t)%nat with ((2 ^ d - t) + 2 ^ d)%nat by lia.
      rewrite seq_app. do 2 f_equal. lia.
    + rewrite bind_app, shift_leaves, IH, fmap_seq_add, bind_singleton, app_nil_r by lia. f_equal; lia.
Qed.

(** The secrets in a raw key are the seeds of the nodes held, and zeros. *)
Definition slot_content (d : nat) (seed : bytes) (n : option (nat * nat)) : bytes :=
  match n with Some (h, i) => nodeSeed d seed h i | None => replicate 32 0 end.

Lemma slot_content_left d seed n :
  (forall h i, n = Some (h, i) -> (h <= d /\ i + 2 ^ h <= 2 ^ d)%nat) -> n <> None ->
  slot_content (S d) seed n = slot_content d (expandSeed seed 1) n.
Proof.
  intros Hn Hs. destruct n as [[h i]|]; [|done]. destruct (Hn h i eq_refl).
  cbn [slot_content nodeSeed]. pose proof (Nat.pow_nonzero 2 h ltac:(lia)).
  destruct (Nat.eqb_spec h (S d)); [lia|]. destruct (Nat.ltb_spec i (2 ^ d)); [done|lia].
Qed.

Lemma slot_content_right d seed n :
  (forall h i, n = Some (h, i) -> (h <= d)%nat) ->
  slot_content (S d) seed (shift (2 ^ d) n) = slot_content d (expandSeed seed 2) n.
Proof.
  intros Hn. destruct n as [[h i]|]; [|done]. specialize (Hn h i eq_refl).
  cbn [shift slot_content nodeSeed].
  destruct (Nat.eqb_spec h (S d)); [lia|]. destruct (Nat.ltb_spec (i + 2 ^ d) (2 ^ d)); [lia|].
  f_equal. lia.
Qed.

Lemma nodeSeed_root d seed : nodeSeed d seed d 0 = seed.
Proof. destruct d; [done|]. cbn [nodeSeed]. by rewrite Nat.eqb_refl. Qed.

Lemma secretSlots_key_at d : forall seed t,
  length seed = 32%nat -> secretSlots d (key_at d seed t) = slot_content d seed <$> held d t.
Proof.
  induction d as [|d IH]; intros seed t Hs; [done|].
  cbn [secretSlots key_at held].
  destruct (Nat.ltb_spec t (2 ^ d)); rewrite take_app_length' by (symmetry; apply key_at_length; eauto with kes);
    rewrite slice_app by (rewrite ?key_at_length by eauto with kes;
                          rewrite ?length_replicate, ?expandSeed_length; lia);
    rewrite IH, fmap_app by eauto with kes; f_equal.
  - apply list_fmap_ext. intros k x Hx. apply list_elem_of_lookup_2 in Hx.
    destruct x as [[h i]|]; [|done]. symmetry. apply slot_content_left; [|done].
    intros h' i' [= <- <-]. by eapply held_bounds.
  - simpl. f_equal. pose proof (Nat.pow_nonzero 2 d ltac:(lia)).
    destruct (Nat.eqb_spec d (S d)); [lia|]. destruct (Nat.ltb_spec (2 ^ d) (2 ^ d)); [lia|].
    replace (2 ^ d - 2 ^ d)%nat with O by lia. by rewrite nodeSeed_root.
  - rewrite <- list_fmap_compose. apply list_fmap_ext. intros k x Hx. apply list_elem_of_lookup_2 in Hx.
    symmetry. apply slot_content_right. intros h i ->. by eapply held_bounds.
Qed.

(** The public key recomputed from the raw key. *)
Lemma publicKeyInternal_key_at d seed t :
  length seed = 32%nat -> publicKeyInternal (S d) (key_at (S d) seed t) = publicKeyFromSeed (S d) seed.
Proof.
  intros Hs. cbn [publicKeyInternal key_at publicKeyFromSeed].
  destruct (Nat.ltb_spec t (2 ^ d)).
  all: match goal with |- context [slice _ _ (?k ++ ?z ++ ?a ++ ?b)] =>
    rewrite (app_assoc k z), slice_app, (app_assoc (k ++ z)), slice_app_last;
      autorewrite with kes; rewrite ?key_at_length, ?publicKey_length; eauto with kes; lia end.
Qed.

(** ** The key as a whole *)

(** The key of period [t]. *)
Definition key_of (d : nat) (seed : bytes) (t : nat) : SecretKey :=
  mkSecretKey d (Z.of_nat t) (key_at d seed t) false (Some (publicKeyFromSeed d seed)).

Lemma KeyGen_key_of d seed :
  length seed = 32%nat -> (d <= MaxKeyGenDepth)%nat ->
  KeyGen d seed = Ok (key_of d seed 0, publicKeyFromSeed d seed).
Proof.
  intros Hs Hd. unfold KeyGen, kesSeedSize. rewrite Hs, Nat.eqb_refl. cbn [negb].
  destruct (Nat.ltb_spec MaxKeyGenDepth d); [lia|].
  rewrite keyGenInternal_key_at by (rewrite ?length_replicate; done). done.
Qed.

Lemma key_of_structure d seed t :
  length seed = 32%nat -> (d <= MaxDepth)%nat ->
  validateSecretKeyStructure d (key_at d seed t) = true.
Proof.
  intros. unfold validateSecretKeyStructure. rewrite key_at_length, Nat.eqb_refl by done.
  destruct (Nat.ltb_spec MaxDepth d); [lia|done].
Qed.

(** [Update] on the key of a period: the next key, or the refusal at the last. *)
Lemma Update_key_of d seed t :
  length seed = 32%nat -> (d <= MaxDepth)%nat -> (t < 2 ^ d)%nat ->
  Update (key_of d seed t) =
  if (S t <? 2 ^ d)%nat then (Ok (key_of d seed (S t)), Zeroize (key_of d seed t))
  else (Err ErrKeyExhausted, key_of d seed t).
Proof.
  intros Hs Hd Ht. unfold MaxDepth in Hd. pose proof (pow2_u64 d ltac:(lia)) as Hp.
  unfold Update. cbn [Data dataNil backing key_of Depth Period publicKey].
  rewrite key_of_structure by (unfold MaxDepth; done || lia). cbn [negb].
  unfold MaxPeriod. rewrite lsh1_pow by lia. rewrite u64_small by lia.
  replace (Z.of_nat t + 1) with (Z.of_nat (S t)) by lia.
  destruct (Nat.ltb_spec (S t) (2 ^ d)), (Z.leb_spec (Z.of_nat (2 ^ d)) (Z.of_nat (S t))); try lia; [|done].
  rewrite updateInternal_key_at by (done || lia). done.
Qed.

Lemma evolve_key_of d seed n : forall t,
  length seed = 32%nat -> (d <= MaxDepth)%nat -> (t < 2 ^ d)%nat ->
  evolve n (key_of d seed t) =
  if (t + n <? 2 ^ d)%nat then Ok (key_of d seed (t + n)) else Err ErrKeyExhausted.
Proof.
  induction n as [|n IH]; intros t Hs Hd Ht; cbn [evolve].
  - rewrite Nat.add_0_r. destruct (Nat.ltb_spec t (2 ^ d)); [done|lia].
  - rewrite Update_key_of by done. destruct (Nat.ltb_spec (S t) (2 ^ d)); cbn [fst].
    + simpl mbind. rewrite IH by done. by replace (t + S n)%nat with (S t + n)%nat by lia.
    + simpl. destruct (Nat.ltb_spec (t + S n) (2 ^ d)); [lia|done].
Qed.

Lemma Sign_key_of d seed t p m :
  length seed = 32%nat -> (d <= MaxDepth)%nat -> (t < 2 ^ d)%nat ->
  Sign (key_of d seed t) p m =
  if Z.of_nat (2 ^ d) <=? p then Err ErrPeriodTooLarge
  else if p =? Z.of_nat t then Ok (sig_at d seed t m) else Err ErrWrongPeriod.
Proof.
  intros Hs Hd Ht. unfold MaxDepth in Hd.
  unfold Sign. cbn [Data dataNil backing key_of Depth Period publicKey].
  rewrite key_of_structure by (unfold MaxDepth; done || lia). cbn [negb].
  unfold MaxPeriod. rewrite lsh1_pow by lia.
  destruct (Z.leb_spec (Z.of_nat (2 ^ d)) p); [done|].
  destruct (Z.eqb_spec p (Z.of_nat t)) as [->|]; [|done]. cbn [negb].
  rewrite signInternal_sig_at; try done; [lia|].
  rewrite length_replicate. unfold SigmaSize, PublicKeySize. lia.
Qed.

Lemma Verify_leaf d : forall s t m seed,
  length seed = 32%nat -> (d < 64)%nat -> (t < 2 ^ d)%nat -> sig_wf d s ->
  Verify s (Z.of_nat t) (publicKeyFromSeed d seed) m = true ->
  edVerify (edPublic (nodeSeed d seed 0 t)) m (leafSig s) = true \/ collision.
Proof.
  induction d as [|d IH]; intros [sig|depth sigma l r] t m seed Hs Hd Ht Hw HV; try done.
  - left. simpl in Ht. replace t with O in HV by lia. done.
  - destruct Hw as (-> & Hw & Hl & Hr). rewrite Verify_SumX in HV by done.
    apply andb_prop in HV as [Hh HV]. apply bool_decide_eq_true in Hh.
    cbn [publicKeyFromSeed] in Hh. cbn [nodeSeed leafSig].
    change (0 =? S d)%nat with false. cbn iota.
    set (l' := publicKeyFromSeed d (expandSeed seed 1)) in *.
    set (r' := publicKeyFromSeed d (expandSeed seed 2)) in *.
    destruct (decide ((l, r) = (l', r'))) as [E|NE].
    + injection E as -> ->. destruct (t <? 2 ^ d)%nat eqn:Et.
      * apply Nat.ltb_lt in Et. eapply IH; eauto with kes. lia.
      * eapply IH; eauto with kes; [lia|]. by apply half_period.
    + right. exists l, r, l', r'. subst l' r'. repeat split; eauto with kes.
Qed.

(** ** Properties *)

(** Sign and verify. From any 32-byte seed and at any depth up to the
    generation limit, key generation succeeds; evolving the key [t] times
    reaches period [t] with the public key unchanged, cached or recomputed; its
    signature at [t] parses and verifies under that public key, at the Cardano
    depth through [VerifySignedKES] too; and the key signs at no other period. *)
Theorem kes_sign_verify depth seed t m :
  length seed = 32%nat -> (1 <= depth <= MaxKeyGenDepth)%nat -> (t < 2 ^ depth)%nat ->
  exists sk pk skt sig proof,
    KeyGen depth seed = Ok (sk, pk) /\
    evolve t sk = Ok skt /\
    PublicKey skt = Some pk /\
    PublicKey (mkSecretKey depth (Period skt) (backing skt) false None) = Some pk /\
    Sign skt (Z.of_nat t) m = Ok sig /\
    NewSumKesFromBytes depth sig = Ok proof /\
    Verify proof (Z.of_nat t) pk m = true /\
    (depth = CardanoKesDepth -> VerifySignedKES pk (Z.of_nat t) m sig = true) /\
    (forall p m', 0 <= p -> p <> Z.of_nat t -> is_ok (Sign skt p m') = false).
Proof.
  intros Hs Hd Ht.
  assert (Hm : (depth <= MaxDepth)%nat) by (unfold MaxKeyGenDepth, MaxDepth in *; lia).
  exists (key_of depth seed 0), (publicKeyFromSeed depth seed), (key_of depth seed t),
    (sig_at depth seed t m), (tree_at depth seed t m).
  rewrite KeyGen_key_of, evolve_key_of, Nat.add_0_l by (done || lia).
  destruct (Nat.ltb_spec t (2 ^ depth)) as [_|]; [|lia].
  unfold PublicKey. cbn [Data dataNil backing key_of Depth Period publicKey].
  rewrite key_of_structure by done. cbn [negb]. rewrite Sign_key_of by done.
  destruct (Z.leb_spec (Z.of_nat (2 ^ depth)) (Z.of_nat t)); [lia|]. rewrite Z.eqb_refl.
  assert (HN : NewSumKesFromBytes depth (sig_at depth seed t m) = Ok (tree_at depth seed t m)).
  { rewrite <- tree_at_sig. destruct depth as [|d]; [lia|].
    apply newSumKes_serialize; [done|]. by apply tree_at_wf. }
  assert (HV : Verify (tree_at depth seed t m) (Z.of_nat t) (publicKeyFromSeed depth seed) m = true).
  { apply tree_at_verifies; try done. unfold MaxDepth in Hm. lia. }
  repeat split; try done.
  - f_equal. destruct depth as [|d]; [lia|]. apply publicKeyInternal_key_at; done.
  - intros ->. unfold VerifySignedKES. by rewrite HN.
  - intros p m' Hp Hne. rewrite Sign_key_of by done.
    destruct (Z.leb_spec (Z.of_nat (2 ^ depth)) p), (Z.eqb_spec p (Z.of_nat t)); done.
Qed.

(** Soundness of verification. A signature that parses at a depth and
    verifies at period [t] under the public key of a seed carries, at its leaf,
    a signature of the message that the Ed25519 verifier accepts under the key
    of leaf [t] of that seed's tree; otherwise two different key pairs with one
    hash are exhibited. *)
Theorem kes_verify_sound depth seed t m sig proof :
  length seed = 32%nat -> (t < 2 ^ depth)%nat ->
  NewSumKesFromBytes depth sig = Ok proof ->
  Verify proof (Z.of_nat t) (publicKeyFromSeed depth seed) m = true ->
  edVerify (edPublic (nodeSeed depth seed 0 t)) m (leafSig proof) = true \/ collision.
Proof.
  intros Hs Ht HN HV. destruct depth as [|d]; [done|].
  apply newSumKes_inv in HN as (Hd & Hw & _). unfold MaxDepth in Hd.
  eapply Verify_leaf; eauto. lia.
Qed.

(** C22. Forward security of evolution. Evolving past period [t] leaves a key
    whose secret slots are exactly the seeds of tree nodes covering the leaves
    after [t], each leaf once, and zeros; the old key's array is cleared and
    the old key neither signs nor evolves; the public key is unchanged. *)
Theorem kes_forward_secure depth seed t :
  length seed = 32%nat -> (depth <= MaxKeyGenDepth)%nat -> (S t < 2 ^ depth)%nat ->
  exists sk pk skt next old,
    KeyGen depth seed = Ok (sk, pk) /\
    evolve t sk = Ok skt /\
    Update skt = (Ok next, old) /\
    secretSlots depth (backing next) = slot_content depth seed <$> held depth (S t) /\
    held depth (S t) ≫= leaves = seq (S t) (2 ^ depth - S t) /\
    backing old = replicate (length (backing skt)) 0 /\
    (forall p m, Sign old p m = Err ErrKeyErased) /\
    Update old = (Err ErrKeyErased, old) /\
    PublicKey old = Some pk /\ PublicKey next = Some pk.
Proof.
  intros Hs Hd Ht.
  assert (Hm : (depth <= MaxDepth)%nat) by (unfold MaxKeyGenDepth, MaxDepth in *; lia).
  exists (key_of depth seed 0), (publicKeyFromSeed depth seed), (key_of depth seed t),
    (key_of depth seed (S t)), (Zeroize (key_of depth seed t)).
  rewrite KeyGen_key_of, evolve_key_of, Nat.add_0_l by (done || lia).
  destruct (Nat.ltb_spec t (2 ^ depth)) as [_|]; [|lia].
  rewrite Update_key_of by (done || lia).
  destruct (Nat.ltb_spec (S t) (2 ^ depth)) as [_|]; [|lia].
  repeat split.
  - by apply secretSlots_key_at.
  - by apply held_leaves.
  - cbn [Zeroize Data dataNil backing key_of]. unfold wipe.
    rewrite take_0, Nat.add_0_l, drop_ge by lia. by rewrite app_nil_r.
  - unfold PublicKey. cbn [Data dataNil backing key_of Depth publicKey].
    by rewrite key_of_structure.
Qed.

(** Lifetime of a key. A generated key evolves exactly [2^depth - 1] times:
    [t] updates succeed when [t < 2^depth] and end in the exhausted error
    otherwise, and the refused update leaves the key as it was. *)
Theorem kes_lifetime depth seed t :
  length seed = 32%nat -> (depth <= MaxKeyGenDepth)%nat ->
  exists sk pk, KeyGen depth seed = Ok (sk, pk) /\
    ((t < 2 ^ depth)%nat -> exists skt, evolve t sk = Ok skt /\ Period skt = Z.of_nat t /\
      (S t = (2 ^ depth)%nat -> Update skt = (Err ErrKeyExhausted, skt))) /\
    ((2 ^ depth <= t)%nat -> evolve t sk = Err ErrKeyExhausted).
Proof.
  intros Hs Hd.
  assert (Hm : (depth <= MaxDepth)%nat) by (unfold MaxKeyGenDepth, MaxDepth in *; lia).
  assert (Hp : (0 < 2 ^ depth)%nat) by (apply Nat.neq_0_lt_0, Nat.pow_nonzero; lia).
  exists (key_of depth seed 0), (publicKeyFromSeed depth seed).
  rewrite KeyGen_key_of, evolve_key_of, Nat.add_0_l by done.
  destruct (Nat.ltb_spec t (2 ^ depth)); (split; [done|split; [|lia || done]]); [|lia].
  intros _. exists (key_of depth seed t). repeat split. intros Hl.
  rewrite Update_key_of by done. destruct (Nat.ltb_spec (S t) (2 ^ depth)); [lia|done].
Qed.

End Proofs.

(** Signature codec. For every depth from 1 to [MaxDepth], the parser
    accepts a byte string with a result exactly when that result is a
    well-formed signature of the depth and the byte string is its
    serialization; at any other depth it accepts nothing. *)
Theorem kes_signature_codec depth b s :
  NewSumKesFromBytes depth b = Ok s <->
  (1 <= depth <= MaxDepth)%nat /\ sig_wf depth s /\ serialize s = b.
Proof.
  destruct depth as [|d]; simpl.
  - split; [done|lia].
  - split.
    + intros E. apply newSumKes_inv in E as (? & ? & ?). repeat split; try done. lia.
    + intros (Hd & Hw & <-). apply newSumKes_serialize; [lia|done].
Qed.

(** Signature size without overflow. For every 64-bit depth, the size is
    [64 + 64 * depth] when that fits an [int], and -1 otherwise, although the
    intermediate products wrap. *)
Theorem kes_signature_size depth :
  0 <= depth <= MaxUint64 ->
  SignatureSize depth = if 64 + 64 * depth <=? MaxInt then 64 + 64 * depth else -1.
Proof. apply SignatureSize_eq. Qed.

(** ** Witnesses *)

(** A toy hash and a toy signature scheme with the lengths and the completeness
    that the laws ask for. *)
Definition toyHash (x : bytes) : bytes := replicate 32 (foldr Z.add 0 x mod 256).

#[export] Instance toyCrypto : KesCrypto := {
  blake2b := toyHash;
  edPublic seed := seed;
  edSign seed _ := seed ++ seed;
  edVerify pk _ sig := bool_decide (sig = pk ++ pk)
}.

#[export] Instance toyCryptoLaws : KesCryptoLaws.
Proof.
  split; simpl; intros; try done.
  - rewrite length_app. lia.
  - by apply bool_decide_eq_true.
Qed.

Definition toySeed : bytes := replicate 32 7.

(** An instance: depth 2, period 3. *)
Lemma kes_sign_verify_witness :
  exists sk pk skt sig proof,
    KeyGen 2 toySeed = Ok (sk, pk) /\ evolve 3 sk = Ok skt /\
    Sign skt 3 [1; 2] = Ok sig /\ NewSumKesFromBytes 2 sig = Ok proof /\
    Verify proof 3 pk [1; 2] = true.
Proof.
  destruct (kes_sign_verify 2 toySeed 3 [1; 2]) as (sk & pk & skt & sig & proof & H);
    [reflexivity|unfold MaxKeyGenDepth; lia|simpl; lia|].
  exists sk, pk, skt, sig, proof. destruct H as (? & ? & ? & ? & ? & ? & ? & ? & ?). auto.
Defined.

(** An instance: a signature of depth 1 at period 1. *)
Lemma kes_verify_sound_witness :
  edVerify (edPublic (nodeSeed 1 toySeed 0 1)) [5] (leafSig (tree_at 1 toySeed 1 [5])) = true
  \/ collision.
Proof.
  apply (kes_verify_sound 1 toySeed 1 [5] (sig_at 1 toySeed 1 [5])); [reflexivity|simpl; lia| |].
  - vm_compute. reflexivity.
  - vm_compute. reflexivity.
Defined.

(** Witness of C22: depth 2, from period 1 to period 2. *)
Lemma kes_forward_secure_witness :
  exists sk pk skt next old,
    KeyGen 2 toySeed = Ok (sk, pk) /\ evolve 1 sk = Ok skt /\ Update skt = (Ok next, old) /\
    secretSlots 2 (backing next) = slot_content 2 toySeed <$> [Some (0, 2); Some (0, 3); None]%nat.
Proof.
  destruct (kes_forward_secure 2 toySeed 1) as (sk & pk & skt & next & old & H);
    [reflexivity|unfold MaxKeyGenDepth; lia|simpl; lia|].
  exists sk, pk, skt, next, old. destruct H as (? & ? & ? & ? & _). auto.
Defined.

(** An instance: depth 1. *)
Lemma kes_lifetime_witness :
  exists sk pk, KeyGen 1 toySeed = Ok (sk, pk) /\ evolve 2 sk = Err ErrKeyExhausted.
Proof.
  destruct (kes_lifetime 1 toySeed 2) as (sk & pk & H1 & _ & H2);
    [reflexivity|unfold MaxKeyGenDepth; lia|].
  exists sk, pk. split; [exact H1|]. apply H2. simpl. lia.
Defined.

(** An instance: the Cardano depth. *)
Lemma kes_signature_size_witness : SignatureSize 6 = 448.
Proof. rewrite (kes_signature_size 6); [reflexivity|unfold MaxUint64; lia]. Defined.
