(* ===== verification/Vrf.v ===== *)
(** * The verifiable random function (src/vrf/vrf.go)

    Key generation, proving and verifying of ECVRF-ED25519-SHA512-Elligator2,
    the batch encoding of points, the hash to the curve with its Legendre
    symbol, and the VRF inputs of the two Praos variants. SHA-512 and the
    packages edwards25519 and edwards25519/field are the interface [VrfCrypto];
    what the code relies on of them is [VrfLaws]. The wiping of secrets is not
    modelled. *)

From Stdlib Require Import Field.
From S2P Require Import Prelude Kes.

(** The operations of the curve and field packages that the code calls. A
    [nil] result with an error is [None]. *)
Class VrfCrypto := {
  sha512 : bytes -> bytes;
  (* edwards25519/field *)
  Element : Type;
  fzero : Element;
  fone : Element;
  fadd : Element -> Element -> Element;
  fsub : Element -> Element -> Element;
  fmul : Element -> Element -> Element;
  fneg : Element -> Element;
  fsquare : Element -> Element;
  finvert : Element -> Element;
  fmult32 : Element -> Z -> Element;
  fsetBytes : bytes -> Element;
  fbytes : Element -> bytes;
  isNegative : Element -> bool;
  (* edwards25519.Scalar *)
  Scalar : Type;
  setBytesWithClamping : bytes -> option Scalar;
  setUniformBytes : bytes -> option Scalar;
  setCanonicalBytes : bytes -> option Scalar;
  scalarBytes : Scalar -> bytes;
  scalarAdd : Scalar -> Scalar -> Scalar;
  scalarMultiply : Scalar -> Scalar -> Scalar;
  (* edwards25519.Point *)
  Point : Type;
  identityPoint : Point;
  generator : Point;
  pointAdd : Point -> Point -> Point;
  pointNegate : Point -> Point;
  scalarMult : Scalar -> Point -> Point;
  multByCofactor : Point -> Point;
  pointEqual : Point -> Point -> bool;
  setBytes : bytes -> option Point;
  pointBytes : Point -> bytes;
  extendedCoordinates : Point -> Element * Element * Element
}.

Definition Suite : Z := 4.
Definition ProofSize : nat := 80.
Definition OutputSize : nat := 64.
Definition SeedSize : nat := 32.
Definition VrfPublicKeySize : nat := 32.

Inductive vrfError :=
| ErrSeedLength | ErrSecretKeyLength | ErrScalar | ErrNonCanonicalEncoding | ErrPoint | ErrSmallOrder
| ErrProofVerificationFailed | ErrProofSize | ErrGammaCanonical | ErrGammaEncoding | ErrNonCanonicalScalar
| ErrEta0Length | ErrSeedConstantLength | ErrNoBytes.

Abbreviation vres A := (result vrfError A).

Definition of_option {A} (e : vrfError) (o : option A) : vres A :=
  match o with Some a => Ok a | None => Err e end.

(** [copy] into an array of [n] bytes that is zero. *)
Definition fill (n : nat) (bs : bytes) : bytes := take n (bs ++ replicate n 0).

(** ** Inputs *)

Section Inputs.
Context `{KesCrypto}.

(** [slot] is an [int64]; the conversion to [uint64] wraps. *)
Definition MkInputVrf (slot : Z) (eta0 : bytes) : vres bytes :=
  if negb (blen eta0 =? 32) then Err ErrEta0Length
  else Ok (blake2b (be_encode 8 (u64 slot) ++ eta0)).

Definition mkNonceFromNumber (n : Z) : bytes := blake2b (be_encode 8 n).

Definition SeedEta : bytes := mkNonceFromNumber 0.
Definition SeedL : bytes := mkNonceFromNumber 1.

Definition MkSeedTPraos (slot : Z) (eta0 seedConstant : bytes) : vres bytes :=
  if negb (blen seedConstant =? 32) then Err ErrSeedConstantLength else
  base ← MkInputVrf slot eta0;
  Ok (zip_with Z.lxor base seedConstant).
End Inputs.

(** ** Encodings *)

(** Whether the y coordinate of a 32-byte encoding is below 2^255 - 19. *)
Definition isCanonicalY (enc : bytes) : bool :=
  if negb (blen enc =? 32) || negb (Z.land (enc !!! 31%nat) 127 =? 127) || (enc !!! 0%nat <? 237) then true
  else negb (forallb (fun b => b =? 255) (slice 1 31 enc)).

Section Vrf.
Context `{VrfCrypto}.

(** [prefix[i]]: the product of the Z coordinates up to [i]. *)
Fixpoint prefixProducts (acc : option Element) (zs : list Element) : list Element :=
  match zs with
  | [] => []
  | z :: zs =>
    let p := match acc with None => z | Some a => fmul a z end in
    p :: prefixProducts (Some p) zs
  end.

Definition elementAt (l : list Element) (i : nat) : Element := nth i l fzero.

(** One point with the inverse of its Z coordinate. *)
Definition encodeWith (X Y zInv : Element) : bytes :=
  let x := fmul X zInv in
  let y := fmul Y zInv in
  alter (fun b => Z.lor b (if isNegative x then 128 else 0)) 31%nat (fbytes y).

(** The loop from the last point down to the first, [n] points to go. *)
Fixpoint encodeLoop (n : nat) (inv : Element) (xs ys zs prefix : list Element) (out : list bytes) : list bytes :=
  match n with
  | O => out
  | S i =>
    let '(zInv, inv) :=
      match i with
      | O => (inv, inv)
      | S j => (fmul inv (elementAt prefix j), fmul inv (elementAt zs i))
      end in
    encodeLoop i inv xs ys zs prefix (encodeWith (elementAt xs i) (elementAt ys i) zInv :: out)
  end.

Definition encodePoints (points : list Point) : list bytes :=
  let cs := extendedCoordinates <$> points in
  let xs := (fun '(X, _, _) => X) <$> cs in
  let ys := (fun '(_, Y, _) => Y) <$> cs in
  let zs := (fun '(_, _, Z) => Z) <$> cs in
  let prefix := prefixProducts None zs in
  encodeLoop (length points) (finvert (elementAt prefix (length points - 1))) xs ys zs prefix [].

(** ** Hash to the curve *)

Definition chi25519 (z : Element) : Element :=
  let t0 := fsquare z in
  let t1 := fmul t0 z in
  let t0 := fsquare t1 in
  let t2 := fsquare t0 in
  let t2 := fsquare t2 in
  let t2 := fmul t2 t0 in
  let t1 := fmul t2 z in
  let t2 := fsquare t1 in
  let t2 := Nat.iter 4 fsquare t2 in
  let t1 := fmul t2 t1 in
  let t2 := fsquare t1 in
  let t2 := Nat.iter 9 fsquare t2 in
  let t2 := fmul t2 t1 in
  let t3 := fsquare t2 in
  let t3 := Nat.iter 19 fsquare t3 in
  let t2 := fmul t3 t2 in
  let t2 := fsquare t2 in
  let t2 := Nat.iter 9 fsquare t2 in
  let t1 := fmul t2 t1 in
  let t2 := fsquare t1 in
  let t2 := Nat.iter 49 fsquare t2 in
  let t2 := fmul t2 t1 in
  let t3 := fsquare t2 in
  let t3 := Nat.iter 99 fsquare t3 in
  let t2 := fmul t3 t2 in
  let t2 := fsquare t2 in
  let t2 := Nat.iter 49 fsquare t2 in
  let t1 := fmul t2 t1 in
  let t1 := fsquare t1 in
  let t1 := Nat.iter 3 fsquare t1 in
  fmul t1 t0.

Definition curve25519A : Z := 486662.

Definition ge25519FromUniform (r : bytes) : vres (Point * bytes) :=
  let s := fill 32 r in
  let xSign := Z.land (s !!! 31%nat) 128 in
  let s := alter (fun b => Z.land b 127) 31%nat s in
  let rr2 := fsetBytes s in
  let rr2 := fsquare rr2 in
  let rr2 := fadd rr2 rr2 in
  let rr2 := fadd rr2 fone in
  let rr2 := finvert rr2 in
  let aElement := fmult32 fone curve25519A in
  let x := fneg (fmult32 rr2 curve25519A) in
  let x2 := fmul x x in
  let x3 := fmul x x2 in
  let e := fadd x3 x in
  let x2 := fmult32 x2 curve25519A in
  let e := fadd x2 e in
  let s := fbytes (chi25519 e) in
  let eIsMinus1 := Z.testbit (s !!! 1%nat) 0 in
  let negx := fneg x in
  let x := if eIsMinus1 then negx else x in
  let x2 := if eIsMinus1 then aElement else fzero in
  let x := fsub x x2 in
  let yed := fmul (fsub x fone) (finvert (fadd x fone)) in
  let s := alter (fun b => Z.lor b xSign) 31%nat (fbytes yed) in
  p3 ← of_option ErrPoint (setBytes s);
  let p3 := multByCofactor p3 in
  Ok (p3, pointBytes p3).

Definition hashToCurveElligator2 (Y : Point) (alpha : bytes) : vres (Point * bytes) :=
  let rString := sha512 ([Suite] ++ [1] ++ pointBytes Y ++ alpha) in
  ge25519FromUniform (alter (fun b => Z.land b 127) 31%nat rString).

(** ** Proofs *)

(** The challenge; [None] is the panic of [SetCanonicalBytes]. *)
Definition hashPoints (P1 P2 P3 P4 : bytes) : option Scalar :=
  let str := [Suite; 2] ++ fill 32 P1 ++ fill 32 P2 ++ fill 32 P3 ++ fill 32 P4 in
  setCanonicalBytes (fill 32 (take 16 (sha512 str))).

Definition cofactorGammaToHash (cofactorGamma : bytes) : bytes :=
  sha512 ([Suite; 3] ++ fill 32 cofactorGamma).

Definition gammaToHash (Gamma : Point) : bytes := cofactorGammaToHash (pointBytes (multByCofactor Gamma)).

(** The proof as Gamma and the two 32-byte arrays. *)
Definition decodeProofArrays (pi : bytes) : vres (Point * bytes * bytes) :=
  if negb (length pi =? ProofSize)%nat then Err ErrProofSize
  else if negb (isCanonicalY (take 32 pi)) then Err ErrGammaCanonical
  else
    gamma ← of_option ErrGammaEncoding (setBytes (take 32 pi));
    Ok (gamma, fill 32 (slice 32 48 pi), fill 32 (slice 48 80 pi)).

Definition ProofToHash (pi : bytes) : vres bytes :=
  '(Gamma, _, _) ← decodeProofArrays pi;
  Ok (gammaToHash Gamma).

Definition VrfKeyGen (seed : bytes) : vres (bytes * bytes) :=
  if negb (length seed =? SeedSize)%nat then Err ErrSeedLength else
  xScalar ← of_option ErrScalar (setBytesWithClamping (take 32 (sha512 seed)));
  Ok (pointBytes (scalarMult xScalar generator), seed).

Definition Prove (secretKey alpha : bytes) : vres (bytes * bytes) :=
  if negb (length secretKey =? SeedSize)%nat then Err ErrSecretKeyLength else
  let skHash := sha512 secretKey in
  xScalar ← of_option ErrScalar (setBytesWithClamping (take 32 skHash));
  let Y := scalarMult xScalar generator in
  '(H, hBytes) ← hashToCurveElligator2 Y alpha;
  let Gamma := scalarMult xScalar H in
  let nonceInput := fill 32 (slice 32 64 skHash) ++ fill 32 hBytes in
  kScalar ← of_option ErrScalar (setUniformBytes (sha512 nonceInput));
  let U := scalarMult kScalar generator in
  let V := scalarMult kScalar H in
  let encoded := encodePoints [Gamma; U; V] in
  cScalar ← of_option ErrScalar (hashPoints hBytes (encoded !!! 0%nat) (encoded !!! 1%nat) (encoded !!! 2%nat));
  let sScalar := scalarAdd (scalarMultiply cScalar xScalar) kScalar in
  let proof := fill 32 (encoded !!! 0%nat) ++ fill 16 (take 16 (scalarBytes cScalar)) ++ fill 32 (scalarBytes sScalar) in
  Ok (proof, gammaToHash Gamma).

(** [VarTimeDoubleScalarBaseMult] and [VarTimeMultiScalarMult] of two terms. *)
Definition doubleScalarBaseMult (a : Scalar) (A : Point) (b : Scalar) : Point :=
  pointAdd (scalarMult a A) (scalarMult b generator).

Definition multiScalarMult (a : Scalar) (A : Point) (b : Scalar) (B : Point) : Point :=
  pointAdd (scalarMult a A) (scalarMult b B).

Definition verify (Y : Point) (pi alpha : bytes) : vres (bytes * bool) :=
  '(Gamma, cArr, sArr) ← decodeProofArrays pi;
  '(H, hBytes) ← hashToCurveElligator2 Y alpha;
  cScalar ← of_option ErrScalar (setUniformBytes (cArr ++ replicate 32 0));
  sScalar ← of_option ErrNonCanonicalScalar (setCanonicalBytes sArr);
  let U := doubleScalarBaseMult cScalar (pointNegate Y) sScalar in
  let V := multiScalarMult sScalar H cScalar (pointNegate Gamma) in
  let encoded := encodePoints [Gamma; U; V; multByCofactor Gamma] in
  cprime ← of_option ErrScalar (hashPoints hBytes (encoded !!! 0%nat) (encoded !!! 1%nat) (encoded !!! 2%nat));
  Ok (cofactorGammaToHash (encoded !!! 3%nat), bool_decide (cArr = scalarBytes cprime)).

Definition VerifyAndHash (publicKey proof msg : bytes) : vres bytes :=
  if negb (isCanonicalY publicKey) then Err ErrNonCanonicalEncoding else
  Y ← of_option ErrPoint (setBytes publicKey);
  if pointEqual (multByCofactor Y) identityPoint then Err ErrSmallOrder else
  '(output, ok) ← verify Y proof msg;
  if ok : bool then Ok output else Err ErrProofVerificationFailed.

Definition VrfVerify (vrfKey proof expectedOutput msg : bytes) : vres bool :=
  output ← VerifyAndHash vrfKey proof msg;
  Ok (bool_decide (output = expectedOutput)).

(** ** What the packages promise *)

Class VrfLaws : Prop := {
  sha512_length b : length (sha512 b) = 64%nat;
  sha512_wf b : wf_bytes (sha512 b);
  (* the field, with division by nonzero elements *)
  field_laws : field_theory fzero fone fadd fmul fsub fneg (fun a b => fmul a (finvert b)) finvert eq;
  square_mul a : fsquare a = fmul a a;
  (* scalars are integers modulo the prime order, encoded in 32 bytes *)
  clamping_total b : length b = 32%nat -> is_Some (setBytesWithClamping b);
  uniform_total b : length b = 64%nat -> is_Some (setUniformBytes b);
  scalarBytes_length s : length (scalarBytes s) = 32%nat;
  canonical_scalarBytes s : setCanonicalBytes (scalarBytes s) = Some s;
  (* a 16-byte integer is below the order *)
  small_scalar b : length b = 16%nat -> wf_bytes b ->
    exists s, setCanonicalBytes (b ++ replicate 16 0) = Some s /\ scalarBytes s = b ++ replicate 16 0 /\
              setUniformBytes (b ++ replicate 48 0) = Some s;
  (* points are a commutative group; scalars act on its prime-order part, which
     holds the generator and every multiple of the cofactor *)
  add_comm P Q : pointAdd P Q = pointAdd Q P;
  add_assoc P Q R : pointAdd P (pointAdd Q R) = pointAdd (pointAdd P Q) R;
  add_identity P : pointAdd identityPoint P = P;
  add_negate P : pointAdd P (pointNegate P) = identityPoint;
  mult_negate s P : scalarMult s (pointNegate P) = pointNegate (scalarMult s P);
  generator_prime : exists Q, generator = multByCofactor Q;
  mult_add a b Q : scalarMult (scalarAdd a b) (multByCofactor Q) =
    pointAdd (scalarMult a (multByCofactor Q)) (scalarMult b (multByCofactor Q));
  mult_mult a b Q : scalarMult (scalarMultiply a b) (multByCofactor Q) =
    scalarMult a (scalarMult b (multByCofactor Q));
  equal_eq P Q : pointEqual P Q = true <-> P = Q;
  (* a clamped scalar is not zero modulo the order *)
  clamped_order b s : setBytesWithClamping b = Some s ->
    multByCofactor (scalarMult s generator) <> identityPoint;
  (* the canonical encoding *)
  pointBytes_length P : length (pointBytes P) = 32%nat;
  setBytes_pointBytes P : setBytes (pointBytes P) = Some P;
  pointBytes_canonical P : isCanonicalY (pointBytes P) = true;
  coordinates_encode P : let '(X, Y, Z) := extendedCoordinates P in
    Z <> fzero /\ pointBytes P = encodeWith X Y (finvert Z)
}.
End Vrf.
Arguments VrfLaws : clear implicits.
Arguments VrfLaws {_}.

(** ** Proofs *)

Section VrfProofs.
Context `{C : VrfCrypto} {L : VrfLaws}.
#[local] Set Default Proof Using "All".

Add Field vrf_field : (field_laws (VrfLaws := L)).

Lemma inverse_unique a z : fmul a z = fone -> a = finvert z.
Proof.
  intros E. assert (Hz : z <> fzero).
  { intros ->. apply (F_1_neq_0 field_laws). rewrite <- E. ring. }
  transitivity (fmul (fmul a z) (finvert z)); [field; done|]. rewrite E. ring.
Qed.

Lemma prefix_step zs : forall acc j, (S j < length zs)%nat ->
  elementAt (prefixProducts acc zs) (S j) = fmul (elementAt (prefixProducts acc zs) j) (elementAt zs (S j)).
Proof.
  induction zs as [|z zs IH]; intros acc j Hj; [simpl in Hj; lia|].
  destruct zs as [|z' zs]; [simpl in Hj; lia|]. destruct j as [|j]; [done|].
  simpl in Hj. apply (IH (Some _)). simpl. lia.
Qed.

Lemma prefix_nonzero zs : forall acc j, (j < length zs)%nat ->
  Forall (fun z => z <> fzero) zs -> (forall a, acc = Some a -> a <> fzero) ->
  elementAt (prefixProducts acc zs) j <> fzero.
Proof.
  induction zs as [|z zs IH]; intros acc j Hj F A; [simpl in Hj; lia|].
  apply Forall_cons in F as [Hz F]. cbn [prefixProducts].
  set (p := match acc with None => z | Some a => fmul a z end).
  assert (Hp : p <> fzero).
  { subst p. destruct acc as [a|]; [|done]. specialize (A a eq_refl). intros E. apply A.
    transitivity (fmul (fmul a z) (finvert z)); [field; done|]. rewrite E. ring. }
  destruct j as [|j]; [done|]. apply (IH (Some p) j); [simpl in Hj; lia|done|]. by intros a [= <-].
Qed.

(** The loop writes the points below [n], each with its own inverse. *)
Lemma encodeLoop_each n : forall inv xs ys zs out,
  (n <= length zs)%nat -> Forall (fun z => z <> fzero) zs ->
  (forall i, n = S i -> fmul inv (elementAt (prefixProducts None zs) i) = fone) ->
  encodeLoop n inv xs ys zs (prefixProducts None zs) out =
  ((fun i => encodeWith (elementAt xs i) (elementAt ys i) (finvert (elementAt zs i))) <$> seq 0 n) ++ out.
Proof.
  induction n as [|n IH]; intros inv xs ys zs out Hn F Hinv; [done|].
  specialize (Hinv n eq_refl). rewrite seq_S, fmap_app, <- app_assoc. cbn [encodeLoop].
  destruct n as [|j].
  - cbn. rewrite <- (inverse_unique inv); [done|].
    destruct zs as [|z zs]; [simpl in Hn; lia|]. exact Hinv.
  - rewrite prefix_step in Hinv by lia. cbn [plus fmap list_fmap app].
    rewrite <- (inverse_unique (fmul inv (elementAt (prefixProducts None zs) j)) (elementAt zs (S j))).
    + apply IH; [lia|done|]. intros i [= <-]. rewrite <- Hinv. ring.
    + rewrite <- Hinv. ring.
Qed.

Lemma encodePoints_each points : points <> [] -> encodePoints points = pointBytes <$> points.
Proof.
  intros Hne. unfold encodePoints.
  set (xs := (fun '(X, _, _) => X) <$> _). set (ys := (fun '(_, Y, _) => Y) <$> _).
  set (zs := (fun '(_, _, Z) => Z) <$> _).
  assert (Lz : length zs = length points) by (subst zs; by rewrite !length_fmap).
  assert (F : Forall (fun z => z <> fzero) zs).
  { subst zs. apply Forall_forall. intros z Hz. apply list_elem_of_fmap in Hz as ([[X Y] Z] & -> & Hz).
    apply list_elem_of_fmap in Hz as (P & E & _). pose proof (coordinates_encode P) as HP.
    rewrite <- E in HP. by destruct HP. }
  rewrite encodeLoop_each; [|lia|done|].
  - rewrite app_nil_r. apply list_eq. intros i. rewrite !list_lookup_fmap.
    destruct (decide (i < length points)%nat) as [Hi|Hi].
    + rewrite lookup_seq_lt by done. destruct (lookup_lt_is_Some_2 points i Hi) as [P HP]. rewrite HP. cbn.
      pose proof (coordinates_encode P) as Hc.
      destruct (extendedCoordinates P) as [[X Y] Z] eqn:EP. destruct Hc as (_ & ->).
      unfold elementAt. f_equal. f_equal; [| |f_equal]; apply nth_lookup_Some;
        subst xs ys zs; by rewrite !list_lookup_fmap, HP; cbn; rewrite EP.
    + rewrite lookup_seq_ge by lia. rewrite (proj2 (lookup_ge_None points i)) by lia. done.
  - intros i Hi. replace (length points - 1)%nat with i by lia.
    assert (elementAt (prefixProducts None zs) i <> fzero) by (apply prefix_nonzero; [lia|done|done]).
    field. done.
Qed.

(** ** The Legendre symbol *)

Definition fpow (z : Element) (n : N) : Element := N.iter n (fmul z) fone.

Lemma fpow_add z a b : fpow z (a + b) = fmul (fpow z a) (fpow z b).
Proof.
  unfold fpow. rewrite N.iter_add. generalize (N.iter b (fmul z) fone). intros y.
  induction a as [|a IH] using N.peano_ind; [simpl; ring|].
  rewrite !N.iter_succ, IH. ring.
Qed.

Lemma fpow_one z : z = fpow z 1.
Proof. unfold fpow. simpl. ring. Qed.

Lemma fpow_square z a : fsquare (fpow z a) = fpow z (2 * a).
Proof. rewrite square_mul, <- fpow_add. f_equal. lia. Qed.

Lemma fpow_squares z n : forall a, Nat.iter n fsquare (fpow z a) = fpow z (2 ^ N.of_nat n * a).
Proof.
  induction n as [|n IH]; intros a; [by rewrite N.mul_1_l|].
  rewrite Nat.iter_succ, IH, fpow_square. f_equal. by rewrite Nat2N.inj_succ, N.pow_succ_r', N.mul_assoc.
Qed.

(** One assignment of the addition chain: its value as a power, with the
    exponent computed. *)
#[local] Ltac chain_step :=
  lazymatch goal with
  | |- (let t := ?a in @?b t) = ?r =>
    let e := fresh in
    eassert (e : a = fpow _ _) by
      (rewrite ?fpow_square, ?fpow_squares, <- ?fpow_add; reflexivity);
    lazymatch type of e with
    | _ = fpow ?z ?n =>
      let m := eval vm_compute in n in
      let f := fresh in
      assert (f : n = m) by (vm_compute; reflexivity); rewrite f in e; clear f;
      enough (b (fpow z m) = r) by (rewrite e; assumption);
      clear e; cbv beta
    end
  end.

(** The addition chain of [chi25519] raises its argument to the power
    (p - 1)/2 for p = 2^255 - 19, the exponent of Euler's criterion. *)
Theorem chi_exponent z : chi25519 z = fpow z ((2 ^ 255 - 19 - 1) / 2).
Proof.
  replace ((2 ^ 255 - 19 - 1) / 2)%N with (2 ^ 254 - 10)%N by (vm_compute; reflexivity).
  rewrite (fpow_one z) at 1.
  cbv delta [chi25519]. cbv beta. repeat chain_step.
  rewrite <- fpow_add. reflexivity.
Qed.

(** The batch encoding of points, with its single inversion, gives each
    point's own canonical encoding. *)
Theorem encode_points_batch points :
  points <> [] -> encodePoints points = pointBytes <$> points.
Proof. apply encodePoints_each. Qed.

(** ** Proving and verifying *)

Lemma fill_id n bs : length bs = n -> fill n bs = bs.
Proof. intros <-. unfold fill. by rewrite take_app_length. Qed.

Lemma fill_16 bs : length bs = 16%nat -> fill 32 bs = bs ++ replicate 16 0.
Proof.
  intros Hl. unfold fill. by rewrite take_app_ge, Hl by lia.
Qed.

(** The points that verification recomputes. *)
Lemma recover_commitment k c x Q :
  pointAdd (scalarMult (scalarAdd (scalarMultiply c x) k) (multByCofactor Q))
    (scalarMult c (pointNegate (scalarMult x (multByCofactor Q)))) = scalarMult k (multByCofactor Q).
Proof.
  rewrite mult_add, mult_mult, mult_negate. rewrite (add_comm (scalarMult c _) (scalarMult k _)).
  rewrite <- add_assoc, add_negate, add_comm, add_identity. done.
Qed.

Lemma recover_commitment_base k c x :
  pointAdd (scalarMult c (pointNegate (scalarMult x generator)))
    (scalarMult (scalarAdd (scalarMultiply c x) k) generator) = scalarMult k generator.
Proof. rewrite add_comm. destruct generator_prime as [B ->]. apply recover_commitment. Qed.

Lemma hashToCurve_prime Y alpha P b :
  hashToCurveElligator2 Y alpha = Ok (P, b) -> b = pointBytes P /\ exists Q, P = multByCofactor Q.
Proof.
  unfold hashToCurveElligator2, ge25519FromUniform.
  destruct (setBytes _) as [p3|]; [|done]. cbn. intros [= <- <-]. eauto.
Qed.

(** The challenge hash always gives a scalar, of 16 significant bytes. *)
Lemma hashPoints_total P1 P2 P3 P4 : exists c b,
  hashPoints P1 P2 P3 P4 = Some c /\ length b = 16%nat /\ scalarBytes c = b ++ replicate 16 0 /\
  setUniformBytes (b ++ replicate 48 0) = Some c.
Proof.
  unfold hashPoints. set (h := sha512 _).
  assert (Hl : length (take 16 h) = 16%nat) by (subst h; rewrite length_take, sha512_length; lia).
  rewrite fill_16 by done.
  destruct (small_scalar (take 16 h) Hl) as (c & -> & Hc & Hu); [|by exists c, (take 16 h)].
  apply Forall_take, sha512_wf.
Qed.

Lemma decode_proof G c16 s :
  length c16 = 16%nat -> length s = 32%nat ->
  decodeProofArrays (pointBytes G ++ c16 ++ s) = Ok (G, c16 ++ replicate 16 0, s).
Proof.
  intros Hc Hs. unfold decodeProofArrays, slice.
  rewrite !length_app, pointBytes_length, Hc, Hs. cbn [Nat.eqb plus negb ProofSize].
  rewrite take_app_length' by (by rewrite pointBytes_length).
  rewrite pointBytes_canonical, setBytes_pointBytes. cbn [negb of_option mbind result_bind].
  rewrite (drop_app_ge (pointBytes G) _ 32), (drop_app_ge (pointBytes G) _ 48) by (rewrite pointBytes_length; lia).
  rewrite pointBytes_length. cbn [Nat.sub]. rewrite drop_0, (take_app_length' c16) by lia.
  rewrite drop_app_length' by lia. rewrite (take_ge s) by lia.
  by rewrite fill_16, fill_id.
Qed.

(** Verification of a proof made of these parts. *)
Lemma verify_parts x k c b Q hB alpha :
  let Y := scalarMult x generator in
  let G := scalarMult x (multByCofactor Q) in
  hashToCurveElligator2 Y alpha = Ok (multByCofactor Q, hB) ->
  hashPoints hB (pointBytes G) (pointBytes (scalarMult k generator)) (pointBytes (scalarMult k (multByCofactor Q))) = Some c ->
  length b = 16%nat -> scalarBytes c = b ++ replicate 16 0 -> setUniformBytes (b ++ replicate 48 0) = Some c ->
  verify Y (pointBytes G ++ b ++ scalarBytes (scalarAdd (scalarMultiply c x) k)) alpha = Ok (gammaToHash G, true).
Proof.
  intros Y G HH Hc Hb Hs Hu. unfold verify.
  rewrite decode_proof by (done || apply scalarBytes_length). cbn [mbind result_bind].
  rewrite HH. cbn [mbind result_bind]. rewrite <- app_assoc. change (replicate 16 0 ++ replicate 32 0) with (replicate 48 0).
  rewrite Hu. cbn [of_option mbind result_bind]. rewrite canonical_scalarBytes. cbn [of_option mbind result_bind].
  unfold doubleScalarBaseMult, multiScalarMult.
  subst Y G. rewrite recover_commitment_base, recover_commitment.
  rewrite encodePoints_each by done. cbn [fmap list_fmap].
  cbn [lookup_total list_lookup_total]. rewrite Hc. cbn [of_option mbind result_bind].
  rewrite bool_decide_eq_true_2 by done. done.
Qed.

(** Every 32-byte seed is a key. *)
Lemma VrfKeyGen_total seed : length seed = SeedSize ->
  exists x, setBytesWithClamping (take 32 (sha512 seed)) = Some x /\
            VrfKeyGen seed = Ok (pointBytes (scalarMult x generator), seed).
Proof.
  intros Hl. unfold VrfKeyGen. rewrite Hl. cbn [Nat.eqb SeedSize negb].
  destruct (clamping_total (take 32 (sha512 seed))) as [x Hx]; [by rewrite length_take, sha512_length|].
  exists x. by rewrite Hx.
Qed.

(** Proofs made with a seed verify under the point of its scalar. *)
Lemma prove_verifies seed x alpha :
  length seed = SeedSize -> setBytesWithClamping (take 32 (sha512 seed)) = Some x ->
  Prove seed alpha = Err ErrPoint \/
  exists proof output, Prove seed alpha = Ok (proof, output) /\
    length proof = ProofSize /\ length output = OutputSize /\
    VrfVerify (pointBytes (scalarMult x generator)) proof output alpha = Ok true /\ ProofToHash proof = Ok output.
Proof.
  intros Hl Hx. unfold Prove. rewrite Hl. cbn [Nat.eqb SeedSize negb].
  rewrite Hx. cbn [of_option mbind result_bind].
  set (Y := scalarMult x generator).
  destruct (hashToCurveElligator2 Y alpha) as [[Hp hB]|e] eqn:HH.
  2:{ left. cbn. f_equal. revert HH. unfold hashToCurveElligator2, ge25519FromUniform.
      destruct (setBytes _); [done|]. by intros [= <-]. }
  right. destruct (hashToCurve_prime _ _ _ _ HH) as (-> & Q & ->). cbn [mbind result_bind].
  destruct (uniform_total (sha512 (fill 32 (slice 32 64 (sha512 seed)) ++ fill 32 (pointBytes (multByCofactor Q)))))
    as [k Hk]; [apply sha512_length|].
  rewrite Hk. cbn [of_option mbind result_bind]. rewrite encodePoints_each by done. cbn [fmap list_fmap].
  cbn [lookup_total list_lookup_total].
  match goal with |- context [hashPoints ?a ?b ?c ?d] => destruct (hashPoints_total a b c d) as (c0 & b0 & Hc & Hb & Hs & Hu) end.
  rewrite Hc. cbn [of_option mbind result_bind]. eexists _, _. split; [done|].
  rewrite !fill_id by (apply pointBytes_length || apply scalarBytes_length ||
    (rewrite length_take, scalarBytes_length; done)).
  rewrite Hs, take_app_length' by lia.
  set (s := scalarBytes _).
  assert (Ls : length s = 32%nat) by apply scalarBytes_length.
  split_and!.
  - by rewrite !length_app, pointBytes_length, Hb, Ls.
  - apply sha512_length.
  - unfold VrfVerify, VerifyAndHash. rewrite pointBytes_canonical, setBytes_pointBytes. cbn [negb of_option mbind result_bind].
    destruct (pointEqual (multByCofactor Y) identityPoint) eqn:Ee.
    { apply equal_eq in Ee. by apply (clamped_order _ x Hx) in Ee. }
    subst s Y. rewrite (verify_parts x k c0 b0 Q _ alpha HH Hc Hb Hs Hu). cbn [mbind result_bind].
    by rewrite bool_decide_eq_true_2.
  - unfold ProofToHash. rewrite decode_proof by done. done.
Qed.

(** C27. A proof made with a key verifies under its public key: [KeyGen] accepts
    every 32-byte seed; [Prove] then fails only if the mapped field element is
    not a point; and otherwise the proof and output have their sizes, [Verify]
    accepts them for the same message, and the output is recovered from the
    proof alone. *)
Theorem vrf_prove_verify seed alpha :
  length seed = SeedSize ->
  exists pk, VrfKeyGen seed = Ok (pk, seed) /\ length pk = VrfPublicKeySize /\
  (Prove seed alpha = Err ErrPoint \/
   exists proof output, Prove seed alpha = Ok (proof, output) /\
     length proof = ProofSize /\ length output = OutputSize /\
     VrfVerify pk proof output alpha = Ok true /\ ProofToHash proof = Ok output).
Proof.
  intros Hl. destruct (VrfKeyGen_total seed Hl) as (x & Hx & K). eexists. split; [exact K|].
  split; [apply pointBytes_length|]. by apply prove_verifies.
Qed.
End VrfProofs.

(** ** Canonical encodings *)

Fixpoint le_decode (bs : bytes) : Z := match bs with [] => 0 | b :: bs => b + 256 * le_decode bs end.

Lemma le_decode_app a b : le_decode (a ++ b) = le_decode a + 256 ^ blen a * le_decode b.
Proof.
  induction a as [|x a IH]; cbn [app le_decode]; [change (blen (@nil Z)) with 0; lia|].
  rewrite IH, blen_cons, Z.add_1_l, Z.pow_succ_r by apply blen_nonneg. ring.
Qed.

Lemma le_decode_bounds bs : wf_bytes bs ->
  0 <= le_decode bs < 256 ^ blen bs /\
  (le_decode bs = 256 ^ blen bs - 1 <-> forallb (fun b => b =? 255) bs = true).
Proof.
  induction bs as [|b bs IH]; intros W; [by vm_compute|].
  apply Forall_cons in W as [Hb W]. destruct (IH W) as [B E]. unfold is_byte in Hb.
  rewrite blen_cons, Z.add_1_l, Z.pow_succ_r by apply blen_nonneg. cbn [le_decode forallb].
  split; [lia|]. rewrite andb_true_iff, <- E, Z.eqb_eq. lia.
Qed.

(** The encodings accepted are exactly those whose y coordinate, the value
    without the sign bit, is reduced modulo 2^255 - 19. *)
Theorem canonical_y_exact enc :
  wf_bytes enc -> length enc = 32%nat ->
  isCanonicalY enc = true <-> le_decode (alter (fun b => Z.land b 127) 31%nat enc) < 2 ^ 255 - 19.
Proof.
  intros W Hl. destruct enc as [|b0 enc]; [done|]. destruct enc as [|b31 mid _] using rev_ind; [done|].
  cbn [length] in Hl. rewrite length_app in Hl. cbn [length] in Hl.
  apply Forall_cons in W as [Hb0 [Wm [Hb31 _]%Forall_cons]%wf_bytes_app]. unfold is_byte in *.
  unfold isCanonicalY, slice, blen. cbn [length]. rewrite length_app. cbn [length].
  replace (Z.of_nat (S (length mid + 1)) =? 32) with true by (symmetry; apply Z.eqb_eq; lia).
  rewrite (list_lookup_total_correct (b0 :: mid ++ [b31]) 31 b31).
  2:{ change ((mid ++ [b31]) !! 30%nat = Some b31). rewrite lookup_app_r by lia. by replace (30 - length mid)%nat with 0%nat by lia. }
  rewrite (list_lookup_total_correct (b0 :: mid ++ [b31]) 0 b0) by done.
  change (take (31 - 1) (drop 1 (b0 :: mid ++ [b31]))) with (take 30 (mid ++ [b31])).
  rewrite take_app_length' by lia.
  replace (alter (fun b => Z.land b 127) 31%nat (b0 :: mid ++ [b31])) with (b0 :: mid ++ [Z.land b31 127]).
  2:{ change (alter _ 31%nat (b0 :: ?l)) with (b0 :: alter (fun b => Z.land b 127) 30%nat l). f_equal. replace 30%nat with (length mid + 0)%nat by lia.
      by rewrite alter_app_r. }
  cbn [le_decode]. rewrite le_decode_app. cbn [le_decode].
  destruct (le_decode_bounds mid Wm) as [Bm Em]. replace (blen mid) with 30 in * by (unfold blen; lia).
  change 127 with (Z.ones 7). rewrite Z.land_ones by lia.
  pose proof (Z.mod_pos_bound b31 (2 ^ 7) ltac:(lia)) as Bs. change (Z.ones 7) with 127. change (2 ^ 7) with 128 in *.
  cbn [negb orb]. destruct (Z.eqb_spec (b31 mod 128) 127) as [E|E]; cbn [negb orb].
  2:{ split; [|done]. lia. }
  destruct (Z.ltb_spec b0 237); [split; [lia|done]|].
  rewrite negb_true_iff, <- not_true_iff_false, <- Em. lia.
Qed.

(** ** Witnesses

    A toy instance: the field of two elements, a group of two points, and the
    integers modulo 2^256 as scalars. *)

Definition toyScalar : Type := dsig (fun z : Z => 0 <= z < 2 ^ 256).

Lemma toy_mod_bound z : 0 <= z mod 2 ^ 256 < 2 ^ 256.
Proof. apply Z.mod_pos_bound. reflexivity. Qed.

Definition toyOf (z : Z) : toyScalar := dexist (z mod 2 ^ 256) (toy_mod_bound z).

Definition toyBytes (b : bool) : bytes := (if b then 1 else 0) :: replicate 31 0.

#[export] Instance toyVrf : VrfCrypto := {
  sha512 b := replicate 64 (foldr Z.add 0 b mod 256);
  Element := bool;
  fzero := false;
  fone := true;
  fadd := xorb;
  fsub := xorb;
  fmul := andb;
  fneg b := b;
  fsquare b := b;
  finvert b := b;
  fmult32 b n := b && Z.odd n;
  fsetBytes b := Z.odd (default 0 (head b));
  fbytes := toyBytes;
  isNegative _ := false;
  Scalar := toyScalar;
  setBytesWithClamping _ := Some (toyOf 1);
  setUniformBytes b := Some (toyOf (be_decode (rev b)));
  setCanonicalBytes b := if decide (length b = 32%nat /\ wf_bytes b) then Some (toyOf (be_decode (rev b))) else None;
  scalarBytes s := rev (be_encode 32 (`s));
  scalarAdd a b := toyOf (`a + `b);
  scalarMultiply a b := toyOf (`a * `b);
  Point := bool;
  identityPoint := false;
  generator := true;
  pointAdd := xorb;
  pointNegate b := b;
  scalarMult s P := Z.odd (`s) && P;
  multByCofactor P := P;
  pointEqual := eqb;
  setBytes b := if decide (b = toyBytes true) then Some true else if decide (b = toyBytes false) then Some false else None;
  pointBytes := toyBytes;
  extendedCoordinates P := (false, P, true)
}.

Lemma toy_odd z : Z.odd (proj1_sig (toyOf z)) = Z.odd z.
Proof.
  cbn. replace z with (z mod 2 ^ 256 + 2 * (2 ^ 255 * (z / 2 ^ 256))) at 2.
  - rewrite Z.odd_add_mul_2. done.
  - pose proof (Z.div_mod z (2 ^ 256) ltac:(lia)). lia.
Qed.

Lemma toy_decode b n : be_decode (rev (b ++ replicate n 0)) = be_decode (rev b).
Proof.
  rewrite rev_app_distr. induction n as [|n IH]; [done|].
  replace (rev (replicate (S n) 0)) with (0 :: rev (replicate n 0)); [exact IH|].
  rewrite replicate_S_end, rev_app_distr. done.
Qed.

Lemma toy_canonical b : length b = 32%nat -> wf_bytes b ->
  setCanonicalBytes b = Some (toyOf (be_decode (rev b))) /\ scalarBytes (toyOf (be_decode (rev b))) = b.
Proof.
  intros Hl W. cbn [setCanonicalBytes toyVrf]. rewrite decide_True by done. split; [done|].
  assert (W' : wf_bytes (rev b)) by by apply Forall_rev.
  pose proof (be_decode_bounds (rev b) W') as B. unfold blen in B. rewrite length_rev, Hl in B.
  cbn [scalarBytes toyVrf toyOf dexist proj1_sig]. rewrite Z.mod_small by (change (2 ^ 256) with (256 ^ Z.of_nat 32); lia).
  rewrite <- (rev_involutive b) at 2. f_equal. rewrite <- (be_encode_decode (rev b) W') at 2. by rewrite length_rev, Hl.
Qed.

#[export] Instance toyVrfLaws : VrfLaws.
Proof.
  split; try done.
  - intros b. apply Forall_replicate. apply Z.mod_pos_bound. lia.
  - split; [split; intros; try (by repeat match goal with b : Element |- _ => destruct b end)|done|done|].
    intros []; done.
  - intros []; done.
  - intros [s Hs]. cbn [scalarBytes toyVrf proj1_sig].
    assert (B : 0 <= s < 256 ^ Z.of_nat 32) by (by apply bool_decide_unpack in Hs).
    destruct (toy_canonical (rev (be_encode 32 s))) as [-> _].
    + by rewrite length_rev, length_be_encode.
    + apply Forall_rev, be_encode_wf.
    + rewrite rev_involutive, be_decode_encode by done. f_equal. apply dsig_eq. cbn. by apply Z.mod_small.
  - intros b Hl W. destruct (toy_canonical (b ++ replicate 16 0)) as [E1 E2].
    + by rewrite length_app, length_replicate, Hl.
    + apply Forall_app. split; [done|]. by apply Forall_replicate.
    + eexists. split; [exact E1|]. split; [exact E2|]. cbn [setUniformBytes toyVrf]. by rewrite !toy_decode.
  - intros [] []; done.
  - intros [] [] []; done.
  - intros []; done.
  - exists true. done.
  - intros a b Q. cbn [scalarMult scalarAdd multByCofactor pointAdd toyVrf]. rewrite toy_odd, Z.odd_add.
    by destruct (Z.odd (`a)), (Z.odd (`b)), Q.
  - intros a b Q. cbn [scalarMult scalarMultiply multByCofactor toyVrf]. rewrite toy_odd, Z.odd_mul.
    by destruct (Z.odd (`a)), (Z.odd (`b)), Q.
  - intros P Q. apply eqb_true_iff.
  - intros b s [= <-]. done.
  - intros []; done.
  - intros []; split; done.
Qed.

(** Witness of C27: a seed of the toy instance, whose proof verifies. *)
Lemma vrf_prove_verify_witness :
  exists pk proof output, VrfKeyGen toySeed = Ok (pk, toySeed) /\ Prove toySeed [1; 2] = Ok (proof, output) /\
    VrfVerify pk proof output [1; 2] = Ok true.
Proof.
  destruct (vrf_prove_verify toySeed [1; 2] eq_refl) as (pk & K & _ & [E|(proof & output & P & _ & _ & V & _)]).
  - vm_compute in E. discriminate E.
  - exists pk, proof, output. exact (conj K (conj P V)).
Defined.

(** An instance. *)
Lemma encode_points_batch_witness :
  encodePoints [true; false; true] = [toyBytes true; toyBytes false; toyBytes true].
Proof. apply (encode_points_batch (C := toyVrf) [true; false; true]). discriminate. Defined.

(** An instance: the toy instance satisfies the laws. *)
Lemma chi_exponent_witness : fpow (C := toyVrf) true ((2 ^ 255 - 19 - 1) / 2) = true.
Proof. rewrite <- (chi_exponent (C := toyVrf) true). reflexivity. Defined.
