(* ===== verification/E34.v ===== *)
(** * Fixed-point arithmetic of the leader check (src/consensus/e34.go)

    Numbers with 34 decimal digits as integers scaled by [e34Scale]: floor
    division, powers, the exponential and logarithm with their budgets, and the
    comparison of a value with an exponential by its Taylor series. A
    [*big.Int] destination is the value returned. *)

From S2P Require Import Prelude.

Definition e34Scale : Z := 10 ^ 34.
Definition e34Epsilon : Z := 10 ^ 10.

(** [OutOfFuel] stands for a loop of the source that would not have ended
    within the bound the model gives it; it is shown never to occur. *)
Inductive e34Error := ErrDivisionByZero | ErrLogarithm | ErrContinuedFraction | OutOfFuel.

Abbreviation res A := (result e34Error A).

Definition e34FloorQuotient (numerator denominator : Z) : res Z :=
  if denominator =? 0 then Err ErrDivisionByZero else
  let '(n, d) := if denominator <? 0 then (- numerator, - denominator) else (numerator, denominator) in
  if 0 <=? n then Ok (Z.quot n d)
  else Ok (if Z.rem n d <? 0 then Z.quot n d - 1 else Z.quot n d).

Definition e34FromRatio (numerator denominator : Z) : res Z :=
  e34FloorQuotient (numerator * e34Scale) denominator.

(** The source drops the error, which the fixed positive scale cannot cause;
    [dst] keeps the product then. *)
Definition e34Mul (a b : Z) : Z :=
  match e34FloorQuotient (a * b) e34Scale with Ok q => q | Err _ => a * b end.

Definition e34Div (a b : Z) : res Z := e34FromRatio a b.

(** The recursion of [e34Power] on a positive exponent: halving an even one,
    subtracting one from an odd one, down to the zeroth power. *)
Fixpoint powerPos (base : Z) (p : positive) : Z :=
  match p with
  | xH => e34Mul base e34Scale
  | xO p => let power := powerPos base p in e34Mul power power
  | xI p => let power := powerPos base p in e34Mul base (e34Mul power power)
  end.

Definition e34Power (base exponent : Z) : res Z :=
  match exponent with
  | Z0 => Ok e34Scale
  | Zpos p => Ok (powerPos base p)
  | Zneg p => e34Div e34Scale (powerPos base p)
  end.

(** The series loop; [fuel] is the number of turns its budget leaves. *)
Fixpoint expLoop (fuel : nat) (x last acc divisor : Z) : res Z :=
  match fuel with
  | O => Ok acc
  | S fuel =>
    next ← e34Div (e34Mul last x) divisor;
    if Z.abs next <? e34Epsilon then Ok acc
    else expLoop fuel x next (acc + next) (divisor + e34Scale)
  end.

Definition expPositive (v : Z) (budget : nat) : res Z :=
  let n := Z.quot v e34Scale + (if Z.rem v e34Scale =? 0 then 0 else 1) in
  x ← e34Div v (n * e34Scale);
  acc ← expLoop (budget - 1) x e34Scale e34Scale e34Scale;
  e34Power acc n.

Definition e34ExpWithBudget (v : Z) (budget : nat) : res Z :=
  if v =? 0 then Ok e34Scale
  else if v <? 0 then r ← expPositive (- v) budget; e34Div e34Scale r
  else expPositive v budget.

Definition e34Exp (v : Z) : res Z := e34ExpWithBudget v 1000.

(** The doubling of the bracket [lower, upper] around the logarithm. *)
Fixpoint bracketLoop (fuel : nat) (v lowerValue upperValue lower upper : Z) : res (Z * Z) :=
  if (v <? lowerValue) || (upperValue <? v) then
    match fuel with
    | O => Err OutOfFuel
    | S fuel =>
      bracketLoop fuel v (e34Mul lowerValue lowerValue) (e34Mul upperValue upperValue)
        (Z.shiftl lower 1) (Z.shiftl upper 1)
    end
  else Ok (lower, upper).

Fixpoint bisectLoop (fuel : nat) (v e lower upper : Z) : res Z :=
  let distance := upper - lower in
  if distance =? 1 then Ok lower else
  match fuel with
  | O => Err OutOfFuel
  | S fuel =>
    let mid := lower + Z.shiftr distance 1 in
    power ← e34Power e mid;
    if v <? power then bisectLoop fuel v e lower mid else bisectLoop fuel v e mid upper
  end.

Fixpoint lnCFLoop (fuel : nat) (r budget depth previous aOlder bOlder aPrev bPrev : Z) : res Z :=
  match fuel with
  | O => Err OutOfFuel
  | S fuel =>
    let k := (depth + 1) / 2 in
    let coefficient := if 0 <? depth then r * (k * k) else r in
    let denominator := (depth + 1) * e34Scale in
    let a := e34Mul denominator aPrev + e34Mul coefficient aOlder in
    let b := e34Mul denominator bPrev + e34Mul coefficient bOlder in
    convergent ← e34Div a b;
    let difference := Z.abs (previous - convergent) in
    if (depth =? budget) || ((0 <? depth) && (difference <? e34Epsilon)) then Ok convergent
    else lnCFLoop fuel r budget (depth + 1) convergent aPrev bPrev a b
  end.

Definition e34LnCF (r budget : Z) : res Z :=
  if r <? 0 then Err ErrContinuedFraction
  else lnCFLoop (S (Z.to_nat budget)) r budget 0 0 e34Scale 0 0 e34Scale.

(** Turns enough for the bracket: the lower value is zero after seven
    squarings, and the upper value at least doubles. *)
Definition bracketFuel (v : Z) : nat := 8 + Z.to_nat (Z.log2_up v).
Definition bisectFuel (lower upper : Z) : nat := Z.to_nat (Z.log2_up (upper - lower)).

Definition e34Ln (v : Z) : res Z :=
  if v <=? 0 then Err ErrLogarithm else
  e ← e34Exp e34Scale;
  lowerValue ← e34Div e34Scale e;
  '(lower, upper) ← bracketLoop (bracketFuel v) v lowerValue e (-1) 1;
  lower ← bisectLoop (bisectFuel lower upper) v e lower upper;
  power ← e34Power e lower;
  q ← e34Div v power;
  fraction ← e34LnCF (q - e34Scale) 1000;
  Ok (lower * e34Scale + fraction).

Inductive e34Comparison := e34Above | e34Below | e34MaxReached.

#[export] Instance e34Comparison_eq_dec : EqDecision e34Comparison.
Proof. solve_decision. Defined.

(** [fuel] turns remain of the thousand. *)
Fixpoint compareLoop (fuel : nat) (q x acc errTerm divisor iteration : Z)
    : res (e34Comparison * Z * Z) :=
  match fuel with
  | O => Ok (e34MaxReached, acc, 1000)
  | S fuel =>
    let divisor := divisor + e34Scale in
    nextErr ← e34FloorQuotient (errTerm * x) e34Scale;
    nextErr ← e34FloorQuotient (nextErr * e34Scale) divisor;
    let acc := acc + errTerm in
    let errorBound := Z.abs (nextErr * 3) in
    if acc + errorBound <=? q then Ok (e34Above, acc, iteration)
    else if q <? acc - errorBound then Ok (e34Below, acc, iteration)
    else compareLoop fuel q x acc nextErr divisor (iteration + 1)
  end.

Definition e34Compare (q x : Z) : res (e34Comparison * Z * Z) :=
  compareLoop 1000 q x e34Scale x e34Scale 1.

Definition verdict (q x : Z) : option e34Comparison :=
  match e34Compare q x with Ok (c, _, _) => Some c | Err _ => None end.

(** ** Floor arithmetic *)

Lemma e34FloorQuotient_div n d : d <> 0 -> e34FloorQuotient n d = Ok (n / d).
Proof.
  intros Hd. unfold e34FloorQuotient. destruct (Z.eqb_spec d 0); [done|].
  assert (Hpos : forall n d, 0 < d ->
    (if 0 <=? n then Ok (Z.quot n d)
     else Ok (if Z.rem n d <? 0 then Z.quot n d - 1 else Z.quot n d)) =@{res Z} Ok (n / d)).
  { clear. intros n d Hd. destruct (Z.leb_spec 0 n); f_equal; [by apply Z.quot_div_nonneg|].
    pose proof (Z.quot_rem n d ltac:(lia)) as E. pose proof (Z.rem_bound_pos_neg n d ltac:(lia) ltac:(lia)) as B.
    revert E B. generalize (Z.quot n d) (Z.rem n d). intros q r E B.
    destruct (Z.ltb_spec r 0).
    - apply (Z.div_unique n d _ (r + d)); [left; lia|rewrite E; ring].
    - apply (Z.div_unique n d _ r); [left; lia|rewrite E; ring]. }
  destruct (Z.ltb_spec d 0); [|by apply Hpos; lia].
  rewrite Hpos by lia. by rewrite Z.div_opp_opp.
Qed.

Lemma e34Scale_pos : 0 < e34Scale.
Proof. done. Qed.

Lemma e34Mul_div a b : e34Mul a b = a * b / e34Scale.
Proof. unfold e34Mul. by rewrite e34FloorQuotient_div. Qed.

Lemma e34Div_div a b : b <> 0 -> e34Div a b = Ok (a * e34Scale / b).
Proof. apply e34FloorQuotient_div. Qed.

#[global] Opaque e34Scale.
#[export] Hint Resolve e34Scale_pos : gouroboros.

Lemma e34Mul_mono a b c d : 0 <= a <= c -> 0 <= b <= d -> 0 <= e34Mul a b <= e34Mul c d.
Proof.
  intros. rewrite !e34Mul_div. pose proof e34Scale_pos.
  split; [apply Z.div_pos; nia|]. apply Z.div_le_mono; nia.
Qed.

(** ** The comparison by Taylor series

    [term x i] is the [i]-th summand as the code computes it, [partial x n] the
    sum of the first [n] after the leading one. *)

Fixpoint term (x : Z) (i : nat) : Z :=
  match i with
  | O => e34Scale
  | 1%nat => x
  | S i => term x i * x / e34Scale / Z.of_nat (S i)
  end.

Fixpoint partial (x : Z) (n : nat) : Z :=
  match n with O => e34Scale | S n => partial x n + term x (S n) end.

(** The whole series: what is left after a thousand terms is zero. *)
Definition taylor (x : Z) : Z := partial x 1000.

Definition above (q x : Z) (i : nat) : bool := partial x i + 3 * Z.abs (term x (S i)) <=? q.
Definition below (q x : Z) (i : nat) : bool := q <? partial x i - 3 * Z.abs (term x (S i)).

Lemma term_SS x i : term x (S (S i)) = term x (S i) * x / e34Scale / Z.of_nat (S (S i)).
Proof. done. Qed.

(** The loop from turn [i] on decides at the first turn where one of the two
    tests succeeds. *)
Lemma compareLoop_step fuel q x i :
  compareLoop (S fuel) q x (partial x i) (term x (S i)) (Z.of_nat (S i) * e34Scale) (Z.of_nat (S i)) =
  if above q x (S i) then Ok (e34Above, partial x (S i), Z.of_nat (S i))
  else if below q x (S i) then Ok (e34Below, partial x (S i), Z.of_nat (S i))
  else compareLoop fuel q x (partial x (S i)) (term x (S (S i))) (Z.of_nat (S (S i)) * e34Scale) (Z.of_nat (S (S i))).
Proof.
  pose proof e34Scale_pos. cbn [compareLoop].
  rewrite e34FloorQuotient_div by lia. cbn [mbind result_bind].
  rewrite e34FloorQuotient_div by nia. cbn [mbind result_bind].
  assert (E : term x (S i) * x / e34Scale * e34Scale / (Z.of_nat (S i) * e34Scale + e34Scale) = term x (S (S i))).
  { rewrite term_SS. replace (Z.of_nat (S i) * e34Scale + e34Scale) with (Z.of_nat (S (S i)) * e34Scale) by lia.
    apply Z.div_mul_cancel_r; lia. }
  rewrite E. replace (Z.abs (term x (S (S i)) * 3)) with (3 * Z.abs (term x (S (S i)))) by lia.
  change (partial x i + term x (S i)) with (partial x (S i)).
  unfold above, below.
  replace (Z.of_nat (S i) * e34Scale + e34Scale) with (Z.of_nat (S (S i)) * e34Scale) by lia.
  replace (Z.of_nat (S i) + 1) with (Z.of_nat (S (S i))) by lia. done.
Qed.

Definition undecided (q x : Z) (i : nat) : Prop := above q x i = false /\ below q x i = false.

(** What a verdict means, and that the first decided turn gives it. *)
Definition decides (q x : Z) (c : e34Comparison) (k : nat) : Prop :=
  (1 <= k <= 1000)%nat /\ (forall j, (1 <= j < k)%nat -> undecided q x j) /\
  match c with
  | e34Above => above q x k = true
  | e34Below => above q x k = false /\ below q x k = true
  | e34MaxReached => False
  end.

Lemma compareLoop_spec fuel : forall q x i,
  (i + fuel = 1000)%nat -> (forall j, (1 <= j <= i)%nat -> undecided q x j) ->
  exists c acc n,
    compareLoop fuel q x (partial x i) (term x (S i)) (Z.of_nat (S i) * e34Scale) (Z.of_nat (S i)) = Ok (c, acc, n) /\
    match c with
    | e34MaxReached => forall j, (1 <= j <= 1000)%nat -> undecided q x j
    | _ => exists k, decides q x c k
    end.
Proof.
  induction fuel as [|fuel IH]; intros q x i Hi Hu.
  - eexists _, _, _. split; [done|]. intros j Hj. apply Hu. lia.
  - rewrite compareLoop_step. destruct (above q x (S i)) eqn:Ea.
    { eexists _, _, _. split; [done|]. exists (S i). split_and!; [lia|lia| |done]. intros j ?. apply Hu. lia. }
    destruct (below q x (S i)) eqn:Eb.
    { eexists _, _, _. split; [done|]. exists (S i). split_and!; [lia|lia| |done|done]. intros j ?. apply Hu. lia. }
    apply (IH q x (S i)); [lia|]. intros j Hj. destruct (decide (j = S i)) as [->|]; [done|]. apply Hu. lia.
Qed.

Lemma verdict_spec q x :
  exists c, verdict q x = Some c /\
  match c with
  | e34MaxReached => forall j, (1 <= j <= 1000)%nat -> undecided q x j
  | _ => exists k, decides q x c k
  end.
Proof.
  destruct (compareLoop_spec 1000 q x 0) as (c & acc & n & E & H); [lia|lia|].
  exists c. split; [|done]. unfold verdict, e34Compare.
  change (partial x 0) with e34Scale in E. change (term x 1) with x in E.
  rewrite Z.mul_1_l in E. change (Z.of_nat 1) with 1 in E. by rewrite E.
Qed.

Lemma term_mono x y i : 0 <= x <= y -> 0 <= term x i <= term y i.
Proof.
  intros Hx. pose proof e34Scale_pos. induction i as [|[|i] IH]; [simpl; lia|simpl; lia|].
  rewrite !term_SS. split; [by repeat (apply Z.div_pos; [|lia]); nia|].
  apply Z.div_le_mono; [lia|]. apply Z.div_le_mono; nia.
Qed.

Lemma term_nonneg x i : 0 <= x -> 0 <= term x i.
Proof. intros. apply (term_mono x x). lia. Qed.

Lemma partial_mono x y n : 0 <= x <= y -> 0 <= partial x n <= partial y n.
Proof.
  intros Hx. pose proof e34Scale_pos. induction n as [|n IH]; [simpl; lia|].
  pose proof (term_mono x y (S n) Hx). cbn [partial]. lia.
Qed.

Lemma partial_grows x n m : 0 <= x -> (n <= m)%nat -> partial x n <= partial x m.
Proof.
  intros Hx. induction 1 as [|m _ IH]; [done|]. pose proof (term_nonneg x (S m) Hx). cbn [partial]. lia.
Qed.

Lemma term_zero x i j : term x (S i) = 0 -> (i <= j)%nat -> term x (S j) = 0.
Proof. intros H0. induction 1 as [|j _ IH]; [done|]. by rewrite term_SS, IH. Qed.

(** The exponents the leader check meets are below 64; their terms vanish
    well within the thousand turns. *)
Definition exponentBound : Z := 64 * e34Scale.

Lemma term_bound_zero : term exponentBound 300 = 0.
Proof. vm_compute. reflexivity. Qed.

Lemma decided_late q x j : 0 <= x <= exponentBound -> (299 <= j)%nat -> ~ undecided q x j.
Proof.
  intros Hx Hj [Ha Hb]. unfold above, below in *.
  assert (H0 : term x (S j) = 0).
  { apply (term_zero x 299); [|done]. pose proof (term_mono x exponentBound 300 Hx) as Hm.
    rewrite term_bound_zero in Hm. lia. }
  rewrite H0 in Ha, Hb. zbool; lia.
Qed.

Lemma verdict_decides q x : 0 <= x <= exponentBound ->
  exists c k, verdict q x = Some c /\ decides q x c k.
Proof.
  intros Hx. destruct (verdict_spec q x) as (c & E & H). exists c.
  destruct c; [destruct H as [k Hk]; by exists k| destruct H as [k Hk]; by exists k|].
  destruct (decided_late q x 999 Hx ltac:(lia)). apply H. lia.
Qed.

(** A smaller quotient and a larger exponent keep the verdict [e34Below]. *)
Lemma verdict_mono q1 q2 x1 x2 :
  q2 <= q1 -> 0 <= x1 <= x2 -> x2 <= exponentBound ->
  verdict q1 x1 = Some e34Below -> verdict q2 x2 = Some e34Below.
Proof.
  intros Hq Hx Hb E1. destruct (verdict_decides q1 x1) as (c1 & k & E1' & D1); [lia|].
  rewrite E1 in E1'. injection E1' as <-. destruct D1 as (Hk & Hj & Ha & Hbk).
  destruct (verdict_decides q2 x2) as (c2 & m & E2 & Hm & Hj2 & D2); [lia|].
  rewrite E2. f_equal. destruct c2; [|done..]. exfalso. unfold above, below in *.
  pose proof (partial_mono x1 x2 m Hx). pose proof (partial_grows x2 k m ltac:(lia)).
  pose proof (partial_mono x1 x2 k Hx).
  pose proof (term_mono x1 x2 (S m) Hx). pose proof (term_mono x1 x2 (S k) Hx).
  destruct (decide (m < k)%nat) as [Hlt|].
  - destruct (Hj m ltac:(lia)) as [Hu _]. unfold above in Hu. zbool; lia.
  - zbool; lia.
Qed.

(** For exponents up to one the terms at least halve, so that three times the
    next one bounds what is left of the series. *)
Lemma term_halves x i : 0 <= x <= e34Scale -> 2 * term x (S (S i)) <= term x (S i).
Proof.
  intros Hx. rewrite term_SS. pose proof (term_nonneg x (S i) ltac:(lia)). pose proof e34Scale_pos.
  assert (term x (S i) * x / e34Scale <= term x (S i)) by (apply Z.div_le_upper_bound; nia).
  assert (0 <= term x (S i) * x / e34Scale) by (apply Z.div_pos; nia).
  pose proof (Z.mul_div_le (term x (S i) * x / e34Scale) (Z.of_nat (S (S i))) ltac:(lia)).
  pose proof (Z.div_pos (term x (S i) * x / e34Scale) (Z.of_nat (S (S i))) ltac:(lia) ltac:(lia)). nia.
Qed.

Lemma tail_bound x i d : 0 <= x <= e34Scale ->
  partial x (i + d) + 2 * term x (S (i + d)) <= partial x i + 2 * term x (S i).
Proof.
  intros Hx. induction d as [|d IH]; [rewrite Nat.add_0_r; lia|].
  rewrite Nat.add_succ_r. cbn [partial]. pose proof (term_halves x (i + d) Hx). lia.
Qed.

Lemma verdict_exact q x : 0 <= x <= e34Scale ->
  verdict q x = Some (if q <? taylor x then e34Below else e34Above).
Proof.
  intros Hx. destruct (verdict_decides q x) as (c & k & E & Hk & _ & D); [unfold exponentBound; lia|].
  rewrite E. f_equal. unfold taylor, above, below in *.
  pose proof (partial_grows x k 1000 ltac:(lia) ltac:(lia)).
  pose proof (tail_bound x k (1000 - k) Hx). replace (k + (1000 - k))%nat with 1000%nat in * by lia.
  pose proof (term_nonneg x (S k) ltac:(lia)). pose proof (term_nonneg x 1001 ltac:(lia)).
  destruct c; [| |done]; zbool; (done || lia).
Qed.

(** ** The logarithm always returns *)

(** The value the code computes for the base of the logarithm. *)
Definition eulerE : Z := 27182818284590452353602874043083282.

Lemma e34Exp_one : e34Exp e34Scale = Ok eulerE.
Proof. vm_compute. reflexivity. Qed.

Lemma eulerE_bounds : 2 * e34Scale <= eulerE.
Proof. apply Z.leb_le. vm_compute. reflexivity. Qed.

Lemma square_doubles a b : 2 * e34Scale <= a -> 2 * e34Scale <= b -> 2 * e34Scale <= b /\ 0 < b /\ 2 * b <= e34Mul a b.
Proof.
  intros. rewrite e34Mul_div. pose proof e34Scale_pos. split_and!; [lia..|]. apply Z.div_le_lower_bound; nia.
Qed.

Lemma powerPos_large base p : 2 * e34Scale <= base -> 2 * e34Scale <= powerPos base p.
Proof.
  intros Hb. pose proof e34Scale_pos. induction p as [p IH|p IH|]; cbn [powerPos].
  - pose proof (square_doubles _ _ IH IH).
    pose proof (square_doubles base (e34Mul (powerPos base p) (powerPos base p)) Hb ltac:(lia)). lia.
  - pose proof (square_doubles _ _ IH IH). lia.
  - rewrite e34Mul_div, Z.div_mul by lia. done.
Qed.

Lemma e34Power_defined base n : 2 * e34Scale <= base -> exists v, e34Power base n = Ok v /\ 0 <= v.
Proof.
  intros Hb. pose proof e34Scale_pos. destruct n as [|p|p]; cbn [e34Power].
  - eexists. split; [done|lia].
  - eexists. split; [done|]. pose proof (powerPos_large base p Hb). lia.
  - pose proof (powerPos_large base p Hb). rewrite e34Div_div by lia.
    eexists. split; [done|]. apply Z.div_pos; nia.
Qed.

Lemma bracketLoop_S n v lv uv l u r :
  bracketLoop n v (e34Mul lv lv) (e34Mul uv uv) (Z.shiftl l 1) (Z.shiftl u 1) = Ok r ->
  exists r, bracketLoop (S n) v lv uv l u = Ok r.
Proof. intros E. cbn [bracketLoop]. destruct (_ || _); eauto. Qed.

Lemma bracketLoop_upper n : forall v uv l u,
  0 < v -> 2 * e34Scale <= uv -> v <= uv * 2 ^ Z.of_nat n -> exists r, bracketLoop n v 0 uv l u = Ok r.
Proof.
  induction n as [|n IH]; intros v uv l u Hv Hu Hn.
  - simpl. destruct (Z.ltb_spec v 0); [lia|]. destruct (Z.ltb_spec uv v); [lia|]. simpl. eauto.
  - destruct (IH v (e34Mul uv uv) (Z.shiftl l 1) (Z.shiftl u 1) Hv) as [r Hr].
    + pose proof (square_doubles uv uv Hu Hu). lia.
    + pose proof (square_doubles uv uv Hu Hu). rewrite Nat2Z.inj_succ, Z.pow_succ_r in Hn by lia. nia.
    + apply (bracketLoop_S n v 0 uv l u r). by rewrite e34Mul_div, Z.div_0_l by (pose proof e34Scale_pos; lia).
Qed.

(** The squarings of the lower value: [1/e] to the power [2 ^ k]. *)
Fixpoint lowerAt (k : nat) : Z :=
  match k with O => e34Scale * e34Scale / eulerE | S k => let v := lowerAt k in e34Mul v v end.

Fixpoint upperAt (k : nat) : Z :=
  match k with O => eulerE | S k => let v := upperAt k in e34Mul v v end.

Lemma upperAt_large k : 2 * e34Scale <= upperAt k.
Proof.
  induction k as [|k IH]; [apply eulerE_bounds|]. cbn [upperAt].
  pose proof (square_doubles _ _ IH IH). pose proof e34Scale_pos. lia.
Qed.

Lemma lowerAt_7 : lowerAt 7 = 0.
Proof. vm_compute. reflexivity. Qed.

Lemma bracketLoop_back j : forall k n v,
  (forall l u, exists r, bracketLoop n v (lowerAt (k + j)) (upperAt (k + j)) l u = Ok r) ->
  forall l u, exists r, bracketLoop (j + n) v (lowerAt k) (upperAt k) l u = Ok r.
Proof.
  induction j as [|j IH]; intros k n v H l u; [rewrite Nat.add_0_r in H; apply H|].
  destruct (IH (S k) n v) with (l := Z.shiftl l 1) (u := Z.shiftl u 1) as [r Hr].
  { intros l' u'. rewrite Nat.add_succ_comm. apply H. }
  apply (bracketLoop_S (j + n) v (lowerAt k) (upperAt k) l u r). exact Hr.
Qed.

Lemma log2_up_bound v : 0 < v -> v <= 2 ^ Z.log2_up v.
Proof.
  intros Hv. destruct (decide (v = 1)) as [->|]; [done|].
  apply (Z.log2_up_spec v). lia.
Qed.

Lemma bracket_returns v l u : 0 < v ->
  exists r, bracketLoop (bracketFuel v) v (lowerAt 0) (upperAt 0) l u = Ok r.
Proof.
  intros Hv. unfold bracketFuel. change (8 + ?n)%nat with (7 + S n)%nat.
  apply bracketLoop_back. intros l' u'. change (0 + 7)%nat with 7%nat. rewrite lowerAt_7.
  pose proof (upperAt_large 7) as Hu. revert Hu. generalize (upperAt 7). intros uv Hu.
  apply bracketLoop_upper; [done..|]. pose proof e34Scale_pos.
  rewrite Nat2Z.inj_succ, Z2Nat.id, Z.pow_succ_r by apply Z.log2_up_nonneg.
  pose proof (log2_up_bound v Hv). nia.
Qed.

(** Which bracket it is: a power of two on each side, and no larger than the
    first whose lower value [v] reaches. *)
Lemma bracketLoop_shape n : forall k v l u,
  bracketLoop n v (lowerAt k) (upperAt k) (- 2 ^ Z.of_nat k) (2 ^ Z.of_nat k) = Ok (l, u) ->
  exists m, (k <= m)%nat /\ l = - 2 ^ Z.of_nat m /\ u = 2 ^ Z.of_nat m /\
    (forall j, v <= eulerE -> (k <= j)%nat -> lowerAt j <= v -> (m <= j)%nat).
Proof.
  induction n as [|n IH]; intros k v l u; cbn [bracketLoop];
    (destruct ((v <? lowerAt k) || (upperAt k <? v)) eqn:C; [|intros [= <- <-]; exists k; split_and!; lia]); [done|].
  intros E. replace (Z.shiftl (- 2 ^ Z.of_nat k) 1) with (- 2 ^ Z.of_nat (S k)) in E.
  2:{ rewrite Z.shiftl_mul_pow2, Nat2Z.inj_succ, Z.pow_succ_r by lia. lia. }
  replace (Z.shiftl (2 ^ Z.of_nat k) 1) with (2 ^ Z.of_nat (S k)) in E.
  2:{ rewrite Z.shiftl_mul_pow2, Nat2Z.inj_succ, Z.pow_succ_r by lia. lia. }
  apply (IH (S k)) in E as (m & Hm & -> & -> & Hj). exists m. split_and!; [lia|done|done|].
  intros j Hv Hk Hl. destruct (decide (j = k)) as [->|]; [|apply Hj; lia]. exfalso.
  assert (eulerE <= upperAt k).
  { clear -Hk. induction k as [|k IHk]; [cbn [upperAt]; lia|]. cbn [upperAt].
    pose proof (upperAt_large k). pose proof (square_doubles (upperAt k) (upperAt k)).
    pose proof e34Scale_pos. specialize (IHk ltac:(lia)). lia. }
  apply orb_prop in C as [?%Z.ltb_lt|?%Z.ltb_lt]; lia.
Qed.

Lemma bisect_returns n : forall v e l u,
  2 * e34Scale <= e -> l < u -> u - l <= 2 ^ Z.of_nat n ->
  exists m, bisectLoop n v e l u = Ok m /\ l <= m < u.
Proof.
  induction n as [|n IH]; intros v e l u He Hlu Hd; cbn [bisectLoop].
  - destruct (Z.eqb_spec (u - l) 1); [exists l; split; [done|lia]|]. change (2 ^ Z.of_nat 0) with 1 in Hd. lia.
  - destruct (Z.eqb_spec (u - l) 1); [exists l; split; [done|lia]|].
    rewrite Nat2Z.inj_succ, Z.pow_succ_r in Hd by lia. rewrite Z.shiftr_div_pow2 by lia.
    change (2 ^ 1) with 2. set (mid := l + (u - l) / 2). assert (l < mid < u /\ u - mid <= 2 ^ Z.of_nat n /\ mid - l <= 2 ^ Z.of_nat n).
    { subst mid. pose proof (Z.div_mod (u - l) 2 ltac:(lia)). pose proof (Z.mod_pos_bound (u - l) 2 ltac:(lia)). lia. }
    destruct (e34Power_defined e mid He) as (p & -> & _). cbn [mbind result_bind].
    destruct (v <? p).
    + destruct (IH v e l mid) as (m & E & ?); [lia..|]. exists m. split; [done|lia].
    + destruct (IH v e mid u) as (m & E & ?); [lia..|]. exists m. split; [done|lia].
Qed.

Lemma lnCF_returns fuel : forall r budget depth previous aO bO aP bP,
  0 <= r -> 0 <= depth <= budget -> Z.of_nat fuel = budget - depth + 1 ->
  0 <= aO -> 0 <= bO -> 0 <= aP -> e34Scale <= bP ->
  exists c, lnCFLoop fuel r budget depth previous aO bO aP bP = Ok c /\ 0 <= c.
Proof.
  induction fuel as [|fuel IH]; intros r budget depth previous aO bO aP bP Hr Hd Hf HaO HbO HaP HbP; [lia|].
  pose proof e34Scale_pos. cbn [lnCFLoop].
  set (coefficient := if 0 <? depth then _ else _).
  assert (0 <= coefficient).
  { subst coefficient. destruct (0 <? depth); [|done]. apply Z.mul_nonneg_nonneg; [done|]. apply Z.square_nonneg. }
  clearbody coefficient.
  set (a := e34Mul _ aP + _). set (b := e34Mul _ bP + _).
  assert (0 <= a).
  { subst a. pose proof (e34Mul_mono ((depth + 1) * e34Scale) aP _ aP ltac:(split; [nia|reflexivity]) ltac:(lia)).
    pose proof (e34Mul_mono coefficient aO coefficient aO ltac:(lia) ltac:(lia)). lia. }
  assert (e34Scale <= b).
  { subst b. pose proof (e34Mul_mono coefficient bO coefficient bO ltac:(lia) ltac:(lia)).
    assert (bP <= e34Mul ((depth + 1) * e34Scale) bP) 
      by (rewrite e34Mul_div; apply Z.div_le_lower_bound; [lia|];
          pose proof (Z.mul_nonneg_nonneg depth (e34Scale * bP) ltac:(lia) ltac:(nia)); lia).
    lia. }
  rewrite e34Div_div by lia. cbn [mbind result_bind].
  assert (0 <= a * e34Scale / b) by (apply Z.div_pos; nia).
  destruct (Z.eqb_spec depth budget); [simpl; eauto|]. cbn [orb].
  destruct ((0 <? depth) && _); [eauto|].
  apply IH; lia.
Qed.

Lemma e34LnCF_returns r : e34LnCF r 1000 = Err ErrContinuedFraction \/ exists c, e34LnCF r 1000 = Ok c /\ 0 <= c.
Proof.
  unfold e34LnCF. destruct (Z.ltb_spec r 0); [by left|]. right.
  apply lnCF_returns; pose proof e34Scale_pos; lia.
Qed.

Lemma powerPos_fits : forallb (fun n => powerPos eulerE (Pos.of_nat n) <=? e34Scale * e34Scale) (seq 1 64) = true.
Proof. vm_compute. reflexivity. Qed.

Lemma e34Power_positive n : -64 <= n -> exists p, e34Power eulerE n = Ok p /\ 0 < p.
Proof.
  intros Hn. pose proof e34Scale_pos. destruct n as [|p|p]; cbn [e34Power].
  - eexists. split; [done|lia].
  - eexists. split; [done|]. pose proof (powerPos_large eulerE p eulerE_bounds). lia.
  - pose proof (powerPos_large eulerE p eulerE_bounds). rewrite e34Div_div by lia.
    eexists. split; [done|]. apply Z.div_str_pos. split; [lia|].
    pose proof powerPos_fits as F. rewrite forallb_forall in F.
    specialize (F (Pos.to_nat p)). rewrite Pos2Nat.id in F. apply Z.leb_le, F.
    apply in_seq. lia.
Qed.

(** The integer part of the logarithm: the bracket and the bisection always
    end, within 64 of zero for the values the leader check can meet. *)
Lemma ln_integer_part v : 0 < v ->
  exists l u m, bracketLoop (bracketFuel v) v (lowerAt 0) (upperAt 0) (-1) 1 = Ok (l, u) /\
    bisectLoop (bisectFuel l u) v eulerE l u = Ok m /\ l <= m < u /\
    (10 ^ 14 <= v <= eulerE -> -64 <= m).
Proof.
  intros Hv. destruct (bracket_returns v (-1) 1 Hv) as [[l u] E].
  pose proof (bracketLoop_shape _ 0 _ _ _ E) as (k & _ & -> & -> & Hk).
  exists (- 2 ^ Z.of_nat k), (2 ^ Z.of_nat k).
  pose proof (Z.pow_pos_nonneg 2 (Z.of_nat k) ltac:(lia) ltac:(lia)).
  destruct (bisect_returns (bisectFuel (- 2 ^ Z.of_nat k) (2 ^ Z.of_nat k)) v eulerE (- 2 ^ Z.of_nat k) (2 ^ Z.of_nat k))
    as (m & Em & Hm); [apply eulerE_bounds|lia| |].
  { unfold bisectFuel. rewrite Z2Nat.id by apply Z.log2_up_nonneg. apply log2_up_bound. lia. }
  exists m. split_and!; [done|done|lia|lia|]. intros Hv'.
  assert (k <= 6)%nat.
  { apply Hk; [lia|lia|]. assert (lowerAt 6 <= 10 ^ 14) by (apply Z.leb_le; vm_compute; reflexivity). lia. }
  assert (2 ^ Z.of_nat k <= 2 ^ 6) by (apply Z.pow_le_mono_r; lia). lia.
Qed.

Lemma e34Ln_unfold v : 0 < v ->
  e34Ln v =
  ('(lower, upper) ← bracketLoop (bracketFuel v) v (lowerAt 0) (upperAt 0) (-1) 1;
   lower ← bisectLoop (bisectFuel lower upper) v eulerE lower upper;
   power ← e34Power eulerE lower;
   q ← e34Div v power;
   fraction ← e34LnCF (q - e34Scale) 1000;
   Ok (lower * e34Scale + fraction)).
Proof.
  intros Hv. unfold e34Ln. destruct (Z.leb_spec v 0); [lia|]. rewrite e34Exp_one.
  cbn [mbind result_bind]. rewrite (e34Div_div _ eulerE) by done. done.
Qed.

(** [e34Ln] never runs out of the model's fuel. *)
Lemma e34Ln_terminates v : e34Ln v <> Err OutOfFuel.
Proof.
  destruct (Z.leb_spec v 0) as [Hv|Hv]; [unfold e34Ln; by rewrite (proj2 (Z.leb_le v 0) Hv)|].
  rewrite e34Ln_unfold by done. destruct (ln_integer_part v Hv) as (l & u & m & -> & E & _).
  cbn [mbind result_bind]. rewrite E. cbn [mbind result_bind].
  destruct (e34Power_defined eulerE m eulerE_bounds) as (p & -> & _). cbn [mbind result_bind].
  destruct (decide (p = 0)) as [->|Hp].
  { done. }
  rewrite e34Div_div by done. cbn [mbind result_bind].
  destruct (e34LnCF_returns (v * e34Scale / p - e34Scale)) as [->|(c & -> & _)]; done.
Qed.

Lemma e34Ln_returns v : 10 ^ 14 <= v <= eulerE ->
  e34Ln v = Err ErrContinuedFraction \/ exists c, e34Ln v = Ok c /\ - exponentBound <= c.
Proof.
  intros Hv. pose proof e34Scale_pos. rewrite e34Ln_unfold by lia.
  destruct (ln_integer_part v) as (l & u & m & -> & E & _ & Hm); [lia|].
  cbn [mbind result_bind]. rewrite E. cbn [mbind result_bind].
  destruct (e34Power_positive m) as (p & -> & Hp); [auto|]. cbn [mbind result_bind].
  rewrite e34Div_div by lia. cbn [mbind result_bind].
  destruct (e34LnCF_returns (v * e34Scale / p - e34Scale)) as [->|(c & -> & Hc)]; [by left|].
  right. eexists. split; [done|]. unfold exponentBound. specialize (Hm Hv). nia.
Qed.

(** The terms as one floor each. *)
Lemma term_floor x i : term x (S (S i)) = term x (S i) * x / (e34Scale * Z.of_nat (S (S i))).
Proof. rewrite term_SS. apply Z.div_div; pose proof e34Scale_pos; lia. Qed.
