(* ===== verification/E34Real.v ===== *)
(** * The leader comparison against the real exponential

    [e34Compare] decides with integers and rounds every division down; here its
    verdict is compared with [exp] on the reals. *)

From S2P Require Import Prelude E34.
From Stdlib Require Import Reals Lra.
#[local] Open Scope R_scope.
#[local] Set Default Proof Using "All".

Section Series.
Context (x : Z) (Hx : (0 <= x <= e34Scale)%Z).

Let SR : R := IZR e34Scale.
Let y : R := IZR x / SR.

(** The exact terms, at the scale of the code. *)
Definition exact (i : nat) : R := SR * (/ INR (fact i) * y ^ i).

#[local] Lemma SR_pos : 0 < SR.
Proof using Type. apply (IZR_lt 0), e34Scale_pos. Qed.

#[local] Lemma y_bounds : 0 <= y <= 1.
Proof.
  pose proof SR_pos. unfold y. destruct Hx as [H0%IZR_le H1%IZR_le]. fold SR in H1. split.
  - apply Rmult_le_pos; [lra|]. left. by apply Rinv_0_lt_compat.
  - apply (Rmult_le_reg_r SR); [done|]. unfold Rdiv. rewrite Rmult_assoc, Rinv_l; lra.
Qed.

Lemma exact_S i : exact (S i) = exact i * y / INR (S i).
Proof.
  unfold exact. rewrite fact_simpl, mult_INR. cbn [pow].
  field. split; [apply INR_fact_neq_0|apply not_0_INR; lia].
Qed.

Lemma exact_nonneg i : 0 <= exact i.
Proof.
  unfold exact. pose proof SR_pos. pose proof y_bounds.
  apply Rmult_le_pos; [lra|]. apply Rmult_le_pos; [|apply pow_le; lra].
  left. apply Rinv_0_lt_compat, INR_fact_lt_0.
Qed.

Lemma exact_halves i : 2 * exact (S (S i)) <= exact (S i).
Proof.
  rewrite (exact_S (S i)). pose proof y_bounds. pose proof (exact_nonneg (S i)).
  assert (2 <= INR (S (S i))) by (apply (le_INR 2); lia).
  assert (0 < / INR (S (S i)) <= / 2) by (split; [apply Rinv_0_lt_compat; lra|apply Rinv_le_contravar; lra]).
  unfold Rdiv. assert (0 <= exact (S i) * y <= exact (S i)) by nra. nra.
Qed.

(** Each term of the code is below the exact one, by at most two units. *)
Lemma term_exact i : IZR (term x i) <= exact i /\ exact i - 2 <= IZR (term x i).
Proof.
  induction i as [|[|i] IH].
  - unfold exact. simpl. fold SR. lra.
  - unfold exact. simpl. unfold y. pose proof SR_pos. replace (SR * (/ 1 * (IZR x / SR * 1))) with (IZR x) by (field; lra). lra.
  - rewrite term_floor, exact_S. revert IH. generalize (exact_nonneg (S i)). generalize (exact (S i)) (term x (S i)).
    intros r t Hr IH. pose proof y_bounds. pose proof SR_pos. pose proof e34Scale_pos.
    set (n := Z.of_nat (S (S i))). rewrite INR_IZR_INZ. fold n.
    assert (Hn : 2 <= IZR n) by (apply (IZR_le 2); lia).
    assert (Hinv : 0 < / IZR n <= / 2) by (split; [apply Rinv_0_lt_compat; lra|apply Rinv_le_contravar; lra]).
    set (d := (e34Scale * n)%Z). assert (Hd : (0 < d)%Z) by lia.
    assert (Ed : IZR d = SR * IZR n) by (unfold d; apply mult_IZR).
    pose proof (Z.mul_div_le (t * x) d Hd) as Hlo. pose proof (Z.mul_succ_div_gt (t * x) d Hd) as Hhi.
    apply IZR_le in Hlo. apply IZR_lt in Hhi. rewrite !mult_IZR in *. rewrite succ_IZR in Hhi. rewrite Ed in Hlo, Hhi.
    assert (Ex : IZR x = SR * y) by (unfold y; field; lra). rewrite Ex in Hlo, Hhi.
    set (f := IZR (t * x / d)) in *.
    assert (Hlo' : f <= IZR t * y * / IZR n).
    { apply (Rmult_le_reg_l (SR * IZR n)); [nra|].
      replace (SR * IZR n * (IZR t * y * / IZR n)) with (IZR t * (SR * y)) by (field; lra). lra. }
    assert (Hhi' : IZR t * y * / IZR n <= f + 1).
    { apply (Rmult_le_reg_l (SR * IZR n)); [nra|].
      replace (SR * IZR n * (IZR t * y * / IZR n)) with (IZR t * (SR * y)) by (field; lra). lra. }
    unfold Rdiv. assert (0 <= y * / IZR n <= / 2) by nra. nra.
Qed.

Lemma partial_exact n :
  IZR (partial x n) <= sum_f_R0 exact n /\ sum_f_R0 exact n - 2 * INR n <= IZR (partial x n).
Proof.
  induction n as [|n IH].
  - simpl. unfold exact. simpl. fold SR. lra.
  - cbn [partial sum_f_R0]. rewrite plus_IZR, S_INR. pose proof (term_exact (S n)). lra.
Qed.

Lemma exp_series : Un_cv (sum_f_R0 exact) (SR * exp y).
Proof using Type.
  pose proof (proj2_sig (exist_exp y)) as H. fold (exp y) in H.
  assert (E : forall n, sum_f_R0 exact n = SR * sum_f_R0 (fun i => / INR (fact i) * y ^ i) n).
  { intros n. unfold exact. rewrite scal_sum. apply sum_eq. intros. ring. }
  apply (Un_cv_ext (fun n => SR * sum_f_R0 (fun i => / INR (fact i) * y ^ i) n)); [by intros; rewrite E|].
  apply (CV_mult (fun _ => SR)); [|exact H].
  intros eps He. exists 0%nat. intros. unfold R_dist. rewrite Rminus_diag. by rewrite Rabs_R0.
Qed.

Lemma sum_below_exp n : sum_f_R0 exact n <= SR * exp y.
Proof. apply sum_incr; [apply exp_series|apply exact_nonneg]. Qed.

Lemma exp_below_sum n : SR * exp y <= sum_f_R0 exact n + 2 * exact (S n).
Proof.
  assert (H : forall d, sum_f_R0 exact (n + d) + 2 * exact (S (n + d)) <= sum_f_R0 exact n + 2 * exact (S n)).
  { induction d as [|d IH]; [rewrite Nat.add_0_r; lra|]. rewrite Nat.add_succ_r. cbn [sum_f_R0].
    pose proof (exact_halves (n + d)). lra. }
  apply (@Rle_cv_lim (fun d => sum_f_R0 exact (n + d)) (fun _ => sum_f_R0 exact n + 2 * exact (S n))).
  - intros d. specialize (H d). pose proof (exact_nonneg (S (n + d))). lra.
  - intros eps He. destruct (exp_series eps He) as [N HN]. exists N. intros m Hm. apply HN. lia.
  - intros eps He. exists 0%nat. intros. unfold R_dist. rewrite Rminus_diag. by rewrite Rabs_R0.
Qed.

Lemma exact_small n : 2 ^ n * exact (S n) <= SR.
Proof.
  induction n as [|n IH].
  - unfold exact. simpl. pose proof y_bounds. pose proof SR_pos. nra.
  - pose proof (exact_halves n). pose proof (pow_le 2 n ltac:(lra)). cbn [pow]. nra.
Qed.

Lemma partial_stable n : (120 <= n)%nat -> partial x n = partial x 120.
Proof.
  induction 1 as [|n Hn IH]; [done|].
  change (partial x (S n)) with (partial x n + term x (S n))%Z. rewrite IH.
  enough (term x (S n) = 0)%Z by lia. apply (term_zero x 120); [|done].
  assert (E : term e34Scale 121 = 0%Z) by (vm_compute; reflexivity).
  pose proof (term_mono x e34Scale 121 Hx) as Hm. rewrite E in Hm. lia.
Qed.

(** The integer series is the exponential up to 241 units in the last place. *)
Lemma taylor_exp : IZR (taylor x) <= SR * exp y <= IZR (taylor x) + 241.
Proof.
  unfold taylor. rewrite partial_stable by lia.
  pose proof (partial_exact 120) as Hp. pose proof (sum_below_exp 120). pose proof (exp_below_sum 120).
  assert (2 * exact 121 <= 1).
  { pose proof (exact_small 120) as Hs. pose proof (exact_nonneg 121).
    assert (2 * SR <= 2 ^ 120).
    { unfold SR. rewrite <- (mult_IZR 2). rewrite (pow_IZR 2). apply IZR_le, Z.leb_le. vm_compute. reflexivity. }
    pose proof SR_pos. nra. }
  replace (2 * INR 120) with 240 in Hp by (rewrite INR_IZR_INZ; change (Z.of_nat 120) with 120%Z; lra). lra.
Qed.
End Series.

(** C29. For an exponent between zero and one, the comparison always decides,
    never reaching its limit of turns; it answers [e34Below] only when the value
    is below the exponential, and [e34Above] only when it is at least the
    exponential less 241 units of the 34th decimal. *)
Theorem compare_exp q x :
  (0 <= x <= e34Scale)%Z ->
  exists c acc n, e34Compare q x = Ok (c, acc, n) /\
    let bound := IZR e34Scale * exp (IZR x / IZR e34Scale) in
    (c = e34Below /\ IZR q < bound) \/ (c = e34Above /\ bound - 241 <= IZR q).
Proof.
  intros Hx. pose proof (verdict_exact q x Hx) as E. unfold verdict in E.
  destruct (e34Compare q x) as [[[c acc] n]|]; [|done]. injection E as E.
  exists c, acc, n. split; [done|]. pose proof (taylor_exp x Hx) as Ht. cbn zeta.
  destruct (Z.ltb_spec q (taylor x)) as [Hq|Hq]; [left|right]; (split; [done|]).
  - apply IZR_lt in Hq. lra.
  - apply IZR_le in Hq. lra.
Qed.

(** Witness of C29: the exponent of a pool with all the stake at an active slot
    coefficient of one twentieth. *)
Lemma compare_exp_witness :
  exists c acc n, e34Compare 10520000000000000000000000000000000 512932943875505334261962382072846 = Ok (c, acc, n) /\
    let bound := IZR e34Scale * exp (IZR 512932943875505334261962382072846 / IZR e34Scale) in
    (c = e34Below /\ IZR 10520000000000000000000000000000000 < bound) \/
    (c = e34Above /\ bound - 241 <= IZR 10520000000000000000000000000000000).
Proof. apply compare_exp. split; apply Z.leb_le; vm_compute; reflexivity. Defined.
