(* ===== verification/Eligibility.v ===== *)
(** * Leader eligibility (src/consensus/eligibility.go, eligibility_cache.go)

    The prepared predicate of a pool: its relative stake, the logarithm of one
    minus the active slot coefficient, and the comparison of a certified natural
    with the resulting exponential; and the cache of prepared states, a bounded
    map with a list in order of use. *)

From S2P Require Import Prelude Kes E34.

(** [ConsensusMode] is an [int]; the constants are the two values in use. *)
Definition ConsensusModeCPraos : Z := 0.
Definition ConsensusModeTPraos : Z := 1.

(** A [*big.Rat] that is not nil, in lowest terms as [math/big] keeps it. *)
Record Rat := mkRat { Num : Z; Denom : Z }.
Definition rat_wf (r : Rat) : Prop := 0 < Denom r /\ Z.gcd (Num r) (Denom r) = 1.

Inductive consensusError :=
| ErrUnknownMode (mode : Z) | ErrCoeffNil | ErrCoeffDomain | ErrTotalStakeZero | ErrPoolStakeZero
| ErrE34 (e : e34Error) | ErrUninitialized | ErrNaturalNil | ErrNaturalRange | ErrOutputLength
| ErrSignerNil | ErrNonceLength | ErrSlotRange | ErrVRFInput | ErrProve | ErrProofLength
| ErrContextNil | ErrSlotOrder | ErrContextDone.

Abbreviation out A := (result consensusError A).

(** An error of the arithmetic is passed on as it is. *)
Definition lift34 {A} (r : result e34Error A) : out A :=
  match r with Ok a => Ok a | Err e => Err (ErrE34 e) end.

Definition twoTo256 : Z := 2 ^ 256.
Definition twoTo512 : Z := 2 ^ 512.

Record leaderEligibilityState := mkState {
  mode : Z;
  maximum : Z;
  sigma : Z;
  c : Z;
  x : Z;
  unconditional : bool
}.

Record leaderEligibilityCacheKey := mkKey {
  poolStake : Z;
  totalStake : Z;
  numerator : Z;
  denominator : Z;
  kmode : Z
}.

#[export] Instance key_eq_dec : EqDecision leaderEligibilityCacheKey.
Proof. solve_decision. Defined.

#[export] Instance key_countable : Countable leaderEligibilityCacheKey.
Proof.
  refine (inj_countable' (fun k => (poolStake k, totalStake k, numerator k, denominator k, kmode k))
    (fun '(p, t, n, d, m) => mkKey p t n d m) _). by intros [].
Defined.

Definition validateConsensusMode (m : Z) : out unit :=
  if (m =? ConsensusModeCPraos) || (m =? ConsensusModeTPraos) then Ok () else Err (ErrUnknownMode m).

Definition IsUint64 (z : Z) : bool := (0 <=? z) && (z <=? MaxUint64).

Definition validateActiveSlotCoefficient (f : option Rat) : out unit :=
  match f with
  | None => Err ErrCoeffNil
  | Some f =>
    let fits :=
      if (0 <? Num f) && (Num f <=? Denom f) && IsUint64 (Num f) && IsUint64 (Denom f) then
        let '(hi, lo) := mul64 (Num f) 10000000000000000000 in
        negb (hi =? 0) || (Denom f <=? lo)
      else false in
    if fits then Ok () else Err ErrCoeffDomain
  end.

Definition prepareLeaderEligibility (key : leaderEligibilityCacheKey) : out leaderEligibilityState :=
  let maximum := if kmode key =? ConsensusModeCPraos then twoTo256 else twoTo512 in
  sigma ← lift34 (e34FromRatio (poolStake key) (totalStake key));
  if numerator key =? denominator key then Ok (mkState (kmode key) maximum sigma 0 0 true) else
  f ← lift34 (e34FromRatio (numerator key) (denominator key));
  c ← lift34 (e34Ln (e34Scale - f));
  Ok (mkState (kmode key) maximum sigma c (- e34Mul sigma c) false).

(** ** The cache

    [entries] maps a key to an element of the list [order], the most recently
    used first; an element is a cell of [cells], which holds the key and the
    state. *)

Definition leaderEligibilityCacheMaxEntries : Z := 4096.

Record leaderEligibilityCache := mkCache {
  entries : gmap leaderEligibilityCacheKey nat;
  order : list nat;
  cells : gmap nat (leaderEligibilityCacheKey * leaderEligibilityState);
  nextCell : nat;
  maxSize : Z
}.

Definition newLeaderEligibilityCache (maxSize : Z) : leaderEligibilityCache := mkCache ∅ [] ∅ 0 maxSize.

(** [container/list]'s [MoveToFront] and [Remove]. *)
Definition remove_elem (e : nat) (l : list nat) : list nat := filter (fun e' => e' <> e) l.
Definition moveToFront (e : nat) (l : list nat) : list nat := e :: remove_elem e l.

Definition get (key : leaderEligibilityCacheKey) (ca : leaderEligibilityCache)
    : option leaderEligibilityState * leaderEligibilityCache :=
  match entries ca !! key with
  | None => (None, ca)
  | Some e =>
    (snd <$> cells ca !! e,
     mkCache (entries ca) (moveToFront e (order ca)) (cells ca) (nextCell ca) (maxSize ca))
  end.

Definition put (key : leaderEligibilityCacheKey) (st : leaderEligibilityState) (ca : leaderEligibilityCache)
    : leaderEligibilityCache :=
  match entries ca !! key with
  | Some e =>
    mkCache (entries ca) (moveToFront e (order ca)) (<[e := (key, st)]> (cells ca)) (nextCell ca) (maxSize ca)
  | None =>
    let e := nextCell ca in
    let ca := mkCache (<[key := e]> (entries ca)) (e :: order ca) (<[e := (key, st)]> (cells ca))
                (S e) (maxSize ca) in
    if maxSize ca <? blen (order ca) then
      match last (order ca) with
      | None => ca
      | Some oldest =>
        mkCache (match cells ca !! oldest with Some (k, _) => delete k (entries ca) | None => entries ca end)
          (remove_elem oldest (order ca)) (cells ca) (nextCell ca) (maxSize ca)
      end
    else ca
  end.

(** What is looked up, after the checks; [None] is an error of the checks. *)
Definition eligibilityKey (pool total : Z) (f : option Rat) (m : Z) : out leaderEligibilityCacheKey :=
  _ ← validateConsensusMode m;
  _ ← validateActiveSlotCoefficient f;
  match f with
  | None => Err ErrCoeffNil
  | Some f =>
    if total =? 0 then Err ErrTotalStakeZero
    else Ok (mkKey (if total <? pool then total else pool) total (Num f) (Denom f) m)
  end.

Definition newLeaderEligibility (ca : leaderEligibilityCache) (pool total : Z) (f : option Rat) (m : Z)
    : out leaderEligibilityState * leaderEligibilityCache :=
  match eligibilityKey pool total f m with
  | Err e => (Err e, ca)
  | Ok key =>
    let '(hit, ca) := get key ca in
    match hit with
    | Some state => (Ok state, ca)
    | None =>
      match prepareLeaderEligibility key with
      | Err e => (Err e, ca)
      | Ok state => (Ok state, put key state ca)
      end
    end
  end.

(** ** The decision *)

Definition CheckCertifiedNatural (e : option leaderEligibilityState) (v : option Z) : out bool :=
  match e, v with
  | None, _ => Err ErrUninitialized
  | Some _, None => Err ErrNaturalNil
  | Some s, Some v =>
    if (v <? 0) || (maximum s <? v) then Err ErrNaturalRange
    else if unconditional s then Ok true else
    let q := maximum s * e34Scale in
    let d := maximum s - v in
    let q := if d =? 0 then q else Z.quot q d in
    '(classification, _, _) ← lift34 (e34Compare q (x s));
    Ok (bool_decide (classification = e34Below))
  end.

Section Hash.
Context `{KesCrypto}.

Definition VrfLeaderValue (vrfOutput : bytes) : bytes := blake2b (76 :: vrfOutput).

Definition VRFOutputToInt (output : bytes) : Z := be_decode output.

Definition CheckVRFOutput (e : option leaderEligibilityState) (output : bytes) : out bool :=
  match e with
  | None => Err ErrUninitialized
  | Some s =>
    if negb (blen output =? 64) then Err ErrOutputLength else
    let natural := if mode s =? ConsensusModeCPraos then be_decode (VrfLeaderValue output) else be_decode output in
    CheckCertifiedNatural e (Some natural)
  end.
End Hash.

(** ** Preparation *)

(** The keys that pass the checks. *)
Definition key_ok (k : leaderEligibilityCacheKey) : Prop :=
  (kmode k = ConsensusModeCPraos \/ kmode k = ConsensusModeTPraos) /\
  0 <= poolStake k <= totalStake k /\ 0 < totalStake k <= MaxUint64 /\
  0 < numerator k <= denominator k /\ denominator k <= MaxUint64 /\
  denominator k <= numerator k * 10 ^ 19.

Lemma validateConsensusMode_Ok m u :
  validateConsensusMode m = Ok u -> m = ConsensusModeCPraos \/ m = ConsensusModeTPraos.
Proof.
  unfold validateConsensusMode. destruct (Z.eqb_spec m ConsensusModeCPraos), (Z.eqb_spec m ConsensusModeTPraos); auto; done.
Qed.

Lemma coefficient_Ok f :
  validateActiveSlotCoefficient (Some f) = Ok () <->
  0 < Num f <= Denom f /\ Denom f <= MaxUint64 /\ Denom f <= Num f * 10 ^ 19.
Proof.
  unfold validateActiveSlotCoefficient, IsUint64, mul64, u64, MaxUint64.
  change 10000000000000000000 with (10 ^ 19).
  destruct (Z.ltb_spec 0 (Num f)); [|split; [done|lia]].
  destruct (Z.leb_spec (Num f) (Denom f)); [|split; [done|lia]].
  destruct (Z.leb_spec 0 (Num f)); [|lia]. destruct (Z.leb_spec 0 (Denom f)); [|lia].
  destruct (Z.leb_spec (Denom f) 18446744073709551615); [|cbn; destruct (Z.leb_spec (Num f) 18446744073709551615); cbn; split; (done || lia)].
  destruct (Z.leb_spec (Num f) 18446744073709551615); [|lia]. cbn [andb].
  pose proof (Z.div_mod (Num f * 10 ^ 19) 18446744073709551616 ltac:(lia)) as E.
  pose proof (Z.mod_pos_bound (Num f * 10 ^ 19) 18446744073709551616 ltac:(lia)).
  pose proof (Z.div_pos (Num f * 10 ^ 19) 18446744073709551616 ltac:(lia) ltac:(lia)).
  destruct (Z.eqb_spec (Num f * 10 ^ 19 / 18446744073709551616) 0) as [E0|E0]; cbn [negb orb].
  - rewrite E0 in E. destruct (Z.leb_spec (Denom f) (Num f * 10 ^ 19 mod 18446744073709551616)); split; (done || lia).
  - split; [lia|done].
Qed.

Lemma eligibilityKey_Ok pool total f m k :
  0 <= pool -> 0 <= total <= MaxUint64 ->
  eligibilityKey pool total f m = Ok k ->
  key_ok k /\ kmode k = m /\ poolStake k = Z.min pool total /\ totalStake k = total /\
  exists r, f = Some r /\ numerator k = Num r /\ denominator k = Denom r.
Proof.
  intros Hp Ht E. unfold eligibilityKey in E. peel E. peel E.
  apply validateConsensusMode_Ok in E0. destruct f as [f|]; [|done]. destruct v0.
  apply coefficient_Ok in E1 as (H1 & H2 & H3). destruct (Z.eqb_spec total 0); [done|].
  injection E as <-. unfold key_ok. simpl.
  split_and!; try done; try (destruct (Z.ltb_spec total pool); lia); try lia. by exists f.
Qed.

Lemma prepare_range k : key_ok k ->
  prepareLeaderEligibility k = Err (ErrE34 ErrContinuedFraction) \/
  exists s, prepareLeaderEligibility k = Ok s /\ mode s = kmode k /\
    maximum s = (if kmode k =? ConsensusModeCPraos then twoTo256 else twoTo512) /\ 
    sigma s = poolStake k * e34Scale / totalStake k /\ unconditional s = (numerator k =? denominator k) /\
    (unconditional s = false ->
       lift34 (e34Ln (e34Scale - numerator k * e34Scale / denominator k)) = Ok (c s) /\
       x s = - e34Mul (sigma s) (c s) /\ x s <= exponentBound).
Proof.
  intros (_ & Hp & Ht & Hn & Hd & _). unfold prepareLeaderEligibility, e34FromRatio.
  pose proof e34Scale_pos.
  rewrite (e34FloorQuotient_div (poolStake k * e34Scale)) by lia. cbn [lift34 mbind result_bind].
  destruct (Z.eqb_spec (numerator k) (denominator k)) as [En|En].
  { right. eexists. split; [done|]. simpl. split_and!; (done || reflexivity). }
  rewrite e34FloorQuotient_div by lia. cbn [lift34 mbind result_bind].
  set (v := e34Scale - numerator k * e34Scale / denominator k).
  assert (Hv : 10 ^ 14 <= v <= eulerE).
  { assert (Hup : numerator k * e34Scale / denominator k <= e34Scale - 10 ^ 14).
    { apply Z.div_le_upper_bound; [lia|].
      assert (denominator k * 10 ^ 14 <= e34Scale).
      { assert (MaxUint64 * 10 ^ 14 <= e34Scale) by (apply Z.leb_le; vm_compute; reflexivity). lia. }
      nia. }
    pose proof (Z.div_pos (numerator k * e34Scale) (denominator k) ltac:(nia) ltac:(lia)).
    pose proof eulerE_bounds. lia. }
  destruct (e34Ln_returns v Hv) as [->|(l & E & Hl)]; [by left|].
  rewrite E. cbn [lift34 mbind result_bind]. right. eexists. split; [done|]. simpl.
  split_and!; try (done || reflexivity). intros _. split_and!; [done..|].
  assert (0 <= poolStake k * e34Scale / totalStake k <= e34Scale).
  { split; [apply Z.div_pos; nia|]. apply Z.div_le_upper_bound; nia. }
  rewrite e34Mul_div. unfold exponentBound in *.
  enough (-64 * e34Scale <= poolStake k * e34Scale / totalStake k * l / e34Scale) by lia.
  apply Z.div_le_lower_bound; nia.
Qed.

(** ** The threshold *)

(** A decidable property that larger values lose is a comparison with a bound. *)
Lemma antitone_threshold (P : Z -> bool) M : 0 <= M ->
  (forall v w, 0 <= v <= w -> w <= M -> P w = true -> P v = true) ->
  exists T, 0 <= T <= M + 1 /\ forall v, 0 <= v <= M -> P v = (v <? T).
Proof.
  intros HM. revert HM P. apply (natlike_ind (fun M => forall P : Z -> bool,
    (forall v w, 0 <= v <= w -> w <= M -> P w = true -> P v = true) ->
    exists T, 0 <= T <= M + 1 /\ forall v, 0 <= v <= M -> P v = (v <? T))).
  - intros P HP. exists (if P 0 then 1 else 0). split; [destruct (P 0); lia|].
    intros v Hv. replace v with 0 by lia. by destruct (P 0).
  - intros M' HM' IH P HP. destruct (P (Z.succ M')) eqn:E.
    + exists (Z.succ M' + 1). split; [lia|]. intros v Hv. destruct (Z.ltb_spec v (Z.succ M' + 1)); [|lia].
      apply (HP v (Z.succ M')); (done || lia).
    + destruct (IH P) as (T & HT & Hv); [intros v w ? ?; apply HP; lia|].
      exists T. split; [lia|]. intros v Hv'. destruct (decide (v = Z.succ M')) as [->|]; [|apply Hv; lia].
      rewrite E. destruct (Z.ltb_spec (Z.succ M') T); [lia|done].
Qed.

(** The quotient compared with the exponential. *)
Definition quotient (s : leaderEligibilityState) (v : Z) : Z :=
  if maximum s - v =? 0 then maximum s * e34Scale else Z.quot (maximum s * e34Scale) (maximum s - v).

Lemma quotient_mono s v w : 0 <= v <= w -> w <= maximum s -> quotient s v <= quotient s w.
Proof.
  intros Hv Hw. unfold quotient. pose proof e34Scale_pos.
  assert (0 <= maximum s * e34Scale) by (apply Z.mul_nonneg_nonneg; lia).
  revert H0. generalize (maximum s * e34Scale). intros q Hq.
  destruct (Z.eqb_spec (maximum s - v) 0), (Z.eqb_spec (maximum s - w) 0); try lia.
  - rewrite Z.quot_div_nonneg by lia. apply Z.div_le_upper_bound; nia.
  - rewrite !Z.quot_div_nonneg by lia. apply Z.div_le_compat_l; lia.
Qed.

Definition elects (s : leaderEligibilityState) (v : Z) : bool :=
  unconditional s || bool_decide (verdict (quotient s v) (x s) = Some e34Below).

Lemma CheckCertifiedNatural_elects s v : 0 <= v <= maximum s ->
  CheckCertifiedNatural (Some s) (Some v) = Ok (elects s v).
Proof.
  intros Hv. unfold CheckCertifiedNatural, elects. fold (quotient s v).
  destruct (Z.ltb_spec v 0); [lia|]. destruct (Z.ltb_spec (maximum s) v); [lia|]. cbn [orb].
  destruct (unconditional s); [done|]. cbn [orb].
  pose proof (verdict_spec (quotient s v) (x s)) as (cl & E & _). revert E. unfold verdict.
  destruct (e34Compare (quotient s v) (x s)) as [[[c' ?] ?]|]; [|done]. intros [= ->]. cbn. f_equal.
  apply bool_decide_ext. split; congruence.
Qed.

(** ** The cache as a list of pairs, most recently used first *)

Abbreviation entry := (leaderEligibilityCacheKey * leaderEligibilityState)%type.

Definition lru_find (k : leaderEligibilityCacheKey) (l : list entry) : option leaderEligibilityState :=
  snd <$> head (filter (fun p => p.1 = k) l).

Definition lru_without (k : leaderEligibilityCacheKey) (l : list entry) : list entry :=
  filter (fun p => p.1 <> k) l.

(** A hit moves to the front; an insertion goes to the front and the list is
    cut to its bound. *)
Definition lru_get (k : leaderEligibilityCacheKey) (l : list entry) : list entry :=
  match lru_find k l with Some s => (k, s) :: lru_without k l | None => l end.

Definition lru_put (bound : Z) (k : leaderEligibilityCacheKey) (s : leaderEligibilityState) (l : list entry)
    : list entry := take (Z.to_nat bound) ((k, s) :: lru_without k l).

Definition contents (ca : leaderEligibilityCache) : list entry := omap (fun e => cells ca !! e) (order ca).

Record cache_wf (ca : leaderEligibilityCache) : Prop := {
  wf_nodup : NoDup (order ca);
  wf_fresh e : e ∈ order ca -> (e < nextCell ca)%nat;
  wf_cell e : e ∈ order ca -> exists k s, cells ca !! e = Some (k, s) /\ entries ca !! k = Some e;
  wf_entry k e : entries ca !! k = Some e -> e ∈ order ca /\ exists s, cells ca !! e = Some (k, s)
}.

Lemma cache_cell_inj ca e e' k s s' :
  cache_wf ca -> e ∈ order ca -> e' ∈ order ca ->
  cells ca !! e = Some (k, s) -> cells ca !! e' = Some (k, s') -> e = e'.
Proof.
  intros W He He' E E'.
  destruct (wf_cell ca W e He) as (k1 & s1 & E1 & F1). destruct (wf_cell ca W e' He') as (k2 & s2 & E2 & F2).
  rewrite E in E1. rewrite E' in E2. injection E1 as <- <-. injection E2 as <- <-. congruence.
Qed.

(** The element of a key is where the list of pairs has it. *)
Lemma contents_find ca k e s : cache_wf ca -> entries ca !! k = Some e -> cells ca !! e = Some (k, s) ->
  lru_find k (contents ca) = Some s.
Proof.
  intros W Ek Ec. pose proof (wf_entry ca W k e Ek) as (He & _).
  enough (H : forall l, l ⊆ order ca -> e ∈ l ->
    head (filter (fun p => p.1 = k) (omap (fun e => cells ca !! e) l)) = Some (k, s)).
  { unfold lru_find, contents. rewrite (H (order ca)); done. }
  induction l as [|e' l IH]; intros Hs Hin; [by apply elem_of_nil in Hin|].
  assert (He' : e' ∈ order ca) by (apply Hs; left).
  destruct (wf_cell ca W e' He') as (k' & s' & E' & F'). cbn [omap list_omap]. rewrite E'.
  destruct (decide (k' = k)) as [->|Hk].
  - rewrite filter_cons_True by done. assert (e' = e) as -> by congruence. rewrite Ec in E'. by injection E' as <-.
  - rewrite filter_cons_False by done. apply IH; [by intros ? ?; apply Hs; right|].
    apply elem_of_cons in Hin as [->|]; [|done]. congruence.
Qed.

Lemma contents_find_None ca k : cache_wf ca -> entries ca !! k = None ->
  lru_find k (contents ca) = None /\ lru_without k (contents ca) = contents ca.
Proof.
  intros W Ek.
  assert (H : Forall (fun p => p.1 <> k) (contents ca)).
  { apply Forall_forall. intros [k' s] Hp. apply list_elem_of_omap in Hp as (e & He & Ee). simpl. intros ->.
    destruct (wf_cell ca W e He) as (k1 & s1 & E1 & F1). rewrite Ee in E1. injection E1 as <- <-. congruence. }
  split; [|by apply filter_all]. unfold lru_find. by rewrite filter_none.
Qed.

(** Removing an element removes the pair of its key. *)
Lemma contents_remove ca k e : cache_wf ca -> entries ca !! k = Some e ->
  omap (fun e => cells ca !! e) (remove_elem e (order ca)) = lru_without k (contents ca).
Proof.
  intros W Ek. unfold contents, remove_elem, lru_without.
  enough (H : forall l, l ⊆ order ca ->
    omap (fun e => cells ca !! e) (filter (fun e' => e' <> e) l) =
    filter (fun p => p.1 <> k) (omap (fun e => cells ca !! e) l)) by (apply H; done).
  induction l as [|e' l IH]; intros Hs; [done|].
  assert (He' : e' ∈ order ca) by (apply Hs; left).
  destruct (wf_cell ca W e' He') as (k' & s' & E' & F'). cbn [omap list_omap]. rewrite E'.
  destruct (decide (e' = e)) as [->|Hne].
  - rewrite filter_cons_False by (intros ?; done).
    rewrite filter_cons_False; [apply IH; by intros ? ?; apply Hs; right|].
    destruct (wf_entry ca W k e Ek) as (_ & s & Es). simpl. intros ?. congruence.
  - rewrite filter_cons_True by done. cbn [omap list_omap]. rewrite E'.
    rewrite filter_cons_True; [f_equal; apply IH; by intros ? ?; apply Hs; right|]. simpl. congruence.
Qed.

Lemma elem_of_remove e e' l : e' ∈ remove_elem e l <-> e' ∈ l /\ e' <> e.
Proof. unfold remove_elem. rewrite list_elem_of_filter. tauto. Qed.

Lemma elem_of_moveToFront e e' l : e ∈ l -> e' ∈ moveToFront e l <-> e' ∈ l.
Proof.
  intros He. unfold moveToFront. rewrite elem_of_cons, elem_of_remove.
  destruct (decide (e' = e)) as [->|]; tauto.
Qed.

Lemma moveToFront_nodup e l : NoDup l -> NoDup (moveToFront e l).
Proof.
  intros. constructor; [rewrite elem_of_remove; tauto|]. by apply NoDup_filter.
Qed.

(** Using an element again, with a state of its key. *)
Definition touched (k : leaderEligibilityCacheKey) (e : nat) (s : leaderEligibilityState) (ca : leaderEligibilityCache) :=
  mkCache (entries ca) (moveToFront e (order ca)) (<[e := (k, s)]> (cells ca)) (nextCell ca) (maxSize ca).

Lemma touched_wf k e s ca : cache_wf ca -> entries ca !! k = Some e ->
  cache_wf (touched k e s ca) /\ contents (touched k e s ca) = (k, s) :: lru_without k (contents ca) /\
  length (order (touched k e s ca)) = length (order ca).
Proof.
  intros W Ek. destruct (wf_entry ca W k e Ek) as (He & s0 & Es). split_and!; [split; cbn|..].
  - by apply moveToFront_nodup, wf_nodup.
  - intros e' He'. apply elem_of_moveToFront in He'; [|done]. by apply wf_fresh.
  - intros e' He'. apply elem_of_moveToFront in He'; [|done].
    destruct (decide (e' = e)) as [->|]; [exists k, s; by rewrite lookup_insert_eq|].
    rewrite lookup_insert_ne by done. by apply wf_cell.
  - intros k' e' Ek'. rewrite elem_of_moveToFront by done.
    destruct (wf_entry ca W k' e' Ek') as (He' & s' & Es'). split; [done|].
    destruct (decide (e' = e)) as [->|]; [|exists s'; by rewrite lookup_insert_ne].
    exists s. rewrite lookup_insert_eq. congruence.
  - unfold contents at 1, touched, moveToFront. cbn. rewrite lookup_insert_eq. f_equal.
    rewrite <- (contents_remove ca k e W Ek). apply omap_ext_in. intros e' [_ Hne]%elem_of_remove.
    by rewrite lookup_insert_ne.
  - apply Permutation_length, NoDup_Permutation; [by apply moveToFront_nodup, wf_nodup|by apply wf_nodup|].
    intros e'. by apply elem_of_moveToFront.
Qed.

Lemma get_refines k ca : cache_wf ca ->
  let '(r, ca') := get k ca in
  r = lru_find k (contents ca) /\ contents ca' = lru_get k (contents ca) /\ cache_wf ca' /\
  maxSize ca' = maxSize ca /\ length (order ca') = length (order ca).
Proof.
  intros W. unfold get, lru_get. destruct (entries ca !! k) as [e|] eqn:Ek.
  - destruct (wf_entry ca W k e Ek) as (He & s & Es).
    rewrite (contents_find ca k e s W Ek Es), Es.
    assert (Ht : touched k e s ca = mkCache (entries ca) (moveToFront e (order ca)) (cells ca) (nextCell ca) (maxSize ca)).
    { unfold touched. by rewrite insert_id. }
    rewrite <- Ht. destruct (touched_wf k e s ca W Ek) as (? & ? & ?). done.
  - destruct (contents_find_None ca k W Ek) as [-> _]. done.
Qed.

Definition bounded (ca : leaderEligibilityCache) : Prop := (length (order ca) <= Z.to_nat (maxSize ca))%nat.

Lemma remove_last l o : NoDup l -> last l = Some o -> remove_elem o l = take (length l - 1) l.
Proof.
  intros Hn Ho. apply last_Some in Ho as [l' ->]. apply NoDup_app in Hn as (_ & Hd & _).
  rewrite length_app. simpl. replace (length l' + 1 - 1)%nat with (length l') by lia.
  rewrite take_app_length. unfold remove_elem. rewrite filter_app, filter_cons_False by (intros ?; done).
  rewrite filter_nil, app_nil_r. apply filter_all, Forall_forall. intros e He ->. by apply (Hd o He), list_elem_of_singleton.
Qed.

Lemma contents_take ca n l : (forall e, e ∈ l -> is_Some (cells ca !! e)) ->
  omap (fun e => cells ca !! e) (take n l) = take n (omap (fun e => cells ca !! e) l).
Proof.
  revert n. induction l as [|e l IH]; intros [|n] H; [done..|]. cbn.
  destruct (H e ltac:(left)) as [p ->]. cbn. f_equal. apply IH. intros. apply H. by right.
Qed.

Lemma contents_length ca : cache_wf ca -> length (contents ca) = length (order ca).
Proof.
  intros W. unfold contents.
  enough (H : forall l, l ⊆ order ca -> length (omap (fun e => cells ca !! e) l) = length l) by (by apply H).
  induction l as [|e l IH]; intros Hs; [done|]. cbn [omap list_omap].
  destruct (wf_cell ca W e (Hs e ltac:(left))) as (k & s & -> & _). cbn. f_equal. apply IH.
  by intros ? ?; apply Hs; right.
Qed.

(** Inserting a key that is not there, before the bound is enforced. *)
Definition inserted (k : leaderEligibilityCacheKey) (s : leaderEligibilityState) (ca : leaderEligibilityCache) :=
  mkCache (<[k := nextCell ca]> (entries ca)) (nextCell ca :: order ca)
    (<[nextCell ca := (k, s)]> (cells ca)) (S (nextCell ca)) (maxSize ca).

Lemma inserted_wf k s ca : cache_wf ca -> entries ca !! k = None ->
  cache_wf (inserted k s ca) /\ contents (inserted k s ca) = (k, s) :: contents ca.
Proof.
  intros W Ek. assert (Hf : nextCell ca ∉ order ca) by (intros H%(wf_fresh ca W); lia).
  split; [split; cbn|].
  - constructor; [done|]. by apply wf_nodup.
  - intros e [->|He]%elem_of_cons; [lia|]. apply (wf_fresh ca W) in He. lia.
  - intros e [->|He]%elem_of_cons; [exists k, s; by rewrite !lookup_insert_eq|].
    destruct (wf_cell ca W e He) as (k' & s' & E & F). exists k', s'.
    rewrite lookup_insert_ne by (intros <-; done). split; [done|].
    rewrite lookup_insert_ne; [done|]. intros ->. congruence.
  - intros k' e. destruct (decide (k' = k)) as [->|Hk].
    + rewrite lookup_insert_eq. intros [= <-]. split; [left|]. exists s. by rewrite lookup_insert_eq.
    + rewrite lookup_insert_ne by done. intros Ek'. destruct (wf_entry ca W k' e Ek') as (He & s' & Es).
      split; [by right|]. exists s'. rewrite lookup_insert_ne; [done|]. intros <-. done.
  - unfold contents. cbn. rewrite lookup_insert_eq. f_equal. apply omap_ext_in. intros e He.
    rewrite lookup_insert_ne; [done|]. intros <-. done.
Qed.

(** Evicting the element at the back. *)
Lemma evict_wf ca o : cache_wf ca -> last (order ca) = Some o ->
  let ca' := mkCache (match cells ca !! o with Some (k, _) => delete k (entries ca) | None => entries ca end)
               (remove_elem o (order ca)) (cells ca) (nextCell ca) (maxSize ca) in
  cache_wf ca' /\ contents ca' = take (length (order ca) - 1) (contents ca) /\
  length (order ca') = (length (order ca) - 1)%nat.
Proof.
  intros W Ho ca'. assert (Hin : o ∈ order ca).
  { apply last_Some in Ho as [l' ->]. apply elem_of_app. right. by left. }
  destruct (wf_cell ca W o Hin) as (k & s & Es & Ek).
  assert (Hc : ca' = mkCache (delete k (entries ca)) (remove_elem o (order ca)) (cells ca) (nextCell ca) (maxSize ca)).
  { subst ca'. by rewrite Es. }
  rewrite Hc. split_and!; [split; cbn|..].
  - by apply NoDup_filter, wf_nodup.
  - intros e [He _]%elem_of_remove. by apply wf_fresh.
  - intros e [He Hne]%elem_of_remove. destruct (wf_cell ca W e He) as (k' & s' & E & F). exists k', s'.
    split; [done|]. rewrite lookup_delete_ne; [done|]. intros ->. congruence.
  - intros k' e. rewrite lookup_delete_Some. intros [Hk Ek']. destruct (wf_entry ca W k' e Ek') as (He & s' & E).
    split; [|eauto]. apply elem_of_remove. split; [done|]. intros ->. congruence.
  - unfold contents. cbn. rewrite (remove_last _ o) by (done || by apply wf_nodup).
    apply contents_take. intros e He. destruct (wf_cell ca W e He) as (? & ? & -> & _). done.
  - cbn. rewrite (remove_last _ o) by (done || by apply wf_nodup). rewrite length_take. lia.
Qed.

Lemma put_refines k s ca : cache_wf ca -> bounded ca ->
  contents (put k s ca) = lru_put (maxSize ca) k s (contents ca) /\
  cache_wf (put k s ca) /\ bounded (put k s ca) /\ maxSize (put k s ca) = maxSize ca.
Proof.
  intros W B. unfold put, lru_put. pose proof (contents_length ca W) as L. unfold bounded in *.
  destruct (entries ca !! k) as [e|] eqn:Ek.
  - fold (touched k e s ca). destruct (touched_wf k e s ca W Ek) as (Wt & Ct & Lt).
    split_and!; [|done|rewrite Lt; done|done]. rewrite Ct. symmetry. apply take_ge.
    rewrite <- Ct, contents_length by done. cbn [touched maxSize] in *. lia.
  - destruct (inserted_wf k s ca W Ek) as [Wi Ci]. fold (inserted k s ca).
    destruct (contents_find_None ca k W Ek) as [_ ->].
    destruct (Z.ltb_spec (maxSize (inserted k s ca)) (blen (order (inserted k s ca)))) as [Hlt|Hlt].
    + destruct (last (order (inserted k s ca))) as [o|] eqn:Ho; [|by apply last_None in Ho].
      destruct (evict_wf _ o Wi Ho) as (W' & C' & L'). cbn zeta in *.
      unfold blen in Hlt. cbn [inserted order length maxSize] in Hlt, L'.
      split_and!; [|done| |done].
      * rewrite C', Ci. f_equal. cbn. lia.
      * etrans; [apply Nat.eq_le_incl, L'|]. cbn. lia.
    + unfold blen in Hlt. cbn [inserted order length maxSize] in Hlt.
      split_and!; [|done|cbn; lia|done]. rewrite Ci. symmetry. apply take_ge. cbn. lia.
Qed.

(** The caches that arise: lookups, and insertions of prepared states, in any
    interleaving of the goroutines that share the cache. *)
Inductive reachable (bound : Z) : leaderEligibilityCache -> Prop :=
| reach_new : reachable bound (newLeaderEligibilityCache bound)
| reach_get ca k : reachable bound ca -> reachable bound (snd (get k ca))
| reach_put ca k s : reachable bound ca -> prepareLeaderEligibility k = Ok s -> reachable bound (put k s ca).

Lemma lru_find_elem k l s : lru_find k l = Some s -> (k, s) ∈ l.
Proof.
  unfold lru_find. destruct (filter (fun p => p.1 = k) l) as [|[k' s'] r] eqn:E; [done|]. cbn. intros [= ->].
  assert (Hin : (k', s) ∈ filter (fun p : entry => p.1 = k) l) by (rewrite E; left).
  apply list_elem_of_filter in Hin as [<- ?]. done.
Qed.

Lemma Forall_without (P : entry -> Prop) k l : Forall P l -> Forall P (lru_without k l).
Proof. rewrite !Forall_forall. intros H p [_ Hp]%list_elem_of_filter. by apply H. Qed.

Lemma reachable_ok bound ca : reachable bound ca ->
  cache_wf ca /\ bounded ca /\ maxSize ca = bound /\
  Forall (fun p => prepareLeaderEligibility p.1 = Ok p.2) (contents ca).
Proof.
  induction 1 as [|ca k _ (W & B & M & F)|ca k s _ (W & B & M & F) Hs].
  - split_and!; [|unfold bounded; cbn; lia|done|constructor].
    split; cbn; [constructor|intros e He; by apply elem_of_nil in He..|].
    intros k e. by rewrite lookup_empty.
  - pose proof (get_refines k ca W) as H. destruct (get k ca) as [r ca']. destruct H as (_ & C & W' & M' & L).
    unfold bounded in *. cbn. split_and!; [done|lia|congruence|]. rewrite C. unfold lru_get.
    destruct (lru_find k (contents ca)) as [s|] eqn:E; [|done].
    apply lru_find_elem in E. constructor; [by apply (proj1 (Forall_forall _ _) F (k, s))|].
    by apply Forall_without.
  - destruct (put_refines k s ca W B) as (C & W' & B' & M'). split_and!; [done|done|congruence|].
    rewrite C. unfold lru_put. apply Forall_take. constructor; [done|]. by apply Forall_without.
Qed.

Lemma newLeaderEligibility_fresh bound ca pool total f m : reachable bound ca ->
  fst (newLeaderEligibility ca pool total f m) = (k ← eligibilityKey pool total f m; prepareLeaderEligibility k).
Proof.
  intros R. destruct (reachable_ok bound ca R) as (W & B & M & F). unfold newLeaderEligibility.
  destruct (eligibilityKey pool total f m) as [k|e]; [|done]. cbn [mbind result_bind].
  pose proof (get_refines k ca W) as H. destruct (get k ca) as [r ca'] eqn:G. destruct H as (-> & _).
  destruct (lru_find k (contents ca)) as [s|] eqn:E.
  - apply lru_find_elem in E. symmetry. apply (proj1 (Forall_forall _ _) F (k, s) E).
  - by destruct (prepareLeaderEligibility k).
Qed.

Lemma newLeaderEligibility_reachable bound ca pool total f m : reachable bound ca ->
  reachable bound (snd (newLeaderEligibility ca pool total f m)).
Proof.
  intros R. unfold newLeaderEligibility. destruct (eligibilityKey pool total f m) as [k|e]; [|done].
  pose proof (reach_get bound ca k R) as R'. destruct (get k ca) as [[s|] ca']; [done|].
  destruct (prepareLeaderEligibility k) eqn:E; [|done]. by apply reach_put.
Qed.

(** The cache of prepared states is invisible and bounded: in every
    reachable cache it is a list of pairs in order of use, never longer than its
    bound, on which a lookup moves the pair to the front and an insertion evicts
    the least recently used; and with any such cache [newLeaderEligibility]
    returns exactly what the checks and a fresh preparation return. *)
Theorem cache_transparent bound ca pool total f m :
  reachable bound ca ->
  fst (newLeaderEligibility ca pool total f m) =
    (k ← eligibilityKey pool total f m; prepareLeaderEligibility k) /\
  reachable bound (snd (newLeaderEligibility ca pool total f m)) /\
  (length (contents ca) <= Z.to_nat bound)%nat /\
  (forall k, fst (get k ca) = lru_find k (contents ca) /\
             contents (snd (get k ca)) = lru_get k (contents ca)) /\
  (forall k s, contents (put k s ca) = lru_put bound k s (contents ca)).
Proof.
  intros R. destruct (reachable_ok bound ca R) as (W & B & M & F).
  split; [|split; [|split; [|split]]].
  - by apply (newLeaderEligibility_fresh bound).
  - by apply newLeaderEligibility_reachable.
  - rewrite contents_length, <- M by done. exact B.
  - intros k. pose proof (get_refines k ca W) as H. destruct (get k ca) as [r ca']. by destruct H as (? & ? & _).
  - intros k s. rewrite <- M. by apply put_refines.
Qed.

(** Two prepared states of one coefficient and total stake. *)
Record comparable (s1 s2 : leaderEligibilityState) : Prop := {
  cmp_max : maximum s1 = maximum s2;
  cmp_unconditional : unconditional s1 = unconditional s2;
  cmp_x : unconditional s2 = false -> 0 <= x s1 <= x s2 /\ x s2 <= exponentBound
}.

Lemma prepared_comparable pool1 pool2 total f m k1 k2 s1 s2 :
  0 <= pool1 <= pool2 -> 0 <= total <= MaxUint64 ->
  eligibilityKey pool1 total f m = Ok k1 -> prepareLeaderEligibility k1 = Ok s1 ->
  eligibilityKey pool2 total f m = Ok k2 -> prepareLeaderEligibility k2 = Ok s2 ->
  c s1 <= 0 -> comparable s1 s2 /\ 0 <= maximum s2.
Proof.
  intros Hp Ht K1 P1 K2 P2 Hc.
  destruct (eligibilityKey_Ok _ _ _ _ _ (proj1 Hp) Ht K1) as (O1 & M1 & S1 & T1 & r1 & R1 & N1 & D1).
  destruct (eligibilityKey_Ok pool2 _ _ _ _ ltac:(lia) Ht K2) as (O2 & M2 & S2 & T2 & r2 & R2 & N2 & D2).
  assert (r2 = r1) as -> by congruence.
  destruct (prepare_range k1 O1) as [?|(s & E & _ & X1 & G1 & U1 & C1)]; [congruence|].
  assert (s = s1) as -> by congruence. clear E.
  destruct (prepare_range k2 O2) as [?|(s & E & _ & X2 & G2 & U2 & C2)]; [congruence|].
  assert (s = s2) as -> by congruence. clear E.
  assert (Hu : unconditional s1 = unconditional s2) by (rewrite U1, U2, N1, N2, D1, D2; done).
  pose proof e34Scale_pos. destruct O1 as (_ & Hp1 & Ht1 & _). destruct O2 as (_ & Hp2 & Ht2 & _).
  assert (Hsig : 0 <= sigma s1 <= sigma s2).
  { rewrite G1, G2, T1, T2. split; [apply Z.div_pos; nia|]. apply Z.div_le_mono; nia. }
  split; [|rewrite X2; destruct (kmode k2 =? ConsensusModeCPraos); by apply Z.pow_nonneg]. split; [rewrite X1, X2, M1, M2; done|done|].
  intros U. rewrite U in Hu. destruct (C1 Hu) as (L1 & -> & _). destruct (C2 U) as (L2 & E2 & B2).
  split; [|done]. rewrite E2. assert (c s2 = c s1) as -> by congruence. rewrite !e34Mul_div.
  pose proof (Z.div_le_mono (sigma s2 * c s1) (sigma s1 * c s1) e34Scale ltac:(lia) ltac:(nia)).
  assert (sigma s1 * c s1 / e34Scale <= 0) by (apply Z.div_le_upper_bound; nia). lia.
Qed.

Lemma elects_mono s1 s2 v w : comparable s1 s2 -> 0 <= v <= w -> w <= maximum s2 ->
  elects s1 w = true -> elects s2 v = true.
Proof.
  intros C Hv Hw. unfold elects. rewrite (cmp_unconditional s1 s2 C).
  destruct (unconditional s2) eqn:U; [done|]. cbn [orb].
  destruct (cmp_x s1 s2 C U) as (Hx1 & Hx2). rewrite !bool_decide_eq_true.
  pose proof (quotient_mono s2 v w Hv Hw).
  replace (quotient s1 w) with (quotient s2 w) by (unfold quotient; by rewrite (cmp_max s1 s2 C)).
  by apply verdict_mono.
Qed.

Lemma comparable_refl_l s1 s2 : comparable s1 s2 -> comparable s1 s1 /\ comparable s2 s2.
Proof.
  intros [M U X]. split; split; try done; intros H.
  - destruct X as (? & ?); [congruence|lia].
  - destruct (X H). lia.
Qed.

(** For each pool the check of a certified natural is a comparison with a
    threshold, and more stake never lowers it. The prepared states are those of
    any two stakes under one coefficient whose computed logarithm is not
    positive. *)
Theorem leader_threshold pool1 pool2 total f m k1 k2 s1 s2 :
  0 <= pool1 <= pool2 -> 0 <= total <= MaxUint64 ->
  eligibilityKey pool1 total f m = Ok k1 -> prepareLeaderEligibility k1 = Ok s1 ->
  eligibilityKey pool2 total f m = Ok k2 -> prepareLeaderEligibility k2 = Ok s2 ->
  c s1 <= 0 ->
  exists T1 T2, 0 <= T1 <= T2 /\ T2 <= maximum s2 + 1 /\
    forall v, 0 <= v <= maximum s2 ->
      CheckCertifiedNatural (Some s1) (Some v) = Ok (v <? T1) /\
      CheckCertifiedNatural (Some s2) (Some v) = Ok (v <? T2).
Proof.
  intros Hp Ht K1 P1 K2 P2 Hc.
  destruct (prepared_comparable _ _ _ _ _ _ _ _ _ Hp Ht K1 P1 K2 P2 Hc) as [C HM].
  destruct (comparable_refl_l s1 s2 C) as [C1 C2]. pose proof (cmp_max s1 s2 C) as Hmax.
  destruct (antitone_threshold (elects s1) (maximum s2) HM) as (A1 & HA1 & E1).
  { intros v w Hv Hw. apply (elects_mono s1 s1); [done..|lia]. }
  destruct (antitone_threshold (elects s2) (maximum s2) HM) as (A2 & HA2 & E2).
  { intros v w Hv Hw. by apply (elects_mono s2 s2). }
  exists A1, A2. split_and!; [lia| |lia|].
  - destruct (Z.le_gt_cases A1 A2); [done|].
    pose proof (elects_mono s1 s2 A2 A2 C ltac:(lia) ltac:(lia)) as Hm.
    rewrite E1, E2 in Hm by lia. destruct (Z.ltb_spec A2 A1); [|lia]. specialize (Hm eq_refl). zbool; [lia|done].
  - intros v Hv. rewrite !CheckCertifiedNatural_elects by lia. by rewrite E1, E2.
Qed.

(** An instance: two slots of a cache of one entry. *)
Lemma cache_transparent_witness :
  fst (newLeaderEligibility (newLeaderEligibilityCache 1) 1 2 (Some (mkRat 1 1)) 0) =
  Ok (mkState 0 twoTo256 (5 * 10 ^ 33) 0 0 true).
Proof.
  destruct (cache_transparent 1 (newLeaderEligibilityCache 1) 1 2 (Some (mkRat 1 1)) 0 (reach_new 1)) as [E _].
  rewrite E. vm_compute. reflexivity.
Defined.

Definition exKey (pool : Z) : leaderEligibilityCacheKey := mkKey pool 100 1 20 0.
Definition exState (sigma x : Z) : leaderEligibilityState :=
  mkState 0 twoTo256 sigma (-512932943875505334261962382072846) x false.

(** An instance: pools of a tenth and of half the stake, with the coefficient
    of one twentieth. *)
Lemma leader_threshold_witness :
  let s1 := exState (10 ^ 33) 51293294387550533426196238207285 in
  let s2 := exState (5 * 10 ^ 33) 256466471937752667130981191036423 in
  exists T1 T2, 0 <= T1 <= T2 /\ T2 <= maximum s2 + 1 /\
    forall v, 0 <= v <= maximum s2 ->
      CheckCertifiedNatural (Some s1) (Some v) = Ok (v <? T1) /\
      CheckCertifiedNatural (Some s2) (Some v) = Ok (v <? T2).
Proof.
  intros s1 s2.
  apply (leader_threshold 10 50 100 (Some (mkRat 1 20)) 0 (exKey 10) (exKey 50) s1 s2);
    [lia|unfold MaxUint64; lia|vm_compute; reflexivity..|apply Z.leb_le; vm_compute; reflexivity].
Defined.

(** The coefficient 65100916553150251/75290358552892017 passes the checks, but
    one minus it falls between the two ways the code rounds the square of 1/e,
    so that its logarithm fails and no evaluator can be prepared. *)
Example coefficient_without_logarithm :
  validateActiveSlotCoefficient (Some (mkRat 65100916553150251 75290358552892017)) = Ok () /\
  rat_wf (mkRat 65100916553150251 75290358552892017) /\
  fst (newLeaderEligibility (newLeaderEligibilityCache 1) 1 1 (Some (mkRat 65100916553150251 75290358552892017)) 0) =
  Err (ErrE34 ErrContinuedFraction).
Proof. split; [|split; [split|]]; vm_compute; reflexivity. Qed.
