(* ===== verification/Praos.v ===== *)
(** * The leader check against the Praos probability

    A pool with the fraction [s] of the stake leads a slot with the probability
    [1 - (1 - f) ^ s]. The check of src/consensus/eligibility.go, with the
    logarithm and the exponential of e34.go, is compared with that formula on the
    reals. *)

From S2P Require Import Prelude E34 E34Real Eligibility.
From Stdlib Require Import Reals Lra.
#[local] Open Scope R_scope.

(** ** The logarithm of a percentage *)

(** The percentages whose logarithm is compared. *)
Definition percentages : list Z := [1; 2; 3; 4; 5; 10; 20; 25; 30; 40; 50; 60]%Z.

(** The units of the 34th decimal that the logarithm may be off. *)
Definition lnTolerance : Z := 3 * 10 ^ 9.

(** One minus [k] percent, at the scale of the code. *)
Definition complement (k : Z) : Z := (e34Scale - k * (e34Scale / 100))%Z.

(** [e34Ln], with the value it computes for [e]. *)
Definition lnFrom (lowerValue v : Z) : result e34Error Z :=
  '(lower, upper) ← bracketLoop (bracketFuel v) v lowerValue eulerE (-1) 1;
  lower ← bisectLoop (bisectFuel lower upper) v eulerE lower upper;
  power ← e34Power eulerE lower;
  q ← e34Div v power;
  fraction ← e34LnCF (q - e34Scale) 1000;
  Ok (lower * e34Scale + fraction)%Z.

(** The exponential of the computed logarithm is [1 - k/100] again, decided with
    the comparison of the code. *)
Definition ln_accurate (lowerValue k : Z) : bool :=
  match lnFrom lowerValue (complement k) with
  | Ok c =>
    (0 <=? - c)%Z && (- c <=? e34Scale)%Z && (0 <? complement k)%Z && (0 <? k)%Z && (k <? 100)%Z &&
    bool_decide (verdict (100 * (e34Scale - lnTolerance) / (100 - k)) (- c) = Some e34Below) &&
    bool_decide (verdict (100 * (e34Scale + lnTolerance) / (100 - k) - 241) (- c) = Some e34Above)
  | Err _ => false
  end.

Lemma percents_accurate : forallb (ln_accurate (lowerAt 0)) percentages = true.
Proof. vm_compute. reflexivity. Qed.

Lemma e34Ln_lnFrom v : (0 < v)%Z -> e34Ln v = lnFrom (lowerAt 0) v.
Proof. apply e34Ln_unfold. Qed.

Abbreviation SR := (IZR e34Scale).

Lemma scaleR_pos : 0 < SR.
Proof. apply (IZR_lt 0), e34Scale_pos. Qed.

Lemma scaleR_value : SR = 10 ^ 34.
Proof. change e34Scale with (10 ^ 34)%Z. by rewrite pow_IZR. Qed.

Lemma floor_bounds a b : (0 < b)%Z -> IZR (a / b) <= IZR a / IZR b < IZR (a / b) + 1.
Proof.
  intros Hb. pose proof (Z.mul_div_le a b Hb) as L. pose proof (Z.mul_succ_div_gt a b Hb) as U.
  apply IZR_le in L. apply IZR_lt in U. rewrite mult_IZR in *. rewrite succ_IZR in U. apply IZR_lt in Hb.
  split; apply (Rmult_le_reg_r (IZR b)) || apply (Rmult_lt_reg_r (IZR b)); try done; unfold Rdiv; rewrite Rmult_assoc, Rinv_l; lra.
Qed.

(** A value whose exponential is nearly [1 / p] is nearly [- ln p]. *)
Lemma near_exp y p : 0 < p -> SR - 3000000000 <= p * (SR * exp y) -> p * (SR * exp y) <= SR + 3000000000 -> Rabs (y + ln p) <= 6 / 10 ^ 25.
Proof.
  intros Hp L U. assert (E : exp (y + ln p) = p * exp y) by (rewrite exp_plus, exp_ln by done; ring).
  replace (p * (SR * exp y)) with (SR * exp (y + ln p)) in L, U by (rewrite E; ring). clear E.
  set (z := y + ln p) in *. rewrite scaleR_value in L, U. pose proof (exp_ineq1_le z). pose proof (exp_ineq1_le (- z)).
  pose proof (exp_pos z). pose proof (exp_pos (- z)). assert (exp z * exp (- z) = 1) by (rewrite <- exp_plus, Rplus_opp_r; apply exp_0).
  apply Rabs_le. split; [|lra]. assert (exp (- z) <= 1 + 6 / 10 ^ 25); [|lra].
  apply (Rmult_le_reg_l (exp z)); [done|]. rewrite H3. nra.
Qed.

(** The computed logarithm, and how far it is from the exact one. *)
Lemma ln_percent k : k ∈ percentages -> exists l, e34Ln (complement k) = Ok (- l)%Z /\ (0 <= l <= e34Scale)%Z /\ (0 < k < 100)%Z /\
  Rabs (IZR l / SR + ln (1 - IZR k / 100)) <= 6 / 10 ^ 25.
Proof.
  intros Hk. pose proof percents_accurate as HA. rewrite forallb_forall in HA. specialize (HA k (proj1 (list_elem_of_In _ _) Hk)).
  unfold ln_accurate in HA. destruct (lnFrom (lowerAt 0) (complement k)) as [c|] eqn:E; [|done].
  rewrite !andb_true_iff, !bool_decide_eq_true in HA. destruct HA as ((((((H1 & H2) & H3) & H4) & H5) & B) & A).
  apply Z.leb_le in H1, H2. apply Z.ltb_lt in H3, H4, H5. exists (- c)%Z. rewrite Z.opp_involutive.
  split; [by rewrite e34Ln_lnFrom|]. split; [done|]. split; [done|].
  rewrite verdict_exact in A, B by done. pose proof (taylor_exp (- c) (conj H1 H2)) as HT.
  revert HT A B. generalize (taylor (- c)). intros t [T1 T2] A B.
  destruct (Z.ltb_spec (100 * (e34Scale - lnTolerance) / (100 - k)) t) as [B'|]; [|done].
  destruct (Z.ltb_spec (100 * (e34Scale + lnTolerance) / (100 - k) - 241) t) as [|A']; [done|]. clear A B.
  pose proof (floor_bounds (100 * (e34Scale - lnTolerance)) (100 - k) ltac:(lia)) as F1.
  pose proof (floor_bounds (100 * (e34Scale + lnTolerance)) (100 - k) ltac:(lia)) as F2.
  apply Z.le_succ_l, IZR_le in B'. apply IZR_le in A'. rewrite succ_IZR in B'. rewrite minus_IZR in A'.
  rewrite mult_IZR, minus_IZR in F1. rewrite mult_IZR, plus_IZR in F2. rewrite (minus_IZR 100 k) in F1, F2.
  change (IZR lnTolerance) with 3000000000 in F1, F2.
  set (p := 1 - IZR k / 100) in *. apply IZR_lt in H4, H5. assert (Hp : 0 < p) by (unfold p; lra).
  replace (100 - IZR k) with (100 * p) in F1, F2 by (unfold p; lra).
  apply near_exp; [done|..]; fold SR; apply (Rmult_le_reg_r (/ p)); try (by apply Rinv_0_lt_compat).
  - replace (p * (SR * exp (IZR (- c) / SR)) * / p) with (SR * exp (IZR (- c) / SR)) by (field; lra).
    replace ((SR - 3000000000) * / p) with (100 * (SR - 3000000000) / (100 * p)) by (field; lra). lra.
  - replace (p * (SR * exp (IZR (- c) / SR)) * / p) with (SR * exp (IZR (- c) / SR)) by (field; lra).
    replace ((SR + 3000000000) * / p) with (100 * (SR + 3000000000) / (100 * p)) by (field; lra). lra.
Qed.

(** ** The exponent *)

(** The exponent of the code is the stake times the logarithm, rounded up. *)
Lemma exponent_near pool total l : (0 <= pool <= total)%Z -> (0 < total)%Z -> (0 <= l <= e34Scale)%Z ->
  let x := (- e34Mul (pool * e34Scale / total) (- l))%Z in
  (0 <= x <= e34Scale)%Z /\ Rabs (IZR x / SR - IZR pool / IZR total * (IZR l / SR)) <= / SR.
Proof.
  intros Hp Ht Hl x. pose proof e34Scale_pos as HS. pose proof scaleR_pos as HSR. unfold x. rewrite e34Mul_div.
  set (sg := (pool * e34Scale / total)%Z). assert (Hsg : (0 <= sg <= e34Scale)%Z).
  { unfold sg. split; [apply Z.div_pos; nia|]. apply Z.div_le_upper_bound; nia. }
  split.
  { split; [enough (sg * - l / e34Scale <= 0)%Z by lia; apply Z.div_le_upper_bound; nia|].
    enough (- e34Scale <= sg * - l / e34Scale)%Z by lia. apply Z.div_le_lower_bound; nia. }
  pose proof (floor_bounds (pool * e34Scale) total Ht) as F1. pose proof (floor_bounds (sg * - l) e34Scale HS) as F2.
  fold sg in F1. rewrite opp_IZR. rewrite mult_IZR in F1. rewrite mult_IZR, opp_IZR in F2.
  set (X := IZR (sg * - l / e34Scale)) in *. clearbody X. destruct Hl as [L1%IZR_le L2%IZR_le]. destruct Hsg as [G1%IZR_le G2%IZR_le].
  apply IZR_lt in Ht. set (s := IZR pool / IZR total) in *.
  assert (Es : IZR pool * SR / IZR total = SR * s) by (unfold s; field; lra). rewrite Es in F1.
  set (y := IZR l / SR). assert (El : IZR l = SR * y) by (unfold y; field; lra). rewrite El in *.
  assert (Ey : IZR sg * - (SR * y) / SR = - (IZR sg * y)) by (field; lra). rewrite Ey in F2.
  assert (Hy : 0 <= y <= 1) by nra.
  replace (- X / SR - s * y) with ((- X - SR * s * y) * / SR) by (field; lra).
  rewrite Rabs_mult, (Rabs_right (/ SR)) by (left; by apply Rinv_0_lt_compat).
  rewrite <- (Rmult_1_l (/ SR)) at 2. apply Rmult_le_compat_r; [left; by apply Rinv_0_lt_compat|]. apply Rabs_le. nra.
Qed.

Lemma exp_neg_close a b : 0 <= a -> 0 <= b -> Rabs (exp (- a) - exp (- b)) <= Rabs (a - b).
Proof.
  assert (H : forall a b, 0 <= a <= b -> 0 <= exp (- a) - exp (- b) <= b - a).
  { intros u v Huv. replace (- v) with (- u + - (v - u)) by ring. rewrite exp_plus. pose proof (exp_ineq1_le (- (v - u))).
    pose proof (exp_pos (- u)). assert (exp (- u) <= 1) by (rewrite <- exp_0; destruct (Req_dec u 0) as [->|]; [rewrite Ropp_0; lra|left; apply exp_increasing; lra]).
    assert (exp (- (v - u)) <= 1) by (rewrite <- exp_0; destruct (Req_dec v u) as [->|]; [rewrite Rminus_diag, Ropp_0; lra|left; apply exp_increasing; lra]).
    nra. }
  intros Ha Hb. destruct (Rle_lt_dec a b).
  - specialize (H a b ltac:(lra)). rewrite (Rabs_left1 (a - b)) by lra. rewrite Rabs_right by lra. lra.
  - specialize (H b a ltac:(lra)). rewrite (Rabs_right (a - b)) by lra. rewrite Rabs_left1 by lra. lra.
Qed.

(** ** The threshold *)

Lemma elects_taylor s v : unconditional s = false -> (0 <= x s <= e34Scale)%Z -> elects s v = (quotient s v <? taylor (x s))%Z.
Proof.
  intros U Hx. unfold elects. rewrite U, verdict_exact by done. cbn [orb]. destruct (quotient s v <? taylor (x s))%Z; case_bool_decide; congruence.
Qed.

(** The quotient is [M / (M - v)] up to one unit. *)
Lemma quotient_near s v : (0 <= v < maximum s)%Z ->
  let rest := 1 - IZR v / IZR (maximum s) in 0 < rest /\ IZR (quotient s v) * rest <= SR /\ SR < (IZR (quotient s v) + 1) * rest.
Proof.
  intros Hv. unfold quotient. destruct (Z.eqb_spec (maximum s - v) 0); [lia|].
  rewrite Z.quot_div_nonneg by (pose proof e34Scale_pos; nia).
  pose proof (floor_bounds (maximum s * e34Scale) (maximum s - v) ltac:(lia)) as F. rewrite mult_IZR, minus_IZR in F.
  set (q := IZR (maximum s * e34Scale / (maximum s - v))) in *. clearbody q. assert (HM : 0 < IZR (maximum s)) by (apply (IZR_lt 0); lia).
  assert (Hd : IZR v < IZR (maximum s)) by (apply IZR_lt; lia). set (M := IZR (maximum s)) in *. set (w := IZR v) in *. cbn zeta.
  replace (M * SR / (M - w)) with (SR * / (1 - w / M)) in F by (field; lra).
  assert (Hr : 0 < 1 - w / M) by (apply (Rmult_lt_reg_r M); [done|]; replace ((1 - w / M) * M) with (M - w) by (field; lra); lra).
  set (r := 1 - w / M) in *. assert (r * / r = 1) by (apply Rinv_r; lra). pose proof scaleR_pos. split; [done|]. nra.
Qed.

Lemma threshold_near s : unconditional s = false -> (0 <= x s <= e34Scale)%Z -> (4 <= maximum s)%Z ->
  exists T, (0 <= T <= maximum s + 1)%Z /\
    (forall v, (0 <= v <= maximum s)%Z -> CheckCertifiedNatural (Some s) (Some v) = Ok (v <? T)%Z) /\
    Rabs (IZR T / IZR (maximum s) - (1 - exp (- (IZR (x s) / SR)))) <= 241 / SR + / IZR (maximum s).
Proof.
  intros U Hx HM. destruct (antitone_threshold (elects s) (maximum s) ltac:(lia)) as (T & HT & HE).
  { intros v w Hv Hw. rewrite !elects_taylor by done. pose proof (quotient_mono s v w Hv Hw). intros Hq. zbool; lia. }
  exists T. split; [done|]. split; [intros v Hv; by rewrite CheckCertifiedNatural_elects, HE|].
  pose proof (taylor_exp (x s) Hx) as Ht. set (y := IZR (x s) / SR) in *. pose proof scaleR_pos as HS.
  assert (HM' : 4 <= IZR (maximum s)) by (apply (IZR_le 4); done). assert (Hi : 0 < / IZR (maximum s)) by (apply Rinv_0_lt_compat; lra).
  assert (Hy : 0 <= y <= 1).
  { destruct Hx as [X1%IZR_le X2%IZR_le]. assert (Ey : IZR (x s) = SR * y) by (unfold y; field; lra). rewrite Ey in *. nra. }
  pose proof (exp_pos y). pose proof (exp_pos (- y)). pose proof (exp_ineq1_le y). pose proof exp_le_3.
  assert (exp y <= exp 1) by (destruct (Req_dec y 1) as [->|]; [lra|left; apply exp_increasing; lra]).
  assert (En : exp y * exp (- y) = 1) by (rewrite <- exp_plus, Rplus_opp_r; apply exp_0). assert (exp (- y) <= 1) by nra.
  assert (HS' : 0 < 241 / SR) by (apply Rmult_lt_0_compat; [lra|by apply Rinv_0_lt_compat]). apply Rabs_le. split.
  - destruct (decide (maximum s <= T)%Z) as [Hge|Hlt].
    { apply IZR_le in Hge. assert (1 <= IZR T / IZR (maximum s)); [|lra].
      apply (Rmult_le_reg_r (IZR (maximum s))); [lra|]. unfold Rdiv. rewrite Rmult_assoc, Rinv_l; lra. }
    destruct (quotient_near s T ltac:(lia)) as (R0 & R1 & _). cbn zeta in *. set (r := 1 - IZR T / IZR (maximum s)) in *.
    assert (r <= 1).
    { assert (0 <= IZR T / IZR (maximum s)); [|unfold r; lra]. apply Rmult_le_pos; [apply (IZR_le 0); lia|lra]. }
    assert (Hq : IZR (taylor (x s)) <= IZR (quotient s T)).
    { apply IZR_le. specialize (HE T ltac:(lia)). rewrite elects_taylor in HE by done. zbool; lia. }
    enough (r <= exp (- y) + 241 / SR) by (unfold r in *; lra).
    assert (Hre : SR * (r * exp y) <= SR + 241) by nra.
    assert (Hre' : r * exp y <= 1 + 241 / SR).
    { apply (Rmult_le_reg_l SR); [done|]. replace (SR * (1 + 241 / SR)) with (SR + 241) by (field; lra). done. }
    replace r with (r * exp y * exp (- y)) by (rewrite Rmult_assoc, En; ring). nra.
  - destruct (decide (T = 0)%Z) as [->|HT0]; [unfold Rdiv; rewrite Rmult_0_l; lra|].
    assert (Hel : (quotient s (T - 1) < taylor (x s))%Z).
    { specialize (HE (T - 1)%Z ltac:(lia)). rewrite elects_taylor in HE by done. zbool; lia. }
    apply Z.le_succ_l, IZR_le in Hel. rewrite succ_IZR in Hel.
    destruct (decide (T - 1 = maximum s)%Z) as [Em|Hne].
    { exfalso. unfold quotient in Hel. rewrite Em, Z.sub_diag, Z.eqb_refl, mult_IZR in Hel. nra. }
    destruct (quotient_near s (T - 1) ltac:(lia)) as (R0 & _ & R2). cbn zeta in *. rewrite minus_IZR in *.
    set (r := 1 - (IZR T - 1) / IZR (maximum s)) in *. enough (exp (- y) <= r) by (unfold r in *; lra).
    assert (SR * 1 <= SR * (exp y * r)) by nra. assert (1 <= exp y * r) by nra.
    replace r with (exp y * r * exp (- y)) by (rewrite (Rmult_comm (exp y)), Rmult_assoc, En; ring). nra.
Qed.

(** ** Preparation *)

(** [f] is [k] percent. *)
Definition percent (f : Rat) (k : Z) : Prop := (100 * Num f = k * Denom f)%Z /\ (0 < Denom f <= MaxUint64)%Z.

Lemma percent_complement f k : percent f k -> (e34Scale - Num f * e34Scale / Denom f)%Z = complement k.
Proof.
  intros [E HD]. unfold complement. f_equal. assert (ES : e34Scale = (100 * (e34Scale / 100))%Z) by done.
  rewrite ES at 1. replace (Num f * (100 * (e34Scale / 100)))%Z with (k * (e34Scale / 100) * Denom f)%Z by lia. apply Z.div_mul. lia.
Qed.

Lemma prepare_percent pool total f k m l : (m = ConsensusModeCPraos \/ m = ConsensusModeTPraos) -> (0 < total)%Z -> percent f k -> (0 < k < 100)%Z ->
  e34Ln (complement k) = Ok (- l)%Z ->
  (key ← eligibilityKey pool total (Some f) m; prepareLeaderEligibility key) =
  let sigma := (Z.min pool total * e34Scale / total)%Z in
  Ok (mkState m (if m =? ConsensusModeCPraos then twoTo256 else twoTo512)%Z sigma (- l) (- e34Mul sigma (- l)) false).
Proof.
  intros Hm Ht Hf Hk El. pose proof Hf as [E HD]. unfold eligibilityKey.
  replace (validateConsensusMode m) with (Ok (E := consensusError) ()) by (by destruct Hm as [-> | ->]).
  replace (validateActiveSlotCoefficient (Some f)) with (Ok (E := consensusError) ()) by (symmetry; apply coefficient_Ok; nia).
  cbn [mbind result_bind]. destruct (Z.eqb_spec total 0); [lia|]. cbn [mbind result_bind].
  unfold prepareLeaderEligibility, e34FromRatio. cbn [kmode poolStake totalStake numerator denominator].
  rewrite e34FloorQuotient_div by lia. cbn [lift34 mbind result_bind]. destruct (Z.eqb_spec (Num f) (Denom f)); [nia|].
  rewrite e34FloorQuotient_div by lia. cbn [lift34 mbind result_bind]. rewrite (percent_complement f k Hf), El. cbn [lift34 mbind result_bind].
  replace (if (total <? pool)%Z then total else pool) with (Z.min pool total) by (destruct (Z.ltb_spec total pool); lia). done.
Qed.

Lemma percent_ratio f k : percent f k -> IZR (Num f) / IZR (Denom f) = IZR k / 100.
Proof.
  intros [E [HD _]]. apply (f_equal IZR) in E. rewrite !mult_IZR in E. apply IZR_lt in HD. field_simplify_eq; lra.
Qed.

Lemma Rabs_def2_le a b : Rabs a <= b -> - b <= a <= b.
Proof. unfold Rabs. destruct (Rcase_abs a); lra. Qed.

Lemma mx_inverse mx : (2 ^ 256 <= mx)%Z -> 0 < / IZR mx <= / 10 ^ 34.
Proof.
  intros H. assert (10 ^ 34 <= IZR mx).
  { rewrite (pow_IZR 10 34). apply IZR_le. etrans; [|exact H]. apply Z.leb_le. vm_compute. reflexivity. }
  split; [apply Rinv_0_lt_compat; lra|apply Rinv_le_contravar; lra].
Qed.

(** From the exponent and the logarithm to the power. *)
Lemma power_near p total l k e : (0 <= p <= total)%Z -> (0 < total)%Z -> (0 < k < 100)%Z -> (0 <= e)%Z ->
  Rabs (IZR e / SR - IZR p / IZR total * (IZR l / SR)) <= / SR -> Rabs (IZR l / SR + ln (1 - IZR k / 100)) <= 6 / 10 ^ 25 ->
  Rabs (exp (- (IZR e / SR)) - exp (IZR p / IZR total * ln (1 - IZR k / 100))) <= / SR + 6 / 10 ^ 25.
Proof.
  intros Hp Ht Hk He HN HL. set (st := IZR p / IZR total) in *. set (w := IZR e / SR) in *. set (L := ln (1 - IZR k / 100)) in *.
  pose proof scaleR_pos. assert (Hst : 0 <= st <= 1).
  { apply IZR_lt in Ht. destruct Hp as [P1%IZR_le P2%IZR_le]. assert (E : IZR p = IZR total * st) by (unfold st; field; lra). rewrite E in *. nra. }
  assert (HL0 : L <= 0).
  { destruct Hk as [K1%IZR_lt K2%IZR_lt]. unfold L. rewrite <- ln_1. left. apply ln_increasing; lra. }
  assert (Hw : 0 <= w) by (apply Rmult_le_pos; [by apply (IZR_le 0)|left; by apply Rinv_0_lt_compat]).
  replace (st * L) with (- (st * - L)) by ring. etrans; [apply exp_neg_close; nra|].
  set (y := IZR l / SR) in *. apply Rabs_def2_le in HN, HL. apply Rabs_le. nra.
Qed.

(** C28. The leader check realises the Praos lottery. For an active slot
    coefficient [f] of 1, 2, 3, 4, 5, 10, 20, 25, 30, 40, 50 or 60 percent, any
    stakes and either mode, preparation succeeds with any cache, and the check
    elects exactly the certified naturals below a threshold, which is the fraction
    [1 - (1 - f) ^ s] of the range, [s] the pool's share of the stake, up to
    [10 ^ -24]. *)
Theorem praos_probability bound ca pool total f k m :
  reachable bound ca -> (0 <= pool)%Z -> (0 < total <= MaxUint64)%Z ->
  m = ConsensusModeCPraos \/ m = ConsensusModeTPraos -> percent f k -> k ∈ percentages ->
  exists s T, fst (newLeaderEligibility ca pool total (Some f) m) = Ok s /\
    maximum s = (if m =? ConsensusModeCPraos then 2 ^ 256 else 2 ^ 512)%Z /\
    (forall v, (0 <= v <= maximum s)%Z -> CheckCertifiedNatural (Some s) (Some v) = Ok (v <? T)%Z) /\
    Rabs (IZR T / IZR (maximum s) - (1 - Rpower (1 - IZR (Num f) / IZR (Denom f)) (IZR (Z.min pool total) / IZR total))) <= / 10 ^ 24.
Proof.
  intros R Hp Ht Hm Hf Hk. destruct (ln_percent k Hk) as (l & El & Hl & Hk' & HL).
  rewrite (newLeaderEligibility_fresh bound) by done. rewrite (prepare_percent pool total f k m l) by (done || lia).
  set (mx := if (m =? ConsensusModeCPraos)%Z then twoTo256 else twoTo512). set (sg := (Z.min pool total * e34Scale / total)%Z). cbn zeta.
  destruct (exponent_near (Z.min pool total) total l ltac:(lia) ltac:(lia) Hl) as [HX HN]. cbn zeta in *. fold sg in HX, HN.
  set (s := mkState m mx sg (- l) (- e34Mul sg (- l)) false).
  assert (Hmx : (2 ^ 256 <= mx)%Z) by (unfold mx; destruct (m =? ConsensusModeCPraos)%Z; apply Z.leb_le; vm_compute; reflexivity).
  destruct (threshold_near s eq_refl HX ltac:(cbn [s maximum]; lia)) as (T & _ & HT & HP).
  exists s, T. split; [done|]. split; [done|]. split; [done|]. change (maximum s) with mx in *. change (x s) with (- e34Mul sg (- l))%Z in *.
  rewrite (percent_ratio f k Hf). unfold Rpower.
  pose proof (power_near (Z.min pool total) total l k (- e34Mul sg (- l)) ltac:(lia) ltac:(lia) Hk' ltac:(lia) HN HL) as HR.
  pose proof (mx_inverse mx Hmx). revert HP HR. rewrite scaleR_value in *. generalize (IZR T / IZR mx). intros t HP HR.
  apply Rabs_def2_le in HP, HR. apply Rabs_le. lra.
Qed.

(** Witness of C28: a pool with a tenth of the stake at the coefficient of the
    networks, one twentieth. *)
Lemma praos_probability_witness :
  exists s T, fst (newLeaderEligibility (newLeaderEligibilityCache 4096) 10 100 (Some (mkRat 1 20)) ConsensusModeCPraos) = Ok s /\
    maximum s = (2 ^ 256)%Z /\
    (forall v, (0 <= v <= maximum s)%Z -> CheckCertifiedNatural (Some s) (Some v) = Ok (v <? T)%Z) /\
    Rabs (IZR T / IZR (maximum s) - (1 - Rpower (1 - 1 / 20) (10 / 100))) <= / 10 ^ 24.
Proof.
  apply (praos_probability 4096 (newLeaderEligibilityCache 4096) 10 100 (mkRat 1 20) 5 ConsensusModeCPraos);
    [constructor|lia|unfold MaxUint64; lia|by left|split; unfold MaxUint64; cbn; lia|].
  unfold percentages. set_solver.
Defined.
