(* ===== verification/Leader.v ===== *)
(** * Slot leadership (src/consensus/leader.go, tachys.go)

    Whether a pool leads a slot: with the private lottery of Praos, over a VRF
    signer and the prepared eligibility predicate, or with the public schedule
    of Tachys, a binary search in the cumulative stake distribution. *)

From stdpp Require Import sorting.
From S2P Require Import Prelude Kes E34 Eligibility Vrf.
#[local] Open Scope Z_scope.

(** A [VRFSigner]; a failed [Prove] is [None]. *)
Record VRFSigner := mkSigner {
  signerProve : bytes -> option (bytes * bytes);
  signerPublicKey : bytes
}.

(** [nil] slices are empty. *)
Record LeaderElectionResult := mkElection {
  Eligible : bool;
  Proof_ : bytes;
  Output : bytes
}.

Definition MaxInt64 : Z := 9223372036854775807.

Definition liftVrf {A} (e : consensusError) (r : result vrfError A) : out A :=
  match r with Ok a => Ok a | Err _ => Err e end.

Section Leader.
Context `{KesCrypto}.

(** [NewLeaderEligibility] works on the shared cache; an evaluator of [None] is
    the nil one of a coefficient that is not positive. *)
Definition prepareSlotLeadership (ca : leaderEligibilityCache) (epochNonce : bytes) (pool total : Z)
    (f : option Rat) (signer : option VRFSigner) (m : Z)
    : out (option leaderEligibilityState * bool) * leaderEligibilityCache :=
  match signer with
  | None => (Err ErrSignerNil, ca)
  | Some _ =>
    if negb (blen epochNonce =? 32) then (Err ErrNonceLength, ca) else
    match f with
    | None => (Err ErrCoeffNil, ca)
    | Some r =>
      if (total =? 0) || (pool =? 0) then
        (if 0 <? Num r then
           match validateActiveSlotCoefficient f with
           | Err e => (Err e, ca)
           | Ok _ => (Ok (None, true), ca)
           end
         else (Ok (None, true), ca))
      else if Num r <=? 0 then (Ok (None, false), ca)
      else
        let '(res, ca) := newLeaderEligibility ca pool total f m in
        (match res with Ok s => Ok (Some s, false) | Err e => Err e end, ca)
    end
  end.

Definition checkSlotLeadership (slot : Z) (epochNonce : bytes) (signer : option VRFSigner) (m : Z)
    (evaluator : option leaderEligibilityState) : out LeaderElectionResult :=
  match signer with
  | None => Err ErrSignerNil
  | Some sg =>
    if MaxInt64 <? slot then Err ErrSlotRange else
    vrfInput ←
      (if m =? ConsensusModeTPraos then liftVrf ErrVRFInput (MkSeedTPraos slot epochNonce SeedL)
       else if m =? ConsensusModeCPraos then liftVrf ErrVRFInput (MkInputVrf slot epochNonce)
       else Ok []);
    match signerProve sg vrfInput with
    | None => Err ErrProve
    | Some (proof, output) =>
      if negb (blen proof =? 80) then Err ErrProofLength
      else if negb (blen output =? 64) then Err ErrOutputLength
      else
        match evaluator with
        | None => Ok (mkElection false proof output)
        | Some s => eligible ← CheckVRFOutput (Some s) output; Ok (mkElection eligible proof output)
        end
    end
  end.

Definition IsSlotLeaderWithMode (ca : leaderEligibilityCache) (slot : Z) (epochNonce : bytes) (pool total : Z)
    (f : option Rat) (signer : option VRFSigner) (m : Z) : out LeaderElectionResult * leaderEligibilityCache :=
  match validateConsensusMode m with
  | Err e => (Err e, ca)
  | Ok _ =>
    let '(r, ca) := prepareSlotLeadership ca epochNonce pool total f signer m in
    (match r with
     | Err e => Err e
     | Ok (evaluator, zeroStake) =>
       if zeroStake : bool then Ok (mkElection false [] [])
       else checkSlotLeadership slot epochNonce signer m evaluator
     end, ca)
  end.

Definition IsSlotLeader ca slot epochNonce pool total f signer :=
  IsSlotLeaderWithMode ca slot epochNonce pool total f signer ConsensusModeCPraos.

Definition IsSlotLeaderFromComponentsWithMode (ca : leaderEligibilityCache) (vrfOutput : bytes) (pool total : Z)
    (f : option Rat) (m : Z) : out bool * leaderEligibilityCache :=
  match validateConsensusMode m with
  | Err e => (Err e, ca)
  | Ok _ =>
    match f with
    | None => (Ok false, ca)
    | Some r =>
      if Num r <=? 0 then (Ok false, ca)
      else if (total =? 0) || (pool =? 0) || negb (blen vrfOutput =? 64) then
        (match validateActiveSlotCoefficient f with Err e => Err e | Ok _ => Ok false end, ca)
      else
        let '(res, ca) := newLeaderEligibility ca pool total f m in
        (s ← res; CheckVRFOutput (Some s) vrfOutput, ca)
    end
  end.

Definition IsSlotLeaderFromComponents ca vrfOutput pool total f : bool * leaderEligibilityCache :=
  let '(r, ca) := IsSlotLeaderFromComponentsWithMode ca vrfOutput pool total f ConsensusModeCPraos in
  (match r with Ok b => b | Err _ => false end, ca).

(** The search; [done i] says whether the context is cancelled when the code
    looks at it for the [i]-th time. *)
Fixpoint searchLoop (fuel : nat) (done : nat -> bool) (i : nat) (slot maxSlot : Z) (epochNonce : bytes)
    (signer : option VRFSigner) (evaluator : option leaderEligibilityState) : out (option (Z * bytes * bytes)) :=
  match fuel with
  | O => Ok None
  | S fuel =>
    if done i then Err ErrContextDone else
    result ← checkSlotLeadership slot epochNonce signer ConsensusModeCPraos evaluator;
    if Eligible result then Ok (Some (slot, Proof_ result, Output result))
    else if slot =? maxSlot then Ok None
    else searchLoop fuel done (S i) (u64 (slot + 1)) maxSlot epochNonce signer evaluator
  end.

(** [ctx] of [None] is a nil context. The search looks at no more slots than
    there are from [startSlot] to [maxSlot]. *)
Definition FindNextSlotLeadershipContext (ca : leaderEligibilityCache) (ctx : option (nat -> bool))
    (startSlot maxSlot : Z) (epochNonce : bytes) (pool total : Z) (f : option Rat) (signer : option VRFSigner)
    : out (option (Z * bytes * bytes)) * leaderEligibilityCache :=
  match ctx with
  | None => (Err ErrContextNil, ca)
  | Some done =>
    if maxSlot <? startSlot then (Err ErrSlotOrder, ca)
    else if done O then (Err ErrContextDone, ca)
    else
      let '(r, ca) := prepareSlotLeadership ca epochNonce pool total f signer ConsensusModeCPraos in
      (match r with
       | Err e => Err e
       | Ok (evaluator, zeroStake) =>
         if zeroStake : bool then Ok None
         else searchLoop (Z.to_nat (maxSlot - startSlot + 1)) done 1 startSlot maxSlot epochNonce signer evaluator
       end, ca)
  end.

Definition FindNextSlotLeadership ca startSlot maxSlot epochNonce pool total f signer :=
  FindNextSlotLeadershipContext ca (Some (fun _ => false)) startSlot maxSlot epochNonce pool total f signer.

End Leader.

(** The signer of this package, from a seed. *)
Definition NewSimpleVRFSigner `{VrfCrypto} (seed : bytes) : result vrfError VRFSigner :=
  '(pk, sk) ← VrfKeyGen seed;
  Ok (mkSigner (fun input => match Prove sk input with Ok p => Some p | Err _ => None end) pk).

(** ** The Tachys schedule *)

Class PoolHash := { blake2b224 : bytes -> bytes }.

Record TachysPool := mkTachysPool { ID : bytes; Stake : Z }.
Record tachysInterval := mkInterval { intervalId : bytes; upperStake : Z }.
Record TachysLeaderSelector := mkSelector { intervals : list tachysInterval; selectorTotal : Z }.

Inductive tachysError :=
| ErrTachysEmpty | ErrTachysZeroTotal | ErrTachysZeroStake (id : bytes) | ErrTachysDuplicate (id : bytes)
| ErrTachysOverflow | ErrTachysMismatch (sum total : Z) | ErrTachysUninitialized | ErrTachysNonce
| ErrTachysSample | ErrTachysIssuer | ErrTachysPanic.

Abbreviation tres A := (result tachysError A).

Definition pool_le (a b : TachysPool) : Prop := Is_true (bytes_leb (ID a) (ID b)).

#[export] Instance pool_le_dec a b : Decision (pool_le a b).
Proof. unfold pool_le. apply _. Defined.

(** The loop over the ordered pools; [prev] is the identifier before. *)
Fixpoint intervalLoop (prev : option bytes) (cumulative : Z) (pools : list TachysPool)
    : tres (list tachysInterval * Z) :=
  match pools with
  | [] => Ok ([], cumulative)
  | pool :: pools =>
    if Stake pool =? 0 then Err (ErrTachysZeroStake (ID pool))
    else if bool_decide (prev = Some (ID pool)) then Err (ErrTachysDuplicate (ID pool))
    else
      let '(next, carry) := add64 cumulative (Stake pool) 0 in
      if negb (carry =? 0) then Err ErrTachysOverflow else
      '(rest, total) ← intervalLoop (Some (ID pool)) next pools;
      Ok (mkInterval (ID pool) next :: rest, total)
  end.

Definition NewTachysLeaderSelector (pools : list TachysPool) (total : Z) : tres TachysLeaderSelector :=
  if bool_decide (pools = []) then Err ErrTachysEmpty
  else if total =? 0 then Err ErrTachysZeroTotal
  else
    '(ivs, cumulative) ← intervalLoop None 0 (merge_sort pool_le pools);
    if cumulative =? total then Ok (mkSelector ivs total)
    else Err (ErrTachysMismatch cumulative total).

Definition uninitialized (s : option TachysLeaderSelector) : bool :=
  match s with None => true | Some s => bool_decide (intervals s = []) || (selectorTotal s =? 0) end.

(** [sort.Search]: the least index in [i, j) where the predicate holds, if it is
    monotone. *)
Fixpoint search (fuel : nat) (P : Z -> bool) (i j : Z) : Z :=
  match fuel with
  | O => i
  | S fuel =>
    if i <? j then
      let h := (i + j) / 2 in
      if P h then search fuel P i h else search fuel P (h + 1) j
    else i
  end.

Definition sortSearch (n : Z) (P : Z -> bool) : Z := search (Z.to_nat n) P 0 n.

Definition LeaderForSample (s : option TachysLeaderSelector) (sample : bytes) : tres bytes :=
  if uninitialized s then Err ErrTachysUninitialized else
  match s with
  | None => Err ErrTachysUninitialized
  | Some s =>
    if negb (blen sample =? 32) then Err ErrTachysSample else
    let scaledSample := be_decode sample * selectorTotal s in
    let index := sortSearch (blen (intervals s)) (fun i =>
      match intervals s !! Z.to_nat i with
      | Some iv => scaledSample <? upperStake iv * Z.shiftl 1 256
      | None => false
      end) in
    match intervals s !! Z.to_nat index with
    | Some iv => Ok (intervalId iv)
    | None => Err ErrTachysPanic   (* index out of range *)
    end
  end.

Section Tachys.
Context `{KesCrypto} `{PoolHash}.

Definition TachysSample (epochNonce : bytes) (slot : Z) : tres bytes :=
  if negb (blen epochNonce =? 32) then Err ErrTachysNonce
  else Ok (blake2b (epochNonce ++ be_encode 8 slot)).

Definition tachysLeader (s : option TachysLeaderSelector) (epochNonce : bytes) (slot : Z) : tres bytes :=
  if uninitialized s then Err ErrTachysUninitialized else
  sample ← TachysSample epochNonce slot;
  LeaderForSample s sample.

Definition IsLeader (s : option TachysLeaderSelector) (epochNonce : bytes) (slot : Z) (poolID : bytes) : tres bool :=
  leader ← tachysLeader s epochNonce slot;
  Ok (bool_decide (leader = poolID)).

Definition AuthorizeIssuer (s : option TachysLeaderSelector) (epochNonce : bytes) (slot : Z) (issuerVkey : bytes)
    : tres bool :=
  if negb (blen issuerVkey =? 32) then Err ErrTachysIssuer
  else IsLeader s epochNonce slot (blake2b224 issuerVkey).

Definition IsTachysSlotLeader (slot : Z) (epochNonce issuerVkey : bytes) (selector : option TachysLeaderSelector)
    (signer : option VRFSigner) : result (consensusError + tachysError) LeaderElectionResult :=
  match selector, signer with
  | None, _ => Err (inr ErrTachysUninitialized)
  | _, None => Err (inl ErrSignerNil)
  | Some _, Some sg =>
    match AuthorizeIssuer selector epochNonce slot issuerVkey with
    | Err e => Err (inr e)
    | Ok false => Ok (mkElection false [] [])
    | Ok true =>
      if MaxInt64 <? slot then Err (inl ErrSlotRange) else
      match MkInputVrf slot epochNonce with
      | Err _ => Err (inl ErrVRFInput)
      | Ok vrfInput =>
        match signerProve sg vrfInput with
        | None => Err (inl ErrProve)
        | Some (proof, output) =>
          if negb (length proof =? ProofSize)%nat then Err (inl ErrProofLength)
          else if negb (length output =? OutputSize)%nat then Err (inl ErrOutputLength)
          else Ok (mkElection true proof output)
        end
      end
    end
  end.
End Tachys.

(** ** The search returns the first slot led *)

Section SearchProofs.
Context `{KesCrypto}.

Definition ineligible (r : out LeaderElectionResult) : Prop := exists e, r = Ok e /\ Eligible e = false.

(** What a search from [slot] to [maxSlot] may answer, given the check of each
    slot. *)
Definition first_leader (check : Z -> out LeaderElectionResult) (slot maxSlot : Z)
    (r : out (option (Z * bytes * bytes))) : Prop :=
  match r with
  | Ok (Some (s, p, o)) =>
    slot <= s <= maxSlot /\ check s = Ok (mkElection true p o) /\
    forall t, slot <= t < s -> ineligible (check t)
  | Ok None => forall t, slot <= t <= maxSlot -> ineligible (check t)
  | Err e => exists s, slot <= s <= maxSlot /\ check s = Err e /\ forall t, slot <= t < s -> ineligible (check t)
  end.

Lemma first_leader_step check slot maxSlot r :
  slot < maxSlot -> ineligible (check slot) -> first_leader check (slot + 1) maxSlot r -> first_leader check slot maxSlot r.
Proof.
  intros Hs H0. unfold first_leader.
  assert (Hext : forall t u, slot <= t < u -> (forall t, slot + 1 <= t < u -> ineligible (check t)) -> ineligible (check t)).
  { intros t u Ht Hu. destruct (decide (t = slot)) as [->|]; [done|]. apply Hu. lia. }
  destruct r as [[[[s p] o]|]|e].
  - intros (B & E & T). split_and!; [lia|lia|done|]. intros t Ht. by apply (Hext t s).
  - intros T t Ht. apply (Hext t (maxSlot + 1)); [lia|]. intros t' Ht'. apply T. lia.
  - intros (s & B & E & T). exists s. split_and!; [lia|lia|done|]. intros t Ht. by apply (Hext t s).
Qed.

Lemma searchLoop_first fuel : forall i slot maxSlot nonce signer ev,
  0 <= slot <= maxSlot -> maxSlot <= MaxUint64 -> Z.of_nat fuel = maxSlot - slot + 1 ->
  first_leader (fun t => checkSlotLeadership t nonce signer ConsensusModeCPraos ev) slot maxSlot
    (searchLoop fuel (fun _ => false) i slot maxSlot nonce signer ev).
Proof.
  induction fuel as [|fuel IH]; intros i slot maxSlot nonce signer ev Hs Hm Hf; [lia|].
  cbn [searchLoop].
  destruct (checkSlotLeadership slot nonce signer ConsensusModeCPraos ev) as [[[] p o]|e] eqn:E; cbn [mbind result_bind Eligible].
  - split_and!; [lia|lia|done|lia].
  - assert (H0 : ineligible (checkSlotLeadership slot nonce signer ConsensusModeCPraos ev)) by (eexists; by rewrite E).
    destruct (Z.eqb_spec slot maxSlot) as [->|].
    + intros t Ht. by replace t with maxSlot by lia.
    + rewrite u64_small by lia. apply first_leader_step; [lia|done|]. apply IH; lia.
  - exists slot. split_and!; [lia|lia|done|lia].
Qed.

(** [FindNextSlotLeadership] returns the first slot from [startSlot] to
    [maxSlot], both included and up to the last 64-bit slot, that [IsSlotLeader]
    elects, with its proof and output; it returns none exactly when no slot is
    elected, and an error only when the check of the first slot not refused is
    that error. *)
Theorem next_leadership ca startSlot maxSlot nonce pool total f signer :
  0 <= startSlot <= maxSlot -> maxSlot <= MaxUint64 ->
  first_leader (fun t => fst (IsSlotLeader ca t nonce pool total f signer)) startSlot maxSlot
    (fst (FindNextSlotLeadership ca startSlot maxSlot nonce pool total f signer)).
Proof.
  intros Hs Hm. unfold FindNextSlotLeadership, FindNextSlotLeadershipContext, IsSlotLeader, IsSlotLeaderWithMode.
  destruct (Z.ltb_spec maxSlot startSlot); [lia|]. cbn [validateConsensusMode Z.eqb orb ConsensusModeCPraos].
  destruct (prepareSlotLeadership ca nonce pool total f signer 0) as [[[ev []]|e] ca'] eqn:E;
    unfold ConsensusModeCPraos; rewrite E; cbn [fst].
  - intros t Ht. by eexists.
  - apply searchLoop_first; [done|done|lia].
  - exists startSlot. split_and!; [lia|lia|done|lia].
Qed.
End SearchProofs.

(** ** The schedule is the stake distribution *)

Lemma search_spec fuel : forall (P : Z -> bool) i j,
  i <= j -> j - i <= Z.of_nat fuel ->
  (forall a b, i <= a <= b -> b < j -> P a = true -> P b = true) ->
  i <= search fuel P i j <= j /\
  (forall k, i <= k < search fuel P i j -> P k = false) /\
  (search fuel P i j < j -> P (search fuel P i j) = true).
Proof.
  induction fuel as [|fuel IH]; intros P i j Hij Hf HP; cbn [search].
  - split_and!; lia.
  - destruct (Z.ltb_spec i j); [|split_and!; lia].
    pose proof (Z.div_mod (i + j) 2 ltac:(lia)). pose proof (Z.mod_pos_bound (i + j) 2 ltac:(lia)).
    set (h := (i + j) / 2) in *. assert (i <= h < j) by lia.
    destruct (P h) eqn:Eh.
    + destruct (IH P i h) as (B & F & T); [lia|lia|intros a b ? ?; apply HP; lia|].
      split_and!; [lia|lia|done|]. intros _. destruct (decide (search fuel P i h = h)) as [->|]; [done|]. apply T. lia.
    + destruct (IH P (h + 1) j) as (B & F & T); [lia|lia|intros a b ? ?; apply HP; lia|].
      split_and!; [lia|lia| |done]. intros k Hk. destruct (Z_lt_le_dec h k); [apply F; lia|].
      destruct (P k) eqn:Ek; [|done]. by rewrite (HP k h) in Eh by (done || lia).
Qed.

(** The intervals of an ordered list of pools. *)
Fixpoint cumulate (acc : Z) (pools : list TachysPool) : list tachysInterval :=
  match pools with
  | [] => []
  | p :: ps => mkInterval (ID p) (acc + Stake p) :: cumulate (acc + Stake p) ps
  end.

Definition stakes : list TachysPool -> Z := sum_by Stake.

Definition no_repeat (prev : option bytes) (pools : list TachysPool) : Prop :=
  match pools with [] => True | p :: _ => prev <> Some (ID p) end.

Lemma add64_carry a b : 0 <= a <= MaxUint64 -> 0 <= b <= MaxUint64 ->
  add64 a b 0 = (u64 (a + b), if a + b <=? MaxUint64 then 0 else 1).
Proof.
  intros Ha Hb. unfold add64, MaxUint64 in *. rewrite Z.add_0_r. f_equal.
  destruct (Z.leb_spec (a + b) 18446744073709551615); [apply Z.div_small; lia|].
  symmetry. apply (Z.div_unique _ _ _ (a + b - 18446744073709551616)); lia.
Qed.

(** The loop accepts exactly the ordered lists with positive stakes, no repeated
    neighbour and a sum that fits, and returns their cumulative intervals. *)
Lemma intervalLoop_ok pools : forall prev acc ivs tot,
  0 <= acc <= MaxUint64 -> Forall (fun p => 0 <= Stake p <= MaxUint64) pools ->
  intervalLoop prev acc pools = Ok (ivs, tot) <->
  (Forall (fun p => 0 < Stake p) pools /\
   (forall a p q b, pools = a ++ p :: q :: b -> ID p <> ID q) /\ no_repeat prev pools /\
   acc + stakes pools <= MaxUint64 /\ ivs = cumulate acc pools /\ tot = acc + stakes pools).
Proof.
  induction pools as [|p ps IH]; intros prev acc ivs tot Ha F; cbn [intervalLoop].
  { split.
    - intros [= <- <-]. unfold stakes. cbn. split_and!; try done; try lia. by intros [|? []].
    - intros (_ & _ & _ & _ & -> & ->). unfold stakes. cbn. by rewrite Z.add_0_r. }
  apply Forall_cons in F as [Hp F]. unfold stakes, no_repeat. cbn [sum_by cumulate].
  assert (Hn : 0 <= stakes ps).
  { unfold stakes. clear -F. induction ps as [|q qs IH]; [done|]. apply Forall_cons in F as [? F]. cbn. specialize (IH F). lia. }
  unfold stakes in Hn.
  destruct (Z.eqb_spec (Stake p) 0).
  { split; [done|]. intros (HF & _). apply Forall_cons in HF as [? _]. lia. }
  destruct (bool_decide_reflect (prev = Some (ID p))) as [Hprev|Hprev]; [split; [done|tauto]|].
  rewrite add64_carry by lia. destruct (Z.leb_spec (acc + Stake p) MaxUint64) as [Hle|Hgt]; cbn [negb Z.eqb].
  2:{ split; [done|]. lia. }
  rewrite u64_small by lia. specialize (IH (Some (ID p)) (acc + Stake p)).
  destruct (intervalLoop (Some (ID p)) (acc + Stake p) ps) as [[ivs' tot']|e]; cbn [mbind result_bind].
  - destruct (IH ivs' tot' ltac:(lia) F) as [IH1 _]. destruct (IH1 eq_refl) as (F' & D & N & S & -> & ->).
    unfold stakes in *. split.
    + intros [= <- <-]. split_and!; [constructor; [lia|done]| |done|lia|done|lia].
      intros [|a0 a] q r b [= -> Eq]; [|by apply (D a q r b)].
      unfold no_repeat in N. rewrite Eq in N. congruence.
    + intros (_ & _ & _ & _ & -> & ->). f_equal. f_equal. lia.
  - split; [done|]. intros (HF & D & N & S & -> & ->). exfalso.
    destruct (IH (cumulate (acc + Stake p) ps) (acc + Stake p + stakes ps) ltac:(lia) F) as [_ IH2].
    discriminate IH2. apply Forall_cons in HF as [_ HF]. unfold stakes in *.
    split_and!; [done| | |lia|done|done].
    + intros a q r b ->. by apply (D (p :: a) q r b).
    + unfold no_repeat. destruct ps as [|q qs]; [done|]. intros [= E]. by apply (D [] p q qs).
Qed.

Lemma cumulate_lookup pools : forall acc i,
  cumulate acc pools !! i = (fun p => mkInterval (ID p) (acc + stakes (take (S i) pools))) <$> pools !! i.
Proof.
  unfold stakes. induction pools as [|p ps IH]; intros acc [|i]; [done..| |].
  - cbn. by rewrite Z.add_0_r.
  - cbn [cumulate lookup list_lookup]. rewrite IH. cbn [take sum_by].
    destruct (ps !! i); [|done]. cbn. do 2 f_equal. lia.
Qed.

Lemma cumulate_length acc pools : length (cumulate acc pools) = length pools.
Proof. revert acc. induction pools; intros acc; cbn; [done|]. by rewrite IHpools. Qed.

#[export] Instance pool_le_trans : Transitive pool_le.
Proof. intros a b c H1%Is_true_true H2%Is_true_true. apply Is_true_true. by eapply bytes_leb_trans. Qed.

#[export] Instance pool_le_total : Total pool_le.
Proof. intros a b. unfold pool_le. rewrite !Is_true_true. apply bytes_leb_total. Qed.

Lemma pool_le_antisym a b : pool_le a b -> pool_le b a -> ID a = ID b.
Proof. unfold pool_le. rewrite !Is_true_true. apply bytes_leb_antisym. Qed.

(** In an ordered list without repeated neighbours, no identifier repeats. *)
Lemma ordered_distinct l : StronglySorted pool_le l ->
  (forall a p q b, l = a ++ p :: q :: b -> ID p <> ID q) -> NoDup (ID <$> l).
Proof.
  induction 1 as [|p l Hs IH Hp]; intros D; [constructor|]. cbn.
  assert (IHl : NoDup (ID <$> l)) by (apply IH; intros a q r b ->; by apply (D (p :: a) q r b)).
  constructor; [|done]. destruct l as [|q l]; [by intros ?%elem_of_nil|].
  intros [r [E Hr]]%list_elem_of_fmap. rewrite Forall_forall in Hp.
  apply (D [] p q l); [done|]. apply pool_le_antisym; [apply Hp; left|].
  apply elem_of_cons in Hr as [->|Hr]; [unfold pool_le; rewrite E, Is_true_true; by destruct (bytes_leb_total (ID q) (ID q))|].
  apply StronglySorted_inv in Hs as [_ Hq]. rewrite Forall_forall in Hq. specialize (Hq r Hr).
  unfold pool_le in *. by rewrite E.
Qed.

Lemma distinct_neighbours l a p q b : NoDup (ID <$> l) -> l = a ++ p :: q :: b -> ID p <> ID q.
Proof.
  intros N ->. rewrite fmap_app in N. apply NoDup_app in N as (_ & _ & N). cbn in N.
  apply NoDup_cons in N as [N _]. intros E. apply N. rewrite E. left.
Qed.

Definition ordered (pools : list TachysPool) : list TachysPool := merge_sort pool_le pools.

Lemma ordered_perm pools : ordered pools ≡ₚ pools.
Proof. apply merge_sort_Permutation. Qed.

Lemma ordered_sorted pools : StronglySorted pool_le (ordered pools).
Proof. apply StronglySorted_merge_sort; apply _. Qed.

Lemma ordered_unique pools pools' : NoDup (ID <$> pools) -> pools ≡ₚ pools' -> ordered pools = ordered pools'.
Proof.
  intros N P. apply (StronglySorted_unique_strong pool_le); [|apply ordered_sorted..|].
  - intros p q Hp Hq H1 H2. rewrite ordered_perm in Hp. rewrite ordered_perm, <- P in Hq.
    pose proof (pool_le_antisym p q H1 H2) as E.
    apply list_elem_of_lookup in Hp as [i Hi]. apply list_elem_of_lookup in Hq as [j Hj].
    assert (i = j) as ->; [|congruence].
    eapply NoDup_lookup; [exact N|rewrite list_lookup_fmap, Hi; done|rewrite list_lookup_fmap, Hj; cbn; by rewrite E].
  - by rewrite !ordered_perm.
Qed.

(** The stake of the pools with smaller identifiers. *)
Definition below (pools : list TachysPool) (id : bytes) : Z :=
  sum_by (fun q => if bytes_leb (ID q) id && bool_decide (ID q <> id) then Stake q else 0) pools.

Lemma stakes_pos l : l <> [] -> Forall (fun p => 0 < Stake p) l -> 0 < stakes l.
Proof.
  destruct l as [|p ps]; [done|]. intros _ [Hp H0]%Forall_cons. unfold stakes. cbn.
  assert (0 <= sum_by Stake ps); [|lia]. clear -H0. induction H0; cbn; lia.
Qed.

(** What the constructor accepts and builds. *)
Lemma selector_exact pools total sel :
  Forall (fun p => 0 <= Stake p <= MaxUint64) pools ->
  NewTachysLeaderSelector pools total = Ok sel <->
  (pools <> [] /\ Forall (fun p => 0 < Stake p) pools /\ NoDup (ID <$> pools) /\
   stakes pools = total /\ total <= MaxUint64 /\ sel = mkSelector (cumulate 0 (ordered pools)) total).
Proof.
  intros F. unfold NewTachysLeaderSelector. fold (ordered pools).
  pose proof (ordered_perm pools) as P. pose proof (ordered_sorted pools) as S.
  assert (Es : stakes (ordered pools) = stakes pools) by (unfold stakes; by apply sum_by_perm).
  assert (F' : Forall (fun p => 0 <= Stake p <= MaxUint64) (ordered pools)) by (by rewrite P).
  destruct (bool_decide_reflect (pools = [])) as [->|Hne]; [split; [done|tauto]|].
  pose proof (intervalLoop_ok (ordered pools) None 0) as L.
  destruct (Z.eqb_spec total 0) as [->|].
  { split; [done|]. intros (_ & Hp & _ & E & _). pose proof (stakes_pos pools Hne Hp). lia. }
  destruct (intervalLoop None 0 (ordered pools)) as [[ivs tot]|e]; cbn [mbind result_bind].
  - destruct (proj1 (L ivs tot ltac:(unfold MaxUint64; lia) F') eq_refl) as (Hp & D & _ & Hs & -> & ->).
    rewrite Es, Z.add_0_l in *. rewrite P in Hp.
    assert (N : NoDup (ID <$> pools)) by (rewrite <- P; by apply ordered_distinct).
    destruct (Z.eqb_spec (stakes pools) total) as [<-|]; [|split; [done|tauto]].
    split; [intros [= <-]; done|]. intros (_ & _ & _ & _ & _ & ->). done.
  - split; [done|]. intros (_ & Hp & N & E & Ht & _). exfalso.
    destruct (L (cumulate 0 (ordered pools)) (0 + stakes (ordered pools)) ltac:(unfold MaxUint64; lia) F') as [_ L2].
    discriminate L2. rewrite Es. split_and!; [by rewrite P| |by destruct (ordered pools)|lia|done|done].
    intros a p q b. apply distinct_neighbours. by rewrite P.
Qed.

(** A prefix of the ordered pools is those with smaller identifiers. *)
Lemma below_prefix pools i p : NoDup (ID <$> pools) -> ordered pools !! i = Some p ->
  below pools (ID p) = stakes (take i (ordered pools)).
Proof.
  intros N Hi. unfold below, stakes. rewrite <- (sum_by_perm _ _ _ (ordered_perm pools)).
  rewrite <- (take_drop_middle (ordered pools) i p Hi) at 1. rewrite sum_by_app.
  pose proof (ordered_sorted pools) as O. rewrite <- (take_drop_middle (ordered pools) i p Hi) in O.
  assert (N' : NoDup (ID <$> take i (ordered pools) ++ p :: drop (S i) (ordered pools))).
  { rewrite take_drop_middle by done. by rewrite ordered_perm. }
  rewrite fmap_app in N'. apply NoDup_app in N' as (_ & Nl & Nr). cbn in Nl, Nr. apply NoDup_cons in Nr as [Nr _].
  apply StronglySorted_app in O as (Sl & _ & Sr). apply StronglySorted_inv in Sr as [_ Sr]. rewrite Forall_forall in Sr.
  cbn [sum_by]. rewrite (bool_decide_eq_false_2 (ID p <> ID p)) by (intros ?; done). rewrite andb_false_r.
  rewrite (sum_by_ext _ Stake (take i (ordered pools))).
  - enough (E : sum_by (fun q => if bytes_leb (ID q) (ID p) && bool_decide (ID q <> ID p) then Stake q else 0)
                  (drop (S i) (ordered pools)) = 0) by lia.
    rewrite (sum_by_ext _ (fun _ => 0)); [by generalize (drop (S i) (ordered pools)); intros l; induction l|].
    intros q Hq. specialize (Sr q Hq).
    destruct (bytes_leb (ID q) (ID p)) eqn:E; [|done]. exfalso. apply Nr.
    rewrite (pool_le_antisym p q Sr) by (by apply Is_true_true). apply list_elem_of_fmap. by exists q.
  - intros q Hq. assert (Hle : pool_le q p) by (apply (Sl q p Hq); left). apply Is_true_true in Hle. rewrite Hle.
    rewrite bool_decide_eq_true_2; [done|]. intros E.
    apply (Nl (ID q)); [apply list_elem_of_fmap; by exists q|]. rewrite E. left.
Qed.

Lemma stakes_take_S l i p : l !! i = Some p -> stakes (take (S i) l) = stakes (take i l) + Stake p.
Proof.
  intros H. unfold stakes. rewrite (take_S_r l i p H), sum_by_app. cbn. lia.
Qed.

Lemma stakes_take_mono l i j : Forall (fun p => 0 < Stake p) l -> (i <= j)%nat -> stakes (take i l) <= stakes (take j l).
Proof.
  intros F. induction 1 as [|j _ IH]; [done|]. destruct (l !! j) as [p|] eqn:E.
  - rewrite (stakes_take_S l j p E). apply (Forall_lookup_1 _ _ _ _ F) in E. lia.
  - apply lookup_ge_None in E. by replace (take (S j) l) with (take j l) by (by rewrite !take_ge by lia).
Qed.

(** The search finds the slice that holds a scaled sample. *)
Lemma sortSearch_slice l v M :
  Forall (fun p => 0 < Stake p) l -> 0 <= v < stakes l * M -> 0 < M ->
  let r := sortSearch (blen l) (fun i =>
    match cumulate 0 l !! Z.to_nat i with Some iv => v <? upperStake iv * M | None => false end) in
  exists p, l !! Z.to_nat r = Some p /\
    stakes (take (Z.to_nat r) l) * M <= v < (stakes (take (Z.to_nat r) l) + Stake p) * M.
Proof.
  intros Hp Hv HM. unfold sortSearch, blen. rewrite Nat2Z.id. set (Q := fun i : Z => _). set (n := length l).
  assert (HQ : forall i : nat, (i < n)%nat -> Q (Z.of_nat i) = (v <? stakes (take (S i) l) * M)).
  { intros i Hi. subst Q. cbn beta. rewrite Nat2Z.id, cumulate_lookup.
    destruct (lookup_lt_is_Some_2 l i Hi) as [q ->]. done. }
  destruct (search_spec n Q 0 (Z.of_nat n)) as (R & Fl & Tr); [lia|lia| |].
  { intros a b Hab Hb. rewrite <- (Z2Nat.id a), <- (Z2Nat.id b), !HQ by lia. rewrite !Z.ltb_lt.
    pose proof (stakes_take_mono l (S (Z.to_nat a)) (S (Z.to_nat b)) Hp ltac:(lia)). nia. }
  set (r := search n Q 0 (Z.of_nat n)) in *.
  assert (Hr : r < Z.of_nat n).
  { destruct (Z_lt_le_dec r (Z.of_nat n)); [done|]. exfalso.
    destruct n as [|k] eqn:En; [apply nil_length_inv in En; subst l; unfold stakes in Hv; cbn in Hv; lia|].
    specialize (Fl (Z.of_nat k) ltac:(lia)). rewrite HQ in Fl by lia. apply Z.ltb_ge in Fl.
    rewrite take_ge in Fl by lia. lia. }
  specialize (Tr Hr). rewrite <- (Z2Nat.id r), HQ, Z.ltb_lt in Tr by lia. cbn zeta.
  destruct (lookup_lt_is_Some_2 l (Z.to_nat r) ltac:(lia)) as [p Hpr]. exists p. split; [done|].
  rewrite (stakes_take_S _ _ p Hpr) in Tr. split; [|lia].
  destruct (Z.to_nat r) as [|i] eqn:Ei; [change (stakes (take 0 l)) with 0; lia|].
  specialize (Fl (Z.of_nat i) ltac:(lia)). rewrite HQ in Fl by lia. by apply Z.ltb_ge in Fl.
Qed.

Lemma leader_of_sample pools sample :
  pools <> [] -> Forall (fun p => 0 < Stake p) pools -> NoDup (ID <$> pools) ->
  wf_bytes sample -> length sample = 32%nat ->
  exists p, p ∈ pools /\
    LeaderForSample (Some (mkSelector (cumulate 0 (ordered pools)) (stakes pools))) sample = Ok (ID p) /\
    below pools (ID p) * 2 ^ 256 <= be_decode sample * stakes pools < (below pools (ID p) + Stake p) * 2 ^ 256.
Proof.
  intros Hne Hp N W L. pose proof (ordered_perm pools) as P. pose proof (stakes_pos pools Hne Hp) as Hpos.
  assert (Es : stakes (ordered pools) = stakes pools) by (unfold stakes; by apply sum_by_perm).
  pose proof (be_decode_bounds sample W) as B. replace (blen sample) with 32 in B by (unfold blen; lia).
  change (256 ^ 32) with (2 ^ 256) in B.
  destruct (sortSearch_slice (ordered pools) (be_decode sample * stakes pools) (2 ^ 256)) as (p & Hpr & Hs);
    [by rewrite P|rewrite Es; nia|done|].
  exists p. split; [rewrite <- P; by eapply list_elem_of_lookup_2|].
  rewrite (below_prefix pools _ p N Hpr). split; [|exact Hs].
  unfold LeaderForSample. cbn [uninitialized intervals selectorTotal].
  rewrite bool_decide_eq_false_2.
  2:{ intros E. apply (f_equal length) in E. rewrite cumulate_length, (Permutation_length P) in E. by destruct pools. }
  destruct (Z.eqb_spec (stakes pools) 0); [lia|]. cbn [orb].
  replace (blen sample =? 32) with true by (symmetry; apply Z.eqb_eq; unfold blen; lia). cbn [negb].
  unfold blen at 1 in Hpr. unfold blen. rewrite cumulate_length. change (Z.shiftl 1 256) with (2 ^ 256).
  by rewrite cumulate_lookup, Hpr.
Qed.

(** The Tachys schedule is the stake distribution. The constructor accepts
    exactly nonempty distributions with positive stakes, distinct pools and the
    right total, in any order of the pools and with the same result. The leader
    of a sample is then the one pool whose slice of the sample space holds it:
    the slice from the stake of the pools with smaller identifiers to that plus
    its own. *)
Theorem tachys_schedule pools total sel :
  Forall (fun p => 0 <= Stake p <= MaxUint64) pools ->
  (NewTachysLeaderSelector pools total = Ok sel <->
   pools <> [] /\ Forall (fun p => 0 < Stake p) pools /\ NoDup (ID <$> pools) /\
   stakes pools = total /\ total <= MaxUint64 /\ sel = mkSelector (cumulate 0 (ordered pools)) total) /\
  (NewTachysLeaderSelector pools total = Ok sel ->
   (forall pools', pools ≡ₚ pools' -> NewTachysLeaderSelector pools' total = Ok sel) /\
   (forall sample, wf_bytes sample -> length sample = 32%nat ->
      exists p, p ∈ pools /\ LeaderForSample (Some sel) sample = Ok (ID p) /\
        below pools (ID p) * 2 ^ 256 <= be_decode sample * total <
        (below pools (ID p) + Stake p) * 2 ^ 256)).
Proof.
  intros F. pose proof (selector_exact pools total sel F) as X. split; [done|].
  intros E. pose proof (proj1 X E) as (Hne & Hp & N & Ht & Hm & ->). split.
  - intros pools' P. apply selector_exact; [by rewrite <- P|].
    split_and!; [|by rewrite <- P|by rewrite <- P| |done|].
    + intros ->. symmetry in P. by apply Permutation_nil in P.
    + rewrite <- Ht. unfold stakes. symmetry. by apply sum_by_perm.
    + by rewrite (ordered_unique pools pools').
  - intros sample W L. rewrite <- Ht. by apply leader_of_sample.
Qed.

Definition exPools : list TachysPool := [mkTachysPool [2] 30; mkTachysPool [1] 70].

(** An instance: two pools; a sample in the upper fifth is of the second. *)
Lemma tachys_schedule_witness :
  LeaderForSample (Some (mkSelector (cumulate 0 (ordered exPools)) 100)) (204 :: replicate 31 0) = Ok [2].
Proof.
  destruct (tachys_schedule exPools 100 (mkSelector (cumulate 0 (ordered exPools)) 100)) as [_ H].
  { by repeat constructor. }
  destruct H as [_ H]; [vm_compute; reflexivity|].
  destruct (H (204 :: replicate 31 0)) as (p & Hp & E & _); [by repeat constructor|done|].
  rewrite E. vm_compute in E. symmetry. exact E.
Defined.

Definition exSigner : VRFSigner := mkSigner (fun i => Some (replicate 80 0, replicate 64 0)) (replicate 32 0).

(** An instance: a search over three slots of a pool with all the stake. *)
Lemma next_leadership_witness :
  first_leader (fun t => fst (IsSlotLeader (newLeaderEligibilityCache 8) t (replicate 32 0) 1 1 (Some (mkRat 1 1)) (Some exSigner)))
    5 7 (fst (FindNextSlotLeadership (newLeaderEligibilityCache 8) 5 7 (replicate 32 0) 1 1 (Some (mkRat 1 1)) (Some exSigner))).
Proof. apply next_leadership; unfold MaxUint64; lia. Defined.
