(* ===== verification/Header.v ===== *)
(** * Block headers (src/consensus/validate.go, block.go, ledger/common/opcert.go)

    The validation of a header against its predecessor, the stake distribution
    and the operational certificate counters, and the construction of a header
    by a block producer. VRF and KES are the components of this library; the
    CBOR encoder is a parameter. *)

From S2P Require Import Prelude Kes Vrf E34 Eligibility Leader.
#[local] Open Scope Z_scope.

Definition CardanoKesSignatureSize : Z := 448.

(** ** Validation *)

Record HeaderValidator := mkValidator {
  slotsPerKESPeriod : Z;
  maxKESEvolutions : Z;
  activeSlotCoeff : option Rat;
  validatorMode : Z;
  validatorTachys : option TachysLeaderSelector
}.

(** The part of [NetworkConfig] the validator takes. *)
Record NetworkConfig := mkNetwork {
  SlotsPerKESPeriod : Z;
  MaxKESEvolutions : Z;
  ActiveSlotCoeffRat : option Rat
}.

Record ValidateHeaderInput := mkInput {
  inSlot : Z;
  inBlockNumber : Z;
  inPrevHash : bytes;
  inIssuerVkey : bytes;
  inVrfKey : bytes;
  inVrfProof : bytes;
  inVrfOutput : bytes;
  inKesSignature : bytes;
  inHeaderBodyCbor : bytes;
  inNonceVrfProof : bytes;
  inNonceVrfOutput : bytes;
  inOpCertHotVkey : bytes;
  inOpCertSequenceNumber : Z;
  inOpCertKesPeriod : Z;
  inOpCertSignature : bytes;
  inOpCertCounterState : option Z;
  inPrevSlot : Z;
  inPrevBlockNumber : Z;
  inPrevHeaderHash : bytes;
  inEpochNonce : bytes;
  inPoolStake : Z;
  inTotalStake : Z;
  inRegisteredVrfKeyHash : bytes
}.

Inductive headerError :=
| ErrSlotOrdering | ErrBlockNumber | ErrPrevHashMissing | ErrPrevHash
| ErrEpochNonce | ErrVrfKeySize | ErrVrfProofSize (nonce : bool) | ErrVrfOutputSize | ErrMode
| ErrVrfInput (nonce : bool) | ErrVrf (nonce : bool) (e : vrfError) | ErrVrfFalse (nonce : bool)
| ErrTachys (e : tachysError) | ErrNotScheduled | ErrStakeZero | ErrPoolZero | ErrConsensus (e : consensusError)
| ErrNotEligible | ErrSlotsPerPeriod | ErrOpCertFuture | ErrOpCertExpired | ErrBodyMissing | ErrKesSigSize
| ErrHotVkeySize | ErrKesSignature | ErrIssuerMissing | ErrIssuerSize | ErrOpCertSigSize | ErrOpCertSignature
| ErrCounterMissing | ErrCounterRollback | ErrCounterSkip | ErrRegistrationMissing | ErrRegistrationKeySize
| ErrRegistration | ErrNilSelector.

Abbreviation hres A := (result headerError A).

Record ValidateResult := mkValidateResult {
  Valid : bool;
  resultVrfOutput : bytes;
  NextOpCertCounter : option Z;
  Errors : list headerError
}.

Definition NewHeaderValidatorWithMode (config : NetworkConfig) (m : Z) : HeaderValidator :=
  mkValidator (SlotsPerKESPeriod config) (MaxKESEvolutions config) (ActiveSlotCoeffRat config) m None.

Definition NewHeaderValidator (config : NetworkConfig) : HeaderValidator :=
  NewHeaderValidatorWithMode config ConsensusModeCPraos.

Definition NewTachysHeaderValidator (config : NetworkConfig) (selector : option TachysLeaderSelector)
    : hres HeaderValidator :=
  if uninitialized selector then Err ErrNilSelector
  else Ok (mkValidator (SlotsPerKESPeriod config) (MaxKESEvolutions config) (ActiveSlotCoeffRat config)
             ConsensusModeCPraos selector).

Definition validateOpCertSequence (v : HeaderValidator) (i : ValidateHeaderInput) : hres Z :=
  match inOpCertCounterState i with
  | None => Err ErrCounterMissing
  | Some previous =>
    let current := inOpCertSequenceNumber i in
    if current <? previous then Err ErrCounterRollback
    else if (validatorMode v =? ConsensusModeCPraos) && (previous <? current) && (1 <? current - previous)
    then Err ErrCounterSkip
    else Ok current
  end.

Definition validateSlotOrdering (i : ValidateHeaderInput) : hres unit :=
  if inSlot i <=? inPrevSlot i then Err ErrSlotOrdering else Ok ().

Definition validateBlockNumber (i : ValidateHeaderInput) : hres unit :=
  if inBlockNumber i =? u64 (inPrevBlockNumber i + 1) then Ok () else Err ErrBlockNumber.

Definition validatePrevHash (i : ValidateHeaderInput) : hres unit :=
  if (0 <? inBlockNumber i) && (blen (inPrevHeaderHash i) =? 0) then Err ErrPrevHashMissing
  else if (0 <? blen (inPrevHeaderHash i)) && bool_decide (inPrevHash i <> inPrevHeaderHash i) then Err ErrPrevHash
  else Ok ().

(** The conversion of a [uint64] to [int64]. *)
Definition int64_of (z : Z) : Z := if z <=? MaxInt64 then z else z - 18446744073709551616.

(** The raw bytes the cold key signs. *)
Definition OpCertSignableBytes (kesVkey : bytes) (issueNumber kesPeriod : Z) : bytes :=
  kesVkey ++ be_encode 8 issueNumber ++ be_encode 8 kesPeriod.

Section Header.
Context `{KesCrypto} `{VrfCrypto} `{PoolHash}.

(** [nonce] is the label of the nonce certificate. *)
Definition verifyCertifiedVRF (v : HeaderValidator) (slot : Z) (epochNonce vrfKey proof output seed : bytes)
    (checkOutputSize nonce : bool) : hres bytes :=
  if negb (blen epochNonce =? 32) then Err ErrEpochNonce
  else if negb (length vrfKey =? VrfPublicKeySize)%nat then Err ErrVrfKeySize
  else if negb (length proof =? ProofSize)%nat then Err (ErrVrfProofSize nonce)
  else if checkOutputSize && negb (length output =? OutputSize)%nat then Err ErrVrfOutputSize
  else
    vrfInput ←
      (if validatorMode v =? ConsensusModeTPraos then
         match MkSeedTPraos (int64_of slot) epochNonce seed with Ok b => Ok b | Err _ => Err (ErrVrfInput nonce) end
       else if validatorMode v =? ConsensusModeCPraos then
         match MkInputVrf (int64_of slot) epochNonce with Ok b => Ok b | Err _ => Err (ErrVrfInput nonce) end
       else Err ErrMode);
    match VrfVerify vrfKey proof output vrfInput with
    | Err e => Err (ErrVrf nonce e)
    | Ok false => Err (ErrVrfFalse nonce)
    | Ok true => Ok output
    end.

Definition validateVRFProof (v : HeaderValidator) (i : ValidateHeaderInput) : hres bytes :=
  verifyCertifiedVRF v (inSlot i) (inEpochNonce i) (inVrfKey i) (inVrfProof i) (inVrfOutput i) SeedL false false.

Definition validateNonceVRFProof (v : HeaderValidator) (i : ValidateHeaderInput) : hres unit :=
  if negb (validatorMode v =? ConsensusModeTPraos) then Ok () else
  _ ← verifyCertifiedVRF v (inSlot i) (inEpochNonce i) (inVrfKey i) (inNonceVrfProof i) (inNonceVrfOutput i)
        SeedEta true true;
  Ok ().

(** The leader check goes through the shared cache of evaluators. *)
Definition validateLeadership (ca : leaderEligibilityCache) (v : HeaderValidator) (i : ValidateHeaderInput)
    (vrfOutput : bytes) : hres unit * leaderEligibilityCache :=
  match validatorTachys v with
  | Some _ =>
    (match AuthorizeIssuer (validatorTachys v) (inEpochNonce i) (inSlot i) (inIssuerVkey i) with
     | Err e => Err (ErrTachys e)
     | Ok false => Err ErrNotScheduled
     | Ok true => Ok ()
     end, ca)
  | None =>
    if inTotalStake i =? 0 then (Err ErrStakeZero, ca)
    else if inPoolStake i =? 0 then
      (match validateConsensusMode (validatorMode v) with
       | Err e => Err (ErrConsensus e)
       | Ok _ =>
         match validateActiveSlotCoefficient (activeSlotCoeff v) with
         | Err e => Err (ErrConsensus e)
         | Ok _ => Err ErrPoolZero
         end
       end, ca)
    else
      let '(r, ca) := newLeaderEligibility ca (inPoolStake i) (inTotalStake i) (activeSlotCoeff v) (validatorMode v) in
      (match r with
       | Err e => Err (ErrConsensus e)
       | Ok evaluator =>
         match CheckVRFOutput (Some evaluator) vrfOutput with
         | Err e => Err (ErrConsensus e)
         | Ok false => Err ErrNotEligible
         | Ok true => Ok ()
         end
       end, ca)
  end.

Definition validateKESPeriod (v : HeaderValidator) (i : ValidateHeaderInput) : hres unit :=
  if slotsPerKESPeriod v =? 0 then Err ErrSlotsPerPeriod else
  let currentKESPeriod := inSlot i / slotsPerKESPeriod v in
  let opCertKESPeriod := inOpCertKesPeriod i in
  if currentKESPeriod <? opCertKESPeriod then Err ErrOpCertFuture
  else if maxKESEvolutions v <=? currentKESPeriod - opCertKESPeriod then Err ErrOpCertExpired
  else Ok ().

Definition validateKESSignature (v : HeaderValidator) (i : ValidateHeaderInput) : hres unit :=
  if slotsPerKESPeriod v =? 0 then Err ErrSlotsPerPeriod
  else if blen (inHeaderBodyCbor i) =? 0 then Err ErrBodyMissing
  else if negb (blen (inKesSignature i) =? CardanoKesSignatureSize) then Err ErrKesSigSize
  else if negb (length (inOpCertHotVkey i) =? PublicKeySize)%nat then Err ErrHotVkeySize
  else
    let currentKESPeriod := inSlot i / slotsPerKESPeriod v in
    let opCertKESPeriod := inOpCertKesPeriod i in
    if currentKESPeriod <? opCertKESPeriod then Err ErrOpCertFuture
    else if VerifySignedKES (inOpCertHotVkey i) (currentKESPeriod - opCertKESPeriod) (inHeaderBodyCbor i) (inKesSignature i)
    then Ok () else Err ErrKesSignature.

Definition validateOpCertSignature (i : ValidateHeaderInput) : hres unit :=
  if blen (inIssuerVkey i) =? 0 then Err ErrIssuerMissing
  else if negb (blen (inIssuerVkey i) =? 32) then Err ErrIssuerSize
  else if negb (blen (inOpCertSignature i) =? 64) then Err ErrOpCertSigSize
  else
    let opCertBody := OpCertSignableBytes (inOpCertHotVkey i) (inOpCertSequenceNumber i) (inOpCertKesPeriod i) in
    if edVerify (inIssuerVkey i) opCertBody (inOpCertSignature i) then Ok () else Err ErrOpCertSignature.

Definition validateVRFKeyRegistration (i : ValidateHeaderInput) : hres unit :=
  if blen (inRegisteredVrfKeyHash i) =? 0 then Err ErrRegistrationMissing
  else if negb (length (inVrfKey i) =? VrfPublicKeySize)%nat then Err ErrRegistrationKeySize
  else if bool_decide (blake2b (inVrfKey i) = inRegisteredVrfKeyHash i) then Ok () else Err ErrRegistration.

Definition error_of {A} (r : hres A) : list headerError := match r with Ok _ => [] | Err e => [e] end.

(** All the checks, in order; each error is kept. *)
Definition ValidateHeader (ca : leaderEligibilityCache) (v : HeaderValidator) (i : ValidateHeaderInput)
    : ValidateResult * leaderEligibilityCache :=
  let errs := error_of (validateSlotOrdering i) in
  let errs := errs ++ error_of (validateBlockNumber i) in
  let errs := errs ++ error_of (validatePrevHash i) in
  let vrf := validateVRFProof v i in
  let errs := errs ++ error_of vrf in
  let vrfOutput := match vrf with Ok o => o | Err _ => [] end in
  let '(leadership, ca) :=
    if bool_decide (vrfOutput = []) then (Ok (), ca) else validateLeadership ca v i vrfOutput in
  let errs := errs ++ error_of leadership in
  let errs := errs ++ error_of (validateNonceVRFProof v i) in
  let errs := errs ++ error_of (validateKESPeriod v i) in
  let errs := errs ++ error_of (validateKESSignature v i) in
  let errs := errs ++ error_of (validateOpCertSignature i) in
  let next := validateOpCertSequence v i in
  let errs := errs ++ error_of next in
  let errs := errs ++ error_of (validateVRFKeyRegistration i) in
  let valid := bool_decide (errs = []) in
  (mkValidateResult valid vrfOutput
     (if valid then match next with Ok n => Some n | Err _ => Some 0 end else None) errs, ca).

Definition QuickValidateHeader (i : ValidateHeaderInput) : hres unit :=
  if inSlot i =? 0 then Err ErrSlotOrdering
  else if (blen (inPrevHash i) =? 0) && (1 <? inBlockNumber i) then Err ErrPrevHashMissing
  else if negb (length (inVrfKey i) =? VrfPublicKeySize)%nat then Err ErrVrfKeySize
  else if negb (length (inVrfProof i) =? ProofSize)%nat then Err (ErrVrfProofSize false)
  else if negb (length (inVrfOutput i) =? OutputSize)%nat then Err ErrVrfOutputSize
  else if negb (blen (inKesSignature i) =? CardanoKesSignatureSize) then Err ErrKesSigSize
  else if negb (length (inOpCertHotVkey i) =? PublicKeySize)%nat then Err ErrHotVkeySize
  else Ok ().
End Header.

(** ** Construction *)

(** A [KESSigner]; a failed [Sign] is [None]. *)
Record KESSigner := mkKesSigner {
  kesSign : bytes -> option bytes;
  kesPublicKey : bytes;
  kesPeriod : Z
}.

Record OperationalCert := mkOpCert {
  HotVkey : bytes;
  SequenceNumber : Z;
  KesPeriod : Z;
  Signature : bytes
}.

Record BlockBuilder := mkBuilder {
  vrfSigner : option VRFSigner;
  kesSigner : option KESSigner;
  opCert : option OperationalCert;
  poolId : bytes;
  issuerVkey : bytes;
  builderCoeff : option Rat;
  builderMode : Z;
  builderTachys : option TachysLeaderSelector
}.

Record HeaderBody := mkHeaderBody {
  BlockNumber : Z;
  Slot : Z;
  PrevHash : bytes;
  IssuerVkey : bytes;
  VrfKey : bytes;
  NonceVrfOutput : bytes;
  NonceVrfProof : bytes;
  VrfOutput : bytes;
  VrfProof : bytes;
  BlockBodySize : Z;
  BlockBodyHash : bytes;
  OpCertHotVkey : bytes;
  OpCertSequenceNumber : Z;
  OpCertKesPeriod : Z;
  OpCertSignature : bytes;
  ProtoMajor : Z;
  ProtoMinor : Z
}.

Record Header := mkHeader { Body : HeaderBody; HeaderSignature : bytes }.

Record BuildHeaderInput := mkBuildInput {
  bSlot : Z;
  bBlockNumber : Z;
  bPrevHash : bytes;
  bEpochNonce : bytes;
  bPoolStake : Z;
  bTotalStake : Z;
  bBlockBodyHash : bytes;
  bBlockBodySize : Z;
  bProtoMajor : Z;
  bProtoMinor : Z
}.

Inductive buildError :=
| BuildVrfSignerNil | BuildKesSignerNil | BuildOpCertNil | BuildPrevHashEmpty | BuildNonceEmpty | BuildBodyHashEmpty
| BuildIssuerSize | BuildPrevHashSize | BuildNonceSize | BuildBodyHashSize | BuildCoeffNil | BuildVrfKeySize
| BuildHotVkeySize | BuildOpCertSigSize | BuildKesKeySize | BuildKesMismatch | BuildLeader (e : consensusError + tachysError)
| ErrNotSlotLeader | BuildSlotRange | BuildNonceInput | BuildNonceProve | BuildNonceProofSize | BuildNonceOutputSize
| BuildUnknownMode | BuildEncode | BuildSign | BuildSelector.

Definition NewBlockBuilderWithMode (vs : option VRFSigner) (ks : option KESSigner) (oc : option OperationalCert)
    (pool issuer : bytes) (f : option Rat) (m : Z) : BlockBuilder :=
  mkBuilder vs ks oc pool issuer f m None.

Definition NewBlockBuilder vs ks oc pool issuer f : BlockBuilder :=
  NewBlockBuilderWithMode vs ks oc pool issuer f ConsensusModeCPraos.

Definition NewTachysBlockBuilder (vs : option VRFSigner) (ks : option KESSigner) (oc : option OperationalCert)
    (issuer : bytes) (selector : option TachysLeaderSelector) : result buildError BlockBuilder :=
  if uninitialized selector then Err BuildSelector
  else Ok (mkBuilder vs ks oc [] issuer None ConsensusModeCPraos selector).

(** The values handed to [cbor.Encode]: unsigned integers, byte slices and
    slices of such. *)
#[warnings="-register-all"]
Inductive cborValue := CUint (n : Z) | CBytes (b : bytes) | CArray (l : list cborValue).

Class CborEncoder := { cborEncode : cborValue -> option bytes }.

(** An encoding has at least its initial byte. *)
Class CborEncoderLaws `{CborEncoder} : Prop := { cbor_nonempty v b : cborEncode v = Some b -> b <> [] }.

Section Build.
Context `{KesCrypto} `{VrfCrypto} `{PoolHash} `{CborEncoder}.

Definition cbor_encode (v : cborValue) : result buildError bytes :=
  match cborEncode v with Some b => Ok b | None => Err BuildEncode end.

Definition serializeHeaderBodyCPraos (body : HeaderBody) : result buildError bytes :=
  cbor_encode (CArray [
    CUint (BlockNumber body); CUint (Slot body); CBytes (PrevHash body); CBytes (IssuerVkey body); CBytes (VrfKey body);
    CArray [CBytes (VrfOutput body); CBytes (VrfProof body)];
    CUint (BlockBodySize body); CBytes (BlockBodyHash body);
    CArray [CBytes (OpCertHotVkey body); CUint (OpCertSequenceNumber body); CUint (OpCertKesPeriod body);
            CBytes (OpCertSignature body)];
    CArray [CUint (ProtoMajor body); CUint (ProtoMinor body)]]).

Definition serializeHeaderBodyTPraos (body : HeaderBody) : result buildError bytes :=
  cbor_encode (CArray [
    CUint (BlockNumber body); CUint (Slot body); CBytes (PrevHash body); CBytes (IssuerVkey body); CBytes (VrfKey body);
    CArray [CBytes (NonceVrfOutput body); CBytes (NonceVrfProof body)];
    CArray [CBytes (VrfOutput body); CBytes (VrfProof body)];
    CUint (BlockBodySize body); CBytes (BlockBodyHash body);
    CBytes (OpCertHotVkey body); CUint (OpCertSequenceNumber body); CUint (OpCertKesPeriod body);
    CBytes (OpCertSignature body); CUint (ProtoMajor body); CUint (ProtoMinor body)]).

Definition serializeHeaderBody (m : Z) (body : HeaderBody) : result buildError bytes :=
  if m =? ConsensusModeTPraos then serializeHeaderBodyTPraos body
  else if m =? ConsensusModeCPraos then serializeHeaderBodyCPraos body
  else Err BuildUnknownMode.

(** The checks that come first. *)
Definition checkBuild (b : BlockBuilder) (input : BuildHeaderInput)
    : result buildError (VRFSigner * KESSigner * OperationalCert) :=
  match vrfSigner b, kesSigner b, opCert b with
  | None, _, _ => Err BuildVrfSignerNil
  | _, None, _ => Err BuildKesSignerNil
  | _, _, None => Err BuildOpCertNil
  | Some vs, Some ks, Some oc =>
    if blen (bPrevHash input) =? 0 then Err BuildPrevHashEmpty
    else if blen (bEpochNonce input) =? 0 then Err BuildNonceEmpty
    else if blen (bBlockBodyHash input) =? 0 then Err BuildBodyHashEmpty
    else if negb (blen (issuerVkey b) =? 32) then Err BuildIssuerSize
    else if negb (blen (bPrevHash input) =? 32) then Err BuildPrevHashSize
    else if negb (blen (bEpochNonce input) =? 32) then Err BuildNonceSize
    else if negb (blen (bBlockBodyHash input) =? 32) then Err BuildBodyHashSize
    else if bool_decide (builderTachys b = None) && bool_decide (builderCoeff b = None) then Err BuildCoeffNil
    else if negb (length (signerPublicKey vs) =? VrfPublicKeySize)%nat then Err BuildVrfKeySize
    else if negb (blen (HotVkey oc) =? 32) then Err BuildHotVkeySize
    else if negb (blen (Signature oc) =? 64) then Err BuildOpCertSigSize
    else if negb (blen (kesPublicKey ks) =? 32) then Err BuildKesKeySize
    else if negb (bool_decide (kesPublicKey ks = HotVkey oc)) then Err BuildKesMismatch
    else Ok (vs, ks, oc)
  end.

(** The certificate for the nonce, of TPraos headers only. *)
Definition nonceCertificate (m : Z) (vs : VRFSigner) (input : BuildHeaderInput) : result buildError (bytes * bytes) :=
  if negb (m =? ConsensusModeTPraos) then Ok ([], [])
  else if MaxInt64 <? bSlot input then Err BuildSlotRange
  else
    match MkSeedTPraos (bSlot input) (bEpochNonce input) SeedEta with
    | Err _ => Err BuildNonceInput
    | Ok nonceVrfInput =>
      match signerProve vs nonceVrfInput with
      | None => Err BuildNonceProve
      | Some (proof, output) =>
        if negb (length proof =? ProofSize)%nat then Err BuildNonceProofSize
        else if negb (length output =? OutputSize)%nat then Err BuildNonceOutputSize
        else Ok (proof, output)
      end
    end.

Definition inl_err {A} (r : out A) : result (consensusError + tachysError) A :=
  match r with Ok a => Ok a | Err e => Err (inl e) end.

(** The leader check of the builder. *)
Definition builderLeadership (ca : leaderEligibilityCache) (b : BlockBuilder) (slot : Z) (nonce : bytes) (pool total : Z)
    : result (consensusError + tachysError) LeaderElectionResult * leaderEligibilityCache :=
  match builderTachys b with
  | Some _ => (IsTachysSlotLeader slot nonce (issuerVkey b) (builderTachys b) (vrfSigner b), ca)
  | None =>
    let '(r, ca) := IsSlotLeaderWithMode ca slot nonce pool total (builderCoeff b) (vrfSigner b) (builderMode b) in
    (inl_err r, ca)
  end.

Definition headerBody (b : BlockBuilder) (vs : VRFSigner) (oc : OperationalCert) (input : BuildHeaderInput)
    (nonce : bytes * bytes) (leader : LeaderElectionResult) : HeaderBody :=
  mkHeaderBody (bBlockNumber input) (bSlot input) (bPrevHash input) (issuerVkey b) (signerPublicKey vs)
    (snd nonce) (fst nonce) (Output leader) (Proof_ leader) (bBlockBodySize input) (bBlockBodyHash input)
    (HotVkey oc) (SequenceNumber oc) (KesPeriod oc) (Signature oc) (bProtoMajor input) (bProtoMinor input).

(** An error keeps the result of the election, once there is one. *)
Definition BuildHeader (ca : leaderEligibilityCache) (b : BlockBuilder) (input : BuildHeaderInput)
    : result (buildError * option LeaderElectionResult) (Header * LeaderElectionResult) * leaderEligibilityCache :=
  match checkBuild b input with
  | Err e => (Err (e, None), ca)
  | Ok (vs, ks, oc) =>
    let '(leader, ca) :=
      builderLeadership ca b (bSlot input) (bEpochNonce input) (bPoolStake input) (bTotalStake input) in
    (match leader with
     | Err e => Err (BuildLeader e, None)
     | Ok leaderResult =>
       if negb (Eligible leaderResult) then Err (ErrNotSlotLeader, Some leaderResult) else
       match nonceCertificate (builderMode b) vs input with
       | Err e => Err (e, Some leaderResult)
       | Ok nonce =>
         let body := headerBody b vs oc input nonce leaderResult in
         match serializeHeaderBody (builderMode b) body with
         | Err e => Err (e, Some leaderResult)
         | Ok bodyBytes =>
           match kesSign ks bodyBytes with
           | None => Err (BuildSign, Some leaderResult)
           | Some signature => Ok (mkHeader body signature, leaderResult)
           end
         end
       end
     end, ca)
  end.

Definition CheckSlotLeadership (ca : leaderEligibilityCache) (b : BlockBuilder) (slot : Z) (nonce : bytes) (pool total : Z)
    : result (consensusError + tachysError) LeaderElectionResult * leaderEligibilityCache :=
  match builderTachys b, builderCoeff b with
  | None, None => (Err (inl ErrCoeffNil), ca)
  | None, Some _ =>
    if negb (blen nonce =? 32) then (Err (inl ErrNonceLength), ca) else builderLeadership ca b slot nonce pool total
  | Some _, _ => builderLeadership ca b slot nonce pool total
  end.

Definition ComputeBlockBodyHash (bodyBytes : bytes) : bytes := blake2b bodyBytes.

(** The empty slice stands for nil. *)
Definition ComputeVRFInput (slot : Z) (epochNonce : bytes) : bytes :=
  if negb (blen epochNonce =? 32) then []
  else if MaxInt64 <? slot then []
  else match MkInputVrf slot epochNonce with Ok b => b | Err _ => [] end.
End Build.

(** ** What a valid header is *)

Section Spec.
Context `{KesCrypto} `{VrfCrypto} `{PoolHash}.

(** The message a VRF certificate of a slot certifies. *)
Definition certifiedInput (m slot : Z) (nonce seed : bytes) : bytes :=
  let base := blake2b (be_encode 8 slot ++ nonce) in
  if m =? ConsensusModeTPraos then zip_with Z.lxor base seed else base.

Record certified (v : HeaderValidator) (i : ValidateHeaderInput) (seed proof output : bytes) : Prop := {
  cert_mode : validatorMode v = ConsensusModeCPraos \/ validatorMode v = ConsensusModeTPraos;
  cert_nonce : length (inEpochNonce i) = 32%nat;
  cert_key : length (inVrfKey i) = VrfPublicKeySize;
  cert_proof : length proof = ProofSize;
  cert_verifies :
    VrfVerify (inVrfKey i) proof output (certifiedInput (validatorMode v) (inSlot i) (inEpochNonce i) seed) = Ok true
}.

(** The issuer may make a block in the slot. *)
Definition leads (v : HeaderValidator) (i : ValidateHeaderInput) : Prop :=
  match validatorTachys v with
  | Some _ =>
    length (inIssuerVkey i) = 32%nat /\
    tachysLeader (validatorTachys v) (inEpochNonce i) (inSlot i) = Ok (blake2b224 (inIssuerVkey i))
  | None =>
    inPoolStake i <> 0 /\
    exists k s, eligibilityKey (inPoolStake i) (inTotalStake i) (activeSlotCoeff v) (validatorMode v) = Ok k /\
                prepareLeaderEligibility k = Ok s /\ CheckVRFOutput (Some s) (inVrfOutput i) = Ok true
  end.

(** The period of the signature, counted from the certificate's. *)
Definition evolution (v : HeaderValidator) (i : ValidateHeaderInput) : Z :=
  inSlot i / slotsPerKESPeriod v - inOpCertKesPeriod i.

Record header_ok (v : HeaderValidator) (i : ValidateHeaderInput) : Prop := {
  ok_slot : inPrevSlot i < inSlot i;
  ok_number : inBlockNumber i = u64 (inPrevBlockNumber i + 1);
  ok_genesis : inPrevHeaderHash i = [] -> inBlockNumber i = 0;
  ok_prev : inPrevHeaderHash i <> [] -> inPrevHash i = inPrevHeaderHash i;
  ok_vrf : certified v i SeedL (inVrfProof i) (inVrfOutput i);
  ok_leader : leads v i;
  ok_nonce : validatorMode v = ConsensusModeTPraos -> certified v i SeedEta (inNonceVrfProof i) (inNonceVrfOutput i);
  ok_period : slotsPerKESPeriod v <> 0 /\ 0 <= evolution v i < maxKESEvolutions v;
  ok_kes : inHeaderBodyCbor i <> [] /\ length (inKesSignature i) = 448%nat /\ length (inOpCertHotVkey i) = 32%nat /\
           VerifySignedKES (inOpCertHotVkey i) (evolution v i) (inHeaderBodyCbor i) (inKesSignature i) = true;
  ok_opcert : length (inIssuerVkey i) = 32%nat /\ length (inOpCertSignature i) = 64%nat /\
    edVerify (inIssuerVkey i)
      (OpCertSignableBytes (inOpCertHotVkey i) (inOpCertSequenceNumber i) (inOpCertKesPeriod i))
      (inOpCertSignature i) = true;
  ok_counter : exists previous, inOpCertCounterState i = Some previous /\ previous <= inOpCertSequenceNumber i /\
    (validatorMode v = ConsensusModeCPraos -> inOpCertSequenceNumber i <= previous + 1);
  ok_registered : inRegisteredVrfKeyHash i = blake2b (inVrfKey i)
}.
End Spec.

(** ** Each check *)

#[export] Instance Ok_inj {E A} : Inj (=) (=) (Ok : A -> result E A).
Proof. by intros ?? [=]. Qed.

Lemma error_of_nil {A} (r : hres A) : error_of r = [] <-> is_ok r = true.
Proof. by destruct r. Qed.

Lemma blen_eqb (b : bytes) (n : nat) : (blen b =? Z.of_nat n) = (length b =? n)%nat.
Proof. unfold blen. destruct (Z.eqb_spec (Z.of_nat (length b)) (Z.of_nat n)), (Nat.eqb_spec (length b) n); lia. Qed.

Lemma blen_zero (b : bytes) : (blen b =? 0) = bool_decide (b = []).
Proof. by destruct b. Qed.

(** Case analysis on the guards of a check. *)
Ltac guards :=
  repeat match goal with
  | |- context [if negb ?b then _ else _] => destruct b eqn:?
  | |- context [if ?b then _ else _] => destruct b eqn:?
  end; cbn [is_ok negb].

Lemma slotOrdering_iff i : is_ok (validateSlotOrdering i) = true <-> inPrevSlot i < inSlot i.
Proof. unfold validateSlotOrdering. destruct (Z.leb_spec (inSlot i) (inPrevSlot i)); cbn; split; (done || lia). Qed.

Lemma blockNumber_iff i : is_ok (validateBlockNumber i) = true <-> inBlockNumber i = u64 (inPrevBlockNumber i + 1).
Proof. unfold validateBlockNumber. destruct (Z.eqb_spec (inBlockNumber i) (u64 (inPrevBlockNumber i + 1))); done. Qed.

Lemma prevHash_iff i : 0 <= inBlockNumber i ->
  is_ok (validatePrevHash i) = true <->
  (inPrevHeaderHash i = [] -> inBlockNumber i = 0) /\
  (inPrevHeaderHash i <> [] -> inPrevHash i = inPrevHeaderHash i).
Proof.
  intros Hn. unfold validatePrevHash. rewrite blen_zero.
  assert (E : (0 <? blen (inPrevHeaderHash i)) = negb (bool_decide (inPrevHeaderHash i = []))).
  { unfold blen. by destruct (inPrevHeaderHash i). }
  rewrite E. destruct (decide (inPrevHeaderHash i = [])) as [->|Hne].
  - rewrite bool_decide_eq_true_2 by done. rewrite andb_true_r. cbn.
    destruct (Z.ltb_spec 0 (inBlockNumber i)); cbn; split; [done| |intros _; split; [lia|done]|done].
    intros [? _]. assert (inBlockNumber i = 0) by auto. lia.
  - rewrite bool_decide_eq_false_2, andb_false_r by done. cbn [negb andb].
    destruct (decide (inPrevHash i = inPrevHeaderHash i)) as [Eh|Eh].
    + rewrite bool_decide_eq_false_2 by (by intros ?). done.
    + rewrite bool_decide_eq_true_2 by done. cbn. split; [done|]. intros [_ X]. by destruct Eh; apply X.
Qed.

Lemma kesPeriod_iff v i :
  is_ok (validateKESPeriod v i) = true <-> slotsPerKESPeriod v <> 0 /\ 0 <= evolution v i < maxKESEvolutions v.
Proof.
  unfold validateKESPeriod, evolution. cbv zeta. destruct (Z.eqb_spec (slotsPerKESPeriod v) 0); [cbn; intuition lia|].
  destruct (Z.ltb_spec (inSlot i / slotsPerKESPeriod v) (inOpCertKesPeriod i)); [cbn; intuition lia|].
  destruct (Z.leb_spec (maxKESEvolutions v) (inSlot i / slotsPerKESPeriod v - inOpCertKesPeriod i)); cbn; intuition lia.
Qed.

Lemma sequence_iff v i :
  is_ok (validateOpCertSequence v i) = true <->
  exists previous, inOpCertCounterState i = Some previous /\ previous <= inOpCertSequenceNumber i /\
    (validatorMode v = ConsensusModeCPraos -> inOpCertSequenceNumber i <= previous + 1).
Proof.
  unfold validateOpCertSequence. destruct (inOpCertCounterState i) as [p|]; [|split; [done|by intros (? & ? & _)]].
  destruct (Z.ltb_spec (inOpCertSequenceNumber i) p); cbn [is_ok].
  { split; [done|]. intros (? & [= <-] & ? & _). lia. }
  destruct (Z.eqb_spec (validatorMode v) ConsensusModeCPraos), (Z.ltb_spec p (inOpCertSequenceNumber i)),
    (Z.ltb_spec 1 (inOpCertSequenceNumber i - p)); cbn [is_ok andb];
    (split; [intros X; first [discriminate X|exists p; split_and!; (done || lia)]|intros (? & [= <-] & ? & X); try done; specialize (X ltac:(done)); lia]).
Qed.

Lemma sequence_value v i n : validateOpCertSequence v i = Ok n -> n = inOpCertSequenceNumber i.
Proof. unfold validateOpCertSequence. destruct (inOpCertCounterState i); [|done]. guards; congruence. Qed.

Section Checks.
Context `{KesCrypto} `{VrfCrypto} `{PoolHash}.

Lemma kesSignature_iff v i : slotsPerKESPeriod v <> 0 -> 0 <= evolution v i ->
  is_ok (validateKESSignature v i) = true <->
  inHeaderBodyCbor i <> [] /\ length (inKesSignature i) = 448%nat /\ length (inOpCertHotVkey i) = 32%nat /\
  VerifySignedKES (inOpCertHotVkey i) (evolution v i) (inHeaderBodyCbor i) (inKesSignature i) = true.
Proof.
  intros Hs He. unfold validateKESSignature. destruct (Z.eqb_spec (slotsPerKESPeriod v) 0) as [|_]; [done|].
  rewrite blen_zero. change CardanoKesSignatureSize with (Z.of_nat 448). rewrite blen_eqb. unfold PublicKeySize, evolution in *.
  destruct (Z.ltb_spec (inSlot i / slotsPerKESPeriod v) (inOpCertKesPeriod i)); [lia|].
  case_bool_decide; cbn; [intuition done|].
  destruct (Nat.eqb_spec (length (inKesSignature i)) 448); cbn [negb]; [|cbn; intuition done].
  destruct (Nat.eqb_spec (length (inOpCertHotVkey i)) 32); cbn [negb]; [|cbn; intuition done].
  destruct (VerifySignedKES _ _ _ _); cbn; intuition done.
Qed.

Lemma opCertSignature_iff i :
  is_ok (validateOpCertSignature i) = true <->
  length (inIssuerVkey i) = 32%nat /\ length (inOpCertSignature i) = 64%nat /\
  edVerify (inIssuerVkey i)
    (OpCertSignableBytes (inOpCertHotVkey i) (inOpCertSequenceNumber i) (inOpCertKesPeriod i)) (inOpCertSignature i) = true.
Proof.
  unfold validateOpCertSignature. change 64 with (Z.of_nat 64). change 32 with (Z.of_nat 32). rewrite !blen_eqb, blen_zero.
  case_bool_decide as E; [rewrite E; cbn; intuition done|].
  destruct (Nat.eqb_spec (length (inIssuerVkey i)) 32); cbn [negb]; [|cbn; intuition done].
  destruct (Nat.eqb_spec (length (inOpCertSignature i)) 64); cbn [negb]; [|cbn; intuition done].
  destruct (edVerify _ _ _); cbn; intuition done.
Qed.

Lemma registration_iff `{!KesCryptoLaws} i : length (inVrfKey i) = VrfPublicKeySize ->
  is_ok (validateVRFKeyRegistration i) = true <-> inRegisteredVrfKeyHash i = blake2b (inVrfKey i).
Proof.
  intros Hl. unfold validateVRFKeyRegistration. rewrite blen_zero, Hl. cbn [Nat.eqb VrfPublicKeySize negb].
  pose proof (blake2b_length (inVrfKey i)) as L.
  case_bool_decide as E; [rewrite E; cbn [is_ok]; split; [done|]; intros X; by rewrite <- X in L|].
  case_bool_decide; cbn [is_ok]; intuition congruence.
Qed.

Lemma u64_int64 slot : 0 <= slot <= MaxUint64 -> u64 (int64_of slot) = slot.
Proof.
  unfold u64, int64_of, MaxUint64, MaxInt64. intros Hs. destruct (Z.leb_spec slot 9223372036854775807).
  - apply Z.mod_small. lia.
  - rewrite <- (Z_mod_plus_full _ 1), Z.mod_small; lia.
Qed.

Context `{!KesCryptoLaws} `{!VrfLaws}.
#[local] Set Default Proof Using "All".

Lemma verify_output_length pk proof output msg : VrfVerify pk proof output msg = Ok true -> length output = OutputSize.
Proof.
  unfold VrfVerify, VerifyAndHash. destruct (isCanonicalY pk); [|done]. cbn [negb].
  destruct (setBytes pk) as [Y|]; [|done]. cbn [of_option mbind result_bind].
  destruct (pointEqual _ _); [done|]. unfold verify.
  destruct (decodeProofArrays proof) as [[[G cA] sA]|]; [|done]. cbn [mbind result_bind].
  destruct (hashToCurveElligator2 Y msg) as [[Hp hB]|]; [|done]. cbn [mbind result_bind].
  destruct (setUniformBytes _); [|done]. cbn [of_option mbind result_bind].
  destruct (setCanonicalBytes _); [|done]. cbn [of_option mbind result_bind].
  destruct (hashPoints _ _ _ _); [|done]. cbn [of_option mbind result_bind].
  case_bool_decide; [|done]. cbn [mbind result_bind]. intros [= E]. apply bool_decide_eq_true in E as <-.
  apply sha512_length.
Qed.

(** The input both modes certify. *)
Lemma certifiedInput_mk slot nonce seed : 0 <= slot <= MaxUint64 -> length nonce = 32%nat -> length seed = 32%nat ->
  MkInputVrf (int64_of slot) nonce = Ok (certifiedInput ConsensusModeCPraos slot nonce seed) /\
  MkSeedTPraos (int64_of slot) nonce seed = Ok (certifiedInput ConsensusModeTPraos slot nonce seed).
Proof.
  intros Hs Hn Hd. unfold MkSeedTPraos, MkInputVrf. change 32 with (Z.of_nat 32). rewrite !blen_eqb, Hn, Hd, u64_int64 by done. done.
Qed.

Lemma certified_iff v i seed proof output (check nonce : bool) :
  0 <= inSlot i <= MaxUint64 -> length seed = 32%nat ->
  is_ok (verifyCertifiedVRF v (inSlot i) (inEpochNonce i) (inVrfKey i) proof output seed check nonce) = true <->
  certified v i seed proof output.
Proof.
  intros Hs Hd. unfold verifyCertifiedVRF. change 32 with (Z.of_nat 32). rewrite blen_eqb.
  destruct (Nat.eqb_spec (length (inEpochNonce i)) 32) as [Hn|]; cbn [negb]; [|by split; [|intros []]].
  destruct (Nat.eqb_spec (length (inVrfKey i)) VrfPublicKeySize); cbn [negb]; [|by split; [|intros []]].
  destruct (Nat.eqb_spec (length proof) ProofSize); cbn [negb]; [|by split; [|intros []]].
  destruct (certifiedInput_mk (inSlot i) (inEpochNonce i) seed Hs Hn Hd) as [EC ET].
  destruct (check && negb (length output =? OutputSize)%nat) eqn:Eo.
  { split; [done|]. intros [_ _ _ _ V]. apply verify_output_length in V. rewrite V in Eo. by destruct check. }
  rewrite EC, ET. set (m := validatorMode v).
  assert (X : forall alpha, is_ok (match VrfVerify (inVrfKey i) proof output alpha with
      | Ok true => Ok output | Ok false => Err (ErrVrfFalse nonce) | Err e => Err (ErrVrf nonce e) end) = true <->
      VrfVerify (inVrfKey i) proof output alpha = Ok true).
  { intros alpha. destruct (VrfVerify _ _ _ alpha) as [[]|]; cbn; intuition done. }
  destruct (Z.eqb_spec m ConsensusModeTPraos) as [Em|]; cbn [mbind result_bind].
  { rewrite X. split; [intros V; split; try done; [by right|by fold m; rewrite Em]|]. intros [_ _ _ _ V]. fold m in V. by rewrite Em in V. }
  destruct (Z.eqb_spec m ConsensusModeCPraos) as [Em|]; cbn [mbind result_bind].
  { rewrite X. split; [intros V; split; try done; [by left|by fold m; rewrite Em]|]. intros [_ _ _ _ V]. fold m in V. by rewrite Em in V. }
  split; [done|]. intros [M _ _ _ _]. fold m in M. tauto.
Qed.

Lemma seed_length n : length (mkNonceFromNumber n) = 32%nat.
Proof. apply blake2b_length. Qed.

Lemma vrfProof_iff v i : 0 <= inSlot i <= MaxUint64 ->
  is_ok (validateVRFProof v i) = true <-> certified v i SeedL (inVrfProof i) (inVrfOutput i).
Proof. intros Hs. apply certified_iff; [done|apply seed_length]. Qed.

Lemma nonceProof_iff v i : 0 <= inSlot i <= MaxUint64 ->
  is_ok (validateNonceVRFProof v i) = true <->
  (validatorMode v = ConsensusModeTPraos -> certified v i SeedEta (inNonceVrfProof i) (inNonceVrfOutput i)).
Proof.
  intros Hs. unfold validateNonceVRFProof. destruct (Z.eqb_spec (validatorMode v) ConsensusModeTPraos); cbn [negb]; [|done].
  rewrite <- (certified_iff v i SeedEta (inNonceVrfProof i) (inNonceVrfOutput i) true true Hs (seed_length 0)).
  destruct (verifyCertifiedVRF _ _ _ _ _ _ _ _ _); cbn; tauto.
Qed.

Lemma verified_output v i o : validateVRFProof v i = Ok o -> o = inVrfOutput i.
Proof.
  unfold validateVRFProof, verifyCertifiedVRF.
  destruct (negb (blen _ =? 32)); [discriminate|]. do 2 (destruct (negb _); [discriminate|]). cbn [andb].
  match goal with |- context [mbind _ ?r] => destruct r as [alpha|]; [|discriminate] end. cbn [mbind result_bind].
  destruct (VrfVerify _ _ _ alpha) as [[]|]; [|discriminate..]. congruence.
Qed.

Lemma leadership_iff bound ca v i : reachable bound ca -> 
  is_ok (fst (validateLeadership ca v i (inVrfOutput i))) = true <-> leads v i.
Proof.
  intros R. unfold validateLeadership, leads. destruct (validatorTachys v) as [sel|]; cbn [fst].
  - unfold AuthorizeIssuer, IsLeader. change 32 with (Z.of_nat 32). rewrite blen_eqb.
    destruct (Nat.eqb_spec (length (inIssuerVkey i)) 32); cbn [negb]; [|cbn [is_ok]; intuition done].
    destruct (tachysLeader _ _ _) as [l|]; cbn [mbind result_bind]; [|cbn; intuition done].
    case_bool_decide; cbn; intuition congruence.
  - pose proof (newLeaderEligibility_fresh bound ca (inPoolStake i) (inTotalStake i) (activeSlotCoeff v) (validatorMode v) R) as F.
    destruct (Z.eqb_spec (inTotalStake i) 0) as [Et|Et].
    { split; [discriminate|]. intros (_ & k & s & K & _). revert K. unfold eligibilityKey. rewrite Et.
      destruct (validateConsensusMode _); [|done]. destruct (validateActiveSlotCoefficient _); [|done].
      by destruct (activeSlotCoeff v). }
    destruct (Z.eqb_spec (inPoolStake i) 0) as [Ep|Ep].
    { destruct (validateConsensusMode _); [destruct (validateActiveSlotCoefficient _)|]; (split; [discriminate|intros [X _]; by destruct X]). }
    destruct (newLeaderEligibility _ _ _ _ _) as [r ca']. cbn [fst] in *. subst r.
    destruct (eligibilityKey _ _ _ _) as [k|]; cbn [mbind result_bind is_ok].
    2:{ split; [discriminate|]. intros (_ & ? & ? & X & _). discriminate X. }
    destruct (prepareLeaderEligibility k) as [s|] eqn:P; cbn [is_ok].
    2:{ split; [discriminate|]. intros (_ & ? & ? & [= <-] & P' & _). congruence. }
    destruct (CheckVRFOutput (Some s) (inVrfOutput i)) as [[]|] eqn:CO; cbn [is_ok].
    + split; [intros _|reflexivity]. split; [exact Ep|]. exists k, s. split; [reflexivity|]. split; [exact P|exact CO].
    + split; [discriminate|]. intros (_ & ? & ? & [= <-] & P' & C'). rewrite P in P'. injection P' as <-. congruence.
    + split; [discriminate|]. intros (_ & ? & ? & [= <-] & P' & C'). rewrite P in P'. injection P' as <-. congruence.
Qed.

Lemma validateLeadership_reachable bound ca v i o : reachable bound ca -> reachable bound (snd (validateLeadership ca v i o)).
Proof.
  intros R. unfold validateLeadership. destruct (validatorTachys v); [exact R|].
  destruct (inTotalStake i =? 0); [exact R|]. destruct (inPoolStake i =? 0); [exact R|].
  pose proof (newLeaderEligibility_reachable bound ca (inPoolStake i) (inTotalStake i) (activeSlotCoeff v) (validatorMode v) R) as F.
  destruct (newLeaderEligibility _ _ _ _ _) as [r ca']. exact F.
Qed.

(** The checks that fail are those whose condition fails, so that no error is
    left exactly for a header that satisfies them all. *)
Lemma errors_nil bound ca v i : reachable bound ca -> 0 <= inSlot i <= MaxUint64 -> 0 <= inBlockNumber i ->
  Errors (fst (ValidateHeader ca v i)) = [] <-> header_ok v i.
Proof.
  intros R Hs Hn. unfold ValidateHeader.
  match goal with |- context [let '(_, _) := ?b in _] => destruct b as [leadership ca'] eqn:EL end. cbn [fst Errors].
  rewrite !app_nil, !error_of_nil, slotOrdering_iff, blockNumber_iff, prevHash_iff, vrfProof_iff,
    nonceProof_iff, kesPeriod_iff, opCertSignature_iff, sequence_iff by done.
  assert (L : certified v i SeedL (inVrfProof i) (inVrfOutput i) -> is_ok leadership = true <-> leads v i).
  { intros C. pose proof C as C'. apply vrfProof_iff in C'; [|done].
    destruct (validateVRFProof v i) as [o|] eqn:Eo; [|discriminate C'].
    apply verified_output in Eo as ->. destruct C as [_ _ _ _ V]. apply verify_output_length in V.
    rewrite bool_decide_eq_false_2 in EL by (intros X; by rewrite X in V).
    rewrite <- (leadership_iff bound ca v i R), EL. done. }
  split.
  - intros [[[[[[[[[[Sl Nu] [Ge Pr]] Vr] Le] No] Pe] Ki] Op] Co] Re].
    apply kesSignature_iff in Ki; [|tauto..]. apply registration_iff in Re; [|by destruct Vr].
    split; try done. by apply L.
  - intros [Sl Nu Ge Pr Vr Le No Pe Ki Op Co Re].
    apply (proj2 (L Vr)) in Le. destruct Pe as [P1 P2]. apply (kesSignature_iff v i P1 (proj1 P2)) in Ki.
    apply registration_iff in Re; [tauto|by destruct Vr].
Qed.

(** The result of a validation without errors, and of one with some. *)
Lemma validate_result bound ca v i : reachable bound ca -> 0 <= inSlot i <= MaxUint64 -> 0 <= inBlockNumber i ->
  (header_ok v i ->
   fst (ValidateHeader ca v i) = mkValidateResult true (inVrfOutput i) (Some (inOpCertSequenceNumber i)) []) /\
  (~ header_ok v i -> let r := fst (ValidateHeader ca v i) in
   Valid r = false /\ Errors r <> [] /\ NextOpCertCounter r = None).
Proof.
  intros R Hs Hn. pose proof (errors_nil bound ca v i R Hs Hn) as X. unfold ValidateHeader in *.
  match type of X with context [let '(_, _) := ?b in _] => destruct b as [leadership ca'] eqn:EL end.
  cbn [fst Errors] in X |- *. match type of X with ?l = [] <-> _ => set (errs := l) in *; clearbody errs end. split.
  - intros K. pose proof (proj2 X K) as E. rewrite (bool_decide_eq_true_2 _ E). destruct K as [_ _ _ _ V _ _ _ _ _ Co _].
    apply vrfProof_iff in V; [|done]. destruct (validateVRFProof v i) as [o|] eqn:Eo; [|discriminate V].
    apply sequence_iff in Co. destruct (validateOpCertSequence v i) as [n|] eqn:En; [|discriminate Co].
    by rewrite (verified_output v i o Eo), (sequence_value v i n En), E.
  - intros K. rewrite <- X in K. rewrite (bool_decide_eq_false_2 _ K). cbn. done.
Qed.

Lemma validate_reachable bound ca v i : reachable bound ca -> reachable bound (snd (ValidateHeader ca v i)).
Proof.
  intros R. unfold ValidateHeader.
  pose proof (validateLeadership_reachable bound ca v i (match validateVRFProof v i with Ok o => o | Err _ => [] end) R) as L.
  destruct (bool_decide (_ = [])); [exact R|]. destruct (validateLeadership _ _ _ _). exact L.
Qed.

(** C12. A header is valid exactly when its slot is later than the previous
    one's, its number the next, its previous hash the one given (which only
    block 0 may lack), its VRF certificate verifies for slot and epoch nonce
    under the registered key, its issuer leads the slot, in TPraos its nonce
    certificate verifies too, its signature verifies under the hot key at the
    number of evolutions the slot asks for, within the limit, the hot key is
    certified by the issuer, and the certificate's counter has not gone back nor,
    in CPraos, skipped one. The result then has no error, the VRF output and the
    new counter; otherwise it has an error and no counter. *)
Theorem header_valid_exact bound ca v i :
  reachable bound ca -> 0 <= inSlot i <= MaxUint64 -> 0 <= inBlockNumber i ->
  let '(r, ca') := ValidateHeader ca v i in
  reachable bound ca' /\
  (Valid r = true <-> header_ok v i) /\
  (Valid r = true -> r = mkValidateResult true (inVrfOutput i) (Some (inOpCertSequenceNumber i)) []) /\
  (Valid r = false -> Errors r <> [] /\ NextOpCertCounter r = None).
Proof.
  intros R Hs Hn. pose proof (validate_reachable bound ca v i R) as R'.
  destruct (validate_result bound ca v i R Hs Hn) as [VT VF]. pose proof (errors_nil bound ca v i R Hs Hn) as X.
  destruct (ValidateHeader ca v i) as [r ca']. cbn [fst snd] in *. split; [exact R'|].
  destruct (decide (Errors r = [])) as [E|E].
  - pose proof (proj1 X E) as K. rewrite (VT K). cbn [Valid]. split; [tauto|]. split; [done|discriminate].
  - assert (K : ~ header_ok v i) by tauto. destruct (VF K) as (-> & E' & N). split; [split; [discriminate|tauto]|].
    split; [discriminate|done].
Qed.
End Checks.

(** ** A built header is valid *)

(** What a header needs of its signers. *)
Class VrfSignerSound `{KesCrypto} `{VrfCrypto} (sg : VRFSigner) : Prop :=
  vrf_signer_sound alpha proof output :
    signerProve sg alpha = Some (proof, output) -> VrfVerify (signerPublicKey sg) proof output alpha = Ok true.

Class KesSignerSound `{KesCrypto} (ks : KESSigner) (period : Z) : Prop :=
  kes_signer_sound m s :
    kesSign ks m = Some s -> length s = 448%nat /\ VerifySignedKES (kesPublicKey ks) period m s = true.

(** The signer over a key of the [kes] package. *)
Definition keySigner `{KesCrypto} (sk : SecretKey) : option KESSigner :=
  pk ← PublicKey sk;
  Some (mkKesSigner (fun m => match Sign sk (Period sk) m with Ok s => Some s | Err _ => None end) pk (Period sk)).

Section Signers.
Context `{KesCrypto} `{VrfCrypto} `{!KesCryptoLaws} `{!VrfLaws}.
#[local] Set Default Proof Using "All".

Lemma simple_signer_sound seed sg : NewSimpleVRFSigner seed = Ok sg -> VrfSignerSound sg.
Proof.
  unfold NewSimpleVRFSigner. destruct (VrfKeyGen seed) as [[pk sk]|] eqn:K; [|done]. cbn [mbind result_bind].
  intros [= <-] alpha proof output. cbn [signerProve signerPublicKey].
  assert (Hl : length seed = SeedSize).
  { revert K. unfold VrfKeyGen. by destruct (Nat.eqb_spec (length seed) SeedSize). }
  destruct (VrfKeyGen_total seed Hl) as (x & Hx & E). rewrite E in K. injection K as <- <-.
  destruct (prove_verifies seed x alpha Hl Hx) as [->|(p & o & -> & _ & _ & V & _)]; [done|]. by intros [= <- <-].
Qed.

Lemma sig_at_verifies seed t m : length seed = 32%nat -> (t < 2 ^ CardanoKesDepth)%nat ->
  length (sig_at CardanoKesDepth seed t m) = 448%nat /\
  VerifySignedKES (publicKeyFromSeed CardanoKesDepth seed) (Z.of_nat t) m (sig_at CardanoKesDepth seed t m) = true.
Proof.
  intros Hl Ht. split; [by rewrite sig_at_length|]. unfold VerifySignedKES. rewrite <- tree_at_sig.
  assert (E : NewSumKesFromBytes CardanoKesDepth (serialize (tree_at CardanoKesDepth seed t m)) =
    Ok (tree_at CardanoKesDepth seed t m)).
  { apply (newSumKes_serialize 5); [unfold MaxDepth; lia|by apply tree_at_wf]. }
  rewrite E. apply tree_at_verifies; (done || unfold CardanoKesDepth; lia).
Qed.

(** A key evolved [t] times signs for period [t]. *)
Lemma key_signer_sound seed sk0 pk t sk ks :
  KeyGen CardanoKesDepth seed = Ok (sk0, pk) -> evolve t sk0 = Ok sk -> keySigner sk = Some ks ->
  kesPublicKey ks = pk /\ KesSignerSound ks (Z.of_nat t).
Proof.
  intros K V S. assert (Hl : length seed = 32%nat).
  { revert K. unfold KeyGen. by destruct (Nat.eqb_spec (length seed) kesSeedSize). }
  rewrite KeyGen_key_of in K by (done || unfold CardanoKesDepth, MaxKeyGenDepth; lia). injection K as <- <-.
  rewrite evolve_key_of, Nat.add_0_l in V by (done || unfold CardanoKesDepth, MaxDepth; simpl; lia).
  destruct (Nat.ltb_spec t (2 ^ CardanoKesDepth)) as [Ht|]; [|done]. injection V as <-.
  revert S. unfold keySigner, PublicKey. cbn [Data dataNil backing key_of Depth Period publicKey].
  rewrite key_of_structure by (done || unfold CardanoKesDepth, MaxDepth; lia). cbn [negb mbind option_bind].
  intros [= <-]. split; [done|]. intros m s. cbn [kesSign kesPublicKey].
  rewrite Sign_key_of by (done || unfold CardanoKesDepth, MaxDepth; lia).
  destruct (Z.leb_spec (Z.of_nat (2 ^ CardanoKesDepth)) (Z.of_nat t)); [lia|]. rewrite Z.eqb_refl. intros E.
  apply (inj Some) in E as <-. by apply sig_at_verifies.
Qed.
End Signers.

Section Built.
Context `{KesCrypto} `{VrfCrypto} `{PoolHash} `{CborEncoder}.
Context `{!KesCryptoLaws} `{!VrfLaws} `{!CborEncoderLaws}.
#[local] Set Default Proof Using "All".

(** What is given to the validator for a header, with its encoded body, after a
    header of slot [prevSlot] and number [prevNumber]. *)
Definition offered (h : Header) (cbor : bytes) (input : BuildHeaderInput) (prevSlot prevNumber counter : Z)
    : ValidateHeaderInput :=
  let body := Body h in
  mkInput (Slot body) (BlockNumber body) (PrevHash body) (IssuerVkey body) (VrfKey body) (VrfProof body) (VrfOutput body)
    (HeaderSignature h) cbor (NonceVrfProof body) (NonceVrfOutput body) (OpCertHotVkey body) (OpCertSequenceNumber body)
    (OpCertKesPeriod body) (OpCertSignature body) (Some counter) prevSlot prevNumber (bPrevHash input) (bEpochNonce input)
    (bPoolStake input) (bTotalStake input) (blake2b (VrfKey body)).

Lemma certifiedInput_slot slot nonce seed : 0 <= slot <= MaxInt64 -> length nonce = 32%nat -> length seed = 32%nat ->
  MkInputVrf slot nonce = Ok (certifiedInput ConsensusModeCPraos slot nonce seed) /\
  MkSeedTPraos slot nonce seed = Ok (certifiedInput ConsensusModeTPraos slot nonce seed).
Proof.
  intros Hs Hn Hd. pose proof (certifiedInput_mk slot nonce seed) as X. unfold int64_of in X.
  destruct (Z.leb_spec slot MaxInt64) as [_|]; [|lia]. apply X; (done || unfold MaxInt64, MaxUint64 in *; lia).
Qed.

(** What an election that succeeds has shown. *)
Record elected (m slot : Z) (nonce : bytes) (sg : VRFSigner) (r : LeaderElectionResult) : Prop := {
  el_mode : m = ConsensusModeCPraos \/ m = ConsensusModeTPraos;
  el_slot : slot <= MaxInt64;
  el_nonce : length nonce = 32%nat;
  el_proof : length (Proof_ r) = ProofSize;
  el_prove : signerProve sg (certifiedInput m slot nonce SeedL) = Some (Proof_ r, Output r)
}.

Lemma checkSlotLeadership_elected slot nonce sg m ev r :
  0 <= slot -> m = ConsensusModeCPraos \/ m = ConsensusModeTPraos -> length nonce = 32%nat ->
  checkSlotLeadership slot nonce (Some sg) m ev = Ok r -> Eligible r = true ->
  elected m slot nonce sg r /\ exists s, ev = Some s /\ CheckVRFOutput (Some s) (Output r) = Ok true.
Proof.
  intros Hs Hm Hn. unfold checkSlotLeadership. destruct (Z.ltb_spec MaxInt64 slot) as [|Hi]; [done|].
  destruct (certifiedInput_slot slot nonce SeedL (conj Hs Hi) Hn (seed_length 1)) as [EC ET].
  assert (E : (if m =? ConsensusModeTPraos then liftVrf ErrVRFInput (MkSeedTPraos slot nonce SeedL)
               else if m =? ConsensusModeCPraos then liftVrf ErrVRFInput (MkInputVrf slot nonce) else Ok [])
              = Ok (certifiedInput m slot nonce SeedL)).
  { destruct Hm as [-> | ->]; cbn [Z.eqb ConsensusModeCPraos ConsensusModeTPraos]; by rewrite ?EC, ?ET. }
  rewrite E. cbn [mbind result_bind]. clear E EC ET.
  destruct (signerProve sg (certifiedInput m slot nonce SeedL)) as [[p o]|] eqn:P; [|discriminate].
  change 80 with (Z.of_nat 80). rewrite blen_eqb. destruct (Nat.eqb_spec (length p) 80) as [Lp|]; cbn [negb]; [|discriminate].
  destruct (blen o =? 64); cbn [negb]; [|discriminate].
  destruct ev as [s|].
  - destruct (CheckVRFOutput (Some s) o) as [e|] eqn:CO; cbn [mbind result_bind]; [|discriminate].
    intros E. apply (inj Ok) in E as <-. cbn [Eligible Proof_ Output]. intros ->.
    split; [split; cbn [Proof_ Output]; assumption|]. exists s. split; [reflexivity|exact CO].
  - intros E. apply (inj Ok) in E as <-. discriminate.
Qed.

Lemma isSlotLeader_elected bound ca slot nonce pool total f sg m r :
  reachable bound ca -> 0 <= slot ->
  fst (IsSlotLeaderWithMode ca slot nonce pool total f (Some sg) m) = Ok r -> Eligible r = true ->
  elected m slot nonce sg r /\ pool <> 0 /\
  exists k s, eligibilityKey pool total f m = Ok k /\ prepareLeaderEligibility k = Ok s /\
              CheckVRFOutput (Some s) (Output r) = Ok true.
Proof.
  intros R Hs. unfold IsSlotLeaderWithMode. destruct (validateConsensusMode m) eqn:Em; [|discriminate].
  apply validateConsensusMode_Ok in Em. unfold prepareSlotLeadership.
  change 32 with (Z.of_nat 32). rewrite blen_eqb. destruct (Nat.eqb_spec (length nonce) 32) as [Hn|]; cbn [negb]; [|discriminate].
  destruct f as [f|]; [|discriminate].
  assert (Z0 : forall r', Ok (mkElection false [] []) = Ok r' :> out LeaderElectionResult -> Eligible r' = true -> False).
  { intros r' [= <-]. discriminate. }
  destruct ((total =? 0) || (pool =? 0)) eqn:Ez.
  { destruct (0 <? Num f); [destruct (validateActiveSlotCoefficient _)|]; cbn [fst]; intros E El;
      first [discriminate E|destruct (Z0 r E El)]. }
  apply orb_false_elim in Ez as [_ Ez]. apply Z.eqb_neq in Ez.
  destruct (Num f <=? 0).
  { cbn [fst]. intros E El. apply checkSlotLeadership_elected in E as [_ (s & X & _)]; [discriminate X|assumption..]. }
  pose proof (newLeaderEligibility_fresh bound ca pool total (Some f) m R) as F.
  destruct (newLeaderEligibility ca pool total (Some f) m) as [res ca']. cbn [fst] in *. subst res.
  destruct (eligibilityKey pool total (Some f) m) as [k|]; [|discriminate]. cbn [mbind result_bind].
  destruct (prepareLeaderEligibility k) as [st|] eqn:P; [|discriminate].
  intros E El. apply checkSlotLeadership_elected in E as [D (s & X & CO)]; [|assumption..].
  apply (inj Some) in X as ->. split; [exact D|]. split; [exact Ez|]. exists k, s. split; [reflexivity|]. split; [exact P|exact CO].
Qed.

Lemma tachys_elected slot nonce issuer sel sg r : 0 <= slot ->
  IsTachysSlotLeader slot nonce issuer (Some sel) (Some sg) = Ok r -> Eligible r = true ->
  elected ConsensusModeCPraos slot nonce sg r /\ length issuer = 32%nat /\
  tachysLeader (Some sel) nonce slot = Ok (blake2b224 issuer).
Proof.
  intros Hs. unfold IsTachysSlotLeader, AuthorizeIssuer, IsLeader. change 32 with (Z.of_nat 32). rewrite blen_eqb.
  destruct (Nat.eqb_spec (length issuer) 32) as [Hi|]; cbn [negb]; [|discriminate].
  destruct (tachysLeader (Some sel) nonce slot) as [l|] eqn:T; cbn [mbind result_bind]; [|discriminate].
  case_bool_decide as El; [subst l|by intros [= <-]].
  destruct (Z.ltb_spec MaxInt64 slot) as [|Hm]; [discriminate|].
  assert (Hn : length nonce = 32%nat).
  { revert T. unfold tachysLeader, TachysSample. destruct (uninitialized _); [done|].
    change 32 with (Z.of_nat 32). rewrite blen_eqb. by destruct (Nat.eqb_spec (length nonce) 32). }
  destruct (certifiedInput_slot slot nonce SeedL (conj Hs Hm) Hn (seed_length 1)) as [EC _]. rewrite EC.
  destruct (signerProve sg _) as [[p o]|] eqn:P; [|discriminate].
  destruct (Nat.eqb_spec (length p) ProofSize); cbn [negb]; [|discriminate].
  destruct (Nat.eqb_spec (length o) OutputSize); cbn [negb]; [|discriminate].
  intros E _. apply (inj Ok) in E as <-. split; [split; try assumption; by left|]. by split.
Qed.

Lemma checkBuild_Ok b input vs ks oc : checkBuild b input = Ok (vs, ks, oc) ->
  vrfSigner b = Some vs /\ kesSigner b = Some ks /\ opCert b = Some oc /\ kesPublicKey ks = HotVkey oc /\
  length (bPrevHash input) = 32%nat /\ length (issuerVkey b) = 32%nat /\
  length (signerPublicKey vs) = VrfPublicKeySize /\ length (HotVkey oc) = 32%nat /\ length (Signature oc) = 64%nat.
Proof.
  unfold checkBuild. destruct (vrfSigner b) as [vs'|]; [|done]. destruct (kesSigner b) as [ks'|]; [|done].
  destruct (opCert b) as [oc'|]; [|done]. change 64 with (Z.of_nat 64). change 32 with (Z.of_nat 32). rewrite !blen_eqb.
  do 3 (destruct (blen _ =? 0); [done|]).
  destruct (Nat.eqb_spec (length (issuerVkey b)) 32); [|done]. destruct (Nat.eqb_spec (length (bPrevHash input)) 32); [|done].
  do 2 (destruct (length _ =? 32)%nat; [|done]). cbn [negb]. destruct (_ && _); [done|].
  destruct (Nat.eqb_spec (length (signerPublicKey vs')) VrfPublicKeySize); [|done].
  destruct (Nat.eqb_spec (length (HotVkey oc')) 32); [|done]. destruct (Nat.eqb_spec (length (Signature oc')) 64); [|done].
  destruct (length (kesPublicKey ks') =? 32)%nat; [|done]. cbn [negb]. case_bool_decide; [|done]. by intros [= <- <- <-].
Qed.

(** The nonce certificate, where there is one. *)
Lemma nonceCertificate_Ok vs input proof output : 0 <= bSlot input <= MaxInt64 -> length (bEpochNonce input) = 32%nat ->
  nonceCertificate ConsensusModeTPraos vs input = Ok (proof, output) ->
  length proof = ProofSize /\
  signerProve vs (certifiedInput ConsensusModeTPraos (bSlot input) (bEpochNonce input) SeedEta) = Some (proof, output).
Proof.
  intros Hs Hn. unfold nonceCertificate. cbn [Z.eqb ConsensusModeTPraos negb].
  destruct (Z.ltb_spec MaxInt64 (bSlot input)); [lia|].
  destruct (certifiedInput_slot (bSlot input) (bEpochNonce input) SeedEta Hs Hn (seed_length 0)) as [_ ET]. rewrite ET.
  destruct (signerProve vs _) as [[p o]|]; [|discriminate].
  destruct (Nat.eqb_spec (length p) ProofSize); cbn [negb]; [|discriminate].
  destruct (Nat.eqb_spec (length o) OutputSize); cbn [negb]; [|discriminate]. by intros [= <- <-].
Qed.

(** The conditions under which a validator follows a builder. *)
Record follows (v : HeaderValidator) (b : BlockBuilder) : Prop := {
  fo_mode : validatorMode v = builderMode b;
  fo_coeff : activeSlotCoeff v = builderCoeff b;
  fo_tachys : validatorTachys v = builderTachys b;
  fo_cpraos : builderTachys b <> None -> builderMode b = ConsensusModeCPraos
}.

Lemma leadership_elected bound ca v b slot nonce pool total vs r :
  reachable bound ca -> 0 <= slot -> follows v b -> vrfSigner b = Some vs ->
  fst (builderLeadership ca b slot nonce pool total) = Ok r -> Eligible r = true ->
  elected (builderMode b) slot nonce vs r /\
  forall i, inSlot i = slot -> inEpochNonce i = nonce -> inIssuerVkey i = issuerVkey b -> inPoolStake i = pool ->
    inTotalStake i = total -> inVrfOutput i = Output r -> leads v i.
Proof.
  intros R Hs [Fm Fc Ft Fp] Vs. unfold builderLeadership, leads. rewrite Ft, Fc, Fm, Vs.
  destruct (builderTachys b) as [sel|].
  - cbn [fst]. intros E El. rewrite (Fp ltac:(done)). destruct (tachys_elected _ _ _ _ _ _ Hs E El) as (D & Li & T).
    split; [exact D|]. intros i -> -> -> _ _ _. by split.
  - destruct (IsSlotLeaderWithMode ca slot nonce pool total (builderCoeff b) (Some vs) (builderMode b)) as [r0 ca'] eqn:E0.
    cbn [fst]. destruct r0 as [r0|]; [|discriminate]. cbn [inl_err]. intros E El. apply (inj Ok) in E as ->.
    destruct (isSlotLeader_elected bound ca slot nonce pool total (builderCoeff b) vs (builderMode b) r R Hs) as (D & Np & k & s & X);
      [by rewrite E0|done|].
    split; [exact D|]. intros i _ _ _ -> -> ->. split; [exact Np|]. exists k, s. exact X.
Qed.

(** Against any sound signers. *)
Lemma built_header_ok bound ca v b input prevSlot prevNumber counter h r ca' vs ks oc :
  reachable bound ca -> 0 <= bSlot input -> follows v b ->
  BuildHeader ca b input = (Ok (h, r), ca') ->
  vrfSigner b = Some vs -> VrfSignerSound vs ->
  kesSigner b = Some ks -> KesSignerSound ks (bSlot input / slotsPerKESPeriod v - KesPeriod oc) -> opCert b = Some oc ->
  edVerify (issuerVkey b) (OpCertSignableBytes (HotVkey oc) (SequenceNumber oc) (KesPeriod oc)) (Signature oc) = true ->
  prevSlot < bSlot input -> bBlockNumber input = u64 (prevNumber + 1) ->
  slotsPerKESPeriod v <> 0 -> 0 <= bSlot input / slotsPerKESPeriod v - KesPeriod oc < maxKESEvolutions v ->
  counter <= SequenceNumber oc <= counter + 1 ->
  exists cbor, serializeHeaderBody (builderMode b) (Body h) = Ok cbor /\
    header_ok v (offered h cbor input prevSlot prevNumber counter) /\
    VrfOutput (Body h) = Output r /\ OpCertSequenceNumber (Body h) = SequenceNumber oc /\
    Slot (Body h) = bSlot input /\ BlockNumber (Body h) = bBlockNumber input.
Proof.
  intros R Hs F B Vs SV Ks SK Oc Cold Hp Hn Hz Hw Hc. pose proof (fo_mode _ _ F) as Fm. unfold BuildHeader in B.
  destruct (checkBuild b input) as [[[vs' ks'] oc']|] eqn:CB; [|discriminate].
  apply checkBuild_Ok in CB as (V' & K' & O' & Eh & Lp & Li & Lv & Lh & Ls).
  rewrite Vs in V'. rewrite Ks in K'. rewrite Oc in O'. apply (inj Some) in V' as <-, K' as <-, O' as <-.
  pose proof (leadership_elected bound ca v b (bSlot input) (bEpochNonce input) (bPoolStake input) (bTotalStake input) vs)
    as LE. destruct (builderLeadership _ _ _ _ _ _) as [[lr|] ca1] eqn:EB; [|discriminate].
  destruct (Eligible lr) eqn:El; cbn [negb] in B; [|discriminate].
  destruct (nonceCertificate (builderMode b) vs input) as [[np no]|] eqn:EN; [|discriminate].
  destruct (serializeHeaderBody _ _) as [cbor|] eqn:ES; [|discriminate].
  destruct (kesSign ks cbor) as [sig|] eqn:EK; [|discriminate].
  assert (Eb : h = mkHeader (headerBody b vs oc input (np, no) lr) sig /\ lr = r) by (split; congruence).
  destruct Eb as [-> ->]. clear B. destruct (LE r R Hs F Vs eq_refl El) as [[Dm Ds Dn Dp Dv] Hl]. clear LE.
  destruct (kes_signer_sound cbor sig EK) as [Lsig Vsig]. rewrite Eh in Vsig.
  assert (Hc0 : cbor <> []).
  { revert ES. unfold serializeHeaderBody, serializeHeaderBodyTPraos, serializeHeaderBodyCPraos, cbor_encode.
    destruct (_ =? _); [|destruct (_ =? _); [|discriminate]]; (destruct (cborEncode _) as [x|] eqn:EC; [|discriminate]);
      intros X; apply (inj Ok) in X as <-; by apply cbor_nonempty in EC. }
  exists cbor. split; [exact ES|]. split; [|split_and!; reflexivity].
  split; cbn [offered Body headerBody inSlot inPrevSlot inBlockNumber inPrevBlockNumber inPrevHeaderHash inPrevHash
    inVrfProof inVrfOutput inNonceVrfProof inNonceVrfOutput inHeaderBodyCbor inKesSignature inOpCertHotVkey inIssuerVkey
    inOpCertSignature inOpCertSequenceNumber inOpCertKesPeriod inOpCertCounterState inRegisteredVrfKeyHash inVrfKey
    Slot BlockNumber PrevHash IssuerVkey VrfKey NonceVrfOutput NonceVrfProof VrfOutput VrfProof OpCertHotVkey
    OpCertSequenceNumber OpCertKesPeriod OpCertSignature HeaderSignature fst snd evolution]; try done.
  - intros X. by rewrite X in Lp.
  - split; cbn; rewrite ?Fm; try done. apply vrf_signer_sound. exact Dv.
  - by apply Hl.
  - intros Et. rewrite Fm in Et. rewrite Et in EN.
    apply nonceCertificate_Ok in EN as [Ln Pn]; [|lia|done]. split; cbn; rewrite ?Fm, ?Et; try done; [by right|].
    apply vrf_signer_sound. exact Pn.
  - exists counter. split; [reflexivity|lia].
Qed.

(** A block producer made of a VRF seed, a KES seed evolved [t] times and a cold
    seed that certifies its key. *)
Definition producer (v : HeaderValidator) (vseed kseed cseed : bytes) (t : nat) (seq period : Z) (pool : bytes)
    : option BlockBuilder :=
  match NewSimpleVRFSigner vseed, KeyGen CardanoKesDepth kseed with
  | Ok vs, Ok (sk0, hot) =>
    match evolve t sk0 with
    | Ok sk =>
      ks ← keySigner sk;
      Some (mkBuilder (Some vs) (Some ks)
              (Some (mkOpCert hot seq period (edSign cseed (OpCertSignableBytes hot seq period))))
              pool (edPublic cseed) (activeSlotCoeff v) (validatorMode v) (validatorTachys v))
    | Err _ => None
    end
  | _, _ => None
  end.

(** C8. What a producer builds, the validator accepts. A header built for a slot
    by a producer with keys from three seeds, whose KES key has evolved [t] times
    since the period of its certificate, validates without errors after any
    header of an earlier slot and the number before, whatever the contents of
    the two caches, if the slot is in period [t] of the certificate and the
    counter is the last or the next; the result carries the VRF output of the
    election and the certificate's counter. *)
Theorem built_header_valid bound ca ca2 v b vseed kseed cseed t seq period pool input prevSlot prevNumber counter h r ca' :
  reachable bound ca -> reachable bound ca2 ->
  producer v vseed kseed cseed t seq period pool = Some b -> length cseed = 32%nat ->
  (validatorTachys v <> None -> validatorMode v = ConsensusModeCPraos) ->
  0 <= prevSlot < bSlot input -> bSlot input <= MaxUint64 -> bBlockNumber input = u64 (prevNumber + 1) ->
  slotsPerKESPeriod v <> 0 -> bSlot input / slotsPerKESPeriod v = period + Z.of_nat t ->
  Z.of_nat t < maxKESEvolutions v -> counter <= seq <= counter + 1 ->
  BuildHeader ca b input = (Ok (h, r), ca') ->
  exists cbor, serializeHeaderBody (builderMode b) (Body h) = Ok cbor /\
    fst (ValidateHeader ca2 v (offered h cbor input prevSlot prevNumber counter)) =
      mkValidateResult true (Output r) (Some seq) [].
Proof.
  intros R R2 P Hc Ht Hp Hs Hn Hz Hk Hm Hq B. unfold producer in P.
  destruct (NewSimpleVRFSigner vseed) as [vs|] eqn:EV; [|discriminate].
  destruct (KeyGen CardanoKesDepth kseed) as [[sk0 hot]|] eqn:EK; [|discriminate].
  destruct (evolve t sk0) as [sk|] eqn:EE; [|discriminate].
  destruct (keySigner sk) as [ks|] eqn:ES; [|discriminate]. cbn [mbind option_bind] in P. apply (inj Some) in P as <-.
  destruct (key_signer_sound _ _ _ _ _ _ EK EE ES) as [Epk SK].
  match type of B with BuildHeader _ ?b _ = _ => assert (F : follows v b) by (split; (reflexivity || exact Ht)) end.
  destruct (built_header_ok bound ca v _ input prevSlot prevNumber counter h r ca' vs ks
    (mkOpCert hot seq period (edSign cseed (OpCertSignableBytes hot seq period))) R ltac:(lia) F B
    eq_refl (simple_signer_sound _ _ EV) eq_refl) as (cbor & EC & K & EO & Eq & Esl & Ebn);
    cbn [KesPeriod SequenceNumber HotVkey Signature issuerVkey]; try done; try lia.
  - by replace (bSlot input / slotsPerKESPeriod v - period) with (Z.of_nat t) by lia.
  - by apply edVerify_sign.
  - exists cbor. split; [exact EC|]. set (i := offered h cbor input prevSlot prevNumber counter) in *.
    assert (Hi : 0 <= inSlot i <= MaxUint64 /\ 0 <= inBlockNumber i).
    { subst i. cbn [offered inSlot inBlockNumber]. rewrite Esl, Ebn, Hn.
      pose proof (u64_range (prevNumber + 1)). lia. }
    rewrite (proj1 (validate_result bound ca2 v i R2 (proj1 Hi) (proj2 Hi)) K).
    subst i. cbn [offered inVrfOutput inOpCertSequenceNumber]. by rewrite EO, Eq.
Qed.
End Built.

(** ** Instances *)

#[export] Instance toyPool : PoolHash := { blake2b224 b := take 28 b }.

Fixpoint toyEncode (v : cborValue) : bytes :=
  match v with
  | CUint n => [n]
  | CBytes b => 64 :: b
  | CArray l => 128 :: concat (map toyEncode l)
  end.

#[export] Instance toyCbor : CborEncoder := { cborEncode v := match v with CUint _ => None | _ => Some (toyEncode v) end }.

#[export] Instance toyCborLaws : CborEncoderLaws.
Proof. split. intros v b E. destruct v; cbn in E; [discriminate|injection E as <-; discriminate..]. Qed.

(** Periods of ten slots and a coefficient of one; the slot 25 is in the second
    period, one after the certificate's. *)
Definition exValidator : HeaderValidator := NewHeaderValidator (mkNetwork 10 62 (Some (mkRat 1 1))).
Definition exInput : BuildHeaderInput :=
  mkBuildInput 25 4 (replicate 32 1) (replicate 32 2) 3 9 (replicate 32 3) 100 8 0.
Definition exCache : leaderEligibilityCache := newLeaderEligibilityCache 8.

(** Witness of C8: a producer builds a header for slot 25, which validates. *)
Lemma built_header_valid_witness : exists b h r ca' cbor,
  producer exValidator toySeed toySeed toySeed 1 6 1 [] = Some b /\
  BuildHeader exCache b exInput = (Ok (h, r), ca') /\
  fst (ValidateHeader exCache exValidator (offered h cbor exInput 20 3 5)) = mkValidateResult true (Output r) (Some 6) [].
Proof.
  assert (T : match producer exValidator toySeed toySeed toySeed 1 6 1 [] with
              | Some b => is_ok (fst (BuildHeader exCache b exInput)) | None => false end = true)
    by (vm_compute; reflexivity).
  destruct (producer exValidator toySeed toySeed toySeed 1 6 1 []) as [b|] eqn:P; [|discriminate T].
  destruct (BuildHeader exCache b exInput) as [[[h r]|] ca'] eqn:B; [|discriminate T].
  destruct (built_header_valid 8 exCache exCache exValidator b toySeed toySeed toySeed 1 6 1 [] exInput 20 3 5 h r ca'
    (reach_new 8) (reach_new 8) P) as (cbor & _ & V);
    [reflexivity|intros X; by destruct X|split; [discriminate|reflexivity]|discriminate|reflexivity|discriminate
    |reflexivity|reflexivity|split; discriminate|exact B|].
  exists b, h, r, ca', cbor. split; [reflexivity|]. split; [exact B|exact V].
Defined.

(** The header of that slot, offered with its encoding. *)
Definition exOffered : option ValidateHeaderInput := Eval vm_compute in
  match producer exValidator toySeed toySeed toySeed 1 6 1 [] with
  | Some b =>
    match fst (BuildHeader exCache b exInput) with
    | Ok (h, _) =>
      match serializeHeaderBody 0 (Body h) with Ok cbor => Some (offered h cbor exInput 20 3 5) | Err _ => None end
    | Err _ => None
    end
  | None => None
  end.

(** Witness of C12: the conditions hold of that header. *)
Lemma header_valid_exact_witness : exists i, exOffered = Some i /\ inSlot i = 25 /\ header_ok exValidator i.
Proof.
  eexists. split; [reflexivity|]. split; [reflexivity|].
  match goal with |- header_ok _ ?i => pose proof (header_valid_exact 8 exCache exValidator i (reach_new 8)) as X;
    destruct (ValidateHeader exCache exValidator i) as [r ca'] eqn:E end.
  apply X; [vm_compute; split; discriminate|vm_compute; discriminate|].
  apply (f_equal (fun p => Valid (fst p))) in E. vm_compute in E. symmetry. exact E.
Defined.
