(* ===== verification/Selection.v ===== *)
(** * Chain selection (src/consensus/selection.go)

    The Praos rule, the Genesis density rule for deep forks, the selection of
    the preferred candidate, and the two chain tips of the source. A [float64]
    is IEEE 754 binary64 in the executable form of the Standard Library
    ([SpecFloat]). *)

From S2P Require Import Prelude.
From Stdlib Require Import Floats.SpecFloat.

(** ** Binary64 *)

Definition float64 : Type := spec_float.

(** [float64(n)] of an unsigned integer. *)
Definition float64_of_uint64 (n : Z) : float64 := binary_normalize 53 1024 n 0 false.
Definition float64_mul : float64 -> float64 -> float64 := SFmul 53 1024.
Definition float64_div : float64 -> float64 -> float64 := SFdiv 53 1024.
Definition float64_zero : float64 := S754_zero false.
Definition isNaN (x : float64) : bool := match x with S754_nan => true | _ => false end.
Definition isPosInf (x : float64) : bool := match x with S754_infinity false => true | _ => false end.

(** [math.Round]: to the nearest integer, halves away from zero. *)
Definition float64_round (x : float64) : float64 :=
  match x with
  | S754_finite s m e =>
    if 0 <=? e then x else
    let n := (2 * Zpos m + 2 ^ (- e)) / 2 ^ (1 - e) in
    binary_normalize 53 1024 (if s then - n else n) 0 s
  | _ => x
  end.

(** [uint64(x)] for a non-negative integral [x] below [2^64]. *)
Definition uint64_of_float64 (x : float64) : Z :=
  match x with
  | S754_finite false m e => if 0 <=? e then Zpos m * 2 ^ e else Zpos m / 2 ^ (- e)
  | _ => 0
  end.

(** ** Tips *)

(** [ChainTip]; [BlocksInWindow] is there when the tip is a [WindowBlockCounter]. *)
Record ChainTip := mkChainTip {
  Slot : Z;
  BlockNumber : Z;
  VRFOutput : bytes;
  Density : Z -> float64;
  BlocksInWindow : option (Z -> Z -> Z)
}.

Record ForkPoint := mkForkPoint { ForkSlot : Z; ForkBlockNumber : Z }.

Record PraosChainSelector := mkSelector { SecurityParam : Z; GenesisWindowSlots : Z }.

Definition NewPraosChainSelector (k : Z) : PraosChainSelector := mkSelector k 0.
Definition NewPraosChainSelectorWithWindow (k w : Z) : PraosChainSelector := mkSelector k w.

Record SimpleChainTip := mkSimpleChainTip {
  slot : Z; blockNumber : Z; vrfOutput : bytes; blocksAfterFork : Z; slotsAfterFork : Z
}.

Definition NewSimpleChainTip (s n : Z) (vrf : bytes) : SimpleChainTip :=
  mkSimpleChainTip s n vrf 0 0.
Definition NewSimpleChainTipWithDensity (s n : Z) (vrf : bytes) (blocks slots : Z) : SimpleChainTip :=
  mkSimpleChainTip s n vrf blocks slots.

Definition simpleDensity (s : SimpleChainTip) (_ : Z) : float64 :=
  if slotsAfterFork s =? 0 then float64_zero
  else float64_div (float64_of_uint64 (blocksAfterFork s)) (float64_of_uint64 (slotsAfterFork s)).

Definition simpleTip (s : SimpleChainTip) : ChainTip :=
  mkChainTip (slot s) (blockNumber s) (vrfOutput s) (simpleDensity s) None.

Record WindowedChainTip := mkWindowedChainTip { embedded : SimpleChainTip; blockSlots : list Z }.

Definition NewWindowedChainTip (s n : Z) (vrf : bytes) (slots : list Z) : WindowedChainTip :=
  mkWindowedChainTip (NewSimpleChainTip s n vrf) slots.

(** The counting loop of [BlocksInWindow], with its [uint64] counter. *)
Fixpoint countLoop (forkSlot windowSlots : Z) (slots : list Z) (count : Z) : Z :=
  match slots with
  | [] => count
  | s :: slots =>
    let count := if (forkSlot <? s) && (u64 (s - forkSlot) <=? windowSlots)
                 then u64 (count + 1) else count in
    countLoop forkSlot windowSlots slots count
  end.

Definition windowedBlocksInWindow (w : WindowedChainTip) (forkSlot windowSlots : Z) : Z :=
  if windowSlots =? 0 then 0 else countLoop forkSlot windowSlots (blockSlots w) 0.

(** The loop of [WindowedChainTip.Density]. *)
Fixpoint densityLoop (forkSlot : Z) (slots : list Z) (blocks maxSlot : Z) : Z * Z :=
  match slots with
  | [] => (blocks, maxSlot)
  | s :: slots =>
    if s <=? forkSlot then densityLoop forkSlot slots blocks maxSlot
    else densityLoop forkSlot slots (u64 (blocks + 1)) (if maxSlot <? s then s else maxSlot)
  end.

Definition windowedDensity (w : WindowedChainTip) (forkSlot : Z) : float64 :=
  let '(blocks, maxSlot) := densityLoop forkSlot (blockSlots w) 0 0 in
  if blocks =? 0 then float64_zero
  else float64_div (float64_of_uint64 blocks) (float64_of_uint64 (u64 (maxSlot - forkSlot))).

Definition windowedTip (w : WindowedChainTip) : ChainTip :=
  let s := embedded w in
  mkChainTip (slot s) (blockNumber s) (vrfOutput s) (windowedDensity w) (Some (windowedBlocksInWindow w)).

(** ** Comparison *)

(** [None] is the nil tip. *)
Definition Compare (a b : option ChainTip) : Z :=
  match a, b with
  | None, None => 0
  | None, Some _ => -1
  | Some _, None => 1
  | Some a, Some b =>
    if negb (BlockNumber a =? BlockNumber b) then (if BlockNumber b <? BlockNumber a then 1 else -1)
    else if (blen (VRFOutput a) =? 0) && (blen (VRFOutput b) =? 0) then 0
    else if blen (VRFOutput a) =? 0 then -1
    else if blen (VRFOutput b) =? 0 then 1
    else
    let aVRF := be_decode (VRFOutput a) in
    let bVRF := be_decode (VRFOutput b) in
    if aVRF <? bVRF then 1 else if bVRF <? aVRF then -1 else 0
  end.

Definition IsDeepFork (p : PraosChainSelector) (fork : ForkPoint) (tipBlockNumber : Z) : bool :=
  if tipBlockNumber <=? ForkBlockNumber fork then false
  else SecurityParam p <? u64 (tipBlockNumber - ForkBlockNumber fork).

Definition legacyDensity (tip : ChainTip) (forkSlot : Z) : float64 :=
  let density := Density tip forkSlot in
  if isNaN density then float64_zero else density.

Definition windowBlocks (p : PraosChainSelector) (tip : ChainTip) (fork : ForkPoint) : Z :=
  match BlocksInWindow tip with
  | Some counter => counter (ForkSlot fork) (GenesisWindowSlots p)
  | None =>
    let density := legacyDensity tip (ForkSlot fork) in
    if SFleb density float64_zero then 0 else
    let projected := float64_round (float64_mul density (float64_of_uint64 (GenesisWindowSlots p))) in
    if isPosInf projected || SFleb (float64_of_uint64 MaxUint64) projected then MaxUint64
    else uint64_of_float64 projected
  end.

Definition compareUint64 (a b : Z) : Z := if b <? a then 1 else if a <? b then -1 else 0.

Definition compareFloat64 (a b : float64) : Z :=
  if SFltb b a then 1 else if SFltb a b then -1 else 0.

Definition compareDensity (p : PraosChainSelector) (a b : ChainTip) (fork : ForkPoint) : Z :=
  if 0 <? GenesisWindowSlots p then compareUint64 (windowBlocks p a fork) (windowBlocks p b fork)
  else compareFloat64 (legacyDensity a (ForkSlot fork)) (legacyDensity b (ForkSlot fork)).

Definition CompareWithDensity (p : PraosChainSelector) (fork : ForkPoint) (tipBlockNumber : Z)
    (a b : option ChainTip) : Z :=
  match a, b with
  | None, None => 0
  | None, Some _ => -1
  | Some _, None => 1
  | Some a', Some b' =>
    if negb (IsDeepFork p fork tipBlockNumber) then Compare a b else
    let result := compareDensity p a' b' fork in
    if negb (result =? 0) then result else Compare a b
  end.

(** ** Selection *)

Fixpoint preferLoop {T} (compare : T -> T -> Z) (candidates : list T) (preferred : T) : T :=
  match candidates with
  | [] => preferred
  | c :: candidates => preferLoop compare candidates (if 0 <? compare c preferred then c else preferred)
  end.

Definition selectPreferred (compare : option ChainTip -> option ChainTip -> Z)
    (candidates : list (option ChainTip)) : option ChainTip :=
  match candidates with
  | [] => None
  | c :: candidates => preferLoop compare candidates c
  end.

Definition Preferred (candidates : list (option ChainTip)) : option ChainTip :=
  selectPreferred Compare candidates.

Definition PreferredWithDensity (p : PraosChainSelector) (candidates : list (option ChainTip))
    (fork : ForkPoint) (tipBlockNumber : Z) : option ChainTip :=
  selectPreferred (CompareWithDensity p fork tipBlockNumber) candidates.

(** ** Comparators *)

(** What selection needs of a comparison function: its sign is antisymmetric and
    being at least as preferred is transitive. *)
Class Comparator {T} (cmp : T -> T -> Z) : Prop := {
  cmp_range a b : cmp a b = -1 \/ cmp a b = 0 \/ cmp a b = 1;
  cmp_anti a b : cmp b a = - cmp a b;
  cmp_trans a b c : 0 <= cmp a b -> 0 <= cmp b c -> 0 <= cmp a c
}.

(** Compare by [c1] and break ties by [c2]. *)
Definition lexCmp {T} (c1 c2 : T -> T -> Z) (a b : T) : Z :=
  if negb (c1 a b =? 0) then c1 a b else c2 a b.

(** The absent value is the least preferred. *)
Definition optCmp {T} (c : T -> T -> Z) (a b : option T) : Z :=
  match a, b with
  | None, None => 0
  | None, Some _ => -1
  | Some _, None => 1
  | Some a, Some b => c a b
  end.

Definition keyCmp {T} (f : T -> Z) (a b : T) : Z := compareUint64 (f a) (f b).

#[export] Instance keyCmp_comparator {T} (f : T -> Z) : Comparator (keyCmp f).
Proof. split; intros; unfold keyCmp, compareUint64 in *; zbool; lia. Qed.

#[export] Instance lexCmp_comparator {T} (c1 c2 : T -> T -> Z) :
  Comparator c1 -> Comparator c2 -> Comparator (lexCmp c1 c2).
Proof.
  intros H1 H2. split; unfold lexCmp; intros a b.
  - pose proof (cmp_range (cmp := c1) a b). pose proof (cmp_range (cmp := c2) a b). zbool; simpl; lia.
  - pose proof (cmp_anti (cmp := c1) a b). pose proof (cmp_anti (cmp := c2) a b). zbool; simpl; lia.
  - intros c. pose proof (cmp_trans (cmp := c2) a b c).
    pose proof (cmp_trans (cmp := c1) a b c). pose proof (cmp_trans (cmp := c1) b c a).
    pose proof (cmp_trans (cmp := c1) c a b).
    pose proof (cmp_anti (cmp := c1) a b). pose proof (cmp_anti (cmp := c1) b c).
    pose proof (cmp_anti (cmp := c1) a c). zbool; simpl; lia.
Qed.

#[export] Instance optCmp_comparator {T} (c : T -> T -> Z) : Comparator c -> Comparator (optCmp c).
Proof.
  intros H. split.
  - intros [a|] [b|]; simpl; try lia. apply cmp_range.
  - intros [a|] [b|]; simpl; try lia. apply cmp_anti.
  - intros [a|] [b|] [d|]; simpl; try lia. apply cmp_trans.
Qed.

Lemma Comparator_ext {T} (c c' : T -> T -> Z) :
  (forall a b, c' a b = c a b) -> Comparator c -> Comparator c'.
Proof. intros E [H1 H2 H3]. split; intros *; rewrite ?E; eauto. Qed.

Lemma Comparator_pre {T U} (f : T -> U) (c : U -> U -> Z) :
  Comparator c -> Comparator (fun a b => c (f a) (f b)).
Proof. intros [H1 H2 H3]. split; intros *; eauto. Qed.

(** *** Floats *)

(** A float that is not a NaN, as three keys compared in turn: its class, then
    its exponent and mantissa, reversed for a negative number. *)
Definition floatClass (x : float64) : Z :=
  match x with
  | S754_infinity s => if s then -2 else 2
  | S754_finite s _ _ => if s then -1 else 1
  | _ => 0
  end.
Definition floatExp (x : float64) : Z :=
  match x with S754_finite s _ e => if s then - e else e | _ => 0 end.
Definition floatMant (x : float64) : Z :=
  match x with S754_finite s m _ => if s then - Zpos m else Zpos m | _ => 0 end.

Definition floatCmp : float64 -> float64 -> Z :=
  lexCmp (keyCmp floatClass) (lexCmp (keyCmp floatExp) (keyCmp floatMant)).

Lemma compareFloat64_keys a b :
  isNaN a = false -> isNaN b = false -> compareFloat64 a b = floatCmp a b.
Proof.
  destruct a as [sa|sa| |sa ma ea], b as [sb|sb| |sb mb eb]; try done; intros _ _;
    try (destruct sa, sb; reflexivity).
  unfold compareFloat64, floatCmp, lexCmp, keyCmp, compareUint64, SFltb, SFcompare.
  change (Pos.compare_cont Eq) with Pos.compare. cbn [floatClass floatExp floatMant].
  destruct sa, sb; try reflexivity; simpl (_ <? _);
    rewrite (Z.compare_antisym ea eb), (Pos.compare_antisym ma mb);
    destruct (Z.compare_spec ea eb); simpl CompOpp; cbn iota;
    try (destruct (Pos.compare_spec ma mb)); simpl CompOpp; cbn iota; zbool; simpl; try lia.
Qed.

(** *** The comparisons of the selector *)

Definition vrfKey (t : ChainTip) : option Z :=
  if blen (VRFOutput t) =? 0 then None else Some (- be_decode (VRFOutput t)).

Definition praosCmp : ChainTip -> ChainTip -> Z :=
  lexCmp (keyCmp BlockNumber) (fun a b => optCmp (keyCmp id) (vrfKey a) (vrfKey b)).

Definition densityCmp (p : PraosChainSelector) (fork : ForkPoint) : ChainTip -> ChainTip -> Z :=
  if 0 <? GenesisWindowSlots p then keyCmp (fun t => windowBlocks p t fork)
  else fun a b => floatCmp (legacyDensity a (ForkSlot fork)) (legacyDensity b (ForkSlot fork)).

Lemma Compare_praos a b : Compare a b = optCmp praosCmp a b.
Proof.
  destruct a as [a|], b as [b|]; try done. simpl.
  unfold praosCmp, lexCmp, keyCmp, compareUint64, vrfKey.
  destruct (Z.eqb_spec (BlockNumber a) (BlockNumber b)) as [->|]; [|zbool; simpl; lia].
  rewrite Z.ltb_irrefl. simpl. unfold keyCmp, compareUint64, id.
  destruct (Z.eqb_spec (blen (VRFOutput a)) 0), (Z.eqb_spec (blen (VRFOutput b)) 0); simpl; try done.
  zbool; lia.
Qed.

Lemma legacyDensity_not_nan t s : isNaN (legacyDensity t s) = false.
Proof. unfold legacyDensity. destruct (isNaN (Density t s)) eqn:E; done. Qed.

Lemma compareDensity_cmp p a b fork : compareDensity p a b fork = densityCmp p fork a b.
Proof.
  unfold compareDensity, densityCmp. destruct (0 <? GenesisWindowSlots p); [done|].
  apply compareFloat64_keys; apply legacyDensity_not_nan.
Qed.

Lemma CompareWithDensity_cmp p fork tip a b :
  CompareWithDensity p fork tip a b =
  optCmp (if IsDeepFork p fork tip then lexCmp (densityCmp p fork) praosCmp else praosCmp) a b.
Proof.
  unfold CompareWithDensity. destruct a as [a|], b as [b|]; try done.
  rewrite Compare_praos, compareDensity_cmp. by destruct (IsDeepFork p fork tip).
Qed.

#[export] Instance praosCmp_comparator : Comparator praosCmp.
Proof. apply lexCmp_comparator; [apply _|]. apply (Comparator_pre vrfKey). apply _. Qed.

#[export] Instance densityCmp_comparator p fork : Comparator (densityCmp p fork).
Proof.
  unfold densityCmp. destruct (0 <? GenesisWindowSlots p); [apply _|].
  apply (Comparator_pre (fun t => legacyDensity t (ForkSlot fork))). apply _.
Qed.

#[export] Instance Compare_comparator : Comparator Compare.
Proof. eapply Comparator_ext; [apply Compare_praos|apply _]. Qed.

#[export] Instance CompareWithDensity_comparator p fork tip : Comparator (CompareWithDensity p fork tip).
Proof.
  eapply Comparator_ext; [apply CompareWithDensity_cmp|].
  destruct (IsDeepFork p fork tip); apply _.
Qed.

(** *** The selection loop *)

Lemma cmp_refl {T} (cmp : T -> T -> Z) `{!Comparator cmp} a : cmp a a = 0.
Proof. pose proof (cmp_anti a a). lia. Qed.

(** The result is the first of the candidates that none is preferred to. *)
Lemma preferLoop_spec {T} (cmp : T -> T -> Z) `{!Comparator cmp} (cs : list T) : forall p : T,
  exists l1 l2 : list T, p :: cs = l1 ++ preferLoop cmp cs p :: l2 /\
    (forall c, c ∈ l1 -> 0 < cmp (preferLoop cmp cs p) c) /\
    (forall c, c ∈ l2 -> 0 <= cmp (preferLoop cmp cs p) c).
Proof.
  induction cs as [|c cs IH]; intros p; cbn [preferLoop].
  - exists [], []. split_and!; try done; by intros c ?%elem_of_nil.
  - destruct (Z.ltb_spec 0 (cmp c p)) as [Hlt|Hge].
    + destruct (IH c) as (l1 & l2 & E & H1 & H2). exists (p :: l1), l2.
      rewrite E. split_and!; [done| |done]. intros x [->|Hx]%elem_of_cons; [|auto].
      set (r := preferLoop cmp cs c) in *.
      assert (Hrc : 0 <= cmp r c).
      { assert (Hin : c ∈ l1 ++ r :: l2) by (rewrite <- E; constructor).
        apply elem_of_app in Hin as [Hin|[<-|Hin]%elem_of_cons]; [| |by apply H2].
        - specialize (H1 _ Hin). lia.
        - by rewrite cmp_refl. }
      pose proof (cmp_trans r c p Hrc ltac:(lia)). pose proof (cmp_trans p r c).
      pose proof (cmp_anti p c). pose proof (cmp_anti p r). lia.
    + destruct (IH p) as (l1 & l2 & E & H1 & H2). set (r := preferLoop cmp cs p) in *.
      destruct l1 as [|q l1]; simpl in E; injection E as E1 E2.
      * exists [], (c :: l2). rewrite E2, E1. split_and!; [done|by intros ? ?%elem_of_nil|].
        intros x [->|Hx]%elem_of_cons; [|auto]. rewrite <- E1. pose proof (cmp_anti c p). lia.
      * exists (p :: c :: l1), l2. rewrite E2. split_and!; [done| |done].
        assert (Hp : 0 < cmp r p) by (apply H1; subst q; constructor).
        intros x [->|[->|Hx]%elem_of_cons]%elem_of_cons; [done| |apply H1; by constructor].
        pose proof (cmp_anti c p). pose proof (cmp_trans p c r). pose proof (cmp_anti p r).
        pose proof (cmp_anti c r). lia.
Qed.

Lemma selectPreferred_best (cmp : option ChainTip -> option ChainTip -> Z) `{!Comparator cmp}
    (cs : list (option ChainTip)) :
  cs <> [] -> selectPreferred cmp cs ∈ cs /\ forall c, c ∈ cs -> 0 <= cmp (selectPreferred cmp cs) c.
Proof.
  intros Hne. destruct cs as [|c cs]; [done|]. simpl.
  destruct (preferLoop_spec cmp cs c) as (l1 & l2 & E & H1 & H2). rewrite E at 1. rewrite E.
  split; [set_solver|]. intros x [Hx|[->|Hx]%elem_of_cons]%elem_of_app; [|by rewrite cmp_refl|auto].
  specialize (H1 x Hx). lia.
Qed.

(** ** Properties *)

(** The comparison is a total preorder. For every selector, fork point and
    current height, with or without a genesis window and whatever densities the
    tips report, NaN and infinities included: the comparison is one of -1, 0 and
    1, it is antisymmetric, and preference is transitive, so ties are an
    equivalence. *)
Theorem comparison_preorder p fork tip a b c :
  let cmp := CompareWithDensity p fork tip in
  (cmp a b = -1 \/ cmp a b = 0 \/ cmp a b = 1) /\
  cmp b a = - cmp a b /\
  (0 <= cmp a b -> 0 <= cmp b c -> 0 <= cmp a c) /\
  (0 <= cmp a b -> 0 < cmp b c -> 0 < cmp a c) /\
  (Compare a b = -1 \/ Compare a b = 0 \/ Compare a b = 1) /\
  Compare b a = - Compare a b /\
  (0 <= Compare a b -> 0 <= Compare b c -> 0 <= Compare a c).
Proof.
  intros cmp. pose proof (CompareWithDensity_comparator p fork tip) as HC. fold cmp in HC.
  split_and!; try apply cmp_range; try apply cmp_anti; try apply cmp_trans.
  intros H1 H2. pose proof (cmp_trans c a b). pose proof (cmp_anti b c).
  pose proof (cmp_anti c a). lia.
Qed.

(** Selection finds the best candidate, whatever the order they arrive in.
    Nothing is selected from no candidates; otherwise the result is the first
    of the candidates that no other is preferred to, every candidate before it
    being strictly worse; and a selector given the same candidates in another
    order selects an equivalent one. *)
Theorem preferred_best p fork tip (candidates candidates' : list (option ChainTip)) :
  let cmp := CompareWithDensity p fork tip in
  let best := PreferredWithDensity p candidates fork tip in
  candidates <> [] -> candidates ≡ₚ candidates' ->
  (exists l1 l2, candidates = l1 ++ best :: l2 /\
     (forall c, c ∈ l1 -> 0 < cmp best c) /\ (forall c, c ∈ l2 -> 0 <= cmp best c)) /\
  cmp best (PreferredWithDensity p candidates' fork tip) = 0 /\
  PreferredWithDensity p [] fork tip = None.
Proof.
  intros cmp best Hne HP. pose proof (CompareWithDensity_comparator p fork tip) as HC. fold cmp in HC.
  split; [|split; [|done]].
  - destruct candidates as [|c cs]; [done|]. apply (preferLoop_spec cmp cs c).
  - assert (Hne' : candidates' <> []) by (intros ->; by apply Permutation_nil_r in HP).
    destruct (selectPreferred_best cmp candidates Hne) as [Hin Hb].
    destruct (selectPreferred_best cmp candidates' Hne') as [Hin' Hb'].
    set (best' := PreferredWithDensity p candidates' fork tip).
    assert (H1 : 0 <= cmp best best') by (apply Hb; by rewrite HP).
    assert (H2 : 0 <= cmp best' best) by (apply Hb'; by rewrite <- HP).
    pose proof (cmp_anti best best'). lia.
Qed.

(** The number of blocks in the window, in unbounded arithmetic. *)
Definition inWindow (forkSlot windowSlots s : Z) : bool :=
  (forkSlot <? s) && (s <=? forkSlot + windowSlots).

Lemma countLoop_count f w (slots : list Z) : forall n,
  0 <= f -> 0 <= n -> n + blen slots <= MaxUint64 -> Forall (fun s => 0 <= s <= MaxUint64) slots ->
  countLoop f w slots n = n + blen (base.filter (fun s => inWindow f w s = true) slots).
Proof.
  induction slots as [|s slots IH]; intros n Hf Hn Hl Hs; cbn [countLoop].
  - change (blen (base.filter _ [])) with 0. lia.
  - rewrite blen_cons in Hl. inversion_clear Hs. rewrite filter_cons.
    pose proof (blen_nonneg slots).
    assert (Eb : (f <? s) && (u64 (s - f) <=? w) = inWindow f w s).
    { unfold inWindow. destruct (Z.ltb_spec f s); [|done]. rewrite u64_small by lia. simpl. zbool; lia. }
    rewrite Eb. destruct (decide (inWindow f w s = true)) as [->|Hd].
    + rewrite u64_small by lia. rewrite IH by (done || lia). rewrite blen_cons. lia.
    + apply not_true_is_false in Hd as ->. rewrite IH by (done || lia). done.
Qed.

(** The Genesis rule. A fork is deep exactly when more than [k] blocks would
    be rolled back. In a shallow fork the comparison is the ordinary one,
    whatever the densities; in a deep fork with a window, the windowed chain
    with more blocks in the [w] slots after the fork point wins whatever the
    lengths, the count being exact with no wrap-around at the end of the slot
    range, and only a tie falls back to the ordinary rule. *)
Theorem genesis_rule k w fork tip (a b : WindowedChainTip) :
  0 < w <= MaxUint64 -> 0 <= tip <= MaxUint64 ->
  0 <= ForkSlot fork <= MaxUint64 -> 0 <= ForkBlockNumber fork <= MaxUint64 ->
  Forall (fun s => 0 <= s <= MaxUint64) (blockSlots a) -> blen (blockSlots a) <= MaxUint64 ->
  Forall (fun s => 0 <= s <= MaxUint64) (blockSlots b) -> blen (blockSlots b) <= MaxUint64 ->
  let p := NewPraosChainSelectorWithWindow k w in
  let A := Some (windowedTip a) in
  let B := Some (windowedTip b) in
  let count t := blen (base.filter (fun s => inWindow (ForkSlot fork) w s = true) (blockSlots t)) in
  (IsDeepFork p fork tip = true <-> 0 < tip - ForkBlockNumber fork /\ k < tip - ForkBlockNumber fork) /\
  (IsDeepFork p fork tip = false -> CompareWithDensity p fork tip A B = Compare A B) /\
  (IsDeepFork p fork tip = true ->
     (count b < count a -> CompareWithDensity p fork tip A B = 1) /\
     (count a = count b -> CompareWithDensity p fork tip A B = Compare A B)).
Proof.
  intros Hw Ht Hf Hfb Ha La Hb Lb p A B count.
  assert (HC : forall t, Forall (fun s => 0 <= s <= MaxUint64) (blockSlots t) ->
                 blen (blockSlots t) <= MaxUint64 -> windowBlocks p (windowedTip t) fork = count t).
  { intros t Hs Hl. unfold windowBlocks. simpl. unfold windowedBlocksInWindow.
    destruct (Z.eqb_spec w 0); [lia|]. rewrite countLoop_count by (done || lia). done. }
  split_and!.
  - unfold IsDeepFork. simpl. destruct (Z.leb_spec tip (ForkBlockNumber fork)); [split; [done|lia]|].
    rewrite u64_small by lia. rewrite Z.ltb_lt. lia.
  - intros E. unfold CompareWithDensity. simpl. by rewrite E.
  - intros E. unfold CompareWithDensity. simpl. rewrite E. simpl negb. cbn iota.
    unfold compareDensity. simpl GenesisWindowSlots. destruct (Z.ltb_spec 0 w); [|lia].
    rewrite !HC by done. unfold compareUint64.
    split; intros Hc; [destruct (Z.ltb_spec (count b) (count a)); [done|lia]|].
    rewrite Hc, Z.ltb_irrefl. done.
Qed.

(** ** Witnesses *)

Definition exTip (n : Z) (vrf slots : list Z) : WindowedChainTip := NewWindowedChainTip 0 n vrf slots.

(** An instance: a longer chain, a tie broken by the VRF output, and no tip. *)
Lemma comparison_preorder_witness :
  0 < CompareWithDensity (NewPraosChainSelector 2) (mkForkPoint 0 0) 1
    (Some (windowedTip (exTip 5 [3] []))) None.
Proof.
  destruct (comparison_preorder (NewPraosChainSelector 2) (mkForkPoint 0 0) 1
    (Some (windowedTip (exTip 5 [3] []))) (Some (windowedTip (exTip 4 [3] []))) None)
    as (_ & _ & _ & H & _).
  apply H; vm_compute; [discriminate|reflexivity].
Defined.

(** An instance: two candidates in two orders. *)
Lemma preferred_best_witness :
  let a := Some (windowedTip (exTip 5 [3] [2])) in
  let b := Some (windowedTip (exTip 4 [3] [1; 2])) in
  CompareWithDensity (NewPraosChainSelectorWithWindow 2 10) (mkForkPoint 0 0) 9
    (PreferredWithDensity (NewPraosChainSelectorWithWindow 2 10) [a; b] (mkForkPoint 0 0) 9)
    (PreferredWithDensity (NewPraosChainSelectorWithWindow 2 10) [b; a] (mkForkPoint 0 0) 9) = 0.
Proof.
  intros a b. apply (preferred_best (NewPraosChainSelectorWithWindow 2 10) (mkForkPoint 0 0) 9 [a; b] [b; a]).
  - discriminate.
  - apply Permutation_swap.
Defined.

(** An instance: a deep fork that the shorter, denser chain wins, at the end of
    the slot range. *)
Lemma genesis_rule_witness :
  CompareWithDensity (NewPraosChainSelectorWithWindow 2 10) (mkForkPoint 18446744073709551610 0) 9
    (Some (windowedTip (exTip 4 [3] [18446744073709551611; 18446744073709551615])))
    (Some (windowedTip (exTip 5 [3] [18446744073709551612]))) = 1.
Proof.
  destruct (genesis_rule 2 10 (mkForkPoint 18446744073709551610 0) 9
    (exTip 4 [3] [18446744073709551611; 18446744073709551615]) (exTip 5 [3] [18446744073709551612]))
    as (_ & _ & H).
  1-8: unfold MaxUint64; simpl; try lia; repeat constructor; (lia || discriminate).
  apply H; vm_compute; reflexivity.
Defined.

(** A legacy tip is projected onto the window: half of a window of ten slots is
    five blocks, and a density of two saturates nothing. *)
Example legacy_projection :
  windowBlocks (NewPraosChainSelectorWithWindow 2 10)
    (simpleTip (NewSimpleChainTipWithDensity 0 1 [] 1 2)) (mkForkPoint 0 0) = 5 /\
  windowBlocks (NewPraosChainSelectorWithWindow 2 MaxUint64)
    (simpleTip (NewSimpleChainTipWithDensity 0 1 [] 2 1)) (mkForkPoint 0 0) = MaxUint64.
Proof. split; vm_compute; reflexivity. Qed.
