(* ===== verification/Genesis.v ===== *)
(** * Selecting a chain while syncing (src/consensus/genesis/genesis.go)

    The window of the Genesis rule, 3k/f slots rounded up, and the selection of
    the candidate with the most blocks in it. *)

From Stdlib Require Import QArith Qround.
From S2P Require Import Prelude Selection.
#[local] Open Scope Z_scope.

Record GenesisConfig := mkGenesisConfig {
  gSecurityParam : Z;                (* SecurityParam, uint64 *)
  gActiveSlotCoeff : option Q;       (* ActiveSlotCoeff, nil or a rational *)
  gGenesisWindow : Z                 (* GenesisWindow, uint64 *)
}.

Inductive genesisError :=
| GeSecurityParam | GeNoCoefficient | GeCoefficient | GeOverflow | GeWindow (configured computed : Z).

(** [big.Int.QuoRem] truncates; the numerator is positive here. *)
Definition ComputeGenesisWindow (securityParam : Z) (activeSlotCoeff : option Q) : result genesisError Z :=
  if securityParam =? 0 then Err GeSecurityParam else
  match activeSlotCoeff with
  | None => Err GeNoCoefficient
  | Some f =>
    if Qle_bool f 0 || negb (Qle_bool f 1) then Err GeCoefficient else
    let window := Qred (inject_Z (3 * securityParam) / f) in
    let result := Z.quot (Qnum window) (Zpos (Qden window)) in
    let remainder := Z.rem (Qnum window) (Zpos (Qden window)) in
    let result := if negb (Z.sgn remainder =? 0) then result + 1 else result in
    if (result <? 0) || (MaxUint64 <? result) then Err GeOverflow else Ok result
  end.

Record ChainFragment := mkChainFragment {
  IntersectionSlot : Z;
  TipSlot : Z;
  BlockCount : Z;
  BlockCountInWindow : Z -> Z
}.

Definition NewGenesisSelector (config : GenesisConfig) : result genesisError GenesisConfig :=
  computedWindow ← ComputeGenesisWindow (gSecurityParam config) (gActiveSlotCoeff config);
  if gGenesisWindow config =? 0
  then Ok (mkGenesisConfig (gSecurityParam config) (gActiveSlotCoeff config) computedWindow)
  else if negb (gGenesisWindow config =? computedWindow) then Err (GeWindow (gGenesisWindow config) computedWindow)
  else Ok config.

Definition GenesisCompare (g : GenesisConfig) (a b : ChainFragment) : Z :=
  let blocksA := BlockCountInWindow a (gGenesisWindow g) in
  let blocksB := BlockCountInWindow b (gGenesisWindow g) in
  if negb (blocksA =? blocksB) then (if blocksB <? blocksA then 1 else -1) else
  let totalA := BlockCount a in
  let totalB := BlockCount b in
  if negb (totalA =? totalB) then (if totalB <? totalA then 1 else -1) else 0.

Definition GenesisPreferred (g : GenesisConfig) (candidates : list ChainFragment) : option ChainFragment :=
  match candidates with
  | [] => None
  | first :: rest => Some (foldl (fun best c => if 0 <? GenesisCompare g c best then c else best) first rest)
  end.

Definition ShouldUseGenesis (localTipSlot networkTipSlot syncThreshold : Z) : bool :=
  if networkTipSlot <=? localTipSlot then false else syncThreshold <? u64 (networkTipSlot - localTipSlot).

Definition DefaultSyncThreshold (g : GenesisConfig) : Z := gGenesisWindow g.

(** [SimpleChainFragment], whose count in a window is a proportion. *)
Definition simpleBlockCountInWindow (Intersection Tip Blocks windowSlots : Z) : Z :=
  if Tip <=? Intersection then 0 else
  let fragmentSlots := u64 (Tip - Intersection) in
  if fragmentSlots <=? windowSlots then Blocks else
  let proportion := float64_div (float64_of_uint64 windowSlots) (float64_of_uint64 fragmentSlots) in
  uint64_of_float64 (float64_mul (float64_of_uint64 Blocks) proportion).

Definition simpleFragment (Intersection Tip Blocks : Z) : ChainFragment :=
  mkChainFragment Intersection Tip Blocks (simpleBlockCountInWindow Intersection Tip Blocks).

Definition DensityOf (blocks slots : Z) : float64 :=
  if slots =? 0 then float64_zero else float64_div (float64_of_uint64 blocks) (float64_of_uint64 slots).

(** ** The window *)

Lemma ceiling_of_quotient n d : 0 < n -> 0 < d ->
  (if negb (Z.sgn (Z.rem n d) =? 0) then Z.quot n d + 1 else Z.quot n d) = (n + d - 1) / d.
Proof.
  intros Hn Hd. rewrite Z.quot_div_nonneg, Z.rem_mod_nonneg by lia.
  pose proof (Z.div_mod n d ltac:(lia)) as E. pose proof (Z.mod_pos_bound n d Hd) as B.
  destruct (Z.eqb_spec (Z.sgn (n mod d)) 0) as [Hs|Hs]; cbn [negb].
  - assert (n mod d = 0) by (by apply Z.sgn_null_iff). apply (Z.div_unique _ _ _ (d - 1)); lia.
  - assert (0 < n mod d) by (destruct (Z.eq_dec (n mod d) 0) as [E0|]; [rewrite E0 in Hs; done|lia]).
    apply (Z.div_unique _ _ _ (n mod d - 1)); lia.
Qed.

Lemma Qceiling_div (q : Q) : (Qnum q + Zpos (Qden q) - 1) / Zpos (Qden q) = Qceiling q.
Proof.
  destruct q as [n d]. unfold Qceiling, Qfloor, Qopp. cbn.
  pose proof (Z.div_mod (- n) (Zpos d) ltac:(lia)) as E. pose proof (Z.mod_pos_bound (- n) (Zpos d) ltac:(lia)) as B.
  symmetry. apply (Z.div_unique _ _ _ (Zpos d - 1 - (- n) mod Zpos d)); lia.
Qed.

Lemma window_positive k (f : Q) : 0 < k -> (0 < f)%Q -> (0 < inject_Z (3 * k) / f)%Q.
Proof.
  intros Hk Hf. apply Qlt_shift_div_l; [done|]. rewrite Qmult_0_l. change 0%Q with (inject_Z 0). rewrite <- Zlt_Qlt. lia.
Qed.

Lemma ComputeGenesisWindow_exact k f w : 0 <= k <= MaxUint64 ->
  ComputeGenesisWindow k f = Ok w <->
  0 < k /\ exists q, f = Some q /\ (0 < q <= 1)%Q /\ w = Qceiling (inject_Z (3 * k) / q) /\ w <= MaxUint64.
Proof.
  intros Hk. unfold ComputeGenesisWindow. destruct (Z.eqb_spec k 0) as [E|E]; [split; [done|lia]|].
  destruct f as [q|]; [|split; [done|]; by intros (_ & ? & ? & _)].
  destruct (Qle_bool q 0) eqn:E0; cbn [orb].
  { split; [done|]. intros (_ & ? & [= <-] & [Hq _] & _). apply Qle_bool_iff in E0. by apply Qlt_not_le in Hq. }
  destruct (Qle_bool q 1) eqn:E1; cbn [negb].
  2:{ split; [done|]. intros (_ & ? & [= <-] & [_ Hq] & _). apply Qle_bool_iff in Hq. congruence. }
  assert (Hq : (0 < q)%Q) by (apply Qnot_le_lt; rewrite <- Qle_bool_iff; congruence). apply Qle_bool_iff in E1.
  pose proof (window_positive k q ltac:(lia) Hq) as Hw. set (x := (inject_Z (3 * k) / q)%Q) in *.
  assert (Hr : 0 < Qnum (Qred x)).
  { rewrite <- (Qred_correct x) in Hw. unfold Qlt in Hw. cbn in Hw. lia. }
  rewrite ceiling_of_quotient, Qceiling_div, (Qceiling_comp _ _ (Qred_correct x)) by lia.
  assert (Hp : 0 <= Qceiling x).
  { apply Z.lt_le_incl. rewrite Zlt_Qlt. apply (Qlt_le_trans _ x); [done|apply Qle_ceiling]. }
  rewrite (proj2 (Z.ltb_ge _ _) Hp). cbn [orb]. destruct (Z.ltb_spec MaxUint64 (Qceiling x)).
  - split; [done|]. intros (_ & ? & [= <-] & _ & -> & Hle). fold x in Hle. lia.
  - split; [intros [= <-]; split; [lia|by exists q]|]. by intros (_ & ? & [= <-] & _ & -> & _).
Qed.

(** ** Selection *)

(** The order of the rule: blocks in the window first, then all blocks. *)
Definition better (g : GenesisConfig) (a b : ChainFragment) : Prop :=
  BlockCountInWindow b (gGenesisWindow g) < BlockCountInWindow a (gGenesisWindow g) \/
  (BlockCountInWindow b (gGenesisWindow g) = BlockCountInWindow a (gGenesisWindow g) /\ BlockCount b < BlockCount a).

Lemma GenesisCompare_better g a b : 0 < GenesisCompare g a b <-> better g a b.
Proof. unfold GenesisCompare, better. zbool; cbn [negb]; lia. Qed.

Lemma preferred_loop g rest : forall first,
  let best := foldl (fun best c => if 0 <? GenesisCompare g c best then c else best) first rest in
  exists i, (first :: rest) !! i = Some best /\
    (forall j c, (first :: rest) !! j = Some c -> ~ better g c best /\ ((j < i)%nat -> better g best c)).
Proof.
  induction rest as [|c rest IH]; intros first; cbn [foldl].
  - exists 0%nat. split; [done|]. intros [|j] c; [|by destruct j]. intros [= <-]. split; [unfold better; lia|lia].
  - destruct (Z.ltb_spec 0 (GenesisCompare g c first)) as [Hc|Hc].
    + apply GenesisCompare_better in Hc. destruct (IH c) as (i & Hi & HB). exists (S i). split; [done|].
      intros [|j] d Hd; [injection Hd as <-|].
      * destruct (HB 0%nat c eq_refl) as [H0 _]. unfold better in *. lia.
      * destruct (HB j d Hd) as [? Hj]. split; [done|]. intros ?. apply Hj. lia.
    + assert (Hn : ~ better g c first) by (rewrite <- GenesisCompare_better; lia).
      destruct (IH first) as (i & Hi & HB).
      exists (match i with O => O | S i => S (S i) end). split; [by destruct i|].
      destruct (HB 0%nat first eq_refl) as [H0 H0'].
      intros [|[|j]] d Hd.
      * injection Hd as <-. split; [done|]. destruct i; [lia|]. intros _. apply H0'. lia.
      * injection Hd as <-. destruct i as [|i].
        -- cbn in Hi. injection Hi as <-. split; [done|lia].
        -- assert (Hb : better g (foldl (fun best c0 => if 0 <? GenesisCompare g c0 best then c0 else best) first rest) first) by (apply H0'; lia).
           unfold better in *. lia.
      * destruct (HB (S j) d Hd) as [? Hj]. split; [done|]. destruct i; [lia|]. intros ?. apply Hj. lia.
Qed.

(** C40. A selector exists exactly for a positive security parameter, an active
    slot coefficient in (0, 1], and a window of 3k/f slots rounded up that fits
    64 bits and equals the configured one, if there is one. It prefers the first
    of the candidates that no other beats in blocks inside the window, and then
    in blocks. *)
Theorem genesis_selection config :
  0 <= gSecurityParam config <= MaxUint64 ->
  (forall g, NewGenesisSelector config = Ok g <->
    0 < gSecurityParam config /\ exists f, gActiveSlotCoeff config = Some f /\ (0 < f <= 1)%Q /\
      let w := Qceiling (inject_Z (3 * gSecurityParam config) / f) in
      w <= MaxUint64 /\ (gGenesisWindow config = 0 \/ gGenesisWindow config = w) /\
      g = mkGenesisConfig (gSecurityParam config) (gActiveSlotCoeff config) w) /\
  forall g candidates, candidates <> [] ->
    exists i best, GenesisPreferred g candidates = Some best /\ candidates !! i = Some best /\
      forall j c, candidates !! j = Some c -> ~ better g c best /\ ((j < i)%nat -> better g best c).
Proof.
  intros Hk. split.
  - intros g. unfold NewGenesisSelector. split.
    + intros H. peel H. apply ComputeGenesisWindow_exact in E as (Hp & f & Hf & Hr & -> & Hle); [|done].
      split; [done|]. exists f. cbn zeta. split; [done|]. split; [done|]. split; [done|]. split.
      * destruct (Z.eqb_spec (gGenesisWindow config) 0); [by left|]. destruct (Z.eqb_spec (gGenesisWindow config) (Qceiling (inject_Z (3 * gSecurityParam config) / f))); [by right|done].
      * destruct (Z.eqb_spec (gGenesisWindow config) 0); [congruence|].
        destruct (Z.eqb_spec (gGenesisWindow config) (Qceiling (inject_Z (3 * gSecurityParam config) / f))) as [<-|]; [|done].
        cbn in H. injection H as <-. by destruct config.
    + intros (Hp & f & Hf & Hr & Hle & Hw & ->). cbn zeta in *. set (w := Qceiling _) in *.
      rewrite (proj2 (ComputeGenesisWindow_exact (gSecurityParam config) (gActiveSlotCoeff config) w Hk)) by (split; [done|]; by exists f).
      cbn [mbind result_bind]. destruct Hw as [->|E]; [done|]. rewrite E, Z.eqb_refl. cbn [negb].
      destruct (w =? 0); [done|]. destruct config as [k c gw]. cbn in *. by subst gw.
  - intros g [|first rest] Hn; [done|]. destruct (preferred_loop g rest first) as (i & Hi & HB). eexists i, _. split; [done|]. by split.
Qed.

(** Witness of C40: the parameters of the main network, and a coefficient whose
    window is rounded up. *)
Lemma genesis_selection_witness :
  NewGenesisSelector (mkGenesisConfig 2160 (Some (1 # 20)) 0) = Ok (mkGenesisConfig 2160 (Some (1 # 20)) 129600) /\
  Qceiling (inject_Z (3 * 2160) / (1 # 20)) = 129600 /\ ComputeGenesisWindow 5 (Some (2 # 7)) = Ok 53.
Proof.
  split; [|split; [vm_compute; reflexivity|vm_compute; reflexivity]].
  destruct (genesis_selection (mkGenesisConfig 2160 (Some (1 # 20)) 0)) as [T _]; [cbn; unfold MaxUint64; lia|].
  apply T. cbn. split; [lia|]. exists (1 # 20). split; [reflexivity|]. split; [split; [reflexivity|discriminate]|]. vm_compute.
  split; [discriminate|]. split; [left; reflexivity|reflexivity].
Defined.
