(* ===== verification/Pbft.v ===== *)
(** * Byron PBFT (src/consensus/byron/pbft.go, pbft_delegation.go, byron.go)

    The rolling signature window with its threshold, the heavyweight delegation
    ledger, the resolution of a delegate to its issuer, and the slot and fee
    arithmetic of the Byron configuration. *)

From S2P Require Import Prelude.

(** A [Blake2b224]. *)
Abbreviation Hash := (list Z).

Inductive pbftError :=
| ErrSecurityParamZero | ErrThreshold | ErrHistoryTooLong | ErrThresholdExceeded
| ErrIssuerSetEmpty | ErrDelegationStateEmpty | ErrHashLength | ErrDuplicateIssuer | ErrUnknownDelegator
| ErrParse | ErrEpoch | ErrNotGenesisKey | ErrAlreadyDelegated | ErrSlotOverflow | ErrSignature
| ErrMultipleIssuers | ErrNotAuthorized | ErrCrypto.

(** ** byron.go: configuration *)

Record ByronTxFeePolicy := mkFeePolicy { Summand : Z; Multiplier : Z }.

Record ByronConfig := mkByronConfig {
  ProtocolMagic : Z;
  SlotsPerEpoch : Z;
  SecurityParam : Z;
  GenesisKeyHashes : list bytes;
  GenesisDelegations : gmap Hash Hash;
  GenesisDelegationEpochs : gmap Hash Z;
  ThresholdNumerator : Z;
  ThresholdDenominator : Z;
  TxFeePolicy : ByronTxFeePolicy
}.

Definition ByronFeeDivisor : Z := 1000000000.

Definition CalculateMinFee (p : ByronTxFeePolicy) (txSizeBytes : Z) : Z :=
  if (Summand p =? 0) && (Multiplier p =? 0) then 0
  else if (Summand p <? 0) || (Multiplier p <? 0) then 0
  else
  let '(high, low) := mul64 (Multiplier p) txSizeBytes in
  let '(low, carry) := add64 low (Summand p) 0 in
  let high := u64 (high + carry) in
  if ByronFeeDivisor <=? high then MaxUint64 else
  let '(fee, remainder) := div64 high low ByronFeeDivisor in
  if negb (remainder =? 0) && (fee <? MaxUint64) then u64 (fee + 1) else fee.

Inductive slotError := ErrByronSlotsPerEpochZero | ErrByronSlotNumberOverflow.

Definition SlotNumberFromEpochAndSlot (epoch slot slotsPerEpoch : Z) : result slotError Z :=
  if slotsPerEpoch =? 0 then Err ErrByronSlotsPerEpochZero else
  let '(hi, lo) := mul64 epoch slotsPerEpoch in
  if negb (hi =? 0) then Err ErrByronSlotNumberOverflow else
  let '(r, carry) := add64 lo slot 0 in
  if negb (carry =? 0) then Err ErrByronSlotNumberOverflow else Ok r.

Definition SlotToEpoch (c : ByronConfig) (slot : Z) : Z :=
  if SlotsPerEpoch c =? 0 then 0 else slot / SlotsPerEpoch c.

Definition EpochFirstSlotChecked (c : ByronConfig) (epoch : Z) : result slotError Z :=
  SlotNumberFromEpochAndSlot epoch 0 (SlotsPerEpoch c).

Definition EpochFirstSlot (c : ByronConfig) (epoch : Z) : Z :=
  match EpochFirstSlotChecked c epoch with Ok slot => slot | Err _ => 0 end.

Definition IsEpochBoundarySlot (c : ByronConfig) (slot : Z) : bool :=
  if SlotsPerEpoch c =? 0 then false else slot mod SlotsPerEpoch c =? 0.

Definition SlotLeader (c : ByronConfig) (slot : Z) : Z * option bytes :=
  if blen (GenesisKeyHashes c) =? 0 then (-1, None) else
  let index := slot mod blen (GenesisKeyHashes c) in
  (index, GenesisKeyHashes c !! Z.to_nat index).

(** ** pbft.go: the signature window *)

Definition DefaultPBFTSignatureThresholdNumerator : Z := 22.
Definition DefaultPBFTSignatureThresholdDenominator : Z := 100.

Record PBFTState := mkPBFTState {
  signatureHistory : list Hash;
  securityParam : Z;
  thresholdNumerator : Z;
  thresholdDenominator : Z
}.

Definition NewPBFTStateWithThreshold (history : list Hash) (k numerator denominator : Z)
    : result pbftError PBFTState :=
  if k =? 0 then Err ErrSecurityParamZero
  else if denominator =? 0 then Err ErrThreshold
  else if k <? blen history then Err ErrHistoryTooLong
  else Ok (mkPBFTState history k numerator denominator).

Definition NewPBFTState (history : list Hash) (k : Z) : result pbftError PBFTState :=
  NewPBFTStateWithThreshold history k DefaultPBFTSignatureThresholdNumerator
    DefaultPBFTSignatureThresholdDenominator.

Definition NewPBFTStateFromConfig (history : list Hash) (config : ByronConfig)
    : result pbftError PBFTState :=
  let '(numerator, denominator) :=
    if (ThresholdNumerator config =? 0) && (ThresholdDenominator config =? 0)
    then (DefaultPBFTSignatureThresholdNumerator, DefaultPBFTSignatureThresholdDenominator)
    else (ThresholdNumerator config, ThresholdDenominator config) in
  NewPBFTStateWithThreshold history (SecurityParam config) numerator denominator.

Definition Observe (issuer : Hash) (s : PBFTState) : result pbftError PBFTState :=
  if securityParam s =? 0 then Err ErrSecurityParamZero
  else if securityParam s <? blen (signatureHistory s) then Err ErrHistoryTooLong
  else
  let history := if securityParam s <=? blen (signatureHistory s)
                 then drop 1 (signatureHistory s) else signatureHistory s in
  Ok (mkPBFTState (history ++ [issuer]) (securityParam s) (thresholdNumerator s) (thresholdDenominator s)).

Definition pbftMaxSignatures (k numerator denominator : Z) : Z :=
  let '(hi, lo) := mul64 k numerator in
  if denominator <=? hi then MaxUint64 else fst (div64 hi lo denominator).

Fixpoint countIssuer (issuer : Hash) (history : list Hash) (count : Z) : Z :=
  match history with
  | [] => count
  | h :: history =>
    countIssuer issuer history (if bool_decide (h = issuer) then u64 (count + 1) else count)
  end.

Definition Transition (issuer : Hash) (s : PBFTState) : result pbftError PBFTState :=
  next ← Observe issuer s;
  let issuerCount := countIssuer issuer (signatureHistory next) 0 in
  let maxSignatures := pbftMaxSignatures (securityParam s) (thresholdNumerator s) (thresholdDenominator s) in
  if maxSignatures <? issuerCount then Err ErrThresholdExceeded else Ok next.

(** ** pbft_delegation.go: the delegation ledger *)

(** What [scheduleCertificate] uses of a certificate. *)
Record DelegationCertificate := mkCert { Epoch : Z; IssuerVK : bytes; DelegateVK : bytes }.

(** The certificate codec, its signature check and the key hash: CBOR decoding,
    Ed25519, and SHA3 with Blake2b. *)
Class ByronCertificates := {
  ParseDelegationCertificate : bytes -> option (DelegationCertificate * bytes);
  verifyCertificate : Z -> DelegationCertificate * bytes -> bool;
  keyHash : bytes -> Hash
}.

(** [PBFTVerificationKeyHash]. *)
Definition PBFTVerificationKeyHash `{ByronCertificates} (vk : bytes) : result pbftError Hash :=
  if negb (blen vk =? 64) then Err ErrParse else Ok (keyHash vk).

Record pbftScheduledDelegation := mkScheduled { activationSlot : Z; delegator : Hash; delegate : Hash }.

Record PBFTDelegationState := mkDelegationState {
  activeDelegations : gmap Hash Hash;
  delegationSlots : gmap Hash Z;
  scheduledDelegations : list pbftScheduledDelegation;
  keyEpochDelegations : gset (Z * Hash);
  allowedDelegators : gset Hash;
  protocolMagic : Z;
  dSecurityParam : Z
}.

Definition delegateIsActiveForOther (s : PBFTDelegationState) (dor del : Hash) : bool :=
  existsb (fun '(activeDelegator, activeDelegate) =>
             negb (bool_decide (activeDelegator = dor)) && bool_decide (activeDelegate = del))
          (map_to_list (activeDelegations s)).

Definition activate (d : pbftScheduledDelegation) (s : PBFTDelegationState) : PBFTDelegationState :=
  let previousSlot := default 0 (delegationSlots s !! delegator d) in
  if delegateIsActiveForOther s (delegator d) (delegate d) ||
     (negb (activationSlot d =? 0) && (activationSlot d <=? previousSlot))
  then s
  else mkDelegationState (<[delegator d := delegate d]> (activeDelegations s))
         (<[delegator d := activationSlot d]> (delegationSlots s)) (scheduledDelegations s)
         (keyEpochDelegations s) (allowedDelegators s) (protocolMagic s) (dSecurityParam s).

(** The first loop of [NewPBFTDelegationState]: every genesis key delegates to itself. *)
Fixpoint genesisKeys (hashes : list bytes) (s : PBFTDelegationState) : result pbftError PBFTDelegationState :=
  match hashes with
  | [] => Ok s
  | h :: hashes =>
    if negb (blen h =? 28) then Err ErrHashLength
    else if bool_decide (h ∈ allowedDelegators s) then Err ErrDuplicateIssuer
    else genesisKeys hashes
      (mkDelegationState (<[h := h]> (activeDelegations s)) (<[h := 0]> (delegationSlots s))
         (scheduledDelegations s) (keyEpochDelegations s) ({[h]} ∪ allowedDelegators s)
         (protocolMagic s) (dSecurityParam s))
  end.

(** Its last loop: the heavyweight delegations of the genesis, in key order. *)
Fixpoint genesisDelegate (config : ByronConfig) (hashes : list bytes) (s : PBFTDelegationState)
    : PBFTDelegationState :=
  match hashes with
  | [] => s
  | h :: hashes =>
    match GenesisDelegations config !! h with
    | None => genesisDelegate config hashes s
    | Some d =>
      let omega := GenesisDelegationEpochs config !! h in
      let s := if negb (bool_decide (d = h)) || bool_decide (is_Some omega)
               then mkDelegationState (activeDelegations s) (delegationSlots s) (scheduledDelegations s)
                      ({[(default 0 omega, h)]} ∪ keyEpochDelegations s) (allowedDelegators s)
                      (protocolMagic s) (dSecurityParam s)
               else s in
      genesisDelegate config hashes (activate (mkScheduled 0 h d) s)
    end
  end.

Definition NewPBFTDelegationState (config : ByronConfig) : result pbftError PBFTDelegationState :=
  if SecurityParam config =? 0 then Err ErrSecurityParamZero
  else if blen (GenesisKeyHashes config) =? 0 then Err ErrIssuerSetEmpty
  else
  s ← genesisKeys (GenesisKeyHashes config)
        (mkDelegationState ∅ ∅ [] ∅ ∅ (ProtocolMagic config) (SecurityParam config));
  if existsb (fun '(d, _) => negb (bool_decide (d ∈ allowedDelegators s)))
             (map_to_list (GenesisDelegations config)) then Err ErrUnknownDelegator
  else Ok (genesisDelegate config (GenesisKeyHashes config) s).

Fixpoint activateDue (currentSlot : Z) (ds : list pbftScheduledDelegation) (s : PBFTDelegationState)
    : PBFTDelegationState :=
  match ds with
  | [] => s
  | d :: ds => activateDue currentSlot ds (if activationSlot d <=? currentSlot then activate d s else s)
  end.

Definition Tick (currentEpoch currentSlot : Z) (s : PBFTDelegationState) : PBFTDelegationState :=
  let next := activateDue currentSlot (scheduledDelegations s) s in
  mkDelegationState (activeDelegations next) (delegationSlots next)
    (base.filter (fun d => currentSlot < activationSlot d) (scheduledDelegations next))
    (base.filter (fun ke => currentEpoch <= fst ke) (keyEpochDelegations next))
    (allowedDelegators next) (protocolMagic next) (dSecurityParam next).

Section Schedule.
Context `{ByronCertificates}.

Definition scheduleCertificate (currentEpoch currentSlot : Z) (raw : bytes) (s : PBFTDelegationState)
    : result pbftError PBFTDelegationState :=
  match ParseDelegationCertificate raw with
  | None => Err ErrParse
  | Some cert =>
    let delegationEpoch := Epoch (fst cert) in
    if (delegationEpoch <? currentEpoch) || (1 <? u64 (delegationEpoch - currentEpoch)) then Err ErrEpoch else
    dor ← PBFTVerificationKeyHash (IssuerVK (fst cert));
    if negb (bool_decide (dor ∈ allowedDelegators s)) then Err ErrNotGenesisKey
    else if bool_decide ((delegationEpoch, dor) ∈ keyEpochDelegations s) then Err ErrAlreadyDelegated
    else if (MaxUint64 / 2 <? dSecurityParam s) ||
            (u64 (MaxUint64 - u64 (2 * dSecurityParam s)) <? currentSlot) then Err ErrSlotOverflow
    else
    let slot := u64 (currentSlot + u64 (2 * dSecurityParam s)) in
    if existsb (fun sch => bool_decide (delegator sch = dor) && (activationSlot sch =? slot))
               (scheduledDelegations s) then Err ErrAlreadyDelegated
    else if negb (verifyCertificate (protocolMagic s) cert) then Err ErrSignature
    else
    del ← PBFTVerificationKeyHash (DelegateVK (fst cert));
    Ok (mkDelegationState (activeDelegations s) (delegationSlots s)
          (scheduledDelegations s ++ [mkScheduled slot dor del])
          ({[(delegationEpoch, dor)]} ∪ keyEpochDelegations s)
          (allowedDelegators s) (protocolMagic s) (dSecurityParam s))
  end.

Fixpoint schedulePayload (currentEpoch currentSlot : Z) (payload : list bytes) (s : PBFTDelegationState)
    : result pbftError PBFTDelegationState :=
  match payload with
  | [] => Ok s
  | raw :: payload =>
    s ← scheduleCertificate currentEpoch currentSlot raw s;
    schedulePayload currentEpoch currentSlot payload s
  end.

Definition ApplyPayloadCbor (currentEpoch currentSlot : Z) (payload : list bytes) (s : PBFTDelegationState)
    : result pbftError PBFTDelegationState :=
  next ← schedulePayload currentEpoch currentSlot payload s;
  Ok (Tick currentEpoch currentSlot next).

End Schedule.

(** ** pbft.go: the issuer of a header *)

(** The loop over the map of active delegations; [order] is the order in which
    the run visits its entries. *)
Fixpoint resolveLoop (order : list (Hash * Hash)) (del : Hash) (found : option Hash)
    : result pbftError Hash :=
  match order with
  | [] => match found with None => Err ErrNotAuthorized | Some i => Ok i end
  | (issuer, activeDelegate) :: order =>
    if negb (bool_decide (activeDelegate = del)) then resolveLoop order del found
    else match found with
    | Some i => if negb (bool_decide (issuer = i)) then Err ErrMultipleIssuers
                else resolveLoop order del (Some issuer)
    | None => resolveLoop order del (Some issuer)
    end
  end.

Definition resolveActivePBFTIssuer (order : list (Hash * Hash)) (del : Hash) : result pbftError Hash :=
  resolveLoop order del None.

Record PBFTIssuer := mkIssuer { GenesisKeyHash : Hash; DelegateKeyHash : Hash }.

(** [ValidatePBFTHeader]: [crypto] is what [ValidatePBFTHeaderCrypto] returned for
    the header, and the delegations are visited in [order]. *)
Definition ValidatePBFTHeader (crypto : result pbftError PBFTIssuer) (order : list (Hash * Hash))
    : result pbftError PBFTIssuer :=
  if blen order =? 0 then Err ErrDelegationStateEmpty else
  issuer ← crypto;
  activeIssuer ← resolveActivePBFTIssuer order (DelegateKeyHash issuer);
  Ok (mkIssuer activeIssuer (DelegateKeyHash issuer)).

(** ** The delegation ledger stays consistent *)

Record delegations_ok (s : PBFTDelegationState) : Prop := {
  d_dom : dom (activeDelegations s) = allowedDelegators s;
  d_inj a b d : activeDelegations s !! a = Some d -> activeDelegations s !! b = Some d -> a = b;
  d_sched d : d ∈ scheduledDelegations s -> delegator d ∈ allowedDelegators s;
  d_unique : NoDup ((fun d => (delegator d, activationSlot d)) <$> scheduledDelegations s)
}.

Lemma delegateIsActiveForOther_false s dor del :
  delegateIsActiveForOther s dor del = false ->
  forall a, activeDelegations s !! a = Some del -> a = dor.
Proof.
  unfold delegateIsActiveForOther. intros H a Ha. destruct (decide (a = dor)) as [|Hne]; [done|].
  apply not_true_iff_false in H. destruct H. apply existsb_exists. exists (a, del). split.
  - apply list_elem_of_In. by apply elem_of_map_to_list.
  - by rewrite bool_decide_false, bool_decide_true.
Qed.

Lemma activate_scheduled d s : scheduledDelegations (activate d s) = scheduledDelegations s.
Proof. unfold activate. by destruct (_ || _). Qed.

Lemma activate_allowed d s : allowedDelegators (activate d s) = allowedDelegators s.
Proof. unfold activate. by destruct (_ || _). Qed.

Lemma activate_ok d s :
  delegations_ok s -> delegator d ∈ allowedDelegators s -> delegations_ok (activate d s).
Proof.
  intros [H1 H2 H3 H4] Hd. unfold activate.
  destruct (delegateIsActiveForOther s (delegator d) (delegate d)) eqn:E; [done|].
  destruct (negb _ && _); [done|]. simpl. split; simpl; try done.
  - rewrite dom_insert_L, H1. set_solver.
  - pose proof (delegateIsActiveForOther_false _ _ _ E) as Ho. intros a b x.
    rewrite !lookup_insert_Some. intros [[<- <-]|[Hna Ha]] [[<- E2]|[Hnb Hb]]; try done.
    + symmetry. by apply Ho.
    + apply Ho. by rewrite E2.
    + by eapply H2.
Qed.

Lemma activateDue_ok slot ds : forall s,
  delegations_ok s -> (forall d, d ∈ ds -> delegator d ∈ allowedDelegators s) ->
  delegations_ok (activateDue slot ds s) /\
  scheduledDelegations (activateDue slot ds s) = scheduledDelegations s /\
  allowedDelegators (activateDue slot ds s) = allowedDelegators s.
Proof.
  induction ds as [|d ds IH]; intros s Hs Hd; [done|]. cbn [activateDue].
  destruct (activationSlot d <=? slot).
  - destruct (IH (activate d s)) as (? & -> & ->).
    + apply activate_ok; [done|]. apply Hd. constructor.
    + intros x Hx. rewrite activate_allowed. apply Hd. by constructor.
    + by rewrite activate_scheduled, activate_allowed.
  - apply IH; [done|]. intros x Hx. apply Hd. by constructor.
Qed.

Lemma NoDup_fmap_filter {A B} (f : A -> B) (P : A -> Prop) `{!forall x, Decision (P x)} (l : list A) :
  NoDup (f <$> l) -> NoDup (f <$> base.filter P l).
Proof.
  induction l as [|x l IH]; [done|]. rewrite fmap_cons, NoDup_cons, filter_cons. intros [Hx Hl].
  destruct (decide (P x)); [|auto]. rewrite fmap_cons. apply NoDup_cons. split; [|auto].
  intros (y & E & [_ Hy]%list_elem_of_filter)%list_elem_of_fmap. apply Hx. rewrite E. by apply list_elem_of_fmap_2.
Qed.

Lemma Tick_ok e slot s : delegations_ok s -> delegations_ok (Tick e slot s).
Proof.
  intros Hs. destruct (activateDue_ok slot (scheduledDelegations s) s Hs (d_sched s Hs)) as ([H1 H2 H3 H4] & Es & Ea).
  split; simpl; try done.
  - intros d [_ Hd]%list_elem_of_filter. by apply H3.
  - by apply NoDup_fmap_filter.
Qed.

Section ScheduleProofs.
Context `{ByronCertificates}.

(** What an accepted certificate adds. *)
Lemma scheduleCertificate_Ok e slot raw s s' :
  scheduleCertificate e slot raw s = Ok s' ->
  exists cert d, ParseDelegationCertificate raw = Some cert /\
    delegator d = keyHash (IssuerVK (fst cert)) /\ delegate d = keyHash (DelegateVK (fst cert)) /\
    activationSlot d = u64 (slot + u64 (2 * dSecurityParam s)) /\
    delegator d ∈ allowedDelegators s /\ verifyCertificate (protocolMagic s) cert = true /\
    ~ (Epoch (fst cert) < e) /\ u64 (Epoch (fst cert) - e) <= 1 /\
    ((Epoch (fst cert), delegator d) ∉ keyEpochDelegations s) /\
    dSecurityParam s <= MaxUint64 / 2 /\ slot <= u64 (MaxUint64 - u64 (2 * dSecurityParam s)) /\
    (forall sch, sch ∈ scheduledDelegations s -> delegator sch = delegator d ->
                 activationSlot sch = activationSlot d -> False) /\
    s' = mkDelegationState (activeDelegations s) (delegationSlots s)
           (scheduledDelegations s ++ [d]) ({[(Epoch (fst cert), delegator d)]} ∪ keyEpochDelegations s)
           (allowedDelegators s) (protocolMagic s) (dSecurityParam s).
Proof.
  unfold scheduleCertificate. destruct (ParseDelegationCertificate raw) as [cert|]; [|done].
  destruct (Z.ltb_spec (Epoch (fst cert)) e); [done|]. destruct (Z.ltb_spec 1 (u64 (Epoch (fst cert) - e))); [done|].
  unfold PBFTVerificationKeyHash. intros (dor & E1 & E2)%bind_Ok.
  destruct (negb (blen (IssuerVK _) =? 64)); [done|]. injection E1 as <-.
  destruct (decide (keyHash (IssuerVK (fst cert)) ∈ allowedDelegators s)) as [Ha|]; [|by rewrite bool_decide_false in E2].
  rewrite bool_decide_true in E2 by done. cbn [negb] in E2.
  case_bool_decide as Hk; [done|].
  destruct (Z.ltb_spec (MaxUint64 / 2) (dSecurityParam s)); [done|].
  destruct (Z.ltb_spec (u64 (MaxUint64 - u64 (2 * dSecurityParam s))) slot); [done|]. cbn [orb] in E2.
  destruct (existsb _ _) eqn:Ex; [done|].
  destruct (verifyCertificate _ _) eqn:Ev; [|done]. cbn [negb] in E2.
  apply bind_Ok in E2 as (del & E3 & E4). destruct (negb (blen (DelegateVK _) =? 64)); [done|].
  injection E3 as <-. injection E4 as <-.
  exists cert, (mkScheduled (u64 (slot + u64 (2 * dSecurityParam s))) (keyHash (IssuerVK (fst cert)))
                  (keyHash (DelegateVK (fst cert)))).
  split_and!; try done; [lia|]. simpl. intros sch Hin E1 E2.
  apply not_true_iff_false in Ex. destruct Ex. apply existsb_exists. exists sch. split.
  - by apply list_elem_of_In.
  - rewrite bool_decide_true by done. by apply Z.eqb_eq.
Qed.

Lemma scheduleCertificate_ok e slot raw s s' :
  delegations_ok s -> scheduleCertificate e slot raw s = Ok s' -> delegations_ok s'.
Proof.
  intros [H1 H2 H3 H4] (cert & d & _ & _ & _ & _ & Ha & _ & _ & _ & _ & _ & _ & Hn & ->)%scheduleCertificate_Ok.
  split; simpl; try done.
  - intros x [Hx|Hx]%elem_of_app; [by apply H3|]. by apply list_elem_of_singleton in Hx as ->.
  - rewrite fmap_app. apply NoDup_app. split_and!; [done| |apply NoDup_singleton].
    intros x (y & -> & Hy)%list_elem_of_fmap Hx. apply list_elem_of_singleton in Hx as [= E1 E2]. by eapply Hn.
Qed.

Lemma schedulePayload_ok e slot payload : forall s s',
  delegations_ok s -> schedulePayload e slot payload s = Ok s' -> delegations_ok s'.
Proof.
  induction payload as [|raw payload IH]; intros s s' Hs; cbn [schedulePayload]; [by intros [= <-]|].
  intros (s1 & E1 & E2)%bind_Ok. eapply IH; [|done]. by eapply scheduleCertificate_ok.
Qed.

(** One block: its payload, or only the passing of time. *)
Inductive delegation_step : PBFTDelegationState -> PBFTDelegationState -> Prop :=
| D_tick e slot s : delegation_step s (Tick e slot s)
| D_apply e slot payload s s' :
    ApplyPayloadCbor e slot payload s = Ok s' -> delegation_step s s'.

Lemma delegation_step_ok s s' : delegations_ok s -> delegation_step s s' -> delegations_ok s'.
Proof.
  intros Hs H'. destruct H' as [e slot s|e slot payload s s' E]; [by apply Tick_ok|].
  apply bind_Ok in E as (s1 & E1 & [= <-]). apply Tick_ok. by eapply schedulePayload_ok.
Qed.

End ScheduleProofs.

(** *** The genesis state *)

Lemma genesisKeys_ok hashes : forall s s',
  genesisKeys hashes s = Ok s' ->
  dom (activeDelegations s) = allowedDelegators s ->
  (forall a d, activeDelegations s !! a = Some d -> d = a) -> scheduledDelegations s = [] ->
  dom (activeDelegations s') = allowedDelegators s' /\
  (forall a d, activeDelegations s' !! a = Some d -> d = a) /\ scheduledDelegations s' = [] /\
  allowedDelegators s ⊆ allowedDelegators s' /\ (forall h, h ∈ hashes -> h ∈ allowedDelegators s').
Proof.
  induction hashes as [|h hashes IH]; intros s s'; cbn [genesisKeys].
  - intros [= <-] ???. split_and!; try done. by intros ? ?%elem_of_nil.
  - destruct (negb (blen h =? 28)); [done|]. case_bool_decide; [done|].
    intros E Hd Hi Hn. apply IH in E as (H1 & H2 & H3 & H4 & H5); simpl in *; try done.
    + split_and!; try done; [set_solver|]. intros x [->|Hx]%elem_of_cons; [set_solver|auto].
    + rewrite dom_insert_L. set_solver.
    + intros a d. rewrite lookup_insert_Some. intros [[<- <-]|[_ Ha]]; [done|auto].
Qed.

Lemma genesisDelegate_ok config hashes : forall s,
  delegations_ok s -> (forall h, h ∈ hashes -> h ∈ allowedDelegators s) ->
  delegations_ok (genesisDelegate config hashes s).
Proof.
  induction hashes as [|h hashes IH]; intros s Hs Hh; [done|]. cbn [genesisDelegate].
  destruct (GenesisDelegations config !! h) as [d|]; [|apply IH; [done|set_solver]].
  set (s1 := if _ || _ then _ else s).
  assert (Hs1 : delegations_ok s1 /\ allowedDelegators s1 = allowedDelegators s).
  { subst s1. destruct (_ || _); [|done]. destruct Hs. done. }
  destruct Hs1 as [Hs1 Ea]. apply IH.
  - apply activate_ok; [done|]. rewrite Ea. simpl. set_solver.
  - intros x Hx. rewrite activate_allowed, Ea. set_solver.
Qed.

Lemma NewPBFTDelegationState_ok config s :
  NewPBFTDelegationState config = Ok s -> delegations_ok s.
Proof.
  unfold NewPBFTDelegationState. destruct (SecurityParam config =? 0); [done|].
  destruct (blen _ =? 0); [done|]. intros (s0 & E1 & E2)%bind_Ok.
  destruct (existsb _ _); [done|]. injection E2 as <-.
  apply genesisKeys_ok in E1 as (H1 & H2 & H3 & _ & H5); simpl; try done.
  apply genesisDelegate_ok; [|done]. split; simpl; try done.
  - intros a b d Ha Hb. apply H2 in Ha. apply H2 in Hb. congruence.
  - intros d. rewrite H3. by intros ?%elem_of_nil.
  - rewrite H3. constructor.
Qed.

(** *** Resolution *)

Lemma resolveLoop_none (order : list (Hash * Hash)) del : forall found,
  (forall i, (i, del) ∈ order -> False) ->
  resolveLoop order del found = match found with None => Err ErrNotAuthorized | Some i => Ok i end.
Proof.
  induction order as [|[i d] order IH]; intros found Hn; [done|]. cbn [resolveLoop].
  rewrite bool_decide_false by (intros ->; eapply Hn; constructor). cbn [negb].
  apply IH. intros j Hj. apply (Hn j). by constructor.
Qed.

Lemma resolveLoop_some (order : list (Hash * Hash)) del i0 : forall found,
  (forall i, (i, del) ∈ order -> i = i0) ->
  (found = Some i0 \/ found = None /\ (i0, del) ∈ order) ->
  resolveLoop order del found = Ok i0.
Proof.
  induction order as [|[i d] order IH]; intros found Hu Hf.
  - destruct Hf as [->|[_ Hin%elem_of_nil]]; done.
  - cbn [resolveLoop]. assert (Hu' : forall j, (j, del) ∈ order -> j = i0)
      by (intros j Hj; apply Hu; by constructor).
    case_bool_decide as Ed; cbn [negb].
    + subst d. assert (i = i0) as -> by (apply Hu; constructor).
      destruct Hf as [->|[-> _]]; [rewrite bool_decide_true by done|]; apply IH; auto.
    + apply IH; [done|]. destruct Hf as [|[-> Hin]]; [by left|right; split; [done|]].
      apply elem_of_cons in Hin as [[= <- <-]|]; done.
Qed.

(** ** Properties *)

Section Theorems.
Context `{ByronCertificates}.

(** Every delegate speaks for one issuer. In every state the delegation
    ledger reaches from its genesis state, by blocks with any payload and by any
    passing of time, exactly the genesis keys have an active delegate, no two of
    them share one, and no issuer is scheduled twice for a slot. So the issuer
    charged for a header does not depend on the order in which the map is
    visited: a delegate resolves to an issuer exactly when it is that issuer's
    active delegate, and is refused as unauthorized otherwise, never as
    ambiguous. *)
Theorem delegate_resolution config s0 s order del gk :
  NewPBFTDelegationState config = Ok s0 -> rtc delegation_step s0 s ->
  order ≡ₚ map_to_list (activeDelegations s) ->
  delegations_ok s /\
  (forall i, resolveActivePBFTIssuer order del = Ok i <-> activeDelegations s !! i = Some del) /\
  ((forall i, activeDelegations s !! i <> Some del) ->
     resolveActivePBFTIssuer order del = Err ErrNotAuthorized) /\
  (forall i, activeDelegations s !! i = Some del ->
     ValidatePBFTHeader (Ok (mkIssuer gk del)) order = Ok (mkIssuer i del)).
Proof.
  intros HN Hr Hp.
  assert (Hok : delegations_ok s).
  { apply NewPBFTDelegationState_ok in HN. clear Hp. induction Hr as [|x y z Hxy _ IH]; [done|].
    apply IH. by eapply delegation_step_ok. }
  assert (Hin : forall i d, (i, d) ∈ order <-> activeDelegations s !! i = Some d)
    by (intros i d; rewrite Hp; apply elem_of_map_to_list).
  assert (Hres : forall i, activeDelegations s !! i = Some del -> resolveActivePBFTIssuer order del = Ok i).
  { intros i Hi. apply resolveLoop_some; [|right; split; [done|by apply Hin]].
    intros j Hj%Hin. by eapply (d_inj s Hok). }
  assert (Hno : (forall i, activeDelegations s !! i <> Some del) ->
     resolveActivePBFTIssuer order del = Err ErrNotAuthorized).
  { intros Hn. apply resolveLoop_none. intros i Hi%Hin. by apply (Hn i). }
  split_and!; try done.
  - intros i. split; [|apply Hres]. intros Ei.
    destruct (decide (Exists (fun '(_, d) => d = del) order)) as [Hex|Hn].
    + apply Exists_exists in Hex as ([j d] & Hj%Hin & ->). apply Hres in Hj as E'. congruence.
    + exfalso. rewrite Hno in Ei; [congruence|]. intros j Hj%Hin. apply Hn, Exists_exists. by exists (j, del).
  - intros i Hi. unfold ValidatePBFTHeader.
    destruct (Z.eqb_spec (blen order) 0) as [E%blen_0|].
    + apply Hin in Hi. rewrite E in Hi. by apply elem_of_nil in Hi.
    + simpl mbind. by rewrite (Hres i Hi).
Qed.

Lemma activateDue_later slot ds : forall s,
  (forall d, d ∈ ds -> slot < activationSlot d) -> activateDue slot ds s = s.
Proof.
  induction ds as [|d ds IH]; intros s Hd; [done|]. cbn [activateDue].
  destruct (Z.leb_spec (activationSlot d) slot); [|apply IH; intros; apply Hd; by constructor].
  assert (slot < activationSlot d) by (apply Hd; constructor). lia.
Qed.

Lemma activateDue_app slot ds1 ds2 : forall s,
  activateDue slot (ds1 ++ ds2) s = activateDue slot ds2 (activateDue slot ds1 s).
Proof. induction ds1 as [|d ds1 IH]; intros s; [done|]. apply IH. Qed.

(** The new entries of a payload. *)
Lemma schedulePayload_new e slot payload : forall s s',
  0 <= slot <= MaxUint64 -> 0 < dSecurityParam s -> schedulePayload e slot payload s = Ok s' ->
  exists new, scheduledDelegations s' = scheduledDelegations s ++ new /\ length new = length payload /\
    (forall d, d ∈ new -> activationSlot d = slot + 2 * dSecurityParam s /\ delegator d ∈ allowedDelegators s) /\
    activeDelegations s' = activeDelegations s /\ delegationSlots s' = delegationSlots s /\
    allowedDelegators s' = allowedDelegators s /\ dSecurityParam s' = dSecurityParam s.
Proof.
  induction payload as [|raw payload IH]; intros s s' Hslot Hk; cbn [schedulePayload].
  - intros [= <-]. exists []. rewrite app_nil_r. split_and!; try done. by intros ? ?%elem_of_nil.
  - intros (s1 & E1 & E2)%bind_Ok.
    apply scheduleCertificate_Ok in E1 as (cert & d & _ & _ & _ & Ea & Hall & _ & _ & _ & _ & Hk2 & Hs2 & _ & ->).
    apply IH in E2 as (new & En & El & Hnew & ? & ? & ? & ?); simpl in *; try done.
    exists (d :: new). rewrite En, <- app_assoc. split_and!; try done; [simpl; congruence|].
    intros x [->|Hx]%elem_of_cons; [|by apply Hnew]. split; [|done].
    unfold MaxUint64 in *. change (18446744073709551615 / 2) with 9223372036854775807 in Hk2.
    rewrite (u64_small (2 * _)) in * by (unfold MaxUint64; lia).
    rewrite u64_small in Hs2 by (unfold MaxUint64; lia). rewrite Ea. apply u64_small. unfold MaxUint64. lia.
Qed.

(** Activation looks only at the active delegations and their slots. *)
Lemma activateDue_same slot ds : forall s t,
  activeDelegations s = activeDelegations t -> delegationSlots s = delegationSlots t ->
  activeDelegations (activateDue slot ds s) = activeDelegations (activateDue slot ds t) /\
  delegationSlots (activateDue slot ds s) = delegationSlots (activateDue slot ds t).
Proof.
  induction ds as [|d ds IH]; intros s t E1 E2; [done|]. cbn [activateDue].
  destruct (activationSlot d <=? slot); [|by apply IH].
  unfold activate, delegateIsActiveForOther. rewrite E1, E2.
  destruct (_ || _); apply IH; simpl; congruence.
Qed.

Lemma activateDue_scheduled slot ds : forall s,
  scheduledDelegations (activateDue slot ds s) = scheduledDelegations s.
Proof.
  induction ds as [|d ds IH]; intros s; [done|]. cbn [activateDue].
  destruct (activationSlot d <=? slot); rewrite IH; [apply activate_scheduled|done].
Qed.

(** Delegations take effect after [2k] slots. When a block at a slot carries
    a payload of certificates that is accepted, every one of them is scheduled
    for exactly [2k] slots later, the sum not having wrapped, and none of them
    changes the active delegations in that block: these are what the passing of
    time alone would have made them, and the earlier schedule that is not yet
    due is kept in front of the new entries. *)
Theorem delegation_delay e slot payload s s' :
  0 <= slot <= MaxUint64 -> 0 < dSecurityParam s ->
  ApplyPayloadCbor e slot payload s = Ok s' ->
  exists new, length new = length payload /\
    (forall d, d ∈ new -> activationSlot d = slot + 2 * dSecurityParam s /\
       activationSlot d <= MaxUint64 /\ delegator d ∈ allowedDelegators s) /\
    scheduledDelegations s' =
      base.filter (fun d => slot < activationSlot d) (scheduledDelegations s) ++ new /\
    activeDelegations s' = activeDelegations (Tick e slot s) /\
    delegationSlots s' = delegationSlots (Tick e slot s).
Proof.
  intros Hslot Hk (s1 & E1 & [= <-])%bind_Ok.
  assert (Hmax : payload = [] \/ slot + 2 * dSecurityParam s <= MaxUint64).
  { destruct payload as [|raw payload]; [by left|right]. cbn [schedulePayload] in E1.
    apply bind_Ok in E1 as (s2 & E2 & _).
    apply scheduleCertificate_Ok in E2 as (? & ? & _ & _ & _ & _ & _ & _ & _ & _ & _ & Hk2 & Hs2 & _).
    unfold MaxUint64 in *. change (18446744073709551615 / 2) with 9223372036854775807 in Hk2.
    rewrite (u64_small (2 * _)) in * by (unfold MaxUint64; lia).
    rewrite u64_small in Hs2 by (unfold MaxUint64; lia). lia. }
  apply schedulePayload_new in E1 as (new & En & El & Hnew & Ea & Es & _); try done.
  assert (Hlater : forall d, d ∈ new -> slot < activationSlot d).
  { intros d Hd. destruct (Hnew d Hd) as [-> _]. lia. }
  exists new. split; [done|]. split; [|split].
  - intros d Hd. destruct (Hnew d Hd) as [E Hall]. split_and!; [done| |done]. rewrite E.
    destruct Hmax as [->|]; [|done]. by destruct new; [apply elem_of_nil in Hd|].
  - simpl. rewrite activateDue_scheduled, En, filter_app. f_equal. apply filter_all, Forall_forall.
    intros d Hd. by apply Hlater.
  - simpl. rewrite En, activateDue_app, (activateDue_later slot new) by done. by apply activateDue_same.
Qed.

End Theorems.

(** ** The signature window *)

Definition occurrences (i : Hash) (l : list Hash) : Z := blen (base.filter (fun h => h = i) l).

Lemma countIssuer_occurrences i (l : list Hash) : forall n,
  0 <= n -> n + blen l <= MaxUint64 -> countIssuer i l n = n + occurrences i l.
Proof.
  unfold occurrences. induction l as [|h l IH]; intros n H0 Hn; cbn [countIssuer].
  - change (blen (base.filter _ [])) with 0. lia.
  - rewrite blen_cons in Hn. pose proof (blen_nonneg l). rewrite filter_cons.
    destruct (decide (h = i)); [rewrite bool_decide_true by done|rewrite bool_decide_false by done].
    + rewrite u64_small, IH, blen_cons by lia. lia.
    + apply IH; lia.
Qed.

Lemma occurrences_app i l1 l2 : occurrences i (l1 ++ l2) = occurrences i l1 + occurrences i l2.
Proof. unfold occurrences. by rewrite filter_app, blen_app. Qed.

Lemma occurrences_drop i n l : occurrences i (drop n l) <= occurrences i l.
Proof.
  rewrite <- (take_drop n l) at 2. rewrite occurrences_app.
  pose proof (blen_nonneg (base.filter (fun h => h = i) (take n l))). unfold occurrences. lia.
Qed.

Lemma occurrences_le i l : occurrences i l <= blen l.
Proof. unfold occurrences, blen. pose proof (length_filter (fun h => h = i) l). lia. Qed.

(** The last [k] of a list. *)
Definition lastn {A} (k : Z) (l : list A) : list A := drop (length l - Z.to_nat k) l.

Definition pbft_wf (s : PBFTState) : Prop :=
  0 < securityParam s <= MaxUint64 /\ 0 <= thresholdNumerator s /\ 0 < thresholdDenominator s /\
  blen (signatureHistory s) <= securityParam s.

Lemma Observe_window i s :
  pbft_wf s ->
  Observe i s = Ok (mkPBFTState (lastn (securityParam s) (signatureHistory s ++ [i]))
                      (securityParam s) (thresholdNumerator s) (thresholdDenominator s)).
Proof.
  intros (Hk & _ & _ & Hl). unfold Observe.
  destruct (Z.eqb_spec (securityParam s) 0); [lia|].
  destruct (Z.ltb_spec (securityParam s) (blen (signatureHistory s))); [lia|].
  do 2 f_equal. unfold lastn. rewrite length_app. unfold blen in *. cbn [length].
  destruct (Z.leb_spec (securityParam s) (Z.of_nat (length (signatureHistory s)))).
  - replace (length (signatureHistory s) + 1 - Z.to_nat (securityParam s))%nat with 1%nat by lia.
    rewrite drop_app_le by lia. done.
  - replace (length (signatureHistory s) + 1 - Z.to_nat (securityParam s))%nat with 0%nat by lia. done.
Qed.

Lemma blen_lastn {A} k (l : list A) : 0 <= k -> blen (lastn k l) = Z.min k (blen l).
Proof. intros. unfold lastn, blen. rewrite length_drop. lia. Qed.

(** [Transition] on a well-formed state. *)
Lemma Transition_window i s :
  pbft_wf s ->
  let w := lastn (securityParam s) (signatureHistory s ++ [i]) in
  Transition i s =
  if securityParam s * thresholdNumerator s / thresholdDenominator s <? occurrences i w
  then Err ErrThresholdExceeded
  else Ok (mkPBFTState w (securityParam s) (thresholdNumerator s) (thresholdDenominator s)).
Proof.
  intros Hw w. pose proof Hw as (Hk & Hn & Hd & Hl). unfold Transition. rewrite Observe_window by done.
  simpl mbind. fold w. assert (Hwl : blen w <= securityParam s) by (subst w; rewrite blen_lastn by lia; lia).
  rewrite countIssuer_occurrences by lia. unfold pbftMaxSignatures, mul64.
  rewrite sat_div64 by nia. pose proof (occurrences_le i w).
  set (q := securityParam s * thresholdNumerator s / thresholdDenominator s).
  destruct (Z.ltb_spec (Z.min MaxUint64 q) (0 + occurrences i w)), (Z.ltb_spec q (occurrences i w)); try done; lia.
Qed.

(** The headers of a chain, one after the other. *)
Fixpoint run (issuers : list Hash) (s : PBFTState) : result pbftError PBFTState :=
  match issuers with
  | [] => Ok s
  | i :: issuers => s ← Transition i s; run issuers s
  end.

Lemma lastn_lastn {A} k (l l' : list A) : 0 <= k -> lastn k (lastn k l ++ l') = lastn k (l ++ l').
Proof.
  intros. unfold lastn. rewrite !length_app, length_drop.
  assert (E : l ++ l' = take (length l - Z.to_nat k) l ++ (drop (length l - Z.to_nat k) l ++ l'))
    by by rewrite app_assoc, take_drop.
  rewrite E. clear E. set (a := take _ l). assert (Ha : length a = (length l - Z.to_nat k)%nat) by (subst a; rewrite length_take; lia).
  replace (length l + length l' - Z.to_nat k)%nat
    with (length a + (length l - (length l - Z.to_nat k) + length l' - Z.to_nat k))%nat by lia.
  rewrite <- drop_drop, drop_app_length. done.
Qed.

Lemma lastn_small {A} k (l : list A) : blen l <= k -> lastn k l = l.
Proof. unfold lastn, blen. intros. by replace (length l - Z.to_nat k)%nat with 0%nat by lia. Qed.

(** No issuer's share of the window grows but the one that signs, which is checked. *)
Lemma occurrences_window i j k (l : list Hash) :
  i <> j -> 0 <= k -> occurrences i (lastn k (l ++ [j])) <= occurrences i l.
Proof.
  intros Hne Hk. unfold lastn. etrans; [apply occurrences_drop|].
  rewrite occurrences_app. unfold occurrences at 2. rewrite filter_cons, decide_False by done.
  change (blen (base.filter _ [])) with 0. lia.
Qed.

Lemma run_window issuers : forall s s',
  pbft_wf s -> run issuers s = Ok s' ->
  (forall i, occurrences i (signatureHistory s) <= securityParam s * thresholdNumerator s / thresholdDenominator s) ->
  pbft_wf s' /\ securityParam s' = securityParam s /\ thresholdNumerator s' = thresholdNumerator s /\
  thresholdDenominator s' = thresholdDenominator s /\
  signatureHistory s' = lastn (securityParam s) (signatureHistory s ++ issuers) /\
  (forall i, occurrences i (signatureHistory s') <= securityParam s * thresholdNumerator s / thresholdDenominator s).
Proof.
  induction issuers as [|j issuers IH]; intros s s' Hw; cbn [run].
  - intros [= <-] Hq. rewrite app_nil_r. split_and!; try done. symmetry. apply lastn_small. apply Hw.
  - intros (s1 & E1 & E2)%bind_Ok Hq. pose proof Hw as (Hk & Hn & Hd & Hl).
    rewrite Transition_window in E1 by done. cbn zeta in E1.
    destruct (Z.ltb_spec (securityParam s * thresholdNumerator s / thresholdDenominator s)
                (occurrences j (lastn (securityParam s) (signatureHistory s ++ [j])))) as [|Hj]; [done|].
    injection E1 as <-. apply IH in E2 as (H1 & H2 & H3 & H4 & H5 & H6);
      cbn [signatureHistory securityParam thresholdNumerator thresholdDenominator] in *.
    + split_and!; try done. rewrite H5, lastn_lastn, <- app_assoc by lia. done.
    + split; [done|]. split; [done|]. split; [done|]. cbn [signatureHistory securityParam].
      rewrite blen_lastn by lia. lia.
    + intros i. destruct (decide (i = j)) as [->|]; [done|].
      etrans; [by apply occurrences_window; [|lia]|apply Hq].
Qed.

(** The SIGCNT rule. From an empty history, along every chain of accepted
    headers, the state is the last [k] issuers in order, no issuer has signed
    more than [floor(k * threshold)] of them, and the next header is accepted
    exactly when its issuer stays within that bound in the window it would end;
    the 128-bit product never wraps. *)
Theorem sigcnt_rule k num den s0 issuers s i :
  0 <= k <= MaxUint64 -> 0 <= num <= MaxUint64 -> 0 <= den <= MaxUint64 ->
  NewPBFTStateWithThreshold [] k num den = Ok s0 -> run issuers s0 = Ok s ->
  signatureHistory s = lastn k issuers /\
  (forall j, occurrences j (lastn k issuers) <= k * num / den) /\
  (is_ok (Transition i s) = true <-> occurrences i (lastn k (issuers ++ [i])) <= k * num / den).
Proof.
  intros Hk Hn Hd HN Hr. unfold NewPBFTStateWithThreshold in HN.
  destruct (Z.eqb_spec k 0); [done|]. destruct (Z.eqb_spec den 0); [done|].
  destruct (Z.ltb_spec k (blen (@nil Hash))) as [|Hb]; [done|]. injection HN as <-.
  apply run_window in Hr as (Hw & E1 & E2 & E3 & E4 & Hq);
    cbn [signatureHistory securityParam thresholdNumerator thresholdDenominator app] in *.
  - rewrite E4 in Hq. split_and!; try done. rewrite Transition_window by done. cbn zeta.
    rewrite E1, E2, E3, E4, lastn_lastn by lia.
    destruct (Z.ltb_spec (k * num / den) (occurrences i (lastn k (issuers ++ [i])))); cbn; split; (done || lia).
  - unfold pbft_wf. cbn [signatureHistory securityParam thresholdNumerator thresholdDenominator]. lia.
  - intros j. change (occurrences j []) with 0. apply Z.div_pos; nia.
Qed.

(** ** Fees and slots *)

(** The Byron minimum fee. For every size and every policy in range, the fee
    computed in 128 bits is [ceil((summand + multiplier * size) / 10^9)],
    saturated at the largest [uint64], and 0 for a policy with a negative
    field. *)
Theorem byron_min_fee p size :
  0 <= size <= MaxUint64 -> Summand p <= MaxInt -> Multiplier p <= MaxInt ->
  CalculateMinFee p size =
  if (Summand p <? 0) || (Multiplier p <? 0) then 0
  else Z.min MaxUint64 ((Summand p + Multiplier p * size + 999999999) / 1000000000).
Proof.
  intros Hsz HS HM. unfold CalculateMinFee, ByronFeeDivisor, mul64, add64.
  destruct ((Summand p =? 0) && (Multiplier p =? 0)) eqn:E0.
  { apply andb_prop in E0 as [->%Z.eqb_eq ->%Z.eqb_eq]. done. }
  destruct (Z.ltb_spec (Summand p) 0); [done|]. destruct (Z.ltb_spec (Multiplier p) 0); [done|].
  cbn [orb]. rewrite Z.add_0_r. clear E0.
  set (m := Multiplier p * size). set (x := m + Summand p).
  assert (Hm : 0 <= m < 170141183460469231722463931679029329920) by (subst m; unfold MaxUint64, MaxInt in *; nia).
  assert (Hc : m / 18446744073709551616 + (u64 m + Summand p) / 18446744073709551616
               = x / 18446744073709551616).
  { subst x. rewrite <- (hi_lo m) at 3.
    rewrite <- Z.add_assoc, Z.div_add_l by lia. lia. }
  assert (Hl : u64 (u64 m + Summand p) = u64 x).
  { subst x. unfold u64. by rewrite Zplus_mod_idemp_l. }
  assert (Hx : 0 <= x / 18446744073709551616 < 18446744073709551616).
  { split; [apply Z.div_pos; lia|apply Z.div_lt_upper_bound; unfold MaxInt in *; lia]. }
  rewrite Hc, Hl, (u64_small (x / _)) by (unfold MaxUint64; lia).
  unfold div64. rewrite hi_lo.
  replace (Summand p + m + 999999999) with (x + 999999999) by lia.
  pose proof (sat_div64 x 1000000000 ltac:(lia) ltac:(lia)) as Hsat. unfold div64 in Hsat.
  rewrite hi_lo in Hsat. cbn [fst] in Hsat.
  pose proof (Z.div_mod x 1000000000 ltac:(lia)). pose proof (Z.mod_pos_bound x 1000000000 ltac:(lia)).
  pose proof (Z.div_mod (x + 999999999) 1000000000 ltac:(lia)).
  pose proof (Z.mod_pos_bound (x + 999999999) 1000000000 ltac:(lia)).
  destruct (Z.leb_spec 1000000000 (x / 18446744073709551616)); [lia|].
  assert (Hq : 0 <= x / 1000000000 <= MaxUint64) by (split; [apply Z.div_pos; lia|lia]).
  destruct (Z.eqb_spec (x mod 1000000000) 0), (Z.ltb_spec (x / 1000000000) MaxUint64); cbn [negb andb];
    rewrite ?u64_small; lia.
Qed.

(** Slot arithmetic. With a positive epoch length, the slot of an epoch and
    an offset is their exact combination or the overflow error; a slot within
    its epoch converts back to that epoch; and the boundary slots are exactly
    the first slots of epochs. *)
Theorem byron_slot_arithmetic c epoch offset slot :
  0 < SlotsPerEpoch c <= MaxUint64 -> 0 <= epoch <= MaxUint64 -> 0 <= offset <= MaxUint64 ->
  0 <= slot <= MaxUint64 ->
  let abs := epoch * SlotsPerEpoch c + offset in
  (SlotNumberFromEpochAndSlot epoch offset (SlotsPerEpoch c) =
     if abs <=? MaxUint64 then Ok abs else Err ErrByronSlotNumberOverflow) /\
  (offset < SlotsPerEpoch c -> SlotToEpoch c abs = epoch) /\
  EpochFirstSlot c (SlotToEpoch c slot) <= slot < EpochFirstSlot c (SlotToEpoch c slot) + SlotsPerEpoch c /\
  (IsEpochBoundarySlot c slot = true <-> slot = EpochFirstSlot c (SlotToEpoch c slot)).
Proof.
  intros Hs He Ho Hsl abs.
  assert (HN : forall e o, 0 <= e <= MaxUint64 -> 0 <= o <= MaxUint64 ->
    SlotNumberFromEpochAndSlot e o (SlotsPerEpoch c) =
    if e * SlotsPerEpoch c + o <=? MaxUint64 then Ok (e * SlotsPerEpoch c + o) else Err ErrByronSlotNumberOverflow).
  { intros e o He' Ho'. unfold SlotNumberFromEpochAndSlot, mul64, add64.
    destruct (Z.eqb_spec (SlotsPerEpoch c) 0); [lia|]. rewrite Z.add_0_r.
    set (m := e * SlotsPerEpoch c). assert (0 <= m) by nia.
    pose proof (hi_lo m). pose proof (u64_range m). unfold MaxUint64 in *.
    assert (0 <= m / 18446744073709551616) by (apply Z.div_pos; lia).
    destruct (Z.eqb_spec (m / 18446744073709551616) 0) as [E|]; cbn [negb].
    - assert (Em : u64 m = m) by lia. rewrite Em in *. pose proof (hi_lo (m + o)). pose proof (u64_range (m + o)).
      unfold MaxUint64 in *.
      destruct (Z.eqb_spec ((m + o) / 18446744073709551616) 0), (Z.leb_spec (m + o) 18446744073709551615);
        cbn [negb]; try done; [f_equal; lia|lia|].
      exfalso. assert (0 <= (m + o) / 18446744073709551616) by (apply Z.div_pos; lia). lia.
    - destruct (Z.leb_spec (m + o) 18446744073709551615); [lia|done]. }
  assert (HF : EpochFirstSlot c (SlotToEpoch c slot) = slot - slot mod SlotsPerEpoch c).
  { unfold EpochFirstSlot, EpochFirstSlotChecked, SlotToEpoch.
    destruct (Z.eqb_spec (SlotsPerEpoch c) 0); [lia|].
    pose proof (Z.div_mod slot (SlotsPerEpoch c) ltac:(lia)).
    pose proof (Z.mod_pos_bound slot (SlotsPerEpoch c) ltac:(lia)).
    assert (0 <= slot / SlotsPerEpoch c <= MaxUint64)
      by (split; [apply Z.div_pos; lia|apply Z.div_le_upper_bound; nia]).
    rewrite HN by (unfold MaxUint64 in *; lia).
    destruct (Z.leb_spec (slot / SlotsPerEpoch c * SlotsPerEpoch c + 0) MaxUint64); lia. }
  pose proof (Z.mod_pos_bound slot (SlotsPerEpoch c) ltac:(lia)) as Hmod.
  split_and!; rewrite ?HF; try lia; [by apply HN| |].
  - intros Hlt. unfold SlotToEpoch. destruct (Z.eqb_spec (SlotsPerEpoch c) 0); [lia|].
    subst abs. rewrite Z.div_add_l, Z.div_small by lia. lia.
  - unfold IsEpochBoundarySlot. destruct (Z.eqb_spec (SlotsPerEpoch c) 0); [lia|]. rewrite Z.eqb_eq. lia.
Qed.

(** ** Witnesses *)

(** A toy codec: three bytes name the epoch and the two keys. *)
#[local] Instance toyCertificates : ByronCertificates := {
  ParseDelegationCertificate raw :=
    match raw with
    | [e; i; d] => Some (mkCert e (replicate 64 i) (replicate 64 d), raw)
    | _ => None
    end;
  verifyCertificate _ _ := true;
  keyHash vk := take 28 vk
}.

Definition exHash (n : Z) : Hash := replicate 28 n.
Definition exConfig : ByronConfig :=
  mkByronConfig 764824073 20 2 [exHash 1; exHash 2] {[exHash 1 := exHash 9]} ∅ 0 0 (mkFeePolicy 0 0).

Definition exState : PBFTDelegationState :=
  match NewPBFTDelegationState exConfig with Ok s => s
  | Err _ => mkDelegationState ∅ ∅ [] ∅ ∅ 0 0 end.

(** A block at slot 5 delegates key 2 to key 7; at slot 9 it takes effect. *)
Definition exScheduled : PBFTDelegationState :=
  match ApplyPayloadCbor 0 5 [[0; 2; 7]] exState with Ok s => s | Err _ => exState end.

(** An instance: key 7 resolves to the genesis key 2. *)
Lemma delegate_resolution_witness :
  resolveActivePBFTIssuer (map_to_list (activeDelegations (Tick 0 9 exScheduled))) (exHash 7) = Ok (exHash 2).
Proof.
  destruct (delegate_resolution exConfig exState (Tick 0 9 exScheduled)
    (map_to_list (activeDelegations (Tick 0 9 exScheduled))) (exHash 7) []) as (_ & H & _).
  - vm_compute. reflexivity.
  - eapply rtc_l; [apply (D_apply 0 5 [[0; 2; 7]]); vm_compute; reflexivity|].
    apply rtc_once. apply D_tick.
  - reflexivity.
  - apply H. vm_compute. reflexivity.
Defined.

(** An instance: one certificate, activated four slots later. *)
Lemma delegation_delay_witness :
  exists new, length new = 1%nat /\ forall d, d ∈ new -> activationSlot d = 9.
Proof.
  destruct (delegation_delay 0 5 [[0; 2; 7]] exState exScheduled) as (new & Hl & Hd & _).
  - unfold MaxUint64. lia.
  - vm_compute. reflexivity.
  - vm_compute. reflexivity.
  - exists new. split; [exact Hl|]. intros d Hin. destruct (Hd d Hin) as [-> _]. vm_compute. reflexivity.
Defined.

(** An instance: a window of 10 and a threshold of 22/100, where a third
    signature of one issuer is refused. *)
Lemma sigcnt_rule_witness :
  is_ok (Transition (exHash 1) (mkPBFTState [exHash 1; exHash 2; exHash 1] 10 22 100)) = false.
Proof.
  destruct (sigcnt_rule 10 22 100 (mkPBFTState [] 10 22 100) [exHash 1; exHash 2; exHash 1]
    (mkPBFTState [exHash 1; exHash 2; exHash 1] 10 22 100) (exHash 1)) as (_ & _ & H).
  1-3: unfold MaxUint64; lia.
  1-2: vm_compute; reflexivity.
  destruct (is_ok _); [|reflexivity]. destruct (proj1 H eq_refl). vm_compute. reflexivity.
Defined.

(** An instance: the mainnet policy. *)
Lemma byron_min_fee_witness :
  CalculateMinFee (mkFeePolicy 155381000000000 43946000000) 200 = 164171.
Proof.
  rewrite (byron_min_fee (mkFeePolicy 155381000000000 43946000000) 200);
    [vm_compute; reflexivity|unfold MaxUint64; lia|unfold MaxInt; simpl; lia|unfold MaxInt; simpl; lia].
Defined.

(** An instance: epochs of 20 slots. *)
Lemma byron_slot_arithmetic_witness : SlotToEpoch exConfig 67 = 3.
Proof.
  destruct (byron_slot_arithmetic exConfig 3 7 0) as (_ & H & _).
  1-4: unfold MaxUint64; simpl; lia.
  apply H. simpl. lia.
Defined.
