(* ===== verification/Pipeline.v ===== *)
(** * Ordered application of blocks (src/pipeline/apply_stage.go)

    The apply stage with its reorder buffer, and the runner that feeds it. The
    consumer's callbacks act on a state [W] of the consumer's; a panic inside a
    callback has become its error. Cancellation of the context is an oracle over
    the points where the code looks at it. *)

From S2P Require Import Prelude.

Record BlockItem := mkItem {
  sequenceNumber : Z;
  decodeError : bool;
  validationError : bool;
  isValid : bool
}.

Inductive applyError :=
| ErrContext | ErrPendingLimitExceeded | ErrDecode | ErrValidation | ErrBlockNotValidated
| ErrMissingChainContextValidator | ErrChainContextValidation | ErrOrderedValidation | ErrBlockApply
| ErrProcessedFunc | ErrOutOfFuel.

(** [errors.Is(err, ErrPipelineItemRejected)], [ErrPendingLimitExceeded] or [ErrStagePanic]. *)
Definition isFatal (e : applyError) : bool :=
  match e with ErrContext => false | _ => true end.

Section Pipeline.
Context {W : Type}.

(** The configuration of a stage and its callbacks. *)
Record ApplyConfig := mkConfig {
  applyFunc : option (W -> BlockItem -> W * bool);           (* true: success *)
  chainContextValidator : option (W -> BlockItem -> bool);   (* true: accepted *)
  orderedValidator : option (W -> BlockItem -> bool);
  trustedDecodeOnly : bool;
  headerOnly : bool;
  requireValidation : bool;
  maxPending : Z
}.

(** The stage. [world] is the consumer's state, [applied] the items that
    [ApplyFunc] has committed, [checks] how often the context was looked at. *)
Record ApplyStage := mkStage {
  pending : gmap Z BlockItem;
  nextSequence : Z;
  world : W;
  applied : list BlockItem;
  checks : nat
}.

Context (cfg : ApplyConfig) (cancelled : nat -> bool).

Definition NewApplyStage (w : W) : ApplyStage := mkStage ∅ 0 w [] 0.

(** [select { case <-ctx.Done(): ... default: }] *)
Definition ctxDone (s : ApplyStage) : bool * ApplyStage :=
  (cancelled (checks s), mkStage (pending s) (nextSequence s) (world s) (applied s) (S (checks s))).

Definition applyItem (s : ApplyStage) (item : BlockItem) : ApplyStage * option applyError :=
  let '(done, s) := ctxDone s in
  if done then (s, Some ErrContext) else
  match applyFunc cfg with
  | None => (mkStage (pending s) (nextSequence s) (world s) (applied s ++ [item]) (checks s), None)
  | Some f =>
    let '(w, ok) := f (world s) item in
    if ok then (mkStage (pending s) (nextSequence s) w (applied s ++ [item]) (checks s), None)
    else (mkStage (pending s) (nextSequence s) w (applied s) (checks s), Some ErrBlockApply)
  end.

Definition maybeApply (s : ApplyStage) (item : BlockItem) : ApplyStage * option applyError :=
  if decodeError item then (s, if trustedDecodeOnly cfg then None else Some ErrDecode)
  else if validationError item then (s, Some ErrValidation)
  else if requireValidation cfg && negb (isValid item) then (s, Some ErrBlockNotValidated)
  else if trustedDecodeOnly cfg || headerOnly cfg then (s, None)
  else match chainContextValidator cfg with
  | None => (s, Some ErrMissingChainContextValidator)
  | Some validate =>
    if negb (validate (world s) item) then (s, Some ErrChainContextValidation)
    else match orderedValidator cfg with
    | Some validate' =>
      if negb (validate' (world s) item) then (s, Some ErrOrderedValidation) else applyItem s item
    | None => applyItem s item
    end
  end.

(** [applyPending]: the items processed and the error. Every turn takes an item
    out of the buffer. *)
Fixpoint applyPending (fuel : nat) (s : ApplyStage) (processed : list BlockItem)
    : ApplyStage * list BlockItem * option applyError :=
  match fuel with
  | O => (s, processed, Some ErrOutOfFuel)
  | S fuel =>
    let '(done, s) := ctxDone s in
    if done then (s, processed, Some ErrContext) else
    match pending s !! nextSequence s with
    | None => (s, processed, None)
    | Some item =>
      let s := mkStage (delete (nextSequence s) (pending s)) (u64 (nextSequence s + 1))
                 (world s) (applied s) (checks s) in
      let '(s, err) := maybeApply s item in
      match err with
      | Some e => (s, processed, Some e)
      | None => applyPending fuel s (processed ++ [item])
      end
    end
  end.

Definition processWithStatus (s : ApplyStage) (item : BlockItem)
    : ApplyStage * list BlockItem * option applyError :=
  let '(done, s) := ctxDone s in
  if done then (s, [], Some ErrContext)
  else if sequenceNumber item =? nextSequence s then
    let s := mkStage (pending s) (u64 (nextSequence s + 1)) (world s) (applied s) (checks s) in
    let '(s, err) := maybeApply s item in
    match err with
    | Some e => (s, [], Some e)
    | None =>
      let '(s, buffered, err) := applyPending (S (size (pending s))) s [] in
      (s, item :: buffered, err)
    end
  else if (0 <? maxPending cfg) && (maxPending cfg <=? Z.of_nat (size (pending s)))
  then (s, [], Some ErrPendingLimitExceeded)
  else (mkStage (<[sequenceNumber item := item]> (pending s)) (nextSequence s) (world s)
          (applied s) (checks s), [], None).

(** [accountProcessed]: the completion boundary given to [processedFunc], which
    answers [false] where it panicked. *)
Definition accountProcessed (processedFunc : Z -> bool) (processed : list BlockItem) : option applyError :=
  match last processed with
  | None => None
  | Some item => if processedFunc (u64 (sequenceNumber item + 1)) then None else Some ErrProcessedFunc
  end.

(** [forwardProcessed]: each item goes out when the channel has room
    ([room], by the number of the attempt) or the context still lives. *)
Fixpoint forwardProcessed (room : nat -> bool) (s : ApplyStage) (processed output : list BlockItem)
    : ApplyStage * list BlockItem :=
  match processed with
  | [] => (s, output)
  | item :: processed =>
    let '(done, s') := ctxDone s in
    if room (checks s) || negb done then forwardProcessed room s' processed (output ++ [item])
    else (s', output)
  end.

(** [ApplyStageRunner.run] on the items that arrive: the stage, the items sent to
    the output and the fatal error that ended the run, if one did. [choice]
    resolves a [select] in which both branches are ready. *)
Fixpoint run (processedFunc : Z -> bool) (room choice : nat -> bool) (input : list BlockItem)
    (s : ApplyStage) (output : list BlockItem) : ApplyStage * list BlockItem * option applyError :=
  match input with
  | [] => (s, output, None)
  | item :: input =>
    let '(done, s') := ctxDone s in
    if done && choice (checks s) then (s', output, None) else
    let '(s, processed, processErr) := processWithStatus s' item in
    match accountProcessed processedFunc processed with
    | Some e => (s, output ++ processed, Some e)
    | None =>
      match processErr with
      | Some e =>
        if isFatal e then (s, output ++ processed, Some e) else
        let '(s, output) := forwardProcessed room s processed output in
        let '(done, s') := ctxDone s in
        if done && choice (checks s) then (s', output, None)
        else run processedFunc room choice input s' output
      | None =>
        let '(s, output) := forwardProcessed room s processed output in
        run processedFunc room choice input s output
      end
    end
  end.

End Pipeline.

(** ** Invariants *)

Section Proofs.
Context {W : Type} (cfg : @ApplyConfig W) (cancelled : nat -> bool).
Hypothesis cancelled_mono : forall n m, (n <= m)%nat -> cancelled n = true -> cancelled m = true.
#[local] Set Default Proof Using "All".

Abbreviation process := (processWithStatus cfg cancelled).

(** Whether accepted items go to [ApplyFunc]. *)
Definition skips : bool := trustedDecodeOnly cfg || headerOnly cfg.

(** What an item has passed when it is accepted. *)
Definition acceptable (i : BlockItem) : Prop :=
  (decodeError i = false \/ trustedDecodeOnly cfg = true) /\
  (decodeError i = false -> validationError i = false /\ (requireValidation cfg = true -> isValid i = true)).

(** The items accepted so far: numbered from 0 without a gap, applied in that
    order. *)
Record accepted_ok (A : list BlockItem) (s : @ApplyStage W) : Prop := {
  a_seq : sequenceNumber <$> A = seqZ 0 (blen A);
  a_applied : applied s = if skips then [] else A;
  a_acc : Forall acceptable A
}.

(** Every item seen is accepted or waits under its number, at or after the next. *)
Record buffer_ok (A seen : list BlockItem) (s : @ApplyStage W) : Prop := {
  b_next : nextSequence s = blen A;
  b_pend k i : pending s !! k = Some i -> sequenceNumber i = k /\ i ∈ seen /\ blen A <= k;
  b_seen i : i ∈ seen -> i ∈ A \/ pending s !! sequenceNumber i = Some i;
  b_sub i : i ∈ A -> i ∈ seen
}.

Definition dead (s : @ApplyStage W) : Prop := cancelled (checks s) = true.

(** What a processing step leaves. *)
Definition post (A seen : list BlockItem) (s : @ApplyStage W) (err : option applyError) : Prop :=
  accepted_ok A s /\ (forall i, i ∈ A -> i ∈ seen) /\
  match err with
  | None => buffer_ok A seen s /\ pending s !! nextSequence s = None
  | Some ErrContext => dead s
  | Some ErrOutOfFuel => False
  | Some _ => True
  end.

Lemma dead_tick s : dead s -> dead (snd (ctxDone cancelled s)).
Proof. unfold dead. simpl. apply cancelled_mono. lia. Qed.

Lemma accepted_snoc A s i n c p :
  accepted_ok A s -> sequenceNumber i = blen A -> acceptable i ->
  accepted_ok (A ++ [i]) (mkStage p n (world s) (if skips then applied s else applied s ++ [i]) c).
Proof.
  intros [H1 H2 H3] Hi Ha. split; simpl.
  - rewrite fmap_app, H1, blen_app. change (blen [i]) with 1.
    rewrite seqZ_app by (pose proof (blen_nonneg A); lia). simpl. by rewrite Hi.
  - rewrite H2. by destruct skips.
  - by apply Forall_app_2, Forall_singleton.
Qed.

(** What one item in turn leaves. *)
Definition turn_post (A : list BlockItem) (i : BlockItem) (s' : @ApplyStage W) (err : option applyError) : Prop :=
  match err with
  | None => accepted_ok (A ++ [i]) s'
  | Some ErrContext => accepted_ok A s' /\ dead s'
  | Some ErrOutOfFuel => False
  | Some _ => accepted_ok A s'
  end.

(** One item in turn. *)
Lemma maybeApply_spec A s i s' err :
  accepted_ok A s -> sequenceNumber i = blen A -> maybeApply cfg cancelled s i = (s', err) ->
  pending s' = pending s /\ nextSequence s' = nextSequence s /\
  turn_post A i s' err.
Proof.
  intros HA Hi. unfold maybeApply, turn_post.
  destruct (decodeError i) eqn:Ed.
  { destruct (trustedDecodeOnly cfg) eqn:Et; intros [= <- <-]; split_and!; try done.
    destruct HA as [H1 H2 H3]. split; simpl.
    - by apply (a_seq _ _ (accepted_snoc A s i 0 0 ∅ ltac:(by split) Hi ltac:(split; [by right|congruence]))).
    - rewrite H2. unfold skips. by rewrite Et.
    - apply Forall_app_2; [done|]. apply Forall_singleton. split; [by right|congruence]. }
  destruct (validationError i) eqn:Ev; [by intros [= <- <-]|].
  destruct (requireValidation cfg && negb (isValid i)) eqn:Er; [by intros [= <- <-]|].
  assert (Hacc : acceptable i).
  { split; [by left|]. intros _. split; [done|]. intros Hr. rewrite Hr in Er. by destruct (isValid i). }
  destruct (trustedDecodeOnly cfg || headerOnly cfg) eqn:Es.
  { intros [= <- <-]. split_and!; try done. pose proof (accepted_snoc A s i 0 0 ∅ HA Hi Hacc) as [G1 G2 G3].
    split; try done. simpl in G2. unfold skips in *. rewrite Es in *. done. }
  destruct (chainContextValidator cfg) as [v|]; [|by intros [= <- <-]].
  destruct (negb (v (world s) i)); [by intros [= <- <-]|].
  assert (Hitem : applyItem cfg cancelled s i = (s', err) ->
    pending s' = pending s /\ nextSequence s' = nextSequence s /\
    turn_post A i s' err).
  { unfold applyItem, turn_post. cbn [ctxDone]. destruct (cancelled (checks s)) eqn:Ec.
    - intros [= <- <-]. destruct HA. split_and!; try done. unfold dead. simpl. eapply cancelled_mono; [|done]. lia.
    - pose proof (accepted_snoc A s i 0 0 ∅ HA Hi Hacc) as [G1 G2 G3].
      unfold skips in G2. rewrite Es in G2. simpl in G2.
      assert (Hsk : skips = false) by done.
      destruct (applyFunc cfg) as [f|].
      + simpl. destruct (f (world s) i) as [w []]; intros [= <- <-].
        * split_and!; try done. split; try done. simpl. by rewrite Hsk.
        * destruct HA. done.
      + intros [= <- <-]. split_and!; try done. split; try done. simpl. by rewrite Hsk. }
  destruct (orderedValidator cfg) as [v'|]; [|done].
  destruct (negb (v' (world s) i)); [by intros [= <- <-]|done].
Qed.

Lemma maybeApply_pending s i s' err : maybeApply cfg cancelled s i = (s', err) -> pending s' = pending s.
Proof.
  unfold maybeApply, applyItem. cbn [ctxDone].
  repeat (case_match; simplify_eq; try done); by intros [= <- <-].
Qed.

(** The buffer once its next item is out and accepted. *)
Lemma buffer_next A seen s i s' :
  buffer_ok A seen s -> pending s !! nextSequence s = Some i -> nextSequence s < MaxUint64 ->
  pending s' = delete (nextSequence s) (pending s) -> nextSequence s' = u64 (nextSequence s + 1) ->
  buffer_ok (A ++ [i]) seen s'.
Proof.
  intros [H1 H2 H3 H4] Hp Hm Ep En. destruct (H2 _ _ Hp) as (Hi & Hin & _).
  pose proof (blen_nonneg A). rewrite H1 in *.
  split; rewrite ?Ep, ?En, ?blen_app; change (blen [i]) with 1.
  - rewrite u64_small; lia.
  - intros k j [Hne Hk]%lookup_delete_Some. destruct (H2 _ _ Hk) as (? & ? & ?). split_and!; try done. lia.
  - intros j Hj. destruct (H3 j Hj) as [|Hk]; [left; set_solver|].
    destruct (decide (sequenceNumber j = blen A)) as [E|].
    + left. assert (j = i) as -> by congruence. set_solver.
    + right. by rewrite lookup_delete_ne.
  - intros j [Hj|Hj]%elem_of_app; [auto|]. by apply list_elem_of_singleton in Hj as ->.
Qed.

Lemma applyPending_spec seen fuel : forall A s processed s' out err,
  (forall i, i ∈ seen -> sequenceNumber i < MaxUint64) ->
  accepted_ok A s -> buffer_ok A seen s -> (size (pending s) < fuel)%nat ->
  applyPending cfg cancelled fuel s processed = (s', out, err) ->
  exists new, out = processed ++ new /\ post (A ++ new) seen s' err.
Proof.
  induction fuel as [|fuel IH]; intros A s processed s' out err Hm HA HB Hf; [lia|].
  cbn [applyPending ctxDone]. destruct (cancelled (checks s)) eqn:Ec.
  { intros [= <- <- <-]. exists []. rewrite !app_nil_r. split; [done|]. destruct HA. split; [done|].
    split; [apply HB|]. unfold dead. simpl. eapply cancelled_mono; [|done]. lia. }
  cbn [pending nextSequence world applied checks].
  destruct (pending s !! nextSequence s) as [i|] eqn:Ep.
  2:{ intros [= <- <- <-]. exists []. rewrite !app_nil_r. split; [done|]. destruct HA, HB. done. }
  destruct (b_pend _ _ _ HB _ _ Ep) as (Hi & Hin & _). pose proof (b_next _ _ _ HB) as Hn.
  match goal with |- context [maybeApply cfg cancelled ?s1 i] => set (t := s1) end.
  assert (HAt : accepted_ok A t) by (destruct HA; done).
  destruct (maybeApply cfg cancelled t i) as [s2 e] eqn:Em.
  apply (maybeApply_spec A) in Em as (E1 & E2 & Hpost); [|done|congruence].
  assert (HB2 : buffer_ok (A ++ [i]) seen s2).
  { eapply buffer_next; try done. rewrite <- Hi. by apply Hm. }
  destruct e as [e|].
  - intros [= <- <- <-]. exists []. rewrite !app_nil_r. split; [done|].
    destruct e; try done; (split; [apply Hpost || done|split; [apply HB|done || apply Hpost]]).
  - intros E. apply (IH (A ++ [i])) in E as (new & -> & Hnew); try done.
    + exists (i :: new). by rewrite <- !app_assoc in *.
    + rewrite E1. subst t. cbn [pending].
      rewrite map_size_delete_Some by done.
      assert (size (pending s) <> 0%nat) by (apply map_size_ne_0_lookup; eauto). lia.
Qed.

(** Buffering an item out of turn. *)
Lemma buffer_insert A seen s i c :
  buffer_ok A seen s -> accepted_ok A s -> 0 <= sequenceNumber i -> sequenceNumber i <> blen A ->
  (sequenceNumber i ∉ (sequenceNumber <$> seen)) ->
  buffer_ok A (seen ++ [i]) (mkStage (<[sequenceNumber i := i]> (pending s)) (nextSequence s) (world s) (applied s) c).
Proof.
  intros [H1 H2 H3 H4] HA Hs Hne Hfresh. split; simpl; try done.
  - intros k j [[<- <-]|[Hk Hj]]%lookup_insert_Some.
    + split_and!; [done|set_solver|]. destruct (decide (blen A <= sequenceNumber i)); [done|].
      destruct Hfresh. assert (Hin : sequenceNumber i ∈ (sequenceNumber <$> A))
        by (rewrite (a_seq _ _ HA), elem_of_seqZ; lia).
      apply list_elem_of_fmap in Hin as (x & -> & Hx). apply list_elem_of_fmap_2. auto.
    + destruct (H2 _ _ Hj) as (? & ? & ?). set_solver.
  - intros j [Hj|Hj]%elem_of_app;
      [|apply list_elem_of_singleton in Hj as ->; right; by rewrite lookup_insert_eq].
    destruct (H3 j Hj) as [|Hk]; [by left|right]. rewrite lookup_insert_ne; [done|].
    intros E. apply Hfresh. rewrite E. by apply list_elem_of_fmap_2.
  - intros j Hj. apply elem_of_app. left. auto.
Qed.

(** The buffer once an item in turn is accepted. *)
Lemma buffer_direct A seen s i s' :
  buffer_ok A seen s -> pending s !! nextSequence s = None -> sequenceNumber i = nextSequence s ->
  nextSequence s < MaxUint64 -> pending s' = pending s -> nextSequence s' = u64 (nextSequence s + 1) ->
  buffer_ok (A ++ [i]) (seen ++ [i]) s'.
Proof.
  intros [H1 H2 H3 H4] Hp Hi Hm Ep En. pose proof (blen_nonneg A). rewrite H1 in *.
  split; rewrite ?Ep, ?En, ?blen_app; change (blen [i]) with 1.
  - rewrite u64_small; lia.
  - intros k j Hk. destruct (H2 _ _ Hk) as (? & ? & ?). split_and!; [done|set_solver|].
    assert (k <> blen A) by congruence. lia.
  - intros j [Hj|Hj]%elem_of_app; [|apply list_elem_of_singleton in Hj as ->; left; set_solver].
    destruct (H3 j Hj); [left; set_solver|by right].
  - intros j [Hj|Hj]%elem_of_app; [|set_solver]. apply elem_of_app. left. auto.
Qed.

(** One item from the input. *)
Lemma process_spec A seen s i s' out err :
  (forall j, j ∈ seen ++ [i] -> 0 <= sequenceNumber j < MaxUint64) ->
  (sequenceNumber i ∉ (sequenceNumber <$> seen)) ->
  accepted_ok A s -> buffer_ok A seen s -> pending s !! nextSequence s = None ->
  process s i = (s', out, err) -> post (A ++ out) (seen ++ [i]) s' err.
Proof.
  intros Hm Hfresh HA HB Hnone. unfold processWithStatus. cbn [ctxDone].
  assert (Hsub : forall j, j ∈ A -> j ∈ seen ++ [i])
    by (intros j Hj; apply elem_of_app; left; by apply (b_sub _ _ _ HB)).
  assert (Hi : 0 <= sequenceNumber i < MaxUint64) by (apply Hm; set_solver).
  destruct (cancelled (checks s)) eqn:Ec.
  { intros [= <- <- <-]. rewrite app_nil_r. destruct HA. split; [done|]. split; [done|].
    unfold dead. simpl. eapply cancelled_mono; [|done]. lia. }
  cbn [pending nextSequence world applied checks]. pose proof (b_next _ _ _ HB) as Hn.
  destruct (Z.eqb_spec (sequenceNumber i) (nextSequence s)) as [E|NE].
  - match goal with |- context [maybeApply cfg cancelled ?s1 i] => set (t := s1) end.
    assert (HAt : accepted_ok A t) by (destruct HA; done).
    destruct (maybeApply cfg cancelled t i) as [s2 e] eqn:Em.
    apply (maybeApply_spec A) in Em as (E1 & E2 & Hpost); [|done|congruence].
    destruct e as [e|].
    + intros [= <- <- <-]. rewrite app_nil_r.
      destruct e; try done; (split; [apply Hpost || done|split; [done|done || apply Hpost]]).
    + assert (HB2 : buffer_ok (A ++ [i]) (seen ++ [i]) s2) by (eapply (buffer_direct A seen s); try done; lia).
      destruct (applyPending cfg cancelled (S (size (pending s2))) s2 []) as [[s3 buffered] err3] eqn:Ea.
      intros [= <- <- <-]. eapply (applyPending_spec (seen ++ [i])) in Ea as (new & -> & Hnew); try done.
      * by rewrite <- app_assoc in Hnew.
      * intros j Hj. by apply Hm.
      * lia.
  - destruct ((0 <? maxPending cfg) && _).
    + intros [= <- <- <-]. rewrite app_nil_r. destruct HA. done.
    + intros [= <- <- <-]. rewrite app_nil_r. split; [destruct HA; done|]. split; [done|]. split.
      * apply buffer_insert; try done; [lia|congruence].
      * simpl. by rewrite lookup_insert_ne.
Qed.

Lemma process_dead s i : dead s -> process s i = (snd (ctxDone cancelled s), [], Some ErrContext).
Proof. intros Hd. unfold processWithStatus. cbn [ctxDone]. unfold dead in Hd. by rewrite Hd. Qed.

Lemma forward_spec room processed : forall s output s' output',
  forwardProcessed cancelled room s processed output = (s', output') ->
  pending s' = pending s /\ nextSequence s' = nextSequence s /\ applied s' = applied s /\
  (checks s <= checks s')%nat /\
  exists l, output' = output ++ l /\ l `prefix_of` processed /\ (l = processed \/ dead s').
Proof.
  induction processed as [|i processed IH]; intros s output s' output'; cbn [forwardProcessed ctxDone].
  - intros [= <- <-]. split_and!; try done. exists []. rewrite app_nil_r. split_and!; try done. by left.
  - destruct (room (checks s) || negb (cancelled (checks s))) eqn:E.
    + intros (E1 & E2 & E3 & E4 & l & -> & Hp & Hl)%IH. simpl in *. split_and!; try done; [lia|].
      exists (i :: l). rewrite <- app_assoc. split_and!; [done|by apply prefix_cons|].
      destruct Hl as [->|]; [by left|by right].
    + intros [= <- <-]. apply orb_false_elim in E as [_ E%negb_false_iff]. split_and!; simpl; try done; [lia|].
      exists []. rewrite app_nil_r. split_and!; [done|apply prefix_nil|right].
      unfold dead. simpl. eapply cancelled_mono; [|done]. lia.
Qed.

Lemma accepted_same A (s s' : @ApplyStage W) : applied s' = applied s -> accepted_ok A s -> accepted_ok A s'.
Proof. intros E [H1 H2 H3]. split; try done. by rewrite E. Qed.

(** After cancellation nothing is applied and nothing is sent. *)
Lemma run_dead pf room choice input : forall A s output s' output' err,
  dead s -> accepted_ok A s -> run cfg cancelled pf room choice input s output = (s', output', err) ->
  accepted_ok A s' /\ output' = output /\ err = None /\ dead s'.
Proof.
  induction input as [|i input IH]; intros A s output s' output' err Hd HA; cbn [run ctxDone].
  - by intros [= <- <- <-].
  - pose proof (dead_tick s Hd) as Hd1.
    destruct (cancelled (checks s) && choice (checks s)).
    { intros [= <- <- <-]. split_and!; try done. by apply (accepted_same A s). }
    change (mkStage (pending s) (nextSequence s) (world s) (applied s) (S (checks s)))
      with (snd (ctxDone cancelled s)).
    rewrite process_dead by done. cbn [accountProcessed last isFatal forwardProcessed ctxDone].
    set (t := snd (ctxDone cancelled (snd (ctxDone cancelled s)))).
    pose proof (dead_tick _ Hd1) as Hdt. fold t in Hdt.
    destruct (cancelled (checks t) && choice (checks t)).
    + intros [= <- <- <-]. split_and!; try done; [by apply (accepted_same A s)|apply (dead_tick t Hdt)].
    + apply IH; [apply (dead_tick t Hdt)|by apply (accepted_same A s)].
Qed.

Lemma buffer_same A seen (s s' : @ApplyStage W) :
  pending s' = pending s -> nextSequence s' = nextSequence s -> buffer_ok A seen s -> buffer_ok A seen s'.
Proof. intros E1 E2 [H1 H2 H3 H4]. split; rewrite ?E1, ?E2; done. Qed.

Lemma dead_later (s s' : @ApplyStage W) : (checks s <= checks s')%nat -> dead s -> dead s'.
Proof. unfold dead. apply cancelled_mono. Qed.

(** What a whole run leaves, from a state whose accepted items have all been sent. *)
Definition run_post (A' all : list BlockItem) (s' : @ApplyStage W) (output' : list BlockItem)
    (err : option applyError) : Prop :=
  accepted_ok A' s' /\ output' `prefix_of` A' /\ (forall j, j ∈ A' -> j ∈ all) /\
  match err with
  | Some e => output' = A' /\ e <> ErrOutOfFuel
  | None => (output' = A' /\ buffer_ok A' all s' /\ pending s' !! nextSequence s' = None) \/ dead s'
  end.

Lemma run_dead_post pf room choice input A all s output s' output' err :
  dead s -> accepted_ok A s -> output `prefix_of` A -> (forall j, j ∈ A -> j ∈ all) ->
  run cfg cancelled pf room choice input s output = (s', output', err) -> run_post A all s' output' err.
Proof.
  intros Hd HA Hp Hs E. apply (run_dead pf room choice input A) in E as (HA' & -> & -> & Hd'); [|done..].
  split_and!; try done. by right.
Qed.

Lemma accountProcessed_error pf out e : accountProcessed pf out = Some e -> e <> ErrOutOfFuel.
Proof. unfold accountProcessed. repeat case_match; congruence. Qed.

Lemma run_alive pf room choice input : forall A seen s s' output' err,
  (forall j, j ∈ seen ++ input -> 0 <= sequenceNumber j < MaxUint64) ->
  NoDup (sequenceNumber <$> (seen ++ input)) ->
  accepted_ok A s -> buffer_ok A seen s -> pending s !! nextSequence s = None ->
  run cfg cancelled pf room choice input s A = (s', output', err) ->
  exists A', run_post A' (seen ++ input) s' output' err.
Proof.
  induction input as [|i input IH]; intros A seen s s' output' err Hm Hnd HA HB Hnone; cbn [run ctxDone].
  { intros [= <- <- <-]. exists A. rewrite app_nil_r. split_and!; try done; [apply HB|by left]. }
  assert (Hsub : forall l : list BlockItem, (forall j, j ∈ l -> j ∈ seen ++ [i]) -> forall j, j ∈ l -> j ∈ seen ++ i :: input)
    by (intros l Hl j Hj%Hl; set_solver).
  destruct (cancelled (checks s) && choice (checks s)) eqn:Ec.
  { intros [= <- <- <-]. exists A. split_and!; try done.
    - by apply (accepted_same A s).
    - intros j Hj%(b_sub _ _ _ HB). set_solver.
    - right. apply andb_prop in Ec as [Ec _]. by apply (dead_later s); simpl; [lia|]. }
  set (t := mkStage (pending s) (nextSequence s) (world s) (applied s) (S (checks s))).
  destruct (process t i) as [[s2 out] perr] eqn:Ep.
  apply (process_spec A seen) in Ep as (HA2 & Hs2 & Herr);
    [| |rewrite fmap_app, fmap_cons in Hnd; apply NoDup_app in Hnd as (_ & Hnd & _); intros Hin;
         by apply (Hnd _ Hin); constructor|by apply (accepted_same A s)|by apply (buffer_same A seen s)|done].
  2:{ intros j Hj. apply Hm. set_solver. }
  pose proof (Hsub _ Hs2) as Hall.
  destruct (accountProcessed pf out) as [e|] eqn:Eacc.
  { intros [= <- <- <-]. exists (A ++ out). split_and!; try done. by eapply accountProcessed_error. }
  destruct perr as [e|].
  - destruct (isFatal e) eqn:Ef; [intros [= <- <- <-]; exists (A ++ out); split_and!; try done; by intros ->|].
    destruct e; try done.
    destruct (forwardProcessed cancelled room s2 out A) as [s3 out3] eqn:Ew.
    apply forward_spec in Ew as (_ & _ & E3 & Hc & l & -> & Hl & _).
    assert (Hd3 : dead s3) by by apply (dead_later s2).
    assert (Hp : A ++ l `prefix_of` A ++ out) by by apply prefix_app.
    destruct (cancelled (checks s3) && choice (checks s3)).
    + intros [= <- <- <-]. exists (A ++ out). split_and!; try done; [by apply (accepted_same _ s2)|].
      right. by apply (dead_later s3); [simpl; lia|].
    + intros E. exists (A ++ out). eapply run_dead_post; [| | | |exact E]; try done.
      * by apply (dead_later s3); [simpl; lia|].
      * by apply (accepted_same _ s2).
  - destruct Herr as [HB2 Hn2].
    destruct (forwardProcessed cancelled room s2 out A) as [s3 out3] eqn:Ew.
    apply forward_spec in Ew as (E1 & E2 & E3 & Hc & l & -> & Hl & Hd).
    assert (HA3 : accepted_ok (A ++ out) s3) by by apply (accepted_same _ s2).
    intros E. destruct Hd as [->|Hd].
    + replace (seen ++ i :: input) with ((seen ++ [i]) ++ input) in * by by rewrite <- app_assoc.
      eapply IH; [done|done|exact HA3|by apply (buffer_same _ _ s2)|by rewrite E1, E2|exact E].
    + exists (A ++ out). eapply run_dead_post; [exact Hd|done|by apply prefix_app|done|exact E].
Qed.

Lemma start_ok w : accepted_ok [] (NewApplyStage w) /\ buffer_ok [] [] (NewApplyStage (W := W) w).
Proof.
  split; split; try done.
  - simpl. by destruct skips.
  - intros i Hi. by apply elem_of_nil in Hi.
Qed.

(** *** When nothing goes wrong *)

(** An item that passes every check. *)
Definition good (i : BlockItem) : Prop :=
  decodeError i = false /\ validationError i = false /\ isValid i = true.

Definition callbacks_succeed : Prop :=
  (exists v, chainContextValidator cfg = Some v /\ forall w i, v w i = true) /\
  (forall v, orderedValidator cfg = Some v -> forall w i, v w i = true) /\
  (forall f, applyFunc cfg = Some f -> forall w i, snd (f w i) = true).

Lemma maybeApply_good s i :
  callbacks_succeed -> good i -> cancelled (checks s) = false -> snd (maybeApply cfg cancelled s i) = None.
Proof.
  intros ((v & Ev & Hv) & Ho & Hf) (H1 & H2 & H3) Hc. unfold maybeApply.
  rewrite H1, H2, H3, andb_false_r, Ev, Hv. cbn [negb]. destruct (_ || _); [done|].
  assert (Ha : snd (applyItem cfg cancelled s i) = None).
  { unfold applyItem. cbn [ctxDone]. rewrite Hc. destruct (applyFunc cfg) as [f|] eqn:Ef; [|done]. simpl.
    specialize (Hf f eq_refl (world s) i). destruct (f (world s) i) as [w []]; done. }
  destruct (orderedValidator cfg) as [v'|] eqn:Eo; [|done]. by rewrite (Ho v' eq_refl).
Qed.

Lemma applyPending_good fuel : forall s processed,
  callbacks_succeed -> (forall n, cancelled n = false) ->
  (forall k i, pending s !! k = Some i -> good i) -> (size (pending s) < fuel)%nat ->
  snd (applyPending cfg cancelled fuel s processed) = None.
Proof.
  induction fuel as [|fuel IH]; intros s processed Hcb Hc Hg Hf; [lia|].
  cbn [applyPending ctxDone]. rewrite Hc. cbn [pending nextSequence world applied checks].
  destruct (pending s !! nextSequence s) as [i|] eqn:Ep; [|done].
  match goal with |- context [maybeApply cfg cancelled ?s1 i] => set (t := s1) end.
  destruct (maybeApply cfg cancelled t i) as [s2 e] eqn:Em.
  pose proof (maybeApply_good t i Hcb (Hg _ _ Ep) (Hc _)) as He. rewrite Em in He. simpl in He. subst e.
  assert (E1 : pending s2 = pending t) by by apply (maybeApply_pending t i s2 None).
  apply IH; try done; rewrite E1; subst t; cbn [pending].
  - intros k j [_ Hk]%lookup_delete_Some. eauto.
  - rewrite map_size_delete_Some by done.
    assert (size (pending s) <> 0%nat) by (apply map_size_ne_0_lookup; eauto). lia.
Qed.

(** The buffer holds at most the items seen. *)
Lemma pending_size A seen s : buffer_ok A seen s -> (size (pending s) <= length seen)%nat.
Proof.
  intros HB. rewrite <- length_map_to_list. rewrite <- (length_fmap snd).
  apply submseteq_length, NoDup_submseteq.
  - apply NoDup_fmap_2_strong; [|apply NoDup_map_to_list].
    intros [k i] [k' i'] Hk%elem_of_map_to_list Hk'%elem_of_map_to_list E. simpl in E. subst i'.
    destruct (b_pend _ _ _ HB _ _ Hk) as [<- _]. by destruct (b_pend _ _ _ HB _ _ Hk') as [<- _].
  - intros i Hin. apply list_elem_of_fmap in Hin as ([k j] & -> & Hk%elem_of_map_to_list).
    by destruct (b_pend _ _ _ HB _ _ Hk) as (_ & ? & _).
Qed.

Lemma process_good A seen s i :
  callbacks_succeed -> (forall n, cancelled n = false) -> (forall j, j ∈ seen ++ [i] -> good j) ->
  buffer_ok A seen s -> (maxPending cfg <= 0 \/ blen seen < maxPending cfg) ->
  snd (process s i) = None.
Proof.
  intros Hcb Hc Hg HB Hmax. unfold processWithStatus. cbn [ctxDone]. rewrite Hc.
  cbn [pending nextSequence world applied checks].
  destruct (Z.eqb_spec (sequenceNumber i) (nextSequence s)) as [Eseq|Nseq].
  - match goal with |- context [maybeApply cfg cancelled ?s1 i] => set (t := s1) end.
    destruct (maybeApply cfg cancelled t i) as [s2 e] eqn:Em.
    pose proof (maybeApply_good t i Hcb (Hg i ltac:(set_solver)) (Hc _)) as He.
    rewrite Em in He. simpl in He. subst e. apply maybeApply_pending in Em.
    pose proof (applyPending_good (S (size (pending s2))) s2 [] Hcb Hc) as Ha.
    destruct (applyPending cfg cancelled _ s2 []) as [[s3 b] e3]. simpl in *. apply Ha; [|lia].
    intros k j Hk. rewrite Em in Hk. apply Hg. destruct (b_pend _ _ _ HB _ _ Hk) as (_ & ? & _). set_solver.
  - pose proof (pending_size _ _ _ HB). unfold blen in Hmax.
    destruct (Z.ltb_spec 0 (maxPending cfg)), (Z.leb_spec (maxPending cfg) (Z.of_nat (size (pending s)))); try done. lia.
Qed.

Lemma run_good pf room choice input : forall A seen s,
  callbacks_succeed -> (forall n, cancelled n = false) -> (forall n, pf n = true) ->
  (forall j, j ∈ seen ++ input -> good j) ->
  (maxPending cfg <= 0 \/ blen (seen ++ input) <= maxPending cfg) ->
  (forall j, j ∈ seen ++ input -> 0 <= sequenceNumber j < MaxUint64) ->
  NoDup (sequenceNumber <$> (seen ++ input)) ->
  accepted_ok A s -> buffer_ok A seen s -> pending s !! nextSequence s = None ->
  snd (run cfg cancelled pf room choice input s A) = None.
Proof.
  induction input as [|i input IH]; intros A seen s Hcb Hc Hpf Hg Hmax Hm Hnd HA HB Hnone; [done|].
  cbn [run ctxDone]. rewrite Hc. cbn [andb].
  set (t := mkStage (pending s) (nextSequence s) (world s) (applied s) (S (checks s))).
  assert (Hin : forall j, j ∈ seen ++ [i] -> j ∈ seen ++ i :: input) by (intros j; set_solver).
  assert (HAt : accepted_ok A t) by by apply (accepted_same A s).
  assert (HBt : buffer_ok A seen t) by by apply (buffer_same A seen s).
  assert (Hmax' : maxPending cfg <= 0 \/ blen seen < maxPending cfg).
  { rewrite blen_app, blen_cons in Hmax. pose proof (blen_nonneg input). lia. }
  pose proof (process_good A seen t i Hcb Hc (fun j Hj => Hg j (Hin j Hj)) HBt Hmax') as He.
  destruct (process t i) as [[s2 out] perr] eqn:Ep. simpl in He. subst perr.
  apply (process_spec A seen) in Ep as (HA2 & Hs2 & HB2 & Hn2);
    [|by intros j Hj; apply Hm, Hin| |done..].
  2:{ rewrite fmap_app, fmap_cons in Hnd. apply NoDup_app in Hnd as (_ & Hnd & _). intros Hi.
      apply (Hnd _ Hi). constructor. }
  assert (Hacc : accountProcessed pf out = None) by (unfold accountProcessed; case_match; by rewrite ?Hpf).
  rewrite Hacc. destruct (forwardProcessed cancelled room s2 out A) as [s3 out3] eqn:Ew.
  apply forward_spec in Ew as (E1 & E2 & E3 & Hck & l & -> & Hl & Hd).
  destruct Hd as [->|Hd]; [|unfold dead in Hd; congruence].
  replace (seen ++ i :: input) with ((seen ++ [i]) ++ input) in * by by rewrite <- app_assoc.
  eapply IH; try done; [by apply (accepted_same _ s2)|by apply (buffer_same _ _ s2)|by rewrite E1, E2].
Qed.

(** ** Properties *)

(** C25. Blocks are applied in order, without a gap and at most once. Whatever the
    order in which numbered blocks arrive, however the consumer's callbacks
    answer and whenever the context is cancelled: the blocks committed by
    [ApplyFunc] are numbered 0, 1, 2, ... in the order of the commits, each came
    in and passed decoding and validation, and nothing is committed after the
    first refusal. What is sent on is a prefix of the accepted blocks in the
    same order, and all of them when a fatal error ends the run. *)
Theorem apply_in_order w pf room choice input s' output err :
  (forall j, j ∈ input -> 0 <= sequenceNumber j < MaxUint64) ->
  NoDup (sequenceNumber <$> input) ->
  run cfg cancelled pf room choice input (NewApplyStage w) [] = (s', output, err) ->
  exists A, sequenceNumber <$> A = seqZ 0 (blen A) /\
    applied s' = (if skips then [] else A) /\ Forall acceptable A /\
    (forall j, j ∈ A -> j ∈ input) /\ output `prefix_of` A /\
    (forall e, err = Some e -> output = A /\ e <> ErrOutOfFuel).
Proof.
  intros Hm Hnd E. destruct (start_ok w) as [HA HB].
  apply (run_alive pf room choice input [] []) in E as (A & [H1 H2 H3] & Hp & Hs & He); [|done..].
  exists A. split_and!; try done. intros e ->. done.
Qed.

(** Every block is applied. When the blocks 0 .. n-1 arrive in any order, each
    decoded and valid, with callbacks that succeed, no cancellation, and a buffer
    that is unlimited or holds that many, the run ends without an error, every
    block has been accepted and sent on in order, and the buffer is empty. *)
Theorem apply_complete w pf room choice input n :
  callbacks_succeed -> (forall k, cancelled k = false) -> (forall k, pf k = true) ->
  (forall j, j ∈ input -> good j) -> (maxPending cfg <= 0 \/ blen input <= maxPending cfg) ->
  0 <= n < MaxUint64 -> (sequenceNumber <$> input) ≡ₚ seqZ 0 n ->
  exists s' output, run cfg cancelled pf room choice input (NewApplyStage w) [] = (s', output, None) /\
    sequenceNumber <$> output = seqZ 0 n /\ output ≡ₚ input /\
    applied s' = (if skips then [] else output) /\ pending s' = ∅.
Proof.
  intros Hcb Hc Hpf Hg Hmax Hn HP. destruct (start_ok w) as [HA HB].
  assert (Hnd : NoDup (sequenceNumber <$> input)) by (rewrite HP; apply NoDup_seqZ).
  assert (Hm : forall j, j ∈ input -> 0 <= sequenceNumber j < MaxUint64).
  { intros j Hj. apply (list_elem_of_fmap_2 sequenceNumber) in Hj. rewrite HP, elem_of_seqZ in Hj. lia. }
  pose proof (run_good pf room choice input [] [] _ Hcb Hc Hpf Hg Hmax Hm Hnd HA HB eq_refl) as He.
  destruct (run cfg cancelled pf room choice input (NewApplyStage w) []) as [[s' output] err] eqn:E.
  simpl in He. subst err. exists s', output. split; [done|].
  apply (run_alive pf room choice input [] []) in E as (A & [H1 H2 H3] & Hp & Hs & He); [|done..].
  destruct He as [(-> & [B1 B2 B3 B4] & Hnone)|Hd]; [|unfold dead in Hd; congruence].
  assert (Hall : forall j, j ∈ input -> j ∈ A).
  { assert (Hlt : blen A < n -> False).
    { intros Hlt. pose proof (blen_nonneg A). assert (Hin : blen A ∈ (sequenceNumber <$> input)) by (rewrite HP, elem_of_seqZ; lia).
      apply list_elem_of_fmap in Hin as (j & Ej & Hj). destruct (B3 j Hj) as [Hj'|Hj'].
      - apply (list_elem_of_fmap_2 sequenceNumber) in Hj'. rewrite H1, elem_of_seqZ in Hj'. lia.
      - rewrite B1, Ej in Hnone. congruence. }
    intros j Hj. destruct (B3 j Hj) as [|Hj']; [done|].
    destruct (B2 _ _ Hj') as (_ & _ & Hk). apply (list_elem_of_fmap_2 sequenceNumber) in Hj.
    rewrite HP, elem_of_seqZ in Hj. exfalso. apply Hlt. lia. }
  assert (HPA : A ≡ₚ input).
  { apply NoDup_Permutation.
    - eapply NoDup_fmap_1. rewrite H1. apply NoDup_seqZ.
    - by eapply NoDup_fmap_1.
    - intros j. split; auto. }
  assert (Hb : blen A = n).
  { unfold blen. rewrite HPA, <- (length_fmap sequenceNumber), HP, length_seqZ. lia. }
  split_and!; try done; [by rewrite <- Hb|]. apply map_empty. intros k.
  destruct (pending s' !! k) as [j|] eqn:Ek; [|done].
  destruct (B2 _ _ Ek) as (<- & Hj%Hall & Hk).
  apply (list_elem_of_fmap_2 sequenceNumber) in Hj. rewrite H1, elem_of_seqZ in Hj. lia.
Qed.

End Proofs.

(** ** Witnesses *)

(** A consumer that counts, and blocks 2, 0, 1. *)
Definition exPipeline : ApplyConfig :=
  mkConfig (Some (fun w _ => (w + 1, true))) (Some (fun _ _ => true)) None false false true 4.
Definition exItem (n : Z) : BlockItem := mkItem n false false true.

(** Witness of C25. *)
Lemma apply_in_order_witness :
  exists A, sequenceNumber <$> A = seqZ 0 (blen A) /\
    applied (fst (fst (run exPipeline (fun _ => false) (fun _ => true) (fun _ => true) (fun _ => true)
      [exItem 2; exItem 0; exItem 1] (NewApplyStage 0) []))) = A.
Proof.
  destruct (run exPipeline (fun _ => false) (fun _ => true) (fun _ => true) (fun _ => true)
      [exItem 2; exItem 0; exItem 1] (NewApplyStage 0) []) as [[s' o] e] eqn:E.
  destruct (apply_in_order exPipeline (fun _ => false) ltac:(done) 0 (fun _ => true) (fun _ => true) (fun _ => true)
    [exItem 2; exItem 0; exItem 1] s' o e) as (A & H1 & H2 & _).
  - intros j Hj. repeat (apply elem_of_cons in Hj as [->|Hj]; [simpl; unfold MaxUint64; lia|]).
    destruct (proj1 (elem_of_nil j) Hj).
  - clear E. cbn. repeat (apply NoDup_cons; split; [set_solver|]). apply NoDup_nil_2.
  - exact E.
  - exists A. split; [exact H1|exact H2].
Defined.

(** An instance. *)
Lemma apply_complete_witness :
  exists s' output, run exPipeline (fun _ => false) (fun _ => true) (fun _ => true) (fun _ => true)
      [exItem 2; exItem 0; exItem 1] (NewApplyStage 0) [] = (s', output, None) /\
    sequenceNumber <$> output = [0; 1; 2].
Proof.
  destruct (apply_complete exPipeline (fun _ => false) ltac:(done) 0 (fun _ => true) (fun _ => true) (fun _ => true)
    [exItem 2; exItem 0; exItem 1] 3) as (s' & output & H1 & H2 & _).
  - split; [by exists (fun _ _ => true)|]. split; [done|]. intros f [= <-]. done.
  - done.
  - done.
  - intros j Hj. repeat (apply elem_of_cons in Hj as [->|Hj]; [done|]). by apply elem_of_nil in Hj.
  - right. vm_compute. discriminate.
  - unfold MaxUint64. lia.
  - change (seqZ 0 3) with [0; 1; 2]. apply (Permutation_cons_append [0; 1] 2).
  - exists s', output. split; [exact H1|exact H2].
Defined.
