(* ===== verification/Scripts.v ===== *)
(** * Scripts and witnesses (src/ledger/common/script.go, witness.go, verify.go,
      script/native.go)

    The scripts that lock outputs, certificates, policies and votes, the
    witnesses that a transaction carries, and the evaluation of native scripts.
    A native script keeps the bytes it was decoded from, of which its hash is
    taken. The hashes and the signature scheme are parameters. *)

From S2P Require Import Prelude.

Abbreviation ScriptHash := (list Z).
Abbreviation KeyHash := (list Z).

(** Blake2b-224, SHA3-256, SHA-256 and strict Ed25519. *)
Class WitnessCrypto := {
  Blake2b224Hash : bytes -> bytes;
  Sha3_256 : bytes -> bytes;
  Sha256 : bytes -> bytes;
  Ed25519Verify : bytes -> bytes -> bytes -> bool    (* key, message, signature *)
}.

(** ** Native scripts *)

#[local] Set Warnings "-register-all".

Inductive NativeScript :=
| mkNativeScript (cbor : bytes) (item : NativeItem)
with NativeItem :=
| NativeScriptPubkey (hash : bytes)
| NativeScriptAll (scripts : list NativeScript)
| NativeScriptAny (scripts : list NativeScript)
| NativeScriptNofK (n : Z) (scripts : list NativeScript)      (* int64 *)
| NativeScriptInvalidBefore (slot : Z)
| NativeScriptInvalidHereafter (slot : Z)
| NativeScriptRequireGuard (credType : Z) (hash : KeyHash)
| NativeScriptNoItem.

Definition nativeCbor (s : NativeScript) : bytes := match s with mkNativeScript cbor _ => cbor end.
Definition nativeItem (s : NativeScript) : NativeItem := match s with mkNativeScript _ item => item end.

Record nativeScriptEvalContext := mkEvalContext {
  validityStart : Z;
  validityEnd : Z;
  validityStartPresent : bool;
  validityEndPresent : bool;
  keyHashes : gset KeyHash;
  guardCredentials : option (gset (Z * KeyHash))
}.

Definition newCredentialSet (credentials : list (Z * KeyHash)) : option (gset (Z * KeyHash)) :=
  if decide (credentials = []) then None else Some (list_to_set credentials).

Fixpoint evaluate (ctx : nativeScriptEvalContext) (n : NativeScript) {struct n} : bool :=
  match n with mkNativeScript _ item =>
  match item with
  | NativeScriptNoItem => false
  | NativeScriptPubkey hash => if negb (blen hash =? 28) then false else bool_decide (hash ∈ keyHashes ctx)
  | NativeScriptAll scripts => forallb (evaluate ctx) scripts
  | NativeScriptAny scripts => existsb (evaluate ctx) scripts
  | NativeScriptNofK n scripts =>
    n <=? (fix count l := match l with [] => 0 | s :: l => (if evaluate ctx s then 1 else 0) + count l end) scripts
  | NativeScriptInvalidBefore slot => validityStartPresent ctx && (slot <=? validityStart ctx)
  | NativeScriptInvalidHereafter slot => validityEndPresent ctx && (validityEnd ctx <=? slot)
  | NativeScriptRequireGuard t h =>
    match guardCredentials ctx with None => false | Some g => bool_decide ((t, h) ∈ g) end
  end
  end.

Definition Evaluate (s : NativeScript) (start end_ : Z) (keys : gset KeyHash) : bool :=
  evaluate (mkEvalContext start end_ true true keys None) s.

Definition EvaluateWithBounds (s : NativeScript) (start end_ : Z) (startPresent endPresent : bool) (keys : gset KeyHash) : bool :=
  evaluate (mkEvalContext start end_ startPresent endPresent keys None) s.

Definition EvaluateWithGuards (s : NativeScript) (start end_ : Z) (keys : gset KeyHash) (guards : list (Z * KeyHash)) : bool :=
  evaluate (mkEvalContext start end_ true true keys (newCredentialSet guards)) s.

Definition EvaluateWithGuardsAndBounds (s : NativeScript) (start end_ : Z) (startPresent endPresent : bool)
    (keys : gset KeyHash) (guards : list (Z * KeyHash)) : bool :=
  evaluate (mkEvalContext start end_ startPresent endPresent keys (newCredentialSet guards)) s.

(** The number of a constructor on the wire; an empty item has none. *)
Definition constructorOf (item : NativeItem) : option Z :=
  match item with
  | NativeScriptPubkey _ => Some 0 | NativeScriptAll _ => Some 1 | NativeScriptAny _ => Some 2 | NativeScriptNofK _ _ => Some 3
  | NativeScriptInvalidBefore _ => Some 4 | NativeScriptInvalidHereafter _ => Some 5 | NativeScriptRequireGuard _ _ => Some 6
  | NativeScriptNoItem => None
  end.

Inductive constructorError := NoDecodedItem | UnsupportedConstructor (c : Z).

Fixpoint validateNativeScriptConstructor (maxConstructor : Z) (s : NativeScript) {struct s} : result constructorError unit :=
  match s with mkNativeScript _ item =>
  match constructorOf item with
  | None => Err NoDecodedItem
  | Some c =>
    if maxConstructor <? c then Err (UnsupportedConstructor c) else
    match item with
    | NativeScriptNofK _ scripts | NativeScriptAll scripts | NativeScriptAny scripts =>
      (fix each l := match l with
        | [] => Ok ()
        | child :: l => _ ← validateNativeScriptConstructor maxConstructor child; each l
        end) scripts
    | _ => Ok ()
    end
  end
  end.

Fixpoint ValidateNativeScriptConstructors (scripts : list NativeScript) (maxConstructor : Z) : result constructorError unit :=
  match scripts with
  | [] => Ok ()
  | s :: scripts => _ ← validateNativeScriptConstructor maxConstructor s; ValidateNativeScriptConstructors scripts maxConstructor
  end.

Definition ValidatePreAllegraNativeScripts (scripts : list NativeScript) : result constructorError unit :=
  ValidateNativeScriptConstructors scripts 3.

(** ** Scripts and witness sets *)

(** A Plutus script of version 1 to 4, by its bytes. *)
Inductive Script :=
| NativeScriptOf (s : NativeScript)
| PlutusScriptOf (version : Z) (code : bytes).

Definition PlutusScriptVersion (s : Script) : option Z :=
  match s with PlutusScriptOf version _ => Some (version - 1) | NativeScriptOf _ => None end.

Record VkeyWitness := mkVkeyWitness { Vkey : bytes; VkeySignature : bytes }.

Record BootstrapWitness := mkBootstrapWitness {
  BwPublicKey : bytes; BwSignature : bytes; BwChainCode : bytes; BwAttributes : bytes
}.

Abbreviation RedeemerKey := (Z * Z)%type.

Record ExUnits := mkExUnits { Memory : Z; Steps : Z }.

Record WitnessSet := mkWitnessSet {
  Vkeys : list VkeyWitness;
  Bootstrap : list BootstrapWitness;
  NativeScriptWits : list NativeScript;     (* NativeScripts() *)
  PlutusV1Scripts : list bytes;
  PlutusV2Scripts : list bytes;
  PlutusV3Scripts : list bytes;
  PlutusV4Scripts : list bytes;
  Redeemers : list (RedeemerKey * ExUnits)  (* Redeemers(), nil or not, without the data *)
}.

Definition RedeemerKeys (w : WitnessSet) : list RedeemerKey := fst <$> Redeemers w.

Section Crypto.
Context `{WitnessCrypto}.

Definition ScriptRefTypeNativeScript : Z := 0.

Definition nativeHash (s : NativeScript) : ScriptHash := Blake2b224Hash (ScriptRefTypeNativeScript :: nativeCbor s).

(** [scriptHash]: the version is the prefix. *)
Definition scriptHashOf (s : Script) : ScriptHash :=
  match s with
  | NativeScriptOf s => nativeHash s
  | PlutusScriptOf version code => Blake2b224Hash (version :: code)
  end.

Definition computeByronAddressRoot (pubkey chainCode attrBytes : bytes) : option KeyHash :=
  if negb (blen pubkey =? 32) then None else
  Some (Blake2b224Hash (Sha3_256 ([0x83; 0x00; 0x82; 0x00; 0x58; 0x40] ++ pubkey ++ chainCode ++ attrBytes))).

(** [BootstrapWitness.KeyHash]. *)
Definition bootstrapKeyHash (w : BootstrapWitness) : option KeyHash :=
  computeByronAddressRoot (BwPublicKey w) (BwChainCode w) (BwAttributes w).

Inductive signatureError := BadKeySize (n : Z) | BadSignatureSize (n : Z) | BadSignature.

Definition VerifyVKeySignature (pubKey sig msg : bytes) : result signatureError unit :=
  if negb (blen pubKey =? 32) then Err (BadKeySize (blen pubKey))
  else if negb (blen sig =? 64) then Err (BadSignatureSize (blen sig))
  else if negb (Ed25519Verify pubKey msg sig) then Err BadSignature else Ok ().

(** The keys a native script may require: those of both kinds of witnesses. *)
Definition witnessKeyHashes (w : option WitnessSet) : gset KeyHash :=
  match w with
  | None => ∅
  | Some w => list_to_set ((fun v => Blake2b224Hash (Vkey v)) <$> Vkeys w) ∪ list_to_set (omap bootstrapKeyHash (Bootstrap w))
  end.
End Crypto.

(** ** What a native script means *)

Section Induction.
Context (P : NativeScript -> Prop).
Context (step : forall cbor item,
  match item with
  | NativeScriptAll l | NativeScriptAny l | NativeScriptNofK _ l => Forall P l
  | _ => True
  end -> P (mkNativeScript cbor item)).

Fixpoint NativeScript_rect' (s : NativeScript) : P s :=
  let each := fix each l : Forall P l := match l with
    | [] => Forall_nil_2 P
    | x :: l => Forall_cons_2 P x l (NativeScript_rect' x) (each l) end in
  match s with
  | mkNativeScript cbor item => step cbor item
    match item with
    | NativeScriptAll l | NativeScriptAny l | NativeScriptNofK _ l => each l
    | _ => I
    end
  end.
End Induction.

(** The specification, for keys that signed, the slot the transaction is applied
    in, and no guards: enough of the parts hold. *)
Inductive Holds (keys : KeyHash -> Prop) (slot : Z) : NativeScript -> Prop :=
| H_key c h : blen h = 28 -> keys h -> Holds keys slot (mkNativeScript c (NativeScriptPubkey h))
| H_all c l : Forall (Holds keys slot) l -> Holds keys slot (mkNativeScript c (NativeScriptAll l))
| H_any c l s : s ∈ l -> Holds keys slot s -> Holds keys slot (mkNativeScript c (NativeScriptAny l))
| H_nofk c n l sub : sub `sublist_of` l -> n <= blen sub -> Forall (Holds keys slot) sub ->
    Holds keys slot (mkNativeScript c (NativeScriptNofK n l))
| H_before c t : t <= slot -> Holds keys slot (mkNativeScript c (NativeScriptInvalidBefore t))
| H_hereafter c t : slot < t -> Holds keys slot (mkNativeScript c (NativeScriptInvalidHereafter t)).

Lemma Holds_mono (keys keys' : KeyHash -> Prop) slot s : (forall h, keys h -> keys' h) -> Holds keys slot s -> Holds keys' slot s.
Proof.
  intros Hk. induction s as [c item IH] using NativeScript_rect'. intros H. inversion H; subst; rewrite ?Forall_forall in *.
  - constructor; auto.
  - constructor. apply Forall_forall. auto.
  - econstructor; [done|]. auto.
  - econstructor; [done|done|]. apply Forall_forall. intros x Hx. apply IH; [|auto].
    eapply elem_of_submseteq; [done|by apply sublist_submseteq].
  - by constructor.
  - by constructor.
Qed.

(** The number of parts that evaluate to true. *)
Definition passing (ctx : nativeScriptEvalContext) (l : list NativeScript) : Z :=
  blen (filter (fun s => evaluate ctx s = true) l).

Lemma evaluate_nofk ctx c n l :
  evaluate ctx (mkNativeScript c (NativeScriptNofK n l)) = (n <=? passing ctx l).
Proof.
  cbn [evaluate]. f_equal. unfold passing. induction l as [|s l IH]; [done|]. rewrite filter_cons.
  destruct (evaluate ctx s); [rewrite decide_True by done|rewrite decide_False by done]; rewrite IH; [rewrite blen_cons; lia|lia].
Qed.

(** Evaluation inside a validity interval that contains [slot] is sound. *)
Lemma evaluate_holds ctx slot s :
  guardCredentials ctx = None ->
  (validityStartPresent ctx = true -> validityStart ctx <= slot) ->
  (validityEndPresent ctx = true -> slot < validityEnd ctx) ->
  evaluate ctx s = true -> Holds (fun h => h ∈ keyHashes ctx) slot s.
Proof.
  intros Hg Hs He. induction s as [c item IH] using NativeScript_rect'. destruct item as [h|l|l|n l|t|t|t h|]; intros H.
  - cbn in H. destruct (Z.eqb_spec (blen h) 28); cbn [negb] in H; [|done]. apply bool_decide_eq_true in H. by constructor.
  - constructor. cbn in H. rewrite forallb_forall in H. rewrite Forall_forall in IH |- *. intros x Hx. apply IH; [done|].
    apply H. by apply list_elem_of_In.
  - cbn in H. apply existsb_exists in H as (x & Hx & H). apply list_elem_of_In in Hx. rewrite Forall_forall in IH.
    apply (H_any _ _ _ _ x); [done|]. by apply IH.
  - rewrite evaluate_nofk in H. apply Z.leb_le in H. apply (H_nofk _ _ _ _ _ (filter (fun s => evaluate ctx s = true) l)).
    + apply sublist_filter.
    + done.
    + rewrite Forall_forall in IH |- *. intros x [Hx Hin]%list_elem_of_filter. by apply IH.
  - cbn in H. apply andb_true_iff in H as [H1 H2]. apply Z.leb_le in H2. constructor. specialize (Hs H1). lia.
  - cbn in H. apply andb_true_iff in H as [H1 H2]. apply Z.leb_le in H2. constructor. specialize (He H1). lia.
  - cbn in H. by rewrite Hg in H.
  - done.
Qed.

Lemma sublist_filtered {A} (P : A -> Prop) `{!forall x, Decision (P x)} (k l : list A) :
  k `sublist_of` l -> filter P k `sublist_of` filter P l.
Proof.
  induction 1 as [|x k l _ IH|x k l _ IH]; [done| |]; rewrite !filter_cons; case_decide; try done; by constructor.
Qed.

(** And exact for an interval of one slot. *)
Lemma holds_evaluate ctx slot s :
  validityStartPresent ctx = true -> validityStart ctx = slot ->
  validityEndPresent ctx = true -> validityEnd ctx = slot + 1 ->
  Holds (fun h => h ∈ keyHashes ctx) slot s -> evaluate ctx s = true.
Proof.
  intros S1 S2 E1 E2. induction s as [c item IH] using NativeScript_rect'. intros H. inversion H; subst.
  - cbn. rewrite (proj2 (Z.eqb_eq _ _)) by done. by apply bool_decide_eq_true.
  - cbn. apply forallb_forall. intros x Hx%list_elem_of_In. rewrite Forall_forall in IH. apply IH; [done|].
    rewrite Forall_forall in H1. by apply H1.
  - cbn. apply existsb_exists. rewrite Forall_forall in IH. exists s. split; [by apply list_elem_of_In|]. by apply IH.
  - rewrite evaluate_nofk. apply Z.leb_le. unfold passing.
    assert (Hsub : filter (fun s => evaluate ctx s = true) sub `sublist_of` filter (fun s => evaluate ctx s = true) l) by (by apply sublist_filtered).
    assert (filter (fun s => evaluate ctx s = true) sub = sub) as Ef.
    { apply filter_all, Forall_forall. rewrite Forall_forall in IH. rewrite Forall_forall in H4. intros x Hx.
      apply IH; [eapply elem_of_submseteq; [done|by apply sublist_submseteq]|by apply H4]. }
    rewrite Ef in Hsub. apply sublist_length in Hsub. unfold blen in *. lia.
  - cbn. rewrite S1. cbn. apply Z.leb_le. lia.
  - cbn. rewrite E1. cbn. apply Z.leb_le. lia.
Qed.
