(* ===== verification/ShelleyRules.v ===== *)
(** * Shelley UTxO rules (src/ledger/shelley/rules.go, with src/ledger/common)

    The transaction rules of the Shelley era over an interface of the ledger
    state: inputs, fees, sizes, networks, the conservation of value with
    deposits and refunds, delegation and instantaneous rewards, withdrawals, and
    the stake pool certificates; and the driver that runs a list of rules. *)

From S2P Require Import Prelude.

(** ** Data *)

(** A stake credential: its type and its hash. *)
Abbreviation Credential := (Z * list Z)%type.
Abbreviation PoolKeyHash := (list Z).
Abbreviation VrfKeyHash := (list Z).
(** A transaction identifier and an output index. *)
Abbreviation TransactionInput := (list Z * Z)%type.

Definition AddressTypeByron : Z := 8.
Definition AddressTypeNoneKey : Z := 14.
Definition AddressTypeNoneScript : Z := 15.

Inductive AddressPayload :=
| AddressPayloadKeyHash (hash : bytes)
| AddressPayloadScriptHash (hash : bytes)
| AddressPayloadPointer (slot txIndex certIndex : Z).

(** An address: [addressBytes] is what [Bytes] returns, [stakeCredential] what
    [StakeCredential] does. *)
Record Address := mkAddress {
  addressType : Z;
  networkId : Z;
  addressBytes : option bytes;
  trailingBytes : bytes;
  stakeCredential : option Credential;
  extraSize : Z;
  payment : option AddressPayload     (* PayloadPayload() *)
}.

Record TransactionOutput := mkOutput { OutAddress : Address; Amount : option Z }.

Record PoolMetadata := mkPoolMetadata { Url : bytes; MetaHash : bytes }.

Record PoolRegistrationCertificate := mkPoolReg {
  Operator : PoolKeyHash;
  RegVrfKeyHash : VrfKeyHash;
  Cost : Z;
  Metadata : option PoolMetadata;
  RewardAccountNetworkId : option Z;
  PoolOwners : list (list Z)
}.

(** The certificates the rules look at; [MirRewards] lists the map of deltas in
    the order of the run, [MirTransfer] is a transfer between pots. *)
Inductive Certificate :=
| StakeRegistration (cred : Credential)
| StakeDeregistration (cred : Credential)
| StakeDelegation (cred : option Credential) (pool : PoolKeyHash)
| PoolRegistration (reg : PoolRegistrationCertificate)
| PoolRetirement (pool : PoolKeyHash) (epoch : Z)
| MirTransfer (source : Z)
| MirRewards (source : Z) (rewards : list (option Credential * option Z))
| OtherCertificate.

Record Transaction := mkTransaction {
  Inputs : list TransactionInput;
  Collateral : list TransactionInput;
  ReferenceInputs : list TransactionInput;
  Outputs : list TransactionOutput;
  CollateralReturn : option TransactionOutput;
  Fee : option Z;
  Withdrawals : option (list (option Address * option Z));
  Certificates : list Certificate;
  UpperBound : option Z;
  IsValid : bool;
  SizeOf : option Z
}.

Record ProtocolParameters := mkPparams {
  MinFeeA : Z; MinFeeB : Z; MaxTxSize : Z; MinUtxoValue : Z; KeyDeposit : Z; PoolDeposit : Z;
  MinPoolCost : Z; PoolRetirementMaxEpoch : Z; ProtocolMajorVersion : Z
}.

Inductive ruleError :=
| ExpiredUtxo (ttl slot : Z)
| InputSetEmpty
| DuplicateInput (input : TransactionInput) (kind : Z)
| TxSizeFailed
| MinFeeOverflow
| FeeTooSmall (provided min : Z)
| BadInputs (inputs : list TransactionInput)
| WrongNetwork (addrs : list Address)
| WrongNetworkWithdrawal (addrs : list (option Address))
| InvalidWithdrawalAddress
| DuplicateWithdrawal
| ValueNotConserved (consumed produced : Z)
| OutputTooSmall (outputs : list TransactionOutput)
| BootAddrAttrsTooBig (outputs : list TransactionOutput)
| MaxTxSizeExceeded (size max : Z)
| LedgerStateError
| EpochStateUnavailable
| DelegateToUnregisteredPool (pool : PoolKeyHash)
| DelegateUnregisteredCredential (cred : Credential)
| MIRTransferNotCurrentlyAllowed
| MIRNegativesNotCurrentlyAllowed
| PendingInstantaneousRewardsUnavailable
| MIRProducesNegativeUpdate
| WithdrawalFromUnregistered
| IncorrectWithdrawalAmount
| PoolMetadataURLTooLong
| WrongNetworkPool
| PoolMetadataHashTooBig
| StakePoolCostTooLow
| FuturePoolParametersStateUnavailable
| VrfKeyHashAlreadyRegistered (owner : PoolKeyHash)
| StakePoolNotRegisteredOnKey (pool : PoolKeyHash)
| StakePoolRetirementWrongEpoch (epoch : Z)
| OtherRuleError.

Abbreviation check := (result ruleError unit).

(** ** The ledger state, as the rules see it *)

Record LedgerState := mkLedgerState {
  UtxoById : TransactionInput -> option TransactionOutput;
  NetworkId : Z;
  IsStakeCredentialRegistered : Credential -> bool;
  (* the optional capability that reports deposits; inside, [None] is an error *)
  StakeCredentialDeposit : option (Credential -> option (option Z));
  IsPoolRegistered : PoolKeyHash -> bool;
  PoolCurrentState : PoolKeyHash -> option (option PoolRegistrationCertificate * option Z);
  EpochForSlot : option (Z -> option Z);
  RewardAccountBalance : Credential -> option (option Z);
  IsVrfKeyInUse : VrfKeyHash -> option (bool * PoolKeyHash);
  IsFutureVrfKeyInUse : option (VrfKeyHash -> option (bool * PoolKeyHash));
  PendingInstantaneousRewards : Z -> Credential -> option (Z * bool)
}.

(** An error of the ledger state ends the rule. *)
Definition ls_result {A} (o : option A) : result ruleError A :=
  match o with Some a => Ok a | None => Err LedgerStateError end.

(** ** Simple rules *)

Definition UtxoValidateTimeToLive (tx : Transaction) (slot : Z) : check :=
  match UpperBound tx with
  | None => Ok ()
  | Some ttl => if slot <=? ttl then Ok () else Err (ExpiredUtxo ttl slot)
  end.

Definition UtxoValidateInputSetEmptyUtxo (tx : Transaction) : check :=
  if 0 <? blen (Inputs tx) then Ok () else Err InputSetEmpty.

Fixpoint duplicateLoop (seen inputs : list TransactionInput) : option TransactionInput :=
  match inputs with
  | [] => None
  | i :: inputs => if bool_decide (i ∈ seen) then Some i else duplicateLoop (i :: seen) inputs
  end.

Definition firstDuplicateInput (inputs : list TransactionInput) : option TransactionInput :=
  if blen inputs <? 2 then None else duplicateLoop [] inputs.

Definition UtxoValidateNoDuplicateInputs (tx : Transaction) : check :=
  match firstDuplicateInput (Inputs tx) with
  | Some i => Err (DuplicateInput i 0)
  | None =>
    match firstDuplicateInput (Collateral tx) with
    | Some i => Err (DuplicateInput i 1)
    | None =>
      match firstDuplicateInput (ReferenceInputs tx) with
      | Some i => Err (DuplicateInput i 2)
      | None => Ok ()
      end
    end
  end.

(** [common.CalculateMinFee]. *)
Definition CalculateMinFee (bodySize minFeeA minFeeB : Z) : result ruleError Z :=
  if bodySize <? 0 then Err MinFeeOverflow else
  let '(hi, lo) := mul64 minFeeA bodySize in
  if negb (hi =? 0) then Err MinFeeOverflow else
  let '(sum, carry) := add64 lo minFeeB 0 in
  if negb (carry =? 0) then Err MinFeeOverflow else Ok sum.

Definition MinFeeTx (tx : Transaction) (pp : ProtocolParameters) : result ruleError Z :=
  match SizeOf tx with
  | None => Err TxSizeFailed
  | Some txSize => CalculateMinFee txSize (MinFeeA pp) (MinFeeB pp)
  end.

Definition UtxoValidateFeeTooSmallUtxo (tx : Transaction) (pp : ProtocolParameters) : check :=
  minFee ← MinFeeTx tx pp;
  let fee := default 0 (Fee tx) in
  if minFee <=? fee then Ok () else Err (FeeTooSmall fee minFee).

Definition UtxoValidateBadInputsUtxo (tx : Transaction) (ls : LedgerState) : check :=
  let badInputs := base.filter (fun i => UtxoById ls i = None) (Inputs tx) in
  if blen badInputs =? 0 then Ok () else Err (BadInputs badInputs).

Definition TransactionOutputsAndCollateralReturn (tx : Transaction) : list TransactionOutput :=
  match CollateralReturn tx with Some o => Outputs tx ++ [o] | None => Outputs tx end.

Definition UtxoValidateWrongNetwork (tx : Transaction) (ls : LedgerState) : check :=
  let badAddrs := base.filter (fun a => networkId a <> NetworkId ls)
                    (OutAddress <$> TransactionOutputsAndCollateralReturn tx) in
  if blen badAddrs =? 0 then Ok () else Err (WrongNetwork badAddrs).

Definition UtxoValidateOutputTooSmallUtxo (tx : Transaction) (pp : ProtocolParameters) : check :=
  let badOutputs := base.filter (fun o => default 0 (Amount o) < MinUtxoValue pp) (Outputs tx) in
  if blen badOutputs =? 0 then Ok () else Err (OutputTooSmall badOutputs).

Definition UtxoValidateOutputBootAddrAttrsTooBig (tx : Transaction) : check :=
  let badOutputs := base.filter (fun o => addressType (OutAddress o) = AddressTypeByron /\
                                         64 < extraSize (OutAddress o))
                      (TransactionOutputsAndCollateralReturn tx) in
  if blen badOutputs =? 0 then Ok () else Err (BootAddrAttrsTooBig badOutputs).

Definition UtxoValidateMaxTxSizeUtxo (tx : Transaction) (pp : ProtocolParameters) : check :=
  match SizeOf tx with
  | None => Err TxSizeFailed
  | Some size => if size <=? MaxTxSize pp then Ok () else Err (MaxTxSizeExceeded size (MaxTxSize pp))
  end.

(** ** Withdrawals *)

(** [RewardAccountCredential]. *)
Definition RewardAccountCredential (a : option Address) : result ruleError Credential :=
  match a with
  | None => Err InvalidWithdrawalAddress
  | Some a =>
    if negb ((addressType a =? AddressTypeNoneKey) || (addressType a =? AddressTypeNoneScript))
    then Err InvalidWithdrawalAddress else
    let wantType := if addressType a =? AddressTypeNoneKey then 0 else 1 in
    if negb (networkId a =? 0) && negb (networkId a =? 1) then Err InvalidWithdrawalAddress else
    match addressBytes a with
    | None => Err InvalidWithdrawalAddress
    | Some raw =>
      if negb (blen raw =? 29) then Err InvalidWithdrawalAddress
      else if 0 <? blen (trailingBytes a) then Err InvalidWithdrawalAddress
      else match stakeCredential a with
      | Some cred => if negb (fst cred =? wantType) then Err InvalidWithdrawalAddress else Ok cred
      | None => Err InvalidWithdrawalAddress
      end
    end
  end.

Fixpoint withdrawalAddressLoop {T} (seen : list bytes) (ws : list (option Address * T)) : check :=
  match ws with
  | [] => Ok ()
  | (addr, _) :: ws =>
    _ ← RewardAccountCredential addr;
    match addr ≫= addressBytes with
    | None => Err InvalidWithdrawalAddress
    | Some raw => if bool_decide (raw ∈ seen) then Err DuplicateWithdrawal
                  else withdrawalAddressLoop (raw :: seen) ws
    end
  end.

Definition ValidateWithdrawalAddresses {T} (ws : list (option Address * T)) : check :=
  withdrawalAddressLoop [] ws.

(** A nil address, which the decoder never yields, would panic in the code; it
    is refused here. *)
Definition UtxoValidateWrongNetworkWithdrawal (tx : Transaction) (ls : LedgerState) : check :=
  let ws := default [] (Withdrawals tx) in
  let badAddrs := base.filter (fun a => networkId <$> a <> Some (NetworkId ls)) (fst <$> ws) in
  if blen badAddrs =? 0 then ValidateWithdrawalAddresses ws else Err (WrongNetworkWithdrawal badAddrs).

(** The loop of [UtxoValidateWithdrawals]. *)
Fixpoint withdrawLoop (requireExactAmount : bool) (ls : LedgerState)
    (ws : list (option Address * option Z)) : check :=
  match ws with
  | [] => Ok ()
  | (addr, amount) :: ws =>
    cred ← RewardAccountCredential addr;
    balance ← ls_result (RewardAccountBalance ls cred);
    match balance with
    | None => Err WithdrawalFromUnregistered
    | Some balance =>
      let amountValid :=
        match amount with
        | None => false
        | Some a =>
          if (0 <=? a) && (a <=? MaxUint64)
          then (if requireExactAmount then a =? balance else a <=? balance) else false
        end in
      if negb amountValid then Err IncorrectWithdrawalAmount
      else withdrawLoop requireExactAmount ls ws
    end
  end.

(** [exactMode] is whether the amounts must match exactly, from the transaction's
    own mode or the scripts it needs; before Dijkstra it is [Ok true]. *)
Definition UtxoValidateWithdrawals (exactMode : result ruleError bool) (tx : Transaction)
    (ls : LedgerState) : check :=
  match Withdrawals tx with
  | None => Ok ()
  | Some ws =>
    _ ← ValidateWithdrawalAddresses ws;
    requireExactAmount ← exactMode;
    withdrawLoop requireExactAmount ls ws
  end.

(** ** Conservation of value *)

Definition StakeCredentialDepositOrDefault (ls : LedgerState) (cred : Credential) (fallback : Z)
    : result ruleError Z :=
  match StakeCredentialDeposit ls with
  | None => Ok fallback
  | Some depositState =>
    deposit ← ls_result (depositState cred);
    Ok (default fallback deposit)
  end.

Definition PoolRegistrationDepositDue (ls : LedgerState) (slot : Z) (operator : PoolKeyHash)
    : result ruleError bool :=
  st ← ls_result (PoolCurrentState ls operator);
  let '(reg, retirementEpoch) := st in
  match reg with
  | None => Ok true
  | Some _ =>
    match retirementEpoch with
    | None => Ok false
    | Some e =>
      match EpochForSlot ls with
      | None => Err EpochStateUnavailable
      | Some epochForSlot =>
        currentEpoch ← ls_result (epochForSlot slot);
        Ok (e <=? currentEpoch)
      end
    end
  end.

(** The loop over the certificates that adds up refunds, with the registrations
    and deposits it has met. *)
Fixpoint refundLoop (ls : LedgerState) (pp : ProtocolParameters) (certs : list Certificate)
    (stakeRegistered : gmap Credential bool) (stakeDeposits : gmap Credential Z) (consumed : Z)
    : result ruleError Z :=
  match certs with
  | [] => Ok consumed
  | StakeDeregistration cred :: certs =>
    st ← match stakeRegistered !! cred with
         | Some registered => Ok (registered, stakeDeposits)
         | None =>
           if IsStakeCredentialRegistered ls cred then
             deposit ← StakeCredentialDepositOrDefault ls cred (KeyDeposit pp);
             Ok (true, <[cred := deposit]> stakeDeposits)
           else Ok (false, stakeDeposits)
         end;
    let '(registered, stakeDeposits) := st in
    if registered : bool
    then refundLoop ls pp certs (<[cred := false]> stakeRegistered) stakeDeposits
           (consumed + default 0 (stakeDeposits !! cred))
    else refundLoop ls pp certs stakeRegistered stakeDeposits consumed
  | StakeRegistration cred :: certs =>
    refundLoop ls pp certs (<[cred := true]> stakeRegistered)
      (<[cred := KeyDeposit pp]> stakeDeposits) consumed
  | _ :: certs => refundLoop ls pp certs stakeRegistered stakeDeposits consumed
  end.

(** The loop that adds up deposits. *)
Fixpoint depositLoop (ls : LedgerState) (pp : ProtocolParameters) (slot : Z) (certs : list Certificate)
    (seenPoolRegistrations : gset PoolKeyHash) (produced : Z) : result ruleError Z :=
  match certs with
  | [] => Ok produced
  | PoolRegistration reg :: certs =>
    if bool_decide (Operator reg ∈ seenPoolRegistrations)
    then depositLoop ls pp slot certs seenPoolRegistrations produced
    else
    depositDue ← PoolRegistrationDepositDue ls slot (Operator reg);
    depositLoop ls pp slot certs ({[Operator reg]} ∪ seenPoolRegistrations)
      (if depositDue : bool then produced + PoolDeposit pp else produced)
  | StakeRegistration _ :: certs =>
    depositLoop ls pp slot certs seenPoolRegistrations (produced + KeyDeposit pp)
  | _ :: certs => depositLoop ls pp slot certs seenPoolRegistrations produced
  end.

Definition inputValue (ls : LedgerState) (i : TransactionInput) : Z :=
  match UtxoById ls i with Some o => default 0 (Amount o) | None => 0 end.

Definition UtxoValidateValueNotConservedUtxo (tx : Transaction) (slot : Z) (ls : LedgerState)
    (pp : ProtocolParameters) : check :=
  let inputs := sum_by (inputValue ls) (Inputs tx) in
  let withdrawn := sum_by (fun w => default 0 (snd w)) (default [] (Withdrawals tx)) in
  consumedValue ← refundLoop ls pp (Certificates tx) ∅ ∅ (inputs + withdrawn);
  let outputs := sum_by (fun o => default 0 (Amount o)) (Outputs tx) in
  producedValue ← depositLoop ls pp slot (Certificates tx) ∅ (outputs + default 0 (Fee tx));
  if consumedValue =? producedValue then Ok () else Err (ValueNotConserved consumedValue producedValue).

(** ** Delegation and instantaneous rewards *)

Definition MirTransferAllowed (major : Z) : bool := 4 <? major.

(** One certificate's deltas. *)
Fixpoint mirDeltas (allowed : bool) (ls : LedgerState) (source : Z)
    (rewards : list (option Credential * option Z))
    (pending : gmap (Z * Credential) (Z * bool)) : result ruleError (gmap (Z * Credential) (Z * bool)) :=
  match rewards with
  | [] => Ok pending
  | (_, None) :: rewards => mirDeltas allowed ls source rewards pending
  | (cred, Some delta) :: rewards =>
    let tmpCred := default (0, []) cred in
    if negb allowed then
      if delta <? 0 then Err MIRNegativesNotCurrentlyAllowed
      else mirDeltas allowed ls source rewards pending
    else
    total ← match pending !! (source, tmpCred) with
            | Some total => Ok total
            | None => ls_result (PendingInstantaneousRewards ls source tmpCred)
            end;
    let next := fst total + delta in
    if next <? 0 then
      if negb (snd total) then Err PendingInstantaneousRewardsUnavailable
      else Err MIRProducesNegativeUpdate
    else mirDeltas allowed ls source rewards (<[(source, tmpCred) := (next, snd total)]> pending)
  end.

Fixpoint mirLoop (allowed : bool) (ls : LedgerState) (certs : list Certificate)
    (pending : gmap (Z * Credential) (Z * bool)) : check :=
  match certs with
  | [] => Ok ()
  | MirTransfer _ :: certs =>
    if negb allowed then Err MIRTransferNotCurrentlyAllowed else mirLoop allowed ls certs pending
  | MirRewards source rewards :: certs =>
    pending ← mirDeltas allowed ls source rewards pending;
    mirLoop allowed ls certs pending
  | _ :: certs => mirLoop allowed ls certs pending
  end.

Definition validateMirCertificates (tx : Transaction) (ls : LedgerState) (pp : ProtocolParameters) : check :=
  mirLoop (MirTransferAllowed (ProtocolMajorVersion pp)) ls (Certificates tx) ∅.

Fixpoint delegationLoop (ls : LedgerState) (certs : list Certificate)
    (inTxStakeState : gmap Credential bool) (inTxPoolRegs : gset PoolKeyHash) : check :=
  match certs with
  | [] => Ok ()
  | StakeRegistration cred :: certs => delegationLoop ls certs (<[cred := true]> inTxStakeState) inTxPoolRegs
  | StakeDeregistration cred :: certs => delegationLoop ls certs (<[cred := false]> inTxStakeState) inTxPoolRegs
  | PoolRegistration reg :: certs => delegationLoop ls certs inTxStakeState ({[Operator reg]} ∪ inTxPoolRegs)
  | StakeDelegation cred pool :: certs =>
    if negb (IsPoolRegistered ls pool || bool_decide (pool ∈ inTxPoolRegs))
    then Err (DelegateToUnregisteredPool pool)
    else match cred with
    | Some c =>
      if negb (default (IsStakeCredentialRegistered ls c) (inTxStakeState !! c))
      then Err (DelegateUnregisteredCredential c)
      else delegationLoop ls certs inTxStakeState inTxPoolRegs
    | None => delegationLoop ls certs inTxStakeState inTxPoolRegs
    end
  | _ :: certs => delegationLoop ls certs inTxStakeState inTxPoolRegs
  end.

Definition UtxoValidateDelegation (tx : Transaction) (ls : LedgerState) (pp : ProtocolParameters) : check :=
  _ ← validateMirCertificates tx ls pp;
  delegationLoop ls (Certificates tx) ∅ ∅.

(** ** Stake pool certificates *)

Definition PoolAccountNetworkIdValidated (major : Z) : bool := 4 <? major.
Definition DuplicateVrfKeysDisallowed (major : Z) : bool := 10 <? major.
Definition PoolMetadataHashRestricted (major : Z) : bool := 4 <? major.

Definition ValidatePoolMetadataForProtocolVersion (m : option PoolMetadata) (major : Z) : check :=
  let maxURLLength := if major <? 9 then 64 else 128 in
  match m with
  | None => Ok ()
  | Some m => if blen (Url m) <=? maxURLLength then Ok () else Err PoolMetadataURLTooLong
  end.

(** The pool state after the registrations visited in one transaction. *)
Record poolCertificateState := mkPoolState {
  current : gmap PoolKeyHash PoolRegistrationCertificate;
  future : gmap PoolKeyHash PoolRegistrationCertificate;
  vrfOwners : gmap VrfKeyHash PoolKeyHash
}.

Definition newPoolCertificateState : poolCertificateState := mkPoolState ∅ ∅ ∅.

Definition currentRegistration (ls : LedgerState) (s : poolCertificateState) (pool : PoolKeyHash)
    : result ruleError (option PoolRegistrationCertificate) :=
  match current s !! pool with
  | Some c => Ok (Some c)
  | None => st ← ls_result (PoolCurrentState ls pool); Ok (fst st)
  end.

Definition applyRegistration (ls : LedgerState) (cert : PoolRegistrationCertificate)
    (s : poolCertificateState) : result ruleError poolCertificateState :=
  cur ← currentRegistration ls s (Operator cert);
  let s' :=
    match cur with
    | None => mkPoolState (<[Operator cert := cert]> (current s)) (future s) (vrfOwners s)
    | Some cur =>
      let owners :=
        match future s !! Operator cert with
        | Some previous =>
          if bool_decide (RegVrfKeyHash previous <> RegVrfKeyHash cur) &&
             bool_decide (vrfOwners s !! RegVrfKeyHash previous = Some (Operator cert))
          then delete (RegVrfKeyHash previous) (vrfOwners s) else vrfOwners s
        | None => vrfOwners s
        end in
      mkPoolState (current s) (<[Operator cert := cert]> (future s)) owners
    end in
  Ok (mkPoolState (current s') (future s') (<[RegVrfKeyHash cert := Operator cert]> (vrfOwners s'))).

(** Whether the pool already holds this VRF key in its current registration. *)
Definition holdsVrf (cur : option PoolRegistrationCertificate) (cert : PoolRegistrationCertificate) : bool :=
  match cur with Some c => bool_decide (RegVrfKeyHash c = RegVrfKeyHash cert) | None => false end.

(** The VRF part of [validatePoolRegistration]. *)
Definition validateVrf (ls : LedgerState) (cert : PoolRegistrationCertificate) (s : poolCertificateState) : check :=
  match IsFutureVrfKeyInUse ls with
  | None => Err FuturePoolParametersStateUnavailable
  | Some futureInUse =>
    _ ← match vrfOwners s !! RegVrfKeyHash cert with
        | None => Ok ()
        | Some owner =>
          cur ← currentRegistration ls s (Operator cert);
          if negb (bool_decide (owner = Operator cert)) || negb (holdsVrf cur cert)
          then Err (VrfKeyHashAlreadyRegistered owner) else Ok ()
        end;
    use ← ls_result (IsVrfKeyInUse ls (RegVrfKeyHash cert));
    let '(inUse, owningPool) := use in
    _ ← (if inUse && bool_decide (owningPool = Operator cert) then
           cur ← currentRegistration ls s (Operator cert);
           if negb (holdsVrf cur cert) then Err (VrfKeyHashAlreadyRegistered owningPool) else Ok ()
         else Ok ());
    if inUse && negb (bool_decide (owningPool = Operator cert))
    then Err (VrfKeyHashAlreadyRegistered owningPool) else
    fut ← ls_result (futureInUse (RegVrfKeyHash cert));
    let '(inUse', futureOwner) := fut in
    let inUse' := match future s !! futureOwner with
                  | Some replacement =>
                    if bool_decide (RegVrfKeyHash replacement <> RegVrfKeyHash cert) then false else inUse'
                  | None => inUse'
                  end in
    if inUse' : bool then
      cur ← currentRegistration ls s (Operator cert);
      if negb (bool_decide (futureOwner = Operator cert)) || negb (holdsVrf cur cert)
      then Err (VrfKeyHashAlreadyRegistered futureOwner) else Ok ()
    else Ok ()
  end.

Definition validatePoolRegistration (ls : LedgerState) (pp : ProtocolParameters)
    (cert : PoolRegistrationCertificate) (s : poolCertificateState) : check :=
  let major := ProtocolMajorVersion pp in
  _ ← ValidatePoolMetadataForProtocolVersion (Metadata cert) major;
  if PoolAccountNetworkIdValidated major &&
     match RewardAccountNetworkId cert with Some n => negb (n =? NetworkId ls) | None => false end
  then Err WrongNetworkPool
  else if PoolMetadataHashRestricted major &&
     match Metadata cert with Some m => 32 <? blen (MetaHash m) | None => false end
  then Err PoolMetadataHashTooBig
  else if Cost cert <? MinPoolCost pp then Err StakePoolCostTooLow
  else if negb (DuplicateVrfKeysDisallowed major) then Ok ()
  else validateVrf ls cert s.

Definition validatePoolRetirement (ls : LedgerState) (pp : ProtocolParameters) (slot : Z)
    (pool : PoolKeyHash) (epoch : Z) (inTxPoolRegs : gset PoolKeyHash) : check :=
  if negb (IsPoolRegistered ls pool) && negb (bool_decide (pool ∈ inTxPoolRegs))
  then Err (StakePoolNotRegisteredOnKey pool)
  else match EpochForSlot ls with
  | None => if epoch =? 0 then Err (StakePoolRetirementWrongEpoch epoch) else Err EpochStateUnavailable
  | Some epochForSlot =>
    currentEpoch ← ls_result (epochForSlot slot);
    let limitEpoch := u64 (currentEpoch + PoolRetirementMaxEpoch pp) in
    let limitEpoch := if limitEpoch <? currentEpoch then MaxUint64 else limitEpoch in
    if (epoch <=? currentEpoch) || (limitEpoch <? epoch)
    then Err (StakePoolRetirementWrongEpoch epoch) else Ok ()
  end.

Definition hasPoolCertificate (certs : list Certificate) : bool :=
  existsb (fun c => match c with PoolRegistration _ | PoolRetirement _ _ => true | _ => false end) certs.

Fixpoint poolLoop (ls : LedgerState) (pp : ProtocolParameters) (slot : Z) (certs : list Certificate)
    (inTxPoolRegs : gset PoolKeyHash) (s : poolCertificateState) : check :=
  match certs with
  | [] => Ok ()
  | PoolRegistration reg :: certs =>
    _ ← validatePoolRegistration ls pp reg s;
    s' ← (if DuplicateVrfKeysDisallowed (ProtocolMajorVersion pp) then applyRegistration ls reg s else Ok s);
    poolLoop ls pp slot certs ({[Operator reg]} ∪ inTxPoolRegs) s'
  | PoolRetirement pool epoch :: certs =>
    _ ← validatePoolRetirement ls pp slot pool epoch inTxPoolRegs;
    poolLoop ls pp slot certs inTxPoolRegs s
  | _ :: certs => poolLoop ls pp slot certs inTxPoolRegs s
  end.

Definition UtxoValidatePoolCertificates (tx : Transaction) (slot : Z) (ls : LedgerState)
    (pp : ProtocolParameters) : check :=
  if negb (IsValid tx) then Ok ()
  else if negb (hasPoolCertificate (Certificates tx)) then Ok ()
  else poolLoop ls pp slot (Certificates tx) ∅ newPoolCertificateState.

(** ** The rules of the era, in order *)

(** The rules that live in other files: metadata, witnesses, signatures, scripts,
    parameter updates and the quorum of instantaneous rewards. *)
Record OtherRules := mkOtherRules {
  rMetadata : Transaction -> check;
  rRequiredVKeyWitnesses : Transaction -> check;
  rSignatures : Transaction -> check;
  rProtocolParameterUpdates : Transaction -> check;
  rNativeScripts : Transaction -> check;
  rScriptWitnesses : Transaction -> check;
  rMIRGenesisQuorum : Transaction -> check;
  rExactMode : Transaction -> result ruleError bool
}.

Definition UtxoValidationRules (o : OtherRules) (slot : Z) (ls : LedgerState) (pp : ProtocolParameters)
    : list (Transaction -> check) :=
  [ rMetadata o;
    rRequiredVKeyWitnesses o;
    rSignatures o;
    rProtocolParameterUpdates o;
    fun tx => UtxoValidateTimeToLive tx slot;
    UtxoValidateInputSetEmptyUtxo;
    UtxoValidateNoDuplicateInputs;
    fun tx => UtxoValidateFeeTooSmallUtxo tx pp;
    fun tx => UtxoValidateBadInputsUtxo tx ls;
    rNativeScripts o;
    rScriptWitnesses o;
    fun tx => UtxoValidateWrongNetwork tx ls;
    fun tx => UtxoValidateWrongNetworkWithdrawal tx ls;
    fun tx => UtxoValidateValueNotConservedUtxo tx slot ls pp;
    fun tx => UtxoValidateOutputTooSmallUtxo tx pp;
    UtxoValidateOutputBootAddrAttrsTooBig;
    fun tx => UtxoValidateMaxTxSizeUtxo tx pp;
    fun tx => UtxoValidateDelegation tx ls pp;
    rMIRGenesisQuorum o;
    fun tx => UtxoValidateWithdrawals (rExactMode o tx) tx ls;
    fun tx => UtxoValidatePoolCertificates tx slot ls pp ].

(** [VerifyTransaction]: the first rule that fails, by its index. *)
Fixpoint verifyLoop (i : Z) (rules : list (Transaction -> check)) (tx : Transaction)
    : result (Z * ruleError) unit :=
  match rules with
  | [] => Ok ()
  | rule :: rules =>
    match rule tx with Err e => Err (i, e) | Ok _ => verifyLoop (i + 1) rules tx end
  end.

Definition VerifyTransaction (rules : list (Transaction -> check)) (tx : Transaction)
    : result (Z * ruleError) unit := verifyLoop 0 rules tx.
