(* ===== verification/ShelleyLedger.v ===== *)
(** * What the Shelley rules guarantee

    An accounting ledger (unspent outputs, reward accounts, deposits and fees),
    the effect of a transaction on it, and the theorem that a transaction which
    the rules accept neither creates nor destroys ada; then the exact behaviour
    of the single rules. *)

From S2P Require Import Prelude ShelleyRules.

(** ** The accounting ledger *)

Record Ledger := mkLedger {
  utxo : gmap TransactionInput Z;
  rewards : gmap Credential Z;
  deposits : gmap Credential Z;
  pools : gmap PoolKeyHash Z;
  fees : Z
}.

(** All the ada there is. *)
Definition total (l : Ledger) : Z :=
  msum (utxo l) + msum (rewards l) + msum (deposits l) + msum (pools l) + fees l.

(** A ledger state that reports this ledger. *)
Record reports (ls : LedgerState) (slot : Z) (l : Ledger) : Prop := {
  rep_utxo i : utxo l !! i = (fun o => default 0 (Amount o)) <$> UtxoById ls i;
  rep_rewards c : RewardAccountBalance ls c = Some (rewards l !! c);
  rep_registered c : IsStakeCredentialRegistered ls c = bool_decide (is_Some (deposits l !! c));
  rep_deposit c d k : deposits l !! c = Some d -> StakeCredentialDepositOrDefault ls c k = Ok d;
  rep_pool p : PoolRegistrationDepositDue ls slot p = Ok (bool_decide (pools l !! p = None))
}.

Definition spend (ins : list TransactionInput) (u : gmap TransactionInput Z) : gmap TransactionInput Z :=
  foldr delete u ins.

Fixpoint produce (txid : bytes) (n : Z) (outs : list TransactionOutput) (u : gmap TransactionInput Z)
    : gmap TransactionInput Z :=
  match outs with
  | [] => u
  | o :: outs => produce txid (n + 1) outs (<[(txid, n) := default 0 (Amount o)]> u)
  end.

Fixpoint withdraw (ws : list (option Address * option Z)) (r : gmap Credential Z) : gmap Credential Z :=
  match ws with
  | [] => r
  | (a, amount) :: ws =>
    match RewardAccountCredential a with
    | Ok c => withdraw ws (<[c := default 0 (r !! c) - default 0 amount]> r)
    | Err _ => withdraw ws r
    end
  end.

(** The effect of a certificate on deposits: the pair of stake deposits and pool deposits. *)
Definition applyCert (pp : ProtocolParameters) (c : Certificate)
    (d : gmap Credential Z * gmap PoolKeyHash Z) : gmap Credential Z * gmap PoolKeyHash Z :=
  match c with
  | StakeRegistration cred => (<[cred := KeyDeposit pp]> (fst d), snd d)
  | StakeDeregistration cred => (delete cred (fst d), snd d)
  | PoolRegistration reg =>
    (fst d, match snd d !! Operator reg with Some _ => snd d | None => <[Operator reg := PoolDeposit pp]> (snd d) end)
  | _ => d
  end.

Fixpoint applyCerts (pp : ProtocolParameters) (cs : list Certificate)
    (d : gmap Credential Z * gmap PoolKeyHash Z) : gmap Credential Z * gmap PoolKeyHash Z :=
  match cs with [] => d | c :: cs => applyCerts pp cs (applyCert pp c d) end.

Definition applyTx (pp : ProtocolParameters) (txid : bytes) (tx : Transaction) (l : Ledger) : Ledger :=
  let d := applyCerts pp (Certificates tx) (deposits l, pools l) in
  mkLedger (produce txid 0 (Outputs tx) (spend (Inputs tx) (utxo l)))
    (withdraw (default [] (Withdrawals tx)) (rewards l)) (fst d) (snd d) (fees l + default 0 (Fee tx)).

(** No certificate registers a credential that is registered at that point. *)
Fixpoint fresh_registrations (pp : ProtocolParameters) (cs : list Certificate)
    (d : gmap Credential Z * gmap PoolKeyHash Z) : Prop :=
  match cs with
  | [] => True
  | c :: cs =>
    (forall cred, c = StakeRegistration cred -> fst d !! cred = None) /\
    fresh_registrations pp cs (applyCert pp c d)
  end.

(** The deposits that the certificates lose: each registration of a credential
    that is registered at that point puts the new deposit in place of the one
    that is kept. *)
Fixpoint overwritten (pp : ProtocolParameters) (cs : list Certificate)
    (d : gmap Credential Z * gmap PoolKeyHash Z) : Z :=
  match cs with
  | [] => 0
  | c :: cs =>
    match c with StakeRegistration cred => default 0 (fst d !! cred) | _ => 0 end + overwritten pp cs (applyCert pp c d)
  end.

Lemma fresh_overwritten pp cs : forall d, fresh_registrations pp cs d -> overwritten pp cs d = 0.
Proof.
  induction cs as [|c cs IH]; intros d; [done|]. cbn [fresh_registrations overwritten]. intros [Hc Hcs]. rewrite (IH _ Hcs).
  destruct c; try done. by rewrite (Hc _ eq_refl).
Qed.

(** ** Outputs and inputs *)

Lemma spend_lookup (ins : list TransactionInput) u i :
  (i ∉ ins) -> spend ins u !! i = u !! i.
Proof.
  induction ins as [|j ins IH]; [done|]. intros Hi. apply not_elem_of_cons in Hi as [Hne Hi].
  simpl. rewrite lookup_delete_ne by done. by apply IH.
Qed.

Lemma spend_sum (f : TransactionInput -> Z) (ins : list TransactionInput) u :
  NoDup ins -> (forall i, i ∈ ins -> u !! i = Some (f i)) -> msum (spend ins u) = msum u - sum_by f ins.
Proof.
  induction ins as [|i ins IH]; intros Hnd Hin; simpl; [lia|].
  apply NoDup_cons in Hnd as [Hi Hnd].
  rewrite (msum_delete _ i (f i)).
  - rewrite IH; [lia|done|]. intros j Hj. apply Hin. by constructor.
  - fold (spend ins u). rewrite spend_lookup by done. apply Hin. constructor.
Qed.

Lemma spend_fresh (ins : list TransactionInput) u i : u !! i = None -> spend ins u !! i = None.
Proof.
  intros Hu. induction ins as [|j ins IH]; [done|]. simpl. destruct (decide (i = j)) as [->|].
  - apply lookup_delete_eq.
  - by rewrite lookup_delete_ne.
Qed.

Lemma produce_sum txid outs : forall n u,
  (forall k, n <= k -> u !! (txid, k) = None) ->
  msum (produce txid n outs u) = msum u + sum_by (fun o => default 0 (Amount o)) outs.
Proof.
  induction outs as [|o outs IH]; intros n u Hf; simpl; [lia|].
  rewrite IH.
  - rewrite msum_insert_fresh by (apply Hf; lia). lia.
  - intros k Hk. rewrite lookup_insert_ne by (intros [= E]; lia). apply Hf. lia.
Qed.

(** ** Duplicates *)

Lemma duplicateLoop_none (ins : list TransactionInput) : forall seen,
  duplicateLoop seen ins = None <-> NoDup ins /\ (forall i, i ∈ ins -> i ∈ seen -> False).
Proof.
  induction ins as [|i ins IH]; intros seen; cbn [duplicateLoop].
  - split; [|done]. intros _. split; [constructor|]. by intros i Hi%elem_of_nil.
  - case_bool_decide as Hi.
    + split; [done|]. intros [_ Hd]. exfalso. apply (Hd i); [constructor|done].
    + rewrite IH, NoDup_cons. split.
      * intros [Hnd Hd]. split_and!; try done.
        -- intros Hin. apply (Hd i Hin). constructor.
        -- intros j [->|Hj]%elem_of_cons Hs; [done|]. apply (Hd j Hj). by constructor.
      * intros [[Hni Hnd] Hd]. split; [done|]. intros j Hj [->|Hs]%elem_of_cons; [done|].
        apply (Hd j); [by constructor|done].
Qed.

Lemma firstDuplicateInput_none ins : firstDuplicateInput ins = None <-> NoDup ins.
Proof.
  unfold firstDuplicateInput. destruct (Z.ltb_spec (blen ins) 2) as [Hlt|].
  - split; [|done]. intros _. destruct ins as [|a [|b ins]]; [constructor|apply NoDup_singleton|].
    rewrite !blen_cons in Hlt. pose proof (blen_nonneg ins). lia.
  - rewrite duplicateLoop_none. split; [tauto|]. intros. split; [done|]. by intros i _ Hi%elem_of_nil.
Qed.

(** ** Deposits and refunds *)

Definition regDeposit (pp : ProtocolParameters) (c : Certificate) : Z :=
  match c with StakeRegistration _ => KeyDeposit pp | _ => 0 end.

(** What the refund loop has cached about the stake deposits [D], which started as [D0]. *)
Definition cached (D0 : gmap Credential Z) (reg : gmap Credential bool) (sd D : gmap Credential Z) : Prop :=
  forall c, match reg !! c with
            | Some true => D !! c = Some (default 0 (sd !! c))
            | Some false => D !! c = None
            | None => D !! c = D0 !! c
            end.

Lemma cached_update D0 reg sd D c b v :
  cached D0 reg sd D ->
  cached D0 (<[c := b]> reg) (<[c := v]> sd) (if b : bool then <[c := v]> D else delete c D).
Proof.
  intros Hc x. specialize (Hc x). destruct (decide (x = c)) as [->|Hne].
  - rewrite lookup_insert_eq. destruct b; [|apply lookup_delete_eq]. by rewrite !lookup_insert_eq.
  - rewrite lookup_insert_ne by done. destruct (reg !! x) as [[]|]; destruct b;
      rewrite ?(lookup_insert_ne D), ?(lookup_delete_ne D), ?(lookup_insert_ne sd) by done; done.
Qed.

(** Dropping a credential from the deposits. *)
Lemma cached_drop D0 reg sd D c :
  cached D0 reg sd D -> cached D0 (<[c := false]> reg) sd (delete c D).
Proof.
  intros Hc x. specialize (Hc x). destruct (decide (x = c)) as [->|].
  - rewrite lookup_insert_eq. apply lookup_delete_eq.
  - by rewrite lookup_insert_ne, lookup_delete_ne.
Qed.

(** What the loop learns about a credential that is deregistered: whether it is
    registered at that point, and its deposit. *)
Lemma cached_lookup ls slot l pp reg sd D cred :
  reports ls slot l -> cached (deposits l) reg sd D ->
  exists d0,
    match reg !! cred with
    | Some registered => Ok (registered, sd)
    | None => if IsStakeCredentialRegistered ls cred then
        deposit ← StakeCredentialDepositOrDefault ls cred (KeyDeposit pp);
        Ok (true, <[cred := deposit]> sd) else Ok (false, sd)
    end = (Ok (bool_decide (is_Some (D !! cred)), d0) : result ruleError _) /\
    (forall d, D !! cred = Some d -> default 0 (d0 !! cred) = d) /\
    cached (deposits l) (<[cred := false]> reg) d0 (delete cred D) /\
    (D !! cred = None -> d0 = sd).
Proof.
  intros Hrep Hc. pose proof (Hc cred) as Hcc. destruct (reg !! cred) as [[]|].
  - exists sd. rewrite Hcc. split_and!; try done; [|by apply cached_drop]. by intros d [= <-].
  - exists sd. rewrite Hcc. split_and!; try done. by apply cached_drop.
  - rewrite (rep_registered _ _ _ Hrep), <- Hcc. destruct (D !! cred) as [d|] eqn:Ed.
    + rewrite bool_decide_true by done. rewrite (rep_deposit _ _ _ Hrep cred d) by congruence. simpl mbind.
      exists (<[cred := d]> sd). split_and!; try done.
      * intros d' [= <-]. by rewrite lookup_insert_eq.
      * apply (cached_update _ _ _ _ cred false d Hc).
    + rewrite bool_decide_false by (by intros []). exists sd. split_and!; try done. by apply cached_drop.
Qed.

(** The refund loop adds the difference the certificates make to the stake deposits. *)
Lemma refundLoop_sum ls slot l pp certs : forall reg sd D P consumed,
  reports ls slot l -> cached (deposits l) reg sd D ->
  refundLoop ls pp certs reg sd consumed =
  Ok (consumed + msum D + sum_by (regDeposit pp) certs - overwritten pp certs (D, P) - msum (fst (applyCerts pp certs (D, P)))).
Proof.
  induction certs as [|c certs IH]; intros reg sd D P consumed Hrep Hc.
  { simpl. f_equal. lia. }
  destruct c as [cred|cred|ocred pool|r|pool ep|src|src rw|];
    cbn [refundLoop applyCerts sum_by regDeposit overwritten applyCert fst snd] in *.
  - rewrite (IH _ _ (<[cred := KeyDeposit pp]> D) P); [|done|by apply (cached_update _ _ _ _ _ true)].
    f_equal. rewrite msum_insert. lia.
  - destruct (cached_lookup ls slot l pp reg sd D cred Hrep Hc) as (d0 & -> & Hd0 & Hc' & Hsame). simpl mbind.
    destruct (D !! cred) as [d|] eqn:Ed.
    + rewrite bool_decide_true by done. rewrite (IH _ _ (delete cred D) P) by done. f_equal.
      rewrite (msum_delete D cred d Ed).
      rewrite (Hd0 d eq_refl). lia.
    + rewrite bool_decide_false by (by intros []). rewrite (Hsame eq_refl), (delete_id D cred Ed) in *.
      rewrite (IH _ _ D P) by done. done.
  - by rewrite (IH _ _ D P).
  - by rewrite (IH _ _ D (match P !! Operator r with Some _ => P | None => <[Operator r:=PoolDeposit pp]> P end)).
  - by rewrite (IH _ _ D P).
  - by rewrite (IH _ _ D P).
  - by rewrite (IH _ _ D P).
  - by rewrite (IH _ _ D P).
Qed.

(** The deposit loop adds the key deposits and the growth of the pool deposits. *)
Lemma depositLoop_sum ls slot l pp certs : forall seen D P produced,
  reports ls slot l ->
  (forall p, if bool_decide (p ∈ seen) then is_Some (P !! p) else P !! p = pools l !! p) ->
  depositLoop ls pp slot certs seen produced =
  Ok (produced + sum_by (regDeposit pp) certs + msum (snd (applyCerts pp certs (D, P))) - msum P).
Proof.
  induction certs as [|c certs IH]; intros seen D P produced Hrep Hs.
  { simpl. f_equal. lia. }
  destruct c as [cred|cred|ocred pool|r|pool ep|src|src rw|];
    cbn [depositLoop applyCerts sum_by regDeposit applyCert fst snd] in *.
  4:{ pose proof (Hs (Operator r)) as Hr. case_bool_decide as Hin.
      - destruct Hr as [d Hr]. rewrite Hr. by rewrite (IH _ D P).
      - rewrite (rep_pool _ _ _ Hrep). simpl mbind. rewrite <- Hr.
        destruct (P !! Operator r) as [d|] eqn:Ep.
        + rewrite bool_decide_false by done. rewrite (IH _ D P); [done..|].
          intros p. specialize (Hs p). destruct (decide (p = Operator r)) as [->|Hne].
          * rewrite bool_decide_true by set_solver. by rewrite Ep.
          * case_bool_decide; case_bool_decide; try done; set_solver.
        + rewrite bool_decide_true by done. rewrite (IH _ D (<[Operator r := PoolDeposit pp]> P)); [|done|].
          * f_equal. rewrite msum_insert_fresh by done. lia.
          * intros p. specialize (Hs p). destruct (decide (p = Operator r)) as [->|Hne].
            -- rewrite bool_decide_true by set_solver. by rewrite lookup_insert_eq.
            -- rewrite lookup_insert_ne by done.
               case_bool_decide; case_bool_decide; try done; set_solver. }
  - rewrite (IH _ (<[cred := KeyDeposit pp]> D) P) by done. f_equal. lia.
  - by rewrite (IH _ (delete cred D) P).
  - by rewrite (IH _ D P).
  - by rewrite (IH _ D P).
  - by rewrite (IH _ D P).
  - by rewrite (IH _ D P).
  - by rewrite (IH _ D P).
Qed.

(** ** Withdrawals *)

(** The bytes of a reward account: its header and the hash of its credential. *)
Definition addr_wf (a : Address) : Prop :=
  forall raw cred, addressBytes a = Some raw -> stakeCredential a = Some cred ->
    raw = (16 * addressType a + networkId a) :: snd cred.

Lemma RewardAccountCredential_Ok a c :
  RewardAccountCredential a = Ok c ->
  exists x raw, a = Some x /\ addressBytes x = Some raw /\ stakeCredential x = Some c /\
    (addressType x = 14 /\ fst c = 0 \/ addressType x = 15 /\ fst c = 1).
Proof.
  unfold RewardAccountCredential, AddressTypeNoneKey, AddressTypeNoneScript. destruct a as [x|]; [|done].
  destruct (Z.eqb_spec (addressType x) 14) as [E|]; [|destruct (Z.eqb_spec (addressType x) 15) as [E|]; [|done]];
    cbn [orb negb]; (destruct (negb (networkId x =? 0) && _); [done|]);
    (destruct (addressBytes x) as [raw|] eqn:Eb; [|done]); (destruct (negb (blen raw =? 29)); [done|]);
    (destruct (0 <? blen (trailingBytes x)); [done|]); (destruct (stakeCredential x) as [c'|] eqn:Es; [|done]);
    match goal with |- context [fst c' =? ?n] => destruct (Z.eqb_spec (fst c') n); [|done] end;
    intros [= <-]; exists x, raw; split_and!; auto.
Qed.

(** Accepted withdrawal addresses have credentials, and their bytes differ. *)
Lemma withdrawalAddressLoop_Ok {T} (ws : list (option Address * T)) : forall seen,
  withdrawalAddressLoop seen ws = Ok () ->
  Forall (fun w => exists c, RewardAccountCredential (fst w) = Ok c) ws /\
  NoDup ((fun w => fst w ≫= addressBytes) <$> ws) /\
  (forall w raw, w ∈ ws -> fst w ≫= addressBytes = Some raw -> raw ∈ seen -> False).
Proof.
  induction ws as [|[a x] ws IH]; intros seen; cbn [withdrawalAddressLoop].
  - intros _. split_and!; [constructor|constructor|]. by intros w raw Hw%elem_of_nil.
  - intros (c & Ec & E)%bind_Ok. destruct (a ≫= addressBytes) as [raw|] eqn:Ea; [|done].
    case_bool_decide as Hin; [done|]. apply IH in E as (H1 & H2 & H3). split_and!.
    + constructor; [by exists c|done].
    + rewrite fmap_cons. constructor; [|done]. simpl. rewrite Ea.
      intros (w & Ew & Hw)%list_elem_of_fmap. apply (H3 w raw Hw); [done|constructor].
    + intros w raw' [->|Hw]%elem_of_cons; simpl.
      * rewrite Ea. by intros [= <-].
      * intros Er Hs. apply (H3 w raw' Hw Er). by constructor.
Qed.

Lemma withdraw_sum ws : forall r,
  Forall (fun w => exists c, RewardAccountCredential (fst w) = Ok c) ws ->
  msum (withdraw ws r) = msum r - sum_by (fun w => default 0 (snd w)) ws.
Proof.
  induction ws as [|[a x] ws IH]; intros r Hf; cbn [withdraw sum_by snd]; [lia|].
  apply Forall_cons in Hf as [[c Hc] Hf']. simpl in Hc. rewrite Hc, IH, msum_insert by done. lia.
Qed.

(** The withdrawal loop in exact mode takes each account's balance. *)
Lemma withdrawLoop_exact ls slot l ws :
  reports ls slot l -> withdrawLoop true ls ws = Ok () ->
  Forall (fun w => exists c, RewardAccountCredential (fst w) = Ok c /\ rewards l !! c = snd w /\ is_Some (snd w)) ws.
Proof.
  intros Hrep. induction ws as [|[a x] ws IH]; cbn [withdrawLoop]; [constructor|].
  intros (c & Ec & (b & Eb & E)%bind_Ok)%bind_Ok. rewrite (rep_rewards _ _ _ Hrep) in Eb. injection Eb as <-.
  destruct (rewards l !! c) as [bal|] eqn:Er; [|done]. destruct x as [amt|]; [|done].
  destruct ((0 <=? amt) && (amt <=? MaxUint64)); [|done].
  destruct (Z.eqb_spec amt bal) as [->|]; [|done]. constructor; [|by apply IH].
  exists c. simpl. by rewrite Er.
Qed.

Definition credOf (a : option Address) : option Credential :=
  match RewardAccountCredential a with Ok c => Some c | Err _ => None end.

(** On one network, different bytes are different credentials. *)
Lemma withdrawal_creds_distinct net (ws : list (option Address * option Z)) :
  (forall a x, (Some a, x) ∈ ws -> addr_wf a /\ networkId a = net) ->
  Forall (fun w => exists c, RewardAccountCredential (fst w) = Ok c) ws ->
  NoDup ((fun w => fst w ≫= addressBytes) <$> ws) -> NoDup ((fun w => credOf (fst w)) <$> ws).
Proof.
  induction ws as [|[a x] ws IH]; intros Hwf Hf Hnd; [constructor|].
  rewrite fmap_cons in *. apply NoDup_cons in Hnd as [Hn Hnd]. apply Forall_cons in Hf as [[c Hc] Hf'].
  simpl in Hc. constructor; [|apply IH; try done; intros; eapply Hwf; by constructor].
  intros ([a' x'] & Ec & Hin)%list_elem_of_fmap. simpl in Ec. unfold credOf in Ec. rewrite Hc in Ec.
  destruct (RewardAccountCredential a') as [c'|] eqn:Hc'; [|done]. injection Ec as <-.
  apply RewardAccountCredential_Ok in Hc as (y & raw & -> & Hb & Hs & Ht).
  apply RewardAccountCredential_Ok in Hc' as (y' & raw' & -> & Hb' & Hs' & Ht').
  destruct (Hwf y x ltac:(constructor)) as [W1 N1]. destruct (Hwf y' x' ltac:(by constructor)) as [W2 N2].
  apply Hn, list_elem_of_fmap. exists (Some y', x'). split; [|done]. simpl. rewrite Hb, Hb'. f_equal.
  rewrite (W1 _ _ Hb Hs), (W2 _ _ Hb' Hs'). f_equal. lia.
Qed.

(** Withdrawing a balance leaves zero, and the other accounts alone. *)
Lemma withdraw_lookup (ws : list (option Address * option Z)) : forall r c,
  Forall (fun w => exists c', RewardAccountCredential (fst w) = Ok c' /\ r !! c' = snd w /\ is_Some (snd w)) ws ->
  NoDup ((fun w => credOf (fst w)) <$> ws) ->
  withdraw ws r !! c =
  if bool_decide (Some c ∈ ((fun w => credOf (fst w)) <$> ws)) then Some 0 else r !! c.
Proof.
  induction ws as [|[a x] ws IH]; intros r c Hf Hnd; cbn [withdraw].
  { by rewrite bool_decide_false by (by intros ?%elem_of_nil). }
  apply Forall_cons in Hf as [(c' & Hc & Hr & [amt Hx]) Hf']. simpl in Hc, Hr, Hx. subst x.
  rewrite fmap_cons in *. apply NoDup_cons in Hnd as [Hn Hnd].
  assert (Ecr : credOf a = Some c') by (unfold credOf; by rewrite Hc). simpl in Hn. rewrite Ecr in Hn.
  rewrite Hc, IH; [|clear IH|done].
  - simpl. rewrite Ecr. destruct (decide (c = c')) as [->|Hne].
    + rewrite (bool_decide_false (Some c' ∈ _)) by done. rewrite bool_decide_true by constructor.
      rewrite lookup_insert_eq, Hx. simpl. f_equal. lia.
    + rewrite lookup_insert_ne by done. case_bool_decide as H1; case_bool_decide as H2; try done.
      * destruct H2. by constructor.
      * apply elem_of_cons in H2 as [[= ->]|]; done.
  - rewrite Forall_forall in *. intros w Hw. destruct (Hf' w Hw) as (c2 & H1 & H2 & H3).
    exists c2. split_and!; try done. rewrite lookup_insert_ne; [done|]. intros <-. apply Hn, list_elem_of_fmap.
    exists w. split; [|done]. unfold credOf. by rewrite H1.
Qed.

(** ** The driver *)

Lemma verifyLoop_Ok rules tx : forall i,
  verifyLoop i rules tx = Ok () <-> Forall (fun r => r tx = Ok ()) rules.
Proof.
  induction rules as [|r rules IH]; intros i; cbn [verifyLoop]; [done|].
  rewrite Forall_cons. destruct (r tx) as [[]|e]; [|by split; [|intros []]]. rewrite IH. tauto.
Qed.

Lemma verifyLoop_Err rules tx : forall i n e,
  verifyLoop i rules tx = Err (n, e) <->
  exists k r, n = i + Z.of_nat k /\ rules !! k = Some r /\ r tx = Err e /\
    Forall (fun r => r tx = Ok ()) (take k rules).
Proof.
  induction rules as [|r rules IH]; intros i n e; cbn [verifyLoop].
  - split; [done|]. by intros (k & r & _ & Hk & _).
  - destruct (r tx) as [[]|e'] eqn:Er.
    + rewrite IH. split; intros (k & r' & -> & Hk & He & Hf).
      * exists (S k), r'. simpl. split_and!; try done; [lia|by constructor].
      * destruct k as [|k]; [simpl in Hk; congruence|]. exists k, r'. simpl in *.
        apply Forall_cons in Hf as [_ Hf]. split_and!; try done. lia.
    + split.
      * intros [= <- <-]. exists O, r. simpl. split_and!; try done. lia.
      * intros (k & r' & -> & Hk & He & Hf). destruct k as [|k].
        -- simpl in Hk. injection Hk as <-. rewrite Z.add_0_r. congruence.
        -- simpl in Hf. apply Forall_cons in Hf as [Hf _]. congruence.
Qed.

Lemma filter_empty_Forall {A} (P : A -> Prop) `{!forall x, Decision (P x)} (l : list A) :
  (blen (base.filter P l) =? 0) = true -> forall x, x ∈ l -> ~ P x.
Proof.
  intros E%Z.eqb_eq%blen_0 x Hx Hp. assert (Hin : x ∈ base.filter P l) by (apply list_elem_of_filter; done).
  rewrite E in Hin. by apply elem_of_nil in Hin.
Qed.

(** The rules that the accounting rests on. *)
Lemma rules_facts o slot ls pp tx :
  VerifyTransaction (UtxoValidationRules o slot ls pp) tx = Ok () ->
  NoDup (Inputs tx) /\ (forall i, i ∈ Inputs tx -> is_Some (UtxoById ls i)) /\
  UtxoValidateWrongNetworkWithdrawal tx ls = Ok () /\
  UtxoValidateValueNotConservedUtxo tx slot ls pp = Ok () /\
  UtxoValidateWithdrawals (rExactMode o tx) tx ls = Ok ().
Proof.
  intros H. unfold VerifyTransaction in H. rewrite verifyLoop_Ok in H. unfold UtxoValidationRules in H.
  rewrite !Forall_cons in H.
  destruct H as (_ & _ & _ & _ & _ & _ & H7 & _ & H9 & _ & _ & _ & H13 & H14 & _ & _ & _ & _ & _ & H20 & _).
  split_and!; try done.
  - apply firstDuplicateInput_none. unfold UtxoValidateNoDuplicateInputs in H7.
    by destruct (firstDuplicateInput (Inputs tx)).
  - unfold UtxoValidateBadInputsUtxo in H9. destruct (blen _ =? 0) eqn:E; [|done].
    intros i Hi. pose proof (filter_empty_Forall _ _ E i Hi) as Hn. simpl in Hn.
    destruct (UtxoById ls i); [done|by destruct Hn].
Qed.

(** The withdrawals of an accepted transaction are of this network, and their
    accounts have credentials and different bytes. *)
Lemma withdrawals_addressed tx ls : UtxoValidateWrongNetworkWithdrawal tx ls = Ok () ->
  let ws := default [] (Withdrawals tx) in
  (forall a x, (Some a, x) ∈ ws -> networkId a = NetworkId ls) /\
  Forall (fun w => exists c, RewardAccountCredential (fst w) = Ok c) ws /\ NoDup ((fun w => fst w ≫= addressBytes) <$> ws).
Proof.
  intros Hnet ws. unfold UtxoValidateWrongNetworkWithdrawal in Hnet. fold ws in Hnet. destruct (blen _ =? 0) eqn:E; [|done].
  split.
  - intros a x Ha. pose proof (filter_empty_Forall _ _ E (Some a)) as Hn. simpl in Hn.
    destruct (decide (networkId a = NetworkId ls)); [done|]. destruct Hn; [|congruence].
    change (Some a) with (fst (Some a, x)). by apply list_elem_of_fmap_2.
  - destruct (withdrawalAddressLoop_Ok ws [] Hnet) as (Hcr & Hndw & _). done.
Qed.

(** C6. Accepted transactions account for all ada. Let a ledger state report an
    accounting ledger. When every rule of the era accepts a transaction, applying
    it (spending its inputs, adding its outputs under a fresh identifier, taking
    the withdrawals out of the reward accounts, taking and refunding deposits in
    certificate order, collecting the fee) leaves the total of outputs, rewards,
    deposits and fees less by exactly the deposits of credentials that it
    registers again while they are registered, which the rules let it do; without
    such certificates the total stays. Every input was unspent. Where
    withdrawals must be exact, as in every era before Dijkstra, and the bytes of
    the reward addresses are their header and credential, every withdrawn
    account, and no other, ends at zero. *)
Theorem ada_conserved o slot ls pp txid tx l :
  reports ls slot l -> (forall k, utxo l !! (txid, k) = None) ->
  VerifyTransaction (UtxoValidationRules o slot ls pp) tx = Ok () ->
  let l' := applyTx pp txid tx l in
  total l' + overwritten pp (Certificates tx) (deposits l, pools l) = total l /\
  (fresh_registrations pp (Certificates tx) (deposits l, pools l) -> total l' = total l) /\
  (forall i, i ∈ Inputs tx -> is_Some (utxo l !! i)) /\
  (rExactMode o tx = Ok true -> (forall a x, (Some a, x) ∈ default [] (Withdrawals tx) -> addr_wf a) ->
   forall c, rewards l' !! c =
     if bool_decide (Some c ∈ ((fun w => credOf (fst w)) <$> default [] (Withdrawals tx)))
     then Some 0 else rewards l !! c).
Proof.
  intros Hrep Hid HV l'. destruct (rules_facts _ _ _ _ _ HV) as (Hnd & Hin & Hnet & Hval & Hwd).
  destruct (withdrawals_addressed _ _ Hnet) as (Hnetwork & Hcr & Hndw). set (ws := default [] (Withdrawals tx)) in *.
  assert (HT : total l' + overwritten pp (Certificates tx) (deposits l, pools l) = total l).
  { unfold UtxoValidateValueNotConservedUtxo in Hval. fold ws in Hval.
    rewrite (refundLoop_sum ls slot l pp _ _ _ (deposits l) (pools l)) in Hval by done. simpl mbind in Hval.
    rewrite (depositLoop_sum ls slot l pp _ _ (deposits l) (pools l)) in Hval.
    2: done.
    2:{ intros p. by rewrite bool_decide_false by set_solver. }
    simpl mbind in Hval.
    match type of Hval with (if ?a =? ?b then _ else _) = _ => destruct (Z.eqb_spec a b) as [E|]; [|done] end.
    subst l'. unfold total, applyTx. cbn [utxo rewards deposits pools fees]. fold ws.
    rewrite produce_sum by (intros; by apply spend_fresh).
    rewrite (spend_sum (inputValue ls)), withdraw_sum; [lia|done|done|].
    intros i Hi. rewrite (rep_utxo _ _ _ Hrep). unfold inputValue.
    destruct (Hin i Hi) as [out ->]. done. }
  split_and!; [done| | |].
  - intros Hfr. rewrite (fresh_overwritten _ _ _ Hfr) in HT. lia.
  - intros i Hi. rewrite (rep_utxo _ _ _ Hrep). by apply fmap_is_Some, Hin.
  - intros Hx Hwf c. subst l'. unfold applyTx. cbn [rewards]. fold ws. rewrite Hx in Hwd.
    apply withdraw_lookup.
    + unfold UtxoValidateWithdrawals in Hwd. subst ws. destruct (Withdrawals tx) as [ws|]; [|constructor].
      apply bind_Ok in Hwd as (_ & _ & Hwd). simpl in Hwd. by eapply withdrawLoop_exact.
    + apply (withdrawal_creds_distinct (NetworkId ls)); try done.
      intros a x Ha. split; [by eapply Hwf|by eapply Hnetwork].
Qed.


(** A concrete ledger: one output of 100, a reward account of 7 with a deposit of 2. *)
Definition demoKey : Credential := (0, repeat 1 28).
Definition demoIn : TransactionInput := ([9], 0).
Definition demoAddress : Address := mkAddress 14 0 (Some (224 :: repeat 1 28)) [] (Some demoKey) 0 None.
Definition demoPool : PoolRegistrationCertificate := mkPoolReg [5] [6] 0 None None [].
Definition demoParams : ProtocolParameters := mkPparams 1 2 100 1 3 5 0 18 2.

Definition demoLedger : Ledger :=
  mkLedger {[demoIn := 100]} {[demoKey := 7]} {[demoKey := 2]} ∅ 0.

Definition demoState : LedgerState :=
  mkLedgerState (fun i => mkOutput demoAddress ∘ Some <$> utxo demoLedger !! i) 0
    (fun c => bool_decide (is_Some (deposits demoLedger !! c)))
    (Some (fun c => Some (deposits demoLedger !! c))) (fun _ => false) (fun _ => Some (None, None))
    (Some (fun slot => Some (slot / 10))) (fun c => Some (rewards demoLedger !! c))
    (fun _ => Some (false, [])) None (fun _ _ => Some (0, true)).

(** It spends the output, drains and closes the account, and registers another one
    and a pool: 100 + 7 + 2 = 90 + 11 + 3 + 5. *)
Definition demoTx : Transaction :=
  mkTransaction [demoIn] [] [] [mkOutput demoAddress (Some 90)] None (Some 11)
    (Some [(Some demoAddress, Some 7)])
    [StakeDeregistration demoKey; StakeRegistration (0, [3]); PoolRegistration demoPool] (Some 50) true (Some 9).

Definition demoRules : OtherRules :=
  mkOtherRules (fun _ => Ok ()) (fun _ => Ok ()) (fun _ => Ok ()) (fun _ => Ok ()) (fun _ => Ok ())
    (fun _ => Ok ()) (fun _ => Ok ()) (fun _ => Ok true).

Lemma demo_reports slot : reports demoState slot demoLedger.
Proof.
  split; intros; try done.
  - unfold demoState. cbn [UtxoById]. by destruct (utxo demoLedger !! i).
  - unfold StakeCredentialDepositOrDefault, demoState. cbn [StakeCredentialDeposit]. by rewrite H.
Qed.

(** The same credential registered again, with a deposit of 3. *)
Definition reregisterTx : Transaction :=
  mkTransaction [demoIn] [] [] [mkOutput demoAddress (Some 86)] None (Some 11) None
    [StakeRegistration demoKey] (Some 50) true (Some 9).

(** Witness of C6: the concrete transaction is accepted, keeps the 109 that there
    are and drains the account; registering the credential again loses its deposit of 2. *)
Lemma ada_conserved_witness :
  VerifyTransaction (UtxoValidationRules demoRules 40 demoState demoParams) demoTx = Ok () /\
  total demoLedger = 109 /\ total (applyTx demoParams [8] demoTx demoLedger) = 109 /\
  rewards (applyTx demoParams [8] demoTx demoLedger) !! demoKey = Some 0 /\
  total (applyTx demoParams [8] reregisterTx demoLedger) + 2 = total demoLedger.
Proof.
  assert (HV : VerifyTransaction (UtxoValidationRules demoRules 40 demoState demoParams) demoTx = Ok ())
    by (vm_compute; reflexivity).
  assert (HV' : VerifyTransaction (UtxoValidationRules demoRules 40 demoState demoParams) reregisterTx = Ok ())
    by (vm_compute; reflexivity).
  assert (Hid : forall k, utxo demoLedger !! (([8], k) : TransactionInput) = None) by (intros k; apply lookup_singleton_ne; intros [=]).
  destruct (ada_conserved demoRules 40 demoState demoParams [8] demoTx demoLedger (demo_reports 40) Hid HV) as (_ & T & _ & W).
  destruct (ada_conserved demoRules 40 demoState demoParams [8] reregisterTx demoLedger (demo_reports 40) Hid HV') as (T' & _).
  split; [exact HV|]. split; [vm_compute; reflexivity|]. split; [|split].
  - rewrite T; [vm_compute; reflexivity|]. clear. simpl. split_and!; try done; intros cred [= <-]; vm_compute; reflexivity.
  - rewrite W; [vm_compute; reflexivity|reflexivity|]. clear.
    simpl. intros a x [[= -> ->]|Ha%elem_of_nil]%elem_of_cons; [|done]. intros raw cred [= <-] [= <-]. reflexivity.
  - exact T'.
Defined.

(** ** The driver and the fee rule *)

(** The driver reports the first failure. [VerifyTransaction] accepts exactly
    when every rule of the era does; otherwise it returns the error of the
    first rule that fails, with that rule's position, and every rule before it
    accepted the transaction. *)
Theorem first_failure o slot ls pp tx :
  let rules := UtxoValidationRules o slot ls pp in
  (VerifyTransaction rules tx = Ok () <-> Forall (fun r => r tx = Ok ()) rules) /\
  (forall n e, VerifyTransaction rules tx = Err (n, e) <->
     exists k r, n = Z.of_nat k /\ rules !! k = Some r /\ r tx = Err e /\
       Forall (fun r => r tx = Ok ()) (take k rules)).
Proof. split; [apply verifyLoop_Ok|]. intros n e. apply (verifyLoop_Err _ _ 0). Qed.

(** The linear fee, or an overflow. *)
Lemma CalculateMinFee_exact size a b :
  0 <= size -> 0 <= a <= MaxUint64 -> 0 <= b <= MaxUint64 ->
  CalculateMinFee size a b = if a * size + b <=? MaxUint64 then Ok (a * size + b) else Err MinFeeOverflow.
Proof.
  intros Hs Ha Hb. unfold CalculateMinFee, mul64, add64. destruct (Z.ltb_spec size 0); [lia|].
  rewrite Z.add_0_r. unfold MaxUint64 in *. pose proof (hi_lo (a * size)) as E1.
  assert (0 <= u64 (a * size) < 18446744073709551616) by (apply Z.mod_pos_bound; lia).
  assert (0 <= a * size / 18446744073709551616) by (apply Z.div_pos; nia).
  destruct (Z.eqb_spec (a * size / 18446744073709551616) 0) as [E|]; cbn [negb].
  2:{ destruct (Z.leb_spec (a * size + b) 18446744073709551615); [nia|done]. }
  rewrite E in E1. replace (u64 (a * size)) with (a * size) in * by lia.
  pose proof (hi_lo (a * size + b)) as E2.
  assert (0 <= u64 (a * size + b) < 18446744073709551616) by (apply Z.mod_pos_bound; lia).
  assert (0 <= (a * size + b) / 18446744073709551616) by (apply Z.div_pos; nia).
  destruct (Z.eqb_spec ((a * size + b) / 18446744073709551616) 0) as [E'|]; cbn [negb];
    destruct (Z.leb_spec (a * size + b) 18446744073709551615); try nia; [|done].
  rewrite E' in E2. f_equal. lia.
Qed.

(** The fee rule is exact. For every transaction size and all parameters in
    [uint64], the fee is accepted exactly when it is at least
    [minFeeA * size + minFeeB]; when that minimum does not fit 64 bits the rule
    fails with an overflow error instead of comparing a wrapped value. *)
Theorem fee_rule tx pp size :
  SizeOf tx = Some size -> 0 <= size ->
  0 <= MinFeeA pp <= MaxUint64 -> 0 <= MinFeeB pp <= MaxUint64 ->
  let minFee := MinFeeA pp * size + MinFeeB pp in
  let fee := default 0 (Fee tx) in
  UtxoValidateFeeTooSmallUtxo tx pp =
  if MaxUint64 <? minFee then Err MinFeeOverflow
  else if minFee <=? fee then Ok () else Err (FeeTooSmall fee minFee).
Proof.
  intros Es Hs Ha Hb minFee fee. unfold UtxoValidateFeeTooSmallUtxo, MinFeeTx. rewrite Es.
  rewrite (CalculateMinFee_exact _ _ _ Hs Ha Hb). fold minFee fee. rewrite Z.leb_antisym.
  by destruct (MaxUint64 <? minFee).
Qed.

(** An instance: 1 * 9 + 2 is at most 11; a slope of 2^63 overflows. *)
Lemma fee_rule_witness :
  UtxoValidateFeeTooSmallUtxo demoTx demoParams = Ok () /\
  UtxoValidateFeeTooSmallUtxo demoTx (mkPparams 9223372036854775808 2 100 1 3 5 0 18 2) = Err MinFeeOverflow.
Proof.
  split.
  - rewrite (fee_rule demoTx demoParams 9); try reflexivity; unfold MaxUint64; simpl; lia.
  - rewrite (fee_rule demoTx (mkPparams 9223372036854775808 2 100 1 3 5 0 18 2) 9);
      try reflexivity; unfold MaxUint64; simpl; lia.
Defined.

(** ** Registering twice *)

(** The rules accept a transaction that registers a credential the ledger already
    holds: its deposit is charged again while the ledger keeps one deposit, so
    the second one is no longer accounted for. *)
Example reregistration_accepted :
  let tx := reregisterTx in
  IsStakeCredentialRegistered demoState demoKey = true /\
  VerifyTransaction (UtxoValidationRules demoRules 40 demoState demoParams) tx = Ok () /\
  deposits demoLedger !! demoKey = Some 2 /\
  deposits (applyTx demoParams [8] tx demoLedger) !! demoKey = Some 3.
Proof. split_and!; vm_compute; reflexivity. Qed.

(** ** Delegation and instantaneous rewards *)

(** A function changed at one point. *)
Definition set_at `{EqDecision A} {B} (a : A) (b : B) (f : A -> B) (x : A) : B :=
  if decide (x = a) then b else f x.

(** A run of the certificates over the ledger's own registrations: each
    delegation meets a pool and a credential registered at that point. *)
Inductive delegates : (Credential -> bool) -> (PoolKeyHash -> bool) -> list Certificate -> Prop :=
| delegates_nil reg pool : delegates reg pool []
| delegates_reg reg pool c cs :
    delegates (set_at c true reg) pool cs -> delegates reg pool (StakeRegistration c :: cs)
| delegates_dereg reg pool c cs :
    delegates (set_at c false reg) pool cs -> delegates reg pool (StakeDeregistration c :: cs)
| delegates_pool reg pool r cs :
    delegates reg (set_at (Operator r) true pool) cs -> delegates reg pool (PoolRegistration r :: cs)
| delegates_to reg pool c p cs :
    pool p = true -> (forall k, c = Some k -> reg k = true) -> delegates reg pool cs ->
    delegates reg pool (StakeDelegation c p :: cs)
| delegates_skip reg pool c cs :
    match c with PoolRetirement _ _ | MirTransfer _ | MirRewards _ _ | OtherCertificate => True | _ => False end ->
    delegates reg pool cs -> delegates reg pool (c :: cs).

(** The deltas of the certificates, in order, each with its pot and credential. *)
Fixpoint mirFlat (certs : list Certificate) : list ((Z * Credential) * Z) :=
  match certs with
  | [] => []
  | MirRewards source rewards :: certs =>
    omap (fun r => (fun d => ((source, default (0, []) (fst r)), d)) <$> snd r) rewards ++ mirFlat certs
  | _ :: certs => mirFlat certs
  end.

(** Applying deltas one by one to the pending totals never goes below zero. *)
Fixpoint mir_run (pending : Z * Credential -> Z) (deltas : list ((Z * Credential) * Z)) : Prop :=
  match deltas with
  | [] => True
  | (k, d) :: deltas => 0 <= pending k + d /\ mir_run (set_at k (pending k + d) pending) deltas
  end.

Definition mir_ok (pp : ProtocolParameters) (pending : Z * Credential -> Z) (certs : list Certificate) : Prop :=
  if MirTransferAllowed (ProtocolMajorVersion pp) then mir_run pending (mirFlat certs)
  else (forall s, (MirTransfer s ∉ certs)) /\ Forall (fun kd => 0 <= snd kd) (mirFlat certs).

Lemma set_at_ext `{EqDecision A} {B} (a : A) (b : B) f g :
  (forall x, f x = g x) -> forall x, set_at a b f x = set_at a b g x.
Proof. intros E x. unfold set_at. by destruct (decide (x = a)). Qed.

(** The loop's overlay of a map on the ledger is the function changed point by point. *)
Lemma overlay_insert `{Countable A} (m : gmap A bool) (f g : A -> bool) a b :
  (forall x, default (f x) (m !! x) = g x) ->
  forall x, default (f x) (<[a := b]> m !! x) = set_at a b g x.
Proof.
  intros E x. unfold set_at. destruct (decide (x = a)) as [->|]; [by rewrite lookup_insert_eq|].
  by rewrite lookup_insert_ne.
Qed.

Lemma delegationLoop_exact ls certs : forall inTx pools reg pool,
  (forall c, default (IsStakeCredentialRegistered ls c) (inTx !! c) = reg c) ->
  (forall p, IsPoolRegistered ls p || bool_decide (p ∈ pools) = pool p) ->
  delegationLoop ls certs inTx pools = Ok () <-> delegates reg pool certs.
Proof.
  induction certs as [|c certs IH]; intros inTx pools reg pool Hr Hp; [by split; [constructor|]|].
  destruct c as [k|k|ok p|r|p e|s|s rw|]; cbn [delegationLoop];
    [rewrite (IH _ _ (set_at k true reg) pool)|rewrite (IH _ _ (set_at k false reg) pool)| |
     rewrite (IH _ _ reg (set_at (Operator r) true pool))|rewrite (IH _ _ reg pool)..];
    try done; try (by apply overlay_insert);
    try (split; [by constructor|by inversion 1]).
  - rewrite Hp. destruct (pool p) eqn:Ep; cbn [negb]; [|split; [done|inversion 1; subst; [congruence|done]]].
    destruct ok as [k|].
    + rewrite Hr. destruct (reg k) eqn:Ek; cbn [negb].
      * rewrite (IH _ _ reg pool) by done. split; [|by inversion 1].
        intros. constructor; [done| |done]. by intros ? [= <-].
      * split; [done|]. inversion 1; subst; [|done].
        match goal with Hk : forall k, _ -> reg k = true |- _ => specialize (Hk k eq_refl) end. congruence.
    + rewrite (IH _ _ reg pool) by done. split; [|by inversion 1]. by intros; constructor.
  - intros p. rewrite <- set_at_ext with (f := fun p => IsPoolRegistered ls p || bool_decide (p ∈ pools)) by done.
    unfold set_at. destruct (decide (p = Operator r)) as [->|].
    + rewrite bool_decide_true by set_solver. by rewrite orb_true_r.
    + f_equal. apply bool_decide_ext. set_solver.
Qed.

(** The pending totals the loop has cached, over those of the ledger. *)
Definition pending_view (ls : LedgerState) (P0 P : Z * Credential -> Z)
    (pending : gmap (Z * Credential) (Z * bool)) : Prop :=
  forall k, match pending !! k with
            | Some t => fst t = P k
            | None => P k = P0 k /\ exists known, PendingInstantaneousRewards ls (fst k) (snd k) = Some (P0 k, known)
            end.

Lemma pending_view_insert ls P0 P pending k v b :
  pending_view ls P0 P pending -> pending_view ls P0 (set_at k v P) (<[k := (v, b)]> pending).
Proof.
  intros Hv x. specialize (Hv x). unfold set_at. destruct (decide (x = k)) as [->|].
  - by rewrite lookup_insert_eq.
  - by rewrite lookup_insert_ne.
Qed.

(** The total the loop works with is the current one. *)
Lemma pending_view_total ls P0 P pending s c :
  pending_view ls P0 P pending -> exists b,
  match pending !! (s, c) with
  | Some t => Ok t
  | None => ls_result (PendingInstantaneousRewards ls s c)
  end = (Ok (P (s, c), b) : result ruleError _).
Proof.
  intros Hv. specialize (Hv (s, c)). destruct (pending !! (s, c)) as [[t b]|]; simpl in Hv.
  - exists b. by rewrite Hv.
  - destruct Hv as [-> [known ->]]. by exists known.
Qed.

Definition rewardDeltas (s : Z) (rewards : list (option Credential * option Z)) : list ((Z * Credential) * Z) :=
  omap (fun r => (fun d => ((s, default (0, []) (fst r)), d)) <$> snd r) rewards.

Fixpoint mir_after (P : Z * Credential -> Z) (deltas : list ((Z * Credential) * Z)) : Z * Credential -> Z :=
  match deltas with [] => P | (k, d) :: deltas => mir_after (set_at k (P k + d) P) deltas end.

Lemma mir_run_app ds1 ds2 : forall P, mir_run P (ds1 ++ ds2) <-> mir_run P ds1 /\ mir_run (mir_after P ds1) ds2.
Proof. induction ds1 as [|[k d] ds1 IH]; intros P; simpl; [tauto|]. rewrite IH. tauto. Qed.

Lemma mirDeltas_allowed ls P0 s rewards : forall P pending,
  pending_view ls P0 P pending ->
  (mir_run P (rewardDeltas s rewards) /\ exists pending',
     mirDeltas true ls s rewards pending = Ok pending' /\ pending_view ls P0 (mir_after P (rewardDeltas s rewards)) pending') \/
  (~ mir_run P (rewardDeltas s rewards) /\ exists e, mirDeltas true ls s rewards pending = Err e).
Proof.
  induction rewards as [|[c [d|]] rewards IH]; intros P pending Hv; cbn [mirDeltas negb].
  - left. split; [done|]. by exists pending.
  - change (rewardDeltas s ((c, Some d) :: rewards)) with
      (((s, default (0, []) c), d) :: rewardDeltas s rewards). cbn [mir_run mir_after].
    destruct (pending_view_total ls P0 P pending s (default (0, []) c) Hv) as [b ->].
    set (k := (s, default (0, []) c)). simpl mbind. cbn [fst snd]. destruct (Z.ltb_spec (P k + d) 0).
    + right. split; [lia|]. destruct b; simpl; by eexists.
    + destruct (IH _ _ (pending_view_insert ls P0 P pending k (P k + d) b Hv)) as [[H1 H2]|[H1 H2]]; [left|right]; by split; [lia||tauto|].
  - by apply IH.
Qed.

Lemma mirLoop_allowed ls P0 certs : forall P pending,
  pending_view ls P0 P pending -> mirLoop true ls certs pending = Ok () <-> mir_run P (mirFlat certs).
Proof.
  induction certs as [|c certs IH]; intros P pending Hv; [done|].
  destruct c as [k|k|ok p|r|p e|s|s rw|]; cbn [mirLoop mirFlat negb]; try (by apply IH).
  fold (rewardDeltas s rw). rewrite mir_run_app.
  destruct (mirDeltas_allowed ls P0 s rw P pending Hv) as [(H1 & p' & -> & Hv')|(H1 & e & ->)]; simpl mbind.
  - rewrite (IH _ _ Hv'). tauto.
  - split; [done|tauto].
Qed.

Lemma mirLoop_disallowed ls certs : forall pending,
  mirLoop false ls certs pending = Ok () <->
  (forall s, (MirTransfer s ∉ certs)) /\ Forall (fun kd => 0 <= snd kd) (mirFlat certs).
Proof.
  induction certs as [|c certs IH]; intros pending.
  { split; [|done]. split; [|constructor]. by intros s ?%elem_of_nil. }
  destruct c as [k|k|ok p|r|p e|s|s rw|]; cbn [mirLoop mirFlat negb];
    try (rewrite IH; setoid_rewrite not_elem_of_cons; naive_solver).
  - split; [done|]. intros [H _]. destruct (H s). constructor.
  - fold (rewardDeltas s rw). rewrite Forall_app.
    assert (Hd : mirDeltas false ls s rw pending = Ok pending /\ Forall (fun kd => 0 <= snd kd) (rewardDeltas s rw) \/
                 (exists e, mirDeltas false ls s rw pending = Err e) /\ ~ Forall (fun kd => 0 <= snd kd) (rewardDeltas s rw)).
    { clear IH. induction rw as [|[c [d|]] rw IH]; cbn [mirDeltas negb]; [left; by split|..|apply IH].
      change (rewardDeltas s ((c, Some d) :: rw)) with (((s, default (0, []) c), d) :: rewardDeltas s rw).
      rewrite Forall_cons. cbn [snd]. destruct (Z.ltb_spec d 0).
      - right. split; [by eexists|lia].
      - destruct IH as [[-> ?]|[[e ->] ?]]; [left|right]; split; try done; try lia; [by eexists|tauto]. }
    destruct Hd as [[-> Hd]|[[e ->] Hd]]; simpl mbind.
    + rewrite IH. setoid_rewrite not_elem_of_cons. naive_solver.
    + split; [done|tauto].
Qed.

(** The delegation rule. It accepts exactly when, running the certificates
    in order over the ledger's own registrations, every delegation names a pool
    and a credential registered at that point, and the instantaneous rewards
    are sound: with transfers allowed (major version 5 on), no prefix of the
    deltas takes the pending total of any pot and credential below zero;
    before that, there are no transfers and no negative deltas. *)
Theorem delegation_rule tx ls pp (P : Z * Credential -> Z) :
  (forall s c, exists known, PendingInstantaneousRewards ls s c = Some (P (s, c), known)) ->
  UtxoValidateDelegation tx ls pp = Ok () <->
  mir_ok pp P (Certificates tx) /\
  delegates (IsStakeCredentialRegistered ls) (IsPoolRegistered ls) (Certificates tx).
Proof.
  intros HP. unfold UtxoValidateDelegation, validateMirCertificates, mir_ok.
  assert (Hm : mirLoop (MirTransferAllowed (ProtocolMajorVersion pp)) ls (Certificates tx) ∅ = Ok () <->
               mir_ok pp P (Certificates tx)).
  { unfold mir_ok. destruct (MirTransferAllowed _); [|apply mirLoop_disallowed].
    apply (mirLoop_allowed ls P). intros [s c]. rewrite lookup_empty. split; [done|apply HP]. }
  unfold mir_ok in Hm. rewrite <- Hm.
  rewrite <- (delegationLoop_exact ls (Certificates tx) ∅ ∅ (IsStakeCredentialRegistered ls) (IsPoolRegistered ls)).
  - destruct (mirLoop _ _ _ _) as [[]|e]; simpl mbind; [tauto|]. by split; [|intros []].
  - intros c. by rewrite lookup_empty.
  - intros p. rewrite bool_decide_false by set_solver. by rewrite orb_false_r.
Qed.

(** An instance: registering a pool and a credential before delegating is
    accepted, and an instantaneous reward may be taken back in part. *)
Lemma delegation_rule_witness :
  UtxoValidateDelegation
    (mkTransaction [] [] [] [] None None None
      [PoolRegistration demoPool; StakeRegistration (0, [3]); StakeDelegation (Some (0, [3])) [5];
       MirRewards 0 [(Some demoKey, Some 4)]; MirRewards 0 [(Some demoKey, Some (-3))]] None true None)
    demoState (mkPparams 1 2 100 1 3 5 0 18 5) = Ok ().
Proof.
  apply (delegation_rule _ demoState (mkPparams 1 2 100 1 3 5 0 18 5) (fun _ => 0)).
  - intros. by exists true.
  - split; [vm_compute; repeat split; congruence|].
    constructor. constructor. constructor.
    + reflexivity.
    + by intros k [= <-].
    + repeat constructor.
Defined.

(** ** VRF keys of stake pools *)

(** The registrations of a transaction applied in order. *)
Fixpoint applyRegistrations (ls : LedgerState) (certs : list Certificate) (s : poolCertificateState)
    : result ruleError poolCertificateState :=
  match certs with
  | [] => Ok s
  | PoolRegistration reg :: certs => s' ← applyRegistration ls reg s; applyRegistrations ls certs s'
  | _ :: certs => applyRegistrations ls certs s
  end.

(** A registration that a pool holds, now or from the next epoch on. *)
Definition claim (s : poolCertificateState) (p : PoolKeyHash) (c : PoolRegistrationCertificate) : Prop :=
  current s !! p = Some c \/ future s !! p = Some c.

(** No other pool of the ledger holds the key, unless this transaction replaces
    the registration that would. *)
Definition ledger_free (ls : LedgerState) (s : poolCertificateState) (p : PoolKeyHash) (v : VrfKeyHash) : Prop :=
  (forall q, IsVrfKeyInUse ls v = Some (true, q) -> q = p) /\
  (forall f q, IsFutureVrfKeyInUse ls = Some f -> f v = Some (true, q) ->
     q = p \/ exists c, future s !! q = Some c /\ RegVrfKeyHash c <> v).

Definition vrf_inv (ls : LedgerState) (s : poolCertificateState) : Prop :=
  forall p c, claim s p c ->
    vrfOwners s !! RegVrfKeyHash c = Some p /\ ledger_free ls s p (RegVrfKeyHash c).

(** What the VRF check establishes. *)
Lemma validateVrf_Ok ls cert s :
  validateVrf ls cert s = Ok () ->
  (vrfOwners s !! RegVrfKeyHash cert = None \/ vrfOwners s !! RegVrfKeyHash cert = Some (Operator cert)) /\
  ledger_free ls s (Operator cert) (RegVrfKeyHash cert).
Proof.
  unfold validateVrf, ledger_free. destruct (IsFutureVrfKeyInUse ls) as [f|]; [|done].
  intros ([] & Ho & [[inUse q] [Eu E]]%bind_Ok)%bind_Ok. apply bind_Ok in E as ([] & _ & E). split.
  - destruct (vrfOwners s !! RegVrfKeyHash cert) as [owner|]; [right|by left].
    apply bind_Ok in Ho as (cur & _ & Ho). destruct (bool_decide_reflect (owner = Operator cert)) as [->|]; done.
  - unfold ls_result in Eu. destruct (IsVrfKeyInUse ls (RegVrfKeyHash cert)) as [u|]; [|done]. injection Eu as ->.
    destruct (inUse && negb (bool_decide (q = Operator cert))) eqn:Eq; [done|].
    apply bind_Ok in E as ([inUse' fo] & Ef & E). split.
    + intros q' [= -> ->]. by destruct (bool_decide_reflect (q' = Operator cert)).
    + intros g q' [= <-] Hq'. unfold ls_result in Ef. rewrite Hq' in Ef. injection Ef as <- <-.
      destruct (bool_decide_reflect (q' = Operator cert)) as [|Hne]; [by left|right].
      destruct (future s !! q') as [c|].
      * exists c. split; [done|]. intros Hc. rewrite bool_decide_false in E by (by intros []).
        by apply bind_Ok in E as (cur & _ & E).
      * by apply bind_Ok in E as (cur & _ & E).
Qed.

Lemma ledger_free_mono ls s s' p v :
  ledger_free ls s p v ->
  (forall q c, future s !! q = Some c -> RegVrfKeyHash c <> v ->
     q = p \/ exists c', future s' !! q = Some c' /\ RegVrfKeyHash c' <> v) ->
  ledger_free ls s' p v.
Proof.
  intros [H1 H2] Hm. split; [done|]. intros f q Ef Eq.
  destruct (H2 f q Ef Eq) as [->|(c & Hc & Hv)]; [by left|by apply (Hm q c)].
Qed.

(** The owners after a registration replaces the one a pool had planned. *)
Lemma released_owner ls s op (c0 : PoolRegistrationCertificate) p c :
  vrf_inv ls s -> claim s p c -> (p <> op \/ RegVrfKeyHash c = RegVrfKeyHash c0) ->
  match future s !! op with
  | Some previous =>
    if bool_decide (RegVrfKeyHash previous <> RegVrfKeyHash c0) &&
       bool_decide (vrfOwners s !! RegVrfKeyHash previous = Some op)
    then delete (RegVrfKeyHash previous) (vrfOwners s) else vrfOwners s
  | None => vrfOwners s
  end !! RegVrfKeyHash c = Some p.
Proof.
  intros Hinv Hc Hk. destruct (Hinv p c Hc) as [Ho _]. destruct (future s !! op) as [pr|]; [|done].
  case_bool_decide as Hne; [|done]. case_bool_decide as Hop; [|done]. cbn [andb].
  rewrite lookup_delete_ne; [done|]. intros E. rewrite E in Hop. destruct Hk; congruence.
Qed.

(** Registering a key that the check accepted keeps the keys of all pools apart. *)
Lemma applyRegistration_inv ls cert s s' :
  vrf_inv ls s -> validateVrf ls cert s = Ok () -> applyRegistration ls cert s = Ok s' -> vrf_inv ls s'.
Proof.
  intros Hinv (Hown & Hfree)%validateVrf_Ok (cur & Ecur & [= <-])%bind_Ok p c Hc.
  assert (Hu : forall q d, claim s q d -> RegVrfKeyHash d = RegVrfKeyHash cert -> q = Operator cert).
  { intros q d Hd Ev. destruct (Hinv q d Hd) as [Ho _]. rewrite Ev in Ho. destruct Hown; congruence. }
  assert (Hins : forall o : gmap VrfKeyHash PoolKeyHash,
            claim s p c -> o !! RegVrfKeyHash c = Some p ->
            <[RegVrfKeyHash cert := Operator cert]> o !! RegVrfKeyHash c = Some p).
  { intros o Hd Ho. destruct (decide (RegVrfKeyHash c = RegVrfKeyHash cert)) as [E|].
    - rewrite E, lookup_insert_eq. f_equal. symmetry. by apply (Hu p c).
    - by rewrite lookup_insert_ne. }
  unfold claim in Hc. destruct cur as [c0|]; cbn [current future vrfOwners] in *.
  - assert (Hm : forall q d, future s !! q = Some d -> RegVrfKeyHash d <> RegVrfKeyHash c ->
              (p <> Operator cert -> RegVrfKeyHash cert <> RegVrfKeyHash c) ->
              q = p \/ exists d', <[Operator cert := cert]> (future s) !! q = Some d' /\
                                  RegVrfKeyHash d' <> RegVrfKeyHash c).
    { intros q d Hd Hv Hp. destruct (decide (q = Operator cert)) as [->|].
      - destruct (decide (Operator cert = p)); [by left|right]. exists cert. rewrite lookup_insert_eq. auto.
      - right. exists d. by rewrite lookup_insert_ne. }
    match goal with |- ?G =>
      assert (Hkeep : claim s p c -> p <> Operator cert \/ RegVrfKeyHash c = RegVrfKeyHash c0 -> G) end.
    { intros Hd Hk. split; [by apply Hins, (released_owner ls)|].
      eapply ledger_free_mono; [by apply Hinv|]. intros q d H1 H2. apply (Hm q d H1 H2).
      intros Hp E. by apply Hp, (Hu p c). }
    destruct Hc as [Hc|Hc].
    + apply Hkeep; [by left|]. destruct (decide (p = Operator cert)) as [->|]; [right|by left].
      unfold currentRegistration in Ecur. rewrite Hc in Ecur. by injection Ecur as ->.
    + destruct (decide (p = Operator cert)) as [->|Hne].
      * rewrite lookup_insert_eq in Hc. injection Hc as <-. split; [apply lookup_insert_eq|].
        eapply ledger_free_mono; [done|]. intros q d Hd Hv. by apply (Hm q d).
      * rewrite lookup_insert_ne in Hc by done. apply Hkeep; [by right|by left].
  - destruct Hc as [Hc|Hc].
    + destruct (decide (p = Operator cert)) as [->|Hne].
      * rewrite lookup_insert_eq in Hc. injection Hc as <-. split; [apply lookup_insert_eq|done].
      * rewrite lookup_insert_ne in Hc by done. destruct (Hinv p c (or_introl Hc)).
        split; [apply Hins; [by left|done]|done].
    + destruct (Hinv p c (or_intror Hc)). split; [apply Hins; [by right|done]|done].
Qed.

Lemma poolLoop_inv ls pp slot certs : forall regs s,
  DuplicateVrfKeysDisallowed (ProtocolMajorVersion pp) = true ->
  poolLoop ls pp slot certs regs s = Ok () -> vrf_inv ls s ->
  exists s', applyRegistrations ls certs s = Ok s' /\ vrf_inv ls s'.
Proof.
  intros regs s Hd. revert regs s.
  induction certs as [|c certs IH]; intros regs s HL Hinv; [by exists s|].
  destruct c as [k|k|ok p|r|p e|sr|sr rw|]; cbn [poolLoop applyRegistrations] in *; try (by eapply IH).
  - apply bind_Ok in HL as ([] & Hv & HL). rewrite Hd in HL. apply bind_Ok in HL as (s1 & Hs1 & HL).
    rewrite Hs1. simpl mbind. eapply IH; [done|]. eapply applyRegistration_inv; [done| |done].
    unfold validatePoolRegistration in Hv. apply bind_Ok in Hv as ([] & _ & Hv).
    repeat match type of Hv with (if ?b then Err _ else _) = _ => destruct b; [done|] end.
    by rewrite Hd in Hv.
  - apply bind_Ok in HL as ([] & _ & HL). by eapply IH.
Qed.

(** VRF keys stay apart. From major version 11 on, when the pool rule accepts
    a valid transaction, applying its registrations in order succeeds and
    leaves no VRF key claimed by two pools, whether in current or in planned
    registrations, and no claimed key that the ledger attributes to another
    pool, unless the transaction itself replaces that pool's planned
    registration. *)
Theorem vrf_keys_apart tx slot ls pp :
  10 < ProtocolMajorVersion pp -> IsValid tx = true ->
  UtxoValidatePoolCertificates tx slot ls pp = Ok () ->
  exists s, applyRegistrations ls (Certificates tx) newPoolCertificateState = Ok s /\
    (forall p q c d, claim s p c -> claim s q d -> RegVrfKeyHash c = RegVrfKeyHash d -> p = q) /\
    (forall p c, claim s p c -> ledger_free ls s p (RegVrfKeyHash c)).
Proof.
  intros Hver Hval HP.
  assert (exists s, applyRegistrations ls (Certificates tx) newPoolCertificateState = Ok s /\ vrf_inv ls s)
    as (s & Hs & Hinv).
  { assert (H0 : vrf_inv ls newPoolCertificateState).
    { intros p c [H|H]; cbn in H; by rewrite lookup_empty in H. }
    unfold UtxoValidatePoolCertificates in HP. rewrite Hval in HP. cbn [negb] in HP.
    destruct (hasPoolCertificate (Certificates tx)) eqn:Eh; cbn [negb] in HP.
    - eapply poolLoop_inv; [|done|done]. unfold DuplicateVrfKeysDisallowed. by apply Z.ltb_lt.
    - exists newPoolCertificateState. split; [|done]. clear -Eh.
      induction (Certificates tx) as [|[] cs IH]; simpl in *; try done; by apply IH. }
  exists s. split_and!; [done| |].
  - intros p q c d Hc Hd E. destruct (Hinv p c Hc) as [H1 _], (Hinv q d Hd) as [H2 _]. rewrite E in H1. congruence.
  - intros p c Hc. by apply Hinv.
Qed.

(** An instance: two pools with different keys. *)
Lemma vrf_keys_apart_witness :
  let ls := mkLedgerState (fun _ => None) 0 (fun _ => false) None (fun _ => false) (fun _ => Some (None, None))
    None (fun _ => Some None) (fun _ => Some (false, [])) (Some (fun _ => Some (false, []))) (fun _ _ => None) in
  let tx := mkTransaction [] [] [] [] None None None
    [PoolRegistration demoPool; PoolRegistration (mkPoolReg [7] [8] 0 None None [])] None true None in
  exists s, applyRegistrations ls (Certificates tx) newPoolCertificateState = Ok s /\
    claim s [5] demoPool /\ ~ claim s [7] demoPool.
Proof.
  intros ls tx. destruct (vrf_keys_apart tx 0 ls (mkPparams 1 2 100 1 3 5 0 18 11)) as (s & Hs & Hu & _).
  - vm_compute. reflexivity.
  - reflexivity.
  - vm_compute. reflexivity.
  - exists s. assert (Hc : claim s [5] demoPool).
    { vm_compute in Hs. injection Hs as <-. left. vm_compute. reflexivity. }
    split_and!; [done|done|]. intros H. specialize (Hu _ _ _ _ Hc H eq_refl). congruence.
Defined.
