(* ===== verification/Address.v ===== *)
(** * Addresses and their bytes (src/ledger/common/address.go)

    Shelley addresses: header, payment and staking payloads, pointers in
    variable-length integers, the strict and the lenient decoder, and what the
    ledger rules read off an address. Byron addresses are CBOR and go through a
    codec that is a parameter. *)

From S2P Require Import Prelude ShelleyRules ShelleyLedger.
#[local] Open Scope Z_scope.

(** ** Data *)

(** The part of a pointer that is out of range. *)
Inductive pointerPart := PtrSlot | PtrTxIndex | PtrCertIndex.

Inductive addressError :=
| ErrEmpty | ErrNetwork (n : Z) | ErrType (t : Z) | ErrPayment | ErrStaking | ErrEOF | ErrTrailing (n : Z)
| ErrByron | ErrPartLength (n : Z) | ErrAccountType (t : Z) | ErrPointerRange (p : pointerPart).

(** The CBOR of Byron addresses: hash, attributes and type, from the bytes and
    back; [byronNetwork] is whether the attributes name a network. *)
Class ByronCodec := {
  ByronAttr : Type;
  noAttr : ByronAttr;
  byronNetwork : ByronAttr -> bool;
  decodeByron : bytes -> option (bytes * ByronAttr * Z);
  encodeByron : bytes -> ByronAttr -> Z -> option bytes
}.

Section Address.
Context `{ByronCodec}.

Record Addr := mkAddr {
  addrType : Z;
  addrNetwork : Z;
  paymentPayload : option AddressPayload;
  stakingPayload : option AddressPayload;
  trailing : bytes;
  pointerOutOfRange : option pointerPart;
  byronAddressType : Z;
  byronAddressAttr : ByronAttr
}.

Definition zeroAddr : Addr := mkAddr 0 0 None None [] None 0 noAttr.

Definition AddressTypeKeyKey : Z := 0.
Definition AddressTypeScriptKey : Z := 1.
Definition AddressTypeKeyScript : Z := 2.
Definition AddressTypeScriptScript : Z := 3.
Definition AddressTypeKeyPointer : Z := 4.
Definition AddressTypeScriptPointer : Z := 5.
Definition AddressTypeKeyNone : Z := 6.
Definition AddressTypeScriptNone : Z := 7.
Definition AddressHashSize : Z := 28.

(** The cases of the code's switches. *)
Definition keyPayment (t : Z) : bool := (t =? 0) || (t =? 2) || (t =? 4) || (t =? 6).
Definition scriptPayment (t : Z) : bool := (t =? 1) || (t =? 3) || (t =? 5) || (t =? 7).
Definition keyStaking (t : Z) : bool := (t =? 0) || (t =? 1) || (t =? 14).
Definition scriptStaking (t : Z) : bool := (t =? 2) || (t =? 3) || (t =? 15).
Definition pointerStaking (t : Z) : bool := (t =? 4) || (t =? 5).
Definition knownType (t : Z) : bool := keyPayment t || scriptPayment t || (t =? 14) || (t =? 15).

(** ** Pointers *)

Definition addressPointerSlotMax : Z := 4294967295.
Definition addressPointerIndexMax : Z := 65535.
Definition addressPointerSlotGroups : Z := 5.
Definition addressPointerIndexGroups : Z := 3.

(** The value, what follows it and the number of groups it took. *)
Fixpoint readAddressPointerVarUint (ret groups : Z) (data : bytes) : result addressError (Z * bytes * Z) :=
  match data with
  | [] => Err ErrEOF
  | byt :: data =>
    let ret := Z.lor (u64 (Z.shiftl ret 7)) (Z.land byt 127) in
    if Z.land byt 128 =? 0 then Ok (ret, data, groups + 1) else readAddressPointerVarUint ret (groups + 1) data
  end.

(** One component, with the name of the first that is out of range. *)
Definition readPart (name : pointerPart) (maxGroups maxValue : Z) (data : bytes) (outOfRange : option pointerPart)
    : result addressError (Z * bytes * option pointerPart) :=
  '(val, data, groups) ← readAddressPointerVarUint 0 0 data;
  Ok (val, data, match outOfRange with
                 | Some p => Some p
                 | None => if (maxGroups <? groups) || (maxValue <? val) then Some name else None
                 end).

(** The pointer, what follows it and the component out of range. *)
Definition decodePointer (data : bytes) : result addressError (AddressPayload * bytes * option pointerPart) :=
  '(slot, data, oor) ← readPart PtrSlot addressPointerSlotGroups addressPointerSlotMax data None;
  '(txIndex, data, oor) ← readPart PtrTxIndex addressPointerIndexGroups addressPointerIndexMax data oor;
  '(certIndex, data, oor) ← readPart PtrCertIndex addressPointerIndexGroups addressPointerIndexMax data oor;
  Ok (if (addressPointerSlotMax <? slot) || (addressPointerIndexMax <? txIndex) || (addressPointerIndexMax <? certIndex)
      then AddressPayloadPointer 0 0 0 else AddressPayloadPointer slot txIndex certIndex, data, oor).

(** The loop that fills the ten bytes from the end. *)
Fixpoint varUintLoop (room : nat) (val : Z) (acc : bytes) : bytes :=
  match room with
  | O => acc
  | S room => if 0 <? val then varUintLoop room (val / 128) (Z.lor (Z.land val 127) 128 :: acc) else acc
  end.

Definition writeVarUint (val : Z) : bytes := varUintLoop 9 (val / 128) [Z.land val 127].

Definition encodePointer (slot txIndex certIndex : Z) : bytes := writeVarUint slot ++ writeVarUint txIndex ++ writeVarUint certIndex.

(** ** Decoding *)

Definition take_hash (err : addressError) (payload : bytes) : result addressError (bytes * bytes) :=
  if blen payload <? AddressHashSize then Err err else Ok (take 28 payload, drop 28 payload).

(** On the address [a], which keeps what the type does not set. *)
Definition populateFromBytes (a : Addr) (data : bytes) (allowTrailing : bool) : result addressError Addr :=
  match data with
  | [] => Err ErrEmpty
  | header :: payload =>
    let t := Z.shiftr (Z.land header 240) 4 in
    let net := Z.land header 15 in
    if t =? AddressTypeByron then
      match decodeByron data with
      | None => Err ErrByron
      | Some (hash, attr, btype) =>
        Ok (mkAddr t net (Some (AddressPayloadKeyHash hash)) (stakingPayload a) [] None btype attr)
      end
    else if negb (net =? 0) && negb (net =? 1) then Err (ErrNetwork net)
    else if negb (knownType t) then Err (ErrType t) else
    '(payment, payload) ←
      (if keyPayment t then '(h, rest) ← take_hash ErrPayment payload; Ok (Some (AddressPayloadKeyHash h), rest)
       else if scriptPayment t then '(h, rest) ← take_hash ErrPayment payload; Ok (Some (AddressPayloadScriptHash h), rest)
       else Ok (paymentPayload a, payload));
    '(staking, payload, oor) ←
      (if keyStaking t then '(h, rest) ← take_hash ErrStaking payload; Ok (Some (AddressPayloadKeyHash h), rest, None)
       else if scriptStaking t then '(h, rest) ← take_hash ErrStaking payload; Ok (Some (AddressPayloadScriptHash h), rest, None)
       else if pointerStaking t then '(p, rest, oor) ← decodePointer payload; Ok (Some p, rest, oor)
       else Ok (stakingPayload a, payload, None));
    if (0 <? blen payload) && negb allowTrailing then Err (ErrTrailing (blen payload))
    else Ok (mkAddr t net payment staking payload oor (byronAddressType a) (byronAddressAttr a))
  end.

Definition NewAddressFromBytes (data : bytes) : result addressError Addr := populateFromBytes zeroAddr data false.
Definition NewAddressFromBytesLenient (data : bytes) : result addressError Addr := populateFromBytes zeroAddr data true.

(** ** Encoding *)

Definition payloadBytes (p : option AddressPayload) : bytes :=
  match p with
  | None => []
  | Some (AddressPayloadKeyHash h) | Some (AddressPayloadScriptHash h) => h
  | Some (AddressPayloadPointer s t c) => encodePointer s t c
  end.

(** The payment payload is never a pointer, which the code would not print. *)
Definition paymentBytes (p : option AddressPayload) : bytes :=
  match p with Some (AddressPayloadPointer _ _ _) => [] | p => payloadBytes p end.

Definition headerByte (t net : Z) : Z := Z.lor (u8 (Z.shiftl t 4)) (Z.land net 15).

Definition Bytes (a : Addr) : option bytes :=
  if addrType a =? AddressTypeByron then
    match paymentPayload a with
    | Some (AddressPayloadKeyHash h) => encodeByron h (byronAddressAttr a) (byronAddressType a)
    | _ => None
    end
  else Some (headerByte (addrType a) (addrNetwork a) :: paymentBytes (paymentPayload a) ++ payloadBytes (stakingPayload a)).

(** ** From parts *)

Definition NewAddressFromParts (t net : Z) (paymentAddr stakingAddr : bytes) : result addressError Addr :=
  if negb (net =? 0) && negb (net =? 1) then Err (ErrNetwork net) else
  let viaBytes := NewAddressFromBytes (headerByte t net :: paymentAddr ++ stakingAddr) in
  let staking payment :=
    if keyStaking t then
      if negb (blen stakingAddr =? 28) then Err (ErrPartLength (blen stakingAddr))
      else Ok (mkAddr t net payment (Some (AddressPayloadKeyHash stakingAddr)) [] None 0 noAttr)
    else if scriptStaking t then
      if negb (blen stakingAddr =? 28) then Err (ErrPartLength (blen stakingAddr))
      else Ok (mkAddr t net payment (Some (AddressPayloadScriptHash stakingAddr)) [] None 0 noAttr)
    else if negb (blen stakingAddr =? 0) then Err (ErrPartLength (blen stakingAddr))
    else Ok (mkAddr t net payment None [] None 0 noAttr) in
  if (t =? 0) || (t =? 2) || (t =? 6) then
    if negb (blen paymentAddr =? 28) then Err (ErrPartLength (blen paymentAddr))
    else staking (Some (AddressPayloadKeyHash paymentAddr))
  else if (t =? 1) || (t =? 3) || (t =? 7) then
    if negb (blen paymentAddr =? 28) then Err (ErrPartLength (blen paymentAddr))
    else staking (Some (AddressPayloadScriptHash paymentAddr))
  else if (t =? 14) || (t =? 15) then
    if negb (blen paymentAddr =? 0) then Err (ErrPartLength (blen paymentAddr)) else staking None
  else viaBytes.

(** ** What the rules read off an address *)

Definition CheckAddressFullyConsumed (a : Addr) : result addressError unit :=
  if 0 <? blen (trailing a) then Err (ErrTrailing (blen (trailing a))) else Ok ().

Definition CheckAccountAddress (a : Addr) : result addressError unit :=
  _ ← CheckAddressFullyConsumed a;
  if (addrType a =? 14) || (addrType a =? 15) then Ok () else Err (ErrAccountType (addrType a)).

Definition CheckAddressPointerInRange (a : Addr) : result addressError unit :=
  match pointerOutOfRange a with None => Ok () | Some p => Err (ErrPointerRange p) end.

Definition AddrNetworkId (a : Addr) : Z :=
  if addrType a =? AddressTypeByron then if byronNetwork (byronAddressAttr a) then 0 else 1 else addrNetwork a.

Definition AddrStakeCredential (a : Addr) : option Credential :=
  match stakingPayload a with
  | Some (AddressPayloadKeyHash h) => Some (0, h)
  | Some (AddressPayloadScriptHash h) => Some (1, h)
  | _ => None
  end.

Definition PaymentAddress (a : Addr) : option Addr :=
  let make t := Some (mkAddr t (addrNetwork a) (paymentPayload a) None [] None 0 noAttr) in
  if keyPayment (addrType a) then make AddressTypeKeyNone
  else if scriptPayment (addrType a) then make AddressTypeScriptNone else None.

Definition StakeAddress (a : Addr) : option Addr :=
  let make t := Some (mkAddr t (addrNetwork a) None (stakingPayload a) [] None 0 noAttr) in
  if keyStaking (addrType a) then make AddressTypeNoneKey
  else if scriptStaking (addrType a) then make AddressTypeNoneScript else None.

(** The address as the rules of the Shelley model see it. *)
Definition ruleAddress (extra : Z) (a : Addr) : Address :=
  mkAddress (addrType a) (AddrNetworkId a) (Bytes a) (trailing a) (AddrStakeCredential a) extra (paymentPayload a).
End Address.

(** ** Variable-length integers *)

Lemma land127 v : 0 <= v -> Z.land v 127 = v mod 128.
Proof. intros Hv. change 127 with (Z.ones 7). by rewrite Z.land_ones by lia. Qed.

Lemma continued_byte v : 0 <= v ->
  Z.land (Z.lor (Z.land v 127) 128) 128 = 128 /\ Z.land (Z.lor (Z.land v 127) 128) 127 = v mod 128.
Proof.
  intros Hv. rewrite land127 by done. rewrite !Z.land_lor_distr_l. pose proof (Z.mod_pos_bound v 128 ltac:(lia)) as B.
  assert (E1 : Z.land (v mod 128) 127 = v mod 128) by (rewrite land127 by lia; apply Z.mod_small; lia).
  assert (E2 : Z.land (v mod 128) 128 = 0).
  { rewrite <- E1, <- Z.land_assoc. change (Z.land 127 128) with 0. apply Z.land_0_r. }
  rewrite E1, E2. split; [done|]. change (Z.land 128 127) with 0. apply Z.lor_0_r.
Qed.

Lemma read_group q r : 0 <= q < 144115188075855872 -> 0 <= r < 128 -> Z.lor (u64 (Z.shiftl q 7)) r = q * 128 + r.
Proof.
  intros Hq Hr. rewrite u64_small.
  - by rewrite lor_shiftl by lia.
  - rewrite Z.shiftl_mul_pow2 by lia. unfold MaxUint64. lia.
Qed.

Lemma varUintLoop_app room : forall v acc rest, varUintLoop room v acc ++ rest = varUintLoop room v (acc ++ rest).
Proof. induction room as [|room IH]; intros v acc rest; cbn [varUintLoop]; [done|]. destruct (0 <? v); [|done]. by rewrite IH. Qed.

(** Reading back the groups that carry on. *)
Lemma varUintLoop_read room : forall v acc, 0 <= v < 128 ^ Z.of_nat room -> v < 144115188075855872 ->
  exists k, 0 <= k /\ (forall n, 0 <= n -> v < 128 ^ n -> k <= n) /\
    readAddressPointerVarUint 0 0 (varUintLoop room v acc) = readAddressPointerVarUint v k acc.
Proof.
  induction room as [|room IH]; intros v acc Hv Hb; cbn [varUintLoop].
  - exists 0. assert (v = 0) as -> by (cbn in Hv; lia). split_and!; [done|lia|done].
  - destruct (Z.ltb_spec 0 v) as [L|L]; [|exists 0; assert (v = 0) as -> by lia; split_and!; [done|lia|done]].
    pose proof (Z.div_mod v 128 ltac:(lia)) as D. pose proof (Z.mod_pos_bound v 128 ltac:(lia)) as B.
    assert (0 <= v / 128) by (apply Z.div_pos; lia).
    destruct (IH (v / 128) (Z.lor (Z.land v 127) 128 :: acc)) as (k & K1 & K2 & E).
    + split; [done|]. apply Z.div_lt_upper_bound; [lia|]. rewrite Nat2Z.inj_succ, Z.pow_succ_r in Hv by lia. lia.
    + lia.
    + exists (k + 1). destruct (continued_byte v ltac:(lia)) as [C1 C2]. split_and!; [lia| |].
      * intros n Hn Hvn. destruct (Z.eq_dec n 0) as [->|N]; [cbn in Hvn; lia|].
        assert (k <= n - 1); [|lia]. apply K2; [lia|]. apply Z.div_lt_upper_bound; [lia|].
        replace (128 * 128 ^ (n - 1)) with (128 ^ n); [lia|]. rewrite <- Z.pow_succ_r by lia. f_equal. lia.
      * rewrite E. cbn [readAddressPointerVarUint]. rewrite C1, C2. cbn [Z.eqb]. rewrite read_group by lia. f_equal. lia.
Qed.

(** What is written is read back, in no more groups than its size needs. *)
Lemma writeVarUint_read v rest : 0 <= v <= MaxUint64 ->
  exists k, (forall n, 1 <= n -> v < 128 ^ n -> k <= n) /\
    readAddressPointerVarUint 0 0 (writeVarUint v ++ rest) = Ok (v, rest, k).
Proof.
  intros Hv. unfold MaxUint64 in Hv. unfold writeVarUint. rewrite varUintLoop_app. cbn [app].
  pose proof (Z.div_mod v 128 ltac:(lia)) as D. pose proof (Z.mod_pos_bound v 128 ltac:(lia)) as B.
  assert (Q : 0 <= v / 128 < 144115188075855872).
  { split; [apply Z.div_pos; lia|apply Z.div_lt_upper_bound; lia]. }
  destruct (varUintLoop_read 9 (v / 128) (Z.land v 127 :: rest)) as (k & K1 & K2 & E).
  - split; [lia|]. apply Z.lt_le_trans with 144115188075855872; [lia|]. vm_compute. discriminate.
  - lia.
  - exists (k + 1). split.
    + intros n Hn Hvn. assert (k <= n - 1); [|lia]. apply K2; [lia|]. apply Z.div_lt_upper_bound; [lia|].
      replace (128 * 128 ^ (n - 1)) with (128 ^ n); [lia|]. rewrite <- Z.pow_succ_r by lia. f_equal. lia.
    + rewrite E. cbn [readAddressPointerVarUint]. rewrite land127 by lia.
      assert (E1 : Z.land (v mod 128) 127 = v mod 128) by (rewrite land127 by lia; apply Z.mod_small; lia).
      assert (E2 : Z.land (v mod 128) 128 = 0).
      { rewrite <- E1, <- Z.land_assoc. change (Z.land 127 128) with 0. apply Z.land_0_r. }
      rewrite E1, E2. cbn [Z.eqb]. rewrite read_group by lia. do 3 f_equal. lia.
Qed.

Lemma readPart_write name maxGroups maxValue v rest :
  1 <= maxGroups -> 0 <= v <= maxValue -> maxValue <= MaxUint64 -> v < 128 ^ maxGroups ->
  readPart name maxGroups maxValue (writeVarUint v ++ rest) None = Ok (v, rest, None).
Proof.
  intros Hg Hv Hm Hp. unfold readPart. destruct (writeVarUint_read v rest ltac:(lia)) as (k & K & ->). cbn [mbind result_bind].
  specialize (K maxGroups Hg Hp). rewrite (proj2 (Z.ltb_ge maxGroups k)), (proj2 (Z.ltb_ge maxValue v)) by lia. done.
Qed.

Definition pointer_ok (s t c : Z) : Prop := 0 <= s <= 4294967295 /\ 0 <= t <= 65535 /\ 0 <= c <= 65535.

Lemma decode_encodePointer s t c rest : pointer_ok s t c ->
  decodePointer (encodePointer s t c ++ rest) = Ok (AddressPayloadPointer s t c, rest, None).
Proof.
  intros (Hs & Ht & Hc). unfold decodePointer, encodePointer, addressPointerSlotMax, addressPointerIndexMax, addressPointerSlotGroups,
    addressPointerIndexGroups. rewrite <- !app_assoc.
  rewrite readPart_write by (unfold MaxUint64; change (128 ^ 5) with 34359738368; lia). cbn [mbind result_bind].
  rewrite readPart_write by (unfold MaxUint64; change (128 ^ 3) with 2097152; lia). cbn [mbind result_bind].
  rewrite readPart_write by (unfold MaxUint64; change (128 ^ 3) with 2097152; lia). cbn [mbind result_bind].
  by rewrite (proj2 (Z.ltb_ge 4294967295 s)), (proj2 (Z.ltb_ge 65535 t)), (proj2 (Z.ltb_ge 65535 c)) by lia.
Qed.

(** ** The codec *)

Section Codec.
Context `{ByronCodec}.

Definition payment_ok (t : Z) (p : option AddressPayload) : Prop :=
  if keyPayment t then exists h, p = Some (AddressPayloadKeyHash h) /\ blen h = 28
  else if scriptPayment t then exists h, p = Some (AddressPayloadScriptHash h) /\ blen h = 28 else p = None.

Definition staking_ok (t : Z) (p : option AddressPayload) : Prop :=
  if keyStaking t then exists h, p = Some (AddressPayloadKeyHash h) /\ blen h = 28
  else if scriptStaking t then exists h, p = Some (AddressPayloadScriptHash h) /\ blen h = 28
  else if pointerStaking t then exists s x c, p = Some (AddressPayloadPointer s x c) /\ pointer_ok s x c else p = None.

(** A Shelley address as it is made from parts or bytes. *)
Record addr_ok (a : Addr) : Prop := {
  ao_type : knownType (addrType a) = true;
  ao_network : addrNetwork a = 0 \/ addrNetwork a = 1;
  ao_payment : payment_ok (addrType a) (paymentPayload a);
  ao_staking : staking_ok (addrType a) (stakingPayload a);
  ao_rest : trailing a = [] /\ pointerOutOfRange a = None /\ byronAddressType a = 0 /\ byronAddressAttr a = noAttr
}.

Definition with_trailing (a : Addr) (junk : bytes) : Addr :=
  mkAddr (addrType a) (addrNetwork a) (paymentPayload a) (stakingPayload a) junk (pointerOutOfRange a) (byronAddressType a) (byronAddressAttr a).

Lemma known_cases t : knownType t = true -> t ∈ [0; 1; 2; 3; 4; 5; 6; 7; 14; 15].
Proof.
  unfold knownType, keyPayment, scriptPayment. rewrite !orb_true_iff, !Z.eqb_eq, !elem_of_cons. intuition.
Qed.

(** The header carries type and network. *)
Lemma header_type t net : knownType t = true -> net = 0 \/ net = 1 ->
  Z.shiftr (Z.land (headerByte t net) 240) 4 = t /\ Z.land (headerByte t net) 15 = net /\ (t =? AddressTypeByron) = false.
Proof.
  intros Ht Hn. apply known_cases in Ht. rewrite !elem_of_cons, elem_of_nil in Ht.
  destruct Hn as [-> | ->]; repeat (destruct Ht as [-> | Ht]; [split_and!; reflexivity|]); done.
Qed.

Lemma header_split header : is_byte header ->
  headerByte (Z.shiftr (Z.land header 240) 4) (Z.land header 15) = header.
Proof.
  intros Hb.
  assert (A : forallb (fun h => headerByte (Z.shiftr (Z.land h 240) 4) (Z.land h 15) =? h) (seqZ 0 256) = true) by (vm_compute; reflexivity).
  rewrite forallb_forall in A. apply Z.eqb_eq, A, list_elem_of_In, elem_of_seqZ. unfold is_byte in Hb. lia.
Qed.

Lemma take_hash_app err h rest : blen h = 28 -> take_hash err (h ++ rest) = Ok (h, rest).
Proof.
  intros Hh. unfold take_hash, AddressHashSize. rewrite blen_app, Hh. pose proof (blen_nonneg rest).
  rewrite (proj2 (Z.ltb_ge (28 + blen rest) 28)) by lia. unfold blen in Hh. rewrite take_app_length', drop_app_length' by lia. done.
Qed.

(** Decoding what [Bytes] returns, with bytes after it. *)
Lemma populate_bytes a junk allow : addr_ok a -> exists raw, Bytes a = Some raw /\
  populateFromBytes zeroAddr (raw ++ junk) allow =
  if (0 <? blen junk) && negb allow then Err (ErrTrailing (blen junk)) else Ok (with_trailing a junk).
Proof.
  intros [Ht Hn Hp Hs (Hr1 & Hr2 & Hr3 & Hr4)]. destruct (header_type _ _ Ht Hn) as (E1 & E2 & E3).
  unfold Bytes. rewrite E3. eexists. split; [done|]. cbn [app populateFromBytes]. rewrite E1, E2, E3, Ht.
  assert (En : negb (addrNetwork a =? 0) && negb (addrNetwork a =? 1) = false) by (destruct Hn as [-> | ->]; done).
  rewrite En. cbn [negb]. clear E1 E2 E3 En. destruct a as [t net p s tr oor bt ba]. cbn in *. subst tr oor bt ba.
  unfold payment_ok in Hp. unfold staking_ok in Hs. rewrite <- app_assoc.
  assert (P : (if keyPayment t then '(h, rest) ← take_hash ErrPayment (paymentBytes p ++ payloadBytes s ++ junk); Ok (Some (AddressPayloadKeyHash h), rest)
       else if scriptPayment t then '(h, rest) ← take_hash ErrPayment (paymentBytes p ++ payloadBytes s ++ junk); Ok (Some (AddressPayloadScriptHash h), rest)
       else Ok (None, paymentBytes p ++ payloadBytes s ++ junk)) = Ok (p, payloadBytes s ++ junk)).
  { destruct (keyPayment t); [destruct Hp as (h & -> & Hh); cbn; by rewrite take_hash_app|].
    destruct (scriptPayment t); [destruct Hp as (h & -> & Hh); cbn; by rewrite take_hash_app|]. by subst p. }
  rewrite P. cbn [mbind result_bind].
  assert (S : (if keyStaking t then '(h, rest) ← take_hash ErrStaking (payloadBytes s ++ junk); Ok (Some (AddressPayloadKeyHash h), rest, None)
       else if scriptStaking t then '(h, rest) ← take_hash ErrStaking (payloadBytes s ++ junk); Ok (Some (AddressPayloadScriptHash h), rest, None)
       else if pointerStaking t then '(p, rest, oor) ← decodePointer (payloadBytes s ++ junk); Ok (Some p, rest, oor)
       else Ok (None, payloadBytes s ++ junk, None)) = Ok (s, junk, None)).
  { destruct (keyStaking t); [destruct Hs as (h & -> & Hh); cbn; by rewrite take_hash_app|].
    destruct (scriptStaking t); [destruct Hs as (h & -> & Hh); cbn; by rewrite take_hash_app|].
    destruct (pointerStaking t); [destruct Hs as (x & y & z & -> & Hh); cbn [payloadBytes]; by rewrite decode_encodePointer|].
    by subst s. }
  rewrite S. cbn [mbind result_bind]. done.
Qed.
Lemma with_trailing_nil a : addr_ok a -> with_trailing a [] = a.
Proof. intros [_ _ _ _ (E & _)]. destruct a. cbn in *. by subst. Qed.

(** C26. An address that is made of its parts decodes from its bytes; the lenient
    decoder crops what follows them and the strict one refuses it. *)
Theorem address_roundtrip a : addr_ok a -> exists raw, Bytes a = Some raw /\ NewAddressFromBytes raw = Ok a /\
  forall junk, junk <> [] ->
    NewAddressFromBytes (raw ++ junk) = Err (ErrTrailing (blen junk)) /\
    exists a', NewAddressFromBytesLenient (raw ++ junk) = Ok a' /\ Bytes a' = Some raw /\ trailing a' = junk /\
               CheckAddressFullyConsumed a' = Err (ErrTrailing (blen junk)).
Proof.
  intros Ha. destruct (populate_bytes a [] false Ha) as (raw & E & D). rewrite app_nil_r in D. cbn in D.
  exists raw. split; [done|]. split; [unfold NewAddressFromBytes; by rewrite D, with_trailing_nil|].
  intros junk Hj. assert (Hl : 0 < blen junk) by (destruct junk; [done|rewrite blen_cons; pose proof (blen_nonneg junk); lia]).
  destruct (populate_bytes a junk false Ha) as (raw1 & E1 & D1). destruct (populate_bytes a junk true Ha) as (raw2 & E2 & D2).
  rewrite E in E1, E2. injection E1 as <-. injection E2 as <-. rewrite (proj2 (Z.ltb_lt 0 (blen junk)) Hl) in D1, D2. cbn in D1, D2.
  split; [exact D1|]. eexists. split; [exact D2|]. split_and!; [exact E|done|].
  unfold CheckAddressFullyConsumed. cbn. by rewrite (proj2 (Z.ltb_lt 0 (blen junk)) Hl).
Qed.

Lemma take_hash_Ok err payload h rest : take_hash err payload = Ok (h, rest) -> payload = h ++ rest /\ blen h = 28.
Proof.
  unfold take_hash, AddressHashSize. destruct (Z.ltb_spec (blen payload) 28) as [|L]; [done|]. intros [= <- <-].
  split; [by rewrite take_drop|]. unfold blen in *. rewrite length_take. lia.
Qed.

Lemma readVarUint_nonneg data : forall ret g v rest k, 0 <= ret <= MaxUint64 ->
  readAddressPointerVarUint ret g data = Ok (v, rest, k) -> 0 <= v.
Proof.
  induction data as [|b data IH]; intros ret g v rest k Hr; cbn [readAddressPointerVarUint]; [done|].
  assert (B : 0 <= Z.land b 127 < 128).
  { change 127 with (Z.ones 7). rewrite Z.land_ones by lia. apply Z.mod_pos_bound. lia. }
  pose proof (u64_range (Z.shiftl ret 7)) as U.
  assert (L : 0 <= Z.lor (u64 (Z.shiftl ret 7)) (Z.land b 127) <= MaxUint64).
  { assert (0 <= Z.lor (u64 (Z.shiftl ret 7)) (Z.land b 127) < 2 ^ 64); [|unfold MaxUint64; lia].
    split; [apply Z.lor_nonneg; lia|]. destruct (Z.eq_dec (Z.lor (u64 (Z.shiftl ret 7)) (Z.land b 127)) 0) as [->|N]; [lia|].
    apply Z.log2_lt_pow2; [pose proof (proj2 (Z.lor_nonneg (u64 (Z.shiftl ret 7)) (Z.land b 127)) ltac:(lia)); lia|].
    rewrite Z.log2_lor by lia. unfold MaxUint64 in U.
    apply Z.max_lub_lt; [destruct (Z.eq_dec (u64 (Z.shiftl ret 7)) 0) as [->|]; [cbn; lia|apply Z.log2_lt_pow2; lia]|].
    destruct (Z.eq_dec (Z.land b 127) 0) as [->|]; [cbn; lia|apply Z.log2_lt_pow2; lia]. }
  destruct (_ =? 0); [|by apply IH]. intros [= <- _ _]. lia.
Qed.

Lemma decodePointer_ok data p rest oor : decodePointer data = Ok (p, rest, oor) ->
  exists s x c, p = AddressPayloadPointer s x c /\ pointer_ok s x c.
Proof.
  unfold decodePointer, readPart. intros E.
  apply bind_Ok in E as ([[s d1] o1] & E1 & E). apply bind_Ok in E1 as ([[s' d1'] k1] & E1 & [= -> -> _]).
  apply bind_Ok in E as ([[x d2] o2] & E2 & E). apply bind_Ok in E2 as ([[x' d2'] k2] & E2 & [= -> -> _]).
  apply bind_Ok in E as ([[c d3] o3] & E3 & E). apply bind_Ok in E3 as ([[c' d3'] k3] & E3 & [= -> -> _]).
  assert (Z0 : 0 <= 0 <= MaxUint64) by (unfold MaxUint64; lia).
  pose proof (readVarUint_nonneg _ _ _ _ _ _ Z0 E1). pose proof (readVarUint_nonneg _ _ _ _ _ _ Z0 E2).
  pose proof (readVarUint_nonneg _ _ _ _ _ _ Z0 E3). unfold addressPointerSlotMax, addressPointerIndexMax in E.
  injection E as <- _ _. destruct (Z.ltb_spec 4294967295 s); cbn [orb]; [by exists 0, 0, 0|].
  destruct (Z.ltb_spec 65535 x); cbn [orb]; [by exists 0, 0, 0|].
  destruct (Z.ltb_spec 65535 c); cbn [orb]; [by exists 0, 0, 0|]. exists s, x, c. unfold pointer_ok. split_and!; try done; lia.
Qed.

(** What a decoded Shelley address is like; without a pointer, its bytes are the
    ones it came from. *)
Lemma decoded_ok raw a : wf_bytes raw -> NewAddressFromBytes raw = Ok a -> addrType a <> AddressTypeByron ->
  (pointerOutOfRange a = None -> addr_ok a) /\ (pointerStaking (addrType a) = false -> addr_ok a /\ Bytes a = Some raw).
Proof.
  unfold NewAddressFromBytes, populateFromBytes. destruct raw as [|header payload]; [done|]. intros Hw. apply Forall_cons in Hw as [Hh _].
  set (t := Z.shiftr (Z.land header 240) 4). set (net := Z.land header 15).
  destruct (t =? AddressTypeByron) eqn:Eb.
  { destruct (decodeByron _) as [[[h attr] bt]|]; [|done]. intros [= <-]. cbn. apply Z.eqb_eq in Eb. done. }
  destruct (negb (net =? 0) && negb (net =? 1)) eqn:En; [done|]. destruct (knownType t) eqn:Ek; cbn [negb]; [|done].
  intros E. apply bind_Ok in E as ([p rest] & Ep & E). apply bind_Ok in E as ([[s rest'] oor] & Es & E).
  destruct (Z.ltb_spec 0 (blen rest')) as [|L0]; cbn [andb negb] in E; [done|].
  assert (Er : blen rest' = 0) by (pose proof (blen_nonneg rest'); lia). apply blen_0 in Er. subst rest'.
  assert (HP : payment_ok t p /\ payload = paymentBytes p ++ rest).
  { unfold payment_ok. destruct (keyPayment t).
    - apply bind_Ok in Ep as ([h r] & Et & [= <- <-]). apply take_hash_Ok in Et as [-> Hl]. split; [by exists h|done].
    - destruct (scriptPayment t).
      + apply bind_Ok in Ep as ([h r] & Et & [= <- <-]). apply take_hash_Ok in Et as [-> Hl]. split; [by exists h|done].
      + injection Ep as <- <-. done. }
  destruct HP as [HP ->].
  assert (HS : staking_ok t s /\ (pointerStaking t = false -> rest = payloadBytes s /\ oor = None)).
  { unfold staking_ok. destruct (keyStaking t) eqn:K1.
    - apply bind_Ok in Es as ([h r] & Et & [= <- -> <-]). apply take_hash_Ok in Et as [-> Hl]. rewrite app_nil_r. split; [by exists h|done].
    - destruct (scriptStaking t).
      + apply bind_Ok in Es as ([h r] & Et & [= <- -> <-]). apply take_hash_Ok in Et as [-> Hl]. rewrite app_nil_r. split; [by exists h|done].
      + destruct (pointerStaking t).
        * apply bind_Ok in Es as ([[q r] o] & Et & [= <- -> <-]). apply decodePointer_ok in Et as (x & y & z & -> & Hq).
          split; [by exists x, y, z|done].
        * injection Es as <- -> <-. done. }
  destruct HS as [HS HR]. injection E as <-. intros Hb. cbn in Hb |- *.
  assert (Hnet : net = 0 \/ net = 1).
  { destruct (Z.eqb_spec net 0); [by left|]. destruct (Z.eqb_spec net 1); [by right|done]. }
  split; [intros Ho; by split|]. intros Hp. destruct (HR Hp) as [-> ->]. split; [by split|].
  unfold Bytes. cbn. rewrite Eb. do 2 f_equal. subst t net. by apply header_split.
Qed.

(** The rules' assumption on the addresses of withdrawals holds of every decoded
    reward account. *)
Lemma decoded_reward_account raw a extra : wf_bytes raw -> NewAddressFromBytes raw = Ok a ->
  addrType a = 14 \/ addrType a = 15 -> addr_wf (ruleAddress extra a).
Proof.
  intros Hw D Ht. assert (N : addrType a <> AddressTypeByron) by (unfold AddressTypeByron; lia).
  assert (Np : pointerStaking (addrType a) = false) by (unfold pointerStaking; destruct Ht as [-> | ->]; done).
  destruct (decoded_ok raw a Hw D N) as [_ Hd]. destruct (Hd Np) as [[_ Hn Hp Hs _] _].
  intros raw' cred Eb Ec. unfold ruleAddress in *. cbn in *. unfold Bytes in Eb. unfold AddrNetworkId, AddrStakeCredential in *.
  unfold payment_ok, staking_ok in *.
  assert (En : (addrType a =? AddressTypeByron) = false) by by apply Z.eqb_neq. rewrite En in *.
  destruct Ht as [Ht|Ht]; rewrite Ht in *; cbn in Hp; rewrite Hp in Eb; cbn in Hs; destruct Hs as (h & Hs & _); rewrite Hs in Eb, Ec;
    cbn in Eb, Ec; injection Eb as <-; injection Ec as <-; cbn; f_equal; destruct Hn as [-> | ->]; reflexivity.
Qed.

(** An address built from parts is the one that decodes from them. *)
Lemma parts_decode t net p s a : knownType t = true -> NewAddressFromParts t net p s = Ok a ->
  NewAddressFromBytes (headerByte t net :: p ++ s) = Ok a.
Proof.
  intros Hk. unfold NewAddressFromParts. destruct (negb (net =? 0) && negb (net =? 1)) eqn:En; [done|].
  assert (Hnet : net = 0 \/ net = 1).
  { destruct (Z.eqb_spec net 0); [by left|]. destruct (Z.eqb_spec net 1); [by right|done]. }
  intros E. assert (Q : NewAddressFromBytes (headerByte t net :: p ++ s) = Ok a \/
    (addr_ok a /\ Bytes a = Some (headerByte t net :: p ++ s))).
  { apply known_cases in Hk as Hc. rewrite !elem_of_cons, elem_of_nil in Hc.
    destruct Hc as [-> |[-> |[-> |[-> |[-> |[-> |[-> |[-> |[-> |[-> |[]]]]]]]]]]]; cbn in E; try (by left); right;
      destruct (Z.eqb_spec (blen p) 28) as [Lp|Lp], (Z.eqb_spec (blen s) 28) as [Ls|Ls], (Z.eqb_spec (blen p) 0) as [Lp0|Lp0],
        (Z.eqb_spec (blen s) 0) as [Ls0|Ls0]; cbn in E; try done; try lia; injection E as <-;
      (split; [split; cbn; unfold payment_ok, staking_ok; cbn; eauto|unfold Bytes; cbn];
       try (apply blen_0 in Lp0; subst p); try (apply blen_0 in Ls0; subst s); rewrite ?app_nil_r; done). }
  destruct Q as [Q|[Ho Q]]; [done|]. destruct (populate_bytes a [] false Ho) as (raw & E1 & D). rewrite app_nil_r in D. cbn in D.
  rewrite Q in E1. injection E1 as <-. unfold NewAddressFromBytes. by rewrite D, with_trailing_nil.
Qed.

(** The bytes of a decoded address without a pointer are the ones it came
    from, and the address built from the same parts is the same; a decoded reward
    account satisfies what the withdrawal rules take for granted of addresses. *)
Theorem decode_encode raw a : wf_bytes raw -> NewAddressFromBytes raw = Ok a -> addrType a <> AddressTypeByron ->
  (pointerStaking (addrType a) = false -> Bytes a = Some raw) /\
  (forall t net p s, raw = headerByte t net :: p ++ s -> knownType t = true ->
     forall a', NewAddressFromParts t net p s = Ok a' -> a' = a) /\
  (addrType a = 14 \/ addrType a = 15 -> forall extra, addr_wf (ruleAddress extra a)).
Proof.
  intros Hw D N. destruct (decoded_ok raw a Hw D N) as [_ Hd]. split_and!.
  - intros Hp. by apply Hd.
  - intros t net p s -> Hk a' E. apply parts_decode in E; [|done]. congruence.
  - intros Ht extra. by apply (decoded_reward_account raw).
Qed.

End Codec.

(** ** Witnesses *)

#[local] Instance noByron : ByronCodec :=
  {| ByronAttr := unit; noAttr := (); byronNetwork _ := false; decodeByron _ := None; encodeByron _ _ _ := None |}.

Definition demoPointerAddr : Addr :=
  mkAddr 5 1 (Some (AddressPayloadScriptHash (repeat 3 28))) (Some (AddressPayloadPointer 2498243 27 3)) [] None 0 ().

(** Witness of C26: a script address with a pointer. *)
Lemma address_roundtrip_witness : exists raw, Bytes demoPointerAddr = Some raw /\ NewAddressFromBytes raw = Ok demoPointerAddr /\
  blen raw = 35.
Proof.
  destruct (address_roundtrip demoPointerAddr) as (raw & E & D & _).
  - split; [reflexivity|by right| | |done].
    + exists (repeat 3 28). split; reflexivity.
    + exists 2498243, 27, 3. unfold pointer_ok. split; [reflexivity|lia].
  - exists raw. split; [exact E|]. split; [exact D|]. assert (R : blen <$> Bytes demoPointerAddr = Some 35) by (vm_compute; reflexivity).
    rewrite E in R. cbn in R. congruence.
Defined.

Definition demoReward : bytes := 225 :: repeat 4 28.

Definition demoRewardAddr : Addr := mkAddr 14 1 None (Some (AddressPayloadKeyHash (repeat 4 28))) [] None 0 ().

(** An instance: a reward account. *)
Lemma decode_encode_witness : Bytes demoRewardAddr = Some demoReward /\ addr_wf (ruleAddress 0 demoRewardAddr).
Proof.
  destruct (decode_encode demoReward demoRewardAddr) as (A & _ & B).
  - unfold demoReward. cbn [repeat]. unfold wf_bytes, is_byte. repeat constructor; lia.
  - reflexivity.
  - discriminate.
  - split; [apply A; reflexivity|apply B; by left].
Defined.


