(* ===== verification/Params.v ===== *)
(** * Conway protocol parameters (src/ledger/conway/pparams.go, rules.go)

    The parameters, an update of some of them, the domains an update has to
    respect, the group of parameters that stake pools vote on, and the
    application of an update. A field that is absent is [None]; a parameter set
    is held by value, with its own map of cost models. *)

From S2P Require Import Prelude Scripts.

(** ** Data *)

(** A [cbor.Rat]: the normalized numerator and denominator, or no value. *)
Abbreviation CborRat := (option (Z * Z)).

Record ExUnitPrice := mkPrice { MemPrice : option CborRat; StepPrice : option CborRat }.

Record PoolVotingThresholds := mkPoolThresholds {
  poMotionNoConfidence : CborRat;
  poCommitteeNormal : CborRat;
  poCommitteeNoConfidence : CborRat;
  poHardForkInitiation : CborRat;
  poPpSecurityGroup : CborRat
}.

Record DRepVotingThresholds := mkDRepThresholds {
  drMotionNoConfidence : CborRat;
  drCommitteeNormal : CborRat;
  drCommitteeNoConfidence : CborRat;
  drUpdateToConstitution : CborRat;
  drHardForkInitiation : CborRat;
  drPpNetworkGroup : CborRat;
  drPpEconomicGroup : CborRat;
  drPpTechnicalGroup : CborRat;
  drPpGovGroup : CborRat;
  drTreasuryWithdrawal : CborRat
}.

Record ConwayProtocolParameters := mkPP {
  pMinFeeA : Z;
  pMinFeeB : Z;
  pMaxBlockBodySize : Z;
  pMaxTxSize : Z;
  pMaxBlockHeaderSize : Z;
  pKeyDeposit : Z;
  pPoolDeposit : Z;
  pMaxEpoch : Z;
  pNOpt : Z;
  pA0 : option CborRat;
  pRho : option CborRat;
  pTau : option CborRat;
  pProtocolVersion : Z * Z;
  pMinPoolCost : Z;
  pAdaPerUtxoByte : Z;
  pCostModels : option (gmap Z (list Z));
  pExecutionCosts : ExUnitPrice;
  pMaxTxExUnits : ExUnits;
  pMaxBlockExUnits : ExUnits;
  pMaxValueSize : Z;
  pCollateralPercentage : Z;
  pMaxCollateralInputs : Z;
  pPoolVotingThresholds : PoolVotingThresholds;
  pDRepVotingThresholds : DRepVotingThresholds;
  pMinCommitteeSize : Z;
  pCommitteeTermLimit : Z;
  pGovActionValidityPeriod : Z;
  pGovActionDeposit : Z;
  pDRepDeposit : Z;
  pDRepInactivityPeriod : Z;
  pMinFeeRefScriptCostPerByte : option CborRat
}.

Record ConwayProtocolParameterUpdate := mkPPU {
  uMinFeeA : option Z;
  uMinFeeB : option Z;
  uMaxBlockBodySize : option Z;
  uMaxTxSize : option Z;
  uMaxBlockHeaderSize : option Z;
  uKeyDeposit : option Z;
  uPoolDeposit : option Z;
  uMaxEpoch : option Z;
  uNOpt : option Z;
  uA0 : option CborRat;
  uRho : option CborRat;
  uTau : option CborRat;
  uProtocolVersion : option (Z * Z);
  uMinPoolCost : option Z;
  uAdaPerUtxoByte : option Z;
  uCostModels : option (gmap Z (list Z));
  uExecutionCosts : option ExUnitPrice;
  uMaxTxExUnits : option ExUnits;
  uMaxBlockExUnits : option ExUnits;
  uMaxValueSize : option Z;
  uCollateralPercentage : option Z;
  uMaxCollateralInputs : option Z;
  uPoolVotingThresholds : option PoolVotingThresholds;
  uDRepVotingThresholds : option DRepVotingThresholds;
  uMinCommitteeSize : option Z;
  uCommitteeTermLimit : option Z;
  uGovActionValidityPeriod : option Z;
  uGovActionDeposit : option Z;
  uDRepDeposit : option Z;
  uDRepInactivityPeriod : option Z;
  uMinFeeRefScriptCostPerByte : option CborRat
}.

Inductive paramError :=
| InvalidField (field reason : string)
| FieldZero (field : string)
| UpdateEmpty
| ProtocolVersionUnavailable.

Abbreviation pcheck := (result paramError unit).

(** ** Domains *)

Definition MaxUint32 : Z := 4294967295.

(** Nil, a nil value, a part that does not fit, or above one. *)
Definition ValidateNonNegativeInterval (value : option CborRat) (unit : bool) : bool :=
  match value with
  | Some (Some (numerator, denominator)) =>
    (0 <=? numerator) && (numerator <=? MaxUint64) && (0 <=? denominator) && (denominator <=? MaxUint64)
      && negb (unit && (denominator <? numerator))
  | _ => false
  end.

Definition validNonNegativeRat (r : option CborRat) : bool := ValidateNonNegativeInterval r false.
Definition validUnitRat (r : option CborRat) : bool := ValidateNonNegativeInterval r true.

Definition ValidateCostModelLanguageIDs (models : option (gmap Z (list Z))) : bool :=
  forallb (fun e => fst e <=? 255) (map_to_list (default ∅ models)).

(** [if value != nil && *value > max]. *)
Definition fits (max : Z) (value : option Z) : bool := match value with Some v => v <=? max | None => true end.

Fixpoint validateWidths (max : Z) (reason : string) (fields : list (string * option Z)) : pcheck :=
  match fields with
  | [] => Ok ()
  | (name, value) :: fields => if negb (fits max value) then Err (InvalidField name reason) else validateWidths max reason fields
  end.

Definition validateConwayProtocolParameterIntegerWidths (u : ConwayProtocolParameterUpdate) : pcheck :=
  _ ← validateWidths MaxUint32 "must fit Word32"
        [("maxBlockBodySize"%string, uMaxBlockBodySize u); ("maxTxSize"%string, uMaxTxSize u);
         ("maxEpoch"%string, uMaxEpoch u); ("maxValueSize"%string, uMaxValueSize u)];
  _ ← validateWidths MaxUint16 "must fit Word16"
        [("maxBlockHeaderSize"%string, uMaxBlockHeaderSize u); ("nOpt"%string, uNOpt u);
         ("collateralPercentage"%string, uCollateralPercentage u); ("maxCollateralInputs"%string, uMaxCollateralInputs u);
         ("minCommitteeSize"%string, uMinCommitteeSize u)];
  validateWidths MaxUint32 "must fit Word32"
    [("committeeTermLimit"%string, uCommitteeTermLimit u); ("govActionValidityPeriod"%string, uGovActionValidityPeriod u);
     ("dRepInactivityPeriod"%string, uDRepInactivityPeriod u)].

Definition validateConwayExUnits (units : option ExUnits) (field : string) : pcheck :=
  match units with
  | None => Ok ()
  | Some n => if (Memory n <? 0) || (Steps n <? 0) then Err (InvalidField field "must be nonnegative") else Ok ()
  end.

Definition checkNonNegative (field : string) (r : option CborRat) : pcheck :=
  if negb (bool_decide (r = None)) && negb (validNonNegativeRat r) then Err (InvalidField field "must be nonnegative") else Ok ().
Definition checkUnit (field : string) (r : option CborRat) : pcheck :=
  if negb (bool_decide (r = None)) && negb (validUnitRat r) then Err (InvalidField field "must be in [0,1]") else Ok ().

Fixpoint checkThresholds (fields : list (string * CborRat)) : pcheck :=
  match fields with
  | [] => Ok ()
  | (name, rat) :: fields =>
    if negb (validUnitRat (Some rat)) then Err (InvalidField name "must be in [0,1]") else checkThresholds fields
  end.

Definition poolThresholds (t : PoolVotingThresholds) : list (string * CborRat) :=
  [("poolVotingThresholds.motionNoConfidence"%string, poMotionNoConfidence t);
   ("poolVotingThresholds.committeeNormal"%string, poCommitteeNormal t);
   ("poolVotingThresholds.committeeNoConfidence"%string, poCommitteeNoConfidence t);
   ("poolVotingThresholds.hardForkInitiation"%string, poHardForkInitiation t);
   ("poolVotingThresholds.ppSecurityGroup"%string, poPpSecurityGroup t)].

Definition drepThresholds (t : DRepVotingThresholds) : list (string * CborRat) :=
  [("drepVotingThresholds.motionNoConfidence"%string, drMotionNoConfidence t);
   ("drepVotingThresholds.committeeNormal"%string, drCommitteeNormal t);
   ("drepVotingThresholds.committeeNoConfidence"%string, drCommitteeNoConfidence t);
   ("drepVotingThresholds.updateToConstitution"%string, drUpdateToConstitution t);
   ("drepVotingThresholds.hardForkInitiation"%string, drHardForkInitiation t);
   ("drepVotingThresholds.ppNetworkGroup"%string, drPpNetworkGroup t);
   ("drepVotingThresholds.ppEconomicGroup"%string, drPpEconomicGroup t);
   ("drepVotingThresholds.ppTechnicalGroup"%string, drPpTechnicalGroup t);
   ("drepVotingThresholds.ppGovGroup"%string, drPpGovGroup t);
   ("drepVotingThresholds.treasuryWithdrawal"%string, drTreasuryWithdrawal t)].

Definition validateConwayProtocolParameterUpdate (u : ConwayProtocolParameterUpdate) : pcheck :=
  _ ← guard_err (negb (ValidateCostModelLanguageIDs (uCostModels u))) (InvalidField "costModels" "language");
  _ ← validateConwayProtocolParameterIntegerWidths u;
  _ ← checkNonNegative "a0" (uA0 u);
  _ ← checkUnit "rho" (uRho u);
  _ ← checkUnit "tau" (uTau u);
  _ ← match uExecutionCosts u with
      | None => Ok ()
      | Some c =>
        if negb (validNonNegativeRat (MemPrice c)) then Err (InvalidField "executionCosts.memory" "must be nonnegative")
        else if negb (validNonNegativeRat (StepPrice c)) then Err (InvalidField "executionCosts.steps" "must be nonnegative")
        else Ok ()
      end;
  _ ← validateConwayExUnits (uMaxTxExUnits u) "maxTxExUnits";
  _ ← validateConwayExUnits (uMaxBlockExUnits u) "maxBlockExUnits";
  _ ← checkNonNegative "minFeeRefScriptCostPerByte" (uMinFeeRefScriptCostPerByte u);
  _ ← match uPoolVotingThresholds u with None => Ok () | Some t => checkThresholds (poolThresholds t) end;
  match uDRepVotingThresholds u with None => Ok () | Some t => checkThresholds (drepThresholds t) end.

Definition absent {A} (o : option A) : bool := match o with None => true | Some _ => false end.

Definition isEmptyUpdate (u : ConwayProtocolParameterUpdate) : bool :=
  absent (uMinFeeA u) &&
  absent (uMinFeeB u) &&
  absent (uMaxBlockBodySize u) &&
  absent (uMaxTxSize u) &&
  absent (uMaxBlockHeaderSize u) &&
  absent (uKeyDeposit u) &&
  absent (uPoolDeposit u) &&
  absent (uMaxEpoch u) &&
  absent (uNOpt u) &&
  absent (uA0 u) &&
  absent (uRho u) &&
  absent (uTau u) &&
  absent (uProtocolVersion u) &&
  absent (uMinPoolCost u) &&
  absent (uAdaPerUtxoByte u) &&
  (size (default ∅ (uCostModels u)) =? 0)%nat &&
  absent (uExecutionCosts u) &&
  absent (uMaxTxExUnits u) &&
  absent (uMaxBlockExUnits u) &&
  absent (uMaxValueSize u) &&
  absent (uCollateralPercentage u) &&
  absent (uMaxCollateralInputs u) &&
  absent (uPoolVotingThresholds u) &&
  absent (uDRepVotingThresholds u) &&
  absent (uMinCommitteeSize u) &&
  absent (uCommitteeTermLimit u) &&
  absent (uGovActionValidityPeriod u) &&
  absent (uGovActionDeposit u) &&
  absent (uDRepDeposit u) &&
  absent (uDRepInactivityPeriod u) &&
  absent (uMinFeeRefScriptCostPerByte u).

(** [if value != nil && *value == 0]. *)
Definition isZero (value : option Z) : bool := match value with Some v => v =? 0 | None => false end.

Fixpoint checkNonZero (fields : list (string * option Z)) : pcheck :=
  match fields with
  | [] => Ok ()
  | (name, value) :: fields => if isZero value then Err (FieldZero name) else checkNonZero fields
  end.

Definition ProtocolVersionConway : Z := 9.
Definition ProtocolVersionPlomin : Z := 10.
Definition ProtocolVersionVanRossem : Z := 11.

(** [version] is the major version of the parameters given, if any were. *)
Definition ValidateProtocolParameterUpdateNonZeroFields (u : ConwayProtocolParameterUpdate) (version : option Z) : pcheck :=
  _ ← checkNonZero [("maxBHSize"%string, uMaxBlockHeaderSize u); ("maxTxSize"%string, uMaxTxSize u);
                    ("maxValSize"%string, uMaxValueSize u); ("maxBlockBodySize"%string, uMaxBlockBodySize u)];
  _ ← guard_err (absent version && (isZero (uAdaPerUtxoByte u) || isZero (uNOpt u))) ProtocolVersionUnavailable;
  let major := default 0 version in
  _ ← checkNonZero [("collateralPercentage"%string, uCollateralPercentage u); ("committeeMaxTermLength"%string, uCommitteeTermLimit u);
                    ("govActionLifetime"%string, uGovActionValidityPeriod u); ("poolDeposit"%string, uPoolDeposit u);
                    ("govActionDeposit"%string, uGovActionDeposit u); ("drepDeposit"%string, uDRepDeposit u)];
  if isZero (uAdaPerUtxoByte u) && (ProtocolVersionPlomin <=? major) then Err (FieldZero "coinsPerUTxOByte")
  else if isZero (uNOpt u) && (ProtocolVersionVanRossem <=? major) then Err (FieldZero "nOptimalPoolCount")
  else Ok ().

Definition validateProtocolParameterUpdate (u : ConwayProtocolParameterUpdate) (version : option Z) : pcheck :=
  _ ← validateConwayProtocolParameterUpdate u;
  if isEmptyUpdate u then Err UpdateEmpty else ValidateProtocolParameterUpdateNonZeroFields u version.

(** ** Application *)

Definition override {A} (old new : option A) : option A := match new with Some _ => new | None => old end.

(** [maps.Copy] onto the parameters' own map. *)
Definition copyCostModels (old new : option (gmap Z (list Z))) : option (gmap Z (list Z)) :=
  match new with Some m => Some (m ∪ default ∅ old) | None => old end.

Definition updateUnchecked (p : ConwayProtocolParameters) (u : ConwayProtocolParameterUpdate) : ConwayProtocolParameters :=
  mkPP
    (default (pMinFeeA p) (uMinFeeA u))
    (default (pMinFeeB p) (uMinFeeB u))
    (default (pMaxBlockBodySize p) (uMaxBlockBodySize u))
    (default (pMaxTxSize p) (uMaxTxSize u))
    (default (pMaxBlockHeaderSize p) (uMaxBlockHeaderSize u))
    (default (pKeyDeposit p) (uKeyDeposit u))
    (default (pPoolDeposit p) (uPoolDeposit u))
    (default (pMaxEpoch p) (uMaxEpoch u))
    (default (pNOpt p) (uNOpt u))
    (override (pA0 p) (uA0 u))
    (override (pRho p) (uRho u))
    (override (pTau p) (uTau u))
    (default (pProtocolVersion p) (uProtocolVersion u))
    (default (pMinPoolCost p) (uMinPoolCost u))
    (default (pAdaPerUtxoByte p) (uAdaPerUtxoByte u))
    (copyCostModels (pCostModels p) (uCostModels u))
    (default (pExecutionCosts p) (uExecutionCosts u))
    (default (pMaxTxExUnits p) (uMaxTxExUnits u))
    (default (pMaxBlockExUnits p) (uMaxBlockExUnits u))
    (default (pMaxValueSize p) (uMaxValueSize u))
    (default (pCollateralPercentage p) (uCollateralPercentage u))
    (default (pMaxCollateralInputs p) (uMaxCollateralInputs u))
    (default (pPoolVotingThresholds p) (uPoolVotingThresholds u))
    (default (pDRepVotingThresholds p) (uDRepVotingThresholds u))
    (default (pMinCommitteeSize p) (uMinCommitteeSize u))
    (default (pCommitteeTermLimit p) (uCommitteeTermLimit u))
    (default (pGovActionValidityPeriod p) (uGovActionValidityPeriod u))
    (default (pGovActionDeposit p) (uGovActionDeposit u))
    (default (pDRepDeposit p) (uDRepDeposit u))
    (default (pDRepInactivityPeriod p) (uDRepInactivityPeriod u))
    (override (pMinFeeRefScriptCostPerByte p) (uMinFeeRefScriptCostPerByte u)).


Definition ApplyUpdate (p : ConwayProtocolParameters) (u : option ConwayProtocolParameterUpdate)
    : result paramError ConwayProtocolParameters :=
  match u with
  | None => Ok p
  | Some u => _ ← validateConwayProtocolParameterUpdate u; Ok (updateUnchecked p u)
  end.

(** ** The security group *)

Definition named {A} (name : string) (o : option A) : list string := if absent o then [] else [name].

Definition SecurityGroupFields (u : ConwayProtocolParameterUpdate) : list string :=
  named "MinFeeA" (uMinFeeA u) ++ named "MinFeeB" (uMinFeeB u) ++ named "MaxBlockBodySize" (uMaxBlockBodySize u) ++
  named "MaxTxSize" (uMaxTxSize u) ++ named "MaxBlockHeaderSize" (uMaxBlockHeaderSize u) ++
  named "AdaPerUtxoByte" (uAdaPerUtxoByte u) ++ named "MaxBlockExUnits" (uMaxBlockExUnits u) ++
  named "MaxValueSize" (uMaxValueSize u) ++ named "GovActionDeposit" (uGovActionDeposit u) ++
  named "MinFeeRefScriptCostPerByte" (uMinFeeRefScriptCostPerByte u).

(** ** Genesis *)

(** The thresholds a genesis file gives; one that is absent is left alone. *)
Record ConwayGenesisPoolVotingThresholds := mkGenesisPool {
  gpMotionNoConfidence : option CborRat;
  gpCommitteeNormal : option CborRat;
  gpCommitteeNoConfidence : option CborRat;
  gpHardForkInitiation : option CborRat;
  gpPpSecurityGroup : option CborRat
}.

Record ConwayGenesisDRepVotingThresholds := mkGenesisDRep {
  gdMotionNoConfidence : option CborRat;
  gdCommitteeNormal : option CborRat;
  gdCommitteeNoConfidence : option CborRat;
  gdUpdateToConstitution : option CborRat;
  gdHardForkInitiation : option CborRat;
  gdPpNetworkGroup : option CborRat;
  gdPpEconomicGroup : option CborRat;
  gdPpTechnicalGroup : option CborRat;
  gdPpGovGroup : option CborRat;
  gdTreasuryWithdrawal : option CborRat
}.

Record ConwayGenesis := mkGenesis {
  gPoolVotingThresholds : ConwayGenesisPoolVotingThresholds;
  gDRepVotingThresholds : ConwayGenesisDRepVotingThresholds;
  gMinCommitteeSize : Z;
  gCommitteeTermLimit : Z;
  gGovActionValidityPeriod : Z;
  gGovActionDeposit : Z;
  gDRepDeposit : Z;
  gDRepInactivityPeriod : Z;
  gMinFeeRefScriptCostPerByte : option CborRat;
  gPlutusV3CostModel : list Z
}.

Definition genesisPool (t : PoolVotingThresholds) (g : ConwayGenesisPoolVotingThresholds) : PoolVotingThresholds :=
  mkPoolThresholds
    (default (poMotionNoConfidence t) (gpMotionNoConfidence g))
    (default (poCommitteeNormal t) (gpCommitteeNormal g))
    (default (poCommitteeNoConfidence t) (gpCommitteeNoConfidence g))
    (default (poHardForkInitiation t) (gpHardForkInitiation g))
    (default (poPpSecurityGroup t) (gpPpSecurityGroup g)).

Definition genesisDRep (t : DRepVotingThresholds) (g : ConwayGenesisDRepVotingThresholds) : DRepVotingThresholds :=
  mkDRepThresholds
    (default (drMotionNoConfidence t) (gdMotionNoConfidence g))
    (default (drCommitteeNormal t) (gdCommitteeNormal g))
    (default (drCommitteeNoConfidence t) (gdCommitteeNoConfidence g))
    (default (drUpdateToConstitution t) (gdUpdateToConstitution g))
    (default (drHardForkInitiation t) (gdHardForkInitiation g))
    (default (drPpNetworkGroup t) (gdPpNetworkGroup g))
    (default (drPpEconomicGroup t) (gdPpEconomicGroup g))
    (default (drPpTechnicalGroup t) (gdPpTechnicalGroup g))
    (default (drPpGovGroup t) (gdPpGovGroup g))
    (default (drTreasuryWithdrawal t) (gdTreasuryWithdrawal g)).

Definition UpdateFromGenesis (p : ConwayProtocolParameters) (genesis : option ConwayGenesis) : ConwayProtocolParameters :=
  match genesis with
  | None => p
  | Some g =>
    mkPP (pMinFeeA p) (pMinFeeB p) (pMaxBlockBodySize p) (pMaxTxSize p) (pMaxBlockHeaderSize p) (pKeyDeposit p)
      (pPoolDeposit p) (pMaxEpoch p) (pNOpt p) (pA0 p) (pRho p) (pTau p) (pProtocolVersion p) (pMinPoolCost p)
      (pAdaPerUtxoByte p)
      (if 0 <? blen (gPlutusV3CostModel g) then Some (<[2 := gPlutusV3CostModel g]> (default ∅ (pCostModels p)))
       else pCostModels p)
      (pExecutionCosts p) (pMaxTxExUnits p) (pMaxBlockExUnits p) (pMaxValueSize p) (pCollateralPercentage p)
      (pMaxCollateralInputs p)
      (genesisPool (pPoolVotingThresholds p) (gPoolVotingThresholds g))
      (genesisDRep (pDRepVotingThresholds p) (gDRepVotingThresholds g))
      (gMinCommitteeSize g) (gCommitteeTermLimit g) (gGovActionValidityPeriod g) (gGovActionDeposit g)
      (gDRepDeposit g) (gDRepInactivityPeriod g)
      (override (pMinFeeRefScriptCostPerByte p) (gMinFeeRefScriptCostPerByte g))
  end.

(** ** The wire *)

(** The keys an encoded update may have; [uKeys] are those of a value's fields. *)
Definition allowedTags : list Z := [0; 1; 2; 3; 4; 5; 6; 7; 8; 9; 10; 11] ++ seqZ 16 18.

Definition keyed {A} (key : Z) (o : option A) : list Z := if absent o then [] else [key].

Definition uKeys (u : ConwayProtocolParameterUpdate) : list Z :=
  keyed 0 (uMinFeeA u) ++ keyed 1 (uMinFeeB u) ++ keyed 2 (uMaxBlockBodySize u) ++ keyed 3 (uMaxTxSize u) ++
  keyed 4 (uMaxBlockHeaderSize u) ++ keyed 5 (uKeyDeposit u) ++ keyed 6 (uPoolDeposit u) ++ keyed 7 (uMaxEpoch u) ++
  keyed 8 (uNOpt u) ++ keyed 9 (uA0 u) ++ keyed 10 (uRho u) ++ keyed 11 (uTau u) ++ keyed 14 (uProtocolVersion u) ++
  keyed 16 (uMinPoolCost u) ++ keyed 17 (uAdaPerUtxoByte u) ++ keyed 18 (uCostModels u) ++ keyed 19 (uExecutionCosts u) ++
  keyed 20 (uMaxTxExUnits u) ++ keyed 21 (uMaxBlockExUnits u) ++ keyed 22 (uMaxValueSize u) ++
  keyed 23 (uCollateralPercentage u) ++ keyed 24 (uMaxCollateralInputs u) ++ keyed 25 (uPoolVotingThresholds u) ++
  keyed 26 (uDRepVotingThresholds u) ++ keyed 27 (uMinCommitteeSize u) ++ keyed 28 (uCommitteeTermLimit u) ++
  keyed 29 (uGovActionValidityPeriod u) ++ keyed 30 (uGovActionDeposit u) ++ keyed 31 (uDRepDeposit u) ++
  keyed 32 (uDRepInactivityPeriod u) ++ keyed 33 (uMinFeeRefScriptCostPerByte u).

(** The check of the keys, the first one in the order of the run. *)
Fixpoint checkTags (keys : list Z) : pcheck :=
  match keys with
  | [] => Ok ()
  | key :: keys => if bool_decide (key ∈ allowedTags) then checkTags keys else Err (InvalidField "protocol parameter tag" "unknown field")
  end.

(** ** Specification *)

(** The domains of the parameters. *)
Record params_ok (p : ConwayProtocolParameters) : Prop := {
  ok_sizes : pMaxBlockBodySize p <= MaxUint32 /\ pMaxTxSize p <= MaxUint32 /\ pMaxValueSize p <= MaxUint32 /\
             pMaxBlockHeaderSize p <= MaxUint16;
  ok_epochs : pMaxEpoch p <= MaxUint32 /\ pCommitteeTermLimit p <= MaxUint32 /\ pGovActionValidityPeriod p <= MaxUint32 /\
              pDRepInactivityPeriod p <= MaxUint32;
  ok_counts : pNOpt p <= MaxUint16 /\ pCollateralPercentage p <= MaxUint16 /\ pMaxCollateralInputs p <= MaxUint16 /\
              pMinCommitteeSize p <= MaxUint16;
  ok_rates : validNonNegativeRat (pA0 p) = true /\ validUnitRat (pRho p) = true /\ validUnitRat (pTau p) = true /\
             validNonNegativeRat (pMinFeeRefScriptCostPerByte p) = true;
  ok_prices : validNonNegativeRat (MemPrice (pExecutionCosts p)) = true /\ validNonNegativeRat (StepPrice (pExecutionCosts p)) = true;
  ok_units : 0 <= Memory (pMaxTxExUnits p) /\ 0 <= Steps (pMaxTxExUnits p) /\
             0 <= Memory (pMaxBlockExUnits p) /\ 0 <= Steps (pMaxBlockExUnits p);
  ok_poolThresholds n r : (n, r) ∈ poolThresholds (pPoolVotingThresholds p) -> validUnitRat (Some r) = true;
  ok_drepThresholds n r : (n, r) ∈ drepThresholds (pDRepVotingThresholds p) -> validUnitRat (Some r) = true;
  ok_languages l m : default ∅ (pCostModels p) !! l = Some m -> l <= 255
}.

(** What must not be zero, at a major version. *)
Record params_nonzero (major : Z) (p : ConwayProtocolParameters) : Prop := {
  nz_sizes : pMaxBlockHeaderSize p <> 0 /\ pMaxTxSize p <> 0 /\ pMaxValueSize p <> 0 /\ pMaxBlockBodySize p <> 0;
  nz_periods : pCommitteeTermLimit p <> 0 /\ pGovActionValidityPeriod p <> 0;
  nz_deposits : pPoolDeposit p <> 0 /\ pGovActionDeposit p <> 0 /\ pDRepDeposit p <> 0 /\ pCollateralPercentage p <> 0;
  nz_utxo : ProtocolVersionPlomin <= major -> pAdaPerUtxoByte p <> 0;
  nz_pools : ProtocolVersionVanRossem <= major -> pNOpt p <> 0
}.

(** The parameters of the security group. *)
Definition securityParams (p : ConwayProtocolParameters) :=
  (pMinFeeA p, pMinFeeB p, pMaxBlockBodySize p, pMaxTxSize p, pMaxBlockHeaderSize p, pAdaPerUtxoByte p,
   pMaxBlockExUnits p, pMaxValueSize p, pGovActionDeposit p, pMinFeeRefScriptCostPerByte p).

(** ** Proofs *)

Lemma default_keeps {A} (P : A -> Prop) (d : A) (o : option A) : P d -> (forall a, o = Some a -> P a) -> P (default d o).
Proof. destruct o as [a|]; cbn; auto. Qed.

Lemma override_keeps {A} (P : option A -> Prop) (d o : option A) : P d -> (o <> None -> P o) -> P (override d o).
Proof. destruct o as [a|]; cbn; intros Hd Ho; [apply Ho; done|done]. Qed.

Lemma checkWidths_ok max reason fields :
  validateWidths max reason fields = Ok () <-> Forall (fun f => forall v, snd f = Some v -> v <= max) fields.
Proof.
  induction fields as [|[n [v|]] l IH]; cbn [validateWidths fits negb snd]; [by split| |].
  - rewrite Forall_cons, <- IH. cbn. destruct (Z.leb_spec v max); cbn; split.
    + intros H'. split; [intros ? [= <-]; lia|done].
    + by intros [_ H'].
    + done.
    + intros [H' _]. specialize (H' v eq_refl). lia.
  - rewrite Forall_cons, <- IH. cbn. split; [by intros|by intros [_ ?]].
Qed.

Lemma checkNonZero_ok fields : checkNonZero fields = Ok () <-> Forall (fun f => snd f <> Some 0) fields.
Proof.
  induction fields as [|[n [v|]] l IH]; cbn [checkNonZero isZero snd]; [by split| |]; rewrite Forall_cons, <- IH; cbn.
  - destruct (Z.eqb_spec v 0); split; [done|naive_solver..].
  - split; [by intros|by intros [_ ?]].
Qed.

Lemma checkThresholds_ok fields :
  checkThresholds fields = Ok () <-> forall n r, (n, r) ∈ fields -> validUnitRat (Some r) = true.
Proof.
  induction fields as [|[n r] l IH]; cbn [checkThresholds]; [split; [intros _ n r H; by apply not_elem_of_nil in H|done]|].
  destruct (validUnitRat (Some r)) eqn:E; cbn [negb].
  - rewrite IH. split; intros H n' r' Hin; [apply elem_of_cons in Hin as [[= -> ->]|Hin]; eauto|apply (H n'); by right].
  - split; [done|]. intros H. by rewrite (H n r) in E by left.
Qed.

Lemma checkNonNegative_ok f r : checkNonNegative f r = Ok () <-> (r <> None -> validNonNegativeRat r = true).
Proof. unfold checkNonNegative. case_bool_decide; destruct (validNonNegativeRat r); cbn; naive_solver. Qed.

Lemma checkUnit_ok f r : checkUnit f r = Ok () <-> (r <> None -> validUnitRat r = true).
Proof. unfold checkUnit. case_bool_decide; destruct (validUnitRat r); cbn; naive_solver. Qed.

Lemma exunits_ok units f : validateConwayExUnits units f = Ok () <-> forall n, units = Some n -> 0 <= Memory n /\ 0 <= Steps n.
Proof.
  destruct units as [n|]; cbn; [|naive_solver].
  destruct (Z.ltb_spec (Memory n) 0), (Z.ltb_spec (Steps n) 0); cbn; (split; [try done; intros _ ? [= <-]; lia|]);
    intros H'; try done; destruct (H' n eq_refl); lia.
Qed.

Lemma prices_ok u r : match uExecutionCosts u with
      | None => Ok ()
      | Some c =>
        if negb (validNonNegativeRat (MemPrice c)) then Err (InvalidField "executionCosts.memory" "must be nonnegative")
        else if negb (validNonNegativeRat (StepPrice c)) then Err (InvalidField "executionCosts.steps" "must be nonnegative")
        else Ok ()
      end = Ok r -> forall c, uExecutionCosts u = Some c -> validNonNegativeRat (MemPrice c) = true /\ validNonNegativeRat (StepPrice c) = true.
Proof.
  intros H c Hc. rewrite Hc in H.
  destruct (validNonNegativeRat (MemPrice c)), (validNonNegativeRat (StepPrice c)); done.
Qed.

Lemma languages_ok m : ValidateCostModelLanguageIDs m = true <-> forall l c, default ∅ m !! l = Some c -> l <= 255.
Proof.
  unfold ValidateCostModelLanguageIDs. rewrite forallb_forall. split.
  - intros H l c Hl. specialize (H (l, c)). cbn in H. apply Z.leb_le, H, list_elem_of_In, elem_of_map_to_list, Hl.
  - intros H [l c] Hin. cbn. apply Z.leb_le, (H l c), elem_of_map_to_list, list_elem_of_In, Hin.
Qed.

Lemma copied_languages old new l c :
  default ∅ (copyCostModels old new) !! l = Some c ->
  default ∅ old !! l = Some c \/ default ∅ new !! l = Some c.
Proof.
  destruct new as [m|]; cbn [copyCostModels default]; [|by left].
  change (default ∅ (Some ?x)) with x. intros H. apply lookup_union_Some_raw in H as [H|[_ H]]; auto.
Qed.

(** Split the checks of an update into what each says. *)
Ltac domains H :=
  repeat match type of H with _ ≫= _ = Ok _ => let E := fresh "D" in let v := fresh "v" in apply bind_Ok in H as ([] & E & H) end.

Ltac all_fields :=
  repeat match goal with
  | H : Forall _ (_ :: _) |- _ => apply Forall_cons in H as [? H]; cbn [snd] in *
  | H : Forall _ [] |- _ => clear H
  end.

Ltac keep := apply default_keeps; [done|first [assumption|intros ? ->; congruence]].

Lemma update_keeps_ok p u :
  params_ok p -> validateConwayProtocolParameterUpdate u = Ok () -> params_ok (updateUnchecked p u).
Proof.
  intros [S E C R P U TP TD L] H. unfold validateConwayProtocolParameterUpdate in H. domains H.
  apply guard_err_Ok, negb_false_iff in D. rewrite languages_ok in D.
  unfold validateConwayProtocolParameterIntegerWidths in D0. domains D0.
  rewrite checkWidths_ok in D0, D9, D10. all_fields.
  rewrite checkNonNegative_ok in D1, D7. rewrite checkUnit_ok in D2, D3. rewrite exunits_ok in D5, D6.
  pose proof (prices_ok _ _ D4) as D4'.
  split; cbn; repeat match goal with H : _ /\ _ |- _ => destruct H end.
  - repeat apply conj; apply (default_keeps (fun v => v <= _)); auto.
  - repeat apply conj; apply (default_keeps (fun v => v <= _)); auto.
  - repeat apply conj; apply (default_keeps (fun v => v <= _)); auto.
  - repeat apply conj; first [apply (override_keeps (fun v => validNonNegativeRat v = true))|
      apply (override_keeps (fun v => validUnitRat v = true))]; auto.
  - destruct (uExecutionCosts u) as [c|] eqn:Ec; cbn; [by apply D4'|done].
  - destruct (uMaxTxExUnits u) as [c|] eqn:Ec, (uMaxBlockExUnits u) as [c'|] eqn:Ec'; cbn;
      repeat match goal with H : forall n, Some ?c = Some n -> _ |- _ => destruct (H c eq_refl); clear H end; auto.
  - destruct (uPoolVotingThresholds u) as [t|]; cbn; [by apply checkThresholds_ok|done].
  - destruct (uDRepVotingThresholds u) as [t|]; cbn; [by apply checkThresholds_ok|done].
  - intros l m Hl. apply copied_languages in Hl as [Hl|Hl]; eauto.
Qed.

Lemma nonzero_default o d : o <> Some 0 -> d <> 0 -> default d o <> 0.
Proof. destruct o as [v|]; cbn; [intros H _ ->; done|done]. Qed.
#[local] Hint Resolve nonzero_default : core.

Lemma isZero_false o : isZero o = false <-> o <> Some 0.
Proof. destruct o as [v|]; cbn; [destruct (Z.eqb_spec v 0); naive_solver|naive_solver]. Qed.

Lemma update_keeps_nonzero p u major :
  params_nonzero major p -> ValidateProtocolParameterUpdateNonZeroFields u (Some major) = Ok () ->
  params_nonzero major (updateUnchecked p u).
Proof.
  intros [S P D N O] H. unfold ValidateProtocolParameterUpdateNonZeroFields in H. domains H. cbn [from_option id] in H.
  rewrite checkNonZero_ok in D0, D2. all_fields.
  repeat match goal with H : _ /\ _ |- _ => destruct H end.
  assert (ProtocolVersionPlomin <= major -> uAdaPerUtxoByte u <> Some 0) as Ha.
  { intros Hm%Z.leb_le. apply isZero_false. rewrite Hm in H. by destruct (isZero (uAdaPerUtxoByte u)). }
  assert (ProtocolVersionVanRossem <= major -> uNOpt u <> Some 0) as Hn.
  { intros Hm%Z.leb_le. apply isZero_false. rewrite Hm in H.
    by destruct (isZero (uAdaPerUtxoByte u) && _), (isZero (uNOpt u)). }
  split; cbn; (repeat apply conj); auto.
Qed.

(** C38. A parameter change that the proposal rule accepts at a version can be
    enacted, and the parameters stay in their domains; those that must not be
    zero at that version are not. *)
Theorem accepted_update_safe p u :
  params_ok p -> params_nonzero (fst (pProtocolVersion p)) p ->
  validateProtocolParameterUpdate u (Some (fst (pProtocolVersion p))) = Ok () ->
  exists p', ApplyUpdate p (Some u) = Ok p' /\ params_ok p' /\ params_nonzero (fst (pProtocolVersion p)) p'.
Proof.
  intros Hok Hnz H. unfold validateProtocolParameterUpdate in H. peel H. destruct v.
  destruct (isEmptyUpdate u); [done|]. exists (updateUnchecked p u). split; [|split].
  - cbn [ApplyUpdate]. by rewrite E.
  - by apply update_keeps_ok.
  - by apply update_keeps_nonzero.
Qed.

(** *** The security group *)

Lemma named_nil {A} n (o : option A) : named n o = [] <-> o = None.
Proof. by destruct o. Qed.

Lemma outside_security u :
  SecurityGroupFields u = [] -> forall p, securityParams (updateUnchecked p u) = securityParams p.
Proof.
  unfold SecurityGroupFields. rewrite !app_nil, !named_nil. intros H p.
  repeat match goal with H : _ /\ _ |- _ => destruct H end.
  unfold securityParams, updateUnchecked. cbn.
  repeat match goal with H : ?x u = None |- _ => rewrite H; clear H end. done.
Qed.

(** Parameters where each value of the group is none of the update's. *)
Definition apart (u : ConwayProtocolParameterUpdate) : ConwayProtocolParameters :=
  let other (o : option Z) := match o with Some v => v + 1 | None => 0 end in
  mkPP (other (uMinFeeA u)) (other (uMinFeeB u)) (other (uMaxBlockBodySize u)) (other (uMaxTxSize u))
    (other (uMaxBlockHeaderSize u)) 0 0 0 0 None None None (9, 0) 0 (other (uAdaPerUtxoByte u)) None (mkPrice None None)
    (mkExUnits 0 0) (match uMaxBlockExUnits u with Some n => mkExUnits (Memory n + 1) 0 | None => mkExUnits 0 0 end)
    (other (uMaxValueSize u)) 0 0 (mkPoolThresholds None None None None None)
    (mkDRepThresholds None None None None None None None None None None) 0 0 0 (other (uGovActionDeposit u)) 0 0 None.

Lemma default_apart o : default (match o with Some v => v + 1 | None => 0 end) o = match o with Some v => v + 1 | None => 0 end -> o = None.
Proof. destruct o as [v|]; cbn; [lia|done]. Qed.

Lemma inside_security u : securityParams (updateUnchecked (apart u) u) = securityParams (apart u) -> SecurityGroupFields u = [].
Proof.
  unfold securityParams, updateUnchecked. cbn. intros H. injection H as H1 H2 H3 H4 H5 H6 H7 H8 H9 H10.
  apply default_apart in H1, H2, H3, H4, H5, H6, H8, H9.
  assert (uMaxBlockExUnits u = None) as H7'.
  { destruct (uMaxBlockExUnits u) as [[m s]|]; [|done]. cbn in H7. injection H7. lia. }
  assert (uMinFeeRefScriptCostPerByte u = None) as H10' by (by destruct (uMinFeeRefScriptCostPerByte u)).
  unfold SecurityGroupFields. rewrite !app_nil, !named_nil. done.
Qed.

(** An update has security-group fields exactly if it can change one of the
    parameters of that group. *)
Lemma security_fields u :
  SecurityGroupFields u <> [] <-> exists p, securityParams (updateUnchecked p u) <> securityParams p.
Proof.
  split.
  - intros H. exists (apart u). intros E. by apply H, inside_security.
  - intros [p Hp] E. by apply Hp, outside_security.
Qed.

(** An update of the version alone. *)
Definition versionUpdate (v : Z * Z) : ConwayProtocolParameterUpdate :=
  mkPPU None None None None None None None None None None None None (Some v) None None None None None None None None None
    None None None None None None None None None.

(** The proposal rule accepts an update of the protocol version, and applying
    it moves the version, though the decoder refuses its key. *)
Theorem update_moves_version v version p :
  checkTags (uKeys (versionUpdate v)) = Err (InvalidField "protocol parameter tag" "unknown field") /\
  validateProtocolParameterUpdate (versionUpdate v) version = Ok () /\
  exists p', ApplyUpdate p (Some (versionUpdate v)) = Ok p' /\ pProtocolVersion p' = v.
Proof.
  split; [done|]. split; [by destruct version|]. exists (updateUnchecked p (versionUpdate v)). done.
Qed.

(** ** Witnesses *)

Definition half : CborRat := Some (1, 2).
Definition demoConwayParams : ConwayProtocolParameters :=
  mkPP 1 2 1000 100 1100 2 7 18 500 (Some (Some (3, 10))) (Some (Some (3, 1000))) (Some half) (10, 0) 0 1 None
    (mkPrice (Some half) (Some half)) (mkExUnits 10 10) (mkExUnits 20 20) 50 150 3
    (mkPoolThresholds half half half half half)
    (mkDRepThresholds half half half half half half half half half half) 7 146 6 4 5 20 (Some (Some (15, 1))).

Definition demoUpdate : ConwayProtocolParameterUpdate :=
  mkPPU (Some 3) None None None None None None None None None None None None None (Some 4) (Some {[0 := [1]]}) None None
    None None None None None None None None None None None None None.

Lemma demoConwayParams_ok : params_ok demoConwayParams /\ params_nonzero 10 demoConwayParams.
Proof.
  split; split; try (apply checkThresholds_ok; reflexivity); try (apply languages_ok; reflexivity);
    repeat split; try reflexivity; cbn; unfold MaxUint32, MaxUint16; lia.
Qed.

(** Witness of C38: an update of a fee, the price of an output and a cost model. *)
Lemma accepted_update_safe_witness :
  exists p', ApplyUpdate demoConwayParams (Some demoUpdate) = Ok p' /\ params_ok p' /\
    params_nonzero (fst (pProtocolVersion demoConwayParams)) p'.
Proof.
  apply (accepted_update_safe demoConwayParams demoUpdate); [apply demoConwayParams_ok|apply demoConwayParams_ok|vm_compute; reflexivity].
Defined.
