(* ===== verification/BlockState.v ===== *)
(** * The view of a ledger state within a block (src/ledger/common/block_state.go)

    [BlockLedgerState] wraps a ledger state and overlays the effects of the
    transactions of a block applied so far; the queries of the view look at the
    overlay first. The specification is a ledger whose maps are updated by each
    effect in turn; the refinement says that the view over a state that reports
    a ledger reports the ledger after the block's transactions. *)

From S2P Require Import Prelude ShelleyRules Params.
#[local] Open Scope Z_scope.

(** ** Data *)

Abbreviation Hash28 := (list Z).
(** A governance action: the transaction and the index of the proposal. *)
Abbreviation GovActionId := (list Z * Z)%type.
(** The address and the hash of a document. *)
Abbreviation GovAnchor := (list Z * list Z)%type.

Definition DrepTypeAddrKeyHash : Z := 0.
Definition DrepTypeScriptHash : Z := 1.

Record Drep := mkDrep { drepType : Z; drepCredential : bytes }.

Record DRepRegistrationR := mkDRepReg { drCredential : Credential; drAnchor : option GovAnchor; drDeposit : option Z }.

Record CommitteeMemberR := mkMember { ColdKey : Hash28; HotKey : option Hash28; ExpiryEpoch : Z; Resigned : bool }.

(** The actions; maps list their entries in the order of the run, a policy or
    script hash that is nil is [None]. [OtherGovAction] stands for the types
    outside the era. *)
Inductive GovAction :=
| ParameterChangeGovAction (prev : option GovActionId) (update : ConwayProtocolParameterUpdate) (policy : option bytes)
| HardForkInitiationGovAction (prev : option GovActionId) (version : Z * Z)
| TreasuryWithdrawalGovAction (withdrawals : list (option Address * Z)) (policy : option bytes)
| NoConfidenceGovAction (prev : option GovActionId)
| UpdateCommitteeGovAction (prev : option GovActionId) (remove : list Credential) (credEpochs : list (option Credential * Z))
    (quorum : CborRat)
| NewConstitutionGovAction (prev : option GovActionId) (script : option bytes)
| InfoGovAction
| OtherGovAction.

Definition GovActionTypeParameterChange : Z := 0.
Definition GovActionTypeHardForkInitiation : Z := 1.
Definition GovActionTypeTreasuryWithdrawal : Z := 2.
Definition GovActionTypeNoConfidence : Z := 3.
Definition GovActionTypeUpdateCommittee : Z := 4.
Definition GovActionTypeNewConstitution : Z := 5.
Definition GovActionTypeInfo : Z := 6.

Record GovActionState := mkActionState { ActionId : GovActionId; ActionType : Z; ExpirySlot : Z; Action : option GovAction }.

(** All the certificates; the ones of the pools are those of the Shelley
    rules. *)
Inductive BlockCertificate :=
| StakeRegistrationCertificate (c : Credential)
| StakeDeregistrationCertificate (c : Credential)
| StakeDelegationCertificate (c : Credential) (pool : PoolKeyHash)
| PoolRegistrationCert (reg : PoolRegistrationCertificate)
| PoolRetirementCertificate (pool : PoolKeyHash) (epoch : Z)
| GenesisKeyDelegationCertificate (genesisHash delegateHash : bytes) (vrf : VrfKeyHash)
| MoveInstantaneousRewardsCertificate (source : Z) (rewards : list (option Credential * option Z))
| RegistrationCertificate (c : Credential) (amount : Z)
| DeregistrationCertificate (c : Credential) (amount : Z)
| VoteDelegationCertificate (c : Credential) (drep : Drep)
| StakeVoteDelegationCertificate (c : Credential) (pool : PoolKeyHash) (drep : Drep)
| StakeRegistrationDelegationCertificate (c : Credential) (pool : PoolKeyHash) (amount : Z)
| VoteRegistrationDelegationCertificate (c : Credential) (drep : Drep) (amount : Z)
| StakeVoteRegistrationDelegationCertificate (c : Credential) (pool : PoolKeyHash) (drep : Drep) (amount : Z)
| AuthCommitteeHotCertificate (cold hot : Credential)
| ResignCommitteeColdCertificate (cold : Credential) (anchor : option GovAnchor)
| RegistrationDrepCertificate (c : Credential) (amount : Z) (anchor : option GovAnchor)
| DeregistrationDrepCertificate (c : Credential) (amount : Z)
| UpdateDrepCertificate (c : Credential) (anchor : option GovAnchor).

(** One stage of a transaction: withdrawals in the order of the run,
    certificates, deposits to reward accounts and proposals. *)
Record LedgerEffectLevel := mkLevel {
  levelId : bytes;
  levelWithdrawals : list (option Address * option Z);
  levelCertificates : list BlockCertificate;
  levelDirectDeposits : list (Credential * Z);
  levelProposals : list (option GovAction)
}.

Inductive blockError := ErrUtxoSpentInBlock (i : TransactionInput) | ErrKeyDeposit | ErrLevels | ErrBase (n : Z).

Abbreviation bres A := (result blockError A).

Section BlockState.
Context {Utxo : Type}.

(** [txLevels] is what [LedgerEffectLevels] returns, if the transaction has it. *)
Record BlockTransaction := mkBlockTx {
  txHash : bytes;
  txConsumed : list TransactionInput;
  txProduced : list (TransactionInput * Utxo);
  txIsValid : bool;
  txBody : LedgerEffectLevel;
  txLevels : option (option (list LedgerEffectLevel))
}.

(** A ledger state that provides the optional capabilities too. *)
Record LState := mkLState {
  UtxoById : TransactionInput -> bres Utxo;
  IsStakeCredentialRegistered : Credential -> bool;
  IsRewardAccountRegistered : Credential -> bool;
  RewardAccountBalance : Credential -> bres (option Z);
  PoolCurrentState : PoolKeyHash -> bres (option PoolRegistrationCertificate * option Z);
  IsPoolRegistered : PoolKeyHash -> bool;
  IsVrfKeyInUse : VrfKeyHash -> bres (bool * PoolKeyHash);
  DRepRegistration : Credential -> bres (option DRepRegistrationR);
  DRepRegistrations : bres (list DRepRegistrationR);
  GovActionById : GovActionId -> bres (option GovActionState);
  GovActionExists : GovActionId -> bool;
  CommitteeMember : Hash28 -> bres (option CommitteeMemberR);
  StakeCredentialDeposit : Credential -> bres (option Z);
  DRepDelegation : Credential -> bres (option Drep);
  PendingInstantaneousRewards : Z -> Credential -> bres Z;
  IsFutureVrfKeyInUse : VrfKeyHash -> bres (bool * PoolKeyHash);
  CommitteeHotCredentialColdCredentials : Credential -> bres (list Credential)
}.

(** The optional capabilities of governance; one that is absent is [None]. *)
Record CommitteeCredentialState := mkCommitteeState {
  CommitteeStateAvailable : bres bool;
  CommitteeCredentialMember : Credential -> bres (option CommitteeMemberR);
  CommitteeHotCredentialMember : Credential -> bres (option CommitteeMemberR)
}.

Record GovPurposeRoots := mkRoots {
  rootPParamUpdate : option GovActionId;
  rootHardFork : option GovActionId;
  rootCommittee : option GovActionId;
  rootConstitution : option GovActionId
}.

(** The constitution: [Some None] has no guardrails script. *)
Record GovState := mkGovState {
  Constitution : bres (option (option bytes));
  PurposeRoots : option (bres (option GovPurposeRoots));
  CommitteeCredentials : option CommitteeCredentialState;
  CommitteeHotMembers : option (Credential -> bres (list (option CommitteeMemberR)));
  CommitteeElected : option (Credential -> bres bool)
}.

Record blockAccount := mkAccount {
  registered : bool;
  registeredKnown : bool;
  deposit : Z;
  depositKnown : bool;
  balance : Z;
  balanceKnown : bool;
  drep : option Drep;
  drepKnown : bool;
  drepSeq : Z
}.

Record blockPool := mkPool {
  registration : option PoolRegistrationCertificate;
  registrationKnown : bool;
  future : option PoolRegistrationCertificate;
  retirementEpoch : option Z;
  retirementKnown : bool
}.

Record blockDRep := mkBlockDRep { drepRegistration : option DRepRegistrationR; deregSeq : Z }.

Record BlockLedgerState := mkBlockState {
  seq : Z;
  spent : gset TransactionInput;
  created : gmap TransactionInput Utxo;
  accounts : gmap Credential blockAccount;
  pools : gmap PoolKeyHash blockPool;
  vrfKeys : gmap VrfKeyHash PoolKeyHash;
  vrfReleased : gset VrfKeyHash;
  dreps : gmap Credential blockDRep;
  committeeColdHot : gmap Credential (option Credential);
  proposals : gmap GovActionId GovActionState;
  mirPending : gmap (Z * Credential) Z
}.

Definition NewBlockLedgerState : BlockLedgerState := mkBlockState 0 ∅ ∅ ∅ ∅ ∅ ∅ ∅ ∅ ∅ ∅.

Definition set_seq s b := mkBlockState s (spent b) (created b) (accounts b) (pools b) (vrfKeys b) (vrfReleased b) (dreps b) (committeeColdHot b) (proposals b) (mirPending b).
Definition set_utxo sp cr b := mkBlockState (seq b) sp cr (accounts b) (pools b) (vrfKeys b) (vrfReleased b) (dreps b) (committeeColdHot b) (proposals b) (mirPending b).
Definition set_accounts a b := mkBlockState (seq b) (spent b) (created b) a (pools b) (vrfKeys b) (vrfReleased b) (dreps b) (committeeColdHot b) (proposals b) (mirPending b).
Definition set_pools p k r b := mkBlockState (seq b) (spent b) (created b) (accounts b) p k r (dreps b) (committeeColdHot b) (proposals b) (mirPending b).
Definition set_dreps d b := mkBlockState (seq b) (spent b) (created b) (accounts b) (pools b) (vrfKeys b) (vrfReleased b) d (committeeColdHot b) (proposals b) (mirPending b).
Definition set_committee m b := mkBlockState (seq b) (spent b) (created b) (accounts b) (pools b) (vrfKeys b) (vrfReleased b) (dreps b) m (proposals b) (mirPending b).
Definition set_proposals p b := mkBlockState (seq b) (spent b) (created b) (accounts b) (pools b) (vrfKeys b) (vrfReleased b) (dreps b) (committeeColdHot b) p (mirPending b).
Definition set_mir m b := mkBlockState (seq b) (spent b) (created b) (accounts b) (pools b) (vrfKeys b) (vrfReleased b) (dreps b) (committeeColdHot b) (proposals b) m.

(** ** Queries *)

Section Queries.
Context (base : LState) (b : BlockLedgerState).

Definition blockUtxoById (i : TransactionInput) : bres Utxo :=
  match created b !! i with
  | Some u => Ok u
  | None => if bool_decide (i ∈ spent b) then Err (ErrUtxoSpentInBlock i) else UtxoById base i
  end.

Definition blockIsStakeCredentialRegistered (c : Credential) : bool :=
  match accounts b !! c with
  | Some a => if registeredKnown a then registered a else IsStakeCredentialRegistered base c
  | None => IsStakeCredentialRegistered base c
  end.

Definition blockIsRewardAccountRegistered (c : Credential) : bool :=
  match accounts b !! c with
  | Some a => if registeredKnown a then registered a else IsRewardAccountRegistered base c
  | None => IsRewardAccountRegistered base c
  end.

Definition blockRewardAccountBalance (c : Credential) : bres (option Z) :=
  match accounts b !! c with
  | None => RewardAccountBalance base c
  | Some a =>
    if registeredKnown a && negb (registered a) then Ok None
    else if negb (balanceKnown a) then RewardAccountBalance base c
    else if negb (registeredKnown a) then
      match RewardAccountBalance base c with
      | Ok (Some _) => Ok (Some (balance a))
      | r => r
      end
    else Ok (Some (balance a))
  end.

Definition blockPoolCurrentState (p : PoolKeyHash) : bres (option PoolRegistrationCertificate * option Z) :=
  match pools b !! p with
  | None => PoolCurrentState base p
  | Some st =>
    if negb (registrationKnown st) || negb (retirementKnown st) then
      '(baseReg, baseRetirement) ← PoolCurrentState base p;
      Ok (if registrationKnown st then registration st else baseReg,
          if retirementKnown st then retirementEpoch st else baseRetirement)
    else Ok (registration st, retirementEpoch st)
  end.

Definition blockIsPoolRegistered (p : PoolKeyHash) : bool :=
  match pools b !! p with
  | Some st => if registrationKnown st && bool_decide (registration st <> None) then true else IsPoolRegistered base p
  | None => IsPoolRegistered base p
  end.

Definition blockIsVrfKeyInUse (v : VrfKeyHash) : bres (bool * PoolKeyHash) :=
  match vrfKeys b !! v with
  | Some p => Ok (true, p)
  | None => if bool_decide (v ∈ vrfReleased b) then Ok (false, []) else IsVrfKeyInUse base v
  end.

(** The key of the parameters a pool deferred in the block. *)
Definition futureKey (p : PoolKeyHash) : option VrfKeyHash :=
  st ← pools b !! p; reg ← future st; Some (RegVrfKeyHash reg).

Definition blockIsFutureVrfKeyInUse (v : VrfKeyHash) : bres (bool * PoolKeyHash) :=
  let claimed := p ← vrfKeys b !! v; if bool_decide (futureKey p = Some v) then Some p else None in
  match claimed with
  | Some p => Ok (true, p)
  | None =>
    if bool_decide (v ∈ vrfReleased b) then Ok (false, []) else
    '(inUse, p) ← IsFutureVrfKeyInUse base v;
    if negb inUse then Ok (inUse, p)
    else if bool_decide (futureKey p <> None) && bool_decide (futureKey p <> Some v) then Ok (false, [])
    else Ok (true, p)
  end.

Definition blockDRepRegistration (c : Credential) : bres (option DRepRegistrationR) :=
  match dreps b !! c with
  | Some d => Ok (drepRegistration d)
  | None => DRepRegistration base c
  end.

Definition blockDRepRegistrations : bres (list DRepRegistrationR) :=
  regs ← DRepRegistrations base;
  Ok (filter (fun r => dreps b !! drCredential r = None) regs ++
      omap (fun d => drepRegistration (snd d)) (map_to_list (dreps b))).

Definition blockGovActionById (i : GovActionId) : bres (option GovActionState) :=
  match proposals b !! i with Some s => Ok (Some s) | None => GovActionById base i end.

Definition blockGovActionExists (i : GovActionId) : bool :=
  match proposals b !! i with Some _ => true | None => GovActionExists base i end.

(** The first entry of the map, in the order of the run, that matches. *)
Definition applyCommitteeAuthorization (m : CommitteeMemberR) : CommitteeMemberR :=
  match filter (fun e => snd (fst e) = ColdKey m) (map_to_list (committeeColdHot b)) with
  | [] => m
  | (_, None) :: _ => mkMember (ColdKey m) None (ExpiryEpoch m) true
  | (_, Some hot) :: _ => mkMember (ColdKey m) (Some (snd hot)) (ExpiryEpoch m) false
  end.

Definition blockCommitteeMember (cold : Hash28) : bres (option CommitteeMemberR) :=
  m ← CommitteeMember base cold;
  Ok (option_map applyCommitteeAuthorization m).

Definition blockStakeCredentialDeposit (c : Credential) : bres (option Z) :=
  match accounts b !! c with
  | Some a =>
    if negb (depositKnown a) then StakeCredentialDeposit base c
    else if negb (registered a) then Ok None
    else Ok (Some (deposit a))
  | None => StakeCredentialDeposit base c
  end.

(** The credential of a DRep that has one. *)
Definition drepKey (d : Drep) : option Credential :=
  if negb ((drepType d =? DrepTypeAddrKeyHash) || (drepType d =? DrepTypeScriptHash)) then None
  else if negb (blen (drepCredential d) =? 28) then None
  else Some (drepType d, drepCredential d).

(** Whether a delegation made at [madeAt] was cleared since. *)
Definition cleared (d : Drep) (madeAt : Z) : bool :=
  match drepKey d with
  | None => false
  | Some k => match dreps b !! k with Some st => madeAt <? deregSeq st | None => false end
  end.

Definition blockDRepDelegation (c : Credential) : bres (option Drep) :=
  '(d, madeAt) ←
    match accounts b !! c with
    | Some a => if drepKnown a then Ok (drep a, drepSeq a) else d ← DRepDelegation base c; Ok (d, 0)
    | None => d ← DRepDelegation base c; Ok (d, 0)
    end;
  match d with
  | None => Ok None
  | Some d => if cleared d madeAt then Ok None else Ok (Some d)
  end.

Definition blockPendingInstantaneousRewards (source : Z) (c : Credential) : bres Z :=
  total ← PendingInstantaneousRewards base source c;
  Ok (total + default 0 (mirPending b !! (source, c))).

Definition coldCredentialsFor (hot : Credential) : list Credential :=
  fst <$> filter (fun e => snd e = Some hot) (map_to_list (committeeColdHot b)).

Definition blockColdCredentials (hot : Credential) : bres (list Credential) :=
  baseColds ← CommitteeHotCredentialColdCredentials base hot;
  Ok (coldCredentialsFor hot ++ filter (fun c => committeeColdHot b !! c = None) baseColds).

Definition coldCredentialTouched (h : Hash28) : bool :=
  bool_decide (filter (fun e => snd (fst e) = h) (map_to_list (committeeColdHot b)) <> []).

(** *** The capabilities of the committee *)

Definition blockCredentialMember (cs : CommitteeCredentialState) (cold : Credential) : bres (option CommitteeMemberR) :=
  m ← CommitteeCredentialMember cs cold; Ok (option_map applyCommitteeAuthorization m).

Fixpoint firstMember (cs : CommitteeCredentialState) (colds : list Credential) : bres (option CommitteeMemberR) :=
  match colds with
  | [] => Ok None
  | cold :: colds => m ← blockCredentialMember cs cold; match m with Some m => Ok (Some m) | None => firstMember cs colds end
  end.

Definition blockHotCredentialMember (cs : CommitteeCredentialState) (hot : Credential) : bres (option CommitteeMemberR) :=
  found ← firstMember cs (coldCredentialsFor hot);
  match found with
  | Some m => Ok (Some m)
  | None =>
    m ← CommitteeHotCredentialMember cs hot;
    match m with
    | Some m => if coldCredentialTouched (ColdKey m) then Ok None else Ok (Some m)
    | None => Ok None
    end
  end.

Definition blockHotMembers (base : Credential -> bres (list (option CommitteeMemberR))) (hot : Credential)
    : bres (list (option CommitteeMemberR)) :=
  baseMembers ← base hot;
  Ok (((fun cold => Some (mkMember (snd cold) (Some (snd hot)) 0 false)) <$> coldCredentialsFor hot) ++
      omap (fun m => m ← m; if coldCredentialTouched (ColdKey m) then None else Some (Some m)) baseMembers).

Definition govView (g : GovState) : GovState :=
  mkGovState (Constitution g) (PurposeRoots g)
    ((fun cs => mkCommitteeState (CommitteeStateAvailable cs) (blockCredentialMember cs) (blockHotCredentialMember cs)) <$> CommitteeCredentials g)
    (blockHotMembers <$> CommitteeHotMembers g)
    (CommitteeElected g).

Definition view : LState :=
  mkLState blockUtxoById blockIsStakeCredentialRegistered blockIsRewardAccountRegistered blockRewardAccountBalance
    blockPoolCurrentState blockIsPoolRegistered blockIsVrfKeyInUse blockDRepRegistration blockDRepRegistrations
    blockGovActionById blockGovActionExists blockCommitteeMember blockStakeCredentialDeposit blockDRepDelegation
    blockPendingInstantaneousRewards blockIsFutureVrfKeyInUse blockColdCredentials.
End Queries.

(** ** Effects

    An effect changes the view and may fail; what it changed before stays. *)

Definition BM : Type := BlockLedgerState -> bres unit * BlockLedgerState.

Definition bret : BM := fun b => (Ok (), b).
Definition bmodify (f : BlockLedgerState -> BlockLedgerState) : BM := fun b => (Ok (), f b).
Definition bthen (m n : BM) : BM := fun b => let '(r, b) := m b in match r with Ok _ => n b | Err e => (Err e, b) end.
(** A query of the view, then what to do with its answer. *)
Definition bask {A} (q : BlockLedgerState -> bres A) (k : A -> BM) : BM :=
  fun b => match q b with Ok a => k a b | Err e => (Err e, b) end.

Fixpoint bfor {A} (l : list A) (f : A -> BM) : BM :=
  match l with [] => bret | a :: l => bthen (f a) (bfor l f) end.

Section Effects.
Context (base : LState).

Definition emptyAccount : blockAccount := mkAccount false false 0 false 0 false None false 0.
Definition account (b : BlockLedgerState) (c : Credential) : blockAccount := default emptyAccount (accounts b !! c).

Definition set_balance (c : Credential) (n : Z) (b : BlockLedgerState) : BlockLedgerState :=
  let a := account b c in
  set_accounts (<[c := mkAccount (registered a) (registeredKnown a) (deposit a) (depositKnown a) n true (drep a) (drepKnown a) (drepSeq a)]> (accounts b)) b.

(** What is left of a balance. *)
Definition remainder (bal : option Z) (amount : option Z) : Z :=
  match bal, amount with
  | Some bal, Some amount => if (0 <=? amount) && (amount <=? MaxUint64) && (amount <=? bal) then bal - amount else 0
  | _, _ => 0
  end.

Definition applyWithdrawals (ws : list (option Address * option Z)) : BM :=
  bfor ws (fun '(addr, amount) =>
    match RewardAccountCredential addr with
    | Err _ => bret
    | Ok c => bask (fun b => blockRewardAccountBalance base b c) (fun bal => bmodify (set_balance c (remainder bal amount)))
    end).

Definition applyDirectDeposits (ds : list (Credential * Z)) : BM :=
  bfor ds (fun '(c, amount) =>
    bask (fun b => blockRewardAccountBalance base b c) (fun bal =>
      match bal with None => bret | Some bal => bmodify (set_balance c (u64 (bal + amount))) end)).

Definition registerAccount (c : Credential) (d : Z) (b : BlockLedgerState) : BlockLedgerState :=
  set_accounts (<[c := mkAccount true true d true 0 true None true 0]> (accounts b)) b.

Definition deregisterAccount (c : Credential) (b : BlockLedgerState) : BlockLedgerState :=
  set_accounts (<[c := mkAccount false true 0 true 0 true None true 0]> (accounts b)) b.

Definition delegateVote (c : Credential) (d : Drep) (b : BlockLedgerState) : BlockLedgerState :=
  let a := account b c in
  set_accounts (<[c := mkAccount (registered a) (registeredKnown a) (deposit a) (depositKnown a) (balance a) (balanceKnown a) (Some d) true (seq b)]> (accounts b)) b.

Definition drepOf (b : BlockLedgerState) (c : Credential) : blockDRep := default (mkBlockDRep None 0) (dreps b !! c).

Definition setDRep (c : Credential) (r : option DRepRegistrationR) (b : BlockLedgerState) : BlockLedgerState :=
  set_dreps (<[c := mkBlockDRep r (deregSeq (drepOf b c))]> (dreps b)) b.

Definition poolOf (b : BlockLedgerState) (p : PoolKeyHash) : blockPool :=
  default (mkPool None false None None false) (pools b !! p).

Definition applyPoolRegistration (cert : PoolRegistrationCertificate) : BM :=
  bask (fun b => blockPoolCurrentState base b (Operator cert)) (fun '(current, _) => bmodify (fun b =>
    let pool := poolOf b (Operator cert) in
    let v := RegVrfKeyHash cert in
    match current with
    | None =>
      set_pools (<[Operator cert := mkPool (Some cert) true (future pool) None true]> (pools b))
        (<[v := Operator cert]> (vrfKeys b)) (vrfReleased b ∖ {[v]}) b
    | Some cur =>
      let '(keys, released) :=
        match future pool with
        | Some f =>
          let fk := RegVrfKeyHash f in
          if bool_decide (fk <> v) && bool_decide (fk <> RegVrfKeyHash cur)
          then (delete fk (vrfKeys b), {[fk]} ∪ vrfReleased b) else (vrfKeys b, vrfReleased b)
        | None => (vrfKeys b, vrfReleased b)
        end in
      set_pools (<[Operator cert := mkPool (registration pool) (registrationKnown pool) (Some cert) None true]> (pools b))
        (<[v := Operator cert]> keys) (released ∖ {[v]}) b
    end)).

Definition applyPoolRetirement (p : PoolKeyHash) (epoch : Z) (b : BlockLedgerState) : BlockLedgerState :=
  let pool := poolOf b p in
  set_pools (<[p := mkPool (registration pool) (registrationKnown pool) (future pool) (Some epoch) true]> (pools b))
    (vrfKeys b) (vrfReleased b) b.

(** [None]: not a certificate of a pool. *)
Definition applyPoolCertificate (cert : BlockCertificate) : option BM :=
  match cert with
  | PoolRegistrationCert reg => Some (applyPoolRegistration reg)
  | PoolRetirementCertificate p epoch => Some (bmodify (applyPoolRetirement p epoch))
  | _ => None
  end.

Definition ApplyPoolCertificates (certs : list BlockCertificate) : BM :=
  bfor certs (fun c => default bret (applyPoolCertificate c)).

(** [KeyDepositAmount] of the parameters, if they have it. *)
Definition blockKeyDeposit (pp : option (option Z)) : bres Z :=
  match pp with
  | None => Err ErrKeyDeposit
  | Some None => Err ErrKeyDeposit
  | Some (Some amount) => if (0 <=? amount) && (amount <=? MaxUint64) then Ok amount else Err ErrKeyDeposit
  end.

Fixpoint addPending (source : Z) (rewards : list (option Credential * option Z)) (m : gmap (Z * Credential) Z) : gmap (Z * Credential) Z :=
  match rewards with
  | [] => m
  | (Some c, Some delta) :: rewards =>
    addPending source rewards
      (<[(source, c) := match m !! (source, c) with Some prior => delta + prior | None => delta end]> m)
  | _ :: rewards => addPending source rewards m
  end.

Definition applyCertificate (pp : option (option Z)) (cert : BlockCertificate) : BM :=
  bthen (bmodify (fun b => set_seq (u64 (seq b + 1)) b))
  match applyPoolCertificate cert with
  | Some m => m
  | None =>
    match cert with
    | StakeRegistrationCertificate c =>
      bask (fun _ => blockKeyDeposit pp) (fun d => bmodify (registerAccount c d))
    | RegistrationCertificate c amount => bmodify (registerAccount c amount)
    | StakeRegistrationDelegationCertificate c _ amount => bmodify (registerAccount c amount)
    | VoteRegistrationDelegationCertificate c d amount =>
      bthen (bmodify (registerAccount c amount)) (bmodify (delegateVote c d))
    | StakeVoteRegistrationDelegationCertificate c _ d amount =>
      bthen (bmodify (registerAccount c amount)) (bmodify (delegateVote c d))
    | StakeDeregistrationCertificate c => bmodify (deregisterAccount c)
    | DeregistrationCertificate c _ => bmodify (deregisterAccount c)
    | VoteDelegationCertificate c d => bmodify (delegateVote c d)
    | StakeVoteDelegationCertificate c _ d => bmodify (delegateVote c d)
    | MoveInstantaneousRewardsCertificate source rewards =>
      bmodify (fun b => set_mir (addPending source rewards (mirPending b)) b)
    | RegistrationDrepCertificate c amount anchor =>
      bmodify (setDRep c (Some (mkDRepReg c anchor (Some amount))))
    | UpdateDrepCertificate c anchor =>
      bask (fun b => blockDRepRegistration base b c) (fun r =>
        match r with
        | None => bret
        | Some reg => bmodify (setDRep c (Some (mkDRepReg (drCredential reg) anchor (drDeposit reg))))
        end)
    | DeregistrationDrepCertificate c _ =>
      bmodify (fun b => set_dreps (<[c := mkBlockDRep None (seq b)]> (dreps b)) b)
    | AuthCommitteeHotCertificate cold hot =>
      bmodify (fun b => set_committee (<[cold := Some hot]> (committeeColdHot b)) b)
    | ResignCommitteeColdCertificate cold _ =>
      bmodify (fun b => set_committee (<[cold := None]> (committeeColdHot b)) b)
    | _ => bret
    end
  end.

Definition blockGovActionType (a : option GovAction) : option Z :=
  match a with
  | None => None
  | Some (ParameterChangeGovAction _ _ _) => Some GovActionTypeParameterChange
  | Some (HardForkInitiationGovAction _ _) => Some GovActionTypeHardForkInitiation
  | Some (TreasuryWithdrawalGovAction _ _) => Some GovActionTypeTreasuryWithdrawal
  | Some (NoConfidenceGovAction _) => Some GovActionTypeNoConfidence
  | Some (UpdateCommitteeGovAction _ _ _ _) => Some GovActionTypeUpdateCommittee
  | Some (NewConstitutionGovAction _ _) => Some GovActionTypeNewConstitution
  | Some InfoGovAction => Some GovActionTypeInfo
  | Some OtherGovAction => None
  end.

Definition MaxGovActionIdx : Z := 65535.

Fixpoint recordProposals (txid : bytes) (idx : Z) (ps : list (option GovAction)) (m : gmap GovActionId GovActionState)
    : gmap GovActionId GovActionState :=
  match ps with
  | [] => m
  | p :: ps =>
    if MaxGovActionIdx <? idx then m else
    recordProposals txid (idx + 1) ps
      (match p, blockGovActionType p with
       | Some action, Some t => <[(txid, idx) := mkActionState (txid, idx) t MaxUint64 (Some action)]> m
       | _, _ => m
       end)
  end.

Definition applyLevel (pp : option (option Z)) (l : LedgerEffectLevel) : BM :=
  bthen (applyWithdrawals (levelWithdrawals l))
  (bthen (bfor (levelCertificates l) (applyCertificate pp))
  (bthen (applyDirectDeposits (levelDirectDeposits l))
         (bmodify (fun b => set_proposals (recordProposals (levelId l) 0 (levelProposals l) (proposals b)) b)))).

(** The certificates of accounts and DReps only. *)
Definition depositCertificate (cert : BlockCertificate) : bool :=
  match cert with
  | StakeRegistrationCertificate _ | RegistrationCertificate _ _ | StakeRegistrationDelegationCertificate _ _ _
  | VoteRegistrationDelegationCertificate _ _ _ | StakeVoteRegistrationDelegationCertificate _ _ _ _
  | StakeDeregistrationCertificate _ | DeregistrationCertificate _ _ | RegistrationDrepCertificate _ _ _
  | UpdateDrepCertificate _ _ | DeregistrationDrepCertificate _ _ => true
  | _ => false
  end.

Definition ApplyCertificateDepositLevel (pp : option (option Z)) (l : LedgerEffectLevel) : BM :=
  bthen (applyWithdrawals (levelWithdrawals l))
  (bthen (bfor (levelCertificates l) (fun c => if depositCertificate c then applyCertificate pp c else bret))
         (applyDirectDeposits (levelDirectDeposits l))).

Definition spendUtxos (inputs : list TransactionInput) (produced : list (TransactionInput * Utxo)) (b : BlockLedgerState)
    : BlockLedgerState :=
  let '(sp, cr) := foldl (fun '(sp, cr) i => ({[i]} ∪ sp, delete i cr)) (spent b, created b) inputs in
  let '(sp, cr) := foldl (fun '(sp, cr) '(i, u) => (sp ∖ {[i]}, <[i := u]> cr)) (sp, cr) produced in
  set_utxo sp cr b.

Definition ApplyTransaction (pp : option (option Z)) (tx : BlockTransaction) : BM :=
  bthen (bmodify (spendUtxos (txConsumed tx) (txProduced tx)))
  (if negb (txIsValid tx) then bret else
   match txLevels tx with
   | Some None => fun b => (Err ErrLevels, b)
   | Some (Some levels) => bfor levels (applyLevel pp)
   | None => applyLevel pp (mkLevel (txHash tx) (levelWithdrawals (txBody tx)) (levelCertificates (txBody tx)) [] (levelProposals (txBody tx)))
   end).
End Effects.

(** ** The specification *)

Record BLedger := mkBLedger {
  lUtxo : gmap TransactionInput Utxo;
  lStake : gset Credential;
  lReward : gset Credential;
  lBalance : gmap Credential Z;
  lDeposit : gmap Credential Z;
  lVote : gmap Credential Drep;
  lPool : gmap PoolKeyHash PoolRegistrationCertificate;
  lRetiring : gmap PoolKeyHash Z;
  lFuture : gmap PoolKeyHash PoolRegistrationCertificate;   (* deferred in this block *)
  lVrf : gmap VrfKeyHash PoolKeyHash;
  lDRep : gmap Credential DRepRegistrationR;
  lMember : gmap Credential CommitteeMemberR;
  lAuth : gmap Credential Credential;
  lAction : gmap GovActionId GovActionState;
  lPending : gmap (Z * Credential) Z
}.

Record ledger_wf (L : BLedger) : Prop := {
  wf_drep c r : lDRep L !! c = Some r -> drCredential r = c;
  wf_member c m : lMember L !! c = Some m -> ColdKey m = snd c
}.

(** What a ledger state says of a ledger. *)
Record reports (ls : LState) (L : BLedger) : Prop := {
  r_utxo i : match lUtxo L !! i with Some u => UtxoById ls i = Ok u | None => exists e, UtxoById ls i = Err e end;
  r_stake c : IsStakeCredentialRegistered ls c = bool_decide (c ∈ lStake L);
  r_reward c : IsRewardAccountRegistered ls c = bool_decide (c ∈ lReward L);
  r_balance c : RewardAccountBalance ls c = Ok (lBalance L !! c);
  r_pool p : PoolCurrentState ls p = Ok (lPool L !! p, lRetiring L !! p);
  r_poolRegistered p : IsPoolRegistered ls p = bool_decide (is_Some (lPool L !! p));
  r_vrf v : match lVrf L !! v with
            | Some p => IsVrfKeyInUse ls v = Ok (true, p)
            | None => exists q, IsVrfKeyInUse ls v = Ok (false, q)
            end;
  r_drep c : DRepRegistration ls c = Ok (lDRep L !! c);
  r_dreps : exists l, DRepRegistrations ls = Ok l /\ forall r, r ∈ l <-> lDRep L !! drCredential r = Some r;
  r_action i : GovActionById ls i = Ok (lAction L !! i);
  r_actionExists i : GovActionExists ls i = bool_decide (is_Some (lAction L !! i));
  r_member c m : lMember L !! c = Some m -> CommitteeMember ls (snd c) = Ok (Some m);
  r_noMember h : (forall c, snd c = h -> lMember L !! c = None) -> CommitteeMember ls h = Ok None;
  r_deposit c : StakeCredentialDeposit ls c = Ok (lDeposit L !! c);
  r_vote c : DRepDelegation ls c = Ok (lVote L !! c);
  r_pending s c : PendingInstantaneousRewards ls s c = Ok (default 0 (lPending L !! (s, c)));
  r_cold hot : exists l, CommitteeHotCredentialColdCredentials ls hot = Ok l /\ forall c, c ∈ l <-> lAuth L !! c = Some hot
}.

(** The effects on a ledger. *)
Definition lset_accounts st rw ba de vo L := mkBLedger (lUtxo L) st rw ba de vo (lPool L) (lRetiring L) (lFuture L) (lVrf L) (lDRep L) (lMember L) (lAuth L) (lAction L) (lPending L).
Definition lset_pools po re fu vr L := mkBLedger (lUtxo L) (lStake L) (lReward L) (lBalance L) (lDeposit L) (lVote L) po re fu vr (lDRep L) (lMember L) (lAuth L) (lAction L) (lPending L).
Definition lset_dreps dr vo L := mkBLedger (lUtxo L) (lStake L) (lReward L) (lBalance L) (lDeposit L) vo (lPool L) (lRetiring L) (lFuture L) (lVrf L) dr (lMember L) (lAuth L) (lAction L) (lPending L).
Definition lset_committee me au L := mkBLedger (lUtxo L) (lStake L) (lReward L) (lBalance L) (lDeposit L) (lVote L) (lPool L) (lRetiring L) (lFuture L) (lVrf L) (lDRep L) me au (lAction L) (lPending L).
Definition lset_utxo u L := mkBLedger u (lStake L) (lReward L) (lBalance L) (lDeposit L) (lVote L) (lPool L) (lRetiring L) (lFuture L) (lVrf L) (lDRep L) (lMember L) (lAuth L) (lAction L) (lPending L).
Definition lset_other ac pe L := mkBLedger (lUtxo L) (lStake L) (lReward L) (lBalance L) (lDeposit L) (lVote L) (lPool L) (lRetiring L) (lFuture L) (lVrf L) (lDRep L) (lMember L) (lAuth L) ac pe.

Definition lset_balance (c : Credential) (n : Z) (L : BLedger) : BLedger :=
  lset_accounts (lStake L) (lReward L) (<[c := n]> (lBalance L)) (lDeposit L) (lVote L) L.

Definition withdraw (L : BLedger) (w : option Address * option Z) : BLedger :=
  match RewardAccountCredential (fst w) with
  | Ok c => match lBalance L !! c with Some bal => lset_balance c (remainder (Some bal) (snd w)) L | None => L end
  | Err _ => L
  end.

Definition credit (L : BLedger) (d : Credential * Z) : BLedger :=
  match lBalance L !! fst d with Some bal => lset_balance (fst d) (u64 (bal + snd d)) L | None => L end.

Definition lregister (c : Credential) (d : Z) (L : BLedger) : BLedger :=
  lset_accounts ({[c]} ∪ lStake L) ({[c]} ∪ lReward L) (<[c := 0]> (lBalance L)) (<[c := d]> (lDeposit L)) (delete c (lVote L)) L.

Definition lderegister (c : Credential) (L : BLedger) : BLedger :=
  lset_accounts (lStake L ∖ {[c]}) (lReward L ∖ {[c]}) (delete c (lBalance L)) (delete c (lDeposit L)) (delete c (lVote L)) L.

Definition lvote (c : Credential) (d : Drep) (L : BLedger) : BLedger :=
  lset_accounts (lStake L) (lReward L) (lBalance L) (lDeposit L) (<[c := d]> (lVote L)) L.

(** A new pool is current at once; a registered one defers the parameters, and
    frees the key of those it deferred earlier in the block. *)
Definition lpool (cert : PoolRegistrationCertificate) (L : BLedger) : BLedger :=
  let p := Operator cert in let v := RegVrfKeyHash cert in
  match lPool L !! p with
  | None => lset_pools (<[p := cert]> (lPool L)) (delete p (lRetiring L)) (lFuture L) (<[v := p]> (lVrf L)) L
  | Some cur =>
    let freed :=
      match lFuture L !! p with
      | Some f => if bool_decide (RegVrfKeyHash f <> v) && bool_decide (RegVrfKeyHash f <> RegVrfKeyHash cur)
                  then delete (RegVrfKeyHash f) (lVrf L) else lVrf L
      | None => lVrf L
      end in
    lset_pools (lPool L) (delete p (lRetiring L)) (<[p := cert]> (lFuture L)) (<[v := p]> freed) L
  end.

Fixpoint lpending (s : Z) (rewards : list (option Credential * option Z)) (m : gmap (Z * Credential) Z) : gmap (Z * Credential) Z :=
  match rewards with
  | [] => m
  | (Some c, Some delta) :: rewards => lpending s rewards (<[(s, c) := default 0 (m !! (s, c)) + delta]> m)
  | _ :: rewards => lpending s rewards m
  end.

Definition authorized (hot : Credential) (m : CommitteeMemberR) : CommitteeMemberR :=
  mkMember (ColdKey m) (Some (snd hot)) (ExpiryEpoch m) false.
Definition resigned (m : CommitteeMemberR) : CommitteeMemberR := mkMember (ColdKey m) None (ExpiryEpoch m) true.

Definition certify (keyDeposit : Z) (L : BLedger) (cert : BlockCertificate) : BLedger :=
  match cert with
  | StakeRegistrationCertificate c => lregister c keyDeposit L
  | RegistrationCertificate c amount | StakeRegistrationDelegationCertificate c _ amount => lregister c amount L
  | VoteRegistrationDelegationCertificate c d amount | StakeVoteRegistrationDelegationCertificate c _ d amount =>
    lvote c d (lregister c amount L)
  | StakeDeregistrationCertificate c | DeregistrationCertificate c _ => lderegister c L
  | VoteDelegationCertificate c d | StakeVoteDelegationCertificate c _ d => lvote c d L
  | PoolRegistrationCert reg => lpool reg L
  | PoolRetirementCertificate p epoch => lset_pools (lPool L) (<[p := epoch]> (lRetiring L)) (lFuture L) (lVrf L) L
  | MoveInstantaneousRewardsCertificate s rewards => lset_other (lAction L) (lpending s rewards (lPending L)) L
  | RegistrationDrepCertificate c amount anchor =>
    lset_dreps (<[c := mkDRepReg c anchor (Some amount)]> (lDRep L)) (lVote L) L
  | UpdateDrepCertificate c anchor =>
    match lDRep L !! c with
    | Some r => lset_dreps (<[c := mkDRepReg (drCredential r) anchor (drDeposit r)]> (lDRep L)) (lVote L) L
    | None => L
    end
  | DeregistrationDrepCertificate c _ =>
    (* and every vote delegated to it is withdrawn *)
    lset_dreps (delete c (lDRep L)) (filter (fun e => drepKey (snd e) <> Some c) (lVote L)) L
  | AuthCommitteeHotCertificate cold hot =>
    lset_committee (alter (authorized hot) cold (lMember L)) (<[cold := hot]> (lAuth L)) L
  | ResignCommitteeColdCertificate cold _ =>
    lset_committee (alter resigned cold (lMember L)) (delete cold (lAuth L)) L
  | StakeDelegationCertificate _ _ | GenesisKeyDelegationCertificate _ _ _ => L
  end.

Definition level (keyDeposit : Z) (L : BLedger) (l : LedgerEffectLevel) : BLedger :=
  let L := foldl withdraw L (levelWithdrawals l) in
  let L := foldl (certify keyDeposit) L (levelCertificates l) in
  let L := foldl credit L (levelDirectDeposits l) in
  lset_other (recordProposals (levelId l) 0 (levelProposals l) (lAction L)) (lPending L) L.

(** The levels of a transaction; [None] if it cannot name them. *)
Definition levelsOf (tx : BlockTransaction) : option (list LedgerEffectLevel) :=
  match txLevels tx with
  | Some levels => levels
  | None => Some [mkLevel (txHash tx) (levelWithdrawals (txBody tx)) (levelCertificates (txBody tx)) [] (levelProposals (txBody tx))]
  end.

Definition ledger_tx (keyDeposit : Z) (L : BLedger) (tx : BlockTransaction) : BLedger :=
  let L := lset_utxo (foldl (fun u '(i, o) => <[i := o]> u) (foldl (fun u i => delete i u) (lUtxo L) (txConsumed tx)) (txProduced tx)) L in
  if negb (txIsValid tx) then L else foldl (level keyDeposit) L (default [] (levelsOf tx)).
End BlockState.

(** ** The overlay *)

Section Proofs.
Context {Utxo : Type}.
Implicit Types (b : @BlockLedgerState Utxo) (L : @BLedger Utxo) (base : @LState Utxo).

(** What an account of the overlay says, over what is below it. *)
Definition over_reg (a : option blockAccount) (below : Prop) : Prop :=
  match a with Some a => if registeredKnown a then registered a = true else below | None => below end.

Definition over_balance (a : option blockAccount) (below : option Z) : option Z :=
  match a with
  | None => below
  | Some a =>
    if registeredKnown a && negb (registered a) then None
    else if negb (balanceKnown a) then below
    else if negb (registeredKnown a) then (match below with Some _ => Some (balance a) | None => None end)
    else Some (balance a)
  end.

Definition over_deposit (a : option blockAccount) (below : option Z) : option Z :=
  match a with
  | Some a => if negb (depositKnown a) then below else if negb (registered a) then None else Some (deposit a)
  | None => below
  end.

(** The vote of an account and when it was made. *)
Definition over_made (a : option blockAccount) (below : option Drep) : option Drep * Z :=
  match a with Some a => if drepKnown a then (drep a, drepSeq a) else (below, 0) | None => (below, 0) end.

Definition over_vote (ds : gmap Credential blockDRep) (a : option blockAccount) (below : option Drep) : option Drep :=
  let '(d, madeAt) := over_made a below in
  d ← d;
  if match drepKey d with
     | None => false
     | Some k => match ds !! k with Some st => madeAt <? deregSeq st | None => false end
     end then None else Some d.

Record overlay (L0 : @BLedger Utxo) b (L : @BLedger Utxo) : Prop := {
  o_utxo i : lUtxo L !! i = match created b !! i with
                            | Some u => Some u
                            | None => if bool_decide (i ∈ spent b) then None else lUtxo L0 !! i
                            end;
  o_stake c : c ∈ lStake L <-> over_reg (accounts b !! c) (c ∈ lStake L0);
  o_reward c : c ∈ lReward L <-> over_reg (accounts b !! c) (c ∈ lReward L0);
  o_balance c : lBalance L !! c = over_balance (accounts b !! c) (lBalance L0 !! c);
  o_deposit c : lDeposit L !! c = over_deposit (accounts b !! c) (lDeposit L0 !! c);
  o_vote c : lVote L !! c = over_vote (dreps b) (accounts b !! c) (lVote L0 !! c);
  o_pool p : lPool L !! p = match pools b !! p with
                            | Some st => if registrationKnown st then registration st else lPool L0 !! p
                            | None => lPool L0 !! p
                            end;
  o_known p st : pools b !! p = Some st -> registrationKnown st = true -> registration st <> None;
  o_retiring p : lRetiring L !! p = match pools b !! p with
                                    | Some st => if retirementKnown st then retirementEpoch st else lRetiring L0 !! p
                                    | None => lRetiring L0 !! p
                                    end;
  o_future p : lFuture L !! p = pools b !! p ≫= future;
  o_vrf v : lVrf L !! v = match vrfKeys b !! v with
                          | Some p => Some p
                          | None => if bool_decide (v ∈ vrfReleased b) then None else lVrf L0 !! v
                          end;
  o_drep c : lDRep L !! c = match dreps b !! c with Some d => drepRegistration d | None => lDRep L0 !! c end;
  o_member c : lMember L !! c = (fun m => match committeeColdHot b !! c with
                                          | Some (Some hot) => authorized hot m
                                          | Some None => resigned m
                                          | None => m
                                          end) <$> lMember L0 !! c;
  o_auth c : lAuth L !! c = match committeeColdHot b !! c with Some h => h | None => lAuth L0 !! c end;
  o_action i : lAction L !! i = match proposals b !! i with Some s => Some s | None => lAction L0 !! i end;
  o_pending k : default 0 (lPending L !! k) = default 0 (lPending L0 !! k) + default 0 (mirPending b !! k);
  o_seq : 0 <= seq b <= MaxUint64;
  o_made c a : accounts b !! c = Some a -> 0 <= drepSeq a <= seq b;
  o_full c a : accounts b !! c = Some a -> registeredKnown a = true -> balanceKnown a = true;
  o_dereg c d : dreps b !! c = Some d -> 0 <= deregSeq d <= seq b;
  o_cred c d r : dreps b !! c = Some d -> drepRegistration d = Some r -> drCredential r = c
}.

(** Cold credentials with one hash are one, among those of the committee and of
    the block's certificates. *)
Definition cold_distinct (D : Credential -> Prop) (L0 : @BLedger Utxo) b : Prop :=
  (forall c c', D c -> D c' -> snd c = snd c' -> c = c') /\
  (forall c, is_Some (lMember L0 !! c) -> D c) /\ (forall c, is_Some (committeeColdHot b !! c) -> D c).

Lemma applyCommitteeAuthorization_spec D L0 b c m :
  cold_distinct D L0 b -> D c -> ColdKey m = snd c ->
  applyCommitteeAuthorization b m =
  match committeeColdHot b !! c with Some (Some hot) => authorized hot m | Some None => resigned m | None => m end.
Proof.
  intros (Hi & _ & Hb) Dc Em. unfold applyCommitteeAuthorization.
  set (l := filter _ _). assert (E : forall c' h, (c', h) ∈ l <-> committeeColdHot b !! c' = Some h /\ snd c' = snd c).
  { intros c' h. subst l. rewrite list_elem_of_filter, elem_of_map_to_list, <- Em. cbn. tauto. }
  destruct l as [|[c' h] l].
  - destruct (committeeColdHot b !! c) as [h|] eqn:Ec; [|done].
    assert (X : (c, h) ∈ @nil (Credential * option Credential)) by by apply E. by apply elem_of_nil in X.
  - destruct (proj1 (E c' h) ltac:(left)) as [Ec Es].
    assert (c' = c) as -> by (apply Hi; [by apply Hb; eexists|done|done]). rewrite Ec. by destruct h.
Qed.

Lemma balance_view base L0 b L c : reports base L0 -> overlay L0 b L ->
  blockRewardAccountBalance base b c = Ok (lBalance L !! c).
Proof.
  intros R O. unfold blockRewardAccountBalance. rewrite (o_balance _ _ _ O), (r_balance _ _ R). unfold over_balance.
  destruct (accounts b !! c) as [a|]; [|done]. destruct (registeredKnown a), (registered a), (balanceKnown a); cbn; try done;
  by destruct (lBalance L0 !! c).
Qed.

Lemma pool_view base L0 b L p : reports base L0 -> overlay L0 b L ->
  blockPoolCurrentState base b p = Ok (lPool L !! p, lRetiring L !! p).
Proof.
  intros R O. unfold blockPoolCurrentState. rewrite (o_pool _ _ _ O), (o_retiring _ _ _ O), (r_pool _ _ R).
  destruct (pools b !! p) as [st|]; [|done]. destruct (registrationKnown st), (retirementKnown st); done.
Qed.

Lemma drep_view base L0 b L c : reports base L0 -> overlay L0 b L ->
  blockDRepRegistration base b c = Ok (lDRep L !! c).
Proof.
  intros R O. unfold blockDRepRegistration. rewrite (o_drep _ _ _ O), (r_drep _ _ R). by destruct (dreps b !! c).
Qed.

Lemma dreps_view base L0 b L : reports base L0 -> overlay L0 b L ->
  exists l, blockDRepRegistrations base b = Ok l /\ forall r, r ∈ l <-> lDRep L !! drCredential r = Some r.
Proof.
  intros R O. destruct (r_dreps _ _ R) as (l & E & Hl). unfold blockDRepRegistrations. rewrite E. cbn. eexists. split; [done|].
  intros r. rewrite elem_of_app, list_elem_of_filter, list_elem_of_omap, Hl, (o_drep _ _ _ O).
  assert (X : (exists e, e ∈ map_to_list (dreps b) /\ drepRegistration (snd e) = Some r) <->
              exists d, dreps b !! drCredential r = Some d /\ drepRegistration d = Some r).
  { split.
    - intros ([c' d'] & Hin & Er). apply elem_of_map_to_list in Hin. cbn in Er. exists d'.
      by rewrite (o_cred _ _ _ O c' d' r Hin Er).
    - intros (d & Ed & Er). exists (drCredential r, d). by rewrite elem_of_map_to_list. }
  rewrite X. destruct (dreps b !! drCredential r) as [d|]; naive_solver.
Qed.

Lemma cold_view base L0 b L hot : reports base L0 -> overlay L0 b L ->
  exists l, blockColdCredentials base b hot = Ok l /\ forall c, c ∈ l <-> lAuth L !! c = Some hot.
Proof.
  intros R O. destruct (r_cold _ _ R hot) as (l & E & Hl). unfold blockColdCredentials. rewrite E. cbn. eexists.
  split; [done|]. intros c. unfold coldCredentialsFor.
  rewrite elem_of_app, list_elem_of_fmap, list_elem_of_filter, Hl, (o_auth _ _ _ O).
  assert (X : (exists e, c = fst e /\ e ∈ filter (fun e => snd e = Some hot) (map_to_list (committeeColdHot b))) <->
              committeeColdHot b !! c = Some (Some hot)).
  { split.
    - intros ([c' h'] & -> & [Eh Hin]%list_elem_of_filter). apply elem_of_map_to_list in Hin. cbn in *. congruence.
    - intros Ec. exists (c, Some hot). split; [done|]. apply list_elem_of_filter. by rewrite elem_of_map_to_list. }
  rewrite X. destruct (committeeColdHot b !! c) as [h|]; naive_solver.
Qed.

Lemma vote_view base L0 b L c : reports base L0 -> overlay L0 b L -> blockDRepDelegation base b c = Ok (lVote L !! c).
Proof.
  intros R O. unfold blockDRepDelegation. rewrite (o_vote _ _ _ O), (r_vote _ _ R). unfold over_vote, over_made, cleared.
  destruct (accounts b !! c) as [a|]; [destruct (drepKnown a)|]; cbn;
    (match goal with |- context [match ?d with Some _ => _ | None => _ end] => destruct d end; [|done]); cbn;
    repeat (case_match; try done).
Qed.

Lemma view_reports base L0 b L D :
  ledger_wf L0 -> reports base L0 -> overlay L0 b L -> cold_distinct D L0 b -> reports (view base b) L.
Proof.
  intros W R O C. split; cbn.
  - intros i. pose proof (r_utxo _ _ R i) as X. rewrite (o_utxo _ _ _ O). unfold blockUtxoById.
    destruct (created b !! i); [done|]. case_bool_decide; [by eexists|exact X].
  - intros c. unfold blockIsStakeCredentialRegistered. pose proof (o_stake _ _ _ O c) as X. unfold over_reg in X.
    rewrite (r_stake _ _ R). destruct (accounts b !! c) as [a|]; [destruct (registeredKnown a)|];
      try (by apply bool_decide_ext). destruct (registered a); case_bool_decide; intuition done.
  - intros c. unfold blockIsRewardAccountRegistered. pose proof (o_reward _ _ _ O c) as X. unfold over_reg in X.
    rewrite (r_reward _ _ R). destruct (accounts b !! c) as [a|]; [destruct (registeredKnown a)|];
      try (by apply bool_decide_ext). destruct (registered a); case_bool_decide; intuition done.
  - intros c. by apply (balance_view base L0).
  - intros p. by apply (pool_view base L0).
  - intros p. unfold blockIsPoolRegistered. rewrite (o_pool _ _ _ O), (r_poolRegistered _ _ R).
    destruct (pools b !! p) as [st|] eqn:E; [|done]. destruct (registrationKnown st) eqn:K; cbn; [|done].
    pose proof (o_known _ _ _ O p st E K) as N. rewrite bool_decide_eq_true_2 by done.
    destruct (registration st); [|done]. by rewrite bool_decide_eq_true_2 by eauto.
  - intros v. unfold blockIsVrfKeyInUse. rewrite (o_vrf _ _ _ O). pose proof (r_vrf _ _ R v) as X.
    destruct (vrfKeys b !! v); [done|]. case_bool_decide; [by eexists|exact X].
  - intros c. by apply (drep_view base L0).
  - by apply (dreps_view base L0).
  - intros i. unfold blockGovActionById. rewrite (o_action _ _ _ O), (r_action _ _ R). by destruct (proposals b !! i).
  - intros i. unfold blockGovActionExists. rewrite (o_action _ _ _ O), (r_actionExists _ _ R).
    destruct (proposals b !! i); [|done]. by rewrite bool_decide_eq_true_2 by eauto.
  - intros c m Hm. rewrite (o_member _ _ _ O) in Hm. apply fmap_Some in Hm as (m0 & H0 & ->).
    unfold blockCommitteeMember. rewrite (r_member _ _ R c m0 H0). cbn.
    rewrite (applyCommitteeAuthorization_spec D L0 b c m0 C); [done| |by apply (wf_member _ W)].
    apply (proj1 (proj2 C)). by eexists.
  - intros h Hn. unfold blockCommitteeMember. rewrite (r_noMember _ _ R); [done|]. intros c Hc. specialize (Hn c Hc).
    rewrite (o_member _ _ _ O) in Hn. by apply fmap_None in Hn.
  - intros c. unfold blockStakeCredentialDeposit. rewrite (o_deposit _ _ _ O), (r_deposit _ _ R). unfold over_deposit.
    destruct (accounts b !! c) as [a|]; [|done]. by destruct (depositKnown a), (registered a).
  - intros c. by apply (vote_view base L0).
  - intros s c. unfold blockPendingInstantaneousRewards. rewrite (r_pending _ _ R). cbn. by rewrite (o_pending _ _ _ O).
  - intros hot. by apply (cold_view base L0).
Qed.

(** ** Each effect keeps the overlay *)

Lemma overlay_new L0 : lFuture L0 = ∅ -> overlay L0 NewBlockLedgerState L0.
Proof.
  intros Hf. split; cbn; intros; rewrite ?lookup_empty in *; try done.
  - unfold over_vote, over_made. by destruct (lVote L0 !! c) as [d|]; cbn; [destruct (drepKey d)|].
  - by rewrite Hf, lookup_empty.
  - by destruct (lMember L0 !! c).
  - cbn. lia.
Qed.

(** The parts an effect does not touch. *)
Ltac keep O := destruct O; split; cbn; try assumption.

(** No vote and no deregistration carries the current number. *)
Definition fresh b : Prop :=
  0 < seq b /\ (forall c a, accounts b !! c = Some a -> drepSeq a < seq b) /\
  (forall c d, dreps b !! c = Some d -> deregSeq d < seq b).

Lemma overlay_bump L0 b L : overlay L0 b L -> seq b < MaxUint64 ->
  overlay L0 (set_seq (u64 (seq b + 1)) b) L /\ fresh (set_seq (u64 (seq b + 1)) b) /\
  seq (set_seq (u64 (seq b + 1)) b) = seq b + 1.
Proof.
  intros O Hs. pose proof (o_seq _ _ _ O) as B. rewrite u64_small by lia. split; [|split; [|done]].
  - keep O; cbn in *; [lia|..]; intros c x E; [apply o_made0 in E|apply o_dereg0 in E]; lia.
  - split; cbn; [lia|]. split; intros c x E; [apply (o_made _ _ _ O) in E|apply (o_dereg _ _ _ O) in E]; lia.
Qed.

(** An account made from another one for the same credential. *)
Lemma overlay_account L0 b L c a L' :
  overlay L0 b L ->
  (forall x, x ∈ lStake L' <-> if decide (x = c) then over_reg (Some a) (c ∈ lStake L0) else x ∈ lStake L) ->
  (forall x, x ∈ lReward L' <-> if decide (x = c) then over_reg (Some a) (c ∈ lReward L0) else x ∈ lReward L) ->
  (forall x, lBalance L' !! x = if decide (x = c) then over_balance (Some a) (lBalance L0 !! c) else lBalance L !! x) ->
  (forall x, lDeposit L' !! x = if decide (x = c) then over_deposit (Some a) (lDeposit L0 !! c) else lDeposit L !! x) ->
  (forall x, lVote L' !! x = if decide (x = c) then over_vote (dreps b) (Some a) (lVote L0 !! c) else lVote L !! x) ->
  0 <= drepSeq a <= seq b -> (registeredKnown a = true -> balanceKnown a = true) ->
  L' = lset_accounts (lStake L') (lReward L') (lBalance L') (lDeposit L') (lVote L') L ->
  overlay L0 (set_accounts (<[c := a]> (accounts b)) b) L'.
Proof.
  intros O Hs Hr Hb Hd Hv Hq Hk ->. cbn in *.
  keep O; intros x; [rewrite Hs|rewrite Hr|rewrite Hb|rewrite Hd|rewrite Hv|..];
    (destruct (decide (x = c)) as [->|]; [rewrite lookup_insert_eq|rewrite lookup_insert_ne by done]); eauto; try done;
  intros a' [= <-]; done.
Qed.

(** The record of an account, made if there is none, reads as before. *)
Lemma account_over b c :
  (forall P, over_reg (Some (account b c)) P <-> over_reg (accounts b !! c) P) /\
  (forall x, over_balance (Some (account b c)) x = over_balance (accounts b !! c) x) /\
  (forall x, over_deposit (Some (account b c)) x = over_deposit (accounts b !! c) x) /\
  (forall ds x, over_vote ds (Some (account b c)) x = over_vote ds (accounts b !! c) x).
Proof. unfold account. by destruct (accounts b !! c). Qed.

Lemma account_seq L0 b L c : overlay L0 b L ->
  0 <= drepSeq (account b c) <= seq b /\ (registeredKnown (account b c) = true -> balanceKnown (account b c) = true).
Proof.
  intros O. pose proof (o_seq _ _ _ O). unfold account. destruct (accounts b !! c) eqn:E; [|cbn; split; [lia|done]].
  split; [by apply (o_made _ _ _ O) in E|exact (o_full _ _ _ O _ _ E)].
Qed.

Lemma overlay_balance L0 b L c n : overlay L0 b L ->
  overlay L0 (set_balance c n b) (match lBalance L !! c with Some _ => lset_balance c n L | None => L end).
Proof.
  intros O. destruct (account_over b c) as (Ar & Ab & Ad & Av). unfold set_balance.
  pose proof (o_stake _ _ _ O c) as Hs. pose proof (o_reward _ _ _ O c) as Hr. pose proof (o_balance _ _ _ O c) as Hb.
  pose proof (o_deposit _ _ _ O c) as Hd. pose proof (o_vote _ _ _ O c) as Hv.
  rewrite <- Ar in Hs, Hr. rewrite <- Ab in Hb. rewrite <- Ad in Hd. rewrite <- Av in Hv.
  apply (overlay_account L0 b L); [done|..|by apply (account_seq L0 b L)|done|by destruct (lBalance L !! c), L].
  1-2: intros x; destruct (lBalance L !! c); cbn; by destruct (decide (x = c)) as [->|].
  - intros x. revert Hb. cbn. destruct (lBalance L !! c) as [y|] eqn:E; cbn [lBalance lset_balance lset_accounts];
      intros Hb; (destruct (decide (x = c)) as [->|]; [rewrite ?lookup_insert_eq|by rewrite ?lookup_insert_ne by done]).
    + destruct (registeredKnown (account b c)), (registered (account b c)), (balanceKnown (account b c)); cbn in *; try done;
        by destruct (lBalance L0 !! c).
    + rewrite E. pose proof (proj2 (account_seq L0 b L c O)).
      destruct (registeredKnown (account b c)), (registered (account b c)), (balanceKnown (account b c)); cbn in *; try done;
        first [by destruct (lBalance L0 !! c)|naive_solver].
  - intros x. destruct (lBalance L !! c); cbn; by destruct (decide (x = c)) as [->|].
  - intros x. destruct (lBalance L !! c); cbn; by destruct (decide (x = c)) as [->|].
Qed.

Lemma overlay_register L0 b L c d : overlay L0 b L -> overlay L0 (registerAccount c d b) (lregister c d L).
Proof.
  intros O. pose proof (o_seq _ _ _ O). unfold registerAccount. apply (overlay_account L0 b L); cbn; try done; try lia.
  1-2: intros x; rewrite elem_of_union, elem_of_singleton; destruct (decide (x = c)); tauto.
  all: intros x; destruct (decide (x = c)) as [->|];
    [by rewrite ?lookup_insert_eq, ?lookup_delete_eq|by rewrite ?lookup_insert_ne, ?lookup_delete_ne by done].
Qed.

Lemma overlay_deregister L0 b L c : overlay L0 b L -> overlay L0 (deregisterAccount c b) (lderegister c L).
Proof.
  intros O. pose proof (o_seq _ _ _ O). unfold deregisterAccount. apply (overlay_account L0 b L); cbn; try done; try lia.
  1-2: intros x; rewrite elem_of_difference, elem_of_singleton; destruct (decide (x = c)); intuition done.
  all: intros x; destruct (decide (x = c)) as [->|];
    [by rewrite ?lookup_delete_eq|by rewrite ?lookup_delete_ne by done].
Qed.

Lemma overlay_delegate L0 b L c d : overlay L0 b L -> fresh b -> overlay L0 (delegateVote c d b) (lvote c d L).
Proof.
  intros O F. pose proof (o_seq _ _ _ O). destruct (account_over b c) as (Ar & Ab & Ad & Av). unfold delegateVote.
  pose proof (o_stake _ _ _ O c) as Hs. pose proof (o_reward _ _ _ O c) as Hr. pose proof (o_balance _ _ _ O c) as Hb.
  pose proof (o_deposit _ _ _ O c) as Hd. rewrite <- Ar in Hs, Hr. rewrite <- Ab in Hb. rewrite <- Ad in Hd.
  pose proof (proj2 (account_seq L0 b L c O)).
  apply (overlay_account L0 b L); cbn; try done; try lia; intros x.
  1-4: by destruct (decide (x = c)) as [->|].
  destruct (decide (x = c)) as [->|]; [rewrite lookup_insert_eq|by rewrite lookup_insert_ne by done].
  cbn. destruct (drepKey d) as [k|]; [|done]. destruct (dreps b !! k) as [st|] eqn:E; [|done].
  apply F in E. destruct (Z.ltb_spec (seq b) (deregSeq st)); [lia|done].
Qed.

Lemma drepOf_seq L0 b L c : overlay L0 b L -> 0 <= deregSeq (drepOf b c) <= seq b.
Proof.
  intros O. pose proof (o_seq _ _ _ O). unfold drepOf. destruct (dreps b !! c) eqn:E; [by apply (o_dereg _ _ _ O) in E|cbn; lia].
Qed.

(** Votes do not see a registration. *)
Lemma over_vote_registration b c r a x :
  over_vote (<[c := mkBlockDRep r (deregSeq (drepOf b c))]> (dreps b)) a x = over_vote (dreps b) a x \/
  dreps b !! c = None.
Proof.
  unfold drepOf. destruct (dreps b !! c) as [d|] eqn:E; [left|by right]. unfold over_vote.
  destruct (over_made a x) as [[v|] t]; [|done]. cbn. destruct (drepKey v) as [k|]; [|done].
  destruct (decide (k = c)) as [->|]; [|by rewrite lookup_insert_ne]. by rewrite lookup_insert_eq, E.
Qed.

Lemma over_vote_new L0 b L c r a y x :
  overlay L0 b L -> dreps b !! c = None -> a = accounts b !! y ->
  over_vote (<[c := mkBlockDRep r 0]> (dreps b)) a x = over_vote (dreps b) a x.
Proof.
  intros O E ->. unfold over_vote. destruct (over_made (accounts b !! y) x) as [[v|] t] eqn:M; [|done]. cbn.
  destruct (drepKey v) as [k|]; [|done]. destruct (decide (k = c)) as [->|]; [|by rewrite lookup_insert_ne].
  rewrite lookup_insert_eq, E. cbn. destruct (Z.ltb_spec t 0); [|done]. exfalso. revert M. unfold over_made.
  destruct (accounts b !! y) as [a|] eqn:A; [|intros [= _ <-]; lia]. pose proof (o_made _ _ _ O _ _ A).
  destruct (drepKnown a); intros [= _ <-]; lia.
Qed.

Lemma overlay_setDRep L0 b L c r : overlay L0 b L -> drCredential r = c ->
  overlay L0 (setDRep c (Some r) b) (lset_dreps (<[c := r]> (lDRep L)) (lVote L) L).
Proof.
  intros O Hc. pose proof (drepOf_seq L0 b L c O) as Q. unfold setDRep.
  assert (V : forall y x, over_vote (<[c := mkBlockDRep (Some r) (deregSeq (drepOf b c))]> (dreps b)) (accounts b !! y) x =
                          over_vote (dreps b) (accounts b !! y) x).
  { intros y x. destruct (over_vote_registration b c (Some r) (accounts b !! y) x) as [->|E]; [done|].
    unfold drepOf. rewrite E. by apply (over_vote_new L0 b L c (Some r) (accounts b !! y) y). }
  keep O.
  - intros y. by rewrite V.
  - intros y. destruct (decide (y = c)) as [->|]; [by rewrite !lookup_insert_eq|by rewrite !lookup_insert_ne].
  - intros y d. destruct (decide (y = c)) as [->|]; [rewrite lookup_insert_eq|rewrite lookup_insert_ne by done; eauto].
    by intros [= <-].
  - intros y d r'. destruct (decide (y = c)) as [->|]; [rewrite lookup_insert_eq|rewrite lookup_insert_ne by done; eauto].
    intros [= <-] [= <-]. done.
Qed.

(** The deregistration clears the votes made so far, and only those. *)
Lemma overlay_deregDRep L0 b L c : overlay L0 b L -> fresh b ->
  overlay L0 (set_dreps (<[c := mkBlockDRep None (seq b)]> (dreps b)) b)
    (lset_dreps (delete c (lDRep L)) (filter (fun e => drepKey (snd e) <> Some c) (lVote L)) L).
Proof.
  intros O (F0 & Fa & Fd). pose proof (o_seq _ _ _ O) as Q.
  assert (V : forall y, filter (fun e => drepKey (snd e) <> Some c) (lVote L) !! y =
    over_vote (<[c := mkBlockDRep None (seq b)]> (dreps b)) (accounts b !! y) (lVote L0 !! y)).
  { intros y. pose proof (o_vote _ _ _ O y) as Hv. unfold over_vote in *.
    destruct (over_made (accounts b !! y) (lVote L0 !! y)) as [[v|] t] eqn:M; cbn in *.
    - destruct (decide (drepKey v = Some c)) as [Ek|Ek].
      + rewrite Ek, lookup_insert_eq. cbn. assert (Ht : t < seq b).
        { revert M. unfold over_made. destruct (accounts b !! y) as [a|] eqn:A; [|intros [= _ <-]; lia].
          apply Fa in A. destruct (drepKnown a); intros [= _ <-]; lia. }
        destruct (Z.ltb_spec t (seq b)); [|lia]. apply map_lookup_filter_None. right. intros v' Hv'.
        rewrite Hv in Hv'. destruct (match drepKey v with Some _ => _ | None => _ end); [done|]. injection Hv' as <-. cbn. tauto.
      + assert (E : match drepKey v with
          | Some k => match <[c := mkBlockDRep None (seq b)]> (dreps b) !! k with Some st => t <? deregSeq st | None => false end
          | None => false end = match drepKey v with
          | Some k => match dreps b !! k with Some st => t <? deregSeq st | None => false end | None => false end).
        { destruct (drepKey v) as [k|]; [|done]. by rewrite lookup_insert_ne by congruence. }
        rewrite E. destruct (match drepKey v with Some _ => _ | None => _ end).
        * apply map_lookup_filter_None. by left.
        * by apply map_lookup_filter_Some.
    - apply map_lookup_filter_None. by left. }
  keep O.
  - intros y. destruct (decide (y = c)) as [->|]; [by rewrite lookup_delete_eq, lookup_insert_eq|by rewrite lookup_delete_ne, lookup_insert_ne].
  - intros y d. destruct (decide (y = c)) as [->|]; [rewrite lookup_insert_eq|rewrite lookup_insert_ne by done; eauto].
    intros [= <-]. cbn. lia.
  - intros y d r'. destruct (decide (y = c)) as [->|]; [rewrite lookup_insert_eq|rewrite lookup_insert_ne by done; eauto].
    by intros [= <-].
Qed.

(** The pools with the entry of one replaced. *)
Lemma overlay_pool L0 b L p st keys rel L' :
  overlay L0 b L ->
  (registrationKnown st = true -> registration st <> None) ->
  (forall x, lPool L' !! x = if decide (x = p) then (if registrationKnown st then registration st else lPool L0 !! p) else lPool L !! x) ->
  (forall x, lRetiring L' !! x = if decide (x = p) then (if retirementKnown st then retirementEpoch st else lRetiring L0 !! p)
                                 else lRetiring L !! x) ->
  (forall x, lFuture L' !! x = if decide (x = p) then future st else lFuture L !! x) ->
  (forall v, lVrf L' !! v = match keys !! v with Some q => Some q | None => if bool_decide (v ∈ rel) then None else lVrf L0 !! v end) ->
  L' = lset_pools (lPool L') (lRetiring L') (lFuture L') (lVrf L') L ->
  overlay L0 (set_pools (<[p := st]> (pools b)) keys rel b) L'.
Proof.
  intros O Hk Hp Hr Hf Hv ->. cbn in *. keep O; intros x; [rewrite Hp| |rewrite Hr|rewrite Hf];
    (destruct (decide (x = p)) as [->|]; [rewrite lookup_insert_eq|rewrite lookup_insert_ne by done]); eauto; try done.
  by intros st' [= <-].
Qed.

Lemma poolOf_over L0 b L p : overlay L0 b L ->
  (registrationKnown (poolOf b p) = true -> registration (poolOf b p) <> None) /\
  (if registrationKnown (poolOf b p) then registration (poolOf b p) else lPool L0 !! p) = lPool L !! p /\
  future (poolOf b p) = lFuture L !! p.
Proof.
  intros O. rewrite (o_pool _ _ _ O), (o_future _ _ _ O). unfold poolOf.
  destruct (pools b !! p) as [st|] eqn:E; [|done]. split_and!; try done. by apply (o_known _ _ _ O p).
Qed.

Lemma overlay_retire L0 b L p epoch : overlay L0 b L ->
  overlay L0 (applyPoolRetirement p epoch b) (lset_pools (lPool L) (<[p := epoch]> (lRetiring L)) (lFuture L) (lVrf L) L).
Proof.
  intros O. destruct (poolOf_over L0 b L p O) as (Hk & Hp & Hf). unfold applyPoolRetirement.
  apply (overlay_pool L0 b L); cbn; try done; try (apply O); intros x;
    (destruct (decide (x = p)) as [->|]; [rewrite ?lookup_insert_eq|rewrite ?lookup_insert_ne by done]); done.
Qed.

(** The two sets of keys after a registration. *)
Lemma vrf_claim (v0 v1 keys : gmap VrfKeyHash PoolKeyHash) (rel : gset VrfKeyHash) k p :
  (forall v, v1 !! v = match keys !! v with Some q => Some q | None => if bool_decide (v ∈ rel) then None else v0 !! v end) ->
  forall v, <[k := p]> v1 !! v =
    match <[k := p]> keys !! v with Some q => Some q | None => if bool_decide (v ∈ rel ∖ {[k]}) then None else v0 !! v end.
Proof.
  intros H v. destruct (decide (v = k)) as [->|]; [by rewrite !lookup_insert_eq|]. rewrite !lookup_insert_ne, H by done.
  destruct (keys !! v); [done|]. erewrite bool_decide_ext; [done|]. set_solver.
Qed.

Lemma vrf_release (v0 v1 keys : gmap VrfKeyHash PoolKeyHash) (rel : gset VrfKeyHash) k :
  (forall v, v1 !! v = match keys !! v with Some q => Some q | None => if bool_decide (v ∈ rel) then None else v0 !! v end) ->
  forall v, delete k v1 !! v =
    match delete k keys !! v with Some q => Some q | None => if bool_decide (v ∈ {[k]} ∪ rel) then None else v0 !! v end.
Proof.
  intros H v. destruct (decide (v = k)) as [->|].
  - rewrite !lookup_delete_eq, bool_decide_eq_true_2 by set_solver. done.
  - rewrite !lookup_delete_ne, H by done. destruct (keys !! v); [done|]. erewrite bool_decide_ext; [done|]. set_solver.
Qed.

Lemma overlay_register_pool base L0 b L cert : reports base L0 -> overlay L0 b L ->
  exists b', applyPoolRegistration base cert b = (Ok (), b') /\ overlay L0 b' (lpool cert L) /\
             seq b' = seq b /\ committeeColdHot b' = committeeColdHot b.
Proof.
  intros R O. destruct (poolOf_over L0 b L (Operator cert) O) as (Hk & Hp & Hf).
  unfold applyPoolRegistration, bask. rewrite (pool_view base L0 b L) by done. eexists. split; [reflexivity|].
  unfold lpool. destruct (lPool L !! Operator cert) as [cur|] eqn:Ec.
  - rewrite Hf. set (kr := match lFuture L !! Operator cert with Some f => _ | None => (vrfKeys b, vrfReleased b) end).
    destruct kr as [keys rel] eqn:Ekr. split; [|done]. apply (overlay_pool L0 b L); cbn; try done.
    1-3: intros x; destruct (decide (x = Operator cert)) as [->|];
      [rewrite ?lookup_insert_eq, ?lookup_delete_eq|rewrite ?lookup_insert_ne, ?lookup_delete_ne by done]; congruence.
    apply vrf_claim. subst kr. destruct (lFuture L !! Operator cert) as [f|]; [destruct (bool_decide _ && bool_decide _)|];
      injection Ekr as <- <-; try apply O. apply vrf_release. apply O.
  - split; [|done]. apply (overlay_pool L0 b L); cbn; try done.
    1-3: intros x; destruct (decide (x = Operator cert)) as [->|];
      [rewrite ?lookup_insert_eq, ?lookup_delete_eq|rewrite ?lookup_insert_ne, ?lookup_delete_ne by done]; done.
    apply vrf_claim. apply O.
Qed.

Lemma overlay_committee L0 b L cold h : overlay L0 b L ->
  overlay L0 (set_committee (<[cold := h]> (committeeColdHot b)) b)
    (lset_committee (alter (match h with Some hot => authorized hot | None => resigned end) cold (lMember L))
       (match h with Some hot => <[cold := hot]> (lAuth L) | None => delete cold (lAuth L) end) L).
Proof.
  intros O. pose proof (o_member _ _ _ O) as Hm. keep O.
  - intros c. destruct (decide (c = cold)) as [->|].
    + rewrite lookup_alter_eq, Hm, lookup_insert_eq. destruct (lMember L0 !! cold) as [m|]; [|done]. cbn. f_equal.
      by destruct h, (committeeColdHot b !! cold) as [[]|].
    + by rewrite lookup_alter_ne, Hm, lookup_insert_ne.
  - intros c. destruct (decide (c = cold)) as [->|]; [rewrite lookup_insert_eq|rewrite lookup_insert_ne by done];
      destruct h; rewrite ?lookup_insert_eq, ?lookup_delete_eq, ?lookup_insert_ne, ?lookup_delete_ne by done; done.
Qed.

Lemma overlay_pending L0 b L s rewards : overlay L0 b L ->
  overlay L0 (set_mir (addPending s rewards (mirPending b)) b) (lset_other (lAction L) (lpending s rewards (lPending L)) L).
Proof.
  intros O. assert (X : forall m1 m2, (forall k, default 0 (m1 !! k) = default 0 (lPending L0 !! k) + default 0 (m2 !! k)) ->
    forall k, default 0 (lpending s rewards m1 !! k) = default 0 (lPending L0 !! k) + default 0 (addPending s rewards m2 !! k)).
  { induction rewards as [|[[c|] [delta|]] rewards IH]; intros m1 m2 H; cbn; try (apply IH; exact H); [exact H|].
    apply IH. intros k. destruct (decide (k = (s, c))) as [->|]; [rewrite !lookup_insert_eq|by rewrite !lookup_insert_ne].
    cbn. rewrite H. destruct (m2 !! (s, c)); cbn; lia. }
  keep O. by apply X.
Qed.

Lemma overlay_proposals L0 b L txid ps : overlay L0 b L ->
  overlay L0 (set_proposals (recordProposals txid 0 ps (proposals b)) b)
    (lset_other (recordProposals txid 0 ps (lAction L)) (lPending L) L).
Proof.
  intros O. assert (X : forall idx m1 m2, (forall i, m1 !! i = match m2 !! i with Some s => Some s | None => lAction L0 !! i end) ->
    forall i, recordProposals txid idx ps m1 !! i =
      match recordProposals txid idx ps m2 !! i with Some s => Some s | None => lAction L0 !! i end).
  { induction ps as [|p ps IH]; intros idx m1 m2 H; cbn [recordProposals]; [exact H|]. destruct (MaxGovActionIdx <? idx); [exact H|].
    apply IH. destruct p as [a|]; [|exact H]. destruct (blockGovActionType (Some a)); [|exact H].
    intros i. destruct (decide (i = (txid, idx))) as [->|]; [by rewrite !lookup_insert_eq|by rewrite !lookup_insert_ne]. }
  keep O. by apply X.
Qed.

Lemma overlay_utxo L0 b L ins outs : overlay L0 b L ->
  overlay L0 (spendUtxos ins outs b)
    (lset_utxo (foldl (fun u '(i, o) => <[i := o]> u) (foldl (fun u i => delete i u) (lUtxo L) ins) outs) L).
Proof.
  set (over := fun (sp : gset TransactionInput) (cr u : gmap TransactionInput Utxo) => forall i, u !! i =
    match cr !! i with Some x => Some x | None => if bool_decide (i ∈ sp) then None else lUtxo L0 !! i end).
  assert (X : forall outs sp cr u, over sp cr u ->
    let '(sp', cr') := foldl (fun '(sp, cr) '(i, o) => (sp ∖ {[i]}, <[i := o]> cr)) (sp, cr) outs in
    over sp' cr' (foldl (fun u '(i, o) => <[i := o]> u) u outs)).
  { clear ins outs. induction outs as [|[i o] outs IH]; intros sp cr u H; cbn; [exact H|]. apply IH. intros j.
    destruct (decide (j = i)) as [->|]; [by rewrite !lookup_insert_eq|]. rewrite !lookup_insert_ne, H by done.
    destruct (cr !! j); [done|]. erewrite bool_decide_ext; [done|]. set_solver. }
  assert (Y : forall ins sp cr u, over sp cr u ->
    let '(sp', cr') := foldl (fun '(sp, cr) i => ({[i]} ∪ sp, delete i cr)) (sp, cr) ins in
    over sp' cr' (foldl (fun u i => delete i u) u ins)).
  { clear ins outs X. induction ins as [|i ins IH]; intros sp cr u H; cbn; [exact H|]. apply IH. intros j.
    destruct (decide (j = i)) as [->|]; [by rewrite !lookup_delete_eq, bool_decide_eq_true_2 by set_solver|].
    rewrite !lookup_delete_ne, H by done. destruct (cr !! j); [done|]. erewrite bool_decide_ext; [done|]. set_solver. }
  intros O. unfold spendUtxos. specialize (Y ins (spent b) (created b) (lUtxo L) (o_utxo _ _ _ O)).
  destruct (foldl _ (spent b, created b) ins) as [sp cr]. specialize (X outs sp cr _ Y).
  destruct (foldl _ (sp, cr) outs) as [sp' cr']. keep O.
Qed.

(** ** Sequences of effects *)

Section Simulation.
Context (base : @LState Utxo) (L0 : @BLedger Utxo) (D : Credential -> Prop).
Context (R : reports base L0) (W : ledger_wf L0).

(** The effect [m] does on the overlay what [g] does on the ledger, and takes
    [k] numbers. *)
Definition sim (k : Z) (m : @BM Utxo) (g : @BLedger Utxo -> @BLedger Utxo) : Prop :=
  forall b L, overlay L0 b L -> (forall c, is_Some (committeeColdHot b !! c) -> D c) -> seq b + k <= MaxUint64 ->
  exists b', m b = (Ok (), b') /\ overlay L0 b' (g L) /\ (forall c, is_Some (committeeColdHot b' !! c) -> D c) /\
             seq b' <= seq b + k.

Lemma sim_bthen k1 k2 m1 m2 g1 g2 : 0 <= k1 -> 0 <= k2 -> sim k1 m1 g1 -> sim k2 m2 g2 ->
  sim (k1 + k2) (bthen m1 m2) (fun L => g2 (g1 L)).
Proof using Type.
  intros K1 K2 S1 S2 b L O C B. destruct (S1 b L O C ltac:(lia)) as (b1 & E1 & O1 & C1 & B1).
  destruct (S2 b1 _ O1 C1 ltac:(lia)) as (b2 & E2 & O2 & C2 & B2).
  exists b2. unfold bthen. rewrite E1. split_and!; try done. lia.
Qed.

Lemma sim_bfor {A} (l : list A) k f g : 0 <= k -> (forall a, a ∈ l -> sim k (f a) (fun L => g L a)) ->
  sim (k * Z.of_nat (length l)) (bfor l f) (fun L => foldl g L l).
Proof using Type.
  intros K. induction l as [|a l IH]; intros H; cbn [bfor length foldl].
  - intros b L O C B. exists b. split_and!; try done. lia.
  - replace (k * Z.of_nat (S (length l))) with (k + k * Z.of_nat (length l)) by lia.
    apply (sim_bthen _ _ _ _ (fun L => g L a) (fun L => foldl g L l)); [done|nia|apply H; left|].
    apply IH. intros x Hx. apply H. by right.
Qed.

Lemma sim_modify f g : (forall b L, overlay L0 b L -> overlay L0 (f b) (g L)) ->
  (forall b, seq (f b) = seq b /\ committeeColdHot (f b) = committeeColdHot b) -> sim 0 (bmodify f) g.
Proof using Type.
  intros H Hs b L O C B. exists (f b). destruct (Hs b) as [-> ->]. split_and!; [done|by apply H|done|lia].
Qed.

Lemma sim_withdrawals ws : sim 0 (applyWithdrawals base ws) (fun L => foldl withdraw L ws).
Proof using R.
  apply (sim_bfor ws 0); [done|]. intros [addr amount] _ b L O C B. unfold withdraw. cbn [fst snd].
  destruct (RewardAccountCredential addr) as [c|]; [|exists b; split_and!; try done; lia].
  unfold bask. rewrite (balance_view base L0 b L) by done. eexists. split; [reflexivity|].
  pose proof (overlay_balance L0 b L c (remainder (lBalance L !! c) amount) O) as X.
  split; [|split; [exact C|cbn; lia]]. by destruct (lBalance L !! c).
Qed.

Lemma sim_deposits ds : sim 0 (applyDirectDeposits base ds) (fun L => foldl credit L ds).
Proof using R.
  apply (sim_bfor ds 0); [done|]. intros [c amount] _ b L O C B. unfold credit. cbn [fst snd].
  unfold bask. rewrite (balance_view base L0 b L) by done.
  destruct (lBalance L !! c) as [bal|] eqn:E; [|exists b; split_and!; try done; lia].
  eexists. split; [reflexivity|]. pose proof (overlay_balance L0 b L c (u64 (bal + amount)) O) as X. rewrite E in X.
  split; [exact X|]. split; [exact C|cbn; lia].
Qed.

(** The cold credentials a certificate names. *)
Definition coldOf (cert : BlockCertificate) : option Credential :=
  match cert with
  | AuthCommitteeHotCertificate cold _ | ResignCommitteeColdCertificate cold _ => Some cold
  | _ => None
  end.

(** Each certificate takes one number. *)
Lemma sim_certificate keyDeposit cert :
  0 <= keyDeposit <= MaxUint64 -> (forall c, coldOf cert = Some c -> D c) ->
  sim 1 (applyCertificate base (Some (Some keyDeposit)) cert) (fun L => certify keyDeposit L cert).
Proof using R W.
  intros Hk Hd b L O C B. destruct (overlay_bump L0 b L O ltac:(lia)) as (O1 & F & Sq).
  unfold applyCertificate, bthen, bmodify. set (b1 := set_seq (u64 (seq b + 1)) b) in *. rewrite <- Sq.
  assert (C1 : forall c, is_Some (committeeColdHot b1 !! c) -> D c) by exact C. clearbody b1. clear O B C.
  assert (Ec : forall cold h c, D cold -> is_Some (committeeColdHot (set_committee (<[cold := h]> (committeeColdHot b1)) b1) !! c) -> D c).
  { intros cold h c Dc. cbn. destruct (decide (c = cold)) as [->|]; [done|]. rewrite lookup_insert_ne by done. apply C1. }
  assert (Ek : blockKeyDeposit (Some (Some keyDeposit)) = Ok keyDeposit).
  { unfold blockKeyDeposit. destruct (Z.leb_spec 0 keyDeposit), (Z.leb_spec keyDeposit MaxUint64); (done || lia). }
  destruct cert; cbn [applyPoolCertificate certify]; unfold bask, bmodify, bret; rewrite ?Ek;
    try (eexists; split; [reflexivity|]; split; [|split; [exact C1|cbn; lia]];
         first [by apply overlay_register|by apply overlay_deregister|by apply overlay_delegate|by apply overlay_retire
               |by apply overlay_pending|by apply overlay_setDRep|by apply overlay_deregDRep|exact O1]).
  - destruct (overlay_register_pool base L0 b1 L reg R O1) as (b2 & -> & O2 & S2 & C2). exists b2. rewrite S2, C2.
    split_and!; done.
  - eexists. split; [reflexivity|]. split; [|split; [exact C1|cbn; lia]]. apply overlay_delegate; [by apply overlay_register|].
    destruct F as (F0 & Fa & Fd). split; [done|]. split; [|done]. cbn. intros c' a'.
    destruct (decide (c' = c)) as [->|]; [rewrite lookup_insert_eq; by intros [= <-]|rewrite lookup_insert_ne by done; apply Fa].
  - eexists. split; [reflexivity|]. split; [|split; [exact C1|cbn; lia]]. apply overlay_delegate; [by apply overlay_register|].
    destruct F as (F0 & Fa & Fd). split; [done|]. split; [|done]. cbn. intros c' a'.
    destruct (decide (c' = c)) as [->|]; [rewrite lookup_insert_eq; by intros [= <-]|rewrite lookup_insert_ne by done; apply Fa].
  - eexists. split; [reflexivity|]. split; [by apply (overlay_committee L0 b1 L cold (Some hot))|].
    split; [|cbn; lia]. intros c. apply Ec. by apply Hd.
  - eexists. split; [reflexivity|]. split; [by apply (overlay_committee L0 b1 L cold None)|].
    split; [|cbn; lia]. intros c. apply Ec. by apply Hd.
  - rewrite (drep_view base L0 b1 L) by done. destruct (lDRep L !! c) as [r|] eqn:E.
    + eexists. split; [reflexivity|]. split; [|split; [exact C1|cbn; lia]]. apply overlay_setDRep; [done|]. cbn.
      rewrite (o_drep _ _ _ O1) in E. destruct (dreps b1 !! c) as [d|] eqn:Ed; [by apply (o_cred _ _ _ O1 c d)|].
      by apply (wf_drep _ W).
    + exists b1. split_and!; done.
Qed.

Definition certCount (ls : list LedgerEffectLevel) : Z :=
  sum_by (fun l => Z.of_nat (length (levelCertificates l))) ls.

Lemma certCount_nonneg ls : 0 <= certCount ls.
Proof using Type. unfold certCount. induction ls; cbn; lia. Qed.

Definition level_colds (l : LedgerEffectLevel) : Prop :=
  forall cert c, cert ∈ levelCertificates l -> coldOf cert = Some c -> D c.

Lemma sim_mono k k' m g : k <= k' -> sim k m g -> sim k' m g.
Proof using Type.
  intros Hk S b L O C B. destruct (S b L O C ltac:(lia)) as (b' & E & O' & C' & B'). exists b'. split_and!; try done. lia.
Qed.

Lemma sim_level keyDeposit l : 0 <= keyDeposit <= MaxUint64 -> level_colds l ->
  sim (Z.of_nat (length (levelCertificates l))) (applyLevel base (Some (Some keyDeposit)) l) (fun L => level keyDeposit L l).
Proof using R W.
  intros Hk Hc. unfold applyLevel, level.
  pose proof (sim_bfor (levelCertificates l) 1 (applyCertificate base (Some (Some keyDeposit))) (certify keyDeposit) ltac:(lia)
    (fun cert Hin => sim_certificate keyDeposit cert Hk (fun c => Hc cert c Hin))) as SC.
  pose proof (sim_modify _ _ (fun b L => overlay_proposals L0 b L (levelId l) (levelProposals l))
    (fun b => conj eq_refl eq_refl)) as SP.
  set (n := Z.of_nat (length (levelCertificates l))) in *. apply (sim_mono (0 + (1 * n + (0 + 0)))); [lia|].
  set (prop := fun L => lset_other (recordProposals (levelId l) 0 (levelProposals l) (lAction L)) (lPending L) L) in *.
  set (cred := fun L => foldl credit L (levelDirectDeposits l)). set (cert := fun L => foldl (certify keyDeposit) L (levelCertificates l)) in *.
  apply (sim_bthen 0 _ _ _ _ (fun L => prop (cred (cert L)))); [lia|lia|apply sim_withdrawals|].
  apply (sim_bthen (1 * n) _ _ _ _ (fun L => prop (cred L))); [lia|lia|exact SC|].
  apply (sim_bthen 0 0); [lia|lia|apply sim_deposits|exact SP].
Qed.

Lemma sim_levels keyDeposit ls : 0 <= keyDeposit <= MaxUint64 -> Forall level_colds ls ->
  sim (certCount ls) (bfor ls (applyLevel base (Some (Some keyDeposit)))) (fun L => foldl (level keyDeposit) L ls).
Proof using R W.
  intros Hk. induction 1 as [|l ls Hl _ IH]; cbn [bfor foldl].
  - intros b L O C B. exists b. split_and!; try done. cbn. lia.
  - change (certCount (l :: ls)) with (Z.of_nat (length (levelCertificates l)) + certCount ls).
    pose proof (certCount_nonneg ls).
    by apply (sim_bthen _ _ _ _ (fun L => level keyDeposit L l) (fun L => foldl (level keyDeposit) L ls));
      [lia|lia|apply sim_level|].
Qed.

(** The levels that take effect. *)
Definition effective (tx : @BlockTransaction Utxo) : list LedgerEffectLevel :=
  if txIsValid tx then default [] (levelsOf tx) else [].

Lemma sim_transaction keyDeposit tx : 0 <= keyDeposit <= MaxUint64 -> Forall level_colds (effective tx) ->
  (txIsValid tx = true -> levelsOf tx <> None) ->
  sim (certCount (effective tx)) (ApplyTransaction base (Some (Some keyDeposit)) tx) (fun L => ledger_tx keyDeposit L tx).
Proof using R W.
  intros Hk Hc Hl. unfold ApplyTransaction, ledger_tx, effective in *. pose proof (certCount_nonneg) as N.
  pose proof (sim_modify _ _ (fun b L => overlay_utxo L0 b L (txConsumed tx) (txProduced tx))) as SU.
  assert (Su : forall b, seq (spendUtxos (txConsumed tx) (txProduced tx) b) = seq b /\
    committeeColdHot (spendUtxos (txConsumed tx) (txProduced tx) b) = committeeColdHot b).
  { intros b. unfold spendUtxos. destruct (foldl _ _ (txConsumed tx)) as [sp cr].
    destruct (foldl _ (sp, cr) (txProduced tx)) as [sp' cr']. done. }
  specialize (SU Su). destruct (txIsValid tx); cbn [negb].
  - unfold levelsOf in *. destruct (txLevels tx) as [[ls|]|]; cbn [default from_option] in *; unfold id in *.
    + apply (sim_mono (0 + certCount ls)); [lia|].
      apply (sim_bthen 0 _ _ _ _ (fun L => foldl (level keyDeposit) L ls)); [lia|apply N|exact SU|by apply sim_levels].
    + by destruct (Hl eq_refl).
    + apply Forall_cons in Hc as [Hc _].
      match type of Hc with level_colds ?l => set (lv := l) in * end.
      apply (sim_mono (0 + Z.of_nat (length (levelCertificates lv)))); [unfold certCount; cbn; lia|].
      apply (sim_bthen 0 _ _ _ _ (fun L => level keyDeposit L lv)); [lia|lia|exact SU|by apply sim_level].
  - change (certCount []) with 0. intros b L O C B. destruct (SU b L O C B) as (b' & E & O' & C' & B'). exists b'.
    unfold bthen. rewrite E. done.
Qed.


Lemma sim_block keyDeposit txs : 0 <= keyDeposit <= MaxUint64 ->
  Forall (fun tx => Forall level_colds (effective tx) /\ (txIsValid tx = true -> levelsOf tx <> None)) txs ->
  sim (sum_by (fun tx => certCount (effective tx)) txs) (bfor txs (ApplyTransaction base (Some (Some keyDeposit))))
    (fun L => foldl (ledger_tx keyDeposit) L txs).
Proof using R W.
  intros Hk. induction 1 as [|tx txs [Hc Hl] _ IH]; cbn [bfor foldl sum_by].
  - intros b L O C B. exists b. split_and!; try done. lia.
  - assert (N : 0 <= sum_by (fun tx => certCount (effective tx)) txs).
    { clear. induction txs as [|tx txs]; cbn; [lia|]. pose proof (certCount_nonneg (effective tx)). lia. }
    by apply (sim_bthen _ _ _ _ (fun L => ledger_tx keyDeposit L tx) (fun L => foldl (ledger_tx keyDeposit) L txs));
      [apply certCount_nonneg|done|apply sim_transaction|].
Qed.
End Simulation.

(** C9. The view of a block is the ledger after its transactions. Over a ledger
    state that reports a ledger, applying any sequence of transactions to a new
    view succeeds, and the view then reports the ledger after them: outputs,
    registrations, balances, deposits, vote delegations (those to a DRep that
    deregistered since are gone, later ones are not), pools and retirements, VRF
    keys, DReps, proposals, committee members and their hot keys, and pending
    rewards. Cold credentials are told apart by their hash alone, so those of
    the committee and of the block's certificates must not share one. *)
Theorem block_view_refines (base : @LState Utxo) (L0 : @BLedger Utxo) D keyDeposit txs :
  reports base L0 -> ledger_wf L0 -> lFuture L0 = ∅ -> 0 <= keyDeposit <= MaxUint64 ->
  cold_distinct D L0 NewBlockLedgerState ->
  Forall (fun tx => Forall (level_colds D) (effective tx) /\ (txIsValid tx = true -> levelsOf tx <> None)) txs ->
  sum_by (fun tx => certCount (effective tx)) txs <= MaxUint64 ->
  exists b, bfor txs (ApplyTransaction base (Some (Some keyDeposit))) NewBlockLedgerState = (Ok (), b) /\
            reports (view base b) (foldl (ledger_tx keyDeposit) L0 txs).
Proof.
  intros R W F Hk (Hi & Hm & Hb) Ht Hn.
  destruct (sim_block base L0 D R W keyDeposit txs Hk Ht NewBlockLedgerState L0 (overlay_new L0 F) Hb) as (b & E & O & C & _);
    [cbn; lia|].
  exists b. split; [exact E|]. apply (view_reports base L0 b _ D W R O). done.
Qed.
End Proofs.

(** ** A state that reports a ledger *)

Section StateOf.
Context {Utxo : Type}.

Definition stateOf (L : @BLedger Utxo) : @LState Utxo :=
  mkLState
    (fun i => match lUtxo L !! i with Some u => Ok u | None => Err (ErrBase 0) end)
    (fun c => bool_decide (c ∈ lStake L)) (fun c => bool_decide (c ∈ lReward L)) (fun c => Ok (lBalance L !! c))
    (fun p => Ok (lPool L !! p, lRetiring L !! p)) (fun p => bool_decide (is_Some (lPool L !! p)))
    (fun v => Ok (match lVrf L !! v with Some p => (true, p) | None => (false, []) end))
    (fun c => Ok (lDRep L !! c)) (Ok (snd <$> map_to_list (lDRep L)))
    (fun i => Ok (lAction L !! i)) (fun i => bool_decide (is_Some (lAction L !! i)))
    (fun h => Ok (snd <$> head (filter (fun e => snd (fst e) = h) (map_to_list (lMember L)))))
    (fun c => Ok (lDeposit L !! c)) (fun c => Ok (lVote L !! c))
    (fun s c => Ok (default 0 (lPending L !! (s, c)))) (fun _ => Ok (false, []))
    (fun hot => Ok (fst <$> filter (fun e => snd e = hot) (map_to_list (lAuth L)))).

Lemma stateOf_reports L : ledger_wf L ->
  (forall c c', is_Some (lMember L !! c) -> is_Some (lMember L !! c') -> snd c = snd c' -> c = c') ->
  reports (stateOf L) L.
Proof.
  intros W Hi. split; cbn; try done.
  - intros i. destruct (lUtxo L !! i); [done|by eexists].
  - intros v. destruct (lVrf L !! v); [done|by eexists].
  - eexists. split; [done|]. intros r. rewrite list_elem_of_fmap. split.
    + intros ([c r'] & -> & Hin). apply elem_of_map_to_list in Hin. cbn. by rewrite (wf_drep _ W c r' Hin).
    + intros E. exists (drCredential r, r). by rewrite elem_of_map_to_list.
  - intros c m E. f_equal. destruct (filter _ _) as [|[c' m'] l] eqn:F.
    + assert (X : (c, m) ∈ @nil (Credential * CommitteeMemberR)).
      { rewrite <- F. apply list_elem_of_filter. by rewrite elem_of_map_to_list. }
      by apply elem_of_nil in X.
    + assert (X : (c', m') ∈ filter (fun e => snd (fst e) = snd c) (map_to_list (lMember L))) by (rewrite F; left).
      apply list_elem_of_filter in X as [Es X]. apply elem_of_map_to_list in X. cbn in *.
      assert (c' = c) as -> by (apply Hi; [by eexists|by eexists|done]). congruence.
  - intros h Hn. f_equal. destruct (filter _ _) as [|[c' m'] l] eqn:F; [done|].
    assert (X : (c', m') ∈ filter (fun e => snd (fst e) = h) (map_to_list (lMember L))) by (rewrite F; left).
    apply list_elem_of_filter in X as [Es X]. apply elem_of_map_to_list in X. cbn in *. rewrite (Hn c' Es) in X. done.
  - intros hot. eexists. split; [done|]. intros c. rewrite list_elem_of_fmap. split.
    + intros ([c' h] & -> & [Eh Hin]%list_elem_of_filter). apply elem_of_map_to_list in Hin. cbn in *. congruence.
    + intros E. exists (c, hot). split; [done|]. apply list_elem_of_filter. by rewrite elem_of_map_to_list.
Qed.
End StateOf.

(** An account with a vote for a DRep; a transaction withdraws part of its
    rewards and deregisters the DRep. *)
Definition bsKey : Credential := (0, repeat 1 28).
Definition bsDRep : Credential := (1, repeat 2 28).
Definition bsVote : Drep := mkDrep 1 (repeat 2 28).

Definition bsLedger : @BLedger Z :=
  mkBLedger ∅ {[bsKey]} {[bsKey]} {[bsKey := 10]} {[bsKey := 2]} {[bsKey := bsVote]} ∅ ∅ ∅ ∅
    {[bsDRep := mkDRepReg bsDRep None (Some 5)]} ∅ ∅ ∅ ∅.

Definition bsLevel (ws : list (option Address * option Z)) (certs : list BlockCertificate) : LedgerEffectLevel :=
  mkLevel [] ws certs [] [].

Definition bsTxs : list (@BlockTransaction Z) :=
  [mkBlockTx [1] [] [] true
     (bsLevel [(Some (mkAddress 14 0 (Some (224 :: repeat 1 28)) [] (Some bsKey) 0 None), Some 4)]
              [DeregistrationDrepCertificate bsDRep 5]) None].

Lemma bsLedger_wf : ledger_wf bsLedger.
Proof.
  split; [|done]. intros c r H. unfold bsLedger in H. cbn [lDRep] in H. by apply lookup_singleton_Some in H as [<- <-].
Qed.

(** Witness of C9: the balance is reduced and the vote is gone. *)
Lemma block_view_refines_witness :
  exists b, bfor bsTxs (ApplyTransaction (stateOf bsLedger) (Some (Some 2))) NewBlockLedgerState = (Ok (), b) /\
    RewardAccountBalance (view (stateOf bsLedger) b) bsKey = Ok (Some 6) /\
    DRepDelegation (view (stateOf bsLedger) b) bsKey = Ok None /\
    DRepRegistration (view (stateOf bsLedger) b) bsDRep = Ok None.
Proof.
  destruct (block_view_refines (stateOf bsLedger) bsLedger (fun _ => False) 2 bsTxs) as (b & E & R).
  - apply stateOf_reports; [apply bsLedger_wf|]. intros c c' [m H]. discriminate H.
  - apply bsLedger_wf.
  - reflexivity.
  - unfold MaxUint64. lia.
  - split; [done|]. split; intros c [m H]; discriminate H.
  - repeat constructor; [|discriminate]. intros cert c H. apply list_elem_of_singleton in H as ->. discriminate.
  - vm_compute. discriminate.
  - exists b. split; [exact E|]. split_and!.
    + rewrite (r_balance _ _ R). vm_compute. reflexivity.
    + rewrite (r_vote _ _ R). vm_compute. reflexivity.
    + rewrite (r_drep _ _ R). vm_compute. reflexivity.
Defined.
