(* ===== verification/MultiAsset.v ===== *)
(** * Values of several assets (src/ledger/common/common.go, ledger_cbor.go)

    Maps from policies to maps from asset names to quantities: their queries,
    sum and comparison, the pruning of zero quantities at decoding, the limit of
    the compact form, and the size of the encoding, which is computed without
    building it. *)

From stdpp Require Import sorting.
From S2P Require Import Prelude.
#[local] Open Scope Z_scope.

(** ** The code *)

(** Quantities are [*big.Int]; the maps hold no nil. *)
Abbreviation MultiAsset := (gmap (list Z) (gmap (list Z) Z)).

Definition amountIsZero (z : Z) : bool := z =? 0.

Definition Policies (m : MultiAsset) : list bytes := fst <$> map_to_list m.

Definition Assets (m : MultiAsset) (policy : bytes) : list bytes :=
  match m !! policy with Some assets => fst <$> map_to_list assets | None => [] end.

(** [None] is the nil of an asset that is not there. *)
Definition Asset (m : MultiAsset) (policy name : bytes) : option Z := m !! policy ≫= fun assets => assets !! name.

Definition addAmounts (a b : option Z) : Z := default 0 a + default 0 b.

Definition addOne (policy : bytes) (m : MultiAsset) (entry : bytes * Z) : MultiAsset :=
  let newAmount := addAmounts (Asset m policy (fst entry)) (Some (snd entry)) in
  <[policy := <[fst entry := newAmount]> (default ∅ (m !! policy))]> m.

Definition Add (m : MultiAsset) (other : option MultiAsset) : MultiAsset :=
  match other with
  | None => m
  | Some other =>
    foldl (fun m '(policy, assets) => foldl (addOne policy) m (map_to_list assets)) m (map_to_list other)
  end.

(** Without zero quantities, and without the policies left with no asset. *)
Definition pruneZeroAssets (m : MultiAsset) : MultiAsset :=
  omap (fun assets : gmap (list Z) Z =>
    let kept := filter (fun e => amountIsZero (snd e) = false) assets in
    if decide (kept = ∅) then None else Some kept) m.

Definition normalize (m : option MultiAsset) : MultiAsset :=
  match m with None => ∅ | Some m => pruneZeroAssets m end.

Definition amountsEqual (a b : option Z) : bool :=
  match a, b with
  | None, None => true
  | None, Some b => b =? 0
  | Some a, None => a =? 0
  | Some a, Some b => a =? b
  end.

Definition Compare (m : MultiAsset) (other : option MultiAsset) : bool :=
  let tmpData := normalize (Some m) in
  let otherData := normalize other in
  if negb (size otherData =? size tmpData)%nat then false else
  forallb (fun '(policy, assets) =>
    (size assets =? size (default ∅ (tmpData !! policy)))%nat &&
    forallb (fun '(name, amount) => amountsEqual (Some amount) (Asset m policy name)) (map_to_list assets))
    (map_to_list otherData).

(** *** The balance of assets, from the rules of value conservation *)

Abbreviation assetTotals := (gmap (list Z * list Z) Z).

(** The body of the loops over a value's policies and their names, which adds an
    asset to the totals; [skip] is the asset a rule leaves out. *)
Definition collectOne (skip : bytes -> bytes -> bool) (m : MultiAsset) (policy : bytes) (totals : assetTotals) (name : bytes)
    : assetTotals :=
  if skip policy name then totals else
  match Asset m policy name with
  | None => totals
  | Some amount => <[(policy, name) := default 0 (totals !! (policy, name)) + amount]> totals
  end.

Definition collectPolicy (skip : bytes -> bytes -> bool) (m : MultiAsset) (totals : assetTotals) (policy : bytes) : assetTotals :=
  foldl (collectOne skip m policy) totals (Assets m policy).

Definition collectAssets (skip : bytes -> bytes -> bool) (m : option MultiAsset) (totals : assetTotals) : assetTotals :=
  match m with None => totals | Some m => foldl (collectPolicy skip m) totals (Policies m) end.

(** The loop over what is consumed, which removes what it has compared from what
    is produced. *)
Fixpoint consumedLoop (consumedAssets : list ((bytes * bytes) * Z)) (producedAssets : assetTotals)
    : result (Z * Z) assetTotals :=
  match consumedAssets with
  | [] => Ok producedAssets
  | (key, consumed) :: l =>
    let produced := default 0 (producedAssets !! key) in
    if negb (consumed =? produced) then Err (consumed, produced)
    else consumedLoop l (delete key producedAssets)
  end.

(** The totals that are not zero. *)
Definition nonzero (t : assetTotals) : list ((bytes * bytes) * Z) := filter (fun e => snd e <> 0) (map_to_list t).

Definition compareAssets (consumedAssets producedAssets : assetTotals) : result (Z * Z) unit :=
  rest ← consumedLoop (map_to_list consumedAssets) producedAssets;
  match nonzero rest with
  | [] => Ok ()
  | (_, produced) :: _ => Err (0, produced)
  end.

(** *** The limit of the compact form *)

Definition compactOffsetLimit : Z := 65535.
Definition policyCompactSize : Z := 28.
Definition assetCompactSize : Z := 44.

Fixpoint compactLoop (compactSize : Z) (l : list (bytes * gmap (list Z) Z)) : bool :=
  match l with
  | [] => true
  | (_, assets) :: l =>
    let assetCount := Z.of_nat (size assets) in
    if u64 (compactOffsetLimit - compactSize) / assetCompactSize <? assetCount then false
    else compactLoop (u64 (compactSize + u64 (assetCount * assetCompactSize))) l
  end.

Definition validateMultiAssetCompactRepresentationSize (m : MultiAsset) : bool :=
  let policyCount := Z.of_nat (size m) in
  if compactOffsetLimit / policyCompactSize <? policyCount then false
  else compactLoop (u64 (policyCount * policyCompactSize)) (map_to_list m).

(** What decoding records of the wire form before it prunes. *)
Record DecodedAssets := mkDecoded {
  data : MultiAsset; zeroQuantity : bool; emptyAssets : bool; emptyMultiAsset : bool; duplicateMapKeys : bool
}.

Inductive decodeError := ErrCbor | ErrAssetName (n : Z) | ErrTooBig.

(** The first name over 32 bytes, in the order of the walk. *)
Definition longName (decoded : MultiAsset) : option Z :=
  head (omap (fun '(name, _) => if 32 <? blen name then Some (blen name) else None)
    (map_to_list decoded ≫= fun '(_, assets) => map_to_list assets)).

(** [strict] and [lenient] are what [cbor.Decode] and [cbor.DecodeLenient] make
    of the bytes; the strict decoder's failure says whether it met a duplicate
    key. *)
Definition UnmarshalCBOR (strict : result bool MultiAsset) (lenient : option MultiAsset) : result decodeError DecodedAssets :=
  '(decoded, duplicate) ←
    match strict with
    | Ok decoded => Ok (decoded, false)
    | Err false => Err ErrCbor
    | Err true => match lenient with Some decoded => Ok (decoded, true) | None => Err ErrCbor end
    end;
  match longName decoded with
  | Some n => Err (ErrAssetName n)
  | None =>
    let m := pruneZeroAssets decoded in
    if validateMultiAssetCompactRepresentationSize m
    then Ok (mkDecoded m
           (existsb (fun '(_, assets) => existsb (fun '(_, q) => amountIsZero q) (map_to_list assets)) (map_to_list decoded))
           (existsb (fun '(_, assets) => (size assets =? 0)%nat) (map_to_list decoded))
           (size decoded =? 0)%nat duplicate)
    else Err ErrTooBig
  end.

(** The checks of later eras on the recorded wire form; [true] is no error. *)
Definition CheckForDuplicateKeys (m : option DecodedAssets) : bool :=
  match m with None => true | Some m => negb (duplicateMapKeys m) end.
Definition CheckForZeroAssets (m : option DecodedAssets) : bool :=
  match m with None => true | Some m => negb (zeroQuantity m) && negb (emptyAssets m) end.
Definition CheckForEmptyMultiAsset (m : option DecodedAssets) : bool :=
  match m with None => true | Some m => negb (emptyMultiAsset m) end.

Definition ValidateOutputQuantities (m : MultiAsset) : bool :=
  forallb (fun '(_, assets) => forallb (fun '(_, q) => negb ((q <=? 0) || (MaxUint64 <? q))) (map_to_list assets)) (map_to_list m).

Definition ValidateMintQuantities (m : MultiAsset) : bool :=
  forallb (fun '(_, assets) => forallb (fun '(_, q) =>
    negb ((q =? 0) || (q <? -9223372036854775808) || (9223372036854775807 <? q))) (map_to_list assets)) (map_to_list m).

(** *** The encoding *)

(** [cbor.Encode] of a byte string and of a quantity. *)
Class CborAtoms := { encodeBytes : bytes -> bytes; encodeInt : Z -> option bytes }.

Definition cborHeaderSize (n : Z) : Z :=
  if n <? 24 then 1 else if n <=? 255 then 2 else if n <=? 65535 then 3 else if n <=? 4294967295 then 5 else 9.

(** The head of a byte string or of an unsigned integer is as short as it can
    be (RFC 8949, section 4.2.1). *)
Class CborAtomsLaws `{CborAtoms} : Prop := {
  encodeBytes_length b : blen (encodeBytes b) = cborHeaderSize (blen b) + blen b;
  encodeInt_length q : 0 <= q <= MaxUint64 -> exists e, encodeInt q = Some e /\ blen e = cborHeaderSize q
}.

(** The order of the keys. *)
Definition key_le (a b : bytes) : Prop := Is_true (bytes_leb a b).

#[local] Instance key_le_dec a b : Decision (key_le a b).
Proof. unfold key_le. apply _. Defined.

Section Encoding.
Context `{CborAtoms}.

(** Maps of at most 23 entries have a one-byte head, larger ones are of
    indefinite length. *)
Definition appendLedgerMapHeader (n : Z) : bytes := if 23 <? n then [191] else [160 + n].
Definition appendLedgerMapBreak (n : Z) : bytes := if 23 <? n then [255] else [].

Definition ledgerMapHeaderSize (n : Z) : Z := if 23 <? n then 2 else cborHeaderSize n.

Fixpoint encodeAssets (assets : gmap (list Z) Z) (names : list bytes) : result unit bytes :=
  match names with
  | [] => Ok []
  | name :: names =>
    match assets !! name ≫= encodeInt with
    | None => Err ()
    | Some quantity => rest ← encodeAssets assets names; Ok (encodeBytes name ++ quantity ++ rest)
    end
  end.

Definition encodePolicy (assets : gmap (list Z) Z) : result unit bytes :=
  let names := merge_sort key_le (fst <$> map_to_list assets) in
  body ← encodeAssets assets names;
  Ok (appendLedgerMapHeader (blen names) ++ body ++ appendLedgerMapBreak (blen names)).

Fixpoint encodePolicies (m : MultiAsset) (policies : list bytes) : result unit bytes :=
  match policies with
  | [] => Ok []
  | policy :: policies =>
    assets ← encodePolicy (default ∅ (m !! policy));
    rest ← encodePolicies m policies;
    Ok (encodeBytes policy ++ assets ++ rest)
  end.

Definition MarshalCBOR (m : MultiAsset) : result unit bytes :=
  let policies := merge_sort key_le (fst <$> map_to_list m) in
  body ← encodePolicies m policies;
  Ok (appendLedgerMapHeader (blen policies) ++ body ++ appendLedgerMapBreak (blen policies)).

Definition cborIntSize (q : Z) : result unit Z :=
  if (0 <=? q) && (q <=? MaxUint64) then Ok (cborHeaderSize q)
  else match encodeInt q with Some e => Ok (blen e) | None => Err () end.

Fixpoint assetsSize (acc : Z) (l : list (bytes * Z)) : result unit Z :=
  match l with
  | [] => Ok acc
  | (name, quantity) :: l =>
    quantitySize ← cborIntSize quantity;
    assetsSize (acc + cborHeaderSize (blen name) + blen name + quantitySize) l
  end.

Fixpoint policiesSize (acc : Z) (l : list (bytes * gmap (list Z) Z)) : result unit Z :=
  match l with
  | [] => Ok acc
  | (_, assets) :: l =>
    acc ← assetsSize (acc + cborHeaderSize 28 + 28 + ledgerMapHeaderSize (Z.of_nat (size assets))) (map_to_list assets);
    policiesSize acc l
  end.

Definition EncodedSize (m : MultiAsset) : result unit Z :=
  policiesSize (ledgerMapHeaderSize (Z.of_nat (size m))) (map_to_list m).
End Encoding.

(** ** Quantities *)

(** What the value holds of an asset. *)
Definition quantity (m : MultiAsset) (policy name : bytes) : Z := default 0 (Asset m policy name).

Lemma Asset_insert m p n e p' n' :
  Asset (<[p := <[n := e]> (default ∅ (m !! p))]> m) p' n' = if decide (p' = p /\ n' = n) then Some e else Asset m p' n'.
Proof.
  unfold Asset. destruct (decide (p' = p)) as [->|Np].
  - rewrite lookup_insert_eq. simpl. destruct (decide (n' = n)) as [->|Nn].
    + rewrite decide_True by done. by rewrite lookup_insert_eq.
    + rewrite decide_False by naive_solver. rewrite lookup_insert_ne by done. by destruct (m !! p).
  - rewrite decide_False by naive_solver. by rewrite lookup_insert_ne by done.
Qed.

Lemma addOne_quantity p m e p' n' :
  quantity (addOne p m e) p' n' = quantity m p' n' + (if decide (p' = p /\ n' = e.1) then e.2 else 0).
Proof.
  unfold addOne, quantity. rewrite Asset_insert. destruct (decide _) as [[-> ->]|]; [done|lia].
Qed.

Definition entrySum (p' n' p : bytes) (e : bytes * Z) : Z := if decide (p' = p /\ n' = e.1) then e.2 else 0.

Lemma addAll_quantity p l p' n' : forall m,
  quantity (foldl (addOne p) m l) p' n' = quantity m p' n' + sum_by (entrySum p' n' p) l.
Proof.
  induction l as [|e l IH]; intros m; simpl; [lia|]. rewrite IH, addOne_quantity. unfold entrySum at 2. lia.
Qed.

(** Only one entry of a map has a given key. *)
Lemma sum_by_key `{Countable K} {A} (f : A -> Z) (m : gmap K A) k :
  sum_by (fun e => if decide (k = e.1) then f e.2 else 0) (map_to_list m) = default 0 (f <$> m !! k).
Proof.
  induction m as [|i x m Hi IH] using map_ind; [by rewrite map_to_list_empty|].
  rewrite (sum_by_perm _ _ _ (map_to_list_insert m i x Hi)). simpl. rewrite IH.
  destruct (decide (k = i)) as [->|N].
  - rewrite lookup_insert_eq, Hi. simpl. lia.
  - by rewrite lookup_insert_ne by done.
Qed.

Lemma entrySum_policy (p' n' p : bytes) (assets : gmap (list Z) Z) :
  sum_by (entrySum p' n' p) (map_to_list assets) = if decide (p' = p) then default 0 (assets !! n') else 0.
Proof.
  destruct (decide (p' = p)) as [->|N].
  - rewrite (sum_by_ext _ (fun e => if decide (n' = e.1) then e.2 else 0)).
    + rewrite (sum_by_key (fun q : Z => q)). by destruct (assets !! n').
    + intros e _. unfold entrySum. repeat destruct (decide _); naive_solver.
  - rewrite (sum_by_ext _ (fun _ => 0)).
    + induction (map_to_list assets); simpl; lia.
    + intros e _. unfold entrySum. rewrite decide_False by naive_solver. done.
Qed.

(** The sum of two values holds of every asset what the two hold together. *)
Lemma add_pointwise m other policy name :
  quantity (Add m (Some other)) policy name = quantity m policy name + quantity other policy name.
Proof.
  assert (H : forall l m, quantity (foldl (fun m '(p, assets) => foldl (addOne p) m (map_to_list assets)) m l) policy name
    = quantity m policy name + sum_by (fun e : bytes * gmap (list Z) Z => if decide (policy = e.1) then default 0 (e.2 !! name) else 0) l).
  { clear m. induction l as [|[p assets] l IH]; intros m; simpl; [lia|].
    rewrite IH, addAll_quantity, entrySum_policy. lia. }
  unfold Add. rewrite H, (sum_by_key (fun a : gmap (list Z) Z => default 0 (a !! name))).
  unfold quantity at 3, Asset. by destruct (other !! policy).
Qed.

(** ** Pruning *)

Lemma pruneZeroAssets_lookup m p :
  pruneZeroAssets m !! p = m !! p ≫= fun assets =>
    let kept := filter (fun e => amountIsZero (snd e) = false) assets in if decide (kept = ∅) then None else Some kept.
Proof. unfold pruneZeroAssets. by rewrite lookup_omap. Qed.

Lemma pruneZeroAssets_Asset m p n :
  Asset (pruneZeroAssets m) p n = a ← Asset m p n; if amountIsZero a then None else Some a.
Proof.
  unfold Asset. rewrite pruneZeroAssets_lookup. destruct (m !! p) as [assets|]; [|done]. simpl.
  assert (F : filter (fun e : bytes * Z => amountIsZero (snd e) = false) assets !! n
    = a ← assets !! n; if amountIsZero a then None else Some a).
  { destruct (assets !! n) as [a|] eqn:E; simpl.
    - destruct (amountIsZero a) eqn:Z0.
      + apply map_lookup_filter_None. right. intros x. rewrite E. intros [= <-]. simpl. congruence.
      + by apply map_lookup_filter_Some.
    - apply map_lookup_filter_None. by left. }
  destruct (decide _) as [K|K]; simpl; [|done]. by rewrite <- F, K, lookup_empty.
Qed.

Lemma pruneZeroAssets_quantity m p n : quantity (pruneZeroAssets m) p n = quantity m p n.
Proof.
  unfold quantity. rewrite pruneZeroAssets_Asset. destruct (Asset m p n) as [a|]; [|done]. simpl.
  unfold amountIsZero. destruct (Z.eqb_spec a 0); simpl; lia.
Qed.

Lemma pruned_nonempty m p x : pruneZeroAssets m !! p = Some x -> x <> ∅.
Proof.
  rewrite pruneZeroAssets_lookup. destruct (m !! p); [|done]. simpl. destruct (decide _); [done|]. by intros [= <-].
Qed.

(** Two pruned values with the same quantities are the same map. *)
Lemma pruned_ext m m' :
  (forall p n, quantity m p n = quantity m' p n) -> pruneZeroAssets m = pruneZeroAssets m'.
Proof.
  intros H. assert (A : forall p n, Asset (pruneZeroAssets m) p n = Asset (pruneZeroAssets m') p n).
  { intros p n. rewrite !pruneZeroAssets_Asset. specialize (H p n). unfold quantity in H.
    destruct (Asset m p n) as [a|], (Asset m' p n) as [b|]; simpl in H |- *; subst; unfold amountIsZero; try done;
      by zbool. }
  apply map_eq. intros p. unfold Asset in A. specialize (A p).
  destruct (pruneZeroAssets m !! p) as [x|] eqn:Ex, (pruneZeroAssets m' !! p) as [y|] eqn:Ey; simpl in A.
  - f_equal. by apply map_eq.
  - destruct (pruned_nonempty _ _ _ Ex). apply map_empty, A.
  - destruct (pruned_nonempty _ _ _ Ey). apply map_empty. intros n. by rewrite <- A.
  - done.
Qed.

Lemma map_included_full `{Countable K} {A} (m m' : gmap K A) : m ⊆ m' -> size m = size m' -> m = m'.
Proof. intros S E. apply map_subseteq_size_eq; [done|by rewrite E]. Qed.

(** What a policy's entries of the other value say when every comparison of
    the loop succeeds. *)
Lemma policy_matches m other p assets :
  pruneZeroAssets other !! p = Some assets ->
  size assets = size (default ∅ (pruneZeroAssets m !! p)) ->
  (forall n a, assets !! n = Some a -> amountsEqual (Some a) (Asset m p n) = true) ->
  pruneZeroAssets m !! p = Some assets.
Proof.
  intros Hp Hs Ha. assert (S : assets = default ∅ (pruneZeroAssets m !! p)).
  { apply map_included_full; [|done]. apply map_subseteq_spec. intros n a Hn.
    assert (A : Asset (pruneZeroAssets m) p n = Some a).
    { assert (Z0 : a <> 0).
      { intros ->. assert (Q : Asset (pruneZeroAssets other) p n = Some 0) by (unfold Asset; rewrite Hp; done).
        rewrite pruneZeroAssets_Asset in Q. destruct (Asset other p n) as [b|]; [|done]. simpl in Q.
        unfold amountIsZero in Q. destruct (Z.eqb_spec b 0); congruence. }
      specialize (Ha n a Hn). rewrite pruneZeroAssets_Asset. destruct (Asset m p n) as [b|]; simpl in Ha |- *.
      - apply Z.eqb_eq in Ha as ->. unfold amountIsZero. by rewrite (proj2 (Z.eqb_neq _ _) Z0).
      - by apply Z.eqb_eq in Ha. }
    unfold Asset in A. by destruct (pruneZeroAssets m !! p). }
  pose proof (pruned_nonempty _ _ _ Hp). destruct (pruneZeroAssets m !! p); simpl in S; congruence.
Qed.

(** [Compare] holds exactly when the two values hold the same quantity of
    every asset, whatever zero entries and empty policies they spell out. *)
Lemma compare_exact m other :
  Compare m (Some other) = true <-> forall policy name, quantity m policy name = quantity other policy name.
Proof.
  unfold Compare, normalize. split.
  - destruct (Nat.eqb_spec (size (pruneZeroAssets other)) (size (pruneZeroAssets m))) as [Hs|]; [|done]. simpl.
    intros F. rewrite forallb_forall in F.
    enough (E : pruneZeroAssets other = pruneZeroAssets m).
    { intros p n. by rewrite <- (pruneZeroAssets_quantity m), <- E, pruneZeroAssets_quantity. }
    apply map_included_full; [|done]. apply map_subseteq_spec. intros p assets Hp.
    specialize (F (p, assets) (proj1 (list_elem_of_In _ _) (proj2 (elem_of_map_to_list _ _ _) Hp))).
    apply andb_prop in F as [F1 F2]. rewrite forallb_forall in F2.
    apply (policy_matches m other p assets Hp); [by apply Nat.eqb_eq|]. intros n a Hn.
    exact (F2 (n, a) (proj1 (list_elem_of_In _ _) (proj2 (elem_of_map_to_list _ _ _) Hn))).
  - intros H. rewrite <- (pruned_ext _ _ H), Nat.eqb_refl. simpl. apply forallb_forall. intros [p assets] Hp.
    apply list_elem_of_In, elem_of_map_to_list in Hp. rewrite Hp. simpl. rewrite Nat.eqb_refl. simpl.
    apply forallb_forall. intros [n a] Hn. apply list_elem_of_In, elem_of_map_to_list in Hn.
    assert (Q : Asset (pruneZeroAssets m) p n = Some a) by (unfold Asset; rewrite Hp; done).
    rewrite pruneZeroAssets_Asset in Q. destruct (Asset m p n) as [b|]; [|done]. simpl in Q |- *.
    destruct (amountIsZero b); [done|]. injection Q as ->. apply Z.eqb_refl.
Qed.

(** ** The limit of the compact form *)

Definition assetCount (m : MultiAsset) : Z := sum_by (fun e : bytes * gmap (list Z) Z => Z.of_nat (size e.2)) (map_to_list m).

Lemma compactLoop_exact l : forall c, 0 <= c <= 65535 ->
  compactLoop c l = (c + 44 * sum_by (fun e : bytes * gmap (list Z) Z => Z.of_nat (size e.2)) l <=? 65535).
Proof.
  induction l as [|[p assets] l IH]; intros c Hc; simpl; [rewrite (proj2 (Z.leb_le _ _)); lia|].
  unfold compactOffsetLimit, assetCompactSize. pose proof (sum_by_nonneg (fun e : bytes * gmap (list Z) Z => Z.of_nat (size e.2)) l (fun e => Nat2Z.is_nonneg _)).
  rewrite (u64_small (65535 - c)) by (unfold MaxUint64; lia).
  destruct (Z.ltb_spec ((65535 - c) / 44) (Z.of_nat (size assets))) as [L|L].
  - symmetry. apply Z.leb_gt. pose proof (Z.mod_pos_bound (65535 - c) 44 ltac:(lia)). pose proof (Z.div_mod (65535 - c) 44 ltac:(lia)). lia.
  - assert (Z.of_nat (size assets) * 44 <= 65535 - c).
    { pose proof (Z.mod_pos_bound (65535 - c) 44 ltac:(lia)). pose proof (Z.div_mod (65535 - c) 44 ltac:(lia)). lia. }
    rewrite (u64_small (Z.of_nat _ * 44)) by (unfold MaxUint64; lia). rewrite u64_small by (unfold MaxUint64; lia).
    rewrite IH by lia. f_equal; lia.
Qed.

(** A value passes the size check exactly when its compact form, 28 bytes for
    each policy and 44 for each asset, fits the 16-bit offsets; neither the
    subtraction nor the products wrap around. *)
Theorem compact_size_exact m :
  validateMultiAssetCompactRepresentationSize m = (28 * Z.of_nat (size m) + 44 * assetCount m <=? 65535).
Proof.
  unfold validateMultiAssetCompactRepresentationSize, assetCount.
  pose proof (sum_by_nonneg (fun e : bytes * gmap (list Z) Z => Z.of_nat (size e.2)) (map_to_list m) (fun e => Nat2Z.is_nonneg _)).
  change (compactOffsetLimit / policyCompactSize) with 2340. unfold policyCompactSize.
  destruct (Z.ltb_spec 2340 (Z.of_nat (size m))) as [L|L]; [symmetry; apply Z.leb_gt; lia|].
  rewrite u64_small by (unfold MaxUint64; lia). rewrite compactLoop_exact by lia. f_equal; lia.
Qed.

(** ** The size of the encoding *)

(** The sum of sizes that may be missing. *)
Fixpoint osum {A} (f : A -> option Z) (l : list A) : option Z :=
  match l with [] => Some 0 | x :: l => a ← f x; b ← osum f l; Some (a + b) end.

Lemma osum_perm {A} (f : A -> option Z) l k : l ≡ₚ k -> osum f l = osum f k.
Proof.
  induction 1 as [|x l k _ IH|x y l|l k j _ IH1 _ IH2]; simpl; [done|by rewrite IH| |by rewrite IH1].
  destruct (f x), (f y), (osum f l); simpl; try done. f_equal. lia.
Qed.

Definition size_result (o : option Z) : result unit Z := match o with Some n => Ok n | None => Err () end.

Definition length_of (r : result unit bytes) : option Z := match r with Ok b => Some (blen b) | Err _ => None end.

Lemma ledgerMapHeaderSize_exact n : 0 <= n ->
  ledgerMapHeaderSize n = blen (appendLedgerMapHeader n) + blen (appendLedgerMapBreak n).
Proof.
  intros Hn. unfold ledgerMapHeaderSize, appendLedgerMapHeader, appendLedgerMapBreak, cborHeaderSize.
  destruct (Z.ltb_spec 23 n); [done|]. by rewrite (proj2 (Z.ltb_lt n 24)) by lia.
Qed.

Lemma sorted_entries {A} (m : gmap (list Z) A) :
  exists l, merge_sort key_le (fst <$> map_to_list m) = fst <$> l /\ l ≡ₚ map_to_list m.
Proof.
  destruct (Permutation_map_inv fst (map_to_list m) (l1 := merge_sort key_le (fst <$> map_to_list m))) as (l & E & P).
  - apply merge_sort_Permutation.
  - exists l. by split.
Qed.

Section EncodedSize.
Context `{CborAtomsLaws}.
#[local] Set Default Proof Using "All".

Definition entrySize (e : bytes * Z) : option Z :=
  q ← encodeInt e.2; Some (cborHeaderSize (blen e.1) + blen e.1 + blen q).

Definition policySize (e : bytes * gmap (list Z) Z) : option Z :=
  s ← osum entrySize (map_to_list e.2); Some (30 + ledgerMapHeaderSize (Z.of_nat (size e.2)) + s).

Lemma cborIntSize_exact q : cborIntSize q = size_result (blen <$> encodeInt q).
Proof.
  unfold cborIntSize. destruct ((0 <=? q) && (q <=? MaxUint64)) eqn:E; [|by destruct (encodeInt q)].
  apply andb_prop in E as [E1 E2]. destruct (encodeInt_length q) as (e & -> & L); [lia|]. simpl. by rewrite L.
Qed.

Lemma assetsSize_exact l : forall acc, assetsSize acc l = size_result (Z.add acc <$> osum entrySize l).
Proof.
  induction l as [|[n q] l IH]; intros acc; simpl; [f_equal; lia|]. rewrite cborIntSize_exact.
  change (entrySize (n, q)) with (e ← encodeInt q; Some (cborHeaderSize (blen n) + blen n + blen e)).
  destruct (encodeInt q) as [e|]; [|done]. simpl. rewrite IH.
  destruct (osum entrySize l); [|done]. simpl. f_equal. lia.
Qed.

Lemma policiesSize_exact l : forall acc, policiesSize acc l = size_result (Z.add acc <$> osum policySize l).
Proof.
  induction l as [|[p a] l IH]; intros acc; simpl; [f_equal; lia|]. rewrite assetsSize_exact.
  change (policySize (p, a)) with (s ← osum entrySize (map_to_list a); Some (30 + ledgerMapHeaderSize (Z.of_nat (size a)) + s)).
  destruct (osum entrySize (map_to_list a)) as [s|]; [|done]. simpl. rewrite IH.
  destruct (osum policySize l); [|done]. simpl. f_equal. change (cborHeaderSize 28) with 2. lia.
Qed.

Lemma encodeAssets_length assets l :
  (forall e, e ∈ l -> assets !! e.1 = Some e.2) ->
  length_of (encodeAssets assets (fst <$> l)) = osum entrySize l.
Proof.
  induction l as [|[n q] l IH]; intros Hl; [done|]. simpl.
  assert (E : assets !! n = Some q) by (apply (Hl (n, q)); left). rewrite E. simpl.
  change (entrySize (n, q)) with (e ← encodeInt q; Some (cborHeaderSize (blen n) + blen n + blen e)).
  destruct (encodeInt q) as [e|]; [|done]. simpl. rewrite <- IH by (intros; apply Hl; by right).
  destruct (encodeAssets _ _); [|done]. simpl. f_equal. rewrite !blen_app, encodeBytes_length. lia.
Qed.

Lemma encodePolicy_length assets :
  length_of (encodePolicy assets) = Z.add (ledgerMapHeaderSize (Z.of_nat (size assets))) <$> osum entrySize (map_to_list assets).
Proof.
  unfold encodePolicy. destruct (sorted_entries assets) as (l & -> & P).
  rewrite <- (osum_perm _ _ _ P), <- (encodeAssets_length assets l).
  - destruct (encodeAssets _ _) as [b|]; [|done]. simpl. f_equal. rewrite !blen_app.
    assert (E : blen (fst <$> l) = Z.of_nat (size assets)).
    { unfold blen. by rewrite length_fmap, P, length_map_to_list. }
    rewrite E, ledgerMapHeaderSize_exact by lia. lia.
  - intros [n q] E. rewrite P in E. by apply elem_of_map_to_list in E.
Qed.

Lemma encodePolicies_length m l :
  (forall e, e ∈ l -> m !! e.1 = Some e.2 /\ blen e.1 = 28) ->
  length_of (encodePolicies m (fst <$> l)) = osum policySize l.
Proof.
  induction l as [|[p a] l IH]; intros Hl; [done|]. simpl.
  destruct (Hl (p, a)) as [E1 E2]; [by left|]. simpl in E1, E2. rewrite E1. simpl.
  change (policySize (p, a)) with (s ← osum entrySize (map_to_list a); Some (30 + ledgerMapHeaderSize (Z.of_nat (size a)) + s)).
  pose proof (encodePolicy_length a) as L.
  destruct (encodePolicy a) as [b|], (osum entrySize (map_to_list a)) as [s|]; simpl in L |- *; try done.
  injection L as L. rewrite <- IH by (intros; apply Hl; by right). destruct (encodePolicies _ _); [|done]. simpl. f_equal.
  rewrite !blen_app, encodeBytes_length, E2. change (cborHeaderSize 28) with 2. lia.
Qed.

(** For policies of 28 bytes the computed size is the length of the encoding,
    and it fails exactly when the encoding does. *)
Theorem encoded_size_exact m :
  map_Forall (fun policy _ => blen policy = 28) m ->
  EncodedSize m = size_result (length_of (MarshalCBOR m)).
Proof.
  intros Hm. unfold EncodedSize, MarshalCBOR. rewrite policiesSize_exact.
  destruct (sorted_entries m) as (l & -> & P). rewrite <- (osum_perm _ _ _ P), <- (encodePolicies_length m l).
  - destruct (encodePolicies _ _) as [b|]; [|done]. simpl. f_equal. rewrite !blen_app.
    assert (E : blen (fst <$> l) = Z.of_nat (size m)).
    { unfold blen. by rewrite length_fmap, P, length_map_to_list. }
    rewrite E, ledgerMapHeaderSize_exact by lia. lia.
  - intros [p a] E. rewrite P in E. apply elem_of_map_to_list in E. split; [done|]. exact (Hm _ _ E).
Qed.
End EncodedSize.


(** ** The balance of assets *)

(** The quantity in a value that may be missing. *)
Definition quantityOf (m : option MultiAsset) (policy name : bytes) : Z :=
  match m with None => 0 | Some m => quantity m policy name end.

Definition total_of (t : assetTotals) (policy name : bytes) : Z := default 0 (t !! (policy, name)).

Lemma add_quantity m other policy name :
  quantity (Add m other) policy name = quantity m policy name + quantityOf other policy name.
Proof. destruct other as [o|]; [apply add_pointwise|]. cbn. lia. Qed.

Lemma compare_quantity m other :
  Compare m other = true <-> forall policy name, quantity m policy name = quantityOf other policy name.
Proof.
  destruct other as [o|]; [apply compare_exact|].
  assert (E : Compare m None = Compare m (Some ∅)).
  { unfold Compare, normalize. assert (pruneZeroAssets ∅ = ∅) as -> by (unfold pruneZeroAssets; apply omap_empty). done. }
  rewrite E, compare_exact. done.
Qed.

Section Collect.
Context (skip : bytes -> bytes -> bool) (m : MultiAsset) (p n : bytes).

Lemma collectPolicy_total policy names : forall t, NoDup names ->
  total_of (foldl (collectOne skip m policy) t names) p n
  = total_of t p n + (if decide (p = policy /\ n ∈ names) then if skip p n then 0 else quantity m p n else 0).
Proof.
  induction names as [|name names IH]; intros t Hn; cbn [foldl].
  - rewrite decide_False by (intros [_ E]; by apply elem_of_nil in E). lia.
  - apply NoDup_cons in Hn as [Hni Hn]. rewrite IH by done. clear IH.
    assert (S : total_of (collectOne skip m policy t name) p n = total_of t p n + (if decide (p = policy /\ n = name) then if skip p n then 0 else quantity m p n else 0)).
    { unfold collectOne. destruct (decide _) as [[-> ->]|N].
      - destruct (skip policy name); [lia|]. unfold quantity, total_of.
        destruct (Asset m policy name); cbn; [rewrite lookup_insert_eq; cbn|]; lia.
      - destruct (skip policy name); [lia|]. unfold total_of. destruct (Asset m policy name); [|lia].
        rewrite lookup_insert_ne by (intros [= <- <-]; by apply N). lia. }
    rewrite S. destruct (decide (p = policy /\ n = name)) as [[-> ->]|N1].
    + rewrite (decide_False (P := policy = policy /\ name ∈ names)) by naive_solver.
      rewrite decide_True by (split; [done|by left]). lia.
    + destruct (decide (p = policy /\ n ∈ names)) as [[-> E]|N2].
      * rewrite decide_True by (split; [done|by right]). lia.
      * rewrite decide_False; [lia|]. intros [-> [-> |E]%elem_of_cons]; naive_solver.
Qed.

Lemma collectPolicies_total ps : forall t, NoDup ps ->
  total_of (foldl (collectPolicy skip m) t ps) p n
  = total_of t p n + (if decide (p ∈ ps) then if skip p n then 0 else quantity m p n else 0).
Proof.
  assert (Q : n ∉ Assets m p -> quantity m p n = 0).
  { intros Hn. unfold quantity, Asset. unfold Assets in Hn. destruct (m !! p) as [a|]; [|done]. cbn.
    destruct (a !! n) as [q|] eqn:E; [|done]. destruct Hn. apply list_elem_of_fmap. exists (n, q).
    by rewrite elem_of_map_to_list. }
  induction ps as [|policy ps IH]; intros t Hp; cbn [foldl].
  - rewrite decide_False by apply not_elem_of_nil. lia.
  - apply NoDup_cons in Hp as [Hni Hp]. rewrite IH by done. unfold collectPolicy. rewrite collectPolicy_total.
    2:{ unfold Assets. destruct (m !! policy); [apply NoDup_fst_map_to_list|constructor]. }
    destruct (decide (p = policy)) as [->|N].
    + rewrite (decide_False (P := policy ∈ ps)) by done. rewrite (decide_True (P := policy ∈ policy :: ps)) by by left.
      destruct (decide (policy = policy /\ n ∈ Assets m policy)) as [|N]; [lia|].
      rewrite Q by naive_solver. destruct (skip _ _); lia.
    + rewrite decide_False by naive_solver. destruct (decide (p ∈ ps)).
      * rewrite decide_True by by right. lia.
      * rewrite decide_False; [lia|]. intros [->|]%elem_of_cons; naive_solver.
Qed.
End Collect.

(** The totals grow by what the value holds. *)
Lemma collectAssets_total skip m t p n :
  total_of (collectAssets skip m t) p n = total_of t p n + (if skip p n then 0 else quantityOf m p n).
Proof.
  destruct m as [m|]; cbn [collectAssets quantityOf]; [|destruct (skip p n); lia].
  rewrite collectPolicies_total by (unfold Policies; apply NoDup_fst_map_to_list).
  destruct (decide (p ∈ Policies m)) as [|N]; [done|].
  assert (quantity m p n = 0) as ->; [|destruct (skip p n); lia].
  unfold quantity, Asset. destruct (m !! p) as [a|] eqn:E; [|done]. destruct N. unfold Policies.
  apply list_elem_of_fmap. exists (p, a). by rewrite elem_of_map_to_list.
Qed.

Lemma consumedLoop_exact l : forall produced, NoDup l.*1 ->
  (forall rest, consumedLoop l produced = Ok rest <->
    (forall k c, (k, c) ∈ l -> c = default 0 (produced !! k)) /\
    rest = foldr delete produced l.*1).
Proof.
  induction l as [|[k c] l IH]; intros produced Hn rest; cbn [consumedLoop].
  - split; [intros [= <-]; split; [intros ?? E; by apply elem_of_nil in E|done]|by intros [_ ->]].
  - cbn [fmap list_fmap fst foldr] in *. apply NoDup_cons in Hn as [Hni Hn].
    assert (C : foldr delete (delete k produced) l.*1 = delete k (foldr delete produced l.*1)).
    { clear. induction l.*1 as [|i li IH]; [done|]. cbn. by rewrite IH, delete_delete. }
    destruct (Z.eqb_spec c (default 0 (produced !! k))) as [E|N]; cbn [negb].
    + rewrite (IH _ Hn), C. split; intros [H1 H2]; (split; [|done]).
      * intros k' c' [[= -> ->]|E']%elem_of_cons; [done|].
        specialize (H1 k' c' E'). rewrite lookup_delete_ne in H1; [done|].
        intros <-. destruct Hni. change k with (fst (k, c')). by apply list_elem_of_fmap_2.
      * intros k' c' E'. rewrite lookup_delete_ne; [by apply H1; right|].
        intros <-. destruct Hni. change k with (fst (k, c')). by apply list_elem_of_fmap_2.
    + split; [done|]. intros [H1 _]. destruct N. apply H1. by left.
Qed.

(** The comparison succeeds exactly when every total is the same. *)
Lemma compareAssets_exact consumed produced :
  compareAssets consumed produced = Ok () <-> forall p n, total_of consumed p n = total_of produced p n.
Proof.
  unfold compareAssets.
  assert (Hl := consumedLoop_exact (map_to_list consumed) produced (NoDup_fst_map_to_list _)).
  assert (D : forall k, foldr delete produced (map_to_list consumed).*1 !! k
    = match consumed !! k with Some _ => None | None => produced !! k end).
  { intros k. destruct (consumed !! k) as [c|] eqn:E.
    - apply lookup_foldr_delete. apply list_elem_of_fmap. exists (k, c). by rewrite elem_of_map_to_list.
    - apply lookup_foldr_delete_not_elem_of. intros ([k' c] & -> & E')%list_elem_of_fmap.
      apply elem_of_map_to_list in E'. cbn in *. congruence. }
  assert (F : forall t : assetTotals, nonzero t = [] <->
    forall k, default 0 (t !! k) = 0).
  { intros t. split.
    - intros E k. destruct (t !! k) as [x|] eqn:T; [|done]. cbn. destruct (decide (x = 0)) as [|N]; [done|].
      assert (X : (k, x) ∈ nonzero t).
      { apply list_elem_of_filter. by rewrite elem_of_map_to_list. }
      rewrite E in X. by apply elem_of_nil in X.
    - intros H. destruct (nonzero t) as [|[k x] l] eqn:E; [done|].
      assert (X : (k, x) ∈ nonzero t) by (rewrite E; left).
      apply list_elem_of_filter in X as [N X]. apply elem_of_map_to_list in X. specialize (H k). rewrite X in H. done. }
  split.
  - intros E. apply bind_Ok in E as (rest & E & E'). apply Hl in E as [E ->].
    destruct (nonzero _) as [|[]] eqn:Ef; [|done]. pose proof (proj1 (F _) Ef) as R. intros p n. unfold total_of. specialize (R (p, n)). rewrite D in R.
    destruct (consumed !! (p, n)) as [c|] eqn:Ec; cbn; [|done].
    apply E, elem_of_map_to_list. done.
  - intros H. assert (E : consumedLoop (map_to_list consumed) produced = Ok (foldr delete produced (map_to_list consumed).*1)).
    { apply Hl. split; [|done]. intros [p n] c Ec. apply elem_of_map_to_list in Ec. specialize (H p n).
      unfold total_of in H. by rewrite Ec in H. }
    rewrite E. cbn [mbind result_bind]. rewrite (proj2 (F _)); [done|]. intros [p n]. rewrite D. specialize (H p n).
    unfold total_of in H. destruct (consumed !! (p, n)); [done|]. by rewrite <- H.
Qed.

(** ** Witnesses *)

(** Deterministic CBOR heads. *)
Definition demoHead (major n : Z) : bytes :=
  if n <? 24 then [major + n] else if n <=? 255 then (major + 24) :: be_encode 1 n
  else if n <=? 65535 then (major + 25) :: be_encode 2 n
  else if n <=? 4294967295 then (major + 26) :: be_encode 4 n else (major + 27) :: be_encode 8 n.

#[local] Instance demoAtoms : CborAtoms :=
  {| encodeBytes b := demoHead 64 (blen b) ++ b;
     encodeInt q := if (0 <=? q) && (q <=? MaxUint64) then Some (demoHead 0 q) else None |}.

Lemma demoHead_length major n : blen (demoHead major n) = cborHeaderSize n.
Proof. unfold demoHead, cborHeaderSize. zbool; unfold blen; cbn [length]; by rewrite ?length_be_encode. Qed.

#[local] Instance demoAtoms_laws : CborAtomsLaws.
Proof.
  split.
  - intros b. cbn. by rewrite blen_app, demoHead_length.
  - intros q Hq. cbn. rewrite (proj2 (Z.leb_le 0 q)), (proj2 (Z.leb_le q MaxUint64)) by lia. cbn.
    eexists. split; [done|]. apply demoHead_length.
Qed.

Definition demoAssets : MultiAsset := {[repeat 7 28 := {[[65] := 5; [66; 67] := 1000]}; repeat 9 28 := {[[] := 24]}]}.

(** An instance: two policies and three assets. *)
Lemma encoded_size_exact_witness : EncodedSize demoAssets = Ok 75 /\ length_of (MarshalCBOR demoAssets) = Some 75.
Proof.
  assert (E : EncodedSize demoAssets = size_result (length_of (MarshalCBOR demoAssets))).
  { apply encoded_size_exact. apply map_Forall_insert_2; [reflexivity|]. apply map_Forall_singleton. reflexivity. }
  assert (S : EncodedSize demoAssets = Ok 75) by (vm_compute; reflexivity).
  rewrite S in E. split; [exact S|]. destruct (length_of (MarshalCBOR demoAssets)) as [k|]; cbn in E; congruence.
Defined.
