(* ===== verification/Conway.v ===== *)
(** * The Conway rules of value (src/ledger/conway/rules.go, verify_block.go)

    Conservation of ada and of assets, deposits and refunds of certificates,
    withdrawals, delegation and collateral, the order of the era's rules and the
    loop that verifies the transactions of a block. Rules that Conway takes from
    Shelley are the ones of the Shelley model. *)

From S2P Require Import Prelude Scripts ShelleyRules Params MultiAsset BlockState.
#[local] Open Scope Z_scope.

(** ** Data *)

Record ConwayOutput := mkConwayOutput {
  outAddress : Address;
  outAmount : option Z;
  outAssets : option MultiAsset;
  ScriptRef : option Script;
  outSize : option Z                  (* TransactionOutputCborSize *)
}.

Record ProposalProcedure := mkProposal { PPDeposit : Z; PPRewardAccount : Address; PPGovAction : option GovAction }.

Definition VoterTypeConstitutionalCommitteeHotKeyHash : Z := 0.
Definition VoterTypeConstitutionalCommitteeHotScriptHash : Z := 1.
Definition VoterTypeDRepKeyHash : Z := 2.
Definition VoterTypeDRepScriptHash : Z := 3.
Definition VoterTypeStakingPoolKeyHash : Z := 4.

Record Voter := mkVoter { voterType : Z; voterHash : Hash28 }.

Record ConwayTransaction := mkConwayTx {
  Hash : bytes;
  Inputs : list TransactionInput;
  Collateral : list TransactionInput;
  ReferenceInputs : list TransactionInput;
  Outputs : list ConwayOutput;
  CollateralReturn : option ConwayOutput;
  TotalCollateral : option Z;
  Fee : option Z;
  Withdrawals : option (list (option Address * option Z));
  Certificates : list BlockCertificate;
  AssetMint : option MultiAsset;
  ProposalProcedures : list ProposalProcedure;
  VotingProcedures : list (option Voter * list (option GovActionId));
  Donation : option Z;
  IsValid : bool;
  UpperBound : option Z;
  SizeOf : option Z;
  RequiredSigners : list Hash28;
  Witnesses : option WitnessSet;
  LowerBound : option Z
}.

(** [len(tx.Witnesses().Redeemers()) > 0], as the rules on collateral ask it. *)
Definition HasRedeemers (tx : ConwayTransaction) : bool :=
  match Witnesses tx with Some w => 0 <? blen (RedeemerKeys w) | None => false end.

(** What the rules taken from Shelley read; Conway has no minimal output value
    of its own. *)
Definition shelleyParams (pp : ConwayProtocolParameters) : ProtocolParameters :=
  mkPparams (pMinFeeA pp) (pMinFeeB pp) (pMaxTxSize pp) 0 (pKeyDeposit pp) (pPoolDeposit pp) (pMinPoolCost pp)
    (pMaxEpoch pp) (fst (pProtocolVersion pp)).
#[global] Arguments shelleyParams : simpl never.

Definition keyDeposit (pp : ConwayProtocolParameters) : Z := KeyDeposit (shelleyParams pp).
Definition major (pp : ConwayProtocolParameters) : Z := ProtocolMajorVersion (shelleyParams pp).

(** The ledger state: what the block's view overlays, and what passes through. *)
Record ConwayState := mkConwayState {
  lstate : @LState ConwayOutput;
  network : Z;
  epochForSlot : option (Z -> option Z);
  gov : GovState
}.

(** The errors of the governance rules. [NilPanic] is a nil pointer the code
    follows. *)
Inductive govError :=
| GovernanceStateUnavailable (id : option GovActionId) (field : string)
| UnknownGovActionId (ids : list GovActionId)
| InvalidGovActionAncestor (id : GovActionId) (reason : string)
| BadHardForkProtocolVersion (supplied expected : Z * Z)
| MalformedGovAction (reason : string)
| ConflictingCommitteeUpdate (credentials : list Credential)
| ConstitutionLookup
| MalformedConstitution (length : Z)
| InvalidGuardrailsScriptHash (actual expected : option bytes)
| BootstrapDisallowedGovAction (type : Z)
| UnknownGovActionType
| WrongNetworkProposalAddress (addrs : list Address)
| ProposalReturnAccountDoesNotExist (addr : Address)
| TreasuryWithdrawalReturnAccountsDoNotExist (addrs : list Address)
| EmptyTreasuryWithdrawals
| ZeroTreasuryWithdrawalAmount
| CommitteeExpiryEpochUnavailable
| CommitteeMemberAlreadyExpired (c : Credential) (expiry current : Z)
| NilCommitteeCredential
| ParameterUpdateError (e : paramError)
| InvalidAccountAddress (addr : Address)
| NotCommitteeMember (cold : Credential)
| ResignedCommitteeMemberHotKey (cold : Credential)
| ResignedCommitteeMember (cold : Credential)
| CommitteeMemberLookup (c : Credential)
| CommitteeStateUnavailable
| CommitteeTermLimitUnavailable
| CommitteeTermTooLong (hash : Hash28) (current expiry max : Z)
| UnknownVoter (v : Voter)
| VotingOnExpiredGovAction (v : Voter) (id : GovActionId) (expiry slot : Z)
| BootstrapVotingRestriction (v : Voter) (id : option GovActionId)
| StakePoolVotingRestriction (v : Voter) (id : option GovActionId)
| CCVotingRestriction (v : Voter) (id : option GovActionId)
| UnelectedCommitteeVoter (v : Voter)
| NilPanic.

(** The errors of the rules on witnesses and scripts. *)
Inductive witnessError :=
| MalformedAuthorization (subject : string)
| MissingVKeyWitnesses
| MissingRequiredVKeyWitnessForSigner (signer : KeyHash)
| MissingInputWitness (input : TransactionInput) (h : KeyHash) (byron : bool)
| MissingCollateralWitness (input : TransactionInput) (h : KeyHash) (byron : bool)
| CollateralNotKeyLocked (input : TransactionInput)
| UnresolvedCollateral (input : TransactionInput)
| InvalidVkeySignature (e : signatureError)
| InvalidBootstrapWitness (e : signatureError)
| OutsideValidityIntervalLower (start slot : Z)
| OutsideValidityIntervalUpper (end_ slot : Z)
| MissingScriptWitness (h : ScriptHash)
| ExtraneousScriptWitness (h : ScriptHash)
| MissingRedeemerForScript (h : ScriptHash) (key : RedeemerKey)
| ExtraneousRedeemer (key : RedeemerKey)
| MalformedPolicyHash (length : Z)
| NativeScriptFailed (h : ScriptHash).

(** The errors of the rules on fees and sizes. *)
Inductive feesError :=
| InvalidExecutionPrice
| NegativeExecutionUnits
| ExecutionFeeOverflow
| InvalidRefScriptBaseCost
| InvalidRefScriptStride
| InvalidRefScriptMultiplier
| RefScriptFeeOverflow
| MinimumFeeOverflow
| RefScriptSizeOverflow
| OutputSizeUnavailable
| MinimumUtxoOverflow
| OutputTooBigUtxo (outputs : list ConwayOutput)
| ExUnitsTooBigUtxo (total max : ExUnits)
| RefScriptSizePerTxTooLarge (size max : Z)
| RefScriptSizePerBlockTooLarge (size max : Z).

Inductive conwayError :=
| GovError (e : govError)
| FeesErr (e : feesError)
| WitnessErr (e : witnessError)
| ShelleyError (e : ruleError)
| StateError (e : blockError)
| InputResolution (i : TransactionInput)
| ReferenceInputResolution (i : TransactionInput)
| StakeCredentialNotRegistered (c : Credential)
| StakeCredentialAlreadyRegistered (c : Credential)
| StakeCredentialNonZeroRewardBalance (c : Credential) (balance : Z)
| CertificateDepositIncorrect (supplied expected : Z)
| CertificateRefundIncorrect (supplied expected : Z)
| CertificateDepositStateInconsistent (c : Credential)
| DepositParametersUnavailable
| DRepDepositStateInconsistent (c : Credential)
| DRepNotRegistered (c : Credential)
| DRepAlreadyRegistered (c : Credential)
| ProposalDepositIncorrect (supplied expected : Z)
| TreasuryDonationWithPlutus (version : Z)
| WithdrawalNotDelegatedToDRep (c : Credential)
| InvalidIsValidFlag
| InsufficientCollateral (provided required : Z)
| CollateralContainsNonAda
| IncorrectTotalCollateralField (provided total : Z)
| NoCollateralInputs
| TooManyCollateralInputs (provided max : Z)
| NonDisjointRefInputs (inputs : list TransactionInput)
| ToUnregisteredPool (p : PoolKeyHash)
| OfUnregisteredCredential (c : Credential)
| InvalidDRepType (t : Z)
| VoteToUnregisteredDRep (c : Credential)
| DuplicateVrfKey (v : VrfKeyHash) (new existing : PoolKeyHash)
| OtherConwayError.

Abbreviation ccheck := (result conwayError unit).

(** An error of the ledger state ends the rule. *)
Definition ask {A} (r : result blockError A) : result conwayError A :=
  match r with Ok a => Ok a | Err e => Err (StateError e) end.

Definition answer {A} (r : result blockError A) : option A := match r with Ok a => Some a | Err _ => None end.

(** ** The Shelley rules on a Conway transaction *)

Definition fromShelley {A} (r : result ruleError A) : result conwayError A :=
  match r with Ok a => Ok a | Err e => Err (ShelleyError e) end.

Definition shelleyOutput (o : ConwayOutput) : TransactionOutput := mkOutput (outAddress o) (outAmount o).

Definition shelleyCertificate (c : BlockCertificate) : Certificate :=
  match c with
  | StakeRegistrationCertificate c => StakeRegistration c
  | StakeDeregistrationCertificate c => StakeDeregistration c
  | StakeDelegationCertificate c p => StakeDelegation (Some c) p
  | PoolRegistrationCert reg => PoolRegistration reg
  | PoolRetirementCertificate p e => PoolRetirement p e
  | MoveInstantaneousRewardsCertificate s rewards => MirRewards s rewards
  | _ => OtherCertificate
  end.

Definition shelleyTx (tx : ConwayTransaction) : Transaction :=
  mkTransaction (Inputs tx) (Collateral tx) (ReferenceInputs tx) (shelleyOutput <$> Outputs tx)
    (shelleyOutput <$> CollateralReturn tx) (Fee tx) (Withdrawals tx) (shelleyCertificate <$> Certificates tx)
    (UpperBound tx) (IsValid tx) (SizeOf tx).

Definition shelleyState (ls : ConwayState) : LedgerState :=
  let s := lstate ls in
  mkLedgerState (fun i => shelleyOutput <$> answer (UtxoById s i)) (network ls) (IsStakeCredentialRegistered s)
    (Some (fun c => answer (StakeCredentialDeposit s c))) (IsPoolRegistered s) (fun p => answer (PoolCurrentState s p))
    (epochForSlot ls) (fun c => answer (RewardAccountBalance s c)) (fun v => answer (IsVrfKeyInUse s v))
    (Some (fun v => answer (IsFutureVrfKeyInUse s v)))
    (fun src c => (fun n => (n, true)) <$> answer (PendingInstantaneousRewards s src c)).

(** ** Deposits and refunds of the value rule *)

Record valueTally := mkTally {
  refunds : Z;
  deposits : Z;
  stakeStates : gmap Credential (bool * Z);   (* registered, deposit *)
  drepStates : gmap Credential (option DRepRegistrationR)
}.

Section Tally.
Context (ls : ConwayState) (pp : ConwayProtocolParameters) (valid : bool).

Definition getStake (c : Credential) (m : gmap Credential (bool * Z)) : result conwayError ((bool * Z) * gmap Credential (bool * Z)) :=
  match m !! c with
  | Some st => Ok (st, m)
  | None =>
    let registered := IsStakeCredentialRegistered (lstate ls) c in
    deposit ← (if registered then d ← ask (StakeCredentialDeposit (lstate ls) c); Ok (default (keyDeposit pp) d)
               else Ok (keyDeposit pp));
    Ok ((registered, deposit), <[c := (registered, deposit)]> m)
  end.

Definition getDRep (c : Credential) (m : gmap Credential (option DRepRegistrationR))
    : result conwayError (option DRepRegistrationR * gmap Credential (option DRepRegistrationR)) :=
  match m !! c with
  | Some st => Ok (st, m)
  | None =>
    st ← ask (DRepRegistration (lstate ls) c);
    match st with
    | Some r => if bool_decide (drDeposit r = None) then Err (DRepDepositStateInconsistent c) else Ok (st, <[c := st]> m)
    | None => Ok (st, <[c := st]> m)
    end
  end.

Definition checkDeposit (amount expected : Z) : ccheck :=
  if valid && negb (amount =? expected) then Err (CertificateDepositIncorrect amount expected) else Ok ().

(** The two certificates that deregister a credential; one states the refund. *)
Definition tallyDeregister (c : Credential) (supplied : option Z) (t : valueTally) : result conwayError valueTally :=
  '(st, m) ← getStake c (stakeStates t);
  if negb (fst st) then
    if valid then Err (StakeCredentialNotRegistered c) else Ok (mkTally (refunds t) (deposits t) m (drepStates t))
  else
  _ ← match supplied with
      | Some amount => if negb (amount =? snd st) && valid then Err (CertificateRefundIncorrect amount (snd st)) else Ok ()
      | None => Ok ()
      end;
  Ok (mkTally (refunds t + snd st) (deposits t) (<[c := (false, 0)]> m) (drepStates t)).

Definition tallyRegister (c : Credential) (t : valueTally) : valueTally :=
  mkTally (refunds t) (deposits t + keyDeposit pp) (<[c := (true, keyDeposit pp)]> (stakeStates t)) (drepStates t).

Definition tallyCertificate (t : valueTally) (cert : BlockCertificate) : result conwayError valueTally :=
  match cert with
  | StakeDeregistrationCertificate c => tallyDeregister c None t
  | DeregistrationCertificate c amount => tallyDeregister c (Some amount) t
  | DeregistrationDrepCertificate c amount =>
    '(st, m) ← getDRep c (drepStates t);
    match st with
    | None => if valid then Err (DRepNotRegistered c) else Ok (mkTally (refunds t) (deposits t) (stakeStates t) m)
    | Some r =>
      match drDeposit r with
      | None => Err (DRepDepositStateInconsistent c)
      | Some d =>
        if negb (amount =? d) && valid then Err (CertificateRefundIncorrect amount d)
        else Ok (mkTally (refunds t + d) (deposits t) (stakeStates t) (<[c := None]> m))
      end
    end
  | StakeRegistrationCertificate c => Ok (tallyRegister c t)
  | RegistrationCertificate c amount | StakeRegistrationDelegationCertificate c _ amount
  | StakeVoteRegistrationDelegationCertificate c _ _ amount | VoteRegistrationDelegationCertificate c _ amount =>
    _ ← checkDeposit amount (keyDeposit pp); Ok (tallyRegister c t)
  | RegistrationDrepCertificate c amount _ =>
    _ ← checkDeposit amount (pDRepDeposit pp);
    Ok (mkTally (refunds t) (deposits t + pDRepDeposit pp) (stakeStates t)
          (<[c := Some (mkDRepReg c None (Some (pDRepDeposit pp)))]> (drepStates t)))
  | _ => Ok t
  end.

Fixpoint tallyLoop (certs : list BlockCertificate) (t : valueTally) : result conwayError valueTally :=
  match certs with [] => Ok t | c :: certs => t ← tallyCertificate t c; tallyLoop certs t end.

Fixpoint proposalDepositLoop (ps : list ProposalProcedure) : ccheck :=
  match ps with
  | [] => Ok ()
  | p :: ps =>
    if valid && negb (PPDeposit p =? pGovActionDeposit pp) then Err (ProposalDepositIncorrect (PPDeposit p) (pGovActionDeposit pp))
    else proposalDepositLoop ps
  end.
End Tally.

Definition conwayValueConservationDeposits (tx : ConwayTransaction) (ls : ConwayState) (pp : ConwayProtocolParameters)
    : result conwayError (Z * Z) :=
  t ← tallyLoop ls pp (IsValid tx) (Certificates tx) (mkTally 0 0 ∅ ∅);
  _ ← proposalDepositLoop pp (IsValid tx) (ProposalProcedures tx);
  Ok (refunds t, deposits t).

(** ** Conservation of value *)

(** What the rules ask of [script.NewTxScriptView]: its error, and whether the
    transaction needs a script of Plutus V1, or of V2. *)
Abbreviation ScriptView := (ConwayTransaction -> ConwayState -> option conwayError * (bool * bool)).

Definition ValidateTreasuryDonationScriptCompatibility (sv : ScriptView) (tx : ConwayTransaction) (ls : ConwayState) : ccheck :=
  match Donation tx with
  | None => Ok ()
  | Some donation =>
    if donation <=? 0 then Ok () else
    let '(err, (v1, v2)) := sv tx ls in
    _ ← match err with None | Some (InputResolution _) => Ok () | Some e => Err e end;
    if v1 : bool then Err (TreasuryDonationWithPlutus 1)
    else if v2 : bool then Err (TreasuryDonationWithPlutus 2) else Ok ()
  end.

(** The deposits of new pools, each counted once. *)
Fixpoint poolDepositLoop (ls : ConwayState) (pp : ConwayProtocolParameters) (slot : Z) (certs : list BlockCertificate)
    (seen : gset PoolKeyHash) (produced : Z) : result conwayError Z :=
  match certs with
  | [] => Ok produced
  | PoolRegistrationCert reg :: certs =>
    if bool_decide (Operator reg ∈ seen) then poolDepositLoop ls pp slot certs seen produced else
    depositDue ← fromShelley (PoolRegistrationDepositDue (shelleyState ls) slot (Operator reg));
    poolDepositLoop ls pp slot certs ({[Operator reg]} ∪ seen)
      (if depositDue : bool then produced + PoolDeposit (shelleyParams pp) else produced)
  | _ :: certs => poolDepositLoop ls pp slot certs seen produced
  end.

Definition inputAmount (ls : ConwayState) (i : TransactionInput) : Z :=
  match UtxoById (lstate ls) i with Ok o => default 0 (outAmount o) | Err _ => 0 end.

(** The policy of zeroes and the empty name stand for ada. *)
Definition isAda (policy name : bytes) : bool := bool_decide (policy = repeat 0 28) && (blen name =? 0).

Definition consumedAssetsOf (skipMint : bytes -> bytes -> bool) (ls : ConwayState) (tx : ConwayTransaction) : assetTotals :=
  let fromInputs := foldl (fun totals i =>
    match UtxoById (lstate ls) i with
    | Err _ => totals
    | Ok o => collectAssets (fun _ _ => false) (outAssets o) totals
    end) ∅ (Inputs tx) in
  collectAssets skipMint (AssetMint tx) fromInputs.

Definition producedAssetsOf (tx : ConwayTransaction) : assetTotals :=
  foldl (fun totals o => collectAssets (fun _ _ => false) (outAssets o) totals) ∅ (Outputs tx).

Definition UtxoValidateValueNotConservedUtxo (sv : ScriptView) (tx : ConwayTransaction) (slot : Z) (ls : ConwayState)
    (pp : ConwayProtocolParameters) : ccheck :=
  let inputs := sum_by (inputAmount ls) (Inputs tx) in
  let withdrawn := sum_by (fun w => default 0 (snd w)) (default [] (Withdrawals tx)) in
  '(certificateRefunds, certificateDeposits) ← conwayValueConservationDeposits tx ls pp;
  let mintedAda := default 0 (m ← AssetMint tx; Asset m (repeat 0 28) []) in
  let consumedValue := inputs + withdrawn + certificateRefunds + mintedAda in
  let outputs := sum_by (fun o => default 0 (outAmount o)) (Outputs tx) in
  produced ← poolDepositLoop ls pp slot (Certificates tx) ∅ (outputs + default 0 (Fee tx) + certificateDeposits);
  let produced := produced + blen (ProposalProcedures tx) * pGovActionDeposit pp in
  producedValue ←
    (if 0 <? default 0 (Donation tx)
     then _ ← ValidateTreasuryDonationScriptCompatibility sv tx ls; Ok (produced + default 0 (Donation tx))
     else Ok produced);
  if negb (consumedValue =? producedValue) then Err (ShelleyError (ValueNotConserved consumedValue producedValue)) else
  match compareAssets (consumedAssetsOf isAda ls tx) (producedAssetsOf tx) with
  | Ok _ => Ok ()
  | Err (consumed, produced) => Err (ShelleyError (ValueNotConserved consumed produced))
  end.

(** *** The rule of the eras before

    Mary, Alonzo and Babbage add the balance of assets to Shelley's rule; Alonzo
    and Babbage leave the mint of the asset that stands for ada out of it. *)

Definition valueWithAssets (skipMint : bytes -> bytes -> bool) (tx : ConwayTransaction) (slot : Z) (ls : ConwayState)
    (pp : ProtocolParameters) : ccheck :=
  _ ← fromShelley (ShelleyRules.UtxoValidateValueNotConservedUtxo (shelleyTx tx) slot (shelleyState ls) pp);
  match compareAssets (consumedAssetsOf skipMint ls tx) (producedAssetsOf tx) with
  | Ok _ => Ok ()
  | Err (consumed, produced) => Err (ShelleyError (ValueNotConserved consumed produced))
  end.

Definition maryValueNotConserved := valueWithAssets (fun _ _ => false).
Definition alonzoValueNotConserved := valueWithAssets isAda.
Definition babbageValueNotConserved := valueWithAssets isAda.

(** ** Deposits of certificates *)

(** Registered, deposit and balance. *)
Record certificateStakeState := mkStakeState { csRegistered : bool; csDeposit : Z; csBalance : Z }.

Definition fitsUint64 (z : Z) : bool := (0 <=? z) && (z <=? MaxUint64).

Section CertificateDeposits.
Context (ls : ConwayState) (keyDep drepDep : Z).

Definition loadStakeState (c : Credential) (m : gmap Credential certificateStakeState)
    : result conwayError (certificateStakeState * gmap Credential certificateStakeState) :=
  match m !! c with
  | Some st => Ok (st, m)
  | None =>
    st ←
      (if IsStakeCredentialRegistered (lstate ls) c then
         deposit ← ask (StakeCredentialDeposit (lstate ls) c);
         match deposit with
         | None => Err (CertificateDepositStateInconsistent c)
         | Some d =>
           balance ← ask (RewardAccountBalance (lstate ls) c);
           match balance with
           | None => Err (CertificateDepositStateInconsistent c)
           | Some b => Ok (mkStakeState true d b)
           end
         end
       else Ok (mkStakeState false 0 0));
    Ok (st, <[c := st]> m)
  end.

Definition deregisteredCredentials (certs : list BlockCertificate) : gset Credential :=
  foldr (fun cert acc => match cert with
    | StakeDeregistrationCertificate c | DeregistrationCertificate c _ => {[c]} ∪ acc
    | _ => acc
    end) ∅ certs.

(** Withdrawals come before certificates. *)
Fixpoint drainLoop (deregistered : gset Credential) (ws : list (option Address * option Z))
    (m : gmap Credential certificateStakeState) : result conwayError (gmap Credential certificateStakeState) :=
  match ws with
  | [] => Ok m
  | (addr, amount) :: ws =>
    match addr ≫= stakeCredential, amount with
    | Some c, Some withdrawal =>
      if negb (fitsUint64 withdrawal) then drainLoop deregistered ws m
      else if negb (bool_decide (c ∈ deregistered)) then drainLoop deregistered ws m
      else
      '(st, m) ← loadStakeState c m;
      drainLoop deregistered ws
        (if withdrawal <=? csBalance st
         then <[c := mkStakeState (csRegistered st) (csDeposit st) (csBalance st - withdrawal)]> m else m)
    | _, _ => drainLoop deregistered ws m
    end
  end.

Definition markStakeRegistered (c : Credential) (m : gmap Credential certificateStakeState)
    : result conwayError (gmap Credential certificateStakeState) :=
  let registered := match m !! c with Some st => csRegistered st | None => IsStakeCredentialRegistered (lstate ls) c end in
  if registered then Err (StakeCredentialAlreadyRegistered c) else Ok (<[c := mkStakeState true keyDep 0]> m).

Definition registerStake (c : Credential) (supplied : Z) (m : gmap Credential certificateStakeState)
    : result conwayError (gmap Credential certificateStakeState) :=
  if negb (supplied =? keyDep) then Err (CertificateDepositIncorrect supplied keyDep) else markStakeRegistered c m.

Definition deregisterStake (c : Credential) (supplied : option Z) (m : gmap Credential certificateStakeState)
    : result conwayError (gmap Credential certificateStakeState) :=
  '(st, m) ← loadStakeState c m;
  if negb (csRegistered st) then Err (StakeCredentialNotRegistered c) else
  _ ← match supplied with
      | Some s => if negb (s =? csDeposit st) then Err (CertificateRefundIncorrect s (csDeposit st)) else Ok ()
      | None => Ok ()
      end;
  if negb (csBalance st =? 0) then Err (StakeCredentialNonZeroRewardBalance c (csBalance st))
  else Ok (<[c := mkStakeState false 0 (csBalance st)]> m).

Definition loadDRep (c : Credential) (m : gmap Credential (option DRepRegistrationR))
    : result conwayError (option DRepRegistrationR * gmap Credential (option DRepRegistrationR)) :=
  match m !! c with
  | Some st => Ok (st, m)
  | None => st ← ask (DRepRegistration (lstate ls) c); Ok (st, <[c := st]> m)
  end.

Abbreviation certStates := (gmap Credential certificateStakeState * gmap Credential (option DRepRegistrationR))%type.

Definition depositCertificateStep (s : certStates) (cert : BlockCertificate) : result conwayError certStates :=
  let '(m, d) := s in
  match cert with
  | StakeRegistrationCertificate c => m ← markStakeRegistered c m; Ok (m, d)
  | RegistrationCertificate c amount | StakeRegistrationDelegationCertificate c _ amount
  | VoteRegistrationDelegationCertificate c _ amount | StakeVoteRegistrationDelegationCertificate c _ _ amount =>
    m ← registerStake c amount m; Ok (m, d)
  | StakeDeregistrationCertificate c => m ← deregisterStake c None m; Ok (m, d)
  | DeregistrationCertificate c amount => m ← deregisterStake c (Some amount) m; Ok (m, d)
  | RegistrationDrepCertificate c amount _ =>
    if negb (amount =? drepDep) then Err (CertificateDepositIncorrect amount drepDep) else
    '(registration, d) ← loadDRep c d;
    match registration with
    | Some _ => Err (DRepAlreadyRegistered c)
    | None => Ok (m, <[c := Some (mkDRepReg c None (Some drepDep))]> d)
    end
  | DeregistrationDrepCertificate c amount =>
    '(registration, d) ← loadDRep c d;
    match registration with
    | None => Err (DRepNotRegistered c)
    | Some r =>
      match drDeposit r with
      | None => Err (DRepDepositStateInconsistent c)
      | Some dep => if negb (amount =? dep) then Err (CertificateRefundIncorrect amount dep) else Ok (m, <[c := None]> d)
      end
    end
  | UpdateDrepCertificate c _ =>
    '(registration, d) ← loadDRep c d;
    match registration with None => Err (DRepNotRegistered c) | Some _ => Ok (m, d) end
  | _ => Ok (m, d)
  end.

Fixpoint depositCertificateLoop (certs : list BlockCertificate) (s : certStates) : result conwayError certStates :=
  match certs with [] => Ok s | c :: certs => s ← depositCertificateStep s c; depositCertificateLoop certs s end.
End CertificateDeposits.

Definition UtxoValidateCertificateDeposits (tx : ConwayTransaction) (ls : ConwayState) (pp : ConwayProtocolParameters) : ccheck :=
  if negb (IsValid tx) then Ok () else
  if negb (fitsUint64 (keyDeposit pp)) then Err DepositParametersUnavailable else
  if negb (fitsUint64 (pDRepDeposit pp)) then Err DepositParametersUnavailable else
  m ← drainLoop ls (deregisteredCredentials (Certificates tx)) (default [] (Withdrawals tx)) ∅;
  _ ← depositCertificateLoop ls (keyDeposit pp) (pDRepDeposit pp) (Certificates tx) (m, ∅);
  Ok ().

(** ** Withdrawals *)

Definition ProtocolVersionDijkstra : Z := 12.

Fixpoint withdrawalVoteLoop (ls : ConwayState) (ws : list (option Address * option Z)) : ccheck :=
  match ws with
  | [] => Ok ()
  | (addr, _) :: ws =>
    match addr ≫= stakeCredential with
    | Some c =>
      if negb (fst c =? 0) then withdrawalVoteLoop ls ws else
      delegation ← ask (DRepDelegation (lstate ls) c);
      match delegation with
      | None => Err (WithdrawalNotDelegatedToDRep c)
      | Some _ => withdrawalVoteLoop ls ws
      end
    | None => withdrawalVoteLoop ls ws
    end
  end.

(** From Dijkstra on, amounts are exact only with a script of Plutus V1 or V2. *)
Definition exactMode (sv : ScriptView) (tx : ConwayTransaction) (ls : ConwayState) (pp : ConwayProtocolParameters)
    : result conwayError bool :=
  if ProtocolVersionDijkstra <=? major pp then
    let '(err, (v1, v2)) := sv tx ls in
    match err with Some e => Err e | None => Ok (v1 || v2) end
  else Ok true.

Definition shelleyWithdrawals (sv : ScriptView) (tx : ConwayTransaction) (ls : ConwayState) (pp : ConwayProtocolParameters) : ccheck :=
  match exactMode sv tx ls pp with
  | Ok exact => fromShelley (ShelleyRules.UtxoValidateWithdrawals (Ok exact) (shelleyTx tx) (shelleyState ls))
  | Err e =>
    match ShelleyRules.UtxoValidateWithdrawals (Err OtherRuleError) (shelleyTx tx) (shelleyState ls) with
    | Err OtherRuleError => Err e
    | r => fromShelley r
    end
  end.

Definition UtxoValidateWithdrawals (sv : ScriptView) (tx : ConwayTransaction) (ls : ConwayState) (pp : ConwayProtocolParameters) : ccheck :=
  if negb (IsValid tx) then Ok () else
  _ ← shelleyWithdrawals sv tx ls pp;
  let ws := default [] (Withdrawals tx) in
  if blen ws =? 0 then Ok () else
  if (major pp <? ProtocolVersionPlomin) || (ProtocolVersionDijkstra <=? major pp) then Ok ()
  else withdrawalVoteLoop ls ws.

(** ** Collateral *)

Definition ResolveInputUtxo (ls : ConwayState) (i : TransactionInput) : result conwayError ConwayOutput :=
  match UtxoById (lstate ls) i with Ok o => Ok o | Err _ => Err (InputResolution i) end.

Fixpoint collateralSum (ls : ConwayState) (ins : list TransactionInput) (total : Z) : result conwayError Z :=
  match ins with
  | [] => Ok total
  | i :: ins => o ← ResolveInputUtxo ls i; collateralSum ls ins (total + default 0 (outAmount o))
  end.

Definition returned (tx : ConwayTransaction) : Z := default 0 (o ← CollateralReturn tx; outAmount o).

Definition ValidateInsufficientCollateral (totalCollateral fee percentage : Z) : ccheck :=
  if fee * percentage <=? totalCollateral * 100 then Ok ()
  else Err (InsufficientCollateral (if fitsUint64 totalCollateral then totalCollateral else 0)
              (let required := (fee * percentage + 99) / 100 in if fitsUint64 required then required else 0)).

Definition UtxoValidateInsufficientCollateral (tx : ConwayTransaction) (ls : ConwayState) (pp : ConwayProtocolParameters) : ccheck :=
  if negb (HasRedeemers tx) then Ok () else
  total ← collateralSum ls (Collateral tx) 0;
  ValidateInsufficientCollateral (total - returned tx) (default 0 (Fee tx)) (pCollateralPercentage pp).

Fixpoint collateralAssets (ls : ConwayState) (ins : list TransactionInput) (total : MultiAsset) : result conwayError MultiAsset :=
  match ins with
  | [] => Ok total
  | i :: ins => o ← ResolveInputUtxo ls i; collateralAssets ls ins (Add total (outAssets o))
  end.

Definition UtxoValidateCollateralContainsNonAda (tx : ConwayTransaction) (ls : ConwayState) : ccheck :=
  if negb (HasRedeemers tx) then Ok () else
  totalAssets ← collateralAssets ls (Collateral tx) ∅;
  if Compare totalAssets (o ← CollateralReturn tx; outAssets o) then Ok () else Err CollateralContainsNonAda.

Definition UtxoValidateCollateralEqBalance (tx : ConwayTransaction) (ls : ConwayState) : ccheck :=
  if negb (HasRedeemers tx) then Ok () else
  match TotalCollateral tx with
  | None => Ok ()
  | Some total =>
    collBalance ← collateralSum ls (Collateral tx) 0;
    let u n := if fitsUint64 n then n else 0 in
    match CollateralReturn tx ≫= outAmount with
    | Some returnAmount =>
      if collBalance <? returnAmount then Err (IncorrectTotalCollateralField 0 (u total))
      else if total =? collBalance - returnAmount then Ok ()
      else Err (IncorrectTotalCollateralField (u (collBalance - returnAmount)) (u total))
    | None => if total =? collBalance then Ok () else Err (IncorrectTotalCollateralField (u collBalance) (u total))
    end
  end.

Definition UtxoValidateNoCollateralInputs (tx : ConwayTransaction) : ccheck :=
  if negb (HasRedeemers tx) then Ok () else if 0 <? blen (Collateral tx) then Ok () else Err NoCollateralInputs.

Definition UtxoValidateTooManyCollateralInputs (tx : ConwayTransaction) (pp : ConwayProtocolParameters) : ccheck :=
  let collateralCount := blen (Collateral tx) in
  if collateralCount <=? pMaxCollateralInputs pp then Ok () else Err (TooManyCollateralInputs collateralCount (pMaxCollateralInputs pp)).

Definition UtxoValidateIsValidFlag (tx : ConwayTransaction) : ccheck :=
  if IsValid tx then Ok () else if HasRedeemers tx then Ok () else Err InvalidIsValidFlag.

(** The reference inputs that are inputs too, each once. *)
Fixpoint overlapLoop (inputs refs seen : list TransactionInput) : list TransactionInput :=
  match refs with
  | [] => []
  | r :: refs =>
    if bool_decide (r ∈ inputs) && negb (bool_decide (r ∈ seen)) then r :: overlapLoop inputs refs (r :: seen)
    else overlapLoop inputs refs seen
  end.

Definition UtxoValidateDisjointRefInputs (tx : ConwayTransaction) (pp : ConwayProtocolParameters) : ccheck :=
  if ProtocolVersionVanRossem <=? major pp then Ok () else
  let commonInputs := overlapLoop (Inputs tx) (ReferenceInputs tx) [] in
  if blen commonInputs =? 0 then Ok () else Err (NonDisjointRefInputs commonInputs).

Fixpoint UtxoValidateProposalDeposit (ps : list ProposalProcedure) (pp : ConwayProtocolParameters) : ccheck :=
  match ps with
  | [] => Ok ()
  | p :: ps =>
    if negb (PPDeposit p =? pGovActionDeposit pp) then Err (ProposalDepositIncorrect (PPDeposit p) (pGovActionDeposit pp))
    else UtxoValidateProposalDeposit ps pp
  end.

(** ** Delegation *)

Definition isInConwayBootstrapPhase (pp : ConwayProtocolParameters) : bool :=
  (ProtocolVersionConway <=? major pp) && (major pp <? ProtocolVersionPlomin).

(** What earlier certificates of the transaction changed. *)
Record delegationState := mkDelegation {
  inTxStakeState : gmap Credential bool;
  inTxPoolRegs : gset PoolKeyHash;
  inTxDRepRegs : gmap Credential bool;
  inTxVrfKeys : gmap VrfKeyHash PoolKeyHash;
  inTxPoolVrfKeys : gmap PoolKeyHash VrfKeyHash;
  inTxPoolActiveVrfKeys : gmap PoolKeyHash VrfKeyHash
}.

Section Delegation.
Context (ls : ConwayState) (pp : ConwayProtocolParameters).

Definition with_stake m s := mkDelegation m (inTxPoolRegs s) (inTxDRepRegs s) (inTxVrfKeys s) (inTxPoolVrfKeys s) (inTxPoolActiveVrfKeys s).
Definition with_dreps m s := mkDelegation (inTxStakeState s) (inTxPoolRegs s) m (inTxVrfKeys s) (inTxPoolVrfKeys s) (inTxPoolActiveVrfKeys s).

Definition isStakeRegistered (s : delegationState) (c : Credential) : bool :=
  match inTxStakeState s !! c with Some r => r | None => IsStakeCredentialRegistered (lstate ls) c end.

Definition registerStakeCredential (c : Credential) (s : delegationState) : result conwayError delegationState :=
  if isStakeRegistered s c then Err (StakeCredentialAlreadyRegistered c)
  else Ok (with_stake (<[c := true]> (inTxStakeState s)) s).

Definition isPoolRegistered (s : delegationState) (p : PoolKeyHash) : bool :=
  IsPoolRegistered (lstate ls) p || bool_decide (p ∈ inTxPoolRegs s).

Definition DrepTypeAbstain : Z := 2.
Definition DrepTypeNoConfidence : Z := 3.

Definition drepTypeToCredType (t : Z) : result conwayError Z :=
  if t =? DrepTypeAddrKeyHash then Ok 0 else if t =? DrepTypeScriptHash then Ok 1 else Err (InvalidDRepType t).

Definition isDRepRegistered (s : delegationState) (d : Drep) : result conwayError bool :=
  if (drepType d =? DrepTypeAbstain) || (drepType d =? DrepTypeNoConfidence) then Ok true
  else if (drepType d =? DrepTypeAddrKeyHash) || (drepType d =? DrepTypeScriptHash) then
    if negb (blen (drepCredential d) =? 28) then Ok false else
    credType ← drepTypeToCredType (drepType d);
    match inTxDRepRegs s !! (credType, drepCredential d) with
    | Some registered => Ok registered
    | None => reg ← ask (DRepRegistration (lstate ls) (credType, drepCredential d)); Ok (bool_decide (reg <> None))
    end
  else Err (InvalidDRepType (drepType d)).

Definition validateDRepTarget (s : delegationState) (d : Drep) : ccheck :=
  if isInConwayBootstrapPhase pp then Ok () else
  registered ← isDRepRegistered s d;
  if registered : bool then Ok () else
  credType ← drepTypeToCredType (drepType d);
  Err (VoteToUnregisteredDRep (credType, drepCredential d)).

Definition PoolValidateVrfKeyUniqueness (cert : PoolRegistrationCertificate) : ccheck :=
  if negb (ProtocolVersionVanRossem <=? major pp) then Ok () else
  '(inUse, existing) ← ask (IsVrfKeyInUse (lstate ls) (RegVrfKeyHash cert));
  if negb inUse || bool_decide (existing = Operator cert) then Ok ()
  else Err (DuplicateVrfKey (RegVrfKeyHash cert) (Operator cert) existing).

(** The registration of a pool: from protocol version 11 on, no two pools share
    a VRF key. *)
Definition delegatePool (cert : PoolRegistrationCertificate) (s : delegationState) : result conwayError delegationState :=
  let op := Operator cert in let v := RegVrfKeyHash cert in
  let regs := {[op]} ∪ inTxPoolRegs s in
  if negb (ProtocolVersionVanRossem <=? major pp)
  then Ok (mkDelegation (inTxStakeState s) regs (inTxDRepRegs s) (inTxVrfKeys s) (inTxPoolVrfKeys s) (inTxPoolActiveVrfKeys s)) else
  active ←
    match inTxPoolActiveVrfKeys s !! op with
    | Some _ => Ok (inTxPoolActiveVrfKeys s)
    | None =>
      '(current, _) ← ask (PoolCurrentState (lstate ls) op);
      Ok (<[op := match current with None => v | Some cur => RegVrfKeyHash cur end]> (inTxPoolActiveVrfKeys s))
    end;
  let keys :=
    match inTxPoolVrfKeys s !! op with
    | Some previousKey =>
      if bool_decide (previousKey <> v) && bool_decide (Some previousKey <> active !! op) &&
         bool_decide (inTxVrfKeys s !! previousKey = Some op)
      then delete previousKey (inTxVrfKeys s) else inTxVrfKeys s
    | None => inTxVrfKeys s
    end in
  _ ← match keys !! v with
      | Some existing => if bool_decide (existing <> op) then Err (DuplicateVrfKey v op existing) else Ok ()
      | None => Ok ()
      end;
  _ ← PoolValidateVrfKeyUniqueness cert;
  Ok (mkDelegation (inTxStakeState s) regs (inTxDRepRegs s) (<[v := op]> keys) (<[op := v]> (inTxPoolVrfKeys s)) active).

Definition requirePool (s : delegationState) (p : PoolKeyHash) : ccheck :=
  if isPoolRegistered s p then Ok () else Err (ToUnregisteredPool p).
Definition requireStake (s : delegationState) (c : Credential) : ccheck :=
  if isStakeRegistered s c then Ok () else Err (OfUnregisteredCredential c).

Definition delegationStep (s : delegationState) (cert : BlockCertificate) : result conwayError delegationState :=
  match cert with
  | RegistrationCertificate c _ | StakeRegistrationCertificate c => registerStakeCredential c s
  | PoolRegistrationCert reg => delegatePool reg s
  | RegistrationDrepCertificate c _ _ => Ok (with_dreps (<[c := true]> (inTxDRepRegs s)) s)
  | StakeDeregistrationCertificate c | DeregistrationCertificate c _ => Ok (with_stake (<[c := false]> (inTxStakeState s)) s)
  | DeregistrationDrepCertificate c _ => Ok (with_dreps (<[c := false]> (inTxDRepRegs s)) s)
  | StakeDelegationCertificate c p => _ ← requirePool s p; _ ← requireStake s c; Ok s
  | VoteDelegationCertificate c d => _ ← requireStake s c; _ ← validateDRepTarget s d; Ok s
  | StakeVoteDelegationCertificate c p d =>
    _ ← requirePool s p; _ ← requireStake s c; _ ← validateDRepTarget s d; Ok s
  | StakeRegistrationDelegationCertificate c p _ => s ← registerStakeCredential c s; _ ← requirePool s p; Ok s
  | VoteRegistrationDelegationCertificate c d _ => s ← registerStakeCredential c s; _ ← validateDRepTarget s d; Ok s
  | StakeVoteRegistrationDelegationCertificate c p d _ =>
    s ← registerStakeCredential c s; _ ← requirePool s p; _ ← validateDRepTarget s d; Ok s
  | _ => Ok s
  end.

Fixpoint delegationStepLoop (certs : list BlockCertificate) (s : delegationState) : ccheck :=
  match certs with [] => Ok () | c :: certs => s ← delegationStep s c; delegationStepLoop certs s end.
End Delegation.

Definition UtxoValidateDelegation (tx : ConwayTransaction) (ls : ConwayState) (pp : ConwayProtocolParameters) : ccheck :=
  if negb (IsValid tx) then Ok ()
  else delegationStepLoop ls pp (Certificates tx) (mkDelegation ∅ ∅ ∅ ∅ ∅ ∅).

(** ** The rules of the era, in order *)

Inductive RuleId :=
| CurrentTreasuryValue | Metadata | ProposalProceduresRule | GovActionWellFormedness | HardForkCanFollow
| ProposalAncestry | ProposalDeposit | ProposalNetworkIds | ProposalReturnAccounts | EmptyTreasuryWithdrawalsRule
| BootstrapAllowedGovActions | ProposalReturnAddressShape | IsValidFlag | RequiredVKeyWitnesses
| CollateralVKeyWitnesses | CollateralKeyLocked | RedeemerAndScriptWitnesses | Signatures | CostModelsPresent
| ScriptDataHash | InlineDatumsWithPlutusV1 | ConwayFeaturesWithPlutusV1V2 | DisjointRefInputs
| OutsideValidityInterval | OutsideForecast | InputSetEmptyRule | NoDuplicateInputs | FeeTooSmallRule
| InsufficientCollateralRule | CollateralContainsNonAdaRule | CollateralEqBalance | NoCollateralInputsRule | BadInputsRule
| ScriptWitnesses | RequiredRedeemers | ValueNotConservedRule | OutputTooSmallRule | OutputTooBig
| OutputBootAddrAttrsTooBig | WrongNetworkRule | WrongNetworkWithdrawalRule | TransactionNetworkId | MaxTxSize
| ExUnitsTooBig | TooManyCollateralInputsRule | SupplementalDatums | ExtraneousRedeemers | MalformedReferenceScripts
| PlutusScripts | NativeScripts | Delegation | WithdrawalsRule | CertificateDeposits | CommitteeCertificates
| UnknownVoters | UnknownGovActionIds | VotingOnExpired | BootstrapVotingRestrictions
| StakePoolVotingRestrictions | CCVotingRestrictions | UnelectedCommitteeVoters | RefScriptSizePerTx | PoolCertificates.

(** The groups: those of [false] always run, those of [true] only for a
    transaction whose scripts passed. *)
Definition ruleGroups : list (bool * list RuleId) :=
  [ (false, [CurrentTreasuryValue]); (false, [Metadata]); (true, [ProposalProceduresRule]); (false, [GovActionWellFormedness]);
    (true, [HardForkCanFollow; ProposalAncestry; ProposalDeposit; ProposalNetworkIds; ProposalReturnAccounts;
            EmptyTreasuryWithdrawalsRule; BootstrapAllowedGovActions]);
    (false, [ProposalReturnAddressShape]);
    (false, [IsValidFlag; RequiredVKeyWitnesses; CollateralVKeyWitnesses; CollateralKeyLocked]);
    (false, [RedeemerAndScriptWitnesses; Signatures; CostModelsPresent; ScriptDataHash; InlineDatumsWithPlutusV1;
             ConwayFeaturesWithPlutusV1V2; DisjointRefInputs; OutsideValidityInterval; OutsideForecast; InputSetEmptyRule;
             NoDuplicateInputs; FeeTooSmallRule; InsufficientCollateralRule; CollateralContainsNonAdaRule; CollateralEqBalance;
             NoCollateralInputsRule; BadInputsRule; ScriptWitnesses; RequiredRedeemers; ValueNotConservedRule; OutputTooSmallRule;
             OutputTooBig; OutputBootAddrAttrsTooBig; WrongNetworkRule; WrongNetworkWithdrawalRule; TransactionNetworkId;
             MaxTxSize; ExUnitsTooBig; TooManyCollateralInputsRule; SupplementalDatums; ExtraneousRedeemers;
             MalformedReferenceScripts; PlutusScripts; NativeScripts]);
    (true, [Delegation; WithdrawalsRule; CertificateDeposits; CommitteeCertificates; UnknownVoters; UnknownGovActionIds;
            VotingOnExpired; BootstrapVotingRestrictions; StakePoolVotingRestrictions; CCVotingRestrictions;
            UnelectedCommitteeVoters; RefScriptSizePerTx; PoolCertificates]) ].

Abbreviation Rule := (ConwayTransaction -> Z -> ConwayState -> ConwayProtocolParameters -> result conwayError unit).

(** [other] stands for the rules that are not modelled. *)
Definition ruleFunc (sv : ScriptView) (other : RuleId -> Rule) (r : RuleId) : Rule :=
  match r with
  | ProposalDeposit => fun tx _ _ pp => UtxoValidateProposalDeposit (ProposalProcedures tx) pp
  | IsValidFlag => fun tx _ _ _ => UtxoValidateIsValidFlag tx
  | DisjointRefInputs => fun tx _ _ pp => UtxoValidateDisjointRefInputs tx pp
  | InputSetEmptyRule => fun tx _ _ _ => fromShelley (UtxoValidateInputSetEmptyUtxo (shelleyTx tx))
  | NoDuplicateInputs => fun tx _ _ _ => fromShelley (UtxoValidateNoDuplicateInputs (shelleyTx tx))
  | InsufficientCollateralRule => fun tx _ ls pp => UtxoValidateInsufficientCollateral tx ls pp
  | CollateralContainsNonAdaRule => fun tx _ ls _ => UtxoValidateCollateralContainsNonAda tx ls
  | CollateralEqBalance => fun tx _ ls _ => UtxoValidateCollateralEqBalance tx ls
  | NoCollateralInputsRule => fun tx _ _ _ => UtxoValidateNoCollateralInputs tx
  | TooManyCollateralInputsRule => fun tx _ _ pp => UtxoValidateTooManyCollateralInputs tx pp
  | BadInputsRule => fun tx _ ls _ => fromShelley (UtxoValidateBadInputsUtxo (shelleyTx tx) (shelleyState ls))
  | ValueNotConservedRule => fun tx slot ls pp => UtxoValidateValueNotConservedUtxo sv tx slot ls pp
  | WrongNetworkRule => fun tx _ ls _ => fromShelley (UtxoValidateWrongNetwork (shelleyTx tx) (shelleyState ls))
  | WrongNetworkWithdrawalRule => fun tx _ ls _ => fromShelley (UtxoValidateWrongNetworkWithdrawal (shelleyTx tx) (shelleyState ls))
  | Delegation => fun tx _ ls pp => UtxoValidateDelegation tx ls pp
  | WithdrawalsRule => fun tx _ ls pp => UtxoValidateWithdrawals sv tx ls pp
  | CertificateDeposits => fun tx _ ls pp => UtxoValidateCertificateDeposits tx ls pp
  | PoolCertificates => fun tx slot ls pp =>
      fromShelley (UtxoValidatePoolCertificates (shelleyTx tx) slot (shelleyState ls) (shelleyParams pp))
  | r => other r
  end.

Definition ComposeUtxoValidationRules (func : RuleId -> Rule) (groups : list (bool * list RuleId)) : list Rule :=
  groups ≫= fun '(phase2ValidOnly, rules) =>
    if phase2ValidOnly : bool then (fun r tx slot ls pp => if negb (IsValid tx) then Ok () else func r tx slot ls pp) <$> rules
    else func <$> rules.

Definition UtxoValidationRules (sv : ScriptView) (other : RuleId -> Rule) : list Rule :=
  ComposeUtxoValidationRules (ruleFunc sv other) ruleGroups.

Fixpoint verifyRules (i : Z) (rules : list Rule) (tx : ConwayTransaction) (slot : Z) (ls : ConwayState)
    (pp : ConwayProtocolParameters) : result (Z * conwayError) unit :=
  match rules with
  | [] => Ok ()
  | rule :: rules => match rule tx slot ls pp with Err e => Err (i, e) | Ok _ => verifyRules (i + 1) rules tx slot ls pp end
  end.

(** ** The transactions of a block *)

Definition Consumed (tx : ConwayTransaction) : list TransactionInput := if IsValid tx then Inputs tx else Collateral tx.

Definition Produced (tx : ConwayTransaction) : list (TransactionInput * ConwayOutput) :=
  if IsValid tx then imap (fun idx o => ((Hash tx, u32 (Z.of_nat idx)), o)) (Outputs tx)
  else match CollateralReturn tx with
       | None => []
       | Some o => [((Hash tx, u32 (blen (Outputs tx))), o)]
       end.

Definition blockTx (tx : ConwayTransaction) : @BlockTransaction ConwayOutput :=
  mkBlockTx (Hash tx) (Consumed tx) (Produced tx) (IsValid tx)
    (mkLevel (Hash tx) (default [] (Withdrawals tx)) (Certificates tx) [] (PPGovAction <$> ProposalProcedures tx)) None.

Definition viewOf (base : ConwayState) (b : @BlockLedgerState ConwayOutput) : ConwayState :=
  mkConwayState (view (lstate base) b) (network base) (epochForSlot base) (govView b (gov base)).

Inductive verifyError := RuleFailed (rule : Z) (e : conwayError) | ApplyFailed (e : blockError).

Fixpoint verifyBlockLoop (idx : Z) (rules : list Rule) (txs : list ConwayTransaction) (slot : Z) (base : ConwayState)
    (pp : ConwayProtocolParameters) (b : BlockLedgerState) : result (Z * verifyError) BlockLedgerState :=
  match txs with
  | [] => Ok b
  | tx :: txs =>
    match verifyRules 0 rules tx slot (viewOf base b) pp with
    | Err (r, e) => Err (idx, RuleFailed r e)
    | Ok _ =>
      match ApplyTransaction (lstate base) (Some (Some (keyDeposit pp))) (blockTx tx) b with
      | (Err e, _) => Err (idx, ApplyFailed e)
      | (Ok _, b) => verifyBlockLoop (idx + 1) rules txs slot base pp b
      end
    end
  end.

Definition verifyBlockTransactions (rules : list Rule) (txs : list ConwayTransaction) (slot : Z) (base : ConwayState)
    (pp : ConwayProtocolParameters) : result (Z * verifyError) BlockLedgerState :=
  verifyBlockLoop 0 rules txs slot base pp NewBlockLedgerState.
