(* ===== verification/ConwayLedger.v ===== *)
(** * What the Conway rules guarantee

    The rule on certificate deposits accepts exactly the certificates that fit
    the ledger; a block that the rules accept conserves ada and every asset. *)

From S2P Require Import Prelude Scripts ShelleyRules Params ShelleyLedger MultiAsset BlockState Conway.
#[local] Open Scope Z_scope.

Abbreviation CLedger := (@BLedger ConwayOutput).
Implicit Types (L : @BLedger ConwayOutput) (c : Credential) (cert : BlockCertificate).

(** ** Deposits of certificates *)

Record accounts_wf (L : CLedger) : Prop := {
  aw_balance c : c ∈ lStake L <-> is_Some (lBalance L !! c);
  aw_deposit c : c ∈ lStake L <-> is_Some (lDeposit L !! c)
}.

(** What a certificate needs of the ledger: a credential or DRep to register is
    new and pays the deposit in force, one to deregister is there, is refunded
    what it paid and leaves no rewards behind. *)
Definition cert_ok (kd dd : Z) (L : CLedger) (cert : BlockCertificate) : Prop :=
  match cert with
  | StakeRegistrationCertificate c => c ∉ lStake L
  | RegistrationCertificate c amount | StakeRegistrationDelegationCertificate c _ amount
  | VoteRegistrationDelegationCertificate c _ amount | StakeVoteRegistrationDelegationCertificate c _ _ amount =>
    amount = kd /\ c ∉ lStake L
  | StakeDeregistrationCertificate c => c ∈ lStake L /\ lBalance L !! c = Some 0
  | DeregistrationCertificate c amount => c ∈ lStake L /\ lDeposit L !! c = Some amount /\ lBalance L !! c = Some 0
  | RegistrationDrepCertificate c amount _ => amount = dd /\ lDRep L !! c = None
  | DeregistrationDrepCertificate c amount => drDeposit <$> lDRep L !! c = Some (Some amount)
  | UpdateDrepCertificate c _ => is_Some (lDRep L !! c)
  | _ => True
  end.

Fixpoint certs_ok (kd dd : Z) (L : CLedger) (certs : list BlockCertificate) : Prop :=
  match certs with [] => True | c :: certs => cert_ok kd dd L c /\ certs_ok kd dd (certify kd L c) certs end.

(** *** What certificates do to accounts and DReps *)

Inductive accountEffect := Register (c : Credential) (d : Z) | Deregister (c : Credential) | Keep.
Inductive drepEffect := RegisterDRep (c : Credential) (d : Z) | DeregisterDRep (c : Credential) | KeepDRep.

Definition accountEffectOf (kd : Z) (cert : BlockCertificate) : accountEffect :=
  match cert with
  | StakeRegistrationCertificate c => Register c kd
  | RegistrationCertificate c amount | StakeRegistrationDelegationCertificate c _ amount
  | VoteRegistrationDelegationCertificate c _ amount | StakeVoteRegistrationDelegationCertificate c _ _ amount => Register c amount
  | StakeDeregistrationCertificate c | DeregistrationCertificate c _ => Deregister c
  | _ => Keep
  end.

Definition drepEffectOf (cert : BlockCertificate) : drepEffect :=
  match cert with
  | RegistrationDrepCertificate c amount _ => RegisterDRep c amount
  | DeregistrationDrepCertificate c _ => DeregisterDRep c
  | _ => KeepDRep
  end.

(** The deposits of the DReps. *)
Definition drepDeposits (L : CLedger) : gmap Credential (option Z) := drDeposit <$> lDRep L.

Lemma lDRep_none L c : lDRep L !! c = None <-> drepDeposits L !! c = None.
Proof. unfold drepDeposits. rewrite lookup_fmap. by destruct (lDRep L !! c). Qed.

Lemma certify_accounts kd (L : CLedger) cert :
  let L' := certify kd L cert in
  match accountEffectOf kd cert with
  | Register c d => lStake L' = {[c]} ∪ lStake L /\ lBalance L' = <[c := 0]> (lBalance L) /\ lDeposit L' = <[c := d]> (lDeposit L)
  | Deregister c => lStake L' = lStake L ∖ {[c]} /\ lBalance L' = delete c (lBalance L) /\ lDeposit L' = delete c (lDeposit L)
  | Keep => lStake L' = lStake L /\ lBalance L' = lBalance L /\ lDeposit L' = lDeposit L
  end.
Proof.
  destruct cert; try done; cbn.
  - unfold lpool. by destruct (lPool L !! _).
  - by destruct (lDRep L !! c).
Qed.

Lemma certify_dreps kd (L : CLedger) cert :
  drepDeposits (certify kd L cert) =
  match drepEffectOf cert with
  | RegisterDRep c d => <[c := Some d]> (drepDeposits L)
  | DeregisterDRep c => delete c (drepDeposits L)
  | KeepDRep => drepDeposits L
  end.
Proof.
  unfold drepDeposits. destruct cert; try done; cbn.
  - unfold lpool. by destruct (lPool L !! _).
  - by rewrite fmap_insert.
  - by rewrite fmap_delete.
  - destruct (lDRep L !! c) as [r|] eqn:E; [|done]. cbn. rewrite fmap_insert. cbn. apply insert_id.
    by rewrite lookup_fmap, E.
Qed.

Lemma certify_wf kd L cert : accounts_wf L -> accounts_wf (certify kd L cert).
Proof.
  intros [WB WD]. pose proof (certify_accounts kd L cert) as H. cbn zeta in H.
  destruct (accountEffectOf kd cert) as [c d|c|]; destruct H as (HS & HB & HD); split; intros c'; rewrite HS, ?HB, ?HD;
    try apply WB; try apply WD; destruct (decide (c' = c)) as [->|N].
  1,3: rewrite lookup_insert_eq; split; [by eexists|set_solver].
  1,2: rewrite lookup_insert_ne by done; first [rewrite <- WB|rewrite <- WD]; set_solver.
  1,3: rewrite lookup_delete_eq; split; [set_solver|by intros [? [=]]].
  1,2: rewrite lookup_delete_ne by done; first [rewrite <- WB|rewrite <- WD]; set_solver.
Qed.

(** *** Withdrawals *)

(** A withdrawal that the ledger can pay. *)
Definition payable (L : CLedger) (w : option Address * option Z) : Prop :=
  exists c amount bal, RewardAccountCredential (fst w) = Ok c /\ snd w = Some amount /\ 0 <= amount <= MaxUint64 /\
    lBalance L !! c = Some bal /\ amount <= bal.

Lemma withdraw_payable L w c amount bal :
  RewardAccountCredential (fst w) = Ok c -> snd w = Some amount -> 0 <= amount <= MaxUint64 ->
  lBalance L !! c = Some bal -> amount <= bal -> withdraw L w = lset_balance c (bal - amount) L.
Proof.
  intros E1 E2 H1 E3 H2. unfold withdraw. rewrite E1, E3. unfold remainder. rewrite E2.
  by rewrite (proj2 (Z.leb_le 0 amount)), (proj2 (Z.leb_le amount MaxUint64)), (proj2 (Z.leb_le amount bal)) by lia.
Qed.

(** The other withdrawals of a list stay payable. *)
Lemma payable_rest L w ws c n :
  RewardAccountCredential (fst w) = Ok c -> NoDup ((fun w => credOf (fst w)) <$> w :: ws) ->
  Forall (payable L) ws -> Forall (payable (lset_balance c n L)) ws.
Proof.
  intros E Hn Hf. rewrite fmap_cons in Hn. apply NoDup_cons in Hn as [Hn _]. apply Forall_forall. intros w' Hw.
  rewrite Forall_forall in Hf. destruct (Hf w' Hw) as (c' & amount & bal & E1 & E2 & H1 & E3 & H2).
  exists c', amount, bal. split_and!; try done; try lia. cbn. rewrite lookup_insert_ne; [done|]. intros <-.
  destruct Hn. apply list_elem_of_fmap. exists w'. split; [|done]. unfold credOf. by rewrite E, E1.
Qed.

Lemma balance_wf L c bal n : accounts_wf L -> lBalance L !! c = Some bal -> accounts_wf (lset_balance c n L).
Proof.
  intros [WB WD] E. split; cbn; [|done]. intros c'. rewrite WB. destruct (decide (c' = c)) as [->|N].
  - rewrite lookup_insert_eq, E. split; by eexists.
  - by rewrite lookup_insert_ne.
Qed.

(** What withdrawals change: balances, by the amounts. *)
Lemma withdrawals_fields ws : forall L, Forall (payable L) ws -> NoDup ((fun w => credOf (fst w)) <$> ws) -> accounts_wf L ->
  let L' := foldl withdraw L ws in
  accounts_wf L' /\ msum (lBalance L') = msum (lBalance L) - sum_by (fun w => default 0 (snd w)) ws /\
  exists ba, L' = lset_accounts (lStake L) (lReward L) ba (lDeposit L) (lVote L) L.
Proof.
  induction ws as [|w ws IH]; intros L Hf Hn W; cbn [foldl sum_by].
  - split; [done|]. split; [lia|]. exists (lBalance L). by destruct L.
  - apply Forall_cons in Hf as [(c & amount & bal & E1 & E2 & H1 & E3 & H2) Hf].
    rewrite (withdraw_payable L w c amount bal) by done. pose proof (payable_rest L w ws c (bal - amount) E1 Hn Hf) as Hf'.
    rewrite fmap_cons in Hn. apply NoDup_cons in Hn as [_ Hn].
    destruct (IH _ Hf' Hn (balance_wf L c bal _ W E3)) as (W' & S & ba & E). split; [done|]. split.
    + rewrite S, E2. cbn. rewrite msum_insert, E3. cbn. lia.
    + exists ba. rewrite E. done.
Qed.

(** *** What the rule has read and changed *)

Section DepositRule.
Context (ls : ConwayState) (L0 : CLedger) (R : reports (lstate ls) L0) (W0 : accounts_wf L0) (kd dd : Z) (dereg : gset Credential).

#[local] Set Default Proof Using "All".

Abbreviation stakeMap := (gmap Credential certificateStakeState).
Abbreviation drepMap := (gmap Credential (option DRepRegistrationR)).

(** A credential that the rule has met is as it is now; one it has not is as it
    was. Balances matter only for credentials that a certificate deregisters. *)
Definition seen_as (L : CLedger) (c : Credential) (st : certificateStakeState) : Prop :=
  (csRegistered st = true <-> c ∈ lStake L) /\ (csRegistered st = true -> lDeposit L !! c = Some (csDeposit st)) /\
  (c ∈ dereg -> csRegistered st = true -> lBalance L !! c = Some (csBalance st)).

Definition account_seen (m : stakeMap) (L : CLedger) (c : Credential) : Prop :=
  match m !! c with
  | Some st => seen_as L c st
  | None => (c ∈ lStake L <-> c ∈ lStake L0) /\ lDeposit L !! c = lDeposit L0 !! c /\ (c ∈ dereg -> lBalance L !! c = lBalance L0 !! c)
  end.

Definition drep_seen (d : drepMap) (L : CLedger) (c : Credential) : Prop :=
  match d !! c with
  | Some st => drDeposit <$> st = drepDeposits L !! c
  | None => drepDeposits L !! c = drepDeposits L0 !! c
  end.

Lemma account_seen_insert (m : stakeMap) L L' c st :
  (forall c', account_seen m L c') -> seen_as L' c st ->
  (forall c', c' <> c -> (c' ∈ lStake L' <-> c' ∈ lStake L) /\ lDeposit L' !! c' = lDeposit L !! c' /\
                         (c' ∈ dereg -> lBalance L' !! c' = lBalance L !! c')) ->
  forall c', account_seen (<[c := st]> m) L' c'.
Proof.
  intros H Hc Ho c'. unfold account_seen. destruct (decide (c' = c)) as [->|N]; [by rewrite lookup_insert_eq|].
  rewrite lookup_insert_ne by done. specialize (H c'). unfold account_seen in H. destruct (Ho c' N) as (A & B & C).
  destruct (m !! c') as [st'|].
  - destruct H as (H1 & H2 & H3). split_and!; [by rewrite A|by rewrite B|]. intros Hd. rewrite C by done. by apply H3.
  - destruct H as (H1 & H2 & H3). split_and!; [by rewrite A|by rewrite B|]. intros Hd. rewrite C by done. by apply H3.
Qed.

Lemma loadStakeState_seen (m : stakeMap) L c :
  (forall c', account_seen m L c') ->
  exists st, loadStakeState ls c m = Ok (st, <[c := st]> m) /\ seen_as L c st /\ forall c', account_seen (<[c := st]> m) L c'.
Proof.
  intros H. assert (K : exists st, loadStakeState ls c m = Ok (st, <[c := st]> m) /\ seen_as L c st).
  { pose proof (H c) as Hc. unfold account_seen in Hc. unfold loadStakeState.
    destruct (m !! c) as [st|] eqn:E; [exists st; by rewrite insert_id|].
    destruct Hc as (H1 & H2 & H3). rewrite (r_stake _ _ R). destruct (bool_decide_reflect (c ∈ lStake L0)) as [I|I].
    - rewrite (r_deposit _ _ R), (r_balance _ _ R). cbn.
      destruct (proj1 (aw_deposit _ W0 c) I) as [d Hd], (proj1 (aw_balance _ W0 c) I) as [b Hb].
      rewrite Hd. cbn. rewrite Hb. cbn. eexists. split; [done|]. split_and!; cbn.
      + naive_solver.
      + intros _. by rewrite H2.
      + intros Hc _. by rewrite H3.
    - eexists. split; [done|]. split_and!; cbn; [naive_solver|done|done]. }
  destruct K as (st & E & S). exists st. split_and!; [done|done|]. by apply (account_seen_insert m L).
Qed.

Lemma markStakeRegistered_seen (m : stakeMap) L c :
  account_seen m L c ->
  markStakeRegistered ls kd c m = if decide (c ∈ lStake L) then Err (StakeCredentialAlreadyRegistered c)
                                  else Ok (<[c := mkStakeState true kd 0]> m).
Proof.
  intros H. unfold markStakeRegistered. unfold account_seen in H.
  assert (E : match m !! c with Some st => csRegistered st | None => IsStakeCredentialRegistered (lstate ls) c end
    = bool_decide (c ∈ lStake L)).
  { destruct (m !! c) as [st|].
    - destruct H as (H1 & _). destruct (csRegistered st); symmetry; [by apply bool_decide_true, H1|apply bool_decide_false].
      intros I. by apply H1 in I.
    - rewrite (r_stake _ _ R). apply bool_decide_ext. symmetry. apply H. }
  rewrite E. destruct (bool_decide_reflect (c ∈ lStake L)), (decide (c ∈ lStake L)); done.
Qed.

Lemma account_registered (m : stakeMap) L L' c d :
  (forall c', account_seen m L c') ->
  lStake L' = {[c]} ∪ lStake L /\ lBalance L' = <[c := 0]> (lBalance L) /\ lDeposit L' = <[c := d]> (lDeposit L) ->
  forall c', account_seen (<[c := mkStakeState true d 0]> m) L' c'.
Proof.
  intros H (HS & HB & HD). apply (account_seen_insert m L); [done| |].
  - split_and!; cbn; [rewrite HS; set_solver|by rewrite HD, lookup_insert_eq|by rewrite HB, lookup_insert_eq].
  - intros c' N. rewrite HS, HB, HD, !lookup_insert_ne by done. split_and!; [set_solver|done|done].
Qed.

Lemma account_deregistered (m : stakeMap) L L' c b :
  (forall c', account_seen m L c') ->
  lStake L' = lStake L ∖ {[c]} /\ lBalance L' = delete c (lBalance L) /\ lDeposit L' = delete c (lDeposit L) ->
  forall c', account_seen (<[c := mkStakeState false 0 b]> m) L' c'.
Proof.
  intros H (HS & HB & HD). apply (account_seen_insert m L); [done| |].
  - split_and!; cbn; [rewrite HS; set_solver|done|done].
  - intros c' N. rewrite HS, HB, HD, !lookup_delete_ne by done. split_and!; [set_solver|done|done].
Qed.

Lemma deregisterStake_seen (m : stakeMap) L c supplied :
  (forall c', account_seen m L c') -> c ∈ dereg ->
  match deregisterStake ls c supplied m with
  | Ok m' => c ∈ lStake L /\ (forall s, supplied = Some s -> lDeposit L !! c = Some s) /\ lBalance L !! c = Some 0 /\
             exists b st, m' = <[c := mkStakeState false 0 b]> (<[c := st]> m) /\ forall c', account_seen (<[c := st]> m) L c'
  | Err _ => ~ (c ∈ lStake L /\ (forall s, supplied = Some s -> lDeposit L !! c = Some s) /\ lBalance L !! c = Some 0)
  end.
Proof.
  intros H Hc. unfold deregisterStake. destruct (loadStakeState_seen m L c H) as (st & E & (S1 & S2 & S3) & Hm). rewrite E.
  cbn [mbind result_bind]. destruct (csRegistered st) eqn:Er; cbn [negb].
  2:{ intros (I & _). by apply S1 in I. }
  specialize (S2 eq_refl). specialize (S3 Hc eq_refl). assert (I : c ∈ lStake L) by by apply S1.
  rewrite S2, S3.
  assert (Q : match (match supplied with
      | Some s => if negb (s =? csDeposit st) then Err (CertificateRefundIncorrect s (csDeposit st)) else Ok ()
      | None => Ok () end) with Ok tt => forall s, supplied = Some s -> csDeposit st = s | Err _ => exists s, supplied = Some s /\ csDeposit st <> s end).
  { destruct supplied as [s|]; [|done]. destruct (Z.eqb_spec s (csDeposit st)); cbn; [intros ? [= <-]; lia|exists s; split; [done|lia]]. }
  destruct (match supplied with Some s => _ | None => _ end) as [[]|e]; cbn [mbind result_bind].
  - destruct (Z.eqb_spec (csBalance st) 0) as [E0|N0]; cbn [negb].
    + split_and!; [done| |by rewrite E0|by exists (csBalance st), st]. intros s Hs. f_equal. by apply Q.
    + intros (_ & _ & [= E0]). done.
  - intros (_ & Hs & _). destruct Q as (s & -> & N). specialize (Hs s eq_refl). congruence.
Qed.

Lemma loadDRep_seen (d : drepMap) L c :
  (forall c', drep_seen d L c') ->
  exists st, loadDRep ls c d = Ok (st, <[c := st]> d) /\ drDeposit <$> st = drepDeposits L !! c /\
             forall c', drep_seen (<[c := st]> d) L c'.
Proof.
  intros H. assert (K : exists st, loadDRep ls c d = Ok (st, <[c := st]> d) /\ drDeposit <$> st = drepDeposits L !! c).
  { pose proof (H c) as Hc. unfold drep_seen in Hc. unfold loadDRep. destruct (d !! c) as [st|] eqn:E; [exists st; by rewrite insert_id|].
    rewrite (r_drep _ _ R). cbn. exists (lDRep L0 !! c). split; [done|]. rewrite Hc. unfold drepDeposits. by rewrite lookup_fmap. }
  destruct K as (st & E & S). exists st. split_and!; [done|done|]. intros c'. unfold drep_seen.
  destruct (decide (c' = c)) as [->|N]; [by rewrite lookup_insert_eq|]. rewrite lookup_insert_ne by done. apply H.
Qed.

Lemma drep_seen_insert (d : drepMap) L L' c st :
  (forall c', drep_seen d L c') -> drDeposit <$> st = drepDeposits L' !! c ->
  (forall c', c' <> c -> drepDeposits L' !! c' = drepDeposits L !! c') ->
  forall c', drep_seen (<[c := st]> d) L' c'.
Proof using Type.
  intros H Hc Ho c'. unfold drep_seen. destruct (decide (c' = c)) as [->|N]; [by rewrite lookup_insert_eq|].
  rewrite lookup_insert_ne by done. specialize (H c'). unfold drep_seen in H. rewrite (Ho c' N). by destruct (d !! c').
Qed.


(** One certificate: the step succeeds exactly when the certificate fits, and
    what it has read then describes the ledger after it. *)
Lemma depositStep_seen m d L cert :
  (forall c, account_seen m L c) -> (forall c, drep_seen d L c) ->
  (forall c, accountEffectOf kd cert = Deregister c -> c ∈ dereg) ->
  match depositCertificateStep ls kd dd (m, d) cert with
  | Ok (m', d') => cert_ok kd dd L cert /\ (forall c, account_seen m' (certify kd L cert) c) /\
                   (forall c, drep_seen d' (certify kd L cert) c)
  | Err _ => ~ cert_ok kd dd L cert
  end.
Proof.
  intros Hm Hd Hdereg. pose proof (certify_accounts kd L cert) as HA. pose proof (certify_dreps kd L cert) as HD. cbn zeta in HA.
  assert (Keep_m : accountEffectOf kd cert = Keep -> forall c, account_seen m (certify kd L cert) c).
  { intros E. rewrite E in HA. destruct HA as (A & B & C). intros c. specialize (Hm c). unfold account_seen, seen_as in *.
    by rewrite A, B, C. }
  assert (Keep_d : drepEffectOf cert = KeepDRep -> forall d, (forall c, drep_seen d L c) -> forall c, drep_seen d (certify kd L cert) c).
  { intros E d' Hd' c. rewrite E in HD. specialize (Hd' c). unfold drep_seen in *. by rewrite HD. }
  assert (Reg : forall c amount, accountEffectOf kd cert = Register c amount -> drepEffectOf cert = KeepDRep ->
    match (m ← markStakeRegistered ls kd c m; Ok (m, d)) with
    | Ok (m', d') => (c ∉ lStake L) /\ (amount = kd -> (forall c, account_seen m' (certify kd L cert) c) /\ (forall c, drep_seen d' (certify kd L cert) c))
    | Err _ => c ∈ lStake L
    end).
  { intros c amount Ea Ed. rewrite (markStakeRegistered_seen m L c (Hm c)). destruct (decide (c ∈ lStake L)); [done|]. cbn.
    split; [done|]. intros ->. rewrite Ea in HA. split; [by apply (account_registered m L)|by apply Keep_d]. }
  assert (RegAmount : forall c amount, accountEffectOf kd cert = Register c amount -> drepEffectOf cert = KeepDRep ->
    match (m ← registerStake ls kd c amount m; Ok (m, d)) with
    | Ok (m', d') => (amount = kd /\ c ∉ lStake L) /\ (forall c, account_seen m' (certify kd L cert) c) /\ (forall c, drep_seen d' (certify kd L cert) c)
    | Err _ => ~ (amount = kd /\ c ∉ lStake L)
    end).
  { intros c amount Ea Ed. unfold registerStake. destruct (Z.eqb_spec amount kd) as [E|N]; cbn [negb]; [|cbn; naive_solver].
    specialize (Reg c amount Ea Ed). destruct (markStakeRegistered ls kd c m); cbn in *; naive_solver. }
  assert (Dereg : forall c s, accountEffectOf kd cert = Deregister c -> drepEffectOf cert = KeepDRep ->
    match (m ← deregisterStake ls c s m; Ok (m, d)) with
    | Ok (m', d') => (c ∈ lStake L /\ (forall x, s = Some x -> lDeposit L !! c = Some x) /\ lBalance L !! c = Some 0) /\
                     (forall c, account_seen m' (certify kd L cert) c) /\ (forall c, drep_seen d' (certify kd L cert) c)
    | Err _ => ~ (c ∈ lStake L /\ (forall x, s = Some x -> lDeposit L !! c = Some x) /\ lBalance L !! c = Some 0)
    end).
  { intros c s Ea Ed. pose proof (deregisterStake_seen m L c s Hm (Hdereg c Ea)) as H.
    destruct (deregisterStake ls c s m) as [m'|e]; cbn; [|done]. destruct H as (H1 & H2 & H3 & b & st & -> & Hs).
    split; [done|]. rewrite Ea in HA. split; [by apply (account_deregistered (<[c := st]> m) L)|by apply Keep_d]. }
  destruct cert; cbn [depositCertificateStep cert_ok accountEffectOf drepEffectOf] in *;
    try (split; [exact I|split; [by apply Keep_m|by apply Keep_d]]);
    try (by apply RegAmount).
  - specialize (Reg c kd eq_refl eq_refl). destruct (m ← _; _) as [[]|]; naive_solver.
  - specialize (Dereg c None eq_refl eq_refl). destruct (m ← _; _) as [[]|]; naive_solver.
  - specialize (Dereg c (Some amount) eq_refl eq_refl). destruct (m ← _; _) as [[]|].
    + destruct Dereg as ((H1 & H2 & H3) & H4). split; [|done]. split_and!; [done|by apply H2|done].
    + intros (H1 & H2 & H3). destruct Dereg. split_and!; [done|naive_solver|done].
  - (* a new DRep *) destruct (Z.eqb_spec amount dd) as [E|N]; cbn [negb]; [|naive_solver].
    destruct (loadDRep_seen d L c Hd) as (st & -> & S & Hd'). cbn [mbind result_bind]. destruct st as [r|].
    + intros [_ H]. apply lDRep_none in H. by rewrite H in S.
    + split; [split; [done|by apply lDRep_none]|]. split; [by apply Keep_m|].
      apply (drep_seen_insert (<[c := None]> d) L); [done| |]; intros; rewrite HD, E.
      * by rewrite lookup_insert_eq.
      * by rewrite lookup_insert_ne.
  - destruct (loadDRep_seen d L c Hd) as (st & -> & S & Hd'). cbn [mbind result_bind]. unfold drepDeposits in S. rewrite lookup_fmap in S.
    rewrite <- S. destruct st as [r|]; [|done]. cbn [fmap option_fmap option_map]. destruct (drDeposit r) as [dep|]; [|naive_solver].
    destruct (Z.eqb_spec amount dep) as [E|N]; cbn [negb]; [|naive_solver].
    split; [by rewrite E|]. split; [by apply Keep_m|].
    apply (drep_seen_insert (<[c := Some r]> d) L); [done| |]; intros; rewrite HD.
    + by rewrite lookup_delete_eq.
    + by rewrite lookup_delete_ne.
  - destruct (loadDRep_seen d L c Hd) as (st & -> & S & Hd'). cbn [mbind result_bind]. unfold drepDeposits in S. rewrite lookup_fmap in S.
    destruct st as [r|]; destruct (lDRep L !! c) as [r'|] eqn:E; try done.
    split; [by eexists|]. split; [by apply Keep_m|by apply Keep_d].
Qed.

Lemma depositLoop_seen certs : forall m d L,
  (forall c, account_seen m L c) -> (forall c, drep_seen d L c) ->
  (forall cert c, cert ∈ certs -> accountEffectOf kd cert = Deregister c -> c ∈ dereg) ->
  is_ok (depositCertificateLoop ls kd dd certs (m, d)) = true <-> certs_ok kd dd L certs.
Proof.
  induction certs as [|cert certs IH]; intros m d L Hm Hd Hdereg; [done|]. cbn [depositCertificateLoop certs_ok].
  pose proof (depositStep_seen m d L cert Hm Hd (fun c => Hdereg cert c (list_elem_of_here _ _))) as H.
  destruct (depositCertificateStep ls kd dd (m, d) cert) as [[m' d']|e]; cbn [mbind result_bind].
  - destruct H as (H1 & H2 & H3). rewrite (IH m' d' _ H2 H3); [naive_solver|]. intros cert' c E. apply Hdereg. by right.
  - split; [done|naive_solver].
Qed.
(** Draining the accounts that are deregistered. *)
Lemma drainLoop_seen ws : forall m L,
  (forall c, account_seen m L c) -> accounts_wf L -> Forall (payable L) ws -> NoDup ((fun w => credOf (fst w)) <$> ws) ->
  exists m', drainLoop ls dereg ws m = Ok m' /\ forall c, account_seen m' (foldl withdraw L ws) c.
Proof.
  induction ws as [|[a x] ws IH]; intros m L Hm W Hf Hn; cbn [drainLoop foldl]; [by exists m|].
  apply Forall_cons in Hf as [(c & amount & bal & E1 & E2 & H1 & E3 & H2) Hf]. cbn in E1, E2. subst x.
  rewrite (withdraw_payable L (a, Some amount) c amount bal) by done.
  pose proof (payable_rest L (a, Some amount) ws c (bal - amount) E1 Hn Hf) as Hf'.
  rewrite fmap_cons in Hn. apply NoDup_cons in Hn as [_ Hn]. pose proof (balance_wf L c bal (bal - amount) W E3) as W'.
  destruct (RewardAccountCredential_Ok a c E1) as (y & raw & -> & _ & Hs & _). cbn [mbind option_bind]. rewrite Hs.
  unfold fitsUint64. rewrite (proj2 (Z.leb_le 0 amount)), (proj2 (Z.leb_le amount MaxUint64)) by lia. cbn [andb negb].
  destruct (bool_decide_reflect (c ∈ dereg)) as [D|D]; cbn [negb].
  - destruct (loadStakeState_seen m L c Hm) as (st & -> & (S1 & S2 & S3) & Hm'). cbn [mbind result_bind].
    assert (Hr : csRegistered st = true) by (apply S1, (aw_balance _ W); by eexists).
    specialize (S3 D Hr). assert (csBalance st = bal) by congruence. rewrite (proj2 (Z.leb_le amount (csBalance st))) by lia.
    apply IH; try done. apply (account_seen_insert (<[c := st]> m) L); [done| |].
    + split_and!; cbn; [done|done|]. intros _ _. rewrite lookup_insert_eq. congruence.
    + intros c' N. cbn. split_and!; [done|done|]. intros _. by rewrite lookup_insert_ne.
  - apply IH; try done. intros c'. specialize (Hm c'). unfold account_seen, seen_as in *. cbn.
    destruct (decide (c' = c)) as [->|N]; [destruct (m !! c); naive_solver|]. by rewrite lookup_insert_ne by done.
Qed.
End DepositRule.

Lemma deregistered_in kd certs cert c : cert ∈ certs -> accountEffectOf kd cert = Deregister c -> c ∈ deregisteredCredentials certs.
Proof.
  induction certs as [|x certs IH]; [by intros ?%elem_of_nil|]. intros [->|Hin]%elem_of_cons E.
  - destruct x; try done; cbn in *; injection E as <-; set_solver.
  - specialize (IH Hin E). destruct x; cbn; set_solver.
Qed.

Lemma deposits_exact ls pp tx (L : CLedger) :
  reports (lstate ls) L -> accounts_wf L -> IsValid tx = true ->
  0 <= keyDeposit pp <= MaxUint64 -> 0 <= pDRepDeposit pp <= MaxUint64 ->
  Forall (payable L) (default [] (Withdrawals tx)) -> NoDup ((fun w => credOf (fst w)) <$> default [] (Withdrawals tx)) ->
  UtxoValidateCertificateDeposits tx ls pp = Ok () <->
  certs_ok (keyDeposit pp) (pDRepDeposit pp) (foldl withdraw L (default [] (Withdrawals tx))) (Certificates tx).
Proof.
  intros R W Hv Hk Hd Hp Hn. unfold UtxoValidateCertificateDeposits, fitsUint64. rewrite Hv. cbn [negb].
  rewrite (proj2 (Z.leb_le 0 (keyDeposit pp))), (proj2 (Z.leb_le (keyDeposit pp) MaxUint64)) by lia.
  rewrite (proj2 (Z.leb_le 0 (pDRepDeposit pp))), (proj2 (Z.leb_le (pDRepDeposit pp) MaxUint64)) by lia. cbn [andb negb].
  set (dereg := deregisteredCredentials (Certificates tx)). set (ws := default [] (Withdrawals tx)) in *.
  destruct (drainLoop_seen ls L R W (keyDeposit pp) (pDRepDeposit pp) dereg ws ∅ L) as (m & -> & Hm); try done.
  cbn [mbind result_bind]. destruct (withdrawals_fields ws L Hp Hn W) as (_ & _ & ba & E).
  rewrite <- (depositLoop_seen ls L R W (keyDeposit pp) (pDRepDeposit pp) dereg (Certificates tx) m ∅ _ Hm).
  - by destruct (depositCertificateLoop _ _ _ _ _).
  - intros c. unfold drep_seen. by rewrite lookup_empty, E.
  - intros cert c. apply deregistered_in.
Qed.

(** ** The value rule and the certificates *)

(** What credentials and DReps have on deposit. *)
Definition depositTotal (L : CLedger) : Z := msum (lDeposit L) + msum (default 0 <$> drepDeposits L).

Lemma certify_sums kd dd L cert : cert_ok kd dd L cert -> accounts_wf L ->
  let L' := certify kd L cert in
  msum (lBalance L') = msum (lBalance L) /\
  depositTotal L' = depositTotal L
    + match accountEffectOf kd cert with Register c d => d | Deregister c => - default 0 (lDeposit L !! c) | Keep => 0 end
    + match drepEffectOf cert with RegisterDRep c d => d | DeregisterDRep c => - default 0 (default None (drepDeposits L !! c)) | KeepDRep => 0 end.
Proof.
  intros Hok W. pose proof (certify_accounts kd L cert) as HA. pose proof (certify_dreps kd L cert) as HD. cbn zeta in *.
  assert (New : forall c, c ∉ lStake L -> lBalance L !! c = None /\ lDeposit L !! c = None).
  { intros c N. split; apply eq_None_not_Some; intros H; apply N; [by apply (aw_balance _ W)|by apply (aw_deposit _ W)]. }
  assert (Reg : forall c d, accountEffectOf kd cert = Register c d -> c ∉ lStake L).
  { intros c d E. destruct cert; try done; cbn in *; injection E as <- <-; naive_solver. }
  assert (Dereg : forall c, accountEffectOf kd cert = Deregister c -> c ∈ lStake L /\ lBalance L !! c = Some 0).
  { intros c E. destruct cert; try done; cbn in *; injection E as <-; naive_solver. }
  assert (A : msum (lBalance (certify kd L cert)) = msum (lBalance L) /\
    msum (lDeposit (certify kd L cert)) = msum (lDeposit L) +
      match accountEffectOf kd cert with Register c d => d | Deregister c => - default 0 (lDeposit L !! c) | Keep => 0 end).
  { destruct (accountEffectOf kd cert) as [c d|c|]; destruct HA as (_ & -> & ->); [| |split; lia].
    - destruct (New c (Reg _ _ eq_refl)) as [E1 E2]. rewrite !msum_insert, E1, E2. cbn. lia.
    - destruct (Dereg c eq_refl) as [I E1]. destruct (proj1 (aw_deposit _ W c) I) as [d E2].
      rewrite (msum_delete _ _ _ E1), (msum_delete _ _ _ E2), E2. cbn. lia. }
  destruct A as [A1 A2]. split; [exact A1|]. unfold depositTotal. rewrite A2, HD.
  destruct (drepEffectOf cert) as [c d|c|] eqn:Ee; [| |lia].
  - assert (N : lDRep L !! c = None) by (destruct cert; try done; cbn in *; injection Ee as <- <-; naive_solver).
    apply lDRep_none in N. rewrite fmap_insert, msum_insert, lookup_fmap, N. cbn. lia.
  - assert (S : exists a, drepDeposits L !! c = Some (Some a)).
    { destruct cert; try done; cbn in *; injection Ee as <-. exists amount. unfold drepDeposits. by rewrite lookup_fmap. }
    destruct S as [a S]. rewrite S. cbn. rewrite fmap_delete, (msum_delete _ _ a); [lia|]. by rewrite lookup_fmap, S.
Qed.

Section Tally.
Context (ls : ConwayState) (L0 : CLedger) (R : reports (lstate ls) L0) (W0 : accounts_wf L0) (pp : ConwayProtocolParameters).
#[local] Set Default Proof Using "All".

Definition tally_seen (m : gmap Credential (bool * Z)) (L : CLedger) (c : Credential) : Prop :=
  match m !! c with
  | Some (r, d) => (r = true <-> c ∈ lStake L) /\ (r = true -> lDeposit L !! c = Some d)
  | None => (c ∈ lStake L <-> c ∈ lStake L0) /\ lDeposit L !! c = lDeposit L0 !! c
  end.

Lemma tally_seen_insert m L L' c st :
  (forall c', tally_seen m L c') ->
  ((fst st = true <-> c ∈ lStake L') /\ (fst st = true -> lDeposit L' !! c = Some (snd st))) ->
  (forall c', c' <> c -> (c' ∈ lStake L' <-> c' ∈ lStake L) /\ lDeposit L' !! c' = lDeposit L !! c') ->
  forall c', tally_seen (<[c := st]> m) L' c'.
Proof.
  intros H Hc Ho c'. unfold tally_seen. destruct (decide (c' = c)) as [->|N]; [rewrite lookup_insert_eq; by destruct st|].
  rewrite lookup_insert_ne by done. specialize (H c'). unfold tally_seen in H. destruct (Ho c' N) as (A & B).
  destruct (m !! c') as [[r d]|]; by rewrite A, B.
Qed.

Lemma getStake_seen m L c : (forall c', tally_seen m L c') -> c ∈ lStake L ->
  exists d, getStake ls pp c m = Ok ((true, d), <[c := (true, d)]> m) /\ lDeposit L !! c = Some d.
Proof.
  intros H I. pose proof (H c) as Hc. unfold tally_seen in Hc. unfold getStake. destruct (m !! c) as [[r d]|] eqn:E.
  - destruct Hc as [H1 H2]. assert (r = true) as -> by by apply H1. exists d. rewrite insert_id by done. by rewrite H2.
  - destruct Hc as [H1 H2]. rewrite (r_stake _ _ R), bool_decide_true by by apply H1. rewrite (r_deposit _ _ R). cbn.
    destruct (proj1 (aw_deposit _ W0 c) (proj1 H1 I)) as [d Hd]. exists d. rewrite Hd. cbn. by rewrite H2.
Qed.

Lemma getDRep_seen d L c a : (forall c', drep_seen L0 d L c') -> drepDeposits L !! c = Some (Some a) ->
  exists r, getDRep ls c d = Ok (Some r, <[c := Some r]> d) /\ drDeposit r = Some a.
Proof.
  intros H E. pose proof (H c) as Hc. unfold drep_seen in Hc. unfold getDRep. rewrite E in Hc.
  destruct (d !! c) as [st|] eqn:Ed.
  - destruct st as [r|]; [|done]. cbn in Hc. injection Hc as Hc. exists r. by rewrite insert_id.
  - rewrite (r_drep _ _ R). cbn. unfold drepDeposits in Hc. rewrite lookup_fmap in Hc.
    destruct (lDRep L0 !! c) as [r|]; [|done]. cbn in Hc. injection Hc as Hc. exists r.
    rewrite bool_decide_false by congruence. done.
Qed.

Abbreviation kd := (keyDeposit pp).

(** The effect of one fitting certificate on the tally. *)
Lemma tallyDeregister_seen t L c supplied L' :
  (forall c, tally_seen (stakeStates t) L c) -> c ∈ lStake L -> (forall s, supplied = Some s -> lDeposit L !! c = Some s) ->
  lStake L' = lStake L ∖ {[c]} /\ lDeposit L' = delete c (lDeposit L) ->
  exists m, tallyDeregister ls pp true c supplied t
            = Ok (mkTally (refunds t + default 0 (lDeposit L !! c)) (deposits t) m (drepStates t)) /\
            forall c', tally_seen m L' c'.
Proof.
  intros H I Hs (HS & HD). unfold tallyDeregister. destruct (getStake_seen _ L c H I) as (d & -> & Ed).
  cbn [mbind result_bind fst snd negb]. rewrite Ed. cbn [default from_option]. eexists. split.
  - destruct supplied as [s|]; [|done]. specialize (Hs s eq_refl). rewrite Ed in Hs. injection Hs as <-.
    rewrite Z.eqb_refl. done.
  - apply (tally_seen_insert (<[c := (true, d)]> (stakeStates t)) L).
    + apply (tally_seen_insert _ L); [done| |done]. by split.
    + cbn. rewrite HS. split; [set_solver|done].
    + intros c' N. rewrite HS, HD, lookup_delete_ne by done. split; [set_solver|done].
Qed.

Lemma tallyRegister_seen t L c L' :
  (forall c, tally_seen (stakeStates t) L c) ->
  lStake L' = {[c]} ∪ lStake L /\ lDeposit L' = <[c := kd]> (lDeposit L) ->
  forall c', tally_seen (stakeStates (tallyRegister pp c t)) L' c'.
Proof.
  intros H (HS & HD). apply (tally_seen_insert _ L); [done| |].
  - cbn. rewrite HS, HD, lookup_insert_eq. split; [set_solver|done].
  - intros c' N. rewrite HS, HD, lookup_insert_ne by done. split; [set_solver|done].
Qed.

Lemma tallyStep_seen t L cert :
  cert_ok kd (pDRepDeposit pp) L cert -> accounts_wf L ->
  (forall c, tally_seen (stakeStates t) L c) -> (forall c, drep_seen L0 (drepStates t) L c) ->
  exists t', tallyCertificate ls pp true t cert = Ok t' /\
    deposits t' - refunds t' - (deposits t - refunds t) = depositTotal (certify kd L cert) - depositTotal L /\
    (forall c, tally_seen (stakeStates t') (certify kd L cert) c) /\ (forall c, drep_seen L0 (drepStates t') (certify kd L cert) c).
Proof.
  intros Hok W Hm Hd. destruct (certify_sums _ _ L cert Hok W) as [_ HT]. cbn zeta in HT.
  pose proof (certify_accounts kd L cert) as HA. pose proof (certify_dreps kd L cert) as HD. cbn zeta in HA.
  assert (Km : accountEffectOf kd cert = Keep -> forall c, tally_seen (stakeStates t) (certify kd L cert) c).
  { intros E c. rewrite E in HA. destruct HA as (A & _ & C). specialize (Hm c). unfold tally_seen in *. by rewrite A, C. }
  assert (Kd : drepEffectOf cert = KeepDRep -> forall c, drep_seen L0 (drepStates t) (certify kd L cert) c).
  { intros E c. rewrite E in HD. specialize (Hd c). unfold drep_seen in *. by rewrite HD. }
  destruct cert; cbn [accountEffectOf drepEffectOf tallyCertificate cert_ok] in *;
    try (exists t; split; [done|]; split; [lia|]; split; [by apply Km|by apply Kd]);
    try (match type of Hok with _ = kd /\ _ => destruct Hok as [-> _] | _ => idtac end; unfold checkDeposit; rewrite ?Z.eqb_refl; cbn [andb negb mbind result_bind];
         eexists; split; [done|]; split; [cbn [deposits refunds tallyRegister]; lia|]; split;
         [by apply (tallyRegister_seen t L c); destruct HA as (? & ? & ?)|by apply Kd]).
  - destruct Hok as [I _]. destruct (tallyDeregister_seen t L c None (certify kd L (StakeDeregistrationCertificate c)) Hm I) as (m & -> & Hm');
      [done|by destruct HA as (? & ? & ?)|].
    eexists. split; [done|]. split; [cbn [deposits refunds]; lia|]. split; [done|by apply Kd].
  - destruct Hok as (I & Ea & _).
    destruct (tallyDeregister_seen t L c (Some amount) (certify kd L (DeregistrationCertificate c amount)) Hm I) as (m & -> & Hm');
      [naive_solver|by destruct HA as (? & ? & ?)|].
    eexists. split; [done|]. split; [cbn [deposits refunds]; lia|]. split; [done|by apply Kd].
  - destruct Hok as [-> N]. unfold checkDeposit. rewrite Z.eqb_refl. cbn [andb negb mbind result_bind].
    eexists. split; [done|]. split; [cbn [deposits refunds]; lia|]. split; [by apply Km|].
    apply (drep_seen_insert L0 (drepStates t) L); [done| |].
    + rewrite HD. by rewrite lookup_insert_eq.
    + intros c' Nc. rewrite HD. by rewrite lookup_insert_ne.
  - assert (E : drepDeposits L !! c = Some (Some amount)) by (unfold drepDeposits; by rewrite lookup_fmap).
    destruct (getDRep_seen _ L c amount Hd E) as (r & -> & Er). cbn [mbind result_bind]. rewrite Er, Z.eqb_refl. cbn [andb negb].
    rewrite E in HT. change (default 0 (default None (Some (Some amount)))) with amount in HT. eexists. split; [done|]. split; [cbn [deposits refunds]; lia|]. split; [by apply Km|].
    apply (drep_seen_insert L0 (<[c := Some r]> (drepStates t)) L).
    + apply (drep_seen_insert L0 (drepStates t) L); [done| |done]. cbn. by rewrite Er, E.
    + rewrite HD. by rewrite lookup_delete_eq.
    + intros c' Nc. rewrite HD. by rewrite lookup_delete_ne.
Qed.

Lemma tallyLoop_seen certs : forall t L,
  certs_ok kd (pDRepDeposit pp) L certs -> accounts_wf L ->
  (forall c, tally_seen (stakeStates t) L c) -> (forall c, drep_seen L0 (drepStates t) L c) ->
  let L' := foldl (certify kd) L certs in
  accounts_wf L' /\ msum (lBalance L') = msum (lBalance L) /\
  exists t', tallyLoop ls pp true certs t = Ok t' /\
    deposits t' - refunds t' - (deposits t - refunds t) = depositTotal L' - depositTotal L.
Proof.
  induction certs as [|cert certs IH]; intros t L Hok W Hm Hd; cbn [foldl tallyLoop].
  - split; [done|]. split; [done|]. exists t. split; [done|lia].
  - destruct Hok as [Hc Hok]. destruct (tallyStep_seen t L cert Hc W Hm Hd) as (t1 & -> & E1 & Hm1 & Hd1).
    destruct (certify_sums _ _ L cert Hc W) as [EB _].
    destruct (IH t1 _ Hok (certify_wf _ _ _ W) Hm1 Hd1) as (W' & EB' & t' & E' & ET). split; [done|]. split; [congruence|].
    exists t'. split; [done|lia].
Qed.
End Tally.

(** ** Pools *)

(** No pool that is still there has an epoch of retirement in the past. *)
Definition reaped (epoch : Z) (L : CLedger) : Prop :=
  forall p e, is_Some (lPool L !! p) -> lRetiring L !! p = Some e -> epoch < e.

Lemma certify_pools kd L cert :
  lPool (certify kd L cert) =
  match cert with
  | PoolRegistrationCert reg => match lPool L !! Operator reg with None => <[Operator reg := reg]> (lPool L) | Some _ => lPool L end
  | _ => lPool L
  end.
Proof. destruct cert; try done; cbn; [unfold lpool; by destruct (lPool L !! _)|by destruct (lDRep L !! c)]. Qed.

Lemma certify_retiring kd L cert :
  lRetiring (certify kd L cert) =
  match cert with
  | PoolRegistrationCert reg => delete (Operator reg) (lRetiring L)
  | PoolRetirementCertificate p epoch => <[p := epoch]> (lRetiring L)
  | _ => lRetiring L
  end.
Proof. destruct cert; try done; cbn; [unfold lpool; by destruct (lPool L !! _)|by destruct (lDRep L !! c)]. Qed.

Lemma certify_reaped epoch kd L cert :
  reaped epoch L -> (forall p e, cert = PoolRetirementCertificate p e -> epoch < e) -> reaped epoch (certify kd L cert).
Proof.
  intros H He p e. rewrite certify_pools, certify_retiring. destruct cert; try apply H.
  - destruct (decide (p = Operator reg)) as [->|N]; [by rewrite lookup_delete_eq|]. rewrite lookup_delete_ne by done.
    destruct (lPool L !! Operator reg); [apply H|]. rewrite lookup_insert_ne by done. apply H.
  - destruct (decide (p = pool)) as [->|N].
    + rewrite lookup_insert_eq. intros _ [= <-]. by eapply He.
    + rewrite lookup_insert_ne by done. apply H.
Qed.

Lemma depositDue_new ls (L : CLedger) slot epoch f p :
  reports (lstate ls) L -> epochForSlot ls = Some f -> f slot = Some epoch -> reaped epoch L ->
  PoolRegistrationDepositDue (shelleyState ls) slot p = Ok (bool_decide (lPool L !! p = None)).
Proof.
  intros R Hf He Hr. unfold PoolRegistrationDepositDue. cbn. rewrite (r_pool _ _ R). cbn.
  destruct (lPool L !! p) as [reg|] eqn:E; [|done].
  destruct (lRetiring L !! p) as [e|] eqn:Er; [|done].
  rewrite Hf. cbn. rewrite He. cbn. f_equal. apply Z.leb_gt. apply (Hr p e); [by eexists|done].
Qed.

(** The rule counts the deposit of every pool that is new. *)
Lemma poolDepositLoop_sum ls (L0 : CLedger) slot pp :
  (forall p, PoolRegistrationDepositDue (shelleyState ls) slot p = Ok (bool_decide (lPool L0 !! p = None))) ->
  forall certs seen produced L,
  (forall p, is_Some (lPool L !! p) <-> p ∈ seen \/ is_Some (lPool L0 !! p)) ->
  poolDepositLoop ls pp slot certs seen produced = Ok (produced + PoolDeposit (shelleyParams pp) *
    (Z.of_nat (size (lPool (foldl (certify (keyDeposit pp)) L certs))) - Z.of_nat (size (lPool L)))).
Proof.
  intros Hdue. induction certs as [|cert certs IH]; intros seen produced L Hs; cbn [poolDepositLoop foldl]; [f_equal; lia|].
  assert (Other : (forall reg, cert <> PoolRegistrationCert reg) ->
    poolDepositLoop ls pp slot certs seen produced = Ok (produced + PoolDeposit (shelleyParams pp) *
    (Z.of_nat (size (lPool (foldl (certify (keyDeposit pp)) (certify (keyDeposit pp) L cert) certs))) - Z.of_nat (size (lPool L))))).
  { intros N. assert (E : lPool (certify (keyDeposit pp) L cert) = lPool L).
    { rewrite certify_pools. destruct cert; try done. by destruct (N reg). }
    rewrite <- E. apply IH. by rewrite E. }
  destruct cert; try (by apply Other). clear Other.
  pose proof (certify_pools (keyDeposit pp) L (PoolRegistrationCert reg)) as E. cbn iota in E.
  destruct (bool_decide_reflect (Operator reg ∈ seen)) as [I|I].
  - assert (S : is_Some (lPool L !! Operator reg)) by (apply Hs; by left). destruct S as [r S]. rewrite S in E.
    rewrite <- E. apply IH. rewrite E. apply Hs.
  - rewrite Hdue. cbn [fromShelley mbind result_bind]. destruct (bool_decide_reflect (lPool L0 !! Operator reg = None)) as [Z0|Z0].
    + assert (S : lPool L !! Operator reg = None).
      { apply eq_None_not_Some. intros [|[? S]]%Hs; [done|congruence]. }
      rewrite S in E. rewrite (IH _ _ (certify (keyDeposit pp) L (PoolRegistrationCert reg))).
      * f_equal. rewrite E, map_size_insert_None by done. lia.
      * intros p. rewrite E. destruct (decide (p = Operator reg)) as [->|Np].
        -- rewrite lookup_insert_eq. split; [set_solver|by eexists].
        -- rewrite lookup_insert_ne by done. rewrite Hs. set_solver.
    + assert (S : is_Some (lPool L !! Operator reg)) by (apply Hs; right; by apply not_eq_None_Some).
      pose proof S as [r S']. rewrite S' in E. rewrite <- E. apply IH. intros p. rewrite E, Hs.
      destruct (decide (p = Operator reg)) as [->|Np]; [|set_solver].
      split; [naive_solver|]. intros _. right. by apply not_eq_None_Some.
Qed.

Lemma poolLoop_retirements ls pp slot f epoch certs : EpochForSlot ls = Some f -> f slot = Some epoch -> forall regs s,
  poolLoop ls pp slot certs regs s = Ok () -> forall p e, PoolRetirement p e ∈ certs -> epoch < e.
Proof.
  intros Hf He. induction certs as [|cert certs IH]; intros regs s H p e; [by intros ?%elem_of_nil|].
  intros [<-|Hin]%elem_of_cons.
  - cbn [poolLoop] in H. apply bind_Ok in H as ([] & H & _). unfold validatePoolRetirement in H.
    destruct (negb _ && negb _); [done|]. rewrite Hf, He in H. cbn [ls_result mbind result_bind] in H.
    destruct (Z.leb_spec e epoch); [done|lia].
  - destruct cert; cbn [poolLoop] in H; try (by eapply IH).
    + apply bind_Ok in H as (_ & _ & H). apply bind_Ok in H as (? & _ & H). by eapply IH.
    + apply bind_Ok in H as (_ & _ & H). by eapply IH.
Qed.

Lemma retirements_later tx slot ls pp f epoch p e : IsValid tx = true ->
  epochForSlot ls = Some f -> f slot = Some epoch ->
  UtxoValidatePoolCertificates (shelleyTx tx) slot (shelleyState ls) (shelleyParams pp) = Ok () ->
  PoolRetirementCertificate p e ∈ Certificates tx -> epoch < e.
Proof.
  intros Hv Hf He H Hin. unfold UtxoValidatePoolCertificates in H. cbn [ShelleyRules.IsValid shelleyTx ShelleyRules.Certificates] in H.
  rewrite Hv in H. cbn [negb] in H.
  assert (Hin' : PoolRetirement p e ∈ shelleyCertificate <$> Certificates tx).
  { apply list_elem_of_fmap. by exists (PoolRetirementCertificate p e). }
  destruct (hasPoolCertificate _) eqn:E; cbn [negb] in H.
  - exact (poolLoop_retirements (shelleyState ls) _ slot f epoch _ Hf He _ _ H p e Hin').
  - unfold hasPoolCertificate in E. rewrite <- not_true_iff_false, existsb_exists in E. destruct E.
    eexists. split; [by apply list_elem_of_In|done].
Qed.

(** ** Outputs *)

Definition outAda (o : ConwayOutput) : Z := default 0 (outAmount o).
Definition outQuantity (p n : bytes) (o : ConwayOutput) : Z := quantityOf (outAssets o) p n.

Definition usum (f : ConwayOutput -> Z) (u : gmap TransactionInput ConwayOutput) : Z := msum (f <$> u).

Lemma usum_spend f (ins : list TransactionInput) : forall u, NoDup ins -> (forall i, i ∈ ins -> is_Some (u !! i)) ->
  usum f (foldl (fun u i => delete i u) u ins) = usum f u - sum_by (fun i => default 0 (f <$> u !! i)) ins.
Proof.
  induction ins as [|i ins IH]; intros u Hn Hs; cbn [foldl sum_by]; [lia|]. apply NoDup_cons in Hn as [Hi Hn].
  destruct (Hs i ltac:(left)) as [o Ho]. rewrite IH; [|done|].
  - unfold usum at 1. rewrite fmap_delete, (msum_delete _ _ (f o)) by (by rewrite lookup_fmap, Ho). fold (usum f u).
    rewrite Ho. cbn. rewrite (sum_by_ext _ (fun i => default 0 (f <$> u !! i)) ins); [lia|]. intros j Hj.
    rewrite lookup_delete_ne; [done|]. intros <-. by apply Hi.
  - intros j Hj. rewrite lookup_delete_ne by (intros <-; by apply Hi). apply Hs. by right.
Qed.

Lemma usum_produce f (outs : list (TransactionInput * ConwayOutput)) : forall u, NoDup outs.*1 ->
  (forall k, k ∈ outs.*1 -> u !! k = None) ->
  usum f (foldl (fun u '(i, o) => <[i := o]> u) u outs) = usum f u + sum_by (fun e => f (snd e)) outs.
Proof.
  induction outs as [|[k o] outs IH]; intros u Hn Hf; cbn [foldl sum_by snd]; [lia|].
  rewrite fmap_cons in *. apply NoDup_cons in Hn as [Hk Hn]. rewrite IH; [|done|].
  - unfold usum at 1. rewrite fmap_insert, msum_insert, lookup_fmap, (Hf k) by (left; done). cbn. unfold usum. lia.
  - intros k' Hk'. rewrite lookup_insert_ne by (intros <-; by apply Hk). apply Hf. by right.
Qed.

Lemma spend_keeps (ins : list TransactionInput) : forall (u : gmap TransactionInput ConwayOutput) k,
  u !! k = None -> foldl (fun u i => delete i u) u ins !! k = None.
Proof.
  induction ins as [|i ins IH]; intros u k Hk; cbn; [done|]. apply IH. destruct (decide (k = i)) as [->|N].
  - by rewrite lookup_delete_eq.
  - by rewrite lookup_delete_ne.
Qed.

Lemma produce_only (outs : list (TransactionInput * ConwayOutput)) : forall (u : gmap TransactionInput ConwayOutput) k,
  k ∉ outs.*1 -> foldl (fun u '(i, o) => <[i := o]> u) u outs !! k = u !! k.
Proof.
  induction outs as [|[i o] outs IH]; intros u k Hk; cbn [foldl]; [done|].
  rewrite fmap_cons in Hk. apply not_elem_of_cons in Hk as [N Hk]. rewrite IH by done. by rewrite lookup_insert_ne.
Qed.

(** The outputs a transaction makes have keys of their own. *)
Lemma Produced_keys tx k : k ∈ (Produced tx).*1 -> fst k = Hash tx.
Proof.
  unfold Produced. destruct (IsValid tx).
  - intros (e & -> & He)%list_elem_of_fmap. apply elem_of_lookup_imap in He as (i & o & -> & _). done.
  - destruct (CollateralReturn tx); cbn; [by intros ->%list_elem_of_singleton|by intros ?%elem_of_nil].
Qed.

Lemma Produced_NoDup tx : blen (Outputs tx) <= 4294967296 -> NoDup (Produced tx).*1.
Proof.
  intros Hl. unfold Produced. destruct (IsValid tx).
  2:{ destruct (CollateralReturn tx); cbn; [apply NoDup_singleton|constructor]. }
  apply NoDup_alt. intros i j k Hi Hj. rewrite list_lookup_fmap, list_lookup_imap in Hi, Hj.
  destruct (Outputs tx !! i) as [oi|] eqn:Ei; [|done]. destruct (Outputs tx !! j) as [oj|] eqn:Ej; [|done].
  cbn in Hi, Hj. injection Hi as <-. injection Hj as E. apply lookup_lt_Some in Ei, Ej. unfold blen in Hl.
  unfold u32 in E. rewrite !Z.mod_small in E by lia. lia.
Qed.

Lemma sum_by_imap {A B} (f : B -> Z) (h : A -> Z) (l : list A) : forall g : nat -> A -> B,
  (forall i x, f (g i x) = h x) -> sum_by f (imap g l) = sum_by h l.
Proof.
  induction l as [|x l IH]; intros g H; [done|]. rewrite imap_cons. cbn [sum_by]. rewrite H, IH; [done|].
  intros i y. apply H.
Qed.

Lemma Produced_sum f tx : sum_by (fun e => f (snd e)) (Produced tx) =
  if IsValid tx then sum_by f (Outputs tx) else default 0 (f <$> CollateralReturn tx).
Proof.
  unfold Produced. destruct (IsValid tx); [by apply sum_by_imap|]. destruct (CollateralReturn tx); cbn; lia.
Qed.

(** ** What the rules say of a transaction they accept *)

Lemma fromShelley_Ok (r : result ruleError unit) : fromShelley r = Ok () -> r = Ok ().
Proof. by destruct r as [[]|]. Qed.

Lemma verifyRules_Ok rules tx slot ls pp : forall i,
  verifyRules i rules tx slot ls pp = Ok () -> Forall (fun rule : Rule => rule tx slot ls pp = Ok ()) rules.
Proof.
  induction rules as [|rule rules IH]; intros i; cbn [verifyRules]; [constructor|].
  destruct (rule tx slot ls pp) as [[]|e] eqn:E; [|done]. intros H. constructor; [done|]. by eapply IH.
Qed.

Lemma accepted_rule sv other tx slot ls pp flag rs r :
  verifyRules 0 (UtxoValidationRules sv other) tx slot ls pp = Ok () ->
  (flag, rs) ∈ ruleGroups -> r ∈ rs -> (flag = true -> IsValid tx = true) ->
  ruleFunc sv other r tx slot ls pp = Ok ().
Proof.
  intros H Hg Hr Hf. apply verifyRules_Ok in H. rewrite Forall_forall in H.
  unfold UtxoValidationRules, ComposeUtxoValidationRules in H.
  destruct flag.
  - specialize (H (fun tx slot ls pp => if negb (IsValid tx) then Ok () else ruleFunc sv other r tx slot ls pp)). cbn beta in H.
    rewrite (Hf eq_refl) in H. apply H. apply list_elem_of_bind. exists (true, rs). split; [|done].
    apply list_elem_of_fmap. by exists r.
  - apply H. apply list_elem_of_bind. exists (false, rs). split; [|done]. apply list_elem_of_fmap. by exists r.
Qed.

(** A rule that always runs, and one that runs for valid transactions, by its
    place in the groups. *)
Lemma accepted_always sv other tx slot ls pp i j rs r :
  verifyRules 0 (UtxoValidationRules sv other) tx slot ls pp = Ok () ->
  ruleGroups !! i = Some (false, rs) -> rs !! j = Some r -> ruleFunc sv other r tx slot ls pp = Ok ().
Proof.
  intros H Hg Hr. apply list_elem_of_lookup_2 in Hg, Hr. by apply (accepted_rule sv other tx slot ls pp false rs).
Qed.

Lemma accepted_valid sv other tx slot ls pp i j rs r : IsValid tx = true ->
  verifyRules 0 (UtxoValidationRules sv other) tx slot ls pp = Ok () ->
  ruleGroups !! i = Some (true, rs) -> rs !! j = Some r -> ruleFunc sv other r tx slot ls pp = Ok ().
Proof.
  intros Hv H Hg Hr. apply list_elem_of_lookup_2 in Hg, Hr. by apply (accepted_rule sv other tx slot ls pp true rs).
Qed.

Lemma withdrawLoop_payable exact ls (L : CLedger) ws :
  reports (lstate ls) L -> withdrawLoop exact (shelleyState ls) ws = Ok () -> Forall (payable L) ws.
Proof.
  intros R. induction ws as [|[a x] ws IH]; cbn [withdrawLoop]; [constructor|].
  intros (c & Ec & (b & Eb & E)%bind_Ok)%bind_Ok. cbn in Eb. rewrite (r_balance _ _ R) in Eb. cbn in Eb. injection Eb as <-.
  destruct (lBalance L !! c) as [bal|] eqn:Er; [|done]. destruct x as [amount|]; [|done].
  destruct ((0 <=? amount) && (amount <=? MaxUint64)) eqn:Ea; [|done]. apply andb_prop in Ea as [E1 E2].
  constructor; [|apply IH; by destruct (negb _)].
  exists c, amount, bal. split_and!; [done|done|lia|lia|done|]. destruct exact; cbn in E; zbool; cbn in E; try done; lia.
Qed.

Definition withdrawals (tx : ConwayTransaction) : list (option Address * option Z) := default [] (Withdrawals tx).

Lemma rule_withdrawals sv tx ls pp (L : CLedger) :
  reports (lstate ls) L -> IsValid tx = true ->
  (forall a x, (Some a, x) ∈ withdrawals tx -> addr_wf a) ->
  UtxoValidateWithdrawals sv tx ls pp = Ok () ->
  UtxoValidateWrongNetworkWithdrawal (shelleyTx tx) (shelleyState ls) = Ok () ->
  Forall (payable L) (withdrawals tx) /\ NoDup ((fun w => credOf (fst w)) <$> withdrawals tx).
Proof.
  intros R Hv Hwf Rule Rule0. unfold withdrawals in *. split.
  - unfold UtxoValidateWithdrawals in Rule. rewrite Hv in Rule. cbn [negb] in Rule. apply bind_Ok in Rule as ([] & Rule & _).
    unfold shelleyWithdrawals, ShelleyRules.UtxoValidateWithdrawals in Rule. cbn [ShelleyRules.Withdrawals shelleyTx] in Rule.
    destruct (Withdrawals tx) as [ws|]; [|constructor]. cbn [default from_option id].
    destruct (exactMode sv tx ls pp) as [exact|e].
    + apply fromShelley_Ok in Rule. apply bind_Ok in Rule as (_ & _ & Rule). cbn [mbind result_bind] in Rule.
      by eapply withdrawLoop_payable.
    + exfalso. destruct (ValidateWithdrawalAddresses ws) as [[]|e']; cbn in Rule; [done|by destruct e'].
  - unfold UtxoValidateWrongNetworkWithdrawal in Rule0.
    cbn [ShelleyRules.Withdrawals shelleyTx NetworkId shelleyState] in Rule0. set (ws := default [] (Withdrawals tx)) in *.
    destruct (blen _ =? 0) eqn:E; [|done].
    destruct (withdrawalAddressLoop_Ok ws [] Rule0) as (H1 & H2 & _).
    apply (withdrawal_creds_distinct (network ls)); try done. intros a x Ha. split; [by eapply Hwf|].
    pose proof (filter_empty_Forall _ _ E (Some a)) as Hn. cbn in Hn.
    destruct (decide (networkId a = network ls)); [done|]. destruct Hn; [|congruence].
    change (Some a) with (fst (Some a, x)). by apply list_elem_of_fmap_2.
Qed.

Lemma accepted_withdrawals sv other tx slot ls pp (L : CLedger) :
  reports (lstate ls) L -> IsValid tx = true ->
  (forall a x, (Some a, x) ∈ withdrawals tx -> addr_wf a) ->
  verifyRules 0 (UtxoValidationRules sv other) tx slot ls pp = Ok () ->
  Forall (payable L) (withdrawals tx) /\ NoDup ((fun w => credOf (fst w)) <$> withdrawals tx).
Proof.
  intros R Hv Hwf H. apply (rule_withdrawals sv tx ls pp L R Hv Hwf).
  - exact (accepted_valid _ _ _ _ _ _ 8 1 _ _ Hv H eq_refl eq_refl).
  - apply fromShelley_Ok. exact (accepted_always _ _ _ _ _ _ 7 24 _ _ H eq_refl eq_refl).
Qed.

(** C19. After the rules on withdrawals, the rule on deposits accepts a transaction
    exactly when each certificate fits the ledger at its turn, after the
    withdrawals and the certificates before it. *)
Theorem certificate_deposits_exact sv ls pp tx (L : CLedger) :
  reports (lstate ls) L -> accounts_wf L -> IsValid tx = true ->
  0 <= keyDeposit pp <= MaxUint64 -> 0 <= pDRepDeposit pp <= MaxUint64 ->
  (forall a x, (Some a, x) ∈ withdrawals tx -> addr_wf a) ->
  UtxoValidateWithdrawals sv tx ls pp = Ok () ->
  UtxoValidateWrongNetworkWithdrawal (shelleyTx tx) (shelleyState ls) = Ok () ->
  UtxoValidateCertificateDeposits tx ls pp = Ok () <->
  certs_ok (keyDeposit pp) (pDRepDeposit pp) (foldl withdraw L (withdrawals tx)) (Certificates tx).
Proof.
  intros R W Hv Hk Hd Hwf H1 H2. destruct (rule_withdrawals sv tx ls pp L R Hv Hwf H1 H2) as [Hp Hn].
  by apply deposits_exact.
Qed.

Lemma accepted_inputs sv other tx slot ls pp (L : CLedger) :
  reports (lstate ls) L -> verifyRules 0 (UtxoValidationRules sv other) tx slot ls pp = Ok () ->
  NoDup (Inputs tx) /\ NoDup (Collateral tx) /\ forall i, i ∈ Inputs tx -> is_Some (lUtxo L !! i).
Proof.
  intros R H. pose proof (accepted_always _ _ _ _ _ _ 7 10 _ _ H eq_refl eq_refl) as Rule.
  pose proof (accepted_always _ _ _ _ _ _ 7 16 _ _ H eq_refl eq_refl) as Rule0. cbn [ruleFunc] in Rule, Rule0. apply fromShelley_Ok in Rule, Rule0.
  unfold UtxoValidateNoDuplicateInputs in Rule. cbn [shelleyTx ShelleyRules.Inputs ShelleyRules.Collateral] in Rule.
  unfold UtxoValidateBadInputsUtxo in Rule0. cbn [shelleyTx ShelleyRules.Inputs] in Rule0.
  destruct (firstDuplicateInput (Inputs tx)) eqn:E1; [done|]. destruct (firstDuplicateInput (Collateral tx)) eqn:E2; [done|].
  apply firstDuplicateInput_none in E1, E2. split_and!; [done|done|]. intros i Hi.
  destruct (blen _ =? 0) eqn:E; [|done]. pose proof (filter_empty_Forall _ _ E i Hi) as Hn. cbn in Hn.
  pose proof (r_utxo _ _ R i) as Hu. destruct (lUtxo L !! i) as [o|]; [by eexists|]. destruct Hu as [e Hu]. rewrite Hu in Hn. done.
Qed.

(** ** The effect of a transaction *)

(** What the body does to accounts, DReps and pools. *)
Definition settle (pp : ConwayProtocolParameters) (L : CLedger) (tx : ConwayTransaction) : CLedger :=
  foldl (certify (keyDeposit pp)) (foldl withdraw L (withdrawals tx)) (Certificates tx).

Definition spendAndProduce (tx : ConwayTransaction) (u : gmap TransactionInput ConwayOutput) : gmap TransactionInput ConwayOutput :=
  foldl (fun u '(i, o) => <[i := o]> u) (foldl (fun u i => delete i u) u (Consumed tx)) (Produced tx).

Lemma withdrawals_utxo u ws : forall L, foldl withdraw (lset_utxo u L) ws = lset_utxo u (foldl withdraw L ws).
Proof.
  induction ws as [|w ws IH]; intros L; cbn [foldl]; [done|]. rewrite <- IH. f_equal. unfold withdraw.
  destruct (RewardAccountCredential (fst w)); [|done]. cbn. by destruct (lBalance L !! _).
Qed.

Lemma certify_utxo kd u certs : forall L, foldl (certify kd) (lset_utxo u L) certs = lset_utxo u (foldl (certify kd) L certs).
Proof.
  induction certs as [|cert certs IH]; intros L; cbn [foldl]; [done|]. rewrite <- IH. f_equal.
  destruct cert; try done; cbn.
  - unfold lpool. cbn. destruct (lPool L !! _); [|done]. by destruct (lFuture L !! _).
  - by destruct (lDRep L !! c).
Qed.

(** The sums that a transaction changes read these fields alone. *)
Lemma ledger_tx_fields pp L tx :
  let L' := ledger_tx (keyDeposit pp) L (blockTx tx) in
  let M := if IsValid tx then settle pp L tx else L in
  lUtxo L' = spendAndProduce tx (lUtxo L) /\ lStake L' = lStake M /\ lBalance L' = lBalance M /\ lDeposit L' = lDeposit M /\
  lDRep L' = lDRep M /\ lPool L' = lPool M /\ lRetiring L' = lRetiring M.
Proof.
  unfold ledger_tx, blockTx. cbn [txConsumed txProduced txIsValid txLevels levelsOf]. fold (spendAndProduce tx (lUtxo L)).
  destruct (IsValid tx); cbn [negb]; [|done]. cbn [default from_option id foldl levelWithdrawals levelCertificates levelProposals txBody].
  unfold level. cbn [levelWithdrawals levelCertificates levelDirectDeposits levelProposals foldl].
  fold (withdrawals tx). rewrite withdrawals_utxo, certify_utxo. fold (settle pp L tx). done.
Qed.

Definition adaTotal (pp : ConwayProtocolParameters) (L : CLedger) : Z :=
  usum outAda (lUtxo L) + msum (lBalance L) + depositTotal L + PoolDeposit (shelleyParams pp) * Z.of_nat (size (lPool L)).

Definition assetTotal (L : CLedger) (p n : bytes) : Z := usum (outQuantity p n) (lUtxo L).

Definition collateralOf (f : ConwayOutput -> Z) (L : CLedger) (tx : ConwayTransaction) : Z :=
  sum_by (fun i => default 0 (f <$> lUtxo L !! i)) (Collateral tx).

(** What leaves the ledger's pots with a transaction: the fee, the donation and
    the deposits of proposals; its collateral if its scripts failed. *)
Definition charge (pp : ConwayProtocolParameters) (L : CLedger) (tx : ConwayTransaction) : Z :=
  if IsValid tx then
    default 0 (Fee tx) + Z.max 0 (default 0 (Donation tx)) + blen (ProposalProcedures tx) * pGovActionDeposit pp
  else collateralOf outAda L tx - returned tx.

(** The value rule adds the mint under the policy of zeros and the empty name to
    the ada that a transaction consumes. *)
Definition mintedAda (tx : ConwayTransaction) : Z := if IsValid tx then quantityOf (AssetMint tx) (repeat 0 28) [] else 0.

(** The assets a transaction makes. *)
Definition minted (tx : ConwayTransaction) (p n : bytes) : Z :=
  if IsValid tx then if isAda p n then 0 else quantityOf (AssetMint tx) p n else 0.

Lemma consumedAssets_total skip ls (L : CLedger) tx p n : reports (lstate ls) L ->
  total_of (consumedAssetsOf skip ls tx) p n =
  sum_by (fun i => default 0 (outQuantity p n <$> lUtxo L !! i)) (Inputs tx) + (if skip p n then 0 else quantityOf (AssetMint tx) p n).
Proof.
  intros R. unfold consumedAssetsOf. rewrite collectAssets_total. f_equal.
  enough (H : forall ins t, total_of (foldl (fun totals i => match UtxoById (lstate ls) i with
      | Ok o => collectAssets (fun _ _ => false) (outAssets o) totals | Err _ => totals end) t ins) p n
    = total_of t p n + sum_by (fun i => default 0 (outQuantity p n <$> lUtxo L !! i)) ins) by apply H.
  induction ins as [|i ins IH]; intros t; cbn [foldl sum_by]; [lia|]. rewrite IH. pose proof (r_utxo _ _ R i) as Hu.
  destruct (lUtxo L !! i) as [o|]; [rewrite Hu, collectAssets_total|destruct Hu as [e ->]]; cbn; unfold outQuantity; lia.
Qed.

Lemma producedAssets_total tx p n : total_of (producedAssetsOf tx) p n = sum_by (outQuantity p n) (Outputs tx).
Proof.
  unfold producedAssetsOf.
  enough (H : forall outs t, total_of (foldl (fun totals o => collectAssets (fun _ _ => false) (outAssets o) totals) t outs) p n
    = total_of t p n + sum_by (outQuantity p n) outs) by apply H.
  induction outs as [|o outs IH]; intros t; cbn [foldl sum_by]; [lia|]. rewrite IH, collectAssets_total. unfold outQuantity. lia.
Qed.

(** The rule of Mary, Alonzo and Babbage is Shelley's and the balance of every
    asset: what the inputs hold and the mint is what the outputs hold. *)
Lemma valueWithAssets_exact skip tx slot ls pp (L : CLedger) : reports (lstate ls) L ->
  valueWithAssets skip tx slot ls pp = Ok () <->
  ShelleyRules.UtxoValidateValueNotConservedUtxo (shelleyTx tx) slot (shelleyState ls) pp = Ok () /\
  forall p n, sum_by (fun i => default 0 (outQuantity p n <$> lUtxo L !! i)) (Inputs tx)
              + (if skip p n then 0 else quantityOf (AssetMint tx) p n) = sum_by (outQuantity p n) (Outputs tx).
Proof.
  intros R. unfold valueWithAssets.
  assert (A : compareAssets (consumedAssetsOf skip ls tx) (producedAssetsOf tx) = Ok () <->
    forall p n, sum_by (fun i => default 0 (outQuantity p n <$> lUtxo L !! i)) (Inputs tx)
              + (if skip p n then 0 else quantityOf (AssetMint tx) p n) = sum_by (outQuantity p n) (Outputs tx)).
  { rewrite compareAssets_exact. split; intros H p n; specialize (H p n);
      rewrite (consumedAssets_total skip ls L tx p n R), producedAssets_total in *; done. }
  rewrite <- A. destruct (ShelleyRules.UtxoValidateValueNotConservedUtxo _ _ _ _) as [[]|e]; cbn [fromShelley mbind result_bind].
  - destruct (compareAssets _ _) as [[]|[x y]]; naive_solver.
  - naive_solver.
Qed.

Lemma inputAmount_ada ls (L : CLedger) ins : reports (lstate ls) L ->
  sum_by (inputAmount ls) ins = sum_by (fun i => default 0 (outAda <$> lUtxo L !! i)) ins.
Proof.
  intros R. apply sum_by_ext. intros i _. unfold inputAmount. pose proof (r_utxo _ _ R i) as Hu.
  destruct (lUtxo L !! i) as [o|]; [by rewrite Hu|]. destruct Hu as [e ->]. done.
Qed.

Lemma spendAndProduce_sum f tx u :
  NoDup (Consumed tx) -> (forall i, i ∈ Consumed tx -> is_Some (u !! i)) ->
  blen (Outputs tx) <= 4294967296 -> (forall k, u !! (Hash tx, k) = None) ->
  usum f (spendAndProduce tx u) = usum f u - sum_by (fun i => default 0 (f <$> u !! i)) (Consumed tx)
    + (if IsValid tx then sum_by f (Outputs tx) else default 0 (f <$> CollateralReturn tx)).
Proof.
  intros Hn Hs Hl Hf. unfold spendAndProduce. rewrite usum_produce, usum_spend, Produced_sum; try done; [by apply Produced_NoDup|].
  intros [h k] Hk. apply Produced_keys in Hk. cbn in Hk. subst h. apply spend_keeps, Hf.
Qed.

(** What a block asks of its transactions besides the rules: addresses decode to
    what they are made of, and outputs are few enough for their index. *)
Definition tx_wf (tx : ConwayTransaction) : Prop :=
  (forall a x, (Some a, x) ∈ withdrawals tx -> addr_wf a) /\ blen (Outputs tx) <= 4294967296.

(** The sums over the collateral inputs. *)
Lemma collateralSum_exact ls (L : CLedger) : reports (lstate ls) L -> forall ins acc total,
  collateralSum ls ins acc = Ok total ->
  (forall i, i ∈ ins -> is_Some (lUtxo L !! i)) /\ total = acc + sum_by (fun i => default 0 (outAda <$> lUtxo L !! i)) ins.
Proof.
  intros R. induction ins as [|i ins IH]; intros acc total; cbn [collateralSum sum_by].
  - intros [= <-]. split; [by intros ? ?%elem_of_nil|lia].
  - intros (o & Eo & E)%bind_Ok. destruct (IH _ _ E) as [H1 ->]. unfold ResolveInputUtxo in Eo. pose proof (r_utxo _ _ R i) as Hu.
    destruct (lUtxo L !! i) as [o'|] eqn:Ei; [|destruct Hu as [e Hu]; by rewrite Hu in Eo].
    rewrite Hu in Eo. injection Eo as <-. split; [|cbn; unfold outAda; lia].
    intros j [->|Hj]%elem_of_cons; [by eexists|by apply H1].
Qed.

Lemma collateralAssets_exact ls (L : CLedger) : reports (lstate ls) L -> forall ins acc total,
  collateralAssets ls ins acc = Ok total ->
  forall p n, quantity total p n = quantity acc p n + sum_by (fun i => default 0 (outQuantity p n <$> lUtxo L !! i)) ins.
Proof.
  intros R. induction ins as [|i ins IH]; intros acc total; cbn [collateralAssets sum_by]; [intros [= <-] p n; lia|].
  intros (o & Eo & E)%bind_Ok p n. rewrite (IH _ _ E p n), add_quantity. unfold ResolveInputUtxo in Eo.
  pose proof (r_utxo _ _ R i) as Hu. destruct (lUtxo L !! i) as [o'|]; [|destruct Hu as [e Hu]; by rewrite Hu in Eo].
  rewrite Hu in Eo. injection Eo as <-. cbn. unfold outQuantity. lia.
Qed.

Section Accepted.
Context (sv : ScriptView) (other : RuleId -> Rule) (slot epoch : Z) (f : Z -> option Z) (pp : ConwayProtocolParameters).
Context (ls : ConwayState) (L : CLedger) (tx : ConwayTransaction).
Context (R : reports (lstate ls) L) (W : accounts_wf L) (Hr : reaped epoch L).
Context (Hf : epochForSlot ls = Some f) (He : f slot = Some epoch).
Context (Hk : 0 <= keyDeposit pp <= MaxUint64) (Hd : 0 <= pDRepDeposit pp <= MaxUint64).
Context (Hwf : tx_wf tx) (Hid : forall k, lUtxo L !! (Hash tx, k) = None).
Context (H : verifyRules 0 (UtxoValidationRules sv other) tx slot ls pp = Ok ()).
#[local] Set Default Proof Using "All".

Abbreviation L' := (ledger_tx (keyDeposit pp) L (blockTx tx)).

Lemma accepted_certs : IsValid tx = true ->
  certs_ok (keyDeposit pp) (pDRepDeposit pp) (foldl withdraw L (withdrawals tx)) (Certificates tx).
Proof.
  intros Hv. destruct (accepted_withdrawals sv other tx slot ls pp L R Hv (proj1 Hwf) H) as [Hp Hn].
  apply (proj1 (deposits_exact ls pp tx L R W Hv Hk Hd Hp Hn)).
  exact (accepted_valid _ _ _ _ _ _ 8 2 _ _ Hv H eq_refl eq_refl).
Qed.

(** The sums after the body, and the tally of the value rule. *)
Lemma accepted_settle : IsValid tx = true ->
  accounts_wf (settle pp L tx) /\
  msum (lBalance (settle pp L tx)) = msum (lBalance L) - sum_by (fun w => default 0 (snd w)) (withdrawals tx) /\
  exists t, tallyLoop ls pp true (Certificates tx) (mkTally 0 0 ∅ ∅) = Ok t /\
            deposits t - refunds t = depositTotal (settle pp L tx) - depositTotal L.
Proof.
  intros Hv. destruct (accepted_withdrawals sv other tx slot ls pp L R Hv (proj1 Hwf) H) as [Hp Hn].
  destruct (withdrawals_fields _ L Hp Hn W) as (W1 & EB & ba & E). cbn zeta in *.
  destruct (tallyLoop_seen ls L R W pp (Certificates tx) (mkTally 0 0 ∅ ∅) (foldl withdraw L (withdrawals tx)) (accepted_certs Hv) W1)
    as (W2 & EB2 & t & Et & ET).
  - intros c. unfold tally_seen. cbn. by rewrite lookup_empty, E.
  - intros c. unfold drep_seen. cbn. by rewrite lookup_empty, E.
  - split; [exact W2|]. split; [unfold settle; lia|]. exists t. split; [exact Et|]. cbn [deposits refunds] in ET.
    assert (D : depositTotal (foldl withdraw L (withdrawals tx)) = depositTotal L) by by rewrite E. unfold settle. lia.
Qed.

Lemma accepted_pools : IsValid tx = true -> forall produced,
  poolDepositLoop ls pp slot (Certificates tx) ∅ produced =
  Ok (produced + PoolDeposit (shelleyParams pp) * (Z.of_nat (size (lPool (settle pp L tx))) - Z.of_nat (size (lPool L)))).
Proof.
  intros Hv produced. destruct (accepted_withdrawals sv other tx slot ls pp L R Hv (proj1 Hwf) H) as [Hp Hn].
  destruct (withdrawals_fields _ L Hp Hn W) as (_ & _ & ba & E). cbn zeta in E.
  assert (EP : lPool (foldl withdraw L (withdrawals tx)) = lPool L) by by rewrite E.
  rewrite (poolDepositLoop_sum ls L slot pp (fun p => depositDue_new ls L slot epoch f p R Hf He Hr) _ _ _ (foldl withdraw L (withdrawals tx))).
  - rewrite EP. done.
  - intros p. rewrite EP. set_solver.
Qed.

(** The value rule, spelled out. *)
Lemma accepted_value : IsValid tx = true ->
  adaTotal pp L' + charge pp L tx = adaTotal pp L + mintedAda tx /\ forall p n, assetTotal L' p n = assetTotal L p n + minted tx p n.
Proof.
  intros Hv. destruct (accepted_inputs sv other tx slot ls pp L R H) as (Hni & _ & Hin).
  pose proof (accepted_always _ _ _ _ _ _ 7 19 _ _ H eq_refl eq_refl) as V. cbn [ruleFunc] in V.
  unfold UtxoValidateValueNotConservedUtxo, conwayValueConservationDeposits in V. rewrite Hv in V.
  destruct (accepted_settle Hv) as (_ & EB & t & Et & ED). rewrite Et in V. cbn [mbind result_bind] in V.
  apply bind_Ok in V as ([refs deps] & E1 & V). apply bind_Ok in E1 as ([] & _ & [= <- <-]).
  rewrite (accepted_pools Hv) in V. cbn [mbind result_bind] in V. apply bind_Ok in V as (producedValue & E2 & V).
  fold (withdrawals tx) in V. rewrite (inputAmount_ada ls L _ R) in V.
  assert (EM : default 0 (m ← AssetMint tx; Asset m (repeat 0 28) []) = quantityOf (AssetMint tx) (repeat 0 28) []).
  { by destruct (AssetMint tx). }
  rewrite EM in V. destruct (Z.eqb_spec
    (sum_by (fun i => default 0 (outAda <$> lUtxo L !! i)) (Inputs tx) + sum_by (fun w => default 0 (snd w)) (withdrawals tx)
       + refunds t + quantityOf (AssetMint tx) (repeat 0 28) []) producedValue) as [EV|]; cbn [negb] in V; [|done].
  destruct (ledger_tx_fields pp L tx) as (FU & _ & FB & FD & FR & FP & _). cbn zeta in *. rewrite Hv in FB, FD, FR, FP.
  assert (EC : Consumed tx = Inputs tx) by (unfold Consumed; by rewrite Hv).
  assert (SU : forall g, usum g (lUtxo L') = usum g (lUtxo L) - sum_by (fun i => default 0 (g <$> lUtxo L !! i)) (Inputs tx) + sum_by g (Outputs tx)).
  { intros g. rewrite FU, spendAndProduce_sum, Hv, EC; try done; [by rewrite EC|by rewrite EC|apply Hwf]. }
  split.
  - assert (EDon : producedValue = sum_by outAda (Outputs tx) + default 0 (Fee tx) + deposits t
        + PoolDeposit (shelleyParams pp) * (Z.of_nat (size (lPool (settle pp L tx))) - Z.of_nat (size (lPool L)))
        + blen (ProposalProcedures tx) * pGovActionDeposit pp + Z.max 0 (default 0 (Donation tx))).
    { destruct (Z.ltb_spec 0 (default 0 (Donation tx))) in E2.
      - apply bind_Ok in E2 as (_ & _ & E2). injection E2 as <-. unfold outAda. cbn zeta. change (PoolDeposit (shelleyParams pp)) with (pPoolDeposit pp). lia.
      - injection E2 as <-. unfold outAda. cbn zeta. change (PoolDeposit (shelleyParams pp)) with (pPoolDeposit pp). lia. }
    unfold adaTotal, charge, mintedAda, depositTotal, drepDeposits. rewrite Hv, SU, FB, FD, FR, FP.
    unfold depositTotal, drepDeposits in ED. rewrite EB. lia.
  - intros p n. unfold assetTotal, minted. rewrite Hv, SU.
    assert (EA : compareAssets (consumedAssetsOf isAda ls tx) (producedAssetsOf tx) = Ok ()).
    { by destruct (compareAssets _ _) as [[]|[]]. }
    pose proof (proj1 (compareAssets_exact _ _) EA p n) as Q. rewrite (consumedAssets_total isAda ls L tx p n R), producedAssets_total in Q. lia.
Qed.

(** The collateral of a transaction whose scripts failed. *)
Lemma accepted_collateral : IsValid tx = false ->
  (forall i, i ∈ Collateral tx -> is_Some (lUtxo L !! i)) /\
  (forall p n, collateralOf (outQuantity p n) L tx = default 0 (outQuantity p n <$> CollateralReturn tx)) /\
  default 0 (Fee tx) * pCollateralPercentage pp <= 100 * (collateralOf outAda L tx - returned tx).
Proof.
  intros Hv. pose proof (accepted_always _ _ _ _ _ _ 6 0 _ _ H eq_refl eq_refl) as F. cbn [ruleFunc] in F.
  unfold UtxoValidateIsValidFlag in F. rewrite Hv in F. destruct (HasRedeemers tx) eqn:Er; [clear F|done].
  pose proof (accepted_always _ _ _ _ _ _ 7 12 _ _ H eq_refl eq_refl) as V1.
  pose proof (accepted_always _ _ _ _ _ _ 7 13 _ _ H eq_refl eq_refl) as V2. cbn [ruleFunc] in V1, V2.
  unfold UtxoValidateInsufficientCollateral in V1. unfold UtxoValidateCollateralContainsNonAda in V2. rewrite Er in V1, V2.
  cbn [negb] in V1, V2. apply bind_Ok in V1 as (total & E1 & V1). apply bind_Ok in V2 as (assets & E2 & V2).
  destruct (collateralSum_exact ls L R (Collateral tx) 0 total E1) as [Hin ->].
  pose proof (collateralAssets_exact ls L R (Collateral tx) ∅ assets E2) as Q. split; [done|]. split.
  - intros p n. destruct (Compare assets _) eqn:EC; [|done]. apply compare_quantity with (policy := p) (name := n) in EC.
    rewrite Q in EC. change (quantity ∅ p n) with (default 0 (Asset ∅ p n)) in EC. unfold Asset in EC.
    rewrite lookup_empty in EC. unfold collateralOf. etrans; [exact EC|]. by destruct (CollateralReturn tx).
  - unfold ValidateInsufficientCollateral in V1. unfold collateralOf. destruct (Z.leb_spec (default 0 (Fee tx) * pCollateralPercentage pp)
      ((0 + sum_by (fun i => default 0 (outAda <$> lUtxo L !! i)) (Collateral tx) - returned tx) * 100)); [lia|done].
Qed.

Lemma accepted_invalid : IsValid tx = false ->
  adaTotal pp L' + charge pp L tx = adaTotal pp L + mintedAda tx /\ forall p n, assetTotal L' p n = assetTotal L p n + minted tx p n.
Proof.
  intros Hv. destruct (accepted_collateral Hv) as (Hin & HA & _).
  destruct (accepted_inputs sv other tx slot ls pp L R H) as (_ & Hnc & _).
  destruct (ledger_tx_fields pp L tx) as (FU & _ & FB & FD & FR & FP & _). cbn zeta in *. rewrite Hv in FB, FD, FR, FP.
  assert (EC : Consumed tx = Collateral tx) by (unfold Consumed; by rewrite Hv).
  assert (SU : forall g, usum g (lUtxo L') = usum g (lUtxo L) - collateralOf g L tx + default 0 (g <$> CollateralReturn tx)).
  { intros g. rewrite FU, spendAndProduce_sum, Hv, EC; try done; [by rewrite EC|by rewrite EC|apply Hwf]. }
  split.
  - unfold adaTotal, charge, mintedAda, depositTotal, drepDeposits. rewrite Hv, SU, FB, FD, FR, FP.
    assert (default 0 (outAda <$> CollateralReturn tx) = returned tx) as -> by (unfold returned; by destruct (CollateralReturn tx)). lia.
  - intros p n. unfold assetTotal, minted. rewrite Hv, SU, HA. lia.
Qed.

Lemma accepted_conserves :
  adaTotal pp L' + charge pp L tx = adaTotal pp L + mintedAda tx /\ forall p n, assetTotal L' p n = assetTotal L p n + minted tx p n.
Proof. destruct (IsValid tx) eqn:E; [by apply accepted_value|by apply accepted_invalid]. Qed.

(** The ledger stays well-formed. *)
Lemma accepted_wf : accounts_wf L' /\ reaped epoch L'.
Proof.
  destruct (ledger_tx_fields pp L tx) as (_ & FS & FB & FD & _ & FP & FR). cbn zeta in *.
  assert (Q : accounts_wf (if IsValid tx then settle pp L tx else L) /\ reaped epoch (if IsValid tx then settle pp L tx else L)).
  { destruct (IsValid tx) eqn:Hv; [|done]. split; [by apply accepted_settle|].
    pose proof (accepted_valid _ _ _ _ _ _ 8 12 _ _ Hv H eq_refl eq_refl) as V. cbn [ruleFunc] in V. apply fromShelley_Ok in V.
    destruct (accepted_withdrawals sv other tx slot ls pp L R Hv (proj1 Hwf) H) as [Hp Hn].
    destruct (withdrawals_fields _ L Hp Hn W) as (_ & _ & ba & E). cbn zeta in E.
    assert (R1 : reaped epoch (foldl withdraw L (withdrawals tx))) by by rewrite E.
    assert (Rt : forall p e, PoolRetirementCertificate p e ∈ Certificates tx -> epoch < e).
    { intros p e. by apply (retirements_later tx slot ls pp f epoch p e). }
    unfold settle. revert R1 Rt. generalize (foldl withdraw L (withdrawals tx)). clear.
    induction (Certificates tx) as [|cert certs IH]; intros M R1 Rt; cbn [foldl]; [done|]. apply IH.
    - apply certify_reaped; [done|]. intros p e ->. apply (Rt p). by left.
    - intros p e Hin. apply (Rt p). by right. }
  destruct Q as [[Q1 Q2] Q3]. split; [split; intros c; rewrite FS, ?FB, ?FD; [apply Q1|apply Q2]|].
  intros p e. rewrite FP, FR. apply Q3.
Qed.
End Accepted.

(** ** Blocks *)

(** A ledger between blocks of an epoch. *)
Record start_ok (epoch : Z) (L0 : CLedger) : Prop := {
  so_wf : ledger_wf L0;
  so_accounts : accounts_wf L0;
  so_reaped : reaped epoch L0;
  so_future : lFuture L0 = ∅
}.

(** What is taken for granted of the transactions of a block: no two have the
    same hash and none has outputs yet, and the committee's cold credentials are
    told apart by their hash ([D] are those of the ledger and the block). *)
Record block_ok (D : Credential -> Prop) (L0 : CLedger) (txs : list ConwayTransaction) : Prop := {
  bo_txs : Forall tx_wf txs;
  bo_ids : NoDup (Hash <$> txs);
  bo_fresh tx k : tx ∈ txs -> lUtxo L0 !! (Hash tx, k) = None;
  bo_cold : cold_distinct D L0 NewBlockLedgerState;
  bo_colds tx cert c : tx ∈ txs -> cert ∈ Certificates tx -> coldOf cert = Some c -> D c;
  bo_count : sum_by (fun tx => blen (Certificates tx)) txs <= MaxUint64
}.

(** What the block's transactions take out, each from the ledger it meets. *)
Fixpoint charges (pp : ConwayProtocolParameters) (L : CLedger) (txs : list ConwayTransaction) : Z :=
  match txs with [] => 0 | tx :: txs => charge pp L tx + charges pp (ledger_tx (keyDeposit pp) L (blockTx tx)) txs end.

Section Block.
Context (sv : ScriptView) (other : RuleId -> Rule) (slot epoch : Z) (f : Z -> option Z) (pp : ConwayProtocolParameters).
Context (base : ConwayState) (L0 : CLedger) (D : Credential -> Prop).
Context (R : reports (lstate base) L0) (S0 : start_ok epoch L0).
Context (Hf : epochForSlot base = Some f) (He : f slot = Some epoch).
Context (Hk : 0 <= keyDeposit pp <= MaxUint64) (Hd : 0 <= pDRepDeposit pp <= MaxUint64).
#[local] Set Default Proof Using "All".

Lemma blockTx_effective tx : Forall (level_colds D) (effective (blockTx tx)) <->
  (IsValid tx = true -> forall cert c, cert ∈ Certificates tx -> coldOf cert = Some c -> D c).
Proof using Type.
  unfold effective, blockTx. cbn. destruct (IsValid tx); [|split; [done|constructor]].
  rewrite Forall_singleton. unfold level_colds. cbn. split; [intros H _; apply H|intros H; by apply H].
Qed.

Lemma blockTx_count tx : certCount (effective (blockTx tx)) <= blen (Certificates tx).
Proof using Type. unfold effective, blockTx, certCount, blen. cbn. destruct (IsValid tx); cbn; lia. Qed.

Lemma other_ids tx L k : (forall i, lUtxo L !! (k, i) = None) -> k <> Hash tx ->
  forall i, lUtxo (ledger_tx (keyDeposit pp) L (blockTx tx)) !! (k, i) = None.
Proof.
  intros H N i. destruct (ledger_tx_fields pp L tx) as (-> & _). unfold spendAndProduce. rewrite produce_only.
  - apply spend_keeps, H.
  - intros E%Produced_keys. done.
Qed.

Lemma verifyBlockLoop_conserves txs : forall idx b L b',
  overlay L0 b L -> cold_distinct D L0 b -> accounts_wf L -> reaped epoch L ->
  Forall tx_wf txs -> NoDup (Hash <$> txs) -> (forall tx k, tx ∈ txs -> lUtxo L !! (Hash tx, k) = None) ->
  (forall tx cert c, tx ∈ txs -> cert ∈ Certificates tx -> coldOf cert = Some c -> D c) ->
  seq b + sum_by (fun tx => blen (Certificates tx)) txs <= MaxUint64 ->
  verifyBlockLoop idx (UtxoValidationRules sv other) txs slot base pp b = Ok b' ->
  let L' := foldl (ledger_tx (keyDeposit pp)) L (blockTx <$> txs) in
  reports (view (lstate base) b') L' /\
  adaTotal pp L' + charges pp L txs = adaTotal pp L + sum_by mintedAda txs /\
  forall p n, assetTotal L' p n = assetTotal L p n + sum_by (fun tx => minted tx p n) txs.
Proof.
  induction txs as [|tx txs IH]; intros idx b L b' O C WA WR Ht Hn Hfr Hc Hs; cbn [verifyBlockLoop].
  - intros [= <-]. cbn. split; [by apply (view_reports (lstate base) L0 b L D (so_wf _ _ S0) R O)|]. split; [lia|intros; lia].
  - destruct (verifyRules 0 _ tx slot (viewOf base b) pp) as [[]|[r e]] eqn:V; [|done].
    pose proof (view_reports (lstate base) L0 b L D (so_wf _ _ S0) R O C) as RV.
    apply Forall_cons in Ht as [Ht Hts]. rewrite fmap_cons in Hn. apply NoDup_cons in Hn as [Hh Hn]. cbn [sum_by] in Hs.
    pose proof (fun k => Hfr tx k ltac:(left)) as Hid. pose proof (blockTx_count tx) as Hcnt.
    destruct (accepted_conserves sv other slot epoch f pp (viewOf base b) L tx RV WA WR Hf He Hk Hd Ht Hid V) as [EA EQ].
    destruct (accepted_wf sv other slot epoch f pp (viewOf base b) L tx RV WA WR Hf He Hk Hd Ht Hid V) as [WA' WR'].
    assert (Nn : 0 <= sum_by (fun tx => blen (Certificates tx)) txs) by (apply sum_by_nonneg; intros; apply blen_nonneg).
    destruct (sim_transaction (lstate base) L0 D R (so_wf _ _ S0) (keyDeposit pp) (blockTx tx) Hk) with (b := b) (L := L)
      as (b1 & E1 & O1 & C1 & B1).
    + apply blockTx_effective. intros _ cert c. apply Hc. left.
    + done.
    + exact O.
    + apply C.
    + lia.
    + rewrite E1. intros E. cbn [fmap list_fmap foldl charges sum_by].
      assert (C' : cold_distinct D L0 b1) by (destruct C as (C2 & C3 & _); done).
      assert (Hfr' : forall tx' k, tx' ∈ txs -> lUtxo (ledger_tx (keyDeposit pp) L (blockTx tx)) !! (Hash tx', k) = None).
      { intros tx' k Hin. apply other_ids; [intros i; apply Hfr; by right|]. intros Eq. apply Hh. rewrite <- Eq.
        by apply list_elem_of_fmap_2. }
      assert (Hs' : seq b1 + sum_by (fun tx => blen (Certificates tx)) txs <= MaxUint64) by lia.
      destruct (IH _ b1 _ b' O1 C' WA' WR' Hts Hn Hfr' (fun tx' cert c Hin => Hc tx' cert c (list_elem_of_further _ _ _ Hin)) Hs' E)
        as (RV' & EA' & EQ').
      split; [exact RV'|]. split; [lia|]. intros p n. rewrite EQ', EQ. lia.
Qed.
End Block.

(** C2. A block whose transactions pass the Conway rules, each against the view
    after the ones before it, conserves value. The view reports the ledger after
    the block; what the ledger holds of ada, in outputs, reward accounts and
    deposits of credentials, DReps and pools, has gone down by exactly the fees,
    donations and proposal deposits of the transactions (by the collateral of
    those whose scripts failed) and up by what they mint under the policy of
    zeros and the empty name, which the value rule counts as ada; of every other
    asset, it has changed by what was minted. *)
Theorem block_conserves_value sv other slot epoch f pp base (L0 : CLedger) D txs b :
  reports (lstate base) L0 -> start_ok epoch L0 -> epochForSlot base = Some f -> f slot = Some epoch ->
  0 <= keyDeposit pp <= MaxUint64 -> 0 <= pDRepDeposit pp <= MaxUint64 -> block_ok D L0 txs ->
  verifyBlockTransactions (UtxoValidationRules sv other) txs slot base pp = Ok b ->
  let L' := foldl (ledger_tx (keyDeposit pp)) L0 (blockTx <$> txs) in
  reports (view (lstate base) b) L' /\
  adaTotal pp L' + charges pp L0 txs = adaTotal pp L0 + sum_by mintedAda txs /\
  forall policy name, assetTotal L' policy name = assetTotal L0 policy name + sum_by (fun tx => minted tx policy name) txs.
Proof.
  intros R S0 Hf He Hk Hd [B1 B2 B3 B4 B5 B6] V.
  apply (verifyBlockLoop_conserves sv other slot epoch f pp base L0 D R S0 Hf He Hk Hd txs 0 NewBlockLedgerState L0 b);
    try done; try apply S0. apply overlay_new, S0.
Qed.

(** C21. A transaction whose scripts failed costs at least the protocol's
    percentage of its fee in collateral, and nothing but ada: the assets of the
    ledger stay as they are, and so do accounts, deposits and pools. *)
Theorem failed_scripts_cost sv other slot epoch f pp ls (L : CLedger) tx :
  reports (lstate ls) L -> accounts_wf L -> reaped epoch L -> epochForSlot ls = Some f -> f slot = Some epoch ->
  0 <= keyDeposit pp <= MaxUint64 -> 0 <= pDRepDeposit pp <= MaxUint64 -> tx_wf tx -> (forall k, lUtxo L !! (Hash tx, k) = None) ->
  verifyRules 0 (UtxoValidationRules sv other) tx slot ls pp = Ok () -> IsValid tx = false ->
  let L' := ledger_tx (keyDeposit pp) L (blockTx tx) in
  default 0 (Fee tx) * pCollateralPercentage pp <= 100 * (adaTotal pp L - adaTotal pp L') /\
  (forall policy name, assetTotal L' policy name = assetTotal L policy name) /\
  lBalance L' = lBalance L /\ lDeposit L' = lDeposit L /\ lDRep L' = lDRep L /\ lPool L' = lPool L.
Proof.
  intros R W Hr Hf He Hk Hd Hwf Hid H Hv.
  destruct (accepted_conserves sv other slot epoch f pp ls L tx R W Hr Hf He Hk Hd Hwf Hid H) as [EA EQ].
  destruct (accepted_collateral sv other slot epoch f pp ls L tx R W Hr Hf He Hk Hd Hwf Hid H Hv) as (_ & _ & Hc).
  destruct (ledger_tx_fields pp L tx) as (_ & _ & FB & FD & FR & FP & _). cbn zeta in *. rewrite Hv in FB, FD, FR, FP.
  split; [|split; [|done]].
  - unfold charge, mintedAda in EA. rewrite Hv in EA. lia.
  - intros p n. rewrite EQ. unfold minted. rewrite Hv. lia.
Qed.

(** ** A block of two transactions *)

(** The first spends an output of 100 with five of an asset, withdraws the
    rewards of an account and deregisters it, registers a DRep and a pool, mints
    three of the asset, donates and proposes. The scripts of the second fail,
    and its collateral is the output of the first. *)
Definition cwPolicy : bytes := repeat 7 28.
Definition cwAsset (q : Z) : option MultiAsset := Some {[cwPolicy := {[[65] := q]}]}.
Definition cwRedeemer : WitnessSet := mkWitnessSet [] [] [] [] [] [] [] [((0, 0), mkExUnits 1 1)].

Definition cwOut (a q : Z) : ConwayOutput := mkConwayOutput demoAddress (Some a) (if q =? 0 then None else cwAsset q) None (Some 40).

Definition cwParams : ConwayProtocolParameters := demoConwayParams.

Definition cwLedger : CLedger :=
  mkBLedger {[([9], 0) := cwOut 100 5; ([9], 1) := cwOut 20 0]} {[demoKey]} {[demoKey]} {[demoKey := 10]} {[demoKey := 2]}
    {[demoKey := mkDrep 2 []]} ∅ ∅ ∅ ∅ ∅ ∅ ∅ ∅ ∅.

Definition cwState : ConwayState := mkConwayState (stateOf cwLedger) 0 (Some (fun _ => Some 3)) (mkGovState (Ok None) None None None None).

Definition cwDRep : Credential := (1, repeat 2 28).

Definition cwTx1 : ConwayTransaction :=
  mkConwayTx [1] [([9], 0)] [] [] [cwOut 92 8] None None (Some 3) (Some [(Some demoAddress, Some 10)])
    [StakeDeregistrationCertificate demoKey; RegistrationDrepCertificate cwDRep 5 None; PoolRegistrationCert demoPool]
    (cwAsset 3) [mkProposal 4 demoAddress (Some InfoGovAction)] [] (Some 1) true None None [] None None.

Definition cwTx2 : ConwayTransaction :=
  mkConwayTx [2] [([9], 1)] [([1], 0)] [] [cwOut 15 0] (Some (cwOut 80 8)) (Some 12) (Some 5) None [] None [] [] None false None None [] (Some cwRedeemer) None.

Definition cwView : ScriptView := fun _ _ => (None, (false, false)).
Definition cwOther : RuleId -> Rule := fun _ _ _ _ _ => Ok ().

Lemma cwLedger_start : start_ok 3 cwLedger.
Proof.
  split.
  - split; intros c r H; discriminate H.
  - split; intros c; cbn [cwLedger lStake lBalance lDeposit]; rewrite elem_of_singleton; split.
    1,3: intros ->; rewrite lookup_singleton_eq; by eexists.
    1,2: by intros [x [<- _]%lookup_singleton_Some].
  - intros p e [x H]. discriminate H.
  - reflexivity.
Qed.

Lemma cwState_reports : reports (lstate cwState) cwLedger.
Proof. apply stateOf_reports; [apply cwLedger_start|]. intros c c' [m H]. discriminate H. Qed.

Lemma demoAddress_wf : addr_wf demoAddress.
Proof. intros raw cred [= <-] [= <-]. reflexivity. Qed.

Lemma cwTxs_ok : block_ok (fun _ => False) cwLedger [cwTx1; cwTx2].
Proof.
  split.
  - repeat constructor; try (intros a x Ha; cbn in Ha).
    + apply list_elem_of_singleton in Ha as [= -> ->]. apply demoAddress_wf.
    + vm_compute. discriminate.
    + by apply elem_of_nil in Ha.
    + vm_compute. discriminate.
  - cbn. apply NoDup_cons. split; [|apply NoDup_singleton]. by intros [=]%list_elem_of_singleton.
  - intros tx k. cbn [cwLedger lUtxo]. intros [->|[->|?%elem_of_nil]%elem_of_cons]%elem_of_cons; [| |done];
      cbn [Hash cwTx1 cwTx2]; rewrite lookup_insert_ne, lookup_singleton_ne by congruence; done.
  - split; [done|]. split; intros c [m H]; discriminate H.
  - intros tx cert c [->|[->|?%elem_of_nil]%elem_of_cons]%elem_of_cons; [| |done]; cbn [Certificates cwTx1 cwTx2];
      rewrite ?elem_of_cons, elem_of_nil; naive_solver.
  - vm_compute. discriminate.
Qed.

(** Witness of C2: the fee, the donation and the proposal of the first take 8,
    the collateral of the second 12. *)
Lemma block_conserves_value_witness :
  exists b, verifyBlockTransactions (UtxoValidationRules cwView cwOther) [cwTx1; cwTx2] 40 cwState cwParams = Ok b /\
    let L' := foldl (ledger_tx 2) cwLedger (blockTx <$> [cwTx1; cwTx2]) in
    adaTotal cwParams L' + 20 = adaTotal cwParams cwLedger /\ assetTotal L' cwPolicy [65] = 8.
Proof.
  assert (V : is_ok (verifyBlockTransactions (UtxoValidationRules cwView cwOther) [cwTx1; cwTx2] 40 cwState cwParams) = true)
    by (vm_compute; reflexivity).
  destruct (verifyBlockTransactions _ _ _ _ _) as [b|] eqn:E; [|discriminate]. exists b. split; [reflexivity|].
  destruct (block_conserves_value cwView cwOther 40 3 (fun _ => Some 3) cwParams cwState cwLedger (fun _ => False) [cwTx1; cwTx2] b)
    as (_ & A & Q); try reflexivity.
  - apply cwState_reports.
  - apply cwLedger_start.
  - vm_compute. split; discriminate.
  - vm_compute. split; discriminate.
  - apply cwTxs_ok.
  - exact E.
  - assert (C : charges cwParams cwLedger [cwTx1; cwTx2] = 20) by (vm_compute; reflexivity). rewrite C in A.
    assert (M : sum_by mintedAda [cwTx1; cwTx2] = 0) by (vm_compute; reflexivity). rewrite M, Z.add_0_r in A.
    split; [exact A|]. rewrite Q. vm_compute. reflexivity.
Defined.

(** Witness of C19: the certificates of the first transaction fit. *)
Lemma certificate_deposits_exact_witness :
  certs_ok 2 5 (foldl withdraw cwLedger (withdrawals cwTx1)) (Certificates cwTx1).
Proof.
  apply (certificate_deposits_exact cwView cwState cwParams cwTx1 cwLedger).
  - apply cwState_reports.
  - apply cwLedger_start.
  - reflexivity.
  - vm_compute. split; discriminate.
  - vm_compute. split; discriminate.
  - intros a x Ha. apply list_elem_of_singleton in Ha as [= -> ->]. apply demoAddress_wf.
  - vm_compute. reflexivity.
  - vm_compute. reflexivity.
  - vm_compute. reflexivity.
Defined.

Definition cwTx3 : ConwayTransaction :=
  mkConwayTx [3] [([9], 1)] [([9], 0)] [] [cwOut 15 0] (Some (cwOut 88 5)) (Some 12) (Some 5) None [] None [] [] None false None None [] (Some cwRedeemer) None.

(** Witness of C21: 12 of collateral for a fee of 5, of which 150 percent is due. *)
Lemma failed_scripts_cost_witness :
  let L' := ledger_tx 2 cwLedger (blockTx cwTx3) in
  5 * 150 <= 100 * (adaTotal cwParams cwLedger - adaTotal cwParams L') /\ assetTotal L' cwPolicy [65] = 5.
Proof.
  destruct (failed_scripts_cost cwView cwOther 40 3 (fun _ => Some 3) cwParams cwState cwLedger cwTx3) as (A & Q & _); try reflexivity.
  - apply cwState_reports.
  - apply cwLedger_start.
  - apply cwLedger_start.
  - vm_compute. split; discriminate.
  - vm_compute. split; discriminate.
  - split; [|vm_compute; discriminate]. intros a x Ha. by apply elem_of_nil in Ha.
  - intros k. cbn [cwLedger lUtxo Hash cwTx3]. rewrite lookup_insert_ne, lookup_singleton_ne by congruence. reflexivity.
  - split; [exact A|]. rewrite Q. vm_compute. reflexivity.
Defined.
