(* ===== verification/Witness.v ===== *)
(** * Authorisation of Conway transactions (src/ledger/common/rules.go, verify.go,
      witness.go, duplicates.go, src/ledger/common/script)

    Which keys must sign a transaction and which scripts must run, the two walks
    over a transaction's script purposes, the view of its scripts, and the rules
    that check signatures, script witnesses, redeemers and native scripts. A
    resolved input comes with the output that the ledger state has for it. *)

From stdpp Require Import sorting.
From S2P Require Import Prelude Scripts ShelleyRules Params MultiAsset BlockState Conway.
#[local] Open Scope Z_scope.

Definition CredentialTypeAddrKeyHash : Z := 0.
Definition CredentialTypeScriptHash : Z := 1.
Definition AddressTypeScriptBit : Z := 1.

Definition RedeemerTagSpend : Z := 0.
Definition RedeemerTagMint : Z := 1.
Definition RedeemerTagCert : Z := 2.
Definition RedeemerTagReward : Z := 3.
Definition RedeemerTagVoting : Z := 4.
Definition RedeemerTagProposing : Z := 5.

Definition werr {A} (e : witnessError) : result conwayError A := Err (WitnessErr e).

(** The lists that the elements give, up to the first error. *)
Fixpoint collect {E A B} (f : A -> result E B) (l : list A) : result E (list B) :=
  match l with
  | [] => Ok []
  | x :: l => y ← f x; ys ← collect f l; Ok (y :: ys)
  end.

(** ** Credentials that authorise *)

(** [forEachCertificateCredential]: the credential that is visited, and whether
    it must be witnessed. *)
Definition visitCredential (c : Credential) (requiresWitness : bool) : result conwayError (option (Credential * bool)) :=
  if (fst c =? CredentialTypeAddrKeyHash) || (fst c =? CredentialTypeScriptHash) then Ok (Some (c, requiresWitness))
  else werr (MalformedAuthorization "certificate credential type").

Definition forEachCertificateCredential (cert : BlockCertificate) : result conwayError (option (Credential * bool)) :=
  match cert with
  | StakeRegistrationCertificate c => visitCredential c false
  | StakeDeregistrationCertificate c | StakeDelegationCertificate c _ | RegistrationCertificate c _
  | DeregistrationCertificate c _ | VoteDelegationCertificate c _ | StakeVoteDelegationCertificate c _ _
  | StakeRegistrationDelegationCertificate c _ _ | VoteRegistrationDelegationCertificate c _ _
  | StakeVoteRegistrationDelegationCertificate c _ _ _ | AuthCommitteeHotCertificate c _
  | ResignCommitteeColdCertificate c _ | RegistrationDrepCertificate c _ _ | DeregistrationDrepCertificate c _
  | UpdateDrepCertificate c _ => visitCredential c true
  | PoolRegistrationCert _ | PoolRetirementCertificate _ _ | GenesisKeyDelegationCertificate _ _ _
  | MoveInstantaneousRewardsCertificate _ _ => Ok None
  end.

Definition voterCredential (v : option Voter) : result conwayError Credential :=
  match v with
  | None => werr (MalformedAuthorization "nil voter")
  | Some v =>
    if (voterType v =? VoterTypeConstitutionalCommitteeHotKeyHash) || (voterType v =? VoterTypeDRepKeyHash) ||
       (voterType v =? VoterTypeStakingPoolKeyHash) then Ok (CredentialTypeAddrKeyHash, voterHash v)
    else if (voterType v =? VoterTypeConstitutionalCommitteeHotScriptHash) || (voterType v =? VoterTypeDRepScriptHash)
    then Ok (CredentialTypeScriptHash, voterHash v)
    else werr (MalformedAuthorization "voter type")
  end.

Definition ofType (t : Z) (c : Credential) : list (list Z) := if fst c =? t then [snd c] else [].

Section Rules.
Context `{WitnessCrypto}.

Definition withdrawalsOf (tx : ConwayTransaction) : list (option Address * option Z) := default [] (Withdrawals tx).

(** ** Keys that must sign *)

Definition certificateSigners (cert : BlockCertificate) : result conwayError (list KeyHash) :=
  visited ← forEachCertificateCredential cert;
  let own := match visited with Some (c, true) => ofType CredentialTypeAddrKeyHash c | _ => [] end in
  match cert with
  | PoolRegistrationCert reg => Ok (own ++ Operator reg :: PoolOwners reg)
  | PoolRetirementCertificate pool _ => Ok (own ++ [pool])
  | GenesisKeyDelegationCertificate genesisHash _ _ =>
    if negb (blen genesisHash =? 28) then werr (MalformedAuthorization "genesis key hash length") else Ok (own ++ [genesisHash])
  | _ => Ok own
  end.

(** The hashes of the keys of the witnesses. *)
Definition vkeyHashes (w : option WitnessSet) : gset KeyHash :=
  match w with None => ∅ | Some w => list_to_set ((fun v => Blake2b224Hash (Vkey v)) <$> Vkeys w) end.

(** [required] is a set; the signer that is reported is the first in the order
    the code collects them. *)
Definition requiredKeys (tx : ConwayTransaction) : result conwayError (list KeyHash) :=
  rewards ← collect (fun w => c ← fromShelley (RewardAccountCredential (fst w)); Ok (ofType CredentialTypeAddrKeyHash c)) (withdrawalsOf tx);
  certs ← collect certificateSigners (Certificates tx);
  voters ← collect (fun v => c ← voterCredential (fst v); Ok (ofType CredentialTypeAddrKeyHash c)) (VotingProcedures tx);
  Ok (RequiredSigners tx ++ concat rewards ++ concat certs ++ concat voters).

Definition ValidateRequiredVKeyWitnesses (tx : ConwayTransaction) : ccheck :=
  _ ← fromShelley (ValidateWithdrawalAddresses (withdrawalsOf tx));
  required ← requiredKeys tx;
  if blen required =? 0 then Ok () else
  match Witnesses tx with
  | None => werr MissingVKeyWitnesses
  | Some w =>
    if blen (Vkeys w) =? 0 then werr MissingVKeyWitnesses else
    match list_find (fun h => h ∉ vkeyHashes (Some w)) required with
    | Some (_, h) => werr (MissingRequiredVKeyWitnessForSigner h)
    | None => Ok ()
    end
  end.

(** A key is witnessed by a key witness, or for a Byron address by a bootstrap
    witness that gives its root. *)
Definition hasBootstrap (w : option WitnessSet) (h : KeyHash) : bool :=
  match w with None => false | Some w => existsb (fun b => bool_decide (bootstrapKeyHash b = Some h)) (Bootstrap w) end.

Definition isByron (a : Address) : bool := addressType a =? AddressTypeByron.

Definition keyWitnessed (w : option WitnessSet) (byron : bool) (h : KeyHash) : bool :=
  bool_decide (h ∈ vkeyHashes w) || (byron && hasBootstrap w h).

Fixpoint inputWitnessLoop (w : option WitnessSet) (ls : ConwayState) (inputs : list TransactionInput) : ccheck :=
  match inputs with
  | [] => Ok ()
  | i :: inputs =>
    match UtxoById (lstate ls) i with
    | Err _ => inputWitnessLoop w ls inputs
    | Ok o =>
      match payment (outAddress o) with
      | Some (AddressPayloadKeyHash h) =>
        if keyWitnessed w (isByron (outAddress o)) h then inputWitnessLoop w ls inputs
        else werr (MissingInputWitness i h (isByron (outAddress o)))
      | _ => inputWitnessLoop w ls inputs
      end
    end
  end.

Definition ValidateInputVKeyWitnesses (tx : ConwayTransaction) (ls : ConwayState) : ccheck :=
  inputWitnessLoop (Witnesses tx) ls (Inputs tx).

Fixpoint collateralWitnessLoop (w : option WitnessSet) (ls : ConwayState) (inputs : list TransactionInput) : ccheck :=
  match inputs with
  | [] => Ok ()
  | i :: inputs =>
    match UtxoById (lstate ls) i with
    | Err _ => werr (UnresolvedCollateral i)
    | Ok o =>
      match payment (outAddress o) with
      | Some (AddressPayloadKeyHash h) =>
        if keyWitnessed w (isByron (outAddress o)) h then collateralWitnessLoop w ls inputs
        else werr (MissingCollateralWitness i h (isByron (outAddress o)))
      | _ => collateralWitnessLoop w ls inputs
      end
    end
  end.

Definition ValidateCollateralVKeyWitnesses (tx : ConwayTransaction) (ls : ConwayState) : ccheck :=
  if blen (Collateral tx) =? 0 then Ok () else collateralWitnessLoop (Witnesses tx) ls (Collateral tx).

Fixpoint keyLockedLoop (ls : ConwayState) (inputs : list TransactionInput) : ccheck :=
  match inputs with
  | [] => Ok ()
  | i :: inputs =>
    match UtxoById (lstate ls) i with
    | Err _ => werr (UnresolvedCollateral i)
    | Ok o => match payment (outAddress o) with
              | Some (AddressPayloadKeyHash _) => keyLockedLoop ls inputs
              | _ => werr (CollateralNotKeyLocked i)
              end
    end
  end.

Definition ValidateCollateralKeyLocked (tx : ConwayTransaction) (ls : ConwayState) : ccheck :=
  if negb (HasRedeemers tx) then Ok () else keyLockedLoop ls (Collateral tx).

(** ** Signatures *)

Fixpoint vkeyLoop (msg : bytes) (vs : list VkeyWitness) : ccheck :=
  match vs with
  | [] => Ok ()
  | v :: vs => match VerifyVKeySignature (Vkey v) (VkeySignature v) msg with
               | Err e => werr (InvalidVkeySignature e)
               | Ok _ => vkeyLoop msg vs
               end
  end.

(** A Conway transaction is signed by its hash. *)
Definition ValidateVKeyWitnesses (tx : ConwayTransaction) : ccheck :=
  match Witnesses tx with None => Ok () | Some w => vkeyLoop (Hash tx) (Vkeys w) end.

Fixpoint bootstrapLoop (msg : bytes) (bs : list BootstrapWitness) : ccheck :=
  match bs with
  | [] => Ok ()
  | b :: bs =>
    if negb (blen (BwPublicKey b) =? 32) then werr (InvalidBootstrapWitness (BadKeySize (blen (BwPublicKey b))))
    else if negb (blen (BwSignature b) =? 64) then werr (InvalidBootstrapWitness (BadSignatureSize (blen (BwSignature b))))
    else if negb (Ed25519Verify (BwPublicKey b) msg (BwSignature b)) then werr (InvalidBootstrapWitness BadSignature)
    else bootstrapLoop msg bs
  end.

Definition ValidateBootstrapWitnesses (tx : ConwayTransaction) : ccheck :=
  match Witnesses tx with None => Ok () | Some w => bootstrapLoop (Hash tx) (Bootstrap w) end.

(** [binary.LittleEndian.PutUint64]. *)
Definition le64 (n : Z) : bytes := rev (be_encode 8 n).

Definition writeBytes (data : bytes) : bytes := le64 (blen data) ++ data.

(** What is written to the hash. *)
Definition bindingInput (tx : ConwayTransaction) : bytes :=
  Hash tx ++
  match Witnesses tx with
  | None => []
  | Some w =>
    le64 (blen (Vkeys w)) ++ concat ((fun v => writeBytes (Vkey v) ++ writeBytes (VkeySignature v)) <$> Vkeys w) ++
    le64 (blen (Bootstrap w)) ++ concat ((fun b => writeBytes (BwPublicKey b) ++ writeBytes (BwSignature b)) <$> Bootstrap w)
  end.

Definition signatureBinding (tx : ConwayTransaction) : bytes := Sha256 (bindingInput tx).

Record PreverifiedSignatures := mkPreverified { binding : bytes; preverifyErr : ccheck }.

Definition PreverifySignatures (tx : ConwayTransaction) : PreverifiedSignatures :=
  mkPreverified (signatureBinding tx) (_ ← ValidateVKeyWitnesses tx; ValidateBootstrapWitnesses tx).

(** [cached] is the result that the ledger state carries. *)
Definition UtxoValidateSignatures (cached : option PreverifiedSignatures) (tx : ConwayTransaction) (ls : ConwayState) : ccheck :=
  let inline := _ ← ValidateVKeyWitnesses tx; ValidateBootstrapWitnesses tx in
  _ ← match cached with
      | Some p => if bool_decide (binding p = signatureBinding tx) then preverifyErr p else inline
      | None => inline
      end;
  ValidateInputVKeyWitnesses tx ls.

(** ** The validity interval *)

Definition UtxoValidateOutsideValidityIntervalUtxo (tx : ConwayTransaction) (slot : Z) : ccheck :=
  let start := default 0 (LowerBound tx) in
  if negb (start =? 0) && (slot <? start) then werr (OutsideValidityIntervalLower start slot)
  else match UpperBound tx with
       | Some end_ => if end_ <=? slot then werr (OutsideValidityIntervalUpper end_ slot) else Ok ()
       | None => Ok ()
       end.
End Rules.

(** ** Orders of inputs, withdrawals and voters *)

Definition holds {A} (le : A -> A -> bool) : A -> A -> Prop := fun x y => le x y = true.

#[global] Instance holds_dec {A} (le : A -> A -> bool) : RelDecision (holds le).
Proof. intros x y. unfold holds. apply _. Defined.

Definition sortBy {A} (le : A -> A -> bool) (l : list A) : list A := merge_sort (holds le) l.

Definition inputLe (a b : TransactionInput) : bool :=
  if bool_decide (fst a = fst b) then snd a <=? snd b else bytes_leb (fst a) (fst b).

(** A reward account in the order of cardano-ledger: network, scripts before
    keys, hash. *)
Definition credentialOrder (c : Credential) : Z := if fst c =? CredentialTypeScriptHash then 0 else 1.

Definition withdrawalLe (a b : Credential * Z) : bool :=
  if negb (snd a =? snd b) then snd a <? snd b
  else if negb (credentialOrder (fst a) =? credentialOrder (fst b)) then credentialOrder (fst a) <? credentialOrder (fst b)
  else bytes_leb (snd (fst a)) (snd (fst b)).

Definition voterPurposeOrder (v : Voter) : Z :=
  if voterType v =? VoterTypeConstitutionalCommitteeHotScriptHash then 0
  else if voterType v =? VoterTypeConstitutionalCommitteeHotKeyHash then 1
  else if voterType v =? VoterTypeDRepScriptHash then 2
  else if voterType v =? VoterTypeDRepKeyHash then 3
  else if voterType v =? VoterTypeStakingPoolKeyHash then 4 else -1.

Definition voterLe (a b : Voter) : bool :=
  if negb (voterPurposeOrder a =? voterPurposeOrder b) then voterPurposeOrder a <? voterPurposeOrder b
  else bytes_leb (voterHash a) (voterHash b).

Definition PaymentKeyHash (a : Address) : list Z :=
  match payment a with
  | Some (AddressPayloadKeyHash h) | Some (AddressPayloadScriptHash h) => h
  | _ => repeat 0 28
  end.

Definition StakeKeyHash (a : Address) : list Z := default (repeat 0 28) (snd <$> stakeCredential a).

Definition usesScript (a : Address) : bool := negb (Z.land (addressType a) AddressTypeScriptBit =? 0).

(** [GetPolicyHash] of the actions that have one. *)
Definition GetPolicyHash (a : GovAction) : option bytes :=
  match a with
  | ParameterChangeGovAction _ _ policy | TreasuryWithdrawalGovAction _ policy => policy
  | _ => None
  end.

(** ** The requirements of ValidateScriptWitnesses *)

Record scriptRequirement := mkRequirement { reqHash : ScriptHash; reqRedeemer : RedeemerKey }.

Record transactionScriptRequirements := mkRequirements {
  purposes : list scriptRequirement;
  explicit : gmap ScriptHash Script;
  available : gmap ScriptHash Script;
  reference : gset ScriptHash;
  nativeOrder : list ScriptHash
}.

(** [required]: the hashes of the purposes. *)
Definition required (r : transactionScriptRequirements) : list ScriptHash := reqHash <$> purposes r.

(** The purposes among the elements of a collection, each with its index. *)
Fixpoint indexFrom (tag k : Z) (l : list (option ScriptHash)) : list scriptRequirement :=
  match l with
  | [] => []
  | None :: l => indexFrom tag (k + 1) l
  | Some h :: l => mkRequirement h (tag, u32 k) :: indexFrom tag (k + 1) l
  end.

Definition scriptOf (c : Credential) : option ScriptHash :=
  if fst c =? CredentialTypeScriptHash then Some (snd c) else None.

(** The scripts of a witness set, in the order they are added. *)
Definition witnessScripts (w : option WitnessSet) : list Script :=
  match w with
  | None => []
  | Some w => (NativeScriptOf <$> NativeScriptWits w) ++ (PlutusScriptOf 1 <$> PlutusV1Scripts w) ++
      (PlutusScriptOf 2 <$> PlutusV2Scripts w) ++ (PlutusScriptOf 3 <$> PlutusV3Scripts w) ++ (PlutusScriptOf 4 <$> PlutusV4Scripts w)
  end.

(** The outputs of the inputs that resolve. *)
Definition resolvedOutputs (ls : ConwayState) (inputs : list TransactionInput) : list ConwayOutput :=
  omap (fun i => answer (UtxoById (lstate ls) i)) inputs.

Definition resolveReference (ls : ConwayState) (i : TransactionInput) : result conwayError ConwayOutput :=
  match UtxoById (lstate ls) i with Ok o => Ok o | Err _ => Err (ReferenceInputResolution i) end.

Section Requirements.
Context `{WitnessCrypto}.

Definition addScripts (m : gmap ScriptHash Script) (scripts : list Script) : gmap ScriptHash Script :=
  foldl (fun m s => <[scriptHashOf s := s]> m) m scripts.

Definition spendingHash (ls : ConwayState) (i : TransactionInput) : option ScriptHash :=
  match UtxoById (lstate ls) i with
  | Ok o => if usesScript (outAddress o) then Some (PaymentKeyHash (outAddress o)) else None
  | Err _ => None
  end.

Definition certificateHash (cert : BlockCertificate) : result conwayError (option ScriptHash) :=
  visited ← forEachCertificateCredential cert;
  Ok match visited with Some (c, true) => scriptOf c | _ => None end.

Definition withdrawalKey (w : option Address * option Z) : result conwayError (Credential * Z) :=
  c ← fromShelley (RewardAccountCredential (fst w));
  Ok (c, match fst w with Some a => networkId a | None => 0 end).

(** Every voter has a credential; the voters that are there. *)
Definition votersOf (tx : ConwayTransaction) : result conwayError (list Voter) :=
  _ ← collect (fun v => voterCredential (fst v)) (VotingProcedures tx);
  Ok (omap fst (VotingProcedures tx)).

Definition proposalHash (p : ProposalProcedure) : result conwayError (option ScriptHash) :=
  match PPGovAction p with
  | None => werr (MalformedAuthorization "nil governance action")
  | Some a =>
    match GetPolicyHash a with
    | None => Ok None
    | Some h => if blen h =? 28 then Ok (Some h) else werr (MalformedPolicyHash (blen h))
    end
  end.

Definition collectTransactionScriptRequirements (tx : ConwayTransaction) (ls : ConwayState)
    : result conwayError transactionScriptRequirements :=
  let explicit := addScripts ∅ (witnessScripts (Witnesses tx)) in
  let natives := match Witnesses tx with None => [] | Some w => nativeHash <$> NativeScriptWits w end in
  let spent := omap ScriptRef (resolvedOutputs ls (Inputs tx)) in
  refs ← collect (resolveReference ls) (ReferenceInputs tx);
  let referenced := omap ScriptRef refs in
  let spending := indexFrom RedeemerTagSpend 0 (spendingHash ls <$> sortBy inputLe (Inputs tx)) in
  let minting := match AssetMint tx with
                 | None => []
                 | Some m => indexFrom RedeemerTagMint 0 (Some <$> sortBy bytes_leb (Policies m))
                 end in
  certs ← collect certificateHash (Certificates tx);
  withdrawals ← collect withdrawalKey (withdrawalsOf tx);
  voters ← votersOf tx;
  votes ← collect (fun v => c ← voterCredential (Some v); Ok (scriptOf c)) (sortBy voterLe voters);
  proposals ← collect proposalHash (ProposalProcedures tx);
  Ok (mkRequirements
    (spending ++ minting ++ indexFrom RedeemerTagCert 0 certs ++
     indexFrom RedeemerTagReward 0 (scriptOf ∘ fst <$> sortBy withdrawalLe withdrawals) ++
     indexFrom RedeemerTagVoting 0 votes ++ indexFrom RedeemerTagProposing 0 proposals)
    explicit (addScripts (addScripts explicit spent) referenced)
    (list_to_set (scriptHashOf <$> spent ++ referenced)) natives).

Definition redeemersOf (tx : ConwayTransaction) : list RedeemerKey :=
  match Witnesses tx with None => [] | Some w => RedeemerKeys w end.

(** The loop over the purposes of [ValidateScriptWitnesses]. *)
Fixpoint redeemerLoop (available : gmap ScriptHash Script) (redeemers : list RedeemerKey) (ps : list scriptRequirement) : ccheck :=
  match ps with
  | [] => Ok ()
  | p :: ps =>
    let hasRedeemer := bool_decide (reqRedeemer p ∈ redeemers) in
    match available !! reqHash p with
    | Some (PlutusScriptOf _ _) =>
      if negb hasRedeemer then werr (MissingRedeemerForScript (reqHash p) (reqRedeemer p)) else redeemerLoop available redeemers ps
    | Some (NativeScriptOf _) =>
      if hasRedeemer : bool then werr (ExtraneousRedeemer (reqRedeemer p)) else redeemerLoop available redeemers ps
    | None => redeemerLoop available redeemers ps
    end
  end.

(** The script that is reported is the first in the order of the purposes, and
    in the order of the map for one that is not needed. *)
Definition ValidateScriptWitnesses (tx : ConwayTransaction) (ls : ConwayState) : ccheck :=
  _ ← fromShelley (ValidateWithdrawalAddresses (withdrawalsOf tx));
  r ← collectTransactionScriptRequirements tx ls;
  _ ← match list_find (fun h => available r !! h = None) (required r) with
      | Some (_, h) => werr (MissingScriptWitness h)
      | None => Ok ()
      end;
  _ ← match list_find (fun h => h ∉ required r \/ h ∈ reference r) (fst <$> map_to_list (explicit r)) with
      | Some (_, h) => werr (ExtraneousScriptWitness h)
      | None => Ok ()
      end;
  redeemerLoop (available r) (redeemersOf tx) (purposes r).

(** The bounds of the indices of each kind of redeemer. *)
Definition redeemerCount (tx : ConwayTransaction) (tag : Z) : option Z :=
  if tag =? RedeemerTagSpend then Some (blen (Inputs tx))
  else if tag =? RedeemerTagMint then Some (match AssetMint tx with None => 0 | Some m => blen (Policies m) end)
  else if tag =? RedeemerTagCert then Some (blen (Certificates tx))
  else if tag =? RedeemerTagReward then Some (blen (withdrawalsOf tx))
  else if tag =? RedeemerTagVoting then Some (blen (VotingProcedures tx))
  else if tag =? RedeemerTagProposing then Some (blen (ProposalProcedures tx))
  else None.

Definition inBounds (tx : ConwayTransaction) (key : RedeemerKey) : bool :=
  match redeemerCount tx (fst key) with Some n => snd key <? n | None => false end.

Definition ValidateExtraneousRedeemers (tx : ConwayTransaction) : ccheck :=
  match list_find (fun key => inBounds tx key = false) (redeemersOf tx) with
  | Some (_, key) => werr (ExtraneousRedeemer key)
  | None => Ok ()
  end.

Definition ValidateExactExtraneousRedeemers (tx : ConwayTransaction) (ls : ConwayState) : ccheck :=
  match collectTransactionScriptRequirements tx ls with
  | Err _ => ValidateExtraneousRedeemers tx
  | Ok r =>
    let needed := omap (fun p => match available r !! reqHash p with
                                 | Some (PlutusScriptOf _ _) => Some (reqRedeemer p)
                                 | _ => None
                                 end) (purposes r) in
    match list_find (fun key => key ∉ needed) (redeemersOf tx) with
    | Some (_, key) => werr (ExtraneousRedeemer key)
    | None => Ok ()
    end
  end.

(** [NativeScriptsForValidation], by the hash of each. *)
Definition NativeScriptsForValidation (tx : ConwayTransaction) (ls : ConwayState) : result conwayError (list NativeScript) :=
  r ← collectTransactionScriptRequirements tx ls;
  let pick (m : gmap ScriptHash Script) (needed : gmap ScriptHash NativeScript) h :=
    match m !! h with Some (NativeScriptOf s) => <[h := s]> needed | _ => needed end in
  let needed := foldl (pick (available r)) (foldl (pick (explicit r)) ∅ (nativeOrder r)) (required r) in
  Ok (omap (fun h => needed !! h) (sortBy bytes_leb (fst <$> map_to_list needed))).

(** [UsedPlutusVersions] of the common package. *)
Definition UsedPlutusVersionsOf (tx : ConwayTransaction) (ls : ConwayState) : result conwayError (gset Z) :=
  r ← collectTransactionScriptRequirements tx ls;
  Ok (list_to_set (omap (fun p => available r !! reqHash p ≫= PlutusScriptVersion) (purposes r))).
End Requirements.

(** ** The identity of a certificate *)

Definition certificateType (cert : BlockCertificate) : Z :=
  match cert with
  | StakeRegistrationCertificate _ => 0
  | StakeDeregistrationCertificate _ => 1
  | StakeDelegationCertificate _ _ => 2
  | PoolRegistrationCert _ => 3
  | PoolRetirementCertificate _ _ => 4
  | GenesisKeyDelegationCertificate _ _ _ => 5
  | MoveInstantaneousRewardsCertificate _ _ => 6
  | RegistrationCertificate _ _ => 7
  | DeregistrationCertificate _ _ => 8
  | VoteDelegationCertificate _ _ => 9
  | StakeVoteDelegationCertificate _ _ _ => 10
  | StakeRegistrationDelegationCertificate _ _ _ => 11
  | VoteRegistrationDelegationCertificate _ _ _ => 12
  | StakeVoteRegistrationDelegationCertificate _ _ _ _ => 13
  | AuthCommitteeHotCertificate _ _ => 14
  | ResignCommitteeColdCertificate _ _ => 15
  | RegistrationDrepCertificate _ _ _ => 16
  | DeregistrationDrepCertificate _ _ => 17
  | UpdateDrepCertificate _ _ => 18
  end.

(** What the functions that append a logical value append. *)
Definition logicalNumber (n : Z) : bytes := be_encode 8 (u64 n).
Definition logicalBytes (b : bytes) : bytes := logicalNumber (blen b) ++ b.
Definition logicalCredential (c : Credential) : bytes := logicalNumber (fst c) ++ snd c.
Definition logicalDrep (d : Drep) : bytes := logicalNumber (drepType d) ++ logicalBytes (drepCredential d).
Definition logicalAnchor (a : option GovAnchor) : bytes :=
  match a with None => [0] | Some (url, hash) => 1 :: logicalBytes url ++ hash end.

Section Identity.
(** The forms that aggregate are identified by their re-encoding in CBOR. *)
Context (reencoded : BlockCertificate -> option bytes).

Definition certificateLogicalKey (cert : BlockCertificate) : option bytes :=
  (fun fields => logicalNumber (certificateType cert) ++ fields) <$>
  match cert with
  | StakeRegistrationCertificate c | StakeDeregistrationCertificate c => Some (logicalCredential c)
  | StakeDelegationCertificate c pool => Some (logicalCredential c ++ pool)
  | PoolRegistrationCert _ | MoveInstantaneousRewardsCertificate _ _ => reencoded cert
  | PoolRetirementCertificate pool epoch => Some (pool ++ logicalNumber epoch)
  | GenesisKeyDelegationCertificate genesisHash delegateHash vrf => Some (logicalBytes genesisHash ++ logicalBytes delegateHash ++ vrf)
  | RegistrationCertificate c amount | DeregistrationCertificate c amount | DeregistrationDrepCertificate c amount =>
    Some (logicalCredential c ++ logicalNumber amount)
  | VoteDelegationCertificate c drep => Some (logicalCredential c ++ logicalDrep drep)
  | StakeVoteDelegationCertificate c pool drep => Some (logicalCredential c ++ pool ++ logicalDrep drep)
  | StakeRegistrationDelegationCertificate c pool amount => Some (logicalCredential c ++ pool ++ logicalNumber amount)
  | VoteRegistrationDelegationCertificate c drep amount => Some (logicalCredential c ++ logicalDrep drep ++ logicalNumber amount)
  | StakeVoteRegistrationDelegationCertificate c pool drep amount =>
    Some (logicalCredential c ++ pool ++ logicalDrep drep ++ logicalNumber amount)
  | AuthCommitteeHotCertificate cold hot => Some (logicalCredential cold ++ logicalCredential hot)
  | ResignCommitteeColdCertificate cold anchor => Some (logicalCredential cold ++ logicalAnchor anchor)
  | RegistrationDrepCertificate c amount anchor => Some (logicalCredential c ++ logicalNumber amount ++ logicalAnchor anchor)
  | UpdateDrepCertificate c anchor => Some (logicalCredential c ++ logicalAnchor anchor)
  end.

Inductive certificateSetError := NoIdentity (index : Z) | DuplicateCertificate (index certificateType : Z).

Fixpoint certificateSetLoop (repeated : Z -> bool) (index : Z) (certs : list BlockCertificate) (seen : gset bytes)
    : result certificateSetError unit :=
  match certs with
  | [] => Ok ()
  | cert :: certs =>
    if negb (repeated (certificateType cert)) then certificateSetLoop repeated (index + 1) certs seen else
    match certificateLogicalKey cert with
    | None => Err (NoIdentity index)
    | Some key =>
      if bool_decide (key ∈ seen) then Err (DuplicateCertificate index (certificateType cert))
      else certificateSetLoop repeated (index + 1) certs ({[key]} ∪ seen)
    end
  end.

(** Only types that occur twice are compared. *)
Definition ValidateCertificateSet (certs : list BlockCertificate) : result certificateSetError unit :=
  let typeCounts t := blen (filter (fun c => certificateType c = t) certs) in
  if forallb (fun c => typeCounts (certificateType c) <? 2) certs then Ok ()
  else certificateSetLoop (fun t => 2 <=? typeCounts t) 0 certs ∅.

(** ** Script purposes *)

Inductive ScriptPurpose :=
| ScriptPurposeSpending (i : TransactionInput) (o : ConwayOutput)
| ScriptPurposeMinting (policy : bytes)
| ScriptPurposeCertifying (index : Z) (cert : BlockCertificate)
| ScriptPurposeRewarding (c : Credential)
| ScriptPurposeVoting (v : Voter)
| ScriptPurposeProposing (index : Z) (p : ProposalProcedure).

Definition noScriptHash : ScriptHash := repeat 0 28.

Definition certifyingCredential (cert : BlockCertificate) : option Credential :=
  match cert with
  | StakeDeregistrationCertificate c | RegistrationCertificate c _ | DeregistrationCertificate c _
  | VoteDelegationCertificate c _ | VoteRegistrationDelegationCertificate c _ _ | StakeVoteDelegationCertificate c _ _
  | StakeRegistrationDelegationCertificate c _ _ | StakeVoteRegistrationDelegationCertificate c _ _ _
  | RegistrationDrepCertificate c _ _ | DeregistrationDrepCertificate c _ | UpdateDrepCertificate c _
  | AuthCommitteeHotCertificate c _ | ResignCommitteeColdCertificate c _ | StakeDelegationCertificate c _ => Some c
  | _ => None
  end.

(** The methods [ScriptHash]; all zeroes stand for no script. *)
Definition purposeHash (p : ScriptPurpose) : ScriptHash :=
  match p with
  | ScriptPurposeSpending _ o => PaymentKeyHash (outAddress o)
  | ScriptPurposeMinting policy => policy
  | ScriptPurposeCertifying _ cert => default noScriptHash (certifyingCredential cert ≫= scriptOf)
  | ScriptPurposeRewarding c => snd c
  | ScriptPurposeVoting v => voterHash v
  | ScriptPurposeProposing _ p =>
    match PPGovAction p ≫= GetPolicyHash with
    | Some h => if blen h =? 28 then h else noScriptHash
    | None => noScriptHash
    end
  end.

Fixpoint compactInputs (previous : TransactionInput) (l : list TransactionInput) : list TransactionInput :=
  match l with
  | [] => []
  | i :: l => if bool_decide (i = previous) then compactInputs previous l else i :: compactInputs i l
  end.

Definition SortInputs (inputs : list TransactionInput) : list TransactionInput :=
  match sortBy inputLe inputs with [] => [] | i :: l => i :: compactInputs i l end.

Fixpoint certifyingLoop (index : Z) (certs : list BlockCertificate) (seen : gmap bytes Z) : list (Z * BlockCertificate) :=
  match certs with
  | [] => []
  | cert :: certs =>
    if bool_decide (purposeHash (ScriptPurposeCertifying (u32 index) cert) = noScriptHash) then certifyingLoop (index + 1) certs seen
    else match certificateLogicalKey cert with
         | None => (u32 index, cert) :: certifyingLoop (index + 1) certs seen
         | Some key =>
           match seen !! key with
           | Some first => (first, cert) :: certifyingLoop (index + 1) certs seen
           | None => (u32 index, cert) :: certifyingLoop (index + 1) certs (<[key := u32 index]> seen)
           end
         end
  end.

Definition certifyingPurposes (certs : list BlockCertificate) : list (Z * BlockCertificate) := certifyingLoop 0 certs ∅.
End Identity.

Section Purposes.
Context `{WitnessCrypto} (reencoded : BlockCertificate -> option bytes) (addressText : Address -> bytes).

(** [SortRewardAccountAddresses]: addresses that are no reward accounts are
    compared by their text, which the encoders of addresses give. *)
Definition rewardAddressLe (a b : option Address) : bool :=
  match a, b with
  | None, _ => true
  | Some _, None => false
  | Some x, Some y =>
    match RewardAccountCredential a, RewardAccountCredential b with
    | Ok c, Ok d =>
      if negb (networkId x =? networkId y) then networkId x <? networkId y
      else if negb (fst c =? fst d) then fst d <? fst c
      else bytes_leb (snd c) (snd d)
    | _, _ => bytes_leb (addressText x) (addressText y)
    end
  end.

Definition SortWithdrawalAddresses (ws : list (option Address * option Z)) : list (option Address) :=
  sortBy rewardAddressLe (fst <$> ws).

Definition voterOrder (v : Voter) : Z :=
  if voterType v =? VoterTypeConstitutionalCommitteeHotScriptHash then 0
  else if voterType v =? VoterTypeConstitutionalCommitteeHotKeyHash then 1
  else if voterType v =? VoterTypeDRepScriptHash then 2
  else if voterType v =? VoterTypeDRepKeyHash then 3
  else if voterType v =? VoterTypeStakingPoolKeyHash then 4 else -1.

Definition sortVotersLe (a b : option Voter) : bool :=
  match a, b with
  | None, _ => true
  | Some _, None => false
  | Some x, Some y =>
    if negb (voterOrder x =? voterOrder y) then voterOrder x <? voterOrder y else bytes_leb (voterHash x) (voterHash y)
  end.

Definition SortVoters (votes : list (option Voter * list (option GovActionId))) : list (option Voter) :=
  sortBy sortVotersLe (fst <$> votes).

Definition VoterUsesScriptCredential (v : Voter) : bool :=
  (voterType v =? VoterTypeConstitutionalCommitteeHotScriptHash) || (voterType v =? VoterTypeDRepScriptHash).

(** The purposes among the elements of a collection, those of no script left
    out. *)
Fixpoint purposesFrom {A} (tag k : Z) (f : Z -> A -> option ScriptPurpose) (l : list A) : list (RedeemerKey * ScriptPurpose) :=
  match l with
  | [] => []
  | x :: l =>
    match f (u32 k) x with
    | Some p => if bool_decide (purposeHash p = noScriptHash) then purposesFrom tag (k + 1) f l
                else ((tag, u32 k), p) :: purposesFrom tag (k + 1) f l
    | None => purposesFrom tag (k + 1) f l
    end
  end.

Definition ScriptPurposes (tx : ConwayTransaction) (resolvedInputs : list (TransactionInput * ConwayOutput))
    : list (RedeemerKey * ScriptPurpose) :=
  let byId : gmap TransactionInput ConwayOutput := foldl (fun m e => <[fst e := snd e]> m) ∅ resolvedInputs in
  purposesFrom RedeemerTagSpend 0 (fun _ i =>
    match byId !! i with
    | Some o => if usesScript (outAddress o) then Some (ScriptPurposeSpending i o) else None
    | None => None
    end) (SortInputs (Inputs tx)) ++
  match AssetMint tx with
  | None => []
  | Some m => purposesFrom RedeemerTagMint 0 (fun _ policy => Some (ScriptPurposeMinting policy)) (sortBy bytes_leb (Policies m))
  end ++
  ((fun e => ((RedeemerTagCert, fst e), ScriptPurposeCertifying (fst e) (snd e))) <$>
    filter (fun e => purposeHash (ScriptPurposeCertifying (fst e) (snd e)) <> noScriptHash) (certifyingPurposes reencoded (Certificates tx))) ++
  purposesFrom RedeemerTagReward 0 (fun _ a =>
    match a with
    | Some x => if usesScript x then Some (ScriptPurposeRewarding (CredentialTypeScriptHash, StakeKeyHash x)) else None
    | None => None
    end) (SortWithdrawalAddresses (withdrawalsOf tx)) ++
  purposesFrom RedeemerTagVoting 0 (fun _ v =>
    match v with
    | Some x => if VoterUsesScriptCredential x then Some (ScriptPurposeVoting x) else None
    | None => None
    end) (SortVoters (VotingProcedures tx)) ++
  purposesFrom RedeemerTagProposing 0 (fun k p => Some (ScriptPurposeProposing k p)) (ProposalProcedures tx).

(** ** The view of a transaction's scripts *)

Record TxScriptView := mkView {
  ResolvedInputs : list (TransactionInput * ConwayOutput);
  ResolvedReferenceInputs : list (TransactionInput * ConwayOutput);
  Available : gmap ScriptHash Script;
  Needed : gmap ScriptHash Script
}.

Definition resolveInput (wrap : TransactionInput -> conwayError) (ls : ConwayState) (i : TransactionInput)
    : result conwayError (TransactionInput * ConwayOutput) :=
  match UtxoById (lstate ls) i with Ok o => Ok (i, o) | Err _ => Err (wrap i) end.

Definition ResolveTxInputs (tx : ConwayTransaction) (ls : ConwayState)
    : result conwayError (list (TransactionInput * ConwayOutput) * list (TransactionInput * ConwayOutput)) :=
  inputs ← collect (resolveInput InputResolution ls) (Inputs tx);
  refInputs ← collect (resolveInput ReferenceInputResolution ls) (ReferenceInputs tx);
  Ok (inputs, refInputs).

Definition resolvableInputs (tx : ConwayTransaction) (ls : ConwayState) : list (TransactionInput * ConwayOutput) :=
  omap (fun i => (fun o => (i, o)) <$> answer (UtxoById (lstate ls) i)) (Inputs tx ++ ReferenceInputs tx).

Definition availableScripts (tx : ConwayTransaction) (resolved : list (TransactionInput * ConwayOutput)) : gmap ScriptHash Script :=
  addScripts (addScripts ∅ (witnessScripts (Witnesses tx))) (omap (fun e => ScriptRef (snd e)) resolved).

Definition neededScripts (tx : ConwayTransaction) (resolvedInputs : list (TransactionInput * ConwayOutput))
    (available : gmap ScriptHash Script) : gmap ScriptHash Script :=
  if decide (available = ∅) then ∅ else
  foldl (fun out e => match available !! purposeHash (snd e) with
                      | Some s => <[purposeHash (snd e) := s]> out
                      | None => out
                      end) ∅ (ScriptPurposes tx resolvedInputs).

(** An input that does not resolve leaves a partial view beside the error. *)
Definition newTxScriptView (tx : ConwayTransaction) (ls : ConwayState) : TxScriptView * option conwayError :=
  match ResolveTxInputs tx ls with
  | Err e =>
    let available := availableScripts tx (resolvableInputs tx ls) in
    (mkView [] [] available (neededScripts tx [] available), Some e)
  | Ok (inputs, refInputs) =>
    let available := availableScripts tx (inputs ++ refInputs) in
    (mkView inputs refInputs available (neededScripts tx inputs available), None)
  end.

Definition NeedsAny (v : TxScriptView) (p : Script -> bool) : bool := existsb (fun e => p (snd e)) (map_to_list (Needed v)).

Definition UsedPlutusVersions (v : TxScriptView) : gset Z :=
  list_to_set (omap (fun e => PlutusScriptVersion (snd e)) (map_to_list (Needed v))).

Definition isPlutus (version : Z) (s : Script) : bool :=
  match s with PlutusScriptOf v _ => v =? version | NativeScriptOf _ => false end.

(** What the rules on value ask of the view. *)
Definition scriptView : ScriptView := fun tx ls =>
  let '(view, err) := newTxScriptView tx ls in (err, (NeedsAny view (isPlutus 1), NeedsAny view (isPlutus 2))).

Definition NewTxScriptViewSkippingUnresolved (tx : ConwayTransaction) (ls : ConwayState) : result conwayError TxScriptView :=
  match newTxScriptView tx ls with
  | (view, None) => Ok view
  | (_, Some (InputResolution _)) | (_, Some (ReferenceInputResolution _)) => Ok (mkView [] [] ∅ ∅)
  | (_, Some e) => Err e
  end.

(** ** Native scripts *)

Definition NewNativeScriptEnv (tx : ConwayTransaction) : nativeScriptEvalContext :=
  mkEvalContext (default 0 (LowerBound tx)) (default MaxUint64 (UpperBound tx)) (bool_decide (is_Some (LowerBound tx)))
    (bool_decide (is_Some (UpperBound tx))) (witnessKeyHashes (Witnesses tx)) None.

Fixpoint neededWitnesses (needed : gmap ScriptHash Script) (scripts : list NativeScript) (seen : gset ScriptHash)
    : list NativeScript * gset ScriptHash :=
  match scripts with
  | [] => ([], seen)
  | s :: scripts =>
    let hash := nativeHash s in
    if bool_decide (needed !! hash = None) || bool_decide (hash ∈ seen) then neededWitnesses needed scripts seen
    else let '(out, seen) := neededWitnesses needed scripts ({[hash]} ∪ seen) in (s :: out, seen)
  end.

Definition NativeScriptsToEvaluate (tx : ConwayTransaction) (view : TxScriptView) : list NativeScript :=
  let scripts := match Witnesses tx with None => [] | Some w => NativeScriptWits w end in
  let '(out, seen) := neededWitnesses (Needed view) scripts ∅ in
  let referenceOnly := omap (fun e : ScriptHash * Script =>
    if bool_decide (fst e ∈ seen) then None else match snd e with NativeScriptOf s => Some s | PlutusScriptOf _ _ => None end)
    (map_to_list (Needed view)) in
  out ++ sortBy (fun a b => bytes_leb (nativeHash a) (nativeHash b)) referenceOnly.

Fixpoint nativeLoop (env : nativeScriptEvalContext) (scripts : list NativeScript) : ccheck :=
  match scripts with
  | [] => Ok ()
  | s :: scripts =>
    if negb (EvaluateWithBounds s (validityStart env) (validityEnd env) (validityStartPresent env) (validityEndPresent env) (keyHashes env))
    then werr (NativeScriptFailed (nativeHash s)) else nativeLoop env scripts
  end.

Definition UtxoValidateNativeScripts (tx : ConwayTransaction) (ls : ConwayState) : ccheck :=
  view ← NewTxScriptViewSkippingUnresolved tx ls;
  nativeLoop (NewNativeScriptEnv tx) (NativeScriptsToEvaluate tx view).

(** ** Redeemers *)

Fixpoint levelRedeemers (available : gmap ScriptHash Script) (provided : list RedeemerKey)
    (purposes : list (RedeemerKey * ScriptPurpose)) : ccheck :=
  match purposes with
  | [] => Ok ()
  | (key, p) :: purposes =>
    match available !! purposeHash p with
    | Some (PlutusScriptOf _ _) =>
      if bool_decide (key ∈ provided) then levelRedeemers available provided purposes
      else werr (MissingRedeemerForScript (purposeHash p) key)
    | _ => levelRedeemers available provided purposes
    end
  end.

(** A Conway transaction has one level. *)
Definition ValidateRequiredRedeemers (tx : ConwayTransaction) (ls : ConwayState) : ccheck :=
  match newTxScriptView tx ls with
  | (_, Some e) => Err e
  | (view, None) =>
    if decide (Available view = ∅) then Ok ()
    else levelRedeemers (Available view) (redeemersOf tx) (ScriptPurposes tx (ResolvedInputs view))
  end.

(** ** The rules *)

Definition witnessRule (signatures : ConwayTransaction -> option PreverifiedSignatures) (other : RuleId -> Rule) (r : RuleId) : Rule :=
  match r with
  | RequiredVKeyWitnesses => fun tx _ _ _ => ValidateRequiredVKeyWitnesses tx
  | CollateralVKeyWitnesses => fun tx _ ls _ => ValidateCollateralVKeyWitnesses tx ls
  | CollateralKeyLocked => fun tx _ ls _ => ValidateCollateralKeyLocked tx ls
  | Signatures => fun tx _ ls _ => UtxoValidateSignatures (signatures tx) tx ls
  | OutsideValidityInterval => fun tx slot _ _ => UtxoValidateOutsideValidityIntervalUtxo tx slot
  | ScriptWitnesses => fun tx _ ls _ => ValidateScriptWitnesses tx ls
  | RequiredRedeemers => fun tx _ ls _ => ValidateRequiredRedeemers tx ls
  | ExtraneousRedeemers => fun tx _ ls _ => ValidateExactExtraneousRedeemers tx ls
  | NativeScripts => fun tx _ ls _ => UtxoValidateNativeScripts tx ls
  | r => other r
  end.
End Purposes.
