(* ===== verification/WitnessLedger.v ===== *)
(** * What the witness rules guarantee

    A transaction that the rules accept has the authority of everything it
    spends and certifies: the keys signed it, and the scripts are there and
    either hold or have a redeemer. The two walks over the script purposes of a
    transaction agree, and signatures verified ahead give what verifying them in
    place gives. *)

From stdpp Require Import sorting.
From S2P Require Import Prelude Scripts ShelleyRules Params ShelleyLedger MultiAsset BlockState Conway ConwayLedger Witness.
#[local] Open Scope Z_scope.

(** ** Collecting *)

Lemma collect_Ok {E A B} (f : A -> result E B) l ys :
  collect f l = Ok ys <-> Forall2 (fun x y => f x = Ok y) l ys.
Proof.
  revert ys. induction l as [|x l IH]; intros ys; cbn [collect].
  - split; [intros [= <-]; constructor|intros H; by inversion H].
  - split.
    + intros (y & Ey & (ys' & Eys & [= <-])%bind_Ok)%bind_Ok. constructor; [done|by apply IH].
    + intros H. inversion H as [|? y ? ys' Ey Hys]; subst. rewrite Ey. cbn [mbind result_bind].
      apply IH in Hys. by rewrite Hys.
Qed.

Lemma collect_in {E A B} (f : A -> result E B) l ys x : collect f l = Ok ys -> x ∈ l -> exists y, y ∈ ys /\ f x = Ok y.
Proof.
  intros H%collect_Ok [k Hk]%list_elem_of_lookup_1. destruct (Forall2_lookup_l _ _ _ _ _ H Hk) as (y & Hy & Ey).
  exists y. split; [by apply list_elem_of_lookup_2 in Hy|done].
Qed.

Lemma fromShelley_inv {A} (r : result ruleError A) a : fromShelley r = Ok a -> r = Ok a.
Proof. by destruct r; intros [= ->]. Qed.

(** ** Sorting *)

Section Rank.
Context {A} (le : A -> A -> bool).
Context (total : forall x y, le x y = true \/ le y x = true).
Context (trans : forall x y z, le x y = true -> le y z = true -> le x z = true).

(** The number of elements before [x] in the order. *)
Definition rank (x : A) (l : list A) : nat := length (filter (fun y => le x y = false) l).

Lemma sortBy_Permutation l : sortBy le l ≡ₚ l.
Proof. apply merge_sort_Permutation. Qed.

Lemma sorted_rank x l : StronglySorted (holds le) l -> x ∈ l -> exists y, l !! rank x l = Some y /\ le x y = true /\ le y x = true.
Proof using total trans.
  unfold rank. induction 1 as [|y l Hs IH Hy]; intros Hx; [by apply elem_of_nil in Hx|].
  rewrite filter_cons. case_decide as Exy.
  - apply elem_of_cons in Hx as [->|Hx].
    + destruct (total y y); congruence.
    + apply IH in Hx as (z & Hz & Hle). exists z. by cbn.
  - assert (Lxy : le x y = true) by (by destruct (le x y)).
    rewrite filter_none.
    + exists y. split_and!; [done|done|]. apply elem_of_cons in Hx as [->|Hx]; [by destruct (total y y)|].
      rewrite Forall_forall in Hy. by apply Hy.
    + apply Forall_forall. intros z Hz Exz. rewrite Forall_forall in Hy. specialize (Hy z Hz). unfold holds in Hy.
      rewrite (trans x y z) in Exz; done.
Qed.

(** An element stands at its rank, up to the elements that are equal in order. *)
Lemma sortBy_rank x l : x ∈ l -> exists y, sortBy le l !! rank x l = Some y /\ le x y = true /\ le y x = true.
Proof using total trans.
  intros Hx. destruct (sorted_rank x (sortBy le l)) as (y & Hy & Hle).
  - apply StronglySorted_merge_sort; [|]; repeat intro; [by eapply trans|apply total].
  - by rewrite sortBy_Permutation.
  - exists y. split; [|done]. rewrite <- Hy. f_equal. unfold rank. apply Permutation_length, filter_Permutation. by rewrite sortBy_Permutation.
Qed.
End Rank.

Lemma sorted_fmap_in {A B} (f : A -> B) (R : relation A) (R' : relation B) l :
  (forall x y, x ∈ l -> y ∈ l -> R x y -> R' (f x) (f y)) -> Sorted R l -> Sorted R' (f <$> l).
Proof.
  intros Hf Hs. induction Hs as [|x l Hs IH Hd]; [constructor|]. rewrite fmap_cons. constructor.
  - apply IH. intros y z Hy Hz. apply Hf; by right.
  - destruct Hd as [|y l Hxy]; [constructor|]. constructor. apply Hf; [by left|right; by left|done].
Qed.

(** Sorting commutes with a map into an order that tells images apart. *)
Lemma sortBy_agree {A B} (f : A -> B) (le : A -> A -> bool) (le' : B -> B -> bool) l :
  (forall x y, le x y = true \/ le y x = true) -> (forall x y, le' x y = true \/ le' y x = true) ->
  (forall x y z, le' x y = true -> le' y z = true -> le' x z = true) ->
  (forall x y, x ∈ l -> y ∈ l -> le x y = true -> le' (f x) (f y) = true) ->
  (forall x y, x ∈ l -> y ∈ l -> le' (f x) (f y) = true -> le' (f y) (f x) = true -> f x = f y) ->
  f <$> sortBy le l = sortBy le' (f <$> l).
Proof.
  intros T T' Tr Hf Ha.
  assert (P : f <$> sortBy le l ≡ₚ sortBy le' (f <$> l)) by (by rewrite !sortBy_Permutation).
  assert (Hin : forall y, y ∈ f <$> sortBy le l -> exists x, y = f x /\ x ∈ l).
  { intros y (x & -> & Hx)%list_elem_of_fmap. exists x. by rewrite <- (sortBy_Permutation le). }
  assert (Transitive (holds le')) by (repeat intro; by eapply Tr).
  apply (Sorted_unique_strong (holds le')); [|apply (sorted_fmap_in f (holds le)); [|]|apply Sorted_merge_sort|done].
  - intros x y Hx Hy. rewrite <- P in Hy. apply Hin in Hx as (x' & -> & Hx), Hy as (y' & -> & Hy). by apply Ha.
  - intros x y Hx Hy. rewrite sortBy_Permutation in Hx, Hy. by apply Hf.
  - apply Sorted_merge_sort. intros x y. apply T.
  - intros x y. apply T'.
Qed.

(** *** The orders *)

(** A total preorder. *)
Record ordering {A} (le : A -> A -> bool) : Prop := {
  o_total x y : le x y = true \/ le y x = true;
  o_trans x y z : le x y = true -> le y z = true -> le x z = true
}.

Lemma bytes_ordering : ordering bytes_leb.
Proof. split; [intros; apply bytes_leb_total|apply bytes_leb_trans]. Qed.

(** First by a number, then by an order. *)
Lemma lex_ordering {A} (key : A -> Z) (le : A -> A -> bool) :
  ordering le -> ordering (fun a b => if negb (key a =? key b) then key a <? key b else le a b).
Proof.
  intros [T Tr]. split.
  - intros x y. destruct (Z.eqb_spec (key x) (key y)) as [E|N]; rewrite (Z.eqb_sym (key y)).
    + rewrite (proj2 (Z.eqb_eq _ _) E). apply T.
    + rewrite (proj2 (Z.eqb_neq _ _) N). cbn [negb]. rewrite !Z.ltb_lt. lia.
  - intros x y z. destruct (Z.eqb_spec (key x) (key y)) as [E|N], (Z.eqb_spec (key y) (key z)) as [E'|N'],
      (Z.eqb_spec (key x) (key z)) as [E''|N'']; cbn [negb]; rewrite ?Z.ltb_lt; try lia. apply Tr.
Qed.

Lemma preimage_ordering {A B} (f : A -> B) (le : B -> B -> bool) : ordering le -> ordering (fun a b => le (f a) (f b)).
Proof. intros [T Tr]. split; intros; [apply T|by eapply Tr]. Qed.

Lemma input_ordering : ordering inputLe.
Proof.
  split.
  - intros [a i] [b j]. unfold inputLe. cbn [fst snd]. repeat case_bool_decide; subst; try done; [rewrite !Z.leb_le; lia|].
    apply bytes_leb_total.
  - intros [a i] [b j] [c k]. unfold inputLe. cbn [fst snd].
    repeat case_bool_decide; subst; try done; rewrite ?Z.leb_le; try lia.
    + intros H1 H2. exfalso. by apply H, bytes_leb_antisym.
    + apply bytes_leb_trans.
Qed.

Lemma inputLe_antisym a b : inputLe a b = true -> inputLe b a = true -> a = b.
Proof.
  destruct a as [a i], b as [b j]. unfold inputLe. cbn [fst snd]. repeat case_bool_decide; subst; try done.
  - rewrite !Z.leb_le. intros. f_equal. lia.
  - intros H1 H2. exfalso. by apply H, bytes_leb_antisym.
Qed.

Lemma withdrawal_ordering : ordering withdrawalLe.
Proof.
  apply (lex_ordering snd), (lex_ordering (fun w => credentialOrder (fst w))).
  apply (preimage_ordering (fun w : Credential * Z => snd (fst w))), bytes_ordering.
Qed.

Lemma voter_ordering : ordering voterLe.
Proof. apply (lex_ordering voterPurposeOrder), (preimage_ordering voterHash), bytes_ordering. Qed.

Lemma lex_antisym {A} (key : A -> Z) (le : A -> A -> bool) a b :
  (if negb (key a =? key b) then key a <? key b else le a b) = true ->
  (if negb (key b =? key a) then key b <? key a else le b a) = true -> key a = key b /\ le a b = true /\ le b a = true.
Proof.
  rewrite (Z.eqb_sym (key b)). destruct (Z.eqb_spec (key a) (key b)) as [E|N]; cbn [negb]; [done|]. rewrite !Z.ltb_lt. lia.
Qed.

(** Credentials of the two types differ in the order. *)
Lemma withdrawalLe_antisym (a b : Credential * Z) :
  fst (fst a) = 0 \/ fst (fst a) = 1 -> fst (fst b) = 0 \/ fst (fst b) = 1 ->
  withdrawalLe a b = true -> withdrawalLe b a = true -> a = b.
Proof.
  destruct a as [[t h] n], b as [[t' h'] n']. cbn [fst snd]. intros Ht Ht' H1 H2.
  destruct (lex_antisym snd (fun a b => if negb (credentialOrder (fst a) =? credentialOrder (fst b))
    then credentialOrder (fst a) <? credentialOrder (fst b) else bytes_leb (snd (fst a)) (snd (fst b))) _ _ H1 H2) as (En & H3 & H4). cbn in En. subst n'.
  destruct (lex_antisym (fun w : Credential * Z => credentialOrder (fst w)) (fun a b => bytes_leb (snd (fst a)) (snd (fst b))) _ _ H3 H4) as (Et & H5 & H6). cbn in Et, H5, H6.
  rewrite (bytes_leb_antisym h h') by done. f_equal. f_equal. revert Et. unfold credentialOrder. cbn [fst].
  by destruct Ht as [-> | ->], Ht' as [-> | ->].
Qed.

(** And voters of the five types. *)
Lemma voterLe_antisym a b : is_ok (voterCredential (Some a)) -> is_ok (voterCredential (Some b)) ->
  voterLe a b = true -> voterLe b a = true -> a = b.
Proof.
  destruct a as [t h], b as [t' h']. intros Ha Hb H1 H2.
  destruct (lex_antisym voterPurposeOrder (fun a b => bytes_leb (voterHash a) (voterHash b)) _ _ H1 H2) as (Et & H5 & H6). cbn in H5, H6.
  rewrite (bytes_leb_antisym h h') by done. f_equal. revert Ha Hb Et.
  unfold voterCredential, voterPurposeOrder, VoterTypeConstitutionalCommitteeHotKeyHash, VoterTypeDRepKeyHash,
    VoterTypeStakingPoolKeyHash, VoterTypeConstitutionalCommitteeHotScriptHash, VoterTypeDRepScriptHash. cbn [voterType].
  repeat match goal with |- context [?x =? ?n] => destruct (Z.eqb_spec x n) end; cbn; intros; subst; done || lia.
Qed.

(** ** The two walks over the script purposes *)

Definition asRequirement (e : RedeemerKey * ScriptPurpose) : scriptRequirement := mkRequirement (purposeHash (snd e)) (fst e).

(** A hash of zeroes is no script. *)
Definition nonzero (o : option ScriptHash) : option ScriptHash :=
  o ≫= fun h => if bool_decide (h = noScriptHash) then None else Some h.

Abbreviation scripted := (filter (fun p => reqHash p <> noScriptHash)).

Lemma purposesFrom_index {A} tag (f : Z -> A -> option ScriptPurpose) (g : A -> option ScriptHash) l : forall k,
  (forall j x, x ∈ l -> nonzero (purposeHash <$> f j x) = nonzero (g x)) ->
  asRequirement <$> purposesFrom tag k f l = scripted (indexFrom tag k (g <$> l)).
Proof.
  induction l as [|x l IH]; intros k Hfg; [done|]. cbn [purposesFrom]. rewrite fmap_cons. cbn [indexFrom].
  pose proof (Hfg (u32 k) x (list_elem_of_here _ _)) as E.
  assert (IH' : asRequirement <$> purposesFrom tag (k + 1) f l = scripted (indexFrom tag (k + 1) (g <$> l)))
    by (apply IH; intros j y Hy; apply Hfg; by right).
  destruct (f (u32 k) x) as [p|], (g x) as [h|]; cbn in E; repeat case_bool_decide; try done; rewrite ?filter_cons.
  - rewrite decide_False by (cbn; tauto). done.
  - injection E as E. rewrite fmap_cons, IH', decide_True by done. by rewrite <- E.
  - rewrite decide_False by (cbn; tauto). done.
Qed.

Lemma indexFrom_lookup tag l : forall k j h, l !! j = Some (Some h) -> mkRequirement h (tag, u32 (k + Z.of_nat j)) ∈ indexFrom tag k l.
Proof.
  induction l as [|o l IH]; intros k [|j] h Hj; try done; cbn in Hj.
  - injection Hj as ->. cbn. rewrite Z.add_0_r. apply list_elem_of_here.
  - apply (IH (k + 1)) in Hj. replace (k + 1 + Z.of_nat j) with (k + Z.of_nat (S j)) in Hj by lia.
    destruct o; cbn [indexFrom]; [by right|done].
Qed.

(** *** Inputs *)

Lemma compactInputs_id l : forall i, NoDup (i :: l) -> compactInputs i l = l.
Proof.
  induction l as [|j l IH]; intros i Hd; [done|]. cbn [compactInputs]. apply NoDup_cons in Hd as [Hi Hd].
  rewrite bool_decide_false by (intros ->; apply Hi; by left). f_equal. by apply IH.
Qed.

Lemma SortInputs_id inputs : NoDup inputs -> SortInputs inputs = sortBy inputLe inputs.
Proof.
  intros Hd. rewrite <- (sortBy_Permutation inputLe) in Hd. unfold SortInputs. destruct (sortBy inputLe inputs) as [|i l]; [done|].
  by rewrite compactInputs_id.
Qed.

Section Resolve.
Context `{WitnessCrypto} (reencoded : BlockCertificate -> option bytes) (addressText : Address -> bytes).
Implicit Types (tx : ConwayTransaction) (ls : ConwayState).

Lemma resolve_byId wrap ls inputs resolved i o :
  collect (resolveInput wrap ls) inputs = Ok resolved -> i ∈ inputs -> UtxoById (lstate ls) i = Ok o ->
  foldl (fun m e => <[fst e := snd e]> m) (∅ : gmap TransactionInput ConwayOutput) resolved !! i = Some o.
Proof.
  intros Hc Hi Ho.
  assert (Hg : forall l (m : gmap TransactionInput ConwayOutput),
    (forall e, e ∈ l -> UtxoById (lstate ls) (fst e) = Ok (snd e)) -> (m !! i = Some o \/ i ∈ fst <$> l) ->
    foldl (fun m e => <[fst e := snd e]> m) m l !! i = Some o).
  { induction l as [|[j p] l IH]; intros m Hl Hm; cbn [foldl].
    - destruct Hm as [Hm|Hm]; [done|by apply elem_of_nil in Hm].
    - apply IH; [intros e He; apply Hl; by right|]. specialize (Hl (j, p) (list_elem_of_here _ _)). cbn [fst snd] in *.
      destruct (decide (j = i)) as [->|N].
      + left. rewrite lookup_insert_eq. rewrite Ho in Hl. by injection Hl as ->.
      + rewrite lookup_insert_ne by done. rewrite fmap_cons, elem_of_cons in Hm. cbn in Hm. naive_solver. }
  apply collect_Ok in Hc. apply Hg.
  - intros [j p] [k Hk]%list_elem_of_lookup_1. destruct (Forall2_lookup_r _ _ _ _ _ Hc Hk) as (j' & _ & E).
    unfold resolveInput in E. destruct (UtxoById (lstate ls) j') eqn:Eu; [|done]. by injection E as <- <-.
  - right. apply list_elem_of_lookup_1 in Hi as [k Hk]. destruct (Forall2_lookup_l _ _ _ _ _ Hc Hk) as ([j p] & Hj & E).
    unfold resolveInput in E. rewrite Ho in E. injection E as <- <-. apply list_elem_of_fmap. exists (i, o).
    split; [done|by apply list_elem_of_lookup_2 in Hj].
Qed.

Lemma resolve_Ok wrap ls inputs resolved i :
  collect (resolveInput wrap ls) inputs = Ok resolved -> i ∈ inputs -> exists o, UtxoById (lstate ls) i = Ok o.
Proof.
  intros Hc Hi. destruct (collect_in _ _ _ _ Hc Hi) as (y & _ & E). unfold resolveInput in E.
  destruct (UtxoById (lstate ls) i) as [o|]; [by exists o|done].
Qed.

(** *** Certificates *)

Lemma certificateHash_Ok cert h : certificateHash cert = Ok h -> h = certifyingCredential cert ≫= scriptOf.
Proof.
  unfold certificateHash, forEachCertificateCredential, visitCredential, scriptOf. intros (v & Ev & Eh)%bind_Ok.
  destruct cert; cbn in Ev |- *; try (by injection Ev as <-; injection Eh as <-);
    repeat (match goal with H : (if ?b then _ else _) = _ |- _ => destruct b; [|done] end);
    injection Ev as <-; by injection Eh as <-.
Qed.

Lemma certificateType_range cert : 0 <= certificateType cert <= 18.
Proof. destruct cert; cbn; lia. Qed.

(** The identity tells types apart. *)
Lemma logicalKey_type c c' key : certificateLogicalKey reencoded c = Some key -> certificateLogicalKey reencoded c' = Some key ->
  certificateType c = certificateType c'.
Proof.
  unfold certificateLogicalKey. intros (f & _ & ->)%fmap_Some (f' & _ & E)%fmap_Some.
  apply (f_equal (fun b => be_decode (take 8 b))) in E. unfold logicalNumber in E.
  rewrite !take_app_length' in E by (symmetry; apply length_be_encode).
  pose proof (certificateType_range c). pose proof (certificateType_range c').
  rewrite !u64_small in E by (unfold MaxUint64; lia). rewrite !be_decode_encode in E by (cbn; lia). done.
Qed.

Definition distinctKeys (certs : list BlockCertificate) : Prop :=
  forall i j c c' key, (i < j)%nat -> certs !! i = Some c -> certs !! j = Some c' ->
    certificateLogicalKey reencoded c = Some key -> certificateLogicalKey reencoded c' = Some key -> False.

Lemma certificateSetLoop_Ok repeated certs : forall index seen, certificateSetLoop reencoded repeated index certs seen = Ok () ->
  (forall c key, c ∈ certs -> repeated (certificateType c) = true -> certificateLogicalKey reencoded c = Some key -> key ∉ seen) /\
  (forall i j c c' key, (i < j)%nat -> certs !! i = Some c -> certs !! j = Some c' -> repeated (certificateType c) = true ->
    certificateLogicalKey reencoded c = Some key -> certificateLogicalKey reencoded c' = Some key -> False).
Proof.
  induction certs as [|cert certs IH]; intros index seen; cbn [certificateSetLoop].
  - intros _. split; [by intros c key Hc%elem_of_nil|done].
  - destruct (repeated (certificateType cert)) eqn:Er; cbn [negb].
    + destruct (certificateLogicalKey reencoded cert) as [key|] eqn:Ek; [|done]. case_bool_decide as Hs; [done|].
      intros [H1 H2]%IH. split.
      * intros c k [->|Hc]%elem_of_cons Hr Hk; [congruence|]. specialize (H1 c k Hc Hr Hk). set_solver.
      * intros [|i] [|j] c c' k Hij Hc Hc' Hr Hk Hk'; try lia; cbn in Hc, Hc'.
        -- injection Hc as <-. assert (Et := logicalKey_type _ _ _ Hk Hk'). rewrite Hk in Ek. injection Ek as ->.
           apply (H1 c' key); [by apply list_elem_of_lookup_2 in Hc'|congruence|done|set_solver].
        -- apply (H2 i j c c' k); (lia || done).
    + intros [H1 H2]%IH. split.
      * intros c k [->|Hc]%elem_of_cons Hr Hk; [congruence|by apply (H1 c)].
      * intros [|i] [|j] c c' k Hij Hc Hc' Hr Hk Hk'; try lia; cbn in Hc, Hc'; [congruence|].
        apply (H2 i j c c' k); (lia || done).
Qed.

Lemma filter_two {A} (P : A -> Prop) `{!forall x, Decision (P x)} (l : list A) i j x y :
  (i < j)%nat -> l !! i = Some x -> l !! j = Some y -> P x -> P y -> 2 <= blen (filter P l).
Proof.
  intros Hij Hx Hy Px Py. rewrite <- (take_drop j l), filter_app, blen_app.
  assert (H1 : x ∈ filter P (take j l)). { apply list_elem_of_filter. split; [done|]. apply (list_elem_of_lookup_2 _ i). by rewrite lookup_take_lt. }
  assert (H2 : y ∈ filter P (drop j l)). { apply list_elem_of_filter. split; [done|]. apply (list_elem_of_lookup_2 _ 0). by rewrite lookup_drop, Nat.add_0_r. }
  destruct (filter P (take j l)); [by apply elem_of_nil in H1|]. destruct (filter P (drop j l)); [by apply elem_of_nil in H2|].
  rewrite !blen_cons. pose proof (blen_nonneg l0). pose proof (blen_nonneg l1). lia.
Qed.

(** A set of certificates, as the decoder checks it, has distinct identities. *)
Lemma ValidateCertificateSet_distinct certs : ValidateCertificateSet reencoded certs = Ok () -> distinctKeys certs.
Proof.
  unfold ValidateCertificateSet. intros Hv i j c c' key Hij Hc Hc' Hk Hk'.
  assert (Et := logicalKey_type _ _ _ Hk Hk').
  assert (Hn : 2 <= blen (filter (fun x => certificateType x = certificateType c) certs)) by (by apply (filter_two _ _ i j c c')).
  destruct (forallb _ certs) eqn:Ef.
  - rewrite forallb_forall in Ef. specialize (Ef c). rewrite <- list_elem_of_In in Ef.
    assert (Hin : c ∈ certs) by (by apply list_elem_of_lookup_2 in Hc). specialize (Ef Hin). apply Z.ltb_lt in Ef. lia.
  - apply certificateSetLoop_Ok in Hv as [_ H2]. apply (H2 i j c c' key); try done. by apply Z.leb_le.
Qed.

Lemma certifying_key cert h : certifyingCredential cert ≫= scriptOf = Some h -> is_Some (certificateLogicalKey reencoded cert).
Proof. destruct cert; cbn; try done; intros _; by eexists. Qed.

Definition certifyingPurpose (e : Z * BlockCertificate) : RedeemerKey * ScriptPurpose :=
  ((RedeemerTagCert, fst e), ScriptPurposeCertifying (fst e) (snd e)).

(** Each certificate of a script keeps its own index. *)
Lemma certifyingLoop_index certs hs : Forall2 (fun c h => certificateHash c = Ok h) certs hs -> forall index seen,
  distinctKeys certs -> (forall c key, c ∈ certs -> certificateLogicalKey reencoded c = Some key -> seen !! key = None) ->
  asRequirement ∘ certifyingPurpose <$> certifyingLoop reencoded index certs seen = scripted (indexFrom RedeemerTagCert index hs).
Proof.
  induction 1 as [|c h certs hs Eh Hhs IH]; intros index seen Hd Hseen; [done|]. cbn [certifyingLoop].
  assert (Hd' : distinctKeys certs) by (intros i j x y k Hij; apply (Hd (S i) (S j)); lia).
  apply certificateHash_Ok in Eh. cbn [purposeHash]. rewrite <- Eh. case_bool_decide as Ez.
  - rewrite IH by (try done; intros x key Hx; apply Hseen; by right). destruct h as [h|]; cbn [indexFrom]; [|done].
    rewrite filter_cons, decide_False by (cbn in *; tauto). done.
  - destruct h as [h|]; [|done]. cbn [default] in Ez. destruct (certifying_key c h (eq_sym Eh)) as [key Ek]. rewrite Ek.
    rewrite (Hseen c key) by (done || apply list_elem_of_here). rewrite fmap_cons. cbn [indexFrom]. rewrite filter_cons, decide_True by done.
    f_equal; [unfold asRequirement, certifyingPurpose; cbn; by rewrite <- Eh|]. apply IH; [done|]. intros x k Hx Hk.
    destruct (decide (k = key)) as [->|N].
    + exfalso. apply list_elem_of_lookup_1 in Hx as [j Hj]. apply (Hd 0%nat (S j) c x key); (lia || done).
    + rewrite lookup_insert_ne by done. apply (Hseen x); [by right|done].
Qed.

(** The hashes are those of the certificates in any case. *)
Lemma certifyingLoop_hashes certs hs : Forall2 (fun c h => certificateHash c = Ok h) certs hs -> forall index k seen,
  reqHash ∘ asRequirement ∘ certifyingPurpose <$> certifyingLoop reencoded index certs seen =
  reqHash <$> scripted (indexFrom RedeemerTagCert k hs).
Proof.
  induction 1 as [|c h certs hs Eh Hhs IH]; intros index k seen; [done|]. cbn [certifyingLoop].
  apply certificateHash_Ok in Eh. cbn [purposeHash]. rewrite <- Eh. case_bool_decide as Ez.
  - rewrite (IH _ (k + 1)). destruct h as [h|]; cbn [indexFrom]; [|done]. rewrite filter_cons, decide_False by (cbn in *; tauto). done.
  - destruct h as [h|]; [|done]. cbn [default] in Ez. cbn [indexFrom]. rewrite filter_cons, decide_True by done.
    destruct (certifying_key c h (eq_sym Eh)) as [key Ek]. rewrite Ek.
    destruct (seen !! key); rewrite !fmap_cons, (IH _ (k + 1)); f_equal; unfold asRequirement, certifyingPurpose; cbn; by rewrite <- Eh.
Qed.

Lemma certifyingLoop_nonzero certs : forall index seen,
  Forall (fun e => purposeHash (ScriptPurposeCertifying (fst e) (snd e)) <> noScriptHash) (certifyingLoop reencoded index certs seen).
Proof.
  induction certs as [|c certs IH]; intros index seen; cbn [certifyingLoop]; [constructor|].
  case_bool_decide as Hz; [apply IH|]. destruct (certificateLogicalKey reencoded c) as [key|]; [destruct (seen !! key)|];
    (constructor; [exact Hz|apply IH]).
Qed.

(** *** Withdrawals *)

Definition rewardKey (a : option Address) : Credential * Z :=
  match RewardAccountCredential a, a with Ok c, Some x => (c, networkId x) | _, _ => ((0, []), 0) end.

Lemma withdrawalKey_Ok w k : withdrawalKey w = Ok k ->
  exists x c, fst w = Some x /\ RewardAccountCredential (fst w) = Ok c /\ k = (c, networkId x) /\ rewardKey (fst w) = k /\
    StakeKeyHash x = snd c /\ (usesScript x = false /\ fst c = 0 \/ usesScript x = true /\ fst c = 1).
Proof.
  destruct w as [a amt]. unfold withdrawalKey, rewardKey. cbn [fst]. intros (c & Ec & [= <-])%bind_Ok. apply fromShelley_inv in Ec.
  destruct (RewardAccountCredential_Ok a c Ec) as (x & raw & -> & _ & Es & Ht). exists x, c. rewrite Ec.
  split_and!; try done; [unfold StakeKeyHash; by rewrite Es|].
  unfold usesScript, AddressTypeScriptBit. destruct Ht as [[-> ->]|[-> ->]]; [by left|by right].
Qed.

Lemma rewardAddressLe_total a b : rewardAddressLe addressText a b = true \/ rewardAddressLe addressText b a = true.
Proof.
  unfold rewardAddressLe. destruct a as [x|], b as [y|]; [|by right|by left|by left].
  destruct (RewardAccountCredential (Some x)) as [c|], (RewardAccountCredential (Some y)) as [d|]; try apply bytes_leb_total.
  rewrite (Z.eqb_sym (networkId y)), (Z.eqb_sym (fst d)).
  destruct (Z.eqb_spec (networkId x) (networkId y)), (Z.eqb_spec (fst c) (fst d)); cbn [negb]; rewrite ?Z.ltb_lt; try lia.
  apply bytes_leb_total.
Qed.

Lemma SortWithdrawalAddresses_keys ws keys : collect withdrawalKey ws = Ok keys ->
  rewardKey <$> SortWithdrawalAddresses addressText ws = sortBy withdrawalLe keys.
Proof.
  intros Hc%collect_Ok. unfold SortWithdrawalAddresses.
  assert (Hk : rewardKey <$> (fst <$> ws) = keys).
  { induction Hc as [|w k ws keys Hw _ IH]; [done|]. rewrite !fmap_cons, IH. f_equal.
    by destruct (withdrawalKey_Ok w k Hw) as (x & c & _ & _ & _ & E & _). }
  assert (Ht : forall a, a ∈ fst <$> ws -> exists x c, a = Some x /\ RewardAccountCredential a = Ok c /\ rewardKey a = (c, networkId x) /\ (fst c = 0 \/ fst c = 1)).
  { intros a (w & -> & [j Hj]%list_elem_of_lookup_1)%list_elem_of_fmap. destruct (Forall2_lookup_l _ _ _ _ _ Hc Hj) as (k & _ & Ek).
    destruct (withdrawalKey_Ok w k Ek) as (x & c & E1 & E2 & E3 & E4 & _ & E5). exists x, c. rewrite E4. naive_solver. }
  rewrite <- Hk. apply sortBy_agree.
  - apply rewardAddressLe_total.
  - apply (o_total _ withdrawal_ordering).
  - apply (o_trans _ withdrawal_ordering).
  - intros a b Ha Hb. destruct (Ht a Ha) as (x & c & -> & Ec & Ea & Hc0), (Ht b Hb) as (y & d & -> & Ed & Eb & Hd0).
    rewrite Ea, Eb. unfold rewardAddressLe. rewrite Ec, Ed. unfold withdrawalLe, credentialOrder. cbn [fst snd].
    destruct Hc0 as [-> | ->], Hd0 as [-> | ->]; done.
  - intros a b Ha Hb. destruct (Ht a Ha) as (x & c & -> & Ec & -> & Hc0), (Ht b Hb) as (y & d & -> & Ed & -> & Hd0).
    by apply withdrawalLe_antisym.
Qed.

(** *** Voters *)

Lemma sortVoters_ordering : ordering sortVotersLe.
Proof.
  split.
  - intros [x|] [y|]; [|by right|by left|by left]. apply (o_total _ voter_ordering).
  - intros [x|] [y|] [z|]; try done. apply (o_trans _ voter_ordering).
Qed.

Lemma votersOf_Ok tx voters : votersOf tx = Ok voters ->
  fst <$> VotingProcedures tx = Some <$> voters /\ Forall (fun v => is_ok (voterCredential (Some v))) voters.
Proof.
  unfold votersOf. intros (cs & Hc & [= <-])%bind_Ok. apply collect_Ok in Hc.
  induction Hc as [|[v ids] c vs cs Ev _ [IH1 IH2]]; [done|]. cbn [fst] in Ev. destruct v as [v|]; [|done].
  cbn [omap list_omap fst]. rewrite fmap_cons. cbn [fst]. split.
  - cbn. f_equal. exact IH1.
  - constructor; [by rewrite Ev|exact IH2].
Qed.

Lemma SortVoters_sorted tx voters : votersOf tx = Ok voters -> SortVoters (VotingProcedures tx) = Some <$> sortBy voterLe voters.
Proof.
  intros (E & Hv)%votersOf_Ok. unfold SortVoters. rewrite E. symmetry. apply sortBy_agree.
  - apply (o_total _ voter_ordering).
  - apply (o_total _ sortVoters_ordering).
  - apply (o_trans _ sortVoters_ordering).
  - intros x y _ _. done.
  - intros x y Hx Hy H1 H2. f_equal. rewrite Forall_forall in Hv. apply voterLe_antisym; [by apply Hv|by apply Hv|done|done].
Qed.

Lemma voterCredential_script v c : voterCredential (Some v) = Ok c ->
  scriptOf c = if VoterUsesScriptCredential v then Some (voterHash v) else None.
Proof.
  unfold voterCredential, VoterUsesScriptCredential, scriptOf, VoterTypeConstitutionalCommitteeHotKeyHash, VoterTypeDRepKeyHash,
    VoterTypeStakingPoolKeyHash, VoterTypeConstitutionalCommitteeHotScriptHash, VoterTypeDRepScriptHash.
  repeat match goal with |- context [?x =? ?n] => destruct (Z.eqb_spec x n) end; cbn; intros [= <-]; try done; lia.
Qed.

Lemma collect_fmap {E A B} (f : A -> result E B) (g : A -> B) l ys :
  collect f l = Ok ys -> (forall x y, f x = Ok y -> y = g x) -> ys = g <$> l.
Proof. intros Hc%collect_Ok Hg. induction Hc as [|x y l ys Hy _ IH]; [done|]. rewrite fmap_cons, <- IH. by rewrite (Hg x y). Qed.

(** *** Both walks *)

Lemma spending_agree tx ls ins : NoDup (Inputs tx) -> collect (resolveInput InputResolution ls) (Inputs tx) = Ok ins ->
  asRequirement <$> purposesFrom RedeemerTagSpend 0 (fun _ i =>
    match foldl (fun m e => <[fst e := snd e]> m) (∅ : gmap TransactionInput ConwayOutput) ins !! i with
    | Some o => if usesScript (outAddress o) then Some (ScriptPurposeSpending i o) else None
    | None => None
    end) (SortInputs (Inputs tx)) = scripted (indexFrom RedeemerTagSpend 0 (spendingHash ls <$> sortBy inputLe (Inputs tx))).
Proof.
  intros Hd Hc. rewrite SortInputs_id by done. apply purposesFrom_index. intros j i Hi. rewrite sortBy_Permutation in Hi.
  destruct (resolve_Ok _ _ _ _ _ Hc Hi) as [o Ho]. rewrite (resolve_byId _ _ _ _ _ _ Hc Hi Ho). unfold spendingHash. rewrite Ho.
  by destruct (usesScript (outAddress o)).
Qed.

Lemma reward_agree tx keys : collect withdrawalKey (withdrawalsOf tx) = Ok keys ->
  asRequirement <$> purposesFrom RedeemerTagReward 0 (fun _ a =>
    match a with
    | Some x => if usesScript x then Some (ScriptPurposeRewarding (CredentialTypeScriptHash, StakeKeyHash x)) else None
    | None => None
    end) (SortWithdrawalAddresses addressText (withdrawalsOf tx)) =
  scripted (indexFrom RedeemerTagReward 0 (scriptOf ∘ fst <$> sortBy withdrawalLe keys)).
Proof.
  intros Hc. rewrite <- (SortWithdrawalAddresses_keys _ _ Hc), <- list_fmap_compose. apply purposesFrom_index.
  intros _ a Ha. unfold SortWithdrawalAddresses in Ha. rewrite sortBy_Permutation in Ha. apply list_elem_of_fmap in Ha as (w & -> & Hw).
  destruct (collect_in _ _ _ _ Hc Hw) as (k & _ & Hk).
  destruct (withdrawalKey_Ok w k Hk) as (x & c & E1 & E2 & E3 & E4 & E5 & E6). cbn [compose]. rewrite E4, E3, E1. cbn [fst].
  unfold scriptOf. by destruct E6 as [[-> ->]|[-> ->]]; cbn; rewrite ?E5.
Qed.

Lemma voting_agree tx voters votes : votersOf tx = Ok voters ->
  collect (fun v => c ← voterCredential (Some v); Ok (scriptOf c)) (sortBy voterLe voters) = Ok votes ->
  asRequirement <$> purposesFrom RedeemerTagVoting 0 (fun _ v =>
    match v with
    | Some x => if VoterUsesScriptCredential x then Some (ScriptPurposeVoting x) else None
    | None => None
    end) (SortVoters (VotingProcedures tx)) = scripted (indexFrom RedeemerTagVoting 0 votes).
Proof.
  intros Hv Hc. rewrite (SortVoters_sorted _ _ Hv).
  set (g := fun v => match v with Some x => if VoterUsesScriptCredential x then Some (voterHash x) else None | None => None end).
  assert (E : votes = g <$> (Some <$> sortBy voterLe voters)).
  { rewrite <- list_fmap_compose. apply (collect_fmap _ _ _ _ Hc). intros x y (c & Ec & [= <-])%bind_Ok. by apply voterCredential_script. }
  rewrite E. apply purposesFrom_index. intros _ v (x & -> & _)%list_elem_of_fmap. unfold g. by destruct (VoterUsesScriptCredential x).
Qed.

Lemma proposing_agree tx hs : collect proposalHash (ProposalProcedures tx) = Ok hs ->
  asRequirement <$> purposesFrom RedeemerTagProposing 0 (fun k p => Some (ScriptPurposeProposing k p)) (ProposalProcedures tx) =
  scripted (indexFrom RedeemerTagProposing 0 hs).
Proof.
  intros Hc. set (g := fun p => PPGovAction p ≫= GetPolicyHash).
  rewrite (collect_fmap _ g _ _ Hc).
  - apply purposesFrom_index. intros k p Hp. destruct (collect_in _ _ _ _ Hc Hp) as (h & _ & E). revert E. unfold proposalHash, g. cbn.
    destruct (PPGovAction p) as [a|]; [|done]. cbn. destruct (GetPolicyHash a) as [b|]; [|done].
    destruct (blen b =? 28); [|done]. intros _. done.
  - intros p h. unfold proposalHash, g. destruct (PPGovAction p) as [a|]; [|done]. cbn. destruct (GetPolicyHash a) as [b|]; [|by intros [= <-]].
    destruct (blen b =? 28); [by intros [= <-]|done].
Qed.

(** The walks differ at most in the indices of certificates. *)
Lemma walks tx ls r ins refs : NoDup (Inputs tx) ->
  collectTransactionScriptRequirements tx ls = Ok r -> ResolveTxInputs tx ls = Ok (ins, refs) ->
  exists before after hs, Forall2 (fun c h => certificateHash c = Ok h) (Certificates tx) hs /\
    asRequirement <$> ScriptPurposes reencoded addressText tx ins =
      before ++ (asRequirement ∘ certifyingPurpose <$> certifyingLoop reencoded 0 (Certificates tx) ∅) ++ after /\
    scripted (purposes r) = before ++ scripted (indexFrom RedeemerTagCert 0 hs) ++ after.
Proof.
  intros Hd Hr (ins' & Hi & (refs' & _ & [= -> ->])%bind_Ok)%bind_Ok. revert Hr. unfold collectTransactionScriptRequirements.
  intros (outs & _ & (certs & Hcerts & (keys & Hkeys & (voters & Hvoters & (votes & Hvotes & (props & Hprops & [= <-])%bind_Ok)%bind_Ok)%bind_Ok)%bind_Ok)%bind_Ok)%bind_Ok.
  cbn [purposes]. unfold ScriptPurposes. rewrite !fmap_app, !filter_app, (spending_agree _ _ _ Hd Hi), (reward_agree _ _ Hkeys), (voting_agree _ _ _ Hvoters Hvotes),
    (proposing_agree _ _ Hprops).
  assert (Em : asRequirement <$> match AssetMint tx with
      | None => []
      | Some m => purposesFrom RedeemerTagMint 0 (fun _ policy => Some (ScriptPurposeMinting policy)) (sortBy bytes_leb (Policies m))
      end = scripted (match AssetMint tx with None => [] | Some m => indexFrom RedeemerTagMint 0 (Some <$> sortBy bytes_leb (Policies m)) end)).
  { destruct (AssetMint tx); [|done]. by apply purposesFrom_index. }
  unfold certifyingPurposes. rewrite Em, (filter_all _ (certifyingLoop _ _ _ _)) by apply certifyingLoop_nonzero. rewrite <- list_fmap_compose.
  generalize (scripted (indexFrom RedeemerTagSpend 0 (spendingHash ls <$> sortBy inputLe (Inputs tx)))).
  generalize (scripted (indexFrom RedeemerTagReward 0 (scriptOf ∘ fst <$> sortBy withdrawalLe keys))).
  generalize (scripted (indexFrom RedeemerTagVoting 0 votes)) (scripted (indexFrom RedeemerTagProposing 0 props)).
  generalize (scripted (match AssetMint tx with None => [] | Some m => indexFrom RedeemerTagMint 0 (Some <$> sortBy bytes_leb (Policies m)) end)).
  intros M V P R S. exists (S ++ M), (R ++ V ++ P), certs. rewrite <- !app_assoc. split; [by apply collect_Ok|split; reflexivity].
Qed.

Lemma purposes_cover tx ls r ins refs h : NoDup (Inputs tx) ->
  collectTransactionScriptRequirements tx ls = Ok r -> ResolveTxInputs tx ls = Ok (ins, refs) ->
  h ∈ required r -> h <> noScriptHash -> exists e, e ∈ ScriptPurposes reencoded addressText tx ins /\ purposeHash (snd e) = h.
Proof.
  intros Hd Hr Hi Hh Hz. destruct (walks tx ls r ins refs Hd Hr Hi) as (before & after & hs & Hc & E1 & E2).
  assert (Hin : h ∈ reqHash <$> (asRequirement <$> ScriptPurposes reencoded addressText tx ins)).
  { rewrite E1, !fmap_app, <- list_fmap_compose.
    pose proof (certifyingLoop_hashes _ _ Hc 0 0 ∅) as E3.
    change (reqHash ∘ (asRequirement ∘ certifyingPurpose)) with (reqHash ∘ asRequirement ∘ certifyingPurpose). rewrite E3, <- !fmap_app, <- E2.
    apply list_elem_of_fmap in Hh as (p & -> & Hp). apply list_elem_of_fmap. exists p. split; [done|]. by apply list_elem_of_filter. }
  rewrite <- list_fmap_compose in Hin. apply list_elem_of_fmap in Hin as (e & -> & He). by exists e.
Qed.

(** *** The scripts that are there *)

Lemma addScripts_app m l k : addScripts m (l ++ k) = addScripts (addScripts m l) k.
Proof. apply foldl_app. Qed.

Lemma addScripts_in l : forall m h s, addScripts m l !! h = Some s -> m !! h = Some s \/ s ∈ l /\ scriptHashOf s = h.
Proof.
  induction l as [|x l IH]; intros m h s; cbn [addScripts foldl]; [by left|]. intros [E|[Hs Eh]]%IH.
  - destruct (decide (scriptHashOf x = h)) as [<-|N].
    + rewrite lookup_insert_eq in E. injection E as ->. right. split; [apply list_elem_of_here|done].
    + rewrite lookup_insert_ne in E by done. by left.
  - right. split; [by right|done].
Qed.

Lemma collect_omap {A} wrap ls (f : ConwayOutput -> option A) inputs resolved outs :
  collect (resolveInput wrap ls) inputs = Ok resolved -> collect (resolveReference ls) inputs = Ok outs ->
  omap (fun e : TransactionInput * ConwayOutput => f (snd e)) resolved = omap f outs.
Proof.
  intros H1%collect_Ok H2%collect_Ok. revert outs H2. induction H1 as [|i e inputs resolved He _ IH]; intros outs H2; inversion H2 as [|? o ? outs' Ho H2']; subst; [done|].
  unfold resolveInput in He. unfold resolveReference in Ho. destruct (UtxoById (lstate ls) i) as [o'|]; [|done]. injection He as <-. injection Ho as ->.
  cbn. by rewrite (IH outs').
Qed.

Lemma resolved_omap {A} wrap ls (f : ConwayOutput -> option A) inputs resolved :
  collect (resolveInput wrap ls) inputs = Ok resolved -> omap (fun e : TransactionInput * ConwayOutput => f (snd e)) resolved = omap f (resolvedOutputs ls inputs).
Proof.
  intros H1%collect_Ok. induction H1 as [|i e inputs resolved He _ IH]; [done|].
  unfold resolveInput in He. unfold resolvedOutputs in *. cbn. destruct (UtxoById (lstate ls) i) as [o|]; [|done]. injection He as <-.
  cbn. by rewrite IH.
Qed.

(** The view and the requirements have the same scripts. *)
Lemma available_agree tx ls r ins refs :
  collectTransactionScriptRequirements tx ls = Ok r -> ResolveTxInputs tx ls = Ok (ins, refs) ->
  availableScripts tx (ins ++ refs) = available r.
Proof.
  intros Hr (ins' & Hi & (refs' & Hrefs & [= -> ->])%bind_Ok)%bind_Ok. revert Hr. unfold collectTransactionScriptRequirements.
  intros (outs & Houts & (certs & _ & (keys & _ & (voters & _ & (votes & _ & (props & _ & [= <-])%bind_Ok)%bind_Ok)%bind_Ok)%bind_Ok)%bind_Ok)%bind_Ok.
  unfold availableScripts. cbn [available].
  rewrite omap_app, addScripts_app, (resolved_omap _ _ ScriptRef _ _ Hi). f_equal. by apply (collect_omap _ _ ScriptRef _ _ _ Hrefs).
Qed.

(** ** Native scripts *)

Lemma neededScripts_lookup tx (ins : list (TransactionInput * ConwayOutput)) (avail : gmap ScriptHash Script) (e : RedeemerKey * ScriptPurpose) s :
  e ∈ ScriptPurposes reencoded addressText tx ins -> avail !! purposeHash (snd e) = Some s ->
  neededScripts reencoded addressText tx ins avail !! purposeHash (snd e) = Some s.
Proof.
  intros He Hs. unfold neededScripts. rewrite decide_False by (intros ->; by rewrite lookup_empty in Hs).
  set (step := fun (out : gmap ScriptHash Script) (e : RedeemerKey * ScriptPurpose) => _). assert (Hg : forall l m, m !! purposeHash (snd e) = Some s \/ e ∈ l ->
    foldl step m l !! purposeHash (snd e) = Some s); [|apply Hg; by right].
  induction l as [|x l IH]; intros m [Hm|Hm]; cbn [foldl]; [done|by apply elem_of_nil in Hm| |]; apply IH.
  - left. unfold step. destruct (avail !! purposeHash (snd x)) as [t|] eqn:Et; [|done].
    destruct (decide (purposeHash (snd x) = purposeHash (snd e))) as [E|N]; [|by rewrite lookup_insert_ne].
    rewrite E, lookup_insert_eq. congruence.
  - apply elem_of_cons in Hm as [->|Hm]; [|by right]. left. unfold step. rewrite Hs. apply lookup_insert_eq.
Qed.

Lemma neededWitnesses_seen needed scripts : forall seen out seen' h, neededWitnesses needed scripts seen = (out, seen') ->
  h ∈ seen' -> h ∈ seen \/ exists n, n ∈ out /\ n ∈ scripts /\ nativeHash n = h.
Proof.
  induction scripts as [|s scripts IH]; intros seen out seen' h; cbn [neededWitnesses]; [intros [= <- <-]; by left|].
  destruct (_ || _).
  - intros E Hh. destruct (IH _ _ _ _ E Hh) as [?|(n & ? & ? & ?)]; [by left|]. right. exists n. split_and!; [done|by right|done].
  - destruct (neededWitnesses needed scripts _) as [out2 seen2] eqn:E. intros [= <- <-] Hh.
    destruct (IH _ _ _ _ E Hh) as [[->%elem_of_singleton|?]%elem_of_union|(n & ? & ? & ?)]; [|by left|].
    + right. exists s. split_and!; [apply list_elem_of_here|apply list_elem_of_here|done].
    + right. exists n. split_and!; [by right|by right|done].
Qed.

(** A native script that is needed is evaluated, or one of its hash is. *)
Lemma native_evaluated tx view h n0 : Needed view !! h = Some (NativeScriptOf n0) ->
  exists n, n ∈ NativeScriptsToEvaluate tx view /\
    (n = n0 \/ nativeHash n = h /\ NativeScriptOf n ∈ witnessScripts (Witnesses tx)).
Proof.
  intros Hn. unfold NativeScriptsToEvaluate. destruct (neededWitnesses _ _ _) as [out seen] eqn:E.
  destruct (decide (h ∈ seen)) as [Hs|Hs].
  - destruct (neededWitnesses_seen _ _ _ _ _ _ E Hs) as [?|(n & H1 & H2 & H3)]; [set_solver|].
    exists n. split; [apply elem_of_app; by left|]. right. split; [done|]. unfold witnessScripts. destruct (Witnesses tx) as [w|]; [|by apply elem_of_nil in H2].
    apply elem_of_app. left. apply list_elem_of_fmap. by exists n.
  - exists n0. split; [|by left]. apply elem_of_app. right. rewrite sortBy_Permutation. apply list_elem_of_omap.
    exists (h, NativeScriptOf n0). split; [by apply elem_of_map_to_list|]. cbn. by rewrite bool_decide_false.
Qed.

Lemma nativeLoop_Ok env scripts : nativeLoop env scripts = Ok () -> guardCredentials env = None -> Forall (fun s => evaluate env s = true) scripts.
Proof.
  induction scripts as [|s scripts IH]; cbn [nativeLoop]; [constructor|]. unfold EvaluateWithBounds. destruct (evaluate _ s) eqn:E; [|done].
  intros Hl Hg. constructor; [|by apply IH]. destruct env. cbn in Hg, E. by subst.
Qed.

(** ** Authority *)

(** A key signed the transaction. *)
Definition signedBy tx (h : KeyHash) : Prop :=
  exists w v, Witnesses tx = Some w /\ v ∈ Vkeys w /\ Blake2b224Hash (Vkey v) = h /\
    Ed25519Verify (Vkey v) (Hash tx) (VkeySignature v) = true.

(** The key of a bootstrap witness, by its address root. *)
Definition bootstrapSigned tx (h : KeyHash) : Prop :=
  exists w b, Witnesses tx = Some w /\ b ∈ Bootstrap w /\ bootstrapKeyHash b = Some h /\
    Ed25519Verify (BwPublicKey b) (Hash tx) (BwSignature b) = true.

(** Whose signature a transaction needs. *)
Inductive needsKey tx ls : KeyHash -> Prop :=
| NK_input i o h : i ∈ Inputs tx ++ Collateral tx -> UtxoById (lstate ls) i = Ok o ->
    payment (outAddress o) = Some (AddressPayloadKeyHash h) -> addressType (outAddress o) <> AddressTypeByron -> needsKey tx ls h
| NK_withdrawal w h : w ∈ withdrawalsOf tx -> RewardAccountCredential (fst w) = Ok (0, h) -> needsKey tx ls h
| NK_certificate cert h : cert ∈ Certificates tx -> certifyingCredential cert = Some (0, h) -> needsKey tx ls h
| NK_operator reg : PoolRegistrationCert reg ∈ Certificates tx -> needsKey tx ls (Operator reg)
| NK_owner reg h : PoolRegistrationCert reg ∈ Certificates tx -> h ∈ PoolOwners reg -> needsKey tx ls h
| NK_retirement pool epoch : PoolRetirementCertificate pool epoch ∈ Certificates tx -> needsKey tx ls pool
| NK_genesis h d v : GenesisKeyDelegationCertificate h d v ∈ Certificates tx -> needsKey tx ls h
| NK_voter v ids : (Some v, ids) ∈ VotingProcedures tx -> voterType v ∈ [0; 2; 4] -> needsKey tx ls (voterHash v)
| NK_signer h : h ∈ RequiredSigners tx -> needsKey tx ls h.

(** Which script must agree, and the redeemer for it: the position in the
    collection, counted in the order of the ledger. *)
Inductive needsScript tx ls : ScriptHash -> RedeemerKey -> Prop :=
| NS_spend i o : i ∈ Inputs tx -> UtxoById (lstate ls) i = Ok o -> Z.odd (addressType (outAddress o)) = true ->
    needsScript tx ls (PaymentKeyHash (outAddress o)) (0, u32 (Z.of_nat (rank inputLe i (Inputs tx))))
| NS_mint m policy : AssetMint tx = Some m -> is_Some (m !! policy) ->
    needsScript tx ls policy (1, u32 (Z.of_nat (rank bytes_leb policy (Policies m))))
| NS_certificate k cert h : Certificates tx !! k = Some cert -> certifyingCredential cert = Some (1, h) ->
    needsScript tx ls h (2, u32 (Z.of_nat k))
| NS_withdrawal w h : w ∈ withdrawalsOf tx -> RewardAccountCredential (fst w) = Ok (1, h) ->
    needsScript tx ls h (3, u32 (Z.of_nat (rank withdrawalLe (rewardKey (fst w)) (rewardKey ∘ fst <$> withdrawalsOf tx))))
| NS_voter v ids : (Some v, ids) ∈ VotingProcedures tx -> voterType v ∈ [1; 3] ->
    needsScript tx ls (voterHash v) (4, u32 (Z.of_nat (rank voterLe v (omap fst (VotingProcedures tx)))))
| NS_proposal k p a h : ProposalProcedures tx !! k = Some p -> PPGovAction p = Some a -> GetPolicyHash a = Some h ->
    needsScript tx ls h (5, u32 (Z.of_nat k)).

(** The scripts that come with a transaction. *)
Definition carried tx ls (s : Script) : Prop :=
  s ∈ witnessScripts (Witnesses tx) \/
  exists i o, i ∈ Inputs tx ++ ReferenceInputs tx /\ UtxoById (lstate ls) i = Ok o /\ ScriptRef o = Some s.

(** A script agrees: a native one holds, a Plutus one has a redeemer. *)
Definition agrees tx slot (s : Script) (key : RedeemerKey) : Prop :=
  match s with
  | NativeScriptOf n => Holds (fun h => signedBy tx h \/ bootstrapSigned tx h) slot n
  | PlutusScriptOf _ _ => key ∈ redeemersOf tx
  end.

(** *** Keys *)

Lemma vkeyLoop_Ok msg vs : vkeyLoop msg vs = Ok () -> Forall (fun v => Ed25519Verify (Vkey v) msg (VkeySignature v) = true) vs.
Proof.
  induction vs as [|v vs IH]; cbn [vkeyLoop]; [constructor|]. unfold VerifyVKeySignature.
  destruct (negb _); [done|]. destruct (negb _); [done|]. destruct (Ed25519Verify _ _ _) eqn:E; [|done]. constructor; [done|by apply IH].
Qed.

Lemma bootstrapLoop_Ok msg bs : bootstrapLoop msg bs = Ok () -> Forall (fun b => Ed25519Verify (BwPublicKey b) msg (BwSignature b) = true) bs.
Proof.
  induction bs as [|b bs IH]; cbn [bootstrapLoop]; [constructor|].
  destruct (negb _); [done|]. destruct (negb _); [done|]. destruct (Ed25519Verify _ _ _) eqn:E; [|done]. constructor; [done|by apply IH].
Qed.

Lemma vkeyHashes_signed tx h : ValidateVKeyWitnesses tx = Ok () -> h ∈ vkeyHashes (Witnesses tx) -> signedBy tx h.
Proof.
  unfold ValidateVKeyWitnesses, vkeyHashes, signedBy. destruct (Witnesses tx) as [w|]; [|set_solver].
  intros Hv%vkeyLoop_Ok (v & -> & Hin)%elem_of_list_to_set%list_elem_of_fmap. rewrite Forall_forall in Hv. exists w, v. auto.
Qed.

Lemma bootstrap_signed tx w b h : ValidateBootstrapWitnesses tx = Ok () -> Witnesses tx = Some w -> b ∈ Bootstrap w -> bootstrapKeyHash b = Some h ->
  bootstrapSigned tx h.
Proof.
  unfold ValidateBootstrapWitnesses, bootstrapSigned. intros Hv Ew Hb Eb. rewrite Ew in Hv. apply bootstrapLoop_Ok in Hv.
  rewrite Forall_forall in Hv. exists w, b. auto.
Qed.

Lemma keyWitnessed_signed tx byron h : ValidateVKeyWitnesses tx = Ok () -> ValidateBootstrapWitnesses tx = Ok () ->
  keyWitnessed (Witnesses tx) byron h = true -> signedBy tx h \/ byron = true /\ bootstrapSigned tx h.
Proof.
  intros Hv Hb [Hk%bool_decide_eq_true|[-> Hk]%andb_true_iff]%orb_true_iff; [left; by apply vkeyHashes_signed|]. right. split; [done|].
  unfold hasBootstrap in Hk. destruct (Witnesses tx) as [w|] eqn:Ew; [|done]. apply existsb_exists in Hk as (b & Hin%list_elem_of_In & E%bool_decide_eq_true).
  by apply (bootstrap_signed tx w b).
Qed.

Lemma witnessKeyHashes_signed tx h : ValidateVKeyWitnesses tx = Ok () -> ValidateBootstrapWitnesses tx = Ok () ->
  h ∈ witnessKeyHashes (Witnesses tx) -> signedBy tx h \/ bootstrapSigned tx h.
Proof.
  intros Hv Hb. unfold witnessKeyHashes. destruct (Witnesses tx) as [w|] eqn:Ew; [|set_solver].
  intros [Hk|(b & Hin & Hb0)%elem_of_list_to_set%list_elem_of_omap]%elem_of_union.
  - left. apply vkeyHashes_signed; [done|]. by rewrite Ew.
  - right. by apply (bootstrap_signed tx w b).
Qed.

Lemma elem_of_concat_in {A} (x : A) l ll : x ∈ l -> l ∈ ll -> x ∈ concat ll.
Proof. rewrite !list_elem_of_In. intros. apply in_concat. by exists l. Qed.

Lemma certificateSigners_in cert h ks : certificateSigners cert = Ok ks -> certifyingCredential cert = Some (0, h) -> h ∈ ks.
Proof.
  unfold certificateSigners, forEachCertificateCredential, visitCredential. intros (v & Ev & Ek)%bind_Ok Ec.
  destruct cert; cbn in Ec; try done; injection Ec as ->; cbn in Ev; injection Ev as <-; injection Ek as <-; apply list_elem_of_here.
Qed.

Lemma ofType_in t h : h ∈ ofType t (t, h).
Proof. unfold ofType. cbn [fst snd]. rewrite Z.eqb_refl. apply list_elem_of_here. Qed.

(** The keys of the certificates, withdrawals, voters and signers are required. *)
Lemma requiredKeys_in tx ls ks h : requiredKeys tx = Ok ks -> needsKey tx ls h ->
  h ∈ ks \/ exists i o, i ∈ Inputs tx ++ Collateral tx /\ UtxoById (lstate ls) i = Ok o /\
    payment (outAddress o) = Some (AddressPayloadKeyHash h) /\ addressType (outAddress o) <> AddressTypeByron.
Proof.
  unfold requiredKeys. intros (ws & Hw & (cs & Hc & (vs & Hv & [= <-])%bind_Ok)%bind_Ok)%bind_Ok Hn.
  assert (Hcert : forall cert, cert ∈ Certificates tx -> exists k, k ∈ cs /\ certificateSigners cert = Ok k) by (intros; by eapply collect_in).
  destruct Hn as [i o h Hi Ho Hp Hb|w h Hin E|cert h Hin E|reg Hin|reg h Hin Ho|pool epoch Hin|h d v Hin|v ids Hin Ht|h Hin];
    [right; by exists i, o|left; rewrite !elem_of_app..].
  - right; left. destruct (collect_in _ _ _ _ Hw Hin) as (k & Hk & Ek). rewrite E in Ek. injection Ek as <-.
    apply (elem_of_concat_in _ _ _ (ofType_in 0 h) Hk).
  - right; right; left. destruct (Hcert _ Hin) as (k & Hk & Ek). by apply (elem_of_concat_in _ k); [apply (certificateSigners_in cert)|].
  - right; right; left. destruct (Hcert _ Hin) as (k & Hk & [= <-]). apply (elem_of_concat_in _ _ _ (list_elem_of_here _ _) Hk).
  - right; right; left. destruct (Hcert _ Hin) as (k & Hk & [= <-]). by apply (elem_of_concat_in _ _ _ (list_elem_of_further _ _ _ Ho) Hk).
  - right; right; left. destruct (Hcert _ Hin) as (k & Hk & [= <-]). apply (elem_of_concat_in _ _ _ (list_elem_of_here _ _) Hk).
  - right; right; left. destruct (Hcert _ Hin) as (k & Hk & Ek). unfold certificateSigners in Ek. cbn in Ek.
    destruct (negb _); [done|]. injection Ek as <-. apply (elem_of_concat_in _ _ _ (list_elem_of_here _ _) Hk).
  - right; right; right. destruct (collect_in _ _ _ _ Hv Hin) as (k & Hk & Ek). destruct v as [t h]. cbn in Ek, Ht |- *.
    rewrite !elem_of_cons, elem_of_nil in Ht. apply (elem_of_concat_in _ [h]); [apply list_elem_of_here|].
    destruct Ht as [-> |[-> |[-> |[]]]]; cbn in Ek; by injection Ek as <-.
  - by left.
Qed.

Lemma find_none {A} (P : A -> Prop) `{!forall x, Decision (P x)} (l : list A) : list_find P l = None -> Forall (fun x => ~ P x) l.
Proof. apply list_find_None. Qed.

Lemma required_signed tx ks h : ValidateRequiredVKeyWitnesses tx = Ok () -> requiredKeys tx = Ok ks -> ValidateVKeyWitnesses tx = Ok () ->
  h ∈ ks -> signedBy tx h.
Proof.
  unfold ValidateRequiredVKeyWitnesses. intros ([] & _ & (ks' & Hk & Hr)%bind_Ok)%bind_Ok Hk' Hv Hh.
  rewrite Hk in Hk'. injection Hk' as ->. destruct (Z.eqb_spec (blen ks) 0) as [E|_]; [apply blen_0 in E; subst; by apply elem_of_nil in Hh|].
  destruct (Witnesses tx) as [w|] eqn:Ew; [|done]. destruct (blen (Vkeys w) =? 0); [done|].
  destruct (list_find _ ks) as [[j y]|] eqn:Ef; [done|]. apply find_none in Ef. rewrite Forall_forall in Ef.
  apply vkeyHashes_signed; [done|]. rewrite Ew. specialize (Ef h Hh). by apply dec_stable in Ef.
Qed.

Lemma inputWitnessLoop_Ok w ls inputs i o h : inputWitnessLoop w ls inputs = Ok () -> i ∈ inputs -> UtxoById (lstate ls) i = Ok o ->
  payment (outAddress o) = Some (AddressPayloadKeyHash h) -> keyWitnessed w (isByron (outAddress o)) h = true.
Proof.
  induction inputs as [|j inputs IH]; [by intros _ Hi%elem_of_nil|]. intros Hl [->|Hi]%elem_of_cons Ho Hp; cbn [inputWitnessLoop] in Hl.
  - rewrite Ho, Hp in Hl. by destruct (keyWitnessed _ _ _).
  - apply IH; try done. destruct (UtxoById (lstate ls) j) as [p|]; [|done]. destruct (payment (outAddress p)) as [[hash| |]|]; try done.
    by destruct (keyWitnessed w (isByron (outAddress p)) hash).
Qed.

Lemma collateralWitnessLoop_Ok w ls inputs i o h : collateralWitnessLoop w ls inputs = Ok () -> i ∈ inputs -> UtxoById (lstate ls) i = Ok o ->
  payment (outAddress o) = Some (AddressPayloadKeyHash h) -> keyWitnessed w (isByron (outAddress o)) h = true.
Proof.
  induction inputs as [|j inputs IH]; [by intros _ Hi%elem_of_nil|]. intros Hl [->|Hi]%elem_of_cons Ho Hp; cbn [collateralWitnessLoop] in Hl.
  - rewrite Ho, Hp in Hl. by destruct (keyWitnessed _ _ _).
  - apply IH; try done. destruct (UtxoById (lstate ls) j) as [p|]; [|done]. destruct (payment (outAddress p)) as [[hash| |]|]; try done.
    by destruct (keyWitnessed w (isByron (outAddress p)) hash).
Qed.

(** *** Scripts *)

Lemma usesScript_odd a : usesScript a = Z.odd (addressType a).
Proof.
  unfold usesScript, AddressTypeScriptBit. change 1 with (Z.ones 1). rewrite Z.land_ones by lia. change (2 ^ 1) with 2.
  rewrite Zmod_odd. by destruct (Z.odd _).
Qed.

(** The requirement of an element at its rank. *)
Lemma index_rank {A} tag (le : A -> A -> bool) (g : A -> option ScriptHash) l x h : ordering le -> x ∈ l ->
  (forall y, y ∈ l -> le x y = true -> le y x = true -> x = y) -> g x = Some h ->
  mkRequirement h (tag, u32 (Z.of_nat (rank le x l))) ∈ indexFrom tag 0 (g <$> sortBy le l).
Proof.
  intros [T Tr] Hx Ha Hg. destruct (sortBy_rank le T Tr x l Hx) as (y & Hy & L1 & L2).
  assert (Ey : x = y). { apply Ha; try done. rewrite <- (sortBy_Permutation le). by apply list_elem_of_lookup_2 in Hy. }
  subst y. apply (indexFrom_lookup tag _ 0). rewrite list_lookup_fmap, Hy. cbn. by rewrite Hg.
Qed.

Lemma requirement_in tx ls r h key : collectTransactionScriptRequirements tx ls = Ok r -> needsScript tx ls h key ->
  mkRequirement h key ∈ purposes r.
Proof.
  unfold collectTransactionScriptRequirements.
  intros (outs & _ & (certs & Hcerts & (keys & Hkeys & (voters & Hvoters & (votes & Hvotes & (props & Hprops & [= <-])%bind_Ok)%bind_Ok)%bind_Ok)%bind_Ok)%bind_Ok)%bind_Ok.
  intros Hn. cbn [purposes]. rewrite !elem_of_app. destruct Hn as [i o Hi Ho Hs|m policy Em Hp|k cert h Hk Hc|w h Hw Hc|v ids Hv Ht|k p a h Hk Ha Hh].
  - left. apply index_rank; [apply input_ordering|done|intros y _; apply inputLe_antisym|]. unfold spendingHash. by rewrite Ho, usesScript_odd, Hs.
  - right; left. rewrite Em. apply index_rank; [apply bytes_ordering| |intros y _; apply bytes_leb_antisym|done].
    destruct Hp as [v Hv]. unfold Policies. apply list_elem_of_fmap. exists (policy, v). split; [done|]. by apply elem_of_map_to_list.
  - right; right; left. apply collect_Ok in Hcerts. destruct (Forall2_lookup_l _ _ _ _ _ Hcerts Hk) as (y & Hy & E).
    apply certificateHash_Ok in E. rewrite Hc in E. cbn in E. subst y. by apply (indexFrom_lookup RedeemerTagCert certs 0).
  - right; right; right; left.
    assert (Ek : rewardKey ∘ fst <$> withdrawalsOf tx = keys).
    { symmetry. apply (collect_fmap _ _ _ _ Hkeys). intros x y Hy. by destruct (withdrawalKey_Ok x y Hy) as (? & ? & _ & _ & _ & E & _). }
    rewrite Ek. assert (Ht : forall k, k ∈ keys -> fst (fst k) = 0 \/ fst (fst k) = 1).
    { rewrite <- Ek. intros k (x & -> & Hx)%list_elem_of_fmap. destruct (collect_in _ _ _ _ Hkeys Hx) as (y & _ & Hy).
      destruct (withdrawalKey_Ok x y Hy) as (? & c & _ & _ & Ey & E & _ & E6). cbn. rewrite E, Ey. cbn. destruct E6 as [[_ ->]|[_ ->]]; auto. }
    assert (Hin : rewardKey (fst w) ∈ keys). { rewrite <- Ek. apply list_elem_of_fmap. by exists w. }
    apply index_rank; [apply withdrawal_ordering|done|intros y Hy; apply withdrawalLe_antisym; by apply Ht|].
    destruct (collect_in _ _ _ _ Hkeys Hw) as (y & _ & Hy).
    destruct (withdrawalKey_Ok w y Hy) as (x & c & _ & Ec & Ey & E & _). cbn. rewrite E, Ey. rewrite Hc in Ec. by injection Ec as <-.
  - right; right; right; right; left. destruct (votersOf_Ok _ _ Hvoters) as [Ev Hok].
    assert (Eo : omap fst (VotingProcedures tx) = voters).
    { unfold votersOf in Hvoters. apply bind_Ok in Hvoters as (cs & _ & [= E]). done. }
    rewrite Eo. assert (Hin : v ∈ voters). { rewrite <- Eo. apply list_elem_of_omap. by exists (Some v, ids). }
    rewrite Forall_forall in Hok.
    rewrite (collect_fmap _ (fun v => if VoterUsesScriptCredential v then Some (voterHash v) else None) _ _ Hvotes).
    + apply index_rank; [apply voter_ordering|done|intros y Hy; apply voterLe_antisym; by apply Hok|].
      unfold VoterUsesScriptCredential. rewrite !elem_of_cons, elem_of_nil in Ht. by destruct Ht as [-> |[-> |[]]].
    + intros x y (c & Ec & [= <-])%bind_Ok. by apply voterCredential_script.
  - right; right; right; right; right. apply collect_Ok in Hprops. destruct (Forall2_lookup_l _ _ _ _ _ Hprops Hk) as (y & Hy & E).
    unfold proposalHash in E. rewrite Ha, Hh in E. destruct (blen h =? 28); [|done]. injection E as <-.
    by apply (indexFrom_lookup RedeemerTagProposing props 0).
Qed.

Lemma redeemerLoop_Ok avail rs ps p v code : redeemerLoop avail rs ps = Ok () -> p ∈ ps -> avail !! reqHash p = Some (PlutusScriptOf v code) ->
  reqRedeemer p ∈ rs.
Proof.
  induction ps as [|q ps IH]; [by intros _ Hp%elem_of_nil|]. intros Hl [->|Hp]%elem_of_cons Ha; cbn [redeemerLoop] in Hl.
  - rewrite Ha in Hl. case_bool_decide; done.
  - apply IH; try done. destruct (avail !! reqHash q) as [[]|]; [|by case_bool_decide..|done]. by case_bool_decide.
Qed.

Lemma available_carried tx ls r h s : collectTransactionScriptRequirements tx ls = Ok r -> available r !! h = Some s ->
  carried tx ls s /\ scriptHashOf s = h.
Proof.
  unfold collectTransactionScriptRequirements.
  intros (outs & Houts & (certs & _ & (keys & _ & (voters & _ & (votes & _ & (props & _ & [= <-])%bind_Ok)%bind_Ok)%bind_Ok)%bind_Ok)%bind_Ok)%bind_Ok.
  cbn [available]. unfold carried. intros [[[E|[Hs Eh]]%addScripts_in|[Hs Eh]]%addScripts_in|[Hs Eh]]%addScripts_in; [by rewrite lookup_empty in E| | |].
  - split; [by left|done].
  - split; [|done]. right. apply list_elem_of_omap in Hs as (o & Ho & Es). apply list_elem_of_omap in Ho as (i & Hi & Eo).
    exists i, o. split_and!; [apply elem_of_app; by left| |done]. destruct (UtxoById (lstate ls) i); [|done]. by injection Eo as ->.
  - split; [|done]. right. apply list_elem_of_omap in Hs as (o & [k Hk]%list_elem_of_lookup_1 & Es). apply collect_Ok in Houts.
    destruct (Forall2_lookup_r _ _ _ _ _ Houts Hk) as (i & Hi & E). unfold resolveReference in E. exists i, o.
    split_and!; [apply elem_of_app; right; by apply list_elem_of_lookup_2 in Hi| |done]. destruct (UtxoById (lstate ls) i); [|done]. by injection E as ->.
Qed.

(** *** Accepted transactions *)

Lemma collect_total {E A B} (f : A -> result E B) l : (forall x, x ∈ l -> exists y, f x = Ok y) -> exists ys, collect f l = Ok ys.
Proof.
  induction l as [|x l IH]; intros Hf; [by exists []|]. destruct (Hf x (list_elem_of_here _ _)) as [y Hy].
  destruct IH as [ys Hys]; [intros z Hz; apply Hf; by right|]. exists (y :: ys). cbn [collect]. rewrite Hy. cbn. by rewrite Hys.
Qed.

Context (sv : ScriptView) (other : RuleId -> Rule).

Abbreviation accepted tx slot ls pp :=
  (verifyRules 0 (UtxoValidationRules sv (witnessRule reencoded addressText (fun _ => None) other)) tx slot ls pp = Ok ()).

Lemma accepted_inputs_known tx slot ls pp : accepted tx slot ls pp ->
  NoDup (Inputs tx) /\ forall i, i ∈ Inputs tx -> exists o, UtxoById (lstate ls) i = Ok o.
Proof.
  intros H0. pose proof (accepted_always _ _ _ _ _ _ 7 10 _ _ H0 eq_refl eq_refl) as R1.
  pose proof (accepted_always _ _ _ _ _ _ 7 16 _ _ H0 eq_refl eq_refl) as R2. cbn [ruleFunc] in R1, R2. apply fromShelley_inv in R1, R2.
  unfold UtxoValidateNoDuplicateInputs in R1. cbn [shelleyTx ShelleyRules.Inputs ShelleyRules.Collateral] in R1.
  unfold UtxoValidateBadInputsUtxo in R2. cbn [shelleyTx ShelleyRules.Inputs] in R2.
  destruct (firstDuplicateInput (Inputs tx)) eqn:E1; [done|]. apply firstDuplicateInput_none in E1. split; [done|]. intros i Hi.
  destruct (blen _ =? 0) eqn:E; [|done]. pose proof (filter_empty_Forall _ _ E i Hi) as Hn. cbn in Hn.
  destruct (UtxoById (lstate ls) i) as [o|]; [by exists o|]. done.
Qed.

Lemma accepted_resolves tx slot ls pp : accepted tx slot ls pp ->
  exists r ins refs, collectTransactionScriptRequirements tx ls = Ok r /\ ResolveTxInputs tx ls = Ok (ins, refs) /\
    (forall h, h ∈ required r -> is_Some (available r !! h)) /\ redeemerLoop (available r) (redeemersOf tx) (purposes r) = Ok ().
Proof.
  intros H0. pose proof (accepted_always _ _ _ _ _ _ 7 17 _ _ H0 eq_refl eq_refl) as R. cbn [ruleFunc witnessRule] in R.
  unfold ValidateScriptWitnesses in R. apply bind_Ok in R as ([] & _ & (r & Hr & ([] & Hm & ([] & _ & Hl)%bind_Ok)%bind_Ok)%bind_Ok).
  destruct (accepted_inputs_known _ _ _ _ H0) as [_ Hi].
  destruct (collect_total (resolveInput InputResolution ls) (Inputs tx)) as [ins Hins].
  { intros i Hin. destruct (Hi i Hin) as [o Ho]. unfold resolveInput. rewrite Ho. by eexists. }
  destruct (collect_total (resolveInput ReferenceInputResolution ls) (ReferenceInputs tx)) as [refs Hrefs].
  { intros i Hin. unfold collectTransactionScriptRequirements in Hr. apply bind_Ok in Hr as (outs & Houts & _).
    destruct (collect_in _ _ _ _ Houts Hin) as (o & _ & Ho). unfold resolveReference in Ho. unfold resolveInput.
    destruct (UtxoById (lstate ls) i); [by eexists|done]. }
  exists r, ins, refs. split_and!; [done| | |done].
  - unfold ResolveTxInputs. rewrite Hins. cbn. by rewrite Hrefs.
  - intros h Hh. destruct (list_find _ (required r)) as [[j y]|] eqn:Ef; [done|]. apply find_none in Ef. rewrite Forall_forall in Ef.
    specialize (Ef h Hh). by apply not_eq_None_Some in Ef.
Qed.

(** The interval of an accepted transaction has the slot. *)
Lemma accepted_interval tx slot ls pp : 0 <= slot -> accepted tx slot ls pp ->
  (forall a, LowerBound tx = Some a -> a <= slot) /\ (forall b, UpperBound tx = Some b -> slot < b).
Proof.
  intros Hs H0. pose proof (accepted_always _ _ _ _ _ _ 7 7 _ _ H0 eq_refl eq_refl) as R. cbn [ruleFunc witnessRule] in R.
  unfold UtxoValidateOutsideValidityIntervalUtxo in R. destruct (negb (default 0 (LowerBound tx) =? 0) && _) eqn:E; [done|]. split.
  - intros a Ea. rewrite Ea in E. unfold default, id in E. apply andb_false_iff in E as [E|E]; [|by apply Z.ltb_ge in E]. apply negb_false_iff, Z.eqb_eq in E. lia.
  - intros b Eb. rewrite Eb in R. destruct (Z.leb_spec b slot); [done|lia].
Qed.

Lemma accepted_signatures tx slot ls pp : accepted tx slot ls pp ->
  ValidateVKeyWitnesses tx = Ok () /\ ValidateBootstrapWitnesses tx = Ok () /\ ValidateInputVKeyWitnesses tx ls = Ok ().
Proof.
  intros H0. pose proof (accepted_always _ _ _ _ _ _ 7 1 _ _ H0 eq_refl eq_refl) as R. cbn [ruleFunc witnessRule] in R.
  unfold UtxoValidateSignatures in R. apply bind_Ok in R as ([] & ([] & Hv & Hb)%bind_Ok & Hi). done.
Qed.

Lemma accepted_key_inputs tx slot ls pp i o h : accepted tx slot ls pp -> i ∈ Inputs tx ++ Collateral tx -> UtxoById (lstate ls) i = Ok o ->
  payment (outAddress o) = Some (AddressPayloadKeyHash h) -> signedBy tx h \/ isByron (outAddress o) = true /\ bootstrapSigned tx h.
Proof.
  intros H0 Hi Ho Hp. destruct (accepted_signatures _ _ _ _ H0) as (Hv & Hb & Hin). apply keyWitnessed_signed; [done|done|].
  apply elem_of_app in Hi as [Hi|Hi]; [by apply (inputWitnessLoop_Ok _ ls (Inputs tx) i)|].
  pose proof (accepted_always _ _ _ _ _ _ 6 2 _ _ H0 eq_refl eq_refl) as R. cbn [ruleFunc witnessRule] in R.
  unfold ValidateCollateralVKeyWitnesses in R. destruct (Z.eqb_spec (blen (Collateral tx)) 0) as [E|_].
  - apply blen_0 in E. rewrite E in Hi. by apply elem_of_nil in Hi.
  - by apply (collateralWitnessLoop_Ok _ ls (Collateral tx) i).
Qed.

(** A native script that is needed holds. *)
Lemma accepted_native tx slot ls pp r h n0 : 0 <= slot -> accepted tx slot ls pp -> collectTransactionScriptRequirements tx ls = Ok r ->
  h ∈ required r -> h <> noScriptHash -> available r !! h = Some (NativeScriptOf n0) ->
  exists n, carried tx ls (NativeScriptOf n) /\ nativeHash n = h /\ Holds (fun k => signedBy tx k \/ bootstrapSigned tx k) slot n.
Proof.
  intros Hs H0 Hr Hh Hz Ha. destruct (accepted_resolves _ _ _ _ H0) as (r' & ins & refs & Hr' & Hi & _ & _).
  rewrite Hr in Hr'. injection Hr' as <-. destruct (accepted_inputs_known _ _ _ _ H0) as [Hd _].
  destruct (purposes_cover tx ls r ins refs h Hd Hr Hi Hh Hz) as (e & He & Eh).
  pose proof (accepted_always _ _ _ _ _ _ 7 33 _ _ H0 eq_refl eq_refl) as R. cbn [ruleFunc witnessRule] in R.
  unfold UtxoValidateNativeScripts, NewTxScriptViewSkippingUnresolved, newTxScriptView in R. rewrite Hi in R. cbn [mbind result_bind] in R.
  rewrite (available_agree tx ls r ins refs Hr Hi) in R. set (view := mkView _ _ _ _) in R.
  assert (Hn : Needed view !! h = Some (NativeScriptOf n0)). { cbn [view Needed]. rewrite <- Eh. apply neededScripts_lookup; [done|by rewrite Eh]. }
  destruct (native_evaluated tx view h n0 Hn) as (n & Hin & Hor). apply nativeLoop_Ok in R; [|done]. rewrite Forall_forall in R.
  destruct (available_carried tx ls r h _ Hr Ha) as [Hc0 Hh0]. exists n. split_and!.
  - destruct Hor as [->|[_ Hw]]; [done|by left].
  - by destruct Hor as [->|[E _]].
  - destruct (accepted_signatures _ _ _ _ H0) as (Hv & Hb & _). destruct (accepted_interval _ _ _ _ Hs H0) as [L U].
    apply (Holds_mono (fun k => k ∈ keyHashes (NewNativeScriptEnv tx))); [intros k; by apply witnessKeyHashes_signed|].
    apply evaluate_holds; [done| | |by apply R].
    + cbn. rewrite bool_decide_eq_true. intros [a Ea]. rewrite Ea. cbn. by apply L.
    + cbn. rewrite bool_decide_eq_true. intros [b Eb]. rewrite Eb. cbn. by apply U.
Qed.

(** Every script a transaction needs comes with it, a hash of zeroes included. *)
Lemma accepted_carried tx slot ls pp h key : accepted tx slot ls pp -> needsScript tx ls h key ->
  exists s, carried tx ls s /\ scriptHashOf s = h.
Proof.
  intros H0 Hn. destruct (accepted_resolves _ _ _ _ H0) as (r & _ & _ & Hr & _ & Hav & _).
  pose proof (requirement_in tx ls r h key Hr Hn) as Hin.
  destruct (Hav h) as [s Ea]; [apply list_elem_of_fmap; by exists (mkRequirement h key)|].
  exists s. by apply (available_carried tx ls r).
Qed.

(** Though the value rule counts a mint under the policy of zeros as ada, such a
    transaction is accepted only with a script whose hash is zero. *)
Lemma ada_mint_script tx slot ls pp : accepted tx slot ls pp -> mintedAda tx <> 0 ->
  exists s, carried tx ls s /\ scriptHashOf s = noScriptHash.
Proof.
  unfold mintedAda, quantityOf. intros H0 Hm. destruct (IsValid tx); [|done]. destruct (AssetMint tx) as [m|] eqn:Em; [|done].
  unfold quantity, Asset in Hm. destruct (m !! repeat 0 28) as [assets|] eqn:Ep; [|done].
  exact (accepted_carried _ _ _ _ _ _ H0 (NS_mint tx ls m noScriptHash Em (mk_is_Some _ _ Ep))).
Qed.

(** C4. A transaction that the rules accept has the authority of all that it
    does. The keys of the inputs and collateral it spends, of the accounts it
    withdraws from, of its certificates, pools, voters and required signers
    signed its hash, Byron inputs by a key or a bootstrap witness; and for each
    script that locks an input, a policy, an account, a certificate, a voter or
    a proposal, a script of that hash comes with the transaction and, if native,
    holds in the slot of the block for the keys that signed, and if Plutus, has
    a redeemer at the position that the order of the ledger gives. *)
Theorem transaction_authorized tx slot ls pp : 0 <= slot -> accepted tx slot ls pp ->
  (forall h, needsKey tx ls h -> signedBy tx h) /\
  (forall i o h, i ∈ Inputs tx ++ Collateral tx -> UtxoById (lstate ls) i = Ok o ->
    payment (outAddress o) = Some (AddressPayloadKeyHash h) -> signedBy tx h \/ bootstrapSigned tx h) /\
  (forall h key, needsScript tx ls h key -> h <> noScriptHash ->
    exists s, carried tx ls s /\ scriptHashOf s = h /\ agrees tx slot s key).
Proof.
  intros Hs H0. destruct (accepted_signatures _ _ _ _ H0) as (Hv & _ & _). split_and!.
  - intros h Hn. pose proof (accepted_always _ _ _ _ _ _ 6 1 _ _ H0 eq_refl eq_refl) as R. cbn [ruleFunc witnessRule] in R.
    assert (exists ks, requiredKeys tx = Ok ks) as [ks Hks].
    { unfold ValidateRequiredVKeyWitnesses in R. apply bind_Ok in R as ([] & _ & (ks & Hks & _)%bind_Ok). by exists ks. }
    destruct (requiredKeys_in tx ls ks h Hks Hn) as [Hin|(i & o & Hi & Ho & Hp & Hb)]; [by apply (required_signed tx ks)|].
    destruct (accepted_key_inputs _ _ _ _ _ _ _ H0 Hi Ho Hp) as [?|[Eb _]]; [done|]. unfold isByron in Eb. apply Z.eqb_eq in Eb. done.
  - intros i o h Hi Ho Hp. destruct (accepted_key_inputs _ _ _ _ _ _ _ H0 Hi Ho Hp) as [?|[_ ?]]; auto.
  - intros h key Hn Hz. destruct (accepted_resolves _ _ _ _ H0) as (r & ins & refs & Hr & _ & Hav & Hl).
    pose proof (requirement_in tx ls r h key Hr Hn) as Hin.
    assert (Hq : h ∈ required r) by (apply list_elem_of_fmap; by exists (mkRequirement h key)).
    destruct (Hav h Hq) as [[n|v code] Ea].
    + destruct (accepted_native tx slot ls pp r h n Hs H0 Hr Hq Hz Ea) as (n' & Hc & Hh & Ho). by exists (NativeScriptOf n').
    + destruct (available_carried tx ls r h _ Hr Ea) as [Hc Hh]. exists (PlutusScriptOf v code). split_and!; [done|done|].
      exact (redeemerLoop_Ok _ _ _ (mkRequirement h key) v code Hl Hin Ea).
Qed.

(** C17. The walk of the script package and the one of the common rules agree: on
    a transaction without duplicate inputs whose certificates are a set, they
    find the same script purposes in the same order at the same redeemer
    pointers, a hash of zeroes apart. *)
Theorem purposes_agree tx ls r ins refs :
  NoDup (Inputs tx) -> ValidateCertificateSet reencoded (Certificates tx) = Ok () ->
  collectTransactionScriptRequirements tx ls = Ok r -> ResolveTxInputs tx ls = Ok (ins, refs) ->
  asRequirement <$> ScriptPurposes reencoded addressText tx ins = scripted (purposes r).
Proof.
  intros Hd Hset Hr Hi. destruct (walks tx ls r ins refs Hd Hr Hi) as (before & after & hs & Hc & -> & ->). f_equal. f_equal.
  apply certifyingLoop_index; [done|by apply ValidateCertificateSet_distinct|]. intros. apply lookup_empty.
Qed.

(** ** Signatures that were verified ahead *)

Definition signaturePairs tx : list (bytes * bytes) * list (bytes * bytes) :=
  match Witnesses tx with
  | None => ([], [])
  | Some w => ((fun v => (Vkey v, VkeySignature v)) <$> Vkeys w, (fun b => (BwPublicKey b, BwSignature b)) <$> Bootstrap w)
  end.

(** The lengths of slices are Go integers. *)
Definition sized tx : Prop :=
  let '(vs, bs) := signaturePairs tx in
  blen vs <= MaxInt /\ blen bs <= MaxInt /\ Forall (fun p => blen (fst p) <= MaxInt /\ blen (snd p) <= MaxInt) (vs ++ bs).

Definition encodePairs (ps : list (bytes * bytes)) : bytes :=
  le64 (blen ps) ++ concat ((fun p => writeBytes (fst p) ++ writeBytes (snd p)) <$> ps).

Lemma bindingInput_eq tx : bindingInput tx =
  Hash tx ++ match Witnesses tx with None => [] | Some _ => encodePairs (fst (signaturePairs tx)) ++ encodePairs (snd (signaturePairs tx)) end.
Proof.
  unfold bindingInput, signaturePairs, encodePairs. destruct (Witnesses tx) as [w|]; [|done]. f_equal. cbn [fst snd].
  unfold blen. rewrite !length_fmap, <- !list_fmap_compose, <- !app_assoc. done.
Qed.

Lemma le64_inj n m : 0 <= n <= MaxInt -> 0 <= m <= MaxInt -> le64 n = le64 m -> n = m.
Proof.
  unfold le64, MaxInt. intros Hn Hm E%rev_inj%(f_equal be_decode). by rewrite !be_decode_encode in E by (cbn; lia).
Qed.

Lemma length_le64 n : length (le64 n) = 8%nat.
Proof. unfold le64. by rewrite length_rev, length_be_encode. Qed.

Lemma writeBytes_inj a b t t' : blen a <= MaxInt -> blen b <= MaxInt -> writeBytes a ++ t = writeBytes b ++ t' -> a = b /\ t = t'.
Proof.
  intros Ha Hb. unfold writeBytes. rewrite <- !app_assoc. intros E.
  apply app_inj_1 in E as [En E]; [|by rewrite !length_le64].
  apply le64_inj in En; [|split; [apply blen_nonneg|done]..]. apply app_inj_1 in E; [done|]. unfold blen in En. lia.
Qed.

Lemma encodePairs_inj ps qs t t' : blen ps <= MaxInt -> blen qs <= MaxInt ->
  Forall (fun p => blen (fst p) <= MaxInt /\ blen (snd p) <= MaxInt) ps -> Forall (fun p => blen (fst p) <= MaxInt /\ blen (snd p) <= MaxInt) qs ->
  encodePairs ps ++ t = encodePairs qs ++ t' -> ps = qs /\ t = t'.
Proof.
  intros Lp Lq Fp Fq. unfold encodePairs. rewrite <- !app_assoc. intros E. apply app_inj_1 in E as [En E]; [|by rewrite !length_le64].
  apply le64_inj in En; [|split; [apply blen_nonneg|done]..]. clear Lp Lq. revert qs En Fq E.
  induction Fp as [|[a b] ps [Ha Hb] Fp IH]; intros [|[c d] qs] En Fq E; rewrite ?blen_cons, ?blen_nil in En.
  - done.
  - pose proof (blen_nonneg qs). lia.
  - pose proof (blen_nonneg ps). lia.
  - inversion Fq as [|? ? [Hc Hd] Fq']; subst. rewrite !fmap_cons in E. cbn [concat fst snd] in E. rewrite <- !app_assoc in E.
    apply writeBytes_inj in E as [-> E]; [|done..]. apply writeBytes_inj in E as [-> E]; [|done..].
    apply IH in E as [-> ->]; [done|lia|done].
Qed.

(** The inline check depends on what is bound alone. *)
Lemma bootstrapLoop_pairs msg bs : forall bs', (fun b => (BwPublicKey b, BwSignature b)) <$> bs = (fun b => (BwPublicKey b, BwSignature b)) <$> bs' ->
  bootstrapLoop msg bs = bootstrapLoop msg bs'.
Proof.
  induction bs as [|b bs IH]; intros [|b' bs'] E; try done. rewrite !fmap_cons in E. injection E as E1 E2 E. cbn [bootstrapLoop].
  by rewrite E1, E2, (IH bs').
Qed.

Lemma inline_pairs tx tx' : Hash tx = Hash tx' -> signaturePairs tx = signaturePairs tx' ->
  ValidateVKeyWitnesses tx = ValidateVKeyWitnesses tx' /\ ValidateBootstrapWitnesses tx = ValidateBootstrapWitnesses tx'.
Proof.
  intros Eh Ep. assert (Hv : forall msg vs vs', (fun v => (Vkey v, VkeySignature v)) <$> vs = (fun v => (Vkey v, VkeySignature v)) <$> vs' -> vkeyLoop msg vs = vkeyLoop msg vs').
  { intros msg vs vs' E. apply list_fmap_eq_inj in E; [by rewrite E|]. by intros [] [] [= -> ->]. }
  unfold signaturePairs, ValidateVKeyWitnesses, ValidateBootstrapWitnesses in *. rewrite Eh.
  destruct (Witnesses tx) as [w|], (Witnesses tx') as [w'|]; [injection Ep as E1 E2; split..|done].
  - by apply Hv.
  - by apply bootstrapLoop_pairs.
  - by rewrite (Hv _ _ []).
  - by rewrite (bootstrapLoop_pairs _ _ []).
  - by rewrite <- (Hv _ []).
  - by rewrite <- (bootstrapLoop_pairs _ []).
Qed.

(** C39. Signatures verified ahead of validation, for whichever transaction, give
    what verifying them in place gives: the result is used only when the hash
    and the signature witnesses are those it was made for, or two inputs of
    SHA-256 collide. *)
Theorem preverified_sound tx tx' ls : blen (Hash tx) = 32 -> blen (Hash tx') = 32 -> sized tx -> sized tx' ->
  UtxoValidateSignatures (Some (PreverifySignatures tx')) tx ls = UtxoValidateSignatures None tx ls \/
  exists a b, a <> b /\ Sha256 a = Sha256 b.
Proof.
  intros L L' S S'. unfold UtxoValidateSignatures, PreverifySignatures. cbn [binding preverifyErr].
  case_bool_decide as Eb; [|by left]. destruct (decide (bindingInput tx' = bindingInput tx)) as [E|N]; [|right; by exists (bindingInput tx'), (bindingInput tx)].
  left. rewrite !bindingInput_eq in E. apply app_inj_1 in E as [Eh E]; [|unfold blen in *; lia].
  assert (Ep : signaturePairs tx' = signaturePairs tx).
  { unfold sized in S, S'. destruct (Witnesses tx') as [w'|] eqn:Ew', (Witnesses tx) as [w|] eqn:Ew; try (apply (f_equal length) in E; unfold encodePairs in E; rewrite !length_app, !length_le64 in E; cbn in E; lia).
    - destruct (signaturePairs tx) as [vs bs], (signaturePairs tx') as [vs' bs']. destruct S as (S1 & S2 & [S3 S4]%Forall_app), S' as (S1' & S2' & [S3' S4']%Forall_app).
      cbn [fst snd] in E. apply encodePairs_inj in E as [-> E]; try done.
      destruct (encodePairs_inj bs' bs [] [] S2' S2 S4' S4) as [-> _]; [by rewrite E|done].
    - unfold signaturePairs. by rewrite Ew, Ew'. }
  destruct (inline_pairs tx' tx Eh Ep) as [-> ->]. done.
Qed.
End Resolve.

(** ** Transactions *)

(** A signature is the key and the message, a hash the first bytes. *)
#[local] Instance demoCrypto : WitnessCrypto := {
  Blake2b224Hash b := take 28 (b ++ repeat 0 28);
  Sha3_256 b := b;
  Sha256 b := b;
  Ed25519Verify key msg sig := bool_decide (sig = key ++ msg)
}.

Definition waKey : bytes := repeat 7 32.
Definition waHash : bytes := repeat 5 32.

(** Signed by the key, and before slot 100. *)
Definition waScript : NativeScript :=
  mkNativeScript (repeat 2 40) (NativeScriptAll
    [mkNativeScript [1] (NativeScriptPubkey (repeat 7 28)); mkNativeScript [2] (NativeScriptInvalidHereafter 100)]).

Definition waOut (type a : Z) (p : AddressPayload) : ConwayOutput :=
  mkConwayOutput (mkAddress type 0 None [] None 0 (Some p)) (Some a) None None (Some 40).

Definition waLedger : CLedger :=
  mkBLedger {[([9], 0) := waOut 6 60 (AddressPayloadKeyHash (repeat 7 28)); ([9], 1) := waOut 7 40 (AddressPayloadScriptHash (nativeHash waScript))]}
    ∅ ∅ ∅ ∅ ∅ ∅ ∅ ∅ ∅ ∅ ∅ ∅ ∅ ∅.

Definition waState : ConwayState := mkConwayState (stateOf waLedger) 0 (Some (fun _ => Some 3)) (mkGovState (Ok None) None None None None).

Definition waWitnesses : WitnessSet := mkWitnessSet [mkVkeyWitness waKey (waKey ++ waHash)] [] [waScript] [] [] [] [] [].

Definition waTx : ConwayTransaction :=
  mkConwayTx waHash [([9], 1); ([9], 0)] [] [] [waOut 6 97 (AddressPayloadKeyHash (repeat 7 28))] None None (Some 3) None [] None [] [] None true
    (Some 90) None [] (Some waWitnesses) None.

(** The identities of certificates are not asked for here. *)
Definition waReencoded : BlockCertificate -> option bytes := fun _ => None.
Definition waText : Address -> bytes := fun _ => [].

Abbreviation waRules signatures :=
  (UtxoValidationRules (scriptView waReencoded waText) (witnessRule waReencoded waText signatures cwOther)).

(** Witness of C4: a transaction that spends the output of a key and that of a
    native script. *)
Lemma transaction_authorized_witness : signedBy waTx (repeat 7 28) /\
  exists s, carried waTx waState s /\ scriptHashOf s = nativeHash waScript /\ agrees waTx 40 s (0, 1).
Proof.
  assert (V : verifyRules 0 (waRules (fun _ => None)) waTx 40 waState cwParams = Ok ()) by (vm_compute; reflexivity).
  destruct (transaction_authorized waReencoded waText (scriptView waReencoded waText) cwOther waTx 40 waState cwParams) as (A & _ & B).
  - discriminate.
  - exact V.
  - split.
    + apply A. apply (NK_input _ _ ([9], 0) (waOut 6 60 (AddressPayloadKeyHash (repeat 7 28)))); [|reflexivity|reflexivity|discriminate].
      right. left.
    + apply B; [|discriminate].
      assert (R : (0, 1) = (0, u32 (Z.of_nat (rank inputLe ([9], 1) (Inputs waTx))))) by reflexivity. rewrite R.
      apply (NS_spend waTx waState ([9], 1) (waOut 7 40 (AddressPayloadScriptHash (nativeHash waScript)))); [left|reflexivity|reflexivity].
Defined.

(** Witness of C17: with duplicate-free certificates and inputs. *)
Lemma purposes_agree_witness :
  asRequirement <$> ScriptPurposes waReencoded waText waTx
    [(([9], 1), waOut 7 40 (AddressPayloadScriptHash (nativeHash waScript))); (([9], 0), waOut 6 60 (AddressPayloadKeyHash (repeat 7 28)))] =
  [mkRequirement (nativeHash waScript) (0, 1)].
Proof.
  assert (E : is_ok (collectTransactionScriptRequirements waTx waState)) by (vm_compute; exact I).
  destruct (collectTransactionScriptRequirements waTx waState) as [r|] eqn:Er; [|done].
  assert (D : NoDup (Inputs waTx)).
  { cbn [Inputs waTx]. apply NoDup_cons. split; [by intros [=]%list_elem_of_singleton|apply NoDup_singleton]. }
  rewrite (purposes_agree waReencoded waText waTx waState r _ [] D eq_refl Er eq_refl).
  vm_compute in Er. injection Er as <-. vm_compute. reflexivity.
Defined.

(** Witness of C39: signatures verified ahead, for the transaction itself. *)
Lemma preverified_sound_witness :
  UtxoValidateSignatures (Some (PreverifySignatures waTx)) waTx waState = Ok ().
Proof.
  assert (S : sized waTx) by (split; [vm_compute; discriminate|split; [vm_compute; discriminate|]]; repeat constructor; vm_compute; discriminate).
  destruct (preverified_sound waTx waTx waState eq_refl eq_refl S S) as [E|(a & b & N & E)].
  - rewrite E. vm_compute. reflexivity.
  - exfalso. apply N. exact E.
Defined.

(** *** Certificates that occur twice

    In a list with the same certificate of a Plutus script twice, and the one
    redeemer that the walk of the script package asks for, the walk of the common
    rules misses a second one. *)
Definition dupCode : bytes := repeat 3 30.
Definition dupHash : ScriptHash := scriptHashOf (PlutusScriptOf 1 dupCode).
Definition dupCertificate : BlockCertificate := StakeDelegationCertificate (1, dupHash) (repeat 4 28).

Definition dupTx (redeemers : list RedeemerKey) : ConwayTransaction :=
  mkConwayTx waHash [([9], 0)] [] [] [waOut 6 57 (AddressPayloadKeyHash (repeat 7 28))] None None (Some 3) None
    [dupCertificate; dupCertificate] None [] [] None true None None []
    (Some (mkWitnessSet [mkVkeyWitness waKey (waKey ++ waHash)] [] [] [dupCode] [] [] [] ((fun key => (key, mkExUnits 1 1)) <$> redeemers))) None.

Lemma duplicate_certificates_diverge :
  ValidateRequiredRedeemers waReencoded waText (dupTx [(2, 0)]) waState = Ok () /\
  ValidateScriptWitnesses (dupTx [(2, 0)]) waState = Err (WitnessErr (MissingRedeemerForScript dupHash (2, 1))).
Proof. split; vm_compute; reflexivity. Qed.
