(* ===== verification/Fees.v ===== *)
(** * Fees and sizes of Conway transactions (src/ledger/conway/ref_scripts.go,
      rules.go, src/ledger/common/fees.go, ref_scripts.go, src/ledger/mary)

    The minimum fee of a transaction, with the price of its execution units and
    the tiered price of the reference scripts it consumes; the limits on
    reference scripts of a transaction and of a block; the least value of an
    output and the sizes of outputs, transactions and execution units. The fees
    are exact against their definitions over the rationals. *)

From Stdlib Require Import QArith Qround Qpower.
From S2P Require Import Prelude Scripts ShelleyRules Params ShelleyLedger MultiAsset BlockState Conway ConwayLedger.
#[local] Open Scope Z_scope.

Definition ferr {A} (e : feesError) : result conwayError A := Err (FeesErr e).

(** ** Execution units *)

(** The value of a [big.Rat]. *)
Definition ratQ (r : Z * Z) : Q := Qmake (fst r) (Z.to_pos (snd r)).

Definition quo (q : Q) : Z := Z.quot (Qnum (Qred q)) (QDen (Qred q)).

Definition validPrice (p : option CborRat) : result conwayError (Z * Z) :=
  match p with Some (Some r) => Ok r | _ => ferr InvalidExecutionPrice end.

Fixpoint executionLoop (prices : ExUnitPrice) (units : list ExUnits) (total : Q) : result conwayError Q :=
  match units with
  | [] => Ok total
  | u :: units =>
    mem ← validPrice (MemPrice prices);
    step ← validPrice (StepPrice prices);
    if (fst mem <? 0) || (fst step <? 0) then ferr InvalidExecutionPrice
    else if (Memory u <? 0) || (Steps u <? 0) then ferr NegativeExecutionUnits
    else executionLoop prices units (total + inject_Z (Memory u) * ratQ mem + inject_Z (Steps u) * ratQ step)%Q
  end.

Definition unitsOf (tx : ConwayTransaction) : list ExUnits :=
  match Witnesses tx with None => [] | Some w => snd <$> Redeemers w end.

Definition CalculateExecutionUnitsFee (tx : ConwayTransaction) (prices : ExUnitPrice) : result conwayError Z :=
  total ← executionLoop prices (unitsOf tx) 0%Q;
  let fee := quo total + (if Qnum (Qred total) mod QDen (Qred total) =? 0 then 0 else 1) in
  if (0 <=? fee) && (fee <=? MaxUint64) then Ok fee else ferr ExecutionFeeOverflow.

(** ** Reference scripts *)

Definition MaxRefScriptSizePerTx : Z := 200 * 1024.
Definition MaxRefScriptSizePerBlock : Z := 1024 * 1024.
Definition RefScriptCostStride : Z := 25600.

Definition RawScriptBytes (s : Script) : bytes :=
  match s with NativeScriptOf n => nativeCbor n | PlutusScriptOf _ code => code end.

Definition scriptSizeOf (o : ConwayOutput) : Z :=
  match ScriptRef o with Some s => blen (RawScriptBytes s) | None => 0 end.

Abbreviation UtxoState := (TransactionInput -> result blockError ConwayOutput).

(** The inputs by their key, and whether one is a reference input. *)
Definition consumedInputs (tx : ConwayTransaction) : gmap TransactionInput bool :=
  foldl (fun m i => <[i := true]> m) (foldl (fun m i => <[i := false]> m) ∅ (Inputs tx)) (ReferenceInputs tx).

Fixpoint scriptSizeLoop (state : UtxoState) (inputs : list (TransactionInput * bool)) (total : Z) : result conwayError Z :=
  match inputs with
  | [] => Ok total
  | (i, isReference) :: inputs =>
    match state i with
    | Err _ => if isReference : bool then Err (ReferenceInputResolution i) else scriptSizeLoop state inputs total
    | Ok o =>
      if MaxUint64 - scriptSizeOf o <? total then ferr RefScriptSizeOverflow
      else scriptSizeLoop state inputs (total + scriptSizeOf o)
    end
  end.

Definition ConsumedReferenceScriptSize (tx : ConwayTransaction) (state : UtxoState) : result conwayError Z :=
  scriptSizeLoop state (map_to_list (consumedInputs tx)) 0.

Definition UtxoValidateRefScriptSizePerTx (tx : ConwayTransaction) (ls : ConwayState) : ccheck :=
  if negb (IsValid tx) then Ok () else
  totalSize ← ConsumedReferenceScriptSize tx (UtxoById (lstate ls));
  if MaxRefScriptSizePerTx <? totalSize then ferr (RefScriptSizePerTxTooLarge totalSize MaxRefScriptSizePerTx) else Ok ().

(** The state that the later transactions of a block see. *)
Record blockUtxoState := mkBlockUtxo {
  produced : gmap TransactionInput ConwayOutput;
  consumed : gset TransactionInput
}.

Definition blockUtxoStateById (base : UtxoState) (s : blockUtxoState) : UtxoState := fun i =>
  match produced s !! i with
  | Some o => Ok o
  | None => if bool_decide (i ∈ consumed s) then Err (ErrUtxoSpentInBlock i) else base i
  end.

Definition spendUtxo (s : blockUtxoState) (i : TransactionInput) : blockUtxoState :=
  mkBlockUtxo (delete i (produced s)) ({[i]} ∪ consumed s).

Definition createUtxo (s : blockUtxoState) (e : TransactionInput * ConwayOutput) : blockUtxoState :=
  mkBlockUtxo (<[fst e := snd e]> (produced s)) (consumed s ∖ {[fst e]}).

Definition applyBlockUtxo (tx : ConwayTransaction) (s : blockUtxoState) : blockUtxoState :=
  foldl createUtxo (foldl spendUtxo s (Consumed tx)) (Produced tx).

Fixpoint blockSizeLoop (base : UtxoState) (includeProduced : bool) (txs : list ConwayTransaction) (s : blockUtxoState) (total : Z)
    : result conwayError Z :=
  match txs with
  | [] => Ok total
  | tx :: txs =>
    txSize ← ConsumedReferenceScriptSize tx (if includeProduced then blockUtxoStateById base s else base);
    if MaxUint64 - txSize <? total then ferr RefScriptSizeOverflow
    else blockSizeLoop base includeProduced txs (if includeProduced then applyBlockUtxo tx s else s) (total + txSize)
  end.

Definition ConsumedReferenceScriptSizePerBlock (txs : list ConwayTransaction) (base : UtxoState) (includeProduced : bool)
    : result conwayError Z :=
  blockSizeLoop base includeProduced txs (mkBlockUtxo ∅ ∅) 0.

Definition ProtocolVersionVanRossem : Z := 11.

Definition ValidateRefScriptSizePerBlock (txs : list ConwayTransaction) (pp : ConwayProtocolParameters) (base : UtxoState) : ccheck :=
  totalSize ← ConsumedReferenceScriptSizePerBlock txs base (ProtocolVersionVanRossem <=? fst (pProtocolVersion pp));
  if MaxRefScriptSizePerBlock <? totalSize then ferr (RefScriptSizePerBlockTooLarge totalSize MaxRefScriptSizePerBlock) else Ok ().

(** The loop of [CalculateRefScriptFee]; each turn takes a tier, of which there
    are at most [scriptSize / stride + 1]. *)
Fixpoint tierLoop (fuel : nat) (stride : Z) (multiplier price total : Q) (remaining : Z) : option Q :=
  if remaining <=? 0 then Some total else
  match fuel with
  | O => None
  | S fuel =>
    let tierSize := Z.min remaining stride in
    tierLoop fuel stride multiplier (price * multiplier)%Q (total + price * inject_Z tierSize)%Q (remaining - tierSize)
  end.

Definition CalculateRefScriptFee (scriptSize : Z) (baseCost : option CborRat) (stride : Z) (multiplier : option CborRat) : result conwayError Z :=
  if scriptSize =? 0 then Ok 0 else
  match baseCost with
  | Some (Some base) =>
    if fst base <? 0 then ferr InvalidRefScriptBaseCost
    else if stride =? 0 then ferr InvalidRefScriptStride
    else match multiplier with
         | Some (Some mult) =>
           if fst mult <=? 0 then ferr InvalidRefScriptMultiplier else
           match tierLoop (S (Z.to_nat (scriptSize / stride))) stride (ratQ mult) (ratQ base) 0%Q scriptSize with
           | None => ferr RefScriptFeeOverflow
           | Some total =>
             let fee := quo total in
             if (0 <=? fee) && (fee <=? MaxUint64) then Ok fee else ferr RefScriptFeeOverflow
           end
         | _ => ferr InvalidRefScriptMultiplier
         end
  | _ => ferr InvalidRefScriptBaseCost
  end.

(** ** The minimum fee *)

Definition ConwayMinFeeTx (tx : ConwayTransaction) (pp : ConwayProtocolParameters) : result conwayError Z :=
  minFee ← fromShelley (MinFeeTx (shelleyTx tx) (shelleyParams pp));
  executionFee ← CalculateExecutionUnitsFee tx (pExecutionCosts pp);
  if MaxUint64 - executionFee <? minFee then ferr MinimumFeeOverflow else Ok (minFee + executionFee).

Definition MinFeeTxWithRefScriptSize (tx : ConwayTransaction) (pp : ConwayProtocolParameters) (scriptSize : Z) : result conwayError Z :=
  baseFee ← ConwayMinFeeTx tx pp;
  refScriptFee ← CalculateRefScriptFee scriptSize (pMinFeeRefScriptCostPerByte pp) RefScriptCostStride (Some (Some (6, 5)));
  if MaxUint64 - refScriptFee <? baseFee then ferr MinimumFeeOverflow else Ok (baseFee + refScriptFee).

Definition MinFeeTxWithUtxo (tx : ConwayTransaction) (pp : ConwayProtocolParameters) (state : UtxoState) : result conwayError Z :=
  scriptSize ← ConsumedReferenceScriptSize tx state;
  MinFeeTxWithRefScriptSize tx pp scriptSize.

Definition ConwayFeeTooSmallUtxo (tx : ConwayTransaction) (ls : ConwayState) (pp : ConwayProtocolParameters) : ccheck :=
  minFee ← MinFeeTxWithUtxo tx pp (UtxoById (lstate ls));
  let fee := default 0 (Fee tx) in
  if minFee <=? fee then Ok () else Err (ShelleyError (FeeTooSmall fee minFee)).

(** ** Outputs *)

Definition conwayOutputs (tx : ConwayTransaction) : list ConwayOutput :=
  Outputs tx ++ match CollateralReturn tx with Some o => [o] | None => [] end.

Definition minUtxoOverheadBytes : Z := 160.

Definition MinCoinTxOut (o : ConwayOutput) (pp : ConwayProtocolParameters) : result conwayError Z :=
  match outSize o with
  | None => ferr OutputSizeUnavailable
  | Some txOutSize =>
    let entrySize := u64 (minUtxoOverheadBytes + txOutSize) in
    if negb (pAdaPerUtxoByte pp =? 0) && (MaxUint64 / pAdaPerUtxoByte pp <? entrySize) then ferr MinimumUtxoOverflow
    else Ok (u64 (pAdaPerUtxoByte pp * entrySize))
  end.

Fixpoint smallOutputs (pp : ConwayProtocolParameters) (outputs : list ConwayOutput) : result conwayError (list ConwayOutput) :=
  match outputs with
  | [] => Ok []
  | o :: outputs =>
    minCoin ← MinCoinTxOut o pp;
    bad ← smallOutputs pp outputs;
    Ok (if default 0 (outAmount o) <? minCoin then o :: bad else bad)
  end.

Definition ConwayOutputTooSmallUtxo (tx : ConwayTransaction) (pp : ConwayProtocolParameters) : ccheck :=
  badOutputs ← smallOutputs pp (conwayOutputs tx);
  if blen badOutputs =? 0 then Ok () else Err (ShelleyError (OutputTooSmall (shelleyOutput <$> badOutputs))).

Definition cborUintSize (n : Z) : Z :=
  if n <? 24 then 1 else if n <=? 255 then 2 else if n <=? 65535 then 3 else if n <=? 4294967295 then 5 else 9.

(** A signed 64-bit sum, and whether it fits. *)
Definition s64 (z : Z) : Z := (z + 9223372036854775808) mod 18446744073709551616 - 9223372036854775808.

Definition AddInt64Checked (a b : Z) : option Z :=
  let sum := s64 (a + b) in
  if ((0 <? b) && (sum <? a)) || ((b <? 0) && (a <? sum)) then None else Some sum.

Fixpoint exUnitsLoop (max : ExUnits) (units : list ExUnits) (total : ExUnits) : ccheck :=
  match units with
  | [] => if (Steps total <=? Steps max) && (Memory total <=? Memory max) then Ok () else ferr (ExUnitsTooBigUtxo total max)
  | u :: units =>
    match AddInt64Checked (Steps total) (Steps u) with
    | None => ferr (ExUnitsTooBigUtxo total max)
    | Some newSteps =>
      match AddInt64Checked (Memory total) (Memory u) with
      | None => ferr (ExUnitsTooBigUtxo (mkExUnits (Memory total) newSteps) max)
      | Some newMemory => exUnitsLoop max units (mkExUnits newMemory newSteps)
      end
    end
  end.

Definition UtxoValidateExUnitsTooBigUtxo (tx : ConwayTransaction) (pp : ConwayProtocolParameters) : ccheck :=
  exUnitsLoop (pMaxTxExUnits pp) (unitsOf tx) (mkExUnits 0 0).

Section Sizes.
Context `{CborAtoms}.

Definition LedgerSerializedSizeAdjustment (m : MultiAsset) : Z := 0.

Definition LedgerSerializedSize (o : ConwayOutput) : result conwayError Z :=
  let amountSize := cborUintSize (default 0 (outAmount o)) in
  match outAssets o with
  | None => Ok amountSize
  | Some m =>
    if blen (Policies m) =? 0 then Ok amountSize else
    match EncodedSize m with
    | Err _ => ferr OutputSizeUnavailable
    | Ok assetsSize => Ok (1 + amountSize + assetsSize + LedgerSerializedSizeAdjustment m)
    end
  end.

Fixpoint bigOutputs (pp : ConwayProtocolParameters) (outputs : list ConwayOutput) : result conwayError (list ConwayOutput) :=
  match outputs with
  | [] => Ok []
  | o :: outputs =>
    size ← LedgerSerializedSize o;
    bad ← bigOutputs pp outputs;
    Ok (if size <=? pMaxValueSize pp then bad else o :: bad)
  end.

Definition UtxoValidateOutputTooBigUtxo (tx : ConwayTransaction) (pp : ConwayProtocolParameters) : ccheck :=
  badOutputs ← bigOutputs pp (conwayOutputs tx);
  if blen badOutputs =? 0 then Ok () else ferr (OutputTooBigUtxo badOutputs).

(** The rules of this file. *)
Definition feeRule (other : RuleId -> Rule) (r : RuleId) : Rule :=
  match r with
  | FeeTooSmallRule => fun tx _ ls pp => ConwayFeeTooSmallUtxo tx ls pp
  | OutputTooSmallRule => fun tx _ _ pp => ConwayOutputTooSmallUtxo tx pp
  | OutputTooBig => fun tx _ _ pp => UtxoValidateOutputTooBigUtxo tx pp
  | OutputBootAddrAttrsTooBig => fun tx _ _ _ => fromShelley (UtxoValidateOutputBootAddrAttrsTooBig (shelleyTx tx))
  | MaxTxSize => fun tx _ _ pp => fromShelley (UtxoValidateMaxTxSizeUtxo (shelleyTx tx) (shelleyParams pp))
  | ExUnitsTooBig => fun tx _ _ pp => UtxoValidateExUnitsTooBigUtxo tx pp
  | RefScriptSizePerTx => fun tx _ ls _ => UtxoValidateRefScriptSizePerTx tx ls
  | r => other r
  end.
End Sizes.

(** ** What the fees are *)

(** Byte [j] of the reference scripts costs [base * multiplier ^ (j / stride)]. *)
Fixpoint bytesCost (base multiplier : Q) (stride : Z) (n : nat) : Q :=
  match n with
  | O => 0
  | S n => bytesCost base multiplier stride n + base * Qpower multiplier (Z.of_nat n / stride)
  end%Q.

Definition executionCost (mem step : Q) (units : list ExUnits) : Q :=
  foldr (fun u t => inject_Z (Memory u) * mem + inject_Z (Steps u) * step + t)%Q 0%Q units.

(** The reference scripts of the distinct inputs that a ledger has. *)
Definition refScriptSize (utxo : gmap TransactionInput ConwayOutput) (tx : ConwayTransaction) : Z :=
  sum_by (fun i => match utxo !! i with Some o => scriptSizeOf o | None => 0 end)
    (elements (list_to_set (Inputs tx ++ ReferenceInputs tx) : gset TransactionInput)).

Lemma quo_floor q : (0 <= q)%Q -> quo q = Qfloor q.
Proof.
  intros Hq. unfold quo. rewrite <- (Qred_correct q) in Hq. rewrite <- (Qfloor_comp (Qred q) q) by apply Qred_correct.
  destruct (Qred q) as [n d]. unfold Qfloor. cbn [Qnum Qden]. unfold Qle in Hq. cbn in Hq. apply Z.quot_div_nonneg; lia.
Qed.

Lemma ceiling_mod q : Qceiling q = Qfloor q + (if Qnum (Qred q) mod QDen (Qred q) =? 0 then 0 else 1).
Proof.
  rewrite <- (Qfloor_comp (Qred q) q), <- (Qceiling_comp (Qred q) q) by apply Qred_correct.
  destruct (Qred q) as [n d]. unfold Qceiling, Qfloor. cbn [Qnum Qden Qopp].
  destruct (Z.eqb_spec (n mod Z.pos d) 0) as [E|N].
  - rewrite Z.div_opp_l_z by (lia || done). lia.
  - rewrite Z.div_opp_l_nz by (lia || done). lia.
Qed.

(** *** Tiers *)

Section Tiers.
Context (base multiplier : Q) (stride : Z) (Hstride : 0 < stride).

Lemma bytesCost_tier k n : 0 <= k -> Z.of_nat n <= stride ->
  (bytesCost base multiplier stride (Z.to_nat (k * stride) + n) ==
   bytesCost base multiplier stride (Z.to_nat (k * stride)) + base * Qpower multiplier k * inject_Z (Z.of_nat n))%Q.
Proof using Hstride.
  intros Hk. induction n as [|n IH]; intros Hn.
  - rewrite Nat.add_0_r. cbn. ring.
  - rewrite Nat.add_succ_r. cbn [bytesCost]. rewrite IH by lia.
    replace (Z.of_nat (Z.to_nat (k * stride) + n) / stride) with k.
    + rewrite Nat2Z.inj_succ. unfold Z.succ. rewrite inject_Z_plus. ring.
    + rewrite Nat2Z.inj_add, Z2Nat.id by nia. rewrite Z.add_comm, Z.div_add by lia. rewrite Z.div_small by lia. lia.
Qed.

Lemma Qpower_succ (q : Q) k : ~ (q == 0)%Q -> (Qpower q (k + 1) == Qpower q k * q)%Q.
Proof. intros Hq. rewrite Qpower_plus by done. by rewrite Qpower_1_r. Qed.

Lemma tierLoop_cost (size : Z) : ~ (multiplier == 0)%Q -> forall fuel k price total remaining,
  0 <= k -> (price == base * Qpower multiplier k)%Q -> (total == bytesCost base multiplier stride (Z.to_nat (k * stride)))%Q ->
  remaining = size - k * stride -> 0 <= remaining <= stride * Z.of_nat fuel ->
  exists t, tierLoop fuel stride multiplier price total remaining = Some t /\ (t == bytesCost base multiplier stride (Z.to_nat size))%Q.
Proof using Hstride.
  intros Hm. induction fuel as [|fuel IH]; intros k price total remaining Hk Hp Ht Hr Hrange; cbn [tierLoop].
  - assert (remaining = 0) as E by lia. rewrite E. cbn. exists total. split; [done|]. rewrite Ht. replace (k * stride) with size by lia. reflexivity.
  - destruct (Z.leb_spec remaining 0) as [E|N].
    + exists total. split; [done|]. rewrite Ht. replace (k * stride) with size by lia. reflexivity.
    + destruct (Z.le_ge_cases stride remaining) as [Hs|Hs].
      * rewrite Z.min_r by done. apply (IH (k + 1)); try lia.
        -- rewrite Hp, Qpower_succ by done. ring.
        -- rewrite Ht, Hp. pose proof (bytesCost_tier k (Z.to_nat stride) Hk ltac:(lia)) as B. rewrite Z2Nat.id in B by lia.
           rewrite <- B. replace (Z.to_nat ((k + 1) * stride)) with (Z.to_nat (k * stride) + Z.to_nat stride)%nat; [reflexivity|].
           rewrite <- Z2Nat.inj_add by nia. f_equal. lia.
      * rewrite Z.min_l by done. rewrite Z.sub_diag.
        assert (E : forall f p t, tierLoop f stride multiplier p t 0 = Some t) by (by intros []). rewrite E.
        eexists. split; [done|]. rewrite Ht, Hp.
        pose proof (bytesCost_tier k (Z.to_nat remaining) Hk ltac:(lia)) as B. rewrite Z2Nat.id in B by lia. rewrite <- B.
        replace (Z.to_nat size) with (Z.to_nat (k * stride) + Z.to_nat remaining)%nat; [reflexivity|].
        rewrite <- Z2Nat.inj_add by nia. f_equal. lia.
Qed.

Lemma bytesCost_nonneg n : (0 <= base)%Q -> (0 <= multiplier)%Q -> (0 <= bytesCost base multiplier stride n)%Q.
Proof.
  intros Hb Hm. induction n as [|n IH]; cbn [bytesCost]; [apply Qle_refl|].
  apply (Qle_trans _ (0 + 0)%Q); [discriminate|]. apply Qplus_le_compat; [done|]. apply Qmult_le_0_compat; [done|by apply Qpower_pos].
Qed.
End Tiers.

Lemma ratQ_nonneg r : 0 <= fst r -> (0 <= ratQ r)%Q.
Proof. intros. unfold ratQ, Qle. cbn. lia. Qed.

Lemma ratQ_pos r : 0 < fst r -> (0 < ratQ r)%Q.
Proof. intros. unfold ratQ, Qlt. cbn. lia. Qed.

(** The tiered fee is the price of the bytes one by one, rounded down once. *)
Lemma refScriptFee_exact size base stride mult : 0 <= size -> 0 <= fst base -> 0 < stride -> 0 < fst mult ->
  CalculateRefScriptFee size (Some (Some base)) stride (Some (Some mult)) =
  let fee := Qfloor (bytesCost (ratQ base) (ratQ mult) stride (Z.to_nat size)) in
  if fee <=? MaxUint64 then Ok fee else ferr RefScriptFeeOverflow.
Proof.
  intros Hs Hb Hst Hm. unfold CalculateRefScriptFee. destruct (Z.eqb_spec size 0) as [->|N]; [done|].
  rewrite (proj2 (Z.ltb_ge _ _) Hb), (proj2 (Z.eqb_neq stride 0)), (proj2 (Z.leb_gt _ _) Hm) by lia.
  destruct (tierLoop_cost (ratQ base) (ratQ mult) stride Hst size) with (fuel := S (Z.to_nat (size / stride))) (k := 0)
    (price := ratQ base) (total := 0%Q) (remaining := size) as (t & -> & Et).
  - intros E. pose proof (ratQ_pos mult Hm) as P. rewrite E in P. by apply Qlt_irrefl in P.
  - lia.
  - cbn. ring.
  - reflexivity.
  - lia.
  - rewrite Nat2Z.inj_succ, Z2Nat.id by (apply Z.div_pos; lia). pose proof (Z.div_mod size stride ltac:(lia)).
    pose proof (Z.mod_pos_bound size stride Hst). lia.
  - pose proof (bytesCost_nonneg (ratQ base) (ratQ mult) stride (Z.to_nat size) (ratQ_nonneg _ Hb) (Qlt_le_weak _ _ (ratQ_pos _ Hm))) as P.
    rewrite (quo_floor t) by (by rewrite Et). rewrite (Qfloor_comp _ _ Et). cbn zeta.
    rewrite (proj2 (Z.leb_le 0 _)); [done|]. change 0 with (Qfloor 0). by apply Qfloor_resp_le.
Qed.

(** The execution fee is the price of all units, rounded up once. *)
Lemma executionLoop_cost mem step units : 0 <= fst mem -> 0 <= fst step -> Forall (fun u => 0 <= Memory u /\ 0 <= Steps u) units -> forall total,
  exists t, executionLoop (mkPrice (Some (Some mem)) (Some (Some step))) units total = Ok t /\ (t == total + executionCost (ratQ mem) (ratQ step) units)%Q.
Proof.
  intros Hm Hst. induction 1 as [|u units [H1 H2] _ IH]; intros total; cbn [executionLoop executionCost foldr].
  - exists total. split; [done|]. ring.
  - cbn [validPrice MemPrice StepPrice mbind result_bind].
    rewrite (proj2 (Z.ltb_ge _ _) Hm), (proj2 (Z.ltb_ge _ _) Hst), (proj2 (Z.ltb_ge _ _) H1), (proj2 (Z.ltb_ge _ _) H2). cbn [orb].
    edestruct IH as (t & Et & E). exists t. split; [exact Et|]. rewrite E. unfold executionCost. ring.
Qed.

Lemma executionCost_nonneg mem step units : (0 <= mem)%Q -> (0 <= step)%Q -> Forall (fun u => 0 <= Memory u /\ 0 <= Steps u) units ->
  (0 <= executionCost mem step units)%Q.
Proof.
  intros Hm Hst. induction 1 as [|u units [H1 H2] _ IH]; cbn [executionCost foldr]; [apply Qle_refl|].
  repeat (apply (Qle_trans _ (0 + 0)%Q); [discriminate|]; apply Qplus_le_compat); try done;
    (apply Qmult_le_0_compat; [|done]); unfold Qle; cbn; lia.
Qed.

Lemma executionFee_exact tx mem step : 0 <= fst mem -> 0 <= fst step -> Forall (fun u => 0 <= Memory u /\ 0 <= Steps u) (unitsOf tx) ->
  CalculateExecutionUnitsFee tx (mkPrice (Some (Some mem)) (Some (Some step))) =
  let fee := Qceiling (executionCost (ratQ mem) (ratQ step) (unitsOf tx)) in
  if fee <=? MaxUint64 then Ok fee else ferr ExecutionFeeOverflow.
Proof.
  intros Hm Hst Hu. unfold CalculateExecutionUnitsFee. destruct (executionLoop_cost mem step _ Hm Hst Hu 0%Q) as (t & -> & Et). cbn [mbind result_bind].
  rewrite Qplus_0_l in Et. pose proof (executionCost_nonneg _ _ _ (ratQ_nonneg _ Hm) (ratQ_nonneg _ Hst) Hu) as P.
  rewrite quo_floor by (by rewrite Et). rewrite <- ceiling_mod, (Qceiling_comp _ _ Et). cbn zeta.
  rewrite (proj2 (Z.leb_le 0 _)); [done|]. change 0 with (Qceiling 0). by apply Qceiling_resp_le.
Qed.

(** ** The size of the reference scripts *)

(** A state that has the outputs of a map. *)
Definition has (state : UtxoState) (utxo : gmap TransactionInput ConwayOutput) : Prop :=
  forall i, match utxo !! i with Some o => state i = Ok o | None => exists e, state i = Err e end.

Definition sizeAt (utxo : gmap TransactionInput ConwayOutput) (i : TransactionInput) : Z :=
  match utxo !! i with Some o => scriptSizeOf o | None => 0 end.

Lemma sizeAt_nonneg utxo i : 0 <= sizeAt utxo i.
Proof. unfold sizeAt, scriptSizeOf. destruct (utxo !! i) as [o|]; [|done]. destruct (ScriptRef o); [apply blen_nonneg|done]. Qed.

Lemma scriptSizeLoop_Ok state utxo l : has state utxo -> forall total t, 0 <= total <= MaxUint64 ->
  scriptSizeLoop state l total = Ok t <->
  Forall (fun e => snd e = true -> is_Some (utxo !! fst e)) l /\
  total + sum_by (fun e => sizeAt utxo (fst e)) l <= MaxUint64 /\ t = total + sum_by (fun e => sizeAt utxo (fst e)) l.
Proof.
  intros Hs. induction l as [|[i ref] l IH]; intros total t Ht; cbn [scriptSizeLoop sum_by fst].
  - split; [intros [= <-]; split; [constructor|lia]|intros (_ & _ & ->); f_equal; lia].
  - pose proof (sum_by_nonneg (fun e : TransactionInput * bool => sizeAt utxo (fst e)) l (fun e => sizeAt_nonneg utxo (fst e))) as Hn.
    pose proof (Hs i) as Hi. unfold sizeAt at 1 3. pose proof (sizeAt_nonneg utxo i) as Hp. unfold sizeAt at 1 in Hp.
    rewrite Forall_cons. cbn [fst snd]. destruct (utxo !! i) as [o|].
    + rewrite Hi. destruct (Z.ltb_spec (MaxUint64 - scriptSizeOf o) total) as [Lt|Ge].
      * split; [done|]. intros (_ & L & _). lia.
      * rewrite IH by lia. rewrite !Z.add_assoc. split; [intros (A & B & C); split_and!; try done; by intros _|intros ([_ A] & B & C); done].
    + destruct Hi as [e ->]. destruct ref.
      * split; [done|]. intros ([A _] & _). destruct (A eq_refl) as [x X]. done.
      * rewrite IH by done. rewrite Z.add_0_l. split; [intros (A & B & C); split_and!; (done || by intros [=])|intros ([_ A] & B & C); done].
Qed.

Lemma consumedInputs_lookup tx i : consumedInputs tx !! i =
  if decide (i ∈ ReferenceInputs tx) then Some true else if decide (i ∈ Inputs tx) then Some false else None.
Proof.
  assert (G : forall (b : bool) l (m : gmap TransactionInput bool), foldl (fun m i => <[i := b]> m) m l !! i = if decide (i ∈ l) then Some b else m !! i).
  { intros b. induction l as [|j l IH]; intros m; cbn [foldl]; [by rewrite decide_False by (apply not_elem_of_nil)|]. rewrite IH.
    destruct (decide (i ∈ l)) as [Hl|Hl]; [by rewrite decide_True by (by right)|].
    destruct (decide (j = i)) as [->|N]; [rewrite lookup_insert_eq, decide_True by left; done|].
    rewrite lookup_insert_ne by done. rewrite decide_False; [done|]. intros [->|?]%elem_of_cons; done. }
  unfold consumedInputs. by rewrite !G, lookup_empty.
Qed.

Lemma consumedInputs_perm tx : fst <$> map_to_list (consumedInputs tx) ≡ₚ elements (list_to_set (Inputs tx ++ ReferenceInputs tx) : gset TransactionInput).
Proof.
  apply NoDup_Permutation; [apply NoDup_fst_map_to_list|apply NoDup_elements|]. intros i.
  rewrite elem_of_elements, elem_of_list_to_set, elem_of_app, list_elem_of_fmap. split.
  - intros ([j b] & -> & Hj%elem_of_map_to_list). rewrite consumedInputs_lookup in Hj. cbn. repeat case_decide; naive_solver.
  - intros Hi. destruct (consumedInputs tx !! i) as [b|] eqn:E.
    + exists (i, b). split; [done|]. by apply elem_of_map_to_list.
    + rewrite consumedInputs_lookup in E. repeat case_decide; naive_solver.
Qed.

Definition refsKnown (utxo : gmap TransactionInput ConwayOutput) (tx : ConwayTransaction) : Prop :=
  forall i, i ∈ ReferenceInputs tx -> is_Some (utxo !! i).

Lemma ConsumedReferenceScriptSize_Ok state utxo tx t : has state utxo ->
  ConsumedReferenceScriptSize tx state = Ok t <->
  refsKnown utxo tx /\ refScriptSize utxo tx <= MaxUint64 /\ t = refScriptSize utxo tx.
Proof.
  intros Hs. unfold ConsumedReferenceScriptSize. rewrite (scriptSizeLoop_Ok state utxo _ Hs) by (unfold MaxUint64; lia).
  assert (E : sum_by (fun e : TransactionInput * bool => sizeAt utxo (fst e)) (map_to_list (consumedInputs tx)) = refScriptSize utxo tx).
  { unfold refScriptSize. fold (sizeAt utxo). rewrite <- (sum_by_perm _ _ _ (consumedInputs_perm tx)).
    generalize (map_to_list (consumedInputs tx)) as l. induction l as [|e l IH]; [done|]. cbn [sum_by fmap list_fmap]. by rewrite IH. }
  rewrite E, Z.add_0_l. assert (K : Forall (fun e => snd e = true -> is_Some (utxo !! fst e)) (map_to_list (consumedInputs tx)) <-> refsKnown utxo tx); [|by rewrite K].
  rewrite Forall_forall. split.
  - intros F i Hi. apply (F (i, true)); [|done]. apply elem_of_map_to_list. rewrite consumedInputs_lookup. by rewrite decide_True.
  - intros K [i b] Hi%elem_of_map_to_list Hb. cbn in Hb. subst b. apply K. rewrite consumedInputs_lookup in Hi. repeat case_decide; done.
Qed.

(** *** In a block *)

Lemma spendUtxo_has base l : forall s utxo, has (blockUtxoStateById base s) utxo ->
  has (blockUtxoStateById base (foldl spendUtxo s l)) (foldl (fun u i => delete i u) utxo l).
Proof.
  induction l as [|j l IH]; intros s utxo Hs; [done|]. cbn [foldl]. apply IH. intros i. specialize (Hs i).
  unfold blockUtxoStateById, spendUtxo in *. cbn [produced consumed]. destruct (decide (i = j)) as [->|N].
  - rewrite !lookup_delete_eq, bool_decide_true by set_solver. by eexists.
  - rewrite !lookup_delete_ne by done. rewrite (bool_decide_ext (i ∈ {[j]} ∪ consumed s) (i ∈ consumed s)) by set_solver. exact Hs.
Qed.

Lemma createUtxo_has base l : forall s utxo, has (blockUtxoStateById base s) utxo ->
  has (blockUtxoStateById base (foldl createUtxo s l)) (foldl (fun u '(i, o) => <[i := o]> u) utxo l).
Proof.
  induction l as [|[j o] l IH]; intros s utxo Hs; [done|]. cbn [foldl]. apply IH. intros i. specialize (Hs i).
  unfold blockUtxoStateById, createUtxo in *. cbn [produced consumed fst snd]. destruct (decide (i = j)) as [->|N].
  - by rewrite !lookup_insert_eq.
  - rewrite !lookup_insert_ne by done. rewrite (bool_decide_ext (i ∈ consumed s ∖ {[j]}) (i ∈ consumed s)) by set_solver. exact Hs.
Qed.

Lemma applyBlockUtxo_has base s utxo tx : has (blockUtxoStateById base s) utxo ->
  has (blockUtxoStateById base (applyBlockUtxo tx s)) (spendAndProduce tx utxo).
Proof. intros Hs. unfold applyBlockUtxo, spendAndProduce. by apply createUtxo_has, spendUtxo_has. Qed.

(** The reference scripts of each transaction, in the ledger at its turn. *)
Fixpoint blockRefScripts (keyDeposit : Z) (L : CLedger) (txs : list ConwayTransaction) : Z :=
  match txs with [] => 0 | tx :: txs => refScriptSize (lUtxo L) tx + blockRefScripts keyDeposit (ledger_tx keyDeposit L (blockTx tx)) txs end.

Fixpoint blockRefsKnown (keyDeposit : Z) (L : CLedger) (txs : list ConwayTransaction) : Prop :=
  match txs with [] => True | tx :: txs => refsKnown (lUtxo L) tx /\ blockRefsKnown keyDeposit (ledger_tx keyDeposit L (blockTx tx)) txs end.

Lemma refScriptSize_nonneg utxo tx : 0 <= refScriptSize utxo tx.
Proof. apply sum_by_nonneg. intros i. apply sizeAt_nonneg. Qed.

Lemma blockRefScripts_nonneg kd txs : forall L, 0 <= blockRefScripts kd L txs.
Proof. induction txs as [|tx txs IH]; intros L; cbn [blockRefScripts]; [done|]. pose proof (refScriptSize_nonneg (lUtxo L) tx). specialize (IH (ledger_tx kd L (blockTx tx))). lia. Qed.

Lemma blockSizeLoop_Ok base pp txs : forall (L : CLedger) s total t, has (blockUtxoStateById base s) (lUtxo L) -> 0 <= total <= MaxUint64 ->
  blockSizeLoop base true txs s total = Ok t <->
  blockRefsKnown (keyDeposit pp) L txs /\ total + blockRefScripts (keyDeposit pp) L txs <= MaxUint64 /\ t = total + blockRefScripts (keyDeposit pp) L txs.
Proof.
  induction txs as [|tx txs IH]; intros L s total t Hs Ht; cbn [blockSizeLoop blockRefsKnown blockRefScripts].
  - split; [intros [= <-]; split; [done|lia]|intros (_ & _ & ->); f_equal; lia].
  - pose proof (refScriptSize_nonneg (lUtxo L) tx) as N1. pose proof (blockRefScripts_nonneg (keyDeposit pp) txs (ledger_tx (keyDeposit pp) L (blockTx tx))) as N2.
    assert (Hs' : has (blockUtxoStateById base (applyBlockUtxo tx s)) (lUtxo (ledger_tx (keyDeposit pp) L (blockTx tx)))).
    { destruct (ledger_tx_fields pp L tx) as (-> & _). by apply applyBlockUtxo_has. }
    split.
    + intros (n & (K & B & ->)%(ConsumedReferenceScriptSize_Ok _ _ _ _ Hs) & E)%bind_Ok.
      destruct (Z.ltb_spec (MaxUint64 - refScriptSize (lUtxo L) tx) total); [done|].
      apply (IH _ _ _ _ Hs') in E as (K' & B' & ->); [|lia]. split; [done|]. lia.
    + intros ([K K'] & B & ->). rewrite (proj2 (ConsumedReferenceScriptSize_Ok _ _ _ (refScriptSize (lUtxo L) tx) Hs)) by (split; [done|lia]).
      cbn [mbind result_bind]. destruct (Z.ltb_spec (MaxUint64 - refScriptSize (lUtxo L) tx) total); [lia|].
      apply (IH _ _ _ _ Hs'); [lia|]. split; [done|]. lia.
Qed.

(** C24. From protocol version 11 on, a block passes the limit on reference scripts
    exactly when every reference input is in the ledger at the turn of its
    transaction and the scripts at the distinct inputs of the transactions, each
    looked up in the ledger after the transactions before it, take at most one
    mebibyte: the overlay of the size rule is the ledger that the block's view
    reports. *)
Theorem block_ref_scripts_exact base (L0 : CLedger) pp txs :
  reports (lstate base) L0 -> 11 <= fst (pProtocolVersion pp) ->
  ValidateRefScriptSizePerBlock txs pp (UtxoById (lstate base)) = Ok () <->
  blockRefsKnown (keyDeposit pp) L0 txs /\ blockRefScripts (keyDeposit pp) L0 txs <= 1024 * 1024.
Proof.
  intros R Hv. unfold ValidateRefScriptSizePerBlock, ConsumedReferenceScriptSizePerBlock.
  rewrite (proj2 (Z.leb_le _ _)) by (unfold ProtocolVersionVanRossem; lia).
  assert (Hs : has (blockUtxoStateById (UtxoById (lstate base)) (mkBlockUtxo ∅ ∅)) (lUtxo L0)).
  { intros i. unfold blockUtxoStateById. cbn [produced consumed]. rewrite lookup_empty, bool_decide_false by set_solver. apply (r_utxo _ _ R). }
  pose proof (blockSizeLoop_Ok (UtxoById (lstate base)) pp txs L0 (mkBlockUtxo ∅ ∅) 0) as B. unfold MaxRefScriptSizePerBlock, MaxUint64 in *. split.
  - intros (n & (K & _ & ->)%B & E)%bind_Ok; [|done|lia]. split; [done|]. destruct (Z.ltb_spec (1024 * 1024) (0 + blockRefScripts (keyDeposit pp) L0 txs)); [done|lia].
  - intros [K Hn]. rewrite (proj2 (B (0 + blockRefScripts (keyDeposit pp) L0 txs) Hs ltac:(lia))) by (split; [done|lia]). cbn [mbind result_bind].
    destruct (Z.ltb_spec (1024 * 1024) (0 + blockRefScripts (keyDeposit pp) L0 txs)); [lia|done].
Qed.

(** The least fee: by size, by execution units rounded up, and by the bytes of
    the reference scripts, each twentyfive kibibytes a fifth dearer, rounded
    down. *)
Definition leastFee (pp : ConwayProtocolParameters) (mem step base : Z * Z) (utxo : gmap TransactionInput ConwayOutput) (size : Z) (tx : ConwayTransaction) : Z :=
  pMinFeeA pp * size + pMinFeeB pp + Qceiling (executionCost (ratQ mem) (ratQ step) (unitsOf tx)) +
  Qfloor (bytesCost (ratQ base) (6 # 5) 25600 (Z.to_nat (refScriptSize utxo tx))).

(** C11. The rule on fees accepts a transaction exactly when its fee is at least the
    least fee over the rationals; a least fee that does not fit 64 bits is
    refused rather than wrapped. *)
Theorem conway_fee_exact ls (L : CLedger) pp tx size mem step base :
  reports (lstate ls) L -> SizeOf tx = Some size -> 0 <= size -> 0 <= pMinFeeA pp <= MaxUint64 -> 0 <= pMinFeeB pp <= MaxUint64 ->
  pExecutionCosts pp = mkPrice (Some (Some mem)) (Some (Some step)) -> 0 <= fst mem -> 0 <= fst step ->
  pMinFeeRefScriptCostPerByte pp = Some (Some base) -> 0 <= fst base ->
  Forall (fun u => 0 <= Memory u /\ 0 <= Steps u) (unitsOf tx) -> refsKnown (lUtxo L) tx -> refScriptSize (lUtxo L) tx <= MaxUint64 ->
  ConwayFeeTooSmallUtxo tx ls pp = Ok () <->
  leastFee pp mem step base (lUtxo L) size tx <= MaxUint64 /\ leastFee pp mem step base (lUtxo L) size tx <= default 0 (Fee tx).
Proof.
  intros R Es Hs Ha Hb Ep Hm Hst Eb Hba Hu K Hr. unfold ConwayFeeTooSmallUtxo, MinFeeTxWithUtxo, MinFeeTxWithRefScriptSize, ConwayMinFeeTx, leastFee.
  rewrite (proj2 (ConsumedReferenceScriptSize_Ok _ _ _ (refScriptSize (lUtxo L) tx) (r_utxo _ _ R))) by done. cbn [mbind result_bind].
  unfold MinFeeTx. cbn [shelleyTx ShelleyRules.SizeOf shelleyParams MinFeeA MinFeeB]. rewrite Es. change (MinFeeA (shelleyParams pp)) with (pMinFeeA pp). change (MinFeeB (shelleyParams pp)) with (pMinFeeB pp). rewrite (CalculateMinFee_exact _ _ _ Hs Ha Hb), Ep, Eb.
  pose proof (refScriptSize_nonneg (lUtxo L) tx) as Hn. rewrite (executionFee_exact tx mem step Hm Hst Hu), (refScriptFee_exact _ base RefScriptCostStride (6, 5) Hn Hba) by (unfold RefScriptCostStride; cbn; lia).
  change (ratQ (6, 5)) with (6 # 5)%Q. unfold RefScriptCostStride.
  assert (X0 : 0 <= Qceiling (executionCost (ratQ mem) (ratQ step) (unitsOf tx))).
  { change 0 with (Qceiling 0). apply Qceiling_resp_le, executionCost_nonneg; by try apply ratQ_nonneg. }
  assert (Y0 : 0 <= Qfloor (bytesCost (ratQ base) (6 # 5) 25600 (Z.to_nat (refScriptSize (lUtxo L) tx)))).
  { change 0 with (Qfloor 0). apply Qfloor_resp_le, bytesCost_nonneg; [by apply ratQ_nonneg|discriminate]. }
  revert X0 Y0. generalize (Qceiling (executionCost (ratQ mem) (ratQ step) (unitsOf tx))) (Qfloor (bytesCost (ratQ base) (6 # 5) 25600 (Z.to_nat (refScriptSize (lUtxo L) tx)))).
  intros x y Hx Hy. assert (Hw : 0 <= pMinFeeA pp * size + pMinFeeB pp) by nia. revert Hw. generalize (pMinFeeA pp * size + pMinFeeB pp). intros w Hw. cbn zeta.
  repeat match goal with |- context [if ?a <=? ?b then _ else _] => destruct (Z.leb_spec a b); cbn [fromShelley mbind result_bind]
                       | |- context [if ?a <? ?b then _ else _] => destruct (Z.ltb_spec a b); cbn [fromShelley mbind result_bind] end;
    (split; [done || (intros _; lia)|(intros [? ?]; exfalso; lia) || done]).
Qed.

(** ** The limits on outputs and execution units *)

Definition Int64Max : Z := 9223372036854775807.

Lemma AddInt64Checked_exact a b : 0 <= a <= Int64Max -> 0 <= b <= Int64Max ->
  AddInt64Checked a b = if a + b <=? Int64Max then Some (a + b) else None.
Proof.
  unfold AddInt64Checked, Int64Max, s64. intros Ha Hb. destruct (Z.leb_spec (a + b) 9223372036854775807) as [L|G].
  - rewrite Z.mod_small by lia. repeat match goal with |- context [?x <? ?y] => destruct (Z.ltb_spec x y) end; cbn; try lia; f_equal; lia.
  - assert (E : (a + b + 9223372036854775808) mod 18446744073709551616 = a + b - 9223372036854775808).
    { symmetry. apply (Z.mod_unique_pos _ _ 1); lia. }
    rewrite E. repeat match goal with |- context [?x <? ?y] => destruct (Z.ltb_spec x y) end; cbn; (done || lia).
Qed.

Definition unit_ok (u : ExUnits) : Prop := 0 <= Memory u <= Int64Max /\ 0 <= Steps u <= Int64Max.

Lemma units_nonneg units : Forall unit_ok units -> 0 <= sum_by Memory units /\ 0 <= sum_by Steps units.
Proof. induction 1 as [|u units [? ?] _ IH]; cbn [sum_by]; lia. Qed.

Lemma exUnitsLoop_Ok max units : Memory max <= Int64Max -> Steps max <= Int64Max -> Forall unit_ok units -> forall total, unit_ok total ->
  exUnitsLoop max units total = Ok () <-> Memory total + sum_by Memory units <= Memory max /\ Steps total + sum_by Steps units <= Steps max.
Proof.
  intros Hm Hst. induction 1 as [|u units [U1 U2] F IH]; intros total [T1 T2]; cbn [exUnitsLoop sum_by].
  - destruct (Z.leb_spec (Steps total) (Steps max)), (Z.leb_spec (Memory total) (Memory max)); cbn; split; (done || lia).
  - pose proof (units_nonneg _ F) as P.
    rewrite !AddInt64Checked_exact by done. destruct (Z.leb_spec (Steps total + Steps u) Int64Max); [|split; [done|lia]].
    destruct (Z.leb_spec (Memory total + Memory u) Int64Max); [|split; [done|lia]].
    rewrite IH by (split; cbn; lia). cbn [Memory Steps]. rewrite !Z.add_assoc. done.
Qed.

Definition output_funded (pp : ConwayProtocolParameters) (o : ConwayOutput) : Prop :=
  match outSize o with
  | Some size => pAdaPerUtxoByte pp * (minUtxoOverheadBytes + size) <= default 0 (outAmount o)
  | None => False
  end.

Definition output_sized (o : ConwayOutput) : Prop :=
  default 0 (outAmount o) <= MaxUint64 /\ match outSize o with Some size => 0 <= size /\ minUtxoOverheadBytes + size <= MaxUint64 | None => True end.

Lemma MinCoinTxOut_Ok o pp c : 0 <= pAdaPerUtxoByte pp <= MaxUint64 -> output_sized o ->
  MinCoinTxOut o pp = Ok c <-> exists size, outSize o = Some size /\ c = pAdaPerUtxoByte pp * (minUtxoOverheadBytes + size) /\ c <= MaxUint64.
Proof.
  intros Hp [_ Hs]. unfold MinCoinTxOut. destruct (outSize o) as [size|]; [|by split; [|intros (? & ? & _)]].
  destruct Hs as [Hs0 Hs]. unfold minUtxoOverheadBytes in *. rewrite (u64_small (160 + size)) by lia.
  set (p := pAdaPerUtxoByte pp) in *. set (n := 160 + size) in *.
  assert (D : p <> 0 -> MaxUint64 / p < n <-> MaxUint64 < p * n).
  { intros Np. split; intros L.
    - pose proof (Z.mul_succ_div_gt MaxUint64 p ltac:(lia)). apply Z.lt_le_trans with (p * Z.succ (MaxUint64 / p)); [done|]. apply Z.mul_le_mono_nonneg_l; lia.
    - apply Z.div_lt_upper_bound; [lia|done]. }
  destruct (Z.eqb_spec p 0) as [E|N]; cbn [negb andb].
  - rewrite E. cbn. split; [intros [= <-]; exists size; split_and!; (done || lia)|intros (s & _ & -> & _); done].
  - destruct (Z.ltb_spec (MaxUint64 / p) n) as [L|G].
    + apply D in L; [|done]. split; [done|]. intros (s & [= ->] & -> & ?). unfold n in L. lia.
    + assert (p * n <= MaxUint64) by (destruct (Z.le_gt_cases (p * n) MaxUint64) as [?|X]; [done|apply D in X; [lia|done]]).
      rewrite u64_small by nia. split; [intros [= <-]; by exists size|intros (s & [= ->] & -> & _); done].
Qed.

Lemma smallOutputs_none pp outs : 0 <= pAdaPerUtxoByte pp <= MaxUint64 -> Forall output_sized outs ->
  smallOutputs pp outs = Ok [] <-> Forall (output_funded pp) outs.
Proof.
  intros Hp. induction 1 as [|o outs Ho _ IH]; cbn [smallOutputs]; [done|]. rewrite Forall_cons, <- IH. unfold output_funded. split.
  - intros (c & (size & E & -> & B)%(MinCoinTxOut_Ok _ _ _ Hp Ho) & (bad & Eb & Q)%bind_Ok)%bind_Ok. rewrite E, Eb.
    destruct (Z.ltb_spec (default 0 (outAmount o)) (pAdaPerUtxoByte pp * (minUtxoOverheadBytes + size))); [done|]. by injection Q as ->.
  - intros [F Eb]. destruct (outSize o) as [size|] eqn:E; [|done].
    rewrite (proj2 (MinCoinTxOut_Ok o pp (pAdaPerUtxoByte pp * (minUtxoOverheadBytes + size)) Hp Ho)) by (exists size; split_and!; [done|done|destruct Ho; lia]).
    cbn [mbind result_bind]. rewrite Eb. cbn [mbind result_bind]. by rewrite (proj2 (Z.ltb_ge _ _) F).
Qed.

(** The rules on small outputs and on execution units are their sums over the
    integers. *)
Theorem conway_limits_exact tx pp : 0 <= pAdaPerUtxoByte pp <= MaxUint64 -> Forall output_sized (conwayOutputs tx) ->
  Memory (pMaxTxExUnits pp) <= Int64Max -> Steps (pMaxTxExUnits pp) <= Int64Max -> Forall unit_ok (unitsOf tx) ->
  (ConwayOutputTooSmallUtxo tx pp = Ok () <-> Forall (output_funded pp) (conwayOutputs tx)) /\
  (UtxoValidateExUnitsTooBigUtxo tx pp = Ok () <->
   sum_by Memory (unitsOf tx) <= Memory (pMaxTxExUnits pp) /\ sum_by Steps (unitsOf tx) <= Steps (pMaxTxExUnits pp)).
Proof.
  intros Hp Ho Hm Hst Hu. split.
  - rewrite <- smallOutputs_none by done. unfold ConwayOutputTooSmallUtxo. split.
    + intros (bad & Eb & Q)%bind_Ok. rewrite Eb. destruct bad; [done|]. unfold blen in Q. cbn [length] in Q.
      rewrite (proj2 (Z.eqb_neq _ 0)) in Q by lia. done.
    + intros ->. done.
  - unfold UtxoValidateExUnitsTooBigUtxo. rewrite (exUnitsLoop_Ok _ _ Hm Hst Hu); [done|]. split; cbn; unfold Int64Max; lia.
Qed.

(** ** Instances *)

Definition scriptOut (code : bytes) : ConwayOutput := mkConwayOutput demoAddress (Some 9) None (Some (PlutusScriptOf 3 code)) (Some 60).

Definition feesLedger : CLedger := lset_utxo {[([9], 0) := scriptOut [1; 2; 3]; ([9], 1) := cwOut 20 0]} cwLedger.

Definition feesState : ConwayState := mkConwayState (stateOf feesLedger) 0 (Some (fun _ => Some 3)) (mkGovState (Ok None) None None None None).

Lemma feesState_reports : reports (lstate feesState) feesLedger.
Proof. apply stateOf_reports; [split; apply cwLedger_start|]. intros c c' [m H]. discriminate H. Qed.

(** Spends one output and refers to the other, which has a script of 3 bytes;
    creates an output with a script of 4. *)
Definition feesTx1 : ConwayTransaction :=
  mkConwayTx [1] [([9], 1)] [] [([9], 0)] [scriptOut [4; 5; 6; 7]] None None (Some 58) None [] None [] [] None true None (Some 9) []
    (Some (mkWitnessSet [] [] [] [] [] [] [] [((0, 0), mkExUnits 1 2)])) None.

(** Spends the script of the ledger and refers to the one that [feesTx1] made. *)
Definition feesTx2 : ConwayTransaction :=
  mkConwayTx [2] [([9], 0)] [] [([1], 0)] [] None None None None [] None [] [] None true None None [] None None.

Definition feesParams : ConwayProtocolParameters :=
  mkPP 1 2 1000 100 1100 2 7 18 500 (Some (Some (3, 10))) (Some (Some (3, 1000))) (Some half) (11, 0) 0 1 None
    (mkPrice (Some half) (Some half)) (mkExUnits 10 10) (mkExUnits 20 20) 50 150 3
    (mkPoolThresholds half half half half half)
    (mkDRepThresholds half half half half half half half half half half) 7 146 6 4 5 20 (Some (Some (15, 1))).

(** Witness of C11: 1 * 9 + 2, 3 / 2 rounded up and 3 * 15 are 58, the fee of the
    transaction. *)
Lemma conway_fee_exact_witness :
  leastFee feesParams (1, 2) (1, 2) (15, 1) (lUtxo feesLedger) 9 feesTx1 = 58 /\ ConwayFeeTooSmallUtxo feesTx1 feesState feesParams = Ok ().
Proof.
  assert (E : leastFee feesParams (1, 2) (1, 2) (15, 1) (lUtxo feesLedger) 9 feesTx1 = 58) by (vm_compute; reflexivity). split; [exact E|].
  apply (conway_fee_exact feesState feesLedger feesParams feesTx1 9 (1, 2) (1, 2) (15, 1)); try reflexivity; try (cbn; unfold MaxUint64; lia).
  - apply feesState_reports.
  - repeat constructor; cbn; lia.
  - intros i ->%list_elem_of_singleton. by eexists.
  - vm_compute. discriminate.
  - rewrite E. cbn. unfold MaxUint64. lia.
Defined.

(** Witness of C24: two transactions that read 3 bytes, then 3 and 4. *)
Lemma block_ref_scripts_exact_witness :
  blockRefScripts 2 feesLedger [feesTx1; feesTx2] = 10 /\
  ValidateRefScriptSizePerBlock [feesTx1; feesTx2] feesParams (UtxoById (lstate feesState)) = Ok ().
Proof.
  assert (E : blockRefScripts 2 feesLedger [feesTx1; feesTx2] = 10) by (vm_compute; reflexivity). split; [exact E|].
  apply (block_ref_scripts_exact feesState feesLedger feesParams [feesTx1; feesTx2] feesState_reports); [cbn; lia|].
  change (keyDeposit feesParams) with 2. rewrite E. split; [|lia]. cbn [blockRefsKnown]. split_and!; [| |exact I].
  - intros i ->%list_elem_of_singleton. by eexists.
  - intros i ->%list_elem_of_singleton. vm_compute. by eexists.
Defined.
