(* ===== verification/VerifyBlock.v ===== *)
(** * Verification of whole blocks (src/ledger/verify_block.go, verify_kes.go,
      verify_opcert.go, src/ledger/common/verify_config.go, streaming_decode.go)

    The checks of a block that need no chain state (VRF, operational
    certificate, KES, body size and hash) and those that do (limits,
    transactions, reference scripts, the pool), in the order of the code. The
    checks against state are those of Conway blocks; the VRF, the KES, the
    transaction rules and the size of reference scripts are the components of
    this library. *)

From S2P Require Import Prelude Cborwalk Preflight Kes Vrf Eligibility Leader Header Scripts ShelleyRules Params BlockState Conway ConwayLedger Fees.
#[local] Open Scope Z_scope.

(** ** Hexadecimal text *)

Definition fromHexChar (c : Z) : option Z :=
  if (48 <=? c) && (c <=? 57) then Some (c - 48)
  else if (97 <=? c) && (c <=? 102) then Some (c - 87)
  else if (65 <=? c) && (c <=? 70) then Some (c - 55)
  else None.

Definition hexChar (d : Z) : Z := if d <? 10 then 48 + d else 87 + d.

Fixpoint DecodeString (s : bytes) : option bytes :=
  match s with
  | [] => Some []
  | a :: b :: s => x ← fromHexChar a; y ← fromHexChar b; r ← DecodeString s; Some (16 * x + y :: r)
  | _ => None
  end.

Fixpoint EncodeToString (b : bytes) : bytes :=
  match b with [] => [] | x :: b => hexChar (x / 16) :: hexChar (x mod 16) :: EncodeToString b end.

(** ** Headers *)

Record VrfResult := mkVrfResult { vrOutput : bytes; vrProof : bytes }.

Record ShelleyBlockHeaderBody := mkShelleyBody {
  shBlockNumber : Z;
  shSlot : Z;
  shPrevHash : bytes;
  shIssuerVkey : bytes;
  shVrfKey : bytes;
  shNonceVrf : VrfResult;
  shLeaderVrf : VrfResult;
  shBlockBodySize : Z;
  shBlockBodyHash : bytes;
  shOpCertHotVkey : bytes;
  shOpCertSequenceNumber : Z;
  shOpCertKesPeriod : Z;
  shOpCertSignature : bytes;
  shProtoVersion : Z * Z;
  shCbor : bytes                          (* the stored encoding *)
}.

Record BabbageOpCert := mkBabbageOpCert {
  boHotVkey : bytes;
  boSequenceNumber : Z;
  boKesPeriod : Z;
  boSignature : bytes
}.

Record BabbageBlockHeaderBody := mkBabbageBody {
  baBlockNumber : Z;
  baSlot : Z;
  baPrevHash : bytes;
  baIssuerVkey : bytes;
  baVrfKey : bytes;
  baVrfResult : VrfResult;
  baBlockBodySize : Z;
  baBlockBodyHash : bytes;
  baOpCert : BabbageOpCert;
  baProtoVersion : Z * Z;
  baCbor : bytes
}.

Inductive shelleyFamily := EraShelley | EraAllegra | EraMary | EraAlonzo.
Inductive babbageFamily := EraBabbage | EraConway | EraDijkstra.

Inductive BlockHeader :=
| ShelleyBlockHeader (era : shelleyFamily) (body : ShelleyBlockHeaderBody) (signature cbor : bytes)
| BabbageBlockHeader (era : babbageFamily) (body : BabbageBlockHeaderBody) (signature cbor : bytes)
| ByronMainBlockHeader (slot number : Z)
| ByronEpochBoundaryBlockHeader (slot number : Z).

Definition SlotNumber (h : BlockHeader) : Z :=
  match h with
  | ShelleyBlockHeader _ b _ _ => shSlot b
  | BabbageBlockHeader _ b _ _ => baSlot b
  | ByronMainBlockHeader slot _ | ByronEpochBoundaryBlockHeader slot _ => slot
  end.

Definition BlockNumberOf (h : BlockHeader) : Z :=
  match h with
  | ShelleyBlockHeader _ b _ _ => shBlockNumber b
  | BabbageBlockHeader _ b _ _ => baBlockNumber b
  | ByronMainBlockHeader _ n | ByronEpochBoundaryBlockHeader _ n => n
  end.

(** [eraOrder]. *)
Definition eraOrder (h : BlockHeader) : Z :=
  match h with
  | ByronMainBlockHeader _ _ | ByronEpochBoundaryBlockHeader _ _ => 0
  | ShelleyBlockHeader EraShelley _ _ _ => 1
  | ShelleyBlockHeader EraAllegra _ _ _ => 2
  | ShelleyBlockHeader EraMary _ _ _ => 3
  | ShelleyBlockHeader EraAlonzo _ _ _ => 4
  | BabbageBlockHeader EraBabbage _ _ _ => 5
  | BabbageBlockHeader EraConway _ _ _ => 6
  | BabbageBlockHeader EraDijkstra _ _ _ => 7
  end.

Definition isByron (h : BlockHeader) : bool :=
  match h with ByronMainBlockHeader _ _ | ByronEpochBoundaryBlockHeader _ _ => true | _ => false end.

Definition BlockBodySize (h : BlockHeader) : Z :=
  match h with ShelleyBlockHeader _ b _ _ => shBlockBodySize b | BabbageBlockHeader _ b _ _ => baBlockBodySize b | _ => 0 end.

Definition BlockBodyHash (h : BlockHeader) : bytes :=
  match h with ShelleyBlockHeader _ b _ _ => shBlockBodyHash b | BabbageBlockHeader _ b _ _ => baBlockBodyHash b | _ => [] end.

Definition headerCbor (h : BlockHeader) : bytes :=
  match h with ShelleyBlockHeader _ _ _ c | BabbageBlockHeader _ _ _ c => c | _ => [] end.

Inductive opCertError :=
| OpCertKesVkeySize | OpCertColdSignatureSize | OpCertColdVkeySize | OpCertColdSignatureInvalid
| ZeroSlotsPerKesPeriod | ZeroMaxKesEvolutions | OpCertInFuture (period current : Z) | OpCertExpired (t max : Z)
| OpCertColdSkeySize | KesSignatureLength (n : Z).

Inductive bodyHashError := BodyHashUndecodable | BodyHashStructure (expected actual : Z) | BodyHashMismatch.

Inductive blockCborError := BlockArrayHeader | BlockComponentCount (n : Z) | BlockArrayUnterminated | BlockArrayItem | BlockArrayTrailing.

Inductive verifyBlockError :=
| InvalidEta0 | UnsupportedHeader | SlotTooLarge | Eta0Size | VrfInputInvalid (e : vrfError)
| VrfVerificationFailed (e : vrfError) | VrfOutputMismatch | NonceVrfFailed (e : option vrfError)
| HeaderBodyCborMissing | ColdSignatureInvalid (e : opCertError) | MaxKesEvolutionsRequired | KesPeriodInvalid (e : opCertError)
| KesVerificationFailed (e : opCertError) | KesSignatureInvalid
| BlockCborRequired | BlockBodySizeFailed (e : blockCborError) | BlockBodySizeMismatch (actual declared : Z) | BlockBodyHashFailed (e : bodyHashError)
| ByronBodyProofFailed
| BlockParametersRequired | BlockExUnitsSum | BlockExUnitsTooBig (total max : ExUnits) | BlockHeaderSizeTooBig (size max : Z)
| BlockBodySizeTooBig (size max : Z)
| BlockConfigMissing | BlockTransactionFailed (index : Z) (e : verifyError) | BlockRefScriptsFailed (e : conwayError) | BlockRefScriptsNoState
| BlockLedgerStateMissing | BlockPoolQueryFailed (e : blockError) | BlockPoolNotRegistered | BlockVrfKeyMismatch
| OtherEraFailed.

Abbreviation vbres A := (result verifyBlockError A).

Definition wrap {E A} (f : E -> verifyBlockError) (r : result E A) : vbres A := match r with Ok a => Ok a | Err e => Err (f e) end.

(** ** The parts of a header *)

Definition extractOriginalBodyCbor (h : BlockHeader) : vbres bytes :=
  match h with
  | ShelleyBlockHeader _ b _ _ => Ok (shCbor b)
  | BabbageBlockHeader _ b _ _ => Ok (baCbor b)
  | _ => Err UnsupportedHeader
  end.

(** The issuer's key and the VRF key. *)
Definition extractHeaderFields (h : BlockHeader) : vbres (bytes * bytes) :=
  match h with
  | ShelleyBlockHeader _ b _ _ => Ok (shIssuerVkey b, shVrfKey b)
  | BabbageBlockHeader _ b _ _ => Ok (baIssuerVkey b, baVrfKey b)
  | _ => Err UnsupportedHeader
  end.

Record OpCert := mkOC { KesVkey : bytes; IssueNumber : Z; OcKesPeriod : Z; ColdSignature : bytes }.

Definition shelleyHeaderOpCert (b : ShelleyBlockHeaderBody) : OpCert :=
  mkOC (shOpCertHotVkey b) (shOpCertSequenceNumber b) (shOpCertKesPeriod b) (shOpCertSignature b).

Definition babbageHeaderOpCert (oc : BabbageOpCert) : OpCert :=
  mkOC (boHotVkey oc) (boSequenceNumber oc) (boKesPeriod oc) (boSignature oc).

(** Byron headers have none. *)
Definition ExtractOpCertFromHeader (h : BlockHeader) : option OpCert :=
  match h with
  | ShelleyBlockHeader _ b _ _ => Some (shelleyHeaderOpCert b)
  | BabbageBlockHeader _ b _ _ => Some (babbageHeaderOpCert (baOpCert b))
  | _ => None
  end.

(** The signature, the hot key and the period of the certificate. *)
Definition ExtractKesFields (h : BlockHeader) : vbres (bytes * bytes * Z) :=
  match h with
  | ShelleyBlockHeader _ b sig _ => Ok (sig, shOpCertHotVkey b, shOpCertKesPeriod b)
  | BabbageBlockHeader _ b sig _ => Ok (sig, boHotVkey (baOpCert b), boKesPeriod (baOpCert b))
  | _ => Err UnsupportedHeader
  end.

(** The leader's certificate, that of the nonce (TPraos only) and the key. *)
Definition headerVrf (h : BlockHeader) : vbres (VrfResult * option VrfResult * bytes) :=
  match h with
  | ShelleyBlockHeader _ b _ _ => Ok (shLeaderVrf b, Some (shNonceVrf b), shVrfKey b)
  | BabbageBlockHeader _ b _ _ => Ok (baVrfResult b, None, baVrfKey b)
  | _ => Err UnsupportedHeader
  end.

(** ** The operational certificate and the KES signature *)

Definition ValidateKesPeriod (opCertKesPeriod currentSlot slotsPerKesPeriod maxKesEvolutions : Z) : result opCertError Z :=
  if slotsPerKesPeriod =? 0 then Err ZeroSlotsPerKesPeriod
  else if maxKesEvolutions =? 0 then Err ZeroMaxKesEvolutions
  else
    let currentKesPeriod := currentSlot / slotsPerKesPeriod in
    if currentKesPeriod <? opCertKesPeriod then Err (OpCertInFuture opCertKesPeriod currentKesPeriod)
    else
      let evolutionPeriod := currentKesPeriod - opCertKesPeriod in
      if maxKesEvolutions <=? evolutionPeriod then Err (OpCertExpired evolutionPeriod maxKesEvolutions) else Ok evolutionPeriod.

(** The items of the block's array: the length of the next well-formed item
    ([StreamDecoder.Skip]), and the array as [cbor.Decode] gives it. *)
Class CborSkip := { SkipItem : bytes -> option nat }.
Class CborRaw := { DecodeRaw : bytes -> option (list bytes) }.

(** [ed25519.Sign] with a private key of 64 bytes. *)
Class ColdSigner := { edSignKey : bytes -> bytes -> bytes }.

Section Opcert.
Context `{KesCrypto} `{ColdSigner}.

Definition VerifyOpCertSignature (oc : OpCert) (coldVkey : bytes) : result opCertError unit :=
  if negb (length (KesVkey oc) =? PublicKeySize)%nat then Err OpCertKesVkeySize
  else if negb (length (ColdSignature oc) =? 64)%nat then Err OpCertColdSignatureSize
  else if negb (length coldVkey =? 32)%nat then Err OpCertColdVkeySize
  else
    let signable := OpCertSignableBytes (KesVkey oc) (IssueNumber oc) (OcKesPeriod oc) in
    if edVerify coldVkey signable (ColdSignature oc) then Ok () else Err OpCertColdSignatureInvalid.

Definition ValidateOpCert (oc : OpCert) (coldVkey : bytes) (currentSlot slotsPerKesPeriod maxKesEvolutions : Z) : result opCertError Z :=
  _ ← VerifyOpCertSignature oc coldVkey;
  ValidateKesPeriod (OcKesPeriod oc) currentSlot slotsPerKesPeriod maxKesEvolutions.

Definition CreateOpCert (kesVkey : bytes) (issueNumber period : Z) (coldSkey : bytes) : result opCertError OpCert :=
  if negb (length kesVkey =? PublicKeySize)%nat then Err OpCertKesVkeySize else
  let signable := OpCertSignableBytes kesVkey issueNumber period in
  if (length coldSkey =? 32)%nat then Ok (mkOC kesVkey issueNumber period (edSign coldSkey signable))
  else if (length coldSkey =? 64)%nat then Ok (mkOC kesVkey issueNumber period (edSignKey coldSkey signable))
  else Err OpCertColdSkeySize.

Definition VerifyKesComponents (bodyCbor signature hotVkey : bytes) (period slot slotsPerKesPeriod : Z) : result opCertError bool :=
  if slotsPerKesPeriod =? 0 then Err ZeroSlotsPerKesPeriod
  else if negb (blen signature =? CardanoKesSignatureSize) then Err (KesSignatureLength (blen signature))
  else
    let currentKesPeriod := slot / slotsPerKesPeriod in
    if currentKesPeriod <? period then Ok false
    else Ok (VerifySignedKES hotVkey (currentKesPeriod - period) bodyCbor signature).

Definition VerifyKes (h : BlockHeader) (slotsPerKesPeriod : Z) : vbres bool :=
  bodyCbor ← extractOriginalBodyCbor h;
  if blen bodyCbor =? 0 then Err HeaderBodyCborMissing else
  '(signature, hotVkey, period) ← ExtractKesFields h;
  wrap KesVerificationFailed (VerifyKesComponents bodyCbor signature hotVkey period (SlotNumber h) slotsPerKesPeriod).
End Opcert.

(** ** The encoding of a block *)

Definition minBlockComponents : Z := 2.
Definition maxBlockComponents : nat := 5.

Section Encoding.
Context `{KesCrypto} `{CborSkip} `{CborRaw}.

(** The loop of [decodeBlockArray]; [room] is what is left of the limit. *)
Fixpoint blockComponents (room : nat) (data : bytes) (position : nat) (indefinite : bool) (count : Z) (components : list bytes)
    : result blockCborError (list bytes * nat) :=
  if negb (indefinite || (blen components <? count)) then Ok (components, position)
  else if (length data <=? position)%nat then Err BlockArrayUnterminated
  else if indefinite && (byte_at data position =? 255) then Ok (components, (position + 1)%nat)
  else match room with
       | O => Err (BlockComponentCount (blen components + 1))
       | S room =>
         match SkipItem (drop position data) with
         | None => Err BlockArrayItem
         | Some n => blockComponents room data (position + n) indefinite count (components ++ [take n (drop position data)])
         end
       end.

Definition decodeBlockArrayBytes (data : bytes) : result blockCborError (list bytes) :=
  let '(componentCount, headerSize, indefinite) := ArrayInfo data in
  if componentCount <? 0 then Err BlockArrayHeader
  else if negb indefinite && ((componentCount <? minBlockComponents) || (Z.of_nat maxBlockComponents <? componentCount))
  then Err (BlockComponentCount componentCount)
  else
    '(components, position) ← blockComponents maxBlockComponents data headerSize indefinite componentCount [];
    if blen components <? minBlockComponents then Err (BlockComponentCount (blen components))
    else if negb (position =? length data)%nat then Err BlockArrayTrailing
    else Ok components.

Definition BlockBodySizeFromCbor (rawCbor : bytes) : result blockCborError Z :=
  raw ← decodeBlockArrayBytes rawCbor;
  Ok (foldl (fun size item => u64 (size + blen item)) 0 (tail raw)).

Definition ValidateBlockBodyHash (data expectedBodyHash : bytes) (minRawLength : nat) : result bodyHashError unit :=
  match DecodeRaw data with
  | None => Err BodyHashUndecodable
  | Some raw =>
    if (length raw <? minRawLength)%nat then Err (BodyHashStructure (Z.of_nat minRawLength) (blen raw)) else
    let bodyHashes := concat (blake2b <$> take (minRawLength - 1) (tail raw)) in
    if bool_decide (blake2b bodyHashes = expectedBodyHash) then Ok () else Err BodyHashMismatch
  end.

Definition validateDijkstraBlockBodyHash (rawCbor expectedBodyHash : bytes) : result bodyHashError unit :=
  match DecodeRaw rawCbor with
  | None => Err BodyHashUndecodable
  | Some [_; body] => if bool_decide (blake2b body = expectedBodyHash) then Ok () else Err BodyHashMismatch
  | Some raw => Err (BodyHashStructure 2 (blen raw))
  end.

(** The signed size and hash of the body. *)
Definition bodyIntegrity (h : BlockHeader) (rawCbor : bytes) : vbres unit :=
  if blen rawCbor =? 0 then Err BlockCborRequired else
  bodySize ← wrap BlockBodySizeFailed (BlockBodySizeFromCbor rawCbor);
  if negb (bodySize =? BlockBodySize h) then Err (BlockBodySizeMismatch bodySize (BlockBodySize h)) else
  wrap BlockBodyHashFailed
    (if eraOrder h =? 7 then validateDijkstraBlockBodyHash rawCbor (BlockBodyHash h)
     else ValidateBlockBodyHash rawCbor (BlockBodyHash h) (if 4 <=? eraOrder h then 5 else 4)).
End Encoding.

(** ** The type of a block by the shape of its header *)

Definition HeaderBodyLengthShelleyLike : Z := 15.
Definition HeaderBodyLengthBabbageLike : Z := 10.
Definition HeaderBodyLengthDijkstraLeiosLike : Z := 12.
Definition MinProtocolVersionDijkstra : Z := 12.
Definition BlockTypeDijkstra : Z := 8.

#[local] Set Warnings "-register-all".

(** A decoded value, as far as the code looks at it. *)
Inductive anyValue := AnyUint (n : Z) | AnyList (l : list anyValue) | AnyOther.

Inductive blockTypeError :=
| HeaderUndecodable | HeaderStructure | HeaderBodyInvalid | ProtoVersionShort | ProtoVersionInvalid | ProtoMajorInvalid
| AmbiguousBlockType (length major : Z) | UnknownProtoMajor (major : Z) | UnknownHeaderLength (length : Z).

Definition uint64Of (v : option anyValue) : result blockTypeError Z :=
  match v with Some (AnyUint n) => Ok n | _ => Err ProtoMajorInvalid end.

Definition praosHeaderProtoMajor (body : list anyValue) : result blockTypeError Z :=
  if blen body <=? 9 then Err ProtoVersionShort else
  match body !! 9%nat with
  | Some (AnyList (major :: _)) => uint64Of (Some major)
  | _ => Err ProtoVersionInvalid
  end.

Definition DetermineBlockType (header : option anyValue) : result blockTypeError Z :=
  match header with
  | None => Err HeaderUndecodable
  | Some (AnyList [AnyList body; _]) =>
    let lenBody := blen body in
    if lenBody =? HeaderBodyLengthShelleyLike then
      protoMajor ← uint64Of (body !! 13%nat);
      Err (AmbiguousBlockType lenBody protoMajor)
    else if lenBody =? HeaderBodyLengthBabbageLike then
      protoMajor ← praosHeaderProtoMajor body;
      Err (AmbiguousBlockType lenBody protoMajor)
    else if lenBody =? HeaderBodyLengthDijkstraLeiosLike then
      protoMajor ← praosHeaderProtoMajor body;
      if (protoMajor <? MinProtocolVersionDijkstra) || (4294967295 <? protoMajor) then Err (UnknownProtoMajor protoMajor) else Ok BlockTypeDijkstra
    else Err (UnknownHeaderLength lenBody)
  | Some (AnyList [_; _]) => Err HeaderBodyInvalid
  | Some _ => Err HeaderStructure
  end.

(** Only the shape of Dijkstra names an era, whatever later version its producer
    announces. *)
Lemma block_type_exact header t : DetermineBlockType header = Ok t <->
  t = BlockTypeDijkstra /\ exists body sig major rest, header = Some (AnyList [AnyList body; sig]) /\ blen body = 12 /\
    body !! 9%nat = Some (AnyList (AnyUint major :: rest)) /\ 12 <= major <= 4294967295.
Proof.
  unfold DetermineBlockType, HeaderBodyLengthShelleyLike, HeaderBodyLengthBabbageLike, HeaderBodyLengthDijkstraLeiosLike, MinProtocolVersionDijkstra. split.
  - destruct header as [[|[|[|body|] [|sig [|? ?]]]|]|]; try done. destruct (Z.eqb_spec (blen body) 15); [by intros (? & _ & ?)%bind_Ok|].
    destruct (Z.eqb_spec (blen body) 10); [by intros (? & _ & ?)%bind_Ok|]. destruct (Z.eqb_spec (blen body) 12) as [Hl|]; [|done].
    intros (major & Em & Q)%bind_Ok. unfold praosHeaderProtoMajor in Em. destruct (blen body <=? 9); [done|].
    destruct (body !! 9%nat) as [[|[|[m| |] rest]|]|] eqn:E9; try done. injection Em as ->.
    destruct (Z.ltb_spec major 12), (Z.ltb_spec 4294967295 major); try done. injection Q as <-. split; [done|]. exists body, sig, major, rest. done.
  - intros (-> & body & sig & major & rest & -> & Hl & E9 & Hm). rewrite Hl. cbn [Z.eqb Pos.eqb]. unfold praosHeaderProtoMajor. rewrite Hl, E9. cbn [Z.leb Z.compare Pos.compare Pos.compare_cont uint64Of mbind result_bind].
    destruct (Z.ltb_spec major 12), (Z.ltb_spec 4294967295 major); (done || lia).
Qed.

(** ** The block *)

Record Block := mkBlock { blkHeader : BlockHeader; blkCbor : bytes; blkTransactions : list ConwayTransaction }.

Record VerifyConfig := mkVerifyConfig {
  SkipBodyHashValidation : bool;
  SkipTransactionValidation : bool;
  SkipStakePoolValidation : bool;
  SkipBlockLimitsValidation : bool;
  MaxKesEvolutions : Z;
  SkipKesEvolutionsValidation : bool;
  cfgLedgerState : option ConwayState;
  cfgProtocolParameters : option ConwayProtocolParameters
}.

(** The units of all redeemers of the block, or an overflow or a negative. *)
Fixpoint sumExUnits (units : list ExUnits) (total : ExUnits) : option ExUnits :=
  match units with
  | [] => Some total
  | u :: units =>
    if (Memory u <? 0) || (Steps u <? 0) then None else
    mem ← AddInt64Checked (Memory total) (Memory u);
    steps ← AddInt64Checked (Steps total) (Steps u);
    sumExUnits units (mkExUnits mem steps)
  end.

Definition sumBlockExUnits (txs : list ConwayTransaction) : option ExUnits := sumExUnits (txs ≫= unitsOf) (mkExUnits 0 0).

Section Verify.
Context `{KesCrypto} `{VrfCrypto} `{PoolHash} `{CborSkip} `{CborRaw} (sv : ScriptView) (other : RuleId -> Rule).
(** The body proof of a Byron block, and the checks against state of the eras
    other than Conway. *)
Context (byronBodyProof : Block -> bool) (otherEraState : Block -> VerifyConfig -> vbres unit).

Definition verifyNonceVrf (result : VrfResult) (vrfKey : bytes) (slot : Z) (eta0 : bytes) : vbres unit :=
  match MkSeedTPraos slot eta0 SeedEta with
  | Err e => Err (NonceVrfFailed (Some e))
  | Ok message =>
    match VrfVerify vrfKey (vrProof result) (vrOutput result) message with
    | Err e => Err (NonceVrfFailed (Some e))
    | Ok false => Err (NonceVrfFailed None)
    | Ok true => Ok ()
    end
  end.

(** The checks of the VRF, of the operational certificate and of the KES
    signature; the result is the VRF output of the leader. *)
Definition verifyHeaderVrf (h : BlockHeader) (eta0 : bytes) : vbres bytes :=
  let slot := SlotNumber h in
  '(vrfResult, nonceVrfResult, vrfKey) ← headerVrf h;
  if MaxInt64 <? slot then Err SlotTooLarge
  else if negb (blen eta0 =? 32) then Err Eta0Size
  else
    vrfMsg ← wrap VrfInputInvalid (match nonceVrfResult with Some _ => MkSeedTPraos slot eta0 SeedL | None => MkInputVrf slot eta0 end);
    vrfValid ← wrap VrfVerificationFailed (VrfVerify vrfKey (vrProof vrfResult) (vrOutput vrfResult) vrfMsg);
    if negb vrfValid then Err VrfOutputMismatch else
    _ ← match nonceVrfResult with Some n => verifyNonceVrf n vrfKey slot eta0 | None => Ok () end;
    Ok (vrOutput vrfResult).

Definition verifyHeaderKes (h : BlockHeader) (slotsPerKesPeriod : Z) (config : VerifyConfig) (localOnly : bool) : vbres unit :=
  bodyCbor ← extractOriginalBodyCbor h;
  if blen bodyCbor =? 0 then Err HeaderBodyCborMissing else
  _ ← match ExtractOpCertFromHeader h with
      | Some opCert =>
        '(issuerVkey, _) ← extractHeaderFields h;
        wrap ColdSignatureInvalid (VerifyOpCertSignature opCert issuerVkey)
      | None => Ok ()
      end;
  '(signature, hotVkey, period) ← ExtractKesFields h;
  _ ← (if negb localOnly && negb (SkipKesEvolutionsValidation config) then
         if MaxKesEvolutions config =? 0 then Err MaxKesEvolutionsRequired
         else wrap KesPeriodInvalid (ValidateKesPeriod period (SlotNumber h) slotsPerKesPeriod (MaxKesEvolutions config))
       else Ok 0);
  kesValid ← wrap KesVerificationFailed (VerifyKesComponents bodyCbor signature hotVkey period (SlotNumber h) slotsPerKesPeriod);
  if kesValid : bool then Ok () else Err KesSignatureInvalid.

(** *** Against state *)

(** [blockLevelLimits] and the checks on them. *)
Definition blockLimits (b : Block) (config : VerifyConfig) : vbres unit :=
  if SkipBlockLimitsValidation config then Ok () else
  let txs := blkTransactions b in
  let rawBlockCbor := blkCbor b in
  let hCbor := headerCbor (blkHeader b) in
  if negb ((0 <? blen txs) || (0 <? blen rawBlockCbor) || (0 <? blen hCbor)) then Ok () else
  match cfgProtocolParameters config with
  | None => Err BlockParametersRequired
  | Some pp =>
    _ ← (if 0 <? blen txs then
           match sumBlockExUnits txs with
           | None => Err BlockExUnitsSum
           | Some total =>
             if (Memory (pMaxBlockExUnits pp) <? Memory total) || (Steps (pMaxBlockExUnits pp) <? Steps total)
             then Err (BlockExUnitsTooBig total (pMaxBlockExUnits pp)) else Ok ()
           end
         else Ok ());
    _ ← (if (0 <? blen hCbor) && (0 <? pMaxBlockHeaderSize pp) && (pMaxBlockHeaderSize pp <? blen hCbor)
         then Err (BlockHeaderSizeTooBig (blen hCbor) (pMaxBlockHeaderSize pp)) else Ok ());
    if (0 <? blen rawBlockCbor) && (0 <? pMaxBlockBodySize pp) then
      bodySize ← wrap BlockBodySizeFailed (BlockBodySizeFromCbor rawBlockCbor);
      if pMaxBlockBodySize pp <? bodySize then Err (BlockBodySizeTooBig bodySize (pMaxBlockBodySize pp)) else Ok ()
    else Ok ()
  end.

Definition blockTransactions (b : Block) (config : VerifyConfig) : vbres unit :=
  if SkipTransactionValidation config then Ok () else
  match cfgLedgerState config, cfgProtocolParameters config with
  | Some ls, Some pp =>
    match verifyBlockTransactions (UtxoValidationRules sv other) (blkTransactions b) (SlotNumber (blkHeader b)) ls pp with
    | Err (idx, e) => Err (BlockTransactionFailed idx e)
    | Ok _ => Ok ()
    end
  | _, _ => Err BlockConfigMissing
  end.

(** Without a ledger state the inputs of the overlay resolve to errors, and
    before version 11 any input is one. *)
Definition blockRefScriptLimit (b : Block) (config : VerifyConfig) : vbres unit :=
  if SkipBlockLimitsValidation config || (blen (blkTransactions b) =? 0) then Ok () else
  match cfgProtocolParameters config with
  | None => Err BlockParametersRequired
  | Some pp =>
    match cfgLedgerState config with
    | Some ls => wrap BlockRefScriptsFailed (ValidateRefScriptSizePerBlock (blkTransactions b) pp (UtxoById (lstate ls)))
    | None =>
      if ProtocolVersionVanRossem <=? fst (pProtocolVersion pp)
      then wrap BlockRefScriptsFailed (ValidateRefScriptSizePerBlock (blkTransactions b) pp (fun _ => Err (ErrBase 0)))
      else if forallb (fun tx => bool_decide (consumedInputs tx = ∅)) (blkTransactions b) then Ok () else Err BlockRefScriptsNoState
    end
  end.

Definition blockPool (b : Block) (config : VerifyConfig) : vbres unit :=
  if SkipStakePoolValidation config then Ok () else
  match cfgLedgerState config with
  | None => Err BlockLedgerStateMissing
  | Some ls =>
    '(issuerVkey, blockVrfKey) ← extractHeaderFields (blkHeader b);
    '(poolCert, _) ← wrap BlockPoolQueryFailed (PoolCurrentState (lstate ls) (blake2b224 issuerVkey));
    match poolCert with
    | None => Err BlockPoolNotRegistered
    | Some cert => if bool_decide (RegVrfKeyHash cert = blake2b blockVrfKey) then Ok () else Err BlockVrfKeyMismatch
    end
  end.

(** The rules of a Dijkstra header and its certificates do not concern other
    blocks. *)
Definition VerifyBlockState (b : Block) (config : VerifyConfig) : vbres unit :=
  if negb (eraOrder (blkHeader b) =? 6) then otherEraState b config else
  _ ← blockLimits b config;
  _ ← blockTransactions b config;
  _ ← blockRefScriptLimit b config;
  blockPool b config.

Definition verifyByronBlockLocal (b : Block) : vbres (bytes * Z * Z) :=
  if byronBodyProof b then Ok ([], BlockNumberOf (blkHeader b), SlotNumber (blkHeader b)) else Err ByronBodyProofFailed.

(** *** All of it *)

Definition verifyBlock (b : Block) (eta0Hex : bytes) (slotsPerKesPeriod : Z) (config : VerifyConfig) (localOnly : bool)
    : vbres (bytes * Z * Z) :=
  let h := blkHeader b in
  if localOnly && isByron h then verifyByronBlockLocal b else
  match DecodeString eta0Hex with
  | None => Err InvalidEta0
  | Some eta0 =>
    output ← verifyHeaderVrf h eta0;
    _ ← verifyHeaderKes h slotsPerKesPeriod config localOnly;
    _ ← (if negb (isByron h) && negb (SkipBodyHashValidation config) then bodyIntegrity h (blkCbor b) else Ok ());
    _ ← (if localOnly then Ok () else VerifyBlockState b config);
    Ok (EncodeToString output, BlockNumberOf h, SlotNumber h)
  end.

Definition VerifyBlock (b : Block) (eta0Hex : bytes) (slotsPerKesPeriod : Z) (config : VerifyConfig) : vbres (bytes * Z * Z) :=
  verifyBlock b eta0Hex slotsPerKesPeriod config false.

Definition VerifyBlockLocal (b : Block) (eta0Hex : bytes) (slotsPerKesPeriod : Z) : vbres (bytes * Z * Z) :=
  verifyBlock b eta0Hex slotsPerKesPeriod (mkVerifyConfig false false false false 0 false None None) true.
End Verify.

(** ** Text and certificates *)

Lemma fromHexChar_hexChar d : 0 <= d < 16 -> fromHexChar (hexChar d) = Some d.
Proof.
  intros Hd. unfold hexChar, fromHexChar. destruct (Z.ltb_spec d 10).
  - rewrite (proj2 (Z.leb_le 48 (48 + d))), (proj2 (Z.leb_le (48 + d) 57)) by lia. cbn. f_equal. lia.
  - rewrite (proj2 (Z.leb_le 48 (87 + d))), (proj2 (Z.leb_gt (87 + d) 57)), (proj2 (Z.leb_le 97 (87 + d))), (proj2 (Z.leb_le (87 + d) 102)) by lia.
    cbn. f_equal. lia.
Qed.

Lemma hex_roundtrip b : wf_bytes b -> DecodeString (EncodeToString b) = Some b.
Proof.
  induction 1 as [|x b Hx _ IH]; cbn [EncodeToString DecodeString]; [done|].
  unfold is_byte in Hx. rewrite (fromHexChar_hexChar (x / 16)) by (split; [apply Z.div_pos; lia|apply Z.div_lt_upper_bound; lia]).
  rewrite fromHexChar_hexChar, IH by (apply Z.mod_pos_bound; lia). cbn. do 2 f_equal. symmetry. apply Z.div_mod. lia.
Qed.

(** A certificate that the cold key made is valid for its periods. *)
Lemma created_opcert_valid `{KesCryptoLaws} `{ColdSigner} kesVkey issue period seed slot spk max :
  length kesVkey = PublicKeySize -> length seed = 32%nat -> spk <> 0 -> 0 <= slot / spk - period < max ->
  exists oc, CreateOpCert kesVkey issue period seed = Ok oc /\ ValidateOpCert oc (edPublic seed) slot spk max = Ok (slot / spk - period).
Proof.
  intros Hk Hs Hn Hp. unfold CreateOpCert, ValidateOpCert, VerifyOpCertSignature, ValidateKesPeriod. rewrite Hk, Hs. cbn [Nat.eqb PublicKeySize negb].
  eexists. split; [done|]. cbn [KesVkey ColdSignature IssueNumber OcKesPeriod]. rewrite Hk, edSign_length, edPublic_length, edVerify_sign by done.
  cbn [Nat.eqb PublicKeySize negb mbind result_bind]. rewrite (proj2 (Z.eqb_neq spk 0) Hn), (proj2 (Z.eqb_neq max 0)), (proj2 (Z.ltb_ge _ period)), (proj2 (Z.leb_gt max _)) by lia. done.
Qed.

(** ** Two implementations of the header's checks *)

(** [SetBytes] of a point takes 32 bytes. *)
Class VrfKeyLaws `{VrfCrypto} : Prop := { setBytes_size b P : setBytes b = Some P -> length b = 32%nat }.

(** The input of the consensus validator for a header, with the fields of chain
    state from [i]. *)
Definition headerInput (h : BlockHeader) (eta0 : bytes) (i : ValidateHeaderInput) : ValidateHeaderInput :=
  match h with
  | ShelleyBlockHeader _ b sig _ =>
    mkInput (shSlot b) (shBlockNumber b) (shPrevHash b) (shIssuerVkey b) (shVrfKey b) (vrProof (shLeaderVrf b)) (vrOutput (shLeaderVrf b)) sig
      (shCbor b) (vrProof (shNonceVrf b)) (vrOutput (shNonceVrf b)) (shOpCertHotVkey b) (shOpCertSequenceNumber b) (shOpCertKesPeriod b)
      (shOpCertSignature b) (inOpCertCounterState i) (inPrevSlot i) (inPrevBlockNumber i) (inPrevHeaderHash i) eta0 (inPoolStake i)
      (inTotalStake i) (inRegisteredVrfKeyHash i)
  | BabbageBlockHeader _ b sig _ =>
    let oc := baOpCert b in
    mkInput (baSlot b) (baBlockNumber b) (baPrevHash b) (baIssuerVkey b) (baVrfKey b) (vrProof (baVrfResult b)) (vrOutput (baVrfResult b)) sig
      (baCbor b) [] [] (boHotVkey oc) (boSequenceNumber oc) (boKesPeriod oc) (boSignature oc) (inOpCertCounterState i) (inPrevSlot i)
      (inPrevBlockNumber i) (inPrevHeaderHash i) eta0 (inPoolStake i) (inTotalStake i) (inRegisteredVrfKeyHash i)
  | _ => i
  end.

Definition modeOf (h : BlockHeader) : Z := match h with ShelleyBlockHeader _ _ _ _ => ConsensusModeTPraos | _ => ConsensusModeCPraos end.

Section Agreement.
Context `{KesCrypto} `{VrfCrypto} `{PoolHash} `{!KesCryptoLaws} `{!VrfLaws} `{!VrfKeyLaws}.
#[local] Set Default Proof Using "All".

Lemma verified_sizes pk proof output msg : VrfVerify pk proof output msg = Ok true -> length pk = VrfPublicKeySize /\ length proof = ProofSize.
Proof.
  unfold VrfVerify, VerifyAndHash. destruct (isCanonicalY pk); [|done]. cbn [negb].
  destruct (setBytes pk) as [Y|] eqn:E; [|done]. cbn [of_option mbind result_bind]. apply setBytes_size in E.
  destruct (pointEqual _ _); [done|]. unfold verify, decodeProofArrays.
  destruct (Nat.eqb_spec (length proof) ProofSize); [|done]. done.
Qed.

Lemma verifyHeaderVrf_iff v h eta0 i : isByron h = false -> validatorMode v = modeOf h -> 0 <= SlotNumber h <= MaxInt64 ->
  let j := headerInput h eta0 i in
  is_ok (verifyHeaderVrf h eta0) = true <->
  certified v j SeedL (inVrfProof j) (inVrfOutput j) /\
  (validatorMode v = ConsensusModeTPraos -> certified v j SeedEta (inNonceVrfProof j) (inNonceVrfOutput j)).
Proof.
  intros Hb Hm Hs j. unfold verifyHeaderVrf. rewrite (proj2 (Z.ltb_ge _ _) (proj2 Hs)). change 32 with (Z.of_nat 32). rewrite blen_eqb.
  assert (E64 : int64_of (SlotNumber h) = SlotNumber h) by (unfold int64_of; by rewrite (proj2 (Z.leb_le _ _) (proj2 Hs))).
  assert (Hu : 0 <= SlotNumber h <= MaxUint64) by (unfold MaxUint64, MaxInt64 in *; lia).
  assert (Ej : inSlot j = SlotNumber h /\ inEpochNonce j = eta0) by (by destruct h). destruct Ej as [Es En].
  destruct (Nat.eqb_spec (length eta0) 32) as [Hl|Hl]; cycle 1.
  { split; [|intros [[_ C _ _ _] _]; by rewrite En in C]. by destruct h. }
  destruct (certifiedInput_mk (SlotNumber h) eta0 SeedL Hu Hl (seed_length 1)) as [EC _].
  destruct (certifiedInput_mk (SlotNumber h) eta0 SeedL Hu Hl (seed_length 1)) as [_ ET].
  destruct (certifiedInput_mk (SlotNumber h) eta0 SeedEta Hu Hl (seed_length 0)) as [_ EN]. rewrite E64 in *.
  assert (C : forall seed proof output key, inVrfKey j = key ->
    certified v j seed proof output <-> VrfVerify key proof output (certifiedInput (modeOf h) (SlotNumber h) eta0 seed) = Ok true).
  { intros seed proof output key Ek. split; [intros [_ _ _ _ V]; by rewrite Hm, Es, En, Ek in V|]. intros V.
    destruct (verified_sizes _ _ _ _ V). split; rewrite ?Hm, ?Es, ?En, ?Ek; try done. destruct h; cbn; (by left) || (by right). }
  destruct h as [e b sig c|e b sig c|?|?]; try done; cbn [headerVrf mbind result_bind SlotNumber modeOf negb] in *.
  - rewrite (C SeedL _ _ _ eq_refl), (C SeedEta _ _ _ eq_refl), ET. cbn [wrap mbind result_bind]. unfold verifyNonceVrf. rewrite EN. rewrite Hm.
    cbn [j headerInput inVrfKey inVrfProof inVrfOutput inNonceVrfProof inNonceVrfOutput].
    destruct (VrfVerify (shVrfKey b) (vrProof (shLeaderVrf b)) _ _) as [[]|]; cbn [wrap mbind result_bind negb is_ok]; [|by split; [|intros [[=] _]]..].
    destruct (VrfVerify (shVrfKey b) (vrProof (shNonceVrf b)) _ _) as [[]|]; cbn [wrap mbind result_bind negb is_ok]; [done|by split; [|intros [_ X]; discriminate (X eq_refl)]..].
  - rewrite (C SeedL _ _ _ eq_refl), EC. cbn [wrap mbind result_bind].
    cbn [j headerInput inVrfKey inVrfProof inVrfOutput].
    destruct (VrfVerify (baVrfKey b) _ _ _) as [[]|]; cbn [wrap mbind result_bind negb is_ok]; rewrite Hm; [done|by split; [|intros [[=] _]]..].
Qed.

Lemma VerifyOpCertSignature_iff oc vkey : is_ok (VerifyOpCertSignature oc vkey) = true <->
  length (KesVkey oc) = 32%nat /\ length (ColdSignature oc) = 64%nat /\ length vkey = 32%nat /\
  edVerify vkey (OpCertSignableBytes (KesVkey oc) (IssueNumber oc) (OcKesPeriod oc)) (ColdSignature oc) = true.
Proof using Type.
  unfold VerifyOpCertSignature, PublicKeySize.
  destruct (Nat.eqb_spec (length (KesVkey oc)) 32), (Nat.eqb_spec (length (ColdSignature oc)) 64), (Nat.eqb_spec (length vkey) 32);
    cbn [negb is_ok]; try (split; [done|by intros (? & ? & ? & _)]).
  destruct (edVerify _ _ _); cbn; split; [done..|by intros (_ & _ & _ & ?)].
Qed.

Lemma ValidateKesPeriod_iff period slot spk max : is_ok (ValidateKesPeriod period slot spk max) = true <->
  spk <> 0 /\ 0 <= slot / spk - period < max.
Proof using Type.
  unfold ValidateKesPeriod. destruct (Z.eqb_spec spk 0); [cbn; intuition lia|]. destruct (Z.eqb_spec max 0); [cbn; intuition lia|].
  destruct (Z.ltb_spec (slot / spk) period); [cbn; intuition lia|]. destruct (Z.leb_spec max (slot / spk - period)); cbn; intuition lia.
Qed.

Lemma VerifyKesComponents_iff body sig vkey period slot spk : spk <> 0 -> 0 <= slot / spk - period ->
  VerifyKesComponents body sig vkey period slot spk = Ok true <->
  length sig = 448%nat /\ VerifySignedKES vkey (slot / spk - period) body sig = true.
Proof using Type.
  intros Hn Hp. unfold VerifyKesComponents. rewrite (proj2 (Z.eqb_neq spk 0) Hn). change CardanoKesSignatureSize with (Z.of_nat 448). rewrite blen_eqb.
  destruct (Nat.eqb_spec (length sig) 448); cbn [negb]; [|by split; [|intros [? _]]].
  rewrite (proj2 (Z.ltb_ge _ _)) by lia. split; [intros [= ->]; done|by intros [_ ->]].
Qed.

(** What the checks of the certificate and of the signature establish. *)
Definition kes_ok (h : BlockHeader) (oc : OpCert) (issuer body sig : bytes) (spk max : Z) : Prop :=
  body <> [] /\ spk <> 0 /\ 0 <= SlotNumber h / spk - OcKesPeriod oc < max /\
  (length (KesVkey oc) = 32%nat /\ length (ColdSignature oc) = 64%nat /\ length issuer = 32%nat /\
   edVerify issuer (OpCertSignableBytes (KesVkey oc) (IssueNumber oc) (OcKesPeriod oc)) (ColdSignature oc) = true) /\
  length sig = 448%nat /\ VerifySignedKES (KesVkey oc) (SlotNumber h / spk - OcKesPeriod oc) body sig = true.

Lemma verifyHeaderKes_iff h oc issuer key body sig spk config :
  ExtractOpCertFromHeader h = Some oc -> extractHeaderFields h = Ok (issuer, key) -> extractOriginalBodyCbor h = Ok body ->
  ExtractKesFields h = Ok (sig, KesVkey oc, OcKesPeriod oc) -> SkipKesEvolutionsValidation config = false ->
  is_ok (verifyHeaderKes h spk config false) = true <-> kes_ok h oc issuer body sig spk (MaxKesEvolutions config).
Proof using Type.
  intros Eo Ef Eb Ek Esk. unfold verifyHeaderKes, kes_ok. rewrite Eb, Eo, Ef, Ek, Esk. cbn [mbind result_bind negb andb]. rewrite blen_zero.
  case_bool_decide as Hb; [by split; [|intros [? _]]|]. rewrite <- VerifyOpCertSignature_iff.
  destruct (VerifyOpCertSignature oc issuer); cbn [wrap mbind result_bind is_ok]; [|by split; [|intros (_ & _ & _ & ? & _)]].
  destruct (Z.eqb_spec (MaxKesEvolutions config) 0) as [E|_]; cbn [mbind result_bind is_ok]; [split; [done|intros (_ & _ & ? & _); lia]|].
  pose proof (ValidateKesPeriod_iff (OcKesPeriod oc) (SlotNumber h) spk (MaxKesEvolutions config)) as P.
  destruct (ValidateKesPeriod _ _ _ _); cbn [wrap mbind result_bind is_ok] in *; [|split; [done|]; intros (_ & A & B & _); destruct P as [_ P]; discriminate (P (conj A B))].
  destruct P as [P _]. destruct (P eq_refl) as [P1 P2]. pose proof (VerifyKesComponents_iff body sig (KesVkey oc) (OcKesPeriod oc) (SlotNumber h) spk P1 (proj1 P2)) as V.
  destruct (VerifyKesComponents _ _ _ _ _ _) as [[]|]; cbn [wrap mbind result_bind is_ok].
  - split; [intros _; exact (conj Hb (conj P1 (conj P2 (conj eq_refl (proj1 V eq_refl)))))|done].
  - split; [done|]. intros (_ & _ & _ & _ & X). apply V in X. discriminate X.
  - split; [done|]. intros (_ & _ & _ & _ & X). apply V in X. discriminate X.
Qed.

(** The slot is read as [int64] in one and refused above its maximum in the other. *)
Lemma verifyHeaderVrf_slot h eta0 : isByron h = false -> MaxInt64 < SlotNumber h -> is_ok (verifyHeaderVrf h eta0) = false.
Proof using Type.
  intros Hb Hs. unfold verifyHeaderVrf. rewrite (proj2 (Z.ltb_lt _ _) Hs). by destruct h.
Qed.

(** C14. The checks of [VerifyBlock] on a header are those of the consensus
    validator but for the largest slots, for a header of any era since Shelley
    and the validator of its protocol. [VerifyBlock] accepts the VRF
    certificates exactly when the validator does and the slot fits [int64]: a
    larger slot is an error to it, while the validator converts it, turns it
    negative and goes on. The operational certificate, its period and the KES
    signature pass in one exactly when they pass in the other, at every slot. *)
Theorem header_checks_agree v h eta0 i config :
  isByron h = false -> validatorMode v = modeOf h -> 0 <= SlotNumber h <= MaxUint64 ->
  SkipKesEvolutionsValidation config = false -> MaxKesEvolutions config = maxKESEvolutions v ->
  let j := headerInput h eta0 i in
  (is_ok (verifyHeaderVrf h eta0) = true <->
   SlotNumber h <= MaxInt64 /\ is_ok (validateVRFProof v j) = true /\ is_ok (validateNonceVRFProof v j) = true) /\
  (is_ok (verifyHeaderKes h (slotsPerKESPeriod v) config false) = true <->
   is_ok (validateKESPeriod v j) = true /\ is_ok (validateKESSignature v j) = true /\ is_ok (validateOpCertSignature j) = true).
Proof.
  intros Hb Hm Hs Hk Em j. assert (Hu : 0 <= inSlot j <= MaxUint64).
  { assert (inSlot j = SlotNumber h) as -> by (by destruct h). done. }
  split.
  { destruct (Z.le_gt_cases (SlotNumber h) MaxInt64) as [L|G]; [|rewrite verifyHeaderVrf_slot by done; split; [done|lia]].
    rewrite vrfProof_iff, nonceProof_iff, (verifyHeaderVrf_iff v h eta0 i) by (done || lia). tauto. }
  assert (A : forall oc issuer key body sig, ExtractOpCertFromHeader h = Some oc -> extractHeaderFields h = Ok (issuer, key) ->
    extractOriginalBodyCbor h = Ok body -> ExtractKesFields h = Ok (sig, KesVkey oc, OcKesPeriod oc) ->
    inIssuerVkey j = issuer -> inHeaderBodyCbor j = body -> inKesSignature j = sig -> inSlot j = SlotNumber h -> inOpCertHotVkey j = KesVkey oc ->
    inOpCertSequenceNumber j = IssueNumber oc -> inOpCertKesPeriod j = OcKesPeriod oc -> inOpCertSignature j = ColdSignature oc ->
    is_ok (verifyHeaderKes h (slotsPerKESPeriod v) config false) = true <->
    is_ok (validateKESPeriod v j) = true /\ is_ok (validateKESSignature v j) = true /\ is_ok (validateOpCertSignature j) = true).
  { intros oc issuer key body sig E1 E2 E3 E4 F1 F2 F3 F4 F5 F6 F7 F8. rewrite (verifyHeaderKes_iff h oc issuer key body sig _ _ E1 E2 E3 E4 Hk), Em.
    rewrite kesPeriod_iff, opCertSignature_iff. unfold kes_ok, evolution in *. rewrite F1, F4, F5, F6, F7, F8.
    split.
    - intros (B & N & P & (K & S & I & V) & L & Q). split_and!; try done; try lia.
      apply kesSignature_iff; [done|unfold evolution; rewrite F4, F7; lia|]. unfold evolution. rewrite F2, F3, F4, F5, F7. done.
    - intros ([N P] & S & V). apply kesSignature_iff in S; [|done|unfold evolution; rewrite F4, F7; lia].
      unfold evolution in S. rewrite F2, F3, F4, F5, F7 in S. naive_solver. }
  destruct h; try done; by eapply A.
Qed.
End Agreement.

(** ** The body that a header commits to *)

(** What the code relies on of the decoder: an item is not empty and ends within
    the data, and the array decodes to the encodings of its items. *)
Class CborLaws `{CborSkip} `{CborRaw} : Prop := {
  skip_range b n : SkipItem b = Some n -> (0 < n <= length b)%nat;
  decode_raw data raw items : decodeBlockArrayBytes data = Ok items -> DecodeRaw data = Some raw -> raw = items
}.

Lemma ArrayInfo_range data count size indefinite : ArrayInfo data = (count, size, indefinite) -> 0 <= count -> (size <= length data)%nat.
Proof.
  unfold ArrayInfo, collectionInfo. destruct (decide (length data = 0%nat)); [intros [= <- <- <-]; lia|].
  repeat match goal with
  | |- context [if ?b && bool_decide ?P then _ else _] => destruct (b && bool_decide P) eqn:?
  | |- context [if ?b then _ else _] => destruct b eqn:?
  end; intros [= <- <- <-]; intros; try lia;
    repeat match goal with E : _ && bool_decide _ = true |- _ => apply andb_true_iff in E as [_ ?%bool_decide_eq_true] end; lia.
Qed.

Section Components.
Context `{CborSkip} `{CborRaw} `{!CborLaws}.
#[local] Set Default Proof Using "All".

(** The components are consecutive, and the rest is the break of an indefinite
    array. *)
Lemma blockComponents_split room data indefinite count : forall position comps items position',
  blockComponents room data position indefinite count comps = Ok (items, position') ->
  (position <= length data)%nat ->
  exists new close, items = comps ++ new /\ drop position data = concat new ++ close ++ drop position' data /\
    (position' <= length data)%nat /\ close = (if indefinite then [255] else []) /\ (length new <= room)%nat.
Proof.
  induction room as [|room IH]; intros position comps items position' E Hp; cbn [blockComponents] in E.
  all: destruct (negb (indefinite || (blen comps <? count))) eqn:Ei.
  1, 3: injection E as <- <-; apply negb_true_iff, orb_false_iff in Ei as [-> _]; exists [], []; rewrite app_nil_r; split_and!; (done || cbn; lia).
  all: destruct (Nat.leb_spec (length data) position) as [|Lt]; [done|].
  all: destruct (indefinite && (byte_at data position =? 255)) eqn:Ef.
  1, 3: injection E as <- <-; apply andb_true_iff in Ef as [-> Ef%Z.eqb_eq]; exists [], [255]; rewrite app_nil_r; split_and!; try (done || cbn; lia);
    destruct (lookup_lt_is_Some_2 data position Lt) as [x Ex]; rewrite (drop_S data x position Ex), Nat.add_1_r; cbn;
    unfold byte_at in Ef; rewrite (nth_lookup_Some _ _ 0 _ Ex) in Ef; by rewrite Ef.
  - done.
  - destruct (SkipItem (drop position data)) as [n|] eqn:Es; [|done]. apply skip_range in Es as [Hn Hl]. rewrite length_drop in Hl.
    apply IH in E as (new & close & -> & Ed & Hq & Ec & Hr); [|lia]. exists (take n (drop position data) :: new), close.
    rewrite <- app_assoc. split_and!; try done; [|cbn; lia]. cbn [concat]. rewrite <- app_assoc, <- Ed, <- (take_drop n (drop position data)) at 1.
    by rewrite drop_drop.
Qed.

Lemma decodeBlockArray_split data items : decodeBlockArrayBytes data = Ok items ->
  exists head close, data = head ++ concat items ++ close /\ (2 <= length items <= 5)%nat.
Proof.
  unfold decodeBlockArrayBytes. destruct (ArrayInfo data) as [[count size] indefinite] eqn:Ea.
  destruct (Z.ltb_spec count 0) as [|Hc]; [done|]. destruct (negb indefinite && _); [done|].
  intros ([comps position] & Eb & Q)%bind_Ok. apply blockComponents_split in Eb as (new & close & -> & Ed & _ & _ & Hr); [|by eapply ArrayInfo_range].
  cbn [app] in *. unfold minBlockComponents, maxBlockComponents, blen in *. destruct (Z.ltb_spec (Z.of_nat (length new)) 2); [done|].
  destruct (Nat.eqb_spec position (length data)) as [->|]; [|done]. injection Q as <-. rewrite drop_all, app_nil_r in Ed.
  exists (take size data), close. rewrite <- Ed, take_drop. split; [done|]. lia.
Qed.

Lemma sizes_sum (l : list bytes) : forall size, 0 <= size -> size + blen (concat l) <= MaxUint64 ->
  foldl (fun size item => u64 (size + blen item)) size l = size + blen (concat l).
Proof.
  induction l as [|x l IH]; intros size Hz Hs; cbn [foldl concat] in *; [unfold blen; cbn; lia|].
  unfold blen in *. rewrite length_app, Nat2Z.inj_add in *. rewrite u64_small by lia. rewrite IH by lia. lia.
Qed.

Lemma BlockBodySize_exact data n : blen data <= MaxUint64 ->
  BlockBodySizeFromCbor data = Ok n <-> exists items, decodeBlockArrayBytes data = Ok items /\ n = blen (concat (tail items)).
Proof.
  intros Hd. assert (A : forall items, decodeBlockArrayBytes data = Ok items ->
    foldl (fun size item => u64 (size + blen item)) 0 (tail items) = blen (concat (tail items))).
  { intros items E. apply decodeBlockArray_split in E as (head & close & -> & _). rewrite sizes_sum; [done|done|].
    unfold blen in *. rewrite !length_app in Hd. destruct items as [|x items]; cbn [tail concat] in *; [cbn; lia|]. rewrite length_app in Hd. lia. }
  unfold BlockBodySizeFromCbor. split.
  - intros (items & E & [= <-])%bind_Ok. exists items. by rewrite A.
  - intros (items & E & ->). rewrite E. cbn [mbind result_bind]. by rewrite A.
Qed.
End Components.

(** Two different ones of the inputs have the same hash. *)
Definition hashCollision `{KesCrypto} (inputs : list bytes) : Prop :=
  exists x y : bytes, x ∈ inputs /\ y ∈ inputs /\ x <> y /\ blake2b x = blake2b y.

Lemma hashCollision_mono `{KesCrypto} inputs inputs' : (forall x, x ∈ inputs -> x ∈ inputs') -> hashCollision inputs -> hashCollision inputs'.
Proof. intros Hs (x & y & Hx & Hy & Hxy). exists x, y. auto. Qed.

Lemma blake2b_inj `{KesCrypto} (x y : bytes) inputs : x ∈ inputs -> y ∈ inputs -> blake2b x = blake2b y -> x = y \/ hashCollision inputs.
Proof. intros Hx Hy E. destruct (decide (x = y)); [by left|]. right. by exists x, y. Qed.

Lemma hashes_inj `{KesCryptoLaws} (l1 : list bytes) : forall l2, length l1 = length l2 ->
  concat (blake2b <$> l1) = concat (blake2b <$> l2) -> l1 = l2 \/ hashCollision (l1 ++ l2).
Proof.
  induction l1 as [|x l1 IH]; intros [|y l2] Hl E; try done; [by left|]. cbn [fmap list_fmap concat] in E.
  apply app_inj_1 in E as [E1 E2]; [|by rewrite !blake2b_length].
  apply (blake2b_inj x y (x :: l1 ++ y :: l2)) in E1 as [->|]; [|by right|set_solver..].
  destruct (IH l2) as [->|]; [by injection Hl|done|by left|]. right. eapply hashCollision_mono; [|done]. set_solver.
Qed.

(** The components that the hash of the header covers. *)
Definition commits `{KesCrypto} (h : BlockHeader) (items : list bytes) : Prop :=
  if eraOrder h =? 7 then exists header body, items = [header; body] /\ blake2b body = BlockBodyHash h
  else let n := (if 4 <=? eraOrder h then 5%nat else 4%nat) in
       (n <= length items)%nat /\ blake2b (concat (blake2b <$> take (n - 1) (tail items))) = BlockBodyHash h.

Section Bodies.
Context `{KesCrypto} `{CborSkip} `{CborRaw} `{!KesCryptoLaws} `{!CborLaws}.
#[local] Set Default Proof Using "All".

Lemma bodyHash_Ok data items hash n : DecodeRaw data = Some items -> ValidateBlockBodyHash data hash n = Ok () <->
  (n <= length items)%nat /\ blake2b (concat (blake2b <$> take (n - 1) (tail items))) = hash.
Proof.
  intros E. unfold ValidateBlockBodyHash. rewrite E. destruct (Nat.ltb_spec (length items) n); [split; [done|lia]|]. case_bool_decide; by split; [|intros [_ ?]].
Qed.

Lemma dijkstraHash_Ok data items hash : DecodeRaw data = Some items -> validateDijkstraBlockBodyHash data hash = Ok () <->
  exists header body, items = [header; body] /\ blake2b body = hash.
Proof.
  intros E. unfold validateDijkstraBlockBodyHash. rewrite E. destruct items as [|x [|y [|z l]]]; try by split; [|intros (? & ? & ? & _)].
  case_bool_decide; [split; [by exists x, y|done]|by split; [|intros (? & ? & [= -> ->] & ?)]].
Qed.

Lemma bodyIntegrity_Ok h data : blen data <= MaxUint64 ->
  bodyIntegrity h data = Ok () <->
  exists items, decodeBlockArrayBytes data = Ok items /\ DecodeRaw data = Some items /\ BlockBodySize h = blen (concat (tail items)) /\ commits h items.
Proof.
  intros Hd. unfold bodyIntegrity. destruct (Z.eqb_spec (blen data) 0) as [Z0|_].
  { split; [done|]. intros (items & E & _). destruct data; done. }
  split.
  - intros (n & En & Q)%bind_Ok. destruct (BlockBodySizeFromCbor data) as [m|] eqn:Eb; [|done]. injection En as ->.
    apply BlockBodySize_exact in Eb as (items & Ei & ->); [|done]. destruct (Z.eqb_spec (blen (concat (tail items))) (BlockBodySize h)) as [Es|]; [|done].
    cbn [negb] in Q. exists items. split; [done|].
    assert (Er : exists raw, DecodeRaw data = Some raw).
    { unfold validateDijkstraBlockBodyHash, ValidateBlockBodyHash in Q. destruct (DecodeRaw data) as [raw|]; [by exists raw|]. by destruct (eraOrder h =? 7). }
    destruct Er as [raw Er]. pose proof (decode_raw data raw items Ei Er) as ->. split; [done|]. split; [done|]. unfold commits.
    destruct (eraOrder h =? 7).
    + apply (dijkstraHash_Ok data); [done|]. by destruct (validateDijkstraBlockBodyHash data _) as [[]|].
    + apply (bodyHash_Ok data); [done|]. by destruct (ValidateBlockBodyHash data _ _) as [[]|].
  - intros (items & Ei & Er & Es & C). rewrite (proj2 (BlockBodySize_exact data (blen (concat (tail items))) Hd)) by eauto. cbn [wrap mbind result_bind].
    rewrite Es, Z.eqb_refl. cbn [negb]. unfold commits in C. destruct (eraOrder h =? 7).
    + by rewrite (proj2 (dijkstraHash_Ok data items _ Er) C).
    + by rewrite (proj2 (bodyHash_Ok data items _ _ Er) C).
Qed.

(** How many components after the header the body hash covers. *)
Definition hashedComponents (h : BlockHeader) : nat := if eraOrder h =? 7 then 1 else if 4 <=? eraOrder h then 4 else 3.

(** What the check of the body of a header hashes. *)
Definition hashInputs (h : BlockHeader) (items : list bytes) : list bytes :=
  let covered := take (hashedComponents h) (tail items) in
  if eraOrder h =? 7 then covered else concat (blake2b <$> covered) :: covered.

Lemma commits_unique h items1 items2 : commits h items1 -> commits h items2 ->
  take (hashedComponents h) (tail items1) = take (hashedComponents h) (tail items2) \/ hashCollision (hashInputs h items1 ++ hashInputs h items2).
Proof.
  unfold commits, hashInputs, hashedComponents. destruct (Z.eqb_spec (eraOrder h) 7) as [_|_].
  { intros (x1 & b1 & -> & E1) (x2 & b2 & -> & E2). cbn [tail take app].
    destruct (blake2b_inj b1 b2 [b1; b2]) as [->|]; [set_solver..|congruence|by left|by right]. }
  intros [L1 E1] [L2 E2]. set (k := (if 4 <=? eraOrder h then 4%nat else 3%nat)).
  assert (Ek : Nat.sub (if 4 <=? eraOrder h then 5%nat else 4%nat) 1 = k) by (unfold k; by destruct (4 <=? eraOrder h)%Z). rewrite Ek in E1, E2.
  assert (Hl : length (take k (tail items1)) = length (take k (tail items2))).
  { rewrite !length_take. unfold k. destruct items1, items2, (4 <=? eraOrder h)%Z; cbn [tail length] in *; lia. }
  clearbody k. set (c1 := take k (tail items1)) in *. set (c2 := take k (tail items2)) in *.
  destruct (blake2b_inj (concat (blake2b <$> c1)) (concat (blake2b <$> c2)) ((concat (blake2b <$> c1) :: c1) ++ concat (blake2b <$> c2) :: c2))
    as [E|]; [set_solver..|congruence| |by right].
  destruct (hashes_inj c1 c2 Hl E); [by left|right]. eapply hashCollision_mono; [|done]. set_solver.
Qed.

(** From Alonzo on, and in the blocks of four components before it, these are all
    the components. *)
Lemma commits_all h items : commits h items -> (length items <= 5)%nat -> 4 <= eraOrder h \/ length items = 4%nat ->
  take (hashedComponents h) (tail items) = tail items.
Proof.
  unfold commits, hashedComponents. intros C L Hc. destruct (Z.eqb_spec (eraOrder h) 7) as [_|_].
  { by destruct C as (x & b & -> & _). }
  destruct C as [Ln _]. apply take_ge. destruct items as [|x items]; cbn [tail length] in *; [lia|].
  destruct (Z.leb_spec 4 (eraOrder h)); [lia|]. destruct Hc; lia.
Qed.

(** Before Alonzo a fifth component counts for the size of the body alone: with
    another one of the same length the block passes as well. *)
Lemma fifth_component_unhashed h data1 data2 header bodies witnesses metadata fifth1 fifth2 :
  eraOrder h < 4 -> blen data1 <= MaxUint64 -> blen data2 <= MaxUint64 ->
  decodeBlockArrayBytes data1 = Ok [header; bodies; witnesses; metadata; fifth1] ->
  decodeBlockArrayBytes data2 = Ok [header; bodies; witnesses; metadata; fifth2] ->
  is_Some (DecodeRaw data2) -> length fifth1 = length fifth2 ->
  bodyIntegrity h data1 = Ok () -> bodyIntegrity h data2 = Ok ().
Proof.
  intros He L1 L2 D1 D2 [raw Er] El V. apply bodyIntegrity_Ok in V as (items & D & _ & S & C); [|done]. rewrite D1 in D. injection D as <-.
  apply bodyIntegrity_Ok; [done|]. pose proof (decode_raw _ _ _ D2 Er) as ->. eexists. split; [exact D2|]. split; [exact Er|]. split.
  - rewrite S. cbn [tail concat]. unfold blen. rewrite !length_app. cbn [length]. lia.
  - unfold commits in *. rewrite (proj2 (Z.eqb_neq _ 7)), (proj2 (Z.leb_gt 4 _)) in * by lia. exact C.
Qed.
End Bodies.

(** ** The execution units of a block *)

Definition unit_range (u : ExUnits) : Prop := Memory u <= Int64Max /\ Steps u <= Int64Max.

Lemma sumExUnits_Some units : Forall unit_range units -> forall total t, unit_ok total ->
  sumExUnits units total = Some t <->
  Forall unit_ok units /\ t = mkExUnits (Memory total + sum_by Memory units) (Steps total + sum_by Steps units) /\ unit_ok t.
Proof.
  induction 1 as [|u units [R1 R2] _ IH]; intros total t [T1 T2]; cbn [sumExUnits sum_by].
  - rewrite !Z.add_0_r. destruct total as [m s]. split; [intros [= <-]; by split_and!|by intros (_ & -> & _)].
  - rewrite Forall_cons. destruct (Z.ltb_spec (Memory u) 0) as [|N1]; [split; [done|intros ([[? _] _] & _); lia]|].
    destruct (Z.ltb_spec (Steps u) 0) as [|N2]; [split; [done|intros ([[_ ?] _] & _); lia]|]. cbn [orb].
    rewrite !AddInt64Checked_exact by done.
    pose proof (units_nonneg units) as P.
    destruct (Z.leb_spec (Memory total + Memory u) Int64Max) as [|]; cbn [mbind option_bind];
      [|split; [done|]; intros ([_ F] & -> & [X _]); cbn [Memory] in X; destruct (P F); lia].
    destruct (Z.leb_spec (Steps total + Steps u) Int64Max) as [|]; cbn [mbind option_bind];
      [|split; [done|]; intros ([_ F] & -> & [_ X]); cbn [Steps] in X; destruct (P F); lia].
    rewrite IH by (split; cbn; lia). cbn [Memory Steps]. rewrite !Z.add_assoc. split; [intros (F & -> & U)|intros ([_ F] & -> & U)]; split_and!; try done.
Qed.

Lemma blockUnits_Ok units max : Forall unit_range units -> unit_ok max ->
  match sumExUnits units (mkExUnits 0 0) with
  | None => Err BlockExUnitsSum
  | Some total => if (Memory max <? Memory total) || (Steps max <? Steps total) then Err (BlockExUnitsTooBig total max) else Ok ()
  end = Ok () <->
  Forall unit_ok units /\ sum_by Memory units <= Memory max /\ sum_by Steps units <= Steps max.
Proof.
  intros Hr [M1 M2]. assert (Z0 : unit_ok (mkExUnits 0 0)) by (split; cbn; unfold Int64Max; lia).
  pose proof (fun t => sumExUnits_Some units Hr (mkExUnits 0 0) t Z0) as S. cbn [Memory Steps] in S. split.
  - destruct (sumExUnits units _) as [t|] eqn:E; [|done]. destruct (proj1 (S t) eq_refl) as (F & -> & _). cbn [Memory Steps]. rewrite !Z.add_0_l.
    destruct (Z.ltb_spec (Memory max) (sum_by Memory units)), (Z.ltb_spec (Steps max) (sum_by Steps units)); done.
  - intros (F & B1 & B2). pose proof (units_nonneg units F) as P.
    rewrite (proj2 (S (mkExUnits (0 + sum_by Memory units) (0 + sum_by Steps units)))) by (split_and!; [done|done|split; cbn; lia]).
    cbn [Memory Steps]. rewrite !Z.add_0_l, (proj2 (Z.ltb_ge _ _) B1), (proj2 (Z.ltb_ge _ _) B2). done.
Qed.

Section Verified.
Context `{KesCrypto} `{VrfCrypto} `{PoolHash} `{CborSkip} `{CborRaw} `{!KesCryptoLaws} `{!CborLaws}.
Context (sv : ScriptView) (other : RuleId -> Rule) (byronBodyProof : Block -> bool) (otherEraState : Block -> VerifyConfig -> vbres unit).

Lemma local_body b eta0Hex spk r : isByron (blkHeader b) = false -> VerifyBlockLocal sv other byronBodyProof otherEraState b eta0Hex spk = Ok r ->
  bodyIntegrity (blkHeader b) (blkCbor b) = Ok ().
Proof.
  intros Hb. unfold VerifyBlockLocal, verifyBlock. rewrite Hb. cbn [andb negb SkipBodyHashValidation]. destruct (DecodeString eta0Hex) as [eta0|]; [|done].
  intros (output & _ & (? & _ & ([] & E & _)%bind_Ok)%bind_Ok)%bind_Ok. exact E.
Qed.

(** C13. What a header fixes of its body, for every era since Shelley. When two
    blocks with the same header both pass the local verification, from whichever
    nonces and however the array is framed, then, unless two of the inputs of
    Blake2b-256 in these checks collide, their bodies have the same size and the same bytes in
    the components that the era hashes: one in Dijkstra, four since Alonzo, three
    before. Since Alonzo, and before it for blocks of exactly four components,
    that is the whole body; a fifth component before Alonzo is not hashed and can
    differ. *)
Theorem verified_body_unique b1 b2 eta1 eta2 spk1 spk2 r1 r2 :
  blkHeader b1 = blkHeader b2 -> isByron (blkHeader b1) = false -> blen (blkCbor b1) <= MaxUint64 -> blen (blkCbor b2) <= MaxUint64 ->
  VerifyBlockLocal sv other byronBodyProof otherEraState b1 eta1 spk1 = Ok r1 ->
  VerifyBlockLocal sv other byronBodyProof otherEraState b2 eta2 spk2 = Ok r2 ->
  exists items1 items2, decodeBlockArrayBytes (blkCbor b1) = Ok items1 /\ decodeBlockArrayBytes (blkCbor b2) = Ok items2 /\
    (hashCollision (hashInputs (blkHeader b1) items1 ++ hashInputs (blkHeader b1) items2) \/
     blen (concat (tail items1)) = blen (concat (tail items2)) /\
     take (hashedComponents (blkHeader b1)) (tail items1) = take (hashedComponents (blkHeader b1)) (tail items2) /\
     (4 <= eraOrder (blkHeader b1) \/ (length items1 = 4 /\ length items2 = 4)%nat -> tail items1 = tail items2)).
Proof using All.
  intros Eh Hb L1 L2 V1%local_body V2%local_body; [|congruence|done].
  apply bodyIntegrity_Ok in V1 as (items1 & D1 & _ & S1 & C1), V2 as (items2 & D2 & _ & S2 & C2); [|done..].
  exists items1, items2. split_and!; [done..|]. rewrite <- Eh in C2, S2.
  destruct (commits_unique _ _ _ C1 C2) as [E|]; [right|by left]. split_and!; [congruence|done|]. intros Hc.
  apply decodeBlockArray_split in D1 as (? & ? & _ & ?), D2 as (? & ? & _ & ?).
  rewrite (commits_all _ _ C1), (commits_all _ _ C2) in E; [done|lia|tauto|lia|tauto].
Qed.

(** *** A block of Conway *)

(** What a block of Conway establishes in a ledger [L]. *)
Record block_accepted (body : BabbageBlockHeaderBody) (sig hcbor cbor : bytes) (txs : list ConwayTransaction) (eta0Hex : bytes)
    (spk max : Z) (ls : ConwayState) (L : CLedger) (pp : ConwayProtocolParameters) : Prop := {
  acc_slot : baSlot body <= MaxInt64;
  acc_vrf : exists eta0, DecodeString eta0Hex = Some eta0 /\ length eta0 = 32%nat /\
    VrfVerify (baVrfKey body) (vrProof (baVrfResult body)) (vrOutput (baVrfResult body)) (blake2b (be_encode 8 (baSlot body) ++ eta0)) = Ok true;
  acc_kes : kes_ok (BabbageBlockHeader EraConway body sig hcbor) (babbageHeaderOpCert (baOpCert body)) (baIssuerVkey body) (baCbor body) sig spk max;
  acc_body : exists items, decodeBlockArrayBytes cbor = Ok items /\ DecodeRaw cbor = Some items /\ length items = 5%nat /\
    baBlockBodySize body = blen (concat (tail items)) /\ baBlockBodyHash body = blake2b (concat (blake2b <$> tail items));
  acc_units : Forall unit_ok (txs ≫= unitsOf) /\ sum_by Memory (txs ≫= unitsOf) <= Memory (pMaxBlockExUnits pp) /\
    sum_by Steps (txs ≫= unitsOf) <= Steps (pMaxBlockExUnits pp);
  acc_header_size : 0 < pMaxBlockHeaderSize pp -> blen hcbor <= pMaxBlockHeaderSize pp;
  acc_body_size : 0 < pMaxBlockBodySize pp -> baBlockBodySize body <= pMaxBlockBodySize pp;
  acc_txs : exists s, verifyBlockTransactions (UtxoValidationRules sv other) txs (baSlot body) ls pp = Ok s;
  acc_refs : txs <> [] -> ValidateRefScriptSizePerBlock txs pp (UtxoById (lstate ls)) = Ok ();
  acc_pool : exists cert, lPool L !! blake2b224 (baIssuerVkey body) = Some cert /\ RegVrfKeyHash cert = blake2b (baVrfKey body)
}.

(** Nothing is skipped. *)
Definition strictConfig (max : Z) (ls : ConwayState) (pp : ConwayProtocolParameters) : VerifyConfig :=
  mkVerifyConfig false false false false max false (Some ls) (Some pp).

Lemma verifyHeaderVrf_conway body sig hcbor eta0 output : 0 <= baSlot body ->
  verifyHeaderVrf (BabbageBlockHeader EraConway body sig hcbor) eta0 = Ok output <->
  baSlot body <= MaxInt64 /\ length eta0 = 32%nat /\ output = vrOutput (baVrfResult body) /\
  VrfVerify (baVrfKey body) (vrProof (baVrfResult body)) (vrOutput (baVrfResult body)) (blake2b (be_encode 8 (baSlot body) ++ eta0)) = Ok true.
Proof.
  intros Hz. unfold verifyHeaderVrf. cbn [headerVrf SlotNumber mbind result_bind]. destruct (Z.ltb_spec MaxInt64 (baSlot body)) as [|L]; [split; [done|lia]|].
  unfold MkInputVrf. change 32 with (Z.of_nat 32). rewrite blen_eqb, (u64_small (baSlot body)) by (unfold MaxInt64, MaxUint64 in *; lia).
  destruct (Nat.eqb_spec (length eta0) 32) as [|N]; [|by split; [|intros (_ & ? & _)]]. cbn [negb wrap mbind result_bind].
  destruct (VrfVerify _ _ _ _) as [[]|]; cbn [wrap mbind result_bind negb]; [|by split; [|intros (_ & _ & _ & ?)]..].
  split; [by intros [= <-]|by intros (_ & _ & -> & _)].
Qed.

Lemma blockLimits_Ok b max ls pp n : BlockBodySizeFromCbor (blkCbor b) = Ok n -> blkCbor b <> [] ->
  Forall unit_range (blkTransactions b ≫= unitsOf) -> unit_ok (pMaxBlockExUnits pp) ->
  blockLimits b (strictConfig max ls pp) = Ok () <->
  (Forall unit_ok (blkTransactions b ≫= unitsOf) /\ sum_by Memory (blkTransactions b ≫= unitsOf) <= Memory (pMaxBlockExUnits pp) /\
   sum_by Steps (blkTransactions b ≫= unitsOf) <= Steps (pMaxBlockExUnits pp)) /\
  (0 < pMaxBlockHeaderSize pp -> blen (headerCbor (blkHeader b)) <= pMaxBlockHeaderSize pp) /\
  (0 < pMaxBlockBodySize pp -> n <= pMaxBlockBodySize pp).
Proof.
  intros En Hne Hr Hm. unfold blockLimits. cbn [strictConfig SkipBlockLimitsValidation cfgProtocolParameters].
  assert (B : 0 < blen (blkCbor b)) by (destruct (blkCbor b); [done|unfold blen; cbn; lia]).
  rewrite (proj2 (Z.ltb_lt 0 (blen (blkCbor b))) B), orb_true_r. cbn [orb negb andb].
  rewrite <- (blockUnits_Ok _ _ Hr Hm). unfold sumBlockExUnits.
  assert (U : blkTransactions b = [] -> match sumExUnits (blkTransactions b ≫= unitsOf) (mkExUnits 0 0) with
    | None => Err BlockExUnitsSum
    | Some total => if (Memory (pMaxBlockExUnits pp) <? Memory total) || (Steps (pMaxBlockExUnits pp) <? Steps total)
                    then Err (BlockExUnitsTooBig total (pMaxBlockExUnits pp)) else Ok () end = Ok ()).
  { intros E. apply blockUnits_Ok; [done..|]. rewrite E. cbn. destruct Hm. split; [constructor|]. lia. }
  set (units := match sumExUnits _ _ with Some _ => _ | None => _ end) in *.
  assert (G : (if 0 <? blen (blkTransactions b) then units else Ok ()) = units).
  { destruct (blkTransactions b) as [|t l] eqn:E; [cbn; symmetry; by apply U|done]. }
  fold units. rewrite G. destruct units as [[]|e]; cbn [mbind result_bind]; [|by split; [|intros [? _]]].
  rewrite En. cbn [wrap mbind result_bind].
  destruct (Z.ltb_spec 0 (pMaxBlockHeaderSize pp)), (Z.ltb_spec (pMaxBlockHeaderSize pp) (blen (headerCbor (blkHeader b)))), (Z.ltb_spec 0 (blen (headerCbor (blkHeader b)))),
    (Z.ltb_spec 0 (pMaxBlockBodySize pp)), (Z.ltb_spec (pMaxBlockBodySize pp) n); cbn [andb mbind result_bind]; (split; [intros E; (discriminate E || (split_and!; [done|lia..]))|intros (_ & ? & ?); (done || lia)]).
Qed.

Lemma blockPool_Ok b body sig hcbor max ls L pp : reports (lstate ls) L -> blkHeader b = BabbageBlockHeader EraConway body sig hcbor ->
  blockPool b (strictConfig max ls pp) = Ok () <->
  exists cert, lPool L !! blake2b224 (baIssuerVkey body) = Some cert /\ RegVrfKeyHash cert = blake2b (baVrfKey body).
Proof.
  intros R E. unfold blockPool. rewrite E. cbn [strictConfig SkipStakePoolValidation cfgLedgerState extractHeaderFields mbind result_bind].
  rewrite (r_pool _ _ R). cbn [wrap mbind result_bind]. destruct (lPool L !! _) as [cert|]; [|by split; [|intros (? & ? & _)]].
  case_bool_decide as V; [split; [by exists cert|done]|split; [done|by intros (? & [= <-] & ?)]].
Qed.

Lemma conway_commits body sig hcbor items : (length items <= 5)%nat ->
  commits (BabbageBlockHeader EraConway body sig hcbor) items <->
  length items = 5%nat /\ baBlockBodyHash body = blake2b (concat (blake2b <$> tail items)).
Proof.
  intros Hl. unfold commits. cbn [eraOrder BlockBodyHash Z.eqb Pos.eqb Z.leb Z.compare Pos.compare Pos.compare_cont Nat.sub].
  assert (T : length items = 5%nat -> take 4 (tail items) = tail items) by (intros E; apply take_ge; destruct items; cbn in *; lia).
  split; [intros [A B]|intros [A B]]; (rewrite T in * by lia); split; (done || lia).
Qed.

Lemma verifyBlock_parts b body sig hcbor eta0Hex spk max ls pp : blkHeader b = BabbageBlockHeader EraConway body sig hcbor -> 0 <= baSlot body ->
  let config := strictConfig max ls pp in
  VerifyBlock sv other byronBodyProof otherEraState b eta0Hex spk config = Ok (EncodeToString (vrOutput (baVrfResult body)), baBlockNumber body, baSlot body) <->
  (exists eta0 output, DecodeString eta0Hex = Some eta0 /\ verifyHeaderVrf (blkHeader b) eta0 = Ok output) /\
  is_ok (verifyHeaderKes (blkHeader b) spk config false) = true /\ bodyIntegrity (blkHeader b) (blkCbor b) = Ok () /\
  blockLimits b config = Ok () /\ blockTransactions sv other b config = Ok () /\ blockRefScriptLimit b config = Ok () /\ blockPool b config = Ok ().
Proof.
  intros Eh Hz config. unfold VerifyBlock, verifyBlock. rewrite Eh. cbn [andb isByron negb strictConfig config SkipBodyHashValidation BlockNumberOf SlotNumber].
  fold (strictConfig max ls pp). fold config. unfold VerifyBlockState. rewrite Eh. cbn [eraOrder Z.eqb Pos.eqb negb]. split.
  - destruct (DecodeString eta0Hex) as [eta0|]; [|done].
    intros (output & E1 & (u & E2 & (u3 & E3 & (u4 & ([] & E4 & ([] & E5 & ([] & E6 & E7)%bind_Ok)%bind_Ok)%bind_Ok & _)%bind_Ok)%bind_Ok)%bind_Ok)%bind_Ok.
    destruct u3, u4. split_and!; try done; [by exists eta0, output|by rewrite E2].
  - intros ((eta0 & output & -> & E1) & E2 & E3 & E4 & E5 & E6 & E7). rewrite E1. cbn [mbind result_bind].
    destruct (verifyHeaderKes _ _ _ _); [|done]. rewrite E3. cbn [mbind result_bind]. rewrite E4. cbn [mbind result_bind]. rewrite E5. cbn [mbind result_bind].
    rewrite E6. cbn [mbind result_bind]. rewrite E7. cbn [mbind result_bind]. apply verifyHeaderVrf_conway in E1 as (_ & _ & -> & _); done.
Qed.

(** C3. With nothing skipped, [VerifyBlock] accepts a Conway block exactly when the
    VRF proof verifies for its slot and nonce, the cold key signed the hot key
    for a period that has not expired and the hot key signed the header at the
    evolution of its slot, the block has the five components whose size and hash
    the header declares, units and sizes are within the limits, every
    transaction passes every rule on the ledger that the ones before it leave,
    the reference scripts fit, and the issuer is a registered pool with the VRF
    key of the header. *)
Theorem verified_block_exact b body sig hcbor eta0Hex spk max ls L pp :
  blkHeader b = BabbageBlockHeader EraConway body sig hcbor -> 0 <= baSlot body -> reports (lstate ls) L -> blen (blkCbor b) <= MaxUint64 ->
  Forall unit_range (blkTransactions b ≫= unitsOf) -> unit_ok (pMaxBlockExUnits pp) ->
  VerifyBlock sv other byronBodyProof otherEraState b eta0Hex spk (strictConfig max ls pp) =
    Ok (EncodeToString (vrOutput (baVrfResult body)), baBlockNumber body, baSlot body) <->
  block_accepted body sig hcbor (blkCbor b) (blkTransactions b) eta0Hex spk max ls L pp.
Proof using All.
  intros Eh Hz R Hc Hr Hm. rewrite (verifyBlock_parts _ _ _ _ _ _ _ _ _ Eh Hz), (blockPool_Ok _ _ _ _ _ _ _ _ R Eh), (bodyIntegrity_Ok _ _ Hc).
  rewrite (verifyHeaderKes_iff (blkHeader b) (babbageHeaderOpCert (baOpCert body)) (baIssuerVkey body) (baVrfKey body) (baCbor body) sig) by (rewrite ?Eh; done).
  unfold blockTransactions, blockRefScriptLimit. rewrite Eh. cbn [strictConfig SkipTransactionValidation SkipBlockLimitsValidation cfgLedgerState cfgProtocolParameters SlotNumber orb MaxKesEvolutions].
  split.
  - intros ((eta0 & output & Ed & (V1 & V2 & _ & V4)%verifyHeaderVrf_conway) & K & (items & D & Dr & S & C) & Li & T & F & P); [|done].
    pose proof (decodeBlockArray_split _ _ D) as (? & ? & _ & Hl). apply conway_commits in C as [C1 C2]; [|lia].
    apply (blockLimits_Ok b max ls pp (blen (concat (tail items)))) in Li as (U & Hh & Hb); [|apply BlockBodySize_exact; eauto|intros X; by rewrite X in D|done..].
    cbn [BlockBodySize] in S. rewrite Eh in Hh. split; try done; [by exists eta0|by exists items|by rewrite S| |].
    + destruct (verifyBlockTransactions _ _ _ _ _) as [s|[]]; [by exists s|done].
    + intros N. assert (E0 : (blen (blkTransactions b) =? 0) = false) by (by destruct (blkTransactions b)). rewrite E0 in F.
      by destruct (ValidateRefScriptSizePerBlock _ _ _) as [[]|].
  - intros [A1 (eta0 & Ed & V2 & V4) K (items & D & Dr & C1 & S & C2) U Hh Hb [s T] F P]. split_and!; try done.
    + exists eta0, (vrOutput (baVrfResult body)). split; [done|]. by apply verifyHeaderVrf_conway.
    + exists items. split_and!; try done. apply conway_commits; [lia|done].
    + apply (blockLimits_Ok b max ls pp (blen (concat (tail items)))); [apply BlockBodySize_exact; eauto|intros X; by rewrite X in D|done|done|].
      rewrite Eh. rewrite S in Hb. done.
    + by rewrite T.
    + destruct (Z.eqb_spec (blen (blkTransactions b)) 0) as [|N]; [done|]. rewrite F; [done|]. intros X. by rewrite X in N.
Qed.
End Verified.

(** ** Instances *)

(** Items of one byte. *)
#[export] Instance toySkip : CborSkip := { SkipItem b := match b with x :: _ => if (0 <=? x) && (x <? 24) then Some 1%nat else None | [] => None end }.
#[export] Instance toyRaw : CborRaw := { DecodeRaw data := match decodeBlockArrayBytes data with Ok items => Some items | Err _ => None end }.

#[export] Instance toyCborBlockLaws : CborLaws.
Proof.
  split.
  - intros [|x b] n; cbn; [done|]. destruct (_ && _); [|done]. intros [= <-]. lia.
  - intros data raw items E. cbn [DecodeRaw toyRaw]. rewrite E. by intros [= ->].
Qed.

#[export] Instance toyVrfKeyLaws : VrfKeyLaws.
Proof. split. intros b P. cbn [setBytes toyVrf]. repeat case_decide; subst; done. Qed.

(** The header of [exOffered], which declares a body of four bytes. *)
Definition vbHeaderOf (i : ValidateHeaderInput) : BlockHeader :=
  BabbageBlockHeader EraConway
    (mkBabbageBody (inBlockNumber i) (inSlot i) (inPrevHash i) (inIssuerVkey i) (inVrfKey i) (mkVrfResult (inVrfOutput i) (inVrfProof i)) 4
       (blake2b (concat (blake2b <$> [[1]; [2]; [3]; [4]])))
       (mkBabbageOpCert (inOpCertHotVkey i) (inOpCertSequenceNumber i) (inOpCertKesPeriod i) (inOpCertSignature i)) (10, 0) (inHeaderBodyCbor i))
    (inKesSignature i) [0].

Definition vbHeader : BlockHeader := Eval vm_compute in match exOffered with Some i => vbHeaderOf i | None => ByronMainBlockHeader 0 0 end.
Definition vbNonceHex : bytes := Eval vm_compute in EncodeToString (replicate 32 2).

(** One block, framed as a definite and as an indefinite array. *)
Definition vbBlock : Block := mkBlock vbHeader [133; 0; 1; 2; 3; 4] [cwTx1].
Definition vbBlock2 : Block := mkBlock vbHeader [159; 0; 1; 2; 3; 4; 255] [cwTx1].

Definition vbBody : BabbageBlockHeaderBody := match vbHeader with BabbageBlockHeader _ b _ _ => b | _ => mkBabbageBody 0 0 [] [] [] (mkVrfResult [] []) 0 [] (mkBabbageOpCert [] 0 0 []) (0, 0) [] end.
Definition vbSignature : bytes := match vbHeader with BabbageBlockHeader _ _ s _ => s | _ => [] end.

(** The ledger of [cwState] in which the issuer is a pool. *)
Definition vbLedger : CLedger :=
  mkBLedger (lUtxo cwLedger) (lStake cwLedger) (lReward cwLedger) (lBalance cwLedger) (lDeposit cwLedger) (lVote cwLedger)
    {[blake2b224 (baIssuerVkey vbBody) := mkPoolReg (blake2b224 (baIssuerVkey vbBody)) (blake2b (baVrfKey vbBody)) 0 None None []]}
    ∅ ∅ ∅ ∅ ∅ ∅ ∅ ∅.

Definition vbState : ConwayState := mkConwayState (stateOf vbLedger) 0 (Some (fun _ => Some 3)) (mkGovState (Ok None) None None None None).

Lemma vbState_reports : reports (lstate vbState) vbLedger.
Proof. apply stateOf_reports; [split; intros c r E; discriminate E|]. intros c c' [m E]. discriminate E. Qed.

(** The state checks of the other eras, and the proofs of Byron, in the
    instances. *)
Definition noProof : Block -> bool := fun _ => false.
Definition noState : Block -> VerifyConfig -> vbres unit := fun _ _ => Err OtherEraFailed.

(** Witness of C14: the header of slot 25 and its validator. *)
Lemma header_checks_agree_witness : exists i, exOffered = Some i /\
  is_ok (verifyHeaderKes vbHeader 10 (strictConfig 62 vbState cwParams) false) = true /\
  is_ok (validateKESPeriod exValidator (headerInput vbHeader (replicate 32 2) i)) = true.
Proof.
  eexists. split; [reflexivity|]. assert (K : is_ok (verifyHeaderKes vbHeader 10 (strictConfig 62 vbState cwParams) false) = true) by (vm_compute; reflexivity).
  split; [exact K|].
  match goal with |- context [headerInput _ _ ?i] =>
    destruct (header_checks_agree exValidator vbHeader (replicate 32 2) i (strictConfig 62 vbState cwParams)) as [_ A] end;
    [reflexivity|reflexivity|vm_compute; split; discriminate|reflexivity|reflexivity|].
  apply A in K. destruct K as [K _]. exact K.
Defined.

(** Witness of C13: the two framings. *)
Lemma verified_body_unique_witness : exists items1 items2,
  decodeBlockArrayBytes (blkCbor vbBlock) = Ok items1 /\ decodeBlockArrayBytes (blkCbor vbBlock2) = Ok items2 /\
  (hashCollision (hashInputs vbHeader items1 ++ hashInputs vbHeader items2) \/ tail items1 = tail items2).
Proof.
  destruct (verified_body_unique cwView cwOther noProof noState vbBlock vbBlock2 vbNonceHex vbNonceHex 10 10
    (EncodeToString (vrOutput (baVrfResult vbBody)), baBlockNumber vbBody, baSlot vbBody)
    (EncodeToString (vrOutput (baVrfResult vbBody)), baBlockNumber vbBody, baSlot vbBody)) as (items1 & items2 & D1 & D2 & C);
    [reflexivity|reflexivity|vm_compute; discriminate|vm_compute; discriminate|vm_compute; reflexivity|vm_compute; reflexivity|].
  exists items1, items2. split; [exact D1|]. split; [exact D2|]. destruct C as [C|(_ & _ & C)]; [left; exact C|]. right. apply C. left. vm_compute. discriminate.
Defined.

(** A Shelley header whose two bodies differ in a fifth component. *)
Definition vbShelleyHeader : BlockHeader :=
  ShelleyBlockHeader EraShelley
    (mkShelleyBody 0 0 [] [] [] (mkVrfResult [] []) (mkVrfResult [] []) 4 (blake2b (concat (blake2b <$> [[1]; [2]; [3]]))) [] 0 0 [] (0, 0) []) [] [].

Example fifth_component_differs :
  bodyIntegrity vbShelleyHeader [133; 0; 1; 2; 3; 4] = Ok () /\ bodyIntegrity vbShelleyHeader [133; 0; 1; 2; 3; 5] = Ok () /\
  bodyIntegrity vbShelleyHeader [133; 0; 1; 2; 4; 4] = Err (BlockBodyHashFailed BodyHashMismatch).
Proof. split_and!; vm_compute; reflexivity. Qed.

(** Witness of C3: a block with one transaction of the ledger above. *)
Lemma verified_block_exact_witness :
  block_accepted cwView cwOther vbBody vbSignature [0] (blkCbor vbBlock) [cwTx1] vbNonceHex 10 62 vbState vbLedger cwParams.
Proof.
  apply (verified_block_exact cwView cwOther noProof noState vbBlock vbBody vbSignature [0]); [reflexivity|vm_compute; discriminate|apply vbState_reports
    |vm_compute; discriminate|constructor|split; vm_compute; split; discriminate|].
  vm_compute. reflexivity.
Defined.
