(* ===== verification/Gov.v ===== *)
(** * Conway governance rules (src/ledger/conway/rules.go, certs_overlay.go)

    Proposals, their ancestry and the versions of hard forks; votes and who may
    cast them; the certificates of the committee. The state a rule sees after
    the transaction's own certificates is an overlay. A rule is given a ledger
    state, so the branches for a missing one are left out. *)

From S2P Require Import Prelude Scripts ShelleyRules Params MultiAsset BlockState Conway.
#[local] Open Scope Z_scope.

(** ** Common parts *)

Definition gerr {A} (e : govError) : result conwayError A := Err (GovError e).

(** A loop that returns at the first error; with the index of the element. *)
Fixpoint each {A} (f : A -> ccheck) (l : list A) : ccheck :=
  match l with [] => Ok () | a :: l => _ ← f a; each f l end.

Fixpoint eachi {A} (f : Z -> A -> ccheck) (idx : Z) (l : list A) : ccheck :=
  match l with [] => Ok () | a :: l => _ ← f idx a; eachi f (idx + 1) l end.

(** [bytes.Compare], and [slices.SortFunc] with a key. *)
Fixpoint bytesCompare (a b : bytes) : comparison :=
  match a, b with
  | [], [] => Eq
  | [], _ => Lt
  | _, [] => Gt
  | x :: a, y :: b => match Z.compare x y with Eq => bytesCompare a b | c => c end
  end.

(** A number, then bytes. *)
Definition keyCompare (a b : Z * bytes) : comparison :=
  match Z.compare (fst a) (fst b) with Eq => bytesCompare (snd a) (snd b) | c => c end.

Fixpoint insertBy {A} (compare : A -> A -> comparison) (x : A) (l : list A) : list A :=
  match l with
  | [] => [x]
  | y :: l' => match compare x y with Gt => y :: insertBy compare x l' | _ => x :: l end
  end.
Definition sortBy {A} (compare : A -> A -> comparison) (l : list A) : list A := foldr (insertBy compare) [] l.

(** ** The ledger state after the transaction's certificates *)

Record conwayCertsOverlay := mkOverlay {
  stakeCredentialState : gmap Credential bool;
  drepRegistrations : gmap Credential bool;
  poolRegistrations : gset PoolKeyHash;
  txColdHot : gmap Credential (option Credential)
}.

Definition overlayStake (c : Credential) (r : bool) (o : conwayCertsOverlay) : conwayCertsOverlay :=
  mkOverlay (<[c := r]> (stakeCredentialState o)) (drepRegistrations o) (poolRegistrations o) (txColdHot o).
Definition overlayDRep (c : Credential) (r : bool) (o : conwayCertsOverlay) : conwayCertsOverlay :=
  mkOverlay (stakeCredentialState o) (<[c := r]> (drepRegistrations o)) (poolRegistrations o) (txColdHot o).
Definition overlayPool (p : PoolKeyHash) (o : conwayCertsOverlay) : conwayCertsOverlay :=
  mkOverlay (stakeCredentialState o) (drepRegistrations o) ({[p]} ∪ poolRegistrations o) (txColdHot o).
Definition authorizeCommitteeHot (cold hot : Credential) (o : conwayCertsOverlay) : conwayCertsOverlay :=
  mkOverlay (stakeCredentialState o) (drepRegistrations o) (poolRegistrations o) (<[cold := Some hot]> (txColdHot o)).
Definition resignCommitteeCold (cold : Credential) (o : conwayCertsOverlay) : conwayCertsOverlay :=
  mkOverlay (stakeCredentialState o) (drepRegistrations o) (poolRegistrations o) (<[cold := None]> (txColdHot o)).

Definition overlayCertificate (o : conwayCertsOverlay) (cert : BlockCertificate) : conwayCertsOverlay :=
  match cert with
  | RegistrationCertificate c _ | StakeRegistrationCertificate c | StakeRegistrationDelegationCertificate c _ _
  | VoteRegistrationDelegationCertificate c _ _ | StakeVoteRegistrationDelegationCertificate c _ _ _ => overlayStake c true o
  | StakeDeregistrationCertificate c | DeregistrationCertificate c _ => overlayStake c false o
  | RegistrationDrepCertificate c _ _ => overlayDRep c true o
  | DeregistrationDrepCertificate c _ => overlayDRep c false o
  | PoolRegistrationCert reg => overlayPool (Operator reg) o
  | AuthCommitteeHotCertificate cold hot => authorizeCommitteeHot cold hot o
  | ResignCommitteeColdCertificate cold _ => resignCommitteeCold cold o
  | _ => o
  end.

Definition newConwayCertsOverlay (tx : ConwayTransaction) : conwayCertsOverlay :=
  foldl overlayCertificate (mkOverlay ∅ ∅ ∅ ∅) (Certificates tx).

Section Overlay.
Context (o : conwayCertsOverlay) (ls : ConwayState).

Definition overlayIsStakeCredentialRegistered (c : Credential) : bool :=
  match stakeCredentialState o !! c with Some r => r | None => IsStakeCredentialRegistered (lstate ls) c end.

Definition overlayDRepRegistration (c : Credential) : bres (option DRepRegistrationR) :=
  match drepRegistrations o !! c with
  | Some r => Ok (if r : bool then Some (mkDRepReg c None None) else None)
  | None => DRepRegistration (lstate ls) c
  end.

Definition overlayIsPoolRegistered (p : PoolKeyHash) : bool :=
  if bool_decide (p ∈ poolRegistrations o) then true else IsPoolRegistered (lstate ls) p.

Definition overlayCommitteeStateAvailable : bres bool :=
  match CommitteeCredentials (gov ls) with None => Ok false | Some cs => CommitteeStateAvailable cs end.

Definition txColdTouched (h : Hash28) : bool :=
  bool_decide (filter (fun e => snd (fst e) = h) (map_to_list (txColdHot o)) <> []).

(** The member of each cold credential the transaction authorized with [hot]. *)
Definition txHotMembers (hot : Credential) : list (option CommitteeMemberR) :=
  (fun e => Some (mkMember (snd (fst e)) (Some (snd hot)) 0 false)) <$>
  filter (fun e => snd e = Some hot) (map_to_list (txColdHot o)).

Definition untouchedMember (m : option CommitteeMemberR) : option (option CommitteeMemberR) :=
  m ← m; if txColdTouched (ColdKey m) then None else Some (Some m).

Definition overlayHotMembers (hot : Credential) : bres (list (option CommitteeMemberR)) :=
  match CommitteeHotMembers (gov ls) with
  | Some plural => lsMembers ← plural hot; Ok (txHotMembers hot ++ omap untouchedMember lsMembers)
  | None =>
    match CommitteeCredentials (gov ls) with
    | None => Ok (txHotMembers hot)
    | Some cs => m ← CommitteeHotCredentialMember cs hot; Ok (txHotMembers hot ++ omap untouchedMember [m])
    end
  end.
End Overlay.

(** ** Governance actions *)

Inductive govActionPurpose := govPurposePParamUpdate | govPurposeHardFork | govPurposeCommittee | govPurposeConstitution.

#[export] Instance govActionPurpose_eq : EqDecision govActionPurpose.
Proof. solve_decision. Defined.

Definition govActionAncestor (a : option GovAction) : option (option GovActionId * govActionPurpose) :=
  match a with
  | Some (ParameterChangeGovAction prev _ _) => Some (prev, govPurposePParamUpdate)
  | Some (HardForkInitiationGovAction prev _) => Some (prev, govPurposeHardFork)
  | Some (NoConfidenceGovAction prev) => Some (prev, govPurposeCommittee)
  | Some (UpdateCommitteeGovAction prev _ _ _) => Some (prev, govPurposeCommittee)
  | Some (NewConstitutionGovAction prev _) => Some (prev, govPurposeConstitution)
  | _ => None
  end.

Definition govActionTypePurpose (t : Z) : option govActionPurpose :=
  if t =? GovActionTypeParameterChange then Some govPurposePParamUpdate
  else if t =? GovActionTypeHardForkInitiation then Some govPurposeHardFork
  else if (t =? GovActionTypeNoConfidence) || (t =? GovActionTypeUpdateCommittee) then Some govPurposeCommittee
  else if t =? GovActionTypeNewConstitution then Some govPurposeConstitution
  else None.

Definition protocolVersionCanFollow (cur new : Z * Z) : bool :=
  if (fst new =? u64 (fst cur + 1)) && (snd new =? 0) then true
  else (fst new =? fst cur) && (snd new =? u64 (snd cur + 1)).

Definition governanceProposalIndexFits (idx : Z) : bool := (0 <=? idx) && (idx <=? MaxUint32).

(** The actions a transaction proposes, by the identifier they get. *)
Fixpoint txProposalLoop (txId : bytes) (idx : Z) (ps : list ProposalProcedure) (m : gmap GovActionId (Z * option GovAction))
    : gmap GovActionId (Z * option GovAction) :=
  match ps with
  | [] => m
  | p :: ps =>
    if negb (governanceProposalIndexFits idx) then m
    else txProposalLoop txId (idx + 1) ps (<[(txId, idx) := (idx, PPGovAction p)]> m)
  end.

Definition txProposalActions (tx : ConwayTransaction) : gmap GovActionId (Z * option GovAction) :=
  txProposalLoop (Hash tx) 0 (ProposalProcedures tx) ∅.

Definition resolverExists (tx : ConwayTransaction) (ls : ConwayState) (id : GovActionId) : bool :=
  if GovActionExists (lstate ls) id then true else bool_decide (is_Some (txProposalActions tx !! id)).

(** The type the rules use; the constructor of the wire is the same one. *)
Definition govActionValidationType (a : option GovAction) : option Z := blockGovActionType a.

Definition resolveRequired (tx : ConwayTransaction) (ls : ConwayState) (id : GovActionId)
    : result conwayError (Z * option GovAction) :=
  match txProposalActions tx !! id with
  | Some (_, action) =>
    match action with
    | None => gerr (GovernanceStateUnavailable (Some id) "transaction proposal contents")
    | Some _ =>
      match govActionValidationType action with
      | None => gerr (GovernanceStateUnavailable (Some id) "transaction proposal type")
      | Some t => Ok (t, action)
      end
    end
  | None =>
    match GovActionById (lstate ls) id with
    | Err _ => gerr (GovernanceStateUnavailable (Some id) "governance action lookup")
    | Ok None => gerr (UnknownGovActionId [id])
    | Ok (Some st) => Ok (ActionType st, Action st)
    end
  end.

Definition hardForkProposedVersion (a : option GovAction) : option (Z * Z) :=
  match a with Some (HardForkInitiationGovAction _ v) => Some v | _ => None end.

Definition govPurposeRoots (ls : ConwayState) : result conwayError GovPurposeRoots :=
  match PurposeRoots (gov ls) with
  | Some (Ok (Some roots)) => Ok roots
  | _ => gerr (GovernanceStateUnavailable None "governance purpose roots")
  end.

Definition govPurposeRootId (roots : GovPurposeRoots) (purpose : govActionPurpose) : option GovActionId :=
  match purpose with
  | govPurposePParamUpdate => rootPParamUpdate roots
  | govPurposeHardFork => rootHardFork roots
  | govPurposeCommittee => rootCommittee roots
  | govPurposeConstitution => rootConstitution roots
  end.

(** ** Proposals *)

Section Proposals.
Context (tx : ConwayTransaction) (slot : Z) (ls : ConwayState) (pp : ConwayProtocolParameters).

(** The epoch is asked for once in the run; the answer is the same each time. *)
Definition committeeExpiries (credEpochs : list (option Credential * Z)) : ccheck :=
  if negb (0 <? blen credEpochs) then Ok () else
  match epochForSlot ls with
  | None => gerr CommitteeExpiryEpochUnavailable
  | Some f =>
    match f slot with
    | None => gerr CommitteeExpiryEpochUnavailable
    | Some currentEpoch =>
      each (fun '(credential, expiry) =>
        match credential with
        | None => gerr NilCommitteeCredential
        | Some c => if expiry <=? currentEpoch then gerr (CommitteeMemberAlreadyExpired c expiry currentEpoch) else Ok ()
        end) credEpochs
    end
  end.

Definition proposalProcedure (p : ProposalProcedure) : ccheck :=
  match PPGovAction p with
  | Some (UpdateCommitteeGovAction _ _ credEpochs _) => committeeExpiries credEpochs
  | Some (ParameterChangeGovAction _ update _) =>
    match validateProtocolParameterUpdate update (Some (major pp)) with
    | Ok _ => Ok ()
    | Err e => gerr (ParameterUpdateError e)
    end
  | _ => Ok ()
  end.

Definition UtxoValidateProposalProcedures : ccheck :=
  if negb (IsValid tx) then Ok () else each proposalProcedure (ProposalProcedures tx).

Definition UtxoValidateEmptyTreasuryWithdrawals : ccheck :=
  each (fun p =>
    match PPGovAction p with
    | Some (TreasuryWithdrawalGovAction ws _) =>
      if blen ws =? 0 then gerr EmptyTreasuryWithdrawals
      else if existsb (fun w => 0 <? snd w) ws then Ok () else gerr ZeroTreasuryWithdrawalAmount
    | _ => Ok ()
    end) (ProposalProcedures tx).

Definition UtxoValidateBootstrapAllowedGovActions : ccheck :=
  if negb (isInConwayBootstrapPhase pp) then Ok () else
  each (fun p =>
    match PPGovAction p with
    | None => Ok ()
    | Some InfoGovAction | Some (HardForkInitiationGovAction _ _) | Some (ParameterChangeGovAction _ _ _) => Ok ()
    | Some (TreasuryWithdrawalGovAction _ _) => gerr (BootstrapDisallowedGovAction GovActionTypeTreasuryWithdrawal)
    | Some (NoConfidenceGovAction _) => gerr (BootstrapDisallowedGovAction GovActionTypeNoConfidence)
    | Some (UpdateCommitteeGovAction _ _ _ _) => gerr (BootstrapDisallowedGovAction GovActionTypeUpdateCommittee)
    | Some (NewConstitutionGovAction _ _) => gerr (BootstrapDisallowedGovAction GovActionTypeNewConstitution)
    | Some OtherGovAction => gerr UnknownGovActionType
    end) (ProposalProcedures tx).

(** The addresses of a proposal on another network; [None] if one is nil. *)
Definition badAddresses (p : ProposalProcedure) : option (list Address) :=
  let bad a := if negb (networkId a =? network ls) then [a] else [] in
  match PPGovAction p with
  | Some (TreasuryWithdrawalGovAction ws _) =>
    rest ← mapM (fun w => bad <$> fst w) ws; Some (bad (PPRewardAccount p) ++ mjoin rest)
  | _ => Some (bad (PPRewardAccount p))
  end.

Definition UtxoValidateProposalNetworkIds : ccheck :=
  match mapM badAddresses (ProposalProcedures tx) with
  | None => gerr NilPanic
  | Some bad => if blen (mjoin bad) =? 0 then Ok () else gerr (WrongNetworkProposalAddress (mjoin bad))
  end.

Definition CheckAccountAddress (a : Address) : ccheck :=
  if 0 <? blen (trailingBytes a) then gerr (InvalidAccountAddress a)
  else if (addressType a =? AddressTypeNoneKey) || (addressType a =? AddressTypeNoneScript) then Ok ()
  else gerr (InvalidAccountAddress a).

Definition UtxoValidateProposalReturnAddressShape : ccheck :=
  each (fun p => CheckAccountAddress (PPRewardAccount p)) (ProposalProcedures tx).

(** *** Well-formedness *)

Fixpoint duplicates {A} `{EqDecision A} (l : list A) : bool :=
  match l with [] => false | a :: l => bool_decide (a ∈ l) || duplicates l end.

Definition ValidateUpdateCommittee (remove : list Credential) (credEpochs : list (option Credential * Z)) (quorum : CborRat) : ccheck :=
  if bool_decide (None ∈ (fst <$> credEpochs)) then gerr (MalformedGovAction "nil credential")
  else if duplicates (fst <$> credEpochs) then gerr (MalformedGovAction "duplicate credential epochs")
  else if duplicates remove then gerr (MalformedGovAction "duplicate removal credential")
  else match quorum with
       | None => gerr (MalformedGovAction "quorum is required")
       | Some (num, den) => if (num <? 0) || (den <? num) then gerr (MalformedGovAction "quorum is outside [0,1]") else Ok ()
       end.

Definition policyOf (a : GovAction) : option (option bytes) :=
  match a with ParameterChangeGovAction _ _ policy | TreasuryWithdrawalGovAction _ policy => Some policy | _ => None end.

Definition hash28 (h : option bytes) : bool := match h with Some h => blen h =? 28 | None => true end.

Definition wellFormedProposal (p : ProposalProcedure) : ccheck :=
  match PPGovAction p with
  | None => gerr (MalformedGovAction "governance action cannot be nil")
  | Some a =>
    if negb (hash28 (default None (policyOf a))) then gerr (MalformedGovAction "policy hash has invalid length") else
    match a with
    | NewConstitutionGovAction _ script =>
      if negb (hash28 script) then gerr (MalformedGovAction "constitution script hash has invalid length") else Ok ()
    | UpdateCommitteeGovAction _ remove credEpochs quorum =>
      if negb (IsValid tx) then Ok () else
      _ ← ValidateUpdateCommittee remove credEpochs quorum;
      let conflicting := omap (fun e => c ← fst e; if bool_decide (c ∈ remove) then Some c else None) credEpochs in
      if 0 <? blen conflicting then gerr (ConflictingCommitteeUpdate (sortBy keyCompare conflicting)) else Ok ()
    | _ => Ok ()
    end
  end.

Definition UtxoValidateGuardrailsScriptHash : ccheck :=
  if negb (IsValid tx) then Ok () else
  let policies := omap (fun p => a ← PPGovAction p; policyOf a) (ProposalProcedures tx) in
  if blen policies =? 0 then Ok () else
  match Constitution (gov ls) with
  | Err _ => gerr ConstitutionLookup
  | Ok constitution =>
    let expected := default None constitution in
    if negb (hash28 expected) then gerr (MalformedConstitution (blen (default [] expected))) else
    each (fun actual => if bool_decide (actual = expected) then Ok () else gerr (InvalidGuardrailsScriptHash actual expected)) policies
  end.

Definition UtxoValidateGovActionWellFormedness : ccheck :=
  _ ← each wellFormedProposal (ProposalProcedures tx); UtxoValidateGuardrailsScriptHash.

(** *** Hard forks *)

(** The version a hard fork is compared with; [None] if another rule reports. *)
Definition hardForkReference (idx : Z) (prev : option GovActionId) (new : Z * Z) : result conwayError (option (Z * Z)) :=
  let cur := pProtocolVersion pp in
  let majorTooHigh := (fst cur <? fst new) && (1 <? fst new - fst cur) in
  match prev with
  | None => Ok (Some cur)
  | Some id =>
    if majorTooHigh then Ok (Some cur) else
    let predecessor (action : option GovAction) :=
      match action with
      | None => gerr (GovernanceStateUnavailable (Some id) "hard-fork predecessor contents")
      | Some _ => Ok (hardForkProposedVersion action)
      end in
    match txProposalActions tx !! id with
    | Some (i, action) => if idx <=? i then Ok None else predecessor action
    | None =>
      rootPredecessor ←
        match PurposeRoots (gov ls) with
        | None => Ok false
        | Some _ => roots ← govPurposeRoots ls; Ok (bool_decide (rootHardFork roots = Some id))
        end;
      if rootPredecessor : bool then Ok (Some cur) else
      match GovActionById (lstate ls) id with
      | Err _ => gerr (GovernanceStateUnavailable (Some id) "hard-fork predecessor")
      | Ok None => gerr (InvalidGovActionAncestor id "referenced hard-fork predecessor does not exist")
      | Ok (Some st) => predecessor (Action st)
      end
    end
  end.

Definition hardForkProposal (idx : Z) (p : ProposalProcedure) : ccheck :=
  match PPGovAction p with
  | Some (HardForkInitiationGovAction prev new) =>
    ref ← hardForkReference idx prev new;
    match ref with
    | None => Ok ()
    | Some ref => if negb (protocolVersionCanFollow ref new) then gerr (BadHardForkProtocolVersion new ref) else Ok ()
    end
  | _ => Ok ()
  end.

Definition UtxoValidateHardForkCanFollow : ccheck := eachi hardForkProposal 0 (ProposalProcedures tx).

(** *** Ancestry *)

Definition proposalAncestry (roots : GovPurposeRoots) (idx : Z) (p : ProposalProcedure) : ccheck :=
  match govActionAncestor (PPGovAction p) with
  | None => Ok ()
  | Some (ancestorId, purpose) =>
    match ancestorId, govPurposeRootId roots purpose with
    | None, None => Ok ()
    | None, Some rootId => gerr (InvalidGovActionAncestor rootId "proposal has no predecessor but the purpose chain root is set")
    | Some id, rootId =>
      if bool_decide (rootId = Some id) then Ok () else
      match txProposalActions tx !! id with
      | Some (i, action) =>
        if (i <? idx) && bool_decide (snd <$> govActionAncestor action = Some purpose) then Ok ()
        else gerr (InvalidGovActionAncestor id "not an earlier proposal of the same purpose in this transaction")
      | None =>
        match GovActionById (lstate ls) id with
        | Err _ => gerr (InvalidGovActionAncestor id "lookup failed")
        | Ok None => gerr (InvalidGovActionAncestor id "referenced ancestor governance action does not exist")
        | Ok (Some st) =>
          if bool_decide (govActionTypePurpose (ActionType st) = Some purpose) then Ok ()
          else gerr (InvalidGovActionAncestor id "referenced ancestor governance action has a mismatched purpose")
        end
      end
    end
  end.

Definition UtxoValidateProposalAncestry : ccheck :=
  if negb (existsb (fun p => negb (absent (govActionAncestor (PPGovAction p)))) (ProposalProcedures tx)) then Ok () else
  roots ← govPurposeRoots ls;
  eachi (proposalAncestry roots) 0 (ProposalProcedures tx).

(** *** Return accounts *)

Definition returnAccountRegistered (a : Address) : bool :=
  if negb ((addressType a =? AddressTypeNoneKey) || (addressType a =? AddressTypeNoneScript)) then false
  else match stakeCredential a with
       | Some c => overlayIsStakeCredentialRegistered (newConwayCertsOverlay tx) ls c
       | None => false
       end.

Definition returnAccounts (p : ProposalProcedure) : ccheck :=
  if negb (returnAccountRegistered (PPRewardAccount p)) then gerr (ProposalReturnAccountDoesNotExist (PPRewardAccount p)) else
  match PPGovAction p with
  | Some (TreasuryWithdrawalGovAction ws _) =>
    let bad := omap (fun w => a ← fst w; if returnAccountRegistered a then None else Some a) ws in
    if 0 <? blen bad
    then gerr (TreasuryWithdrawalReturnAccountsDoNotExist
                 (sortBy (fun a b => bytesCompare (default [] (addressBytes a)) (default [] (addressBytes b))) bad))
    else Ok ()
  | _ => Ok ()
  end.

Definition UtxoValidateProposalReturnAccounts : ccheck :=
  if isInConwayBootstrapPhase pp then Ok () else each returnAccounts (ProposalProcedures tx).
End Proposals.

(** The bound on a committee term, for ratification; the sum wraps. *)
Definition ValidateCommitteeTerm (a : option (list (option Credential * Z))) (maxTermLength : option Z) (currentEpoch : Z) : ccheck :=
  match a with
  | None | Some [] => Ok ()
  | Some credEpochs =>
    match maxTermLength with
    | None => gerr CommitteeTermLimitUnavailable
    | Some maxTermLength =>
      let terms := omap (fun e => c ← fst e; Some (c, snd e)) credEpochs in
      let bound := u64 (currentEpoch + maxTermLength) in
      each (fun '(c, expiry) => if bound <? expiry then gerr (CommitteeTermTooLong (snd c) currentEpoch expiry maxTermLength) else Ok ())
        (sortBy (fun a b => keyCompare (fst a) (fst b)) terms)
    end
  end.

(** ** The committee *)

Section Committee.
Context (tx : ConwayTransaction) (ls : ConwayState).

(** The member of a cold credential: what earlier certificates left, or what
    the state says, which has to be available. *)
Definition committeeMember (cold : Credential) (members : gmap Credential (option CommitteeMemberR))
    : result conwayError (option CommitteeMemberR * gmap Credential (option CommitteeMemberR)) :=
  match members !! cold with
  | Some m => Ok (m, members)
  | None =>
    match CommitteeCredentials (gov ls) with
    | None => gerr (CommitteeMemberLookup cold)
    | Some cs =>
      match CommitteeStateAvailable cs with
      | Ok true =>
        match CommitteeCredentialMember cs cold with
        | Err _ => gerr (CommitteeMemberLookup cold)
        | Ok m => Ok (m, <[cold := m]> members)
        end
      | _ => gerr (CommitteeMemberLookup cold)
      end
    end
  end.

Definition committeeCertificate (members : gmap Credential (option CommitteeMemberR)) (cert : BlockCertificate)
    : result conwayError (gmap Credential (option CommitteeMemberR)) :=
  match cert with
  | AuthCommitteeHotCertificate cold hot =>
    '(member, members) ← committeeMember cold members;
    match member with
    | None => gerr (NotCommitteeMember cold)
    | Some m =>
      if Resigned m then gerr (ResignedCommitteeMemberHotKey cold)
      else Ok (<[cold := Some (mkMember (ColdKey m) (Some (snd hot)) (ExpiryEpoch m) (Resigned m))]> members)
    end
  | ResignCommitteeColdCertificate cold _ =>
    '(member, members) ← committeeMember cold members;
    match member with
    | None => gerr (NotCommitteeMember cold)
    | Some m =>
      if Resigned m then gerr (ResignedCommitteeMember cold)
      else Ok (<[cold := Some (mkMember (ColdKey m) None (ExpiryEpoch m) true)]> members)
    end
  | _ => Ok members
  end.

Fixpoint committeeLoop (certs : list BlockCertificate) (members : gmap Credential (option CommitteeMemberR)) : ccheck :=
  match certs with [] => Ok () | c :: certs => members ← committeeCertificate members c; committeeLoop certs members end.

Definition UtxoValidateCommitteeCertificates : ccheck :=
  if negb (IsValid tx) then Ok () else committeeLoop (Certificates tx) ∅.

(** The elected cold credentials that authorize [hot] after the certificates. *)
Fixpoint electedColds (isElected : Credential -> bres bool) (colds : list Credential) (acc : gset Credential) : bres (gset Credential) :=
  match colds with
  | [] => Ok acc
  | cold :: colds => e ← isElected cold; electedColds isElected colds (if e : bool then {[cold]} ∪ acc else acc)
  end.

Fixpoint electedCerts (isElected : Credential -> bres bool) (hot : Credential) (certs : list BlockCertificate) (acc : gset Credential)
    : bres (gset Credential) :=
  match certs with
  | [] => Ok acc
  | AuthCommitteeHotCertificate cold h :: certs =>
    if bool_decide (h = hot) then
      e ← isElected cold; electedCerts isElected hot certs (if e : bool then {[cold]} ∪ acc else acc ∖ {[cold]})
    else electedCerts isElected hot certs (acc ∖ {[cold]})
  | ResignCommitteeColdCertificate cold _ :: certs => electedCerts isElected hot certs (acc ∖ {[cold]})
  | _ :: certs => electedCerts isElected hot certs acc
  end.

Definition electedCommitteeColdCredentials (isElected : Credential -> bres bool) (hot : Credential) : bres (gset Credential) :=
  colds ← CommitteeHotCredentialColdCredentials (lstate ls) hot;
  elected ← electedColds isElected colds ∅;
  electedCerts isElected hot (Certificates tx) elected.
End Committee.

(** ** Votes *)

Definition CredentialTypeAddrKeyHash : Z := 0.
Definition CredentialTypeScriptHash : Z := 1.

Definition isDRepVoter (v : Voter) : bool := (voterType v =? VoterTypeDRepKeyHash) || (voterType v =? VoterTypeDRepScriptHash).
Definition isCCVoter (v : Voter) : bool :=
  (voterType v =? VoterTypeConstitutionalCommitteeHotKeyHash) || (voterType v =? VoterTypeConstitutionalCommitteeHotScriptHash).
Definition isSPOVoter (v : Voter) : bool := voterType v =? VoterTypeStakingPoolKeyHash.

Definition voterCredential (v : Voter) : Credential :=
  (if (voterType v =? VoterTypeDRepScriptHash) || (voterType v =? VoterTypeConstitutionalCommitteeHotScriptHash)
   then CredentialTypeScriptHash else CredentialTypeAddrKeyHash, voterHash v).

Section Votes.
Context (tx : ConwayTransaction) (slot : Z) (ls : ConwayState) (pp : ConwayProtocolParameters).

(** A committee voter whose hot key no elected, or from before, no current
    member authorizes. *)
Definition hotKeyAuthorized (hot : Credential) : result conwayError bool :=
  match overlayCommitteeStateAvailable ls with
  | Ok true =>
    if ProtocolVersionVanRossem <=? major pp then
      match CommitteeElected (gov ls) with
      | None => gerr (CommitteeMemberLookup hot)
      | Some isElected =>
        match electedCommitteeColdCredentials tx ls isElected hot with
        | Err _ => gerr (CommitteeMemberLookup hot)
        | Ok elected => Ok (negb (bool_decide (elected = ∅)))
        end
      end
    else
      match overlayHotMembers (newConwayCertsOverlay tx) ls hot with
      | Err _ => gerr (CommitteeMemberLookup hot)
      | Ok members => Ok (existsb (fun m => match m with Some m => negb (Resigned m) | None => false end) members)
      end
  | _ => gerr (CommitteeMemberLookup hot)
  end.

Definition knownVoter (v : Voter) : ccheck :=
  let overlay := newConwayCertsOverlay tx in
  if isDRepVoter v then
    reg ← ask (overlayDRepRegistration overlay ls (voterCredential v));
    match reg with None => gerr (UnknownVoter v) | Some _ => Ok () end
  else if isSPOVoter v then
    if overlayIsPoolRegistered overlay ls (voterHash v) then Ok () else gerr (UnknownVoter v)
  else if isCCVoter v then
    known ← hotKeyAuthorized (voterCredential v);
    if known : bool then Ok () else gerr (UnknownVoter v)
  else gerr (UnknownVoter v).

Definition UtxoValidateUnknownVoters : ccheck :=
  if negb (IsValid tx) then Ok () else
  each (fun vote => match fst vote with None => Ok () | Some v => knownVoter v end) (VotingProcedures tx).

Definition idCompare (a b : GovActionId) : comparison :=
  match bytesCompare (fst a) (fst b) with Eq => Z.compare (snd a) (snd b) | c => c end.

Definition UtxoValidateUnknownGovActionIds : ccheck :=
  let unknown := VotingProcedures tx ≫= fun vote => omap (fun id =>
    match id with
    | None => Some (repeat 0 32, 0)
    | Some id => if resolverExists tx ls id then None else Some id
    end) (snd vote) in
  if blen unknown =? 0 then Ok () else gerr (UnknownGovActionId (sortBy idCompare unknown)).

(** The rules that look at each vote of each voter that is not nil. *)
Definition eachVote (f : Voter -> option GovActionId -> ccheck) : ccheck :=
  each (fun vote => match fst vote with None => Ok () | Some v => each (f v) (snd vote) end) (VotingProcedures tx).

Definition voteOnExpired (v : Voter) (id : option GovActionId) : ccheck :=
  match id with
  | None => gerr (UnknownGovActionId [(repeat 0 32, 0)])
  | Some id =>
    if bool_decide (is_Some (txProposalActions tx !! id)) then Ok () else
    match GovActionById (lstate ls) id with
    | Err _ => gerr (GovernanceStateUnavailable (Some id) "governance action expiry")
    | Ok None => gerr (UnknownGovActionId [id])
    | Ok (Some st) =>
      if ExpirySlot st =? 0 then gerr (GovernanceStateUnavailable (Some id) "governance action expiry")
      else if ExpirySlot st <? slot then gerr (VotingOnExpiredGovAction v id (ExpirySlot st) slot) else Ok ()
    end
  end.

Definition UtxoValidateVotingOnExpiredGovAction : ccheck := eachVote voteOnExpired.

Definition isBootstrapAction (t : Z) : bool :=
  (t =? GovActionTypeParameterChange) || (t =? GovActionTypeHardForkInitiation) || (t =? GovActionTypeInfo).

Definition bootstrapVote (v : Voter) (id : option GovActionId) : ccheck :=
  match id with
  | None => gerr (BootstrapVotingRestriction v None)
  | Some id =>
    '(t, _) ← resolveRequired tx ls id;
    let allowed := if isDRepVoter v then t =? GovActionTypeInfo else isBootstrapAction t in
    if allowed then Ok () else gerr (BootstrapVotingRestriction v (Some id))
  end.

Definition UtxoValidateBootstrapVotingRestrictions : ccheck :=
  if negb (isInConwayBootstrapPhase pp) then Ok () else eachVote bootstrapVote.

Definition stakePoolVote (v : Voter) (id : option GovActionId) : ccheck :=
  if negb (isSPOVoter v) then Ok () else
  match id with
  | None => gerr (StakePoolVotingRestriction v None)
  | Some id =>
    '(t, action) ← resolveRequired tx ls id;
    if (t =? GovActionTypeNewConstitution) || (t =? GovActionTypeTreasuryWithdrawal)
    then gerr (StakePoolVotingRestriction v (Some id))
    else if t =? GovActionTypeParameterChange then
      match action with
      | Some (ParameterChangeGovAction _ update _) =>
        if 0 <? blen (SecurityGroupFields update) then Ok () else gerr (StakePoolVotingRestriction v (Some id))
      | _ => gerr (GovernanceStateUnavailable (Some id) "parameter-change contents")
      end
    else Ok ()
  end.

Definition UtxoValidateStakePoolVotingRestrictions : ccheck := eachVote stakePoolVote.

Definition ccVote (v : Voter) (id : option GovActionId) : ccheck :=
  match id with
  | None => gerr (CCVotingRestriction v None)
  | Some id =>
    '(t, _) ← resolveRequired tx ls id;
    if (t =? GovActionTypeNoConfidence) || (t =? GovActionTypeUpdateCommittee)
    then gerr (CCVotingRestriction v (Some id)) else Ok ()
  end.

(** This rule reads the type of every voter, a nil one too. *)
Definition UtxoValidateCCVotingRestrictions : ccheck :=
  each (fun vote =>
    match fst vote with
    | None => gerr NilPanic
    | Some v => if negb (isCCVoter v) then Ok () else each (ccVote v) (snd vote)
    end) (VotingProcedures tx).

Definition UtxoValidateUnelectedCommitteeVoters : ccheck :=
  if negb (IsValid tx) then Ok () else
  if major pp <? ProtocolVersionVanRossem then Ok () else
  if blen (VotingProcedures tx) =? 0 then Ok () else
  match CommitteeCredentials (gov ls) with
  | None => gerr CommitteeStateUnavailable
  | Some cs =>
    available ← ask (CommitteeStateAvailable cs);
    if negb available then gerr CommitteeStateUnavailable else
    match CommitteeElected (gov ls) with
    | None => gerr CommitteeStateUnavailable
    | Some isElected =>
      let voters := omap (fun vote => v ← fst vote; if isCCVoter v then Some v else None) (VotingProcedures tx) in
      each (fun v =>
        match electedCommitteeColdCredentials tx ls isElected (voterCredential v) with
        | Err _ => gerr (CommitteeMemberLookup (voterCredential v))
        | Ok elected => if bool_decide (elected = ∅) then gerr (UnelectedCommitteeVoter v) else Ok ()
        end) (sortBy (fun a b => keyCompare (voterType a, voterHash a) (voterType b, voterHash b)) voters)
    end
  end.
End Votes.

(** ** The governance rules among the rules of the era *)

Definition govRule (other : RuleId -> Rule) (r : RuleId) : Rule :=
  match r with
  | ProposalProceduresRule => fun tx slot ls pp => UtxoValidateProposalProcedures tx slot ls pp
  | GovActionWellFormedness => fun tx _ ls _ => UtxoValidateGovActionWellFormedness tx ls
  | HardForkCanFollow => fun tx _ ls pp => UtxoValidateHardForkCanFollow tx ls pp
  | ProposalAncestry => fun tx _ ls _ => UtxoValidateProposalAncestry tx ls
  | ProposalNetworkIds => fun tx _ ls _ => UtxoValidateProposalNetworkIds tx ls
  | ProposalReturnAccounts => fun tx _ ls pp => UtxoValidateProposalReturnAccounts tx ls pp
  | EmptyTreasuryWithdrawalsRule => fun tx _ _ _ => UtxoValidateEmptyTreasuryWithdrawals tx
  | BootstrapAllowedGovActions => fun tx _ _ pp => UtxoValidateBootstrapAllowedGovActions tx pp
  | ProposalReturnAddressShape => fun tx _ _ _ => UtxoValidateProposalReturnAddressShape tx
  | CommitteeCertificates => fun tx _ ls _ => UtxoValidateCommitteeCertificates tx ls
  | UnknownVoters => fun tx _ ls pp => UtxoValidateUnknownVoters tx ls pp
  | UnknownGovActionIds => fun tx _ ls _ => UtxoValidateUnknownGovActionIds tx ls
  | VotingOnExpired => fun tx slot ls _ => UtxoValidateVotingOnExpiredGovAction tx slot ls
  | BootstrapVotingRestrictions => fun tx _ ls pp => UtxoValidateBootstrapVotingRestrictions tx ls pp
  | StakePoolVotingRestrictions => fun tx _ ls _ => UtxoValidateStakePoolVotingRestrictions tx ls
  | CCVotingRestrictions => fun tx _ ls _ => UtxoValidateCCVotingRestrictions tx ls
  | UnelectedCommitteeVoters => fun tx _ ls pp => UtxoValidateUnelectedCommitteeVoters tx ls pp
  | r => other r
  end.
