(* ===== verification/GovLedger.v ===== *)
(** * Governance on a ledger (src/ledger/conway/rules.go, certs_overlay.go)

    The proposals of an accepted block keep the tree of governance actions and
    the versions of hard forks sound; the rules on votes, on voters, on return
    accounts and on the certificates of the committee against the ledger of
    BlockState with the transaction's certificates applied. *)

From S2P Require Import Prelude Scripts ShelleyRules ShelleyLedger Params MultiAsset BlockState Conway ConwayLedger Gov.
#[local] Open Scope Z_scope.

(** ** Loops and maps *)

Lemma and_iff (A A' B B' : Prop) : (A <-> A') -> (B <-> B') -> A /\ B <-> A' /\ B'.
Proof. tauto. Qed.
Lemma impl_iff (A B B' : Prop) : (A -> (B <-> B')) -> (A -> B) <-> (A -> B').
Proof. tauto. Qed.

Lemma each_ok {A} (f : A -> ccheck) l : each f l = Ok () <-> Forall (fun a => f a = Ok ()) l.
Proof.
  induction l as [|a l IH]; cbn [each]; [by split|]. rewrite Forall_cons, <- IH.
  destruct (f a) as [[]|e]; cbn [mbind result_bind]; naive_solver.
Qed.

Lemma eachi_ok {A} (f : Z -> A -> ccheck) l : forall i,
  eachi f i l = Ok () <-> forall k a, l !! k = Some a -> f (i + Z.of_nat k) a = Ok ().
Proof.
  induction l as [|a l IH]; intros i; cbn [eachi]; [split; [intros _ k a H; by rewrite lookup_nil in H|done]|].
  split.
  - intros H. peel H. destruct v. intros [|k] b Hb; cbn in Hb.
    + injection Hb as <-. by rewrite Z.add_0_r.
    + rewrite IH in H. replace (i + Z.of_nat (S k)) with (i + 1 + Z.of_nat k) by lia. by apply H.
  - intros H. pose proof (H 0%nat a eq_refl) as H0. rewrite Z.add_0_r in H0. rewrite H0. cbn [mbind result_bind].
    apply IH. intros k b Hb. replace (i + 1 + Z.of_nat k) with (i + Z.of_nat (S k)) by lia. by apply H.
Qed.

Lemma insertBy_perm {A} cmp (x : A) l : insertBy cmp x l ≡ₚ x :: l.
Proof. induction l as [|y l IH]; cbn; [done|]. destruct (cmp x y); [done..|]. rewrite IH. constructor. Qed.

Lemma sortBy_perm {A} cmp (l : list A) : sortBy cmp l ≡ₚ l.
Proof. induction l as [|x l IH]; cbn; [done|]. by rewrite insertBy_perm, IH. Qed.

(** The proposal at an index, as the code's [int]. *)
Definition proposalAt (tx : ConwayTransaction) (i : Z) : option ProposalProcedure :=
  if i <? 0 then None else ProposalProcedures tx !! Z.to_nat i.

Lemma txProposalLoop_other txId ps id : forall idx m, fst id <> txId \/ snd id < idx -> txProposalLoop txId idx ps m !! id = m !! id.
Proof.
  induction ps as [|p ps IH]; intros idx m H; cbn [txProposalLoop]; [done|].
  destruct (governanceProposalIndexFits idx); cbn [negb]; [|done].
  rewrite IH by (destruct H; [by left|right; lia]). apply lookup_insert_ne. intros <-. cbn in H. destruct H; [done|lia].
Qed.

Lemma txProposalLoop_lookup txId ps : forall idx m k, 0 <= idx ->
  txProposalLoop txId idx ps m !! (txId, idx + Z.of_nat k) =
  match ps !! k with
  | Some p => if idx + Z.of_nat k <=? MaxUint32 then Some (idx + Z.of_nat k, PPGovAction p) else m !! (txId, idx + Z.of_nat k)
  | None => m !! (txId, idx + Z.of_nat k)
  end.
Proof.
  induction ps as [|p ps IH]; intros idx m k Hi; cbn [txProposalLoop]; [by destruct k|].
  unfold governanceProposalIndexFits. rewrite (proj2 (Z.leb_le 0 idx) Hi). cbn [andb].
  destruct (Z.leb_spec idx MaxUint32) as [Hm|Hm]; cbn [negb].
  - destruct k as [|k].
    + cbn [lookup list_lookup]. rewrite Z.add_0_r, (proj2 (Z.leb_le _ _) Hm). rewrite txProposalLoop_other by (right; cbn; lia).
      by rewrite lookup_insert_eq.
    + cbn [lookup list_lookup]. replace (idx + Z.of_nat (S k)) with (idx + 1 + Z.of_nat k) by lia. rewrite IH by lia.
      rewrite lookup_insert_ne; [done|]. intros [=]. lia.
  - destruct (Z.leb_spec (idx + Z.of_nat k) MaxUint32); [lia|]. by destruct ((p :: ps) !! k).
Qed.

Lemma txProposalActions_lookup tx id i a :
  txProposalActions tx !! id = Some (i, a) <->
  id = (Hash tx, i) /\ i <= MaxUint32 /\ exists p, proposalAt tx i = Some p /\ a = PPGovAction p.
Proof.
  unfold txProposalActions, proposalAt. destruct id as [h j]. split.
  - intros H. destruct (decide (h = Hash tx)) as [->|Hh]; [|by rewrite txProposalLoop_other, lookup_empty in H by (by left)].
    destruct (Z.ltb_spec j 0) as [Hj|Hj]; [by rewrite txProposalLoop_other, lookup_empty in H by (right; cbn; lia)|].
    replace j with (0 + Z.of_nat (Z.to_nat j)) in H by lia. rewrite txProposalLoop_lookup in H by lia.
    destruct (ProposalProcedures tx !! Z.to_nat j) as [p|] eqn:E; [|by rewrite lookup_empty in H].
    destruct (Z.leb_spec (0 + Z.of_nat (Z.to_nat j)) MaxUint32); [|by rewrite lookup_empty in H]. injection H as <- <-.
    replace (0 + Z.of_nat (Z.to_nat j)) with j by lia. destruct (Z.ltb_spec j 0); [lia|]. split; [done|]. split; [lia|]. by exists p.
  - intros ([= -> ->] & Hm & p & Hp & ->). destruct (Z.ltb_spec i 0) as [|Hi]; [done|].
    replace (Hash tx, i) with (Hash tx, 0 + Z.of_nat (Z.to_nat i)) by (f_equal; lia).
    rewrite txProposalLoop_lookup, Hp by lia. destruct (Z.leb_spec (0 + Z.of_nat (Z.to_nat i)) MaxUint32); [|lia].
    f_equal. f_equal. lia.
Qed.

Lemma recordProposals_other txId ps id : forall idx m, fst id <> txId \/ snd id < idx -> recordProposals txId idx ps m !! id = m !! id.
Proof.
  induction ps as [|p ps IH]; intros idx m H; cbn [recordProposals]; [done|]. destruct (MaxGovActionIdx <? idx); [done|].
  rewrite IH by (destruct H; [by left|right; lia]).
  destruct p as [a|]; [|done]. destruct (blockGovActionType (Some a)); [|done].
  apply lookup_insert_ne. intros <-. cbn in H. destruct H; [done|lia].
Qed.

Lemma recordProposals_lookup txId ps : forall idx m k,
  recordProposals txId idx ps m !! (txId, idx + Z.of_nat k) =
  match ps !! k with
  | Some (Some a) =>
    match blockGovActionType (Some a) with
    | Some t => if MaxGovActionIdx <? idx + Z.of_nat k then m !! (txId, idx + Z.of_nat k)
                else Some (mkActionState (txId, idx + Z.of_nat k) t MaxUint64 (Some a))
    | None => m !! (txId, idx + Z.of_nat k)
    end
  | _ => m !! (txId, idx + Z.of_nat k)
  end.
Proof.
  induction ps as [|p ps IH]; intros idx m k; cbn [recordProposals]; [by destruct k|].
  destruct (Z.ltb_spec MaxGovActionIdx idx) as [Hm|Hm].
  - destruct ((p :: ps) !! k) as [[a|]|]; try done. destruct (blockGovActionType (Some a)); [|done].
    destruct (Z.ltb_spec MaxGovActionIdx (idx + Z.of_nat k)); [done|lia].
  - destruct k as [|k].
    + cbn [lookup list_lookup]. rewrite Z.add_0_r, recordProposals_other by (right; cbn; lia).
      destruct p as [a|]; [|done]. destruct (blockGovActionType (Some a)); [|done].
      destruct (Z.ltb_spec MaxGovActionIdx idx); [lia|]. by rewrite lookup_insert_eq.
    + cbn [lookup list_lookup]. replace (idx + Z.of_nat (S k)) with (idx + 1 + Z.of_nat k) by lia.
      match goal with |- context [recordProposals txId (idx + 1) ps ?m'] =>
        assert (E : m' !! (txId, idx + 1 + Z.of_nat k) = m !! (txId, idx + 1 + Z.of_nat k))
      end.
      { destruct p as [a|]; [|done]. destruct (blockGovActionType (Some a)); [|done].
        apply lookup_insert_ne. intros [=]. lia. }
      rewrite IH, E. done.
Qed.

(** ** The tree of proposals *)

Abbreviation Actions := (gmap GovActionId GovActionState).

(** Every recorded action has its contents, of the type recorded. *)
Definition actions_wf (m : Actions) : Prop :=
  forall i st, m !! i = Some st -> blockGovActionType (Action st) = Some (ActionType st).

(** An action that descends from the last enacted one of its purpose. *)
Inductive rooted (roots : GovPurposeRoots) (m : Actions) (purpose : govActionPurpose) : GovActionId -> Prop :=
| rooted_first i st : m !! i = Some st -> govActionAncestor (Action st) = Some (govPurposeRootId roots purpose, purpose) ->
    rooted roots m purpose i
| rooted_next i st j : m !! i = Some st -> govActionAncestor (Action st) = Some (Some j, purpose) ->
    rooted roots m purpose j -> rooted roots m purpose i.

Definition forest (roots : GovPurposeRoots) (m : Actions) : Prop :=
  forall i st prev purpose, m !! i = Some st -> govActionAncestor (Action st) = Some (prev, purpose) -> rooted roots m purpose i.

(** A version reached from the current one by allowed steps. *)
Inductive version_path (cur : Z * Z) : Z * Z -> Prop :=
| path_first v : protocolVersionCanFollow cur v = true -> version_path cur v
| path_next v w : version_path cur v -> protocolVersionCanFollow v w = true -> version_path cur w.

Definition versions_ok (cur : Z * Z) (m : Actions) : Prop :=
  forall i st prev v, m !! i = Some st -> Action st = Some (HardForkInitiationGovAction prev v) ->
    version_path cur v /\ fst v <= fst cur + 1.

Lemma rooted_mono roots m m' purpose i : m ⊆ m' -> rooted roots m purpose i -> rooted roots m' purpose i.
Proof.
  intros Hs H. induction H as [i st Hi Ha|i st j Hi Ha H IH].
  - eapply rooted_first; [by eapply lookup_weaken|done].
  - eapply rooted_next; [by eapply lookup_weaken|done|done].
Qed.

Lemma type_purpose a t : blockGovActionType a = Some t -> govActionTypePurpose t = snd <$> govActionAncestor a.
Proof. destruct a as [[]|]; intros [= <-]; reflexivity. Qed.

Lemma ancestor_type a x : govActionAncestor a = Some x -> exists t, blockGovActionType a = Some t.
Proof. destruct a as [[]|]; try done; intros _; eexists; reflexivity. Qed.

Lemma hardFork_ancestor a prev : govActionAncestor a = Some (prev, govPurposeHardFork) -> exists v, a = Some (HardForkInitiationGovAction prev v).
Proof. destruct a as [[]|]; try done. intros [= <-]. by eexists. Qed.

Section Accepted.
Context (tx : ConwayTransaction) (ls : ConwayState) (pp : ConwayProtocolParameters) (L : CLedger).
Context (roots : GovPurposeRoots).
Context (R : reports (lstate ls) L) (HR : PurposeRoots (gov ls) = Some (Ok (Some roots))).
Context (W : actions_wf (lAction L)) (F : forest roots (lAction L)).
Context (Hfresh : forall k, lAction L !! (Hash tx, k) = None).
Context (HA : UtxoValidateProposalAncestry tx ls = Ok ()).
#[local] Set Default Proof Using "All".

Definition after : Actions := recordProposals (Hash tx) 0 (PPGovAction <$> ProposalProcedures tx) (lAction L).

Lemma after_lookup h i :
  after !! (h, i) =
  if decide (h = Hash tx) then
    match proposalAt tx i with
    | Some p => match PPGovAction p, blockGovActionType (PPGovAction p) with
                | Some a, Some t => if MaxGovActionIdx <? i then None else Some (mkActionState (Hash tx, i) t MaxUint64 (Some a))
                | _, _ => None
                end
    | None => None
    end
  else lAction L !! (h, i).
Proof.
  unfold after, proposalAt. destruct (decide (h = Hash tx)) as [->|Hh]; [|by rewrite recordProposals_other by (by left)].
  destruct (Z.ltb_spec i 0); [rewrite recordProposals_other by (right; cbn; lia); apply Hfresh|].
  replace (Hash tx, i) with (Hash tx, 0 + Z.of_nat (Z.to_nat i)) by (f_equal; lia).
  rewrite recordProposals_lookup, list_lookup_fmap. replace (0 + Z.of_nat (Z.to_nat i)) with i by lia. rewrite Hfresh.
  destruct (ProposalProcedures tx !! Z.to_nat i) as [p|]; cbn [fmap option_fmap option_map]; [|done].
  destruct (PPGovAction p) as [a|]; [|done]. by destruct (blockGovActionType (Some a)).
Qed.

Lemma after_extends : lAction L ⊆ after.
Proof.
  apply map_subseteq_spec. intros [h i] st H. rewrite after_lookup. destruct (decide (h = Hash tx)) as [->|]; [|done].
  by rewrite Hfresh in H.
Qed.

(** A recorded action is an old one, or the proposal at its index. *)
Lemma after_cases i st : after !! i = Some st ->
  lAction L !! i = Some st \/
  exists k p a t, i = (Hash tx, k) /\ proposalAt tx k = Some p /\ k <= MaxGovActionIdx /\ PPGovAction p = Some a /\
    blockGovActionType (Some a) = Some t /\ st = mkActionState i t MaxUint64 (Some a).
Proof.
  destruct i as [h k]. rewrite after_lookup. destruct (decide (h = Hash tx)) as [->|]; [|by left].
  destruct (proposalAt tx k) as [p|] eqn:Ep; [|done]. destruct (PPGovAction p) as [a|] eqn:Ea; [|done].
  destruct (blockGovActionType (Some a)) as [t|] eqn:Et; [|done]. destruct (Z.ltb_spec MaxGovActionIdx k); [done|].
  intros [= <-]. right. by exists k, p, a, t.
Qed.

Lemma after_wf : actions_wf after.
Proof.
  intros i st H. apply after_cases in H as [H|(k & p & a & t & -> & _ & _ & _ & Et & ->)]; [by apply (W i)|done].
Qed.

(** What the ancestry rule says of a proposal. *)
Lemma ancestry_of k p prev purpose : proposalAt tx k = Some p -> govActionAncestor (PPGovAction p) = Some (prev, purpose) ->
  proposalAncestry tx ls roots k p = Ok ().
Proof.
  intros Hp Ha. unfold proposalAt in Hp. destruct (Z.ltb_spec k 0); [done|].
  unfold UtxoValidateProposalAncestry in HA.
  assert (E : existsb (fun p => negb (absent (govActionAncestor (PPGovAction p)))) (ProposalProcedures tx) = true).
  { apply existsb_exists. exists p. split; [by eapply list_elem_of_In, list_elem_of_lookup_2|]. by rewrite Ha. }
  rewrite E in HA. cbn [negb] in HA. unfold govPurposeRoots in HA. rewrite HR in HA. cbn [mbind result_bind] in HA.
  rewrite eachi_ok in HA. specialize (HA _ _ Hp). by replace (0 + Z.of_nat (Z.to_nat k)) with k in HA by lia.
Qed.

(** The predecessor of a proposal: the root, an earlier proposal, or an action
    of the ledger, of the same purpose. *)
Lemma predecessor k p prev purpose : proposalAt tx k = Some p -> govActionAncestor (PPGovAction p) = Some (prev, purpose) ->
  prev = govPurposeRootId roots purpose \/
  exists j, prev = Some j /\
    ((exists i q x, j = (Hash tx, i) /\ i < k /\ proposalAt tx i = Some q /\ govActionAncestor (PPGovAction q) = Some (x, purpose)) \/
     (txProposalActions tx !! j = None /\ exists st x, lAction L !! j = Some st /\ govActionAncestor (Action st) = Some (x, purpose))).
Proof.
  intros Hp Ha. pose proof (ancestry_of k p prev purpose Hp Ha) as H. unfold proposalAncestry in H. rewrite Ha in H.
  destruct prev as [j|]; [|destruct (govPurposeRootId roots purpose); [done|by left]].
  case_bool_decide as Hroot; [by left; rewrite Hroot|]. right. exists j. split; [done|].
  destruct (txProposalActions tx !! j) as [[i a]|] eqn:Et.
  - left. apply txProposalActions_lookup in Et as (-> & _ & q & Hq & ->).
    destruct (Z.ltb_spec i k); cbn [andb] in H; [|done]. case_bool_decide as Hb; [|done].
    destruct (govActionAncestor (PPGovAction q)) as [[x u]|] eqn:Eq; [|done]. injection Hb as ->.
    exists i, q, x. rewrite Eq. repeat split; done || lia.
  - right. split; [done|]. rewrite (r_action _ _ R) in H. destruct (lAction L !! j) as [st|] eqn:Es; [|done].
    case_bool_decide as Hb; [|done]. rewrite (type_purpose _ _ (W _ _ Es)) in Hb. exists st.
    destruct (govActionAncestor (Action st)) as [[x u]|]; [|done]. injection Hb as ->. by exists x.
Qed.

Lemma proposal_rooted : forall n k p prev purpose, Z.to_nat k = n -> k <= MaxGovActionIdx ->
  proposalAt tx k = Some p -> govActionAncestor (PPGovAction p) = Some (prev, purpose) -> rooted roots after purpose (Hash tx, k).
Proof.
  induction n as [n IH] using lt_wf_ind. intros k p prev purpose En Hm Hp Ha.
  destruct (ancestor_type _ _ Ha) as [t Et]. destruct (PPGovAction p) as [a|] eqn:Ea; [|done].
  assert (Hk : after !! (Hash tx, k) = Some (mkActionState (Hash tx, k) t MaxUint64 (Some a))).
  { rewrite after_lookup, decide_True, Hp, Ea, Et by done. destruct (Z.ltb_spec MaxGovActionIdx k); [lia|done]. }
  assert (Ha' : govActionAncestor (PPGovAction p) = Some (prev, purpose)) by (by rewrite Ea).
  destruct (predecessor k p prev purpose Hp Ha') as [->|(j & -> & [(i & q & x & -> & Hi & Hq & Hqa)|(_ & st & x & Hj & Hx)])].
  - eapply rooted_first; [exact Hk|exact Ha].
  - eapply rooted_next; [exact Hk|exact Ha|]. unfold proposalAt in Hp, Hq. destruct (Z.ltb_spec k 0), (Z.ltb_spec i 0); try done.
    eapply (IH (Z.to_nat i)); [lia|done|lia| |exact Hqa]. unfold proposalAt. destruct (Z.ltb_spec i 0); [lia|done].
  - eapply rooted_next; [exact Hk|exact Ha|]. apply (rooted_mono roots (lAction L)); [apply after_extends|]. by apply (F j st x).
Qed.

Lemma after_forest : forest roots after.
Proof.
  intros i st prev purpose H Ha. apply after_cases in H as [H|(k & p & a & t & -> & Hp & Hm & Ea & _ & ->)].
  - apply (rooted_mono roots (lAction L)); [apply after_extends|]. by apply (F i st prev).
  - cbn [Action] in Ha. rewrite <- Ea in Ha. by apply (proposal_rooted (Z.to_nat k) k p prev).
Qed.

(** *** Versions *)

Context (HV : versions_ok (pProtocolVersion pp) (lAction L)).
Context (Hroots : forall purpose k, govPurposeRootId roots purpose <> Some (Hash tx, k)).
Context (Hcur : 0 <= fst (pProtocolVersion pp)).
Context (HF : UtxoValidateHardForkCanFollow tx ls pp = Ok ()).

Lemma follow_major cur v : 0 <= fst cur -> protocolVersionCanFollow cur v = true -> fst v <= fst cur + 1.
Proof using Type.
  intros Hc. unfold protocolVersionCanFollow, u64.
  assert (H1 : 0 < 18446744073709551616) by lia. pose proof (Z.mod_le (fst cur + 1) _ ltac:(lia) H1).
  destruct (Z.eqb_spec (fst v) ((fst cur + 1) mod 18446744073709551616)); [lia|]. cbn [andb].
  destruct (Z.eqb_spec (fst v) (fst cur)); [lia|done].
Qed.

Lemma version_of : forall n k p prev v, Z.to_nat k = n -> proposalAt tx k = Some p ->
  PPGovAction p = Some (HardForkInitiationGovAction prev v) ->
  version_path (pProtocolVersion pp) v /\ fst v <= fst (pProtocolVersion pp) + 1.
Proof.
  induction n as [n IH] using lt_wf_ind. intros k p prev v En Hp Ha.
  assert (HK : hardForkProposal tx ls pp k p = Ok ()).
  { unfold proposalAt in Hp. destruct (Z.ltb_spec k 0); [done|]. unfold UtxoValidateHardForkCanFollow in HF. rewrite eachi_ok in HF.
    specialize (HF _ _ Hp). by replace (0 + Z.of_nat (Z.to_nat k)) with k in HF by lia. }
  unfold hardForkProposal in HK. rewrite Ha in HK. unfold hardForkReference in HK. cbn zeta in HK.
  set (cur := pProtocolVersion pp) in *.
  assert (Direct : forall r : ccheck, (if negb (protocolVersionCanFollow cur v) then r else Ok ()) = Ok () -> r <> Ok () ->
    version_path cur v /\ fst v <= fst cur + 1).
  { intros r Hr Hn. destruct (protocolVersionCanFollow cur v) eqn:Ef; [|done]. split; [by apply path_first|by apply follow_major]. }
  destruct (predecessor k p prev govPurposeHardFork Hp ltac:(by rewrite Ha)) as [->|(j & -> & Hj)].
  - destruct (govPurposeRootId roots govPurposeHardFork) as [id|] eqn:Er; [|by eapply Direct].
    destruct ((fst cur <? fst v) && (1 <? fst v - fst cur)); [by eapply Direct|].
    destruct (txProposalActions tx !! id) as [[i a]|] eqn:Et.
    { apply txProposalActions_lookup in Et as (-> & _). by apply Hroots in Er. }
    unfold govPurposeRoots in HK. rewrite HR in HK. cbn [mbind result_bind] in HK. cbn in Er. rewrite bool_decide_true in HK by done.
    by eapply Direct.
  - destruct ((fst cur <? fst v) && (1 <? fst v - fst cur)) eqn:Eh; [by eapply Direct|].
    assert (Hle : fst v <= fst cur + 1) by (destruct (Z.ltb_spec (fst cur) (fst v)), (Z.ltb_spec 1 (fst v - fst cur)); cbn in Eh; try done; lia).
    split; [|exact Hle].
    destruct Hj as [(i & q & x & -> & Hi & Hq & Hqa)|(Ht & st & x & Hs & Hx)].
    + apply hardFork_ancestor in Hqa as [w Hw].
      destruct (txProposalActions tx !! (Hash tx, i)) as [[i' a]|] eqn:Et.
      * apply txProposalActions_lookup in Et as ([= <-] & _ & q' & Hq' & ->). rewrite Hq in Hq'. injection Hq' as <-.
        destruct (Z.leb_spec k i); [lia|]. rewrite Hw in HK. cbn [mbind result_bind hardForkProposedVersion] in HK.
        destruct (protocolVersionCanFollow w v) eqn:Ef; [|done]. eapply path_next; [|exact Ef].
        unfold proposalAt in Hp, Hq. destruct (Z.ltb_spec k 0), (Z.ltb_spec i 0); try done.
        eapply (IH (Z.to_nat i)); [lia|done| |exact Hw]. unfold proposalAt. destruct (Z.ltb_spec i 0); [lia|done].
      * exfalso. unfold govPurposeRoots in HK. rewrite HR in HK. cbn [mbind result_bind] in HK.
        rewrite bool_decide_false in HK by (apply (Hroots govPurposeHardFork)).
        rewrite (r_action _ _ R), Hfresh in HK. done.
    + apply hardFork_ancestor in Hx as [w Hw]. rewrite Ht in HK. unfold govPurposeRoots in HK. rewrite HR in HK.
      cbn [mbind result_bind] in HK. case_bool_decide as Hb.
      * cbn [mbind result_bind] in HK. apply path_first. by destruct (protocolVersionCanFollow cur v).
      * rewrite (r_action _ _ R), Hs in HK. cbn [mbind result_bind] in HK. rewrite Hw in HK. cbn [mbind result_bind hardForkProposedVersion] in HK.
        destruct (protocolVersionCanFollow w v) eqn:Ef; [|done]. eapply path_next; [|exact Ef]. by apply (HV j st x).
Qed.

Lemma after_versions : versions_ok (pProtocolVersion pp) after.
Proof.
  intros i st prev v H Ha. apply after_cases in H as [H|(k & p & a & t & -> & Hp & _ & Ea & _ & ->)].
  - by apply (HV i st prev).
  - cbn in Ha. injection Ha as ->. by apply (version_of (Z.to_nat k) k p prev).
Qed.
End Accepted.

(** ** Blocks *)

Lemma withdraw_actions ws : forall L : CLedger, lAction (foldl withdraw L ws) = lAction L.
Proof.
  induction ws as [|w ws IH]; intros L; cbn; [done|]. rewrite IH. unfold withdraw.
  destruct (RewardAccountCredential (fst w)); [|done]. by destruct (lBalance L !! a).
Qed.

Lemma certify_actions kd certs : forall L : CLedger, lAction (foldl (certify kd) L certs) = lAction L.
Proof.
  induction certs as [|c certs IH]; intros L; cbn [foldl]; [done|]. rewrite IH. destruct c; try done; cbn [certify].
  - unfold lpool. by destruct (lPool L !! Operator reg).
  - by destruct (lDRep L !! c).
Qed.

Lemma ledger_tx_actions kd (L : CLedger) tx :
  lAction (ledger_tx kd L (blockTx tx)) =
  if IsValid tx then recordProposals (Hash tx) 0 (PPGovAction <$> ProposalProcedures tx) (lAction L) else lAction L.
Proof.
  unfold ledger_tx, blockTx. cbn [txConsumed txProduced txIsValid txLevels levelsOf]. destruct (IsValid tx); cbn [negb]; [|done].
  cbn [default from_option id foldl levelWithdrawals levelCertificates levelProposals txBody].
  unfold level. cbn [levelWithdrawals levelCertificates levelDirectDeposits levelProposals foldl levelId txHash lAction lset_other].
  by rewrite certify_actions, withdraw_actions.
Qed.

(** An invariant of the accepted transactions of a block: [P] is of what is left
    to verify and of the ledger so far. *)
Section Invariant.
Context (rules : list Rule) (slot epoch : Z) (pp : ConwayProtocolParameters).
Context (base : ConwayState) (L0 : CLedger) (D : Credential -> Prop).
Context (R : reports (lstate base) L0) (S0 : start_ok epoch L0) (Hk : 0 <= keyDeposit pp <= MaxUint64).
Context (P : list ConwayTransaction -> CLedger -> Prop).
Context (step : forall tx txs b L, overlay L0 b L -> cold_distinct D L0 b -> reports (lstate (viewOf base b)) L -> P (tx :: txs) L ->
  verifyRules 0 rules tx slot (viewOf base b) pp = Ok () -> P txs (ledger_tx (keyDeposit pp) L (blockTx tx))).
#[local] Set Default Proof Using "All".

Lemma verifyBlockLoop_invariant txs : forall idx b L b',
  overlay L0 b L -> cold_distinct D L0 b ->
  (forall tx cert c, tx ∈ txs -> cert ∈ Certificates tx -> coldOf cert = Some c -> D c) ->
  seq b + sum_by (fun tx => blen (Certificates tx)) txs <= MaxUint64 ->
  P txs L -> verifyBlockLoop idx rules txs slot base pp b = Ok b' ->
  let L' := foldl (ledger_tx (keyDeposit pp)) L (blockTx <$> txs) in
  overlay L0 b' L' /\ cold_distinct D L0 b' /\ P [] L'.
Proof.
  induction txs as [|tx txs IH]; intros idx b L b' O C Hc Hs HP; cbn [verifyBlockLoop].
  - intros [= <-]. cbn. done.
  - destruct (verifyRules 0 _ tx slot (viewOf base b) pp) as [[]|[r e]] eqn:V; [|done].
    pose proof (view_reports (lstate base) L0 b L D (so_wf _ _ S0) R O C) as RV. cbn [sum_by] in Hs.
    pose proof (step tx txs b L O C RV HP V) as HP'. pose proof (blockTx_count tx) as Hcnt.
    assert (Nn : 0 <= sum_by (fun tx => blen (Certificates tx)) txs) by (apply sum_by_nonneg; intros; apply blen_nonneg).
    destruct (sim_transaction (lstate base) L0 D R (so_wf _ _ S0) (keyDeposit pp) (blockTx tx) Hk) with (b := b) (L := L)
      as (b1 & E1 & O1 & C1 & B1).
    + apply blockTx_effective. intros _ cert c. apply Hc. left.
    + done.
    + exact O.
    + apply C.
    + lia.
    + rewrite E1. intros E. cbn [fmap list_fmap foldl]. 
      assert (C' : cold_distinct D L0 b1) by (destruct C as (C2 & C3 & _); done).
      assert (Hs' : seq b1 + sum_by (fun tx => blen (Certificates tx)) txs <= MaxUint64) by lia.
      exact (IH _ b1 _ b' O1 C' (fun tx' cert c Hin => Hc tx' cert c (list_elem_of_further _ _ _ Hin)) Hs' HP' E).
Qed.
End Invariant.

(** The state of governance that the theorems are about: what is recorded is
    typed, descends from the enacted actions, and no hard fork is out of reach. *)
Record gov_ok (cur : Z * Z) (roots : GovPurposeRoots) (m : Actions) : Prop := {
  go_wf : actions_wf m;
  go_forest : forest roots m;
  go_versions : versions_ok cur m
}.

(** The hashes of transactions are new to governance. *)
Definition ids_new (roots : GovPurposeRoots) (m : Actions) (txs : list ConwayTransaction) : Prop :=
  NoDup (Hash <$> txs) /\
  forall tx k, tx ∈ txs -> m !! (Hash tx, k) = None /\ forall purpose, govPurposeRootId roots purpose <> Some (Hash tx, k).

Lemma accepted_governance sv other tx slot ls pp (L : CLedger) roots :
  reports (lstate ls) L -> PurposeRoots (gov ls) = Some (Ok (Some roots)) -> 0 <= fst (pProtocolVersion pp) ->
  gov_ok (pProtocolVersion pp) roots (lAction L) ->
  (forall k, lAction L !! (Hash tx, k) = None) -> (forall purpose k, govPurposeRootId roots purpose <> Some (Hash tx, k)) ->
  verifyRules 0 (UtxoValidationRules sv (govRule other)) tx slot ls pp = Ok () ->
  gov_ok (pProtocolVersion pp) roots (lAction (ledger_tx (keyDeposit pp) L (blockTx tx))).
Proof.
  intros R HR Hc [W F V] Hid Hr H. rewrite ledger_tx_actions. destruct (IsValid tx) eqn:Hv; [|done].
  pose proof (accepted_valid _ _ _ _ _ _ 4 1 _ _ Hv H eq_refl eq_refl) as HA. cbn [ruleFunc govRule] in HA.
  pose proof (accepted_valid _ _ _ _ _ _ 4 0 _ _ Hv H eq_refl eq_refl) as HF. cbn [ruleFunc govRule] in HF.
  split; [by apply (after_wf tx ls pp L roots)|by apply (after_forest tx ls pp L roots)|by apply (after_versions tx ls pp L roots)].
Qed.

(** C5. In a block that the Conway rules accept, governance stays sound: every
    recorded action descends, through actions of its own purpose, from the last
    enacted one, and the version of every hard fork is reached from the current
    one by allowed steps and is at most one major version ahead. *)
Theorem block_governance_sound sv other slot epoch pp base (L0 : CLedger) D roots txs b :
  reports (lstate base) L0 -> start_ok epoch L0 -> PurposeRoots (gov base) = Some (Ok (Some roots)) ->
  0 <= keyDeposit pp <= MaxUint64 -> 0 <= fst (pProtocolVersion pp) ->
  block_ok D L0 txs -> ids_new roots (lAction L0) txs ->
  gov_ok (pProtocolVersion pp) roots (lAction L0) ->
  verifyBlockTransactions (UtxoValidationRules sv (govRule other)) txs slot base pp = Ok b ->
  let L' := foldl (ledger_tx (keyDeposit pp)) L0 (blockTx <$> txs) in
  reports (view (lstate base) b) L' /\ gov_ok (pProtocolVersion pp) roots (lAction L').
Proof.
  intros R S0 HR Hk Hc [_ _ _ B4 B5 B6] Hn G V.
  set (P := fun txs (L : CLedger) => gov_ok (pProtocolVersion pp) roots (lAction L) /\ ids_new roots (lAction L) txs).
  assert (step : forall tx txs b L, overlay L0 b L -> cold_distinct D L0 b -> reports (lstate (viewOf base b)) L -> P (tx :: txs) L ->
    verifyRules 0 (UtxoValidationRules sv (govRule other)) tx slot (viewOf base b) pp = Ok () ->
    P txs (ledger_tx (keyDeposit pp) L (blockTx tx))).
  { intros tx txs' b' L _ _ RV [GL [Hd HN]] H. destruct (HN tx 0 ltac:(left)) as [_ Hroot].
    assert (Hid : forall k, lAction L !! (Hash tx, k) = None) by (intros k; by apply HN; left).
    split.
    + apply (accepted_governance sv other tx slot (viewOf base b') pp L roots RV); try done. intros purpose k. by apply HN; left.
    + rewrite fmap_cons in Hd. apply NoDup_cons in Hd as [Hh Hd]. split; [exact Hd|]. intros tx' k Hin.
      destruct (HN tx' k ltac:(by right)) as [H1 H2]. split; [|exact H2]. rewrite ledger_tx_actions.
      destruct (IsValid tx); [|done]. rewrite recordProposals_other; [done|]. left. cbn. intros E. apply Hh. rewrite <- E.
      by apply list_elem_of_fmap_2. }
  destruct (verifyBlockLoop_invariant _ slot epoch pp base L0 D R S0 Hk P step txs 0 NewBlockLedgerState L0 b
    (overlay_new L0 (so_future _ _ S0)) B4 B5 B6 (conj G Hn) V) as (O & C & G' & _).
  split; [|exact G']. by apply (view_reports (lstate base) L0 b _ D (so_wf _ _ S0) R O).
Qed.

(** ** Votes *)

(** The action an identifier names: one the transaction proposes, or one of the
    ledger; and whether votes on it are still open. *)
Definition action_named (tx : ConwayTransaction) (L : CLedger) (i : GovActionId) : option GovAction :=
  match txProposalActions tx !! i with Some (_, a) => a | None => st ← lAction L !! i; Action st end.

Definition open_until (slot : Z) (tx : ConwayTransaction) (L : CLedger) (i : GovActionId) : Prop :=
  match txProposalActions tx !! i with Some _ => True | None => exists st, lAction L !! i = Some st /\ slot <= ExpirySlot st end.

(** Who may vote on what: DReps on information only while the era boots, others
    on what may be proposed then; stake pools not on the constitution and the
    treasury, and on parameters only if one of the security group may change;
    the committee not on itself. *)
Definition may_vote (boot : bool) (v : Voter) (a : GovAction) : Prop :=
  (boot = true ->
     match a with
     | InfoGovAction => True
     | HardForkInitiationGovAction _ _ | ParameterChangeGovAction _ _ _ => isDRepVoter v = false
     | _ => False
     end) /\
  (isSPOVoter v = true ->
     match a with
     | NewConstitutionGovAction _ _ | TreasuryWithdrawalGovAction _ _ => False
     | ParameterChangeGovAction _ update _ => exists p, securityParams (updateUnchecked p update) <> securityParams p
     | _ => True
     end) /\
  (isCCVoter v = true -> match a with NoConfidenceGovAction _ | UpdateCommitteeGovAction _ _ _ _ => False | _ => True end).

Section VotesExact.
Context (tx : ConwayTransaction) (slot : Z) (ls : ConwayState) (pp : ConwayProtocolParameters) (L : CLedger).
Context (R : reports (lstate ls) L) (W : actions_wf (lAction L)).
Context (HX : forall i st, lAction L !! i = Some st -> ExpirySlot st <> 0).
Context (HP : forall p, p ∈ ProposalProcedures tx -> blockGovActionType (PPGovAction p) <> None).
#[local] Set Default Proof Using "All".

Lemma proposed_type i k a : txProposalActions tx !! i = Some (k, a) -> exists b t, a = Some b /\ blockGovActionType (Some b) = Some t.
Proof.
  intros H. apply txProposalActions_lookup in H as (_ & _ & p & Hp & ->). unfold proposalAt in Hp. destruct (k <? 0); [done|].
  apply list_elem_of_lookup_2, HP in Hp. destruct (PPGovAction p) as [b|]; [|done].
  destruct (blockGovActionType (Some b)) as [t|] eqn:E; [|done]. by exists b, t.
Qed.

Lemma resolve_spec i :
  match action_named tx L i with
  | Some a => exists t, blockGovActionType (Some a) = Some t /\ resolveRequired tx ls i = Ok (t, Some a)
  | None => exists e, resolveRequired tx ls i = Err e
  end.
Proof.
  unfold action_named, resolveRequired. destruct (txProposalActions tx !! i) as [[k a]|] eqn:E.
  - destruct (proposed_type _ _ _ E) as (b & t & -> & Et). exists t. split; [done|]. unfold govActionValidationType. by rewrite Et.
  - rewrite (r_action _ _ R). destruct (lAction L !! i) as [st|] eqn:Es; cbn [mbind option_bind]; [|by eexists].
    pose proof (W _ _ Es) as Ht. destruct (Action st) as [a|] eqn:Ea; [|done]. by exists (ActionType st).
Qed.

Lemma exists_spec i : resolverExists tx ls i = true <-> is_Some (action_named tx L i).
Proof.
  unfold resolverExists, action_named. rewrite (r_actionExists _ _ R). case_bool_decide as H1.
  - split; [intros _|done]. destruct (txProposalActions tx !! i) as [[k a]|] eqn:E.
    + destruct (proposed_type _ _ _ E) as (b & t & -> & _). by eexists.
    + destruct H1 as [st Es]. rewrite Es. cbn. pose proof (W _ _ Es) as Ht. by destruct (Action st).
  - rewrite bool_decide_eq_true. destruct (txProposalActions tx !! i) as [[k a]|] eqn:E.
    + destruct (proposed_type _ _ _ E) as (b & t & -> & _). split; by eexists.
    + destruct (lAction L !! i) as [st|]; [by destruct H1|]. cbn. split; intros [? [=]].
Qed.

Lemma expired_spec v i : is_Some (action_named tx L i) -> voteOnExpired tx slot ls v (Some i) = Ok () <-> open_until slot tx L i.
Proof.
  unfold voteOnExpired, open_until, action_named. destruct (txProposalActions tx !! i) as [[k a]|] eqn:E; [by rewrite bool_decide_true by by eexists|].
  rewrite bool_decide_false by by intros []. rewrite (r_action _ _ R). intros [a Ha].
  destruct (lAction L !! i) as [st|] eqn:Es; [|done]. pose proof (HX _ _ Es). destruct (Z.eqb_spec (ExpirySlot st) 0); [done|].
  destruct (Z.ltb_spec (ExpirySlot st) slot); split; try done.
  - intros (st' & [= <-] & Hle). lia.
  - intros _. exists st. split; [done|lia].
Qed.

Lemma may_vote_spec v i a : action_named tx L i = Some a ->
  may_vote (isInConwayBootstrapPhase pp) v a <->
  (isInConwayBootstrapPhase pp = true -> bootstrapVote tx ls v (Some i) = Ok ()) /\
  stakePoolVote tx ls v (Some i) = Ok () /\ (isCCVoter v = true -> ccVote tx ls v (Some i) = Ok ()).
Proof.
  intros Ha. pose proof (resolve_spec i) as H. rewrite Ha in H. destruct H as (t & Et & Er).
  unfold bootstrapVote, stakePoolVote, ccVote. rewrite Er. cbn [mbind result_bind]. unfold may_vote.
  assert (S : forall u, (0 <? blen (SecurityGroupFields u)) = true <-> exists p, securityParams (updateUnchecked p u) <> securityParams p).
  { intros u. rewrite <- security_fields. destruct (SecurityGroupFields u); [done|]. rewrite blen_cons.
    pose proof (blen_nonneg l). split; [done|]. intros _. apply Z.ltb_lt. lia. }
  apply and_iff; [|apply and_iff].
  - apply impl_iff. intros _. destruct a; cbn in Et; injection Et as <- || discriminate Et; cbn; destruct (isDRepVoter v); cbn; naive_solver.
  - destruct (isSPOVoter v); cbn [negb]; [|split; [done|intros _ [=]]].
    assert (T : forall (B : Prop) (r : ccheck), (B <-> r = Ok ()) -> (true = true -> B) <-> r = Ok ()) by (intros B r [H1 H2]; split; auto).
    apply T. destruct a; cbn in Et; injection Et as <- || discriminate Et; cbn; try (by split).
    rewrite <- S. destruct (0 <? blen (SecurityGroupFields update)); by split.
  - apply impl_iff. intros _. destruct a; cbn in Et; injection Et as <- || discriminate Et; cbn; naive_solver.
Qed.

(** A rule over all votes, for a transaction without nil voters. *)
Lemma eachVote_ok f : eachVote tx f = Ok () <-> forall v ids id, (Some v, ids) ∈ VotingProcedures tx -> id ∈ ids -> f v id = Ok ().
Proof using Type.
  unfold eachVote. rewrite each_ok, Forall_forall. split.
  - intros H v ids id Hv Hi. specialize (H _ Hv). cbn in H. rewrite each_ok, Forall_forall in H. by apply H.
  - intros H [[v|] ids] Hv; cbn; [|done]. rewrite each_ok, Forall_forall. intros id Hi. by apply (H v ids).
Qed.

Lemma ccRule_ok : (forall vote, vote ∈ VotingProcedures tx -> fst vote <> None) ->
  UtxoValidateCCVotingRestrictions tx ls = Ok () <->
  forall v ids id, (Some v, ids) ∈ VotingProcedures tx -> id ∈ ids -> isCCVoter v = true -> ccVote tx ls v id = Ok ().
Proof using Type.
  intros Hn. unfold UtxoValidateCCVotingRestrictions. rewrite each_ok, Forall_forall. split.
  - intros H v ids id Hv Hi Hc. specialize (H _ Hv). cbn in H. rewrite Hc in H. cbn in H. rewrite each_ok, Forall_forall in H. by apply H.
  - intros H [[v|] ids] Hv; cbn; [|by apply Hn in Hv]. destruct (isCCVoter v) eqn:Ec; cbn; [|done].
    rewrite each_ok, Forall_forall. intros id Hi. by apply (H v ids).
Qed.

Lemma unknownRule_ok : UtxoValidateUnknownGovActionIds tx ls = Ok () <->
  forall v ids id, (v, ids) ∈ VotingProcedures tx -> id ∈ ids -> exists i, id = Some i /\ is_Some (action_named tx L i).
Proof.
  unfold UtxoValidateUnknownGovActionIds. set (g := fun id : option GovActionId => _).
  assert (G : forall id, g id = None <-> exists i, id = Some i /\ is_Some (action_named tx L i)).
  { intros [i|]; unfold g; [|naive_solver]. destruct (resolverExists tx ls i) eqn:E.
    - apply exists_spec in E. split; [intros _; by exists i|done].
    - split; [done|]. intros (j & [= <-] & H). apply exists_spec in H. congruence. }
  destruct (blen (VotingProcedures tx ≫= (fun vote => omap g (snd vote))) =? 0) eqn:E.
  - apply Z.eqb_eq, blen_0 in E. split; [intros _ v ids id Hv Hi|done]. apply G. destruct (g id) as [x|] eqn:Eg; [|done]. exfalso.
    assert (Hx : x ∈ VotingProcedures tx ≫= (fun vote => omap g (snd vote))).
    { apply list_elem_of_bind. exists (v, ids). split; [|done]. apply list_elem_of_omap. by exists id. }
    rewrite E in Hx. by apply elem_of_nil in Hx.
  - split; [done|]. intros H. exfalso. apply Z.eqb_neq in E. apply E.
    destruct (VotingProcedures tx ≫= (fun vote => omap g (snd vote))) as [|x l] eqn:El; [done|].
    assert (Hx : x ∈ VotingProcedures tx ≫= (fun vote => omap g (snd vote))) by (rewrite El; left).
    apply list_elem_of_bind in Hx as ([v ids] & Hx & Hv). apply list_elem_of_omap in Hx as (id & Hi & Hx).
    rewrite (proj2 (G id) (H v ids id Hv Hi)) in Hx. done.
Qed.
End VotesExact.

(** C10. The rules on votes accept exactly the transactions every vote of which
    names an action that the transaction proposes or the ledger records, that is
    still open, and that the voter's role may vote on. *)
Theorem votes_exact tx slot ls pp (L : CLedger) :
  reports (lstate ls) L -> actions_wf (lAction L) -> (forall i st, lAction L !! i = Some st -> ExpirySlot st <> 0) ->
  (forall p, p ∈ ProposalProcedures tx -> blockGovActionType (PPGovAction p) <> None) ->
  (forall vote, vote ∈ VotingProcedures tx -> fst vote <> None) ->
  UtxoValidateUnknownGovActionIds tx ls = Ok () /\ UtxoValidateVotingOnExpiredGovAction tx slot ls = Ok () /\
  UtxoValidateBootstrapVotingRestrictions tx ls pp = Ok () /\ UtxoValidateStakePoolVotingRestrictions tx ls = Ok () /\
  UtxoValidateCCVotingRestrictions tx ls = Ok () <->
  forall v ids id, (Some v, ids) ∈ VotingProcedures tx -> id ∈ ids ->
    exists i a, id = Some i /\ action_named tx L i = Some a /\ open_until slot tx L i /\
                may_vote (isInConwayBootstrapPhase pp) v a.
Proof.
  intros R W HX HP Hn. rewrite (unknownRule_ok tx slot ls pp L R W HX HP), (ccRule_ok tx ls Hn).
  unfold UtxoValidateVotingOnExpiredGovAction, UtxoValidateStakePoolVotingRestrictions, UtxoValidateBootstrapVotingRestrictions.
  rewrite !eachVote_ok. split.
  - intros (H1 & H2 & H3 & H4 & H5) v ids id Hv Hi. destruct (H1 _ _ _ Hv Hi) as (i & -> & a & Ha). exists i, a.
    split; [done|]. split; [exact Ha|]. split; [apply (expired_spec tx slot ls pp L R W HX HP v); [by eexists|by apply (H2 v ids)]|].
    apply (may_vote_spec tx slot ls pp L R W HX HP v i a Ha). split; [|split; [by apply (H4 v ids)|by apply (H5 v ids)]].
    intros Hb. rewrite Hb in H3. cbn [negb] in H3. rewrite eachVote_ok in H3. by apply (H3 v ids).
  - intros H.
    assert (K : forall v ids id, (Some v, ids) ∈ VotingProcedures tx -> id ∈ ids -> exists i a, id = Some i /\
      action_named tx L i = Some a /\ voteOnExpired tx slot ls v id = Ok () /\
      (isInConwayBootstrapPhase pp = true -> bootstrapVote tx ls v id = Ok ()) /\
      stakePoolVote tx ls v id = Ok () /\ (isCCVoter v = true -> ccVote tx ls v id = Ok ())).
    { intros v ids id Hv Hi. destruct (H _ _ _ Hv Hi) as (i & a & -> & Ha & Ho & Hm). exists i, a.
      apply (may_vote_spec tx slot ls pp L R W HX HP v i a Ha) in Hm. split; [done|]. split; [done|]. split; [|done].
      apply (expired_spec tx slot ls pp L R W HX HP v); [by eexists|done]. }
    split; [|split; [|split; [|split]]].
    + intros [v|] ids id Hv Hi; [|by apply Hn in Hv]. destruct (K _ _ _ Hv Hi) as (i & a & -> & Ha & _). exists i. split; [done|by eexists].
    + intros v ids id Hv Hi. by destruct (K _ _ _ Hv Hi) as (i & a & _ & _ & ? & _).
    + destruct (isInConwayBootstrapPhase pp) eqn:Eb; cbn [negb]; [|done]. apply eachVote_ok. intros v ids id Hv Hi.
      destruct (K _ _ _ Hv Hi) as (i & a & _ & _ & _ & Hb & _). by apply Hb.
    + intros v ids id Hv Hi. by destruct (K _ _ _ Hv Hi) as (i & a & _ & _ & _ & _ & ? & _).
    + intros v ids id Hv Hi Hc. destruct (K _ _ _ Hv Hi) as (i & a & _ & _ & _ & _ & _ & Hcc). by apply Hcc.
Qed.

(** ** The committee *)

(** What the committee capabilities of a state say of a ledger; [elected] are
    the members of the enacted committee. A hot credential's members are those
    of the cold credentials that authorize it. *)
Definition hot_report (A : gmap Credential Credential) (hot : Credential) (l : list (option CommitteeMemberR)) : Prop :=
  (forall m, Some m ∈ l -> Resigned m = false /\ exists c, A !! c = Some hot /\ ColdKey m = snd c) /\
  (forall c, A !! c = Some hot -> exists m, Some m ∈ l /\ ColdKey m = snd c).

Record gov_reports (g : GovState) (elected : Credential -> bool) (L : CLedger) : Prop := {
  gr_committee : exists cs, CommitteeCredentials g = Some cs /\ CommitteeStateAvailable cs = Ok true /\
                   forall c, CommitteeCredentialMember cs c = Ok (lMember L !! c);
  gr_hot : exists f, CommitteeHotMembers g = Some f /\ forall hot, exists l, f hot = Ok l /\ hot_report (lAuth L) hot l;
  gr_elected : CommitteeElected g = Some (fun c => Ok (elected c))
}.

(** Authorizations changed by [T]: the members it adds and those it leaves. *)
Section Touched.
Context (T : gmap Credential (option Credential)) (A0 A : gmap Credential Credential) (D : Credential -> Prop).
Context (HA : forall c, A !! c = match T !! c with Some h => h | None => A0 !! c end).
Context (HD : forall c c', D c -> D c' -> snd c = snd c' -> c = c').
Context (HT : forall c, is_Some (T !! c) -> D c) (H0 : forall c, is_Some (A0 !! c) -> D c).
#[local] Set Default Proof Using "All".

Lemma touched_spec h :
  bool_decide (filter (fun e : Credential * option Credential => snd (fst e) = h) (map_to_list T) <> []) = true <->
  exists c, is_Some (T !! c) /\ snd c = h.
Proof using Type.
  rewrite bool_decide_eq_true. set (l := filter _ _).
  assert (E : forall c x, (c, x) ∈ l <-> T !! c = Some x /\ snd c = h).
  { intros c x. subst l. rewrite list_elem_of_filter, elem_of_map_to_list. cbn. tauto. }
  split.
  - intros Hl. destruct l as [|[c x] l']; [done|]. destruct (proj1 (E c x) ltac:(left)) as [H1 H2]. exists c. split; [by eexists|done].
  - intros (c & [x Hx] & Hc) Hl. assert (Hin : (c, x) ∈ l) by (by apply E). rewrite Hl in Hin. by apply elem_of_nil in Hin.
Qed.

Lemma touched_hot hot l (untouched : option CommitteeMemberR -> option (option CommitteeMemberR)) :
  (forall m, untouched m = (m ← m;
     if bool_decide (filter (fun e : Credential * option Credential => snd (fst e) = ColdKey m) (map_to_list T) <> []) then None else Some (Some m))) ->
  hot_report A0 hot l ->
  hot_report A hot (((fun e : Credential * option Credential => Some (mkMember (snd (fst e)) (Some (snd hot)) 0 false)) <$>
                       filter (fun e => snd e = Some hot) (map_to_list T)) ++ omap untouched l).
Proof.
  intros HU [H1 H2]. split.
  - intros m Hm. rewrite elem_of_app in Hm. destruct Hm as [Hm|Hm].
    + apply list_elem_of_fmap in Hm as ([c x] & [= ->] & Hm). apply list_elem_of_filter in Hm as [Hx Hm].
      cbn in Hx. subst x. apply elem_of_map_to_list in Hm. cbn. split; [done|]. exists c. by rewrite HA, Hm.
    + apply list_elem_of_omap in Hm as (m' & Hm' & Hu). rewrite HU in Hu. destruct m' as [m'|]; [|done]. cbn in Hu.
      destruct (bool_decide _) eqn:Eb; [done|]. injection Hu as <-. destruct (H1 _ Hm') as (Hr & c & Hc & Hk). split; [done|].
      exists c. split; [|done]. rewrite HA. destruct (T !! c) as [x|] eqn:Ex; [|done].
      rewrite <- not_true_iff_false, touched_spec in Eb. destruct Eb. exists c. rewrite Ex. split; [by eexists|done].
  - intros c Hc. rewrite HA in Hc. destruct (T !! c) as [x|] eqn:Ex.
    + subst x. exists (mkMember (snd c) (Some (snd hot)) 0 false). split; [|done]. apply elem_of_app. left.
      apply list_elem_of_fmap. exists (c, Some hot). split; [done|]. apply list_elem_of_filter. split; [done|]. by apply elem_of_map_to_list.
    + destruct (H2 _ Hc) as (m & Hm & Hk). exists m. split; [|done]. apply elem_of_app. right. apply list_elem_of_omap.
      exists (Some m). split; [done|]. rewrite HU. cbn. destruct (bool_decide _) eqn:Eb; [|done]. exfalso.
      apply touched_spec in Eb as (c' & Hx & Hc'). assert (c' = c) as ->; [|rewrite Ex in Hx; by destruct Hx].
      apply HD; [by apply HT|apply H0; by eexists|congruence].
Qed.
End Touched.

(** The block's view of the committee: over a state that reports a ledger's
    committee, the view reports it after the transactions applied so far. *)
Theorem committee_view_refines g elected (L0 L : CLedger) b D :
  gov_reports g elected L0 -> overlay L0 b L -> ledger_wf L0 -> cold_distinct D L0 b ->
  (forall c, is_Some (lAuth L0 !! c) -> D c) -> gov_reports (govView b g) elected L.
Proof.
  intros [(cs & E1 & E2 & E3) (f & F1 & F2) G] O W C HD. split.
  - exists (mkCommitteeState (CommitteeStateAvailable cs) (blockCredentialMember b cs) (blockHotCredentialMember b cs)).
    cbn. rewrite E1. split; [done|]. split; [done|]. intros c. unfold blockCredentialMember. rewrite E3. cbn. f_equal.
    rewrite (o_member _ _ _ O). destruct (lMember L0 !! c) as [m|] eqn:Em; [|done]. cbn. f_equal.
    apply (applyCommitteeAuthorization_spec D L0); [done|destruct C as (_ & C2 & _); apply C2; by eexists|by apply (wf_member _ W)].
  - exists (blockHotMembers b f). cbn. rewrite F1. split; [done|]. intros hot. destruct (F2 hot) as (l & El & Hl).
    unfold blockHotMembers. rewrite El. cbn [mbind result_bind]. eexists. split; [done|].
    unfold coldCredentialsFor. rewrite <- list_fmap_compose.
    destruct C as (C1 & _ & C3). eapply (touched_hot (committeeColdHot b) (lAuth L0) (lAuth L) D (o_auth _ _ _ O) C1 C3 HD); done.
  - by cbn.
Qed.

(** *** The transaction's overlay *)

(** The overlay of a transaction's certificates, between the ledgers before and
    after them. *)
Record tx_overlay (L0 : CLedger) (o : conwayCertsOverlay) (L : CLedger) : Prop := {
  to_stake c : c ∈ lStake L <-> match stakeCredentialState o !! c with Some r => r = true | None => c ∈ lStake L0 end;
  to_drep c : is_Some (lDRep L !! c) <-> match drepRegistrations o !! c with Some r => r = true | None => is_Some (lDRep L0 !! c) end;
  to_pool p : is_Some (lPool L !! p) <-> p ∈ poolRegistrations o \/ is_Some (lPool L0 !! p);
  to_auth c : lAuth L !! c = match txColdHot o !! c with Some h => h | None => lAuth L0 !! c end
}.

Ltac keep_overlay O := destruct O as [O1 O2 O3 O4]; split; cbn; try assumption.

(** Looking up another key, or this one, of an overlay's map. *)
Ltac at_key c c' := destruct (decide (c' = c)) as [->|];
  [rewrite ?lookup_insert_eq, ?lookup_delete_eq|rewrite ?lookup_insert_ne, ?lookup_delete_ne by done].

Lemma overlay_register_drep L0 o (L : CLedger) c d vo :
  tx_overlay L0 o L -> tx_overlay L0 (overlayStake c true o) (lset_accounts ({[c]} ∪ lStake L) ({[c]} ∪ lReward L) (<[c := 0]> (lBalance L)) d vo L).
Proof. intros O. keep_overlay O. intros c'. at_key c c'; [set_solver|]. rewrite <- O1. set_solver. Qed.

Lemma overlay_vote L0 o (L : CLedger) c d : tx_overlay L0 o L -> tx_overlay L0 o (lvote c d L).
Proof. intros O. by keep_overlay O. Qed.

Lemma overlay_step L0 o (L : CLedger) kd cert : tx_overlay L0 o L -> tx_overlay L0 (overlayCertificate o cert) (certify kd L cert).
Proof.
  intros O. destruct cert; cbn [overlayCertificate certify];
    try (by apply overlay_register_drep); try (by apply overlay_vote, overlay_register_drep); try (by apply overlay_vote); try done; unfold lderegister.
  - keep_overlay O. intros c'. at_key c c'; [set_solver|]. rewrite <- O1. set_solver.
  - unfold lpool. destruct (lPool L !! Operator reg) as [cur|] eqn:E; keep_overlay O; intros p.
    + rewrite O3, elem_of_union, elem_of_singleton. split; [tauto|]. intros [[-> |H]|H]; auto. apply O3. by eexists.
    + rewrite elem_of_union, elem_of_singleton. at_key (Operator reg) p; [split; [by auto|by eexists]|]. rewrite O3. tauto.
  - by keep_overlay O.
  - by keep_overlay O.
  - keep_overlay O. intros c'. at_key c c'; [set_solver|]. rewrite <- O1. set_solver.
  - keep_overlay O. intros c'. at_key cold c'; [done|apply O4].
  - keep_overlay O. intros c'. at_key cold c'; [done|apply O4].
  - keep_overlay O. intros c'. at_key c c'; [split; [done|by eexists]|apply O2].
  - keep_overlay O. intros c'. at_key c c'; [split; [by intros []|done]|apply O2].
  - destruct (lDRep L !! c) as [r|] eqn:E; [|done]. keep_overlay O. intros c'. rewrite <- O2. at_key c c'; [|done].
    rewrite E. split; by eexists.
Qed.

Lemma overlay_certs L0 kd certs : forall o (L : CLedger), tx_overlay L0 o L ->
  tx_overlay L0 (foldl overlayCertificate o certs) (foldl (certify kd) L certs).
Proof. induction certs as [|c certs IH]; intros o L O; cbn; [done|]. by apply IH, overlay_step. Qed.

Lemma newOverlay_spec kd tx (L : CLedger) : tx_overlay L (newConwayCertsOverlay tx) (foldl (certify kd) L (Certificates tx)).
Proof. apply overlay_certs. split; intros; cbn; rewrite ?lookup_empty; try done. set_solver. Qed.

(** The cold credentials the overlay touched are of the certificates. *)
Lemma overlay_colds certs : forall o c, is_Some (txColdHot (foldl overlayCertificate o certs) !! c) ->
  is_Some (txColdHot o !! c) \/ exists cert, cert ∈ certs /\ coldOf cert = Some c.
Proof.
  induction certs as [|cert certs IH]; intros o c H; cbn in H; [by left|].
  apply IH in H as [H|(cert' & Hin & Hc)]; [|right; exists cert'; split; [by right|done]].
  assert (E : is_Some (txColdHot o !! c) \/ coldOf cert = Some c).
  { destruct cert; cbn in H; try (by left); (destruct (decide (cold = c)) as [->|]; [by right|left; by rewrite lookup_insert_ne in H]). }
  destruct E as [E|E]; [by left|]. right. exists cert. split; [left|done].
Qed.

(** *** Elected members *)

Lemma electedColds_spec e colds : forall acc,
  exists s, electedColds (fun c => Ok (e c)) colds acc = Ok s /\ forall c, c ∈ s <-> c ∈ acc \/ (c ∈ colds /\ e c = true).
Proof.
  induction colds as [|c colds IH]; intros acc; cbn [electedColds].
  - exists acc. split; [done|]. intros c. split; [auto|]. intros [H|[H _]]; [done|by apply elem_of_nil in H].
  - cbn [mbind result_bind]. destruct (IH (if e c then {[c]} ∪ acc else acc)) as (s & Es & Hs). exists s. split; [done|].
    intros c'. rewrite Hs, elem_of_cons. destruct (e c) eqn:Ec; [rewrite elem_of_union, elem_of_singleton|].
    + split; [intros [[-> |H]|[H E]]|intros [H|[[-> |H] E]]]; auto.
    + split; [intros [H|[H E]]|intros [H|[[-> |H] E]]]; auto; congruence.
Qed.

Lemma electedCerts_spec e hot kd certs : forall acc (L : CLedger),
  (forall c, c ∈ acc <-> e c = true /\ lAuth L !! c = Some hot) ->
  exists s, electedCerts (fun c => Ok (e c)) hot certs acc = Ok s /\
    forall c, c ∈ s <-> e c = true /\ lAuth (foldl (certify kd) L certs) !! c = Some hot.
Proof.
  induction certs as [|cert certs IH]; intros acc L H; cbn [electedCerts foldl]; [by exists acc|].
  assert (Keep : lAuth (certify kd L cert) = lAuth L ->
    exists s, electedCerts (fun c => Ok (e c)) hot certs acc = Ok s /\
      forall c, c ∈ s <-> e c = true /\ lAuth (foldl (certify kd) (certify kd L cert) certs) !! c = Some hot).
  { intros E. apply IH. intros c. by rewrite E. }
  destruct cert; try (by apply Keep).
  - apply Keep. cbn [certify]. unfold lpool. by destruct (lPool L !! Operator reg).
  - assert (N : hot0 <> hot -> exists s, electedCerts (fun c => Ok (e c)) hot certs (acc ∖ {[cold]}) = Ok s /\
      forall c, c ∈ s <-> e c = true /\ lAuth (foldl (certify kd) (certify kd L (AuthCommitteeHotCertificate cold hot0)) certs) !! c = Some hot).
    { intros Hne. apply IH. intros c. cbn. rewrite elem_of_difference, elem_of_singleton, H. clear -Hne. at_key cold c; naive_solver. }
    case_bool_decide as Eh; [subst hot0|by apply N]. cbn [mbind result_bind]. apply IH. intros c. cbn.
    destruct (e cold) eqn:Ee; [rewrite elem_of_union, elem_of_singleton, H|rewrite elem_of_difference, elem_of_singleton, H];
      clear -Ee; at_key cold c.
    + split; auto.
    + split; [intros [-> |?]; done|auto].
    + split; [by intros [_ []]|intros [Hc _]; congruence].
    + split; [by intros [? _]|by intros ?].
  - apply IH. intros c. cbn. rewrite elem_of_difference, elem_of_singleton, H. clear. at_key cold c; naive_solver.
  - apply Keep. cbn [certify]. by destruct (lDRep L !! c).
Qed.

Lemma elected_exact tx ls (L : CLedger) e hot kd : reports (lstate ls) L ->
  exists s, electedCommitteeColdCredentials tx ls (fun c => Ok (e c)) hot = Ok s /\
    forall c, c ∈ s <-> e c = true /\ lAuth (foldl (certify kd) L (Certificates tx)) !! c = Some hot.
Proof.
  intros R. unfold electedCommitteeColdCredentials. destruct (r_cold _ _ R hot) as (l & -> & Hl). cbn [mbind result_bind].
  destruct (electedColds_spec e l ∅) as (s & -> & Hs). cbn [mbind result_bind]. apply electedCerts_spec.
  intros c. rewrite Hs, Hl. set_solver.
Qed.

(** *** Voters *)

(** A voter that exists in a ledger; from version 11 a committee key has to be
    authorized by an elected member. *)
Definition voter_known (pv11 : bool) (elected : Credential -> bool) (L : CLedger) (v : Voter) : Prop :=
  if isDRepVoter v then is_Some (lDRep L !! voterCredential v)
  else if isSPOVoter v then is_Some (lPool L !! voterHash v)
  else if isCCVoter v then exists cold, lAuth L !! cold = Some (voterCredential v) /\ (pv11 = true -> elected cold = true)
  else False.

Definition reward_account (L : CLedger) (a : Address) : Prop :=
  (addressType a = AddressTypeNoneKey \/ addressType a = AddressTypeNoneScript) /\
  exists c, stakeCredential a = Some c /\ c ∈ lStake L.

Section AfterCertificates.
Context (tx : ConwayTransaction) (ls : ConwayState) (pp : ConwayProtocolParameters) (L : CLedger) (kd : Z).
Context (elected : Credential -> bool) (D : Credential -> Prop).
Context (R : reports (lstate ls) L) (G : gov_reports (gov ls) elected L).
Context (HD : forall c c', D c -> D c' -> snd c = snd c' -> c = c').
Context (HA : forall c, is_Some (lAuth L !! c) -> D c).
Context (HC : forall cert c, cert ∈ Certificates tx -> coldOf cert = Some c -> D c).
#[local] Set Default Proof Using "All".

Definition settled : CLedger := foldl (certify kd) L (Certificates tx).

Lemma overlay_hot hot : exists l, overlayHotMembers (newConwayCertsOverlay tx) ls hot = Ok l /\ hot_report (lAuth settled) hot l.
Proof.
  destruct (gr_hot _ _ _ G) as (f & Ef & Hf). unfold overlayHotMembers. rewrite Ef. destruct (Hf hot) as (l & -> & Hl).
  cbn [mbind result_bind]. eexists. split; [done|].
  apply (touched_hot (txColdHot (newConwayCertsOverlay tx)) (lAuth L) (lAuth settled) D); try done.
  - apply (newOverlay_spec kd).
  - intros c Hc. apply overlay_colds in Hc as [Hc|(cert & Hin & Hcold)]; [cbn in Hc; rewrite lookup_empty in Hc; by destruct Hc|].
    by apply (HC cert).
Qed.

Lemma authorized_spec hot : exists b, hotKeyAuthorized tx ls pp hot = Ok b /\
  (b = true <-> exists cold, lAuth settled !! cold = Some hot /\ ((ProtocolVersionVanRossem <=? major pp) = true -> elected cold = true)).
Proof.
  unfold hotKeyAuthorized, overlayCommitteeStateAvailable. destruct (gr_committee _ _ _ G) as (cs & -> & -> & _).
  destruct (ProtocolVersionVanRossem <=? major pp).
  - rewrite (gr_elected _ _ _ G). destruct (elected_exact tx ls L elected hot kd R) as (s & -> & Hs). eexists. split; [done|].
    rewrite negb_true_iff, bool_decide_eq_false. split.
    + intros Hn. apply set_choose_L in Hn as (c & Hc). apply Hs in Hc as [He Ha]. by exists c.
    + intros (c & Ha & He) ->. specialize (Hs c). apply (not_elem_of_empty (C := gset Credential) c), Hs. auto.
  - destruct (overlay_hot hot) as (l & -> & H1 & H2). eexists. split; [done|]. rewrite existsb_exists. split.
    + intros ([m|] & Hm & Hr); [|done]. apply list_elem_of_In, H1 in Hm as (_ & c & Hc & _). by exists c.
    + intros (c & Hc & _). destruct (H2 _ Hc) as (m & Hm & _). exists (Some m). split; [by apply list_elem_of_In|].
      by rewrite (proj1 (H1 _ Hm)).
Qed.

Lemma knownVoter_ok v : knownVoter tx ls pp v = Ok () <-> voter_known (ProtocolVersionVanRossem <=? major pp) elected settled v.
Proof.
  unfold knownVoter, voter_known. pose proof (newOverlay_spec kd tx L) as O. fold settled in O. destruct (isDRepVoter v).
  - rewrite (to_drep _ _ _ O). unfold overlayDRepRegistration. destruct (drepRegistrations (newConwayCertsOverlay tx) !! voterCredential v) as [[]|].
    + by split.
    + by split.
    + rewrite (r_drep _ _ R). cbn [ask mbind result_bind]. destruct (lDRep L !! voterCredential v); split; done.
  - destruct (isSPOVoter v).
    + rewrite (to_pool _ _ _ O). unfold overlayIsPoolRegistered. rewrite (r_poolRegistered _ _ R).
      case_bool_decide as H1; [split; auto|]. case_bool_decide as H2; [split; auto|]. split; [done|]. by intros [?|?].
    + destruct (isCCVoter v); [|by split]. destruct (authorized_spec (voterCredential v)) as ([] & -> & Hb); cbn [mbind result_bind].
      * split; [intros _; by apply Hb|done].
      * split; [done|]. intros H. by apply Hb in H.
Qed.

Lemma voters_ok : IsValid tx = true ->
  UtxoValidateUnknownVoters tx ls pp = Ok () <->
  forall v ids, (Some v, ids) ∈ VotingProcedures tx -> voter_known (ProtocolVersionVanRossem <=? major pp) elected settled v.
Proof.
  intros Hv. unfold UtxoValidateUnknownVoters. rewrite Hv. cbn [negb]. rewrite each_ok, Forall_forall. split.
  - intros H v ids Hin. apply knownVoter_ok. exact (H _ Hin).
  - intros H [[v|] ids] Hin; cbn; [|done]. apply knownVoter_ok. by apply (H v ids).
Qed.

Lemma returnAccount_ok a : returnAccountRegistered tx ls a = true <-> reward_account settled a.
Proof.
  unfold returnAccountRegistered, reward_account, overlayIsStakeCredentialRegistered. pose proof (newOverlay_spec kd tx L) as O. fold settled in O.
  assert (T : (addressType a =? AddressTypeNoneKey) || (addressType a =? AddressTypeNoneScript) = true <->
    addressType a = AddressTypeNoneKey \/ addressType a = AddressTypeNoneScript) by (rewrite orb_true_iff, !Z.eqb_eq; done).
  destruct ((addressType a =? AddressTypeNoneKey) || (addressType a =? AddressTypeNoneScript)); cbn [negb].
  - destruct (stakeCredential a) as [c|]; [|split; [done|by intros (_ & c & [=] & _)]]. rewrite (r_stake _ _ R).
    assert (E : match stakeCredentialState (newConwayCertsOverlay tx) !! c with Some r => r | None => bool_decide (c ∈ lStake L) end = true <-> c ∈ lStake settled).
    { rewrite (to_stake _ _ _ O). destruct (stakeCredentialState (newConwayCertsOverlay tx) !! c); [done|]. apply bool_decide_eq_true. }
    rewrite E. split; [intros H; split; [by apply T|by exists c]|by intros (_ & c' & [= <-] & H)].
  - split; [done|]. intros [Ht _]. by apply T in Ht.
Qed.

Lemma returnAccounts_ok :
  UtxoValidateProposalReturnAccounts tx ls pp = Ok () <->
  (isInConwayBootstrapPhase pp = false -> forall p, p ∈ ProposalProcedures tx -> reward_account settled (PPRewardAccount p) /\
     forall ws policy a n, PPGovAction p = Some (TreasuryWithdrawalGovAction ws policy) -> (Some a, n) ∈ ws -> reward_account settled a).
Proof.
  unfold UtxoValidateProposalReturnAccounts. destruct (isInConwayBootstrapPhase pp); [split; done|].
  rewrite each_ok, Forall_forall. split.
  - intros H _ p Hp. specialize (H _ Hp). unfold returnAccounts in H.
    destruct (returnAccountRegistered tx ls (PPRewardAccount p)) eqn:Er; cbn [negb] in H; [|done]. split; [by apply returnAccount_ok|].
    intros ws policy a n Ea Hin. rewrite Ea in H. apply returnAccount_ok. destruct (returnAccountRegistered tx ls a) eqn:Ea'; [done|].
    exfalso. set (bad := omap _ _) in H. assert (Hb : a ∈ bad).
    { apply list_elem_of_omap. exists (Some a, n). split; [done|]. cbn. by rewrite Ea'. }
    destruct bad as [|x l]; [by apply elem_of_nil in Hb|]. rewrite blen_cons in H. pose proof (blen_nonneg l).
    by rewrite (proj2 (Z.ltb_lt 0 (1 + blen l)) ltac:(lia)) in H.
  - intros H p Hp. destruct (H eq_refl p Hp) as [H1 H2]. unfold returnAccounts. apply returnAccount_ok in H1. rewrite H1. cbn [negb].
    destruct (PPGovAction p) as [[]|] eqn:Ea; try done.
    set (bad := omap _ _). assert (Hb : bad = []); [|by rewrite Hb].
    destruct bad as [|x l] eqn:Eb; [done|]. exfalso. assert (Hx : x ∈ bad) by (rewrite Eb; left). unfold bad in Hx.
    apply list_elem_of_omap in Hx as ([[a|] n] & Hin & Hx); cbn in Hx; [|done].
    destruct (returnAccountRegistered tx ls a) eqn:Er; [done|]. rewrite (proj2 (returnAccount_ok a)) in Er; [done|].
    by eapply H2.
Qed.
End AfterCertificates.

(** C20. The rules that read the state after the transaction's certificates do so
    exactly: a valid transaction's voters are accepted if and only if each exists
    in the ledger with the certificates applied, its proposals' return and
    treasury accounts if and only if they are registered there. *)
Theorem rules_see_certificates tx ls pp (L : CLedger) kd elected (D : Credential -> Prop) :
  reports (lstate ls) L -> gov_reports (gov ls) elected L -> IsValid tx = true ->
  (forall c c', D c -> D c' -> snd c = snd c' -> c = c') -> (forall c, is_Some (lAuth L !! c) -> D c) ->
  (forall cert c, cert ∈ Certificates tx -> coldOf cert = Some c -> D c) ->
  let L' := foldl (certify kd) L (Certificates tx) in
  (UtxoValidateUnknownVoters tx ls pp = Ok () <->
   forall v ids, (Some v, ids) ∈ VotingProcedures tx -> voter_known (ProtocolVersionVanRossem <=? major pp) elected L' v) /\
  (UtxoValidateProposalReturnAccounts tx ls pp = Ok () <->
   (isInConwayBootstrapPhase pp = false -> forall p, p ∈ ProposalProcedures tx -> reward_account L' (PPRewardAccount p) /\
      forall ws policy a n, PPGovAction p = Some (TreasuryWithdrawalGovAction ws policy) -> (Some a, n) ∈ ws -> reward_account L' a)).
Proof.
  intros R G Hv HD HA HC L'. split.
  - by apply (voters_ok tx ls pp L kd elected D).
  - by apply (returnAccounts_ok tx ls pp L kd elected D).
Qed.

(** *** Certificates of the committee *)

Definition committee_cert_ok (L : CLedger) (cert : BlockCertificate) : Prop :=
  match cert with
  | AuthCommitteeHotCertificate cold _ | ResignCommitteeColdCertificate cold _ =>
    exists m, lMember L !! cold = Some m /\ Resigned m = false
  | _ => True
  end.

Fixpoint committee_certs_ok (kd : Z) (L : CLedger) (certs : list BlockCertificate) : Prop :=
  match certs with [] => True | c :: certs => committee_cert_ok L c /\ committee_certs_ok kd (certify kd L c) certs end.

Lemma certify_members kd (L : CLedger) cert : coldOf cert = None -> lMember (certify kd L cert) = lMember L.
Proof.
  destruct cert; try done; cbn [certify]; intros _.
  - unfold lpool. by destruct (lPool L !! Operator reg).
  - by destruct (lDRep L !! c).
Qed.

Section CommitteeCertificates.
Context (ls : ConwayState) (L0 : CLedger) (elected : Credential -> bool) (G : gov_reports (gov ls) elected L0) (kd : Z).
#[local] Set Default Proof Using "All".

(** What the rule has cached says what the ledger is after the certificates. *)
Definition members_seen (members : gmap Credential (option CommitteeMemberR)) (L : CLedger) : Prop :=
  forall c, match members !! c with Some m => lMember L !! c = m | None => lMember L !! c = lMember L0 !! c end.

Lemma committeeMember_spec members L cold : members_seen members L ->
  exists members', committeeMember ls cold members = Ok (lMember L !! cold, members') /\ members_seen members' L /\
    forall m, members_seen (<[cold := Some m]> members') (lset_committee (<[cold := m]> (lMember L)) (lAuth L) L).
Proof.
  intros S. assert (Ins : forall members', members_seen members' L -> forall m,
    members_seen (<[cold := Some m]> members') (lset_committee (<[cold := m]> (lMember L)) (lAuth L) L)).
  { intros members' S' m c. cbn. at_key cold c; [done|]. apply S'. }
  unfold committeeMember. pose proof (S cold) as Sc. destruct (members !! cold) as [m|] eqn:E.
  - exists members. rewrite Sc. auto.
  - destruct (gr_committee _ _ _ G) as (cs & -> & -> & Hm). rewrite Hm, <- Sc. eexists. split; [done|].
    assert (S' : members_seen (<[cold := lMember L !! cold]> members) L).
    { intros c. at_key cold c; [done|]. apply S. }
    split; [exact S'|by apply Ins].
Qed.

Lemma alter_lookup {A} (f : A -> A) (m : gmap Credential A) c a : m !! c = Some a -> alter f c m = <[c := f a]> m.
Proof using Type. intros E. apply map_eq. intros c'. destruct (decide (c' = c)) as [->|]; [by rewrite lookup_alter_eq, lookup_insert_eq, E|by rewrite lookup_alter_ne, lookup_insert_ne]. Qed.

Lemma seen_same members L L' : lMember L' = lMember L -> members_seen members L -> members_seen members L'.
Proof using Type. intros E S c. rewrite E. apply S. Qed.

Lemma committeeLoop_spec certs : forall members L, members_seen members L ->
  committeeLoop ls certs members = Ok () <-> committee_certs_ok kd L certs.
Proof.
  induction certs as [|cert certs IH]; intros members L S; cbn [committeeLoop committee_certs_ok]; [by split|].
  assert (Keep : coldOf cert = None -> committeeLoop ls certs members = Ok () <-> committee_certs_ok kd (certify kd L cert) certs).
  { intros Hc. apply IH. apply (seen_same members L); [by apply certify_members|done]. }
  destruct cert; cbn [committeeCertificate committee_cert_ok mbind result_bind];
    try (rewrite Keep by done; split; [intros H; split; [done|exact H]|by intros [_ H]]).
  - destruct (committeeMember_spec members L cold S) as (members' & -> & S' & Ins). cbn [mbind result_bind].
    destruct (lMember L !! cold) as [m|] eqn:Em; cbn [mbind result_bind]; [|split; [done|by intros [(m & [=] & _) _]]].
    destruct (Resigned m) eqn:Er; cbn [mbind result_bind]; [split; [done|intros [(m' & [= <-] & Hr) _]; congruence]|].
    rewrite (IH _ (certify kd L (AuthCommitteeHotCertificate cold hot))).
    + split; [intros H; split; [by exists m|exact H]|by intros [_ H]].
    + cbn [certify]. rewrite (alter_lookup _ _ _ _ Em). eapply seen_same; [|apply Ins]. done.
  - destruct (committeeMember_spec members L cold S) as (members' & -> & S' & Ins). cbn [mbind result_bind].
    destruct (lMember L !! cold) as [m|] eqn:Em; cbn [mbind result_bind]; [|split; [done|by intros [(m & [=] & _) _]]].
    destruct (Resigned m) eqn:Er; cbn [mbind result_bind]; [split; [done|intros [(m' & [= <-] & Hr) _]; congruence]|].
    rewrite (IH _ (certify kd L (ResignCommitteeColdCertificate cold anchor))).
    + split; [intros H; split; [by exists m|exact H]|by intros [_ H]].
    + cbn [certify]. rewrite (alter_lookup _ _ _ _ Em). eapply seen_same; [|apply Ins]. done.
Qed.
End CommitteeCertificates.

(** The rule on committee certificates accepts a valid transaction exactly if
    each of its certificates names a member of the committee that has not
    resigned, in the ledger after the certificates before it. *)
Theorem committee_certificates_exact tx ls (L : CLedger) elected kd :
  gov_reports (gov ls) elected L -> IsValid tx = true ->
  UtxoValidateCommitteeCertificates tx ls = Ok () <-> committee_certs_ok kd L (Certificates tx).
Proof.
  intros G Hv. unfold UtxoValidateCommitteeCertificates. rewrite Hv. cbn [negb].
  apply (committeeLoop_spec ls L elected G). intros c. by rewrite lookup_empty.
Qed.

(** ** Witnesses *)

(** The committee capabilities of a state that reports a ledger. *)
Definition govOf (roots : GovPurposeRoots) (elected : Credential -> bool) (L : CLedger) : GovState :=
  mkGovState (Ok None) (Some (Ok (Some roots)))
    (Some (mkCommitteeState (Ok true) (fun c => Ok (lMember L !! c)) (fun _ => Ok None)))
    (Some (fun hot => Ok ((fun e => Some (mkMember (snd (fst e)) (Some (snd hot)) 0 false)) <$>
                          filter (fun e => snd e = hot) (map_to_list (lAuth L)))))
    (Some (fun c => Ok (elected c))).

Lemma govOf_reports roots elected L : gov_reports (govOf roots elected L) elected L.
Proof.
  split; [by eexists| |done]. eexists. split; [done|]. intros hot. eexists. split; [done|]. split.
  - intros m Hm. apply list_elem_of_fmap in Hm as ([c h] & [= ->] & [Hh Hin]%list_elem_of_filter). cbn in *. subst h.
    apply elem_of_map_to_list in Hin. split; [done|by exists c].
  - intros c Hc. exists (mkMember (snd c) (Some (snd hot)) 0 false). split; [|done]. apply list_elem_of_fmap. exists (c, hot).
    split; [done|]. apply list_elem_of_filter. split; [done|by apply elem_of_map_to_list].
Qed.

(** A committee of one, and a hard fork to version 11 that is pending. *)
Definition gvCold : Credential := (0, repeat 4 28).
Definition gvHot : Credential := (0, repeat 5 28).
Definition gvHot2 : Credential := (0, repeat 6 28).
Definition gvRoots : GovPurposeRoots := mkRoots None None None None.
Definition gvFork : GovActionState := mkActionState ([8], 0) 1 100 (Some (HardForkInitiationGovAction None (11, 0))).

Definition gvLedger : CLedger :=
  mkBLedger (lUtxo cwLedger) (lStake cwLedger) (lReward cwLedger) (lBalance cwLedger) (lDeposit cwLedger) (lVote cwLedger)
    ∅ ∅ ∅ ∅ ∅ {[gvCold := mkMember (snd gvCold) (Some (snd gvHot)) 9 false]} {[gvCold := gvHot]} {[([8], 0) := gvFork]} ∅.

Definition gvElected (c : Credential) : bool := bool_decide (c = gvCold).
Definition gvGov : GovState := govOf gvRoots gvElected gvLedger.
Definition gvState : ConwayState := mkConwayState (stateOf gvLedger) 0 (Some (fun _ => Some 3)) gvGov.

(** The member authorizes another key, which votes on the pending fork and on
    the one proposed after it. *)
Definition gvTx : ConwayTransaction :=
  mkConwayTx [4] [([9], 0)] [] [] [cwOut 89 5] None None (Some 3) None [AuthCommitteeHotCertificate gvCold gvHot2] None
    [mkProposal 4 demoAddress (Some (HardForkInitiationGovAction (Some ([8], 0)) (11, 1))); mkProposal 4 demoAddress (Some InfoGovAction)]
    [(Some (mkVoter 0 (snd gvHot2)), [Some ([8], 0); Some ([4], 0)])] None true None None [] None None.

Definition gvD (c : Credential) : Prop := c = gvCold.

Lemma gv_distinct c c' : gvD c -> gvD c' -> snd c = snd c' -> c = c'.
Proof. by intros -> ->. Qed.
Lemma gv_member c : is_Some (lMember gvLedger !! c) -> gvD c.
Proof. cbn [gvLedger lMember]. by intros [m [<- _]%lookup_singleton_Some]. Qed.
Lemma gv_auth c : is_Some (lAuth gvLedger !! c) -> gvD c.
Proof. cbn [gvLedger lAuth]. by intros [m [<- _]%lookup_singleton_Some]. Qed.
Lemma gv_certs cert c : cert ∈ Certificates gvTx -> coldOf cert = Some c -> gvD c.
Proof. cbn [Certificates gvTx]. intros ->%list_elem_of_singleton [= <-]. done. Qed.

Lemma gvLedger_start : start_ok 3 gvLedger.
Proof.
  destruct cwLedger_start as [[W1 _] A Re F]. split; [|by destruct A; split|exact Re|done]. split; [exact W1|].
  intros c m. cbn [gvLedger lMember]. by intros [<- <-]%lookup_singleton_Some.
Qed.

Lemma gvState_reports : reports (lstate gvState) gvLedger.
Proof.
  apply stateOf_reports; [apply gvLedger_start|]. intros c c' ->%gv_member ->%gv_member. done.
Qed.

Lemma gvAction i st : lAction gvLedger !! i = Some st -> i = ([8], 0) /\ st = gvFork.
Proof. cbn [gvLedger lAction]. by intros [<- <-]%lookup_singleton_Some. Qed.

Lemma gv_ok : gov_ok (pProtocolVersion cwParams) gvRoots (lAction gvLedger).
Proof.
  split.
  - intros i st [-> ->]%gvAction. reflexivity.
  - intros i st prev purpose [-> ->]%gvAction [= <- <-]. by apply rooted_first with gvFork; [apply lookup_singleton_eq|].
  - intros i st prev v [-> ->]%gvAction [= <- <-]. split; [by apply path_first|done].
Qed.

Lemma gvTx_ok : block_ok gvD gvLedger [gvTx].
Proof.
  split.
  - repeat constructor; [intros a x Ha; by apply elem_of_nil in Ha|vm_compute; discriminate].
  - apply NoDup_singleton.
  - intros tx k ->%list_elem_of_singleton. change (lUtxo gvLedger) with (lUtxo cwLedger). cbn [cwLedger lUtxo Hash gvTx].
    by rewrite lookup_insert_ne, lookup_singleton_ne by congruence.
  - split; [apply gv_distinct|]. split; [apply gv_member|]. intros c [m H]. discriminate H.
  - intros tx cert c ->%list_elem_of_singleton. apply gv_certs.
  - vm_compute. discriminate.
Qed.

Lemma gvTx_new : ids_new gvRoots (lAction gvLedger) [gvTx].
Proof.
  split; [apply NoDup_singleton|]. intros tx k ->%list_elem_of_singleton. split; [|by intros []].
  by apply lookup_singleton_ne.
Qed.

(** Witness of C5: the fork to 11.1 after the one to 11.0. *)
Lemma block_governance_sound_witness :
  exists b, verifyBlockTransactions (UtxoValidationRules cwView (govRule cwOther)) [gvTx] 40 gvState cwParams = Ok b /\
    gov_ok (10, 0) gvRoots (lAction (ledger_tx 2 gvLedger (blockTx gvTx))).
Proof.
  assert (V : is_ok (verifyBlockTransactions (UtxoValidationRules cwView (govRule cwOther)) [gvTx] 40 gvState cwParams) = true)
    by (vm_compute; reflexivity).
  destruct (verifyBlockTransactions _ _ _ _ _) as [b|] eqn:E; [|discriminate]. exists b. split; [reflexivity|].
  destruct (block_governance_sound cwView cwOther 40 3 cwParams gvState gvLedger gvD gvRoots [gvTx] b) as (_ & A).
  - apply gvState_reports.
  - apply gvLedger_start.
  - reflexivity.
  - vm_compute. split; discriminate.
  - vm_compute. discriminate.
  - apply gvTx_ok.
  - apply gvTx_new.
  - apply gv_ok.
  - exact E.
  - exact A.
Defined.

(** Witness of C10: the two votes name actions that are open. *)
Lemma votes_exact_witness :
  action_named gvTx gvLedger ([4], 0) = Some (HardForkInitiationGovAction (Some ([8], 0)) (11, 1)) /\ open_until 40 gvTx gvLedger ([8], 0).
Proof.
  split; [vm_compute; reflexivity|].
  destruct (proj1 (votes_exact gvTx 40 gvState cwParams gvLedger gvState_reports (go_wf _ _ _ gv_ok)
    ltac:(intros i st [-> ->]%gvAction; discriminate)
    ltac:(intros p; cbn [ProposalProcedures gvTx]; intros [->|[->|?%elem_of_nil]%elem_of_cons]%elem_of_cons; done)
    ltac:(intros vote; cbn [VotingProcedures gvTx]; intros ->%list_elem_of_singleton; done))) with (v := mkVoter 0 (snd gvHot2))
    (ids := [Some ([8], 0); Some ([4], 0)]) (id := Some (([8], 0) : GovActionId)) as (i & a & [= <-] & _ & H & _).
  - vm_compute. repeat split; reflexivity.
  - cbn [VotingProcedures gvTx]. left.
  - left.
  - exact H.
Defined.

(** An instance: nothing has been applied yet. *)
Lemma committee_view_refines_witness : gov_reports (govView (NewBlockLedgerState (Utxo := ConwayOutput)) gvGov) gvElected gvLedger.
Proof.
  apply (committee_view_refines gvGov gvElected gvLedger gvLedger NewBlockLedgerState gvD).
  - apply govOf_reports.
  - apply overlay_new. reflexivity.
  - apply gvLedger_start.
  - apply gvTx_ok.
  - apply gv_auth.
Defined.

(** Witness of C20: the key authorized by the transaction's certificate may vote. *)
Lemma rules_see_certificates_witness :
  voter_known false gvElected (foldl (certify 2) gvLedger (Certificates gvTx)) (mkVoter 0 (snd gvHot2)).
Proof.
  destruct (rules_see_certificates gvTx gvState cwParams gvLedger 2 gvElected gvD) as [V _].
  - apply gvState_reports.
  - apply govOf_reports.
  - reflexivity.
  - apply gv_distinct.
  - apply gv_auth.
  - apply gv_certs.
  - apply (proj1 V ltac:(vm_compute; reflexivity) _ [Some ([8], 0); Some ([4], 0)]). left.
Defined.

(** An instance: the certificate of the transaction is of a member. *)
Lemma committee_certificates_exact_witness : committee_certs_ok 2 gvLedger (Certificates gvTx).
Proof.
  apply (committee_certificates_exact gvTx gvState gvLedger gvElected 2).
  - apply govOf_reports.
  - reflexivity.
  - vm_compute. reflexivity.
Defined.
