(* ===== verification/Rewards.v ===== *)
(** * Epoch rewards (src/ledger/common/rewards.go, rewards_service.go)

    The pots at the epoch boundary, the shares of the pools, the apportionment of
    the reward pot by largest remainder, the split inside a pool, and the check
    of a distribution against the calculation. [big.Rat] values are rationals
    [Q], of which the code uses only order, arithmetic and the floor. *)

From S2P Require Import Prelude.
From stdpp Require Import sorting.
From Stdlib Require Import QArith Qround Lqa.
#[local] Open Scope Z_scope.

Abbreviation PoolKeyHash := (list Z).
Abbreviation AddrKeyHash := (list Z).
(** A credential kind and a hash. *)
Abbreviation RewardCredential := (Z * list Z)%type.

Record AdaPots := mkPots { Reserves : Z; Treasury : Z; PotRewards : Z }.

(** The fields of [RewardParameters] the calculation reads. *)
Record RewardParameters := mkRewardParams {
  MonetaryExpansion : Z;
  TreasuryGrowth : Z;
  Major : Z;
  MaxPledgeLeverage : option Q;
  MinPoolMargin : option Q;
  PoolInfluence : option Q;
  ActiveSlotsCoeff : option Q;
  ExpectedSlotsPerEpoch : Z
}.

(** What the calculation reads of a pool's registration; [Margin] is in lowest
    terms, or nil. *)
Record PoolParameters := mkPoolParams {
  Cost : Z;
  Pledge : Z;
  Margin : option Q;
  PoolOwners : list AddrKeyHash;
  RewardAccountCredential : RewardCredential
}.

Record PoolRetirementInfo := mkPoolRetirementInfo { RewardAddress : AddrKeyHash; RetirementEpoch : Z }.

Record RewardSnapshot := mkSnapshot {
  TotalActiveStake : Z;
  PoolStake : gmap PoolKeyHash Z;
  DelegatorStake : gmap PoolKeyHash (gmap AddrKeyHash Z);
  PoolParams : gmap PoolKeyHash (option PoolParameters);
  StakeRegistrations : gmap AddrKeyHash bool;
  PoolBlocks : gmap PoolKeyHash Z;
  TotalBlocksInEpoch : Z;
  EarlyDeregistrations : gmap AddrKeyHash Z;
  LateDeregistrations : gmap AddrKeyHash Z;
  RetiredPools : gmap PoolKeyHash PoolRetirementInfo;
  StakeKeyPoolAssociations : gmap AddrKeyHash (list PoolKeyHash)
}.

Record PoolRewards := mkPoolRewards {
  OperatorRewardAccount : RewardCredential;
  OperatorRewards : Z;
  DelegatorRewards : gmap RewardCredential Z;
  PoolTotalRewards : Z
}.

Record RewardCalculationResult := mkRewardResult {
  TotalRewards : Z;
  PoolRewardsOf : gmap PoolKeyHash PoolRewards;
  UpdatedPots : AdaPots
}.

Inductive rewardError :=
| ErrActiveSlots | ErrSlotsPerEpoch | ErrLeverage | ErrMinMargin | ErrPoolParams (pool : PoolKeyHash)
| ErrMargin (pool : PoolKeyHash) | ErrNoPools.

(** ** The pots *)

Definition ratOf (z : Z) : Q := inject_Z z.

(** [Int.Quo(value.Num(), value.Denom())]. *)
Definition ratFloor (q : Q) : Z := Z.quot (Qnum q) (Zpos (Qden q)).

Definition qltb (a b : Q) : bool := negb (Qle_bool b a).

Definition calculateEta (totalBlocksInEpoch : Z) (params : RewardParameters) : result rewardError Q :=
  match ActiveSlotsCoeff params with
  | None => Err ErrActiveSlots
  | Some f =>
    if Qle_bool f 0 then Err ErrActiveSlots
    else if ExpectedSlotsPerEpoch params =? 0 then Err ErrSlotsPerEpoch
    else
    let expectedBlocks := (ratOf (ExpectedSlotsPerEpoch params) * f)%Q in
    let eta := (ratOf totalBlocksInEpoch / expectedBlocks)%Q in
    Ok (if qltb 1 eta then 1%Q else eta)
  end.

(** [Uint64] of a [big.Int] that does not fit is taken modulo 2^64. *)
Definition CalculateAdaPots (pots : AdaPots) (params : RewardParameters) (epochFees totalBlocksInEpoch : Z)
    : result rewardError AdaPots :=
  eta ← calculateEta totalBlocksInEpoch params;
  let expansion := MonetaryExpansion params * Reserves pots / 1000000 in
  let expansion := expansion * Qnum eta / Zpos (Qden eta) in
  let rewardPot := epochFees + expansion in
  let treasuryContribution := TreasuryGrowth params * rewardPot / 10000 in
  let rewardPot := rewardPot - treasuryContribution in
  let left_ := Reserves pots - expansion in
  Ok (mkPots (if left_ <? 0 then 0 else u64 left_) (u64 (Treasury pots + u64 treasuryContribution)) (u64 rewardPot)).

(** ** Pool shares *)

Definition poolSaturationThreshold : Q := (1 # 20)%Q.

Definition pledgeLeverageActive (params : RewardParameters) : bool :=
  (12 <=? Major params) && bool_decide (MaxPledgeLeverage params <> None).

Definition validateDijkstraRewardParameters (params : RewardParameters) : result rewardError unit :=
  if Major params <? 12 then Ok () else
  _ ← match MaxPledgeLeverage params with
      | Some l => if qltb l 1 || qltb (10000 # 1) l then Err ErrLeverage else Ok ()
      | None => Ok ()
      end;
  match MinPoolMargin params with
  | Some q => if qltb q 0 || qltb 1 q then Err ErrMinMargin else Ok ()
  | None => Ok ()
  end.

(** [ValidatePoolMargin]. *)
Definition ValidatePoolMargin (margin : option Q) : bool :=
  match margin with
  | None => false
  | Some q =>
    (0 <=? Qnum q) && (Qnum q <=? Zpos (Qden q)) && (Qnum q <=? MaxUint64) && (Zpos (Qden q) <=? MaxUint64)
  end.

Definition marginRat (margin : option Q) : Q :=
  match margin with
  | None => 0%Q
  | Some q => if Qnum q <=? 0 then 0%Q else if Zpos (Qden q) <=? Qnum q then 1%Q else q
  end.

Definition effectivePoolMargin (margin : option Q) (params : RewardParameters) : Q :=
  let result := marginRat margin in
  match MinPoolMargin params with
  | None => result
  | Some q =>
    if (Major params <? 13) || Qeq_bool q 0 then result
    else if qltb result q then q else result
  end.

Definition minimumRewardRatio (a b : Q) : Q := if Qle_bool a b then a else b.

Definition calculatePoolPerformance (poolID : PoolKeyHash) (snapshot : RewardSnapshot) : Q :=
  let poolBlocks := default 0 (PoolBlocks snapshot !! poolID) in
  if TotalBlocksInEpoch snapshot =? 0 then 1%Q
  else if poolBlocks =? 0 then 0%Q
  else
  let poolStake := default 0 (PoolStake snapshot !! poolID) in
  if poolStake =? 0 then 0%Q
  else ((ratOf poolBlocks / ratOf (TotalBlocksInEpoch snapshot)) *
        (ratOf (TotalActiveStake snapshot) / ratOf poolStake))%Q.

Definition calculatePoolShare (poolStake : Z) (pool : PoolParameters) (snapshot : RewardSnapshot)
    (params : RewardParameters) (poolID : PoolKeyHash) : Q :=
  if TotalActiveStake snapshot =? 0 then 0%Q else
  let performance := calculatePoolPerformance poolID snapshot in
  let total := ratOf (TotalActiveStake snapshot) in
  let stakeRatio := (ratOf poolStake / total)%Q in
  let stakeRatio :=
    match MaxPledgeLeverage params with
    | Some leverage =>
      if pledgeLeverageActive params then
        minimumRewardRatio (minimumRewardRatio stakeRatio poolSaturationThreshold)
          (ratOf (Pledge pool) / total * leverage)%Q
      else stakeRatio
    | None => stakeRatio
    end in
  let saturation := (stakeRatio / poolSaturationThreshold)%Q in
  let saturation := if qltb 1 saturation then 1%Q else saturation in
  let a0 := match PoolInfluence params with None => 1%Q | Some a0 => if qltb a0 0 then 0%Q else a0 end in
  let numerator := (stakeRatio * performance * (1 - marginRat (Margin pool)))%Q in
  let denominator := (a0 * saturation + 1)%Q in
  if Qle_bool denominator 0 then 0%Q else (numerator / denominator)%Q.

(** ** Apportioning the pot *)

Definition sortedPoolIDs {V} (pools : gmap PoolKeyHash V) : list PoolKeyHash :=
  merge_sort (fun a b => Is_true (bytes_leb a b)) (fst <$> map_to_list pools).

(** The first loop: the floors, what they assign, and the remainders. *)
Fixpoint floorLoop (pot : Z) (shares : gmap PoolKeyHash Q) (totalShare : Q) (ids : list PoolKeyHash)
    (assigned : Z) (amounts : gmap PoolKeyHash Z) (remainders : gmap PoolKeyHash Q)
    : Z * gmap PoolKeyHash Z * gmap PoolKeyHash Q :=
  match ids with
  | [] => (assigned, amounts, remainders)
  | id :: ids =>
    let exact := (default 0 (shares !! id) / totalShare * ratOf pot)%Q in
    let exact := if qltb exact 0 then 0%Q else exact in
    let remaining := pot - assigned in
    let floor := if remaining <=? 0 then 0
                 else if remaining <? ratFloor exact then remaining else ratFloor exact in
    floorLoop pot shares totalShare ids (assigned + floor) (<[id := u64 floor]> amounts)
      (<[id := (exact - ratOf floor)%Q]> remainders)
  end.

(** Descending remainder, then ascending identifier. *)
Definition remainder_leb (remainders : gmap PoolKeyHash Q) (a b : PoolKeyHash) : bool :=
  let ra := default 0%Q (remainders !! a) in
  let rb := default 0%Q (remainders !! b) in
  if Qeq_bool ra rb then bytes_leb a b else qltb rb ra.

Definition bump (amounts : gmap PoolKeyHash Z) (ids : list PoolKeyHash) : gmap PoolKeyHash Z :=
  foldl (fun m id => alter (fun v => u64 (v + 1)) id m) amounts ids.

Definition apportionRewardPot (pot : Z) (shares : gmap PoolKeyHash Q) (totalShare : Q) : gmap PoolKeyHash Z :=
  let ids := sortedPoolIDs shares in
  let '(assigned, amounts, remainders) := floorLoop pot shares totalShare ids 0 ∅ ∅ in
  let leftover := pot - assigned in
  if leftover <=? 0 then amounts
  else bump amounts (take (Z.to_nat (Z.min leftover (blen ids)))
                       (merge_sort (fun a b => Is_true (remainder_leb remainders a b)) ids)).

(** ** Inside a pool *)

Definition ratFloorUint64 (value : Q) : Z :=
  if Qle_bool value 0 then 0 else
  if (0 <=? ratFloor value) && (ratFloor value <=? MaxUint64) then ratFloor value else MaxUint64.

Definition CredentialTypeAddrKeyHash : Z := 0.
Definition keyRewardCredential (h : AddrKeyHash) : RewardCredential := (CredentialTypeAddrKeyHash, h).

(** The registered delegators' floors, and their sum. *)
Fixpoint delegatorLoop (registered : gmap AddrKeyHash bool) (pot total : Z) (ds : list (AddrKeyHash * Z))
    (rewards : gmap RewardCredential Z) (assigned : Z) : gmap RewardCredential Z * Z :=
  match ds with
  | [] => (rewards, assigned)
  | (key, stake) :: ds =>
    if default false (registered !! key) then
      let reward := u64 (stake * pot / total) in
      delegatorLoop registered pot total ds (<[keyRewardCredential key := reward]> rewards) (u64 (assigned + reward))
    else delegatorLoop registered pot total ds rewards assigned
  end.

Definition u64_sum (l : list Z) : Z := foldl (fun acc v => u64 (acc + v)) 0 l.

Definition distributePoolRewards (totalPoolRewards : Z) (delegatorStake : gmap AddrKeyHash Z)
    (pool : PoolParameters) (snapshot : RewardSnapshot) (params : RewardParameters) : PoolRewards :=
  let margin := effectivePoolMargin (Margin pool) params in
  let totalPoolStake := u64_sum (snd <$> map_to_list delegatorStake) in
  if totalPoolRewards <=? Cost pool then
    mkPoolRewards (RewardAccountCredential pool) totalPoolRewards ∅ totalPoolRewards
  else
  let ownerStake := u64_sum (omap (fun o => delegatorStake !! o) (PoolOwners pool)) in
  let operatorRewards :=
    if 0 <? totalPoolStake then
      let available := ratOf (totalPoolRewards - Cost pool) in
      let operatorShare := ((1 - margin) * (ratOf ownerStake / ratOf totalPoolStake) + margin)%Q in
      let variableRewards := (available * operatorShare)%Q in
      if Qle_bool available variableRewards then totalPoolRewards
      else if qltb 0 variableRewards then u64 (Cost pool + ratFloorUint64 variableRewards) else Cost pool
    else totalPoolRewards in
  let '(stakeholderRewardsTotal, operatorRewards) :=
    if operatorRewards <? totalPoolRewards then (totalPoolRewards - operatorRewards, operatorRewards)
    else (0, totalPoolRewards) in
  let '(delegatorRewards, assigned) :=
    if (0 <? totalPoolStake) && (0 <? stakeholderRewardsTotal) then
      delegatorLoop (StakeRegistrations snapshot) stakeholderRewardsTotal totalPoolStake
        (map_to_list delegatorStake) ∅ 0
    else (∅, 0) in
  let operatorRewards :=
    if assigned <? stakeholderRewardsTotal
    then u64 (operatorRewards + (stakeholderRewardsTotal - assigned)) else operatorRewards in
  mkPoolRewards (RewardAccountCredential pool) operatorRewards delegatorRewards totalPoolRewards.

(** ** The calculation *)

(** The first pass: shares, their total, and the pools eligible under leverage. *)
Fixpoint shareLoop (snapshot : RewardSnapshot) (params : RewardParameters) (ids : list PoolKeyHash)
    (shares : gmap PoolKeyHash Q) (totalShare : Q) (eligible : list PoolKeyHash)
    : result rewardError (gmap PoolKeyHash Q * Q * list PoolKeyHash) :=
  match ids with
  | [] => Ok (shares, totalShare, eligible)
  | id :: ids =>
    let poolStake := default 0 (PoolStake snapshot !! id) in
    match PoolParams snapshot !! id with
    | None => shareLoop snapshot params ids shares totalShare eligible
    | Some None => Err (ErrPoolParams id)
    | Some (Some pool) =>
      if negb (ValidatePoolMargin (Margin pool)) then Err (ErrMargin id) else
      let share := calculatePoolShare poolStake pool snapshot params id in
      shareLoop snapshot params ids (<[id := share]> shares) (totalShare + share)%Q
        (if pledgeLeverageActive params && (0 <? poolStake) && (0 <? Pledge pool)
         then eligible ++ [id] else eligible)
    end
  end.

Fixpoint distributeLoop (snapshot : RewardSnapshot) (params : RewardParameters) (amounts : gmap PoolKeyHash Z)
    (ids : list PoolKeyHash) (rewards : gmap PoolKeyHash PoolRewards)
    : result rewardError (gmap PoolKeyHash PoolRewards) :=
  match ids with
  | [] => Ok rewards
  | id :: ids =>
    match default None (PoolParams snapshot !! id) with
    | None => Err (ErrPoolParams id)
    | Some pool =>
      let pr := distributePoolRewards (default 0 (amounts !! id)) (default ∅ (DelegatorStake snapshot !! id))
                  pool snapshot params in
      distributeLoop snapshot params amounts ids (<[id := pr]> rewards)
    end
  end.

(** Equal shares for the given pools, zero for the others. *)
Definition equalShares (shares : gmap PoolKeyHash Q) (ids : list PoolKeyHash) : gmap PoolKeyHash Q :=
  foldl (fun m id => <[id := (1 / ratOf (blen ids))%Q]> m) ((fun _ => 0%Q) <$> shares) ids.

Definition CalculateRewards (pots : AdaPots) (snapshot : RewardSnapshot) (params : RewardParameters)
    : result rewardError RewardCalculationResult :=
  _ ← validateDijkstraRewardParameters params;
  if (TotalActiveStake snapshot =? 0) || (PotRewards pots =? 0) then Ok (mkRewardResult 0 ∅ pots) else
  first ← shareLoop snapshot params (sortedPoolIDs (PoolStake snapshot)) ∅ 0 [];
  let '(shares, totalShare, eligible) := first in
  if bool_decide (size shares = 0%nat) then Err ErrNoPools
  else if Qeq_bool totalShare 0 && (pledgeLeverageActive params && bool_decide (eligible = [])) then
    Ok (mkRewardResult 0 ∅ pots)
  else
  let '(shares, totalShare) :=
    if Qeq_bool totalShare 0 then
      (equalShares shares (if pledgeLeverageActive params then eligible else sortedPoolIDs shares), 1%Q)
    else (shares, totalShare) in
  let amounts := apportionRewardPot (PotRewards pots) shares totalShare in
  rewards ← distributeLoop snapshot params amounts (sortedPoolIDs amounts) ∅;
  Ok (mkRewardResult (PotRewards pots) rewards (mkPots (Reserves pots) (Treasury pots) 0)).

(** ** Checking a distribution *)

Definition addAllocation (recipient : RewardCredential) (reward : Z) (m : gmap RewardCredential Z)
    : gmap RewardCredential Z :=
  if 0 <? reward then <[recipient := u64 (default 0 (m !! recipient) + reward)]> m else m.

Definition poolAllocations (pr : PoolRewards) (m : gmap RewardCredential Z) : gmap RewardCredential Z :=
  foldl (fun m rv => addAllocation (fst rv) (snd rv) m)
    (addAllocation (OperatorRewardAccount pr) (OperatorRewards pr) m) (map_to_list (DelegatorRewards pr)).

Definition expectedAllocations (r : RewardCalculationResult) : gmap RewardCredential Z :=
  foldl (fun m kv => poolAllocations (snd kv) m) ∅ (map_to_list (PoolRewardsOf r)).

Definition ValidateRewardDistribution (expected : RewardCalculationResult) (actual : gmap RewardCredential Z) : bool :=
  bool_decide (expectedAllocations expected = actual).

(** ** Rationals *)

Lemma ratFloor_spec q : (0 <= q)%Q -> 0 <= ratFloor q /\ (ratOf (ratFloor q) <= q)%Q /\ (q < ratOf (ratFloor q) + 1)%Q.
Proof.
  intros Hq. unfold ratFloor, ratOf. assert (Hn : 0 <= Qnum q) by (unfold Qle in Hq; simpl in Hq; lia).
  rewrite Z.quot_div_nonneg by lia. split; [apply Z.div_pos; lia|].
  assert (E : Qnum q / Zpos (Qden q) = Qfloor q) by (by destruct q). rewrite E. split; [apply Qfloor_le|].
  pose proof (Qlt_floor q) as H. rewrite inject_Z_plus in H. done.
Qed.

Lemma ratOf_le a b : (ratOf a <= ratOf b)%Q <-> a <= b.
Proof. unfold ratOf. by rewrite <- Zle_Qle. Qed.
Lemma ratOf_lt a b : (ratOf a < ratOf b)%Q <-> a < b.
Proof. unfold ratOf. by rewrite <- Zlt_Qlt. Qed.
Lemma ratOf_add a b : (ratOf (a + b) == ratOf a + ratOf b)%Q.
Proof. unfold ratOf. by rewrite inject_Z_plus. Qed.

Lemma qltb_spec a b : reflect (a < b)%Q (qltb a b).
Proof.
  unfold qltb. destruct (Qle_bool b a) eqn:E; constructor.
  - apply Qle_bool_iff in E. lra.
  - apply Qnot_le_lt. intros H%Qle_bool_iff. congruence.
Qed.

Lemma qleb_spec a b : reflect (a <= b)%Q (Qle_bool a b).
Proof. destruct (Qle_bool a b) eqn:E; constructor; [by apply Qle_bool_iff|]. intros H%Qle_bool_iff. congruence. Qed.

Lemma qeqb_spec a b : reflect (a == b)%Q (Qeq_bool a b).
Proof. destruct (Qeq_bool a b) eqn:E; constructor; [by apply Qeq_bool_iff|]. intros H%Qeq_bool_iff. congruence. Qed.

(** Sums of rationals. *)
Definition sumQ {A} (f : A -> Q) (l : list A) : Q := foldr (fun x acc => (f x + acc)%Q) 0%Q l.

Lemma sumQ_perm {A} (f : A -> Q) l k : l ≡ₚ k -> (sumQ f l == sumQ f k)%Q.
Proof. induction 1; simpl in *; lra. Qed.

Lemma sumQ_ext {A} (f g : A -> Q) l : (forall x, x ∈ l -> (f x == g x)%Q) -> (sumQ f l == sumQ g l)%Q.
Proof.
  induction l as [|x l IH]; intros H; simpl; [lra|]. rewrite (H x) by constructor.
  rewrite IH by (intros; apply H; by constructor). lra.
Qed.

Lemma sumQ_nonneg {A} (f : A -> Q) l : (forall x, x ∈ l -> (0 <= f x)%Q) -> (0 <= sumQ f l)%Q.
Proof.
  induction l as [|x l IH]; intros H; simpl; [lra|]. pose proof (H x ltac:(constructor)).
  specialize (IH ltac:(intros; apply H; by constructor)). lra.
Qed.

Lemma sumQ_scale {A} (f : A -> Q) (c : Q) l : (sumQ (fun x => f x * c)%Q l == sumQ f l * c)%Q.
Proof. induction l as [|x l IH]; simpl; [lra|]. rewrite IH. lra. Qed.

(** Floors of a list of nonnegative numbers: at most their sum, and less than one
    short for each of them. *)
Lemma sum_floors {A} (f : A -> Q) l :
  (forall x, x ∈ l -> (0 <= f x)%Q) ->
  0 <= sum_by (fun x => ratFloor (f x)) l /\ (ratOf (sum_by (fun x => ratFloor (f x)) l) <= sumQ f l)%Q /\
  (l <> [] -> (sumQ f l < ratOf (sum_by (fun x => ratFloor (f x)) l + blen l))%Q).
Proof.
  induction l as [|x l IH]; intros H; cbn [sum_by sumQ foldr]; [by split_and!|].
  destruct (ratFloor_spec (f x) (H x ltac:(constructor))) as (F1 & F2 & F3).
  destruct IH as (I1 & I2 & I3); [intros; apply H; by constructor|]. fold (sumQ f l).
  split; [lia|]. rewrite blen_cons, !ratOf_add. split; [lra|]. intros _.
  change (ratOf 1) with 1%Q. destruct (decide (l = [])) as [->|Hne].
  - change (ratOf (blen (@nil A))) with 0%Q. change (ratOf (sum_by (fun x => ratFloor (f x)) [])) with 0%Q. simpl. lra.
  - specialize (I3 Hne). rewrite ratOf_add in I3. lra.
Qed.

(** ** The pots *)

Lemma calculateEta_unit blocks params eta :
  0 <= blocks -> 0 <= ExpectedSlotsPerEpoch params -> calculateEta blocks params = Ok eta -> (0 <= eta <= 1)%Q.
Proof.
  intros Hb Hs E. unfold calculateEta in E. destruct (ActiveSlotsCoeff params) as [f|]; [|done].
  destruct (qleb_spec f 0); [done|]. destruct (Z.eqb_spec (ExpectedSlotsPerEpoch params) 0); [done|].
  injection E as <-. destruct (qltb_spec 1 (ratOf blocks / (ratOf (ExpectedSlotsPerEpoch params) * f))) as [|Hle]; [lra|].
  split; [|lra]. assert (0 < ratOf (ExpectedSlotsPerEpoch params))%Q by (apply (ratOf_lt 0); lia).
  assert (0 <= ratOf blocks)%Q by (apply (ratOf_le 0); lia).
  apply Qle_shift_div_l; nra.
Qed.

(** The pots balance at the epoch boundary. With the expansion rate at most
    one (in millionths), the treasury rate at most one (in ten-thousandths) and
    pots that fit 64 bits together, the new reserves, treasury and rewards add
    up to the old reserves and treasury plus the fees: expansion is taken from
    the reserves, and no intermediate value wraps. The old rewards pot is not
    carried over. *)
Theorem pots_conserved pots params fees blocks pots' :
  0 <= Reserves pots -> 0 <= Treasury pots -> 0 <= fees -> 0 <= blocks ->
  Reserves pots + Treasury pots + fees <= MaxUint64 ->
  0 <= MonetaryExpansion params <= 1000000 -> 0 <= TreasuryGrowth params <= 10000 ->
  0 <= ExpectedSlotsPerEpoch params ->
  CalculateAdaPots pots params fees blocks = Ok pots' ->
  Reserves pots' + Treasury pots' + PotRewards pots' = Reserves pots + Treasury pots + fees /\
  0 <= Reserves pots' <= Reserves pots /\ Treasury pots <= Treasury pots' /\ 0 <= PotRewards pots'.
Proof.
  intros Hr Ht Hf Hb Hsum Hrho Htau Hslots (eta & Eeta & [= <-])%bind_Ok.
  pose proof (calculateEta_unit blocks params eta Hb Hslots Eeta) as [He0 He1].
  unfold Qle in He0, He1. simpl in He0, He1.
  set (e0 := MonetaryExpansion params * Reserves pots / 1000000).
  assert (H0 : 0 <= e0 <= Reserves pots).
  { unfold e0. split; [apply Z.div_pos; nia|]. apply Z.div_le_upper_bound; nia. }
  set (e := e0 * Qnum eta / Zpos (Qden eta)).
  assert (H1 : 0 <= e <= e0).
  { unfold e. split; [apply Z.div_pos; nia|]. apply Z.div_le_upper_bound; nia. }
  set (t := TreasuryGrowth params * (fees + e) / 10000).
  assert (H2 : 0 <= t <= fees + e).
  { unfold t. split; [apply Z.div_pos; nia|]. apply Z.div_le_upper_bound; nia. }
  unfold MaxUint64 in *. cbn [Reserves Treasury PotRewards]. destruct (Z.ltb_spec (Reserves pots - e) 0); [lia|].
  rewrite (u64_small t), !u64_small by (unfold MaxUint64; lia). lia.
Qed.

(** ** Apportionment *)

Section Apportion.
Variables (pot : Z) (shares : gmap PoolKeyHash Q) (totalShare : Q).
Hypothesis pot_range : 0 <= pot <= MaxUint64.

(** The exact share of a pool, its floor and its remainder. *)
Definition exactShare (id : PoolKeyHash) : Q := (default 0%Q (shares !! id) / totalShare * ratOf pot)%Q.
Definition floorShare (id : PoolKeyHash) : Z := ratFloor (exactShare id).
Definition remainderOf (id : PoolKeyHash) : Q := (exactShare id - ratOf (floorShare id))%Q.

#[local] Set Default Proof Using "All".

(** The amount the loop gives a pool is its floor: the running total never stands
    in the way. *)
Lemma floorLoop_amount (id : PoolKeyHash) (rest : Q) assigned :
  (0 <= exactShare id)%Q -> (0 <= rest)%Q -> (ratOf assigned + (exactShare id + rest) <= ratOf pot)%Q ->
  0 <= floorShare id /\ assigned + floorShare id <= pot /\
  (ratOf (assigned + floorShare id) + rest <= ratOf pot)%Q /\
  (if pot - assigned <=? 0 then 0
   else if pot - assigned <? floorShare id then pot - assigned else floorShare id) = floorShare id.
Proof.
  intros He Hr Hle. destruct (ratFloor_spec (exactShare id) He) as (F1 & F2 & F3). fold (floorShare id) in *.
  assert (Hp : assigned + floorShare id <= pot) by (apply ratOf_le; rewrite ratOf_add; lra).
  split_and!; try done.
  - rewrite ratOf_add. lra.
  - destruct (Z.leb_spec (pot - assigned) 0); [lia|]. destruct (Z.ltb_spec (pot - assigned) (floorShare id)); lia.
Qed.

Lemma floorLoop_spec ids : forall assigned amounts remainders,
  NoDup ids -> (forall id, id ∈ ids -> (0 <= exactShare id)%Q /\ amounts !! id = None) -> 0 <= assigned ->
  (ratOf assigned + sumQ exactShare ids <= ratOf pot)%Q ->
  exists amounts' remainders',
    floorLoop pot shares totalShare ids assigned amounts remainders =
      (assigned + sum_by floorShare ids, amounts', remainders') /\
    (forall id, amounts' !! id = if decide (id ∈ ids) then Some (floorShare id) else amounts !! id) /\
    (forall id, remainders' !! id = if decide (id ∈ ids) then Some (remainderOf id) else remainders !! id) /\
    msum amounts' = msum amounts + sum_by floorShare ids.
Proof.
  induction ids as [|id ids IH]; intros assigned amounts rems Hnd Hex Ha Hle; cbn [floorLoop sum_by].
  { exists amounts, rems. rewrite !Z.add_0_r. by split_and!. }
  apply NoDup_cons in Hnd as [Hni Hnd]. destruct (Hex id ltac:(constructor)) as [He Hn]. cbn [sumQ foldr] in Hle.
  fold (sumQ exactShare ids) in Hle.
  assert (Hrest : (0 <= sumQ exactShare ids)%Q) by (apply sumQ_nonneg; intros; apply Hex; by constructor).
  destruct (floorLoop_amount id (sumQ exactShare ids) assigned He Hrest ltac:(lra)) as (F1 & F2 & F3 & F4).
  fold (exactShare id). destruct (qltb_spec (exactShare id) 0); [lra|].
  change (ratFloor (exactShare id)) with (floorShare id). rewrite F4. fold (remainderOf id).
  rewrite (u64_small (floorShare id)) by lia.
  destruct (IH (assigned + floorShare id) (<[id := floorShare id]> amounts) (<[id := remainderOf id]> rems))
    as (a' & r' & E & Hl & Hr & Hs); [done| |lia|done|].
  { intros j Hj. destruct (Hex j ltac:(by constructor)) as [H1 H2]. split; [done|].
    rewrite lookup_insert_ne; [done|]. by intros ->. }
  exists a', r'. rewrite E. split; [f_equal; f_equal; lia|]. split; [|split].
  - intros j. rewrite Hl. destruct (decide (j = id)) as [->|].
    + rewrite decide_False, decide_True by (done || constructor). apply lookup_insert_eq.
    + rewrite lookup_insert_ne by done. destruct (decide (j ∈ ids)).
      * by rewrite decide_True by (by constructor).
      * rewrite decide_False; [done|]. intros [|]%elem_of_cons; done.
  - intros j. rewrite Hr. destruct (decide (j = id)) as [->|].
    + rewrite decide_False, decide_True by (done || constructor). apply lookup_insert_eq.
    + rewrite lookup_insert_ne by done. destruct (decide (j ∈ ids)).
      * by rewrite decide_True by (by constructor).
      * rewrite decide_False; [done|]. intros [|]%elem_of_cons; done.
  - rewrite Hs, msum_insert_fresh by done. lia.
Qed.

(** Handing out one lovelace each. *)
Lemma bump_spec (ids : list PoolKeyHash) : forall amounts : gmap PoolKeyHash Z,
  NoDup ids -> (forall id, id ∈ ids -> exists v, amounts !! id = Some v /\ 0 <= v < MaxUint64) ->
  (forall id, bump amounts ids !! id = (fun v => if decide (id ∈ ids) then v + 1 else v) <$> amounts !! id) /\
  msum (bump amounts ids) = msum amounts + blen ids.
Proof using Type.
  induction ids as [|id ids IH]; intros amounts Hnd Hin; cbn [bump foldl].
  { split; [|rewrite blen_nil; lia]. intros id. destruct (amounts !! id); [|done].
    cbn [fmap option_fmap option_map]. by destruct (decide (id ∈ [])) as [Hx%elem_of_nil|]. }
  apply NoDup_cons in Hnd as [Hni Hnd]. destruct (Hin id ltac:(constructor)) as (v & Hv & Hr).
  fold (bump (alter (fun v => u64 (v + 1)) id amounts) ids).
  assert (Ea : alter (fun v => u64 (v + 1)) id amounts = <[id := v + 1]> amounts).
  { apply map_eq. intros j. destruct (decide (j = id)) as [->|].
    - rewrite lookup_alter_eq, lookup_insert_eq, Hv. simpl. by rewrite u64_small by (unfold MaxUint64 in *; lia).
    - by rewrite lookup_alter_ne, lookup_insert_ne. }
  rewrite Ea. destruct (IH (<[id := v + 1]> amounts)) as [Hl Hs]; [done| |].
  { intros j Hj. destruct (Hin j ltac:(by constructor)) as (w & Hw & ?). exists w.
    rewrite lookup_insert_ne; [done|]. by intros ->. }
  split.
  - intros j. rewrite Hl. destruct (decide (j = id)) as [->|].
    + rewrite lookup_insert_eq, Hv. simpl. rewrite decide_False, decide_True by (done || constructor). done.
    + rewrite lookup_insert_ne by done. destruct (amounts !! j); [|done]. simpl.
      destruct (decide (j ∈ ids)); [by rewrite decide_True by (by constructor)|].
      rewrite decide_False; [done|]. intros [|]%elem_of_cons; done.
  - rewrite Hs, msum_insert, Hv, blen_cons. simpl. lia.
Qed.

(** ** The order of the remainders *)

Lemma remainder_leb_total rems a b : remainder_leb rems a b = true \/ remainder_leb rems b a = true.
Proof using Type.
  unfold remainder_leb. set (ra := default 0%Q (rems !! a)). set (rb := default 0%Q (rems !! b)).
  destruct (qeqb_spec ra rb), (qeqb_spec rb ra); try lra; [apply bytes_leb_total|].
  destruct (qltb_spec rb ra), (qltb_spec ra rb); auto. exfalso. lra.
Qed.

Lemma remainder_leb_trans rems a b c :
  remainder_leb rems a b = true -> remainder_leb rems b c = true -> remainder_leb rems a c = true.
Proof using Type.
  unfold remainder_leb. set (ra := default 0%Q (rems !! a)). set (rb := default 0%Q (rems !! b)).
  set (rc := default 0%Q (rems !! c)).
  destruct (qeqb_spec ra rb), (qeqb_spec rb rc), (qeqb_spec ra rc);
    destruct (qltb_spec rb ra), (qltb_spec rc rb), (qltb_spec rc ra); intros H1 H2; try done; try (exfalso; lra).
  all: by eapply bytes_leb_trans.
Qed.

Lemma remainder_leb_le rems a b :
  remainder_leb rems a b = true -> (default 0 (rems !! b) <= default 0 (rems !! a))%Q.
Proof using Type.
  unfold remainder_leb. destruct (qeqb_spec (default 0%Q (rems !! a)) (default 0%Q (rems !! b))); [lra|].
  destruct (qltb_spec (default 0%Q (rems !! b)) (default 0%Q (rems !! a))); [lra|done].
Qed.

(** In the sorted order, nothing after a prefix has a larger remainder than
    anything in it. *)
Lemma sorted_prefix rems (ids : list PoolKeyHash) n i j :
  let sorted := merge_sort (fun a b => Is_true (remainder_leb rems a b)) ids in
  (i ∈ take n sorted) -> (j ∈ sorted) -> (j ∉ take n sorted) ->
  (default 0 (rems !! j) <= default 0 (rems !! i))%Q.
Proof using Type.
  intros sorted Hi Hj Hn.
  assert (HT : Transitive (fun a b => Is_true (remainder_leb rems a b))).
  { intros x y z. rewrite !Is_true_true. apply remainder_leb_trans. }
  assert (HO : Total (fun a b => Is_true (remainder_leb rems a b))).
  { intros x y. rewrite !Is_true_true. apply remainder_leb_total. }
  pose proof (StronglySorted_merge_sort (fun a b => Is_true (remainder_leb rems a b)) ids) as HS. fold sorted in HS.
  assert (Hd : j ∈ drop n sorted).
  { rewrite <- (take_drop n sorted) in Hj. by apply elem_of_app in Hj as [|]. }
  rewrite <- (take_drop n sorted) in HS. apply remainder_leb_le. apply Is_true_true.
  eapply (StronglySorted_app_1_elem_of _ _ _ _ _ HS); done.
Qed.

Lemma sortedPoolIDs_perm {V} (m : gmap PoolKeyHash V) : sortedPoolIDs m ≡ₚ (map_to_list m).*1.
Proof using Type. apply merge_sort_Permutation. Qed.

Lemma sortedPoolIDs_NoDup {V} (m : gmap PoolKeyHash V) : NoDup (sortedPoolIDs m).
Proof using Type. rewrite sortedPoolIDs_perm. apply NoDup_fst_map_to_list. Qed.

Lemma elem_of_sortedPoolIDs {V} (m : gmap PoolKeyHash V) id : (id ∈ sortedPoolIDs m) <-> is_Some (m !! id).
Proof using Type.
  rewrite sortedPoolIDs_perm, list_elem_of_fmap. split.
  - intros ([k v] & -> & H%elem_of_map_to_list). by exists v.
  - intros [v Hv]. exists (id, v). split; [done|]. by apply elem_of_map_to_list.
Qed.

(** The sum of all shares. *)
Definition shareTotal : Q := sumQ snd (map_to_list shares).

Lemma shareTotal_ids : (sumQ (fun id => default 0%Q (shares !! id)) (sortedPoolIDs shares) == shareTotal)%Q.
Proof using Type.
  rewrite (sumQ_perm _ _ _ (sortedPoolIDs_perm shares)). unfold shareTotal.
  assert (H : forall l, (forall kv, kv ∈ l -> shares !! fst kv = Some (snd kv)) ->
            (sumQ (fun id => default 0%Q (shares !! id)) l.*1 == sumQ snd l)%Q).
  { induction l as [|[k v] l IH]; intros Hl; simpl; [lra|].
    pose proof (Hl (k, v) ltac:(constructor)) as E. simpl in E. rewrite E. simpl.
    rewrite IH by (intros; apply Hl; by constructor). lra. }
  apply H. intros [k v] Hkv. by apply elem_of_map_to_list.
Qed.

Hypothesis shares_nonneg : forall id s, shares !! id = Some s -> (0 <= s)%Q.
Hypothesis total_positive : (0 < totalShare)%Q.
Hypothesis total_sum : (totalShare == shareTotal)%Q.

Lemma exactShare_nonneg id : (0 <= exactShare id)%Q.
Proof.
  unfold exactShare. assert (0 <= default 0%Q (shares !! id))%Q.
  { destruct (shares !! id) as [s|] eqn:E; [by apply (shares_nonneg id)|simpl; lra]. }
  assert (0 <= ratOf pot)%Q by (apply (ratOf_le 0); lia).
  apply Qmult_le_0_compat; [|done]. apply Qle_shift_div_l; [done|lra].
Qed.

Lemma exactShare_sum : (sumQ exactShare (sortedPoolIDs shares) == ratOf pot)%Q.
Proof.
  rewrite (sumQ_ext exactShare (fun id => default 0 (shares !! id) * (/ totalShare * ratOf pot))%Q)
    by (intros; unfold exactShare, Qdiv; ring).
  rewrite sumQ_scale, shareTotal_ids, <- total_sum. field. lra.
Qed.

(** The floors leave fewer lovelace over than there are pools. *)
Lemma leftover_bounds : 0 <= pot - sum_by floorShare (sortedPoolIDs shares) <= blen (sortedPoolIDs shares).
Proof.
  destruct (sum_floors exactShare (sortedPoolIDs shares)) as (F1 & F2 & F3); [intros; apply exactShare_nonneg|].
  change (sum_by (fun x => ratFloor (exactShare x)) (sortedPoolIDs shares)) with
    (sum_by floorShare (sortedPoolIDs shares)) in F1, F2, F3.
  rewrite exactShare_sum in F2, F3. apply (proj1 (ratOf_le _ _)) in F2. split; [lia|].
  destruct (sortedPoolIDs shares) as [|x l] eqn:El.
  - pose proof exactShare_sum as Hp. rewrite El in Hp. simpl in Hp.
    assert (pot <= 0) by (apply (proj1 (ratOf_le _ _)); change (ratOf 0) with 0%Q; lra). change (blen (@nil PoolKeyHash)) with 0. simpl. lia.
  - specialize (F3 ltac:(done)). apply (proj1 (ratOf_lt _ _)) in F3. lia.
Qed.

Lemma floorShare_bounds id : (id ∈ sortedPoolIDs shares) -> 0 <= floorShare id <= sum_by floorShare (sortedPoolIDs shares).
Proof.
  assert (Hn : forall j, 0 <= floorShare j) by (intros j; apply ratFloor_spec, exactShare_nonneg).
  intros Hid. split; [done|]. induction (sortedPoolIDs shares) as [|x l IH]; [by apply elem_of_nil in Hid|].
  cbn [sum_by]. pose proof (sum_by_nonneg floorShare l Hn). pose proof (Hn x).
  apply elem_of_cons in Hid as [->|Hid]; [lia|]. specialize (IH Hid). lia.
Qed.

(** The amounts, against the exact shares. *)
Lemma apportion_spec :
  let amounts := apportionRewardPot pot shares totalShare in
  msum amounts = pot /\
  (forall id, is_Some (amounts !! id) <-> is_Some (shares !! id)) /\
  (forall id, is_Some (shares !! id) ->
     amounts !! id = Some (floorShare id) \/ amounts !! id = Some (floorShare id + 1)) /\
  (forall i j, is_Some (shares !! i) -> is_Some (shares !! j) ->
     amounts !! i = Some (floorShare i + 1) -> amounts !! j = Some (floorShare j) ->
     (remainderOf j <= remainderOf i)%Q).
Proof.
  intros amounts. subst amounts. unfold apportionRewardPot.
  destruct (floorLoop_spec (sortedPoolIDs shares) 0 ∅ ∅) as (am & rem & -> & Ha & Hr & Hs).
  { apply sortedPoolIDs_NoDup. }
  { intros id _. split; [apply exactShare_nonneg|apply lookup_empty]. }
  { lia. }
  { change (ratOf 0) with 0%Q. rewrite exactShare_sum. lra. }
  rewrite Z.add_0_l. replace (msum (∅ : gmap PoolKeyHash Z)) with 0 in Hs by done. rewrite Z.add_0_l in Hs.
  assert (Ham : forall id, am !! id = if decide (id ∈ sortedPoolIDs shares) then Some (floorShare id) else None).
  { intros id. rewrite Ha. by destruct (decide _); [|rewrite lookup_empty]. }
  set (ids := sortedPoolIDs shares) in *. pose proof leftover_bounds as Hl. fold ids in Hl.
  assert (Hid : forall id, is_Some (shares !! id) <-> id ∈ ids) by (intros; symmetry; apply elem_of_sortedPoolIDs).
  destruct (Z.leb_spec (pot - sum_by floorShare ids) 0) as [Hle|Hgt].
  { split; [lia|]. split; [|split].
    - intros id. rewrite Ham, Hid. destruct (decide (id ∈ ids)); [by split|]. by split; [intros []|].
    - intros id H%Hid. left. by rewrite Ham, decide_True.
    - intros i j Hi%Hid _. rewrite Ham, decide_True by done. intros [= E]. lia. }
  set (sorted := merge_sort _ ids). set (n := Z.to_nat _). set (l := take n sorted).
  assert (Hperm : sorted ≡ₚ ids) by apply merge_sort_Permutation.
  assert (Hsub : forall id, id ∈ l -> id ∈ ids).
  { intros id H%elem_of_take. destruct H as (k & Hk & _). rewrite <- Hperm. by eapply list_elem_of_lookup_2. }
  destruct (bump_spec l am) as [Hb Hsum].
  { apply (sublist_NoDup l sorted); [|apply sublist_take]. rewrite Hperm. apply sortedPoolIDs_NoDup. }
  { intros id Hi%Hsub. exists (floorShare id). rewrite Ham, decide_True by done. split; [done|].
    pose proof (floorShare_bounds id Hi) as Hfb. change (sortedPoolIDs shares) with ids in Hfb. lia. }
  assert (Hlen : blen l = pot - sum_by floorShare ids).
  { unfold l. rewrite blen_take. unfold n. unfold blen in Hl |- *. rewrite Hperm. lia. }
  split; [rewrite Hsum, Hs; lia|]. split; [|split].
  - intros id. rewrite Hb, fmap_is_Some, Ham, Hid. destruct (decide (id ∈ ids)); [by split|]. by split; [intros []|].
  - intros id H%Hid. rewrite Hb, Ham, decide_True by done. cbn [fmap option_fmap option_map].
    destruct (decide (id ∈ l)); [by right|by left].
  - intros i j Hi%Hid Hj%Hid. rewrite !Hb, !Ham, !decide_True by done. cbn [fmap option_fmap option_map].
    destruct (decide (i ∈ l)) as [Hil|]; [|intros [= E]; lia].
    destruct (decide (j ∈ l)) as [|Hjl]; [intros _ [= E]; lia|]. intros _ _.
    assert (Hjs : j ∈ sorted) by (by rewrite Hperm). pose proof (sorted_prefix rem ids n i j Hil Hjs Hjl) as H.
    rewrite !Hr, !decide_True in H by done. done.
Qed.

(** The pot is split to the last lovelace, fairly. When the shares are
    nonnegative and add up to a positive total, the amounts of all pools add up
    to exactly the pot; every pool gets the floor of its exact share or one more;
    and the extra lovelace go to the largest remainders. *)
Theorem apportion_exact :
  let amounts := apportionRewardPot pot shares totalShare in
  msum amounts = pot /\
  (forall id, is_Some (amounts !! id) <-> is_Some (shares !! id)) /\
  (forall id, is_Some (shares !! id) ->
     amounts !! id = Some (floorShare id) \/ amounts !! id = Some (floorShare id + 1)) /\
  (forall i j, is_Some (shares !! i) -> is_Some (shares !! j) ->
     amounts !! i = Some (floorShare i + 1) -> amounts !! j = Some (floorShare j) ->
     (remainderOf j <= remainderOf i)%Q).
Proof. exact apportion_spec. Qed.
End Apportion.

(** ** The split inside a pool *)

Lemma u64_sum_exact_acc (l : list Z) : forall acc,
  0 <= acc -> Forall (fun v => 0 <= v) l -> acc + sum_by (fun v => v) l <= MaxUint64 ->
  foldl (fun acc v => u64 (acc + v)) acc l = acc + sum_by (fun v => v) l.
Proof.
  induction l as [|v l IH]; intros acc Ha Hf Hs; cbn [foldl sum_by] in *; [lia|].
  apply Forall_cons in Hf as [Hv Hf]. assert (0 <= sum_by (fun v => v) l).
  { clear -Hf. induction Hf; simpl; lia. }
  rewrite u64_small by lia. rewrite IH by (done || lia). lia.
Qed.

(** A sum that fits 64 bits does not wrap. *)
Lemma u64_sum_exact (l : list Z) :
  Forall (fun v => 0 <= v) l -> sum_by (fun v => v) l <= MaxUint64 -> u64_sum l = sum_by (fun v => v) l.
Proof. intros Hf Hs. unfold u64_sum. by rewrite u64_sum_exact_acc. Qed.

Lemma sum_by_fmap {A B} (f : A -> B) (g : B -> Z) l : sum_by g (f <$> l) = sum_by (fun x => g (f x)) l.
Proof. induction l as [|x l IH]; [done|]. rewrite fmap_cons. simpl. by rewrite IH. Qed.

(** The stake of a pool's delegators. *)
Definition stakeTotal (d : gmap AddrKeyHash Z) : Z := sum_by snd (map_to_list d).

(** The delegators' floors stay within the pot, and their map adds up to what was
    assigned. *)
Lemma delegatorLoop_sum reg pot total (ds : list (AddrKeyHash * Z)) : forall rewards assigned,
  0 <= pot <= MaxUint64 -> 0 < total -> NoDup ds.*1 -> Forall (fun d => 0 <= snd d) ds ->
  (forall k, k ∈ ds.*1 -> rewards !! keyRewardCredential k = None) -> 0 <= assigned ->
  assigned * total + sum_by snd ds * pot <= pot * total ->
  let '(rewards', assigned') := delegatorLoop reg pot total ds rewards assigned in
  assigned <= assigned' <= pot /\ msum rewards' = msum rewards + (assigned' - assigned).
Proof.
  induction ds as [|[k s] ds IH]; intros rewards assigned Hp Ht Hnd Hf Hk Ha Hle; cbn [delegatorLoop].
  { simpl in Hle. split; [nia|lia]. }
  rewrite fmap_cons in Hnd, Hk. apply NoDup_cons in Hnd as [Hn Hnd]. apply Forall_cons in Hf as [Hs Hf].
  cbn [sum_by snd fst] in *.
  assert (Hrest : 0 <= sum_by snd ds) by (clear -Hf; induction Hf; simpl; lia).
  assert (Hq : 0 <= s * pot / total /\ s * pot / total * total <= s * pot).
  { split; [apply Z.div_pos; nia|]. pose proof (Z.mul_div_le (s * pot) total). lia. }
  destruct (default false (reg !! k)).
  - rewrite !u64_small by nia.
    specialize (IH (<[keyRewardCredential k := s * pot / total]> rewards) (assigned + s * pot / total)).
    destruct (delegatorLoop _ _ _ _ _ _) as [r' a']. destruct IH as [I1 I2]; try done; try nia.
    + intros j Hj. rewrite lookup_insert_ne; [apply Hk; by constructor|]. intros [= ->]. done.
    + rewrite I2, msum_insert_fresh by (apply Hk; constructor). lia.
  - apply IH; try done; try nia. intros j Hj. apply Hk. by constructor.
Qed.

(** What the operator takes before the stakeholders: at most the rewards. *)
Lemma operator_bound (available variable : Q) (rewards cost : Z) :
  available = ratOf (rewards - cost) -> 0 <= cost < rewards -> rewards <= MaxUint64 ->
  0 <= (if Qle_bool available variable then rewards
        else if qltb 0 variable then u64 (cost + ratFloorUint64 variable) else cost) <= rewards.
Proof.
  intros -> Hc Hr. destruct (qleb_spec (ratOf (rewards - cost)) variable) as [|Hv]; [lia|].
  destruct (qltb_spec 0 variable) as [H0|]; [|lia]. unfold ratFloorUint64.
  destruct (qleb_spec variable 0); [lra|]. destruct (ratFloor_spec variable) as (F1 & F2 & F3); [lra|].
  assert (ratFloor variable <= rewards - cost) by (apply (proj1 (ratOf_le _ _)); lra).
  destruct (Z.leb_spec 0 (ratFloor variable)); [|lia]. destruct (Z.leb_spec (ratFloor variable) MaxUint64); [|lia].
  cbn [andb]. rewrite u64_small by lia. lia.
Qed.

Lemma pool_split_sum rewards d pool snapshot params :
  0 <= rewards <= MaxUint64 -> 0 <= Cost pool -> map_Forall (fun _ s => 0 <= s) d -> stakeTotal d <= MaxUint64 ->
  let pr := distributePoolRewards rewards d pool snapshot params in
  OperatorRewards pr + msum (DelegatorRewards pr) = rewards /\ 0 <= OperatorRewards pr.
Proof.
  intros Hr Hc Hd Hs. unfold distributePoolRewards. destruct (Z.leb_spec rewards (Cost pool)) as [|Hgt].
  { cbn. split; [|lia]. change (msum ∅) with 0. lia. }
  assert (Hf : Forall (fun kv => 0 <= snd kv) (map_to_list d)).
  { apply Forall_forall. intros [k s] Hk%elem_of_map_to_list. by apply (Hd k). }
  assert (Etot : u64_sum (snd <$> map_to_list d) = stakeTotal d).
  { rewrite u64_sum_exact; [by rewrite sum_by_fmap|by apply Forall_fmap|by rewrite sum_by_fmap]. }
  rewrite Etot. set (own := u64_sum (omap _ _)).
  set (op := if 0 <? stakeTotal d then _ else rewards).
  assert (Hop : 0 <= op <= rewards).
  { unfold op. destruct (0 <? stakeTotal d); [|lia]. apply operator_bound; [done|lia|lia]. }
  destruct (Z.ltb_spec op rewards) as [Hlt|].
  2:{ replace op with rewards by lia. rewrite andb_false_r. cbn. change (msum ∅) with 0. lia. }
  destruct (Z.ltb_spec 0 (stakeTotal d)) as [Hst|]; cbn [andb].
  - destruct (Z.ltb_spec 0 (rewards - op)); [|lia].
    pose proof (delegatorLoop_sum (StakeRegistrations snapshot) (rewards - op) (stakeTotal d) (map_to_list d) ∅ 0) as HL.
    destruct (delegatorLoop _ _ _ _ _ _) as [rs as_]. destruct HL as [H1 H2]; try done; try lia.
    + apply NoDup_fst_map_to_list.
    + unfold stakeTotal. nia.
    + change (msum ∅) with 0 in H2. destruct (Z.ltb_spec as_ (rewards - op)); cbn [OperatorRewards DelegatorRewards];
        [rewrite u64_small by lia|]; lia.
  - destruct (Z.ltb_spec 0 (rewards - op)); [|lia]. cbn [OperatorRewards DelegatorRewards].
    change (msum ∅) with 0. rewrite u64_small by lia. lia.
Qed.

(** ** The whole calculation *)

(** Amounts a snapshot of the chain can hold. *)
Record snapshot_ok (s : RewardSnapshot) : Prop := {
  snap_total : 0 <= TotalActiveStake s;
  snap_stake id v : PoolStake s !! id = Some v -> 0 <= v;
  snap_blocks id v : PoolBlocks s !! id = Some v -> 0 <= v;
  snap_total_blocks : 0 <= TotalBlocksInEpoch s;
  snap_pools id p : PoolParams s !! id = Some (Some p) -> 0 <= Cost p /\ 0 <= Pledge p;
  snap_delegators id d : DelegatorStake s !! id = Some d ->
    map_Forall (fun _ v => 0 <= v) d /\ stakeTotal d <= MaxUint64
}.

Lemma ratOf_nonneg z : 0 <= z -> (0 <= ratOf z)%Q.
Proof. intros. by apply (proj2 (ratOf_le 0 z)). Qed.

Lemma Qdiv_nonneg a b : (0 <= a)%Q -> (0 <= b)%Q -> (0 <= a / b)%Q.
Proof. intros Ha Hb. apply Qmult_le_0_compat; [done|]. by apply Qinv_le_0_compat. Qed.

Lemma default_nonneg (m : gmap PoolKeyHash Z) id : (forall k v, m !! k = Some v -> 0 <= v) -> 0 <= default 0 (m !! id).
Proof. intros H. destruct (m !! id) as [v|] eqn:E; [by apply (H id)|done]. Qed.

Lemma performance_nonneg id s : snapshot_ok s -> (0 <= calculatePoolPerformance id s)%Q.
Proof.
  intros Hs. unfold calculatePoolPerformance. destruct (_ =? 0); [lra|]. destruct (_ =? 0); [lra|]. destruct (_ =? 0); [lra|].
  apply Qmult_le_0_compat; apply Qdiv_nonneg; apply ratOf_nonneg;
    [eapply default_nonneg; apply Hs|apply Hs|apply Hs|eapply default_nonneg; apply Hs].
Qed.

Lemma marginRat_unit m : (0 <= marginRat m <= 1)%Q.
Proof.
  unfold marginRat. destruct m as [q|]; [|lra]. destruct (Z.leb_spec (Qnum q) 0); [lra|].
  destruct (Z.leb_spec (Zpos (Qden q)) (Qnum q)); [lra|]. unfold Qle. simpl. lia.
Qed.

Lemma minimumRewardRatio_nonneg a b : (0 <= a)%Q -> (0 <= b)%Q -> (0 <= minimumRewardRatio a b)%Q.
Proof. intros. unfold minimumRewardRatio. by destruct (Qle_bool a b). Qed.

Lemma share_nonneg st pool s params id :
  snapshot_ok s -> 0 <= st -> 0 <= Pledge pool -> validateDijkstraRewardParameters params = Ok () ->
  (0 <= calculatePoolShare st pool s params id)%Q.
Proof.
  intros Hs Hst Hp Hv. unfold calculatePoolShare. destruct (_ =? 0); [lra|].
  pose proof (ratOf_nonneg _ (snap_total s Hs)) as Ht. pose proof (marginRat_unit (Margin pool)) as Hm.
  set (ratio := match MaxPledgeLeverage params with Some _ => _ | None => _ end).
  assert (Hratio : (0 <= ratio)%Q).
  { assert (0 <= ratOf st / ratOf (TotalActiveStake s))%Q by (apply Qdiv_nonneg; [by apply ratOf_nonneg|done]).
    unfold ratio. destruct (MaxPledgeLeverage params) as [l|] eqn:El; [|done].
    unfold pledgeLeverageActive. rewrite El. destruct (Z.leb_spec 12 (Major params)); [|done].
    rewrite bool_decide_true by done. cbn [andb].
    assert (0 <= l)%Q.
    { unfold validateDijkstraRewardParameters in Hv. rewrite El in Hv. destruct (Z.ltb_spec (Major params) 12); [lia|].
      destruct (qltb_spec l 1); [done|lra]. }
    repeat apply minimumRewardRatio_nonneg; [done|unfold poolSaturationThreshold; lra|].
    apply Qmult_le_0_compat; [|done]. apply Qdiv_nonneg; [by apply ratOf_nonneg|done]. }
  destruct (qleb_spec ((match PoolInfluence params with None => 1%Q | Some a0 => if qltb a0 0 then 0%Q else a0 end) *
      (if qltb 1 (ratio / poolSaturationThreshold) then 1%Q else ratio / poolSaturationThreshold) + 1) 0) as [|Hd]; [lra|].
  apply Qdiv_nonneg; [|lra]. repeat apply Qmult_le_0_compat; [done|by apply performance_nonneg|lra].
Qed.

Lemma shareTotal_insert shares id q :
  shares !! id = None -> (shareTotal (<[id := q]> shares) == q + shareTotal shares)%Q.
Proof.
  intros Hn. unfold shareTotal. rewrite (sumQ_perm _ _ _ (map_to_list_insert shares id q Hn)). simpl. lra.
Qed.

(** The first pass: nonnegative shares with their exact total, and the eligible
    pools among them. *)
Lemma shareLoop_ok s params ids : snapshot_ok s -> validateDijkstraRewardParameters params = Ok () ->
  forall shares total elig shares' total' elig',
  NoDup ids -> (forall id, id ∈ ids -> shares !! id = None) ->
  (forall id q, shares !! id = Some q -> (0 <= q)%Q) -> (total == shareTotal shares)%Q ->
  NoDup elig -> (forall id, id ∈ elig -> is_Some (shares !! id)) ->
  shareLoop s params ids shares total elig = Ok (shares', total', elig') ->
  (forall id q, shares' !! id = Some q -> (0 <= q)%Q) /\ (total' == shareTotal shares')%Q /\
  NoDup elig' /\ (forall id, id ∈ elig' -> is_Some (shares' !! id)).
Proof.
  intros Hs Hv. induction ids as [|id ids IH]; intros shares total elig shares' total' elig' Hnd Hfr Hq Ht He Hes E;
    cbn [shareLoop] in E; [by simplify_eq|].
  apply NoDup_cons in Hnd as [Hni Hnd]. pose proof (Hfr id ltac:(constructor)) as Hn.
  destruct (PoolParams s !! id) as [[pool|]|] eqn:Ep; [|done|].
  2:{ refine (IH _ _ _ _ _ _ Hnd _ Hq Ht He Hes E). intros; apply Hfr; by constructor. }
  destruct (ValidatePoolMargin (Margin pool)); [|done]. cbn [negb] in E. revert E.
  set (q := calculatePoolShare _ _ _ _ _). intros E. destruct (snap_pools s Hs id pool Ep) as [_ Hpl].
  assert (Hq0 : (0 <= q)%Q) by (apply share_nonneg; try done; eapply default_nonneg; apply Hs).
  refine (IH _ _ _ _ _ _ Hnd _ _ _ _ _ E).
  - intros j Hj. rewrite lookup_insert_ne; [apply Hfr; by constructor|]. by intros ->.
  - intros j x Hx. apply lookup_insert_Some in Hx as [[_ <-]|[_ Hx]]; [done|by apply (Hq j)].
  - rewrite shareTotal_insert by done. lra.
  - destruct (_ && _ && _); [|done]. apply NoDup_app. split_and!; [done| |apply NoDup_singleton].
    intros x Hx ->%list_elem_of_singleton. destruct (Hes id Hx). congruence.
  - intros j Hj. destruct (decide (j = id)) as [->|]; [rewrite lookup_insert_eq; by eexists|].
    rewrite lookup_insert_ne by done. destruct (_ && _ && _); [|by apply Hes].
    apply elem_of_app in Hj as [Hj|Hj%list_elem_of_singleton]; [by apply Hes|done].
Qed.

(** Equal shares for some of the pools add up to one. *)
Lemma equalShares_ok shares ids :
  NoDup ids -> ids <> [] -> (forall id, id ∈ ids -> is_Some (shares !! id)) ->
  (forall id q, equalShares shares ids !! id = Some q -> (0 <= q)%Q) /\
  (shareTotal (equalShares shares ids) == 1)%Q.
Proof.
  intros Hnd Hne Hin. unfold equalShares. set (e := (1 / ratOf (blen ids))%Q).
  assert (Hb : (0 < ratOf (blen ids))%Q).
  { apply (proj2 (ratOf_lt 0 _)). destruct ids; [done|]. rewrite blen_cons. pose proof (blen_nonneg ids). lia. }
  assert (He : (0 <= e)%Q) by (apply Qdiv_nonneg; lra).
  assert (Hgen : forall l m, NoDup l -> (forall id, id ∈ l -> m !! id = Some 0%Q) ->
    (forall id q, m !! id = Some q -> (0 <= q)%Q) ->
    (forall id q, foldl (fun m id => <[id := e]> m) m l !! id = Some q -> (0 <= q)%Q) /\
    (shareTotal (foldl (fun m id => <[id := e]> m) m l) == shareTotal m + ratOf (blen l) * e)%Q).
  { induction l as [|id l IH]; intros m Hl Hm Hq; cbn [foldl].
    { split; [done|]. change (ratOf (blen (@nil PoolKeyHash))) with 0%Q. lra. }
    apply NoDup_cons in Hl as [Hni Hl]. destruct (IH (<[id := e]> m)) as [I1 I2]; [done| | |].
    - intros j Hj. rewrite lookup_insert_ne; [apply Hm; by constructor|]. by intros ->.
    - intros j q Hj. apply lookup_insert_Some in Hj as [[_ <-]|[_ Hj]]; [done|by apply (Hq j)].
    - split; [done|]. rewrite I2, blen_cons, ratOf_add. change (ratOf 1) with 1%Q.
      pose proof (Hm id ltac:(constructor)) as H0.
      rewrite <- (insert_delete_id m id 0%Q H0) at 2.
      rewrite <- (insert_delete_eq m id e), !shareTotal_insert by apply lookup_delete_eq. lra. }
  assert (Hz : forall id q, (((fun _ : Q => 0%Q) <$> shares) !! id = Some q) -> q = 0%Q).
  { intros id q (x & <- & _)%lookup_fmap_Some. done. }
  destruct (Hgen ids ((fun _ => 0%Q) <$> shares)) as [G1 G2]; [done| | |].
  - intros id [q Hq]%Hin. by rewrite lookup_fmap, Hq.
  - intros id q ->%Hz. lra.
  - split; [done|]. rewrite G2. assert (H0 : (shareTotal ((fun _ => 0%Q) <$> shares) == 0)%Q).
    { unfold shareTotal. transitivity (sumQ (fun _ : PoolKeyHash * Q => 0%Q) (map_to_list ((fun _ : Q => 0%Q) <$> shares))).
      - apply sumQ_ext. intros [k v] Hk%elem_of_map_to_list. simpl. by rewrite (Hz k v Hk).
      - induction (map_to_list _) as [|x l IH]; simpl; [lra|]. rewrite IH. lra. }
    rewrite H0. unfold e. field. lra.
Qed.

(** What a pool's members get in all. *)
Definition payout (pr : PoolRewards) : Z := OperatorRewards pr + msum (DelegatorRewards pr).

Lemma msum_list `{Countable K} (m : gmap K Z) : msum m = sum_by snd (map_to_list m).
Proof.
  unfold msum. rewrite map_fold_foldr. induction (map_to_list m) as [|[k v] l IH]; simpl; [done|]. by rewrite IH.
Qed.

Lemma msum_ids (m : gmap PoolKeyHash Z) : sum_by (fun id => default 0 (m !! id)) (sortedPoolIDs m) = msum m.
Proof.
  rewrite msum_list, (sum_by_perm _ _ _ (sortedPoolIDs_perm m)), sum_by_fmap. apply sum_by_ext.
  intros [k v] Hk%elem_of_map_to_list. simpl. by rewrite Hk.
Qed.

Lemma u64_nonneg z : 0 <= u64 z.
Proof. unfold u64. pose proof (Z.mod_pos_bound z 18446744073709551616). lia. Qed.

Lemma delegatorLoop_nonneg reg pot total ds : forall rewards assigned,
  map_Forall (fun _ v => 0 <= v) rewards ->
  map_Forall (fun _ v => 0 <= v) (fst (delegatorLoop reg pot total ds rewards assigned)).
Proof.
  induction ds as [|[k s] ds IH]; intros rewards assigned H; cbn [delegatorLoop]; [done|].
  destruct (default false (reg !! k)); apply IH; [|done]. apply map_Forall_insert_2; [apply u64_nonneg|done].
Qed.

Lemma delegators_nonneg rewards d pool s params :
  map_Forall (fun _ v => 0 <= v) (DelegatorRewards (distributePoolRewards rewards d pool s params)).
Proof.
  unfold distributePoolRewards. destruct (rewards <=? Cost pool); [apply map_Forall_empty|].
  match goal with |- context [if ?b then (rewards - ?x, ?x) else _] => destruct b end;
  match goal with |- context [if ?b then delegatorLoop ?r ?p ?t ?l ?m ?a else _] =>
    pose proof (delegatorLoop_nonneg r p t l m a (map_Forall_empty _)); destruct b end;
  try match goal with |- context [delegatorLoop ?r ?p ?t ?l ?m ?a] => destruct (delegatorLoop r p t l m a) end;
  cbn in *; (done || apply map_Forall_empty).
Qed.

(** A distribution that follows the calculation: what it pays in all. *)
Definition allocs_ok (m : gmap RewardCredential Z) : Prop := map_Forall (fun _ v => 0 <= v) m.

Lemma distributeLoop_sum s params amounts ids : snapshot_ok s ->
  forall rewards rewards',
  NoDup ids -> (forall id, id ∈ ids -> rewards !! id = None /\ 0 <= default 0 (amounts !! id) <= MaxUint64) ->
  map_Forall (fun _ pr => 0 <= OperatorRewards pr /\ allocs_ok (DelegatorRewards pr)) rewards ->
  distributeLoop s params amounts ids rewards = Ok rewards' ->
  msum (payout <$> rewards') = msum (payout <$> rewards) + sum_by (fun id => default 0 (amounts !! id)) ids /\
  map_Forall (fun _ pr => 0 <= OperatorRewards pr /\ allocs_ok (DelegatorRewards pr)) rewards'.
Proof.
  intros Hs. induction ids as [|id ids IH]; intros rewards rewards' Hnd Hin Hop E; cbn [distributeLoop sum_by] in *.
  { simplify_eq. split; [lia|done]. }
  apply NoDup_cons in Hnd as [Hni Hnd]. destruct (Hin id ltac:(constructor)) as [Hn Ha].
  destruct (PoolParams s !! id) as [[pool|]|] eqn:Ep; simpl in E; try done.
  destruct (snap_pools s Hs id pool Ep) as [Hc _].
  assert (Hd : map_Forall (fun _ v => 0 <= v) (default ∅ (DelegatorStake s !! id)) /\
               stakeTotal (default ∅ (DelegatorStake s !! id)) <= MaxUint64).
  { destruct (DelegatorStake s !! id) as [d|] eqn:Ed; [by apply (snap_delegators s Hs id)|]. simpl.
    split; [apply map_Forall_empty|]. unfold stakeTotal. rewrite map_to_list_empty. done. }
  destruct Hd as [Hd1 Hd2].
  pose proof (pool_split_sum (default 0 (amounts !! id)) (default ∅ (DelegatorStake s !! id)) pool s params
    Ha Hc Hd1 Hd2) as [Hsum Hpos].
  revert E. set (pr := distributePoolRewards _ _ _ _ _). fold pr in Hsum, Hpos. intros E.
  apply IH in E as [E1 E2].
  - split; [|done]. rewrite E1, fmap_insert, msum_insert_fresh by (by rewrite lookup_fmap, Hn).
    unfold payout at 1. rewrite Hsum. lia.
  - done.
  - intros j Hj. rewrite lookup_insert_ne; [apply Hin; by constructor|]. by intros ->.
  - apply map_Forall_insert_2; [|done]. split; [done|apply delegators_nonneg].
Qed.

Lemma addAllocation_sum (k : RewardCredential) (v : Z) (m : gmap RewardCredential Z) :
  0 <= v -> allocs_ok m -> msum m + v <= MaxUint64 ->
  msum (addAllocation k v m) = msum m + v /\ allocs_ok (addAllocation k v m).
Proof.
  intros Hv Hm Hle. unfold addAllocation. destruct (Z.ltb_spec 0 v); [|by split; [lia|]].
  assert (Hd : 0 <= default 0 (m !! k) <= msum m).
  { destruct (m !! k) as [w|] eqn:E; simpl; [|by split; [|apply msum_nonneg]].
    split; [by apply (Hm k)|by apply (msum_lookup_le m k)]. }
  rewrite u64_small by lia. split; [rewrite msum_insert; lia|]. apply map_Forall_insert_2; [lia|done].
Qed.

Lemma allocations_sum (l : list (RewardCredential * Z)) : forall m,
  Forall (fun kv => 0 <= snd kv) l -> allocs_ok m -> msum m + sum_by snd l <= MaxUint64 ->
  msum (foldl (fun m rv => addAllocation (fst rv) (snd rv) m) m l) = msum m + sum_by snd l /\
  allocs_ok (foldl (fun m rv => addAllocation (fst rv) (snd rv) m) m l).
Proof.
  induction l as [|[k v] l IH]; intros m Hf Hm Hle; cbn [foldl sum_by fst snd] in *; [by split; [lia|]|].
  apply Forall_cons in Hf as [Hv Hf]. simpl in Hv.
  assert (0 <= sum_by snd l) by (clear -Hf; induction Hf; simpl; lia).
  destruct (addAllocation_sum k v m Hv Hm ltac:(lia)) as [E1 E2].
  destruct (IH (addAllocation k v m) Hf E2 ltac:(lia)) as [E3 E4]. split; [lia|done].
Qed.

Lemma poolAllocations_sum pr m :
  0 <= OperatorRewards pr -> allocs_ok (DelegatorRewards pr) -> allocs_ok m -> msum m + payout pr <= MaxUint64 ->
  msum (poolAllocations pr m) = msum m + payout pr /\ allocs_ok (poolAllocations pr m).
Proof.
  intros Ho Hd Hm Hle. unfold poolAllocations, payout in *. rewrite (msum_list (DelegatorRewards pr)) in Hle |- *.
  assert (Hf : Forall (fun kv => 0 <= snd kv) (map_to_list (DelegatorRewards pr))).
  { apply Forall_forall. intros [k v] Hk%elem_of_map_to_list. by apply (Hd k). }
  assert (0 <= sum_by snd (map_to_list (DelegatorRewards pr))) by (clear -Hf; induction Hf; simpl; lia).
  destruct (addAllocation_sum (OperatorRewardAccount pr) (OperatorRewards pr) m Ho Hm ltac:(lia)) as [E1 E2].
  destruct (allocations_sum (map_to_list (DelegatorRewards pr)) _ Hf E2 ltac:(lia)) as [E3 E4].
  split; [lia|done].
Qed.

Lemma expectedAllocations_sum r :
  map_Forall (fun _ pr => 0 <= OperatorRewards pr /\ allocs_ok (DelegatorRewards pr)) (PoolRewardsOf r) ->
  msum (payout <$> PoolRewardsOf r) <= MaxUint64 ->
  msum (expectedAllocations r) = msum (payout <$> PoolRewardsOf r).
Proof.
  intros Hr Hle. unfold expectedAllocations.
  assert (E : msum (payout <$> PoolRewardsOf r) = sum_by (fun kv => payout (snd kv)) (map_to_list (PoolRewardsOf r))).
  { by rewrite msum_list, map_to_list_fmap, sum_by_fmap. }
  rewrite E in Hle |- *. clear E.
  assert (Hf : Forall (fun kv => 0 <= OperatorRewards (snd kv) /\ allocs_ok (DelegatorRewards (snd kv)))
                 (map_to_list (PoolRewardsOf r))).
  { apply Forall_forall. intros [k v] Hk%elem_of_map_to_list. by apply (Hr k). }
  assert (Hgen : forall l m, Forall (fun kv : PoolKeyHash * PoolRewards => 0 <= OperatorRewards (snd kv) /\
      allocs_ok (DelegatorRewards (snd kv))) l -> allocs_ok m ->
      msum m + sum_by (fun kv => payout (snd kv)) l <= MaxUint64 ->
      msum (foldl (fun m kv => poolAllocations (snd kv) m) m l) = msum m + sum_by (fun kv => payout (snd kv)) l).
  { induction l as [|[k pr] l IH]; intros m Hl Hm Hb; cbn [foldl sum_by snd] in *; [lia|].
    apply Forall_cons in Hl as [[H1 H2] Hl]. simpl in H1, H2.
    assert (0 <= sum_by (fun kv : PoolKeyHash * PoolRewards => payout (snd kv)) l).
    { clear -Hl. induction Hl as [|x l [Hx1 Hx2] _ IH]; simpl; [lia|]. unfold payout at 1.
      pose proof (msum_nonneg _ Hx2). lia. }
    destruct (poolAllocations_sum pr m H1 H2 Hm ltac:(lia)) as [E1 E2]. rewrite (IH _ Hl E2) by lia. lia. }
  rewrite Hgen; [done|done|apply map_Forall_empty|done].
Qed.

(** The shares that are apportioned are nonnegative and add up to their total. *)
Lemma final_shares s params shares total elig shares' total' :
  snapshot_ok s -> validateDijkstraRewardParameters params = Ok () ->
  shareLoop s params (sortedPoolIDs (PoolStake s)) ∅ 0 [] = Ok (shares, total, elig) ->
  size shares <> 0%nat -> (Qeq_bool total 0 && (pledgeLeverageActive params && bool_decide (elig = []))) = false ->
  (if Qeq_bool total 0 then
     (equalShares shares (if pledgeLeverageActive params then elig else sortedPoolIDs shares), 1%Q)
   else (shares, total)) = (shares', total') ->
  (forall id q, shares' !! id = Some q -> (0 <= q)%Q) /\ (0 < total')%Q /\ (total' == shareTotal shares')%Q.
Proof.
  intros Hs Hv E Hsz Hguard Efin.
  apply (shareLoop_ok s params _ Hs Hv) in E as (H1 & H2 & H3 & H4).
  - destruct (qeqb_spec total 0) as [Hz|Hz]; injection Efin as <- <-.
    + cbn [andb] in Hguard. assert (Hids : (if pledgeLeverageActive params then elig else sortedPoolIDs shares) <> []).
      { destruct (pledgeLeverageActive params); cbn [andb] in Hguard; [by apply bool_decide_eq_false in Hguard|].
        intros El. apply Hsz. rewrite <- length_map_to_list, <- (length_fmap fst), <- sortedPoolIDs_perm, El. done. }
      destruct (equalShares_ok shares (if pledgeLeverageActive params then elig else sortedPoolIDs shares)) as [G1 G2];
        [|done| |].
      * destruct (pledgeLeverageActive params); [done|apply sortedPoolIDs_NoDup].
      * destruct (pledgeLeverageActive params); [done|]. intros id. apply elem_of_sortedPoolIDs.
      * split_and!; [done|lra|]. lra.
    + split_and!; [done| |done]. assert (0 <= shareTotal shares)%Q; [|lra].
      apply sumQ_nonneg. intros [k q] Hk%elem_of_map_to_list. by apply (H1 k).
  - apply sortedPoolIDs_NoDup.
  - intros. apply lookup_empty.
  - intros id q Hq. by rewrite lookup_empty in Hq.
  - unfold shareTotal. rewrite map_to_list_empty. simpl. lra.
  - constructor.
  - by intros id ?%elem_of_nil.
Qed.

(** *** What the calculation leaves unread *)

(** The snapshot with other records of deregistrations, retirements and
    associations. *)
Definition withEvents (s : RewardSnapshot) (early late : gmap AddrKeyHash Z) (retired : gmap PoolKeyHash PoolRetirementInfo)
    (associations : gmap AddrKeyHash (list PoolKeyHash)) : RewardSnapshot :=
  mkSnapshot (TotalActiveStake s) (PoolStake s) (DelegatorStake s) (PoolParams s) (StakeRegistrations s) (PoolBlocks s) (TotalBlocksInEpoch s)
    early late retired associations.

Lemma shareLoop_events s early late retired assoc params ids : forall shares total elig,
  shareLoop (withEvents s early late retired assoc) params ids shares total elig = shareLoop s params ids shares total elig.
Proof.
  induction ids as [|id ids IH]; intros shares total elig; [done|]. cbn [shareLoop].
  change (PoolParams (withEvents s early late retired assoc)) with (PoolParams s).
  destruct (PoolParams s !! id) as [[pool|]|]; [|done|apply IH]. destruct (negb _); [done|]. apply IH.
Qed.

Lemma distributeLoop_events s early late retired assoc params amounts ids : forall rewards,
  distributeLoop (withEvents s early late retired assoc) params amounts ids rewards = distributeLoop s params amounts ids rewards.
Proof.
  induction ids as [|id ids IH]; intros rewards; [done|]. cbn [distributeLoop].
  change (PoolParams (withEvents s early late retired assoc)) with (PoolParams s).
  destruct (default None (PoolParams s !! id)); [apply IH|done].
Qed.

Lemma CalculateRewards_events pots s params early late retired assoc :
  CalculateRewards pots (withEvents s early late retired assoc) params = CalculateRewards pots s params.
Proof.
  unfold CalculateRewards. rewrite shareLoop_events. destruct (validateDijkstraRewardParameters params) as [[]|]; [|done].
  cbn [mbind result_bind]. change (TotalActiveStake (withEvents s early late retired assoc)) with (TotalActiveStake s).
  change (PoolStake (withEvents s early late retired assoc)) with (PoolStake s).
  destruct (_ || _); [done|]. destruct (shareLoop _ _ _ _ _ _) as [[[shares total] elig]|]; [|done]. cbn [mbind result_bind].
  case_bool_decide; [done|]. destruct (_ && _); [done|]. destruct (if Qeq_bool total 0 then _ else _). by rewrite distributeLoop_events.
Qed.

(** C30. The reward calculation distributes its pot to the pools and nothing
    else. When it succeeds on a snapshot of amounts the chain can hold, it either
    distributes nothing and leaves the pots as they were, or it empties the
    rewards pot, with reserves and treasury as they were: what operators and
    delegators of all pools get adds up to exactly the pot, whatever the shares,
    margins, costs, pledges and registrations, and every distribution that the
    validation accepts pays out exactly the pot. The early and late
    deregistrations, retired pools and associations that a snapshot records do
    not change the result: the calculation reads none of them, and no reward is
    sent to reserves or treasury on their account. *)
Theorem rewards_conserved pots snapshot params r :
  snapshot_ok snapshot -> 0 <= PotRewards pots <= MaxUint64 ->
  CalculateRewards pots snapshot params = Ok r ->
  ((r = mkRewardResult 0 ∅ pots) \/
   TotalRewards r = PotRewards pots /\ UpdatedPots r = mkPots (Reserves pots) (Treasury pots) 0 /\
   msum (payout <$> PoolRewardsOf r) = PotRewards pots /\
   forall actual, ValidateRewardDistribution r actual = true -> msum actual = PotRewards pots) /\
  (forall early late retired associations,
     CalculateRewards pots (withEvents snapshot early late retired associations) params = Ok r).
Proof.
  intros Hs Hp E. split; [|intros; by rewrite CalculateRewards_events]. unfold CalculateRewards in E. apply bind_Ok in E as ([] & Hv & E).
  destruct (_ || _); [by simplify_eq; left|]. apply bind_Ok in E as ([[shares total] elig] & Esh & E).
  case_bool_decide as Hsz; [done|].
  destruct (Qeq_bool total 0 && _) eqn:Hg; [by simplify_eq; left|].
  destruct (if Qeq_bool total 0 then _ else _) as [shares' total'] eqn:Ef.
  apply bind_Ok in E as (rewards & Er & [= <-]). right. cbn [TotalRewards UpdatedPots PoolRewardsOf].
  destruct (final_shares snapshot params shares total elig shares' total' Hs Hv Esh Hsz Hg Ef) as (F1 & F2 & F3).
  destruct (apportion_spec (PotRewards pots) shares' total' Hp F1 F2 F3) as (A1 & A2 & A3 & _).
  set (amounts := apportionRewardPot (PotRewards pots) shares' total') in *.
  assert (Hnn : map_Forall (fun _ v => 0 <= v) amounts).
  { intros id v Hv'. pose proof (proj1 (A2 id) ltac:(by eexists)) as Hsh.
    pose proof (exactShare_nonneg (PotRewards pots) shares' total' Hp F1 F2 F3 id) as He.
    destruct (ratFloor_spec _ He) as (Hfl & _). unfold floorShare in A3.
    destruct (A3 id Hsh) as [E|E]; rewrite E in Hv'; injection Hv' as <-; lia. }
  apply distributeLoop_sum in Er as [Er1 Er2]; [|done|apply sortedPoolIDs_NoDup| |apply map_Forall_empty].
  - rewrite msum_ids, A1 in Er1. rewrite fmap_empty in Er1. change (msum ∅) with 0 in Er1.
    assert (Hsum : msum (payout <$> rewards) = PotRewards pots) by lia. split_and!; try done.
    intros actual Hact%bool_decide_eq_true. rewrite <- Hact.
    rewrite expectedAllocations_sum; cbn [PoolRewardsOf]; [done|done|lia].
  - intros id Hid. split; [apply lookup_empty|]. apply elem_of_sortedPoolIDs in Hid as [v Hv'].
    rewrite Hv'. simpl. split; [by apply (Hnn id)|]. pose proof (msum_lookup_le amounts id v Hnn Hv'). lia.
Qed.

(** ** Witnesses *)

Definition demoRewardParams : RewardParameters :=
  mkRewardParams 3000 2000 9 None None (Some (3 # 10)) (Some (1 # 20)) 432000.

(** An instance: 0.3% of the reserves at half the expected blocks, 20% to the treasury. *)
Lemma pots_conserved_witness :
  exists p, CalculateAdaPots (mkPots 1000000 500 0) demoRewardParams 100 10800 = Ok p /\
    Reserves p + Treasury p + PotRewards p = 1000600.
Proof.
  eexists. split; [vm_compute; reflexivity|].
  apply (pots_conserved (mkPots 1000000 500 0) demoRewardParams 100 10800);
    try (unfold MaxUint64; simpl; lia). vm_compute. reflexivity.
Defined.

(** Walk through the entries of a literal map. *)
Ltac entries H tac :=
  repeat (apply lookup_insert_Some in H as [[_ <-]|[_ H]]; [tac|]);
  apply lookup_singleton_Some in H as [_ <-]; tac.

Definition demoShares : gmap PoolKeyHash Q := {[ [1] := (1 # 6)%Q; [2] := (1 # 6)%Q; [3] := (1 # 6)%Q ]}.

(** An instance: ten lovelace for three equal pools. *)
Lemma apportion_exact_witness :
  msum (apportionRewardPot 10 demoShares (1 # 2)) = 10 /\ apportionRewardPot 10 demoShares (1 # 2) !! [1] = Some 4.
Proof.
  destruct (apportion_exact 10 demoShares (1 # 2)) as (H & _).
  - unfold MaxUint64. lia.
  - intros id q Hq. unfold demoShares in Hq.
    entries Hq ltac:(vm_compute; discriminate).
  - reflexivity.
  - vm_compute. reflexivity.
  - split; [exact H|vm_compute; reflexivity].
Defined.

(** Two pools: one with a margin and a delegator that is not registered, who left early. *)
Definition demoSnapshot : RewardSnapshot :=
  mkSnapshot 1000 {[ [1] := 600; [2] := 400 ]}
    {[ [1] := {[ [11] := 500; [12] := 100 ]}; [2] := {[ [21] := 400 ]} ]}
    {[ [1] := Some (mkPoolParams 340 100 (Some (1 # 10)) [[11]] (0, [11]));
       [2] := Some (mkPoolParams 340 0 (Some 0%Q) [] (1, [22])) ]}
    {[ [11] := true; [21] := true ]} {[ [1] := 3; [2] := 2 ]} 5 {[ [12] := 100 ]} ∅ ∅ ∅.

Lemma demo_snapshot_ok : snapshot_ok demoSnapshot.
Proof.
  split; try (cbn; lia).
  - intros id v H. cbn [PoolStake demoSnapshot] in H. entries H ltac:(lia).
  - intros id v H. cbn [PoolBlocks demoSnapshot] in H. entries H ltac:(lia).
  - intros id p H. cbn [PoolParams demoSnapshot] in H.
    apply lookup_insert_Some in H as [[_ [= <-]]|[_ H]]; [cbn; lia|].
    apply lookup_singleton_Some in H as [_ [= <-]]. cbn. lia.
  - intros id d H. cbn [DelegatorStake demoSnapshot] in H.
    entries H ltac:(split; [intros k v Hk; entries Hk ltac:(lia)|by vm_compute]).
Qed.

(** Witness of C30. *)
Lemma rewards_conserved_witness :
  exists r, CalculateRewards (mkPots 0 0 5000) demoSnapshot demoRewardParams = Ok r /\
    msum (payout <$> PoolRewardsOf r) = 5000 /\
    CalculateRewards (mkPots 0 0 5000) (withEvents demoSnapshot ∅ {[ [12] := 200000 ]} ∅ ∅) demoRewardParams = Ok r.
Proof.
  eexists. split; [vm_compute; reflexivity|].
  match goal with |- msum (payout <$> PoolRewardsOf ?r) = _ /\ _ =>
    destruct (rewards_conserved (mkPots 0 0 5000) demoSnapshot demoRewardParams r demo_snapshot_ok) as [[H|(_ & _ & H & _)] E] end.
  - unfold MaxUint64. simpl. lia.
  - vm_compute. reflexivity.
  - discriminate H.
  - split; [exact H|apply E].
Defined.
